(* ===== verification/_CoqProject ===== *)
-Q . S2P
Prelude.v
Coding.v
Comparator.v
Math.v
Hash.v
Status.v
DbFormat.v
Float64.v
BlockHashIndex.v
BlockBuilder.v
BlockIter.v
BlockIterSpec.v
BlockIterProofs.v
BlockReader.v
BlockSeekForGet.v
CommitCache.v
PreparedHeap.v
WritePrepared.v
WritePreparedSpec.v
WritePreparedProofs.v
WritePreparedCallbacks.v
StateMonad.v
SkipList.v
SkipListProofs.v
SkipListWriter.v
SkipListTheorems.v
BinaryHeap.v
DeadlockBuffer.v
PointLock.v
WaitGraph.v
PointLockTable.v
PointLockSystem.v
LockTracker.v
TrackerCounts.v
Transaction.v
TransactionProofs.v
PointLockMgr.v
TransactionTheorems.v
TransactionLife.v
Optimistic.v
OptimisticProofs.v
Bloom.v
BloomProofs.v
Ribbon.v
RibbonProofs.v
RibbonSolution.v
RibbonTheorems.v
RibbonConfig.v
FilterPolicy.v
FilterProofs.v
FilterLegacy.v
RibbonBuilder.v
RibbonBuilderProofs.v
BuiltinPolicies.v
BuiltinPoliciesProofs.v
DynamicBloom.v
Crc32c.v
Crc32cProofs.v
Xxhash.v
XxhashProofs.v
TableFormat.v
TableFormatProofs.v
LruTable.v
LruCache.v
LruPools.v
LruSpec.v
LruProofs.v
LruRefine.v
LruTheorems.v
