(* ===== verification/Prelude.v ===== *)
(** * RocksDB storage engine: a verification development

    The program is the RocksDB storage engine (C++, under
    src/autorocks-sys/rocksdb/; paths below are relative to it) with a Rust
    binding on top. The development models the parts on which the correctness
    of reads and commits rests: the byte formats of keys, blocks, filters and
    table files with their checksums, the skip list of memtables, the visibility
    rules of WritePrepared transactions, the locks of pessimistic transactions
    with their deadlock detection, their life cycle, the validation of
    optimistic transactions, and the LRU block cache.

    A transaction ([Transaction], [Optimistic]) tracks its keys in a
    [LockTracker] and, if it is pessimistic, locks them in the lock manager
    ([PointLock]), whose contract ([PointLockMgr]) is what its theorems assume. A
    data block is written by [BlockBuilder] with its [BlockHashIndex] and read
    through [BlockIter]; a filter ([BuiltinPolicies] over [FilterPolicy], [Bloom]
    and [Ribbon]) tells which blocks to skip; handles, footers and checksums ([TableFormat] over [Coding],
    [Crc32c], [Xxhash]) tie a file together. [WritePrepared] decides which of
    the versions that are found a snapshot sees.

    ** Conventions

    An unsigned integer of [w] bits is a [Z] with the wrap-around written out
    ([u8], [u16], [u32], [u64]); a byte string is a list of bytes; a pointer into
    a buffer is an offset or the remaining suffix. Assertions are off, as in
    release builds. Fallible code returns an option or a [Status]; [None] also
    stands for an exception, and in [StateMonad] for undefined behaviour. A heap
    object is an identifier, and freeing it removes it from the heap. Code that is not among the sources, chiefly the
    db/ directory, is a class parameter whose documented behaviour is a second
    class of laws; concrete instances are used by the witnesses.

    ** Files

    - [Prelude]: machine integers, byte strings, shared lemmas and tactics.
    - [Coding]: util/coding.h, util/coding.cc, util/coding_lean.h. Every encoder
      is inverted by its decoder, on either byte order, and decoders are safe on
      arbitrary input.
    - [Comparator]: util/comparator.cc, include/rocksdb/slice.h. The orders, and
      the contracts of separators, successors and immediate successors.
    - [Math], [Hash]: util/math.h, math128.h, fastrange.h, hash.h, hash.cc.
      Portable code agrees with the arithmetic it replaces; the bijective hash
      is invertible.
    - [Status], [DbFormat]: include/rocksdb/status.h, and the interface to
      db/dbformat.h (internal keys, [IterKey]) with its laws.
    - [Float64]: binary64 arithmetic, on the standard library's floats, and the
      bounds of one rounding.
    - [BlockHashIndex]: table/block_based/data_block_hash_index.{h,cc} and
      data_block_footer.cc.
    - [BlockBuilder]: table/block_based/block_builder.{h,cc}, with the layout of
      the blocks it writes: exact sizes, and the equivalence of its two ways of
      adding.
    - [BlockIter] (definitions), [BlockIterSpec] (decoding one entry, parsing,
      binary search), [BlockIterProofs] (each operation as a move of an abstract
      cursor): table/block_based/block.{h,cc}. Data and meta iterators share
      their loops through the class [IterClass].
    - [BlockReader]: any sequence of operations on the iterator of a built block
      shows what a cursor on the list of added pairs shows. [BlockSeekForGet]:
      point lookups through the hash index.
    - [CommitCache], [PreparedHeap]: CommitEntry64b and PreparedHeap of
      utilities/transactions/write_prepared_txn_db.h.
    - [WritePrepared]: the members of WritePreparedTxnDB as a record and one
      function per method of write_prepared_txn_db.{h,cc}; [WritePreparedSpec]:
      what each of them changes; [WritePreparedProofs]: the state machine whose
      steps are the operations, its invariant, and the correctness of
      IsInSnapshot, ValidateSnapshot, SmallestUnCommittedSeq and AddCommitted;
      [WritePreparedCallbacks]: the callbacks of the write path as runs of that
      machine, and the read callbacks.
    - [StateMonad]: stateful code that may be undefined, with weakest
      preconditions.
    - [SkipList]: memtable/skiplist.h, a search taking one memory per load;
      [SkipListProofs]: the invariant and the searches; [SkipListWriter]: each
      store of Insert; [SkipListTheorems]: the list refines a sorted list of
      keys, and readers beside the writer are right.
    - [BinaryHeap]: util/heap.h. A bag whose top is a greatest element.
    - [DeadlockBuffer]: the ring buffer DeadlockInfoBufferTempl of
      utilities/transactions/lock/point/point_lock_manager.h.
    - [PointLock]: utilities/transactions/lock/point/point_lock_manager.cc, one
      function per method, AcquireWithTimeout cut where it waits. [WaitGraph]:
      deadlock detection finds the cycles and the graph never has one.
      [PointLockTable]: who gets and who loses a lock. [PointLockSystem]: all of
      it under many transactions, and the defects that were found.
    - [LockTracker]: utilities/transactions/lock/point/point_lock_tracker.{h,cc};
      what it holds after any requests, merged and subtracted ones included;
      [TrackerCounts]: its operations as arithmetic on counts.
    - [Transaction]: transaction_base.cc, pessimistic_transaction.cc and
      transaction_util.cc; [TransactionProofs], [TransactionTheorems]: locks and
      trackers follow an abstract stack of counts through save points and
      rollbacks, where no validation after a lock upgrade fails and no
      untracked key is assumed to be tracked (both lose the correspondence);
      [PointLockMgr]: the lock manager meets the contract assumed
      there; [TransactionLife]: the automaton of its states.
    - [Optimistic], [OptimisticProofs]: optimistic_transaction.cc, both
      validation policies, as a system of interleaved transactions.
    - [Bloom], [BloomProofs]: util/bloom_impl.h, scalar and AVX2 queries.
      [DynamicBloom]: util/dynamic_bloom.{h,cc} under concurrent adds.
    - [Ribbon]: util/ribbon_alg.h and util/ribbon_impl.h, for all types and
      settings of the templates, which are a record. The theorems are about the
      settings of the predicate [settings]. [RibbonProofs]: a banding has
      exactly the solutions of the equations that were added; [RibbonSolution]:
      back substitution into both layouts, and the queries; [RibbonTheorems]: the
      search for a seed is exact, functions of up to 32 bits give back their
      values, roll-back undoes. [RibbonConfig]: util/ribbon_config.{h,cc}.
    - [FilterPolicy]: the readers, the base class of the builders and the Bloom
      builders of table/block_based/filter_policy.cc; [RibbonBuilder]:
      Standard128RibbonBitsBuilder; [BuiltinPolicies]: the policies that choose a
      builder. [FilterProofs], [FilterLegacy], [RibbonBuilderProofs]: what each
      builder writes, its reader finds all keys in, and the defect of size
      rounding; [BuiltinPoliciesProofs]: the bits per key of a policy are in
      bounds for every double, and no false negatives from the configuration to
      the reader for filters within the bounds of their formats ([sized]).
    - [Crc32c], [Crc32cProofs]: util/crc32c.{h,cc}, against the bitwise
      definition, and the combination of checksums. [Xxhash], [XxhashProofs]:
      XXH32 and XXH64 of util/xxhash.h, streaming against one call.
    - [TableFormat], [TableFormatProofs]: table/format.{h,cc}. Handles, index
      values and footers are read back; the checksum of a block and its last byte.
    - [LruTable]: LRUHandle and LRUHandleTable of cache/lru_cache.{h,cc};
      [LruCache]: LRUCacheShard; [LruPools]: the LRU list and its priority pools;
      [LruSpec]: what each operation promises of the objects in the cache;
      [LruProofs], [LruRefine], [LruTheorems]: the invariant, each operation
      against the specification for callers that keep to [pre] and without a
      secondary cache, and the defects that were found outside of that.

    ** Concurrency

    In [WritePreparedProofs] an operation that changes the state is one step.
    A reader is not: IsInSnapshot takes a state per load, and any number of
    steps may happen between two loads. Interleavings inside two changing
    operations are not covered; neither are weak memory orders. In
    [PointLockSystem] a step is the code of a thread between two waits; the
    theorems of [WaitGraph] take each entry to and exit from the wait-for graph,
    which one mutex guards, as a step of its own. An operation of the cache shard
    is one step. A reader of the skip list takes a memory per load, with any number of the
    writer's stores between two of them; the threads of [DynamicBloom] access
    one word at a time; an optimistic commit under bucket locks is cut at each
    lock, at the check and at the write. A pessimistic transaction's calls are
    steps between which its locks may be stolen.

    ** Bounds and fuel

    Loops that are not structural take fuel that is enough on every input the
    theorems speak about, and the theorems about results are stated of the
    definitions with that fuel, so they include termination: a varint has at
    most ten bytes; a block iterator advances at least one byte per entry, so
    the size of the block bounds its scans ([scan_fuel]); a binary search over
    the restart points, a scan for a restart point and the clean-up of
    snapshots are bounded by the lengths of the arrays. The 99 repetitions of
    IsInSnapshot and the 101 retries of AddCommitted are the source's own.
    A pass over the LRU list or a pool is bounded by its length, a walk in the
    heap by its size, and the search for a deadlock by the source's own depth. One
    round of the loop of AcquireWithTimeout is enough where there is no limit
    on the number of locks; with one, [lock_limit_spins] shows no number is.
    Blocks are below 4 GiB, sequence numbers have 56 bits and the commit cache
    at most 2^48 entries, as the formats demand.

    The searches of the skip list are bounded by its nodes and levels, the
    buffers of checksums and filters by their lengths, the squarings of
    Crc32AppendZeroes by the 64 bits of a length. Adding to a banding moves to a
    later row in each round, so the number of rows bounds it; the search
    for a seed ends when the seeds come round. Filters are below 4 GiB and a
    Ribbon filter has less than 2^24 blocks, as its format demands.

    ** Not modelled

    IndexBlockIter and the read-amplification bitmap; GetSnapshotInternal,
    WriteInternal, recovery and the counting of sub-batches in WritePrepared.
    In the lock manager the thread-local cache of lock maps, and in the cache
    the sharded wrapper, printing and the refinement of shards with a secondary
    cache (whose operations are modelled). Of the filters, the
    reservation of cache memory (its answer is a parameter of the Ribbon builder)
    and the names and parsing of policies; of the checksums, XXH3 and the implementations
    of CRC-32C for ARM, POWER and three interleaved streams. The parts that
    are built on the db/ directory, which is not among the sources (write path,
    recovery, compaction, write-unprepared transactions), and those that are chiefly
    lock-free (InlineSkipList, the clock cache) or wrap a bundled library (the
    range locks). File and environment I/O, statistics, logging, option parsing,
    the tools and the Rust binding, which only forwards calls, have no model. *)

From stdpp Require Import prelude.
From Stdlib Require Import ZArith Lia Bool.

#[global] Open Scope Z_scope.

(** ** Machine integers

    An unsigned [w]-bit integer is a [Z] in [0, 2^w); every C++ operation
    that can leave the range is followed by the corresponding wrap. *)

Definition u8 (z : Z) : Z := z mod 2 ^ 8.
Definition u16 (z : Z) : Z := z mod 2 ^ 16.
Definition u32 (z : Z) : Z := z mod 2 ^ 32.
Definition u64 (z : Z) : Z := z mod 2 ^ 64.

(** Reinterpretation of a [w]-bit pattern as a two's complement number. *)
Definition signed (w z : Z) : Z :=
  let m := z mod 2 ^ w in if m <? 2 ^ (w - 1) then m else m - 2 ^ w.
Definition i8 (z : Z) : Z := signed 8 z.
Definition i32 (z : Z) : Z := signed 32 z.
Definition i64 (z : Z) : Z := signed 64 z.

Definition is_u (w z : Z) : Prop := 0 <= z < 2 ^ w.

(** Bytes are [Z] in [0, 256); a byte string is a list of them. *)
Definition is_byte (b : Z) : Prop := is_u 8 b.
Definition bytes_ok (l : list Z) : Prop := Forall is_byte l.

(** ** Byte strings indexed by machine integers *)

Definition zlen {A} (l : list A) : Z := Z.of_nat (length l).
Definition ztake {A} (n : Z) (l : list A) : list A := take (Z.to_nat n) l.
Definition zdrop {A} (n : Z) (l : list A) : list A := drop (Z.to_nat n) l.
(** The bytes of [l] from offset [off], [n] of them. *)
Definition zsub {A} (off n : Z) (l : list A) : list A := ztake n (zdrop off l).
(** A single byte read; C++ leaves a read past the buffer undefined and the
    model returns 0 there. *)
Definition byte_at (l : list Z) (off : Z) : Z := nth (Z.to_nat off) l 0.

#[global] Arguments zlen {A} _ : simpl never.
#[global] Arguments ztake {A} _ _ : simpl never.
#[global] Arguments zdrop {A} _ _ : simpl never.
#[global] Arguments zsub {A} _ _ _ : simpl never.
#[global] Arguments byte_at _ _ : simpl never.
#[global] Arguments u8 _ : simpl never.
#[global] Arguments u16 _ : simpl never.
#[global] Arguments u32 _ : simpl never.
#[global] Arguments u64 _ : simpl never.

Create HintDb words discriminated.
Create Rewrite HintDb zlist.
Create Rewrite HintDb tbit.

Section wrap.
Context (z : Z).

Lemma u8_range : 0 <= u8 z < 2 ^ 8. Proof. apply Z.mod_pos_bound; lia. Qed.
Lemma u16_range : 0 <= u16 z < 2 ^ 16. Proof. apply Z.mod_pos_bound; lia. Qed.
Lemma u32_range : 0 <= u32 z < 2 ^ 32. Proof. apply Z.mod_pos_bound; lia. Qed.
Lemma u64_range : 0 <= u64 z < 2 ^ 64. Proof. apply Z.mod_pos_bound; lia. Qed.
Lemma u8_small : 0 <= z < 2 ^ 8 -> u8 z = z. Proof. apply Z.mod_small. Qed.
Lemma u16_small : 0 <= z < 2 ^ 16 -> u16 z = z. Proof. apply Z.mod_small. Qed.
Lemma u32_small : 0 <= z < 2 ^ 32 -> u32 z = z. Proof. apply Z.mod_small. Qed.
Lemma u64_small : 0 <= z < 2 ^ 64 -> u64 z = z. Proof. apply Z.mod_small. Qed.
End wrap.

#[export] Hint Resolve u8_range u16_range u32_range u64_range : words.

(** ** Bits *)

Lemma tbit_mod a n i : 0 <= n -> Z.testbit (a mod 2 ^ n) i = (i <? n) && Z.testbit a i.
Proof.
  intros Hn. destruct (Z.ltb_spec i n); simpl.
  - by apply Z.mod_pow2_bits_low.
  - by apply Z.mod_pow2_bits_high.
Qed.

Lemma tbit_high a n i : 0 <= a < 2 ^ n -> n <= i -> Z.testbit a i = false.
Proof.
  intros Ha Hi. destruct (decide (a = 0)) as [->|]; [apply Z.bits_0|].
  apply Z.bits_above_log2; [lia|].
  assert (Z.log2 a < n); [|lia]. apply Z.log2_lt_pow2; lia.
Qed.

Lemma tbit_neg a i : i < 0 -> Z.testbit a i = false.
Proof. apply Z.testbit_neg_r. Qed.

Lemma land_ones_mod a n : 0 <= n -> Z.land a (2 ^ n - 1) = a mod 2 ^ n.
Proof. intros. rewrite <- Z.land_ones by lia. f_equal. rewrite Z.ones_equiv. lia. Qed.

Lemma tbit_ones n i : 0 <= n -> Z.testbit (2 ^ n - 1) i = (0 <=? i) && (i <? n).
Proof.
  intros. replace (2 ^ n - 1) with (Z.ones n) by (rewrite Z.ones_equiv; lia).
  by rewrite Z.testbit_ones by lia.
Qed.

(** [lor] of numbers with disjoint bits is their sum. *)
Lemma lor_add_pow2 a b n : 0 <= n -> 0 <= a < 2 ^ n -> Z.lor a (Z.shiftl b n) = a + b * 2 ^ n.
Proof.
  intros Hn Ha. rewrite <- Z.shiftl_mul_pow2 by lia.
  symmetry. apply Z.add_nocarry_lor, Z.bits_inj'; intros i Hi.
  rewrite Z.land_spec, Z.bits_0, Z.shiftl_spec by lia.
  destruct (Z.ltb_spec i n).
  - rewrite (tbit_neg b) by lia. apply andb_false_r.
  - by rewrite (tbit_high a n).
Qed.

(** [bitwise]: two numbers are equal when all their bits are. The tactic pushes
    [Z.testbit] to the leaves, splits on the comparisons it meets and closes
    the boolean goals. *)
#[export] Hint Rewrite Z.lor_spec Z.land_spec Z.lxor_spec Z.ldiff_spec Z.bits_0 : tbit.
#[export] Hint Rewrite Z.shiftl_spec Z.shiftr_spec tbit_mod tbit_ones using lia : tbit.

Ltac bit_idx :=
  repeat match goal with
  | |- context [Z.testbit ?a ?i] =>
      match goal with
      | |- context [Z.testbit a ?j] =>
          tryif constr_eq i j then fail else (replace j with i by lia)
      end
  end.

Ltac bit_case :=
  match goal with
  | |- context [?a <? ?b] => destruct (Z.ltb_spec a b)
  | |- context [?a <=? ?b] => destruct (Z.leb_spec a b)
  | |- context [Z.testbit ?a ?i] => rewrite (Z.testbit_neg_r a i) by lia
  end.

Ltac bitwise :=
  apply Z.bits_inj'; intros ?i ?Hi;
  repeat (progress autorewrite with tbit || bit_case);
  simpl; bit_idx; try lia; rewrite ?andb_true_r, ?andb_false_r, ?orb_false_r, ?xorb_false_r;
  try reflexivity; try lia.

(** ** Byte-string lemmas *)

Section zlist.
Context {A : Type}.
Implicit Types l k : list A.

Lemma zlen_nonneg l : 0 <= zlen l. Proof. unfold zlen; lia. Qed.
Lemma zlen_nil : zlen (@nil A) = 0. Proof. done. Qed.
Lemma zlen_cons x l : zlen (x :: l) = 1 + zlen l. Proof. unfold zlen; simpl; lia. Qed.
Lemma zlen_app l k : zlen (l ++ k) = zlen l + zlen k.
Proof. unfold zlen. rewrite length_app. lia. Qed.
Lemma zlen_app_ge l k : zlen l <= zlen (l ++ k).
Proof. rewrite zlen_app. pose proof (zlen_nonneg k). lia. Qed.
Lemma zlen_ztake n l : 0 <= n <= zlen l -> zlen (ztake n l) = n.
Proof. unfold zlen, ztake. intros. rewrite length_take. lia. Qed.
Lemma zlen_zdrop n l : 0 <= n <= zlen l -> zlen (zdrop n l) = zlen l - n.
Proof. unfold zlen, zdrop. intros. rewrite length_drop. lia. Qed.
Lemma zlen_zsub o n l : 0 <= o -> 0 <= n -> o + n <= zlen l -> zlen (zsub o n l) = n.
Proof. unfold zsub. intros. apply zlen_ztake. rewrite zlen_zdrop; lia. Qed.

Lemma ztake_app l k : ztake (zlen l) (l ++ k) = l.
Proof. unfold ztake, zlen. rewrite Nat2Z.id. apply take_app_length. Qed.
Lemma zdrop_app l k : zdrop (zlen l) (l ++ k) = k.
Proof. unfold zdrop, zlen. rewrite Nat2Z.id. apply drop_app_length. Qed.
Lemma ztake_app' n l k : n = zlen l -> ztake n (l ++ k) = l.
Proof. intros ->. apply ztake_app. Qed.
Lemma zdrop_app' n l k : n = zlen l -> zdrop n (l ++ k) = k.
Proof. intros ->. apply zdrop_app. Qed.
Lemma ztake_all l : ztake (zlen l) l = l.
Proof. unfold ztake, zlen. rewrite Nat2Z.id. apply take_ge. lia. Qed.
Lemma ztake_0 l : ztake 0 l = []. Proof. done. Qed.
Lemma zdrop_0 l : zdrop 0 l = l. Proof. done. Qed.
Lemma ztake_zdrop n l : ztake n l ++ zdrop n l = l. Proof. apply take_drop. Qed.

Lemma zdrop_zdrop m n l : 0 <= m -> 0 <= n -> zdrop m (zdrop n l) = zdrop (n + m) l.
Proof. unfold zdrop. intros. rewrite drop_drop. f_equal. lia. Qed.

(** A read in the middle of a concatenation. *)
Lemma zsub_app_mid l k k' o n : o = zlen l -> n = zlen k -> zsub o n (l ++ k ++ k') = k.
Proof. intros -> ->. unfold zsub. rewrite zdrop_app. apply ztake_app. Qed.
Lemma zsub_all l : zsub 0 (zlen l) l = l. Proof. apply ztake_all. Qed.
Lemma zsub_split o n m l :
  0 <= o -> 0 <= n -> 0 <= m -> zsub o (n + m) l = zsub o n l ++ zsub (o + n) m l.
Proof.
  intros. unfold zsub. rewrite <- (zdrop_zdrop n o) by lia.
  unfold ztake, zdrop. rewrite Z2Nat.inj_add by lia.
  rewrite <- (take_drop (Z.to_nat n) (drop (Z.to_nat o) l)) at 1.
  destruct (decide (Z.to_nat n <= length (drop (Z.to_nat o) l))%nat).
  - rewrite take_app_ge by (rewrite length_take; lia).
    rewrite length_take. do 2 f_equal. lia.
  - rewrite (take_ge (drop _ l)) by lia. rewrite (drop_ge (drop _ l)) by lia.
    by rewrite take_nil, !app_nil_r, take_ge by lia.
Qed.
End zlist.

#[export] Hint Rewrite @zlen_cons @zlen_app : zlist.

(** Lengths of explicit lists and concatenations. ([zlen_nil] is applied by
    conversion: as a rewrite rule it would also match the constant 0.) *)
Ltac zl := autorewrite with zlist; repeat change (zlen (@nil ?A)) with 0.

Lemma byte_at_app_r (l k : list Z) o :
  0 <= o -> byte_at (l ++ k) (zlen l + o) = byte_at k o.
Proof.
  unfold byte_at, zlen. intros. rewrite app_nth2 by lia. f_equal. lia.
Qed.

Lemma byte_at_app_l (l k : list Z) o : 0 <= o < zlen l -> byte_at (l ++ k) o = byte_at l o.
Proof. unfold byte_at, zlen. intros. apply app_nth1. lia. Qed.

Lemma byte_at_nonneg (l : list Z) o : bytes_ok l -> 0 <= byte_at l o.
Proof.
  intros Hl. unfold byte_at. destruct (nth_in_or_default (Z.to_nat o) l 0) as [Hin| ->]; [|lia].
  unfold bytes_ok in Hl. rewrite List.Forall_forall in Hl. apply Hl in Hin. unfold is_byte, is_u in Hin. lia.
Qed.

(** ** Filters that keep all or nothing *)

Lemma filter_all {A} (P : A -> Prop) `{!forall z, Decision (P z)} (v : list A) : Forall P v -> filter P v = v.
Proof. induction 1 as [|z v Hz _ IH]; [done|]. by rewrite filter_cons_True, IH. Qed.
Lemma filter_none {A} (P : A -> Prop) `{!forall z, Decision (P z)} (v : list A) : Forall (fun z => ~ P z) v -> filter P v = [].
Proof. induction 1 as [|z v Hz _ IH]; [done|]. by rewrite filter_cons_False. Qed.

(** ** Signed integers *)

Lemma signed_small w z : 0 < w -> 0 <= z < 2 ^ (w - 1) -> signed w z = z.
Proof.
  intros Hw Hz. assert (E : 2 ^ w = 2 * 2 ^ (w - 1)) by (rewrite <- Z.pow_succ_r by lia; f_equal; lia). unfold signed. rewrite Z.mod_small by lia. by rewrite (proj2 (Z.ltb_lt _ _)) by lia.
Qed.
Lemma signed_range w z : 0 < w -> - 2 ^ (w - 1) <= signed w z < 2 ^ (w - 1).
Proof.
  intros Hw. assert (E : 2 ^ w = 2 * 2 ^ (w - 1)) by (rewrite <- Z.pow_succ_r by lia; f_equal; lia). pose proof (Z.mod_pos_bound z (2 ^ w) ltac:(apply Z.pow_pos_nonneg; lia)).
  unfold signed. destruct (Z.ltb_spec (z mod 2 ^ w) (2 ^ (w - 1))); lia.
Qed.
Lemma signed_mod w z : 0 < w -> signed w z mod 2 ^ w = z mod 2 ^ w.
Proof.
  intros Hw. unfold signed. destruct (_ <? _); [by rewrite Z.mod_mod by lia|]. replace (z mod 2 ^ w - 2 ^ w) with (z mod 2 ^ w + (-1) * 2 ^ w) by lia. by rewrite Z.mod_add, Z.mod_mod by lia.
Qed.
