(* ===== verification/Coding.v ===== *)
(** * Integer and string encodings (util/coding_lean.h, util/coding.h, util/coding.cc)

    Fixed-width little-endian integers, varints, zigzag and length-prefixed
    strings. A [std::string*] destination is a byte list that the [Put...]
    functions extend; a [Slice*] input is a byte list of which the [Get...]
    functions return the unread rest, or [None] where the C++ returns false.
    The pointer-based variants read the bytes of [p, limit). *)

From stdpp Require Import prelude.
From Stdlib Require Import ZArith Lia Bool.
From S2P Require Import Prelude.

(** The byte order of the machine (port/port.h, [port::kLittleEndian]). *)
Class Port := { kLittleEndian : bool }.

(** ** Object representation

    [memcpy] from or to an [n]-byte unsigned integer on a little-endian machine. *)
Fixpoint le_bytes (n : nat) (v : Z) : list Z :=
  match n with
  | O => []
  | S n => v mod 2 ^ 8 :: le_bytes n (v / 2 ^ 8)
  end.

Fixpoint le_val (l : list Z) : Z :=
  match l with
  | [] => 0
  | b :: l => b + 2 ^ 8 * le_val l
  end.

(** ** Fixed-width integers (util/coding_lean.h) *)

Section fixed.
Context `{Port}.

Definition EncodeFixed16 (value : Z) : list Z :=
  if kLittleEndian then le_bytes 2 value
  else [Z.land value 0xff; Z.land (Z.shiftr value 8) 0xff].

Definition EncodeFixed32 (value : Z) : list Z :=
  if kLittleEndian then le_bytes 4 value
  else [Z.land value 0xff; Z.land (Z.shiftr value 8) 0xff;
        Z.land (Z.shiftr value 16) 0xff; Z.land (Z.shiftr value 24) 0xff].

Definition EncodeFixed64 (value : Z) : list Z :=
  if kLittleEndian then le_bytes 8 value
  else [Z.land value 0xff; Z.land (Z.shiftr value 8) 0xff;
        Z.land (Z.shiftr value 16) 0xff; Z.land (Z.shiftr value 24) 0xff;
        Z.land (Z.shiftr value 32) 0xff; Z.land (Z.shiftr value 40) 0xff;
        Z.land (Z.shiftr value 48) 0xff; Z.land (Z.shiftr value 56) 0xff].

Definition DecodeFixed16 (ptr : list Z) : Z :=
  if kLittleEndian then le_val (take 2 ptr)
  else Z.lor (byte_at ptr 0) (u16 (Z.shiftl (byte_at ptr 1) 8)).

Definition DecodeFixed32 (ptr : list Z) : Z :=
  if kLittleEndian then le_val (take 4 ptr)
  else Z.lor (Z.lor (Z.lor (byte_at ptr 0) (u32 (Z.shiftl (byte_at ptr 1) 8)))
                    (u32 (Z.shiftl (byte_at ptr 2) 16)))
             (u32 (Z.shiftl (byte_at ptr 3) 24)).

Definition DecodeFixed64 (ptr : list Z) : Z :=
  if kLittleEndian then le_val (take 8 ptr)
  else
    let lo := DecodeFixed32 ptr in
    let hi := DecodeFixed32 (drop 4 ptr) in
    Z.lor (u64 (Z.shiftl hi 32)) lo.

(** ** [Put...] and [Get...] for fixed-width integers (util/coding.h) *)

Definition PutFixed16 (dst : list Z) (value : Z) : list Z :=
  if kLittleEndian then dst ++ le_bytes 2 value else dst ++ EncodeFixed16 value.
Definition PutFixed32 (dst : list Z) (value : Z) : list Z :=
  if kLittleEndian then dst ++ le_bytes 4 value else dst ++ EncodeFixed32 value.
Definition PutFixed64 (dst : list Z) (value : Z) : list Z :=
  if kLittleEndian then dst ++ le_bytes 8 value else dst ++ EncodeFixed64 value.

Definition GetFixed64 (input : list Z) : option (Z * list Z) :=
  if zlen input <? 8 then None else Some (DecodeFixed64 input, zdrop 8 input).
Definition GetFixed32 (input : list Z) : option (Z * list Z) :=
  if zlen input <? 4 then None else Some (DecodeFixed32 input, zdrop 4 input).
Definition GetFixed16 (input : list Z) : option (Z * list Z) :=
  if zlen input <? 2 then None else Some (DecodeFixed16 input, zdrop 2 input).

End fixed.

(** ** Varints *)

Definition kMaxVarint64Length : Z := 10.

Definition EncodeVarint32 (v : Z) : list Z :=
  let B := 128 in
  if v <? Z.shiftl 1 7 then [u8 v]
  else if v <? Z.shiftl 1 14 then [u8 (Z.lor v B); u8 (Z.shiftr v 7)]
  else if v <? Z.shiftl 1 21 then
    [u8 (Z.lor v B); u8 (Z.lor (Z.shiftr v 7) B); u8 (Z.shiftr v 14)]
  else if v <? Z.shiftl 1 28 then
    [u8 (Z.lor v B); u8 (Z.lor (Z.shiftr v 7) B); u8 (Z.lor (Z.shiftr v 14) B);
     u8 (Z.shiftr v 21)]
  else
    [u8 (Z.lor v B); u8 (Z.lor (Z.shiftr v 7) B); u8 (Z.lor (Z.shiftr v 14) B);
     u8 (Z.lor (Z.shiftr v 21) B); u8 (Z.shiftr v 28)].

(** The [while (v >= B)] loop; each round shifts seven bits out, so ten rounds
    of fuel exhaust a 64-bit value ([EncodeVarint64_fuel]). *)
Fixpoint EncodeVarint64_loop (fuel : nat) (v : Z) : list Z :=
  match fuel with
  | O => []
  | S fuel =>
      let B := 128 in
      if v >=? B
      then Z.lor (Z.land v (B - 1)) B :: EncodeVarint64_loop fuel (Z.shiftr v 7)
      else [u8 v]
  end.
Definition EncodeVarint64 (v : Z) : list Z := EncodeVarint64_loop 10 v.

Fixpoint VarintLength_loop (fuel : nat) (v len : Z) : Z :=
  match fuel with
  | O => len
  | S fuel => if v >=? 128 then VarintLength_loop fuel (Z.shiftr v 7) (len + 1) else len
  end.
Definition VarintLength (v : Z) : Z := VarintLength_loop 10 v 1.

(** The loop of [GetVarint32PtrFallback]; [p] are the bytes of [p, limit). *)
Fixpoint GetVarint32PtrFallback_loop (shift result : Z) (p : list Z)
    : option (Z * list Z) :=
  match p with
  | [] => None
  | byte :: p =>
      if shift <=? 28 then
        if negb (Z.land byte 128 =? 0)
        then GetVarint32PtrFallback_loop (shift + 7)
               (Z.lor result (u32 (Z.shiftl (Z.land byte 127) shift))) p
        else Some (Z.lor result (u32 (Z.shiftl byte shift)), p)
      else None
  end.
Definition GetVarint32PtrFallback (p : list Z) : option (Z * list Z) :=
  GetVarint32PtrFallback_loop 0 0 p.

Definition GetVarint32Ptr (p : list Z) : option (Z * list Z) :=
  match p with
  | result :: p' =>
      if Z.land result 128 =? 0 then Some (result, p') else GetVarint32PtrFallback p
  | [] => GetVarint32PtrFallback p
  end.

Fixpoint GetVarint64Ptr_loop (shift result : Z) (p : list Z) : option (Z * list Z) :=
  match p with
  | [] => None
  | byte :: p =>
      if shift <=? 63 then
        if negb (Z.land byte 128 =? 0)
        then GetVarint64Ptr_loop (shift + 7)
               (Z.lor result (u64 (Z.shiftl (Z.land byte 127) shift))) p
        else Some (Z.lor result (u64 (Z.shiftl byte shift)), p)
      else None
  end.
Definition GetVarint64Ptr (p : list Z) : option (Z * list Z) := GetVarint64Ptr_loop 0 0 p.

Definition GetVarint32 (input : list Z) : option (Z * list Z) := GetVarint32Ptr input.
Definition GetVarint64 (input : list Z) : option (Z * list Z) := GetVarint64Ptr input.

Definition PutVarint32 (dst : list Z) (v : Z) : list Z := dst ++ EncodeVarint32 v.
Definition PutVarint32Varint32 (dst : list Z) (v1 v2 : Z) : list Z :=
  dst ++ (EncodeVarint32 v1 ++ EncodeVarint32 v2).
Definition PutVarint32Varint32Varint32 (dst : list Z) (v1 v2 v3 : Z) : list Z :=
  dst ++ (EncodeVarint32 v1 ++ EncodeVarint32 v2 ++ EncodeVarint32 v3).
Definition PutVarint64 (dst : list Z) (v : Z) : list Z := dst ++ EncodeVarint64 v.
Definition PutVarint64Varint64 (dst : list Z) (v1 v2 : Z) : list Z :=
  dst ++ (EncodeVarint64 v1 ++ EncodeVarint64 v2).
Definition PutVarint32Varint64 (dst : list Z) (v1 v2 : Z) : list Z :=
  dst ++ (EncodeVarint32 v1 ++ EncodeVarint64 v2).
Definition PutVarint32Varint32Varint64 (dst : list Z) (v1 v2 v3 : Z) : list Z :=
  dst ++ (EncodeVarint32 v1 ++ EncodeVarint32 v2 ++ EncodeVarint64 v3).

(** ** Zigzag *)

Definition i64ToZigzag (l : Z) : Z :=
  Z.lxor (u64 (Z.shiftl (u64 l) 1)) (u64 (Z.shiftr l 63)).
Definition zigzagToI64 (n : Z) : Z :=
  i64 (Z.lxor (Z.shiftr n 1) (u64 (- Z.land n 1))).

Definition PutVarsignedint64 (dst : list Z) (v : Z) : list Z :=
  dst ++ EncodeVarint64 (i64ToZigzag v).
(** The result pointer together with the value stored in [*value]; the C++
    stores [zigzagToI64(0)] when the varint does not parse. *)
Definition GetVarsignedint64Ptr (p : list Z) : option (list Z) * Z :=
  match GetVarint64Ptr p with
  | Some (u, q) => (Some q, zigzagToI64 u)
  | None => (None, zigzagToI64 0)
  end.
Definition GetVarsignedint64 (input : list Z) : option (Z * list Z) :=
  match GetVarsignedint64Ptr input with
  | (Some q, value) => Some (value, q)
  | (None, _) => None
  end.

(** ** Strings *)

Definition PutLengthPrefixedSlice (dst value : list Z) : list Z :=
  PutVarint32 dst (u32 (zlen value)) ++ value.

(** [size_t] sums of the part sizes wrap at 64 bits. *)
Definition PutLengthPrefixedSliceParts_from (dst : list Z) (total_bytes : Z)
    (slice_parts : list (list Z)) : list Z :=
  let total_bytes :=
    foldl (fun acc part => u64 (acc + zlen part)) total_bytes slice_parts in
  foldl (fun d part => d ++ part) (PutVarint32 dst (u32 total_bytes)) slice_parts.
Definition PutLengthPrefixedSliceParts (dst : list Z) (slice_parts : list (list Z)) : list Z :=
  PutLengthPrefixedSliceParts_from dst 0 slice_parts.
Definition PutLengthPrefixedSlicePartsWithPadding (dst : list Z)
    (slice_parts : list (list Z)) (pad_sz : Z) : list Z :=
  PutLengthPrefixedSliceParts_from dst pad_sz slice_parts ++ replicate (Z.to_nat pad_sz) 0.

(** [GetLengthPrefixedSlice]: the slice and the rest of the input. *)
Definition GetLengthPrefixedSlice (input : list Z) : option (list Z * list Z) :=
  match GetVarint32 input with
  | Some (len, input) =>
      if zlen input >=? len then Some (ztake len input, zdrop len input) else None
  | None => None
  end.

(** [GetLengthPrefixedSlice(const char* data)] for well-formed [data]: at most
    five bytes are taken for the length. *)
Definition GetLengthPrefixedSlice_data (data : list Z) : option (list Z) :=
  match GetVarint32Ptr (ztake 5 data) with
  | Some (len, q) => Some (zsub (zlen (ztake 5 data) - zlen q) len data)
  | None => None
  end.

(** [GetSliceUntil]: the slice up to the delimiter and what follows it. The
    position counter is a [uint32_t]; the model covers slices shorter than 2^32. *)
Fixpoint GetSliceUntil_len (slice : list Z) (delimiter : Z) : nat :=
  match slice with
  | [] => 0
  | c :: slice => if c =? delimiter then 0 else S (GetSliceUntil_len slice delimiter)
  end.
Definition GetSliceUntil (slice : list Z) (delimiter : Z) : list Z * list Z :=
  let len := Z.of_nat (GetSliceUntil_len slice delimiter) in
  (ztake len slice, zdrop (len + (if len <? zlen slice then 1 else 0)) slice).

(** ** Lemmas *)

Lemma le_bytes_length n v : length (le_bytes n v) = n.
Proof. revert v; induction n; simpl; auto. Qed.
Lemma zlen_le_bytes n v : zlen (le_bytes n v) = Z.of_nat n.
Proof. unfold zlen. by rewrite le_bytes_length. Qed.
#[export] Hint Rewrite zlen_le_bytes : zlist.

Lemma le_bytes_ok n v : bytes_ok (le_bytes n v).
Proof.
  revert v; induction n; intros v; constructor; [|apply IHn].
  apply Z.mod_pos_bound; lia.
Qed.

Lemma le_val_bytes n v : le_val (le_bytes n v) = v mod 2 ^ (8 * Z.of_nat n).
Proof.
  revert v; induction n as [|n IH]; intros v; cbn [le_bytes le_val].
  - by rewrite Z.mul_0_r, Z.mod_1_r.
  - rewrite IH. rewrite Nat2Z.inj_succ, Z.mul_succ_r, (Z.add_comm (8 * _)), Z.pow_add_r by lia.
    rewrite (Z.rem_mul_r v) by (try apply Z.pow_nonzero; try apply Z.pow_pos_nonneg; lia). lia.
Qed.

Lemma le_val_bytes_small n v :
  0 <= v < 2 ^ (8 * Z.of_nat n) -> le_val (le_bytes n v) = v.
Proof. intros. rewrite le_val_bytes. by apply Z.mod_small. Qed.

Lemma le_bytes_val l : bytes_ok l -> le_bytes (length l) (le_val l) = l.
Proof.
  induction 1 as [|b l Hb Hl IH]; [done|]. cbn [length le_val le_bytes].
  unfold is_byte, is_u in Hb.
  rewrite Z.mul_comm, Z.mod_add, Z.div_add, Z.mod_small, Z.div_small by lia.
  by rewrite Z.add_0_l, IH.
Qed.

Lemma land_ff v : Z.land v 0xff = v mod 2 ^ 8.
Proof. apply (land_ones_mod v 8); lia. Qed.

Lemma EncodeFixed16_eq `{Port} v : EncodeFixed16 v = le_bytes 2 v.
Proof.
  unfold EncodeFixed16. destruct kLittleEndian; [done|]. cbn [le_bytes].
  by rewrite !land_ff, !Z.shiftr_div_pow2 by lia.
Qed.
Lemma EncodeFixed32_eq `{Port} v : EncodeFixed32 v = le_bytes 4 v.
Proof.
  unfold EncodeFixed32. destruct kLittleEndian; [done|]. cbn [le_bytes].
  rewrite !land_ff, !Z.shiftr_div_pow2 by lia.
  by rewrite !Z.div_div by lia.
Qed.
Lemma EncodeFixed64_eq `{Port} v : EncodeFixed64 v = le_bytes 8 v.
Proof.
  unfold EncodeFixed64. destruct kLittleEndian; [done|]. cbn [le_bytes].
  rewrite !land_ff, !Z.shiftr_div_pow2 by lia.
  by rewrite !Z.div_div by lia.
Qed.

Lemma PutFixed16_eq `{Port} dst v : PutFixed16 dst v = dst ++ le_bytes 2 v.
Proof. unfold PutFixed16. rewrite EncodeFixed16_eq. by destruct kLittleEndian. Qed.
Lemma PutFixed32_eq `{Port} dst v : PutFixed32 dst v = dst ++ le_bytes 4 v.
Proof. unfold PutFixed32. rewrite EncodeFixed32_eq. by destruct kLittleEndian. Qed.
Lemma PutFixed64_eq `{Port} dst v : PutFixed64 dst v = dst ++ le_bytes 8 v.
Proof. unfold PutFixed64. rewrite EncodeFixed64_eq. by destruct kLittleEndian. Qed.

(** Splitting off the bytes a fixed-width decoder reads. *)
Lemma bytes_ok_firstn4 l : bytes_ok (take 4 l) -> (4 <= length l)%nat ->
  exists a b c d t, l = a :: b :: c :: d :: t /\ is_byte a /\ is_byte b /\ is_byte c
    /\ is_byte d.
Proof.
  intros Hl Hn. destruct l as [|a [|b [|c [|d t]]]]; simpl in Hn; try lia.
  unfold bytes_ok in Hl. simpl in Hl. decompose_Forall_hyps. by exists a, b, c, d, t.
Qed.

Lemma lor4 a b c d : is_byte a -> is_byte b -> is_byte c -> is_byte d ->
  Z.lor (Z.lor (Z.lor a (u32 (Z.shiftl b 8))) (u32 (Z.shiftl c 16))) (u32 (Z.shiftl d 24)) =
  a + 2 ^ 8 * (b + 2 ^ 8 * (c + 2 ^ 8 * d)).
Proof.
  unfold is_byte, is_u. intros.
  rewrite !u32_small by (rewrite Z.shiftl_mul_pow2 by lia; lia).
  rewrite (lor_add_pow2 a b 8), (lor_add_pow2 _ c 16), (lor_add_pow2 _ d 24) by lia. lia.
Qed.

Lemma DecodeFixed32_eq `{Port} l :
  bytes_ok (take 4 l) -> (4 <= length l)%nat -> DecodeFixed32 l = le_val (take 4 l).
Proof.
  intros Hl Hn. destruct (bytes_ok_firstn4 l Hl Hn) as (a&b&c&d&t&->&?&?&?&?).
  unfold DecodeFixed32. destruct kLittleEndian; [done|].
  change (Z.lor (Z.lor (Z.lor a (u32 (Z.shiftl b 8))) (u32 (Z.shiftl c 16)))
    (u32 (Z.shiftl d 24)) = a + 2 ^ 8 * (b + 2 ^ 8 * (c + 2 ^ 8 * (d + 2 ^ 8 * 0)))).
  rewrite lor4 by done. lia.
Qed.

Lemma le_val_range l : bytes_ok l -> 0 <= le_val l < 2 ^ (8 * zlen l).
Proof.
  induction 1 as [|b l Hb Hl IH]; [done|]. cbn [le_val]. rewrite zlen_cons.
  rewrite Z.mul_add_distr_l, Z.pow_add_r by (pose proof (zlen_nonneg l); lia).
  unfold is_byte, is_u in Hb. change (2 ^ (8 * 1)) with (2 ^ 8). lia.
Qed.

Lemma le_val_app l k : le_val (l ++ k) = le_val l + 2 ^ (8 * zlen l) * le_val k.
Proof.
  induction l as [|b l IH]; [rewrite (zlen_nil (A:=Z)), Z.mul_0_r; cbn [app le_val]; lia|].
  cbn [app le_val]. rewrite IH, zlen_cons, (Z.mul_add_distr_l 8 1), Z.pow_add_r
    by (pose proof (zlen_nonneg l); lia).
  change (2 ^ (8 * 1)) with (2 ^ 8). lia.
Qed.

Lemma bytes_ok_take n l : bytes_ok l -> bytes_ok (take n l).
Proof. apply Forall_take. Qed.
Lemma bytes_ok_drop n l : bytes_ok l -> bytes_ok (drop n l).
Proof. apply Forall_drop. Qed.
#[export] Hint Resolve bytes_ok_take bytes_ok_drop le_bytes_ok : words.

Lemma DecodeFixed64_eq `{Port} l :
  bytes_ok (take 8 l) -> (8 <= length l)%nat -> DecodeFixed64 l = le_val (take 8 l).
Proof.
  intros Hl Hn. unfold DecodeFixed64. destruct kLittleEndian eqn:E; [done|].
  assert (bytes_ok (take 4 l) /\ bytes_ok (take 4 (drop 4 l))) as [Ha Hb].
  { change 8%nat with (4 + 4)%nat in Hl. rewrite <- (take_take_drop l 4 4) in Hl.
    by apply Forall_app in Hl. }
  rewrite !DecodeFixed32_eq by (try done; rewrite ?length_drop; lia).
  change 8%nat with (4 + 4)%nat. rewrite <- (take_take_drop l 4 4), le_val_app.
  pose proof (le_val_range (take 4 l) ltac:(auto with words)) as H1.
  pose proof (le_val_range (take 4 (drop 4 l)) ltac:(auto with words)) as H2.
  unfold zlen in *. rewrite length_take in *. rewrite length_drop in H2.
  rewrite !Nat.min_l in * by lia. change (8 * Z.of_nat 4) with 32 in *.
  rewrite u64_small by (rewrite Z.shiftl_mul_pow2 by lia; lia).
  rewrite Z.lor_comm, lor_add_pow2 by lia. lia.
Qed.

Lemma DecodeFixed16_eq `{Port} l :
  bytes_ok (take 2 l) -> (2 <= length l)%nat -> DecodeFixed16 l = le_val (take 2 l).
Proof.
  intros Hl Hn. destruct l as [|a [|b t]]; simpl in Hn; try lia.
  unfold bytes_ok, is_byte, is_u in Hl. simpl in Hl. decompose_Forall_hyps.
  unfold DecodeFixed16. destruct kLittleEndian; [done|].
  change (Z.lor a (u16 (Z.shiftl b 8)) = a + 2 ^ 8 * (b + 2 ^ 8 * 0)).
  rewrite u16_small by (rewrite Z.shiftl_mul_pow2 by lia; lia).
  rewrite lor_add_pow2 by lia. lia.
Qed.

(** *** Varints

    Both decoders run the loop [varint_loop] below, at their own width. *)

Fixpoint varint_loop (w lim shift result : Z) (p : list Z) : option (Z * list Z) :=
  match p with
  | [] => None
  | byte :: p =>
      if shift <=? lim then
        if negb (Z.land byte 128 =? 0)
        then varint_loop w lim (shift + 7)
               (Z.lor result (Z.shiftl (Z.land byte 127) shift mod 2 ^ w)) p
        else Some (Z.lor result (Z.shiftl byte shift mod 2 ^ w), p)
      else None
  end.

Lemma varint32_loop shift result p :
  GetVarint32PtrFallback_loop shift result p = varint_loop 32 28 shift result p.
Proof. revert shift result; induction p; intros; simpl; [done|]. by rewrite IHp. Qed.
Lemma varint64_loop shift result p :
  GetVarint64Ptr_loop shift result p = varint_loop 64 63 shift result p.
Proof. revert shift result; induction p; intros; simpl; [done|]. by rewrite IHp. Qed.

Lemma land127 v : Z.land v 127 = v mod 2 ^ 7.
Proof. apply (land_ones_mod v 7); lia. Qed.
Lemma lor_B x : 0 <= x < 2 ^ 7 -> Z.lor x 128 = x + 2 ^ 7.
Proof. intros. change 128 with (Z.shiftl 1 7). rewrite lor_add_pow2; lia. Qed.

(** A byte with the continuation bit, and one without. *)
Lemma land128_cont x : 0 <= x < 2 ^ 7 -> (Z.land (x + 2 ^ 7) 128 =? 0) = false.
Proof.
  intros. apply Z.eqb_neq. intros E. apply (f_equal (fun z => Z.testbit z 7)) in E.
  rewrite Z.land_spec, Z.bits_0 in E. change (Z.testbit 128 7) with true in E.
  rewrite andb_true_r, Z.testbit_odd, Z.shiftr_div_pow2 in E by lia.
  change (2 ^ 7) with (1 * 2 ^ 7) in E at 1. rewrite Z.div_add, Z.div_small in E by lia.
  discriminate.
Qed.
Lemma land128_last x : 0 <= x < 2 ^ 7 -> (Z.land x 128 =? 0) = true.
Proof.
  intros. apply Z.eqb_eq, Z.bits_inj'; intros i Hi. rewrite Z.land_spec, Z.bits_0.
  destruct (Z.eqb_spec 7 i) as [<-|].
  - by rewrite (tbit_high x 7).
  - change 128 with (2 ^ 7). rewrite Z.pow2_bits_eqb by lia.
    by rewrite (proj2 (Z.eqb_neq 7 i)), andb_false_r by lia.
Qed.
Lemma land127_cont x : 0 <= x < 2 ^ 7 -> Z.land (x + 2 ^ 7) 127 = x.
Proof.
  intros. rewrite land127. change (x + 2 ^ 7) with (x + 1 * 2 ^ 7).
  by rewrite Z.mod_add, Z.mod_small by lia.
Qed.

(** The encoder's loop in arithmetic form. *)
Lemma EncodeVarint64_loop_S f v : 0 <= v ->
  EncodeVarint64_loop (S f) v =
    if v >=? 128 then (v mod 2 ^ 7 + 2 ^ 7) :: EncodeVarint64_loop f (v / 2 ^ 7) else [v].
Proof.
  intros. cbn [EncodeVarint64_loop]. rewrite Z.geb_leb. destruct (Z.leb_spec 128 v).
  - change (128 - 1) with 127. rewrite land127, Z.shiftr_div_pow2 by lia.
    by rewrite lor_B by (apply Z.mod_pos_bound; lia).
  - by rewrite u8_small by lia.
Qed.

(** Ten rounds of fuel are enough for a 64-bit value: more change nothing. *)
Lemma EncodeVarint64_fuel f g v :
  0 <= v < 2 ^ (7 * Z.of_nat f) -> (0 < f)%nat -> (f <= g)%nat ->
  EncodeVarint64_loop f v = EncodeVarint64_loop g v.
Proof.
  revert g v. induction f as [|f IH]; intros g v Hv Hf Hg; [lia|].
  destruct g as [|g]; [lia|]. rewrite !EncodeVarint64_loop_S by lia.
  destruct (v >=? 128) eqn:E; [|done]. f_equal.
  destruct f as [|f]; [change (2 ^ (7 * Z.of_nat 1)) with 128 in Hv; lia|].
  apply IH; [|lia|lia]. split; [apply Z.div_pos; lia|].
  apply Z.div_lt_upper_bound; [lia|]. rewrite <- Z.pow_add_r by lia.
  replace (7 + 7 * Z.of_nat (S f)) with (7 * Z.of_nat (S (S f))) by lia. lia.
Qed.

Lemma shift_add r d shift w :
  0 <= shift -> 0 <= r < 2 ^ shift -> 0 <= d -> 0 <= w -> d * 2 ^ shift < 2 ^ w ->
  Z.lor r (Z.shiftl d shift mod 2 ^ w) = r + d * 2 ^ shift.
Proof.
  intros. rewrite Z.mod_small by (rewrite Z.shiftl_mul_pow2 by lia; nia).
  by apply lor_add_pow2.
Qed.

Lemma varint_loop_encode w lim rest f : 0 <= w -> forall v k r,
  0 <= k -> 0 <= r < 2 ^ (7 * k) -> 0 <= v < 2 ^ (7 * Z.of_nat f) ->
  v * 2 ^ (7 * k) < 2 ^ w -> (0 < v \/ k = 0) -> w <= lim + 7 -> 0 <= lim ->
  (forall j, 0 <= j -> 7 * j < w -> 7 * j <= lim) -> (0 < f)%nat ->
  varint_loop w lim (7 * k) r (EncodeVarint64_loop f v ++ rest)
    = Some (r + v * 2 ^ (7 * k), rest).
Proof.
  intros Hw. induction f as [|f IH]; intros v k r Hk Hr Hv Hvw Hpos Hlim Hlim0 Hmul Hf; [lia|].
  assert (Hs : 7 * k <= lim).
  { destruct Hpos as [Hv0| ->]; [|lia]. apply Hmul; [lia|].
    apply (Z.pow_lt_mono_r_iff 2); [lia|lia|]. nia. }
  rewrite EncodeVarint64_loop_S by lia. destruct (v >=? 128) eqn:E.
  - assert (0 <= v mod 2 ^ 7 < 2 ^ 7) by (apply Z.mod_pos_bound; lia).
    pose proof (Z.div_mod v (2 ^ 7) ltac:(lia)) as Hdm.
    cbn [app varint_loop]. rewrite (proj2 (Z.leb_le _ _) Hs), land128_cont by done.
    cbn [negb]. rewrite land127_cont by done.
    assert (0 < 2 ^ (7 * k)) by (apply Z.pow_pos_nonneg; lia).
    assert (1 <= v / 2 ^ 7) by (apply Z.div_le_lower_bound; lia).
    rewrite shift_add by (try lia; nia).
    assert (Hpow : 2 ^ (7 * (k + 1)) = 2 ^ 7 * 2 ^ (7 * k)).
    { rewrite <- Z.pow_add_r by lia. f_equal. lia. }
    replace (7 * k + 7) with (7 * (k + 1)) by lia.
    destruct f as [|f]; [change (2 ^ (7 * Z.of_nat 1)) with 128 in Hv; lia|].
    rewrite IH.
    + f_equal. f_equal. rewrite Hpow. nia.
    + lia.
    + rewrite Hpow. nia.
    + split; [lia|]. apply Z.div_lt_upper_bound; [lia|]. rewrite <- Z.pow_add_r by lia.
      replace (7 + 7 * Z.of_nat (S f)) with (7 * Z.of_nat (S (S f))) by lia. lia.
    + rewrite Hpow. nia.
    + left; lia.
    + done.
    + done.
    + done.
    + lia.
  - cbn [app varint_loop]. rewrite (proj2 (Z.leb_le _ _) Hs), land128_last by lia.
    cbn [negb]. by rewrite shift_add by lia.
Qed.

Lemma EncodeVarint32_64 v : is_u 32 v -> EncodeVarint32 v = EncodeVarint64 v.
Proof.
  unfold is_u. intros Hv. unfold EncodeVarint64.
  rewrite <- (EncodeVarint64_fuel 5 10) by (simpl Z.of_nat; lia).
  assert (Hmid : forall x, u8 (Z.lor x 128) = x mod 2 ^ 7 + 2 ^ 7).
  { intros x. rewrite <- lor_B by (apply Z.mod_pos_bound; lia). unfold u8.
    change 128 with (2 ^ 7). bitwise; rewrite ?Z.pow2_bits_eqb by lia;
    destruct (Z.eqb_spec 7 i); try lia; rewrite ?orb_true_r, ?orb_false_r; auto. }
  unfold EncodeVarint32. rewrite !Hmid, !Z.shiftr_div_pow2, !Z.shiftl_mul_pow2 by lia.
  rewrite !EncodeVarint64_loop_S by (repeat apply Z.div_pos; lia).
  rewrite !Z.div_div by lia.
  cbn [EncodeVarint64_loop]. unfold u8.
  repeat match goal with
  | |- context [?a <? ?b] => destruct (Z.ltb_spec a b)
  | |- context [?a >=? ?b] => rewrite (Z.geb_leb a b); destruct (Z.leb_spec b a)
  end; try (exfalso; clear Hmid; Z.div_mod_to_equations; lia);
  repeat (f_equal; try (rewrite Z.mod_small; [done|clear Hmid; Z.div_mod_to_equations; lia])).
Qed.

Lemma GetVarint64_app v rest : is_u 64 v -> GetVarint64 (EncodeVarint64 v ++ rest) = Some (v, rest).
Proof.
  unfold is_u, GetVarint64, GetVarint64Ptr, EncodeVarint64. intros Hv. rewrite varint64_loop.
  change 0 with (7 * 0) at 1.
  rewrite varint_loop_encode; [f_equal; f_equal; simpl; lia|..]; simpl Z.of_nat; try lia.
Qed.

Lemma EncodeVarint32_head v : is_u 32 v ->
  exists b t, EncodeVarint32 v = b :: t /\ is_byte b /\ ((t = [] /\ b = v /\ v < 128) \/ 128 <= b).
Proof.
  intros Hv. rewrite EncodeVarint32_64 by done. unfold is_u in Hv. unfold EncodeVarint64.
  rewrite EncodeVarint64_loop_S by lia. destruct (v >=? 128) eqn:E.
  - eexists _, _. split; [done|]. unfold is_byte, is_u.
    pose proof (Z.mod_pos_bound v (2 ^ 7) ltac:(lia)). split; [lia|right; lia].
  - exists v, []. unfold is_byte, is_u. split; [done|]. split; [lia|left; repeat split; lia].
Qed.

Lemma GetVarint32Ptr_fallback p : bytes_ok p -> GetVarint32Ptr p = GetVarint32PtrFallback p.
Proof.
  intros Hp. destruct p as [|b p]; [done|]. cbn [GetVarint32Ptr].
  destruct (Z.land b 128 =? 0) eqn:E; [|done].
  unfold GetVarint32PtrFallback. cbn [GetVarint32PtrFallback_loop]. rewrite E. cbn.
  inversion Hp as [|? ? Hb]; subst. unfold is_byte, is_u in Hb.
  rewrite u32_small; [by rewrite Z.shiftl_0_r|]. rewrite Z.shiftl_0_r. lia.
Qed.

Lemma GetVarint32_app v rest : is_u 32 v -> GetVarint32 (EncodeVarint32 v ++ rest) = Some (v, rest).
Proof.
  intros Hv. destruct (EncodeVarint32_head v Hv) as (b & t & Eb & Hb & Hcase).
  unfold GetVarint32, GetVarint32Ptr. rewrite Eb. cbn [app].
  destruct (Z.land b 128 =? 0) eqn:E.
  - destruct Hcase as [(-> & -> & _)|Hge]; [done|]. exfalso.
    unfold is_byte, is_u in Hb. replace b with ((b - 2 ^ 7) + 2 ^ 7) in E by lia.
    rewrite land128_cont in E by lia. done.
  - change (b :: t ++ rest) with ((b :: t) ++ rest). rewrite <- Eb, EncodeVarint32_64 by done.
    unfold GetVarint32PtrFallback. rewrite varint32_loop. unfold is_u in Hv.
    unfold EncodeVarint64. change 0 with (7 * 0) at 1.
    rewrite varint_loop_encode; [f_equal; f_equal; simpl; lia|..]; simpl Z.of_nat; try lia.
Qed.

Lemma zlen_EncodeVarint64_loop f v n : 0 <= v < 2 ^ (7 * Z.of_nat f) -> (0 < f)%nat ->
  VarintLength_loop f v n = n - 1 + zlen (EncodeVarint64_loop f v).
Proof.
  revert v n. induction f as [|f IH]; intros v n Hv Hf; [lia|].
  rewrite EncodeVarint64_loop_S by lia. cbn [VarintLength_loop].
  destruct (v >=? 128) eqn:E; [|zl; lia].
  rewrite Z.shiftr_div_pow2 by lia.
  destruct f as [|f]; [change (2 ^ (7 * Z.of_nat 1)) with 128 in Hv; lia|].
  rewrite IH; [rewrite zlen_cons; lia| |lia].
  split; [apply Z.div_pos; lia|]. apply Z.div_lt_upper_bound; [lia|].
  rewrite <- Z.pow_add_r by lia.
  replace (7 + 7 * Z.of_nat (S f)) with (7 * Z.of_nat (S (S f))) by lia. lia.
Qed.

Lemma zlen_EncodeVarint64 v : is_u 64 v -> zlen (EncodeVarint64 v) = VarintLength v.
Proof.
  unfold is_u. intros. unfold EncodeVarint64, VarintLength.
  rewrite zlen_EncodeVarint64_loop by (simpl Z.of_nat; lia). lia.
Qed.

Lemma EncodeVarint64_loop_len f v : (0 < f)%nat -> 1 <= zlen (EncodeVarint64_loop f v) <= Z.of_nat f.
Proof.
  revert v; induction f as [|f IH]; intros v Hf; [lia|]. cbn [EncodeVarint64_loop].
  destruct (v >=? 128); rewrite zlen_cons; [|zl; lia].
  destruct f as [|f]; [cbn [EncodeVarint64_loop]; zl; lia|].
  specialize (IH (Z.shiftr v 7)). lia.
Qed.

Lemma zlen_EncodeVarint32 v : 1 <= zlen (EncodeVarint32 v) <= 5.
Proof. unfold EncodeVarint32. repeat case_match; unfold zlen; simpl; lia. Qed.

Lemma EncodeVarint32_ok v : is_u 32 v -> bytes_ok (EncodeVarint32 v).
Proof.
  unfold EncodeVarint32. repeat case_match; intros; repeat constructor; apply u8_range.
Qed.

Lemma zigzag_rt l : - 2 ^ 63 <= l < 2 ^ 63 ->
  is_u 64 (i64ToZigzag l) /\ zigzagToI64 (i64ToZigzag l) = l.
Proof.
  intros Hl. assert (E : i64ToZigzag l = if l <? 0 then - 2 * l - 1 else 2 * l).
  { unfold i64ToZigzag. rewrite Z.shiftr_div_pow2 by lia. destruct (Z.ltb_spec l 0).
    - replace (l / 2 ^ 63) with (-1) by (Z.div_mod_to_equations; lia).
      replace (u64 (-1)) with (2 ^ 64 - 1) by reflexivity.
      assert (E1 : u64 (Z.shiftl (u64 l) 1) = 2 * l + 2 ^ 64).
      { unfold u64. rewrite Z.shiftl_mul_pow2 by lia. Z.div_mod_to_equations. lia. }
      rewrite E1. replace (- 2 * l - 1) with (Z.lnot (2 * l + 2 ^ 64) mod 2 ^ 64).
      + bitwise. rewrite Z.lnot_spec by lia. by rewrite xorb_true_r.
        rewrite (tbit_high (2 * l + 2 ^ 64) 64) by lia. done.
      + unfold Z.lnot, Z.pred. Z.div_mod_to_equations. lia.
    - rewrite Z.div_small by lia. change (u64 0) with 0. rewrite Z.lxor_0_r.
      unfold u64. rewrite Z.shiftl_mul_pow2 by lia. Z.div_mod_to_equations. lia. }
  rewrite E. unfold is_u. split; [destruct (Z.ltb_spec l 0); lia|].
  unfold zigzagToI64. rewrite Z.shiftr_div_pow2 by lia.
  assert (L1 : forall x, Z.land x 1 = x mod 2).
  { intros. change 1 with (2 ^ 1 - 1). rewrite land_ones_mod by lia. done. }
  rewrite L1. destruct (Z.ltb_spec l 0).
  - replace ((- 2 * l - 1) / 2 ^ 1) with (- l - 1) by (Z.div_mod_to_equations; lia).
    replace ((- 2 * l - 1) mod 2) with 1 by (Z.div_mod_to_equations; lia).
    replace (u64 (- (1))) with (2 ^ 64 - 1) by reflexivity.
    replace (Z.lxor (- l - 1) (2 ^ 64 - 1)) with (l mod 2 ^ 64).
    + unfold i64, signed. rewrite Z.mod_mod by lia.
      destruct (Z.ltb_spec (l mod 2 ^ 64) (2 ^ (64 - 1))); Z.div_mod_to_equations; lia.
    + replace l with (Z.lnot (- l - 1)) at 1 by (unfold Z.lnot, Z.pred; lia).
      bitwise; [by rewrite Z.lnot_spec, xorb_true_r by lia|].
      symmetry. apply (tbit_high _ 63); lia.
  - replace ((2 * l) / 2 ^ 1) with l by (Z.div_mod_to_equations; lia).
    replace ((2 * l) mod 2) with 0 by (Z.div_mod_to_equations; lia).
    change (u64 (- 0)) with 0. rewrite Z.lxor_0_r. unfold i64, signed.
    rewrite Z.mod_small by lia. destruct (Z.ltb_spec l (2 ^ (64 - 1))); lia.
Qed.

Lemma take_le_bytes n v rest : take n (le_bytes n v ++ rest) = le_bytes n v.
Proof. apply take_app_length'. by rewrite le_bytes_length. Qed.

Lemma DecodeFixed16_app `{Port} v rest : is_u 16 v -> DecodeFixed16 (le_bytes 2 v ++ rest) = v.
Proof.
  intros. rewrite DecodeFixed16_eq; rewrite ?take_le_bytes, ?length_app, ?le_bytes_length;
    auto with words; [|lia]. by apply le_val_bytes_small.
Qed.
Lemma DecodeFixed32_app `{Port} v rest : is_u 32 v -> DecodeFixed32 (le_bytes 4 v ++ rest) = v.
Proof.
  intros. rewrite DecodeFixed32_eq; rewrite ?take_le_bytes, ?length_app, ?le_bytes_length;
    auto with words; [|lia]. by apply le_val_bytes_small.
Qed.
Lemma DecodeFixed64_app `{Port} v rest : is_u 64 v -> DecodeFixed64 (le_bytes 8 v ++ rest) = v.
Proof.
  intros. rewrite DecodeFixed64_eq; rewrite ?take_le_bytes, ?length_app, ?le_bytes_length;
    auto with words; [|lia]. by apply le_val_bytes_small.
Qed.

(** ** Properties *)

(** A fixed-width integer written on a machine of either byte order and
    read on a machine of either byte order is the integer written, and exactly
    the bytes written are consumed. *)
Theorem fixed_roundtrip (writer reader : Port) (v16 v32 v64 : Z) (rest : list Z) :
  is_u 16 v16 -> is_u 32 v32 -> is_u 64 v64 ->
  @GetFixed16 reader (@PutFixed16 writer [] v16 ++ rest) = Some (v16, rest) /\
  @GetFixed32 reader (@PutFixed32 writer [] v32 ++ rest) = Some (v32, rest) /\
  @GetFixed64 reader (@PutFixed64 writer [] v64 ++ rest) = Some (v64, rest).
Proof.
  intros H1 H2 H3. rewrite PutFixed16_eq, PutFixed32_eq, PutFixed64_eq. cbn [app].
  unfold GetFixed16, GetFixed32, GetFixed64. rewrite !zlen_app, !zlen_le_bytes.
  pose proof (zlen_nonneg rest).
  rewrite !(proj2 (Z.ltb_ge _ _)) by lia.
  rewrite DecodeFixed16_app, DecodeFixed32_app, DecodeFixed64_app by done.
  rewrite !zdrop_app' by (by rewrite zlen_le_bytes). done.
Qed.

Definition be_port : Port := {| kLittleEndian := false |}.
Definition le_port : Port := {| kLittleEndian := true |}.

Lemma fixed_roundtrip_witness :
  @GetFixed16 le_port (@PutFixed16 be_port [] 513 ++ [7]) = Some (513, [7]) /\
  @GetFixed32 le_port (@PutFixed32 be_port [] 4294967295 ++ [7]) = Some (4294967295, [7]) /\
  @GetFixed64 le_port (@PutFixed64 be_port [] 81985529216486895 ++ [7]) = Some (81985529216486895, [7]).
Proof. apply (fixed_roundtrip be_port le_port); unfold is_u; lia. Defined.

(** C35: Every varint writer is inverted by its reader, which consumes exactly
    the bytes written; the 32- and 64-bit encodings of a 32-bit value are the
    same bytes, and their number is [VarintLength], at most ten (five). *)
Theorem varint_roundtrip (v32 v64 vs : Z) (rest : list Z) :
  is_u 32 v32 -> is_u 64 v64 -> - 2 ^ 63 <= vs < 2 ^ 63 ->
  GetVarint32 (PutVarint32 [] v32 ++ rest) = Some (v32, rest) /\
  GetVarint64 (PutVarint64 [] v64 ++ rest) = Some (v64, rest) /\
  GetVarsignedint64 (PutVarsignedint64 [] vs ++ rest) = Some (vs, rest) /\
  PutVarint32 [] v32 = PutVarint64 [] v32 /\
  zlen (PutVarint64 [] v64) = VarintLength v64 /\ VarintLength v64 <= kMaxVarint64Length /\
  VarintLength v32 <= 5.
Proof.
  intros H1 H2 H3. unfold PutVarint32, PutVarint64, PutVarsignedint64. cbn [app].
  destruct (zigzag_rt vs H3) as [Hz Ez].
  assert (is_u 64 v32) by (unfold is_u in *; lia).
  split_and!.
  - by apply GetVarint32_app.
  - by apply GetVarint64_app.
  - unfold GetVarsignedint64, GetVarsignedint64Ptr.
    change (GetVarint64Ptr ?p) with (GetVarint64 p).
    by rewrite GetVarint64_app, Ez.
  - by apply EncodeVarint32_64.
  - by apply zlen_EncodeVarint64.
  - rewrite <- zlen_EncodeVarint64 by done. apply (EncodeVarint64_loop_len 10); lia.
  - rewrite <- zlen_EncodeVarint64, <- EncodeVarint32_64 by done. apply zlen_EncodeVarint32.
Qed.

Lemma varint_roundtrip_witness :
  GetVarint32 (PutVarint32 [] 300 ++ [9]) = Some (300, [9]) /\
  GetVarint64 (PutVarint64 [] (2 ^ 63) ++ [9]) = Some (2 ^ 63, [9]) /\
  GetVarsignedint64 (PutVarsignedint64 [] (-77) ++ [9]) = Some (-77, [9]) /\
  PutVarint32 [] 300 = PutVarint64 [] 300 /\
  zlen (PutVarint64 [] (2 ^ 63)) = VarintLength (2 ^ 63) /\
  VarintLength (2 ^ 63) <= kMaxVarint64Length /\ VarintLength 300 <= 5.
Proof. apply (varint_roundtrip 300 (2 ^ 63) (-77) [9]); unfold is_u; lia. Defined.

(** The consumed bytes of a varint: continuation bit on all but the last. *)
Definition varint_shape (c : list Z) : Prop :=
  exists init last, c = init ++ [last] /\ Forall (fun b => 128 <= b) init /\ last < 128.

Lemma byte_cont b : is_byte b -> negb (Z.land b 128 =? 0) = (128 <=? b).
Proof.
  unfold is_byte, is_u. intros. destruct (Z.leb_spec 128 b).
  - replace b with ((b - 2 ^ 7) + 2 ^ 7) by lia. by rewrite land128_cont by lia.
  - by rewrite land128_last by lia.
Qed.

Lemma lor_range w a b : 0 < w -> 0 <= a < 2 ^ w -> 0 <= b < 2 ^ w -> 0 <= Z.lor a b < 2 ^ w.
Proof.
  intros. split; [apply Z.lor_nonneg; lia|].
  assert (Hlog : forall x, 0 <= x < 2 ^ w -> Z.log2 x < w).
  { intros x Hx. destruct (decide (x = 0)) as [->|]; [done|apply Z.log2_lt_pow2; lia]. }
  destruct (decide (Z.lor a b = 0)) as [->|]; [lia|].
  pose proof (proj2 (Z.lor_nonneg a b)).
  apply Z.log2_lt_pow2; [lia|]. rewrite Z.log2_lor by lia.
  apply Z.max_lub_lt; apply Hlog; lia.
Qed.

Lemma varint_loop_safe w lim p v q shift result :
  0 < w -> bytes_ok p -> 0 <= result < 2 ^ w ->
  varint_loop w lim shift result p = Some (v, q) ->
  0 <= v < 2 ^ w /\ exists c, p = c ++ q /\ varint_shape c /\ shift + 7 * (zlen c - 1) <= lim
    /\ forall q', varint_loop w lim shift result (c ++ q') = Some (v, q').
Proof.
  intros Hw Hp. revert shift result. induction Hp as [|b p Hb Hp IH]; intros shift result Hr E.
  { done. }
  cbn [varint_loop] in E. destruct (shift <=? lim) eqn:Hs; [|done].
  destruct (negb (Z.land b 128 =? 0)) eqn:Hc.
  - apply IH in E as (Hv & c & -> & (init & last & -> & Hi & Hl) & Hlen & Hq').
    + split; [done|]. exists (b :: init ++ [last]). split_and!; [done| | |].
      * exists (b :: init), last. split_and!; [done| |done]. constructor; [|done].
        rewrite byte_cont in Hc by done. lia.
      * rewrite zlen_cons. lia.
      * intros q'. cbn [app varint_loop]. by rewrite Hs, Hc, Hq'.
    + apply lor_range; try lia. apply Z.mod_pos_bound. apply Z.pow_pos_nonneg; lia.
  - simplify_eq. split.
    + apply lor_range; try lia. apply Z.mod_pos_bound. apply Z.pow_pos_nonneg; lia.
    + exists [b]. split_and!; [done| | |].
      * exists [], b. split_and!; [done|constructor|]. rewrite byte_cont in Hc by done. lia.
      * change (zlen [b]) with 1. lia.
      * intros q'. cbn [app varint_loop]. by rewrite Hs, Hc.
Qed.

(** On arbitrary input bytes a varint decoder that succeeds returns a value
    of its width, consumes a well-shaped prefix of at most five (ten) bytes and
    leaves the rest, and the value depends on that prefix only. *)
Theorem varint_decode_safe (p q : list Z) (v : Z) :
  bytes_ok p ->
  (GetVarint32 p = Some (v, q) ->
     is_u 32 v /\ exists c, p = c ++ q /\ varint_shape c /\ zlen c <= 5 /\
       forall q', bytes_ok q' -> GetVarint32 (c ++ q') = Some (v, q')) /\
  (GetVarint64 p = Some (v, q) ->
     is_u 64 v /\ exists c, p = c ++ q /\ varint_shape c /\ zlen c <= 10 /\
       forall q', GetVarint64 (c ++ q') = Some (v, q')).
Proof.
  intros Hp. split.
  - unfold GetVarint32. rewrite GetVarint32Ptr_fallback by done.
    unfold GetVarint32PtrFallback. rewrite varint32_loop. intros E.
    apply varint_loop_safe in E as (Hv & c & -> & Hc & Hl & Hq'); [|lia|done|lia].
    split; [done|]. exists c. split_and!; [done|done|lia|]. intros q' Hok.
    apply Forall_app in Hp as [Hc' _].
    rewrite GetVarint32Ptr_fallback by (by apply Forall_app).
    unfold GetVarint32PtrFallback. by rewrite varint32_loop.
  - unfold GetVarint64, GetVarint64Ptr. rewrite varint64_loop. intros E.
    apply varint_loop_safe in E as (Hv & c & -> & Hc & Hl & Hq'); [|lia|done|lia].
    split; [done|]. exists c. split_and!; [done|done|lia|]. intros q'. by rewrite varint64_loop.
Qed.

Lemma varint_decode_safe_witness :
  GetVarint32 [172; 2; 5] = Some (300, [5]) /\ is_u 32 300 /\
  exists c, [172; 2; 5] = c ++ [5] /\ varint_shape c /\ zlen c <= 5 /\
    forall q', bytes_ok q' -> GetVarint32 (c ++ q') = Some (300, q').
Proof.
  split; [reflexivity|].
  apply (varint_decode_safe [172; 2; 5] [5] 300); [|reflexivity].
  repeat constructor; unfold is_byte, is_u; lia.
Defined.

(** ** Length-prefixed strings *)

Lemma parts_total parts acc :
  0 <= acc -> acc + zlen (concat parts) < 2 ^ 64 ->
  foldl (fun acc (part : list Z) => u64 (acc + zlen part)) acc parts = acc + zlen (concat parts).
Proof.
  revert acc; induction parts as [|p ps IH]; intros acc H0 H; cbn [foldl concat].
  - zl. lia.
  - cbn [concat] in H. rewrite zlen_app in *. pose proof (zlen_nonneg p). pose proof (zlen_nonneg (concat ps)).
    rewrite u64_small by lia. rewrite IH; lia.
Qed.

Lemma parts_append parts (d : list Z) :
  foldl (fun d part => d ++ part) d parts = d ++ concat parts.
Proof.
  revert d; induction parts as [|p ps IH]; intros d; cbn [foldl concat]; [by rewrite app_nil_r|].
  by rewrite IH, <- app_assoc.
Qed.

Lemma PutLengthPrefixedSliceParts_from_eq dst total parts :
  0 <= total -> total + zlen (concat parts) < 2 ^ 32 ->
  PutLengthPrefixedSliceParts_from dst total parts =
  dst ++ EncodeVarint32 (total + zlen (concat parts)) ++ concat parts.
Proof.
  intros H0 H. unfold PutLengthPrefixedSliceParts_from, PutVarint32.
  pose proof (zlen_nonneg (concat parts)).
  rewrite parts_total, parts_append, u32_small by lia. by rewrite app_assoc.
Qed.

Lemma GetLengthPrefixedSlice_app len (s rest : list Z) :
  zlen s = len -> is_u 32 len ->
  GetLengthPrefixedSlice (EncodeVarint32 len ++ s ++ rest) = Some (s, rest).
Proof.
  intros <- H. unfold GetLengthPrefixedSlice. rewrite GetVarint32_app by done.
  rewrite zlen_app. pose proof (zlen_nonneg rest).
  rewrite (proj2 (Z.geb_le _ _)) by lia. by rewrite ztake_app', zdrop_app'.
Qed.

(** A string stored with its length, given whole or in parts and with or without
    zero padding, is read back whole, and the reader stops exactly behind it;
    writing the parts one by one stores the same bytes as writing the whole. *)
Theorem length_prefixed_roundtrip (dst : list Z) (parts : list (list Z)) (pad_sz : Z) (rest : list Z) :
  0 <= pad_sz -> zlen (concat parts) + pad_sz < 2 ^ 32 ->
  GetLengthPrefixedSlice (PutLengthPrefixedSlice [] (concat parts) ++ rest) =
    Some (concat parts, rest) /\
  GetLengthPrefixedSlice (PutLengthPrefixedSlicePartsWithPadding [] parts pad_sz ++ rest) =
    Some (concat parts ++ replicate (Z.to_nat pad_sz) 0, rest) /\
  PutLengthPrefixedSliceParts dst parts = PutLengthPrefixedSlice dst (concat parts).
Proof.
  intros H0 H. pose proof (zlen_nonneg (concat parts)).
  unfold PutLengthPrefixedSlicePartsWithPadding, PutLengthPrefixedSliceParts,
    PutLengthPrefixedSlice, PutVarint32.
  rewrite !PutLengthPrefixedSliceParts_from_eq by lia. rewrite u32_small by lia. cbn [app].
  split_and!.
  - rewrite <- app_assoc. apply GetLengthPrefixedSlice_app; [done|unfold is_u; lia].
  - rewrite <- !app_assoc, (app_assoc (concat parts)). apply GetLengthPrefixedSlice_app; [|unfold is_u; lia].
    rewrite zlen_app. unfold zlen at 2. rewrite length_replicate. lia.
  - by rewrite Z.add_0_l, <- app_assoc.
Qed.

Lemma length_prefixed_roundtrip_witness :
  GetLengthPrefixedSlice (PutLengthPrefixedSlice [] (concat [[1; 2]; [3]]) ++ [8]) =
    Some (concat [[1; 2]; [3]], [8]) /\
  GetLengthPrefixedSlice (PutLengthPrefixedSlicePartsWithPadding [] [[1; 2]; [3]] 2 ++ [8]) =
    Some (concat [[1; 2]; [3]] ++ replicate (Z.to_nat 2) 0, [8]) /\
  PutLengthPrefixedSliceParts [9] [[1; 2]; [3]] = PutLengthPrefixedSlice [9] (concat [[1; 2]; [3]]).
Proof. apply (length_prefixed_roundtrip [9] [[1; 2]; [3]] 2 [8]); [lia|reflexivity]. Defined.
