(* ===== verification/Comparator.v ===== *)
(** * Slices and comparators (include/rocksdb/slice.h, util/comparator.cc)

    A [Slice] is the byte list it refers to. [Module Slice] models the slice
    operations, [Module BytewiseComparator], [Module ReverseBytewiseComparator]
    and [Module ComparatorWithU64Ts] the built-in comparators. The class
    [ComparatorLaws] is the contract every client of a comparator relies on. *)

From stdpp Require Import prelude.
From Stdlib Require Import ZArith Lia Bool.
From S2P Require Import Prelude Coding.

(** What a comparator promises (include/rocksdb/comparator.h): the sign of
    [cmp a b] is a total preorder on keys. *)
Class ComparatorLaws (cmp : list Z -> list Z -> Z) : Prop := {
  cmp_refl a : cmp a a = 0;
  cmp_flip a b : cmp a b < 0 <-> 0 < cmp b a;
  cmp_trans a b c : cmp a b <= 0 -> cmp b c <= 0 -> cmp a c <= 0
}.

Section laws.
Context `{ComparatorLaws cmp}.

Lemma cmp_flip_le a b : cmp a b <= 0 <-> 0 <= cmp b a.
Proof. pose proof (cmp_flip b a). lia. Qed.
Lemma cmp_zero_sym a b : cmp a b = 0 -> cmp b a = 0.
Proof. intros. pose proof (cmp_flip a b). pose proof (cmp_flip b a). lia. Qed.
Lemma cmp_lt_le_trans a b c : cmp a b < 0 -> cmp b c <= 0 -> cmp a c < 0.
Proof.
  intros Hab Hbc. apply Z.nle_gt. intros Hac. apply cmp_flip_le in Hac.
  pose proof (cmp_trans b c a Hbc Hac) as Hba. apply cmp_flip_le in Hba. lia.
Qed.
Lemma cmp_le_lt_trans a b c : cmp a b <= 0 -> cmp b c < 0 -> cmp a c < 0.
Proof.
  intros Hab Hbc. apply Z.nle_gt. intros Hac. apply cmp_flip_le in Hac.
  pose proof (cmp_trans c a b Hac Hab) as Hcb. apply cmp_flip_le in Hcb. lia.
Qed.
Lemma cmp_lt_trans a b c : cmp a b < 0 -> cmp b c < 0 -> cmp a c < 0.
Proof. intros ? ?. apply (cmp_lt_le_trans a b c); lia. Qed.
End laws.

(** Ties of a lawful comparison broken by a descending number: both the timestamp
    comparator and the internal key order have this shape. *)
Definition tiebreak {A} (cmp : A -> A -> Z) (t : A -> Z) (a b : A) : Z :=
  if cmp a b =? 0 then if t b <? t a then -1 else if t a <? t b then 1 else 0 else cmp a b.

Section tiebreak.
Context `{ComparatorLaws cmp} (k : list Z -> list Z) (t : list Z -> Z).
Let tcmp := tiebreak (fun a b => cmp (k a) (k b)) t.

Lemma tiebreak_lt a b : tcmp a b < 0 <-> cmp (k a) (k b) < 0 \/ (cmp (k a) (k b) = 0 /\ t b < t a).
Proof.
  unfold tcmp, tiebreak. destruct (Z.eqb_spec (cmp (k a) (k b)) 0);
    destruct (Z.ltb_spec (t b) (t a)), (Z.ltb_spec (t a) (t b)); lia.
Qed.

Lemma tiebreak_laws : ComparatorLaws tcmp.
Proof.
  unfold tcmp, tiebreak. split.
  - intros a. rewrite cmp_refl. cbn [Z.eqb]. by rewrite Z.ltb_irrefl.
  - intros a b. pose proof (cmp_flip (k a) (k b)). pose proof (cmp_flip (k b) (k a)).
    destruct (Z.eqb_spec (cmp (k a) (k b)) 0), (Z.eqb_spec (cmp (k b) (k a)) 0);
      destruct (Z.ltb_spec (t a) (t b)), (Z.ltb_spec (t b) (t a)); lia.
  - intros a b c. pose proof (cmp_trans (k a) (k b) (k c)).
    pose proof (cmp_lt_le_trans (k a) (k b) (k c)). pose proof (cmp_le_lt_trans (k a) (k b) (k c)).
    destruct (Z.eqb_spec (cmp (k a) (k b)) 0), (Z.eqb_spec (cmp (k b) (k c)) 0),
      (Z.eqb_spec (cmp (k a) (k c)) 0);
      destruct (Z.ltb_spec (t a) (t b)), (Z.ltb_spec (t b) (t a)), (Z.ltb_spec (t b) (t c)),
        (Z.ltb_spec (t c) (t b)), (Z.ltb_spec (t a) (t c)), (Z.ltb_spec (t c) (t a)); lia.
Qed.
End tiebreak.

Lemma comparator_laws_ext cmp cmp' :
  (forall a b, cmp a b = cmp' a b) -> ComparatorLaws cmp -> ComparatorLaws cmp'.
Proof.
  intros E L. split; intros; rewrite <- ?E in *; [apply cmp_refl|apply cmp_flip|].
  eapply cmp_trans; eassumption.
Qed.

Module Slice.

(** [memcmp] on the first [n] bytes; only its sign is specified by C and the
    model uses -1, 0, 1. *)
Fixpoint memcmp (a b : list Z) (n : nat) : Z :=
  match n, a, b with
  | S n, x :: a, y :: b => if x <? y then -1 else if y <? x then 1 else memcmp a b n
  | _, _, _ => 0
  end.

Definition compare (a b : list Z) : Z :=
  let min_len := if zlen a <? zlen b then zlen a else zlen b in
  let r := memcmp a b (Z.to_nat min_len) in
  if r =? 0 then
    if zlen a <? zlen b then -1
    else if zlen a >? zlen b then 1
    else r
  else r.

Definition starts_with (s x : list Z) : bool :=
  (zlen s >=? zlen x) && (memcmp s x (length x) =? 0).
Definition ends_with (s x : list Z) : bool :=
  (zlen s >=? zlen x) && (memcmp (zdrop (zlen s - zlen x) s) x (length x) =? 0).
Definition eqb (x y : list Z) : bool :=
  (zlen x =? zlen y) && (memcmp x y (length x) =? 0).

(** The loop [for (; off < len; off++)] over the common length. *)
Fixpoint difference_offset_loop (a b : list Z) (len : nat) (off : Z) : Z :=
  match len, a, b with
  | S len, x :: a, y :: b => if x =? y then difference_offset_loop a b len (off + 1) else off
  | _, _, _ => off
  end.
Definition difference_offset (a b : list Z) : Z :=
  let len := if zlen a <? zlen b then zlen a else zlen b in
  difference_offset_loop a b (Z.to_nat len) 0.

End Slice.

Module BytewiseComparator.

Definition Compare (a b : list Z) : Z := Slice.compare a b.
Definition Equal (a b : list Z) : bool := Slice.eqb a b.

(** The loop that looks for the first byte of [start], from [diff_index] on,
    that can be incremented, and cuts [start] after it. *)
Fixpoint FindShortestSeparator_loop (suffix : list Z) : list Z :=
  match suffix with
  | [] => []
  | b :: suffix => if b <? 0xff then [u8 (b + 1)] else b :: FindShortestSeparator_loop suffix
  end.

Definition FindShortestSeparator (start limit : list Z) : list Z :=
  let min_length := Z.min (zlen start) (zlen limit) in
  let diff_index := Slice.difference_offset_loop start limit (Z.to_nat min_length) 0 in
  if diff_index >=? min_length then start
  else
    let start_byte := byte_at start diff_index in
    let limit_byte := byte_at limit diff_index in
    if start_byte >=? limit_byte then start
    else if (diff_index <? zlen limit - 1) || (start_byte + 1 <? limit_byte)
    then ztake diff_index start ++ [u8 (start_byte + 1)]
    else ztake (diff_index + 1) start ++ FindShortestSeparator_loop (zdrop (diff_index + 1) start).

Fixpoint FindShortSuccessor (key : list Z) : list Z :=
  match key with
  | [] => []
  | byte :: key => if negb (byte =? 0xff) then [u8 (byte + 1)] else byte :: FindShortSuccessor key
  end.

Definition IsSameLengthImmediateSuccessor (s t : list Z) : bool :=
  if negb (zlen s =? zlen t) || (zlen s =? 0) then false
  else
    let diff_ind := Slice.difference_offset s t in
    if diff_ind >=? zlen s then false
    else
      let byte_s := byte_at s diff_ind in
      let byte_t := byte_at t diff_ind in
      if negb (byte_s =? 0xff) && (byte_s + 1 =? byte_t)
      then forallb (fun '(byte_s, byte_t) => negb (negb (byte_s =? 0xff) || negb (byte_t =? 0x00)))
             (zip (zdrop (diff_ind + 1) s) (zdrop (diff_ind + 1) t))
      else false.

End BytewiseComparator.

Module ReverseBytewiseComparator.

Definition Compare (a b : list Z) : Z := - Slice.compare a b.

Definition FindShortestSeparator (start limit : list Z) : list Z :=
  let min_length := Z.min (zlen start) (zlen limit) in
  let diff_index := Slice.difference_offset_loop start limit (Z.to_nat min_length) 0 in
  if diff_index =? min_length then start
  else
    let start_byte := byte_at start diff_index in
    let limit_byte := byte_at limit diff_index in
    if (start_byte >? limit_byte) && (diff_index <? zlen start - 1)
    then ztake (diff_index + 1) start
    else start.

Definition FindShortSuccessor (key : list Z) : list Z := key.
Definition IsSameLengthImmediateSuccessor (s t : list Z) : bool := false.

End ReverseBytewiseComparator.

(** [ComparatorWithU64TsImpl<TComparator>]; the two splitters of a user key are
    defined in db/dbformat.h. *)
Module ComparatorWithU64Ts.
Section ts.
Context `{Port}.
Variable cmp_without_ts_Compare : list Z -> list Z -> Z.
Variable StripTimestampFromUserKey : list Z -> Z -> list Z.
Variable ExtractTimestampFromUserKey : list Z -> Z -> list Z.

Definition timestamp_size : Z := 8.

Definition CompareWithoutTimestamp (a : list Z) (a_has_ts : bool) (b : list Z) (b_has_ts : bool) : Z :=
  let ts_sz := timestamp_size in
  let lhs := if a_has_ts then StripTimestampFromUserKey a ts_sz else a in
  let rhs := if b_has_ts then StripTimestampFromUserKey b ts_sz else b in
  cmp_without_ts_Compare lhs rhs.

Definition CompareTimestamp (ts1 ts2 : list Z) : Z :=
  let lhs := DecodeFixed64 ts1 in
  let rhs := DecodeFixed64 ts2 in
  if lhs <? rhs then -1 else if lhs >? rhs then 1 else 0.

Definition Compare (a b : list Z) : Z :=
  let ret := CompareWithoutTimestamp a true b true in
  let ts_sz := timestamp_size in
  if negb (ret =? 0) then ret
  else - CompareTimestamp (ExtractTimestampFromUserKey a ts_sz) (ExtractTimestampFromUserKey b ts_sz).

Definition FindShortSuccessor (key : list Z) : list Z := key.
Definition FindShortestSeparator (start limit : list Z) : list Z := start.

End ts.
End ComparatorWithU64Ts.

(** ** The lexicographic order on byte strings *)

Fixpoint lex (a b : list Z) : Z :=
  match a, b with
  | [], [] => 0
  | [], _ :: _ => -1
  | _ :: _, [] => 1
  | x :: a, y :: b => if x <? y then -1 else if y <? x then 1 else lex a b
  end.

Lemma compare_lex a b : Slice.compare a b = lex a b.
Proof.
  assert (Hmin : forall a b : list Z,
    Z.to_nat (if zlen a <? zlen b then zlen a else zlen b) = Nat.min (length a) (length b)).
  { intros a' b'. unfold zlen. destruct (Z.ltb_spec (Z.of_nat (length a')) (Z.of_nat (length b'))); lia. }
  revert b; induction a as [|x a IH]; intros [|y b]; unfold Slice.compare; rewrite Hmin.
  - done.
  - cbn [length Nat.min Slice.memcmp Z.eqb lex].
    rewrite (proj2 (Z.ltb_lt _ _)); [done|]. zl.
    pose proof (zlen_nonneg b). lia.
  - cbn [length Nat.min Slice.memcmp Z.eqb lex].
    rewrite (proj2 (Z.ltb_ge _ _)), (proj2 (Z.gtb_gt _ _)); [done| |];
      zl; pose proof (zlen_nonneg a); lia.
  - cbn [length Nat.min Slice.memcmp lex].
    destruct (x <? y); [done|]. destruct (y <? x); [done|].
    rewrite <- IH. unfold Slice.compare. rewrite Hmin, !zlen_cons.
    replace (1 + zlen a <? 1 + zlen b) with (zlen a <? zlen b)
      by (destruct (Z.ltb_spec (zlen a) (zlen b)), (Z.ltb_spec (1 + zlen a) (1 + zlen b)); lia).
    replace (1 + zlen a >? 1 + zlen b) with (zlen a >? zlen b); [done|].
    rewrite !Z.gtb_ltb.
    destruct (Z.ltb_spec (zlen b) (zlen a)), (Z.ltb_spec (1 + zlen b) (1 + zlen a)); lia.
Qed.

Lemma lex_refl a : lex a a = 0.
Proof. induction a as [|x a IH]; simpl; [done|]. by rewrite Z.ltb_irrefl. Qed.
Lemma lex_eq a b : lex a b = 0 <-> a = b.
Proof.
  split; [|intros ->; apply lex_refl].
  revert b; induction a as [|x a IH]; intros [|y b]; simpl; try done.
  destruct (Z.ltb_spec x y); [done|]. destruct (Z.ltb_spec y x); [done|].
  intros E. apply IH in E as ->. f_equal. lia.
Qed.
Lemma lex_opp a b : lex b a = - lex a b.
Proof.
  revert b; induction a as [|x a IH]; intros [|y b]; simpl; try done.
  destruct (Z.ltb_spec x y), (Z.ltb_spec y x); try done; lia.
Qed.
Lemma lex_trans a b c : lex a b <= 0 -> lex b c <= 0 -> lex a c <= 0.
Proof.
  revert b c; induction a as [|x a IH]; intros [|y b] [|z c]; simpl; try lia.
  destruct (Z.ltb_spec x y), (Z.ltb_spec y x), (Z.ltb_spec y z), (Z.ltb_spec z y),
    (Z.ltb_spec x z), (Z.ltb_spec z x); try lia. eauto.
Qed.
Lemma lex_app_l p a b : lex (p ++ a) (p ++ b) = lex a b.
Proof. induction p as [|x p IH]; simpl; [done|]. by rewrite Z.ltb_irrefl. Qed.
Lemma lex_prefix p s : lex p (p ++ s) <= 0.
Proof. rewrite <- (app_nil_r p) at 1. rewrite lex_app_l. by destruct s. Qed.

Lemma lex_laws : ComparatorLaws lex.
Proof.
  split.
  - apply lex_refl.
  - intros a b. rewrite (lex_opp a b). lia.
  - apply lex_trans.
Qed.

#[export] Instance bytewise_laws : ComparatorLaws BytewiseComparator.Compare.
Proof.
  unfold BytewiseComparator.Compare. split; intros *; rewrite !compare_lex; apply lex_laws.
Qed.
#[export] Instance reverse_bytewise_laws : ComparatorLaws ReverseBytewiseComparator.Compare.
Proof.
  unfold ReverseBytewiseComparator.Compare. split; intros *; rewrite !compare_lex.
  - by rewrite lex_refl.
  - rewrite (lex_opp b a). lia.
  - intros H1 H2. pose proof (lex_trans c b a). rewrite (lex_opp b c), (lex_opp a b), (lex_opp a c) in *. lia.
Qed.

(** The common-prefix scan splits both strings at their first difference. *)
Lemma difference_offset_loop_spec a b len off :
  len = Nat.min (length a) (length b) ->
  exists p a' b', a = p ++ a' /\ b = p ++ b' /\
    Slice.difference_offset_loop a b len off = off + zlen p /\
    (a' = [] \/ b' = [] \/ exists x y a'' b'', a' = x :: a'' /\ b' = y :: b'' /\ x <> y).
Proof.
  revert a b off; induction len as [|len IH]; intros a b off Hlen.
  - exists [], a, b. split_and!; [done|done| |].
    + destruct a, b; simpl; rewrite ?Z.add_0_r; done.
    + destruct a as [|x a]; [auto|]. destruct b as [|y b]; [auto|]. done.
  - destruct a as [|x a]; [done|]. destruct b as [|y b]; [done|].
    cbn [Slice.difference_offset_loop]. destruct (Z.eqb_spec x y) as [->|Hne].
    + destruct (IH a b (off + 1)) as (p & a' & b' & -> & -> & -> & Hc); [simpl in Hlen; lia|].
      exists (y :: p), a', b'. rewrite zlen_cons. split_and!; [done|done|lia|done].
    + exists [], (x :: a), (y :: b). split_and!; [done|done|by rewrite Z.add_0_r|].
      right; right. eauto 10.
Qed.

Lemma min_len_nat (a b : list Z) :
  Z.to_nat (Z.min (zlen a) (zlen b)) = Nat.min (length a) (length b).
Proof. unfold zlen. lia. Qed.

Lemma difference_offset_spec a b :
  exists p a' b', a = p ++ a' /\ b = p ++ b' /\ Slice.difference_offset a b = zlen p /\
    (a' = [] \/ b' = [] \/ exists x y a'' b'', a' = x :: a'' /\ b' = y :: b'' /\ x <> y).
Proof.
  unfold Slice.difference_offset.
  destruct (difference_offset_loop_spec a b (Z.to_nat (if zlen a <? zlen b then zlen a else zlen b)) 0)
    as (p & a' & b' & Ha & Hb & E & Hc).
  - unfold zlen. destruct (Z.ltb_spec (Z.of_nat (length a)) (Z.of_nat (length b))); lia.
  - exists p, a', b'. rewrite E, Z.add_0_l. done.
Qed.

Lemma byte_at_mid (p s : list Z) x : byte_at (p ++ x :: s) (zlen p) = x.
Proof. rewrite <- (Z.add_0_r (zlen p)), byte_at_app_r by lia. done. Qed.
Lemma ztake_succ_mid (p s : list Z) x : ztake (zlen p + 1) (p ++ x :: s) = p ++ [x].
Proof.
  change (x :: s) with ([x] ++ s). rewrite app_assoc. apply ztake_app'.
  zl; lia.
Qed.
Lemma zdrop_succ_mid (p s : list Z) x : zdrop (zlen p + 1) (p ++ x :: s) = s.
Proof.
  change (x :: s) with ([x] ++ s). rewrite app_assoc. apply zdrop_app'.
  zl; lia.
Qed.

Lemma lex_head_lt x y a b : x < y -> lex (x :: a) (y :: b) = -1.
Proof. intros. simpl. by rewrite (proj2 (Z.ltb_lt x y)). Qed.

Lemma separator_loop_le s : bytes_ok s ->
  lex s (BytewiseComparator.FindShortestSeparator_loop s) <= 0 /\
  bytes_ok (BytewiseComparator.FindShortestSeparator_loop s) /\
  zlen (BytewiseComparator.FindShortestSeparator_loop s) <= zlen s.
Proof.
  induction 1 as [|b s Hb Hs IH]; [by repeat constructor|]. unfold is_byte, is_u in Hb. simpl.
  destruct (Z.ltb_spec b 255).
  - rewrite u8_small, (proj2 (Z.ltb_lt b (b + 1))), !zlen_cons by lia. pose proof (zlen_nonneg s).
    split_and!; [lia| |zl; lia]. repeat constructor; unfold is_byte, is_u; lia.
  - rewrite Z.ltb_irrefl, !zlen_cons. destruct IH as (? & ? & ?).
    split_and!; [done| |lia]. by constructor.
Qed.

(** The first difference of two strings of which the first is smaller. *)
Lemma lex_lt_cases a b : lex a b < 0 ->
  exists p, (exists y b', a = p /\ b = p ++ y :: b') \/
            (exists x y a' b', a = p ++ x :: a' /\ b = p ++ y :: b' /\ x < y).
Proof.
  revert b; induction a as [|x a IH]; intros [|y b]; simpl; try lia.
  - intros _. exists []. left. by exists y, b.
  - destruct (Z.ltb_spec x y).
    + intros _. exists []. right. by exists x, y, a, b.
    + destruct (Z.ltb_spec y x); [lia|]. assert (x = y) as -> by lia. intros Hl.
      destruct (IH b Hl) as [p [(z & b' & -> & ->)|(z & z' & a' & b' & -> & -> & Hz)]].
      * exists (y :: p). left. by exists z, b'.
      * exists (y :: p). right. by exists z, z', a', b'.
Qed.

(** The prefix of the common-prefix scan is determined by the first difference. *)
Lemma difference_offset_loop_mid p x y a b off : x <> y ->
  Slice.difference_offset_loop (p ++ x :: a) (p ++ y :: b)
    (Nat.min (length (p ++ x :: a)) (length (p ++ y :: b))) off = off + zlen p.
Proof.
  intros Hxy. revert off; induction p as [|z p IH]; intros off; simpl.
  - rewrite (proj2 (Z.eqb_neq x y)) by done. zl; lia.
  - rewrite Z.eqb_refl, IH, zlen_cons. lia.
Qed.
Lemma difference_offset_loop_prefix p b off :
  Slice.difference_offset_loop p (p ++ b) (Nat.min (length p) (length (p ++ b))) off = off + zlen p.
Proof.
  revert off; induction p as [|z p IH]; intros off; simpl; [zl; lia|].
  rewrite Z.eqb_refl, IH, zlen_cons. lia.
Qed.

(** For [start < limit], the key [FindShortestSeparator] leaves in [start] is in
    the half-open interval [start, limit) and no longer than [start]. *)
Theorem bytewise_separator (start limit : list Z) :
  bytes_ok start -> bytes_ok limit -> BytewiseComparator.Compare start limit < 0 ->
  let r := BytewiseComparator.FindShortestSeparator start limit in
  BytewiseComparator.Compare start r <= 0 /\ BytewiseComparator.Compare r limit < 0 /\
  zlen r <= zlen start /\ bytes_ok r.
Proof.
  intros Hs Hl Hlt. unfold BytewiseComparator.Compare in *. rewrite compare_lex in Hlt.
  cbv zeta. rewrite !compare_lex. unfold BytewiseComparator.FindShortestSeparator.
  rewrite min_len_nat.
  destruct (lex_lt_cases _ _ Hlt) as [p [(y & b' & -> & ->)|(x & y & a & b & -> & -> & Hxy)]].
  - rewrite difference_offset_loop_prefix, zlen_app, zlen_cons.
    pose proof (zlen_nonneg b'). rewrite (proj2 (Z.geb_le _ _)) by lia.
    rewrite lex_refl. split_and!; [lia|done|lia|done].
  - rewrite difference_offset_loop_mid, Z.add_0_l by lia.
    apply Forall_app in Hs as [Hp Hxa]. apply Forall_app in Hl as [_ Hyb].
    inversion Hxa as [|? ? Hx Ha]; inversion Hyb as [|? ? Hy Hb]; subst.
    unfold is_byte, is_u in Hx, Hy.
    rewrite !byte_at_mid, !zlen_app, !zlen_cons.
    pose proof (zlen_nonneg a); pose proof (zlen_nonneg b); pose proof (zlen_nonneg p).
    rewrite Z.geb_leb, (proj2 (Z.leb_gt _ _)) by lia. rewrite Z.geb_leb, (proj2 (Z.leb_gt _ _)) by lia.
    destruct ((zlen p <? zlen p + (1 + zlen b) - 1) || (x + 1 <? y)) eqn:E.
    + rewrite ztake_app, u8_small by lia. rewrite !lex_app_l.
      zl. split_and!.
      * rewrite lex_head_lt; lia.
      * destruct (decide (x + 1 < y)); [rewrite lex_head_lt; lia|].
        assert (y = x + 1) as -> by lia. simpl. rewrite Z.ltb_irrefl.
        destruct b; [|done]. change (zlen []) with 0 in E. apply orb_true_iff in E. lia.
      * lia.
      * apply Forall_app; split; [done|]. repeat constructor; unfold is_byte, is_u; lia.
    + rewrite ztake_succ_mid, zdrop_succ_mid, <- app_assoc, !lex_app_l. cbn [app].
      destruct (separator_loop_le a Ha) as (? & ? & ?).
      rewrite zlen_app, zlen_cons. split_and!.
      * simpl. by rewrite Z.ltb_irrefl.
      * by rewrite lex_head_lt.
      * lia.
      * apply Forall_app; split; [done|]. by constructor.
Qed.

Lemma bytewise_separator_witness :
  BytewiseComparator.FindShortestSeparator [97; 98; 99; 100] [97; 104] = [97; 99] /\
  BytewiseComparator.Compare [97; 98; 99; 100] [97; 99] <= 0 /\
  BytewiseComparator.Compare [97; 99] [97; 104] < 0.
Proof.
  split; [reflexivity|].
  destruct (bytewise_separator [97; 98; 99; 100] [97; 104]) as (H1 & H2 & _);
    [repeat constructor; unfold is_byte, is_u; lia..|reflexivity|].
  split; [exact H1|exact H2].
Defined.

(** [FindShortSuccessor] returns a key that is not smaller than, and no longer
    than, the original. *)
Theorem bytewise_successor (key : list Z) :
  bytes_ok key ->
  let r := BytewiseComparator.FindShortSuccessor key in
  BytewiseComparator.Compare key r <= 0 /\ zlen r <= zlen key /\ bytes_ok r.
Proof.
  intros Hk. unfold BytewiseComparator.Compare. cbv zeta. rewrite compare_lex.
  induction Hk as [|b s Hb Hs IH]; [by repeat constructor|]. pose proof Hb as Hb'. unfold is_byte, is_u in Hb'.
  pose proof (zlen_nonneg s). cbn [BytewiseComparator.FindShortSuccessor].
  destruct (Z.eqb_spec b 255); cbn [negb].
  - simpl. rewrite Z.ltb_irrefl, !zlen_cons. destruct IH as (? & ? & ?).
    split_and!; [done|lia|by constructor].
  - rewrite u8_small, lex_head_lt, !zlen_cons by lia. zl. split_and!; [lia|lia|].
    repeat constructor; unfold is_byte, is_u; lia.
Qed.

Lemma bytewise_successor_witness :
  BytewiseComparator.FindShortSuccessor [255; 7; 9] = [255; 8] /\
  BytewiseComparator.Compare [255; 7; 9] [255; 8] <= 0.
Proof.
  split; [reflexivity|]. apply (bytewise_successor [255; 7; 9]).
  repeat constructor; unfold is_byte, is_u; lia.
Defined.

(** *** Big-endian values: the numeric reading of the bytewise order *)

Fixpoint be_val (l : list Z) : Z :=
  match l with
  | [] => 0
  | b :: l => b * 2 ^ (8 * zlen l) + be_val l
  end.

Lemma pow8_pos (l : list Z) : 0 < 2 ^ (8 * zlen l).
Proof. apply Z.pow_pos_nonneg; pose proof (zlen_nonneg l); lia. Qed.
Lemma pow8_cons (b : Z) (l : list Z) : 2 ^ (8 * zlen (b :: l)) = 2 ^ 8 * 2 ^ (8 * zlen l).
Proof.
  rewrite <- Z.pow_add_r by (pose proof (zlen_nonneg l); lia). f_equal. zl. lia.
Qed.

Lemma zlen_nil_eq (b : list Z) : 0 = zlen b -> b = [].
Proof. destruct b; [done|]. zl. pose proof (zlen_nonneg b). lia. Qed.
Lemma zlen_cons_eq (x : Z) (a b : list Z) :
  zlen (x :: a) = zlen b -> exists y b', b = y :: b' /\ zlen a = zlen b'.
Proof.
  destruct b as [|y b]; zl; intros.
  - pose proof (zlen_nonneg a). lia.
  - exists y, b. split; [done|lia].
Qed.

Lemma be_val_range l : bytes_ok l -> 0 <= be_val l < 2 ^ (8 * zlen l).
Proof.
  induction 1 as [|b l Hb Hl IH]; [done|]. rewrite pow8_cons. cbn [be_val].
  unfold is_byte, is_u in Hb. nia.
Qed.

Lemma be_val_app l k : be_val (l ++ k) = be_val l * 2 ^ (8 * zlen k) + be_val k.
Proof.
  induction l as [|b l IH]; cbn [app be_val]; [lia|]. rewrite IH, zlen_app.
  rewrite Z.mul_add_distr_l, Z.pow_add_r by (pose proof (zlen_nonneg l); pose proof (zlen_nonneg k); lia).
  lia.
Qed.

Lemma lex_be_val a b : bytes_ok a -> bytes_ok b -> zlen a = zlen b ->
  (lex a b < 0 <-> be_val a < be_val b).
Proof.
  intros Ha. revert b. induction Ha as [|x a Hx Ha IH]; intros b Hb Hlen.
  { apply zlen_nil_eq in Hlen as ->. simpl. lia. }
  apply zlen_cons_eq in Hlen as (y & b' & -> & El). rename b' into b.
  inversion Hb as [|? ? Hy Hb']; subst.
  cbn [lex be_val]. rewrite <- El.
  pose proof (be_val_range a Ha). pose proof (be_val_range b Hb'). rewrite <- El in *.
  destruct (Z.ltb_spec x y); [nia|]. destruct (Z.ltb_spec y x); [nia|].
  assert (x = y) as -> by lia. rewrite IH by done. lia.
Qed.

Fixpoint be_bytes (n : nat) (v : Z) : list Z :=
  match n with O => [] | S n => be_bytes n (v / 2 ^ 8) ++ [v mod 2 ^ 8] end.
Lemma be_bytes_spec n v : 0 <= v < 2 ^ (8 * Z.of_nat n) ->
  bytes_ok (be_bytes n v) /\ zlen (be_bytes n v) = Z.of_nat n /\ be_val (be_bytes n v) = v.
Proof.
  revert v; induction n as [|n IH]; intros v Hv.
  - change (2 ^ (8 * Z.of_nat 0)) with 1 in Hv. assert (v = 0) as -> by lia.
    split_and!; [constructor|done|done].
  - cbn [be_bytes]. destruct (IH (v / 2 ^ 8)) as (H1 & H2 & H3).
    { split; [apply Z.div_pos; lia|]. apply Z.div_lt_upper_bound; [lia|].
      rewrite <- Z.pow_add_r by lia. replace (8 + 8 * Z.of_nat n) with (8 * Z.of_nat (S n)) by lia. lia. }
    split_and!.
    + apply Forall_app; split; [done|]. repeat constructor; apply Z.mod_pos_bound; lia.
    + zl. lia.
    + rewrite be_val_app, H3. change (zlen [v mod 2 ^ 8]) with 1. cbn [be_val].
      change (2 ^ (8 * zlen (@nil Z))) with 1. change (2 ^ (8 * 1)) with (2 ^ 8).
      pose proof (Z.div_mod v (2 ^ 8)). lia.
Qed.

(** The check on the tails: all 0xff against all 0x00. *)
Lemma tails_check a b : bytes_ok a -> bytes_ok b -> zlen a = zlen b ->
  forallb (fun '(byte_s, byte_t) => negb (negb (byte_s =? 0xff) || negb (byte_t =? 0x00))) (zip a b) = true
  <-> be_val a = 2 ^ (8 * zlen a) - 1 /\ be_val b = 0.
Proof.
  intros Ha. revert b. induction Ha as [|x a Hx Ha IH]; intros b Hb Hlen.
  { apply zlen_nil_eq in Hlen as ->. done. }
  apply zlen_cons_eq in Hlen as (y & b' & -> & El). rename b' into b.
  inversion Hb as [|? ? Hy Hb']; subst. cbn [zip zip_with forallb be_val].
  rewrite andb_true_iff, (IH b Hb' El), pow8_cons. rewrite <- El.
  pose proof (be_val_range a Ha). pose proof (be_val_range b Hb'). rewrite <- El in *.
  unfold is_byte, is_u in Hx, Hy. pose proof (pow8_pos a).
  destruct (Z.eqb_spec x 255), (Z.eqb_spec y 0); simpl; split; intros; try nia; (split; [done|nia]) || done.
Qed.

Lemma immediate_successor_be s t : bytes_ok s -> bytes_ok t ->
  BytewiseComparator.IsSameLengthImmediateSuccessor s t = true <->
  zlen s = zlen t /\ be_val t = be_val s + 1.
Proof.
  intros Hs Ht. unfold BytewiseComparator.IsSameLengthImmediateSuccessor.
  destruct (Z.eqb_spec (zlen s) (zlen t)) as [El|Hne]; cbn [negb orb]; [|split; [done|lia]].
  destruct (Z.eqb_spec (zlen s) 0) as [E0|].
  { rewrite El in E0. symmetry in E0. pose proof (zlen_nil_eq t E0) as ->.
    symmetry in El. apply (zlen_nil_eq s) in El as ->. simpl. split; [done|lia]. }
  destruct (difference_offset_spec s t) as (p & a & b & -> & -> & -> & Hc).
  rewrite !zlen_app in *. assert (Eab : zlen a = zlen b) by lia.
  apply Forall_app in Hs as [Hp Ha]. apply Forall_app in Ht as [_ Hb].
  rewrite !be_val_app, Eab.
  destruct Hc as [->|[->|(x & y & a' & b' & -> & -> & Hxy)]].
  - symmetry in Eab. pose proof (zlen_nil_eq b (eq_sym Eab)) as ->.
    rewrite (proj2 (Z.geb_le _ _)) by (change (zlen []) with 0; lia). simpl. split; [done|lia].
  - pose proof (zlen_nil_eq a (eq_sym Eab)) as ->.
    rewrite (proj2 (Z.geb_le _ _)) by (change (zlen []) with 0; lia). simpl. split; [done|lia].
  - rewrite !byte_at_mid, !zdrop_succ_mid. rewrite !zlen_cons in Eab.
    assert (Eab' : zlen a' = zlen b') by lia. pose proof (zlen_nonneg a').
    inversion Ha as [|? ? Hx Ha']; inversion Hb as [|? ? Hy Hb']; subst.
    rewrite Z.geb_leb, (proj2 (Z.leb_gt _ _)) by (zl; lia).
    pose proof (be_val_range a' Ha'); pose proof (be_val_range b' Hb'); pose proof (pow8_pos a').
    unfold is_byte, is_u in Hx, Hy. rewrite <- Eab' in *. cbn [be_val]. rewrite <- Eab'.
    destruct (negb (x =? 255) && (x + 1 =? y)) eqn:E.
    + rewrite tails_check by done. split; [nia|]. intros [_ Hv].
      assert (y = x + 1) by (destruct (Z.eqb_spec (x + 1) y); [done|]; rewrite andb_false_r in E; done).
      subst y. split; nia.
    + split; [done|]. intros [_ Hv]. exfalso.
      assert (y = x + 1) by nia. subst y.
      rewrite Z.eqb_refl, andb_true_r in E. destruct (Z.eqb_spec x 255); [lia|done].
Qed.

(** [IsSameLengthImmediateSuccessor] accepts exactly the pairs of equal length
    with [s < t] and no string of that length strictly between them. *)
Theorem bytewise_immediate_successor (s t : list Z) :
  bytes_ok s -> bytes_ok t ->
  BytewiseComparator.IsSameLengthImmediateSuccessor s t = true <->
  zlen s = zlen t /\ BytewiseComparator.Compare s t < 0 /\
  forall u, bytes_ok u -> zlen u = zlen s ->
    ~ (BytewiseComparator.Compare s u < 0 /\ BytewiseComparator.Compare u t < 0).
Proof.
  intros Hs Ht. rewrite immediate_successor_be by done. unfold BytewiseComparator.Compare.
  split.
  - intros [El Hv]. split_and!; [done| |].
    + rewrite compare_lex, lex_be_val by done. lia.
    + intros u Hu Eu. rewrite !compare_lex, !lex_be_val by (done || lia). lia.
  - intros (El & Hlt & Hno). split; [done|]. rewrite compare_lex, lex_be_val in Hlt by done.
    destruct (decide (be_val t = be_val s + 1)) as [|Hne]; [done|]. exfalso.
    pose proof (be_val_range s Hs); pose proof (be_val_range t Ht).
    destruct (be_bytes_spec (length s) (be_val s + 1)) as (Hu & Lu & Vu);
      [change (Z.of_nat (length s)) with (zlen s); rewrite El in *; lia|].
    change (Z.of_nat (length s)) with (zlen s) in Lu.
    apply (Hno _ Hu Lu). rewrite !compare_lex, !lex_be_val, Vu by (done || lia). lia.
Qed.

Lemma bytewise_immediate_successor_witness :
  BytewiseComparator.IsSameLengthImmediateSuccessor [1; 7; 255] [1; 8; 0] = true /\
  zlen [1; 7; 255] = zlen [1; 8; 0] /\ BytewiseComparator.Compare [1; 7; 255] [1; 8; 0] < 0 /\
  forall u, bytes_ok u -> zlen u = zlen [1; 7; 255] ->
    ~ (BytewiseComparator.Compare [1; 7; 255] u < 0 /\ BytewiseComparator.Compare u [1; 8; 0] < 0).
Proof.
  split; [reflexivity|]. apply bytewise_immediate_successor; [..|reflexivity];
    repeat constructor; unfold is_byte, is_u; lia.
Defined.

(** The reverse comparator's separator also stays in [start, limit) in the
    reversed order. *)
Theorem reverse_separator (start limit : list Z) :
  ReverseBytewiseComparator.Compare start limit < 0 ->
  let r := ReverseBytewiseComparator.FindShortestSeparator start limit in
  ReverseBytewiseComparator.Compare start r <= 0 /\
  ReverseBytewiseComparator.Compare r limit < 0 /\ zlen r <= zlen start.
Proof.
  unfold ReverseBytewiseComparator.Compare. intros Hlt. cbv zeta. rewrite !compare_lex in *.
  unfold ReverseBytewiseComparator.FindShortestSeparator. rewrite min_len_nat.
  assert (Hkeep : - lex start start <= 0 /\ - lex start limit < 0 /\ zlen start <= zlen start).
  { rewrite lex_refl. lia. }
  destruct (difference_offset_loop_spec start limit _ 0 eq_refl) as (p & a & b & Es & El & -> & Hc).
  rewrite Z.add_0_l. destruct (zlen p =? Z.min (zlen start) (zlen limit)) eqn:Em; [done|].
  destruct Hc as [->|[->|(x & y & a' & b' & -> & -> & Hxy)]].
  - subst. rewrite app_nil_r, zlen_app in Em. pose proof (zlen_nonneg b). lia.
  - subst. rewrite app_nil_r, zlen_app in Em. pose proof (zlen_nonneg a). lia.
  - subst. rewrite !byte_at_mid.
    destruct ((x >? y) && (zlen p <? zlen (p ++ x :: a') - 1)) eqn:E; [|done].
    rewrite ztake_succ_mid, !lex_app_l. apply andb_prop in E as [E _].
    assert (y < x) by lia. split_and!.
    + simpl. rewrite Z.ltb_irrefl. destruct a'; simpl; lia.
    + rewrite lex_opp, lex_head_lt by lia. lia.
    + zl. pose proof (zlen_nonneg a'). lia.
Qed.

Lemma reverse_separator_witness :
  ReverseBytewiseComparator.FindShortestSeparator [97; 104; 5] [97; 98; 99] = [97; 104] /\
  ReverseBytewiseComparator.Compare [97; 104; 5] [97; 104] <= 0 /\
  ReverseBytewiseComparator.Compare [97; 104] [97; 98; 99] < 0 /\ zlen [97; 104] <= zlen [97; 104; 5].
Proof.
  split; [reflexivity|]. apply (reverse_separator [97; 104; 5] [97; 98; 99]). reflexivity.
Defined.

(** Whatever the two functions that split a user key into its key and its
    eight-byte timestamp, and over any lawful comparator of the keys, the timestamp comparator is a total order that ignores the timestamp first
    and then puts newer timestamps first. *)
Theorem u64ts_comparator_laws `{Port} (cmp : list Z -> list Z -> Z) `{!ComparatorLaws cmp}
    (strip extract : list Z -> Z -> list Z) :
  ComparatorLaws (ComparatorWithU64Ts.Compare cmp strip extract) /\
  (forall a b, cmp (strip a 8) (strip b 8) = 0 ->
     ComparatorWithU64Ts.Compare cmp strip extract a b < 0 <->
     DecodeFixed64 (extract b 8) < DecodeFixed64 (extract a 8)).
Proof.
  set (tcmp := tiebreak (fun a b => cmp (strip a 8) (strip b 8)) (fun a => DecodeFixed64 (extract a 8))).
  assert (E : forall a b, tcmp a b = ComparatorWithU64Ts.Compare cmp strip extract a b).
  { intros a b. unfold tcmp, tiebreak, ComparatorWithU64Ts.Compare, ComparatorWithU64Ts.CompareWithoutTimestamp,
      ComparatorWithU64Ts.CompareTimestamp, ComparatorWithU64Ts.timestamp_size.
    rewrite Z.gtb_ltb. destruct (cmp _ _ =? 0); [|done].
    destruct (Z.ltb_spec (DecodeFixed64 (extract a 8)) (DecodeFixed64 (extract b 8))),
      (Z.ltb_spec (DecodeFixed64 (extract b 8)) (DecodeFixed64 (extract a 8))); (done || lia). }
  split.
  - eapply comparator_laws_ext; [apply E|]. apply (tiebreak_laws (fun a => strip a 8)).
  - intros a b E0. rewrite <- E. unfold tcmp.
    rewrite (tiebreak_lt (fun a => strip a 8) (fun a => DecodeFixed64 (extract a 8))). lia.
Qed.

Lemma u64ts_comparator_laws_witness :
  let strip k n := ztake (zlen k - n) k in
  let extract k n := zdrop (zlen k - n) k in
  let cmp := @ComparatorWithU64Ts.Compare le_port BytewiseComparator.Compare strip extract in
  ComparatorLaws cmp /\
  (cmp [65; 2; 0; 0; 0; 0; 0; 0; 0] [65; 1; 0; 0; 0; 0; 0; 0; 0] < 0 <-> 1 < 2).
Proof.
  intros strip extract cmp.
  destruct (@u64ts_comparator_laws le_port BytewiseComparator.Compare bytewise_laws strip extract)
    as [H1 H2].
  split; [exact H1|]. apply (H2 [65; 2; 0; 0; 0; 0; 0; 0; 0] [65; 1; 0; 0; 0; 0; 0; 0; 0]).
  reflexivity.
Defined.
