(* ===== verification/Math.v ===== *)
(** * Integer utilities (util/math.h, util/math128.h, util/fastrange.h)

    A template parameter [T] (an unsigned integer type) is the number [n] of its
    bytes. Compiler builtins are given by what they compute ([__builtin_clz]
    through [Z.log2], [__builtin_popcount] as a sum of bits, [__builtin_bswap]
    as a reversal of bytes). [Unsigned128] is the two-word struct of builds
    without a 128-bit type; [val128] reads it as a number. *)

From stdpp Require Import prelude.
From Stdlib Require Import ZArith Lia Bool.
From S2P Require Import Prelude Coding.

(** ** util/math.h *)

Definition bits (n : nat) : Z := 8 * Z.of_nat n.
Definition wrapT (n : nat) (v : Z) : Z := v mod 2 ^ bits n.

(** [FloorLog2]: the width of the builtin used minus one minus the number of
    leading zeros. *)
Definition clz (w v : Z) : Z := w - 1 - Z.log2 v.
Definition FloorLog2 (n : nat) (v : Z) : Z :=
  if (n <=? 4)%nat then 4 * 8 - 1 - clz 32 v else 8 * 8 - 1 - clz 64 v.

Fixpoint ConstexprFloorLog2_loop (fuel : nat) (rv v : Z) : Z :=
  match fuel with
  | O => rv
  | S fuel => if v >? 1 then ConstexprFloorLog2_loop fuel (rv + 1) (Z.shiftr v 1) else rv
  end.
Definition ConstexprFloorLog2 (n : nat) (v : Z) : Z :=
  ConstexprFloorLog2_loop (Z.to_nat (bits n)) 0 v.

(** Trailing zeros of a non-zero number. *)
Fixpoint ctz_pos (p : positive) : Z :=
  match p with xO p => 1 + ctz_pos p | _ => 0 end.
Definition CountTrailingZeroBits (v : Z) : Z :=
  match v with Zpos p => ctz_pos p | _ => 0 end.

Fixpoint popcount_pos (p : positive) : Z :=
  match p with xH => 1 | xO p => popcount_pos p | xI p => 1 + popcount_pos p end.
Definition popcount (v : Z) : Z := match v with Zpos p => popcount_pos p | _ => 0 end.

(** [BitsSetToOneFallback]: the masks are truncated to [T]. *)
Fixpoint BitsSetToOneFallback_loop (fuel : nat) (n : nat) (shift_bits v : Z) : Z :=
  match fuel with
  | O => v
  | S fuel =>
      if shift_bits <? bits n
      then BitsSetToOneFallback_loop fuel n (Z.shiftl shift_bits 1)
             (wrapT n (v + wrapT n (Z.shiftr v shift_bits)))
      else v
  end.
Definition BitsSetToOneFallback (n : nat) (v : Z) : Z :=
  let kBits := bits n in
  let v := wrapT n (v - Z.land (Z.shiftr v 1) (wrapT n 0x5555555555555555)) in
  let v := wrapT n (Z.land v (wrapT n 0x3333333333333333) +
                    Z.land (Z.shiftr v 2) (wrapT n 0x3333333333333333)) in
  let v := wrapT n (Z.land (v + Z.shiftr v 4) (wrapT n 0x0F0F0F0F0F0F0F0F)) in
  let v := BitsSetToOneFallback_loop 4 n 8 v in
  Z.land v (wrapT n (Z.lor kBits (kBits - 1))).

(** [BitsSetToOne] on an unsigned value; narrow types are masked to their width. *)
Definition BitsSetToOne (n : nat) (v : Z) : Z :=
  if (n <? 4)%nat
  then popcount (Z.land v (Z.shiftl 1 (Z.land (8 * Z.of_nat n) 31) - 1))
  else popcount v.

Definition BitParity (v : Z) : Z := Z.land (popcount v) 1.

Definition bswap (n : nat) (v : Z) : Z := le_val (rev (le_bytes n v)).
Fixpoint EndianSwapValue_loop (k n : nat) (v ret_val : Z) : Z :=
  match k with
  | O => ret_val
  | S k =>
      let i := Z.of_nat n - Z.of_nat (S k) in
      EndianSwapValue_loop k n v
        (Z.lor ret_val
           (wrapT n (Z.shiftl (Z.land (Z.shiftr v (8 * i)) 0xff) (8 * (Z.of_nat n - 1 - i)))))
  end.
Definition EndianSwapValue (n : nat) (v : Z) : Z :=
  if (n =? 2)%nat || (n =? 4)%nat || (n =? 8)%nat then bswap n v
  else EndianSwapValue_loop n n v 0.

Definition ReverseBits (n : nat) (v : Z) : Z :=
  let r := EndianSwapValue n v in
  let kHighestByte := Z.shiftl 1 ((Z.of_nat n - 1) * 8) in
  let kEveryByte := Z.lor kHighestByte (kHighestByte / 255) in
  let step r m s :=
    wrapT n (Z.lor (Z.shiftl (Z.land r (kEveryByte * m)) s)
                   (Z.land (Z.shiftr r s) (kEveryByte * m))) in
  let r := step r 0x0f 4 in
  let r := step r 0x33 2 in
  step r 0x55 1.

Definition DownwardInvolution (n : nat) (v : Z) : Z :=
  let r := v in
  let r := if (4 <? n)%nat then Z.lxor r (Z.shiftr r 32) else r in
  let r := if (2 <? n)%nat then Z.lxor r (Z.shiftr (Z.land r 0xffff0000ffff0000) 16) else r in
  let r := if (1 <? n)%nat then Z.lxor r (Z.shiftr (Z.land r 0xff00ff00ff00ff00) 8) else r in
  let r := Z.lxor r (Z.shiftr (Z.land r 0xf0f0f0f0f0f0f0f0) 4) in
  let r := Z.lxor r (Z.shiftr (Z.land r 0xcccccccccccccccc) 2) in
  let r := Z.lxor r (Z.shiftr (Z.land r 0xaaaaaaaaaaaaaaaa) 1) in
  wrapT n r.

(** ** util/math128.h *)

Module Unsigned128.

Record t := mk { lo : Z; hi : Z }.
Definition val (x : t) : Z := lo x + 2 ^ 64 * hi x.
Definition ok (x : t) : Prop := is_u 64 (lo x) /\ is_u 64 (hi x).
Definition of_u64 (lower : Z) : t := mk lower 0.

Definition shl (lhs : t) (shift : Z) : t :=
  let shift := Z.land shift 127 in
  if shift >=? 64 then mk 0 (u64 (Z.shiftl (lo lhs) (Z.land shift 63)))
  else
    let tmp := lo lhs in
    let rv_lo := u64 (Z.shiftl tmp shift) in
    let tmp := Z.shiftr (Z.shiftr tmp 1) (63 - shift) in
    mk rv_lo (Z.lor tmp (u64 (Z.shiftl (hi lhs) shift))).

Definition shr (lhs : t) (shift : Z) : t :=
  let shift := Z.land shift 127 in
  if shift >=? 64 then mk (Z.shiftr (hi lhs) (Z.land shift 63)) 0
  else
    let tmp := hi lhs in
    let rv_hi := Z.shiftr tmp shift in
    let tmp := u64 (Z.shiftl (u64 (Z.shiftl tmp 1)) (63 - shift)) in
    mk (Z.lor tmp (Z.shiftr (lo lhs) shift)) rv_hi.

Definition and (x y : t) : t := mk (Z.land (lo x) (lo y)) (Z.land (hi x) (hi y)).
Definition or (x y : t) : t := mk (Z.lor (lo x) (lo y)) (Z.lor (hi x) (hi y)).
Definition xor (x y : t) : t := mk (Z.lxor (lo x) (lo y)) (Z.lxor (hi x) (hi y)).
Definition not (x : t) : t := mk (u64 (Z.lnot (lo x))) (u64 (Z.lnot (hi x))).
Definition eqb (x y : t) : bool := (lo x =? lo y) && (hi x =? hi y).
Definition neb (x y : t) : bool := negb (lo x =? lo y) || negb (hi x =? hi y).
Definition gtb (x y : t) : bool := (hi x >? hi y) || ((hi x =? hi y) && (lo x >? lo y)).
Definition ltb (x y : t) : bool := (hi x <? hi y) || ((hi x =? hi y) && (lo x <? lo y)).
Definition geb (x y : t) : bool := (hi x >? hi y) || ((hi x =? hi y) && (lo x >=? lo y)).
Definition leb (x y : t) : bool := (hi x <? hi y) || ((hi x =? hi y) && (lo x <=? lo y)).

End Unsigned128.

Definition Lower64of128 (v : Unsigned128.t) : Z := Unsigned128.lo v.
Definition Upper64of128 (v : Unsigned128.t) : Z := Unsigned128.hi v.

Definition Multiply64to128 (a b : Z) : Unsigned128.t :=
  let tmp := u64 (Z.land b 0xffffFFFF * Z.land a 0xffffFFFF) in
  let lower := Z.land tmp 0xffffFFFF in
  let tmp := Z.shiftr tmp 32 in
  let tmp := u64 (tmp + u64 (Z.land b 0xffffFFFF * Z.shiftr a 32)) in
  let tmp2 := u64 (Z.shiftr b 32 * Z.land a 0xffffFFFF) in
  let tmp := u64 (tmp + Z.land tmp2 0xffffFFFF) in
  let lower := Z.lor lower (u64 (Z.shiftl tmp 32)) in
  let tmp := Z.shiftr tmp 32 in
  let tmp := u64 (tmp + Z.shiftr tmp2 32) in
  let tmp := u64 (tmp + u64 (Z.shiftr b 32 * Z.shiftr a 32)) in
  Unsigned128.mk lower tmp.

Definition FloorLog2_128 (v : Unsigned128.t) : Z :=
  if Upper64of128 v =? 0 then FloorLog2 8 (Lower64of128 v)
  else FloorLog2 8 (Upper64of128 v) + 64.
Definition CountTrailingZeroBits_128 (v : Unsigned128.t) : Z :=
  if negb (Lower64of128 v =? 0) then CountTrailingZeroBits (Lower64of128 v)
  else CountTrailingZeroBits (Upper64of128 v) + 64.
Definition BitsSetToOne_128 (v : Unsigned128.t) : Z :=
  BitsSetToOne 8 (Lower64of128 v) + BitsSetToOne 8 (Upper64of128 v).
Definition BitParity_128 (v : Unsigned128.t) : Z :=
  BitParity (Z.lxor (Lower64of128 v) (Upper64of128 v)).
Definition EndianSwapValue_128 (v : Unsigned128.t) : Unsigned128.t :=
  Unsigned128.or
    (Unsigned128.shl (Unsigned128.of_u64 (EndianSwapValue 8 (Lower64of128 v))) 64)
    (Unsigned128.of_u64 (EndianSwapValue 8 (Upper64of128 v))).
Definition ReverseBits_128 (v : Unsigned128.t) : Unsigned128.t :=
  Unsigned128.or
    (Unsigned128.shl (Unsigned128.of_u64 (ReverseBits 8 (Lower64of128 v))) 64)
    (Unsigned128.of_u64 (ReverseBits 8 (Upper64of128 v))).
Definition DownwardInvolution_128 (v : Unsigned128.t) : Unsigned128.t :=
  Unsigned128.or
    (Unsigned128.shl (Unsigned128.of_u64 (DownwardInvolution 8 (Upper64of128 v))) 64)
    (Unsigned128.of_u64 (DownwardInvolution 8 (Z.lxor (Upper64of128 v) (Lower64of128 v)))).

Section fixed128.
Context `{Port}.
Definition EncodeFixed128 (value : Unsigned128.t) : list Z :=
  EncodeFixed64 (Lower64of128 value) ++ EncodeFixed64 (Upper64of128 value).
Definition DecodeFixed128 (ptr : list Z) : Unsigned128.t :=
  let rv := Unsigned128.of_u64 (DecodeFixed64 (zdrop 8 ptr)) in
  Unsigned128.or (Unsigned128.shl rv 64) (Unsigned128.of_u64 (DecodeFixed64 ptr)).
End fixed128.

(** ** util/fastrange.h *)

(** The 32-bit specialisation, for a [Range] of [n] bytes. *)
Definition FastRangeGeneric32 (n : nat) (hash range : Z) : Z :=
  let product := u64 (range * hash) in
  wrapT n (Z.shiftr product 32).

(** The 64-bit specialisation with a 128-bit type and its decomposition without. *)
Definition FastRangeGeneric64_wide (n : nat) (hash range : Z) : Z :=
  wrapT n (Z.shiftr ((range * hash) mod 2 ^ 128) 64).
Definition FastRangeGeneric64 (n : nat) (hash range : Z) : Z :=
  let range64 := range in
  let tmp := u64 (Z.land range64 0xffffFFFF * Z.land hash 0xffffFFFF) in
  let tmp := Z.shiftr tmp 32 in
  let tmp := u64 (tmp + u64 (Z.land range64 0xffffFFFF * Z.shiftr hash 32)) in
  let tmp2 := u64 (Z.shiftr range64 32 * Z.land hash 0xffffFFFF) in
  let tmp := u64 (tmp + u32 tmp2) in
  let tmp := Z.shiftr tmp 32 in
  let tmp := u64 (tmp + Z.shiftr tmp2 32) in
  let tmp := u64 (tmp + u64 (Z.shiftr range64 32 * Z.shiftr hash 32)) in
  wrapT n tmp.

Definition FastRange64 (hash range : Z) : Z := FastRangeGeneric64 8 hash range.
Definition FastRange32 (hash range : Z) : Z := FastRangeGeneric32 4 hash range.

(** ** Maps that are linear over GF(2)

    Two linear maps that agree on the powers of two below [2^w] agree below
    [2^w], which turns many bit-twiddling identities into a finite check. *)

Definition linear (f : Z -> Z) : Prop := forall a b, f (Z.lxor a b) = Z.lxor (f a) (f b).

Create HintDb linear discriminated.

Lemma linear_0 f : linear f -> f 0 = 0.
Proof. intros H. specialize (H 0 0). rewrite !Z.lxor_nilpotent in H. done. Qed.

Lemma linear_id : linear (fun v => v).
Proof. by intros a b. Qed.
Lemma linear_lxor f g : linear f -> linear g -> linear (fun v => Z.lxor (f v) (g v)).
Proof. intros Hf Hg a b. rewrite Hf, Hg. bitwise. repeat destruct (Z.testbit _ _); done. Qed.
Lemma linear_land f m : linear f -> linear (fun v => Z.land (f v) m).
Proof. intros Hf a b. rewrite Hf. bitwise. repeat destruct (Z.testbit _ _); done. Qed.
Lemma linear_shiftr f s : linear f -> linear (fun v => Z.shiftr (f v) s).
Proof. intros Hf a b. by rewrite Hf, Z.shiftr_lxor. Qed.
Lemma linear_shiftl f s : linear f -> linear (fun v => Z.shiftl (f v) s).
Proof. intros Hf a b. by rewrite Hf, Z.shiftl_lxor. Qed.
Lemma linear_mod f n : 0 <= n -> linear f -> linear (fun v => f v mod 2 ^ n).
Proof. intros Hn Hf a b. rewrite Hf, <- !Z.land_ones by done. by apply (linear_land _ _ linear_id). Qed.
Lemma linear_compose f g : linear f -> linear g -> linear (fun v => g (f v)).
Proof. intros Hf Hg a b. by rewrite Hf, Hg. Qed.

Lemma linear_wrapT f n : linear f -> linear (fun v => wrapT n (f v)).
Proof. apply linear_mod. unfold bits. lia. Qed.

#[export] Hint Resolve linear_id linear_lxor linear_land linear_shiftr linear_shiftl
  linear_wrapT : linear.

(** Two shifted copies under masks that do not overlap combine without carry. *)
Lemma linear_swap f m s :
  0 <= s -> Z.land (Z.shiftl m s) m = 0 -> linear f ->
  linear (fun v => Z.lor (Z.shiftl (Z.land (f v) m) s) (Z.land (Z.shiftr (f v) s) m)).
Proof.
  intros Hs Hm Hf.
  assert (Hx : forall r, Z.lor (Z.shiftl (Z.land r m) s) (Z.land (Z.shiftr r s) m) =
                         Z.lxor (Z.shiftl (Z.land r m) s) (Z.land (Z.shiftr r s) m)).
  { intros r. apply Z.bits_inj'; intros i Hi.
    rewrite Z.lor_spec, Z.lxor_spec, Z.land_spec, Z.shiftl_spec, Z.land_spec by lia.
    assert (E := f_equal (fun x => Z.testbit x i) Hm). cbn beta in E.
    rewrite Z.land_spec, Z.shiftl_spec, Z.bits_0 in E by lia.
    destruct (Z.testbit m (i - s)), (Z.testbit m i), (Z.testbit r (i - s)),
      (Z.testbit (Z.shiftr r s) i); done. }
  intros a b. rewrite !Hx. 
  apply (linear_lxor (fun v => Z.shiftl (Z.land (f v) m) s) (fun v => Z.land (Z.shiftr (f v) s) m));
    auto with linear.
Qed.

Lemma split_top v n : 0 <= n -> 0 <= v < 2 ^ (n + 1) ->
  v = Z.lxor (v mod 2 ^ n) (if Z.testbit v n then 2 ^ n else 0).
Proof.
  intros Hn Hv. apply Z.bits_inj'; intros i Hi.
  rewrite Z.lxor_spec, tbit_mod by lia.
  destruct (Z.ltb_spec i n) as [Hlt|Hge]; cbn [andb].
  - destruct (Z.testbit v n); [rewrite Z.pow2_bits_false by lia|rewrite Z.bits_0]; by rewrite xorb_false_r.
  - destruct (decide (i = n)) as [->|].
    + destruct (Z.testbit v n) eqn:E; [by rewrite Z.pow2_bits_true by lia|by rewrite Z.bits_0].
    + rewrite (tbit_high v (n + 1)) by lia.
      destruct (Z.testbit v n); [by rewrite Z.pow2_bits_false by lia|by rewrite Z.bits_0].
Qed.

Definition agree_on_basis (w : nat) (f g : Z -> Z) : bool :=
  forallb (fun i => f (2 ^ Z.of_nat i) =? g (2 ^ Z.of_nat i)) (seq 0 w).

Lemma linear_ext w f g : linear f -> linear g -> agree_on_basis w f g = true ->
  forall v, 0 <= v < 2 ^ Z.of_nat w -> f v = g v.
Proof.
  intros Hf Hg. unfold agree_on_basis. rewrite forallb_forall. intros Hb.
  assert (Hb' : forall i, (i < w)%nat -> f (2 ^ Z.of_nat i) = g (2 ^ Z.of_nat i)).
  { intros i Hi. apply Z.eqb_eq, Hb, in_seq. lia. } clear Hb.
  induction w as [|w IH]; intros v Hv.
  - change (2 ^ Z.of_nat 0) with 1 in Hv. replace v with 0 by lia. by rewrite !linear_0.
  - rewrite Nat2Z.inj_succ in Hv.
    rewrite (split_top v (Z.of_nat w)) by lia. rewrite Hf, Hg. f_equal.
    + apply IH; [intros; apply Hb'; lia|apply Z.mod_pos_bound; lia].
    + destruct (Z.testbit _ _); [apply Hb'; lia|by rewrite !linear_0].
Qed.

(** ** Byte and bit reversal *)

Lemma tbit_byte b i : is_byte b -> 8 <= i -> Z.testbit b i = false.
Proof. intros. by apply (tbit_high b 8). Qed.

Lemma tbit_le_val l i : bytes_ok l -> 0 <= i ->
  Z.testbit (le_val l) i = Z.testbit (nth (Z.to_nat (i / 8)) l 0) (i mod 8).
Proof.
  intros Hl; revert i. induction Hl as [|b l Hb Hl IH]; intros i Hi.
  - cbn [le_val]. rewrite Z.bits_0. by destruct (Z.to_nat (i / 8)); rewrite Z.bits_0.
  - cbn [le_val]. unfold is_byte, is_u in Hb.
    replace (b + 2 ^ 8 * le_val l) with (Z.lor b (Z.shiftl (le_val l) 8))
      by (rewrite lor_add_pow2 by lia; lia).
    rewrite Z.lor_spec, Z.shiftl_spec by lia. destruct (Z.ltb_spec i 8).
    + rewrite (tbit_neg _ (i - 8)), orb_false_r by lia.
      by rewrite Z.div_small, Z.mod_small by lia.
    + rewrite (tbit_byte b) by (done || lia). cbn [orb]. rewrite IH by lia.
      replace (i / 8) with ((i - 8) / 8 + 1) by (rewrite <- Z.div_add by lia; f_equal; lia).
      rewrite Z2Nat.inj_add, Nat.add_comm by (try apply Z.div_pos; lia). cbn [nth Z.to_nat Pos.to_nat].
      f_equal. rewrite <- (Z.mod_add (i - 8) 1 8) by lia. f_equal; lia.
Qed.

Lemma nth_le_bytes n v k : (k < n)%nat -> nth k (le_bytes n v) 0 = (v / 2 ^ (8 * Z.of_nat k)) mod 2 ^ 8.
Proof.
  revert v k; induction n as [|n IH]; intros v k Hk; [lia|]. destruct k as [|k]; cbn [le_bytes nth].
  - by rewrite Z.mul_0_r, Z.div_1_r.
  - rewrite IH by lia. rewrite Z.div_div by (try apply Z.pow_pos_nonneg; lia).
    rewrite <- Z.pow_add_r by lia. do 3 f_equal. lia.
Qed.

Lemma tbit_bswap n v i : 0 <= i ->
  Z.testbit (bswap n v) i =
  (i <? bits n) && Z.testbit v (8 * (Z.of_nat n - 1 - i / 8) + i mod 8).
Proof.
  intros Hi. unfold bswap, bits. rewrite tbit_le_val by (done || apply Forall_rev, le_bytes_ok).
  pose proof (Z.div_pos i 8 Hi ltac:(lia)). pose proof (Z.mod_pos_bound i 8 ltac:(lia)).
  pose proof (Z.div_mod i 8 ltac:(lia)).
  destruct (Z.ltb_spec i (8 * Z.of_nat n)) as [Hlt|Hge]; cbn [andb].
  - assert (i / 8 < Z.of_nat n) by lia.
    rewrite rev_nth, le_bytes_length by (rewrite le_bytes_length; lia).
    rewrite nth_le_bytes by lia. rewrite tbit_mod, (proj2 (Z.ltb_lt _ _)) by lia. cbn [andb].
    rewrite Z.div_pow2_bits by lia. f_equal. lia.
  - rewrite nth_overflow by (rewrite length_rev, le_bytes_length; lia). apply Z.bits_0.
Qed.

Lemma bswap_range n v : 0 <= bswap n v < 2 ^ bits n.
Proof.
  unfold bswap, bits.
  pose proof (le_val_range (rev (le_bytes n v)) ltac:(apply Forall_rev, le_bytes_ok)) as Hr.
  unfold zlen in Hr. by rewrite length_rev, le_bytes_length in Hr.
Qed.

Lemma linear_bswap n : linear (bswap n).
Proof.
  intros a b. apply Z.bits_inj'; intros i Hi. rewrite Z.lxor_spec, !tbit_bswap, Z.lxor_spec by done.
  by destruct (i <? bits n).
Qed.

Lemma bswap_involutive n v : 0 <= v < 2 ^ bits n -> bswap n (bswap n v) = v.
Proof.
  intros Hv. apply Z.bits_inj'; intros i Hi. rewrite tbit_bswap by done.
  pose proof (Z.div_mod i 8 ltac:(lia)). pose proof (Z.mod_pos_bound i 8 ltac:(lia)).
  unfold bits in *. destruct (Z.ltb_spec i (8 * Z.of_nat n)); cbn [andb].
  - rewrite tbit_bswap by lia. unfold bits. rewrite (proj2 (Z.ltb_lt _ _)) by lia. cbn [andb].
    set (q := Z.of_nat n - 1 - i / 8).
    replace ((8 * q + i mod 8) / 8) with q by (apply (Z.div_unique_pos _ 8 _ (i mod 8)); lia).
    replace ((8 * q + i mod 8) mod 8) with (i mod 8) by (apply (Z.mod_unique_pos _ 8 q); lia).
    f_equal. lia.
  - by rewrite (tbit_high v (8 * Z.of_nat n)).
Qed.

(** The portable loop of [EndianSwapValue] places byte [i] at [n - 1 - i]. *)
Lemma EndianSwapValue_loop_bits k n v r i : (k <= n)%nat -> 0 <= i < bits n ->
  Z.testbit (EndianSwapValue_loop k n v r) i =
  Z.testbit r i || ((i <? bits k) && Z.testbit v (8 * (Z.of_nat n - 1 - i / 8) + i mod 8)).
Proof.
  revert r; induction k as [|k IH]; intros r Hk Hi; cbn [EndianSwapValue_loop].
  - change (bits 0) with 0. rewrite (proj2 (Z.ltb_ge i 0)) by lia. cbn [andb]. by rewrite orb_false_r.
  - rewrite IH by lia. rewrite Z.lor_spec, <- orb_assoc. f_equal. unfold wrapT.
    rewrite tbit_mod, (proj2 (Z.ltb_lt i _)) by (unfold bits in *; lia). cbn [andb].
    rewrite Z.shiftl_spec, land_ff by lia.
    pose proof (Z.div_mod i 8 ltac:(lia)). pose proof (Z.mod_pos_bound i 8 ltac:(lia)).
    replace (8 * (Z.of_nat n - 1 - (Z.of_nat n - Z.of_nat (S k)))) with (bits k) by (unfold bits; lia).
    destruct (Z.ltb_spec i (bits k)); cbn [andb].
    + rewrite (tbit_neg _ (i - bits k)) by lia. cbn [orb].
      by rewrite (proj2 (Z.ltb_lt _ _)) by (unfold bits in *; lia).
    + rewrite orb_false_r, tbit_mod by lia.
      destruct (Z.ltb_spec i (bits (S k))); unfold bits in *.
      * rewrite (proj2 (Z.ltb_lt _ _)), Z.shiftr_spec by lia. cbn [andb]. f_equal.
        assert (i / 8 = Z.of_nat k) by (symmetry; apply (Z.div_unique_pos i 8 _ (i - 8 * Z.of_nat k)); lia).
        lia.
      * by rewrite (proj2 (Z.ltb_ge _ _)) by lia.
Qed.

Lemma EndianSwapValue_loop_range k n v r : (k <= n)%nat ->
  0 <= r < 2 ^ bits n -> 0 <= EndianSwapValue_loop k n v r < 2 ^ bits n.
Proof.
  revert r; induction k as [|k IH]; intros r Hk Hr; cbn [EndianSwapValue_loop]; [done|].
  apply IH; [lia|].
  apply lor_range; [unfold bits; lia|done|]. unfold wrapT. apply Z.mod_pos_bound.
  apply Z.pow_pos_nonneg; unfold bits; lia.
Qed.

Lemma EndianSwapValue_loop_bswap n v : EndianSwapValue_loop n n v 0 = bswap n v.
Proof.
  apply Z.bits_inj'; intros i Hi. destruct (Z.ltb_spec i (bits n)) as [Hlt|Hge].
  - rewrite EndianSwapValue_loop_bits, tbit_bswap by lia. by rewrite Z.bits_0.
  - rewrite (tbit_high (bswap n v) (bits n)) by (done || apply bswap_range).
    apply (tbit_high _ (bits n)); [|done]. apply EndianSwapValue_loop_range; [done|].
    split; [lia|apply Z.pow_pos_nonneg; unfold bits; lia].
Qed.

Lemma EndianSwapValue_bswap n v : EndianSwapValue n v = bswap n v.
Proof. unfold EndianSwapValue. destruct (_ || _); [done|apply EndianSwapValue_loop_bswap]. Qed.

(** The unsigned integer types the code instantiates the templates with. *)
Definition uint_size (n : nat) : Prop := n = 1%nat \/ n = 2%nat \/ n = 4%nat \/ n = 8%nat.
Ltac uint_cases H := destruct H as [ -> | [ -> | [ -> | -> ]]].

Lemma linear_ReverseBits n : uint_size n -> linear (ReverseBits n).
Proof.
  intros Hn. unfold ReverseBits. cbv zeta.
  assert (linear (fun v => EndianSwapValue n v)) as H0.
  { intros a b. rewrite !EndianSwapValue_bswap. apply linear_bswap. }
  uint_cases Hn; repeat (apply linear_wrapT, linear_swap; [lia|reflexivity|]); exact H0.
Qed.

Lemma linear_bit f i : linear f -> linear (fun v => Z.land (Z.shiftr (f v) i) 1).
Proof. auto with linear. Qed.

Lemma land_1_bit v i : 0 <= i -> Z.testbit v i = Z.odd (Z.land (Z.shiftr v i) 1).
Proof. intros. rewrite <- Z.bit0_odd, Z.land_spec, Z.shiftr_spec by lia. by rewrite Z.add_0_l, andb_true_r. Qed.

Definition reverse_agrees (n : nat) : bool :=
  let w := (8 * n)%nat in
  forallb (fun i => agree_on_basis w
      (fun v => Z.land (Z.shiftr (ReverseBits n v) (Z.of_nat i)) 1)
      (fun v => Z.land (Z.shiftr v (bits n - 1 - Z.of_nat i)) 1)) (seq 0 w).

Lemma reverse_agrees_all n : uint_size n -> reverse_agrees n = true.
Proof. intros Hn. uint_cases Hn; vm_compute; reflexivity. Qed.

Lemma ReverseBits_bits n v i : uint_size n -> 0 <= v < 2 ^ bits n -> 0 <= i < bits n ->
  Z.testbit (ReverseBits n v) i = Z.testbit v (bits n - 1 - i).
Proof.
  intros Hn Hv Hi. rewrite !land_1_bit by lia. f_equal.
  pose proof (reverse_agrees_all n Hn) as H. unfold reverse_agrees in H. rewrite forallb_forall in H.
  specialize (H (Z.to_nat i)). rewrite in_seq, Z2Nat.id in H by lia.
  refine (linear_ext (8 * n) _ _ _ _ (H _) v _); unfold bits in *; try lia.
  - apply linear_bit, linear_ReverseBits, Hn.
  - apply linear_bit, linear_id.
Qed.

Lemma linear_DownwardInvolution n : linear (DownwardInvolution n).
Proof.
  unfold DownwardInvolution. cbv zeta. apply linear_wrapT.
  destruct (4 <? n)%nat, (2 <? n)%nat, (1 <? n)%nat; auto 30 with linear.
Qed.

(** A linear map that fixes the leading bit of every power of two fixes the
    leading bit of every number. *)
Lemma linear_triangular w f : linear f ->
  forallb (fun i => (2 ^ Z.of_nat i <=? f (2 ^ Z.of_nat i)) &&
                    (f (2 ^ Z.of_nat i) <? 2 ^ (Z.of_nat i + 1))) (seq 0 w) = true ->
  forall v, 0 < v < 2 ^ Z.of_nat w -> 0 < f v /\ Z.log2 (f v) = Z.log2 v.
Proof.
  intros Hf Hb. rewrite forallb_forall in Hb.
  assert (Hb' : forall i, (i < w)%nat ->
            2 ^ Z.of_nat i <= f (2 ^ Z.of_nat i) < 2 ^ (Z.of_nat i + 1)).
  { intros i Hi. specialize (Hb i ltac:(apply in_seq; lia)). lia. } clear Hb.
  induction w as [|w IH]; intros v Hv; [change (2 ^ Z.of_nat 0) with 1 in Hv; lia|].
  rewrite Nat2Z.inj_succ in Hv. pose proof (split_top v (Z.of_nat w) ltac:(lia) ltac:(lia)) as E.
  pose proof (Z.mod_pos_bound v (2 ^ Z.of_nat w) ltac:(lia)) as Hm.
  set (m := v mod _) in *.
  assert (IHm : 0 < m -> 0 < f m /\ Z.log2 (f m) = Z.log2 m) by (intros; apply IH; [intros; apply Hb'|]; lia).
  destruct (Z.testbit v (Z.of_nat w)) eqn:T.
  2: { rewrite Z.lxor_0_r in E. rewrite E. apply IHm. lia. }
  assert (Lv : Z.log2 v = Z.of_nat w).
  { apply Z.log2_unique; [lia|]. split; [|lia]. apply Z.nlt_ge. intros Hlt.
    by rewrite (tbit_high v (Z.of_nat w)) in T by lia. }
  assert (Lm : 0 <= f m < 2 ^ Z.of_nat w).
  { destruct (decide (m = 0)) as [->|]; [rewrite linear_0 by done; lia|].
    destruct (IHm ltac:(lia)) as [? El]. split; [lia|]. apply Z.log2_lt_pow2; [lia|].
    rewrite El. apply Z.log2_lt_pow2; lia. }
  specialize (Hb' w ltac:(lia)). rewrite Lv, E, Hf. clear E IH IHm.
  set (a := f m) in *. set (b := f (2 ^ _)) in *.
  assert (B : Z.testbit b (Z.of_nat w) = true).
  { replace (Z.of_nat w) with (Z.log2 b) by (apply Z.log2_unique; lia). apply Z.bit_log2; lia. }
  assert (X : Z.testbit (Z.lxor a b) (Z.of_nat w) = true).
  { by rewrite Z.lxor_spec, B, (tbit_high a (Z.of_nat w)) by lia. }
  assert (R : 0 <= Z.lxor a b < 2 ^ (Z.of_nat w + 1)).
  { rewrite <- (Z.mod_small a (2 ^ (Z.of_nat w + 1))), <- (Z.mod_small b (2 ^ (Z.of_nat w + 1)))
      by (rewrite ?Z.pow_add_r in *; lia).
    rewrite <- (linear_mod (fun v => v) (Z.of_nat w + 1) ltac:(lia) linear_id).
    apply Z.mod_pos_bound; lia. }
  assert (2 ^ Z.of_nat w <= Z.lxor a b).
  { apply Z.nlt_ge. intros Hlt. by rewrite (tbit_high _ (Z.of_nat w)) in X by lia. }
  split; [lia|]. apply Z.log2_unique; lia.
Qed.

(** ** The two-word product *)

Lemma mul32_bound x y : 0 <= x < 2 ^ 32 -> 0 <= y < 2 ^ 32 -> 0 <= x * y <= 2 ^ 64 - 2 ^ 33 + 1.
Proof. intros. nia. Qed.

Lemma carry_arith p00 p01 p10 p11 (m := 2 ^ 64 - 2 ^ 33 + 1) :
  0 <= p00 <= m -> 0 <= p01 <= m -> 0 <= p10 <= m -> 0 <= p11 <= m ->
  let t2 := p00 / 2 ^ 32 + p01 in
  let t3 := t2 + p10 mod 2 ^ 32 in
  let t4 := t3 / 2 ^ 32 + p10 / 2 ^ 32 in
  0 <= t2 < 2 ^ 64 /\ 0 <= t3 < 2 ^ 64 /\ 0 <= t4 < 2 ^ 33 /\ 0 <= t4 + p11 < 2 ^ 64 /\
  p11 * 2 ^ 64 + (p01 + p10) * 2 ^ 32 + p00 =
    p00 mod 2 ^ 32 + (t3 mod 2 ^ 32) * 2 ^ 32 + (t4 + p11) * 2 ^ 64.
Proof.
  intros H0 H1 H2 H3. cbv zeta. unfold m in *.
  pose proof (Z.div_mod p00 (2 ^ 32) ltac:(lia)). pose proof (Z.mod_pos_bound p00 (2 ^ 32) ltac:(lia)).
  pose proof (Z.div_mod p10 (2 ^ 32) ltac:(lia)). pose proof (Z.mod_pos_bound p10 (2 ^ 32) ltac:(lia)).
  set (t3 := p00 / _ + _ + _).
  pose proof (Z.div_mod t3 (2 ^ 32) ltac:(lia)). pose proof (Z.mod_pos_bound t3 (2 ^ 32) ltac:(lia)).
  split_and!; lia.
Qed.

(** The carries of the schoolbook product of two numbers given by their 32-bit
    halves, as [Multiply64to128] and [FastRangeGeneric64] compute them. *)
Section product.
Context (a b : Z) (Ha : 0 <= a < 2 ^ 64) (Hb : 0 <= b < 2 ^ 64).
Let a0 := a mod 2 ^ 32.
Let a1 := a / 2 ^ 32.
Let b0 := b mod 2 ^ 32.
Let b1 := b / 2 ^ 32.
Let t1 := b0 * a0.
Let t2 := t1 / 2 ^ 32 + b0 * a1.
Let s := b1 * a0.
Let t3 := t2 + s mod 2 ^ 32.
Let t4 := t3 / 2 ^ 32 + s / 2 ^ 32.

Lemma product_halves : 0 <= a0 < 2 ^ 32 /\ 0 <= a1 < 2 ^ 32 /\ 0 <= b0 < 2 ^ 32 /\ 0 <= b1 < 2 ^ 32 /\
  a = a1 * 2 ^ 32 + a0 /\ b = b1 * 2 ^ 32 + b0.
Proof. unfold a0, a1, b0, b1. split_and!; Z.div_mod_to_equations; lia. Qed.

Lemma product_carries :
  0 <= t1 < 2 ^ 64 /\ 0 <= b0 * a1 < 2 ^ 64 /\ 0 <= t2 < 2 ^ 64 /\ 0 <= s < 2 ^ 64 /\
  0 <= t3 < 2 ^ 64 /\ 0 <= t4 < 2 ^ 33 /\ 0 <= b1 * a1 < 2 ^ 64 /\ 0 <= t4 + b1 * a1 < 2 ^ 64 /\
  a * b = t1 mod 2 ^ 32 + (t3 mod 2 ^ 32) * 2 ^ 32 + (t4 + b1 * a1) * 2 ^ 64.
Proof.
  destruct product_halves as (H0 & H1 & H2 & H3 & Ea & Eb).
  pose proof (mul32_bound b0 a0 H2 H0). pose proof (mul32_bound b0 a1 H2 H1).
  pose proof (mul32_bound b1 a0 H3 H0). pose proof (mul32_bound b1 a1 H3 H1).
  assert (Eab : a * b = b1 * a1 * 2 ^ 64 + (b0 * a1 + b1 * a0) * 2 ^ 32 + b0 * a0)
    by (rewrite Ea, Eb; ring).
  rewrite Eab. pose proof (carry_arith (b0 * a0) (b0 * a1) (b1 * a0) (b1 * a1)) as C.
  destruct C as (? & ? & ? & ? & ->); [assumption..|].
  unfold t4, t3, s, t2, t1. split_and!; lia.
Qed.
End product.

Lemma land_ffffFFFF v : Z.land v 0xffffFFFF = v mod 2 ^ 32.
Proof. apply (land_ones_mod v 32). lia. Qed.

(** Without a 128-bit type, [Multiply64to128] still computes the exact product. *)
Lemma Multiply64to128_exact a b : 0 <= a < 2 ^ 64 -> 0 <= b < 2 ^ 64 ->
  Unsigned128.val (Multiply64to128 a b) = a * b /\ Unsigned128.ok (Multiply64to128 a b).
Proof.
  intros Ha Hb. destruct (product_carries a b Ha Hb) as (B1 & B2 & B3 & B4 & B5 & B6 & B7 & B8 & E).
  unfold Multiply64to128, Unsigned128.val, Unsigned128.ok. cbn [Unsigned128.lo Unsigned128.hi].
  rewrite E. clear E. rewrite !land_ffffFFFF, !Z.shiftr_div_pow2 by lia.
  rewrite (u64_small _ B1), (u64_small _ B2), (u64_small _ B3), (u64_small _ B4),
    (u64_small _ B5), (u64_small _ B7).
  set (t1 := b mod _ * _) in *. set (s := b / _ * _) in *. set (t3 := _ + s mod _) in *.
  rewrite (u64_small (_ + s / _)), (u64_small (_ + _ * _)) by lia.
  assert (El : u64 (Z.shiftl t3 32) = Z.shiftl (t3 mod 2 ^ 32) 32).
  { unfold u64. rewrite !Z.shiftl_mul_pow2 by lia. change (2 ^ 64) with (2 ^ 32 * 2 ^ 32).
    by rewrite Z.mul_mod_distr_r. }
  rewrite El, lor_add_pow2 by (try apply Z.mod_pos_bound; lia). unfold is_u.
  pose proof (Z.mod_pos_bound t1 (2 ^ 32) ltac:(lia)). pose proof (Z.mod_pos_bound t3 (2 ^ 32) ltac:(lia)).
  split_and!; lia.
Qed.

Lemma FastRangeGeneric64_exact n hash range : 0 <= hash < 2 ^ 64 -> 0 <= range < 2 ^ 64 ->
  FastRangeGeneric64 n hash range = wrapT n (range * hash / 2 ^ 64).
Proof.
  intros Ha Hb. destruct (product_carries hash range Ha Hb) as (B1 & B2 & B3 & B4 & B5 & B6 & B7 & B8 & E).
  rewrite (Z.mul_comm range), E. clear E. unfold FastRangeGeneric64.
  rewrite !land_ffffFFFF, !Z.shiftr_div_pow2 by lia. unfold u32.
  rewrite (u64_small _ B1), (u64_small _ B2), (u64_small _ B3), (u64_small _ B4),
    (u64_small _ B5), (u64_small _ B7).
  set (t1 := range mod _ * _) in *. set (s := range / _ * _) in *. set (t3 := _ + s mod _) in *.
  rewrite (u64_small (_ + s / _)), (u64_small (_ + _ * _)) by lia. f_equal.
  pose proof (Z.mod_pos_bound t1 (2 ^ 32) ltac:(lia)). pose proof (Z.mod_pos_bound t3 (2 ^ 32) ltac:(lia)).
  rewrite Z.div_add by lia. rewrite (Z.div_small (_ + _)) by lia. lia.
Qed.

(** ** The two-word struct refines 128-bit arithmetic *)

Section u128.
Implicit Types x y : Unsigned128.t.

Lemma val_bits x i : Unsigned128.ok x -> 0 <= i ->
  Z.testbit (Unsigned128.val x) i =
  if i <? 64 then Z.testbit (Unsigned128.lo x) i else Z.testbit (Unsigned128.hi x) (i - 64).
Proof.
  intros [Hl Hh] Hi. unfold Unsigned128.val, is_u in *. rewrite Z.mul_comm, <- lor_add_pow2 by lia.
  rewrite Z.lor_spec, Z.shiftl_spec by lia. destruct (Z.ltb_spec i 64).
  - by rewrite (tbit_neg _ (i - 64)), orb_false_r by lia.
  - by rewrite (tbit_high _ 64) by lia.
Qed.

Lemma val_range x : Unsigned128.ok x -> 0 <= Unsigned128.val x < 2 ^ 128.
Proof. intros [Hl Hh]. unfold Unsigned128.val, is_u in *. lia. Qed.

Lemma val_inj x y : Unsigned128.ok x -> Unsigned128.ok y ->
  Unsigned128.val x = Unsigned128.val y -> x = y.
Proof.
  destruct x as [xl xh], y as [yl yh]. intros [Hl Hh] [Hl' Hh'].
  unfold Unsigned128.val, is_u in *. simpl in *. intros. f_equal; lia.
Qed.

Lemma is_u_bits w v : 0 <= w -> 0 <= v -> (forall i, w <= i -> Z.testbit v i = false) -> is_u w v.
Proof.
  intros Hw Hv Hb. unfold is_u. split; [done|].
  destruct (Z.le_gt_cases (2 ^ w) v) as [Hge|]; [exfalso|done].
  assert (w <= Z.log2 v) by (apply Z.log2_le_pow2; [pose proof (Z.pow_pos_nonneg 2 w); lia|done]).
  specialize (Hb (Z.log2 v) ltac:(lia)). rewrite Z.bit_log2 in Hb by lia. done.
Qed.

Lemma is_u_lor w a b : 0 <= w -> is_u w a -> is_u w b -> is_u w (Z.lor a b).
Proof.
  intros Hw Ha Hb. apply is_u_bits; [done|apply Z.lor_nonneg; unfold is_u in *; lia|]. intros i Hi.
  rewrite Z.lor_spec, !(tbit_high _ w) by done. done.
Qed.
Lemma is_u_land w a b : 0 <= w -> is_u w a -> is_u w b -> is_u w (Z.land a b).
Proof.
  intros Hw Ha Hb. apply is_u_bits; [done|apply Z.land_nonneg; unfold is_u in *; lia|]. intros i Hi.
  rewrite Z.land_spec, !(tbit_high _ w) by done. done.
Qed.
Lemma is_u_lxor w a b : 0 <= w -> is_u w a -> is_u w b -> is_u w (Z.lxor a b).
Proof.
  intros Hw Ha Hb. apply is_u_bits; [done|apply Z.lxor_nonneg; unfold is_u in *; lia|]. intros i Hi.
  rewrite Z.lxor_spec, !(tbit_high _ w) by done. done.
Qed.
Lemma is_u_shiftr w a s : 0 <= w -> 0 <= s -> is_u w a -> is_u w (Z.shiftr a s).
Proof.
  intros Hw Hs Ha. apply is_u_bits; [done|apply Z.shiftr_nonneg; unfold is_u in *; lia|]. intros i Hi.
  rewrite Z.shiftr_spec by (unfold is_u in *; lia). apply (tbit_high _ w); unfold is_u in *; lia.
Qed.
Lemma is_u_u64 v : is_u 64 (u64 v). Proof. apply u64_range. Qed.
Lemma is_u64_0 : is_u 64 0. Proof. unfold is_u. lia. Qed.
End u128.

#[export] Hint Resolve is_u_lor is_u_land is_u_lxor is_u_shiftr is_u_u64 is_u64_0 : words.

Section u128_ops.
Implicit Types x y : Unsigned128.t.

Lemma val_and x y : Unsigned128.ok x -> Unsigned128.ok y ->
  Unsigned128.ok (Unsigned128.and x y) /\
  Unsigned128.val (Unsigned128.and x y) = Z.land (Unsigned128.val x) (Unsigned128.val y).
Proof.
  intros Hx Hy. assert (Unsigned128.ok (Unsigned128.and x y)) as Ho.
  { destruct Hx, Hy. split; simpl; apply is_u_land; (done || lia). }
  split; [done|]. apply Z.bits_inj'; intros i Hi. rewrite Z.land_spec, !val_bits by done. simpl.
  destruct (i <? 64); by rewrite Z.land_spec.
Qed.
Lemma val_or x y : Unsigned128.ok x -> Unsigned128.ok y ->
  Unsigned128.ok (Unsigned128.or x y) /\
  Unsigned128.val (Unsigned128.or x y) = Z.lor (Unsigned128.val x) (Unsigned128.val y).
Proof.
  intros Hx Hy. assert (Unsigned128.ok (Unsigned128.or x y)) as Ho.
  { destruct Hx, Hy. split; simpl; apply is_u_lor; (done || lia). }
  split; [done|]. apply Z.bits_inj'; intros i Hi. rewrite Z.lor_spec, !val_bits by done. simpl.
  destruct (i <? 64); by rewrite Z.lor_spec.
Qed.
Lemma val_xor x y : Unsigned128.ok x -> Unsigned128.ok y ->
  Unsigned128.ok (Unsigned128.xor x y) /\
  Unsigned128.val (Unsigned128.xor x y) = Z.lxor (Unsigned128.val x) (Unsigned128.val y).
Proof.
  intros Hx Hy. assert (Unsigned128.ok (Unsigned128.xor x y)) as Ho.
  { destruct Hx, Hy. split; simpl; apply is_u_lxor; (done || lia). }
  split; [done|]. apply Z.bits_inj'; intros i Hi. rewrite Z.lxor_spec, !val_bits by done. simpl.
  destruct (i <? 64); by rewrite Z.lxor_spec.
Qed.

Lemma val_not x : Unsigned128.ok x ->
  Unsigned128.ok (Unsigned128.not x) /\
  Unsigned128.val (Unsigned128.not x) = Z.lnot (Unsigned128.val x) mod 2 ^ 128.
Proof.
  intros Hx. assert (Unsigned128.ok (Unsigned128.not x)) as Ho by (split; apply u64_range).
  split; [done|]. apply Z.bits_inj'; intros i Hi. rewrite tbit_mod, Z.lnot_spec, !val_bits by (done || lia).
  simpl. unfold u64. destruct (Z.ltb_spec i 64).
  - rewrite tbit_mod, Z.lnot_spec by lia. by rewrite !(proj2 (Z.ltb_lt _ _)) by lia.
  - rewrite tbit_mod, Z.lnot_spec by lia.
    destruct (Z.ltb_spec i 128); [by rewrite (proj2 (Z.ltb_lt _ _)) by lia|].
    by rewrite (proj2 (Z.ltb_ge _ _)) by lia.
Qed.

(** Both shifts mask their count to 0..127. *)
Lemma shift_mask s : Z.land s 127 = s mod 128.
Proof. apply (land_ones_mod s 7). lia. Qed.
Lemma shift_mask_high s : 64 <= s < 128 -> Z.land s 63 = s - 64.
Proof. intros. change 63 with (2 ^ 6 - 1); rewrite land_ones_mod by lia. symmetry. apply (Z.mod_unique_pos _ 64 1); lia. Qed.

Lemma val_shl_high x s : Unsigned128.ok x -> 64 <= s < 128 ->
  Unsigned128.val (Unsigned128.mk 0 (u64 (Z.shiftl (Unsigned128.lo x) (s - 64)))) =
  Z.shiftl (Unsigned128.val x) s mod 2 ^ 128.
Proof.
  intros Hx Hs. apply Z.bits_inj'; intros i Hi.
  rewrite val_bits, tbit_mod, Z.shiftl_spec by (lia || (split; simpl; auto with words)).
  cbn [Unsigned128.lo Unsigned128.hi]. rewrite Z.bits_0. unfold u64. destruct (Z.ltb_spec i 64).
  - rewrite (tbit_neg _ (i - _)) by lia. by rewrite andb_false_r.
  - rewrite tbit_mod, Z.shiftl_spec by lia.
    destruct (Z.ltb_spec i 128); [rewrite (proj2 (Z.ltb_lt _ _)) by lia|by rewrite (proj2 (Z.ltb_ge _ _)) by lia].
    cbn [andb]. destruct (Z.ltb_spec i s); [by rewrite !tbit_neg by lia|].
    rewrite val_bits by (done || lia). rewrite (proj2 (Z.ltb_lt (i - s) 64)) by lia. f_equal. lia.
Qed.

Lemma val_shl_low x s : Unsigned128.ok x -> 0 <= s < 64 ->
  let y := Unsigned128.mk (u64 (Z.shiftl (Unsigned128.lo x) s))
    (Z.lor (Z.shiftr (Z.shiftr (Unsigned128.lo x) 1) (63 - s)) (u64 (Z.shiftl (Unsigned128.hi x) s))) in
  Unsigned128.ok y /\ Unsigned128.val y = Z.shiftl (Unsigned128.val x) s mod 2 ^ 128.
Proof.
  intros Hx Hs y. pose proof Hx as [Hl Hh].
  assert (Hy : Unsigned128.ok y).
  { split; simpl; auto with words. apply is_u_lor; auto with words; [lia|].
    apply is_u_shiftr, is_u_shiftr; try lia. done. }
  split; [done|]. apply Z.bits_inj'; intros i Hi.
  rewrite val_bits, tbit_mod, Z.shiftl_spec by (done || lia). simpl.
  unfold u64. destruct (Z.ltb_spec i 64).
  - rewrite tbit_mod, Z.shiftl_spec, !(proj2 (Z.ltb_lt _ _)) by lia. cbn [andb].
    destruct (Z.ltb_spec i s); [by rewrite !tbit_neg by lia|].
    rewrite val_bits by (done || lia). by rewrite (proj2 (Z.ltb_lt _ _)) by lia.
  - rewrite Z.lor_spec, tbit_mod, !Z.shiftr_spec by lia.
    rewrite Z.shiftl_spec by lia. unfold is_u in *.
    destruct (Z.ltb_spec i 128) as [?|?]; cbn [andb].
    + rewrite (proj2 (Z.ltb_lt (i - 64) 64)) by lia. cbn [andb].
      rewrite val_bits by (done || lia). destruct (Z.ltb_spec (i - s) 64).
      * rewrite (tbit_neg _ (i - 64 - _)), orb_false_r by lia. f_equal. lia.
      * rewrite (tbit_high _ 64) by lia. cbn [orb]. f_equal. lia.
    + rewrite (tbit_high _ 64) by lia. by rewrite (proj2 (Z.ltb_ge (i - 64) 64)) by lia.
Qed.

Lemma val_shl x s : Unsigned128.ok x -> 0 <= s ->
  Unsigned128.ok (Unsigned128.shl x s) /\
  Unsigned128.val (Unsigned128.shl x s) = (Unsigned128.val x * 2 ^ (s mod 128)) mod 2 ^ 128.
Proof.
  intros Hx Hs. pose proof (Z.mod_pos_bound s 128 ltac:(lia)).
  rewrite <- Z.shiftl_mul_pow2 by lia. unfold Unsigned128.shl. rewrite shift_mask.
  destruct (Z.geb_spec (s mod 128) 64).
  - rewrite shift_mask_high by lia. split; [split; simpl; auto with words|]. apply val_shl_high; (done || lia).
  - apply val_shl_low; (done || lia).
Qed.

Lemma val_shr x s : Unsigned128.ok x -> 0 <= s ->
  Unsigned128.ok (Unsigned128.shr x s) /\
  Unsigned128.val (Unsigned128.shr x s) = Unsigned128.val x / 2 ^ (s mod 128).
Proof.
  intros Hx Hs. pose proof (Z.mod_pos_bound s 128 ltac:(lia)).
  rewrite <- Z.shiftr_div_pow2 by lia. unfold Unsigned128.shr. rewrite shift_mask.
  pose proof Hx as [Hl Hh]. destruct (Z.geb_spec (s mod 128) 64).
  - rewrite shift_mask_high by lia. assert (Hy : is_u 64 (Z.shiftr (Unsigned128.hi x) (s mod 128 - 64)))
      by (apply is_u_shiftr; (done || lia)).
    split; [split; simpl; auto with words|]. unfold is_u in *. apply Z.bits_inj'; intros i Hi.
    rewrite Z.shiftr_spec, !val_bits by (done || lia || (split; simpl; auto with words)). simpl.
    rewrite (proj2 (Z.ltb_ge (i + _) 64)) by lia. destruct (Z.ltb_spec i 64).
    + rewrite Z.shiftr_spec by lia. f_equal. lia.
    + rewrite Z.bits_0. by rewrite (tbit_high _ 64) by lia.
  - match goal with |- Unsigned128.ok ?v /\ _ => assert (Hy : Unsigned128.ok v) end.
    { split; simpl; [apply is_u_lor|]; auto with words; try lia; apply is_u_shiftr; (done || lia). }
    split; [done|]. apply Z.bits_inj'; intros i Hi.
    rewrite Z.shiftr_spec, !val_bits by (done || lia). simpl. unfold is_u in *.
    destruct (Z.ltb_spec i 64).
    + rewrite Z.lor_spec, Z.shiftr_spec by lia. unfold u64.
      rewrite tbit_mod, Z.shiftl_spec, (proj2 (Z.ltb_lt i 64)) by lia. cbn [andb].
      destruct (Z.ltb_spec (i + s mod 128) 64).
      * destruct (Z.ltb_spec (i - (63 - s mod 128)) 0); [by rewrite (tbit_neg _ (i - _)) by lia|].
        rewrite tbit_mod, Z.shiftl_spec by lia. rewrite (tbit_neg _ (_ - 1)) by lia.
        by rewrite andb_false_r.
      * rewrite tbit_mod, Z.shiftl_spec, (proj2 (Z.ltb_lt _ 64)) by lia. cbn [andb].
        rewrite (tbit_high (Unsigned128.lo x) 64), orb_false_r by lia. f_equal. lia.
    + rewrite (proj2 (Z.ltb_ge (i + _) 64)), Z.shiftr_spec by lia. f_equal. lia.
Qed.

Lemma val_compare x y : Unsigned128.ok x -> Unsigned128.ok y ->
  (Unsigned128.val x ?= Unsigned128.val y) =
  match Unsigned128.hi x ?= Unsigned128.hi y with
  | Eq => Unsigned128.lo x ?= Unsigned128.lo y
  | c => c
  end.
Proof.
  intros [Hl Hh] [Hl' Hh']. unfold Unsigned128.val, is_u in *.
  destruct (Z.compare_spec (Unsigned128.hi x) (Unsigned128.hi y)).
  - destruct (Z.compare_spec (Unsigned128.lo x) (Unsigned128.lo y)).
    + apply Z.compare_eq_iff. lia.
    + apply Z.compare_lt_iff. lia.
    + apply Z.compare_gt_iff. lia.
  - apply Z.compare_lt_iff. lia.
  - apply Z.compare_gt_iff. lia.
Qed.
End u128_ops.

(** The two-word [Unsigned128] of builds without a 128-bit integer computes
    128-bit arithmetic: shifts (with the count taken modulo 128), bitwise
    operations, comparisons and the 64 x 64 product all agree with the number
    the pair stands for, and keep both words in range. *)
Theorem unsigned128_refinement (x y : Unsigned128.t) (s a b : Z) :
  Unsigned128.ok x -> Unsigned128.ok y -> 0 <= s -> is_u 64 a -> is_u 64 b ->
  let v := Unsigned128.val in
  (forall r, r ∈ [Unsigned128.shl x s; Unsigned128.shr x s; Unsigned128.and x y; Unsigned128.or x y;
                  Unsigned128.xor x y; Unsigned128.not x; Multiply64to128 a b] -> Unsigned128.ok r) /\
  v (Unsigned128.shl x s) = (v x * 2 ^ (s mod 128)) mod 2 ^ 128 /\
  v (Unsigned128.shr x s) = v x / 2 ^ (s mod 128) /\
  v (Unsigned128.and x y) = Z.land (v x) (v y) /\
  v (Unsigned128.or x y) = Z.lor (v x) (v y) /\
  v (Unsigned128.xor x y) = Z.lxor (v x) (v y) /\
  v (Unsigned128.not x) = 2 ^ 128 - 1 - v x /\
  v (Multiply64to128 a b) = a * b /\
  (Unsigned128.eqb x y, Unsigned128.neb x y) = (v x =? v y, negb (v x =? v y)) /\
  (Unsigned128.ltb x y, Unsigned128.leb x y) = (v x <? v y, v x <=? v y) /\
  (Unsigned128.gtb x y, Unsigned128.geb x y) = (v x >? v y, v x >=? v y).
Proof.
  intros Hx Hy Hs Ha Hb v.
  destruct (val_shl x s Hx Hs) as [O1 E1], (val_shr x s Hx Hs) as [O2 E2], (val_and x y Hx Hy) as [O3 E3],
    (val_or x y Hx Hy) as [O4 E4], (val_xor x y Hx Hy) as [O5 E5], (val_not x Hx) as [O6 E6],
    (Multiply64to128_exact a b Ha Hb) as [E7 O7].
  split; [|split_and!; try done].
  - intros r Hr. repeat (apply elem_of_cons in Hr as [->|Hr]; [done|]). by apply elem_of_nil in Hr.
  - unfold v. rewrite E6. unfold Z.lnot. pose proof (val_range x Hx).
    rewrite <- (Z.mod_add _ 1), Z.mod_small by lia. lia.
  - unfold Unsigned128.eqb, Unsigned128.neb, v, Unsigned128.val. destruct Hx, Hy. unfold is_u in *.
    f_equal; lia.
  - unfold Unsigned128.ltb, Unsigned128.leb, v, Unsigned128.val. destruct Hx, Hy. unfold is_u in *.
    f_equal; lia.
  - unfold Unsigned128.gtb, Unsigned128.geb, v, Unsigned128.val. destruct Hx, Hy. unfold is_u in *.
    f_equal; lia.
Qed.

Lemma unsigned128_refinement_witness :
  Unsigned128.val (Unsigned128.shl (Unsigned128.mk 5 (2 ^ 63)) 193) =
    (Unsigned128.val (Unsigned128.mk 5 (2 ^ 63)) * 2 ^ (193 mod 128)) mod 2 ^ 128 /\
  Unsigned128.val (Multiply64to128 (2 ^ 64 - 1) (2 ^ 64 - 3)) = (2 ^ 64 - 1) * (2 ^ 64 - 3).
Proof.
  destruct (unsigned128_refinement (Unsigned128.mk 5 (2 ^ 63)) (Unsigned128.mk 1 2) 193
              (2 ^ 64 - 1) (2 ^ 64 - 3)) as (_ & H1 & _ & _ & _ & _ & _ & H2 & _);
    [split; unfold is_u; simpl; lia..|lia|unfold is_u; lia|unfold is_u; lia|].
  split; [exact H1|exact H2].
Defined.

Lemma wrapT_small n v : 0 <= v < 2 ^ bits n -> wrapT n v = v.
Proof. apply Z.mod_small. Qed.

(** [FastRange64] and [FastRange32] map a hash to the floor of
    [hash * range / 2^w]: the result is below the range, the map is monotone in
    the hash, and the 64-bit version without 128-bit integers agrees with the
    one that has them. *)
Theorem fastrange_spec (hash hash' range : Z) :
  (is_u 64 hash -> is_u 64 hash' -> 0 < range < 2 ^ 64 ->
     FastRange64 hash range = hash * range / 2 ^ 64 /\
     FastRange64 hash range = FastRangeGeneric64_wide 8 hash range /\
     0 <= FastRange64 hash range < range /\
     (hash <= hash' -> FastRange64 hash range <= FastRange64 hash' range)) /\
  (is_u 32 hash -> is_u 32 hash' -> 0 < range < 2 ^ 32 ->
     FastRange32 hash range = hash * range / 2 ^ 32 /\
     0 <= FastRange32 hash range < range /\
     (hash <= hash' -> FastRange32 hash range <= FastRange32 hash' range)).
Proof.
  assert (B : forall w h r, 0 < w -> is_u w h -> 0 < r ->
            0 <= h * r / 2 ^ w < r /\ (forall h', h <= h' -> h * r / 2 ^ w <= h' * r / 2 ^ w)).
  { intros w h r Hw [Hh0 Hh1] Hr. pose proof (Z.pow_pos_nonneg 2 w). split; [split|].
    - apply Z.div_pos; nia.
    - apply Z.div_lt_upper_bound; nia.
    - intros. apply Z.div_le_mono; nia. }
  split; intros Hh Hh' Hr.
  - assert (F : forall h, is_u 64 h -> FastRange64 h range = h * range / 2 ^ 64).
    { intros h H. unfold FastRange64. rewrite FastRangeGeneric64_exact by (done || lia).
      rewrite Z.mul_comm. apply wrapT_small. destruct (B 64 h range); try done; try lia.
      change (bits 8) with 64. lia. }
    rewrite !F by done. destruct (B 64 hash range) as [? Hmono]; [lia|done|lia|].
    split_and!; try lia; [|intros; by apply Hmono].
    unfold FastRangeGeneric64_wide. unfold is_u in *. rewrite Z.mod_small, Z.shiftr_div_pow2 by nia.
    rewrite (Z.mul_comm range). symmetry. apply wrapT_small. change (bits 8) with 64. lia.
  - assert (F : forall h, is_u 32 h -> FastRange32 h range = h * range / 2 ^ 32).
    { intros h H. unfold FastRange32, FastRangeGeneric32. destruct (B 32 h range); try done; try lia.
      unfold is_u in *. pose proof (mul32_bound range h).
      rewrite u64_small, Z.shiftr_div_pow2, Z.mul_comm by lia. apply wrapT_small.
      change (bits 4) with 32. lia. }
    rewrite !F by done. destruct (B 32 hash range) as [? Hmono]; [lia|done|lia|].
    split_and!; try lia. intros; by apply Hmono.
Qed.

Lemma fastrange_spec_witness :
  FastRange64 (2 ^ 64 - 1) 1000 = 999 /\ 0 <= FastRange64 (2 ^ 64 - 1) 1000 < 1000 /\
  0 <= FastRange32 (2 ^ 31) 7 < 7.
Proof.
  destruct (fastrange_spec (2 ^ 64 - 1) (2 ^ 64 - 1) 1000) as [H1 _].
  destruct (fastrange_spec (2 ^ 31) (2 ^ 31) 7) as [_ H2].
  split; [reflexivity|]. split; [apply H1|apply H2]; unfold is_u; lia.
Defined.

Lemma ReverseBits_range n v : uint_size n -> 0 <= ReverseBits n v < 2 ^ bits n.
Proof. intros Hn. unfold ReverseBits, wrapT. apply Z.mod_pos_bound. apply Z.pow_pos_nonneg; unfold bits; lia. Qed.

(** The 128-bit versions put the reversed low word on top. *)
Lemma val_concat h l : is_u 64 h -> is_u 64 l ->
  let x := Unsigned128.or (Unsigned128.shl (Unsigned128.of_u64 h) 64) (Unsigned128.of_u64 l) in
  Unsigned128.lo x = l /\ Unsigned128.hi x = h.
Proof.
  intros Hh Hl x. unfold x, Unsigned128.shl. change (Z.land 64 127 >=? 64) with true.
  change (Z.land (Z.land 64 127) 63) with 0. simpl. rewrite Z.shiftl_0_r, Z.lor_0_r.
  split; [done|by apply u64_small].
Qed.

Lemma ReverseBits_128_bits v i : Unsigned128.ok v -> 0 <= i < 128 ->
  Z.testbit (Unsigned128.val (ReverseBits_128 v)) i = Z.testbit (Unsigned128.val v) (127 - i).
Proof.
  intros Hv Hi. assert (U : uint_size 8) by (unfold uint_size; tauto). pose proof Hv as [Hl Hh].
  pose proof (ReverseBits_range 8 (Lower64of128 v) U) as R1.
  pose proof (ReverseBits_range 8 (Upper64of128 v) U) as R2. change (bits 8) with 64 in *.
  destruct (val_concat _ _ R1 R2) as [E1 E2]. fold (ReverseBits_128 v) in E1, E2.
  assert (Unsigned128.ok (ReverseBits_128 v)) as Ho by (split; [by rewrite E1|by rewrite E2]).
  rewrite !val_bits by (done || lia). rewrite E1, E2. unfold Upper64of128, Lower64of128.
  destruct (Z.ltb_spec i 64).
  - rewrite ReverseBits_bits by (done || change (bits 8) with 64; lia).
    rewrite (proj2 (Z.ltb_ge _ _)) by lia. f_equal. change (bits 8) with 64. lia.
  - rewrite ReverseBits_bits by (done || change (bits 8) with 64; lia).
    rewrite (proj2 (Z.ltb_lt _ _)) by lia. f_equal. change (bits 8) with 64. lia.
Qed.

(** [ReverseBits] moves bit [i] to bit [w - 1 - i] at every width (8 to 64
    and 128), the portable loop of [EndianSwapValue] is the byte swap the
    builtins compute, and swapping bytes twice is the identity. *)
Theorem reverse_bits_spec (n : nat) (v i : Z) (x : Unsigned128.t) (j : Z) :
  uint_size n -> 0 <= v < 2 ^ bits n -> 0 <= i < bits n -> Unsigned128.ok x -> 0 <= j < 128 ->
  Z.testbit (ReverseBits n v) i = Z.testbit v (bits n - 1 - i) /\
  Z.testbit (Unsigned128.val (ReverseBits_128 x)) j = Z.testbit (Unsigned128.val x) (127 - j) /\
  EndianSwapValue_loop n n v 0 = EndianSwapValue n v /\
  EndianSwapValue n (EndianSwapValue n v) = v.
Proof.
  intros Hn Hv Hi Hx Hj. split_and!.
  - by apply ReverseBits_bits.
  - by apply ReverseBits_128_bits.
  - by rewrite EndianSwapValue_loop_bswap, EndianSwapValue_bswap.
  - rewrite !EndianSwapValue_bswap. by apply bswap_involutive.
Qed.

Lemma reverse_bits_spec_witness :
  Z.testbit (ReverseBits 4 0x12345678) 3 = Z.testbit 0x12345678 28 /\
  EndianSwapValue 4 (EndianSwapValue 4 0x12345678) = 0x12345678.
Proof.
  destruct (reverse_bits_spec 4 0x12345678 3 (Unsigned128.mk 1 2) 5) as (H1 & _ & _ & H2);
    [unfold uint_size; tauto|split; reflexivity || (vm_compute; discriminate)
    |split; reflexivity || (vm_compute; discriminate)|split; unfold is_u; simpl; lia|lia|].
  split; [exact H1|exact H2].
Defined.

Definition involution_agrees (n : nat) : bool :=
  agree_on_basis (8 * n) (fun v => DownwardInvolution n (DownwardInvolution n v)) (fun v => v) &&
  forallb (fun i => (2 ^ Z.of_nat i <=? DownwardInvolution n (2 ^ Z.of_nat i)) &&
                    (DownwardInvolution n (2 ^ Z.of_nat i) <? 2 ^ (Z.of_nat i + 1))) (seq 0 (8 * n)).

Lemma involution_agrees_all n : uint_size n -> involution_agrees n = true.
Proof. intros Hn. uint_cases Hn; vm_compute; reflexivity. Qed.

Lemma DownwardInvolution_range n v : 0 <= DownwardInvolution n v < 2 ^ bits n.
Proof. unfold DownwardInvolution, wrapT. apply Z.mod_pos_bound, Z.pow_pos_nonneg; unfold bits; lia. Qed.

Lemma DownwardInvolution_involutive n v : uint_size n -> 0 <= v < 2 ^ bits n ->
  DownwardInvolution n (DownwardInvolution n v) = v.
Proof.
  intros Hn Hv. pose proof (involution_agrees_all n Hn) as H. apply andb_prop in H as [H _].
  apply (linear_ext (8 * n) (fun v => DownwardInvolution n (DownwardInvolution n v)) (fun v => v));
    [apply linear_compose; apply linear_DownwardInvolution|apply linear_id|done|].
  unfold bits in Hv. by rewrite Nat2Z.inj_mul.
Qed.

(** [DownwardInvolution] is its own inverse at every width (8 to 64 and
    128), distributes over xor and keeps the position of the highest set bit. *)
Theorem downward_involution_spec (n : nat) (v w : Z) (x : Unsigned128.t) :
  uint_size n -> 0 <= v < 2 ^ bits n -> 0 <= w < 2 ^ bits n -> Unsigned128.ok x ->
  DownwardInvolution n (DownwardInvolution n v) = v /\
  DownwardInvolution n (Z.lxor v w) = Z.lxor (DownwardInvolution n v) (DownwardInvolution n w) /\
  (0 < v -> FloorLog2 8 (DownwardInvolution n v) = FloorLog2 8 v) /\
  DownwardInvolution_128 (DownwardInvolution_128 x) = x.
Proof.
  intros Hn Hv Hw Hx. split_and!.
  - by apply DownwardInvolution_involutive.
  - apply linear_DownwardInvolution.
  - intros H0. pose proof (involution_agrees_all n Hn) as H. apply andb_prop in H as [_ H].
    destruct (linear_triangular (8 * n) (DownwardInvolution n) (linear_DownwardInvolution n) H v) as [_ L].
    + unfold bits in Hv. rewrite Nat2Z.inj_mul. lia.
    + unfold FloorLog2, clz. simpl. by rewrite L.
  - destruct x as [l h], Hx as [Hl Hh]. simpl in Hl, Hh.
    assert (U : uint_size 8) by (unfold uint_size; tauto).
    assert (R : forall z, is_u 64 (DownwardInvolution 8 z)) by (intros z; apply (DownwardInvolution_range 8)).
    destruct (val_concat _ _ (R h) (R (Z.lxor h l))) as [E1 E2].
    unfold DownwardInvolution_128 at 1, Upper64of128, Lower64of128. cbn [Unsigned128.lo Unsigned128.hi] in *.
    unfold DownwardInvolution_128, Upper64of128, Lower64of128. cbn [Unsigned128.lo Unsigned128.hi].
    rewrite E1, E2. rewrite <- (linear_DownwardInvolution 8), <- Z.lxor_assoc, Z.lxor_nilpotent, Z.lxor_0_l.
    rewrite !DownwardInvolution_involutive by (try done; apply Hl || apply Hh).
    destruct (val_concat h l Hh Hl) as [E3 E4].
    clear E1 E2. destruct (Unsigned128.or _ _) as [l' h']. cbn [Unsigned128.lo Unsigned128.hi] in *. congruence.
Qed.

Lemma downward_involution_spec_witness :
  DownwardInvolution 2 (DownwardInvolution 2 0xbeef) = 0xbeef /\
  (0 < 0xbeef -> FloorLog2 8 (DownwardInvolution 2 0xbeef) = FloorLog2 8 0xbeef).
Proof.
  destruct (downward_involution_spec 2 0xbeef 0x1234 (Unsigned128.mk 1 2)) as (H1 & _ & H2 & _);
    [unfold uint_size; tauto|split; reflexivity || (vm_compute; discriminate)
    |split; reflexivity || (vm_compute; discriminate)|split; unfold is_u; simpl; lia|].
  split; [exact H1|exact H2].
Defined.

Lemma lor_lt_inv w x y : 0 <= w -> 0 <= x -> 0 <= y -> Z.lor x y < 2 ^ w -> x < 2 ^ w /\ y < 2 ^ w.
Proof.
  intros Hw Hx Hy H. assert (Hu : is_u w (Z.lor x y)) by (split; [by apply Z.lor_nonneg|done]).
  assert (Hb : forall i, w <= i -> Z.testbit x i = false /\ Z.testbit y i = false).
  { intros i Hi. pose proof (tbit_high _ w i Hu Hi) as T. rewrite Z.lor_spec in T. by apply orb_false_iff. }
  split; apply is_u_bits; try done; intros i Hi; by apply Hb.
Qed.
