(* ===== verification/Hash.v ===== *)
(** * Hash functions (util/hash.h, util/hash.cc)

    The 32-bit hash stored in block formats, the splitting of a 64-bit hash and
    the bijective 128-bit hash with its inverse. The XXH3 family behind
    [Hash64] is not modelled: clients take a 64-bit hash as an argument. *)

From stdpp Require Import prelude.
From Stdlib Require Import ZArith Lia Bool.
From S2P Require Import Prelude Coding Math.

Section hash.
Context `{Port}.

(** [Hash]: the loop takes four bytes at a time, at most [n / 4] times. *)
Definition Hash_m : Z := 0xc6a4a793.
Fixpoint Hash_loop (fuel : nat) (data : list Z) (h : Z) : list Z * Z :=
  match fuel with
  | O => (data, h)
  | S fuel =>
      if 4 <=? zlen data
      then
        let w := DecodeFixed32 data in
        let data := zdrop 4 data in
        let h := u32 (h + w) in
        let h := u32 (h * Hash_m) in
        let h := Z.lxor h (Z.shiftr h 16) in
        Hash_loop fuel data h
      else (data, h)
  end.

Definition Hash (data : list Z) (seed : Z) : Z :=
  let n := zlen data in
  let h := u32 (Z.lxor seed (u64 (n * Hash_m))) in
  let '(data, h) := Hash_loop (length data) data h in
  let finish h :=
    let h := u32 (h + u32 (i8 (byte_at data 0))) in
    let h := u32 (h * Hash_m) in
    Z.lxor h (Z.shiftr h 24) in
  let add1 h := u32 (h + u32 (Z.shiftl (u32 (i8 (byte_at data 1))) 8)) in
  let add2 h := u32 (h + u32 (Z.shiftl (u32 (i8 (byte_at data 2))) 16)) in
  if zlen data =? 3 then finish (add1 (add2 h))
  else if zlen data =? 2 then finish (add1 h)
  else if zlen data =? 1 then finish h
  else h.

Definition BloomHash (key : list Z) : Z := Hash key 0xbc9f1d34.
Definition GetSliceHash (s : list Z) : Z := Hash s 397.

End hash.

Definition Upper32of64 (v : Z) : Z := u32 (Z.shiftr v 32).
Definition Lower32of64 (v : Z) : Z := u32 v.

(** ** The bijective hash *)

Definition XXH3_avalanche (h64 : Z) : Z :=
  let h64 := Z.lxor h64 (Z.shiftr h64 37) in
  let h64 := u64 (h64 * 0x165667919E3779F9) in
  Z.lxor h64 (Z.shiftr h64 32).

Definition XXH3_unavalanche (h64 : Z) : Z :=
  let h64 := Z.lxor h64 (Z.shiftr h64 32) in
  let h64 := u64 (h64 * 0x8da8ee41d6df849) in
  Z.lxor h64 (Z.shiftr h64 37).

(** The result is the pair (out_high64, out_low64). *)
Definition BijectiveHash2x64 (in_high64 in_low64 seed : Z) : Z * Z :=
  let bitflipl := u64 (0x59973f0033362349 - seed) in
  let bitfliph := u64 (0xc202797692d63d58 + seed) in
  let tmp128 := Multiply64to128 (Z.lxor (Z.lxor in_low64 in_high64) bitflipl) 0x9E3779B185EBCA87 in
  let lo := Lower64of128 tmp128 in
  let hi := Upper64of128 tmp128 in
  let lo := u64 (lo + 0x3c0000000000000) in
  let in_high64 := Z.lxor in_high64 bitfliph in
  let hi := u64 (hi + u64 (in_high64 + u64 (Lower32of64 in_high64 * 0x85EBCA76))) in
  let lo := Z.lxor lo (EndianSwapValue 8 hi) in
  let tmp128 := Multiply64to128 lo 0xC2B2AE3D27D4EB4F in
  let lo := Lower64of128 tmp128 in
  let hi := u64 (Upper64of128 tmp128 + u64 (hi * 0xC2B2AE3D27D4EB4F)) in
  (XXH3_avalanche hi, XXH3_avalanche lo).

Definition BijectiveUnhash2x64 (in_high64 in_low64 seed : Z) : Z * Z :=
  let bitflipl := u64 (0x59973f0033362349 - seed) in
  let bitfliph := u64 (0xc202797692d63d58 + seed) in
  let lo := XXH3_unavalanche in_low64 in
  let hi := XXH3_unavalanche in_high64 in
  let lo := u64 (lo * 0xba79078168d4baf) in
  let hi := u64 (hi - Upper64of128 (Multiply64to128 lo 0xC2B2AE3D27D4EB4F)) in
  let hi := u64 (hi * 0xba79078168d4baf) in
  let lo := Z.lxor lo (EndianSwapValue 8 hi) in
  let lo := u64 (lo - 0x3c0000000000000) in
  let lo := u64 (lo * 0x887493432badb37) in
  let hi := u64 (hi - Upper64of128 (Multiply64to128 lo 0x9E3779B185EBCA87)) in
  let tmp32 := u32 (Lower32of64 hi * 0xb6c92f47) in
  let hi := u64 (hi - tmp32) in
  let hi := u64 (u64 (Z.land hi 0xFFFFFFFF00000000 -
                      Z.land (u64 (tmp32 * 0x85EBCA76)) 0xFFFFFFFF00000000) + tmp32) in
  let hi := Z.lxor hi bitfliph in
  let lo := Z.lxor lo (Z.lxor hi bitflipl) in
  (hi, lo).

Definition BijectiveHash2x64_unseeded (in_high64 in_low64 : Z) : Z * Z :=
  BijectiveHash2x64 in_high64 in_low64 0.
Definition BijectiveUnhash2x64_unseeded (in_high64 in_low64 : Z) : Z * Z :=
  BijectiveUnhash2x64 in_high64 in_low64 0.

(** ** Lemmas *)

Lemma u64_mul_inv k k' x : is_u 64 x -> (k * k') mod 2 ^ 64 = 1 -> u64 (u64 (x * k) * k') = x.
Proof.
  intros Hx E. unfold u64. rewrite Z.mul_mod_idemp_l by lia.
  rewrite <- Z.mul_assoc, <- Z.mul_mod_idemp_r, E, Z.mul_1_r by lia. by apply Z.mod_small.
Qed.

(** [h ^= h >> s] undoes itself when [2 * s >= 64]. *)
Lemma xorshift_involutive s h : 32 <= s < 64 -> is_u 64 h ->
  let x h := Z.lxor h (Z.shiftr h s) in x (x h) = h /\ is_u 64 (x h).
Proof.
  intros Hs Hh x. assert (Hr : is_u 64 (x h)) by (apply is_u_lxor; try apply is_u_shiftr; (done || lia)).
  split; [|done]. unfold x. rewrite Z.shiftr_lxor, Z.shiftr_shiftr by lia.
  rewrite (Z.shiftr_eq_0 h (s + s)).
  - rewrite Z.lxor_0_r, Z.lxor_assoc, Z.lxor_nilpotent. apply Z.lxor_0_r.
  - destruct Hh; lia.
  - destruct (decide (h = 0)) as [->|]; [simpl; lia|].
    assert (Z.log2 h < 64); [|lia]. apply Z.log2_lt_pow2; destruct Hh; lia.
Qed.

Lemma unavalanche_avalanche h : is_u 64 h ->
  XXH3_unavalanche (XXH3_avalanche h) = h.
Proof.
  intros Hh. unfold XXH3_unavalanche, XXH3_avalanche.
  destruct (xorshift_involutive 37 h ltac:(lia) Hh) as [E1 H1].
  set (a := Z.lxor h _) in *.
  destruct (xorshift_involutive 32 (u64 (a * 0x165667919E3779F9)) ltac:(lia) (is_u_u64 _)) as [E2 _].
  rewrite E2, u64_mul_inv by done. exact E1.
Qed.

Lemma land_high32 v : is_u 64 v -> Z.land v 0xFFFFFFFF00000000 = v - v mod 2 ^ 32.
Proof.
  intros Hv. replace (v - v mod 2 ^ 32) with (Z.shiftl (Z.shiftr v 32) 32).
  - apply Z.bits_inj'; intros i Hi. rewrite Z.land_spec, Z.shiftl_spec by lia.
    change 0xFFFFFFFF00000000 with (Z.shiftl (2 ^ 32 - 1) 32). rewrite Z.shiftl_spec, tbit_ones by lia.
    destruct (Z.ltb_spec i 32).
    + rewrite (tbit_neg _ (i - 32)), (proj2 (Z.leb_gt _ _)) by lia. by rewrite andb_false_r.
    + rewrite Z.shiftr_spec by lia. replace (i - 32 + 32) with i by lia.
      rewrite (proj2 (Z.leb_le 0 (i - 32))) by lia. cbn [andb].
      destruct (Z.ltb_spec (i - 32) 32); [by rewrite andb_true_r|].
      by rewrite andb_false_r, (tbit_high v 64) by (done || lia).
  - rewrite Z.shiftl_mul_pow2, Z.shiftr_div_pow2 by lia. pose proof (Z.div_mod v (2 ^ 32)). lia.
Qed.

(** The step of the hash that mixes the low half of the high word into it, and
    how [BijectiveUnhash2x64] takes it back. *)
Lemma unmix_high h :
  is_u 64 h ->
  let x := u64 (h + u64 (Lower32of64 h * 0x85EBCA76)) in
  let tmp32 := u32 (Lower32of64 x * 0xb6c92f47) in
  let hi := u64 (x - tmp32) in
  tmp32 = Lower32of64 h /\
  u64 (u64 (Z.land hi 0xFFFFFFFF00000000 -
            Z.land (u64 (tmp32 * 0x85EBCA76)) 0xFFFFFFFF00000000) + tmp32) = h.
Proof.
  intros [H0 H1] x tmp32 hi. unfold Lower32of64 in *.
  set (b := u32 h) in *. set (P := b * 0x85EBCA76) in *.
  assert (Hb : 0 <= b < 2 ^ 32) by apply u32_range.
  assert (Eh : h = 2 ^ 32 * (h / 2 ^ 32) + b) by (apply Z.div_mod; lia).
  assert (EP : u64 P = P) by (apply u64_small; unfold P; lia).
  assert (Ex : exists k, x = h + P + k * 2 ^ 64).
  { exists (- ((h + P) / 2 ^ 64)). unfold x. rewrite EP. unfold u64. pose proof (Z.div_mod (h + P) (2 ^ 64)). lia. }
  destruct Ex as [k Ex].
  assert (Et : tmp32 = b).
  { unfold tmp32, u32. rewrite Z.mul_mod_idemp_l by lia.
    replace (x * 0xb6c92f47) with
      (b + ((h / 2 ^ 32 + k * 2 ^ 32) * 0xb6c92f47 + b * 0x5f9ee0ce) * 2 ^ 32)
      by (rewrite Ex; unfold P; lia).
    rewrite Z.mod_add by lia. by apply Z.mod_small. }
  split; [done|]. unfold hi. rewrite Et. fold P. rewrite EP.
  rewrite !land_high32 by (apply is_u_u64 || (split; unfold P; lia)).
  assert (Ey : u64 (x - b) mod 2 ^ 32 = P mod 2 ^ 32).
  { unfold u64. change (2 ^ 64) with (2 ^ 32 * 2 ^ 32).
    rewrite Z.rem_mul_r, (Z.mul_comm (2 ^ 32)), Z.mod_add, Z.mod_mod by lia.
    replace (x - b) with (P + (h / 2 ^ 32 + k * 2 ^ 32) * 2 ^ 32) by lia. by rewrite Z.mod_add by lia. }
  rewrite Ey. replace (u64 (x - b) - P mod 2 ^ 32 - (P - P mod 2 ^ 32)) with (u64 (x - b) - P) by lia.
  unfold u64. rewrite Zminus_mod_idemp_l, Zplus_mod_idemp_l.
  replace (x - b - P + b) with (h + k * 2 ^ 64) by lia. rewrite Z.mod_add by lia. by apply Z.mod_small.
Qed.

Lemma u64_sub_add a b : u64 (u64 (a + b) - a) = u64 b.
Proof. unfold u64. rewrite Zminus_mod_idemp_l. f_equal. lia. Qed.
Lemma u64_add_sub a b : is_u 64 a -> u64 (u64 (a + b) - b) = a.
Proof. intros. rewrite Z.add_comm, u64_sub_add. by apply u64_small. Qed.

Lemma lxor_cancel_r a b : Z.lxor (Z.lxor a b) b = a.
Proof. by rewrite Z.lxor_assoc, Z.lxor_nilpotent, Z.lxor_0_r. Qed.

Lemma mult_low a k : is_u 64 a -> is_u 64 k -> Lower64of128 (Multiply64to128 a k) = u64 (a * k).
Proof.
  intros Ha Hk. destruct (Multiply64to128_exact a k Ha Hk) as [E [Hl _]].
  unfold Lower64of128, u64. rewrite <- E. unfold Unsigned128.val.
  rewrite Z.mul_comm, Z.mod_add by lia. symmetry. by apply Z.mod_small.
Qed.

(** [BijectiveUnhash2x64] inverts [BijectiveHash2x64] for every seed, so
    the 128-bit hash loses no information. *)
Theorem bijective_hash_roundtrip (in_high64 in_low64 seed : Z) :
  is_u 64 in_high64 -> is_u 64 in_low64 -> is_u 64 seed ->
  let '(h, l) := BijectiveHash2x64 in_high64 in_low64 seed in
  BijectiveUnhash2x64 h l seed = (in_high64, in_low64).
Proof.
  intros Hh Hl Hs. unfold BijectiveHash2x64, BijectiveUnhash2x64.
  set (bl := u64 (_ - seed)). set (bh := u64 (_ + seed)).
  assert (Hbl : is_u 64 bl) by apply is_u_u64. assert (Hbh : is_u 64 bh) by apply is_u_u64.
  set (x := Z.lxor (Z.lxor in_low64 in_high64) bl).
  assert (Hx : is_u 64 x) by (unfold x; auto 6 with words; repeat apply is_u_lxor; (done || lia)).
  set (K1 := 0x9E3779B185EBCA87) in *. set (K2 := 0xC2B2AE3D27D4EB4F) in *.
  assert (HK1 : is_u 64 K1) by (unfold is_u, K1; lia). assert (HK2 : is_u 64 K2) by (unfold is_u, K2; lia).
  set (h' := Z.lxor in_high64 bh).
  assert (Hh' : is_u 64 h') by (apply is_u_lxor; (done || lia)).
  set (up1 := Upper64of128 (Multiply64to128 x K1)).
  set (hi := u64 (up1 + _)). set (lo1 := u64 (_ + 0x3c0000000000000)).
  set (lo := Z.lxor lo1 _).
  assert (Hlo : is_u 64 lo).
  { apply is_u_lxor; [lia|apply is_u_u64|]. rewrite EndianSwapValue_bswap. apply (bswap_range 8). }
  set (up2 := Upper64of128 (Multiply64to128 lo K2)).
  rewrite !unavalanche_avalanche by (rewrite ?mult_low by done; apply is_u_u64).
  rewrite (mult_low lo), u64_mul_inv by done. fold up2. rewrite u64_sub_add.
  rewrite (u64_small (u64 _)) by apply u64_range.
  rewrite u64_mul_inv by (apply is_u_u64 || done).
  replace (Z.lxor lo (EndianSwapValue 8 hi)) with lo1 by (unfold lo; by rewrite lxor_cancel_r).
  assert (Elo : u64 (u64 (lo1 - 0x3c0000000000000) * 0x887493432badb37) = x).
  { unfold lo1. rewrite (mult_low x) by done. by rewrite u64_add_sub, u64_mul_inv by (done || apply is_u_u64). }
  rewrite !Elo. fold up1.
  assert (Ehi : u64 (hi - up1) = u64 (h' + u64 (Lower32of64 h' * 0x85EBCA76))).
  { unfold hi. rewrite u64_sub_add. apply u64_small, u64_range. }
  rewrite !Ehi.
  destruct (unmix_high h' Hh') as [E1 E2]. rewrite E2. unfold h'. rewrite lxor_cancel_r.
  f_equal. unfold x. rewrite <- Z.lxor_assoc. rewrite (Z.lxor_assoc in_low64), (Z.lxor_comm in_high64 bl).
  rewrite <- (Z.lxor_assoc in_low64). by rewrite !lxor_cancel_r.
Qed.

Lemma bijective_hash_roundtrip_witness :
  BijectiveUnhash2x64 (fst (BijectiveHash2x64 123 (2 ^ 63 + 5) 77)) (snd (BijectiveHash2x64 123 (2 ^ 63 + 5) 77)) 77 =
  (123, 2 ^ 63 + 5).
Proof. apply (bijective_hash_roundtrip 123 (2 ^ 63 + 5) 77); unfold is_u; lia. Defined.
