(* ===== verification/Status.v ===== *)
(** * Status values (include/rocksdb/status.h)

    Fallible operations return a [Status]. The message text, which no control
    flow reads, is left out. *)

From stdpp Require Import prelude.
From S2P Require Import Prelude.

Inductive Code :=
  | kOk | kNotFound | kCorruption | kNotSupported | kInvalidArgument | kIOError
  | kMergeInProgress | kIncomplete | kShutdownInProgress | kTimedOut | kAborted
  | kBusy | kExpired | kTryAgain | kCompactionTooLarge | kColumnFamilyDropped.

Inductive SubCode :=
  | kNone | kMutexTimeout | kLockTimeout | kLockLimit | kNoSpace | kDeadlock | kStaleFile
  | kMemoryLimit | kSpaceLimit | kPathNotFound | KMergeOperandsInsufficientCapacity
  | kManualCompactionPaused | kOverwritten | kTxnNotPrepared | kIOFenced.

#[global] Instance Code_eq_dec : EqDecision Code.
Proof. solve_decision. Defined.
#[global] Instance SubCode_eq_dec : EqDecision SubCode.
Proof. solve_decision. Defined.

Record Status := mkStatus { code_ : Code; subcode_ : SubCode }.

#[global] Instance Status_eq_dec : EqDecision Status.
Proof. solve_decision. Defined.

Module St.
Definition OK : Status := mkStatus kOk kNone.
Definition NotFound : Status := mkStatus kNotFound kNone.
Definition Corruption : Status := mkStatus kCorruption kNone.
Definition NotSupported : Status := mkStatus kNotSupported kNone.
Definition InvalidArgument : Status := mkStatus kInvalidArgument kNone.
Definition TimedOut (s : SubCode) : Status := mkStatus kTimedOut s.
Definition Busy (s : SubCode) : Status := mkStatus kBusy s.
Definition Aborted (s : SubCode) : Status := mkStatus kAborted s.
Definition Expired : Status := mkStatus kExpired kNone.
Definition TryAgain : Status := mkStatus kTryAgain kNone.
Definition ok (s : Status) : bool := bool_decide (code_ s = kOk).
Definition IsMemoryLimit (s : Status) : bool := bool_decide (code_ s = kAborted) && bool_decide (subcode_ s = kMemoryLimit).
End St.
