(* ===== verification/DbFormat.v ===== *)
(** * Interfaces of the internal key format

    The directory db/ is not part of the sources, so the internal-key helpers
    the block code calls (db/dbformat.h) are interfaces here: classes whose
    operations are the functions called and whose laws are their documented
    behaviour. Instances at the end show the laws can hold. *)

From stdpp Require Import prelude.
From Stdlib Require Import ZArith Lia Bool.
From S2P Require Import Prelude Coding Comparator.

(** Free functions and the internal key comparator. [InternalKey user_key seq type]
    are the bytes of an internal key. *)
Class DbFormat := {
  ExtractUserKey : list Z -> list Z;
  ExtractValueType : list Z -> Z;
  kDisableGlobalSequenceNumber : Z;
  InternalKey : list Z -> Z -> Z -> list Z;
  icmp_Compare : (list Z -> list Z -> Z) -> list Z -> list Z -> Z;
  icmp_Compare_seqno : (list Z -> list Z -> Z) -> list Z -> Z -> list Z -> Z -> Z;
}.

(** The internal comparator of a lawful user comparator is lawful and orders by
    user key first; comparing with a global sequence number (other than the one that
    stands for none) is comparing the key
    that carries it; the user key of an internal key is the one it was made of. *)
Class DbFormatLaws `{DbFormat} : Prop := {
  icmp_laws ucmp : ComparatorLaws ucmp -> ComparatorLaws (icmp_Compare ucmp);
  icmp_seqno ucmp k g other : g <> kDisableGlobalSequenceNumber ->
    icmp_Compare_seqno ucmp k g other kDisableGlobalSequenceNumber =
    icmp_Compare ucmp (InternalKey (ExtractUserKey k) g (ExtractValueType k)) other;
  icmp_user ucmp a b : ucmp (ExtractUserKey a) (ExtractUserKey b) < 0 -> icmp_Compare ucmp a b < 0;
  ExtractUserKey_InternalKey u g t : ExtractUserKey (InternalKey u g t) = u;
}.

(** [IterKey], the key buffer of an iterator: a key that is either a slice of the
    block (pinned) or a copy in the object. *)
Class IterKeyOps := {
  IterKey : Type;
  IterKey_new : IterKey;
  SetKey : IterKey -> list Z -> bool -> IterKey;
  TrimAppend : IterKey -> Z -> list Z -> IterKey;
  Clear : IterKey -> IterKey;
  SetIsUserKey : IterKey -> bool -> IterKey;
  SetInternalKey : IterKey -> list Z -> Z -> Z -> IterKey;
  GetKey : IterKey -> list Z;
  Size : IterKey -> Z;
  IsUserKey : IterKey -> bool;
  IsKeyPinned : IterKey -> bool;
}.

Class IterKeyLaws `{DbFormat} `{IterKeyOps} : Prop := {
  GetKey_SetKey k s copy : GetKey (SetKey k s copy) = s;
  GetKey_TrimAppend k n s : 0 <= n <= zlen (GetKey k) -> GetKey (TrimAppend k n s) = ztake n (GetKey k) ++ s;
  GetKey_Clear k : GetKey (Clear k) = [];
  GetKey_SetInternalKey k u g t : GetKey (SetInternalKey k u g t) = InternalKey u g t;
  Size_GetKey k : Size k = zlen (GetKey k);
  IsUserKey_SetKey k s copy : IsUserKey (SetKey k s copy) = IsUserKey k;
  IsUserKey_TrimAppend k n s : IsUserKey (TrimAppend k n s) = IsUserKey k;
  IsUserKey_Clear k : IsUserKey (Clear k) = IsUserKey k;
  IsUserKey_SetIsUserKey k b : IsUserKey (SetIsUserKey k b) = b;
  GetKey_SetIsUserKey k b : GetKey (SetIsUserKey k b) = GetKey k;
}.

(** ** Instances

    Internal keys as a user key followed by a packed eight-byte trailer, ordered
    by user key and then by descending trailer. *)

Module Concrete.

Definition trailer (k : list Z) : Z := le_val (zdrop (zlen k - 8) k).
Definition user_key (k : list Z) : list Z := ztake (zlen k - 8) k.

#[export] Instance format : DbFormat := {|
  ExtractUserKey := user_key;
  ExtractValueType k := trailer k mod 256;
  kDisableGlobalSequenceNumber := 2 ^ 64 - 1;
  InternalKey u g t := u ++ le_bytes 8 (g * 256 + t);
  icmp_Compare ucmp := tiebreak (fun a b => ucmp (user_key a) (user_key b)) trailer;
  icmp_Compare_seqno ucmp a ga b gb :=
    tiebreak (fun a b => ucmp (user_key a) (user_key b)) trailer
      (user_key a ++ le_bytes 8 (ga * 256 + trailer a mod 256)) b;
|}.

#[export] Instance format_laws : DbFormatLaws.
Proof.
  split.
  - intros ucmp L. apply (tiebreak_laws user_key).
  - done.
  - intros ucmp a b Hlt. apply (tiebreak_lt user_key). by left.
  - intros u g t. change (user_key (u ++ le_bytes 8 (g * 256 + t)) = u). unfold user_key. rewrite zlen_app, zlen_le_bytes.
    replace (zlen u + Z.of_nat 8 - 8) with (zlen u) by lia. apply ztake_app.
Qed.

(** A key buffer: the key, whether it is a user key, whether it is pinned. *)
Record buffer := mk { bkey : list Z; buser : bool; bpinned : bool }.

#[export] Instance iter_key : IterKeyOps := {|
  IterKey := buffer;
  IterKey_new := mk [] true false;
  SetKey k s copy := mk s (buser k) (negb copy);
  TrimAppend k n s := mk (ztake n (bkey k) ++ s) (buser k) false;
  Clear k := mk [] (buser k) false;
  SetIsUserKey k b := mk (bkey k) b (bpinned k);
  SetInternalKey k u g t := mk (u ++ le_bytes 8 (g * 256 + t)) false false;
  GetKey := bkey;
  Size k := zlen (bkey k);
  IsUserKey := buser;
  IsKeyPinned := bpinned;
|}.

#[export] Instance iter_key_laws : IterKeyLaws.
Proof. by split. Qed.

End Concrete.
