(* ===== verification/Float64.v ===== *)
(** * IEEE binary64

    The [double]s of the sources are the Standard Library's [spec_float] with 53
    bits of precision and exponents up to 1024. *)

From stdpp Require Import prelude.
From Stdlib Require Import ZArith Lia Bool SpecFloat.
From S2P Require Import Prelude.

Definition f64_add : spec_float -> spec_float -> spec_float := SFadd 53 1024.
Definition f64_div : spec_float -> spec_float -> spec_float := SFdiv 53 1024.
Definition f64_of_Z (z : Z) : spec_float := binary_normalize 53 1024 z 0 false.
Definition f64_0 : spec_float := S754_zero false.
Definition f64_1 : spec_float := f64_of_Z 1.

(** Conversion to an integer truncates; C++ leaves it undefined for NaN, for
    infinities and (see the callers) out of the target's range. *)
Definition f64_trunc (x : spec_float) : Z :=
  match x with
  | S754_finite s m e =>
      let a := if 0 <=? e then Zpos m * 2 ^ e else Zpos m / 2 ^ (- e) in
      if s then - a else a
  | _ => 0
  end.

Definition f64_mul : spec_float -> spec_float -> spec_float := SFmul 53 1024.
Definition f64_gtb (x y : spec_float) : bool := SFltb y x.

(** ** Signs *)

(** Not negative, or not a number: zero does not exceed such a value. *)
Definition f64_nonneg (x : spec_float) : Prop :=
  match x with
  | S754_finite s _ _ | S754_infinity s => s = false
  | _ => True
  end.

Lemma f64_gtb_zero x : f64_nonneg x -> f64_gtb f64_0 x = false.
Proof. by destruct x as [|s| |s m e]; simpl; try intros ->. Qed.

Lemma binary_round_aux_sign s m e l : f64_nonneg (binary_round_aux 53 1024 s m e l) \/ s = true.
Proof.
  destruct s; [by right|left]. unfold binary_round_aux. destruct (shr_fexp _ _ _ _ _) as [mrs' e'].
  destruct (shr_fexp 53 1024 _ e' _) as [mrs'' e'']. destruct (shr_m mrs'') as [|p|p]; simpl; try done. by case_match.
Qed.

Lemma f64_mul_nonneg x y : f64_nonneg x -> f64_nonneg y -> f64_nonneg (f64_mul x y).
Proof.
  intros Hx Hy. destruct x as [sx|sx| |sx mx ex], y as [sy|sy| |sy my ey]; simpl in *; subst; try done.
  unfold f64_mul, SFmul. by destruct (binary_round_aux_sign (xorb false false) (Z.pos (mx * my)) (ex + ey) loc_Exact).
Qed.

Lemma f64_of_Z_nonneg z : 0 <= z -> f64_nonneg (f64_of_Z z).
Proof.
  intros Hz. unfold f64_of_Z, binary_normalize. destruct z as [|p|p]; [done| |lia]. unfold binary_round.
  destruct (shl_align _ _ _) as [mz ez]. by destruct (binary_round_aux_sign false (Z.pos mz) ez loc_Exact).
Qed.

(** ** Integers below 2^53 are exact, and compare as integers *)

Lemma digits2_pos_bounds p : 2 ^ (Zpos (digits2_pos p) - 1) <= Zpos p < 2 ^ Zpos (digits2_pos p).
Proof.
  assert (E : forall q, 2 ^ Zpos (Pos.succ (digits2_pos q)) = 2 * 2 ^ Zpos (digits2_pos q)).
  { intros q. rewrite Pos2Z.inj_succ, Z.pow_succ_r by lia. done. }
  induction p as [p IH|p IH|]; cbn [digits2_pos]; [| |cbn; lia]; rewrite E, Pos2Z.inj_succ;
    replace (Z.succ (Zpos (digits2_pos p)) - 1) with (Z.succ (Zpos (digits2_pos p) - 1)) by lia;
    rewrite Z.pow_succ_r by lia; lia.
Qed.

Lemma digits2_iter_xO k p : Zpos (digits2_pos (Pos.iter xO p k)) = Zpos (digits2_pos p) + Zpos k.
Proof.
  induction k as [|k IH] using Pos.peano_ind; [simpl; lia|].
  rewrite Pos.iter_succ. cbn [digits2_pos]. lia.
Qed.

Lemma iter_xO_spec k p : Zpos (Pos.iter xO p k) = Zpos p * 2 ^ Zpos k.
Proof.
  induction k as [|k IH] using Pos.peano_ind; [simpl; lia|].
  rewrite Pos.iter_succ, Pos2Z.inj_succ, Z.pow_succ_r by lia. lia.
Qed.

(** The mantissa has 53 bits. *)
Lemma f64_of_Z_shape p : Zpos p < 2 ^ 53 -> exists m,
  f64_of_Z (Zpos p) = S754_finite false m (Zpos (digits2_pos p) - 53) /\
  Zpos m = Zpos p * 2 ^ (53 - Zpos (digits2_pos p)).
Proof.
  intros Hp. pose proof (digits2_pos_bounds p) as [Hd _].
  assert (Hd53 : Zpos (digits2_pos p) <= 53).
  { destruct (Z.le_gt_cases (Zpos (digits2_pos p)) 53) as [|Hgt]; [done|].
    pose proof (Z.pow_le_mono_r 2 53 (Zpos (digits2_pos p) - 1)). lia. }
  assert (exists m, shl_align p 0 (fexp 53 1024 (Zpos (digits2_pos p) + 0)) = (m, Zpos (digits2_pos p) - 53) /\ Zpos (digits2_pos m) = 53 /\
                    Zpos m = Zpos p * 2 ^ (53 - Zpos (digits2_pos p))) as (m & Em & Hm & Hv).
  { unfold shl_align, fexp, emin. rewrite Z.max_l by lia.
    destruct (Zpos (digits2_pos p) + 0 - 53 - 0) as [|q|q] eqn:E; [|lia|].
    - exists p. replace (Zpos (digits2_pos p)) with 53 by lia. split_and!; [done|lia|simpl; lia].
    - exists (Pos.iter xO p q). split_and!; [f_equal; lia|rewrite digits2_iter_xO; lia|].
      rewrite iter_xO_spec. do 2 f_equal. lia. }
  exists m. split; [|done]. unfold f64_of_Z, binary_normalize, binary_round. rewrite Em. unfold binary_round_aux.
  assert (Es : forall e, -1074 <= e -> shr_fexp 53 1024 (Zpos m) e loc_Exact = (Build_shr_record (Zpos m) false false, e)).
  { intros e He. unfold shr_fexp, Zdigits2, fexp, emin. rewrite Hm, Z.max_l by lia.
    replace (53 + e - 53 - e) with 0 by lia. done. }
  rewrite Es by lia. cbn [shr_m loc_of_shr_record shr_r shr_s round_nearest_even]. rewrite Es by lia. cbn [shr_m].
  rewrite (proj2 (Z.leb_le _ _)) by lia. done.
Qed.

Lemma f64_gtb_mono a b x : 0 <= a <= b -> b < 2 ^ 53 -> f64_gtb (f64_of_Z b) x = false -> f64_gtb (f64_of_Z a) x = false.
Proof.
  intros Hab Hb. destruct a as [|p|p]; [..|lia].
  { intros Hx. destruct b as [|q|q]; [done| |lia]. destruct (f64_of_Z_shape q) as (m & Em & _); [lia|]. rewrite Em in Hx.
    destruct x as [[]|[]| |[] mx ex]; done. }
  destruct b as [|q|q]; [lia| |lia]. destruct (f64_of_Z_shape p) as (m & -> & Hm); [lia|].
  destruct (f64_of_Z_shape q) as (n & -> & Hn); [lia|].
  pose proof (digits2_pos_bounds p) as Hp. pose proof (digits2_pos_bounds q) as Hq.
  set (d := Zpos (digits2_pos p)) in *. set (d' := Zpos (digits2_pos q)) in *.
  assert (Hlex : d < d' \/ d = d' /\ Zpos m <= Zpos n).
  { destruct (Z.lt_trichotomy d d') as [|[E|Hgt]]; [by left| |].
    - right. split; [done|]. rewrite Hm, Hn, E. apply Z.mul_le_mono_nonneg_r; [apply Z.pow_nonneg|]; lia.
    - pose proof (Z.pow_le_mono_r 2 d' (d - 1)). lia. }
  destruct x as [[]|[]| |[] mx ex]; try done. unfold f64_gtb, SFltb, SFcompare.
  destruct (Z.compare_spec ex (d' - 53)), (Z.compare_spec ex (d - 53)); try done; try lia.
  intros Hc. change (Pos.compare_cont Eq) with Pos.compare in *.
  destruct (Pos.compare_spec mx n), (Pos.compare_spec mx m); try done; lia.
Qed.

(** ** Rounding *)

Lemma iter_pos_add {A} (f : A -> A) p x : iter_pos f (Pos.succ p) x = f (iter_pos f p x) /\ iter_pos f p (f x) = f (iter_pos f p x).
Proof.
  revert x. induction p as [p IH|p IH|]; intros x; simpl; [| |done].
  - assert (E : forall y, iter_pos f p (f y) = f (iter_pos f p y)) by (intros; apply IH). assert (E' : forall y, iter_pos f (Pos.succ p) y = f (iter_pos f p y)) by (intros; apply IH). by rewrite !E', !E.
  - assert (E : forall y, iter_pos f p (f y) = f (iter_pos f p y)) by (intros; apply IH). by rewrite !E.
Qed.
Lemma shr_1_m r : 0 <= shr_m r -> shr_m (shr_1 r) = shr_m r / 2.
Proof. intros Hm. rewrite <- Z.div2_div. by destruct r as [[|[p|p|]|p] r s]. Qed.
Lemma iter_shr_m k r : 0 <= shr_m r -> shr_m (iter_pos shr_1 k r) = shr_m r / 2 ^ Zpos k.
Proof.
  intros Hr. assert (H2 : 0 < 2) by lia. induction k as [|k IH] using Pos.peano_ind; [by apply shr_1_m|]. rewrite (proj1 (iter_pos_add _ _ _)), shr_1_m by (rewrite IH; apply Z.div_pos; lia).
  rewrite IH, Pos2Z.inj_succ, Z.pow_succ_r, Z.div_div by lia. by rewrite Z.mul_comm.
Qed.
Lemma shr_m_spec r e n : 0 <= shr_m r -> shr_m (shr r e n).1 = shr_m r / 2 ^ Z.max 0 n /\ (shr r e n).2 = e + Z.max 0 n.
Proof. intros Hr. destruct n as [|p|p]; cbn [shr fst snd Z.max Z.compare]; [split; [by rewrite Z.div_1_r|lia]|split; [by apply iter_shr_m|done]|split; [by rewrite Z.div_1_r|lia]]. Qed.
Lemma digits2_unique q d : 2 ^ (d - 1) <= Zpos q < 2 ^ d -> Zpos (digits2_pos q) = d.
Proof.
  intros Hq. pose proof (digits2_pos_bounds q). destruct (Z.lt_trichotomy (Zpos (digits2_pos q)) d) as [Hl|[?|Hl]]; [|done|].
  - pose proof (Z.pow_le_mono_r 2 (Zpos (digits2_pos q)) (d - 1)). lia.
  - pose proof (Z.pow_le_mono_r 2 d (Zpos (digits2_pos q) - 1)). lia.
Qed.

(** A mantissa of more than 53 bits is rounded to one of the two neighbours. *)
Lemma binary_round_aux_bounds m e : let k := Zpos (digits2_pos m) - 53 in 0 <= k -> -900 <= e <= 900 - k ->
  exists m' e', binary_round_aux 53 1024 false (Zpos m) e loc_Exact = S754_finite false m' e' /\ e + k <= e' <= e + k + 1 /\
    Zpos m / 2 ^ k * 2 ^ k <= Zpos m' * 2 ^ (e' - e) <= (Zpos m / 2 ^ k + 1) * 2 ^ k.
Proof.
  intros k Hk He. pose proof (digits2_pos_bounds m) as Hd. unfold binary_round_aux, shr_fexp. cbn [Zdigits2 shr_record_of_loc]. replace (fexp 53 1024 (Zpos (digits2_pos m) + e) - e) with k by (unfold fexp, emin, k in *; lia).
  destruct (shr_m_spec (Build_shr_record (Zpos m) false false) e k ltac:(done)) as [Em Ee]. rewrite Z.max_r in Em, Ee by lia. destruct (shr _ e k) as [r1 e1]. cbn [fst snd shr_m] in Em, Ee. subst e1. set (q := Zpos m / 2 ^ k) in *.
  assert (Hq : 2 ^ 52 <= q < 2 ^ 53). { unfold q. split; [apply Z.div_le_lower_bound; [lia|]|apply Z.div_lt_upper_bound; [lia|]]; rewrite <- Z.pow_add_r by lia; [replace (k + 52) with (Zpos (digits2_pos m) - 1) by lia|replace (k + 53) with (Zpos (digits2_pos m)) by lia]; lia. }
  set (q' := round_nearest_even _ _). assert (Hq' : q <= q' <= q + 1). { unfold q'. rewrite Em. destruct (loc_of_shr_record r1) as [|[]]; cbn [round_nearest_even]; try lia. destruct (Z.even q); lia. }
  clearbody q'. assert (Hpow : 0 < 2 ^ k) by lia. destruct q' as [|p|p]; [lia| |lia]. cbn [Zdigits2 shr_record_of_loc]. destruct (decide (Zpos p = 2 ^ 53)) as [E53|Hn].
  - rewrite (digits2_unique p 54) by lia. replace (fexp 53 1024 (54 + (e + k)) - (e + k)) with 1 by (unfold fexp, emin; lia). destruct (shr_m_spec (Build_shr_record (Zpos p) false false) (e + k) 1 ltac:(done)) as [E1 E2].
    destruct (shr _ _ 1) as [r2 e2]. cbn [fst snd shr_m] in E1, E2. rewrite E53 in E1. change (2 ^ 53 / 2 ^ Z.max 0 1) with (2 ^ 52) in E1. rewrite E1. subst e2. change (Z.max 0 1) with 1. change (2 ^ 52) with (Zpos (2 ^ 52)). cbv iota.
    rewrite (proj2 (Z.leb_le _ _)) by lia. eexists _, _. split; [done|]. split; [lia|]. replace (e + k + 1 - e) with (k + 1) by lia. rewrite Z.pow_add_r by lia. change (Zpos (2 ^ 52)) with (2 ^ 52). nia.
  - rewrite (digits2_unique p 53) by (change (53 - 1) with 52; lia). replace (fexp 53 1024 (53 + (e + k)) - (e + k)) with 0 by (unfold fexp, emin; lia). cbn [shr shr_m]. rewrite (proj2 (Z.leb_le _ _)) by lia. eexists _, _. split; [done|].
    split; [lia|]. replace (e + k - e) with k by lia. nia.
Qed.
