(* ===== verification/BlockHashIndex.v ===== *)
(** * The hash index of a data block
      (table/block_based/data_block_hash_index.h, .cc, data_block_footer.cc)

    Modules [DataBlockHashIndexBuilder] and
    [DataBlockHashIndex] are the classes of these names. The builder's two [double] members are IEEE binary64
    numbers of the Standard Library's [spec_float], so the number of buckets is
    computed as the code computes it; the theorems hold for any value they take.
    The block footer that carries the index type is at the end. *)

From stdpp Require Import prelude.
From Stdlib Require Import ZArith Lia Bool SpecFloat.
From S2P Require Import Prelude Coding Hash Float64.

(** ** Constants *)

Definition kNoEntry : Z := 255.
Definition kCollision : Z := 254.
Definition kMaxRestartSupportedByHashIndex : Z := 253.
Definition kMaxBlockSizeSupportedByHashIndex : Z := Z.shiftl 1 16.
Definition kDefaultUtilRatio : spec_float := f64_div (f64_of_Z 3) (f64_of_Z 4).

Module DataBlockHashIndexBuilder.

Record t := mk {
  bucket_per_key_ : spec_float;
  estimated_num_buckets_ : spec_float;
  valid_ : bool;
  hash_and_restart_pairs_ : list (Z * Z);
}.

Definition new : t := mk (f64_of_Z (-1)) f64_0 false [].

Definition Initialize (util_ratio : spec_float) (b : t) : t :=
  let util_ratio := if SFleb util_ratio f64_0 then kDefaultUtilRatio else util_ratio in
  mk (f64_div f64_1 util_ratio) (estimated_num_buckets_ b) true (hash_and_restart_pairs_ b).

Definition Valid (b : t) : bool := valid_ b && SFltb f64_0 (bucket_per_key_ b).

Section add.
Context `{Port}.

Definition Add (key : list Z) (restart_index : Z) (b : t) : t :=
  if restart_index >? kMaxRestartSupportedByHashIndex
  then mk (bucket_per_key_ b) (estimated_num_buckets_ b) false (hash_and_restart_pairs_ b)
  else
    let hash_value := GetSliceHash key in
    mk (bucket_per_key_ b)
       (f64_add (estimated_num_buckets_ b) (bucket_per_key_ b)) (valid_ b)
       (hash_and_restart_pairs_ b ++ [(hash_value, u8 restart_index)]).

(** One iteration of the loop of [Finish] over the stored pairs. *)
Definition fill (num_buckets : Z) (buckets : list Z) (entry : Z * Z) : list Z :=
  let '(hash_value, restart_index) := entry in
  let buck_idx := u16 (hash_value mod num_buckets) in
  if byte_at buckets buck_idx =? kNoEntry
  then <[Z.to_nat buck_idx := restart_index]> buckets
  else if negb (byte_at buckets buck_idx =? restart_index)
  then <[Z.to_nat buck_idx := kCollision]> buckets
  else buckets.

Definition num_buckets (b : t) : Z :=
  let num_buckets := u16 (f64_trunc (estimated_num_buckets_ b)) in
  let num_buckets := if num_buckets =? 0 then 1 else num_buckets in
  Z.lor num_buckets 1.

Definition Finish (b : t) (buffer : list Z) : list Z :=
  let num_buckets := num_buckets b in
  let buckets := replicate (Z.to_nat num_buckets) kNoEntry in
  let buckets := foldl (fill num_buckets) buckets (hash_and_restart_pairs_ b) in
  PutFixed16 (buffer ++ buckets) num_buckets.

End add.

Definition Reset (b : t) : t := mk (bucket_per_key_ b) f64_0 true [].

Definition EstimateSize (b : t) : Z :=
  let estimated_num_buckets := u16 (f64_trunc (estimated_num_buckets_ b)) in
  let estimated_num_buckets := Z.lor estimated_num_buckets 1 in
  2 + estimated_num_buckets.

End DataBlockHashIndexBuilder.

Module DataBlockHashIndex.
Section index.
Context `{Port}.

(** The object is its only member [num_buckets_]; 0 marks it invalid. *)
Definition new : Z := 0.
Definition Valid (num_buckets_ : Z) : bool := negb (num_buckets_ =? 0).

(** [Initialize] returns the new [num_buckets_] and [*map_offset]. *)
Definition Initialize (data : list Z) (size : Z) : Z * Z :=
  let num_buckets_ := DecodeFixed16 (zdrop (size - 2) data) in
  (num_buckets_, u16 (size - 2 - num_buckets_)).

Definition Lookup (num_buckets_ : Z) (data : list Z) (map_offset : Z) (key : list Z) : Z :=
  let hash_value := GetSliceHash key in
  let idx := u16 (hash_value mod num_buckets_) in
  byte_at data (map_offset + idx).

End index.
End DataBlockHashIndex.

(** ** The block footer (data_block_footer.cc) *)

Inductive DataBlockIndexType := kDataBlockBinarySearch | kDataBlockBinaryAndHash.

Definition kDataBlockIndexTypeBitShift : Z := 31.
Definition kNumRestartsMask : Z := u32 (Z.shiftl 1 kDataBlockIndexTypeBitShift - 1).

Definition PackIndexTypeAndNumRestarts (index_type : DataBlockIndexType) (num_restarts : Z) : Z :=
  let block_footer := num_restarts in
  match index_type with
  | kDataBlockBinaryAndHash => Z.lor block_footer (Z.shiftl 1 kDataBlockIndexTypeBitShift)
  | kDataBlockBinarySearch => block_footer
  end.

Definition UnPackIndexTypeAndNumRestarts (block_footer : Z) : DataBlockIndexType * Z :=
  (if negb (Z.land block_footer (Z.shiftl 1 kDataBlockIndexTypeBitShift) =? 0)
   then kDataBlockBinaryAndHash else kDataBlockBinarySearch,
   Z.land block_footer kNumRestartsMask).

(** ** Lemmas *)

Section proofs.
Context `{Port}.

Lemma lor_1_range v : 0 <= v < 2 ^ 16 -> 0 < Z.lor v 1 < 2 ^ 16.
Proof.
  intros Hv. assert (0 <= Z.lor v 1 < 2 ^ 16) by (apply lor_range; lia).
  assert (Z.testbit (Z.lor v 1) 0 = true) as T by (rewrite Z.lor_spec; apply orb_true_r).
  destruct (decide (Z.lor v 1 = 0)) as [E|]; [rewrite E in T; done|lia].
Qed.

Lemma num_buckets_range b : 0 < DataBlockHashIndexBuilder.num_buckets b < 2 ^ 16.
Proof.
  unfold DataBlockHashIndexBuilder.num_buckets. apply lor_1_range.
  destruct (_ =? 0); [lia|apply u16_range].
Qed.

(** [EstimateSize] counts the same buckets as [Finish]. *)
Lemma EstimateSize_eq b : DataBlockHashIndexBuilder.EstimateSize b = 2 + DataBlockHashIndexBuilder.num_buckets b.
Proof.
  unfold DataBlockHashIndexBuilder.EstimateSize, DataBlockHashIndexBuilder.num_buckets.
  destruct (Z.eqb_spec (u16 (f64_trunc (DataBlockHashIndexBuilder.estimated_num_buckets_ b))) 0) as [->|]; done.
Qed.

(** What the buckets say about the pairs stored so far: the bucket of each pair
    holds its restart index or the collision mark. *)
Definition bucket_ok (n : Z) (buckets : list Z) (entry : Z * Z) : Prop :=
  let e := byte_at buckets (entry.1 mod n) in e = entry.2 \/ e = kCollision.

Lemma byte_at_insert (l : list Z) i j v :
  0 <= i < zlen l -> 0 <= j -> byte_at (<[Z.to_nat i := v]> l) j = if j =? i then v else byte_at l j.
Proof.
  unfold byte_at, zlen. intros Hi Hj. rewrite !nth_lookup.
  destruct (Z.eqb_spec j i) as [->|Hne].
  - by rewrite list_lookup_insert_eq by lia.
  - by rewrite list_lookup_insert_ne by lia.
Qed.

Lemma fill_length n buckets entry :
  length (DataBlockHashIndexBuilder.fill n buckets entry) = length buckets.
Proof.
  destruct entry as [h r]. unfold DataBlockHashIndexBuilder.fill.
  repeat case_match; rewrite ?length_insert; done.
Qed.

(** [fill] keeps what the buckets say of earlier pairs and records the new one. *)
Lemma fill_ok n buckets entry :
  0 < n < 2 ^ 16 -> zlen buckets = n ->
  let buckets' := DataBlockHashIndexBuilder.fill n buckets entry in
  bucket_ok n buckets' entry /\
  forall old, old.2 < kCollision -> bucket_ok n buckets old -> bucket_ok n buckets' old.
Proof.
  destruct entry as [h r]. unfold bucket_ok, DataBlockHashIndexBuilder.fill, kNoEntry. simpl.
  intros Hn Hl. pose proof (Z.mod_pos_bound h n ltac:(lia)). rewrite u16_small by lia.
  destruct (Z.eqb_spec (byte_at buckets (h mod n)) 255) as [E|E].
  - rewrite byte_at_insert, Z.eqb_refl by lia. split; [by left|]. intros [h' r'] Hr'; simpl in *.
    pose proof (Z.mod_pos_bound h' n ltac:(lia)). rewrite byte_at_insert by lia.
    destruct (Z.eqb_spec (h' mod n) (h mod n)) as [->|]; [unfold kCollision in *; lia|done].
  - destruct (Z.eqb_spec (byte_at buckets (h mod n)) r) as [E'|E']; cbn [negb]; [by auto|].
    rewrite byte_at_insert, Z.eqb_refl by lia. split; [by right|]. intros [h' r'] Hr'; simpl in *.
    pose proof (Z.mod_pos_bound h' n ltac:(lia)). rewrite byte_at_insert by lia.
    destruct (h' mod n =? h mod n); [by right|done].
Qed.

Lemma foldl_fill_ok n pairs buckets done_ :
  0 < n < 2 ^ 16 -> zlen buckets = n ->
  Forall (fun e => e.2 < kCollision) (done_ ++ pairs) -> Forall (bucket_ok n buckets) done_ ->
  let buckets' := foldl (DataBlockHashIndexBuilder.fill n) buckets pairs in
  Forall (bucket_ok n buckets') (done_ ++ pairs) /\ zlen buckets' = n.
Proof.
  intros Hn. revert buckets done_. induction pairs as [|e pairs IH]; intros buckets d Hl Hs Hd; cbn [foldl].
  - by rewrite app_nil_r.
  - rewrite cons_middle, app_assoc. destruct (fill_ok n buckets e Hn Hl) as [He Hold]. apply IH.
    + unfold zlen. by rewrite fill_length.
    + by rewrite <- app_assoc.
    + apply Forall_app in Hs as [Hs _]. apply Forall_app. split; [|by apply Forall_singleton].
      rewrite Forall_forall in *. auto.
Qed.

(** Every bucket is empty, marked, or holds the restart index of some pair. *)
Definition bucket_from (pairs : list (Z * Z)) (v : Z) : Prop :=
  v = kNoEntry \/ v = kCollision \/ exists e, e ∈ pairs /\ v = e.2.

Lemma foldl_fill_from n pairs buckets d :
  Forall (bucket_from d) buckets ->
  Forall (bucket_from (d ++ pairs)) (foldl (DataBlockHashIndexBuilder.fill n) buckets pairs).
Proof.
  revert buckets d. induction pairs as [|e pairs IH]; intros buckets d Hd; cbn [foldl]; [by rewrite app_nil_r|].
  rewrite cons_middle, app_assoc. apply IH.
  assert (Hd' : Forall (bucket_from (d ++ [e])) buckets).
  { eapply Forall_impl; [exact Hd|]. intros v [?|[?|(e' & He & ?)]]; [by left|by right; left|].
    right; right. exists e'. split; [apply elem_of_app; by left|done]. }
  destruct e as [h r]. unfold DataBlockHashIndexBuilder.fill.
  case_match; [|case_match; [|done]]; apply Forall_insert; try done.
  - right; right. exists (h, r). split; [apply elem_of_app; right; apply list_elem_of_singleton|]; done.
  - by right; left.
Qed.

(** The bytes [Finish] appends: the buckets and their number. *)
Lemma Finish_eq b buffer : exists buckets,
  DataBlockHashIndexBuilder.Finish b buffer =
    buffer ++ buckets ++ le_bytes 2 (DataBlockHashIndexBuilder.num_buckets b) /\
  zlen buckets = DataBlockHashIndexBuilder.num_buckets b /\
  (Forall (fun e => e.2 < kCollision) (DataBlockHashIndexBuilder.hash_and_restart_pairs_ b) ->
   Forall (bucket_ok (DataBlockHashIndexBuilder.num_buckets b) buckets)
     (DataBlockHashIndexBuilder.hash_and_restart_pairs_ b)) /\
  Forall (bucket_from (DataBlockHashIndexBuilder.hash_and_restart_pairs_ b)) buckets.
Proof.
  pose proof (num_buckets_range b) as Hn. eexists. unfold DataBlockHashIndexBuilder.Finish.
  rewrite PutFixed16_eq, <- app_assoc. split; [done|].
  set (n := DataBlockHashIndexBuilder.num_buckets b) in *.
  assert (L : forall l bs, length (foldl (DataBlockHashIndexBuilder.fill n) bs l) = length bs).
  { intros l. induction l as [|e l IH]; intros bs; cbn [foldl]; [done|]. by rewrite IH, fill_length. }
  split_and!.
  - unfold zlen. rewrite L, length_replicate. lia.
  - intros Hs. apply (foldl_fill_ok n _ _ [] Hn); [|done|constructor].
    unfold zlen. rewrite length_replicate. lia.
  - apply (foldl_fill_from n _ _ []). apply Forall_replicate. by left.
Qed.

Lemma zlen_Finish b buffer : zlen (DataBlockHashIndexBuilder.Finish b buffer) =
  zlen buffer + DataBlockHashIndexBuilder.EstimateSize b.
Proof.
  destruct (Finish_eq b buffer) as (buckets & -> & El & _).
  rewrite !zlen_app, zlen_le_bytes, El, EstimateSize_eq. lia.
Qed.

(** [Initialize] finds the index at the end of what [Finish] wrote. *)
Lemma Initialize_Finish b prefix rest :
  let block := DataBlockHashIndexBuilder.Finish b prefix in
  zlen block < 2 ^ 16 ->
  DataBlockHashIndex.Initialize (block ++ rest) (zlen block) =
    (DataBlockHashIndexBuilder.num_buckets b, zlen prefix).
Proof.
  intros block Hsz. pose proof (num_buckets_range b) as Hn. pose proof (zlen_nonneg prefix) as H0.
  pose proof (zlen_Finish b prefix) as Hl. fold block in Hl. rewrite EstimateSize_eq in Hl.
  destruct (Finish_eq b prefix) as (buckets & Eb & Hlb & _). fold block in Eb.
  set (n := DataBlockHashIndexBuilder.num_buckets b) in *.
  assert (ED : DecodeFixed16 (zdrop (zlen block - 2) (block ++ rest)) = n).
  { rewrite Eb at 2. rewrite <- !app_assoc, app_assoc, zdrop_app' by (rewrite zlen_app; lia).
    apply DecodeFixed16_app. unfold is_u. lia. }
  unfold DataBlockHashIndex.Initialize. rewrite ED.
  replace (zlen block - 2 - n) with (zlen prefix) by lia. by rewrite u16_small by lia.
Qed.

(** The builder stores a hash for each added key and never a reserved index. *)
Definition added (b : DataBlockHashIndexBuilder.t) (keys : list (list Z * Z)) : Prop :=
  DataBlockHashIndexBuilder.hash_and_restart_pairs_ b =
    map (fun '(key, r) => (GetSliceHash key, r)) keys /\
  Forall (fun e => 0 <= e.2 <= kMaxRestartSupportedByHashIndex) keys.

Lemma Add_added key r b keys :
  0 <= r <= kMaxRestartSupportedByHashIndex -> added b keys ->
  added (DataBlockHashIndexBuilder.Add key r b) (keys ++ [(key, r)]).
Proof.
  intros Hr [E HF]. unfold kMaxRestartSupportedByHashIndex in *. unfold DataBlockHashIndexBuilder.Add, added.
  rewrite Z.gtb_ltb, (proj2 (Z.ltb_ge _ _)) by (unfold kMaxRestartSupportedByHashIndex; lia). simpl.
  rewrite E, map_app, u8_small by lia. split; [done|]. apply Forall_app. split; [done|by apply Forall_singleton].
Qed.

(** What [Lookup] finds in the index [Finish] wrote. *)
Lemma Lookup_Finish b keys prefix rest key : added b keys ->
  let block := DataBlockHashIndexBuilder.Finish b prefix in
  let e := DataBlockHashIndex.Lookup (DataBlockHashIndexBuilder.num_buckets b) (block ++ rest) (zlen prefix) key in
  (e = kNoEntry \/ e = kCollision \/ exists key', (key', e) ∈ keys) /\
  (forall r, (key, r) ∈ keys -> e = r \/ e = kCollision).
Proof.
  intros [E HF] block. pose proof (num_buckets_range b) as Hn. pose proof (zlen_nonneg prefix) as H0.
  destruct (Finish_eq b prefix) as (buckets & Eb & Hlb & Hok & Hfrom). fold block in Eb.
  set (n := DataBlockHashIndexBuilder.num_buckets b) in *.
  pose proof (Z.mod_pos_bound (GetSliceHash key) n ltac:(lia)) as Hm.
  assert (EL : DataBlockHashIndex.Lookup n (block ++ rest) (zlen prefix) key =
               byte_at buckets (GetSliceHash key mod n)).
  { unfold DataBlockHashIndex.Lookup.
    rewrite u16_small, Eb, <- !app_assoc, byte_at_app_r by lia. unfold byte_at.
    apply app_nth1. unfold zlen in *. lia. }
  cbv zeta. rewrite EL. split.
  - unfold byte_at. rewrite nth_lookup.
    destruct (lookup_lt_is_Some_2 buckets (Z.to_nat (GetSliceHash key mod n))) as [v Hv]; [unfold zlen in *; lia|].
    rewrite Hv. simpl. rewrite Forall_forall in Hfrom.
    destruct (Hfrom v (list_elem_of_lookup_2 _ _ _ Hv)) as [|[|(e & He & ->)]]; [by left|by right; left|].
    right; right. rewrite E in He. apply list_elem_of_fmap in He as ([key' r] & -> & Hin). by exists key'.
  - intros r Hin.
    assert (HF' : Forall (fun e => e.2 < kCollision) (DataBlockHashIndexBuilder.hash_and_restart_pairs_ b)).
    { rewrite E. apply Forall_fmap. eapply Forall_impl; [done|]. intros [k' r'] ?. simpl in *.
      unfold kMaxRestartSupportedByHashIndex, kCollision in *. lia. }
    specialize (Hok HF'). rewrite Forall_forall in Hok. apply (Hok (GetSliceHash key, r)). rewrite E.
    apply (list_elem_of_fmap_2 (fun '(key, r) => (GetSliceHash key, r)) _ _ Hin).
Qed.

(** The index written by [Finish] behind any prefix of a block answers
    point lookups soundly after [Initialize]: for every key that was added with
    a restart index, [Lookup] returns that index or reports a collision, so
    "no entry" is only ever answered for keys that were not added; the appended
    bytes are as many as [EstimateSize] announced. *)
Theorem hash_index_lookup_sound (b : DataBlockHashIndexBuilder.t) (keys : list (list Z * Z))
    (prefix rest : list Z) (key : list Z) (r : Z) :
  added b keys -> (key, r) ∈ keys ->
  let block := DataBlockHashIndexBuilder.Finish b prefix in
  zlen block < 2 ^ 16 ->
  let '(num_buckets_, map_offset) := DataBlockHashIndex.Initialize (block ++ rest) (zlen block) in
  let e := DataBlockHashIndex.Lookup num_buckets_ (block ++ rest) map_offset key in
  DataBlockHashIndex.Valid num_buckets_ = true /\ map_offset = zlen prefix /\
  zlen block = zlen prefix + DataBlockHashIndexBuilder.EstimateSize b /\
  (e = r \/ e = kCollision) /\ e <> kNoEntry.
Proof.
  intros A Hin block Hsz. pose proof (num_buckets_range b) as Hn.
  pose proof (zlen_Finish b prefix) as Hl. fold block in Hl.
  pose proof (Initialize_Finish b prefix rest Hsz) as EI. fold block in EI. rewrite EI. clear EI.
  destruct (Lookup_Finish b keys prefix rest key A) as [_ He]. fold block in He. specialize (He r Hin).
  destruct A as [_ HF]. rewrite Forall_forall in HF. specialize (HF _ Hin). simpl in HF.
  unfold kMaxRestartSupportedByHashIndex, kCollision, kNoEntry, DataBlockHashIndex.Valid in *.
  split_and!; lia.
Qed.
End proofs.

Lemma hash_index_lookup_sound_witness :
  let b := @DataBlockHashIndexBuilder.Add le_port [98] 1
             (@DataBlockHashIndexBuilder.Add le_port [97] 0
                (DataBlockHashIndexBuilder.Initialize kDefaultUtilRatio DataBlockHashIndexBuilder.new)) in
  let block := @DataBlockHashIndexBuilder.Finish le_port b [7; 7; 7] in
  let '(num_buckets_, map_offset) := @DataBlockHashIndex.Initialize le_port (block ++ [1]) (zlen block) in
  let e := @DataBlockHashIndex.Lookup le_port num_buckets_ (block ++ [1]) map_offset [98] in
  DataBlockHashIndex.Valid num_buckets_ = true /\ map_offset = zlen [7; 7; 7] /\
  zlen block = zlen [7; 7; 7] + DataBlockHashIndexBuilder.EstimateSize b /\
  (e = 1 \/ e = kCollision) /\ e <> kNoEntry.
Proof.
  apply (@hash_index_lookup_sound le_port _ [([97], 0); ([98], 1)] [7; 7; 7] [1] [98] 1).
  - split; [vm_compute; reflexivity|].
    repeat constructor; vm_compute; discriminate.
  - right. left.
  - vm_compute. reflexivity.
Defined.

(** ** The footer round trip *)

Lemma UnPack_Pack index_type num_restarts : 0 <= num_restarts < 2 ^ 31 ->
  UnPackIndexTypeAndNumRestarts (PackIndexTypeAndNumRestarts index_type num_restarts) =
  (index_type, num_restarts) /\
  0 <= PackIndexTypeAndNumRestarts index_type num_restarts < 2 ^ 32.
Proof.
  intros Hn. unfold UnPackIndexTypeAndNumRestarts, PackIndexTypeAndNumRestarts.
  assert (Em : forall v, Z.land v kNumRestartsMask = v mod 2 ^ 31) by (intros; apply (land_ones_mod _ 31); lia).
  assert (Eb : forall v, 0 <= v -> negb (Z.land v (Z.shiftl 1 kDataBlockIndexTypeBitShift) =? 0) = Z.testbit v 31).
  { intros v Hv. change (Z.shiftl 1 kDataBlockIndexTypeBitShift) with (2 ^ 31).
    destruct (Z.testbit v 31) eqn:T.
    - apply negb_true_iff, Z.eqb_neq. intros E. assert (F : Z.testbit (Z.land v (2 ^ 31)) 31 = true)
        by (by rewrite Z.land_spec, T). by rewrite E in F.
    - apply negb_false_iff, Z.eqb_eq, Z.bits_inj'; intros i Hi. rewrite Z.land_spec, Z.bits_0, Z.pow2_bits_eqb by lia.
      destruct (Z.eqb_spec 31 i) as [<-|]; [by rewrite T|apply andb_false_r]. }
  rewrite Em. destruct index_type.
  - rewrite Eb, (tbit_high _ 31), Z.mod_small by lia. split; [done|lia].
  - rewrite (lor_add_pow2 _ 1 31) by lia. rewrite Eb, Z.mod_add, Z.mod_small by lia.
    split; [|lia]. f_equal. rewrite <- lor_add_pow2, Z.lor_spec, Z.shiftl_spec by lia. simpl. by rewrite orb_true_r.
Qed.
