(* ===== verification/BlockBuilder.v ===== *)
(** * Building blocks (table/block_based/block_builder.h, .cc)

    [BlockBuilder] turns a sequence of keys and values into the bytes of a
    block: prefix-compressed entries, an array of restart offsets, an optional
    hash index and a footer. The second part of the file says what those bytes
    are ([layout]) and proves that the operations keep the buffer in that
    shape; the iterators are verified against the layout, not the builder. *)

From stdpp Require Import prelude.
From Stdlib Require Import ZArith Lia Bool SpecFloat.
From S2P Require Import Prelude Coding Comparator Hash DbFormat BlockHashIndex.

Module BlockBuilder.

(** The object; [data_block_hash_index_builder_] is shortened to [hash_builder_]. *)
Record t := mk {
  block_restart_interval_ : Z;
  use_delta_encoding_ : bool;
  use_value_delta_encoding_ : bool;
  buffer_ : list Z;
  restarts_ : list Z;
  estimate_ : Z;
  counter_ : Z;
  finished_ : bool;
  last_key_ : list Z;
  hash_builder_ : DataBlockHashIndexBuilder.t;
}.

Definition new (block_restart_interval : Z) (use_delta_encoding use_value_delta_encoding : bool)
    (index_type : DataBlockIndexType) (util_ratio : spec_float) : t :=
  mk block_restart_interval use_delta_encoding use_value_delta_encoding
    [] [0] (4 + 4) 0 false []
    (match index_type with
     | kDataBlockBinarySearch => DataBlockHashIndexBuilder.new
     | kDataBlockBinaryAndHash =>
         DataBlockHashIndexBuilder.Initialize util_ratio DataBlockHashIndexBuilder.new
     end).

Definition Reset (b : t) : t :=
  mk (block_restart_interval_ b) (use_delta_encoding_ b) (use_value_delta_encoding_ b)
    [] (take 1 (restarts_ b)) (4 + 4) 0 false []
    (if DataBlockHashIndexBuilder.Valid (hash_builder_ b)
     then DataBlockHashIndexBuilder.Reset (hash_builder_ b) else hash_builder_ b).

(** The contents of the caller's buffer are discarded by [Reset]. *)
Definition SwapAndReset (b : t) : list Z * t :=
  (buffer_ b, Reset b).

Definition CurrentSizeEstimate (b : t) : Z :=
  u64 (estimate_ b +
       (if DataBlockHashIndexBuilder.Valid (hash_builder_ b)
        then DataBlockHashIndexBuilder.EstimateSize (hash_builder_ b) else 0)).

Definition EstimateSizeAfterKV (b : t) (key value : list Z) : Z :=
  let full := negb (use_value_delta_encoding_ b) || (counter_ b >=? block_restart_interval_ b) in
  let estimate := CurrentSizeEstimate b in
  let estimate := estimate + zlen key in
  let estimate := estimate + (if full then zlen value else zlen value / 2) in
  let estimate := if counter_ b >=? block_restart_interval_ b then estimate + 4 else estimate in
  let estimate := estimate + 4 in
  let estimate := estimate + VarintLength (zlen key) in
  let estimate := if full then estimate + VarintLength (zlen value) else estimate in
  u64 estimate.

Definition empty (b : t) : bool := bool_decide (buffer_ b = []).

Section builder.
Context `{Port} `{DbFormat}.

Definition Finish (b : t) : list Z * t :=
  let buffer := foldl PutFixed32 (buffer_ b) (restarts_ b) in
  let num_restarts := u32 (zlen (restarts_ b)) in
  let '(buffer, index_type) :=
    if DataBlockHashIndexBuilder.Valid (hash_builder_ b) &&
       (CurrentSizeEstimate b <=? kMaxBlockSizeSupportedByHashIndex)
    then (DataBlockHashIndexBuilder.Finish (hash_builder_ b) buffer, kDataBlockBinaryAndHash)
    else (buffer, kDataBlockBinarySearch) in
  let block_footer := PackIndexTypeAndNumRestarts index_type num_restarts in
  let buffer := PutFixed32 buffer block_footer in
  (buffer,
   mk (block_restart_interval_ b) (use_delta_encoding_ b) (use_value_delta_encoding_ b)
     buffer (restarts_ b) (estimate_ b) (counter_ b) true (last_key_ b) (hash_builder_ b)).

(** [delta_value] is a pointer that may be null; it is only read when the key
    shares bytes and values are delta encoded, where it must not be. *)
Definition AddWithLastKeyImpl (b : t) (key value last_key : list Z)
    (delta_value : option (list Z)) (buffer_size : Z) : t :=
  let '(restarts, estimate, counter, shared) :=
    if counter_ b >=? block_restart_interval_ b
    then (restarts_ b ++ [u32 buffer_size], u64 (estimate_ b + 4), 0, 0)
    else (restarts_ b, estimate_ b, counter_ b,
          if use_delta_encoding_ b then Slice.difference_offset key last_key else 0) in
  let non_shared := zlen key - shared in
  let buffer :=
    if use_value_delta_encoding_ b
    then PutVarint32Varint32 (buffer_ b) (u32 shared) (u32 non_shared)
    else PutVarint32Varint32Varint32 (buffer_ b) (u32 shared) (u32 non_shared) (u32 (zlen value)) in
  let buffer := buffer ++ zsub shared non_shared key in
  let buffer :=
    if negb (shared =? 0) && use_value_delta_encoding_ b
    then buffer ++ default [] delta_value
    else buffer ++ value in
  let hash_builder :=
    if DataBlockHashIndexBuilder.Valid (hash_builder_ b)
    then DataBlockHashIndexBuilder.Add (ExtractUserKey key) (zlen restarts - 1) (hash_builder_ b)
    else hash_builder_ b in
  mk (block_restart_interval_ b) (use_delta_encoding_ b) (use_value_delta_encoding_ b)
    buffer restarts (u64 (estimate + (zlen buffer - buffer_size))) (counter + 1) (finished_ b)
    (last_key_ b) hash_builder.

Definition set_last_key (key : list Z) (b : t) : t :=
  mk (block_restart_interval_ b) (use_delta_encoding_ b) (use_value_delta_encoding_ b)
    (buffer_ b) (restarts_ b) (estimate_ b) (counter_ b) (finished_ b) key (hash_builder_ b).

Definition Add (b : t) (key value : list Z) (delta_value : option (list Z)) : t :=
  let b := AddWithLastKeyImpl b key value (last_key_ b) delta_value (zlen (buffer_ b)) in
  if use_delta_encoding_ b then set_last_key key b else b.

Definition AddWithLastKey (b : t) (key value last_key_param : list Z)
    (delta_value : option (list Z)) : t :=
  let buffer_size := zlen (buffer_ b) in
  let last_key_size := zlen last_key_param in
  let last_key := ztake (Z.min buffer_size last_key_size) last_key_param in
  AddWithLastKeyImpl b key value last_key delta_value buffer_size.

End builder.
End BlockBuilder.

(** ** The layout of a block *)

(** An entry of a block: its key, how many bytes of it are shared with the
    previous key, and the bytes stored as its value. *)
Record entry := Entry { ekey : list Z; eshared : Z; evalue : list Z }.

(** The bytes of an entry; index blocks of format 4 ([vd]) leave out the length
    of the value. *)
Definition enc_entry (vd : bool) (e : entry) : list Z :=
  EncodeVarint32 (eshared e) ++ EncodeVarint32 (zlen (ekey e) - eshared e) ++
  (if vd then [] else EncodeVarint32 (zlen (evalue e))) ++
  zdrop (eshared e) (ekey e) ++ evalue e.
Definition enc_entries (vd : bool) (es : list entry) : list Z := concat (map (enc_entry vd) es).
(** The offset of entry number [i]. *)
Definition off (vd : bool) (es : list entry) (i : nat) : Z := zlen (enc_entries vd (take i es)).

(** An entry fits behind the key [prev]. *)
Definition link (prev : list Z) (e : entry) : Prop :=
  0 <= eshared e <= zlen (ekey e) /\ eshared e <= zlen prev /\
  ztake (eshared e) (ekey e) = ztake (eshared e) prev /\
  zlen (ekey e) < 2 ^ 32 /\ zlen (evalue e) < 2 ^ 32.
Fixpoint chain (prev : list Z) (es : list entry) : Prop :=
  match es with
  | [] => True
  | e :: es => link prev e /\ chain (ekey e) es
  end.
Definition last_key (prev : list Z) (es : list entry) : list Z :=
  match last es with Some e => ekey e | None => prev end.

(** Entries and restart offsets of a block whose restarts are [k] entries apart. *)
Record layout (vd : bool) (k : nat) (es : list entry) (nr : nat) : Prop := {
  layout_chain : chain [] es;
  layout_nr : (1 <= nr)%nat;
  layout_restart j e : es !! (j * k)%nat = Some e -> eshared e = 0;
  layout_nr_pos j : (j < nr)%nat -> es <> [] -> (j * k < length es)%nat;
  layout_empty : es = [] -> nr = 1%nat;
}.
Definition restart_offsets (vd : bool) (k : nat) (es : list entry) (nr : nat) : list Z :=
  map (fun j => off vd es (j * k)) (seq 0 nr).

Lemma layout_nil vd k : layout vd k [] 1.
Proof. split; [done|lia|intros j e; by rewrite lookup_nil|done|done]. Qed.

Lemma enc_entries_app vd es es' : enc_entries vd (es ++ es') = enc_entries vd es ++ enc_entries vd es'.
Proof. unfold enc_entries. by rewrite map_app, concat_app. Qed.

Lemma enc_entries_one vd e : enc_entries vd [e] = enc_entry vd e.
Proof. unfold enc_entries. simpl. apply app_nil_r. Qed.

Lemma last_key_cons prev e es : last_key prev (e :: es) = last_key (ekey e) es.
Proof. unfold last_key. rewrite last_cons. by destruct (last es). Qed.
Lemma last_key_snoc prev es e : last_key prev (es ++ [e]) = ekey e.
Proof. unfold last_key. by rewrite last_snoc. Qed.

Lemma chain_app prev es es' : chain prev (es ++ es') <-> chain prev es /\ chain (last_key prev es) es'.
Proof.
  revert prev. induction es as [|e es IH]; intros prev; cbn [app chain]; [tauto|].
  rewrite IH, last_key_cons. tauto.
Qed.

Lemma chain_snoc prev es e : chain prev (es ++ [e]) <-> chain prev es /\ link (last_key prev es) e.
Proof. rewrite chain_app. simpl. tauto. Qed.

Lemma off_app vd es es' i : (i <= length es)%nat -> off vd (es ++ es') i = off vd es i.
Proof. intros. unfold off. by rewrite take_app_le. Qed.
Lemma off_all vd es : off vd es (length es) = zlen (enc_entries vd es).
Proof. unfold off. by rewrite firstn_all. Qed.

Lemma foldl_PutFixed32 `{Port} rs buf : foldl PutFixed32 buf rs = buf ++ concat (map (le_bytes 4) rs).
Proof.
  revert buf. induction rs as [|r rs IH]; intros buf; simpl; [by rewrite app_nil_r|].
  by rewrite IH, PutFixed32_eq, <- app_assoc.
Qed.

Lemma zlen_fixed32s rs : zlen (concat (map (le_bytes 4) rs)) = 4 * zlen rs.
Proof. induction rs as [|r rs IH]; [done|]. cbn [map concat]. rewrite zlen_app, zlen_le_bytes, zlen_cons, IH. lia. Qed.

(** ** The builder keeps the layout *)

Section builder_proofs.
Context `{Port} `{DbFormat}.
Implicit Types b : BlockBuilder.t.

Lemma shared_prefix key prev :
  let s := Slice.difference_offset key prev in
  0 <= s <= zlen key /\ s <= zlen prev /\ ztake s key = ztake s prev.
Proof.
  destruct (difference_offset_spec key prev) as (p & a' & b' & -> & -> & -> & _). cbv zeta.
  rewrite !zlen_app, !ztake_app. pose proof (zlen_nonneg p); pose proof (zlen_nonneg a'); pose proof (zlen_nonneg b').
  split_and!; (done || lia).
Qed.

(** The state of a builder into which the entries [es] were added since it was
    created or reset. *)
Record binv (b : BlockBuilder.t) (es : list entry) (nr : nat) : Prop := {
  binv_interval : 1 <= BlockBuilder.block_restart_interval_ b < 2 ^ 31;
  binv_layout : layout (BlockBuilder.use_value_delta_encoding_ b)
                  (Z.to_nat (BlockBuilder.block_restart_interval_ b)) es nr;
  binv_buffer : BlockBuilder.buffer_ b = enc_entries (BlockBuilder.use_value_delta_encoding_ b) es;
  binv_restarts : BlockBuilder.restarts_ b =
    restart_offsets (BlockBuilder.use_value_delta_encoding_ b)
      (Z.to_nat (BlockBuilder.block_restart_interval_ b)) es nr;
  binv_counter : zlen es = (Z.of_nat nr - 1) * BlockBuilder.block_restart_interval_ b + BlockBuilder.counter_ b;
  binv_counter_range : 0 <= BlockBuilder.counter_ b <= BlockBuilder.block_restart_interval_ b;
  binv_nr : nr = 1%nat \/ 1 <= BlockBuilder.counter_ b;
  binv_estimate : BlockBuilder.estimate_ b = u64 (zlen (BlockBuilder.buffer_ b) + 4 * Z.of_nat nr + 4);
}.

Lemma binv_new k d vd t u : 1 <= k < 2 ^ 31 -> binv (BlockBuilder.new k d vd t u) [] 1.
Proof.
  intros Hk. split; simpl; try apply layout_nil; (done || lia).
Qed.

Lemma nat_interval j k : 0 <= k -> Z.of_nat (j * Z.to_nat k) = Z.of_nat j * k.
Proof. lia. Qed.

(** The entry [AddWithLastKeyImpl] appends. *)
Definition new_entry b (key value lk : list Z) (delta : option (list Z)) : entry :=
  let shared :=
    if BlockBuilder.counter_ b >=? BlockBuilder.block_restart_interval_ b then 0
    else if BlockBuilder.use_delta_encoding_ b then Slice.difference_offset key lk else 0 in
  Entry key shared
    (if negb (shared =? 0) && BlockBuilder.use_value_delta_encoding_ b then default [] delta else value).

Definition new_nr b (nr : nat) : nat :=
  if BlockBuilder.counter_ b >=? BlockBuilder.block_restart_interval_ b then S nr else nr.

Lemma new_entry_link b key value lk delta :
  zlen key < 2 ^ 32 -> zlen value < 2 ^ 32 -> zlen (default [] delta) < 2 ^ 32 ->
  link lk (new_entry b key value lk delta).
Proof.
  intros Hk Hv Hd. unfold new_entry, link. destruct (shared_prefix key lk) as (H1 & H2 & H3).
  pose proof (zlen_nonneg key); pose proof (zlen_nonneg lk).
  destruct (_ >=? _), (BlockBuilder.use_delta_encoding_ b); simpl; split_and!; try lia; try done;
    by destruct (_ && _).
Qed.

Lemma AddImpl_buffer b key value lk delta :
  let e := new_entry b key value lk delta in
  link lk e ->
  BlockBuilder.buffer_ (BlockBuilder.AddWithLastKeyImpl b key value lk delta (zlen (BlockBuilder.buffer_ b))) =
  BlockBuilder.buffer_ b ++ enc_entry (BlockBuilder.use_value_delta_encoding_ b) e.
Proof.
  intros e (H1 & H2 & _ & H3 & H4). unfold e, new_entry in *. clear e.
  unfold BlockBuilder.AddWithLastKeyImpl, enc_entry.
  unfold PutVarint32Varint32, PutVarint32Varint32Varint32.
  assert (HZ : forall s, 0 <= s <= zlen key -> zsub s (zlen key - s) key = zdrop s key).
  { intros s Hs. unfold zsub. rewrite <- (zlen_zdrop s key) by done. apply ztake_all. }
  destruct (_ >=? _) eqn:Ec; cbn [Z.eqb negb andb eshared ekey evalue] in *.
  - rewrite HZ, !u32_small by lia.
    destruct (BlockBuilder.use_value_delta_encoding_ b); cbn [Z.eqb negb andb] in *; rewrite <- ?app_assoc; [done|].
    by rewrite u32_small by (pose proof (zlen_nonneg value); lia).
  - set (s := if BlockBuilder.use_delta_encoding_ b then Slice.difference_offset key lk else 0) in *.
    rewrite HZ, !u32_small by lia.
    destruct (BlockBuilder.use_value_delta_encoding_ b), (s =? 0); cbn [Z.eqb negb andb] in *; rewrite <- ?app_assoc; try done.
    all: rewrite ?andb_false_r in *; by rewrite u32_small by (pose proof (zlen_nonneg value); lia).
Qed.

Lemma link_shared_0 prev prev' e : eshared e = 0 -> link prev e -> link prev' e.
Proof. intros E (H1 & H2 & H3 & H4 & H5). unfold link. rewrite E in *. pose proof (zlen_nonneg prev'). split_and!; (done || lia). Qed.

Lemma new_entry_shared_0 b es nr key value lk delta j :
  binv b es nr -> lk = last_key [] es \/ BlockBuilder.use_delta_encoding_ b = false ->
  length es = (j * Z.to_nat (BlockBuilder.block_restart_interval_ b))%nat ->
  eshared (new_entry b key value lk delta) = 0.
Proof.
  intros [B1 _ _ _ B5 B6 B7 _] Hlk Hj. unfold new_entry. simpl.
  rewrite Z.geb_leb. destruct (Z.leb_spec (BlockBuilder.block_restart_interval_ b) (BlockBuilder.counter_ b)); [done|].
  destruct (BlockBuilder.use_delta_encoding_ b) eqn:D; [|done]. destruct Hlk as [->|]; [|done].
  assert (E0 : BlockBuilder.counter_ b = 0 /\ nr = 1%nat).
  { unfold zlen in B5. rewrite Hj, nat_interval in B5 by lia.
    assert (BlockBuilder.counter_ b = 0); [|lia].
    set (k := BlockBuilder.block_restart_interval_ b) in *. set (c := BlockBuilder.counter_ b) in *.
    assert (Em : (Z.of_nat j - (Z.of_nat nr - 1)) * k = c) by lia.
    clear - Em B1 B6 H1. generalize dependent (Z.of_nat j - (Z.of_nat nr - 1)). intros m Em.
    destruct (Z.lt_trichotomy m 0) as [|[->|]]; nia. }
  destruct E0 as [E0 ->]. assert (es = []) as -> by (apply length_zero_iff_nil; unfold zlen in B5; lia).
  pose proof (shared_prefix key []) as (? & Hle & _). cbn in Hle |- *.
  change (zlen []) with 0 in Hle. lia.
Qed.

Lemma layout_snoc b es nr e :
  binv b es nr -> link (last_key [] es) e ->
  (forall j, length es = (j * Z.to_nat (BlockBuilder.block_restart_interval_ b))%nat -> eshared e = 0) ->
  layout (BlockBuilder.use_value_delta_encoding_ b) (Z.to_nat (BlockBuilder.block_restart_interval_ b))
    (es ++ [e]) (new_nr b nr).
Proof.
  intros [B1 [L1 L2 L3 L4 _] _ _ B5 B6 B7 _] Hl Hs. unfold new_nr. rewrite Z.geb_leb. split.
  - by apply chain_snoc.
  - destruct (_ <=? _); lia.
  - intros j e'. destruct (decide (j * Z.to_nat (BlockBuilder.block_restart_interval_ b) < length es)%nat).
    + rewrite lookup_app_l by done. apply L3.
    + rewrite lookup_app_r by lia. intros Hj.
      apply list_lookup_singleton_Some in Hj as [? <-]. apply (Hs j). lia.
  - intros j Hj _. rewrite length_app. simpl. unfold zlen in B5.
    apply Nat2Z.inj_lt. rewrite nat_interval by lia.
    destruct (Z.leb_spec (BlockBuilder.block_restart_interval_ b) (BlockBuilder.counter_ b)); nia.
  - intros E. by apply app_nil in E as [_ ?].
Qed.

Lemma restart_offsets_snoc b es nr e :
  binv b es nr -> zlen (BlockBuilder.buffer_ b) < 2 ^ 32 ->
  (if BlockBuilder.counter_ b >=? BlockBuilder.block_restart_interval_ b
   then BlockBuilder.restarts_ b ++ [u32 (zlen (BlockBuilder.buffer_ b))] else BlockBuilder.restarts_ b) =
  restart_offsets (BlockBuilder.use_value_delta_encoding_ b)
    (Z.to_nat (BlockBuilder.block_restart_interval_ b)) (es ++ [e]) (new_nr b nr).
Proof.
  intros [B1 [L1 L2 L3 L4 _] B3 B4 B5 B6 B7 _] Hb. unfold new_nr, restart_offsets in *. rewrite Z.geb_leb.
  set (k := BlockBuilder.block_restart_interval_ b) in *. unfold zlen in B5.
  assert (Hle : forall j, (j < nr)%nat -> (j * Z.to_nat k <= length es)%nat).
  { intros j Hj. apply Nat2Z.inj_le. rewrite nat_interval by lia. nia. }
  assert (Em : map (fun j => off (BlockBuilder.use_value_delta_encoding_ b) es (j * Z.to_nat k)) (seq 0 nr) =
               map (fun j => off (BlockBuilder.use_value_delta_encoding_ b) (es ++ [e]) (j * Z.to_nat k)) (seq 0 nr)).
  { apply map_ext_in. intros j Hj. apply in_seq in Hj. rewrite off_app by (apply Hle; lia). done. }
  destruct (Z.leb_spec k (BlockBuilder.counter_ b)); [|by rewrite B4].
  rewrite seq_S, map_app, <- Em, B4. f_equal. simpl. f_equal.
  assert (length es = (nr * Z.to_nat k)%nat) as El by (apply Nat2Z.inj; rewrite nat_interval; nia).
  rewrite <- El, off_app, off_all, <- B3 by lia.
  apply u32_small. pose proof (zlen_nonneg (BlockBuilder.buffer_ b)). lia.
Qed.

Lemma binv_AddImpl b es nr key value lk delta :
  binv b es nr -> lk = last_key [] es \/ BlockBuilder.use_delta_encoding_ b = false ->
  zlen key < 2 ^ 32 -> zlen value < 2 ^ 32 -> zlen (default [] delta) < 2 ^ 32 ->
  zlen (BlockBuilder.buffer_ b) < 2 ^ 32 ->
  binv (BlockBuilder.AddWithLastKeyImpl b key value lk delta (zlen (BlockBuilder.buffer_ b)))
    (es ++ [new_entry b key value lk delta]) (new_nr b nr).
Proof.
  intros B Hlk Hk Hv Hd Hb. pose proof (new_entry_link b key value lk delta Hk Hv Hd) as Hl.
  pose proof (AddImpl_buffer b key value lk delta Hl) as Eb.
  set (e := new_entry b key value lk delta) in *.
  assert (Hl' : link (last_key [] es) e).
  { destruct Hlk as [->|Hd0]; [done|]. apply (link_shared_0 lk); [|done].
    unfold e, new_entry. rewrite Hd0. simpl. by destruct (_ >=? _). }
  pose proof (layout_snoc b es nr e B Hl') as HL. pose proof (restart_offsets_snoc b es nr e B Hb) as HR.
  pose proof (fun j => new_entry_shared_0 b es nr key value lk delta j B Hlk) as Hsh. specialize (HL Hsh).
  destruct B as [B1 B2 B3 B4 B5 B6 B7 B8].
  revert Eb HL HR. unfold BlockBuilder.AddWithLastKeyImpl, new_nr. rewrite Z.geb_leb.
  destruct (Z.leb_spec (BlockBuilder.block_restart_interval_ b) (BlockBuilder.counter_ b)) as [Hc|Hc];
    intros Eb HL HR; (split; [exact B1|exact HL|..]; cbn [BlockBuilder.buffer_ BlockBuilder.restarts_
      BlockBuilder.counter_ BlockBuilder.estimate_ BlockBuilder.block_restart_interval_
      BlockBuilder.use_value_delta_encoding_] in *).
  all: try (rewrite enc_entries_app, enc_entries_one, <- B3; exact Eb).
  all: try exact HR.
  all: try (rewrite zlen_app; unfold zlen at 2; simpl; lia).
  all: try lia.
  all: rewrite Eb, zlen_app, B8; unfold u64; rewrite ?Zplus_mod_idemp_l, <- ?Z.add_assoc, ?Zplus_mod_idemp_l; f_equal; lia.
Qed.
(** *** Sequences of additions *)

(** Keys with their values and delta values, added one by one. *)
Fixpoint AddAll b (kvs : list (list Z * list Z * option (list Z))) : BlockBuilder.t :=
  match kvs with
  | [] => b
  | (key, value, delta) :: kvs => AddAll (BlockBuilder.Add b key value delta) kvs
  end.
(** The same through [AddWithLastKey], each call given the key before. *)
Fixpoint AddAllWithLastKey b (lk : list Z) (kvs : list (list Z * list Z * option (list Z))) : BlockBuilder.t :=
  match kvs with
  | [] => b
  | (key, value, delta) :: kvs => AddAllWithLastKey (BlockBuilder.AddWithLastKey b key value lk delta) key kvs
  end.

Lemma AddImpl_set_last_key b k key value lk delta n :
  BlockBuilder.AddWithLastKeyImpl (BlockBuilder.set_last_key k b) key value lk delta n =
  BlockBuilder.set_last_key k (BlockBuilder.AddWithLastKeyImpl b key value lk delta n).
Proof.
  unfold BlockBuilder.AddWithLastKeyImpl, BlockBuilder.set_last_key. simpl.
  by destruct (_ >=? _).
Qed.

Lemma AddImpl_last_key_irrelevant b key value lk lk' delta n :
  BlockBuilder.use_delta_encoding_ b = false ->
  BlockBuilder.AddWithLastKeyImpl b key value lk delta n = BlockBuilder.AddWithLastKeyImpl b key value lk' delta n.
Proof. intros E. unfold BlockBuilder.AddWithLastKeyImpl. by rewrite E. Qed.

(** The assertion of [AddWithLastKey]: the buffer is at least as long as the last
    key added to it. *)
Lemma AddImpl_buffer_ge b key value lk delta :
  zlen lk <= zlen (BlockBuilder.buffer_ b) ->
  zlen key <= zlen (BlockBuilder.buffer_
    (BlockBuilder.AddWithLastKeyImpl b key value lk delta (zlen (BlockBuilder.buffer_ b)))).
Proof.
  intros Hlk. unfold BlockBuilder.AddWithLastKeyImpl. pose proof (shared_prefix key lk) as (H1 & H2 & _).
  set (s := Slice.difference_offset key lk) in *. pose proof (zlen_nonneg (BlockBuilder.buffer_ b)).
  assert (G : forall sh, 0 <= sh <= zlen key -> sh <= zlen (BlockBuilder.buffer_ b) ->
    zlen key <= zlen ((if BlockBuilder.use_value_delta_encoding_ b
      then PutVarint32Varint32 (BlockBuilder.buffer_ b) (u32 sh) (u32 (zlen key - sh))
      else PutVarint32Varint32Varint32 (BlockBuilder.buffer_ b) (u32 sh) (u32 (zlen key - sh)) (u32 (zlen value)))
      ++ zsub sh (zlen key - sh) key)).
  { intros sh Hs Hs'. unfold PutVarint32Varint32, PutVarint32Varint32Varint32.
    destruct (BlockBuilder.use_value_delta_encoding_ b); rewrite !zlen_app, zlen_zsub by lia;
      pose proof (zlen_nonneg (EncodeVarint32 (u32 sh)));
      pose proof (zlen_nonneg (EncodeVarint32 (u32 (zlen key - sh))));
      try pose proof (zlen_nonneg (EncodeVarint32 (u32 (zlen value)))); lia. }
  pose proof (zlen_nonneg key).
  destruct (_ >=? _); [|destruct (BlockBuilder.use_delta_encoding_ b)]; cbn [BlockBuilder.buffer_];
    destruct (_ && _); (eapply Z.le_trans; [|apply zlen_app_ge]); apply G; lia.
Qed.

Lemma AddImpl_use_delta b key value lk delta n :
  BlockBuilder.use_delta_encoding_ (BlockBuilder.AddWithLastKeyImpl b key value lk delta n) =
  BlockBuilder.use_delta_encoding_ b.
Proof. unfold BlockBuilder.AddWithLastKeyImpl. by destruct (_ >=? _). Qed.

Lemma AddAll_equiv b b' lk kvs :
  BlockBuilder.set_last_key [] b = BlockBuilder.set_last_key [] b' ->
  zlen lk <= zlen (BlockBuilder.buffer_ b) ->
  BlockBuilder.last_key_ b' = lk \/ BlockBuilder.use_delta_encoding_ b' = false ->
  BlockBuilder.set_last_key [] (AddAllWithLastKey b lk kvs) = BlockBuilder.set_last_key [] (AddAll b' kvs).
Proof.
  revert b b' lk. induction kvs as [|[[key value] delta] kvs IH]; intros b b' lk E Hlk Hl; [done|].
  cbn [AddAll AddAllWithLastKey].
  assert (Eb : BlockBuilder.buffer_ b = BlockBuilder.buffer_ b')
    by (apply (f_equal BlockBuilder.buffer_) in E; exact E).
  assert (Ed : BlockBuilder.use_delta_encoding_ b = BlockBuilder.use_delta_encoding_ b')
    by (apply (f_equal BlockBuilder.use_delta_encoding_) in E; exact E).
  assert (EI : BlockBuilder.set_last_key [] (BlockBuilder.AddWithLastKey b key value lk delta) =
          BlockBuilder.set_last_key []
            (BlockBuilder.AddWithLastKeyImpl b' key value (BlockBuilder.last_key_ b') delta (zlen (BlockBuilder.buffer_ b')))).
  { unfold BlockBuilder.AddWithLastKey. rewrite Z.min_r, ztake_all, <- AddImpl_set_last_key, E, Eb by done.
    rewrite AddImpl_set_last_key. destruct Hl as [->|Hd]; [done|]. f_equal. by apply AddImpl_last_key_irrelevant. }
  apply IH.
  - rewrite EI. unfold BlockBuilder.Add. rewrite AddImpl_use_delta. by destruct (BlockBuilder.use_delta_encoding_ b').
  - unfold BlockBuilder.AddWithLastKey. rewrite Z.min_r, ztake_all by done. by apply AddImpl_buffer_ge.
  - unfold BlockBuilder.Add. rewrite AddImpl_use_delta.
    destruct (BlockBuilder.use_delta_encoding_ b') eqn:D; [by left|right]. by rewrite AddImpl_use_delta.
Qed.

(** *** What a sequence of additions leaves in the builder *)

(** The hash builder, while valid, has one pair per entry: its user key and the
    number of the restart interval it is in. *)
Definition hash_keys (k : nat) (es : list entry) : list (list Z * Z) :=
  imap (fun i e => (ExtractUserKey (ekey e), Z.of_nat (i / k))) es.
Definition hinv b (es : list entry) : Prop :=
  DataBlockHashIndexBuilder.Valid (BlockBuilder.hash_builder_ b) = true ->
  added (BlockBuilder.hash_builder_ b) (hash_keys (Z.to_nat (BlockBuilder.block_restart_interval_ b)) es).

(** Everything known of a builder after additions. *)
Record bstate b (es : list entry) (nr : nat) : Prop := {
  bstate_inv : binv b es nr;
  bstate_last : BlockBuilder.last_key_ b = last_key [] es \/ BlockBuilder.use_delta_encoding_ b = false;
  bstate_hash : hinv b es;
}.

Lemma bstate_new k d vd t u : 1 <= k < 2 ^ 31 -> bstate (BlockBuilder.new k d vd t u) [] 1.
Proof.
  intros Hk. split; [by apply binv_new|by left|]. intros _. simpl.
  by destruct t; (split; [done|constructor]).
Qed.

Lemma bstate_Reset b es nr : bstate b es nr -> bstate (BlockBuilder.Reset b) [] 1.
Proof.
  intros [B _ HB]. destruct B as [B1 [_ L2 _ _ _] _ B4 _ _ _ _].
  assert (E : take 1 (BlockBuilder.restarts_ b) = [0]).
  { rewrite B4. unfold restart_offsets. destruct nr as [|nr]; [lia|]. done. }
  split; [split; simpl; try apply layout_nil; (done || lia)|by left|].
  - intros V. simpl in *. destruct (DataBlockHashIndexBuilder.Valid (BlockBuilder.hash_builder_ b)) eqn:E';
      [by split; [|constructor]|by rewrite E' in V].
Qed.

Lemma AddImpl_config b key value lk delta n :
  let b' := BlockBuilder.AddWithLastKeyImpl b key value lk delta n in
  BlockBuilder.block_restart_interval_ b' = BlockBuilder.block_restart_interval_ b /\
  BlockBuilder.use_value_delta_encoding_ b' = BlockBuilder.use_value_delta_encoding_ b.
Proof. unfold BlockBuilder.AddWithLastKeyImpl. by destruct (_ >=? _). Qed.

Lemma div_interval n nr k c : 1 <= k -> n = (nr - 1) * k + c -> 0 <= c <= k ->
  n / k = (if c >=? k then nr + 1 else nr) - 1.
Proof.
  intros Hk -> Hc. rewrite Z.geb_leb. destruct (Z.leb_spec k c).
  - replace ((nr - 1) * k + c) with (nr * k) by lia. rewrite Z.div_mul by lia. lia.
  - rewrite Z.div_add_l, Z.div_small by lia. lia.
Qed.

Lemma hinv_AddImpl b es nr key value lk delta :
  binv b es nr -> hinv b es ->
  hinv (BlockBuilder.AddWithLastKeyImpl b key value lk delta (zlen (BlockBuilder.buffer_ b)))
    (es ++ [new_entry b key value lk delta]).
Proof.
  intros [B1 B2 B3 B4 B5 B6 B7 _] HB. unfold hinv in *. rewrite (proj1 (AddImpl_config _ _ _ _ _ _)).
  set (k := BlockBuilder.block_restart_interval_ b) in *.
  set (e := new_entry b key value lk delta).
  assert (Ek : hash_keys (Z.to_nat k) (es ++ [e]) =
               hash_keys (Z.to_nat k) es ++ [(ExtractUserKey key, zlen es / k)]).
  { unfold hash_keys. rewrite imap_app. simpl. do 3 f_equal. rewrite Nat.add_0_r, Nat2Z.inj_div, Z2Nat.id by lia. done. }
  rewrite Ek. set (r := zlen es / k).
  assert (Er : zlen (if BlockBuilder.counter_ b >=? k then BlockBuilder.restarts_ b ++
                 [u32 (zlen (BlockBuilder.buffer_ b))] else BlockBuilder.restarts_ b) - 1 = r).
  { unfold r. rewrite (div_interval _ _ k _ (proj1 B1) B5 B6). rewrite B4.
    assert (zlen (restart_offsets (BlockBuilder.use_value_delta_encoding_ b) (Z.to_nat k) es nr) = Z.of_nat nr) as El
      by (unfold zlen, restart_offsets; rewrite length_map, length_seq; done).
    destruct (_ >=? _); rewrite ?zlen_app, El; unfold zlen; simpl; lia. }
  assert (Hr : 0 <= r) by (apply Z.div_pos; [apply zlen_nonneg|lia]).
  unfold BlockBuilder.AddWithLastKeyImpl. fold k.
  assert (G : DataBlockHashIndexBuilder.Valid (if DataBlockHashIndexBuilder.Valid (BlockBuilder.hash_builder_ b)
            then DataBlockHashIndexBuilder.Add (ExtractUserKey key) r (BlockBuilder.hash_builder_ b)
            else BlockBuilder.hash_builder_ b) = true ->
          added (if DataBlockHashIndexBuilder.Valid (BlockBuilder.hash_builder_ b)
            then DataBlockHashIndexBuilder.Add (ExtractUserKey key) r (BlockBuilder.hash_builder_ b)
            else BlockBuilder.hash_builder_ b) (hash_keys (Z.to_nat k) es ++ [(ExtractUserKey key, r)])).
  { destruct (DataBlockHashIndexBuilder.Valid (BlockBuilder.hash_builder_ b)) eqn:V; [|by rewrite V].
    specialize (HB eq_refl). intros V'. apply Add_added; [|done]. split; [done|].
    unfold DataBlockHashIndexBuilder.Add in V'. rewrite Z.gtb_ltb in V'.
    destruct (Z.ltb_spec kMaxRestartSupportedByHashIndex r); [done|lia]. }
  destruct (BlockBuilder.counter_ b >=? k); cbn [BlockBuilder.hash_builder_ BlockBuilder.block_restart_interval_];
    rewrite Er; exact G.
Qed.

Lemma binv_set_last_key b es nr k : binv b es nr -> binv (BlockBuilder.set_last_key k b) es nr.
Proof. intros [? ? ? ? ? ? ? ?]. by split. Qed.

(** Inputs whose sizes fit the 32-bit fields of the format. *)
Definition kv_fits (kv : list Z * list Z * option (list Z)) : Prop :=
  let '(key, value, delta) := kv in
  zlen key < 2 ^ 32 /\ zlen value < 2 ^ 32 /\ zlen (default [] delta) < 2 ^ 32.

Lemma bstate_Add b es nr key value delta :
  bstate b es nr -> kv_fits (key, value, delta) -> zlen (BlockBuilder.buffer_ b) < 2 ^ 32 ->
  bstate (BlockBuilder.Add b key value delta)
    (es ++ [new_entry b key value (BlockBuilder.last_key_ b) delta]) (new_nr b nr).
Proof.
  intros [B L HB] (Hk & Hv & Hd) Hb. unfold BlockBuilder.Add.
  pose proof (binv_AddImpl b es nr key value _ delta B L Hk Hv Hd Hb) as B'.
  pose proof (hinv_AddImpl b es nr key value (BlockBuilder.last_key_ b) delta B HB) as H'.
  rewrite AddImpl_use_delta. destruct (BlockBuilder.use_delta_encoding_ b) eqn:D; split.
  - by apply binv_set_last_key.
  - left. simpl. by rewrite last_key_snoc.
  - exact H'.
  - done.
  - right. by rewrite AddImpl_use_delta.
  - done.
Qed.

Lemma Add_buffer b key value delta :
  kv_fits (key, value, delta) -> exists bytes,
  BlockBuilder.buffer_ (BlockBuilder.Add b key value delta) = BlockBuilder.buffer_ b ++ bytes.
Proof.
  intros (Hk & Hv & Hd). eexists. unfold BlockBuilder.Add.
  rewrite AddImpl_use_delta. transitivity (BlockBuilder.buffer_ (BlockBuilder.AddWithLastKeyImpl b key value
    (BlockBuilder.last_key_ b) delta (zlen (BlockBuilder.buffer_ b)))); [by destruct (BlockBuilder.use_delta_encoding_ b)|].
  apply AddImpl_buffer. by apply new_entry_link.
Qed.

Lemma AddAll_buffer b kvs : Forall kv_fits kvs ->
  zlen (BlockBuilder.buffer_ b) <= zlen (BlockBuilder.buffer_ (AddAll b kvs)).
Proof.
  intros Hf. revert b. induction Hf as [|[[key value] delta] kvs Hkv Hf IH]; intros b; cbn [AddAll]; [done|].
  destruct (Add_buffer b key value delta Hkv) as [bytes E]. specialize (IH (BlockBuilder.Add b key value delta)).
  rewrite E, zlen_app in IH. pose proof (zlen_nonneg bytes). lia.
Qed.

Lemma Add_config b key value delta :
  BlockBuilder.use_value_delta_encoding_ (BlockBuilder.Add b key value delta) =
    BlockBuilder.use_value_delta_encoding_ b /\
  BlockBuilder.block_restart_interval_ (BlockBuilder.Add b key value delta) =
    BlockBuilder.block_restart_interval_ b.
Proof.
  unfold BlockBuilder.Add. destruct (AddImpl_config b key value (BlockBuilder.last_key_ b) delta
    (zlen (BlockBuilder.buffer_ b))) as [E1 E2].
  destruct (BlockBuilder.use_delta_encoding_ _); simpl; by rewrite E1, E2.
Qed.

(** The entries correspond one to one to the additions; without value deltas
    their values are the values added. *)
Lemma bstate_AddAll b es nr kvs :
  bstate b es nr -> Forall kv_fits kvs -> zlen (BlockBuilder.buffer_ (AddAll b kvs)) < 2 ^ 32 ->
  exists es' nr',
    bstate (AddAll b kvs) (es ++ es') nr' /\
    map ekey es' = map (fun kv => kv.1.1) kvs /\
    (BlockBuilder.use_value_delta_encoding_ b = false -> map evalue es' = map (fun kv => kv.1.2) kvs) /\
    BlockBuilder.use_value_delta_encoding_ (AddAll b kvs) = BlockBuilder.use_value_delta_encoding_ b /\
    BlockBuilder.block_restart_interval_ (AddAll b kvs) = BlockBuilder.block_restart_interval_ b.
Proof.
  intros HB Hf. revert b es nr HB. induction Hf as [|[[key value] delta] kvs Hkv Hf IH];
    intros b es nr HB Hsz; cbn [AddAll] in *.
  - exists [], nr. by rewrite app_nil_r.
  - pose proof (AddAll_buffer (BlockBuilder.Add b key value delta) kvs Hf) as Hm.
    destruct (Add_buffer b key value delta Hkv) as [bytes E].
    assert (zlen (BlockBuilder.buffer_ b) < 2 ^ 32)
      by (rewrite E, zlen_app in Hm; pose proof (zlen_nonneg bytes); lia).
    pose proof (bstate_Add b es nr key value delta HB Hkv ltac:(done)) as HB'.
    destruct (Add_config b key value delta) as [C1 C2].
    set (e := new_entry b key value (BlockBuilder.last_key_ b) delta) in *.
    destruct (IH _ _ _ HB' Hsz) as (es' & nr' & Q1 & Q2 & Q3 & Q4 & Q5).
    exists (e :: es'), nr'. rewrite <- app_assoc in Q1. rewrite C1, C2 in *. split_and!; try done.
    + simpl. by rewrite Q2.
    + intros V. cbn [map]. rewrite Q3 by done. f_equal. unfold e, new_entry. simpl. by rewrite V, andb_false_r.
Qed.

(** The bytes [Finish] returns. *)
Lemma Finish_bytes b es nr :
  bstate b es nr -> Z.of_nat nr < 2 ^ 31 ->
  let body := enc_entries (BlockBuilder.use_value_delta_encoding_ b) es ++
    concat (map (le_bytes 4) (restart_offsets (BlockBuilder.use_value_delta_encoding_ b)
      (Z.to_nat (BlockBuilder.block_restart_interval_ b)) es nr)) in
  let hashed := DataBlockHashIndexBuilder.Valid (BlockBuilder.hash_builder_ b) &&
    (BlockBuilder.CurrentSizeEstimate b <=? kMaxBlockSizeSupportedByHashIndex) in
  fst (BlockBuilder.Finish b) =
    (if hashed then DataBlockHashIndexBuilder.Finish (BlockBuilder.hash_builder_ b) body else body) ++
    le_bytes 4 (PackIndexTypeAndNumRestarts
      (if hashed then kDataBlockBinaryAndHash else kDataBlockBinarySearch) (Z.of_nat nr)).
Proof.
  intros [[B1 B2 B3 B4 B5 B6 B7 B8] _ _] Hn body hashed. unfold BlockBuilder.Finish.
  rewrite foldl_PutFixed32, B3, B4. fold body. fold hashed.
  assert (zlen (restart_offsets (BlockBuilder.use_value_delta_encoding_ b)
    (Z.to_nat (BlockBuilder.block_restart_interval_ b)) es nr) = Z.of_nat nr) as ->
      by (unfold zlen, restart_offsets; rewrite length_map, length_seq; done).
  rewrite u32_small by lia. by destruct hashed; simpl; rewrite PutFixed32_eq.
Qed.

(** [AddWithLastKey] is equivalent to [Add]: starting from an empty builder,
    with each call given the previously added key (and anything at all on the
    first call), both leave the same state up to the cached last key. *)
Theorem add_with_last_key_equiv b (first : list Z) (kvs : list (list Z * list Z * option (list Z))) :
  BlockBuilder.buffer_ b = [] -> BlockBuilder.last_key_ b = [] ->
  BlockBuilder.set_last_key [] (AddAllWithLastKey b first kvs) = BlockBuilder.set_last_key [] (AddAll b kvs).
Proof.
  intros Eb El. destruct kvs as [|[[key value] delta] kvs]; [done|]. cbn [AddAllWithLastKey].
  assert (E : BlockBuilder.AddWithLastKey b key value first delta = BlockBuilder.AddWithLastKey b key value [] delta).
  { unfold BlockBuilder.AddWithLastKey. rewrite Eb. change (zlen []) with 0.
    pose proof (zlen_nonneg first). by rewrite !Z.min_l, !ztake_0 by lia. }
  rewrite E. apply (AddAll_equiv b b [] ((key, value, delta) :: kvs)); [done|rewrite Eb; done|by left].
Qed.
(** The buffer is a prefix of the finished block. *)
Lemma Finish_buffer b : exists rest, fst (BlockBuilder.Finish b) = BlockBuilder.buffer_ b ++ rest.
Proof.
  unfold BlockBuilder.Finish. rewrite foldl_PutFixed32. cbn [fst].
  destruct (_ && _); [|rewrite PutFixed32_eq, <- app_assoc; by eexists].
  destruct (Finish_eq (BlockBuilder.hash_builder_ b)
    (BlockBuilder.buffer_ b ++ concat (map (le_bytes 4) (BlockBuilder.restarts_ b)))) as (bk & -> & _).
  rewrite PutFixed32_eq, <- !app_assoc. by eexists.
Qed.

(** The size of a finished block. *)
Lemma zlen_Finished b es nr : bstate b es nr -> zlen (BlockBuilder.buffer_ b) < 2 ^ 32 -> Z.of_nat nr < 2 ^ 31 ->
  let valid := DataBlockHashIndexBuilder.Valid (BlockBuilder.hash_builder_ b) in
  zlen (fst (BlockBuilder.Finish b)) =
    if valid && (BlockBuilder.CurrentSizeEstimate b >? kMaxBlockSizeSupportedByHashIndex)
    then BlockBuilder.CurrentSizeEstimate b - DataBlockHashIndexBuilder.EstimateSize (BlockBuilder.hash_builder_ b)
    else BlockBuilder.CurrentSizeEstimate b.
Proof.
  intros HB Hb Hnr valid. pose proof HB as [[B1 [_ L2 _ L4 _] B3 B4 B5 B6 B7 B8] _ _].
  rewrite (Finish_bytes b es nr HB Hnr). fold valid. rewrite zlen_app, zlen_le_bytes.
  assert (Hbody : forall rs, zlen rs = Z.of_nat nr ->
    zlen (BlockBuilder.buffer_ b ++ concat (map (le_bytes 4) rs)) = zlen (BlockBuilder.buffer_ b) + 4 * Z.of_nat nr).
  { intros rs Hrs. by rewrite zlen_app, zlen_fixed32s, Hrs. }
  unfold BlockBuilder.CurrentSizeEstimate. fold valid. rewrite B8, <- B3.
  pose proof (zlen_nonneg (BlockBuilder.buffer_ b)). rewrite (u64_small (_ + 4)) by lia.
  pose proof (num_buckets_range (BlockBuilder.hash_builder_ b)) as Hnb.
  pose proof (EstimateSize_eq (BlockBuilder.hash_builder_ b)) as He.
  rewrite u64_small by (destruct valid; lia). rewrite Z.gtb_ltb.
  assert (Hro : zlen (restart_offsets (BlockBuilder.use_value_delta_encoding_ b)
    (Z.to_nat (BlockBuilder.block_restart_interval_ b)) es nr) = Z.of_nat nr)
    by (unfold zlen, restart_offsets; by rewrite length_map, length_seq).
  destruct valid; cbn [andb]; [|rewrite Hbody by done; lia].
  destruct (Z.leb_spec (zlen (BlockBuilder.buffer_ b) + 4 * Z.of_nat nr + 4 +
    DataBlockHashIndexBuilder.EstimateSize (BlockBuilder.hash_builder_ b)) kMaxBlockSizeSupportedByHashIndex).
  - rewrite (proj2 (Z.ltb_ge _ _)), zlen_Finish, Hbody by done. lia.
  - rewrite (proj2 (Z.ltb_lt _ _)), Hbody by done. lia.
Qed.

(** [CurrentSizeEstimate] is exact: after any additions, the block [Finish]
    returns has exactly the announced size, unless the hash index had to be
    dropped because the block exceeds 64 KiB, when it has the size announced
    without the index. *)
Theorem finish_size (k : Z) (d vd : bool) (t : DataBlockIndexType) (u : spec_float)
    (kvs : list (list Z * list Z * option (list Z))) :
  1 <= k < 2 ^ 31 -> Forall kv_fits kvs ->
  let b := AddAll (BlockBuilder.new k d vd t u) kvs in
  zlen (BlockBuilder.buffer_ b) < 2 ^ 32 -> zlen kvs < 2 ^ 31 - 1 ->
  let valid := DataBlockHashIndexBuilder.Valid (BlockBuilder.hash_builder_ b) in
  zlen (fst (BlockBuilder.Finish b)) =
    if valid && (BlockBuilder.CurrentSizeEstimate b >? kMaxBlockSizeSupportedByHashIndex)
    then BlockBuilder.CurrentSizeEstimate b - DataBlockHashIndexBuilder.EstimateSize (BlockBuilder.hash_builder_ b)
    else BlockBuilder.CurrentSizeEstimate b.
Proof.
  intros Hk Hf b Hb Hn valid.
  destruct (bstate_AddAll _ [] 1 kvs (bstate_new k d vd t u Hk) Hf Hb) as (es & nr & HB & E1 & _).
  fold b in HB. cbn [app] in HB. pose proof HB as [[B1 [_ L2 _ _ _] _ _ B5 B6 B7 _] _ _].
  assert (El : zlen es = zlen kvs) by (apply (f_equal length) in E1; rewrite !length_map in E1; unfold zlen; lia).
  assert (Hnr : Z.of_nat nr < 2 ^ 31).
  { pose proof (zlen_nonneg kvs). nia. }
  by apply (zlen_Finished b es nr).
Qed.
End builder_proofs.

Lemma add_with_last_key_equiv_witness :
  let b := BlockBuilder.new 2 true false kDataBlockBinarySearch kDefaultUtilRatio in
  let kvs := [([97; 98], [1], None); ([97; 99], [2], None); ([98], [3], None)] in
  BlockBuilder.set_last_key [] (@AddAllWithLastKey le_port Concrete.format b [9; 9] kvs) =
  BlockBuilder.set_last_key [] (@AddAll le_port Concrete.format b kvs).
Proof. apply (@add_with_last_key_equiv le_port Concrete.format); reflexivity. Defined.

Lemma finish_size_witness :
  let kvs := [([97; 98], [1], None); ([97; 99], [2], None); ([98], [3], None)] in
  let b := @AddAll le_port Concrete.format
             (BlockBuilder.new 2 true false kDataBlockBinaryAndHash kDefaultUtilRatio) kvs in
  BlockBuilder.CurrentSizeEstimate b = 35 /\ zlen (fst (@BlockBuilder.Finish le_port b)) = 35.
Proof.
  split; [vm_compute; reflexivity|].
  rewrite (@finish_size le_port Concrete.format 2 true false kDataBlockBinaryAndHash kDefaultUtilRatio
            [([97; 98], [1], None); ([97; 99], [2], None); ([98], [3], None)]).
  - vm_compute. reflexivity.
  - lia.
  - repeat constructor.
  - vm_compute. reflexivity.
  - vm_compute. reflexivity.
Defined.
