(* ===== verification/BlockIter.v ===== *)
(** * Reading blocks (table/block_based/block.h, block.cc): the definitions

    [Block] parses the trailer of a block; [BlockIter] is the state shared by
    the three iterators; [MetaBlockIter] and [DataBlockIter] are iterators over
    it. Offsets into the block stand for pointers: [value_] is an offset and a
    size. Assertions are not modelled (release builds). The read-amplification
    bitmap, a statistic, is left out.

    The code of the three iterators repeats the same loops around the parsing
    function of the class; those loops are written once here, over the
    interface [IterClass] that names the class's parsing function. *)

From stdpp Require Import prelude.
From Stdlib Require Import ZArith Lia Bool.
From S2P Require Import Prelude Coding Comparator Hash Status DbFormat BlockHashIndex.

(** ** Decoding an entry

    The decoders take the offset [p] of an entry and the offset [limit] of the
    restart array and return (shared, non_shared, value_length, offset of the
    key bytes), or [None] for [nullptr]. *)

Definition range (data : list Z) (p limit : Z) : list Z := zsub p (limit - p) data.

(** The slow path: three varints. *)
Definition three_varints (data : list Z) (p limit : Z) : option (Z * Z * Z * Z) :=
  match GetVarint32Ptr (range data p limit) with
  | None => None
  | Some (shared, q) =>
      match GetVarint32Ptr q with
      | None => None
      | Some (non_shared, q) =>
          match GetVarint32Ptr q with
          | None => None
          | Some (value_length, q) => Some (shared, non_shared, value_length, limit - zlen q)
          end
      end
  end.

Definition DecodeEntry (data : list Z) (p limit : Z) : option (Z * Z * Z * Z) :=
  let shared := byte_at data p in
  let non_shared := byte_at data (p + 1) in
  let value_length := byte_at data (p + 2) in
  if Z.lor (Z.lor shared non_shared) value_length <? 128
  then Some (shared, non_shared, value_length, p + 3)
  else three_varints data p limit.

Definition CheckAndDecodeEntry (data : list Z) (p limit : Z) : option (Z * Z * Z * Z) :=
  if limit - p <? 3 then None
  else
    let shared := byte_at data p in
    let non_shared := byte_at data (p + 1) in
    let value_length := byte_at data (p + 2) in
    match
      (if Z.lor (Z.lor shared non_shared) value_length <? 128
       then Some (shared, non_shared, value_length, p + 3)
       else three_varints data p limit)
    with
    | None => None
    | Some (shared, non_shared, value_length, p) =>
        if u32 (limit - p) <? u32 (non_shared + value_length) then None
        else Some (shared, non_shared, value_length, p)
    end.

Definition DecodeKey (data : list Z) (p limit : Z) : option (Z * Z * Z) :=
  match DecodeEntry data p limit with
  | Some (shared, non_shared, _, p) => Some (shared, non_shared, p)
  | None => None
  end.

Definition DecodeKeyV4 (data : list Z) (p limit : Z) : option (Z * Z * Z) :=
  if limit - p <? 3 then None
  else
    let shared := byte_at data p in
    let non_shared := byte_at data (p + 1) in
    if Z.lor shared non_shared <? 128 then Some (shared, non_shared, p + 2)
    else
      match GetVarint32Ptr (range data p limit) with
      | None => None
      | Some (shared, q) =>
          match GetVarint32Ptr q with
          | None => None
          | Some (non_shared, q) => Some (shared, non_shared, limit - zlen q)
          end
      end.

Definition DecodeEntryV4 (data : list Z) (p limit : Z) : option (Z * Z * Z * Z) :=
  match DecodeKeyV4 data p limit with
  | Some (shared, non_shared, p) => Some (shared, non_shared, 0, p)
  | None => None
  end.

(** ** [BlockIter] *)

(** Where an emptied [Slice] points: the static empty string, at some distance
    from the block. *)
Class EmptySlice := { empty_slice_off : Z }.

Module BlockIter.
Section iter.
Context `{Port} `{DbFormat} `{IterKeyOps} `{EmptySlice}.

Record t := mk {
  icmp_ : list Z -> list Z -> Z;
  data_ : option (list Z);
  num_restarts_ : Z;
  restart_index_ : Z;
  restarts_ : Z;
  current_ : Z;
  raw_key_ : IterKey;
  key_buf_ : IterKey;
  value_ : Z * Z;
  status_ : Status;
  key_ : list Z;
  key_pinned_ : bool;
  block_contents_pinned_ : bool;
  global_seqno_ : Z;
}.

Definition set_pos (current restart_index : Z) (it : t) : t :=
  mk (icmp_ it) (data_ it) (num_restarts_ it) restart_index (restarts_ it) current (raw_key_ it)
    (key_buf_ it) (value_ it) (status_ it) (key_ it) (key_pinned_ it) (block_contents_pinned_ it)
    (global_seqno_ it).
Definition set_entry (key : IterKey) (value : Z * Z) (it : t) : t :=
  mk (icmp_ it) (data_ it) (num_restarts_ it) (restart_index_ it) (restarts_ it) (current_ it) key
    (key_buf_ it) value (status_ it) (key_ it) (key_pinned_ it) (block_contents_pinned_ it)
    (global_seqno_ it).
Definition set_status (s : Status) (it : t) : t :=
  mk (icmp_ it) (data_ it) (num_restarts_ it) (restart_index_ it) (restarts_ it) (current_ it)
    (raw_key_ it) (key_buf_ it) (value_ it) s (key_ it) (key_pinned_ it) (block_contents_pinned_ it)
    (global_seqno_ it).
Definition set_user_key (kb : IterKey) (key : list Z) (pinned : bool) (it : t) : t :=
  mk (icmp_ it) (data_ it) (num_restarts_ it) (restart_index_ it) (restarts_ it) (current_ it)
    (raw_key_ it) kb (value_ it) (status_ it) key pinned (block_contents_pinned_ it)
    (global_seqno_ it).

Definition bytes (it : t) : list Z := default [] (data_ it).

Definition Valid (it : t) : bool := current_ it <? restarts_ it.

Definition Invalidate (s : Status) (it : t) : t :=
  mk (icmp_ it) None (num_restarts_ it) (restart_index_ it) (restarts_ it) (restarts_ it) (raw_key_ it)
    (key_buf_ it) (value_ it) s (key_ it) (key_pinned_ it) (block_contents_pinned_ it) (global_seqno_ it).

Definition InitializeBase (raw_ucmp : list Z -> list Z -> Z) (data : list Z) (restarts num_restarts : Z)
    (global_seqno : Z) (block_contents_pinned : bool) (it : t) : t :=
  mk raw_ucmp (Some data) num_restarts num_restarts restarts restarts (raw_key_ it) (key_buf_ it)
    (value_ it) (status_ it) (key_ it) (key_pinned_ it) block_contents_pinned global_seqno.

Definition NextEntryOffset (it : t) : Z := u32 (fst (value_ it) + snd (value_ it)).

Definition GetRestartPoint (index : Z) (it : t) : Z :=
  DecodeFixed32 (zdrop (restarts_ it + index * 4) (bytes it)).

Definition SeekToRestartPoint (index : Z) (it : t) : t :=
  let it := set_pos (current_ it) index (set_entry (Clear (raw_key_ it)) (value_ it) it) in
  let offset := GetRestartPoint index it in
  set_entry (raw_key_ it) (offset, 0) it.

Definition CorruptionError (it : t) : t :=
  set_status St.Corruption
    (set_entry (Clear (raw_key_ it)) (empty_slice_off, 0) (set_pos (restarts_ it) (num_restarts_ it) it)).

(** [CompareCurrentKey]; the user key of an internal key is cut out of it. *)
Definition GetUserKey (k : IterKey) : list Z :=
  if IsUserKey k then GetKey k else ExtractUserKey (GetKey k).
Definition CompareCurrentKey (it : t) (other : list Z) : Z :=
  if IsUserKey (raw_key_ it) then icmp_ it (GetUserKey (raw_key_ it)) other
  else if global_seqno_ it =? kDisableGlobalSequenceNumber
  then icmp_Compare (icmp_ it) (GetKey (raw_key_ it)) other
  else icmp_Compare_seqno (icmp_ it) (GetKey (raw_key_ it)) (global_seqno_ it) other
         kDisableGlobalSequenceNumber.

Definition UpdateKey (it : t) : t :=
  let kb := Clear (key_buf_ it) in
  if negb (Valid it) then set_user_key kb (key_ it) (key_pinned_ it) it
  else if IsUserKey (raw_key_ it)
  then set_user_key kb (GetUserKey (raw_key_ it)) (IsKeyPinned (raw_key_ it)) it
  else if global_seqno_ it =? kDisableGlobalSequenceNumber
  then set_user_key kb (GetKey (raw_key_ it)) (IsKeyPinned (raw_key_ it)) it
  else
    let kb := SetInternalKey kb (GetUserKey (raw_key_ it)) (global_seqno_ it)
                (ExtractValueType (GetKey (raw_key_ it))) in
    set_user_key kb (GetKey kb) false it.

(** [ParseNextKey]: whether an entry was read, whether its key shares bytes, and
    the new state. *)
Fixpoint advance_restart (fuel : nat) (it : t) : t :=
  match fuel with
  | O => it
  | S fuel =>
      if (u32 (restart_index_ it + 1) <? num_restarts_ it) &&
         (GetRestartPoint (u32 (restart_index_ it + 1)) it <? current_ it)
      then advance_restart fuel (set_pos (current_ it) (u32 (restart_index_ it + 1)) it)
      else it
  end.

Definition ParseNextKey (dec : list Z -> Z -> Z -> option (Z * Z * Z * Z)) (it : t) : bool * bool * t :=
  let it := set_pos (NextEntryOffset it) (restart_index_ it) it in
  let p := current_ it in
  let limit := restarts_ it in
  if p >=? limit then (false, false, set_pos (restarts_ it) (num_restarts_ it) it)
  else
    match dec (bytes it) p limit with
    | None => (false, false, CorruptionError it)
    | Some (shared, non_shared, value_length, p) =>
        if Size (raw_key_ it) <? shared then (false, false, CorruptionError it)
        else
          let '(is_shared, key) :=
            if shared =? 0 then (false, SetKey (raw_key_ it) (zsub p non_shared (bytes it)) false)
            else (true, TrimAppend (raw_key_ it) shared (zsub p non_shared (bytes it))) in
          let it := set_entry key (p + non_shared, value_length) it in
          let it :=
            if shared =? 0 then advance_restart (Z.to_nat (num_restarts_ it)) it else it in
          (true, is_shared, it)
    end.

(** [BinarySeek]: the result, [*index], [*skip_linear_scan] and the new state.
    The interval halves, so 33 rounds suffice for 32-bit indices. *)
Fixpoint BinarySeek_loop (fuel : nat) (dec : list Z -> Z -> Z -> option (Z * Z * Z)) (target : list Z)
    (left right : Z) (skip : bool) (it : t) : option (Z * bool) * t :=
  match fuel with
  | O => (Some (left, skip), it)
  | S fuel =>
      if left =? right then (Some (left, skip), it)
      else
        let mid := left + (right - left + 1) / 2 in
        let region_offset := GetRestartPoint (u32 mid) it in
        match dec (bytes it) region_offset (restarts_ it) with
        | None => (None, CorruptionError it)
        | Some (shared, non_shared, key_ptr) =>
            if negb (shared =? 0) then (None, CorruptionError it)
            else
              let mid_key := zsub key_ptr non_shared (bytes it) in
              let it := set_entry (SetKey (raw_key_ it) mid_key false) (value_ it) it in
              let cmp := CompareCurrentKey it target in
              if cmp <? 0 then BinarySeek_loop fuel dec target mid right skip it
              else if cmp >? 0 then BinarySeek_loop fuel dec target left (mid - 1) skip it
              else BinarySeek_loop fuel dec target mid mid true it
        end
  end.

Definition BinarySeek (dec : list Z -> Z -> Z -> option (Z * Z * Z)) (target : list Z) (it : t) :
    option (Z * bool) * t :=
  if restarts_ it =? 0 then (None, it)
  else
    match BinarySeek_loop 64 dec target (-1) (u32 (num_restarts_ it - 1)) false it with
    | (None, it) => (None, it)
    | (Some (l, skip), it) =>
        if l =? -1 then (Some (0, true), it) else (Some (u32 l, skip), it)
    end.

End iter.
End BlockIter.

(** ** The loops the iterators share

    [IterClass T]: an iterator class with state [T] that extends [BlockIter] and
    has its own parsing function ([ParseNextKey<CheckAndDecodeEntry>],
    [ParseNextDataKey] or [ParseNextIndexKey]). *)

Class IterClass `{Port} `{DbFormat} `{IterKeyOps} `{EmptySlice} (T : Type) := {
  base : T -> BlockIter.t;
  set_base : BlockIter.t -> T -> T;
  ParseNext : T -> bool * T;
}.

Section loops.
Context `{Port} `{DbFormat} `{IterKeyOps} `{EmptySlice} {T : Type} `{!IterClass T}.
Implicit Types s : T.

Definition SeekToRestartPoint (index : Z) s : T :=
  set_base (BlockIter.SeekToRestartPoint index (base s)) s.

Definition NextImpl s : T := snd (ParseNext s).

Definition SeekToFirstImpl s : T :=
  match BlockIter.data_ (base s) with
  | None => s
  | Some _ => snd (ParseNext (SeekToRestartPoint 0 s))
  end.

(** [while (ParseNext() && NextEntryOffset() < bound)]. Every entry takes at least
    one byte, so the size of the block bounds the number of rounds. *)
Fixpoint scan_until (fuel : nat) (bound : Z) s : T :=
  match fuel with
  | O => s
  | S fuel =>
      let '(ok, s) := ParseNext s in
      if ok && (BlockIter.NextEntryOffset (base s) <? bound) then scan_until fuel bound s else s
  end.
Definition scan_fuel s : nat := Z.to_nat (BlockIter.restarts_ (base s) + 2).

Definition SeekToLastImpl s : T :=
  match BlockIter.data_ (base s) with
  | None => s
  | Some _ =>
      let s := SeekToRestartPoint (u32 (BlockIter.num_restarts_ (base s) - 1)) s in
      scan_until (scan_fuel s) (BlockIter.restarts_ (base s)) s
  end.

(** The first loop of [PrevImpl]: the last restart point before [original], or
    [None] when there is none and the iterator is exhausted. *)
Fixpoint restart_before (fuel : nat) (original : Z) (it : BlockIter.t) : option Z :=
  match fuel with
  | O => None
  | S fuel =>
      if BlockIter.GetRestartPoint (BlockIter.restart_index_ it) it >=? original
      then
        if BlockIter.restart_index_ it =? 0 then None
        else restart_before fuel original
               (BlockIter.set_pos (BlockIter.current_ it) (BlockIter.restart_index_ it - 1) it)
      else Some (BlockIter.restart_index_ it)
  end.

(** [MetaBlockIter::PrevImpl]. *)
Definition PrevImpl s : T :=
  let it := base s in
  let original := BlockIter.current_ it in
  match restart_before (Z.to_nat (BlockIter.restart_index_ it + 1)) original it with
  | None => set_base (BlockIter.set_pos (BlockIter.restarts_ it) (BlockIter.num_restarts_ it) it) s
  | Some index => let s := SeekToRestartPoint index s in scan_until (scan_fuel s) original s
  end.

(** The linear search of [FindKeyAfterBinarySeek]. *)
Fixpoint linear_search (fuel : nat) (target : list Z) (max_offset : Z) s : T :=
  match fuel with
  | O => s
  | S fuel =>
      let s := NextImpl s in
      if negb (BlockIter.Valid (base s)) then s
      else if BlockIter.current_ (base s) =? max_offset then s
      else if BlockIter.CompareCurrentKey (base s) target >=? 0 then s
      else linear_search fuel target max_offset s
  end.

Definition FindKeyAfterBinarySeek (target : list Z) (index : Z) (skip_linear_scan : bool) s : T :=
  let s := SeekToRestartPoint index s in
  let s := NextImpl s in
  if negb skip_linear_scan
  then
    let max_offset :=
      if u32 (index + 1) <? BlockIter.num_restarts_ (base s)
      then BlockIter.GetRestartPoint (u32 (index + 1)) (base s)
      else 2 ^ 32 - 1 in
    linear_search (scan_fuel s) target max_offset s
  else s.

(** [SeekImpl] of data and meta blocks. *)
Definition SeekImpl (target : list Z) s : T :=
  match BlockIter.data_ (base s) with
  | None => s
  | Some _ =>
      match BlockIter.BinarySeek DecodeKey target (base s) with
      | (None, it) => set_base it s
      | (Some (index, skip_linear_scan), it) =>
          FindKeyAfterBinarySeek target index skip_linear_scan (set_base it s)
      end
  end.

(** [while (Valid() && CompareCurrentKey(seek_key) > 0) PrevImpl()], for the
    class's own [PrevImpl]. *)
Fixpoint back_up (fuel : nat) (prev : T -> T) (target : list Z) s : T :=
  match fuel with
  | O => s
  | S fuel =>
      if BlockIter.Valid (base s) && (BlockIter.CompareCurrentKey (base s) target >? 0)
      then back_up fuel prev target (prev s) else s
  end.

Definition SeekForPrevImpl (prev : T -> T) (target : list Z) s : T :=
  match BlockIter.data_ (base s) with
  | None => s
  | Some _ =>
      match BlockIter.BinarySeek DecodeKey target (base s) with
      | (None, it) => set_base it s
      | (Some (index, skip_linear_scan), it) =>
          let s := FindKeyAfterBinarySeek target index skip_linear_scan (set_base it s) in
          if negb (BlockIter.Valid (base s)) then SeekToLastImpl s
          else back_up (scan_fuel s) prev target s
      end
  end.

(** [Seek()], [Next()] etc.: the class's operation followed by [UpdateKey]. *)
Definition with_UpdateKey (op : T -> T) s : T :=
  let s := op s in set_base (BlockIter.UpdateKey (base s)) s.

End loops.

(** ** Meta block iterators *)

Module MetaBlockIter.
Section meta.
Context `{Port} `{DbFormat} `{IterKeyOps} `{EmptySlice}.

#[export] Instance class : IterClass BlockIter.t := {|
  base it := it;
  set_base it _ := it;
  ParseNext it := let '(ok, _, it) := BlockIter.ParseNextKey CheckAndDecodeEntry it in (ok, it);
|}.

(** A fresh iterator; members without an initialiser get arbitrary values. *)
Definition new : BlockIter.t :=
  BlockIter.mk (fun _ _ => 0) None 0 0 0 0 (SetIsUserKey IterKey_new true) IterKey_new (empty_slice_off, 0)
    St.OK [] false false 0.

Definition Initialize (data : list Z) (restarts num_restarts : Z) (pinned : bool) (it : BlockIter.t) : BlockIter.t :=
  let it := BlockIter.InitializeBase BytewiseComparator.Compare data restarts num_restarts
              kDisableGlobalSequenceNumber pinned it in
  BlockIter.set_entry (SetIsUserKey (BlockIter.raw_key_ it) true) (BlockIter.value_ it) it.

Definition SeekToFirst : BlockIter.t -> BlockIter.t := with_UpdateKey SeekToFirstImpl.
Definition SeekToLast : BlockIter.t -> BlockIter.t := with_UpdateKey SeekToLastImpl.
Definition Seek (target : list Z) : BlockIter.t -> BlockIter.t := with_UpdateKey (SeekImpl target).
Definition SeekForPrev (target : list Z) : BlockIter.t -> BlockIter.t :=
  with_UpdateKey (SeekForPrevImpl PrevImpl target).
Definition Next : BlockIter.t -> BlockIter.t := with_UpdateKey NextImpl.
Definition Prev : BlockIter.t -> BlockIter.t := with_UpdateKey PrevImpl.

End meta.
End MetaBlockIter.

(** ** Data block iterators *)

Module DataBlockIter.
Section data.
Context `{Port} `{DbFormat} `{IterKeyOps} `{EmptySlice}.

(** An entry remembered by [PrevImpl]. A non-null [key_ptr] points at block
    contents, which do not change, and is represented by the bytes there. *)
Record CachedPrevEntry := mkCached {
  offset : Z;
  key_ptr : option (list Z);
  key_offset : Z;
  key_size : Z;
  value : Z * Z;
}.

Record t := mk {
  block_iter : BlockIter.t;
  prev_entries_keys_buff_ : list Z;
  prev_entries_ : list CachedPrevEntry;
  prev_entries_idx_ : Z;
  data_block_hash_index_ : option Z;
}.

Definition set_iter (it : BlockIter.t) (s : t) : t :=
  mk it (prev_entries_keys_buff_ s) (prev_entries_ s) (prev_entries_idx_ s) (data_block_hash_index_ s).
Definition set_cache (buff : list Z) (entries : list CachedPrevEntry) (idx : Z) (s : t) : t :=
  mk (block_iter s) buff entries idx (data_block_hash_index_ s).

(** [ParseNextDataKey] (its checks of global sequence numbers are assertions). *)
Definition ParseNextDataKey (s : t) : bool * t :=
  let '(ok, _, it) := BlockIter.ParseNextKey DecodeEntry (block_iter s) in (ok, set_iter it s).

#[export] Instance class : IterClass t := {|
  base := block_iter;
  set_base := set_iter;
  ParseNext := ParseNextDataKey;
|}.

Definition new : t :=
  mk (BlockIter.mk (fun _ _ => 0) None 0 0 0 0 IterKey_new IterKey_new (empty_slice_off, 0)
        St.OK [] false false 0) [] [] (-1) None.

Definition Initialize (raw_ucmp : list Z -> list Z -> Z) (data : list Z) (restarts num_restarts : Z)
    (global_seqno : Z) (pinned : bool) (hash_index : option Z) (s : t) : t :=
  let it := BlockIter.InitializeBase raw_ucmp data restarts num_restarts global_seqno pinned (block_iter s) in
  let it := BlockIter.set_entry (SetIsUserKey (BlockIter.raw_key_ it) false) (BlockIter.value_ it) it in
  mk it (prev_entries_keys_buff_ s) (prev_entries_ s) (prev_entries_idx_ s) hash_index.

Definition Invalidate (st : Status) (s : t) : t :=
  mk (BlockIter.Invalidate st (block_iter s)) [] [] (-1) (data_block_hash_index_ s).

(** The cached entry number [i]. *)
Definition cached (s : t) (i : Z) : CachedPrevEntry :=
  nth (Z.to_nat i) (prev_entries_ s) (mkCached 0 None 0 0 (0, 0)).

(** The [do ... while] loop of [PrevImpl] that fills the cache. *)
Fixpoint fill_cache (fuel : nat) (original : Z) (s : t) : t :=
  match fuel with
  | O => s
  | S fuel =>
      let '(ok, s) := ParseNextDataKey s in
      if negb ok then s
      else
        let it := block_iter s in
        let current_key := GetKey (BlockIter.raw_key_ it) in
        let s :=
          if IsKeyPinned (BlockIter.raw_key_ it)
          then set_cache (prev_entries_keys_buff_ s)
                 (prev_entries_ s ++
                  [mkCached (BlockIter.current_ it) (Some current_key) 0 (zlen current_key) (BlockIter.value_ it)])
                 (prev_entries_idx_ s) s
          else set_cache (prev_entries_keys_buff_ s ++ current_key)
                 (prev_entries_ s ++
                  [mkCached (BlockIter.current_ it) None (zlen (prev_entries_keys_buff_ s)) (zlen current_key)
                     (BlockIter.value_ it)])
                 (prev_entries_idx_ s) s in
        if BlockIter.NextEntryOffset (block_iter s) <? original then fill_cache fuel original s else s
  end.

Definition PrevImpl (s : t) : t :=
  if (0 <? prev_entries_idx_ s) &&
     (offset (cached s (prev_entries_idx_ s)) =? BlockIter.current_ (block_iter s))
  then
    let idx := prev_entries_idx_ s - 1 in
    let e := cached s idx in
    let '(current_key, raw_key_cached) :=
      match key_ptr e with
      | Some p => (ztake (key_size e) p, false)
      | None => (zsub (key_offset e) (key_size e) (prev_entries_keys_buff_ s), true)
      end in
    let it := block_iter s in
    let it := BlockIter.set_pos (offset e) (BlockIter.restart_index_ it) it in
    let it := BlockIter.set_entry (SetKey (BlockIter.raw_key_ it) current_key raw_key_cached) (value e) it in
    set_cache (prev_entries_keys_buff_ s) (prev_entries_ s) idx (set_iter it s)
  else
    let s := set_cache [] [] (-1) s in
    let it := block_iter s in
    let original := BlockIter.current_ it in
    match restart_before (Z.to_nat (BlockIter.restart_index_ it + 1)) original it with
    | None => set_iter (BlockIter.set_pos (BlockIter.restarts_ it) (BlockIter.num_restarts_ it) it) s
    | Some index =>
        let s := SeekToRestartPoint index s in
        let s := fill_cache (scan_fuel s) original s in
        set_cache (prev_entries_keys_buff_ s) (prev_entries_ s) (zlen (prev_entries_ s) - 1) s
    end.

(** The value types after which [SeekForGetImpl] does not fall back to a seek
    (db/dbformat.h, not part of the sources) are given by [plain_type]. *)
Variable plain_type : Z -> bool.

(** [while (current_ < limit)] of [SeekForGetImpl]. *)
Fixpoint interval_search (fuel : nat) (target : list Z) (limit : Z) (s : t) : t :=
  match fuel with
  | O => s
  | S fuel =>
      if BlockIter.current_ (block_iter s) <? limit
      then
        let '(ok, s) := ParseNextDataKey s in
        if negb ok || (BlockIter.CompareCurrentKey (block_iter s) target >=? 0) then s
        else interval_search fuel target limit s
      else s
  end.

Definition SeekForGetImpl (num_buckets : Z) (target : list Z) (s : t) : bool * t :=
  let it := block_iter s in
  let target_user_key := ExtractUserKey target in
  let map_offset := u32 (BlockIter.restarts_ it + BlockIter.num_restarts_ it * 4) in
  let entry := DataBlockHashIndex.Lookup num_buckets (BlockIter.bytes it) map_offset target_user_key in
  if entry =? kCollision then (true, SeekImpl target s)
  else
    let entry := if entry =? kNoEntry then u8 (BlockIter.num_restarts_ it - 1) else entry in
    let restart_index := entry in
    let s := SeekToRestartPoint restart_index s in
    let it := block_iter s in
    let it := BlockIter.set_pos (BlockIter.GetRestartPoint restart_index it) (BlockIter.restart_index_ it) it in
    let s := set_iter it s in
    let limit :=
      if restart_index + 1 <? BlockIter.num_restarts_ it
      then BlockIter.GetRestartPoint (restart_index + 1) it else BlockIter.restarts_ it in
    let s := interval_search (scan_fuel s) target limit s in
    let it := block_iter s in
    if BlockIter.current_ it =? BlockIter.restarts_ it then (true, s)
    else if negb (BlockIter.icmp_ it (BlockIter.GetUserKey (BlockIter.raw_key_ it)) target_user_key =? 0)
    then (false, s)
    else if negb (plain_type (ExtractValueType (GetKey (BlockIter.raw_key_ it))))
    then (true, SeekImpl target s)
    else (true, s).

Definition SeekForGet (target : list Z) (s : t) : bool * t :=
  match data_block_hash_index_ s with
  | None => (true, with_UpdateKey (SeekImpl target) s)
  | Some num_buckets =>
      let '(res, s) := SeekForGetImpl num_buckets target s in
      (res, set_iter (BlockIter.UpdateKey (block_iter s)) s)
  end.

Definition SeekToFirst : t -> t := with_UpdateKey SeekToFirstImpl.
Definition SeekToLast : t -> t := with_UpdateKey SeekToLastImpl.
Definition Seek (target : list Z) : t -> t := with_UpdateKey (SeekImpl target).
Definition SeekForPrev (target : list Z) : t -> t := with_UpdateKey (SeekForPrevImpl PrevImpl target).
Definition Next : t -> t := with_UpdateKey NextImpl.
Definition Prev : t -> t := with_UpdateKey PrevImpl.

End data.
End DataBlockIter.

(** ** Blocks *)

Module Block.
Section block.
Context `{Port}.

Record t := mk {
  data_ : list Z;
  size_ : Z;
  restart_offset_ : Z;
  num_restarts_ : Z;
  data_block_hash_index_ : Z;
}.

Definition NumRestarts (data : list Z) (size : Z) : Z :=
  let block_footer := DecodeFixed32 (zdrop (size - 4) data) in
  if size >? kMaxBlockSizeSupportedByHashIndex then block_footer
  else snd (UnPackIndexTypeAndNumRestarts block_footer).

Definition IndexType (data : list Z) (size : Z) : DataBlockIndexType :=
  if size >? kMaxBlockSizeSupportedByHashIndex then kDataBlockBinarySearch
  else fst (UnPackIndexTypeAndNumRestarts (DecodeFixed32 (zdrop (size - 4) data))).

(** The constructor. *)
Definition new (contents : list Z) : t :=
  let size := zlen contents in
  if size <? 4 then mk contents 0 0 0 DataBlockHashIndex.new
  else
    let num_restarts := NumRestarts contents size in
    match IndexType contents size with
    | kDataBlockBinarySearch =>
        let restart_offset := u32 (u32 size - u32 (1 + num_restarts) * 4) in
        if restart_offset >? size - 4 then mk contents 0 restart_offset num_restarts DataBlockHashIndex.new
        else mk contents size restart_offset num_restarts DataBlockHashIndex.new
    | kDataBlockBinaryAndHash =>
        if size <? 4 + 2 then mk contents 0 0 num_restarts DataBlockHashIndex.new
        else
          let '(num_buckets, map_offset) := DataBlockHashIndex.Initialize contents (u16 (size - 4)) in
          let restart_offset := u32 (map_offset - num_restarts * 4) in
          if restart_offset >? map_offset then mk contents 0 restart_offset num_restarts num_buckets
          else mk contents size restart_offset num_restarts num_buckets
    end.

Context `{DbFormat} `{IterKeyOps} `{EmptySlice}.

Definition NewMetaIterator (pinned : bool) (b : t) : BlockIter.t :=
  if size_ b <? 2 * 4 then BlockIter.Invalidate St.Corruption MetaBlockIter.new
  else if num_restarts_ b =? 0 then BlockIter.Invalidate St.OK MetaBlockIter.new
  else MetaBlockIter.Initialize (data_ b) (restart_offset_ b) (num_restarts_ b) pinned MetaBlockIter.new.

(** [iter] is the iterator to reuse, a fresh one for a null pointer. *)
Definition NewDataIterator (raw_ucmp : list Z -> list Z -> Z) (global_seqno : Z) (pinned : bool)
    (iter : DataBlockIter.t) (b : t) : DataBlockIter.t :=
  if size_ b <? 2 * 4 then DataBlockIter.Invalidate St.Corruption iter
  else if num_restarts_ b =? 0 then DataBlockIter.Invalidate St.OK iter
  else DataBlockIter.Initialize raw_ucmp (data_ b) (restart_offset_ b) (num_restarts_ b) global_seqno pinned
         (if DataBlockHashIndex.Valid (data_block_hash_index_ b) then Some (data_block_hash_index_ b) else None)
         iter.

End block.
End Block.
