(* ===== verification/BlockIterSpec.v ===== *)
(** * Block iterators: entries, positions and the parsing step

    A block whose bytes have the layout of [BlockBuilder] is a list of entries.
    This file proves the decoders right on such a block and describes the
    states of a [BlockIter] by the entry they are at ([At]), are about to parse
    ([Before]) or by being past the end ([Fin]); [ParseNextKey],
    [SeekToRestartPoint] and [BinarySeek] move between these states as the
    abstract list says. *)

From stdpp Require Import prelude.
From Stdlib Require Import ZArith Lia Bool.
From S2P Require Import Prelude Coding Comparator Math Hash Status DbFormat BlockHashIndex BlockBuilder.
From S2P Require Import BlockIter.

(** ** Decoding what the builder encoded *)

(** The three numbers an entry starts with. *)
Definition lengths (shared non_shared value_length : Z) : list Z :=
  EncodeVarint32 shared ++ EncodeVarint32 non_shared ++ EncodeVarint32 value_length.
Definition header (e : entry) : list Z := lengths (eshared e) (zlen (ekey e) - eshared e) (zlen (evalue e)).

Lemma enc_entry_eq e : enc_entry false e = header e ++ zdrop (eshared e) (ekey e) ++ evalue e.
Proof. unfold enc_entry, header, lengths. by rewrite <- !app_assoc. Qed.

Lemma link_ranges prev e : link prev e ->
  is_u 32 (eshared e) /\ is_u 32 (zlen (ekey e) - eshared e) /\ is_u 32 (zlen (evalue e)).
Proof. intros (H1 & H2 & _ & H3 & H4). unfold is_u. pose proof (zlen_nonneg (evalue e)). lia. Qed.

Section lengths.
Context (shared non_shared value_length : Z).
Context (H1 : is_u 32 shared) (H2 : is_u 32 non_shared) (H3 : is_u 32 value_length).
Notation hd := (lengths shared non_shared value_length).

Lemma zlen_lengths : 3 <= zlen hd <= 15.
Proof.
  unfold lengths. rewrite !zlen_app.
  pose proof (zlen_EncodeVarint32 shared). pose proof (zlen_EncodeVarint32 non_shared).
  pose proof (zlen_EncodeVarint32 value_length). lia.
Qed.

Lemma lengths_ok : bytes_ok hd.
Proof.
  unfold lengths. apply Forall_app. split; [by apply EncodeVarint32_ok|].
  apply Forall_app. split; by apply EncodeVarint32_ok.
Qed.

(** The first three bytes are all small only when they are the three numbers. *)
Lemma fast_path pre post :
  let data := pre ++ hd ++ post in
  let p := zlen pre in
  Z.lor (Z.lor (byte_at data p) (byte_at data (p + 1))) (byte_at data (p + 2)) < 128 ->
  byte_at data p = shared /\ byte_at data (p + 1) = non_shared /\
  byte_at data (p + 2) = value_length /\ zlen hd = 3.
Proof.
  intros data p Hlt. pose proof lengths_ok as Hok. pose proof zlen_lengths as Hlen.
  assert (Hat : forall o, 0 <= o < 3 -> byte_at data (p + o) = byte_at hd o).
  { intros o Ho. unfold data, p. rewrite byte_at_app_r by lia. apply byte_at_app_l. lia. }
  rewrite <- (Z.add_0_r p) in Hlt at 1. rewrite !Hat in Hlt by lia.
  pose proof (byte_at_nonneg hd 0 Hok). pose proof (byte_at_nonneg hd 1 Hok).
  pose proof (byte_at_nonneg hd 2 Hok).
  apply (lor_lt_inv 7) in Hlt as [Hlt H128c]; [|lia|by apply Z.lor_nonneg|done].
  apply (lor_lt_inv 7) in Hlt as [H128a H128b]; [|lia|done|done].
  rewrite <- (Z.add_0_r p) at 1. rewrite !Hat by lia. clear Hat Hok Hlen.
  revert H128a H128b H128c. unfold lengths.
  destruct (EncodeVarint32_head _ H1) as (a & ta & -> & Ha & Ca).
  destruct (EncodeVarint32_head _ H2) as (b & tb & -> & Hb & Cb).
  destruct (EncodeVarint32_head _ H3) as (c & tc & -> & Hc & Cc).
  change (2 ^ 7) with 128. unfold byte_at. change (Z.to_nat 0) with 0%nat. change (Z.to_nat 1) with 1%nat.
  change (Z.to_nat 2) with 2%nat. cbn [app nth]. intros A B C.
  destruct Ca as [(-> & -> & _)|]; [|lia]. cbn [app nth] in *.
  destruct Cb as [(-> & -> & _)|]; [|lia]. cbn [app nth] in *.
  destruct Cc as [(-> & -> & _)|]; [|lia]. done.
Qed.

Lemma range_app pre mid post limit : limit = zlen pre + zlen mid -> range (pre ++ mid ++ post) (zlen pre) limit = mid.
Proof. intros ->. unfold range. apply zsub_app_mid; [done|lia]. Qed.

Lemma three_varints_ok pre body post limit : limit = zlen pre + zlen (hd ++ body) ->
  three_varints (pre ++ (hd ++ body) ++ post) (zlen pre) limit =
  Some (shared, non_shared, value_length, zlen pre + zlen hd).
Proof.
  intros ->. unfold three_varints. rewrite range_app by done. unfold lengths. rewrite <- !app_assoc.
  change GetVarint32Ptr with GetVarint32. rewrite !GetVarint32_app by done. repeat f_equal.
  rewrite !zlen_app. lia.
Qed.

Lemma DecodeEntry_lengths pre body post limit : limit = zlen pre + zlen (hd ++ body) ->
  DecodeEntry (pre ++ (hd ++ body) ++ post) (zlen pre) limit =
  Some (shared, non_shared, value_length, zlen pre + zlen hd).
Proof.
  intros El. unfold DecodeEntry. set (data := pre ++ _).
  assert (Ed : data = pre ++ hd ++ body ++ post) by (unfold data; by rewrite <- app_assoc).
  destruct (Z.ltb_spec (Z.lor (Z.lor (byte_at data (zlen pre)) (byte_at data (zlen pre + 1)))
    (byte_at data (zlen pre + 2))) 128) as [Hlt|_]; [|by apply three_varints_ok].
  rewrite Ed in Hlt |- *. destruct (fast_path pre _ Hlt) as (-> & -> & -> & ->). done.
Qed.

(** [CheckAndDecodeEntry] is [DecodeEntry] with a comparison of 32-bit numbers. *)
Lemma CheckAndDecodeEntry_lengths pre body post limit : limit = zlen pre + zlen (hd ++ body) -> limit < 2 ^ 32 ->
  CheckAndDecodeEntry (pre ++ (hd ++ body) ++ post) (zlen pre) limit =
  if zlen body <? u32 (non_shared + value_length) then None
  else Some (shared, non_shared, value_length, zlen pre + zlen hd).
Proof.
  intros El Hlim. pose proof (DecodeEntry_lengths pre body post limit El) as E. unfold DecodeEntry in E.
  unfold CheckAndDecodeEntry. pose proof zlen_lengths. rewrite zlen_app in El.
  pose proof (zlen_nonneg pre). pose proof (zlen_nonneg body).
  rewrite (proj2 (Z.ltb_ge (limit - zlen pre) 3)) by lia. rewrite E.
  rewrite (u32_small (limit - _)) by lia. by replace (limit - (zlen pre + zlen hd)) with (zlen body) by lia.
Qed.
End lengths.

Lemma zlen_enc_entry prev e : link prev e ->
  zlen (enc_entry false e) = zlen (header e) + (zlen (ekey e) - eshared e) + zlen (evalue e) /\
  3 <= zlen (header e) <= 15.
Proof.
  intros (H1 & _). rewrite enc_entry_eq, !zlen_app, zlen_zdrop by lia. split; [lia|apply zlen_lengths].
Qed.

Section decode.
Context (pre post1 post2 : list Z) (prev : list Z) (e : entry) (Hl : link prev e).
Let data := pre ++ (enc_entry false e ++ post1) ++ post2.
Let limit := zlen pre + zlen (enc_entry false e) + zlen post1.
Let result := (eshared e, zlen (ekey e) - eshared e, zlen (evalue e), zlen pre + zlen (header e)).

Let body := zdrop (eshared e) (ekey e) ++ evalue e ++ post1.

Lemma data_header : data = pre ++ (header e ++ body) ++ post2 /\ limit = zlen pre + zlen (header e ++ body).
Proof.
  unfold data, limit, body. rewrite enc_entry_eq, <- !app_assoc, !zlen_app. split; [done|lia].
Qed.

Lemma DecodeEntry_enc : DecodeEntry data (zlen pre) limit = Some result.
Proof.
  destruct (link_ranges _ _ Hl) as (H1 & H2 & H3), data_header as [-> El]. by apply DecodeEntry_lengths.
Qed.

Lemma CheckAndDecodeEntry_enc : limit < 2 ^ 32 -> CheckAndDecodeEntry data (zlen pre) limit = Some result.
Proof.
  intros Hlim. destruct (link_ranges _ _ Hl) as (H1 & H2 & H3), data_header as [-> El], Hl as (Hs & _).
  unfold header in *. rewrite CheckAndDecodeEntry_lengths by done. unfold body in *. rewrite !zlen_app, zlen_zdrop in * by lia.
  pose proof (zlen_nonneg pre). pose proof (zlen_nonneg post1). pose proof (zlen_nonneg (evalue e)).
  pose proof (zlen_lengths (eshared e) (zlen (ekey e) - eshared e) (zlen (evalue e))).
  rewrite u32_small by lia. by rewrite (proj2 (Z.ltb_ge _ _)) by lia.
Qed.

(** Where the key bytes and the value of the entry are. *)
Lemma key_bytes_enc : zsub (zlen pre + zlen (header e)) (zlen (ekey e) - eshared e) data = zdrop (eshared e) (ekey e).
Proof.
  destruct Hl as (Hs & _). unfold data. rewrite enc_entry_eq, <- !app_assoc, app_assoc.
  apply zsub_app_mid; rewrite ?zlen_app, ?zlen_zdrop; lia.
Qed.
Lemma value_bytes_enc :
  zsub (zlen pre + zlen (header e) + (zlen (ekey e) - eshared e)) (zlen (evalue e)) data = evalue e.
Proof.
  destruct Hl as (Hs & _). unfold data. rewrite enc_entry_eq, <- !app_assoc, app_assoc, app_assoc.
  apply zsub_app_mid; rewrite ?zlen_app, ?zlen_zdrop; lia.
Qed.
End decode.

(** ** Entry offsets *)

Definition prev_key (es : list entry) (i : nat) : list Z :=
  match i with O => [] | S j => default [] (ekey <$> es !! j) end.

Lemma chain_lookup es i e prev : chain prev es -> es !! i = Some e ->
  link (match i with O => prev | S j => default [] (ekey <$> es !! j) end) e.
Proof.
  revert prev i. induction es as [|x es IH]; intros prev i Hc Hi; [done|].
  destruct Hc as [Hx Hc]. destruct i as [|i]; simpl in *; [by simplify_eq|].
  specialize (IH _ _ Hc Hi). by destruct i.
Qed.

Section view.
Context `{Port} `{DbFormat} `{IterKeyOps} `{EmptySlice} `{!IterKeyLaws}.
Context (es : list entry) (k nr : nat) (tail : list Z).
Definition block_restarts : Z := zlen (enc_entries false es).
Definition block_data : list Z :=
  enc_entries false es ++ concat (map (le_bytes 4) (restart_offsets false k es nr)) ++ tail.

(** A block of these entries, small enough for 32-bit offsets. *)
Record block_ok : Prop := {
  block_k : (1 <= k)%nat;
  block_layout : layout false k es nr;
  block_nr : Z.of_nat nr < 2 ^ 31;
  block_size : zlen block_data < 2 ^ 32;
}.
Context (BK : block_ok).

#[local] Abbreviation off := (off false es).
#[local] Abbreviation cnt := (length es).
#[local] Abbreviation R := block_restarts.
#[local] Abbreviation data := block_data.

Lemma entry_link i e : es !! i = Some e -> link (prev_key es i) e.
Proof. intros. unfold prev_key. eapply chain_lookup; [|done]. apply (layout_chain _ _ _ _ (block_layout BK)). Qed.

Lemma off_0 : off 0 = 0. Proof. done. Qed.
Lemma off_n : off cnt = R. Proof. apply off_all. Qed.
Lemma off_S i e : es !! i = Some e -> off (S i) = off i + zlen (enc_entry false e).
Proof.
  intros Hi. unfold BlockBuilder.off. rewrite (take_S_r _ _ _ Hi), enc_entries_app, enc_entries_one. apply zlen_app.
Qed.
Lemma off_S_lt i e : es !! i = Some e -> off i + 3 <= off (S i).
Proof.
  intros Hi. rewrite (off_S i e Hi). destruct (zlen_enc_entry _ _ (entry_link i e Hi)) as [-> ?].
  destruct (entry_link i e Hi) as (? & _). pose proof (zlen_nonneg (evalue e)). lia.
Qed.
Lemma off_lt i j : (i < j <= cnt)%nat -> off i + 3 * (Z.of_nat j - Z.of_nat i) <= off j.
Proof.
  intros [Hij Hj]. induction Hij as [|j Hij IH].
  - destruct (lookup_lt_is_Some_2 es i) as [e He]; [lia|]. pose proof (off_S_lt i e He). lia.
  - destruct (lookup_lt_is_Some_2 es j) as [e He]; [lia|]. pose proof (off_S_lt j e He).
    specialize (IH ltac:(lia)). lia.
Qed.
Lemma off_nonneg i : 0 <= off i. Proof. apply zlen_nonneg. Qed.
Lemma off_le_R i : (i <= cnt)%nat -> off i <= R.
Proof. intros. rewrite <- off_n. destruct (decide (i = cnt)) as [->|]; [done|]. pose proof (off_lt i cnt). lia. Qed.
Lemma off_lt_iff i j : (i <= cnt)%nat -> (j <= cnt)%nat -> off i < off j <-> (i < j)%nat.
Proof.
  intros Hi Hj. split; intros; [|pose proof (off_lt i j); lia].
  destruct (decide (i = j)) as [->|]; [lia|]. destruct (decide (j < i)%nat); [pose proof (off_lt j i)|]; lia.
Qed.
Lemma off_inj i j : (i <= cnt)%nat -> (j <= cnt)%nat -> off i = off j -> i = j.
Proof. intros Hi Hj E. pose proof (off_lt_iff i j Hi Hj). pose proof (off_lt_iff j i Hj Hi). lia. Qed.
Lemma R_bound : 0 <= R < 2 ^ 32.
Proof.
  split; [apply zlen_nonneg|]. pose proof (block_size BK) as Hs. unfold data in Hs. rewrite zlen_app in Hs.
  fold R in Hs. pose proof (zlen_nonneg (concat (map (le_bytes 4) (restart_offsets false k es nr)) ++ tail)). lia.
Qed.
Lemma n_bound : Z.of_nat cnt <= R.
Proof. destruct (decide (cnt = 0%nat)); [pose proof R_bound; lia|]. pose proof (off_lt 0 cnt) as Ho. rewrite off_n, off_0 in Ho. lia. Qed.

Lemma data_split i e : es !! i = Some e ->
  data = enc_entries false (take i es) ++ (enc_entry false e ++ enc_entries false (drop (S i) es)) ++
    concat (map (le_bytes 4) (restart_offsets false k es nr)) ++ tail /\
  R = zlen (enc_entries false (take i es)) + zlen (enc_entry false e) + zlen (enc_entries false (drop (S i) es)).
Proof.
  intros Hi. assert (E : enc_entries false es =
    enc_entries false (take i es) ++ enc_entry false e ++ enc_entries false (drop (S i) es)).
  { rewrite <- (take_drop_middle es i e Hi) at 1. by rewrite enc_entries_app. }
  unfold data, R. rewrite E, !zlen_app, <- !app_assoc. split; [done|lia].
Qed.

(** The offset of an entry's value. *)
Definition voff (i : nat) (e : entry) : Z := off i + zlen (header e) + (zlen (ekey e) - eshared e).

Lemma decode_entry i e : es !! i = Some e ->
  DecodeEntry data (off i) R = Some (eshared e, zlen (ekey e) - eshared e, zlen (evalue e), off i + zlen (header e)) /\
  CheckAndDecodeEntry data (off i) R =
    Some (eshared e, zlen (ekey e) - eshared e, zlen (evalue e), off i + zlen (header e)) /\
  zsub (off i + zlen (header e)) (zlen (ekey e) - eshared e) data = zdrop (eshared e) (ekey e) /\
  zsub (voff i e) (zlen (evalue e)) data = evalue e /\
  voff i e + zlen (evalue e) = off (S i).
Proof.
  intros Hi. pose proof (entry_link i e Hi) as Hl. destruct (data_split i e Hi) as [Ed ER].
  pose proof R_bound as HR. rewrite ER in HR. unfold voff, BlockBuilder.off at 1 2 3 4 5 6.
  rewrite Ed, ER. split_and!.
  - by apply (DecodeEntry_enc _ _ _ (prev_key es i)).
  - apply (CheckAndDecodeEntry_enc _ _ _ (prev_key es i)); [done|lia].
  - by apply (key_bytes_enc _ _ _ (prev_key es i)).
  - by apply (value_bytes_enc _ _ _ (prev_key es i)).
  - rewrite (off_S i e Hi). unfold voff. destruct (zlen_enc_entry _ _ Hl) as [-> _]. unfold BlockBuilder.off. lia.
Qed.

(** ** Restart points *)

Lemma restart_read j : (j < nr)%nat ->
  DecodeFixed32 (zdrop (R + Z.of_nat j * 4) data) = off (j * k).
Proof.
  intros Hj. unfold data. set (rs := restart_offsets false k es nr).
  assert (Er : rs !! j = Some (off (j * k))).
  { unfold rs, restart_offsets. rewrite list_lookup_fmap, lookup_seq_lt by done. done. }
  assert (E : concat (map (le_bytes 4) rs) =
    concat (map (le_bytes 4) (take j rs)) ++ le_bytes 4 (off (j * k)) ++ concat (map (le_bytes 4) (drop (S j) rs))).
  { rewrite <- (take_drop_middle rs j _ Er) at 1. by rewrite map_app, concat_app. }
  rewrite E, <- !app_assoc, app_assoc, zdrop_app'.
  2: { rewrite zlen_app, zlen_fixed32s. fold R. unfold zlen. rewrite length_take.
       apply lookup_lt_Some in Er. rewrite Nat.min_l by lia. lia. }
  apply DecodeFixed32_app. split; [apply off_nonneg|].
  destruct (decide (es = [])) as [->|Hne].
  - unfold BlockBuilder.off. rewrite take_nil. done.
  - pose proof (layout_nr_pos _ _ _ _ (block_layout BK) j Hj Hne). pose proof R_bound. pose proof (off_le_R (j * k)). lia.
Qed.

Lemma restart_le j : (j < nr)%nat -> (j * k <= cnt)%nat.
Proof.
  intros Hj. destruct (decide (es = [])) as [E|Hne].
  - pose proof (layout_empty _ _ _ _ (block_layout BK) E). assert (j = 0%nat) as -> by lia. lia.
  - pose proof (layout_nr_pos _ _ _ _ (block_layout BK) j Hj Hne). lia.
Qed.

(** ** Iterator states *)

(** The comparator, the kind of keys ([usr]: user keys) and the global sequence
    number the iterator was opened with. *)
Context (ucmp : list Z -> list Z -> Z) (usr : bool) (g : Z).

Record static (it : BlockIter.t) : Prop := {
  st_data : BlockIter.data_ it = Some data;
  st_nr : BlockIter.num_restarts_ it = Z.of_nat nr;
  st_R : BlockIter.restarts_ it = R;
  st_cmp : BlockIter.icmp_ it = ucmp;
  st_usr : IsUserKey (BlockIter.raw_key_ it) = usr;
  st_g : BlockIter.global_seqno_ it = g;
  st_ok : BlockIter.status_ it = St.OK;
}.

Record Before (it : BlockIter.t) (i : nat) : Prop := {
  bf_static : static it;
  bf_le : (i <= cnt)%nat;
  bf_off : BlockIter.NextEntryOffset it = off i;
  bf_key e : es !! i = Some e ->
    eshared e <= zlen (GetKey (BlockIter.raw_key_ it)) /\
    ztake (eshared e) (GetKey (BlockIter.raw_key_ it)) = ztake (eshared e) (ekey e);
  bf_ri : 0 <= BlockIter.restart_index_ it < Z.of_nat nr;
}.

Record At (it : BlockIter.t) (i : nat) (e : entry) : Prop := {
  at_static : static it;
  at_entry : es !! i = Some e;
  at_cur : BlockIter.current_ it = off i;
  at_key : GetKey (BlockIter.raw_key_ it) = ekey e;
  at_value : BlockIter.value_ it = (voff i e, zlen (evalue e));
  at_ri : 0 <= BlockIter.restart_index_ it < Z.of_nat nr;
}.

Record Fin (it : BlockIter.t) : Prop := {
  fin_static : static it;
  fin_cur : BlockIter.current_ it = R;
}.

Lemma static_bytes it : static it -> BlockIter.bytes it = data.
Proof. intros ST. unfold BlockIter.bytes. by rewrite (st_data _ ST). Qed.

Lemma static_set_pos it c r : static it -> static (BlockIter.set_pos c r it).
Proof. by intros [? ? ? ? ? ? ?]. Qed.
Lemma static_set_entry it kb v : static it -> IsUserKey kb = usr -> static (BlockIter.set_entry kb v it).
Proof. by intros [? ? ? ? ? ? ?]. Qed.

Lemma off_u32 i : (i <= cnt)%nat -> u32 (off i) = off i.
Proof. intros. apply u32_small. pose proof (off_nonneg i). pose proof (off_le_R i). pose proof R_bound. lia. Qed.

Lemma at_next it i e : At it i e -> BlockIter.NextEntryOffset it = off (S i).
Proof.
  intros [ST He _ _ Ev _]. unfold BlockIter.NextEntryOffset. rewrite Ev. simpl.
  destruct (decode_entry i e He) as (_ & _ & _ & _ & ->). apply off_u32.
  apply lookup_lt_Some in He. lia.
Qed.

Lemma at_before it i e : At it i e -> Before it (S i).
Proof.
  intros A. pose proof (at_next it i e A) as En. destruct A as [ST He Ec Ek Ev Hr]. split; [done| |done| |done].
  - apply lookup_lt_Some in He. lia.
  - intros e' He'. pose proof (entry_link _ _ He') as (_ & L2 & L3 & _).
    unfold prev_key in *. rewrite He in *. simpl in *. by rewrite Ek.
Qed.

Lemma at_valid it i e : At it i e -> BlockIter.Valid it = true.
Proof.
  intros [ST He Ec _ _ _]. unfold BlockIter.Valid. rewrite Ec, (st_R _ ST).
  pose proof (off_S_lt i e He). apply lookup_lt_Some in He. pose proof (off_le_R (S i)). lia.
Qed.
Lemma fin_valid it : Fin it -> BlockIter.Valid it = false.
Proof. intros [ST Ec]. unfold BlockIter.Valid. rewrite Ec, (st_R _ ST). lia. Qed.

Lemma restart_point it j : static it -> (j < nr)%nat -> BlockIter.GetRestartPoint (Z.of_nat j) it = off (j * k).
Proof.
  intros ST Hj. unfold BlockIter.GetRestartPoint. rewrite static_bytes, (st_R _ ST) by done. by apply restart_read.
Qed.

Lemma seek_restart_before it j : static it -> (j < nr)%nat ->
  Before (BlockIter.SeekToRestartPoint (Z.of_nat j) it) (j * k) /\
  BlockIter.restart_index_ (BlockIter.SeekToRestartPoint (Z.of_nat j) it) = Z.of_nat j.
Proof.
  intros ST Hj. unfold BlockIter.SeekToRestartPoint.
  set (it' := BlockIter.set_pos _ _ _). assert (ST' : static it').
  { apply static_set_pos, static_set_entry; [done|]. rewrite IsUserKey_Clear. apply (st_usr _ ST). }
  split; [|done]. rewrite restart_point by done. split; simpl; try done.
  - apply static_set_entry; [done|]. apply (st_usr _ ST').
  - by apply restart_le.
  - unfold BlockIter.NextEntryOffset. simpl. rewrite Z.add_0_r. by apply off_u32, restart_le.
  - intros e He. rewrite (layout_restart _ _ _ _ (block_layout BK) j e He), !ztake_0.
    split; [apply zlen_nonneg|done].
  - lia.
Qed.

Lemma set_pos_set_pos it c r c' r' : BlockIter.set_pos c r (BlockIter.set_pos c' r' it) = BlockIter.set_pos c r it.
Proof. done. Qed.
Lemma set_pos_id it : BlockIter.set_pos (BlockIter.current_ it) (BlockIter.restart_index_ it) it = it.
Proof. by destruct it. Qed.

Lemma advance_restart_eq f it : static it -> 0 <= BlockIter.restart_index_ it < Z.of_nat nr ->
  exists r, BlockIter.advance_restart f it = BlockIter.set_pos (BlockIter.current_ it) r it /\ 0 <= r < Z.of_nat nr.
Proof.
  revert it. induction f as [|f IH]; intros it ST Hr; cbn [BlockIter.advance_restart].
  - exists (BlockIter.restart_index_ it). by rewrite set_pos_id.
  - destruct (_ && _) eqn:E; [|exists (BlockIter.restart_index_ it); by rewrite set_pos_id].
    apply andb_prop in E as [E _]. rewrite (st_nr _ ST) in E. apply Z.ltb_lt in E.
    destruct (IH (BlockIter.set_pos (BlockIter.current_ it) (u32 (BlockIter.restart_index_ it + 1)) it))
      as (r & -> & Hr'); [by apply static_set_pos|simpl; pose proof (u32_range (BlockIter.restart_index_ it + 1)); lia|].
    by exists r.
Qed.

(** The parsing step of all iterators whose decoder reads entries like
    [DecodeEntry] on this block. *)
Definition decodes (dec : list Z -> Z -> Z -> option (Z * Z * Z * Z)) : Prop :=
  forall i e, es !! i = Some e -> dec data (off i) R =
    Some (eshared e, zlen (ekey e) - eshared e, zlen (evalue e), off i + zlen (header e)).

Lemma decodes_DecodeEntry : decodes DecodeEntry.
Proof. intros i e He. by destruct (decode_entry i e He). Qed.
Lemma decodes_CheckAndDecodeEntry : decodes CheckAndDecodeEntry.
Proof. intros i e He. by destruct (decode_entry i e He) as (_ & ? & _). Qed.

Lemma parse_at dec it i e : decodes dec -> Before it i -> es !! i = Some e ->
  exists sh it', BlockIter.ParseNextKey dec it = (true, sh, it') /\ At it' i e.
Proof.
  intros D [ST Hle Ho Hk' Hr] He. destruct (Hk' e He) as [Hsh Hpre].
  pose proof (entry_link i e He) as (L1 & _). destruct (decode_entry i e He) as (_ & _ & Ekb & _ & _).
  pose proof (off_S_lt i e He). pose proof (lookup_lt_Some _ _ _ He). pose proof (off_le_R (S i)).
  unfold BlockIter.ParseNextKey. simpl. rewrite Ho. change (BlockIter.restarts_ _) with (BlockIter.restarts_ it).
  change (BlockIter.bytes _) with (BlockIter.bytes it).
  rewrite (st_R _ ST), static_bytes, Z.geb_leb, (proj2 (Z.leb_gt _ _)), (D i e He), Size_GetKey by (done || lia).
  rewrite (proj2 (Z.ltb_ge _ _)), Ekb by lia.
  set (key := if eshared e =? 0 then _ else _).
  assert (Hkey : GetKey key.2 = ekey e /\ IsUserKey key.2 = usr).
  { unfold key. destruct (Z.eqb_spec (eshared e) 0) as [E0|]; simpl.
    - rewrite GetKey_SetKey, IsUserKey_SetKey, E0, zdrop_0. split; [done|apply (st_usr _ ST)].
    - rewrite GetKey_TrimAppend, IsUserKey_TrimAppend, Hpre, ztake_zdrop by lia. split; [done|apply (st_usr _ ST)]. }
  destruct key as [sh key]. destruct Hkey as [Hkey Husr]. simpl in Hkey, Husr.
  set (it1 := BlockIter.set_entry key _ _).
  assert (ST1 : static it1) by (apply static_set_entry; [by apply static_set_pos|done]).
  assert (A1 : forall r, 0 <= r < Z.of_nat nr -> At (BlockIter.set_pos (off i) r it1) i e).
  { intros r Hr'. split; simpl; try done. by apply static_set_pos. }
  destruct (eshared e =? 0).
  - destruct (advance_restart_eq (Z.to_nat (BlockIter.num_restarts_ it)) it1 ST1) as (r & -> & Hr'); [done|].
    exists sh. eexists. split; [reflexivity|]. by apply A1.
  - exists sh, it1. split; [reflexivity|]. rewrite <- (set_pos_id it1). by apply A1.
Qed.

Lemma parse_fin dec it : Before it cnt ->
  exists it', BlockIter.ParseNextKey dec it = (false, false, it') /\ Fin it'.
Proof.
  intros [ST Hle Ho _ Hr]. unfold BlockIter.ParseNextKey. simpl. rewrite Ho, off_n.
  change (BlockIter.restarts_ _) with (BlockIter.restarts_ it). rewrite (st_R _ ST), Z.geb_leb, Z.leb_refl.
  eexists. split; [done|]. split; [by repeat apply static_set_pos|done].
Qed.

(** ** Order *)

(** The key as shown to the user: a global sequence number replaces the stored one. *)
Definition shown (a : list Z) : list Z :=
  if usr then a
  else if g =? kDisableGlobalSequenceNumber then a
  else InternalKey (ExtractUserKey a) g (ExtractValueType a).
Definition kcmp : list Z -> list Z -> Z := if usr then ucmp else icmp_Compare ucmp.

Context `{!DbFormatLaws} `{!ComparatorLaws ucmp}.

#[local] Instance kcmp_laws : ComparatorLaws kcmp.
Proof. unfold kcmp. destruct usr; [done|by apply icmp_laws]. Qed.

Lemma compare_current it t : static it ->
  BlockIter.CompareCurrentKey it t = kcmp (shown (GetKey (BlockIter.raw_key_ it))) t.
Proof.
  intros ST. unfold BlockIter.CompareCurrentKey, BlockIter.GetUserKey, kcmp, shown.
  rewrite (st_usr _ ST), (st_cmp _ ST), (st_g _ ST). destruct usr; [done|].
  destruct (Z.eqb_spec g kDisableGlobalSequenceNumber); [done|by apply icmp_seqno].
Qed.

Definition keys_sorted : Prop := forall i j ei ej, (i < j)%nat -> es !! i = Some ei -> es !! j = Some ej ->
  kcmp (shown (ekey ei)) (shown (ekey ej)) < 0.
Context (SORT : keys_sorted).

(** The entry a restart point refers to. *)
Lemma restart_entry j : es <> [] -> (j < nr)%nat -> exists e,
  es !! (j * k)%nat = Some e /\ eshared e = 0 /\
  DecodeKey data (off (j * k)) R = Some (0, zlen (ekey e), off (j * k) + zlen (header e)) /\
  zsub (off (j * k) + zlen (header e)) (zlen (ekey e)) data = ekey e.
Proof.
  intros Hne Hj. pose proof (layout_nr_pos _ _ _ _ (block_layout BK) j Hj Hne) as Hlt.
  destruct (lookup_lt_is_Some_2 es (j * k) Hlt) as [e He]. exists e.
  pose proof (layout_restart _ _ _ _ (block_layout BK) j e He) as E0.
  destruct (decode_entry _ _ He) as (D & _ & Eb & _). rewrite E0, Z.sub_0_r, zdrop_0 in *.
  unfold DecodeKey. by rewrite D.
Qed.

(** What [BinarySeek] finds: the last restart point whose key is at most the
    target ([skip]: equal to it), or -1. *)
Definition bs_found (t : list Z) (l : Z) (skip : bool) : Prop :=
  -1 <= l < Z.of_nat nr /\
  (forall j e, Z.of_nat j = l -> es !! (j * k)%nat = Some e ->
     if skip then kcmp (shown (ekey e)) t = 0 else kcmp (shown (ekey e)) t < 0) /\
  (skip = true -> 0 <= l) /\
  (forall j e, l < Z.of_nat j < Z.of_nat nr -> es !! (j * k)%nat = Some e -> 0 < kcmp (shown (ekey e)) t).

Lemma restart_sorted i j ei ej : (i < j)%nat -> es !! (i * k)%nat = Some ei -> es !! (j * k)%nat = Some ej ->
  kcmp (shown (ekey ei)) (shown (ekey ej)) < 0.
Proof. intros Hij. apply SORT. pose proof (block_k BK). nia. Qed.

Lemma binary_seek_loop f t l r it : es <> [] -> static it ->
  -1 <= l <= r -> r < Z.of_nat nr -> r - l < 2 ^ Z.of_nat f ->
  (forall j e, Z.of_nat j = l -> es !! (j * k)%nat = Some e -> kcmp (shown (ekey e)) t < 0) ->
  (forall j e, r < Z.of_nat j < Z.of_nat nr -> es !! (j * k)%nat = Some e -> 0 < kcmp (shown (ekey e)) t) ->
  exists l' skip it', BlockIter.BinarySeek_loop f DecodeKey t l r false it = (Some (l', skip), it') /\
    static it' /\ bs_found t l' skip.
Proof.
  intros Hne. revert l r it. induction f as [|f IH]; intros l r it ST Hlr Hr Hf Hlo Hhi; cbn [BlockIter.BinarySeek_loop].
  - change (2 ^ Z.of_nat 0) with 1 in Hf. assert (l = r) as -> by lia. exists r, false, it.
    split; [done|]. split; [done|]. split; [lia|]. split; [done|]. split; [done|done].
  - destruct (Z.eqb_spec l r) as [->|Hn].
    { exists r, false, it. split; [done|]. split; [done|]. split; [lia|]. by split. }
    set (mid := l + (r - l + 1) / 2).
    assert (Hmid : l < mid <= r) by (unfold mid; Z.div_mod_to_equations; lia).
    assert (Hhalf : r - mid < 2 ^ Z.of_nat f /\ mid - 1 - l < 2 ^ Z.of_nat f).
    { rewrite Nat2Z.inj_succ, Z.pow_succ_r in Hf by lia. unfold mid. Z.div_mod_to_equations. lia. }
    pose proof (block_nr BK). rewrite u32_small by lia.
    destruct (restart_entry (Z.to_nat mid) Hne ltac:(lia)) as (e & He & E0 & ED & Eb).
    rewrite <- (Z2Nat.id mid) by lia. rewrite restart_point, static_bytes, (st_R _ ST), ED by (done || lia).
    cbn [Z.eqb negb]. rewrite Eb. set (it1 := BlockIter.set_entry _ _ it).
    assert (ST1 : static it1).
    { apply static_set_entry; [done|]. rewrite IsUserKey_SetKey. apply (st_usr _ ST). }
    rewrite (compare_current it1 t ST1). simpl. rewrite GetKey_SetKey, Z2Nat.id by lia.
    assert (Huniq : forall j e', Z.of_nat j = mid -> es !! (j * k)%nat = Some e' -> e' = e).
    { intros j e' Ej He'. replace j with (Z.to_nat mid) in He' by lia. congruence. }
    set (c := kcmp (shown (ekey e)) t) in *.
    destruct (Z.ltb_spec c 0) as [Hc|Hc]; [|rewrite Z.gtb_ltb; destruct (Z.ltb_spec 0 c) as [Hc'|Hc']].
    + apply IH; try done; try lia. intros j e' Ej He'. by rewrite (Huniq j e' Ej He').
    + apply IH; try done; try lia. intros j e' Hj He'.
      destruct (decide (Z.of_nat j = mid)) as [Ej|]; [by rewrite (Huniq j e' Ej He')|].
      destruct (decide (r < Z.of_nat j)); [apply (Hhi j); (done || lia)|].
      pose proof (restart_sorted (Z.to_nat mid) j e e' ltac:(lia) He He') as Hs.
      apply cmp_flip. apply (cmp_le_lt_trans t (shown (ekey e))); [|done]. apply cmp_flip_le. lia.
    + exists mid, true, it1. split.
      { destruct f; cbn [BlockIter.BinarySeek_loop]; [done|by rewrite Z.eqb_refl]. }
      split; [done|]. split; [lia|]. split.
      { intros j e' Ej He'. rewrite (Huniq j e' Ej He'). unfold c in *. lia. }
      split; [lia|]. intros j e' Hj He'.
      pose proof (restart_sorted (Z.to_nat mid) j e e' ltac:(lia) He He') as Hs.
      apply cmp_flip. apply (cmp_le_lt_trans t (shown (ekey e))); [|done]. apply cmp_flip_le. unfold c in *. lia.
Qed.

Lemma binary_seek it t : es <> [] -> static it ->
  exists index skip it', BlockIter.BinarySeek DecodeKey t it = (Some (Z.of_nat index, skip), it') /\
    static it' /\ (index < nr)%nat /\
    (bs_found t (Z.of_nat index) skip \/ (index = 0%nat /\ skip = true /\ bs_found t (-1) false)).
Proof.
  intros Hne ST. unfold BlockIter.BinarySeek. rewrite (st_R _ ST), (st_nr _ ST).
  assert (R <> 0).
  { pose proof n_bound. destruct es; [done|]. simpl in *. lia. }
  destruct (Z.eqb_spec R 0); [done|]. pose proof (layout_nr _ _ _ _ (block_layout BK)). pose proof (block_nr BK).
  rewrite u32_small by lia.
  destruct (binary_seek_loop 64 t (-1) (Z.of_nat nr - 1) it Hne ST) as (l & skip & it' & -> & ST' & F);
    [lia|lia|change (2 ^ Z.of_nat 64) with (2 ^ 64); lia|intros; lia|intros; lia|].
  pose proof F as (Hl & _ & Hs & _). destruct (Z.eqb_spec l (-1)) as [->|].
  - destruct skip; [lia|]. exists 0%nat, true, it'. split_and!; try done; try lia. by right.
  - exists (Z.to_nat l), skip, it'. rewrite Z2Nat.id, u32_small by lia. split_and!; try done; try lia. by left.
Qed.
End view.

(** C36: the bounds check of [CheckAndDecodeEntry] adds the two lengths in 32 bits. For every entry header (three
    32-bit numbers) in a block of less than 2^32 bytes, followed by [rest] up to the limit: while the key and value
    lengths add up to less than 2^32 the entry is accepted exactly if it fits, with the three numbers and the
    offset of its key; from 2^32 on it never fits, and it is accepted exactly if the sum less 2^32 does. *)
Theorem check_and_decode_overflow pre rest post shared non_shared value_length :
  let hd := lengths shared non_shared value_length in
  let limit := zlen pre + zlen (hd ++ rest) in
  let decoded := CheckAndDecodeEntry (pre ++ (hd ++ rest) ++ post) (zlen pre) limit in
  let sum := non_shared + value_length in
  is_u 32 shared -> is_u 32 non_shared -> is_u 32 value_length -> limit < 2 ^ 32 ->
  (forall r, decoded = Some r -> r = (shared, non_shared, value_length, limit - zlen rest)) /\
  (sum < 2 ^ 32 -> (is_Some decoded <-> sum <= zlen rest)) /\
  (2 ^ 32 <= sum -> zlen rest < sum /\ (is_Some decoded <-> sum - 2 ^ 32 <= zlen rest)).
Proof.
  intros hd limit decoded sum H1 H2 H3 Hlim.
  assert (Hr : 0 <= zlen rest < 2 ^ 32).
  { unfold limit in Hlim. rewrite zlen_app in Hlim. pose proof (zlen_nonneg pre). pose proof (zlen_nonneg hd). pose proof (zlen_nonneg rest). lia. }
  assert (E : decoded = if zlen rest <? u32 sum then None else Some (shared, non_shared, value_length, limit - zlen rest)).
  { unfold decoded, hd. rewrite CheckAndDecodeEntry_lengths by done. unfold limit. rewrite zlen_app.
    by replace (zlen pre + (zlen hd + zlen rest) - zlen rest) with (zlen pre + zlen hd) by lia. }
  assert (Ho : is_Some decoded <-> u32 sum <= zlen rest).
  { rewrite E. destruct (Z.ltb_spec (zlen rest) (u32 sum)); split; [by intros []|lia|done|by eexists]. }
  unfold is_u in *. split_and!.
  - intros r. rewrite E. destruct (zlen rest <? u32 sum); congruence.
  - intros Hs. by rewrite Ho, u32_small by (unfold sum in *; lia).
  - intros Hs. split; [lia|]. rewrite Ho. unfold u32.
    by rewrite <- (Z.mod_unique sum (2 ^ 32) 1 (sum - 2 ^ 32)) by (unfold sum in *; lia).
Qed.

(** A key of 2^32 - 1 bytes and a value of one byte, with nothing left in the block. *)
Lemma check_and_decode_overflow_witness :
  let hd := lengths 0 (2 ^ 32 - 1) 1 in
  is_Some (CheckAndDecodeEntry ([] ++ (hd ++ []) ++ []) 0 (0 + zlen (hd ++ []))) /\ zlen (A := Z) [] < 2 ^ 32 - 1 + 1.
Proof.
  destruct (check_and_decode_overflow [] [] [] 0 (2 ^ 32 - 1) 1) as (_ & _ & H); [done..|].
  destruct H as [Hfit Hsome]; [done|]. split; [by apply Hsome|exact Hfit].
Defined.
