(* ===== verification/BlockIterProofs.v ===== *)
(** * Block iterators: positioning

    The shared loops of the iterators, proved once against [IterLaws], the
    interface that says what a class's parsing function does; the meta and data
    iterators are instances, the latter with its cache of previous entries. On
    top, [cursor] is the abstract iterator over the list of entries, and the
    iterators are shown to refine it for every sequence of operations. *)

From stdpp Require Import prelude.
From Stdlib Require Import ZArith Lia Bool.
From S2P Require Import Prelude Coding Comparator Math Hash Status DbFormat BlockHashIndex BlockBuilder.
From S2P Require Import BlockIter BlockIterSpec.

(** ** The abstract cursor

    A list of keys and values in order and a position in it. *)

Inductive iter_op :=
  | OpSeekToFirst | OpSeekToLast | OpSeek (target : list Z) | OpSeekForPrev (target : list Z) | OpNext | OpPrev.

Section cursor.
Context (cmp : list Z -> list Z -> Z) (kvs : list (list Z * list Z)).

Definition valid_pos (i : nat) : option nat := if decide (i < length kvs)%nat then Some i else None.
Definition pred_pos (i : nat) : option nat := match i with O => None | S i => Some i end.
(** The first key at or after [t]; the last key at or before [t]. *)
Definition cursor_seek (t : list Z) : option nat := valid_pos (length (filter (fun kv => cmp kv.1 t < 0) kvs)).
Definition cursor_seek_prev (t : list Z) : option nat := pred_pos (length (filter (fun kv => cmp kv.1 t <= 0) kvs)).

Definition cursor_step (op : iter_op) (pos : option nat) : option nat :=
  match op with
  | OpSeekToFirst => valid_pos 0
  | OpSeekToLast => pred_pos (length kvs)
  | OpSeek t => cursor_seek t
  | OpSeekForPrev t => cursor_seek_prev t
  | OpNext => match pos with Some i => valid_pos (S i) | None => None end
  | OpPrev => match pos with Some i => pred_pos i | None => None end
  end.

(** The observations after each operation. *)
Fixpoint cursor_run (ops : list iter_op) (pos : option nat) : list (option (list Z * list Z) * Status) :=
  match ops with
  | [] => []
  | op :: ops =>
      let pos := cursor_step op pos in
      (match pos with Some i => kvs !! i | None => None end, St.OK) :: cursor_run ops pos
  end.
End cursor.

(** ** The interface *)

Section loops.
Context `{Port} `{DbFormat} `{IterKeyOps} `{EmptySlice} `{!IterKeyLaws} `{!DbFormatLaws}.
Context (es : list entry) (k nr : nat) (tail : list Z) (BK : block_ok es k nr tail).
Context (ucmp : list Z -> list Z -> Z) (usr : bool) (g : Z) `{!ComparatorLaws ucmp}.
Context (SORT : keys_sorted es ucmp usr g).

#[local] Abbreviation off := (BlockBuilder.off false es).
#[local] Abbreviation cnt := (length es).
#[local] Abbreviation R := (block_restarts es).
#[local] Abbreviation static := (static es k nr tail ucmp usr g).
#[local] Abbreviation Before := (Before es k nr tail ucmp usr g).
#[local] Abbreviation At := (At es k nr tail ucmp usr g).
#[local] Abbreviation Fin := (Fin es k nr tail ucmp usr g).
#[local] Abbreviation kcmp := (kcmp ucmp usr).
#[local] Abbreviation shown := (shown usr g).

(** States of an iterator class that refine the states of its [BlockIter]. *)
Class IterLaws (T : Type) `{!IterClass T} := {
  lOpen : T -> Prop;
  lAt : T -> nat -> entry -> Prop;
  lBefore : T -> nat -> Prop;
  lFin : T -> Prop;
  l_open_base s : lOpen s -> static (base s);
  l_at_base s i e : lAt s i e -> At (base s) i e;
  l_fin_base s : lFin s -> Fin (base s);
  l_at_open s i e : lAt s i e -> lOpen s;
  l_fin_open s : lFin s -> lOpen s;
  l_at_before s i e : lAt s i e -> lBefore s (S i);
  l_parse s i e : lBefore s i -> es !! i = Some e -> exists s', ParseNext s = (true, s') /\ lAt s' i e;
  l_parse_fin s : lBefore s cnt -> exists s', ParseNext s = (false, s') /\ lFin s';
  l_seek s j : lOpen s -> (j < nr)%nat -> lBefore (SeekToRestartPoint (Z.of_nat j) s) (j * k);
  l_set_base s it : lOpen s -> static it -> lOpen (set_base it s) /\ base (set_base it s) = it;
  l_set_fin s it : lOpen s -> Fin it -> lFin (set_base it s);
  l_set_at s it i e : lAt s i e -> At it i e -> lAt (set_base it s) i e;
}.

Context {T : Type} `{!IterClass T} `{!IterLaws T}.
Implicit Types s : T.

(** Abstract position: an entry, or past the end. *)
Definition at_pos s (pos : option nat) : Prop :=
  match pos with Some i => exists e, lAt s i e | None => lFin s end.

Lemma at_pos_open s pos : at_pos s pos -> lOpen s.
Proof. destruct pos; [intros [e A]; by eapply l_at_open|apply l_fin_open]. Qed.

Lemma seek_base s j : lOpen s -> (j < nr)%nat ->
  base (SeekToRestartPoint (Z.of_nat j) s) = BlockIter.SeekToRestartPoint (Z.of_nat j) (base s).
Proof.
  intros O Hj. unfold SeekToRestartPoint. apply l_set_base; [done|].
  apply (seek_restart_before es k nr tail BK ucmp usr g (base s) j); [by apply l_open_base|done].
Qed.

Lemma seek_restarts s j : lOpen s -> (j < nr)%nat ->
  BlockIter.restarts_ (base (SeekToRestartPoint (Z.of_nat j) s)) = R.
Proof.
  intros O Hj. rewrite seek_base by done.
  apply (st_R _ _ _ _ _ _ _ _ (bf_static _ _ _ _ _ _ _ _ _ (proj1 (seek_restart_before es k nr tail BK ucmp usr g (base s) j (l_open_base s O) Hj)))).
Qed.

(** Scanning from entry [i] until the next entry would start at entry [m]. *)
Lemma scan_until_at f s i m : lBefore s i -> (i < m <= cnt)%nat -> (m - i <= f)%nat ->
  exists e, lAt (scan_until f (off m) s) (m - 1) e.
Proof.
  revert s i. induction f as [|f IH]; intros s i B Hm Hf; [lia|]. cbn [scan_until].
  destruct (lookup_lt_is_Some_2 es i) as [e He]; [lia|].
  destruct (l_parse s i e B He) as (s' & -> & A). cbn [andb].
  rewrite (at_next es k nr tail BK ucmp usr g _ i e (l_at_base _ _ _ A)).
  destruct (Z.ltb_spec (off (S i)) (off m)) as [Hlt|Hge].
  - apply (off_lt_iff es k nr tail BK) in Hlt; [|lia..]. apply (IH s' (S i)); [by eapply l_at_before|lia|lia].
  - assert (m = S i) as ->.
    { destruct (decide (S i < m)%nat) as [Hlt|]; [|lia]. apply (off_lt_iff es k nr tail BK) in Hlt; lia. }
    exists e. by replace (S i - 1)%nat with i by lia.
Qed.

Lemma scan_until_empty f s bound : lBefore s cnt -> (1 <= f)%nat -> lFin (scan_until f bound s).
Proof.
  intros B Hf. destruct f as [|f]; [lia|]. cbn [scan_until]. by destruct (l_parse_fin s B) as (s' & -> & F).
Qed.

Lemma scan_fuel_enough s : lOpen s -> (cnt < scan_fuel s)%nat.
Proof.
  intros O. unfold scan_fuel. rewrite (st_R _ _ _ _ _ _ _ _ (l_open_base s O)).
  pose proof (n_bound es k nr tail BK). lia.
Qed.

Lemma open_data s : lOpen s -> exists d, BlockIter.data_ (base s) = Some d.
Proof. intros O. eexists. apply (st_data _ _ _ _ _ _ _ _ (l_open_base s O)). Qed.

Lemma seek_scan s j : lOpen s -> (j < nr)%nat -> (cnt < scan_fuel (SeekToRestartPoint (Z.of_nat j) s))%nat.
Proof.
  intros O Hj. unfold scan_fuel. rewrite seek_restarts by done. pose proof (n_bound es k nr tail BK). lia.
Qed.

(** ** The operations *)

Definition first_pos : option nat := if decide (cnt = 0%nat) then None else Some 0%nat.
Definition last_pos : option nat := if decide (cnt = 0%nat) then None else Some (cnt - 1)%nat.

Lemma SeekToFirst_pos s : lOpen s -> at_pos (SeekToFirstImpl s) first_pos.
Proof.
  intros O. unfold SeekToFirstImpl. destruct (open_data s O) as [d ->].
  pose proof (layout_nr _ _ _ _ (block_layout _ _ _ _ BK)). pose proof (l_seek s 0 O ltac:(lia)) as B.
  change (Z.of_nat 0) with 0 in B. simpl in B. unfold first_pos. destruct (decide (cnt = 0%nat)) as [E|E].
  - assert (B' : lBefore (SeekToRestartPoint 0 s) cnt) by (by rewrite E).
    by destruct (l_parse_fin _ B') as (s' & -> & F).
  - destruct (lookup_lt_is_Some_2 es 0) as [e He]; [lia|].
    destruct (l_parse _ 0 e B He) as (s' & -> & A). by exists e.
Qed.

Lemma last_restart : (1 <= nr)%nat /\ (nr - 1 < nr)%nat /\
  (cnt = 0%nat -> ((nr - 1) * k = 0)%nat) /\ (cnt <> 0%nat -> ((nr - 1) * k < cnt)%nat).
Proof.
  destruct (block_layout _ _ _ _ BK) as [_ L2 _ L4 L5]. split_and!; try lia.
  - intros E. apply length_zero_iff_nil in E. rewrite (L5 E). lia.
  - intros E. apply L4; [lia|]. intros ->. done.
Qed.

Lemma SeekToLast_pos s : lOpen s -> at_pos (SeekToLastImpl s) last_pos.
Proof.
  intros O. unfold SeekToLastImpl. destruct (open_data s O) as [d ->].
  destruct last_restart as (Hn & Hlt & Hz & Hp). pose proof (block_nr _ _ _ _ BK).
  rewrite (st_nr _ _ _ _ _ _ _ _ (l_open_base s O)), u32_small by lia.
  replace (Z.of_nat nr - 1) with (Z.of_nat (nr - 1)) by lia.
  rewrite seek_restarts by done. pose proof (l_seek s (nr - 1) O Hlt) as B.
  pose proof (seek_scan s (nr - 1) O Hlt). unfold last_pos. destruct (decide (cnt = 0%nat)) as [E|E].
  - apply scan_until_empty; [|lia]. by replace cnt with ((nr - 1) * k)%nat by (specialize (Hz E); lia).
  - rewrite <- (off_n es). apply (scan_until_at _ _ ((nr - 1) * k)); [done| |]; specialize (Hp E); lia.
Qed.

(** *** Prev *)

Lemma restart_before_ok f it i : static it -> (i <= cnt)%nat ->
  0 <= BlockIter.restart_index_ it < Z.of_nat nr -> (Z.to_nat (BlockIter.restart_index_ it) < f)%nat ->
  match restart_before f (off i) it with
  | Some j => exists j', j = Z.of_nat j' /\ (j' < nr)%nat /\ (j' * k < i)%nat
  | None => i = 0%nat
  end.
Proof.
  revert it. induction f as [|f IH]; intros it ST Hi Hr Hf; [lia|]. cbn [restart_before].
  pose proof (restart_point es k nr tail BK ucmp usr g it (Z.to_nat (BlockIter.restart_index_ it)) ST ltac:(lia)) as Ep.
  rewrite Z2Nat.id in Ep by lia. rewrite Ep, Z.geb_leb.
  pose proof (restart_le es k nr tail BK (Z.to_nat (BlockIter.restart_index_ it)) ltac:(lia)) as Hle.
  destruct (Z.leb_spec (off i) (off (Z.to_nat (BlockIter.restart_index_ it) * k))) as [Hge|Hlt].
  - destruct (Z.eqb_spec (BlockIter.restart_index_ it) 0) as [E0|Hn0].
    + rewrite E0 in Hge. simpl in Hge. destruct (decide (i = 0%nat)); [done|].
      pose proof (off_lt es k nr tail BK 0 i). change (off 0) with 0 in *. lia.
    + apply IH; simpl; try lia. by apply static_set_pos.
  - exists (Z.to_nat (BlockIter.restart_index_ it)). split; [lia|]. split; [lia|].
    by apply (off_lt_iff es k nr tail BK).
Qed.

Lemma fin_set it : static it -> Fin (BlockIter.set_pos (BlockIter.restarts_ it) (BlockIter.num_restarts_ it) it).
Proof. intros ST. split; [by apply static_set_pos|]. apply (st_R _ _ _ _ _ _ _ _ ST). Qed.

Lemma Prev_pos s i e : lAt s i e -> at_pos (PrevImpl s) (pred_pos i).
Proof.
  intros A. pose proof (l_at_open _ _ _ A) as O. pose proof (l_at_base _ _ _ A) as [ST He Ec _ _ Hr].
  apply lookup_lt_Some in He. unfold PrevImpl. rewrite Ec.
  pose proof (restart_before_ok (Z.to_nat (BlockIter.restart_index_ (base s) + 1)) (base s) i ST ltac:(lia) Hr ltac:(lia)) as HB.
  destruct (restart_before _ _ _) as [j|].
  - destruct HB as (j' & -> & Hj & Hlt). destruct i as [|i]; [lia|]. simpl.
    pose proof (l_seek s j' O Hj) as B. pose proof (seek_scan s j' O Hj).
    destruct (scan_until_at (scan_fuel (SeekToRestartPoint (Z.of_nat j') s)) _ _ (S i) B) as [e' A']; [lia|lia|].
    exists e'. by replace (S i - 1)%nat with i in A' by lia.
  - rewrite HB. simpl. apply l_set_fin; [done|by apply fin_set].
Qed.

(** *** Seek *)

(** The number of keys below the target, and at or below it. *)
Definition lower_bound (t : list Z) : nat := length (filter (fun e => kcmp (shown (ekey e)) t < 0) es).
Definition upper_bound (t : list Z) : nat := length (filter (fun e => kcmp (shown (ekey e)) t <= 0) es).

Lemma filter_prefix (P : entry -> Prop) `{!forall e, Decision (P e)} (l : list entry) m :
  (m <= length l)%nat -> (forall i e, (i < m)%nat -> l !! i = Some e -> P e) ->
  (forall i e, (m <= i)%nat -> l !! i = Some e -> ~ P e) -> length (filter P l) = m.
Proof.
  revert m. induction l as [|x l IH]; intros m Hm Hlo Hhi; [simpl in *; lia|].
  destruct m as [|m].
  - rewrite filter_cons_False by (apply (Hhi 0%nat); [lia|done]). apply IH; [lia|intros; lia|].
    intros i e _ Hi. apply (Hhi (S i)); [lia|done].
  - rewrite filter_cons_True by (apply (Hlo 0%nat); [lia|done]). simpl. f_equal. apply IH; [simpl in *; lia| |].
    + intros i e Hi He. apply (Hlo (S i)); [lia|done].
    + intros i e Hi He. apply (Hhi (S i)); [lia|done].
Qed.

Lemma filter_split (P : entry -> Prop) `{!forall e, Decision (P e)} (l : list entry) :
  (forall i j ei ej, (i < j)%nat -> l !! i = Some ei -> l !! j = Some ej -> P ej -> P ei) ->
  let m := length (filter P l) in
  (m <= length l)%nat /\ (forall i e, (i < m)%nat -> l !! i = Some e -> P e) /\
  (forall i e, (m <= i)%nat -> l !! i = Some e -> ~ P e).
Proof.
  induction l as [|x l IH]; intros Hd; [by simpl; split_and!; intros|].
  destruct (decide (P x)) as [Hx|Hx].
  - rewrite filter_cons_True by done. cbn [length].
    destruct IH as (I1 & I2 & I3); [intros i j ei ej Hij; apply (Hd (S i) (S j)); lia|].
    split_and!; [simpl; lia| |]; intros [|i] e Hi He; simpl in He; simplify_eq; try done; try lia;
      [apply (I2 i)|apply (I3 i)]; (done || lia).
  - rewrite filter_cons_False by done.
    assert (Hn : forall i e, l !! i = Some e -> ~ P e)
      by (intros i e He Hp; apply Hx; by apply (Hd 0%nat (S i) x e ltac:(lia))).
    rewrite (filter_prefix P l 0); [|lia|intros; lia|intros i e _; apply Hn].
    split_and!; [simpl; lia|intros; lia|]. intros [|i] e _ He; simpl in He; [by simplify_eq|by apply (Hn i)].
Qed.

(** With sorted keys, comparing with the target is monotone. *)
Lemma sorted_lt t i j ei ej : (i <= j)%nat -> es !! i = Some ei -> es !! j = Some ej ->
  kcmp (shown (ekey ej)) t < 0 -> kcmp (shown (ekey ei)) t < 0.
Proof.
  intros Hij Hi Hj Hc. destruct (decide (i = j)) as [->|]; [congruence|].
  pose proof (SORT i j ei ej ltac:(lia) Hi Hj).
  pose proof (kcmp_laws ucmp usr). by eapply cmp_lt_trans.
Qed.
Lemma sorted_le t i j ei ej : (i < j)%nat -> es !! i = Some ei -> es !! j = Some ej ->
  kcmp (shown (ekey ej)) t <= 0 -> kcmp (shown (ekey ei)) t < 0.
Proof.
  intros Hij Hi Hj Hc. pose proof (SORT i j ei ej Hij Hi Hj).
  pose proof (kcmp_laws ucmp usr). by eapply cmp_lt_le_trans.
Qed.

Lemma lower_bound_intro t m : (m <= cnt)%nat ->
  (forall e, es !! (m - 1)%nat = Some e -> (0 < m)%nat -> kcmp (shown (ekey e)) t < 0) ->
  (forall e, es !! m = Some e -> 0 <= kcmp (shown (ekey e)) t) -> lower_bound t = m.
Proof.
  intros Hm Hlo Hhi. apply filter_prefix; [done| |].
  - intros i e Hi He. destruct (lookup_lt_is_Some_2 es (m - 1)) as [e' He']; [lia|].
    eapply sorted_lt; [|done|done|by apply Hlo; [|lia]]. lia.
  - intros i e Hi He Hc. destruct (lookup_lt_is_Some_2 es m) as [e' He']; [apply lookup_lt_Some in He; lia|].
    specialize (Hhi e' He'). pose proof (sorted_lt t m i e' e Hi He' He Hc). lia.
Qed.

Lemma lower_bound_spec t :
  (lower_bound t <= cnt)%nat /\
  (forall i e, (i < lower_bound t)%nat -> es !! i = Some e -> kcmp (shown (ekey e)) t < 0) /\
  (forall i e, (lower_bound t <= i)%nat -> es !! i = Some e -> 0 <= kcmp (shown (ekey e)) t).
Proof.
  destruct (filter_split (fun e => kcmp (shown (ekey e)) t < 0) es) as (L1 & L2 & L3).
  - intros i j ei ej Hij Hi Hj Hc. eapply (sorted_lt t i j); [lia|done|done|done].
  - split_and!; [done|done|]. intros i e Hi He. specialize (L3 i e Hi He). lia.
Qed.

Definition pos_of (m : nat) : option nat := if decide (m < cnt)%nat then Some m else None.

Lemma linear_search_pos f t max_offset s i :
  lBefore s i -> (0 < i <= cnt)%nat -> (cnt - i < f)%nat ->
  (forall e, es !! (i - 1)%nat = Some e -> kcmp (shown (ekey e)) t < 0) ->
  (forall m e, (i <= m)%nat -> es !! m = Some e -> off m = max_offset -> 0 < kcmp (shown (ekey e)) t) ->
  at_pos (linear_search f t max_offset s) (pos_of (lower_bound t)).
Proof.
  revert s i. induction f as [|f IH]; intros s i B Hi Hf Hlo Hmax; [lia|]. cbn [linear_search].
  unfold NextImpl. destruct (decide (i = cnt)) as [->|Hne].
  - destruct (l_parse_fin s B) as (s' & -> & F). cbn [snd].
    rewrite (fin_valid _ _ _ _ _ _ _ _ (l_fin_base _ F)). cbn [negb].
    rewrite (lower_bound_intro t cnt); [|lia|intros; by apply Hlo|intros e He; apply lookup_lt_Some in He; lia].
    unfold pos_of. by rewrite decide_False by lia.
  - destruct (lookup_lt_is_Some_2 es i) as [e He]; [lia|].
    destruct (l_parse s i e B He) as (s' & -> & A). cbn [snd]. pose proof (l_at_base _ _ _ A) as Ab.
    rewrite (at_valid es k nr tail BK ucmp usr g _ _ _ Ab). cbn [negb].
    rewrite (at_cur _ _ _ _ _ _ _ _ _ _ Ab).
    rewrite (compare_current es k nr tail ucmp usr g _ t (at_static _ _ _ _ _ _ _ _ _ _ Ab)), (at_key _ _ _ _ _ _ _ _ _ _ Ab).
    assert (Hfound : 0 <= kcmp (shown (ekey e)) t -> at_pos s' (pos_of (lower_bound t))).
    { intros Hc. rewrite (lower_bound_intro t i); [|lia|intros; by apply Hlo|intros; congruence].
      unfold pos_of. rewrite decide_True by lia. by exists e. }
    destruct (Z.eqb_spec (off i) max_offset) as [Em|_].
    + apply Hfound. pose proof (Hmax i e ltac:(lia) He Em). lia.
    + rewrite Z.geb_leb. destruct (Z.leb_spec 0 (kcmp (shown (ekey e)) t)) as [Hc|Hc]; [by apply Hfound|].
      apply (IH s' (S i)); [by eapply l_at_before|lia|lia| |].
      * intros e' He'. replace (S i - 1)%nat with i in He' by lia. congruence.
      * intros m e' Hm. apply Hmax. lia.
Qed.

(** Parsing the entry of a restart point. *)
Lemma next_at_restart s j : es <> [] -> lOpen s -> (j < nr)%nat ->
  exists e, es !! (j * k)%nat = Some e /\ lAt (NextImpl (SeekToRestartPoint (Z.of_nat j) s)) (j * k) e.
Proof.
  intros Hne O Hj. pose proof (layout_nr_pos _ _ _ _ (block_layout _ _ _ _ BK) j Hj Hne) as Hlt.
  destruct (lookup_lt_is_Some_2 es _ Hlt) as [e He]. exists e. split; [done|].
  unfold NextImpl. by destruct (l_parse _ _ e (l_seek s j O Hj) He) as (s' & -> & A).
Qed.

Lemma find_key_pos t index skip s : es <> [] -> lOpen s -> (index < nr)%nat ->
  bs_found es k nr ucmp usr g t (Z.of_nat index) skip \/
  (index = 0%nat /\ skip = true /\ bs_found es k nr ucmp usr g t (-1) false) ->
  at_pos (FindKeyAfterBinarySeek t (Z.of_nat index) skip s) (pos_of (lower_bound t)).
Proof.
  intros Hne O Hj HF. unfold FindKeyAfterBinarySeek.
  destruct (next_at_restart s index Hne O Hj) as (e & He & A). set (s1 := NextImpl _) in *.
  pose proof (lookup_lt_Some _ _ _ He) as Hlt. pose proof (block_nr _ _ _ _ BK). pose proof (block_k _ _ _ _ BK).
  destruct skip; cbn [negb].
  - rewrite (lower_bound_intro t (index * k)); [|lia| |].
    + unfold pos_of. rewrite decide_True by lia. by exists e.
    + intros e' He' Hpos. destruct HF as [(_ & HF & _)|(-> & _)]; [|lia].
      eapply (sorted_le t (index * k - 1) (index * k)); [lia|done|done|].
      specialize (HF index e eq_refl He). simpl in HF. lia.
    + intros e' He'. assert (e' = e) as -> by congruence.
      destruct HF as [(_ & HF & _)|(-> & _ & _ & _ & _ & HF)].
      * specialize (HF index e eq_refl He). simpl in HF. lia.
      * specialize (HF 0%nat e ltac:(lia) He). lia.
  - destruct HF as [(_ & Hlo & _ & Hhi)|(_ & [=] & _)].
    pose proof (l_at_base _ _ _ A) as Ab. pose proof (at_static _ _ _ _ _ _ _ _ _ _ Ab) as ST.
    pose proof (scan_fuel_enough s1 (l_at_open _ _ _ A)).
    rewrite (st_nr _ _ _ _ _ _ _ _ ST), u32_small by lia.
    apply (linear_search_pos _ _ _ _ (S (index * k))); [by eapply l_at_before|lia|lia| |].
    + intros e' He'. replace (S (index * k) - 1)%nat with (index * k)%nat in He' by lia.
      apply (Hlo index e' eq_refl He').
    + intros m e' Hm He' Eo. pose proof (lookup_lt_Some _ _ _ He').
      destruct (Z.ltb_spec (Z.of_nat index + 1) (Z.of_nat nr)) as [Hlast|Hlast].
      * replace (Z.of_nat index + 1) with (Z.of_nat (S index)) in Eo by lia.
        rewrite (restart_point es k nr tail BK ucmp usr g _ _ ST) in Eo by lia.
        pose proof (restart_le es k nr tail BK (S index) ltac:(lia)).
        apply (off_inj es k nr tail BK) in Eo as ->; [|lia|lia]. apply (Hhi (S index) e'); [lia|done].
      * pose proof (R_bound es k nr tail BK). pose proof (off_S_lt es k nr tail BK m e' He').
        pose proof (off_le_R es k nr tail BK (S m)). lia.
Qed.

Lemma Seek_pos t s : es <> [] -> lOpen s -> at_pos (SeekImpl t s) (pos_of (lower_bound t)).
Proof.
  intros Hne O. unfold SeekImpl. destruct (open_data s O) as [d ->].
  destruct (binary_seek es k nr tail BK ucmp usr g SORT (base s) t Hne (l_open_base s O))
    as (index & skip & it' & -> & ST & Hj & HF).
  apply find_key_pos; [done|by apply l_set_base|done|done].
Qed.

Lemma Seek_empty t s : es = [] -> lOpen s -> SeekImpl t s = set_base (base s) s.
Proof.
  intros E O. unfold SeekImpl. destruct (open_data s O) as [d ->].
  unfold BlockIter.BinarySeek. by rewrite (st_R _ _ _ _ _ _ _ _ (l_open_base s O)), E.
Qed.

(** *** SeekForPrev *)

Lemma upper_bound_intro t m : (m <= cnt)%nat ->
  (forall e, es !! (m - 1)%nat = Some e -> (0 < m)%nat -> kcmp (shown (ekey e)) t <= 0) ->
  (forall e, es !! m = Some e -> 0 < kcmp (shown (ekey e)) t) -> upper_bound t = m.
Proof.
  intros Hm Hlo Hhi. apply filter_prefix; [done| |].
  - intros i e Hi He. destruct (lookup_lt_is_Some_2 es (m - 1)) as [e' He']; [lia|].
    specialize (Hlo e' He' ltac:(lia)). destruct (decide (i = m - 1)%nat) as [->|]; [congruence|].
    apply Z.lt_le_incl. eapply (sorted_le t i (m - 1)); [lia|done|done|done].
  - intros i e Hi He Hc. destruct (lookup_lt_is_Some_2 es m) as [e' He']; [apply lookup_lt_Some in He; lia|].
    specialize (Hhi e' He'). destruct (decide (i = m)) as [->|]; [simplify_eq; lia|].
    pose proof (sorted_le t m i e' e ltac:(lia) He' He Hc). lia.
Qed.

Context (prev : T -> T) (PREV : forall s i e, lAt s i e -> at_pos (prev s) (pred_pos i)).

Lemma back_up_pos f t s i e : lAt s i e -> (i < f)%nat ->
  (forall e', es !! S i = Some e' -> 0 < kcmp (shown (ekey e')) t) ->
  at_pos (back_up f prev t s) (pred_pos (upper_bound t)).
Proof.
  revert s i e. induction f as [|f IH]; intros s i e A Hf Hhi; [lia|]. cbn [back_up].
  pose proof (l_at_base _ _ _ A) as Ab. pose proof (at_entry _ _ _ _ _ _ _ _ _ _ Ab) as He.
  rewrite (at_valid es k nr tail BK ucmp usr g _ _ _ Ab). cbn [andb].
  rewrite (compare_current es k nr tail ucmp usr g _ t (at_static _ _ _ _ _ _ _ _ _ _ Ab)), (at_key _ _ _ _ _ _ _ _ _ _ Ab).
  pose proof (lookup_lt_Some _ _ _ He). rewrite Z.gtb_ltb.
  destruct (Z.ltb_spec 0 (kcmp (shown (ekey e)) t)) as [Hc|Hc].
  - pose proof (PREV s i e A) as HP. destruct i as [|i]; simpl in HP.
    + rewrite (upper_bound_intro t 0); [|lia|intros; lia|intros; congruence]. simpl.
      destruct f as [|f]; cbn [back_up]; [done|].
      by rewrite (fin_valid _ _ _ _ _ _ _ _ (l_fin_base _ HP)).
    + destruct HP as [e' A']. apply (IH _ i e'); [done|lia|]. intros e'' He''. congruence.
  - rewrite (upper_bound_intro t (S i)); [by exists e|lia| |done].
    intros e' He' _. replace (S i - 1)%nat with i in He' by lia. congruence.
Qed.

Lemma SeekForPrev_pos t s : es <> [] -> lOpen s ->
  at_pos (SeekForPrevImpl prev t s) (pred_pos (upper_bound t)).
Proof.
  intros Hne O. unfold SeekForPrevImpl. destruct (open_data s O) as [d ->].
  destruct (binary_seek es k nr tail BK ucmp usr g SORT (base s) t Hne (l_open_base s O))
    as (index & skip & it' & -> & ST & Hj & HF).
  pose proof (find_key_pos t index skip (set_base it' s) Hne (proj1 (l_set_base s it' O ST)) Hj HF) as HP.
  set (s1 := FindKeyAfterBinarySeek _ _ _ _) in *. pose proof (at_pos_open _ _ HP) as O1.
  destruct (lower_bound_spec t) as (Hle & Hlo & Hhi). unfold pos_of in HP.
  destruct (decide (lower_bound t < cnt)%nat) as [Hlt|Hge].
  - destruct HP as [e A]. pose proof (l_at_base _ _ _ A) as Ab.
    rewrite (at_valid es k nr tail BK ucmp usr g _ _ _ Ab). cbn [negb].
    pose proof (scan_fuel_enough s1 O1). apply (back_up_pos _ t s1 (lower_bound t) e); [done|lia|].
    intros e' He'. pose proof (at_entry _ _ _ _ _ _ _ _ _ _ Ab) as He.
    pose proof (SORT _ _ _ _ (Nat.lt_succ_diag_r _) He He') as Hs. specialize (Hhi _ _ (le_n _) He).
    pose proof (kcmp_laws ucmp usr). apply cmp_flip. eapply cmp_le_lt_trans; [|exact Hs]. by apply cmp_flip_le.
  - rewrite (fin_valid _ _ _ _ _ _ _ _ (l_fin_base _ HP)). cbn [negb].
    pose proof (SeekToLast_pos s1 O1) as HS. unfold last_pos in HS.
    assert (cnt <> 0%nat) by (intros E; by apply length_zero_iff_nil in E).
    rewrite decide_False in HS by done. rewrite (upper_bound_intro t cnt).
    + unfold pred_pos. destruct cnt as [|m] eqn:E; [done|]. by replace (S m - 1)%nat with m in HS by lia.
    + done.
    + intros e He _. apply Z.lt_le_incl. apply (Hlo (cnt - 1)%nat); [lia|done].
    + intros e He. apply lookup_lt_Some in He. lia.
Qed.

(** *** The key shown *)

Lemma UpdateKey_at it i e : At it i e ->
  At (BlockIter.UpdateKey it) i e /\ BlockIter.key_ (BlockIter.UpdateKey it) = shown (ekey e).
Proof.
  intros A. unfold BlockIter.UpdateKey, BlockIter.GetUserKey, BlockIterSpec.shown.
  rewrite (at_valid es k nr tail BK ucmp usr g _ _ _ A). destruct A as [[S1 S2 S3 S4 S5 S6 S7] A1 A2 A3 A4 A5].
  cbn [negb]. rewrite S5, S6, A3.
  destruct usr; [|destruct (g =? _)]; (split; [by split|]); simpl; try done. apply GetKey_SetInternalKey.
Qed.
Lemma UpdateKey_fin it : Fin it -> Fin (BlockIter.UpdateKey it).
Proof.
  intros F. unfold BlockIter.UpdateKey. rewrite (fin_valid _ _ _ _ _ _ _ _ F).
  destruct F as [[S1 S2 S3 S4 S5 S6 S7] ?]. by split.
Qed.

(** What the user sees: nothing when the iterator is not valid, else the key and
    the bytes of the value; and the status. *)
Definition observe s : option (list Z * list Z) * Status :=
  let it := base s in
  (if BlockIter.Valid it
   then Some (BlockIter.key_ it, zsub (fst (BlockIter.value_ it)) (snd (BlockIter.value_ it)) (BlockIter.bytes it))
   else None, BlockIter.status_ it).

(** A state as the user can meet it between operations. *)
Definition visible s (pos : option nat) : Prop :=
  at_pos s pos /\
  observe s = (match pos with
               | Some i => (fun e => (shown (ekey e), evalue e)) <$> es !! i
               | None => None
               end, St.OK).

Lemma with_UpdateKey_visible op s pos : at_pos (op s) pos -> visible (with_UpdateKey op s) pos.
Proof.
  intros P. unfold with_UpdateKey, visible. set (s1 := op s) in *. pose proof (at_pos_open s1 pos P) as O.
  destruct pos as [i|].
  - destruct P as [e A]. destruct (UpdateKey_at _ i e (l_at_base _ _ _ A)) as [A' Ek].
    destruct (l_set_base s1 _ O (at_static _ _ _ _ _ _ _ _ _ _ A')) as [_ Eb].
    split; [exists e; by apply l_set_at|]. unfold observe. rewrite Eb.
    rewrite (at_valid es k nr tail BK ucmp usr g _ _ _ A'), Ek.
    destruct A' as [ST He _ _ Ev _]. rewrite He, Ev, (st_ok _ _ _ _ _ _ _ _ ST), (static_bytes _ _ _ _ _ _ _ _ ST). simpl.
    by destruct (decode_entry es k nr tail BK i e He) as (_ & _ & _ & -> & _).
  - pose proof (UpdateKey_fin _ (l_fin_base _ P)) as F'.
    destruct (l_set_base s1 _ O (fin_static _ _ _ _ _ _ _ _ F')) as [_ Eb].
    split; [by apply l_set_fin|]. unfold observe. rewrite Eb, (fin_valid _ _ _ _ _ _ _ _ F').
    by rewrite (st_ok _ _ _ _ _ _ _ _ (fin_static _ _ _ _ _ _ _ _ F')).
Qed.

Lemma Next_pos s i e : lAt s i e -> at_pos (NextImpl s) (pos_of (S i)).
Proof.
  intros A. pose proof (l_at_before _ _ _ A) as B. pose proof (at_entry _ _ _ _ _ _ _ _ _ _ (l_at_base _ _ _ A)) as He.
  apply lookup_lt_Some in He. unfold NextImpl, pos_of. destruct (decide (S i < cnt)%nat) as [Hlt|Hge].
  - destruct (lookup_lt_is_Some_2 es (S i) Hlt) as [e' He'].
    destruct (l_parse s (S i) e' B He') as (s' & -> & A'). by exists e'.
  - replace (S i) with cnt in B by lia. by destruct (l_parse_fin s B) as (s' & -> & F).
Qed.

(** The user's operations; [Next] and [Prev] require a valid iterator. *)
Definition run_op (op : iter_op) s : T :=
  match op with
  | OpSeekToFirst => with_UpdateKey SeekToFirstImpl s
  | OpSeekToLast => with_UpdateKey SeekToLastImpl s
  | OpSeek t => with_UpdateKey (SeekImpl t) s
  | OpSeekForPrev t => with_UpdateKey (SeekForPrevImpl prev t) s
  | OpNext => if BlockIter.Valid (base s) then with_UpdateKey NextImpl s else s
  | OpPrev => if BlockIter.Valid (base s) then with_UpdateKey prev s else s
  end.

Definition entries : list (list Z * list Z) := map (fun e => (shown (ekey e), evalue e)) es.

Lemma length_entries : length entries = cnt.
Proof. apply length_map. Qed.
Lemma filter_entries (P : list Z * list Z -> Prop) (Q : entry -> Prop)
    `{!forall x, Decision (P x)} `{!forall e, Decision (Q e)} :
  (forall e, P (shown (ekey e), evalue e) <-> Q e) -> length (filter P entries) = length (filter Q es).
Proof.
  intros HPQ. unfold entries. clear - HPQ. induction es as [|e l IH]; [done|]. cbn [map]. rewrite !filter_cons.
  specialize (HPQ e). do 2 case_decide; simpl; try tauto; by rewrite IH.
Qed.

Lemma valid_pos_entries m : valid_pos entries m = pos_of m.
Proof. unfold valid_pos, pos_of. by rewrite length_entries. Qed.

(** On an empty block every position is past the end. *)
Lemma empty_pos s pos : es = [] -> at_pos s pos -> pos = None.
Proof.
  intros E P. destruct pos as [i|]; [|done]. destruct P as [e A].
  pose proof (at_entry _ _ _ _ _ _ _ _ _ _ (l_at_base _ _ _ A)) as He. by rewrite E in He.
Qed.

Lemma seek_ops_empty s t pos : es = [] -> at_pos s pos ->
  at_pos (SeekImpl t s) None /\ at_pos (SeekForPrevImpl prev t s) None.
Proof.
  intros E P. pose proof (empty_pos s pos E P) as ->. simpl in *. pose proof (l_fin_open s P) as O.
  assert (F : lFin (set_base (base s) s)) by (by apply l_set_fin, l_fin_base).
  unfold SeekImpl, SeekForPrevImpl, BlockIter.BinarySeek. destruct (open_data s O) as [d ->].
  by rewrite (st_R _ _ _ _ _ _ _ _ (l_open_base s O)), E.
Qed.

Lemma run_op_step op s pos : visible s pos -> visible (run_op op s) (cursor_step kcmp entries op pos).
Proof.
  intros V. pose proof V as [P Hobs]. pose proof (at_pos_open s pos P) as O.
  assert (Hv : BlockIter.Valid (base s) = match pos with Some _ => true | None => false end).
  { destruct pos as [i|]; [destruct P as [e A]; apply (at_valid es k nr tail BK ucmp usr g _ _ _ (l_at_base _ _ _ A))|].
    apply (fin_valid _ _ _ _ _ _ _ _ (l_fin_base _ P)). }
  assert (Hseek : forall t, at_pos (SeekImpl t s) (cursor_seek kcmp entries t) /\
                            at_pos (SeekForPrevImpl prev t s) (cursor_seek_prev kcmp entries t)).
  { intros t. unfold cursor_seek, cursor_seek_prev. rewrite valid_pos_entries.
    assert (El : length (filter (fun kv => kcmp kv.1 t < 0) entries) = lower_bound t)
      by (by apply filter_entries).
    assert (Eu : length (filter (fun kv => kcmp kv.1 t <= 0) entries) = upper_bound t)
      by (by apply filter_entries).
    rewrite El, Eu. clear El Eu.
    destruct (decide (es = [])) as [E|Hne].
    - destruct (seek_ops_empty s t pos E P) as [S1 S2]. unfold pos_of, lower_bound, upper_bound. by rewrite E.
    - split; [by apply Seek_pos|by apply SeekForPrev_pos]. }
  destruct op; cbn [run_op cursor_step]; rewrite ?Hv.
  - apply with_UpdateKey_visible. pose proof (SeekToFirst_pos s O) as HF. rewrite valid_pos_entries.
    unfold first_pos, pos_of in *. destruct (decide (cnt = 0%nat)); [rewrite decide_False by lia|rewrite decide_True by lia]; done.
  - apply with_UpdateKey_visible. pose proof (SeekToLast_pos s O) as HF. rewrite length_entries.
    unfold last_pos in HF. destruct cnt as [|m]; [done|]. simpl in HF. by rewrite Nat.sub_0_r in HF.
  - apply with_UpdateKey_visible, Hseek.
  - apply with_UpdateKey_visible, Hseek.
  - destruct pos as [i|]; [|done]. destruct P as [e A]. apply with_UpdateKey_visible. rewrite valid_pos_entries.
    by eapply Next_pos.
  - destruct pos as [i|]; [|done]. destruct P as [e A]. apply with_UpdateKey_visible. by eapply PREV.
Qed.

(** The observations of the iterator after each operation. *)
Fixpoint run_ops (ops : list iter_op) s : list (option (list Z * list Z) * Status) :=
  match ops with
  | [] => []
  | op :: ops => let s := run_op op s in observe s :: run_ops ops s
  end.

Lemma run_ops_cursor ops s pos : visible s pos -> run_ops ops s = cursor_run kcmp entries ops pos.
Proof.
  revert s pos. induction ops as [|op ops IH]; intros s pos V; [done|]. cbn [run_ops cursor_run].
  pose proof (run_op_step op s pos V) as V'. f_equal; [|by apply IH].
  destruct V' as [_ ->]. f_equal. destruct (cursor_step _ _ _ _) as [i|]; [|done].
  unfold entries. by rewrite list_lookup_fmap.
Qed.
End loops.

(** ** Meta iterators *)

#[local] Existing Instances MetaBlockIter.class DataBlockIter.class.

Section meta.
Context `{Port} `{DbFormat} `{IterKeyOps} `{EmptySlice} `{!IterKeyLaws} `{!DbFormatLaws}.
Context (es : list entry) (k nr : nat) (tail : list Z) (BK : block_ok es k nr tail).
Context (ucmp : list Z -> list Z -> Z) (usr : bool) (g : Z).

#[export] Instance meta_laws : IterLaws es k nr tail ucmp usr g BlockIter.t.
Proof.
  refine {| lOpen := static es k nr tail ucmp usr g; lAt := At es k nr tail ucmp usr g;
            lBefore := Before es k nr tail ucmp usr g; lFin := Fin es k nr tail ucmp usr g |}; simpl.
  - done.
  - done.
  - done.
  - by intros s i e [].
  - by intros s [].
  - apply (at_before es k nr tail BK).
  - intros s i e B He.
    destruct (parse_at es k nr tail BK ucmp usr g CheckAndDecodeEntry s i e) as (sh & s' & -> & A);
      [by apply decodes_CheckAndDecodeEntry|done|done|]. by exists s'.
  - intros s B. destruct (parse_fin es k nr tail ucmp usr g CheckAndDecodeEntry s B) as (s' & -> & F). by exists s'.
  - intros s j O Hj. by apply (seek_restart_before es k nr tail BK).
  - done.
  - done.
  - done.
Defined.
End meta.

(** ** Data iterators *)

Section data.
Context `{Port} `{DbFormat} `{IterKeyOps} `{EmptySlice} `{!IterKeyLaws} `{!DbFormatLaws}.
Context (es : list entry) (k nr : nat) (tail : list Z) (BK : block_ok es k nr tail).
Context (ucmp : list Z -> list Z -> Z) (usr : bool) (g : Z).
Implicit Types s : DataBlockIter.t.

#[local] Abbreviation off := (BlockBuilder.off false es).

(** A cached entry is right about entry [i]. *)
Definition cached_ok (buff : list Z) (i : nat) (ce : DataBlockIter.CachedPrevEntry) : Prop :=
  exists e, es !! i = Some e /\ DataBlockIter.offset ce = off i /\
    DataBlockIter.value ce = (voff es i e, zlen (evalue e)) /\
    DataBlockIter.key_size ce = zlen (ekey e) /\
    match DataBlockIter.key_ptr ce with
    | Some p => p = ekey e
    | None => 0 <= DataBlockIter.key_offset ce /\
        DataBlockIter.key_offset ce + DataBlockIter.key_size ce <= zlen buff /\
        zsub (DataBlockIter.key_offset ce) (DataBlockIter.key_size ce) buff = ekey e
    end.

(** The cache holds consecutive entries from number [a] on. *)
Definition cache_from (a : nat) s : Prop :=
  forall j ce, DataBlockIter.prev_entries_ s !! j = Some ce ->
    cached_ok (DataBlockIter.prev_entries_keys_buff_ s) (a + j) ce.
Definition cache_ok s : Prop :=
  (exists a, cache_from a s) /\
  DataBlockIter.prev_entries_idx_ s < zlen (DataBlockIter.prev_entries_ s).

#[export] Instance data_laws : IterLaws es k nr tail ucmp usr g DataBlockIter.t.
Proof.
  refine {| lOpen s := static es k nr tail ucmp usr g (DataBlockIter.block_iter s) /\ cache_ok s;
            lAt s i e := At es k nr tail ucmp usr g (DataBlockIter.block_iter s) i e /\ cache_ok s;
            lBefore s i := Before es k nr tail ucmp usr g (DataBlockIter.block_iter s) i /\ cache_ok s;
            lFin s := Fin es k nr tail ucmp usr g (DataBlockIter.block_iter s) /\ cache_ok s |}; simpl.
  - by intros s [].
  - by intros s i e [].
  - by intros s [].
  - by intros s i e [[] ?].
  - by intros s [[] ?].
  - intros s i e [A C]. split; [by apply (at_before es k nr tail BK) in A|done].
  - intros s i e [B C] He. unfold DataBlockIter.ParseNextDataKey.
    destruct (parse_at es k nr tail BK ucmp usr g DecodeEntry (DataBlockIter.block_iter s) i e) as (sh & it' & -> & A);
      [by apply decodes_DecodeEntry|done|done|]. eexists. split; [done|]. by split.
  - intros s [B C]. unfold DataBlockIter.ParseNextDataKey.
    destruct (parse_fin es k nr tail ucmp usr g DecodeEntry (DataBlockIter.block_iter s) B) as (it' & -> & F).
    eexists. split; [done|]. by split.
  - intros s j [O C] Hj. split; [by apply (seek_restart_before es k nr tail BK)|done].
  - intros s it [O C] ST. by split.
  - intros s it [O C] F. by split.
  - intros s it i e [A C] A'. by split.
Defined.

Lemma zsub_app_l {A} o m (l l' : list A) : 0 <= o -> 0 <= m -> o + m <= zlen l -> zsub o m (l ++ l') = zsub o m l.
Proof.
  intros Ho Hm Hl. unfold zsub, ztake, zdrop, zlen in *.
  rewrite drop_app_le by lia. apply take_app_le. rewrite length_drop. lia.
Qed.

(** Adding the current entry to the cache. *)
Lemma cache_snoc a i e it s : At es k nr tail ucmp usr g it i e -> cache_from a s ->
  i = (a + length (DataBlockIter.prev_entries_ s))%nat ->
  let buff := DataBlockIter.prev_entries_keys_buff_ s in
  let l := DataBlockIter.prev_entries_ s in
  let s0 := DataBlockIter.set_iter it s in
  let s1 :=
    if IsKeyPinned (BlockIter.raw_key_ it)
    then DataBlockIter.set_cache buff
           (l ++ [DataBlockIter.mkCached (off i) (Some (ekey e)) 0 (zlen (ekey e)) (voff es i e, zlen (evalue e))])
           (DataBlockIter.prev_entries_idx_ s) s0
    else DataBlockIter.set_cache (buff ++ ekey e)
           (l ++ [DataBlockIter.mkCached (off i) None (zlen buff) (zlen (ekey e)) (voff es i e, zlen (evalue e))])
           (DataBlockIter.prev_entries_idx_ s) s0 in
  DataBlockIter.block_iter s1 = it /\ cache_from a s1 /\ length (DataBlockIter.prev_entries_ s1) = (S i - a)%nat.
Proof.
  intros A C Hi buff l s0 s1. pose proof (at_entry _ _ _ _ _ _ _ _ _ _ A) as He.
  assert (Hlen : forall x, length (l ++ [x]) = (S i - a)%nat) by (intros x; rewrite length_app; simpl; unfold l; lia).
  unfold s1. destruct (IsKeyPinned _); (split; [done|split; [|apply Hlen]]); intros j ce; simpl.
  - intros [Hj|[Hj Hce]]%lookup_app_Some; [by apply C|].
    apply list_lookup_singleton_Some in Hce as [Hj0 <-]. exists e.
    replace (a + j)%nat with i by (unfold l in *; lia). done.
  - intros [Hj|[Hj Hce]]%lookup_app_Some.
    + destruct (C j ce Hj) as (e' & He' & E1 & E2 & E3 & E4). exists e'. split_and!; try done.
      destruct (DataBlockIter.key_ptr ce); [done|]. destruct E4 as (E4 & E5 & E6). fold buff in E5, E6.
      pose proof (zlen_nonneg (ekey e')). pose proof (zlen_nonneg (ekey e)).
      rewrite zsub_app_l, zlen_app by lia. split_and!; try done; lia.
    + apply list_lookup_singleton_Some in Hce as [Hj0 <-]. exists e.
      replace (a + j)%nat with i by (unfold l in *; lia). simpl. rewrite zlen_app. split_and!; try done; try lia.
      * apply zlen_nonneg.
      * rewrite <- (app_nil_r (ekey e)) at 2. by apply zsub_app_mid.
Qed.

(** The loop that fills the cache: from entry [i], the cache holding the entries
    from [a] to [i - 1], until entry [m - 1] is reached. *)
Lemma fill_cache_ok f s a i m : Before es k nr tail ucmp usr g (DataBlockIter.block_iter s) i ->
  cache_from a s -> length (DataBlockIter.prev_entries_ s) = (i - a)%nat -> (a <= i)%nat ->
  (i < m <= length es)%nat -> (m - i <= f)%nat ->
  let s' := DataBlockIter.fill_cache f (off m) s in
  (exists e, At es k nr tail ucmp usr g (DataBlockIter.block_iter s') (m - 1) e) /\
  cache_from a s' /\ length (DataBlockIter.prev_entries_ s') = (m - a)%nat.
Proof.
  revert s i. induction f as [|f IH]; intros s i B C L Hai Hm Hf; [lia|]. cbn [DataBlockIter.fill_cache].
  destruct (lookup_lt_is_Some_2 es i) as [e He]; [lia|]. unfold DataBlockIter.ParseNextDataKey.
  destruct (parse_at es k nr tail BK ucmp usr g DecodeEntry (DataBlockIter.block_iter s) i e) as (sh & it' & -> & A);
    [by apply decodes_DecodeEntry|done|done|]. cbn [negb]. simpl.
  rewrite (at_key _ _ _ _ _ _ _ _ _ _ A), (at_cur _ _ _ _ _ _ _ _ _ _ A), (at_value _ _ _ _ _ _ _ _ _ _ A).
  set (buff := DataBlockIter.prev_entries_keys_buff_ s) in *. set (l := DataBlockIter.prev_entries_ s) in *.
  set (s1 := if IsKeyPinned _ then _ else _).
  assert (E1 : DataBlockIter.block_iter s1 = it' /\ cache_from a s1 /\
          length (DataBlockIter.prev_entries_ s1) = (S i - a)%nat).
  { apply (cache_snoc a i e it' s); try done. unfold l in L. lia. }
  clearbody s1. destruct E1 as (E1 & C1 & L1). rewrite E1, (at_next es k nr tail BK ucmp usr g _ i e A).
  destruct (Z.ltb_spec (off (S i)) (off m)) as [Hlt|Hge].
  - apply (off_lt_iff es k nr tail BK) in Hlt; [|lia..].
    apply (IH s1 (S i)); try done; try lia. rewrite E1. by eapply (at_before es k nr tail BK).
  - assert (m = S i) as ->.
    { destruct (decide (S i < m)%nat) as [Hlt|]; [|lia]. apply (off_lt_iff es k nr tail BK) in Hlt; lia. }
    split; [|done]. exists e. rewrite E1. by replace (S i - 1)%nat with i by lia.
Qed.

(** [PrevImpl] through the cache. *)
Lemma cached_prev s a j i e :
  At es k nr tail ucmp usr g (DataBlockIter.block_iter s) i e -> cache_from a s ->
  (0 < j < length (DataBlockIter.prev_entries_ s))%nat ->
  DataBlockIter.offset (DataBlockIter.cached s (Z.of_nat j)) = off i ->
  i = (a + j)%nat /\ exists e', let ce := DataBlockIter.cached s (Z.of_nat (j - 1)) in
    es !! (i - 1)%nat = Some e' /\ DataBlockIter.offset ce = off (i - 1) /\
    DataBlockIter.value ce = (voff es (i - 1) e', zlen (evalue e')) /\
    match DataBlockIter.key_ptr ce with
    | Some p => ztake (DataBlockIter.key_size ce) p
    | None => zsub (DataBlockIter.key_offset ce) (DataBlockIter.key_size ce)
                (DataBlockIter.prev_entries_keys_buff_ s)
    end = ekey e'.
Proof.
  intros A C Hj Eo. unfold DataBlockIter.cached in *. rewrite !Nat2Z.id, !nth_lookup in *.
  destruct (lookup_lt_is_Some_2 (DataBlockIter.prev_entries_ s) j) as [ce Hce]; [lia|].
  destruct (lookup_lt_is_Some_2 (DataBlockIter.prev_entries_ s) (j - 1)) as [ce' Hce']; [lia|].
  rewrite Hce in Eo. simpl in Eo. destruct (C j ce Hce) as (e1 & He1 & E1 & _).
  pose proof (at_entry _ _ _ _ _ _ _ _ _ _ A) as He. apply lookup_lt_Some in He, He1.
  assert (i = (a + j)%nat) as -> by (apply (off_inj es k nr tail BK); [lia|lia|congruence]).
  split; [done|]. destruct (C _ ce' Hce') as (e' & He' & F1 & F2 & F3 & F4). exists e'. rewrite Hce'. simpl.
  replace (a + j - 1)%nat with (a + (j - 1))%nat by lia. split_and!; try done.
  destruct (DataBlockIter.key_ptr ce') as [p|]; [subst p; rewrite F3; apply ztake_all|apply F4].
Qed.

Lemma DataPrev_pos s i e : lAt es k nr tail ucmp usr g s i e ->
  at_pos es k nr tail ucmp usr g (DataBlockIter.PrevImpl s) (pred_pos i).
Proof.
  intros [A [[a C] Hidx]]. pose proof A as [ST He Ec Ek Ev Hr]. unfold DataBlockIter.PrevImpl.
  destruct (_ && _) eqn:Ecache.
  - apply andb_prop in Ecache as [E1 E2]. apply Z.ltb_lt in E1. apply Z.eqb_eq in E2. rewrite Ec in E2.
    set (idx := DataBlockIter.prev_entries_idx_ s) in *. unfold zlen in Hidx.
    rewrite <- (Z2Nat.id idx) in E2 by lia.
    destruct (cached_prev s a (Z.to_nat idx) i e A C ltac:(lia) E2) as (Ei & e' & He' & F1 & F2 & F3).
    replace (Z.of_nat (Z.to_nat idx - 1)) with (idx - 1) in * by lia.
    destruct i as [|i]; [lia|]. replace (S i - 1)%nat with i in * by lia. exists e'.
    set (ce := DataBlockIter.cached s (idx - 1)) in *. rewrite F1, F2.
    assert (ST' : forall b c, static es k nr tail ucmp usr g
      (BlockIter.set_entry (SetKey (BlockIter.raw_key_ (DataBlockIter.block_iter s)) (ekey e') b)
         (voff es i e', zlen (evalue e')) (BlockIter.set_pos (off i) c (DataBlockIter.block_iter s)))).
    { intros b c. apply static_set_entry; [by apply static_set_pos|].
      rewrite IsUserKey_SetKey. apply (st_usr _ _ _ _ _ _ _ _ ST). }
    destruct (DataBlockIter.key_ptr ce); rewrite F3; (split; [|split; [by exists a|simpl; unfold zlen; lia]]);
      (split; simpl; [apply ST'|done|done|apply GetKey_SetKey|done|done]).
  - set (s0 := DataBlockIter.set_cache [] [] (-1) s). cbv zeta.
    change (DataBlockIter.block_iter s0) with (DataBlockIter.block_iter s). rewrite Ec.
    pose proof (lookup_lt_Some _ _ _ He) as Hlt.
    pose proof (restart_before_ok es k nr tail BK ucmp usr g
      (Z.to_nat (BlockIter.restart_index_ (DataBlockIter.block_iter s) + 1)) (DataBlockIter.block_iter s) i ST ltac:(lia) Hr ltac:(lia)) as HB.
    destruct (restart_before _ _ _) as [j|].
    + destruct HB as (j' & -> & Hj & Hji). destruct i as [|i]; [lia|]. cbn [pred_pos at_pos].
      destruct (seek_restart_before es k nr tail BK ucmp usr g (DataBlockIter.block_iter s) j' ST Hj) as [B _].
      set (s1 := SeekToRestartPoint (Z.of_nat j') s0).
      assert (Hf : (length es < scan_fuel s1)%nat).
      { unfold scan_fuel, s1. simpl. rewrite (st_R _ _ _ _ _ _ _ _ ST). pose proof (n_bound es k nr tail BK). lia. }
      destruct (fill_cache_ok (scan_fuel s1) s1 (j' * k) (j' * k) (S i)) as ((e' & A') & C' & L');
        [done|by intros ? ?|simpl; lia|lia|lia|lia|].
      exists e'. replace (S i - 1)%nat with i in A' by lia. split; [exact A'|]. split; [by exists (j' * k)%nat|].
      simpl. lia.
    + subst i. simpl. split; [by apply fin_set|]. split; [exists 0%nat; by intros ? ?|done].
Qed.
End data.
