(* ===== verification/BlockReader.v ===== *)
(** * Reading blocks the builder wrote

    The constructor of [Block] (table/block_based/block.cc) finds the restart
    array and the hash index of what [BlockBuilder::Finish] wrote, and the
    iterators [Block] hands out enumerate and search exactly the added pairs. *)

From stdpp Require Import prelude.
From Stdlib Require Import ZArith Lia Bool Sorted Floats.SpecFloat.
From S2P Require Import Prelude Coding Comparator Math Hash Status DbFormat BlockHashIndex BlockBuilder.
From S2P Require Import BlockIter BlockIterSpec BlockIterProofs.

#[local] Existing Instances MetaBlockIter.class DataBlockIter.class.

Lemma zdrop_self {A} (l : list A) : zdrop (zlen l) l = [].
Proof. unfold zdrop, zlen. rewrite Nat2Z.id. apply drop_all. Qed.

Section built.
Context `{Port} `{DbFormat}.

(** Blocks with plain values, without delta-encoded ones. *)
Definition plain b : Prop := BlockBuilder.use_value_delta_encoding_ b = false.
Definition interval b : nat := Z.to_nat (BlockBuilder.block_restart_interval_ b).
Definition hashed b : bool :=
  DataBlockHashIndexBuilder.Valid (BlockBuilder.hash_builder_ b) &&
  (BlockBuilder.CurrentSizeEstimate b <=? kMaxBlockSizeSupportedByHashIndex).
Definition body b es nr : list Z :=
  enc_entries false es ++ concat (map (le_bytes 4) (restart_offsets false (interval b) es nr)).

(** What follows the restart array: the hash index, if there is one, and the footer. *)
Definition block_tail b es nr : list Z :=
  zdrop (zlen (body b es nr))
    (if hashed b then DataBlockHashIndexBuilder.Finish (BlockBuilder.hash_builder_ b) (body b es nr) else body b es nr) ++
  le_bytes 4 (PackIndexTypeAndNumRestarts
    (if hashed b then kDataBlockBinaryAndHash else kDataBlockBinarySearch) (Z.of_nat nr)).

Context b es nr (ST : bstate b es nr) (PL : plain b) (SZ : zlen (fst (BlockBuilder.Finish b)) < 2 ^ 32).

Lemma buffer_small : zlen (BlockBuilder.buffer_ b) < 2 ^ 32.
Proof. destruct (Finish_buffer b) as [rest E]. rewrite E, zlen_app in SZ. pose proof (zlen_nonneg rest). lia. Qed.

Lemma built_layout : layout false (interval b) es nr.
Proof. pose proof (binv_layout _ _ _ (bstate_inv _ _ _ ST)) as L. by rewrite PL in L. Qed.

Lemma built_interval : (1 <= interval b)%nat.
Proof. pose proof (binv_interval _ _ _ (bstate_inv _ _ _ ST)). unfold interval. lia. Qed.

Lemma built_nr : Z.of_nat nr < 2 ^ 31.
Proof.
  pose proof buffer_small as Hb. rewrite (binv_buffer _ _ _ (bstate_inv _ _ _ ST)), PL in Hb.
  pose proof built_layout as L. destruct (decide (es = [])) as [E|Hne].
  - rewrite (layout_empty _ _ _ _ L E). lia.
  - pose proof (layout_nr _ _ _ _ L). pose proof (layout_nr_pos _ _ _ _ L (nr - 1) ltac:(lia) Hne).
    pose proof built_interval. assert (nr <= length es)%nat by nia.
    assert (3 * Z.of_nat (length es) <= zlen (enc_entries false es)); [|lia].
    pose proof (layout_chain _ _ _ _ L) as Hc. clear -Hc. revert Hc. generalize (@nil Z) as prev.
    induction es as [|e l IH]; intros prev; [done|]. intros [Hl Hc].
    change (enc_entries false (e :: l)) with (enc_entry false e ++ enc_entries false l). rewrite zlen_app.
    destruct (zlen_enc_entry _ _ Hl) as [-> ?]. destruct Hl as (? & _). specialize (IH _ Hc).
    pose proof (zlen_nonneg (evalue e)). simpl length. lia.
Qed.

Lemma zlen_body : zlen (body b es nr) = zlen (BlockBuilder.buffer_ b) + 4 * Z.of_nat nr.
Proof.
  unfold body. rewrite zlen_app, zlen_fixed32s, (binv_buffer _ _ _ (bstate_inv _ _ _ ST)), PL.
  unfold zlen at 2. unfold restart_offsets. by rewrite length_map, length_seq.
Qed.

Lemma built_contents : fst (BlockBuilder.Finish b) =
  (if hashed b then DataBlockHashIndexBuilder.Finish (BlockBuilder.hash_builder_ b) (body b es nr) else body b es nr) ++
  le_bytes 4 (PackIndexTypeAndNumRestarts
    (if hashed b then kDataBlockBinaryAndHash else kDataBlockBinarySearch) (Z.of_nat nr)).
Proof. rewrite (Finish_bytes b es nr ST built_nr), PL. done. Qed.

Lemma built_block_data : fst (BlockBuilder.Finish b) = block_data es (interval b) nr (block_tail b es nr).
Proof.
  rewrite built_contents. unfold block_data, block_tail. rewrite !app_assoc. f_equal. fold (body b es nr).
  destruct (hashed b); [|by rewrite zdrop_self, app_nil_r].
  destruct (Finish_eq (BlockBuilder.hash_builder_ b) (body b es nr)) as (bk & -> & _). by rewrite zdrop_app'.
Qed.

Lemma built_block_ok : block_ok es (interval b) nr (block_tail b es nr).
Proof. split; [apply built_interval|apply built_layout|apply built_nr|by rewrite <- built_block_data]. Qed.

(** The constructor finds its way. *)
Lemma Block_new_built :
  let contents := fst (BlockBuilder.Finish b) in
  8 <= zlen contents /\
  Block.new contents = Block.mk contents (zlen contents) (block_restarts es) (Z.of_nat nr)
    (if hashed b then DataBlockHashIndexBuilder.num_buckets (BlockBuilder.hash_builder_ b) else DataBlockHashIndex.new).
Proof.
  intros contents. pose proof built_nr as Hnr. pose proof (layout_nr _ _ _ _ built_layout) as Hnr1.
  pose proof zlen_body as Hbody. pose proof (zlen_nonneg (BlockBuilder.buffer_ b)) as Hb0.
  pose proof (zlen_Finished b es nr ST buffer_small Hnr) as Hsz. cbv zeta in Hsz. fold contents in Hsz, SZ.
  assert (ER : block_restarts es = zlen (BlockBuilder.buffer_ b))
    by (by rewrite (binv_buffer _ _ _ (bstate_inv _ _ _ ST)), PL).
  pose proof built_contents as E. fold contents in E. set (ty := if hashed b then _ else _) in E at 2.
  destruct (UnPack_Pack ty (Z.of_nat nr) ltac:(lia)) as [EU HP].
  set (front := if hashed b then _ else _) in E.
  assert (Hz : zlen contents = zlen front + 4) by (by rewrite E, zlen_app, zlen_le_bytes).
  assert (ED : DecodeFixed32 (zdrop (zlen contents - 4) contents) = PackIndexTypeAndNumRestarts ty (Z.of_nat nr)).
  { rewrite E at 2. rewrite zdrop_app' by lia. rewrite <- (app_nil_r (le_bytes 4 _)). by apply DecodeFixed32_app. }
  assert (Hfront : zlen (body b es nr) <= zlen front).
  { unfold front. destruct (hashed b); [rewrite zlen_Finish, EstimateSize_eq; pose proof (num_buckets_range (BlockBuilder.hash_builder_ b))|]; lia. }
  split; [lia|]. unfold Block.new, Block.NumRestarts, Block.IndexType. rewrite ED, EU.
  rewrite (proj2 (Z.ltb_ge (zlen contents) 4)) by lia. rewrite Z.gtb_ltb. clear ED EU.
  destruct (hashed b) eqn:Hh; subst ty; simpl in front.
  - unfold hashed in Hh. apply andb_prop in Hh as [Hv Hle]. rewrite Hv in Hsz. apply Z.leb_le in Hle. rewrite Z.gtb_ltb, (proj2 (Z.ltb_ge _ _)) in Hsz by lia.
    simpl in Hsz. rewrite Hsz in *. change kMaxBlockSizeSupportedByHashIndex with 65536 in *.
    rewrite (proj2 (Z.ltb_ge _ _)) by lia. cbn [fst snd].
    rewrite (proj2 (Z.ltb_ge _ _)) by lia. rewrite (u16_small (_ - 4)) by lia.
    replace (BlockBuilder.CurrentSizeEstimate b - 4) with (zlen front) by lia. rewrite E at 1. unfold front.
    rewrite Initialize_Finish by (fold front; lia). rewrite u32_small by lia. rewrite Z.gtb_ltb, (proj2 (Z.ltb_ge _ _)) by lia.
    f_equal. lia.
  - change (PackIndexTypeAndNumRestarts kDataBlockBinarySearch (Z.of_nat nr)) with (Z.of_nat nr).
    assert (Eif : forall (A : Type) (x : bool) (y : A), (if x then y else y) = y) by (by intros ? []).
    rewrite !Eif. cbn [fst snd]. subst front.
    rewrite (u32_small (zlen contents)), (u32_small (1 + _)), u32_small by lia.
    rewrite Z.gtb_ltb, (proj2 (Z.ltb_ge _ _)) by lia. f_equal. lia.
Qed.
End built.

(** ** The iterators over a built block *)

Section readers.
Context `{Port} `{DbFormat}.

(** The bytes of a block of plain key-value pairs. *)
Definition build (k : Z) (d : bool) (t : DataBlockIndexType) (u : spec_float) (kvs : list (list Z * list Z)) :
    BlockBuilder.t :=
  AddAll (BlockBuilder.new k d false t u) (map (fun kv => (kv.1, kv.2, None)) kvs).
Definition build_contents k d t u kvs : list Z := fst (BlockBuilder.Finish (build k d t u kvs)).

(** Keys and values short enough for 32-bit lengths, in a block of 32-bit size. *)
Record buildable (k : Z) (d : bool) (t : DataBlockIndexType) (u : spec_float) (kvs : list (list Z * list Z)) : Prop := {
  buildable_interval : 1 <= k < 2 ^ 31;
  buildable_fits : Forall kv_fits (map (fun kv => (kv.1, kv.2, None)) kvs);
  buildable_size : zlen (build_contents k d t u kvs) < 2 ^ 32;
}.

Lemma build_state k d t u kvs : buildable k d t u kvs -> exists es nr,
  bstate (build k d t u kvs) es nr /\ plain (build k d t u kvs) /\
  interval (build k d t u kvs) = Z.to_nat k /\
  map (fun e => (ekey e, evalue e)) es = kvs.
Proof.
  intros [Hk Hf Hs]. unfold build_contents in Hs.
  assert (Hb : zlen (BlockBuilder.buffer_ (build k d t u kvs)) < 2 ^ 32).
  { destruct (Finish_buffer (build k d t u kvs)) as [rest E]. rewrite E, zlen_app in Hs.
    pose proof (zlen_nonneg rest). lia. }
  unfold build in *. destruct (bstate_AddAll _ [] 1 _ (bstate_new k d false t u Hk) Hf Hb)
    as (es & nr & HB & E1 & E2 & E3 & E4). simpl app in HB. specialize (E2 eq_refl).
  exists es, nr. split_and!; [done|done|unfold interval; by rewrite E4|].
  clear -E1 E2. revert kvs E1 E2. induction es as [|e es IH]; intros [|[a v] kvs]; simpl; try done.
  intros [= E1 E1'] [= E2 E2']. subst. f_equal. by apply IH.
Qed.

Context `{IterKeyOps} `{EmptySlice} `{!IterKeyLaws} `{!DbFormatLaws}.

Definition shown_pairs (usr : bool) (g : Z) (kvs : list (list Z * list Z)) : list (list Z * list Z) :=
  map (fun kv => (shown usr g kv.1, kv.2)) kvs.
(** The keys an iterator shows are in strictly increasing order. *)
Definition sorted_pairs (cmp : list Z -> list Z -> Z) (kvs : list (list Z * list Z)) : Prop :=
  StronglySorted (fun a b => cmp a.1 b.1 < 0) kvs.

Lemma entries_shown es usr g kvs : map (fun e => (ekey e, evalue e)) es = kvs ->
  entries es usr g = shown_pairs usr g kvs.
Proof. intros <-. unfold entries, shown_pairs. by rewrite map_map. Qed.

Lemma StronglySorted_lookup_lt {A} (R : A -> A -> Prop) l i j x y :
  StronglySorted R l -> (i < j)%nat -> l !! i = Some x -> l !! j = Some y -> R x y.
Proof.
  intros Hs. revert i j. induction Hs as [|a l Hs IH Ha]; intros i j Hij Hi Hj; [done|].
  destruct i as [|i], j as [|j]; try lia; simpl in *.
  - injection Hi as ->. by apply (Forall_lookup_1 _ _ _ _ Ha Hj).
  - apply (IH i j); [lia|done..].
Qed.

Lemma sorted_keys es ucmp usr g kvs : map (fun e => (ekey e, evalue e)) es = kvs ->
  sorted_pairs (kcmp ucmp usr) (shown_pairs usr g kvs) -> keys_sorted es ucmp usr g.
Proof.
  intros <- Hs i j ei ej Hij Hi Hj.
  apply (StronglySorted_lookup_lt _ _ i j (shown usr g (ekey ei), evalue ei) (shown usr g (ekey ej), evalue ej) Hs Hij);
    unfold shown_pairs; by rewrite map_map, list_lookup_fmap, ?Hi, ?Hj.
Qed.

(** An open iterator that is past the end shows the end. *)
Lemma fin_visible es k nr tail ucmp usr g `{!IterClass T} `{!IterLaws es k nr tail ucmp usr g T} (s : T) :
  lFin es k nr tail ucmp usr g s -> visible es k nr tail ucmp usr g s None.
Proof.
  intros F. split; [done|]. unfold observe. pose proof (l_fin_base _ _ _ _ _ _ _ s F) as F'.
  by rewrite (fin_valid _ _ _ _ _ _ _ _ F'), (st_ok _ _ _ _ _ _ _ _ (fin_static _ _ _ _ _ _ _ _ F')).
Qed.

(** C18: for every sequence of operations, the iterator of a meta block over
    what [BlockBuilder] wrote shows after each operation exactly what a cursor
    on the list of added pairs shows: the same key and value, or the end, and
    an OK status. *)
Theorem meta_iterator_refines k d t u kvs pinned ops :
  buildable k d t u kvs -> sorted_pairs BytewiseComparator.Compare kvs ->
  run_ops PrevImpl ops (Block.NewMetaIterator pinned (Block.new (build_contents k d t u kvs))) =
  cursor_run BytewiseComparator.Compare kvs ops None.
Proof.
  intros HB Hs. destruct (build_state k d t u kvs HB) as (es & nr & ST & PL & Ei & Ekv).
  pose proof (buildable_size _ _ _ _ _ HB) as SZ. unfold build_contents in *.
  destruct (Block_new_built _ es nr ST PL SZ) as [H8 ->].
  pose proof (built_block_ok _ es nr ST PL SZ) as BK.
  set (g := kDisableGlobalSequenceNumber). assert (Eid : shown_pairs true g kvs = kvs).
  { unfold shown_pairs, shown. rewrite <- (map_id kvs) at 2. apply map_ext. by intros []. }
  transitivity (cursor_run BytewiseComparator.Compare (entries es true g) ops None);
    [|by rewrite (entries_shown es true g kvs Ekv), Eid].
  unfold Block.NewMetaIterator. cbn [Block.size_ Block.num_restarts_ Block.data_ Block.restart_offset_].
  rewrite (proj2 (Z.ltb_ge _ _)) by lia.
  pose proof (layout_nr _ _ _ _ (block_layout _ _ _ _ BK)). rewrite (proj2 (Z.eqb_neq _ _)) by lia.
  assert (SORT : keys_sorted es BytewiseComparator.Compare true g)
    by (apply (sorted_keys es _ _ _ kvs Ekv); by rewrite Eid).
  apply (run_ops_cursor es _ nr _ BK _ true g SORT (IterLaws0 := meta_laws es _ nr _ BK _ _ _)).
  - intros s i e A. by apply (Prev_pos _ _ _ _ BK _ _ _ s i e).
  - apply fin_visible. split; [|done]. split; simpl; try done.
    + by rewrite <- built_block_data.
    + apply IsUserKey_SetIsUserKey.
Qed.

(** An iterator ready to be opened on a block: a new one, or one that was
    invalidated with an OK status, as before reuse. *)
Definition reusable (iter : DataBlockIter.t) : Prop :=
  iter = DataBlockIter.new \/ exists s, iter = DataBlockIter.Invalidate St.OK s.

(** The iterator [NewDataIterator] opens on a built block is past the end. *)
Lemma NewDataIterator_built b es nr ucmp g pinned iter : forall (ST : bstate b es nr) (PL : plain b)
    (SZ : zlen (fst (BlockBuilder.Finish b)) < 2 ^ 32), reusable iter ->
  let s := Block.NewDataIterator ucmp g pinned iter (Block.new (fst (BlockBuilder.Finish b))) in
  (Fin es (interval b) nr (block_tail b es nr) ucmp false g (DataBlockIter.block_iter s) /\ cache_ok es s) /\
  DataBlockIter.data_block_hash_index_ s =
    if hashed b then Some (DataBlockHashIndexBuilder.num_buckets (BlockBuilder.hash_builder_ b)) else None.
Proof.
  intros ST PL SZ Hr. destruct (Block_new_built b es nr ST PL SZ) as [H8 ->].
  pose proof (built_block_ok b es nr ST PL SZ) as BK.
  unfold Block.NewDataIterator. cbn [Block.size_ Block.num_restarts_ Block.data_ Block.restart_offset_ Block.data_block_hash_index_].
  rewrite (proj2 (Z.ltb_ge _ _)) by lia.
  pose proof (layout_nr _ _ _ _ (block_layout _ _ _ _ BK)). rewrite (proj2 (Z.eqb_neq _ _)) by lia.
  split; [split; [split; [|done]; split; simpl; try done|]|].
  - by rewrite <- built_block_data.
  - apply IsUserKey_SetIsUserKey.
  - by destruct Hr as [->|[s ->]].
  - split; [exists 0%nat|]; by destruct Hr as [->|[s ->]].
  - simpl. pose proof (num_buckets_range (BlockBuilder.hash_builder_ b)). destruct (hashed b); [|done].
    unfold DataBlockHashIndex.Valid. by rewrite (proj2 (Z.eqb_neq _ _)) by lia.
Qed.

(** C2: for every sequence of operations, the iterator of a data block over
    what [BlockBuilder] wrote, with or without a hash index, opened for any
    lawful user comparator and any global sequence number, shows after each
    operation exactly what a cursor on the list of added pairs shows (keys
    carrying the global sequence number when there is one); the cache of
    [PrevImpl] and the iterator's earlier use make no difference. *)
Theorem data_iterator_refines k d t u kvs ucmp g pinned iter ops `{!ComparatorLaws ucmp} :
  buildable k d t u kvs -> sorted_pairs (icmp_Compare ucmp) (shown_pairs false g kvs) -> reusable iter ->
  run_ops DataBlockIter.PrevImpl ops
    (Block.NewDataIterator ucmp g pinned iter (Block.new (build_contents k d t u kvs))) =
  cursor_run (icmp_Compare ucmp) (shown_pairs false g kvs) ops None.
Proof.
  intros HB Hs Hr. destruct (build_state k d t u kvs HB) as (es & nr & ST & PL & Ei & Ekv).
  pose proof (buildable_size _ _ _ _ _ HB) as SZ. unfold build_contents in *.
  pose proof (built_block_ok _ es nr ST PL SZ) as BK. rewrite <- (entries_shown es false g kvs Ekv).
  pose proof (sorted_keys es ucmp false g kvs Ekv Hs) as SORT.
  apply (run_ops_cursor es _ nr _ BK ucmp false g SORT (IterLaws0 := data_laws es _ nr _ BK _ _ _)).
  - intros s i e A. by apply (DataPrev_pos _ _ _ _ BK _ _ _ s i e).
  - by apply fin_visible, NewDataIterator_built.
Qed.
End readers.

#[local] Existing Instances le_port Concrete.format Concrete.iter_key Concrete.format_laws Concrete.iter_key_laws.
#[local] Instance no_offset : EmptySlice := {| empty_slice_off := 0 |}.

Lemma meta_iterator_refines_witness :
  let kvs := [([97], [1]); ([97; 98], [2]); ([99], [3])] in
  run_ops PrevImpl [OpSeek [97; 97]; OpPrev; OpSeekForPrev [98]; OpNext; OpNext]
    (Block.NewMetaIterator true (Block.new (build_contents 2 true kDataBlockBinarySearch kDefaultUtilRatio kvs))) =
  cursor_run BytewiseComparator.Compare kvs [OpSeek [97; 97]; OpPrev; OpSeekForPrev [98]; OpNext; OpNext] None.
Proof.
  apply meta_iterator_refines.
  - split; [lia|repeat constructor|vm_compute; reflexivity].
  - repeat constructor; vm_compute; reflexivity.
Defined.

Lemma data_iterator_refines_witness :
  let ikey u s := u ++ le_bytes 8 (s * 256 + 1) in
  let kvs := [(ikey [97] 5, [1]); (ikey [98] 7, [2; 3]); (ikey [98] 6, [])] in
  let ops := [OpSeekToLast; OpPrev; OpPrev; OpPrev; OpSeek (ikey [98] 6); OpSeekToFirst; OpNext] in
  run_ops DataBlockIter.PrevImpl ops
    (Block.NewDataIterator BytewiseComparator.Compare kDisableGlobalSequenceNumber true DataBlockIter.new
      (Block.new (build_contents 2 true kDataBlockBinaryAndHash kDefaultUtilRatio kvs))) =
  cursor_run (icmp_Compare BytewiseComparator.Compare) (shown_pairs false kDisableGlobalSequenceNumber kvs) ops None.
Proof.
  intros ikey kvs ops. apply data_iterator_refines; [apply bytewise_laws|..].
  - split; [lia|repeat constructor|vm_compute; reflexivity].
  - repeat constructor; vm_compute; reflexivity.
  - by left.
Defined.
