(* ===== verification/BlockSeekForGet.v ===== *)
(** * Point lookups through the hash index

    [DataBlockIter::SeekForGet] (table/block_based/block.cc): the hash index of
    the block names the restart interval to scan. A positive answer leaves the
    iterator where [Seek] would; a negative one means that the block has no
    entry of that user key at or after the target. *)

From stdpp Require Import prelude.
From Stdlib Require Import ZArith Lia Bool Sorted Floats.SpecFloat.
From S2P Require Import Prelude Coding Comparator Math Hash Status DbFormat BlockHashIndex BlockBuilder.
From S2P Require Import BlockIter BlockIterSpec BlockIterProofs BlockReader.

#[local] Existing Instances MetaBlockIter.class DataBlockIter.class.

Section user_keys.
Context `{DbFormat} `{!DbFormatLaws} (ucmp : list Z -> list Z -> Z) `{!ComparatorLaws ucmp}.

Lemma icmp_user_le a b : icmp_Compare ucmp a b <= 0 -> ucmp (ExtractUserKey a) (ExtractUserKey b) <= 0.
Proof.
  intros Hle. destruct (Z.le_gt_cases (ucmp (ExtractUserKey a) (ExtractUserKey b)) 0) as [|Hgt]; [done|].
  apply Z.lt_gt, Z.gt_lt, (cmp_flip (cmp := ucmp)), icmp_user in Hgt. pose proof (icmp_laws ucmp ComparatorLaws0).
  apply (cmp_flip (cmp := icmp_Compare ucmp)) in Hgt. lia.
Qed.

Lemma user_key_shown usr g a : ExtractUserKey (shown usr g a) = ExtractUserKey a.
Proof. unfold shown. destruct usr; [done|]. destruct (_ =? _); [done|]. apply ExtractUserKey_InternalKey. Qed.
End user_keys.

Section search.
Context `{Port} `{DbFormat} `{IterKeyOps} `{EmptySlice} `{!IterKeyLaws} `{!DbFormatLaws}.
Context (es : list entry) (k nr : nat) (tail : list Z) (BK : block_ok es k nr tail).
Context (ucmp : list Z -> list Z -> Z) (g : Z) `{!ComparatorLaws ucmp}.
Context (SORT : keys_sorted es ucmp false g).
(** Keys that compare equal have the same bytes, as a hash index needs. *)
Context (INJ : forall a b, ucmp a b = 0 -> a = b).
Context (plain_type : Z -> bool).
Implicit Types s : DataBlockIter.t.

#[local] Abbreviation off := (BlockBuilder.off false es).
#[local] Abbreviation cnt := (length es).
#[local] Abbreviation R := (block_restarts es).
#[local] Abbreviation key e := (shown false g (ekey e)).
#[local] Abbreviation icmp := (icmp_Compare ucmp).
#[local] Instance laws : IterLaws es k nr tail ucmp false g DataBlockIter.t := data_laws es k nr tail BK ucmp false g.
#[local] Abbreviation lAt := (lAt es k nr tail ucmp false g).
#[local] Abbreviation lBefore := (lBefore es k nr tail ucmp false g).
#[local] Abbreviation lFin := (lFin es k nr tail ucmp false g).
#[local] Abbreviation lOpen := (lOpen es k nr tail ucmp false g).
#[local] Abbreviation at_pos := (at_pos es k nr tail ucmp false g).
#[local] Abbreviation lower_bound := (lower_bound es ucmp false g).
#[local] Abbreviation pos_of := (pos_of es).

(** Where a scan of the entries from [lo] to [hi] for target [t] ends. *)
Definition scan_end (lo hi : nat) (t : list Z) s : Prop :=
  (hi = cnt /\ lFin s /\ forall m e, (lo <= m)%nat -> es !! m = Some e -> icmp (key e) t < 0) \/
  exists p e, lAt s p e /\ (lo <= p <= hi)%nat /\ (p = hi \/ 0 <= icmp (key e) t) /\
    forall m e', (lo <= m < p)%nat -> es !! m = Some e' -> icmp (key e') t < 0.

Lemma interval_search_end f s lo hi c i t :
  lBefore s i -> BlockIter.current_ (DataBlockIter.block_iter s) = off c -> (hi <= cnt)%nat -> (lo <= i)%nat ->
  (c = i /\ (i < hi)%nat \/ S c = i /\ (lo <= c <= hi)%nat /\ exists e, lAt s c e) ->
  (forall m e, (lo <= m < i)%nat -> es !! m = Some e -> icmp (key e) t < 0) ->
  (cnt < f + i)%nat ->
  scan_end lo hi t (DataBlockIter.interval_search f t (off hi) s).
Proof.
  revert s c i. induction f as [|f IH]; intros s c i B Ec Hhi Hlo Hc Hlt Hf;
    [destruct B as [[] _]; lia|].
  cbn [DataBlockIter.interval_search]. rewrite Ec. pose proof (off_lt_iff es k nr tail BK c hi) as Ho.
  destruct (Z.ltb_spec (off c) (off hi)) as [Hch|Hch].
  - apply Ho in Hch; [|lia..]. destruct (decide (i < cnt)%nat) as [Hi|Hi].
    + destruct (lookup_lt_is_Some_2 es i Hi) as [e He]. destruct (l_parse _ _ _ _ _ _ _ s i e B He) as (s' & Ep & A).
      change DataBlockIter.ParseNextDataKey with (ParseNext (T := DataBlockIter.t)). rewrite Ep. cbn [negb orb].
      pose proof (l_at_base _ _ _ _ _ _ _ _ _ _ A) as A'. 
      rewrite (compare_current es k nr tail ucmp false g _ t (at_static _ _ _ _ _ _ _ _ _ _ A')), (at_key _ _ _ _ _ _ _ _ _ _ A').
      change (kcmp ucmp false) with icmp. rewrite Z.geb_leb.
      destruct (Z.leb_spec 0 (icmp (key e) t)) as [Hge|Hlt'].
      * right. exists i, e. split_and!; [done|lia|lia|by right|done].
      * apply (IH s' i (S i)); try lia.
        -- by apply (l_at_before _ _ _ _ _ _ _ _ _ e).
        -- apply (at_cur _ _ _ _ _ _ _ _ _ _ A').
        -- right. split_and!; [done|lia|lia|by exists e].
        -- intros m e' Hm He'. destruct (decide (m = i)) as [->|]; [congruence|]. apply (Hlt m); [lia|done].
    + assert (i = cnt) as -> by lia. destruct (l_parse_fin _ _ _ _ _ _ _ s B) as (s' & Ep & F).
      change DataBlockIter.ParseNextDataKey with (ParseNext (T := DataBlockIter.t)). rewrite Ep. cbn [negb orb].
      left. split_and!; [lia|done|]. intros m e Hm He. apply (Hlt m); [|done]. apply lookup_lt_Some in He. lia.
  - destruct Hc as [[-> Hi]|(Hi & Hlc & e & A)]; [exfalso; apply Ho in Hi; lia|].
    right. exists c, e. assert (hi <= c)%nat by (destruct (decide (c < hi)%nat) as [Hx|]; [apply Ho in Hx; lia|lia]).
    split_and!; [done|lia|lia|left; lia|]. intros m e' Hm. apply Hlt. lia.
Qed.

(** What the search relies on: the index entry found for a target. *)
Context (NR : (cnt <= nr * k)%nat) (NR254 : (nr <= 254)%nat).

Record index_entry (t : list Z) (entry : Z) : Prop := {
  index_range : entry = kNoEntry \/ entry = kCollision \/ exists j, entry = Z.of_nat j /\ (j < nr)%nat;
  index_match i e : es !! i = Some e -> ExtractUserKey (ekey e) = ExtractUserKey t ->
    entry = Z.of_nat (i / k) \/ entry = kCollision;
}.

(** The end of restart interval [j]. *)
Definition interval_end (j : nat) : nat := if decide (S j < nr)%nat then (S j * k)%nat else cnt.

(** The interval [SeekForGetImpl] scans has all the entries of the user key. *)
Lemma entry_interval t entry : index_entry t entry -> entry <> kCollision ->
  exists j, (j < nr)%nat /\ (if entry =? kNoEntry then u8 (Z.of_nat nr - 1) else entry) = Z.of_nat j /\
    forall i e, es !! i = Some e -> ExtractUserKey (ekey e) = ExtractUserKey t -> (j * k <= i < interval_end j)%nat.
Proof.
  intros [Hr Hm] Hc. pose proof (block_k _ _ _ _ BK) as Hk.
  pose proof (layout_nr _ _ _ _ (block_layout _ _ _ _ BK)) as Hnr.
  assert (Hin : forall i e, es !! i = Some e -> (i / k < nr)%nat).
  { intros i e He%lookup_lt_Some. apply Nat.Div0.div_lt_upper_bound. lia. }
  destruct (Z.eqb_spec entry kNoEntry) as [->|Hne].
  - exists (nr - 1)%nat. split_and!; [lia|rewrite u8_small by lia; lia|]. intros i e He Eu.
    specialize (Hin i e He). destruct (Hm i e He Eu); [unfold kNoEntry in *; lia|done].
  - destruct Hr as [|[|(j & -> & Hj)]]; [done|done|]. exists j. split_and!; [done|done|]. intros i e He Eu.
    destruct (Hm i e He Eu) as [->%Nat2Z.inj|]; [|done]. pose proof (lookup_lt_Some _ _ _ He).
    pose proof (Nat.div_mod_eq i k). pose proof (Nat.mod_upper_bound i k ltac:(lia)).
    unfold interval_end. case_decide; nia.
Qed.

Lemma interval_end_bounds j : es <> [] -> (j < nr)%nat ->
  (j * k < interval_end j <= cnt)%nat.
Proof.
  intros Hne Hj. pose proof (block_k _ _ _ _ BK). pose proof (block_layout _ _ _ _ BK) as L.
  unfold interval_end. case_decide.
  - pose proof (layout_nr_pos _ _ _ _ L (S j) ltac:(lia) Hne). lia.
  - pose proof (layout_nr_pos _ _ _ _ L j Hj Hne). lia.
Qed.

Definition no_match (t : list Z) : Prop :=
  forall i e, es !! i = Some e -> ExtractUserKey (ekey e) = ExtractUserKey t -> icmp (key e) t < 0.

(** What the end of the scan says, when all matches are between [lo] and [hi]. *)
Lemma scan_end_fin lo hi t s : (lo < cnt)%nat -> scan_end lo hi t s ->
  BlockIter.current_ (DataBlockIter.block_iter s) = R -> at_pos s (pos_of (lower_bound t)).
Proof.
  intros Hlo [(-> & F & Hall)|(p & e & A & _)] Ec.
  - rewrite (lower_bound_intro es ucmp false g SORT t cnt); [|lia| |].
    + unfold pos_of. by rewrite decide_False by lia.
    + intros e He Hp. apply (Hall (cnt - 1)%nat e); [lia|done].
    + intros e He%lookup_lt_Some. lia.
  - exfalso. destruct A as [A _]. pose proof (at_entry _ _ _ _ _ _ _ _ _ _ A) as He.
    rewrite (at_cur _ _ _ _ _ _ _ _ _ _ A) in Ec. pose proof (off_S_lt es k nr tail BK p e He).
    pose proof (off_le_R es k nr tail BK (S p)). apply lookup_lt_Some in He. lia.
Qed.

Lemma scan_end_at lo hi t s :
  (forall i e, es !! i = Some e -> ExtractUserKey (ekey e) = ExtractUserKey t -> (lo <= i < hi)%nat) ->
  scan_end lo hi t s -> BlockIter.current_ (DataBlockIter.block_iter s) <> R ->
  let user_key := ExtractUserKey (GetKey (BlockIter.raw_key_ (DataBlockIter.block_iter s))) in
  if ucmp user_key (ExtractUserKey t) =? 0 then at_pos s (pos_of (lower_bound t)) else no_match t.
Proof.
  intros Hin [(-> & F & _)|(p & e & A & Hp & Hstop & Hlt)] Ec.
  { exfalso. apply Ec. apply (fin_cur _ _ _ _ _ _ _ _ (l_fin_base _ _ _ _ _ _ _ _ F)). }
  pose proof (l_at_base _ _ _ _ _ _ _ _ _ _ A) as A'. simpl in A'.
  rewrite (at_key _ _ _ _ _ _ _ _ _ _ A'). pose proof (at_entry _ _ _ _ _ _ _ _ _ _ A') as He. cbv zeta.
  pose proof (icmp_laws ucmp ComparatorLaws0) as IL.
  destruct (Z.eqb_spec (ucmp (ExtractUserKey (ekey e)) (ExtractUserKey t)) 0) as [E0|Hne].
  - pose proof (INJ _ _ E0) as Eu. specialize (Hin p e He Eu) as Hph.
    rewrite (lower_bound_intro es ucmp false g SORT t p).
    + unfold pos_of. rewrite decide_True by (by apply lookup_lt_Some in He). by exists e.
    + apply lookup_lt_Some in He. lia.
    + intros e' He' Hp0. destruct (decide (lo <= p - 1)%nat) as [Hl|Hl]; [apply (Hlt (p - 1)%nat); [lia|done]|].
      apply icmp_user. rewrite user_key_shown. pose proof (SORT (p - 1)%nat p e' e ltac:(lia) He' He) as Hs.
      assert (Hle : ucmp (ExtractUserKey (ekey e')) (ExtractUserKey (ekey e)) <= 0).
      { rewrite <- (user_key_shown false g (ekey e')), <- (user_key_shown false g (ekey e)).
        apply (icmp_user_le ucmp). unfold kcmp in Hs. lia. }
      rewrite Eu in Hle. assert (ucmp (ExtractUserKey (ekey e')) (ExtractUserKey t) <> 0); [|lia].
      intros Eu'%INJ. specialize (Hin _ e' He' Eu'). lia.
    + intros e' He'. simplify_eq. destruct Hstop as [->|]; [lia|done].
  - intros i ei Hi Eu. pose proof (Hin i ei Hi Eu) as Hih. destruct (decide (i < p)%nat) as [|Hpi];
      [apply (Hlt i); [lia|done]|]. exfalso. destruct Hstop as [->|Hge]; [lia|].
    destruct (decide (i = p)) as [->|]; [simplify_eq; rewrite Eu in Hne; by rewrite cmp_refl in Hne|].
    pose proof (SORT p i e ei ltac:(lia) He Hi) as Hs. unfold kcmp in Hs.
    assert (H1' : ucmp (ExtractUserKey (ekey e)) (ExtractUserKey (ekey ei)) <= 0).
    { rewrite <- (user_key_shown false g (ekey ei)), <- (user_key_shown false g (ekey e)).
      apply (icmp_user_le ucmp). lia. }
    assert (H2' : ucmp (ExtractUserKey t) (ExtractUserKey (ekey e)) <= 0).
    { rewrite <- (user_key_shown false g (ekey e)). apply (icmp_user_le ucmp). by apply cmp_flip_le. }
    rewrite Eu in H1'. apply cmp_flip_le in H2'. lia.
Qed.

(** Before the scan: the iterator is put on restart point [j]. *)
Lemma seek_interval s j t : es <> [] -> lOpen s -> (j < nr)%nat ->
  let s1 := SeekToRestartPoint (Z.of_nat j) s in
  let it1 := DataBlockIter.block_iter s1 in
  let it2 := BlockIter.set_pos (BlockIter.GetRestartPoint (Z.of_nat j) it1) (BlockIter.restart_index_ it1) it1 in
  let s2 := DataBlockIter.set_iter it2 s1 in
  (if Z.of_nat j + 1 <? BlockIter.num_restarts_ it2
   then BlockIter.GetRestartPoint (Z.of_nat j + 1) it2 else BlockIter.restarts_ it2) = off (interval_end j) /\
  scan_end (j * k) (interval_end j) t (DataBlockIter.interval_search (scan_fuel s2) t (off (interval_end j)) s2).
Proof.
  intros Hne O Hj s1 it1 it2 s2. pose proof (interval_end_bounds j Hne Hj) as Hb.
  pose proof (l_seek _ _ _ _ _ _ _ s j O Hj) as [B C]. fold s1 it1 in B.
  pose proof (bf_static _ _ _ _ _ _ _ _ _ B) as ST1.
  assert (ST2 : static es k nr tail ucmp false g it2) by (by apply static_set_pos).
  assert (Eg : BlockIter.GetRestartPoint (Z.of_nat j) it1 = off (j * k)) by (by apply (restart_point es k nr tail BK ucmp false g)).
  split.
  - rewrite (st_nr _ _ _ _ _ _ _ _ ST2), (st_R _ _ _ _ _ _ _ _ ST2). unfold interval_end.
    replace (Z.of_nat j + 1) with (Z.of_nat (S j)) by lia.
    case_decide; [rewrite (proj2 (Z.ltb_lt _ _)) by lia|rewrite (proj2 (Z.ltb_ge _ _)) by lia].
    + by apply (restart_point es k nr tail BK ucmp false g).
    + symmetry. apply off_n.
  - apply (interval_search_end _ s2 _ _ (j * k) (j * k)); try lia.
    + split; [|exact C]. destruct B as [B1 B2 B3 B4 B5]. by split.
    + exact Eg.
    + unfold scan_fuel. change (base s2) with it2. rewrite (st_R _ _ _ _ _ _ _ _ ST2). pose proof (n_bound es k nr tail BK). lia.
Qed.

Lemma SeekForGetImpl_ok num_buckets t s : lOpen s ->
  index_entry t (DataBlockHashIndex.Lookup num_buckets (block_data es k nr tail)
                   (u32 (R + Z.of_nat nr * 4)) (ExtractUserKey t)) ->
  es <> [] ->
  let '(res, s') := DataBlockIter.SeekForGetImpl plain_type num_buckets t s in
  if res then at_pos s' (pos_of (lower_bound t)) else no_match t /\ lOpen s'.
Proof.
  intros O HE Hne. pose proof (l_open_base _ _ _ _ _ _ _ s O) as ST. simpl in ST. unfold DataBlockIter.SeekForGetImpl.
  rewrite (st_R _ _ _ _ _ _ _ _ ST), (st_nr _ _ _ _ _ _ _ _ ST), (static_bytes _ _ _ _ _ _ _ _ ST).
  set (entry := DataBlockHashIndex.Lookup _ _ _ _) in *. clearbody entry.
  destruct (Z.eqb_spec entry kCollision) as [->|Hc]; [by apply (Seek_pos _ _ _ _ BK)|].
  destruct (entry_interval t entry HE Hc) as (j & Hj & -> & Hin).
  destruct (seek_interval s j t Hne O Hj) as [EL SE]. cbv zeta in *. rewrite EL. clear EL.
  set (s3 := DataBlockIter.interval_search _ _ _ _) in *. clearbody s3.
  assert (O3 : lOpen s3)
    by (destruct SE as [(_ & F & _)|(p & e & A & _)]; [by apply l_fin_open|by eapply l_at_open]).
  pose proof (l_open_base _ _ _ _ _ _ _ s3 O3) as ST3. simpl in ST3.
  rewrite (st_R _ _ _ _ _ _ _ _ ST3), (st_cmp _ _ _ _ _ _ _ _ ST3). unfold BlockIter.GetUserKey.
  rewrite (st_usr _ _ _ _ _ _ _ _ ST3). pose proof (interval_end_bounds j Hne Hj).
  destruct (Z.eqb_spec (BlockIter.current_ (DataBlockIter.block_iter s3)) R) as [Ec|Ec];
    [apply (scan_end_fin (j * k) _ t s3) in SE; [done|lia|done]|].
  pose proof (scan_end_at _ _ t s3 Hin SE Ec) as Hat. cbv zeta in Hat.
  set (c := ucmp (ExtractUserKey (GetKey _)) _) in *. destruct (Z.eqb_spec c 0); cbn [negb]; [|done].
  destruct (plain_type _); cbn [negb]; [done|]. by apply (Seek_pos _ _ _ _ BK).
Qed.

(** In an empty block every search ends at the end. *)
Lemma SeekForGetImpl_empty num_buckets t s : lFin s ->
  index_entry t (DataBlockHashIndex.Lookup num_buckets (block_data es k nr tail)
                   (u32 (R + Z.of_nat nr * 4)) (ExtractUserKey t)) ->
  es = [] ->
  let '(res, s') := DataBlockIter.SeekForGetImpl plain_type num_buckets t s in
  res = true /\ at_pos s' None.
Proof.
  intros F HE E. pose proof (l_fin_open _ _ _ _ _ _ _ s F) as O.
  pose proof (l_open_base _ _ _ _ _ _ _ s O) as ST. simpl in ST. unfold DataBlockIter.SeekForGetImpl.
  rewrite (st_R _ _ _ _ _ _ _ _ ST), (st_nr _ _ _ _ _ _ _ _ ST), (static_bytes _ _ _ _ _ _ _ _ ST).
  set (entry := DataBlockHashIndex.Lookup _ _ _ _) in *. clearbody entry.
  assert (Enr : nr = 1%nat) by (by apply (layout_empty _ _ _ _ (block_layout _ _ _ _ BK))).
  destruct (Z.eqb_spec entry kCollision) as [->|Hc].
  { split; [done|]. by apply (seek_ops_empty es k nr tail ucmp false g (fun s => s) s t None E). }
  destruct (entry_interval t entry HE Hc) as (j & Hj & -> & _). assert (j = 0%nat) as -> by lia.
  pose proof (l_seek _ _ _ _ _ _ _ s 0 O Hj) as [B C]. cbv zeta.
  set (s1 := SeekToRestartPoint _ _) in *. pose proof (bf_static _ _ _ _ _ _ _ _ _ B) as ST1.
  rewrite (restart_point es k nr tail BK ucmp false g _ 0 ST1 Hj). cbn [BlockIter.set_pos BlockIter.num_restarts_ BlockIter.restarts_].
  rewrite (st_nr _ _ _ _ _ _ _ _ ST1), (st_R _ _ _ _ _ _ _ _ ST1).
  rewrite (proj2 (Z.ltb_ge (Z.of_nat 0 + 1) (Z.of_nat nr))) by lia.
  assert (ER : R = 0) by (by rewrite E). assert (Eo : off (0 * k) = 0) by done. rewrite ER, Eo. simpl.
  set (s2 := DataBlockIter.set_iter _ s1).
  assert (Es : forall f, DataBlockIter.interval_search f t 0 s2 = s2) by (by intros []).
  rewrite Es. change (BlockIter.current_ (DataBlockIter.block_iter s2)) with 0.
  change (BlockIter.restarts_ (DataBlockIter.block_iter s2)) with (BlockIter.restarts_ (DataBlockIter.block_iter s1)).
  rewrite (st_R _ _ _ _ _ _ _ _ ST1), ER. split; [done|]. split; [|exact C].
  split; [by destruct ST1|]. by rewrite ER.
Qed.
End search.

Section lookup.
Context `{Port} `{DbFormat} `{IterKeyOps} `{EmptySlice} `{!IterKeyLaws} `{!DbFormatLaws}.
Context (es : list entry) (k nr : nat) (tail : list Z) (BK : block_ok es k nr tail).
Context (ucmp : list Z -> list Z -> Z) (g : Z) `{!ComparatorLaws ucmp}.
Context (SORT : keys_sorted es ucmp false g) (INJ : forall a b, ucmp a b = 0 -> a = b) (plain_type : Z -> bool).
#[local] Instance lookup_laws : IterLaws es k nr tail ucmp false g DataBlockIter.t := data_laws es k nr tail BK ucmp false g.

(** What [Seek] shows. *)
Definition seek_shows (t : list Z) : option (list Z * list Z) * Status :=
  (match cursor_seek (icmp_Compare ucmp) (entries es false g) t with
   | Some i => entries es false g !! i
   | None => None
   end, St.OK).

Lemma lower_bound_shown t (s : DataBlockIter.t) :
  at_pos es k nr tail ucmp false g s (pos_of es (lower_bound es ucmp false g t)) ->
  observe (DataBlockIter.set_iter (BlockIter.UpdateKey (DataBlockIter.block_iter s)) s) = seek_shows t.
Proof.
  intros P. destruct (with_UpdateKey_visible es k nr tail BK ucmp false g SORT (fun s => s) s _ P) as [_ E].
  etransitivity; [exact E|]. unfold seek_shows, cursor_seek. f_equal. rewrite valid_pos_entries.
  rewrite (filter_entries es false g _ (fun e => icmp_Compare ucmp (shown false g (ekey e)) t < 0)) by done.
  unfold lower_bound, entries. change (kcmp ucmp false) with (icmp_Compare ucmp).
  destruct (pos_of _ _); [|done]. by rewrite list_lookup_fmap.
Qed.

Lemma SeekForGet_ok t (s : DataBlockIter.t) : lFin es k nr tail ucmp false g s ->
  match DataBlockIter.data_block_hash_index_ s with
  | Some n => (length es <= nr * k)%nat /\ (nr <= 254)%nat /\
      index_entry es k nr t (DataBlockHashIndex.Lookup n (block_data es k nr tail)
        (u32 (block_restarts es + Z.of_nat nr * 4)) (ExtractUserKey t))
  | None => True
  end ->
  let '(res, s') := DataBlockIter.SeekForGet plain_type t s in
  if res then observe s' = seek_shows t else no_match es ucmp g t.
Proof.
  intros F HI. pose proof (l_fin_open _ _ _ _ _ _ _ s F) as O. unfold DataBlockIter.SeekForGet.
  assert (Hempty : es = [] -> pos_of es (lower_bound es ucmp false g t) = None).
  { intros E. unfold pos_of. rewrite decide_False; [done|]. rewrite E. simpl. lia. }
  destruct (DataBlockIter.data_block_hash_index_ s) as [n|].
  - destruct HI as (NR & NR254 & HE). destruct (decide (es = [])) as [E|Hne].
    + pose proof (SeekForGetImpl_empty es k nr tail BK ucmp g plain_type NR NR254 n t s F HE E) as Hs.
      destruct (DataBlockIter.SeekForGetImpl _ _ _ _) as [res s']. destruct Hs as [-> P].
      apply lower_bound_shown. by rewrite Hempty.
    + pose proof (SeekForGetImpl_ok es k nr tail BK ucmp g SORT INJ plain_type NR NR254 n t s O HE Hne) as Hs.
      destruct (DataBlockIter.SeekForGetImpl _ _ _ _) as [[] s']; [by apply lower_bound_shown|apply Hs].
  - apply lower_bound_shown. destruct (decide (es = [])) as [E|Hne]; [|by apply (Seek_pos _ _ _ _ BK)].
    rewrite Hempty by done. by apply (seek_ops_empty es k nr tail ucmp false g (fun s => s) s t None E).
Qed.
End lookup.

Section built.
Context `{Port} `{DbFormat} `{IterKeyOps} `{EmptySlice} `{!IterKeyLaws} `{!DbFormatLaws}.

(** The hash index of a built block has the entries the search relies on. *)
Lemma built_index b es nr t : forall (ST : bstate b es nr) (PL : plain b)
    (SZ : zlen (fst (BlockBuilder.Finish b)) < 2 ^ 32), hashed b = true ->
  (length es <= nr * interval b)%nat /\ (nr <= 254)%nat /\
  index_entry es (interval b) nr t
    (DataBlockHashIndex.Lookup (DataBlockHashIndexBuilder.num_buckets (BlockBuilder.hash_builder_ b))
       (block_data es (interval b) nr (block_tail b es nr)) (u32 (block_restarts es + Z.of_nat nr * 4))
       (ExtractUserKey t)).
Proof.
  intros ST PL SZ Hh. pose proof (built_layout b es nr ST PL) as L. pose proof (built_interval b es nr ST) as Hk.
  pose proof (built_contents b es nr ST PL SZ) as E. rewrite Hh in E.
  pose proof (zlen_body b es nr ST PL) as Hb.
  assert (Hc : (length es <= nr * interval b)%nat).
  { destruct ST as [[B1 _ _ _ B5 B6 _ _] _ _]. pose proof (layout_nr _ _ _ _ L). unfold interval, zlen in *. nia. }
  assert (A : added (BlockBuilder.hash_builder_ b) (hash_keys (interval b) es)).
  { apply (bstate_hash _ _ _ ST). unfold hashed in Hh. by apply andb_prop in Hh as [-> _]. }
  assert (Hin : forall i e, es !! i = Some e ->
    (ExtractUserKey (ekey e), Z.of_nat (i / interval b)) ∈ hash_keys (interval b) es).
  { intros i e He. apply (list_elem_of_lookup_2 _ i). unfold hash_keys. by rewrite list_lookup_imap, He. }
  assert (Hmax : forall key r, (key, r) ∈ hash_keys (interval b) es -> exists j, r = Z.of_nat j /\ (j < nr)%nat /\ r <= 253).
  { intros key r Hr. pose proof (proj2 A) as HF. rewrite Forall_forall in HF. specialize (HF _ Hr). simpl in HF.
    unfold hash_keys in Hr. apply list_elem_of_lookup in Hr as (i & Hi). rewrite list_lookup_imap in Hi.
    destruct (es !! i) as [e|] eqn:He; [|done]. simpl in Hi. simplify_eq. eexists. split; [done|].
    unfold kMaxRestartSupportedByHashIndex in HF. split; [|lia].
    apply lookup_lt_Some in He. apply Nat.Div0.div_lt_upper_bound. lia. }
  split_and!; [done| |].
  - destruct (decide (es = [])) as [He|Hne]; [rewrite (layout_empty _ _ _ _ L He); lia|].
    pose proof (layout_nr _ _ _ _ L). pose proof (layout_nr_pos _ _ _ _ L (nr - 1) ltac:(lia) Hne).
    destruct (lookup_lt_is_Some_2 es ((nr - 1) * interval b)) as [e He]; [lia|].
    destruct (Hmax _ _ (Hin _ e He)) as (j & _ & _ & Hle). rewrite Nat.div_mul in Hle by lia. lia.
  - assert (Em : u32 (block_restarts es + Z.of_nat nr * 4) = zlen (body b es nr)).
    { assert (block_restarts es = zlen (BlockBuilder.buffer_ b)) as ->
        by (by rewrite (binv_buffer _ _ _ (bstate_inv _ _ _ ST)), PL).
      rewrite Z.mul_comm, <- Hb. apply u32_small. rewrite E, zlen_app, zlen_Finish, EstimateSize_eq in SZ.
      pose proof (num_buckets_range (BlockBuilder.hash_builder_ b)). pose proof (zlen_nonneg (body b es nr)).
      rewrite zlen_le_bytes in SZ. lia. }
    rewrite Em, <- built_block_data, E by done.
    destruct (Lookup_Finish (BlockBuilder.hash_builder_ b) (hash_keys (interval b) es) (body b es nr)
      (le_bytes 4 (PackIndexTypeAndNumRestarts kDataBlockBinaryAndHash (Z.of_nat nr))) (ExtractUserKey t) A) as [F1 F2].
    split.
    + destruct F1 as [|[|(key' & Hk')]]; [by left|by right; left|]. right; right.
      destruct (Hmax _ _ Hk') as (j & Ej & Hj & _). by exists j.
    + intros i e He Eu. apply F2. rewrite <- Eu. by apply Hin.
Qed.

Lemma no_match_pairs es ucmp g t kvs key value : no_match es ucmp g t -> map (fun e => (ekey e, evalue e)) es = kvs ->
  (key, value) ∈ shown_pairs false g kvs -> ExtractUserKey key = ExtractUserKey t -> icmp_Compare ucmp key t < 0.
Proof.
  intros HN Ekv Hin Eu. rewrite <- (entries_shown es false g kvs Ekv) in Hin. unfold entries in Hin.
  apply list_elem_of_fmap in Hin as (e & E & (i & Hi)%list_elem_of_lookup). apply (f_equal fst) in E. cbn [fst] in E. subst key.
  rewrite (user_key_shown false g (ekey e)) in Eu. by apply (HN i e Hi).
Qed.

(** A point lookup in the block built from [kvs]. *)
Definition lookup_built k d t u kvs ucmp g pinned iter plain_type target : bool * DataBlockIter.t :=
  DataBlockIter.SeekForGet plain_type target
    (Block.NewDataIterator ucmp g pinned iter (Block.new (build_contents k d t u kvs))).

(** C10: a point lookup in a built data block, with or without a hash
    index: when [SeekForGet] returns true, the iterator shows exactly what
    [Seek] would show; when it returns false, the block has no entry of the
    target's user key at or after the target. *)
Theorem seek_for_get_correct k d t u kvs ucmp g pinned iter plain_type target `{!ComparatorLaws ucmp} :
  buildable k d t u kvs -> sorted_pairs (icmp_Compare ucmp) (shown_pairs false g kvs) -> reusable iter ->
  (forall a b, ucmp a b = 0 -> a = b) ->
  let pairs := shown_pairs false g kvs in
  let '(res, s) := lookup_built k d t u kvs ucmp g pinned iter plain_type target in
  if res
  then observe s = (match cursor_seek (icmp_Compare ucmp) pairs target with Some i => pairs !! i | None => None end, St.OK)
  else forall key value, (key, value) ∈ pairs -> ExtractUserKey key = ExtractUserKey target ->
       icmp_Compare ucmp key target < 0.
Proof.
  intros HB Hs Hr INJ pairs. unfold lookup_built. destruct (build_state k d t u kvs HB) as (es & nr & ST & PL & Ei & Ekv).
  pose proof (buildable_size _ _ _ _ _ HB) as SZ. unfold build_contents in *.
  set (b := build k d t u kvs) in *. pose proof (built_block_ok b es nr ST PL SZ) as BK.
  pose proof (sorted_keys es ucmp false g kvs Ekv Hs) as SORT.
  pose proof (NewDataIterator_built b es nr ucmp g pinned iter ST PL SZ Hr) as [F Ehi].
  set (s0 := Block.NewDataIterator _ _ _ _ _) in *. clearbody s0.
  pose proof (SeekForGet_ok es _ nr _ BK ucmp g SORT INJ plain_type target s0 F) as HG. rewrite Ehi in HG.
  unfold seek_shows in HG. rewrite (entries_shown es false g kvs Ekv) in HG. fold pairs in HG.
  assert (HI : forall X (P : Z -> Prop) (n : Z), hashed b = X -> (X = true -> P n) ->
    match (if X then Some n else None) with Some n => P n | None => True end) by (intros [] ? ? ? HP; [by apply HP|done]).
  specialize (HG (HI _ _ _ eq_refl (built_index b es nr target ST PL SZ))). clear HI Ehi.
  destruct (DataBlockIter.SeekForGet _ _ _) as [[] s]; [done|].
  intros key value. by apply no_match_pairs with es.
Qed.
End built.

#[local] Existing Instances le_port Concrete.format Concrete.iter_key Concrete.format_laws Concrete.iter_key_laws.
#[local] Instance no_offset : EmptySlice := {| empty_slice_off := 0 |}.

Lemma seek_for_get_correct_witness :
  let ikey u s := u ++ le_bytes 8 (s * 256 + 1) in
  let kvs := [(ikey [97] 5, [1]); (ikey [98] 7, [2; 3]); (ikey [98] 6, [])] in
  let pairs := shown_pairs false kDisableGlobalSequenceNumber kvs in
  let '(res, s) := lookup_built 2 true kDataBlockBinaryAndHash kDefaultUtilRatio kvs BytewiseComparator.Compare
    kDisableGlobalSequenceNumber true DataBlockIter.new (fun _ => true) (ikey [97] 9) in
  if res
  then observe s = (match cursor_seek (icmp_Compare BytewiseComparator.Compare) pairs (ikey [97] 9) with
                    | Some i => pairs !! i | None => None end, St.OK)
  else forall key value, (key, value) ∈ pairs -> ExtractUserKey key = ExtractUserKey (ikey [97] 9) ->
       icmp_Compare BytewiseComparator.Compare key (ikey [97] 9) < 0.
Proof.
  intros ikey kvs. apply seek_for_get_correct; [apply bytewise_laws|..].
  - split; [lia|repeat constructor|vm_compute; reflexivity].
  - repeat constructor; vm_compute; reflexivity.
  - by left.
  - intros a b E. unfold BytewiseComparator.Compare in E. rewrite compare_lex in E. by apply lex_eq.
Defined.

(** A negative answer of [SeekForGet] does not imply that the
    block ends with a greater user key: here the target's user key shares its
    bucket with a key of the first interval, every key of the block is less than
    the target, and the answer is still false. *)
Theorem seek_for_get_false_positive :
  let ikey u s := u ++ le_bytes 8 (s * 256 + 1) in
  let kvs := [(ikey [97] 5, [1]); (ikey [98] 7, [2; 3])] in
  let target := ikey [103] 9 in
  fst (lookup_built 1 true kDataBlockBinaryAndHash kDefaultUtilRatio kvs BytewiseComparator.Compare
    kDisableGlobalSequenceNumber true DataBlockIter.new (fun _ => true) target) = false /\
  Forall (fun kv => BytewiseComparator.Compare (ExtractUserKey kv.1) (ExtractUserKey target) < 0) kvs.
Proof. split; [|repeat constructor]; vm_compute; reflexivity. Qed.
