(* ===== verification/CommitCache.v ===== *)
(** * Entries of the commit cache

    [CommitEntry64b] (utilities/transactions/write_prepared_txn_db.h) packs a
    prepare and a commit sequence number into one 64-bit word; the low bits of
    the prepare number are the index of the entry in the cache. *)

From stdpp Require Import prelude.
From Stdlib Require Import ZArith Lia Bool.
From S2P Require Import Prelude.

Record CommitEntry := mkCommitEntry { prep_seq : Z; commit_seq : Z }.

#[export] Instance CommitEntry_eq_dec : EqDecision CommitEntry.
Proof. solve_decision. Defined.

Module CommitEntry64bFormat.
Record t := mk {
  INDEX_BITS : Z;
  PREP_BITS : Z;
  COMMIT_BITS : Z;
  COMMIT_FILTER : Z;
  DELTA_UPPERBOUND : Z;
}.

Definition PAD_BITS : Z := 8.

Definition new (index_bits : Z) : t :=
  let prep_bits := u64 (64 - PAD_BITS - index_bits) in
  let commit_bits := u64 (64 - prep_bits) in
  mk index_bits prep_bits commit_bits
    (u64 (u64 (Z.shiftl 1 commit_bits) - 1)) (u64 (Z.shiftl 1 commit_bits)).
End CommitEntry64bFormat.

Module CommitEntry64b.
(** The word [rep_]. *)
Definition empty : Z := 0.

(** The constructor; [None] is the exception. *)
Definition new (ps cs : Z) (format : CommitEntry64bFormat.t) : option Z :=
  let delta := u64 (cs - ps + 1) in
  if delta >=? CommitEntry64bFormat.DELTA_UPPERBOUND format then None
  else
    let rep_ := Z.land (u64 (Z.shiftl ps CommitEntry64bFormat.PAD_BITS))
                  (u64 (Z.lnot (CommitEntry64bFormat.COMMIT_FILTER format))) in
    Some (Z.lor rep_ delta).

(** [None] if the entry is empty. *)
Definition Parse (rep_ : Z) (indexed_seq : Z) (format : CommitEntry64bFormat.t) : option CommitEntry :=
  let delta := Z.land rep_ (CommitEntry64bFormat.COMMIT_FILTER format) in
  if delta =? 0 then None
  else
    let prep_up := Z.land rep_ (u64 (Z.lnot (CommitEntry64bFormat.COMMIT_FILTER format))) in
    let prep_up := Z.shiftr prep_up CommitEntry64bFormat.PAD_BITS in
    let prep_low := indexed_seq in
    let prep := Z.lor prep_up prep_low in
    Some (mkCommitEntry prep (u64 (u64 (prep + delta) - 1))).
End CommitEntry64b.

(** ** Lemmas *)

Lemma lor_shiftl_add q n d : 0 <= d < 2 ^ n -> Z.lor (Z.shiftl q n) d = q * 2 ^ n + d.
Proof.
  intros Hd. assert (Hn : 0 <= n) by (destruct (Z.le_gt_cases 0 n); [done|rewrite Z.pow_neg_r in Hd by lia; lia]).
  rewrite <- Z.shiftl_mul_pow2 by done. symmetry. rewrite <- Z.lxor_lor, Z.add_nocarry_lxor; [done| |].
  - apply Z.bits_inj'; intros i Hi. rewrite Z.land_spec, Z.bits_0.
    destruct (Z.ltb_spec i n); [by rewrite Z.shiftl_spec_low|]. by rewrite (tbit_high d n i), andb_false_r.
  - apply Z.bits_inj'; intros i Hi. rewrite Z.land_spec, Z.bits_0.
    destruct (Z.ltb_spec i n); [by rewrite Z.shiftl_spec_low|]. by rewrite (tbit_high d n i), andb_false_r.
Qed.

Section format.
Context (b : Z) (Hb : 0 <= b <= 48).
#[local] Abbreviation fmt := (CommitEntry64bFormat.new b).

Lemma format_eq : fmt = CommitEntry64bFormat.mk b (56 - b) (8 + b) (Z.ones (8 + b)) (2 ^ (8 + b)).
Proof.
  unfold CommitEntry64bFormat.new, CommitEntry64bFormat.PAD_BITS.
  rewrite (u64_small (64 - 8 - b)) by lia. replace (64 - 8 - b) with (56 - b) by lia.
  rewrite (u64_small (64 - (56 - b))) by lia. replace (64 - (56 - b)) with (8 + b) by lia.
  rewrite Z.shiftl_1_l. assert (H1 : 2 ^ 0 <= 2 ^ (8 + b)) by (apply Z.pow_le_mono_r; lia).
  assert (H2 : 2 ^ (8 + b) <= 2 ^ 56) by (apply Z.pow_le_mono_r; lia).
  rewrite (u64_small (2 ^ (8 + b))) by lia. rewrite u64_small by lia. by rewrite Z.ones_equiv, <- Z.sub_1_r.
Qed.

(** Clearing the low bits of a word. *)
Lemma clear_low w : is_u 64 w ->
  Z.land w (u64 (Z.lnot (Z.ones (8 + b)))) = Z.shiftl (Z.shiftr w (8 + b)) (8 + b).
Proof.
  intros Hw. apply Z.bits_inj'; intros n Hn. rewrite Z.land_spec. unfold u64.
  destruct (Z.ltb_spec n (8 + b)) as [Hlt|Hge].
  - rewrite Z.shiftl_spec_low by done. destruct (Z.testbit w n); [|done]. cbn [andb].
    rewrite Z.mod_pow2_bits_low, Z.lnot_spec, Z.ones_spec_low by lia. done.
  - rewrite Z.shiftl_spec, Z.shiftr_spec by lia. replace (n - (8 + b) + (8 + b)) with n by lia.
    destruct (Z.ltb_spec n 64) as [H64|H64].
    + rewrite Z.mod_pow2_bits_low, Z.lnot_spec, Z.ones_spec_high by lia. by rewrite andb_true_r.
    + rewrite (tbit_high w 64 n) by done. done.
Qed.

Lemma pow_bounds : 2 ^ 8 <= 2 ^ (8 + b) <= 2 ^ 56.
Proof. split; apply Z.pow_le_mono_r; lia. Qed.

(** The packed word: the high part of the prepare number above the delta. *)
Lemma new_eq p c : 0 <= p < 2 ^ 56 -> 0 < c - p + 1 < 2 ^ (8 + b) ->
  CommitEntry64b.new p c fmt = Some (Z.lor (Z.shiftl (Z.shiftr p b) (8 + b)) (c - p + 1)).
Proof.
  intros Hp Hd. pose proof pow_bounds. unfold CommitEntry64b.new, CommitEntry64bFormat.PAD_BITS. rewrite format_eq. simpl.
  rewrite (u64_small (c - p + 1)) by lia. rewrite Z.geb_leb, (proj2 (Z.leb_gt _ _)) by lia.
  rewrite clear_low by apply Z.mod_pos_bound, eq_refl. do 3 f_equal.
  rewrite u64_small by (rewrite Z.shiftl_mul_pow2 by lia; lia).
  rewrite <- (Z.shiftr_shiftr _ 8 b) by lia. rewrite Z.shiftr_shiftl_l by lia. by rewrite Z.shiftl_0_r.
Qed.

Lemma Parse_new p c w : 0 <= p < 2 ^ 56 -> 0 < c - p + 1 < 2 ^ (8 + b) -> p + (c - p + 1) < 2 ^ 64 ->
  CommitEntry64b.new p c fmt = Some w ->
  CommitEntry64b.Parse w (p mod 2 ^ b) fmt = Some (mkCommitEntry p c) /\ is_u 64 w.
Proof.
  intros Hp Hd Hc. rewrite new_eq by done. intros [= <-]. set (d := c - p + 1) in *. set (q := Z.shiftr p b).
  pose proof pow_bounds as Hpow.
  assert (Hq : 0 <= q < 2 ^ (56 - b)).
  { unfold q. rewrite Z.shiftr_div_pow2 by lia. split; [apply Z.div_pos; [lia|apply Z.pow_pos_nonneg; lia]|].
    apply Z.div_lt_upper_bound; [apply Z.pow_pos_nonneg; lia|]. rewrite <- Z.pow_add_r by lia.
    replace (b + (56 - b)) with 56 by lia. lia. }
  assert (Ew : Z.lor (Z.shiftl q (8 + b)) d = q * 2 ^ (8 + b) + d) by (apply lor_shiftl_add; lia).
  assert (Hu : is_u 64 (q * 2 ^ (8 + b) + d)).
  { unfold is_u. split; [nia|]. assert (2 ^ 64 = 2 ^ (56 - b) * 2 ^ (8 + b)); [|nia].
    rewrite <- Z.pow_add_r by lia. f_equal. lia. }
  rewrite Ew. split; [|done]. unfold CommitEntry64b.Parse. rewrite format_eq. simpl.
  rewrite Z.land_ones by lia. rewrite clear_low by done.
  rewrite (Z.add_comm (q * _)), Z.mod_add, (Z.mod_small d) by lia.
  rewrite (proj2 (Z.eqb_neq d 0)) by lia. f_equal.
  rewrite (Z.shiftr_div_pow2 _ (8 + b)), Z.div_add, (Z.div_small d) by lia.
  change CommitEntry64bFormat.PAD_BITS with 8. rewrite Z.shiftr_shiftl_l by lia.
  replace (8 + b - 8) with b by lia. rewrite Z.add_0_l, lor_shiftl_add by (apply Z.mod_pos_bound; lia).
  unfold q. rewrite Z.shiftr_div_pow2 by lia.
  replace (p / 2 ^ b * 2 ^ b + p mod 2 ^ b) with p by (pose proof (Z.div_mod p (2 ^ b)); lia).
  rewrite (u64_small (p + d)), u64_small by lia. f_equal. unfold d. lia.
Qed.

Lemma new_Some p c w : 0 <= p <= c -> c < 2 ^ 63 -> CommitEntry64b.new p c fmt = Some w -> 0 < c - p + 1 < 2 ^ (8 + b).
Proof.
  intros Hp Hc. unfold CommitEntry64b.new. rewrite format_eq. simpl. rewrite u64_small by lia. rewrite Z.geb_leb.
  destruct (Z.leb_spec (2 ^ (8 + b)) (c - p + 1)); [done|]. lia.
Qed.
End format.

(** Packing a commit entry never loses information: for any
    cache of at most 2^48 entries, a prepare number of at most 56 bits and a
    commit number in range, the word is built and reading it back at the index
    of the prepare number gives both numbers; a commit number out of range is
    refused, and the empty word reads as no entry. *)
Theorem commit_entry_roundtrip (b p c : Z) :
  0 <= b <= 48 -> 0 <= p <= c -> p < 2 ^ 56 -> c < 2 ^ 63 ->
  let format := CommitEntry64bFormat.new b in
  CommitEntry64b.Parse CommitEntry64b.empty (p mod 2 ^ b) format = None /\
  match CommitEntry64b.new p c format with
  | Some w => c - p + 1 < 2 ^ (8 + b) /\ CommitEntry64b.Parse w (p mod 2 ^ b) format = Some (mkCommitEntry p c)
  | None => 2 ^ (8 + b) <= c - p + 1
  end.
Proof.
  intros Hb Hpc Hp Hc format. split; [done|].
  destruct (Z.lt_ge_cases (c - p + 1) (2 ^ (8 + b))) as [Hlt|Hge].
  - destruct (CommitEntry64b.new p c format) as [w|] eqn:E.
    + split; [done|]. apply (Parse_new b Hb p c w); [lia|lia|lia|done].
    + unfold format in E. rewrite new_eq in E; [done|lia|lia|lia].
  - unfold CommitEntry64b.new, format. rewrite format_eq by done. simpl.
    rewrite u64_small by lia. by rewrite Z.geb_leb, (proj2 (Z.leb_le _ _)).
Qed.

Lemma commit_entry_roundtrip_witness :
  let format := CommitEntry64bFormat.new 23 in
  CommitEntry64b.Parse CommitEntry64b.empty (123456789 mod 2 ^ 23) format = None /\
  match CommitEntry64b.new 123456789 123459999 format with
  | Some w => 123459999 - 123456789 + 1 < 2 ^ (8 + 23) /\
      CommitEntry64b.Parse w (123456789 mod 2 ^ 23) format = Some (mkCommitEntry 123456789 123459999)
  | None => 2 ^ (8 + 23) <= 123459999 - 123456789 + 1
  end.
Proof. apply commit_entry_roundtrip; lia. Defined.
