(* ===== verification/PreparedHeap.v ===== *)
(** * The heap of prepared transactions

    [PreparedHeap] (utilities/transactions/write_prepared_txn_db.h): a queue of
    prepare sequence numbers, pushed in increasing order, with a second heap of
    numbers erased while they were not on top. It is shown to behave as a sorted
    list of numbers. *)

From stdpp Require Import prelude sorting.
From Stdlib Require Import ZArith Lia Bool Sorted.
From S2P Require Import Prelude.

(** The largest sequence number (db/dbformat.h, not part of the sources). *)
Class SeqLimit := { kMaxSequenceNumber : Z }.

(** [std::priority_queue] with [std::greater]: the smallest element is on top. *)
Fixpoint pq_push (v : Z) (q : list Z) : list Z :=
  match q with
  | [] => [v]
  | x :: q' => if v <=? x then v :: q else x :: pq_push v q'
  end.

Module PreparedHeap.
Section heap.
Context `{SeqLimit}.

Record t := mk {
  heap_ : list Z;
  erased_heap_ : list Z;
  heap_top_ : Z;
}.

Definition new : t := mk [] [] kMaxSequenceNumber.

Definition top (h : t) : Z := heap_top_ h.
Definition empty (h : t) : bool := top h =? kMaxSequenceNumber.

Definition push (v : Z) (h : t) : t :=
  mk (heap_ h ++ [v]) (erased_heap_ h) (match heap_ h with [] => v | _ => heap_top_ h end).

(** The first loop of [pop]: erased entries that reached the top. *)
Fixpoint drain (heap erased : list Z) : list Z * list Z :=
  match erased, heap with
  | e :: erased', x :: heap' =>
      if x >=? e then drain (if x =? e then heap' else heap) erased' else (heap, erased)
  | _, _ => (heap, erased)
  end.

(** [pop_front] of an empty queue is undefined; here it does nothing. The callers pop only a heap that is not empty. *)
Definition pop (h : t) : t :=
  let heap := tl (heap_ h) in
  let '(heap, erased) := drain heap (erased_heap_ h) in
  let erased := match heap with [] => [] | _ => erased end in
  mk heap erased (match heap with x :: _ => x | [] => kMaxSequenceNumber end).

Definition erase (seq : Z) (h : t) : t :=
  if negb (empty h)
  then
    let top_seq := top h in
    if seq <? top_seq then h
    else if top_seq =? seq then pop h
    else mk (heap_ h) (pq_push seq (erased_heap_ h)) (heap_top_ h)
  else h.

End heap.
End PreparedHeap.

(** ** The sorted list it stands for *)

Section members.
Context `{SeqLimit}.
Implicit Types h : PreparedHeap.t.

(** The numbers in the queue that have not been erased. *)
Definition members h : list Z := filter (fun x => x ∉ PreparedHeap.erased_heap_ h) (PreparedHeap.heap_ h).

Record heap_ok h : Prop := {
  heap_sorted : StronglySorted Z.lt (PreparedHeap.heap_ h);
  erased_sorted : StronglySorted Z.le (PreparedHeap.erased_heap_ h);
  heap_top : PreparedHeap.heap_top_ h = match PreparedHeap.heap_ h with x :: _ => x | [] => kMaxSequenceNumber end;
  heap_limit : Forall (fun x => x < kMaxSequenceNumber) (PreparedHeap.heap_ h);
  heap_erased : match PreparedHeap.heap_ h with
                | x :: _ => Forall (fun e => x < e) (PreparedHeap.erased_heap_ h)
                | [] => PreparedHeap.erased_heap_ h = []
                end;
}.

Lemma heap_ok_new : heap_ok PreparedHeap.new.
Proof. by repeat constructor. Qed.

Lemma elem_of_pq_push x v q : x ∈ pq_push v q <-> x = v \/ x ∈ q.
Proof.
  induction q as [|y q IH]; simpl; [rewrite list_elem_of_singleton, elem_of_nil; tauto|].
  destruct (v <=? y); rewrite !elem_of_cons; [done|]. rewrite IH. tauto.
Qed.

Lemma pq_push_sorted v q : StronglySorted Z.le q -> StronglySorted Z.le (pq_push v q).
Proof.
  induction 1 as [|y q Hs IH Hy]; simpl; [by repeat constructor|].
  destruct (Z.leb_spec v y).
  - constructor; [by constructor|]. constructor; [done|]. eapply Forall_impl; [exact Hy|]. lia.
  - constructor; [done|]. apply Forall_forall. intros x [->|Hx]%elem_of_pq_push; [lia|].
    rewrite Forall_forall in Hy. auto.
Qed.

Lemma filter_ext_in {A} (P Q : A -> Prop) `{!forall x, Decision (P x)} `{!forall x, Decision (Q x)} (l : list A) :
  (forall x, x ∈ l -> P x <-> Q x) -> filter P l = filter Q l.
Proof.
  induction l as [|x l IH]; intros HPQ; [done|]. rewrite !filter_cons.
  pose proof (HPQ x (list_elem_of_here x l)). rewrite IH by (intros; apply HPQ; by right).
  do 2 case_decide; tauto.
Qed.

Lemma StronglySorted_filter {A} (R : A -> A -> Prop) (P : A -> Prop) `{!forall x, Decision (P x)} (l : list A) :
  StronglySorted R l -> StronglySorted R (filter P l).
Proof.
  induction 1 as [|x l Hs IH Hx]; [constructor|]. rewrite filter_cons. case_decide; [|done]. constructor; [done|].
  apply Forall_forall. intros y [_ Hy]%list_elem_of_filter. rewrite Forall_forall in Hx. auto.
Qed.

(** [drain] keeps the members and leaves an unerased number on top. *)
Lemma drain_spec l e l' e' : StronglySorted Z.lt l -> StronglySorted Z.le e -> PreparedHeap.drain l e = (l', e') ->
  filter (fun x => x ∉ e) l = filter (fun x => x ∉ e') l' /\
  StronglySorted Z.lt l' /\ StronglySorted Z.le e' /\ l' ⊆ l /\
  match l' with x :: _ => Forall (fun y => x < y) e' | [] => True end.
Proof.
  revert l. induction e as [|y e IH]; intros l Hl He; [by intros [= <- <-]; destruct l|].
  apply StronglySorted_inv in He as [He Hy]. cbn [PreparedHeap.drain].
  destruct l as [|x l]; [by intros [= <- <-]; repeat constructor|].
  pose proof (StronglySorted_inv Hl) as [Hl' Hx]. rewrite Z.geb_leb.
  destruct (Z.leb_spec y x) as [Hle|Hlt].
  - destruct (Z.eqb_spec x y) as [->|Hne]; intros E.
    + destruct (IH l Hl' He E) as (E1 & E2 & E3 & E4 & E5). split_and!; [|done|done|set_solver|done].
      rewrite filter_cons_False by set_solver. rewrite <- E1. apply filter_ext_in. intros z Hz.
      rewrite Forall_forall in Hx. specialize (Hx z Hz). rewrite not_elem_of_cons. split; [tauto|]. split; [lia|done].
    + destruct (IH (x :: l) Hl He E) as (E1 & E2 & E3 & E4 & E5). split_and!; [|done..].
      rewrite <- E1. apply filter_ext_in. intros z Hz. rewrite not_elem_of_cons. split; [tauto|].
      intros Hz'. split; [|done]. rewrite elem_of_cons in Hz. rewrite Forall_forall in Hx.
      destruct Hz as [->|Hz]; [lia|]. specialize (Hx z Hz). lia.
  - intros [= <- <-]. split_and!; [done|done|by constructor|done|]. constructor; [done|].
    eapply Forall_impl; [exact Hy|]. simpl. lia.
Qed.

Lemma subseteq_Forall {A} (P : A -> Prop) (l l' : list A) : l' ⊆ l -> Forall P l -> Forall P l'.
Proof. rewrite !Forall_forall. eauto. Qed.

Lemma heap_ok_drain l e : StronglySorted Z.lt l -> StronglySorted Z.le e -> Forall (fun x => x < kMaxSequenceNumber) l ->
  let '(l', e') := PreparedHeap.drain l e in
  let h' := PreparedHeap.mk l' (match l' with [] => [] | _ => e' end)
              (match l' with x :: _ => x | [] => kMaxSequenceNumber end) in
  heap_ok h' /\ members h' = filter (fun x => x ∉ e) l.
Proof.
  intros Hl He Hk. destruct (PreparedHeap.drain l e) as [l' e'] eqn:E.
  destruct (drain_spec l e l' e' Hl He E) as (E1 & E2 & E3 & E4 & E5). unfold members. rewrite E1.
  pose proof (subseteq_Forall _ _ _ E4 Hk). split; [|by destruct l'].
  destruct l'; split; simpl; try done; constructor.
Qed.

(** The members when there is a top. *)
Lemma members_top h x l : heap_ok h -> PreparedHeap.heap_ h = x :: l ->
  members h = x :: filter (fun y => y ∉ PreparedHeap.erased_heap_ h) l.
Proof.
  intros HH E. unfold members. rewrite E, filter_cons_True; [done|]. intros Hin.
  pose proof (heap_erased h HH) as He. rewrite E, Forall_forall in He. specialize (He x Hin). lia.
Qed.

Lemma pop_ok h : heap_ok h -> heap_ok (PreparedHeap.pop h) /\ members (PreparedHeap.pop h) = tl (members h).
Proof.
  intros HH. pose proof HH as [H1 H2 H3 H4 H5]. unfold PreparedHeap.pop.
  destruct (PreparedHeap.heap_ h) as [|x l] eqn:E; simpl.
  - rewrite H5. unfold members. rewrite E. simpl. repeat constructor.
  - rewrite (members_top h x l HH E). simpl. apply StronglySorted_inv in H1 as [H1 _]. apply Forall_cons_1 in H4 as [_ H4].
    pose proof (heap_ok_drain l (PreparedHeap.erased_heap_ h) H1 H2 H4) as HD.
    by destruct (PreparedHeap.drain _ _) as [l' e'].
Qed.

Lemma top_ok h : heap_ok h -> PreparedHeap.top h = match members h with x :: _ => x | [] => kMaxSequenceNumber end.
Proof.
  intros HH. unfold PreparedHeap.top. rewrite (heap_top h HH). destruct (PreparedHeap.heap_ h) as [|x l] eqn:E.
  - unfold members. by rewrite E.
  - by rewrite (members_top h x l).
Qed.

Lemma members_heap h x : x ∈ members h -> x ∈ PreparedHeap.heap_ h.
Proof. unfold members. rewrite list_elem_of_filter. tauto. Qed.

Lemma empty_ok h : heap_ok h -> PreparedHeap.empty h = bool_decide (members h = []).
Proof.
  intros HH. unfold PreparedHeap.empty. rewrite (top_ok h HH). destruct (members h) as [|x l] eqn:E; [by rewrite Z.eqb_refl|].
  assert (Hx : x ∈ PreparedHeap.heap_ h) by (apply members_heap; rewrite E; left).
  pose proof (heap_limit h HH) as HL. rewrite Forall_forall in HL. specialize (HL x Hx).
  rewrite bool_decide_false by done. apply Z.eqb_neq. lia.
Qed.

Lemma push_ok v h : heap_ok h -> v < kMaxSequenceNumber ->
  Forall (fun x => x < v) (PreparedHeap.heap_ h) -> Forall (fun x => x < v) (PreparedHeap.erased_heap_ h) ->
  heap_ok (PreparedHeap.push v h) /\ members (PreparedHeap.push v h) = members h ++ [v].
Proof.
  intros [H1 H2 H3 H4 H5] Hv Hh He. split.
  - split; simpl; [| done | | by apply Forall_app; split; [|by repeat constructor] |].
    + apply StronglySorted_app; split_and!; [|done|by repeat constructor].
      intros x y Hx Hy%list_elem_of_singleton. subst y. rewrite Forall_forall in Hh. auto.
    + by destruct (PreparedHeap.heap_ h).
    + destruct (PreparedHeap.heap_ h); simpl; [rewrite H5; constructor|done].
  - unfold members. simpl. rewrite filter_app. f_equal. rewrite filter_cons_True; [done|].
    intros Hin. rewrite Forall_forall in He. specialize (He v Hin). lia.
Qed.

Lemma erase_ok seq h : heap_ok h ->
  heap_ok (PreparedHeap.erase seq h) /\ members (PreparedHeap.erase seq h) = filter (fun x => x <> seq) (members h).
Proof.
  intros HH. unfold PreparedHeap.erase. rewrite (empty_ok h HH). pose proof (top_ok h HH) as Et.
  destruct (members h) as [|x l] eqn:E; [by rewrite bool_decide_true|]. rewrite bool_decide_false by done. cbn [negb].
  assert (Hs : StronglySorted Z.lt (x :: l)) by (rewrite <- E; apply StronglySorted_filter, (heap_sorted h HH)).
  apply StronglySorted_inv in Hs as [_ Hx]. rewrite Forall_forall in Hx. rewrite Et.
  destruct (Z.ltb_spec seq x) as [Hlt|Hge]; [|destruct (Z.eqb_spec x seq) as [->|Hne]].
  - split; [done|]. rewrite E. symmetry. apply filter_all. apply Forall_forall.
    intros y [->|Hy]%elem_of_cons; [lia|]. specialize (Hx y Hy). lia.
  - destruct (pop_ok h HH) as [HP ->]. split; [done|]. rewrite E. simpl. rewrite filter_cons_False by tauto.
    symmetry. apply filter_all, Forall_forall. intros y Hy. specialize (Hx y Hy). lia.
  - split.
    + destruct HH as [H1 H2 H3 H4 H5]. unfold PreparedHeap.top in Et. rewrite Et in H3.
      split; simpl; [done|by apply pq_push_sorted|congruence|done|].
      destruct (PreparedHeap.heap_ h) as [|z zs] eqn:Ez; [unfold members in E; by rewrite Ez in E|].
      subst z. apply Forall_forall. intros y [->|Hy]%elem_of_pq_push; [lia|]. rewrite Forall_forall in H5. auto.
    + rewrite <- E. unfold members. simpl. rewrite list_filter_filter. apply list_filter_iff. intros y.
      rewrite elem_of_pq_push. tauto.
Qed.
End members.

(** ** Sequences of operations *)

Inductive heap_op := HPush (v : Z) | HPop | HErase (seq : Z).

Section ops.
Context `{SeqLimit}.

Definition run_heap_op (h : PreparedHeap.t) (op : heap_op) : PreparedHeap.t :=
  match op with
  | HPush v => PreparedHeap.push v h
  | HPop => PreparedHeap.pop h
  | HErase seq => PreparedHeap.erase seq h
  end.

(** The same operations on a list of numbers. *)
Definition run_list_op (l : list Z) (op : heap_op) : list Z :=
  match op with
  | HPush v => l ++ [v]
  | HPop => tl l
  | HErase seq => filter (fun x => x <> seq) l
  end.

(** Numbers are pushed in increasing order and not erased before they are pushed. *)
Fixpoint ops_in_order (bound : Z) (ops : list heap_op) : Prop :=
  match ops with
  | [] => True
  | HPush v :: ops => bound < v < kMaxSequenceNumber /\ ops_in_order v ops
  | HErase seq :: ops => ops_in_order (Z.max bound seq) ops
  | HPop :: ops => ops_in_order bound ops
  end.

Lemma drain_subset l e : (PreparedHeap.drain l e).1 ⊆ l /\ (PreparedHeap.drain l e).2 ⊆ e.
Proof.
  revert l. induction e as [|y e IH]; intros l; [by destruct l|]. destruct l as [|x l]; [done|].
  cbn [PreparedHeap.drain]. destruct (x >=? y); [|done].
  destruct (x =? y); [destruct (IH l) as [I1 I2]|destruct (IH (x :: l)) as [I1 I2]]; split;
    intros z Hz; try apply I1 in Hz; try apply I2 in Hz; try done; by right.
Qed.

Lemma op_bound h op bound : Forall (fun x => x <= bound) (PreparedHeap.heap_ h ++ PreparedHeap.erased_heap_ h) ->
  forall bound', bound <= bound' -> match op with HPush v => v = bound' | HErase s => s <= bound' | HPop => True end ->
  let h' := run_heap_op h op in Forall (fun x => x <= bound') (PreparedHeap.heap_ h' ++ PreparedHeap.erased_heap_ h').
Proof.
  intros Hb bound' Hle Hop. assert (Hpop : Forall (fun x => x <= bound')
    (PreparedHeap.heap_ (PreparedHeap.pop h) ++ PreparedHeap.erased_heap_ (PreparedHeap.pop h))).
  { rewrite Forall_app in Hb. destruct Hb as [B1 B2]. unfold PreparedHeap.pop.
    destruct (drain_subset (tl (PreparedHeap.heap_ h)) (PreparedHeap.erased_heap_ h)) as [S1 S2].
    destruct (PreparedHeap.drain _ _) as [l e]. simpl in *. rewrite Forall_forall in *.
    intros x [Hx|Hx]%elem_of_app.
    - apply S1 in Hx. destruct (PreparedHeap.heap_ h); [by apply elem_of_nil in Hx|].
      specialize (B1 x (list_elem_of_further _ _ _ Hx)). lia.
    - destruct l; [by apply elem_of_nil in Hx|]. specialize (B2 x (S2 x Hx)). lia. }
  assert (Hsame : Forall (fun x => x <= bound') (PreparedHeap.heap_ h ++ PreparedHeap.erased_heap_ h)).
  { eapply Forall_impl; [exact Hb|]. simpl. lia. }
  destruct op as [v| |seq]; simpl; [|done|].
  - rewrite Forall_app in *. destruct Hsame. rewrite Forall_app. split; [split; [done|]|done]. constructor; [lia|done].
  - unfold PreparedHeap.erase. destruct (negb _); [|done]. destruct (seq <? _); [done|]. destruct (_ =? seq); [done|].
    simpl. rewrite Forall_app in *. destruct Hsame as [B1 B2]. split; [done|]. rewrite Forall_forall in *.
    intros x [->|Hx]%elem_of_pq_push; [lia|auto].
Qed.

Lemma run_heap_op_ok h bound op ops : heap_ok h ->
  Forall (fun x => x <= bound) (PreparedHeap.heap_ h ++ PreparedHeap.erased_heap_ h) -> ops_in_order bound (op :: ops) ->
  heap_ok (run_heap_op h op) /\ members (run_heap_op h op) = run_list_op (members h) op /\
  exists bound', ops_in_order bound' ops /\
    Forall (fun x => x <= bound') (PreparedHeap.heap_ (run_heap_op h op) ++ PreparedHeap.erased_heap_ (run_heap_op h op)).
Proof.
  intros HH Hb Ho. destruct op as [v| |seq]; cbn [ops_in_order run_heap_op run_list_op] in *.
  - destruct Ho as [Hv Ho]. pose proof Hb as [B1 B2]%Forall_app.
    destruct (push_ok v h HH) as [P1 P2]; [lia|eapply Forall_impl; [exact B1|simpl; lia]|
      eapply Forall_impl; [exact B2|simpl; lia]|].
    split_and!; [done|done|]. exists v. split; [done|]. apply (op_bound h (HPush v) bound); [done|lia|done].
  - destruct (pop_ok h HH) as [P1 P2]. split_and!; [done|done|]. exists bound. split; [done|].
    by apply (op_bound h HPop bound).
  - destruct (erase_ok seq h HH) as [P1 P2]. split_and!; [done|done|]. exists (Z.max bound seq). split; [done|].
    apply (op_bound h (HErase seq) bound); [done|lia|lia].
Qed.

(** C19: for every sequence of pushes in increasing order, pops and
    erasures (of numbers present or not), where a pop of an empty queue is taken to
    do nothing, the queue with its heap of erased
    numbers holds what a plain list would hold, and [top] and [empty] report the
    smallest number and whether there is one. *)
Theorem prepared_heap_refines (ops : list heap_op) : ops_in_order 0 ops ->
  let h := foldl run_heap_op PreparedHeap.new ops in
  let l := foldl run_list_op [] ops in
  members h = l /\ PreparedHeap.top h = match l with x :: _ => x | [] => kMaxSequenceNumber end /\
  PreparedHeap.empty h = bool_decide (l = []).
Proof.
  intros Ho h l. assert (HR : heap_ok h /\ members h = l).
  { unfold h, l. change (@nil Z) with (members PreparedHeap.new).
    assert (Hb : Forall (fun x => x <= 0) (PreparedHeap.heap_ PreparedHeap.new ++ PreparedHeap.erased_heap_ PreparedHeap.new))
      by constructor.
    pose proof heap_ok_new as HH. revert HH Hb Ho. generalize PreparedHeap.new, 0. clear h l.
    induction ops as [|op ops IH]; intros h bound HH Hb Ho; cbn [foldl]; [done|].
    destruct (run_heap_op_ok h bound op ops HH Hb Ho) as (P1 & P2 & bound' & P3 & P4).
    rewrite <- P2. by apply (IH _ bound'). }
  destruct HR as [HH <-]. split_and!; [done|by apply top_ok|by apply empty_ok].
Qed.
End ops.

Lemma prepared_heap_refines_witness :
  let limit := {| kMaxSequenceNumber := 2 ^ 56 - 1 |} in
  let ops := [HPush 3; HPush 5; HErase 5; HPush 9; HErase 2; HErase 3] in
  let h := foldl (@run_heap_op limit) (@PreparedHeap.new limit) ops in
  let l := foldl run_list_op [] ops in
  members h = l /\ PreparedHeap.top h = match l with x :: _ => x | [] => @kMaxSequenceNumber limit end /\
  @PreparedHeap.empty limit h = bool_decide (l = []).
Proof. intros limit ops. apply prepared_heap_refines. cbn. lia. Defined.
