(* ===== verification/WritePrepared.v ===== *)
(** * Commit state of WritePrepared transactions

    The bookkeeping of [WritePreparedTxnDB]
    (utilities/transactions/write_prepared_txn_db.h and .cc): which prepared
    transactions are committed, and in which snapshots. Every operation is a
    function on the members of the class; what it asks of the underlying
    database (sequence numbers, the list of live snapshots) is an argument.
    [IsInSnapshot] reads the members through a sequence of states, one for each
    of its loads, so that other operations may run in between. Exceptions are
    [None] or [Throw]. *)

From stdpp Require Import prelude gmap.
From Stdlib Require Import ZArith Lia Bool.
From S2P Require Import Prelude Status CommitCache PreparedHeap.

Definition kMinUnCommittedSeq : Z := 1.

(** [txn_db_options.wp_snapshot_cache_bits] and [wp_commit_cache_bits]. *)
Class WpOptions := { SNAPSHOT_CACHE_BITS : Z; COMMIT_CACHE_BITS : Z }.

Inductive SnapshotBackup := kUnbackedByDBSnapshot | kBackedByDBSnapshot.

(** What [db_impl_] answers: [GetLastPublishedSequence], [GetLatestSequenceNumber]
    and [snapshots().GetAll(nullptr, max)]. *)
Record DbView := mkDb {
  GetLastPublishedSequence : Z;
  GetLatestSequenceNumber : Z;
  GetAll : Z -> list Z;
}.

(** [std::vector] helpers on sorted vectors: insertion at [std::upper_bound], and
    [std::binary_search]. *)
Fixpoint insert_upper_bound (v : Z) (vec : list Z) : list Z :=
  match vec with
  | [] => [v]
  | x :: vec' => if x <=? v then x :: insert_upper_bound v vec' else v :: vec
  end.
Fixpoint binary_search (v : Z) (vec : list Z) : bool :=
  match vec with
  | [] => false
  | x :: vec' => if x <? v then binary_search v vec' else negb (v <? x)
  end.

Module WritePreparedTxnDB.
Section wp.
Context `{SeqLimit} `{WpOptions}.

Definition SNAPSHOT_CACHE_SIZE : Z := Z.shiftl 1 SNAPSHOT_CACHE_BITS.
Definition COMMIT_CACHE_SIZE : Z := Z.shiftl 1 COMMIT_CACHE_BITS.
Definition FORMAT : CommitEntry64bFormat.t := CommitEntry64bFormat.new COMMIT_CACHE_BITS.
Definition INC_STEP_FOR_MAX_EVICTED : Z := Z.max (COMMIT_CACHE_SIZE / 100) 1.

Record t := mk {
  snapshots_total_ : Z;
  snapshot_cache_ : list Z;
  snapshots_ : list Z;
  snapshots_all_ : list Z;
  snapshots_version_ : Z;
  prepared_txns_ : PreparedHeap.t;
  commit_cache_ : list Z;
  max_evicted_seq_ : Z;
  future_max_evicted_seq_ : Z;
  old_commit_map_ : gmap Z (list Z);
  delayed_prepared_ : gset Z;
  delayed_prepared_commits_ : gmap Z Z;
  delayed_prepared_empty_ : bool;
  old_commit_map_empty_ : bool;
}.

(** The constructor and [Init]. *)
Definition new : t :=
  mk 0 (replicate (Z.to_nat SNAPSHOT_CACHE_SIZE) 0) [] [] 0 PreparedHeap.new
    (replicate (Z.to_nat COMMIT_CACHE_SIZE) CommitEntry64b.empty) 0 0 ∅ ∅ ∅ true true.

Definition set_snapshots (total : Z) (cache snaps : list Z) (version : Z) (d : t) : t :=
  mk total cache snaps (snapshots_all_ d) version (prepared_txns_ d) (commit_cache_ d) (max_evicted_seq_ d)
    (future_max_evicted_seq_ d) (old_commit_map_ d) (delayed_prepared_ d) (delayed_prepared_commits_ d)
    (delayed_prepared_empty_ d) (old_commit_map_empty_ d).
Definition set_snapshots_all (all : list Z) (d : t) : t :=
  mk (snapshots_total_ d) (snapshot_cache_ d) (snapshots_ d) all (snapshots_version_ d) (prepared_txns_ d)
    (commit_cache_ d) (max_evicted_seq_ d) (future_max_evicted_seq_ d) (old_commit_map_ d) (delayed_prepared_ d)
    (delayed_prepared_commits_ d) (delayed_prepared_empty_ d) (old_commit_map_empty_ d).
Definition set_prepared (h : PreparedHeap.t) (d : t) : t :=
  mk (snapshots_total_ d) (snapshot_cache_ d) (snapshots_ d) (snapshots_all_ d) (snapshots_version_ d) h
    (commit_cache_ d) (max_evicted_seq_ d) (future_max_evicted_seq_ d) (old_commit_map_ d) (delayed_prepared_ d)
    (delayed_prepared_commits_ d) (delayed_prepared_empty_ d) (old_commit_map_empty_ d).
Definition set_commit_cache (cache : list Z) (d : t) : t :=
  mk (snapshots_total_ d) (snapshot_cache_ d) (snapshots_ d) (snapshots_all_ d) (snapshots_version_ d)
    (prepared_txns_ d) cache (max_evicted_seq_ d) (future_max_evicted_seq_ d) (old_commit_map_ d)
    (delayed_prepared_ d) (delayed_prepared_commits_ d) (delayed_prepared_empty_ d) (old_commit_map_empty_ d).
Definition set_max (max future : Z) (d : t) : t :=
  mk (snapshots_total_ d) (snapshot_cache_ d) (snapshots_ d) (snapshots_all_ d) (snapshots_version_ d)
    (prepared_txns_ d) (commit_cache_ d) max future (old_commit_map_ d) (delayed_prepared_ d)
    (delayed_prepared_commits_ d) (delayed_prepared_empty_ d) (old_commit_map_empty_ d).
Definition set_old_commit_map (m : gmap Z (list Z)) (empty : bool) (d : t) : t :=
  mk (snapshots_total_ d) (snapshot_cache_ d) (snapshots_ d) (snapshots_all_ d) (snapshots_version_ d)
    (prepared_txns_ d) (commit_cache_ d) (max_evicted_seq_ d) (future_max_evicted_seq_ d) m (delayed_prepared_ d)
    (delayed_prepared_commits_ d) (delayed_prepared_empty_ d) empty.
Definition set_delayed (dp : gset Z) (dpc : gmap Z Z) (empty : bool) (d : t) : t :=
  mk (snapshots_total_ d) (snapshot_cache_ d) (snapshots_ d) (snapshots_all_ d) (snapshots_version_ d)
    (prepared_txns_ d) (commit_cache_ d) (max_evicted_seq_ d) (future_max_evicted_seq_ d) (old_commit_map_ d)
    dp dpc empty (old_commit_map_empty_ d).

(** ** The commit cache *)

Definition cell (indexed_seq : Z) (d : t) : Z := nth (Z.to_nat indexed_seq) (commit_cache_ d) 0.

(** The word and, if the entry exists, the entry. *)
Definition GetCommitEntry (indexed_seq : Z) (d : t) : Z * option CommitEntry :=
  let entry_64b := cell indexed_seq d in
  (entry_64b, CommitEntry64b.Parse entry_64b indexed_seq FORMAT).

(** The new state and the evicted entry. *)
Definition AddCommitEntry (indexed_seq : Z) (new_entry : CommitEntry) (d : t) : option (t * option CommitEntry) :=
  match CommitEntry64b.new (prep_seq new_entry) (commit_seq new_entry) FORMAT with
  | None => None
  | Some new_entry_64b =>
      let evicted_entry_64b := cell indexed_seq d in
      Some (set_commit_cache (<[Z.to_nat indexed_seq := new_entry_64b]> (commit_cache_ d)) d,
            CommitEntry64b.Parse evicted_entry_64b indexed_seq FORMAT)
  end.

(** The compare-and-exchange: whether it succeeded, and the new state. *)
Definition ExchangeCommitEntry (indexed_seq expected_entry_64b : Z) (new_entry : CommitEntry) (d : t) :
    option (bool * t) :=
  match CommitEntry64b.new (prep_seq new_entry) (commit_seq new_entry) FORMAT with
  | None => None
  | Some new_entry_64b =>
      if cell indexed_seq d =? expected_entry_64b
      then Some (true, set_commit_cache (<[Z.to_nat indexed_seq := new_entry_64b]> (commit_cache_ d)) d)
      else Some (false, d)
  end.

(** ** Prepared transactions *)

(** [while (!prepared_txns_.empty() && prepared_txns_.top() <= new_max)]. *)
Fixpoint delay_prepared (fuel : nat) (new_max : Z) (d : t) : t :=
  match fuel with
  | O => d
  | S fuel =>
      if negb (PreparedHeap.empty (prepared_txns_ d)) && (PreparedHeap.top (prepared_txns_ d) <=? new_max)
      then
        let to_be_popped := PreparedHeap.top (prepared_txns_ d) in
        let d := set_delayed ({[to_be_popped]} ∪ delayed_prepared_ d) (delayed_prepared_commits_ d) false d in
        delay_prepared fuel new_max (set_prepared (PreparedHeap.pop (prepared_txns_ d)) d)
      else d
  end.

Definition CheckPreparedAgainstMax (new_max : Z) (d : t) : t :=
  let prepared_top := PreparedHeap.top (prepared_txns_ d) in
  let empty := prepared_top =? kMaxSequenceNumber in
  if negb empty && (prepared_top <=? new_max)
  then delay_prepared (S (length (PreparedHeap.heap_ (prepared_txns_ d)))) new_max d
  else d.

Definition AddPrepared (seq : Z) (d : t) : t :=
  let d := set_prepared (PreparedHeap.push seq (prepared_txns_ d)) d in
  let new_max := future_max_evicted_seq_ d in
  if seq <=? new_max then CheckPreparedAgainstMax new_max d else d.

(** One iteration of the loop of [RemovePrepared]. *)
Definition remove_one (seq : Z) (d : t) : t :=
  let d := set_prepared (PreparedHeap.erase seq (prepared_txns_ d)) d in
  let was_empty := bool_decide (delayed_prepared_ d = ∅) in
  if negb was_empty
  then
    let dp := delayed_prepared_ d ∖ {[seq]} in
    let dpc := match delayed_prepared_commits_ d !! seq with
               | Some _ => delete seq (delayed_prepared_commits_ d)
               | None => delayed_prepared_commits_ d
               end in
    let is_empty := bool_decide (dp = ∅) in
    set_delayed dp dpc (if eqb was_empty is_empty then delayed_prepared_empty_ d else is_empty) d
  else d.

Fixpoint RemovePrepared (prepare_seq : Z) (batch_cnt : nat) (d : t) : t :=
  match batch_cnt with
  | O => d
  | S n => RemovePrepared (u64 (prepare_seq + 1)) n (remove_one prepare_seq d)
  end.

(** ** Snapshots *)

Definition ReleaseSnapshotInternal (snap_seq : Z) (d : t) : t :=
  if snap_seq <=? max_evicted_seq_ d
  then
    match old_commit_map_ d !! snap_seq with
    | Some _ =>
        let m := delete snap_seq (old_commit_map_ d) in
        set_old_commit_map m (bool_decide (m = ∅)) d
    | None => d
    end
  else d.

(** [while (it != end && *it == value) it++]. *)
Fixpoint skip_equal (value : Z) (l : list Z) : list Z :=
  match l with
  | x :: l' => if x =? value then skip_equal value l' else l
  | [] => []
  end.

(** The two-finger walk; each turn advances in one of the lists. *)
Fixpoint cleanup (fuel : nat) (newi oldi : list Z) (d : t) : t :=
  match fuel with
  | O => d
  | S fuel =>
      match newi, oldi with
      | n :: _, o :: oldi' =>
          if n =? o then cleanup fuel (skip_equal n newi) (skip_equal n oldi) d
          else cleanup fuel newi oldi' (ReleaseSnapshotInternal o d)
      | [], o :: oldi' => cleanup fuel [] oldi' (ReleaseSnapshotInternal o d)
      | _, [] => d
      end
  end.

Definition CleanupReleasedSnapshots (new_snapshots old_snapshots : list Z) (d : t) : t :=
  cleanup (S (length new_snapshots + length old_snapshots)) new_snapshots old_snapshots d.

(** Storing [snapshots] from the start of the array. *)
Definition store_cache (snapshots cache : list Z) : list Z :=
  let n := Nat.min (length snapshots) (Z.to_nat SNAPSHOT_CACHE_SIZE) in
  take n snapshots ++ drop n cache.

Definition UpdateSnapshots (snapshots : list Z) (version : Z) (d : t) : t :=
  let d := set_snapshots (zlen snapshots) (store_cache snapshots (snapshot_cache_ d))
             (drop (Z.to_nat SNAPSHOT_CACHE_SIZE) snapshots) version d in
  let d := CleanupReleasedSnapshots snapshots (snapshots_all_ d) d in
  set_snapshots_all snapshots d.

Definition MaybeUpdateOldCommitMap (prep_seq commit_seq snapshot_seq : Z) (next_is_larger : bool) (d : t) : bool * t :=
  if commit_seq <=? snapshot_seq then (negb next_is_larger, d)
  else if prep_seq <=? snapshot_seq
  then
    let vec := default [] (old_commit_map_ d !! snapshot_seq) in
    (true, set_old_commit_map (<[snapshot_seq := insert_upper_bound prep_seq vec]> (old_commit_map_ d)) false d)
  else (next_is_larger, d).

(** A loop over snapshots that stops when [MaybeUpdateOldCommitMap] says so. *)
Fixpoint check_snapshots (evicted : CommitEntry) (next_is_larger : bool) (snaps : list Z) (d : t) : t :=
  match snaps with
  | [] => d
  | s :: snaps =>
      let '(continue, d) := MaybeUpdateOldCommitMap (prep_seq evicted) (commit_seq evicted) s next_is_larger d in
      if continue then check_snapshots evicted next_is_larger snaps d else d
  end.

Definition CheckAgainstSnapshots (evicted : CommitEntry) (d : t) : t :=
  let cnt := snapshots_total_ d in
  let ip1 := Z.to_nat (Z.min cnt SNAPSHOT_CACHE_SIZE) in
  let search_larger_list :=
    if Z.of_nat ip1 =? SNAPSHOT_CACHE_SIZE
    then nth (ip1 - 1) (snapshot_cache_ d) 0 <? commit_seq evicted else false in
  let d := check_snapshots evicted false (rev (take ip1 (snapshot_cache_ d))) d in
  if (SNAPSHOT_CACHE_SIZE <? cnt) && search_larger_list
  then
    let d := check_snapshots evicted true (take (Z.to_nat SNAPSHOT_CACHE_SIZE) (snapshot_cache_ d)) d in
    check_snapshots evicted true (snapshots_ d) d
  else d.

(** ** Advancing the largest evicted number *)

(** [while (expected < new_max && !a.compare_exchange_weak(expected, new_max))]: a
    failed exchange loads the current value; with no other writer the second
    attempt succeeds. *)
Definition raise_atomic (current expected new_max : Z) : Z :=
  if expected <? new_max
  then if current =? expected then new_max
       else if current <? new_max then new_max else current
  else current.

Definition AdvanceMaxEvictedSeq (db : DbView) (prev_max new_max : Z) (d : t) : t :=
  let d := set_max (max_evicted_seq_ d) (raise_atomic (future_max_evicted_seq_ d) prev_max new_max) d in
  let d := CheckPreparedAgainstMax new_max d in
  let new_snapshots_version := new_max in
  let d :=
    if new_snapshots_version >? snapshots_version_ d
    then
      let snapshots := GetAll db new_max in
      let d := UpdateSnapshots snapshots new_snapshots_version d in
      match snapshots with
      | [] => d
      | _ =>
          let m := foldl (fun m snap => match m !! snap with Some _ => m | None => <[snap := []]> m end)
                     (old_commit_map_ d) snapshots in
          set_old_commit_map m false d
      end
    else d in
  set_max (raise_atomic (max_evicted_seq_ d) prev_max new_max) (future_max_evicted_seq_ d) d.

(** ** Committing *)

(** What happens to the entry that is about to be overwritten. *)
Definition evict (db : DbView) (evicted : CommitEntry) (d : t) : t :=
  let prev_max := max_evicted_seq_ d in
  let d :=
    if prev_max <? commit_seq evicted
    then
      let last := GetLastPublishedSequence db in
      let max_evicted_seq :=
        if commit_seq evicted <? last
        then Z.min (u64 (commit_seq evicted + INC_STEP_FOR_MAX_EVICTED)) (last - 1)
        else commit_seq evicted in
      AdvanceMaxEvictedSeq db prev_max max_evicted_seq d
    else d in
  let d :=
    if negb (delayed_prepared_empty_ d)
    then if bool_decide (prep_seq evicted ∈ delayed_prepared_ d)
         then set_delayed (delayed_prepared_ d)
                (<[prep_seq evicted := commit_seq evicted]> (delayed_prepared_commits_ d)) (delayed_prepared_empty_ d) d
         else d
    else d in
  CheckAgainstSnapshots evicted d.

(** [retries] is [101 - loop_cnt]. *)
Fixpoint AddCommitted_loop (retries : nat) (db : DbView) (prepare_seq commit_seq : Z) (d : t) : option t :=
  let indexed_seq := prepare_seq mod COMMIT_CACHE_SIZE in
  let '(evicted_64b, evicted) := GetCommitEntry indexed_seq d in
  let d := match evicted with Some evicted => evict db evicted d | None => d end in
  match ExchangeCommitEntry indexed_seq evicted_64b (mkCommitEntry prepare_seq commit_seq) d with
  | None => None
  | Some (true, d) => Some d
  | Some (false, d) =>
      match retries with
      | O => None
      | S retries => AddCommitted_loop retries db prepare_seq commit_seq d
      end
  end.
Definition AddCommitted : DbView -> Z -> Z -> t -> option t := AddCommitted_loop 101.

(** ** Reading *)

Definition set_min (s : gset Z) : Z := foldr Z.min kMaxSequenceNumber (elements s).

Definition SmallestUnCommittedSeq (db : DbView) (d : t) : Z :=
  let next_prepare := u64 (GetLatestSequenceNumber db + 1) in
  let min_prepare := PreparedHeap.top (prepared_txns_ d) in
  if negb (delayed_prepared_empty_ d) && negb (bool_decide (delayed_prepared_ d = ∅))
  then set_min (delayed_prepared_ d)
  else if min_prepare =? kMaxSequenceNumber then next_prepare
  else Z.min min_prepare next_prepare.

(** The answer of [IsInSnapshot]: the value and [*snap_released]. *)
Inductive answer := Throw | Ret (visible snap_released : bool).

(** After the loop: [i] is the time of the next load. *)
Definition in_snapshot_tail (st : nat -> t) (i : nat) (prep_seq snapshot_seq max_evicted_seq_ub : Z) : answer :=
  if max_evicted_seq_ub <? snapshot_seq then Ret true false
  else if old_commit_map_empty_ (st i) then Ret true true
  else
    match old_commit_map_ (st (S i)) !! snapshot_seq with
    | Some vec => if negb (binary_search prep_seq vec) then Ret true false else Ret false false
    | None => Ret true true
    end.

(** A query of the commit cache: the answer if the entry is there. *)
Definition on_miss (prep_seq snapshot_seq : Z) (cached : option CommitEntry) (after_miss : unit -> answer) : answer :=
  match cached with
  | Some e => if prep_seq =? CommitCache.prep_seq e
              then Ret (CommitCache.commit_seq e <=? snapshot_seq) false else after_miss tt
  | None => after_miss tt
  end.

(** The [do ... while] loop; every load is from the next state of [st]. *)
Fixpoint in_snapshot_loop (repeats_left : nat) (st : nat -> t) (i : nat) (prep_seq snapshot_seq : Z) : answer :=
  let indexed_seq := prep_seq mod COMMIT_CACHE_SIZE in
  match repeats_left with
  | O => Throw
  | S repeats_left =>
      let max_evicted_seq_lb := max_evicted_seq_ (st i) in
      let was_empty := delayed_prepared_empty_ (st (1 + i)%nat) in
      let cached := snd (GetCommitEntry indexed_seq (st (2 + i)%nat)) in
      on_miss prep_seq snapshot_seq cached (fun _ =>
        let max_evicted_seq_ub := max_evicted_seq_ (st (3 + i)%nat) in
        if negb (max_evicted_seq_lb =? max_evicted_seq_ub)
        then in_snapshot_loop repeats_left st (4 + i) prep_seq snapshot_seq
        else if max_evicted_seq_ub <? prep_seq then Ret false false
        else if negb was_empty
        then
          let locked := st (4 + i)%nat in
          if bool_decide (prep_seq ∈ delayed_prepared_ locked)
          then match delayed_prepared_commits_ locked !! prep_seq with
               | None => Ret false false
               | Some commit => Ret (commit <=? snapshot_seq) false
               end
          else
            on_miss prep_seq snapshot_seq (snd (GetCommitEntry indexed_seq (st (5 + i)%nat))) (fun _ =>
              let max_evicted_seq_ub := max_evicted_seq_ (st (6 + i)%nat) in
              if negb (max_evicted_seq_lb =? max_evicted_seq_ub)
              then in_snapshot_loop repeats_left st (7 + i) prep_seq snapshot_seq
              else in_snapshot_tail st (7 + i) prep_seq snapshot_seq max_evicted_seq_ub)
        else in_snapshot_tail st (4 + i) prep_seq snapshot_seq max_evicted_seq_ub)
  end.

Definition IsInSnapshot (st : nat -> t) (prep_seq snapshot_seq min_uncommitted : Z) : answer :=
  if prep_seq =? 0 then Ret true false
  else if snapshot_seq <? prep_seq then Ret false false
  else if prep_seq <? min_uncommitted then Ret true false
  else in_snapshot_loop 99 st 0 prep_seq snapshot_seq.

Definition ValidateSnapshot (snap_seq : Z) (backed_by_snapshot : SnapshotBackup) (d : t) : bool :=
  match backed_by_snapshot with
  | kBackedByDBSnapshot => true
  | kUnbackedByDBSnapshot => negb ((snap_seq <=? max_evicted_seq_ d) && negb (snap_seq =? 0))
  end.

(** [None] is a null snapshot; otherwise its [number_] and [min_uncommitted_]. *)
Definition AssignMinMaxSeqs (db : DbView) (snapshot : option (Z * Z)) (d : t) : SnapshotBackup * Z * Z :=
  match snapshot with
  | Some (number, min_uncommitted) => (kBackedByDBSnapshot, min_uncommitted, number)
  | None => (kUnbackedByDBSnapshot, SmallestUnCommittedSeq db d, 0)
  end.

End wp.
End WritePreparedTxnDB.
