(* ===== verification/WritePreparedSpec.v ===== *)
(** * WritePrepared bookkeeping: effect of each operation

    For every operation of [WritePreparedTxnDB], which members it changes and
    how: the lemmas the invariant of WritePreparedProofs.v is built from. *)

From stdpp Require Import prelude gmap sorting.
From Stdlib Require Import ZArith Lia Bool Sorted.
From S2P Require Import Prelude Status CommitCache PreparedHeap WritePrepared.
Import WritePreparedTxnDB.

(** ** Sorted vectors *)

Lemma elem_of_insert_upper_bound x v l : x ∈ insert_upper_bound v l <-> x = v \/ x ∈ l.
Proof.
  induction l as [|y l IH]; simpl; [rewrite list_elem_of_singleton, elem_of_nil; tauto|].
  destruct (y <=? v); rewrite !elem_of_cons, ?IH; tauto.
Qed.

Lemma insert_upper_bound_sorted v l : StronglySorted Z.le l -> StronglySorted Z.le (insert_upper_bound v l).
Proof.
  induction 1 as [|y l Hs IH Hy]; simpl; [by repeat constructor|]. destruct (Z.leb_spec y v).
  - constructor; [done|]. apply Forall_forall. intros x [->|Hx]%elem_of_insert_upper_bound; [done|].
    rewrite Forall_forall in Hy. auto.
  - constructor; [by constructor|]. constructor; [lia|]. eapply Forall_impl; [exact Hy|]. simpl. lia.
Qed.

(** On a sorted vector [std::binary_search] is membership. *)
Lemma binary_search_spec v l : StronglySorted Z.le l -> binary_search v l = bool_decide (v ∈ l).
Proof.
  induction 1 as [|y l Hs IH Hy]; cbn [binary_search]; [by rewrite bool_decide_false by apply not_elem_of_nil|].
  destruct (Z.ltb_spec y v) as [Hlt|Hge].
  - rewrite IH. apply bool_decide_ext. rewrite elem_of_cons. split; [tauto|]. intros [->|]; [lia|done].
  - destruct (Z.ltb_spec v y) as [Hlt|Hge']; cbn [negb]; symmetry.
    + apply bool_decide_eq_false. rewrite elem_of_cons. intros [->|Hin]; [lia|]. rewrite Forall_forall in Hy.
      specialize (Hy v Hin). lia.
    + apply bool_decide_eq_true. apply elem_of_cons. left. lia.
Qed.

Section effects.
Context `{SeqLimit} `{WpOptions}.
Implicit Types d : WritePreparedTxnDB.t.

(** ** Moving prepared numbers to [delayed_prepared_] *)

(** The numbers of the queue and of its heap of erased ones. *)
Definition heap_numbers (h : PreparedHeap.t) : list Z := PreparedHeap.heap_ h ++ PreparedHeap.erased_heap_ h.

Definition delay_coherent d : Prop := delayed_prepared_empty_ d = bool_decide (delayed_prepared_ d = ∅).

Record delayed_effect (m : Z) d d' : Prop := {
  de_frame : exists h dp e, d' = set_prepared h (set_delayed dp (delayed_prepared_commits_ d) e d);
  de_heap : heap_ok (prepared_txns_ d');
  de_members x : x ∈ members (prepared_txns_ d') <-> x ∈ members (prepared_txns_ d) /\ m < x;
  de_delayed x : x ∈ delayed_prepared_ d' <-> x ∈ delayed_prepared_ d \/ x ∈ members (prepared_txns_ d) /\ x <= m;
  de_empty : delay_coherent d -> delay_coherent d';
  de_numbers x : x ∈ heap_numbers (prepared_txns_ d') -> x ∈ heap_numbers (prepared_txns_ d);
}.

Lemma pop_numbers h x : x ∈ heap_numbers (PreparedHeap.pop h) -> x ∈ heap_numbers h.
Proof.
  unfold heap_numbers, PreparedHeap.pop.
  destruct (drain_subset (tl (PreparedHeap.heap_ h)) (PreparedHeap.erased_heap_ h)) as [S1 S2].
  destruct (PreparedHeap.drain _ _) as [l e]. simpl in *. rewrite !elem_of_app. intros [Hx|Hx].
  - left. apply S1 in Hx. destruct (PreparedHeap.heap_ h); [done|]. by right.
  - right. destruct l; [by apply elem_of_nil in Hx|]. auto.
Qed.

Lemma pop_length h : PreparedHeap.heap_ h <> [] ->
  (length (PreparedHeap.heap_ (PreparedHeap.pop h)) < length (PreparedHeap.heap_ h))%nat.
Proof.
  unfold PreparedHeap.pop. destruct (PreparedHeap.heap_ h) as [|x l]; [done|]. intros _. simpl.
  assert (HD : forall e l, (length (PreparedHeap.drain l e).1 <= length l)%nat).
  { clear. induction e as [|y e IH]; intros [|x l]; simpl; try lia. destruct (x >=? y); [|simpl; lia].
    destruct (x =? y); [pose proof (IH l)|pose proof (IH (x :: l))]; simpl in *; lia. }
  specialize (HD (PreparedHeap.erased_heap_ h) l). destruct (PreparedHeap.drain _ _). simpl in *. lia.
Qed.

Lemma delayed_effect_refl m d : heap_ok (prepared_txns_ d) -> (forall x, x ∈ members (prepared_txns_ d) -> m < x) ->
  delayed_effect m d d.
Proof.
  intros HH Hm. split; [|done| | |done|done].
  - exists (prepared_txns_ d), (delayed_prepared_ d), (delayed_prepared_empty_ d). by destruct d.
  - intros x. split; [auto|tauto].
  - intros x. split; [tauto|]. intros [|[Hx Hle]]; [done|]. specialize (Hm x Hx). lia.
Qed.

Lemma members_sorted h : heap_ok h -> StronglySorted Z.lt (members h).
Proof. intros HH. apply StronglySorted_filter, (heap_sorted h HH). Qed.

Lemma delay_prepared_effect fuel m d : heap_ok (prepared_txns_ d) ->
  (length (PreparedHeap.heap_ (prepared_txns_ d)) < fuel)%nat -> delayed_effect m d (delay_prepared fuel m d).
Proof.
  revert d. induction fuel as [|fuel IH]; intros d HH Hf; [lia|]. cbn [delay_prepared].
  set (h := prepared_txns_ d) in *. rewrite (empty_ok h HH). pose proof (top_ok h HH) as Et.
  pose proof (members_sorted h HH) as Hs. destruct (members h) as [|x l] eqn:E.
  { rewrite bool_decide_true by done. apply delayed_effect_refl; [done|]. intros x Hx. change (x ∈ members h) in Hx. rewrite E in Hx. by apply elem_of_nil in Hx. }
  rewrite bool_decide_false by done. cbn [negb andb]. rewrite Et. apply StronglySorted_inv in Hs as [_ Hx].
  rewrite Forall_forall in Hx. destruct (Z.leb_spec x m) as [Hle|Hgt]; cbn [andb].
  2: { apply delayed_effect_refl; [done|]. intros y Hy. change (y ∈ members h) in Hy. rewrite E in Hy.
       apply elem_of_cons in Hy as [->|Hy]; [done|]. specialize (Hx y Hy). lia. }
  destruct (pop_ok h HH) as [HP EP]. rewrite E in EP. cbn [tl] in EP.
  set (d1 := set_prepared _ _). assert (Hd1 : prepared_txns_ d1 = PreparedHeap.pop h) by done.
  assert (Hne : PreparedHeap.heap_ h <> []) by (intros E0; unfold members in E; by rewrite E0 in E).
  pose proof (pop_length h Hne). destruct (IH d1) as [F1 F2 F3 F4 F5 F6]; [by rewrite Hd1|rewrite Hd1; lia|].
  split.
  - destruct F1 as (h' & dp & e & ->). by exists h', dp, e.
  - done.
  - intros y. rewrite F3, Hd1, EP. change (prepared_txns_ d) with h. rewrite E, elem_of_cons. split; [tauto|]. intros [[->|] ?]; [lia|tauto].
  - intros y. rewrite F4, Hd1, EP. change (prepared_txns_ d) with h. rewrite E. simpl. rewrite elem_of_union, elem_of_singleton, elem_of_cons.
    split; [|tauto]. intros [[->|]|[]]; [right; split; [by left|done]|tauto|tauto].
  - intros Hc. apply F5. unfold delay_coherent, d1. simpl. symmetry. apply bool_decide_eq_false. set_solver.
  - intros y Hy%F6. rewrite Hd1 in Hy. by apply pop_numbers.
Qed.

Lemma CheckPrepared_effect m d : heap_ok (prepared_txns_ d) -> delayed_effect m d (CheckPreparedAgainstMax m d).
Proof.
  intros HH. unfold CheckPreparedAgainstMax. destruct (_ && _) eqn:E; [apply delay_prepared_effect; [done|lia]|].
  apply delayed_effect_refl; [done|]. intros x Hx. change (_ =? _) with (PreparedHeap.empty (prepared_txns_ d)) in E.
  rewrite (empty_ok _ HH), (top_ok _ HH) in E. pose proof (members_sorted _ HH) as Hs.
  destruct (members (prepared_txns_ d)) as [|y l]; [by apply elem_of_nil in Hx|].
  rewrite bool_decide_false in E by done. cbn [negb andb] in E. apply Z.leb_gt in E.
  apply StronglySorted_inv in Hs as [_ Hy]. rewrite Forall_forall in Hy.
  apply elem_of_cons in Hx as [->|Hx]; [done|]. specialize (Hy x Hx). lia.
Qed.

(** ** The old commit map *)

Implicit Types m : gmap Z (list Z).

(** Whether [p] is recorded for snapshot [s]. *)
Definition recorded m (s p : Z) : Prop := exists vec, m !! s = Some vec /\ p ∈ vec.

Definition ocm_ok d : Prop :=
  (old_commit_map_empty_ d = true -> old_commit_map_ d = ∅) /\
  forall s vec, old_commit_map_ d !! s = Some vec -> StronglySorted Z.le vec.

(** [d'] is [d] with a larger map, in which [p] is recorded for more of the
    snapshots it overlaps with. *)
Record recorded_effect (p c : Z) d d' : Prop := {
  re_frame : exists m e, d' = set_old_commit_map m e d;
  re_ok : ocm_ok d -> ocm_ok d';
  re_dom s : is_Some (old_commit_map_ d !! s) -> is_Some (old_commit_map_ d' !! s);
  re_keep s x : recorded (old_commit_map_ d) s x -> recorded (old_commit_map_ d') s x;
  re_new s x : recorded (old_commit_map_ d') s x ->
    recorded (old_commit_map_ d) s x \/ (x = p /\ p <= s < c);
}.

Lemma recorded_effect_refl p c d : recorded_effect p c d d.
Proof. split; try done; [|by left]. exists (old_commit_map_ d), (old_commit_map_empty_ d). by destruct d. Qed.

Lemma recorded_effect_trans p c d1 d2 d3 :
  recorded_effect p c d1 d2 -> recorded_effect p c d2 d3 -> recorded_effect p c d1 d3.
Proof.
  intros [(m1 & e1 & ->) O1 D1 K1 N1] [(m2 & e2 & ->) O2 D2 K2 N2]. split; [by exists m2, e2|auto..].
  intros s x Hx. destruct (N2 s x Hx) as [Hx'|]; [by apply N1|by right].
Qed.

Lemma recorded_insert m s s' v x : recorded (<[s' := insert_upper_bound v (default [] (m !! s'))]> m) s x <->
  recorded m s x \/ (s = s' /\ x = v).
Proof.
  unfold recorded. destruct (decide (s = s')) as [->|Hne].
  - rewrite lookup_insert_eq. split.
    + intros (vec & [= <-] & [->|Hin]%elem_of_insert_upper_bound); [by right|].
      left. destruct (m !! s') as [vec|]; [by exists vec|by apply elem_of_nil in Hin].
    + intros [(vec & E & Hin)|[_ ->]]; eexists; (split; [done|]); apply elem_of_insert_upper_bound;
        [right; by rewrite E|by left].
  - rewrite lookup_insert_ne by done. split; [by left|]. intros [|[]]; done.
Qed.

Lemma MaybeUpdate_effect p c s nl d :
  let '(continue, d') := MaybeUpdateOldCommitMap p c s nl d in
  recorded_effect p c d d' /\ (p <= s < c -> recorded (old_commit_map_ d') s p /\ continue = true) /\
  (continue = false -> if nl then c <= s else s < p).
Proof.
  unfold MaybeUpdateOldCommitMap. destruct (Z.leb_spec c s) as [Hcs|Hcs].
  { split_and!; [apply recorded_effect_refl|lia|by destruct nl]. }
  destruct (Z.leb_spec p s) as [Hps|Hps].
  2: { split_and!; [apply recorded_effect_refl|lia|by destruct nl]. }
  split_and!; [split|..].
  - by eexists _, _.
  - intros [_ Hs]. split; [done|]. simpl. intros s' vec. destruct (decide (s' = s)) as [->|].
    + rewrite lookup_insert_eq. intros [= <-]. apply insert_upper_bound_sorted.
      destruct (old_commit_map_ d !! s) eqn:E; [by eapply Hs|constructor].
    + rewrite lookup_insert_ne by done. apply Hs.
  - intros s' Hs'. simpl. destruct (decide (s' = s)) as [->|]; [by rewrite lookup_insert_eq|by rewrite lookup_insert_ne].
  - intros s' x Hx. apply recorded_insert. by left.
  - intros s' x [Hx|[-> ->]]%recorded_insert; [by left|by right].
  - intros _. split; [|done]. apply recorded_insert. by right.
  - done.
Qed.

(** A loop over a list sorted towards the numbers where it stops. *)
Lemma check_snapshots_effect p c (nl : bool) snaps d :
  StronglySorted (if nl then Z.le else Z.ge) snaps ->
  let d' := check_snapshots (mkCommitEntry p c) nl snaps d in
  recorded_effect p c d d' /\ forall s, s ∈ snaps -> p <= s < c -> recorded (old_commit_map_ d') s p.
Proof.
  intros Hs. revert d. induction Hs as [|s snaps Hs IH Hle]; intros d; cbn [check_snapshots prep_seq commit_seq].
  { split; [apply recorded_effect_refl|]. intros s Hs. by apply elem_of_nil in Hs. }
  pose proof (MaybeUpdate_effect p c s nl d) as HM.
  destruct (MaybeUpdateOldCommitMap p c s nl d) as [continue d1]. destruct HM as (E1 & E2 & E3).
  rewrite Forall_forall in Hle. destruct continue.
  - destruct (IH d1) as [F1 F2]. split; [by eapply recorded_effect_trans|].
    intros s' [->|Hs']%elem_of_cons Hps; [|by apply F2]. apply (re_keep _ _ _ _ F1). by apply E2.
  - split; [done|]. intros s' [->|Hs']%elem_of_cons Hps; [by apply E2|]. exfalso.
    specialize (Hle s' Hs'). specialize (E3 eq_refl). destruct nl; lia.
Qed.

(** ** The list of snapshots *)

(** The array and the vector hold the list of all snapshots. *)
Record snaps_ok d : Prop := {
  snaps_sorted : StronglySorted Z.le (snapshots_all_ d);
  snaps_total : snapshots_total_ d = zlen (snapshots_all_ d);
  snaps_cache_size : zlen (snapshot_cache_ d) = SNAPSHOT_CACHE_SIZE;
  snaps_cache : take (Nat.min (length (snapshots_all_ d)) (Z.to_nat SNAPSHOT_CACHE_SIZE)) (snapshot_cache_ d) =
                take (Z.to_nat SNAPSHOT_CACHE_SIZE) (snapshots_all_ d);
  snaps_rest : snapshots_ d = drop (Z.to_nat SNAPSHOT_CACHE_SIZE) (snapshots_all_ d);
}.

Lemma elem_of_rev (x : Z) l : x ∈ rev l <-> x ∈ l.
Proof. by rewrite !list_elem_of_In, <- in_rev. Qed.

Lemma StronglySorted_rev l : StronglySorted Z.le l -> StronglySorted Z.ge (rev l).
Proof.
  induction 1 as [|x l Hs IH Hx]; simpl; [constructor|]. apply StronglySorted_app_2; [|done|by repeat constructor].
  intros y z Hy ->%list_elem_of_singleton. rewrite Forall_forall in Hx.
  rewrite elem_of_rev in Hy. specialize (Hx y Hy). lia.
Qed.

Lemma StronglySorted_lookup_le (l : list Z) i j x y :
  StronglySorted Z.le l -> (i <= j)%nat -> l !! i = Some x -> l !! j = Some y -> x <= y.
Proof.
  intros Hs. revert i j. induction Hs as [|z l Hs IH Hz]; intros i j Hij Hi Hj; [done|].
  destruct i as [|i], j as [|j]; try lia; simpl in *; [simplify_eq; lia| |by apply (IH i j); [lia|..]].
  simplify_eq. rewrite Forall_forall in Hz. by eapply Hz, list_elem_of_lookup_2.
Qed.

Lemma CheckAgainstSnapshots_effect p c d : snaps_ok d -> 0 < SNAPSHOT_CACHE_SIZE ->
  let d' := CheckAgainstSnapshots (mkCommitEntry p c) d in
  recorded_effect p c d d' /\ forall s, s ∈ snapshots_all_ d -> p <= s < c -> recorded (old_commit_map_ d') s p.
Proof.
  intros [S1 S2 S3 S4 S5] Hpos. unfold CheckAgainstSnapshots. rewrite S2. set (L := snapshots_all_ d) in *.
  set (k := Z.to_nat SNAPSHOT_CACHE_SIZE) in *.
  assert (Ei : Z.to_nat (Z.min (zlen L) SNAPSHOT_CACHE_SIZE) = Nat.min (length L) k) by (unfold zlen, k; lia).
  rewrite Ei, S4. cbn [commit_seq].
  assert (HL : L = take k L ++ drop k L) by (by rewrite take_drop).
  assert (Hst : StronglySorted Z.le (take k L) /\ StronglySorted Z.le (drop k L)).
  { rewrite HL in S1. split; [by eapply StronglySorted_app_1_l|by eapply StronglySorted_app_1_r]. }
  destruct Hst as [Hst Hsd].
  destruct (check_snapshots_effect p c false (rev (take k L)) d (StronglySorted_rev _ Hst)) as [E1 E2].
  set (d1 := check_snapshots _ false _ d) in *. pose proof E1 as [(m1 & e1 & Ed1) _ _ K1 _].
  assert (Hfirst : forall d', recorded_effect p c d1 d' -> forall s, s ∈ take k L -> p <= s < c -> recorded (old_commit_map_ d') s p).
  { intros d' E' s Hs Hp. apply (re_keep _ _ _ _ E'), E2; [by apply elem_of_rev|done]. }
  set (larger := if _ =? _ then _ else _). destruct ((SNAPSHOT_CACHE_SIZE <? zlen L) && larger) eqn:Eb.
  - apply andb_prop in Eb as [Eb _]. apply Z.ltb_lt in Eb.
    assert (Ec : take k (snapshot_cache_ d1) = take k L).
    { rewrite Ed1. simpl. rewrite <- S4. f_equal. unfold zlen, k in *. lia. }
    destruct (check_snapshots_effect p c true (take k (snapshot_cache_ d1)) d1) as [F1 F2].
    { by rewrite Ec. }
    set (d2 := check_snapshots _ true _ d1) in *. pose proof F1 as [(m2 & e2 & Ed2) _ _ _ _].
    assert (Es : snapshots_ d2 = drop k L) by (by rewrite Ed2, Ed1).
    destruct (check_snapshots_effect p c true (snapshots_ d2) d2) as [G1 G2]; [by rewrite Es|].
    split; [eauto using recorded_effect_trans|]. intros s Hs Hp. rewrite HL in Hs. apply elem_of_app in Hs as [Hs|Hs].
    + by apply Hfirst; [eapply recorded_effect_trans|..].
    + apply G2; [by rewrite Es|done].
  - split; [done|]. intros s Hs Hp. rewrite HL in Hs. apply elem_of_app in Hs as [Hs|Hs].
    { by apply Hfirst; [apply recorded_effect_refl|..]. }
    exfalso. apply list_elem_of_lookup in Hs as [i Hi]. rewrite lookup_drop in Hi.
    pose proof (lookup_lt_Some _ _ _ Hi) as Hlt.
    destruct (lookup_lt_is_Some_2 L (k - 1)) as [x Hx]; [lia|].
    assert (Hxs : x <= s) by (apply (StronglySorted_lookup_le L (k - 1) (k + i) x s S1); [lia|done|done]).
    assert (Hnth : nth (Nat.min (length L) k - 1) (snapshot_cache_ d) 0 = x).
    { rewrite nth_lookup. replace (Nat.min (length L) k) with k in * by lia.
      assert (E : take k (snapshot_cache_ d) !! (k - 1)%nat = take k L !! (k - 1)%nat) by (by rewrite S4).
      rewrite !lookup_take_lt in E by lia. by rewrite E, Hx. }
    unfold larger in Eb. rewrite Hnth in Eb. replace (Nat.min (length L) k) with k in Eb by lia.
    rewrite (proj2 (Z.ltb_lt SNAPSHOT_CACHE_SIZE (zlen L))) in Eb by (unfold zlen, k in *; lia).
    rewrite (proj2 (Z.eqb_eq (Z.of_nat k) SNAPSHOT_CACHE_SIZE)) in Eb by (unfold k; lia).
    apply Z.ltb_ge in Eb. lia.
Qed.

(** ** Released snapshots *)

(** [d'] is [d] with some snapshots of the map released, those in [keep] kept. *)
Record released_effect (keep : Z -> Prop) d d' : Prop := {
  rl_frame : exists m e, d' = set_old_commit_map m e d;
  rl_ok : ocm_ok d -> ocm_ok d';
  rl_keep s : keep s -> old_commit_map_ d' !! s = old_commit_map_ d !! s;
  rl_sub s vec : old_commit_map_ d' !! s = Some vec -> old_commit_map_ d !! s = Some vec;
}.

Lemma released_effect_refl keep d : released_effect keep d d.
Proof. split; try done. exists (old_commit_map_ d), (old_commit_map_empty_ d). by destruct d. Qed.
Lemma released_effect_trans keep d1 d2 d3 :
  released_effect keep d1 d2 -> released_effect keep d2 d3 -> released_effect keep d1 d3.
Proof.
  intros [(m1 & e1 & ->) O1 K1 N1] [(m2 & e2 & ->) O2 K2 N2]. split; [by exists m2, e2|auto..].
  intros s Hs. by rewrite K2, K1.
Qed.

Lemma Release_effect o d : released_effect (fun s => s <> o) d (ReleaseSnapshotInternal o d).
Proof.
  unfold ReleaseSnapshotInternal. destruct (_ <=? _); [|apply released_effect_refl].
  destruct (old_commit_map_ d !! o); [|apply released_effect_refl]. split.
  - eexists. eexists. done.
  - intros [_ Hs]. split; simpl; [by intros ?%bool_decide_eq_true|].
    intros s vec. rewrite lookup_delete_Some. intros [_ E]. by eapply Hs.
  - intros s Hs. simpl. by rewrite lookup_delete_ne.
  - intros s vec. simpl. rewrite lookup_delete_Some. tauto.
Qed.

Lemma released_effect_impl (P Q : Z -> Prop) d d' : (forall s, Q s -> P s) -> released_effect P d d' -> released_effect Q d d'.
Proof. intros HPQ [F1 F2 F3 F4]. split; auto. Qed.

Lemma skip_equal_spec v l : StronglySorted Z.le l -> (forall x, x ∈ l -> v <= x) ->
  (forall x, x ∈ skip_equal v l <-> x ∈ l /\ x <> v) /\ StronglySorted Z.le (skip_equal v l) /\
  (length (skip_equal v l) <= length l)%nat.
Proof.
  induction 1 as [|y l Hs IH Hy]; intros Hv; cbn [skip_equal].
  { split_and!; [|constructor|done]. intros x. rewrite elem_of_nil. tauto. }
  rewrite Forall_forall in Hy. destruct (Z.eqb_spec y v) as [->|Hne].
  - destruct IH as (I1 & I2 & I3); [intros x Hx; by apply Hv; right|]. split_and!; [|done|simpl; lia].
    intros x. rewrite I1, elem_of_cons. split; [tauto|]. intros [[->|] ?]; tauto.
  - split_and!; [|by constructor; [|apply Forall_forall]|done]. intros x. rewrite elem_of_cons. split; [|tauto].
    intros Hx. split; [done|]. assert (v < y) by (specialize (Hv y (list_elem_of_here _ _)); lia).
    destruct Hx as [->|Hx]; [lia|]. specialize (Hy x Hx). lia.
Qed.

(** The walk releases only snapshots that are in the old list and not in the new one. *)
Lemma cleanup_effect fuel newi oldi d : StronglySorted Z.le newi -> StronglySorted Z.le oldi ->
  (forall y, y ∈ newi -> y ∈ oldi \/ forall x, x ∈ oldi -> x < y) ->
  (length newi + length oldi < fuel)%nat ->
  released_effect (fun s => s ∈ newi \/ s ∉ oldi) d (cleanup fuel newi oldi d).
Proof.
  revert newi oldi d. induction fuel as [|fuel IH]; intros newi oldi d Hn Ho Hno Hf; [lia|]. cbn [cleanup].
  destruct newi as [|n newi].
  - destruct oldi as [|o oldi]; [apply released_effect_refl|].
    apply released_effect_trans with (ReleaseSnapshotInternal o d);
        [apply (released_effect_impl (fun s => s <> o)); [set_solver|apply Release_effect]|].
    eapply released_effect_impl; [|apply IH]; [set_solver|constructor|by apply StronglySorted_inv in Ho as []|set_solver|simpl in *; lia].
  - destruct oldi as [|o oldi]; [apply released_effect_refl|].
    pose proof (StronglySorted_inv Hn) as [Hn' Hnx]. pose proof (StronglySorted_inv Ho) as [Ho' Hox].
    rewrite Forall_forall in Hnx, Hox. destruct (Z.eqb_spec n o) as [->|Hne].
    + destruct (skip_equal_spec o (o :: newi) Hn) as (I1 & I2 & I3); [intros x [->|Hx]%elem_of_cons; [done|by apply Hnx]|].
      destruct (skip_equal_spec o (o :: oldi) Ho) as (J1 & J2 & J3); [intros x [->|Hx]%elem_of_cons; [done|by apply Hox]|].
      eapply released_effect_impl; [|apply IH]; [|done|done| |].
      * intros s. cbn beta. rewrite I1, J1. destruct (decide (s = o)); tauto.
      * intros y. rewrite I1. intros [Hy Hyo]. destruct (Hno y Hy) as [Hy'|Hy'].
        -- left. by rewrite J1.
        -- right. intros x. rewrite J1. intros [Hx _]. by apply Hy'.
      * assert (length (skip_equal o (o :: newi)) <= length newi)%nat; [|simpl in *; lia].
        cbn [skip_equal]. rewrite Z.eqb_refl. apply skip_equal_spec; [done|]. intros x Hx. by apply Hnx.
    + assert (Hlt : o < n).
      { destruct (Hno n (list_elem_of_here _ _)) as [Hin|Hall]; [|apply Hall, list_elem_of_here].
        apply elem_of_cons in Hin as [->|Hin]; [done|]. specialize (Hox n Hin). lia. }
      assert (Hon : o ∉ n :: newi) by (intros [->|Hin]%elem_of_cons; [lia|specialize (Hnx o Hin); lia]).
      apply released_effect_trans with (ReleaseSnapshotInternal o d);
        [apply (released_effect_impl (fun s => s <> o)); [set_solver|apply Release_effect]|].
      eapply released_effect_impl; [|apply IH]; [set_solver|done|done| |simpl in *; lia].
      intros y Hy. destruct (Hno y Hy) as [[->|Hin]%elem_of_cons|Hall]; [done|by left|].
      right. intros x Hx. apply Hall. by right.
Qed.

(** New snapshots come after the ones of the list. *)
Definition snaps_after (L L' : list Z) : Prop := forall y, y ∈ L' -> y ∈ L \/ forall x, x ∈ L -> x < y.

Lemma store_cache_spec L cache : zlen cache = SNAPSHOT_CACHE_SIZE ->
  zlen (store_cache L cache) = SNAPSHOT_CACHE_SIZE /\
  take (Nat.min (length L) (Z.to_nat SNAPSHOT_CACHE_SIZE)) (store_cache L cache) = take (Z.to_nat SNAPSHOT_CACHE_SIZE) L.
Proof.
  intros Hz. unfold store_cache. set (k := Z.to_nat SNAPSHOT_CACHE_SIZE). set (n := Nat.min (length L) k).
  assert (Hn : length (take n L) = n) by (rewrite length_take; unfold n; lia). split.
  - unfold zlen in *. rewrite length_app, length_drop, Hn. unfold n, k in *. lia.
  - rewrite take_app_le, take_take, Nat.min_id by lia. unfold n.
    destruct (Nat.le_gt_cases (length L) k); [|by rewrite Nat.min_r by lia].
    by rewrite Nat.min_l, !take_ge by lia.
Qed.

(** The members that [UpdateSnapshots] leaves alone. *)
Record same_rest d d' : Prop := {
  sr_prepared : prepared_txns_ d' = prepared_txns_ d;
  sr_cache : commit_cache_ d' = commit_cache_ d;
  sr_max : max_evicted_seq_ d' = max_evicted_seq_ d;
  sr_future : future_max_evicted_seq_ d' = future_max_evicted_seq_ d;
  sr_delayed : delayed_prepared_ d' = delayed_prepared_ d;
  sr_commits : delayed_prepared_commits_ d' = delayed_prepared_commits_ d;
  sr_empty : delayed_prepared_empty_ d' = delayed_prepared_empty_ d;
}.

Lemma UpdateSnapshots_effect L version d : snaps_ok d -> StronglySorted Z.le L -> snaps_after (snapshots_all_ d) L ->
  let d' := UpdateSnapshots L version d in
  same_rest d d' /\ snaps_ok d' /\ snapshots_all_ d' = L /\ snapshots_version_ d' = version /\
  (ocm_ok d -> ocm_ok d') /\
  (forall s, s ∈ L \/ s ∉ snapshots_all_ d -> old_commit_map_ d' !! s = old_commit_map_ d !! s) /\
  (forall s vec, old_commit_map_ d' !! s = Some vec -> old_commit_map_ d !! s = Some vec).
Proof.
  intros [S1 S2 S3 S4 S5] HL Hafter. unfold UpdateSnapshots. set (d1 := set_snapshots _ _ _ _ d).
  destruct (cleanup_effect (S (length L + length (snapshots_all_ d1))) L (snapshots_all_ d1) d1 HL S1 Hafter ltac:(lia))
    as [(m & e & E) F2 F3 F4].
  unfold CleanupReleasedSnapshots. rewrite E in *. destruct (store_cache_spec L (snapshot_cache_ d) S3) as [C1 C2].
  split_and!; [by split|by split|done|done|exact F2|exact F3|exact F4].
Qed.

(** Adding missing snapshots to the map, without entries. *)
Lemma add_snapshots_spec L m :
  let m' := foldl (fun m snap => match m !! snap with Some _ => m | None => <[snap := []]> m end) m L in
  (forall s, s ∈ L -> is_Some (m' !! s)) /\ (forall s vec, m !! s = Some vec -> m' !! s = Some vec) /\
  (forall s vec, m' !! s = Some vec -> m !! s = Some vec \/ vec = []).
Proof.
  revert m. induction L as [|y L IH]; intros m; cbn [foldl].
  { split_and!; [intros s Hs; by apply elem_of_nil in Hs|done|by left]. }
  set (m1 := match m !! y with Some _ => m | None => _ end). destruct (IH m1) as (I1 & I2 & I3).
  assert (H1' : is_Some (m1 !! y)) by (unfold m1; destruct (m !! y) eqn:E; [by rewrite E|by rewrite lookup_insert_eq]).
  assert (H2' : forall s vec, m !! s = Some vec -> m1 !! s = Some vec).
  { intros s vec Hs. unfold m1. destruct (m !! y) eqn:E; [done|]. rewrite lookup_insert_ne; [done|]. intros ->. congruence. }
  assert (H3' : forall s vec, m1 !! s = Some vec -> m !! s = Some vec \/ vec = []).
  { intros s vec. unfold m1. destruct (m !! y) eqn:E; [by left|]. destruct (decide (s = y)) as [->|].
    - rewrite lookup_insert_eq. intros [= <-]. by right.
    - rewrite lookup_insert_ne by done. by left. }
  split_and!.
  - intros s [->|Hs]%elem_of_cons; [|by apply I1]. destruct H1' as [vec Hvec]. exists vec. by apply I2.
  - auto.
  - intros s vec [Hs|]%I3; [by apply H3'|by right].
Qed.

(** ** Evictions *)

(** What holds of the members between operations, whatever was committed. *)
Record db_ok d : Prop := {
  ok_heap : heap_ok (prepared_txns_ d);
  ok_delayed : delay_coherent d;
  ok_snaps : snaps_ok d;
  ok_ocm : ocm_ok d;
  ok_future : future_max_evicted_seq_ d = max_evicted_seq_ d;
  ok_version : snapshots_version_ d = max_evicted_seq_ d;
  ok_members x : x ∈ members (prepared_txns_ d) -> max_evicted_seq_ d < x;
  ok_keys s : s ∈ snapshots_all_ d -> is_Some (old_commit_map_ d !! s);
  ok_delayed_max x : x ∈ delayed_prepared_ d -> x <= max_evicted_seq_ d;
}.

(** [d'] is [d] after [max_evicted_seq_] went up to [new_max], the live snapshots
    up to it being [L]. *)
Record advanced (new_max : Z) (L : list Z) d d' : Prop := {
  ad_ok : db_ok d';
  ad_max : max_evicted_seq_ d' = new_max;
  ad_cache : commit_cache_ d' = commit_cache_ d;
  ad_commits : delayed_prepared_commits_ d' = delayed_prepared_commits_ d;
  ad_members x : x ∈ members (prepared_txns_ d') <-> x ∈ members (prepared_txns_ d) /\ new_max < x;
  ad_delayed x : x ∈ delayed_prepared_ d' <-> x ∈ delayed_prepared_ d \/ x ∈ members (prepared_txns_ d) /\ x <= new_max;
  ad_numbers x : x ∈ heap_numbers (prepared_txns_ d') -> x ∈ heap_numbers (prepared_txns_ d);
  ad_snaps : snapshots_all_ d' = L;
  ad_keep s x : s ∈ L \/ s ∉ snapshots_all_ d -> recorded (old_commit_map_ d) s x -> recorded (old_commit_map_ d') s x;
  ad_sub s x : recorded (old_commit_map_ d') s x -> recorded (old_commit_map_ d) s x;
}.

Lemma AdvanceMax_effect db new_max d : db_ok d -> max_evicted_seq_ d < new_max ->
  StronglySorted Z.le (GetAll db new_max) -> snaps_after (snapshots_all_ d) (GetAll db new_max) ->
  advanced new_max (GetAll db new_max) d (AdvanceMaxEvictedSeq db (max_evicted_seq_ d) new_max d).
Proof.
  intros [O1 O2 O3 O4 O5 O6 O7 O8 O9] Hlt HL Hafter. unfold AdvanceMaxEvictedSeq, raise_atomic.
  rewrite O5, (proj2 (Z.ltb_lt _ _)), Z.eqb_refl by done.
  set (d1 := set_max _ _ d). destruct (CheckPrepared_effect new_max d1 O1) as [(h & dp & e & E) C2 C3 C4 C5 C6].
  rewrite E in *. set (d2 := set_prepared _ _) in *. rewrite Z.gtb_ltb.
  change (snapshots_version_ d2) with (snapshots_version_ d). rewrite O6, (proj2 (Z.ltb_lt _ _)) by done.
  set (L := GetAll db new_max) in *.
  assert (S2 : snaps_ok d2) by (by destruct O3; split).
  destruct (UpdateSnapshots_effect L new_max d2 S2 HL Hafter) as ([R1 R2 R3 R4 R5 R6 R7] & U2 & U3 & U4 & U5 & U6 & U7).
  set (d3 := UpdateSnapshots L new_max d2) in *. clearbody d3. specialize (U5 O4).
  set (d4 := match L with [] => d3 | _ => _ end).
  assert (H4 : exists m e, d4 = set_old_commit_map m e d3 /\ ocm_ok d4 /\ (forall s, s ∈ L -> is_Some (m !! s)) /\
    (forall s vec, old_commit_map_ d3 !! s = Some vec -> m !! s = Some vec) /\
    (forall s vec, m !! s = Some vec -> old_commit_map_ d3 !! s = Some vec \/ vec = [])).
  { unfold d4. destruct L as [|y L'] eqn:EL.
    - exists (old_commit_map_ d3), (old_commit_map_empty_ d3). split_and!; [by destruct d3|done| |done|by left].
      intros s Hs. by apply elem_of_nil in Hs.
    - destruct (add_snapshots_spec (y :: L') (old_commit_map_ d3)) as (A1 & A2 & A3).
      eexists _, false. split_and!; [done| |done|done|done]. split; [done|]. simpl. intros s vec Hs.
      destruct (A3 s vec Hs) as [Hs'| ->]; [by eapply U5|constructor]. }
  destruct H4 as (m & e4 & E4 & H4a & H4b & H4c & H4d). rewrite E4 in *. clear d4 E4.
  simpl.
  rewrite R3. change (max_evicted_seq_ d2) with (max_evicted_seq_ d).
  rewrite (proj2 (Z.ltb_lt _ _)), Z.eqb_refl by done.
  split; simpl.
  - split; simpl; rewrite ?R1, ?R4, ?U4; try done.
    + unfold delay_coherent. simpl. rewrite R5, R7. by apply C5.
    + by destruct U2.
    + intros x Hx. by apply C3 in Hx as [_ ?].
    + by rewrite U3.
    + intros x. rewrite R5. intros [Hx|[_ Hx]]%C4; [|done]. specialize (O9 x Hx). lia.
  - done.
  - by rewrite R2.
  - by rewrite R6.
  - intros x. rewrite R1. apply C3.
  - intros x. rewrite R5. apply C4.
  - intros x. rewrite R1. apply C6.
  - done.
  - intros s x Hs (vec & Hvec & Hx). exists vec. split; [|done]. apply H4c. by rewrite U6.
  - intros s x (vec & Hvec & Hx). destruct (H4d s vec Hvec) as [Hvec'| ->]; [|by apply elem_of_nil in Hx].
    exists vec. split; [|done]. by apply U7.
Qed.

(** [d'] is [d] after the entry (p, c) was found in the way. *)
Record evicted_effect (db : DbView) (p c : Z) d d' : Prop := {
  ev_ok : db_ok d';
  ev_max : max_evicted_seq_ d <= max_evicted_seq_ d' /\ c <= max_evicted_seq_ d';
  ev_snaps : max_evicted_seq_ d' = max_evicted_seq_ d /\ snapshots_all_ d' = snapshots_all_ d \/
             max_evicted_seq_ d < max_evicted_seq_ d' /\ snapshots_all_ d' = GetAll db (max_evicted_seq_ d');
  ev_cache : commit_cache_ d' = commit_cache_ d;
  ev_members x : x ∈ members (prepared_txns_ d') <-> x ∈ members (prepared_txns_ d) /\ max_evicted_seq_ d' < x;
  ev_delayed x : x ∈ delayed_prepared_ d' <->
    x ∈ delayed_prepared_ d \/ x ∈ members (prepared_txns_ d) /\ x <= max_evicted_seq_ d';
  ev_numbers x : x ∈ heap_numbers (prepared_txns_ d') -> x ∈ heap_numbers (prepared_txns_ d);
  ev_commits : delayed_prepared_commits_ d' =
    if bool_decide (p ∈ delayed_prepared_ d') then <[p := c]> (delayed_prepared_commits_ d)
    else delayed_prepared_commits_ d;
  ev_keep s x : s ∈ snapshots_all_ d' \/ s ∉ snapshots_all_ d ->
    recorded (old_commit_map_ d) s x -> recorded (old_commit_map_ d') s x;
  ev_sub s x : recorded (old_commit_map_ d') s x -> recorded (old_commit_map_ d) s x \/ (x = p /\ p <= s < c);
  ev_new s : s ∈ snapshots_all_ d' -> p <= s < c -> recorded (old_commit_map_ d') s p;
}.

(** The answers of the database: published numbers and sorted lists of snapshots. *)
Definition db_answers (db : DbView) d : Prop :=
  GetLastPublishedSequence db < 2 ^ 56 /\
  forall n, max_evicted_seq_ d < n -> StronglySorted Z.le (GetAll db n) /\ snaps_after (snapshots_all_ d) (GetAll db n).

Lemma advance_step db c d : db_ok d -> db_answers db d -> 0 <= c < 2 ^ 56 -> 0 < INC_STEP_FOR_MAX_EVICTED <= 2 ^ 56 ->
  let d' := if max_evicted_seq_ d <? c
            then AdvanceMaxEvictedSeq db (max_evicted_seq_ d)
                   (if c <? GetLastPublishedSequence db
                    then Z.min (u64 (c + INC_STEP_FOR_MAX_EVICTED)) (GetLastPublishedSequence db - 1) else c) d
            else d in
  (max_evicted_seq_ d' = max_evicted_seq_ d /\ d' = d \/
   max_evicted_seq_ d < max_evicted_seq_ d' /\ advanced (max_evicted_seq_ d') (GetAll db (max_evicted_seq_ d')) d d') /\
  c <= max_evicted_seq_ d'.
Proof.
  intros HO [HL HA] Hc Hinc. destruct (Z.ltb_spec (max_evicted_seq_ d) c) as [Hlt|Hge]; [|split; [by left|done]].
  cbv zeta. set (n := if c <? _ then _ else _).
  assert (Hn : c <= n).
  { unfold n. destruct (Z.ltb_spec c (GetLastPublishedSequence db)); [|done]. rewrite u64_small by lia. lia. }
  destruct (HA n ltac:(lia)) as [H1 H2].
  pose proof (AdvanceMax_effect db n d HO ltac:(lia) H1 H2) as AD. pose proof (ad_max _ _ _ _ AD) as Em.
  rewrite Em. split; [|done]. right. split; [lia|done].
Qed.

(** Recording a commit for snapshots keeps everything else. *)
Lemma db_ok_recorded p c d d' : db_ok d -> recorded_effect p c d d' -> db_ok d'.
Proof.
  intros [O1 O2 O3 O4 O5 O6 O7 O8 O9] [(m & e & ->) R2 R3 _ _]. split; try done.
  - by destruct O3.
  - by apply R2.
  - intros s Hs. by apply R3, O8.
Qed.

Lemma evict_effect db p c d : db_ok d -> db_answers db d -> 0 <= c < 2 ^ 56 ->
  0 < INC_STEP_FOR_MAX_EVICTED <= 2 ^ 56 -> 0 < SNAPSHOT_CACHE_SIZE ->
  evicted_effect db p c d (evict db (mkCommitEntry p c) d).
Proof.
  intros HO HA Hc Hinc Hpos. destruct (advance_step db c d HO HA Hc Hinc) as [H1 H2].
  unfold evict. cbn [commit_seq prep_seq]. set (d1 := if max_evicted_seq_ d <? c then _ else _) in *. clearbody d1.
  assert (O1 : db_ok d1) by (destruct H1 as [[_ ->]|[_ AD]]; [done|apply AD]).
  set (dpc := if bool_decide (p ∈ delayed_prepared_ d1) then <[p := c]> (delayed_prepared_commits_ d1)
              else delayed_prepared_commits_ d1).
  set (d2 := if negb (delayed_prepared_empty_ d1) then _ else d1).
  assert (E2 : d2 = set_delayed (delayed_prepared_ d1) dpc (delayed_prepared_empty_ d1) d1).
  { unfold d2, dpc. pose proof (ok_delayed _ O1) as Ee. unfold delay_coherent in Ee.
    destruct (delayed_prepared_empty_ d1) eqn:Ed; cbn [negb].
    - symmetry in Ee. apply bool_decide_eq_true in Ee. rewrite (bool_decide_false (_ ∈ _)) by (rewrite Ee; set_solver).
      destruct d1; simpl in *; by subst.
    - destruct (bool_decide (p ∈ _)); [done|]. destruct d1; simpl in *; by subst. }
  assert (O2 : db_ok d2) by (rewrite E2; destruct O1 as [P1 P2 [] P4 P5 P6 P7 P8 P9]; by split).
  destruct (CheckAgainstSnapshots_effect p c d2 (ok_snaps _ O2) Hpos) as [RE RN].
  pose proof (db_ok_recorded p c d2 _ O2 RE) as O3. set (d3 := CheckAgainstSnapshots _ d2) in *. clearbody d3 d2.
  destruct RE as [(m & e & ->) _ _ RK RW]. subst d2. simpl in *.
  destruct H1 as [[Em ->]|[Hlt AD]].
  - split; simpl; try done.
    + by left.
    + intros x. split; [|tauto]. intros Hx. split; [done|]. by apply (ok_members _ HO).
    + intros x. split; [tauto|]. intros [|[Hx Hle]]; [done|]. specialize (ok_members _ HO x Hx). lia.
    + intros s x _ Hx. by apply RK.
  - destruct AD as [A1 A2 A3 A4 A5 A6 A7 A8 A9 A10]. split; simpl; try done.
    + lia.
    + right. by rewrite A8.
    + unfold dpc. by rewrite A4.
    + intros s x Hs Hx. apply RK, A9; [by rewrite A8 in Hs|done].
    + intros s x [Hx|]%RW; [left; by apply A10|by right].
Qed.

(** ** Adding and removing prepared numbers *)

Lemma AddPrepared_effect p d : db_ok d -> p < kMaxSequenceNumber ->
  (forall x, x ∈ heap_numbers (prepared_txns_ d) -> x < p) ->
  let d' := AddPrepared p d in
  db_ok d' /\ (exists h dp e, d' = set_prepared h (set_delayed dp (delayed_prepared_commits_ d) e d)) /\
  (forall x, x ∈ members (prepared_txns_ d') \/ x ∈ delayed_prepared_ d' <->
     x ∈ members (prepared_txns_ d) \/ x ∈ delayed_prepared_ d \/ x = p) /\
  (forall x, x ∈ delayed_prepared_ d' -> x ∈ delayed_prepared_ d \/ x = p) /\
  (forall x, x ∈ heap_numbers (prepared_txns_ d') -> x ∈ heap_numbers (prepared_txns_ d) \/ x = p).
Proof.
  intros [O1 O2 O3 O4 O5 O6 O7 O8 O9] Hp Hn.
  assert (HB : Forall (fun x => x < p) (PreparedHeap.heap_ (prepared_txns_ d)) /\
               Forall (fun x => x < p) (PreparedHeap.erased_heap_ (prepared_txns_ d))).
  { unfold heap_numbers in Hn. split; apply Forall_forall; intros x Hx; apply Hn, elem_of_app; tauto. }
  destruct (push_ok p (prepared_txns_ d) O1 Hp (proj1 HB) (proj2 HB)) as [P1 P2].
  assert (Hnum : forall x, x ∈ heap_numbers (PreparedHeap.push p (prepared_txns_ d)) ->
    x ∈ heap_numbers (prepared_txns_ d) \/ x = p).
  { intros x. unfold heap_numbers. simpl. rewrite !elem_of_app, list_elem_of_singleton. tauto. }
  unfold AddPrepared. set (d1 := set_prepared _ d). change (future_max_evicted_seq_ d1) with (future_max_evicted_seq_ d).
  assert (Hm : forall x, x ∈ members (prepared_txns_ d1) <-> x ∈ members (prepared_txns_ d) \/ x = p).
  { intros x. unfold d1. simpl. rewrite P2, elem_of_app, list_elem_of_singleton. done. }
  rewrite O5. destruct (Z.leb_spec p (max_evicted_seq_ d)) as [Hle|Hgt].
  - destruct (CheckPrepared_effect (max_evicted_seq_ d) d1 P1) as [(h & dp & e & E) C2 C3 C4 C5 C6]. rewrite E in *.
    split_and!.
    + split; try done; [by apply C5|by destruct O3| |].
      * intros x Hx. by apply C3 in Hx as [_ ?].
      * intros x [Hx|[_ Hx]]%C4; [by apply O9|done].
    + by exists h, dp, e.
    + intros x. rewrite C3, C4, Hm. change (delayed_prepared_ d1) with (delayed_prepared_ d).
      destruct (Z.le_gt_cases x (max_evicted_seq_ d)); [|tauto]. split; [tauto|]. tauto.
    + intros x [|[[Hx| ->]%Hm Hx']]%C4; [by left| |by right]. specialize (O7 x Hx). lia.
    + intros x Hx%C6. by apply Hnum.
  - split_and!.
    + split; try done; [by destruct O3|]. intros x [Hx| ->]%Hm; [by apply O7|exact Hgt].
    + exists (PreparedHeap.push p (prepared_txns_ d)), (delayed_prepared_ d), (delayed_prepared_empty_ d). by destruct d.
    + intros x. rewrite Hm. simpl. tauto.
    + by left.
    + done.
Qed.

Lemma remove_one_effect p d : db_ok d ->
  let d' := remove_one p d in
  db_ok d' /\ (exists h dp dpc e, d' = set_prepared h (set_delayed dp dpc e d)) /\
  (forall x, x ∈ members (prepared_txns_ d') <-> x ∈ members (prepared_txns_ d) /\ x <> p) /\
  (forall x, x ∈ delayed_prepared_ d' <-> x ∈ delayed_prepared_ d /\ x <> p) /\
  (forall x c, delayed_prepared_commits_ d' !! x = Some c -> delayed_prepared_commits_ d !! x = Some c) /\
  (forall x, x <> p -> delayed_prepared_commits_ d' !! x = delayed_prepared_commits_ d !! x) /\
  (forall x, x ∈ heap_numbers (prepared_txns_ d') -> x ∈ heap_numbers (prepared_txns_ d) \/ x = p).
Proof.
  intros [O1 O2 O3 O4 O5 O6 O7 O8 O9]. destruct (erase_ok p (prepared_txns_ d) O1) as [P1 P2].
  unfold remove_one. set (d1 := set_prepared _ d). change (delayed_prepared_ d1) with (delayed_prepared_ d).
  change (delayed_prepared_commits_ d1) with (delayed_prepared_commits_ d).
  assert (Hm : forall x, x ∈ members (prepared_txns_ d1) <-> x ∈ members (prepared_txns_ d) /\ x <> p).
  { intros x. unfold d1. simpl. rewrite P2, list_elem_of_filter. tauto. }
  assert (Hnum : forall x, x ∈ heap_numbers (prepared_txns_ d1) -> x ∈ heap_numbers (prepared_txns_ d) \/ x = p).
  { intros x. unfold d1. simpl. unfold PreparedHeap.erase. destruct (negb _); [|by left]. destruct (p <? _); [by left|].
    destruct (_ =? p); [intros Hx; left; by apply pop_numbers|]. unfold heap_numbers. simpl.
    rewrite !elem_of_app, elem_of_pq_push. tauto. }
  assert (Hmem : forall x, x ∈ members (prepared_txns_ d1) -> max_evicted_seq_ d < x) by (intros x [Hx _]%Hm; by apply O7).
  destruct (decide (delayed_prepared_ d = ∅)) as [E|E].
  - rewrite bool_decide_true by done. cbn [negb]. split_and!; try done.
    + split; try done. by destruct O3.
    + exists (PreparedHeap.erase p (prepared_txns_ d)), (delayed_prepared_ d), (delayed_prepared_commits_ d), (delayed_prepared_empty_ d).
      by destruct d.
    + intros x. simpl. rewrite E. set_solver.
  - rewrite bool_decide_false by done. cbn [negb]. split_and!; try done.
    + split; try done; [|by destruct O3|intros x [Hx _]%elem_of_difference; by apply O9]. unfold delay_coherent. simpl.
      destruct (bool_decide (_ ∖ _ = ∅)) eqn:Eb; simpl; [done|]. unfold delay_coherent in O2. by rewrite O2, bool_decide_false.
    + unfold d1, set_delayed, set_prepared. simpl. eexists _, _, _, _. reflexivity.
    + intros x. simpl. set_solver.
    + intros x c. simpl. destruct (_ !! p); [|done]. rewrite lookup_delete_Some. tauto.
    + intros x Hx. simpl. destruct (_ !! p); [|done]. by rewrite lookup_delete_ne.
Qed.
End effects.
