(* ===== verification/WritePreparedProofs.v ===== *)
(** * WritePrepared transactions: snapshots see exactly what was committed

    The bookkeeping of [WritePreparedTxnDB] as a state machine: transactions are
    prepared, committed, published and cleaned up, snapshots are taken and
    released, in any order the callers may produce. The invariant of its
    reachable states gives that [IsInSnapshot] is right, also when other
    operations run between its loads. *)

From stdpp Require Import prelude gmap sorting.
From Stdlib Require Import ZArith Lia Bool Sorted.
From S2P Require Import Prelude Status CommitCache PreparedHeap WritePrepared WritePreparedSpec.
Import WritePreparedTxnDB.

(** [SnapshotList::GetAll] (db/snapshot_impl.h, not part of the sources): the
    numbers of the live snapshots up to a bound, in ascending order. *)
Class SnapshotLists := { snapshots_GetAll : list Z -> Z -> list Z }.
Class SnapshotListsLaws `{SnapshotLists} : Prop := {
  GetAll_sorted l n : StronglySorted Z.le (snapshots_GetAll l n);
  elem_of_GetAll l n x : x ∈ snapshots_GetAll l n <-> x ∈ l /\ x <= n;
}.

(** Configurations: the commit cache has at most 2^48 entries, and sequence
    numbers fit in 56 bits. *)
Class WpLimits `{SeqLimit} `{WpOptions} : Prop := {
  commit_bits : 0 <= COMMIT_CACHE_BITS <= 48;
  snapshot_bits : 0 <= SNAPSHOT_CACHE_BITS;
  seq_limit : 0 < kMaxSequenceNumber <= 2 ^ 56;
}.

Section machine.
Context `{SeqLimit} `{WpOptions} `{SnapshotLists} `{!SnapshotListsLaws} `{!WpLimits}.

(** The database with its history: the members of the class, the published and
    the latest sequence numbers, the last number given out, the commit number of
    every committed prepare number, the prepare numbers not committed, and the
    live snapshots with the [min_uncommitted_] recorded in them. *)
Record world := World {
  dbs : WritePreparedTxnDB.t;
  published : Z;
  latest : Z;
  alloc : Z;
  committed : gmap Z Z;
  prepared : gset Z;
  live : list (Z * Z);
}.
Implicit Types w : world.

Definition view w : DbView := mkDb (published w) (latest w) (snapshots_GetAll (map fst (live w))).

Definition initial : world := World WritePreparedTxnDB.new 0 0 0 ∅ ∅ [].

(** A number still listed as prepared. *)
Definition listed w (p : Z) : Prop := p ∈ members (prepared_txns_ (dbs w)) \/ p ∈ delayed_prepared_ (dbs w).

(** [min] is a lower bound of the listed and of the future numbers: a value that
    [SmallestUnCommittedSeq] may have returned by now. *)
Definition min_ok w (min : Z) : Prop := min <= alloc w + 1 /\ forall p, listed w p -> min <= p.

Inductive step : world -> world -> Prop :=
  | step_prepare d pub lat al com prep lv p :
      al < p < kMaxSequenceNumber ->
      step (World d pub lat al com prep lv)
           (World (AddPrepared p d) pub lat p com ({[p]} ∪ prep) lv)
  | step_commit d d' pub lat al com prep lv p c :
      p ∈ prep \/ pub < p /\ com !! p = None -> p <= c < kMaxSequenceNumber -> pub < c ->
      AddCommitted (view (World d pub lat al com prep lv)) p c d = Some d' ->
      step (World d pub lat al com prep lv)
           (World d' pub lat (Z.max al c) (<[p := c]> com) (prep ∖ {[p]}) lv)
  | step_publish d pub lat al com prep lv n :
      pub <= n <= al ->
      (forall p c, com !! p = Some c -> p <= n < c -> listed (World d pub lat al com prep lv) p) ->
      step (World d pub lat al com prep lv) (World d n lat al com prep lv)
  | step_sequence d pub lat al com prep lv n :
      lat <= n <= al ->
      step (World d pub lat al com prep lv) (World d pub n al com prep lv)
  | step_remove d pub lat al com prep lv p n :
      (forall i, (i < n)%nat -> exists c, com !! (p + Z.of_nat i) = Some c /\ c <= pub) ->
      step (World d pub lat al com prep lv) (World (RemovePrepared p n d) pub lat al com prep lv)
  | step_snapshot d pub lat al com prep lv min :
      pub = 0 \/ future_max_evicted_seq_ d < pub -> min_ok (World d pub lat al com prep lv) min ->
      step (World d pub lat al com prep lv) (World d pub lat al com prep ((pub, min) :: lv))
  | step_release d pub lat al com prep lv1 sn lv2 :
      step (World d pub lat al com prep (lv1 ++ sn :: lv2)) (World d pub lat al com prep (lv1 ++ lv2)).

(** ** The invariant *)

Definition cached w (p : Z) : option CommitEntry := snd (GetCommitEntry (p mod COMMIT_CACHE_SIZE) (dbs w)).
Definition evicted w (p c : Z) : Prop := committed w !! p = Some c /\ cached w p <> Some (mkCommitEntry p c).

Record inv w : Prop := {
  i_db : db_ok (dbs w);
  i_range : 0 <= published w <= alloc w /\ 0 <= latest w <= alloc w /\ alloc w < kMaxSequenceNumber;
  i_prep p : p ∈ prepared w -> 1 <= p <= alloc w /\ committed w !! p = None /\ listed w p;
  i_comm p c : committed w !! p = Some c -> 1 <= p <= c /\ c <= alloc w;
  i_nums x : x ∈ heap_numbers (prepared_txns_ (dbs w)) -> x <= alloc w;
  i_cache_size : zlen (commit_cache_ (dbs w)) = COMMIT_CACHE_SIZE;
  i_cache i e : 0 <= i < COMMIT_CACHE_SIZE -> snd (GetCommitEntry i (dbs w)) = Some e ->
    committed w !! prep_seq e = Some (commit_seq e) /\ prep_seq e mod COMMIT_CACHE_SIZE = i;
  i_evicted p c : evicted w p c -> c <= max_evicted_seq_ (dbs w);
  i_commits p c : delayed_prepared_commits_ (dbs w) !! p = Some c -> committed w !! p = Some c;
  i_delayed p c : p ∈ delayed_prepared_ (dbs w) -> evicted w p c -> delayed_prepared_commits_ (dbs w) !! p = Some c;
  i_live s min : (s, min) ∈ live w -> 0 <= s <= published w /\
    (s = 0 \/ max_evicted_seq_ (dbs w) < s \/ s ∈ snapshots_all_ (dbs w));
  i_after s min x : (s, min) ∈ live w -> x ∈ snapshots_all_ (dbs w) -> s ∈ snapshots_all_ (dbs w) \/ x < s;
  i_snaps x : x ∈ snapshots_all_ (dbs w) -> x <= published w;
  i_recorded s x : recorded (old_commit_map_ (dbs w)) s x -> exists c, committed w !! x = Some c /\ s < c;
  i_full s min p c : (s, min) ∈ live w -> s ∈ snapshots_all_ (dbs w) -> evicted w p c -> p <= s < c ->
    recorded (old_commit_map_ (dbs w)) s p;
  i_min s min : (s, min) ∈ live w -> min <= alloc w + 1 /\
    forall p, p < min -> (p ∉ prepared w) /\ forall c, committed w !! p = Some c -> p <= s -> c <= s;
  i_unlisted p c : committed w !! p = Some c -> p <= published w < c -> listed w p;
  i_listed p : listed w p -> p <= alloc w;
}.

Lemma cache_size_pos : 0 < COMMIT_CACHE_SIZE <= 2 ^ 48.
Proof.
  unfold COMMIT_CACHE_SIZE. rewrite Z.shiftl_1_l. pose proof commit_bits.
  split; [apply Z.pow_pos_nonneg; lia|apply Z.pow_le_mono_r; lia].
Qed.
Lemma snapshot_size_pos : 0 < SNAPSHOT_CACHE_SIZE.
Proof. unfold SNAPSHOT_CACHE_SIZE. rewrite Z.shiftl_1_l. pose proof snapshot_bits. apply Z.pow_pos_nonneg; lia. Qed.
Lemma inc_step_range : 0 < INC_STEP_FOR_MAX_EVICTED <= 2 ^ 56.
Proof.
  unfold INC_STEP_FOR_MAX_EVICTED. pose proof cache_size_pos. pose proof (Z.div_le_upper_bound COMMIT_CACHE_SIZE 100 COMMIT_CACHE_SIZE). lia.
Qed.

Lemma inv_initial : inv initial.
Proof.
  pose proof cache_size_pos. pose proof snapshot_size_pos.
  assert (HC : forall i, snd (GetCommitEntry i new) = None).
  { intros i. unfold GetCommitEntry, cell, new. simpl.
    assert (forall n k, nth k (replicate n CommitEntry64b.empty) 0 = 0) as -> by (induction n; destruct k; simpl; auto).
    done. }
  assert (HN : forall s x : Z, ~ recorded (old_commit_map_ new) s x)
    by (intros s x (vec & Hv & _); simpl in Hv; by rewrite lookup_empty in Hv).
  split; simpl; try done; try set_solver.
  - split; simpl; try done; try set_solver.
    + apply heap_ok_new.
    + split; simpl; rewrite ?take_nil, ?drop_nil; try done; [constructor|]. unfold zlen. rewrite length_replicate. lia.
  - pose proof seq_limit. lia.
  - unfold zlen. rewrite length_replicate. lia.
  - intros i e _ He. specialize (HC i). simpl in HC. congruence.
  - intros p c [Hc _]. simpl in Hc. by rewrite lookup_empty in Hc.
  - intros p [Hp|Hp]; [by apply elem_of_nil in Hp|set_solver].
Qed.

(** ** What every step does to the history *)

Record extends w w' : Prop := {
  ex_committed p c : committed w !! p = Some c -> committed w' !! p = Some c;
  ex_new p c : committed w' !! p = Some c -> committed w !! p = None -> published w < c;
  ex_max : max_evicted_seq_ (dbs w) <= max_evicted_seq_ (dbs w');
  ex_published : published w <= published w';
  ex_known p : p ∈ prepared w -> p ∈ prepared w' \/ is_Some (committed w' !! p);
  ex_evicted p c : evicted w p c -> evicted w' p c;
}.

Lemma extends_refl w : extends w w.
Proof. split; try done; [congruence|by left]. Qed.
Lemma extends_trans w1 w2 w3 : extends w1 w2 -> extends w2 w3 -> extends w1 w3.
Proof.
  intros [A1 A2 A3 A4 A5 A6] [B1 B2 B3 B4 B5 B6]. split; [auto| |lia|lia| |auto].
  - intros p c Hc Hn. destruct (committed w2 !! p) as [c'|] eqn:E.
    + assert (c' = c) as -> by (apply B1 in E; congruence). by apply A2 with p.
    + specialize (B2 p c Hc E). lia.
  - intros p [Hp|[c Hc]]%A5; [by apply B5|]. right. exists c. by apply B1.
Qed.

(** Steps that leave the commit cache, the largest evicted number and the commits alone. *)
Lemma extends_same w w' : committed w' = committed w -> published w <= published w' ->
  commit_cache_ (dbs w') = commit_cache_ (dbs w) -> max_evicted_seq_ (dbs w') = max_evicted_seq_ (dbs w) ->
  (forall p, p ∈ prepared w -> p ∈ prepared w') -> extends w w'.
Proof.
  intros E1 E2 E3 E4 E5. split; rewrite ?E1, ?E4; try done; [congruence|by left; apply E5|].
  intros p c [Hc Hn]. split; [by rewrite E1|]. unfold cached, GetCommitEntry, cell in *. by rewrite E3.
Qed.

(** ** Commits *)

(** The answers of the database to an eviction are usable. *)
Lemma view_answers w : inv w -> db_answers (view w) (dbs w).
Proof.
  intros I. destruct (i_range w I) as (R1 & R2 & R3). pose proof seq_limit. split; simpl; [lia|].
  intros n Hn. split; [apply GetAll_sorted|]. intros y [Hy Hle]%elem_of_GetAll.
  apply list_elem_of_fmap in Hy as ([s min] & -> & Hin). simpl.
  destruct (decide (s ∈ snapshots_all_ (dbs w))) as [|Hns]; [by left|right].
  intros x Hx. by destruct (i_after w I s min x Hin Hx).
Qed.

(** [AddCommitted] overwrites one cell of the cache after evicting what was there. *)
Record commit_effect w (p c : Z) (d' : WritePreparedTxnDB.t) : Prop := {
  ce_state : exists d1 word,
    d' = set_commit_cache (<[Z.to_nat (p mod COMMIT_CACHE_SIZE) := word]> (commit_cache_ (dbs w))) d1 /\
    CommitEntry64b.Parse word (p mod COMMIT_CACHE_SIZE) FORMAT = Some (mkCommitEntry p c) /\
    match cached w p with
    | Some e => evicted_effect (view w) (prep_seq e) (commit_seq e) (dbs w) d1
    | None => d1 = dbs w
    end;
}.

Lemma index_range p : 0 <= p mod COMMIT_CACHE_SIZE < COMMIT_CACHE_SIZE.
Proof. apply Z.mod_pos_bound. pose proof cache_size_pos. lia. Qed.

Lemma cached_committed w p e : inv w -> cached w p = Some e ->
  committed w !! prep_seq e = Some (commit_seq e) /\ 0 <= commit_seq e < 2 ^ 56.
Proof.
  intros I E. destruct (i_cache w I _ e (index_range p) E) as [Hc _]. split; [done|].
  destruct (i_comm w I _ _ Hc). destruct (i_range w I) as (_ & _ & ?). pose proof seq_limit. lia.
Qed.

(** The compare-and-exchange finds the word it read. *)
Lemma AddCommitted_run w p c : inv w -> exists d1,
  commit_cache_ d1 = commit_cache_ (dbs w) /\
  match cached w p with
  | Some e => evicted_effect (view w) (prep_seq e) (commit_seq e) (dbs w) d1
  | None => d1 = dbs w
  end /\
  AddCommitted (view w) p c (dbs w) =
    match CommitEntry64b.new p c FORMAT with
    | Some word => Some (set_commit_cache (<[Z.to_nat (p mod COMMIT_CACHE_SIZE) := word]> (commit_cache_ (dbs w))) d1)
    | None => None
    end.
Proof.
  intros I. unfold AddCommitted. cbn [AddCommitted_loop].
  set (i := p mod COMMIT_CACHE_SIZE). pose proof (cached_committed w p) as HC. unfold cached in *. fold i in HC |- *.
  destruct (GetCommitEntry i (dbs w)) as [word old] eqn:EG. simpl in HC |- *.
  set (d1 := match old with Some e => evict (view w) e (dbs w) | None => dbs w end).
  assert (HE : match old with
               | Some e => evicted_effect (view w) (prep_seq e) (commit_seq e) (dbs w) d1
               | None => d1 = dbs w end).
  { unfold d1. destruct old as [[ep ec]|]; [|done]. destruct (HC _ I eq_refl) as [_ Hr].
    by apply evict_effect; [apply I|by apply view_answers|..|apply inc_step_range|apply snapshot_size_pos]. }
  assert (Ec : commit_cache_ d1 = commit_cache_ (dbs w)) by (destruct old; [apply HE|by rewrite HE]).
  exists d1. split_and!; [done|done|].
  assert (Ecell : cell i d1 = word) by (unfold cell; rewrite Ec; unfold GetCommitEntry in EG; by injection EG).
  unfold ExchangeCommitEntry. cbn [prep_seq commit_seq]. rewrite Ecell, Z.eqb_refl, Ec.
  by destruct (CommitEntry64b.new p c FORMAT).
Qed.

Lemma AddCommitted_effect w p c d' : inv w -> 0 <= p <= c -> c < kMaxSequenceNumber ->
  AddCommitted (view w) p c (dbs w) = Some d' -> commit_effect w p c d'.
Proof.
  intros I Hp Hc. pose proof seq_limit. destruct (AddCommitted_run w p c I) as (d1 & _ & HE & ->).
  destruct (CommitEntry64b.new p c FORMAT) as [nw|] eqn:EN; [|done]. intros [= <-]. split. exists d1, nw.
  split_and!; [done| |done].
  assert (0 < c - p + 1 < 2 ^ (8 + COMMIT_CACHE_BITS)) by (apply (new_Some _ commit_bits p c nw); [lia|lia|done]).
  unfold COMMIT_CACHE_SIZE. rewrite Z.shiftl_1_l. apply (Parse_new COMMIT_CACHE_BITS); [apply commit_bits|lia|done|lia|done].
Qed.

Definition with_db w (d : WritePreparedTxnDB.t) : world :=
  World d (published w) (latest w) (alloc w) (committed w) (prepared w) (live w).

(** A cache entry that may be overwritten. *)
Record ready w (e : CommitEntry) : Prop := {
  rd_max : commit_seq e <= max_evicted_seq_ (dbs w);
  rd_delayed : prep_seq e ∈ delayed_prepared_ (dbs w) ->
    delayed_prepared_commits_ (dbs w) !! prep_seq e = Some (commit_seq e);
  rd_recorded s min : (s, min) ∈ live w -> s ∈ snapshots_all_ (dbs w) -> prep_seq e <= s < commit_seq e ->
    recorded (old_commit_map_ (dbs w)) s (prep_seq e);
}.

Lemma evicted_with_db w d p c : commit_cache_ d = commit_cache_ (dbs w) -> evicted (with_db w d) p c <-> evicted w p c.
Proof. intros E. unfold evicted, cached, GetCommitEntry, cell. simpl. by rewrite E. Qed.

Section evict.
Context w (I : inv w) (p : Z) (e : CommitEntry) (He : cached w p = Some e) (d1 : WritePreparedTxnDB.t)
  (EV : evicted_effect (view w) (prep_seq e) (commit_seq e) (dbs w) d1).

Lemma evict_entry : committed w !! prep_seq e = Some (commit_seq e) /\ cached w (prep_seq e) = Some e.
Proof.
  destruct (i_cache w I _ e (index_range p) He) as [Hc Hm]. split; [done|]. unfold cached. by rewrite Hm.
Qed.

Lemma evict_listed x : listed w x <-> listed (with_db w d1) x.
Proof.
  unfold listed. simpl. rewrite (ev_members _ _ _ _ _ EV), (ev_delayed _ _ _ _ _ EV).
  destruct (Z.le_gt_cases x (max_evicted_seq_ d1)); split; try tauto; intros [?|[?|?]]; tauto.
Qed.

(** The snapshots known after the eviction. *)
Lemma evict_snaps s min : (s, min) ∈ live w ->
  (s = 0 \/ max_evicted_seq_ d1 < s \/ s ∈ snapshots_all_ d1) /\
  (forall x, x ∈ snapshots_all_ d1 -> s ∈ snapshots_all_ d1 \/ x < s).
Proof.
  intros Hs. destruct (i_live w I s min Hs) as [H1' H2'].
  destruct (ev_snaps _ _ _ _ _ EV) as [[Em Ea]|[Hlt Ea]]; rewrite Ea.
  - rewrite Em. split; [done|]. intros x Hx. by apply (i_after w I s min x).
  - cbn [view GetAll]. assert (Hin : s ∈ map fst (live w)) by (apply (list_elem_of_fmap_2 fst _ _ Hs)).
    split; [destruct (Z.le_gt_cases s (max_evicted_seq_ d1)); [|tauto]; right; right; by apply elem_of_GetAll|].
    intros x [_ Hx]%elem_of_GetAll. destruct (Z.le_gt_cases s (max_evicted_seq_ d1)); [|right; lia].
    left. by apply elem_of_GetAll.
Qed.

Lemma evict_full s min x c : (s, min) ∈ live w -> s ∈ snapshots_all_ d1 -> evicted w x c -> x <= s < c ->
  recorded (old_commit_map_ d1) s x.
Proof.
  intros Hs Hin Hx Hsc. apply (ev_keep _ _ _ _ _ EV); [by left|].
  destruct (i_live w I s min Hs) as [_ [->|[Hlt|Hall]]]; [| |by apply (i_full w I s min x c)].
  - destruct Hx as [Hx _]. destruct (i_comm w I x c Hx). lia.
  - pose proof (i_evicted w I x c Hx). lia.
Qed.

Lemma evict_delayed x c : x ∈ delayed_prepared_ d1 -> evicted w x c -> delayed_prepared_commits_ d1 !! x = Some c.
Proof.
  intros Hx Hev. rewrite (ev_commits _ _ _ _ _ EV). destruct evict_entry as [Hec Hcache].
  assert (Hne : x <> prep_seq e).
  { intros ->. destruct Hev as [Hc Hn]. apply Hn. rewrite Hcache. destruct e. simpl in *. congruence. }
  assert (Hd : delayed_prepared_commits_ (dbs w) !! x = Some c).
  { apply (ev_delayed _ _ _ _ _ EV) in Hx as [Hx|[Hx Hle]]; [by apply (i_delayed w I)|].
    pose proof (ok_members _ (i_db w I) x Hx). pose proof (i_evicted w I x c Hev). destruct Hev as [Hc _].
    destruct (i_comm w I x c Hc). lia. }
  destruct (bool_decide _); [by rewrite lookup_insert_ne|done].
Qed.

Lemma inv_evict : inv (with_db w d1) /\ ready (with_db w d1) e.
Proof.
  destruct evict_entry as [Hec Hcache]. pose proof (ev_cache _ _ _ _ _ EV) as Ec.
  assert (Hev : forall x c, evicted (with_db w d1) x c <-> evicted w x c) by (intros; by apply evicted_with_db).
  destruct (ev_max _ _ _ _ _ EV) as [Hm1 Hm2]. pose proof (evict_listed) as HL. split; [split; simpl|split; simpl].
  - apply EV.
  - apply I.
  - intros q Hq. destruct (i_prep w I q Hq) as (A & B & C). split_and!; [lia|lia|done|by apply HL].
  - apply I.
  - intros x Hx. by apply (i_nums w I), (ev_numbers _ _ _ _ _ EV).
  - rewrite Ec. apply I.
  - intros i e' Hi. unfold GetCommitEntry, cell. simpl. rewrite Ec. apply (i_cache w I i e' Hi).
  - intros x c Hx%Hev. pose proof (i_evicted w I x c Hx). lia.
  - intros x c. rewrite (ev_commits _ _ _ _ _ EV). destruct (bool_decide _); [|apply I].
    destruct (decide (x = prep_seq e)) as [->|]; [rewrite lookup_insert_eq; congruence|].
    rewrite lookup_insert_ne by done. apply I.
  - intros x c Hx Hx'%Hev. by apply evict_delayed.
  - intros s min Hs. split; [by apply (i_live w I s min)|by apply (evict_snaps s min)].
  - intros s min x Hs. by apply (evict_snaps s min).
  - intros x. destruct (ev_snaps _ _ _ _ _ EV) as [[_ ->]|[_ ->]]; [apply I|]. intros [Hx _]%elem_of_GetAll.
    apply list_elem_of_fmap in Hx as ([s min] & -> & Hin). by apply (i_live w I s min).
  - intros s x [Hx|[-> Hs]]%(ev_sub _ _ _ _ _ EV); [by apply I|]. exists (commit_seq e). split; [done|lia].
  - intros s min x c Hs Hin Hx%Hev Hsc. by apply (evict_full s min x c).
  - apply I.
  - intros x c Hx Hc. by apply HL, (i_unlisted w I x c).
  - intros x Hx%HL. by apply (i_listed w I).
  - done.
  - intros Hd. rewrite (ev_commits _ _ _ _ _ EV), bool_decide_true by done. apply lookup_insert_eq.
  - intros s min Hs Hin Hsc. by apply (ev_new _ _ _ _ _ EV).
Qed.
End evict.

(** Storing an entry. *)
Section store.
Context w (I : inv w) (p c word : Z).
Context (Hp : 1 <= p <= c) (Hc : published w < c < kMaxSequenceNumber).
Context (Hnew : p ∈ prepared w \/ published w < p /\ committed w !! p = None).
Context (Hword : CommitEntry64b.Parse word (p mod COMMIT_CACHE_SIZE) FORMAT = Some (mkCommitEntry p c)).
Context (Hready : forall e, cached w p = Some e -> ready w e).

#[local] Abbreviation w' := (World
  (set_commit_cache (<[Z.to_nat (p mod COMMIT_CACHE_SIZE) := word]> (commit_cache_ (dbs w))) (dbs w))
  (published w) (latest w) (Z.max (alloc w) c) (<[p := c]> (committed w)) (prepared w ∖ {[p]}) (live w)).

Lemma store_fresh : committed w !! p = None.
Proof. destruct Hnew as [Hin|[_ Hn]]; [by apply (i_prep w I)|done]. Qed.

Lemma store_get i : 0 <= i < COMMIT_CACHE_SIZE -> snd (GetCommitEntry i (dbs w')) =
  if i =? p mod COMMIT_CACHE_SIZE then Some (mkCommitEntry p c) else snd (GetCommitEntry i (dbs w)).
Proof.
  intros Hi. pose proof (index_range p). pose proof (i_cache_size w I) as Hz. unfold zlen in Hz.
  unfold GetCommitEntry, cell. simpl. rewrite !nth_lookup. destruct (Z.eqb_spec i (p mod COMMIT_CACHE_SIZE)) as [->|Hne].
  - rewrite list_lookup_insert_eq by lia. done.
  - by rewrite list_lookup_insert_ne by lia.
Qed.

Lemma store_evicted x c' : evicted w' x c' -> x <> p /\ (evicted w x c' \/ cached w p = Some (mkCommitEntry x c')).
Proof.
  intros [Hx Hn]. unfold cached in Hn. rewrite store_get in Hn by apply index_range. simpl in Hx.
  destruct (decide (x = p)) as [->|Hne].
  - rewrite lookup_insert_eq in Hx. rewrite Z.eqb_refl in Hn. congruence.
  - split; [done|]. rewrite lookup_insert_ne in Hx by done.
    destruct (decide (cached w x = Some (mkCommitEntry x c'))) as [E|E]; [|by left].
    right. destruct (Z.eqb_spec (x mod COMMIT_CACHE_SIZE) (p mod COMMIT_CACHE_SIZE)) as [Em|Em]; [|done].
    unfold cached in *. by rewrite <- Em.
Qed.

Lemma store_extends : extends w w'.
Proof.
  pose proof store_fresh as Hf. split; simpl; try done.
  - intros x c' Hx. rewrite lookup_insert_ne; [done|]. intros ->. congruence.
  - intros x c'. destruct (decide (x = p)) as [->|]; [rewrite lookup_insert_eq; intros [= <-]; lia|].
    rewrite lookup_insert_ne by done. congruence.
  - intros x Hx. destruct (decide (x = p)) as [->|]; [right; by rewrite lookup_insert_eq|left; set_solver].
  - intros x c' [Hx Hn]. assert (x <> p) by congruence. split; simpl; [by rewrite lookup_insert_ne|].
    unfold cached. rewrite store_get by apply index_range. destruct (_ =? _); [congruence|done].
Qed.

Lemma inv_store : inv w'.
Proof.
  pose proof store_fresh as Hf. destruct (i_range w I) as (R1 & R2 & R3).
  assert (Hlook : forall x c', <[p := c]> (committed w) !! x = Some c' -> x = p /\ c' = c \/ x <> p /\ committed w !! x = Some c').
  { intros x c'. destruct (decide (x = p)) as [->|]; [rewrite lookup_insert_eq; left; split; congruence|].
    rewrite lookup_insert_ne by done. by right. }
  assert (Hkeep : forall x c', committed w !! x = Some c' -> <[p := c]> (committed w) !! x = Some c')
    by apply (ex_committed _ _ store_extends).
  split; simpl.
  - destruct (i_db w I) as [P1 P2 [] P4 P5 P6 P7 P8 P9]. by split.
  - lia.
  - intros q [Hq Hqp]%elem_of_difference. apply not_elem_of_singleton in Hqp. destruct (i_prep w I q Hq) as (A & B & C).
    split_and!; [lia|lia|by rewrite lookup_insert_ne|done].
  - intros x c' [[-> ->]|[_ Hx]]%Hlook; [lia|]. destruct (i_comm w I x c' Hx). lia.
  - intros x Hx. pose proof (i_nums w I x Hx). lia.
  - unfold zlen. rewrite length_insert. apply (i_cache_size w I).
  - intros i e Hi He. change (snd (GetCommitEntry i (dbs w')) = Some e) in He. rewrite store_get in He by done.
    destruct (Z.eqb_spec i (p mod COMMIT_CACHE_SIZE)) as [->|].
    + injection He as <-. simpl. by rewrite lookup_insert_eq.
    + destruct (i_cache w I i e Hi He). split; [by apply Hkeep|done].
  - intros x c' [_ [Hx|Hx]]%store_evicted; [by apply (i_evicted w I x)|apply (rd_max _ _ (Hready _ Hx))].
  - intros x c' Hx. by apply Hkeep, I.
  - intros x c' Hd [_ [Hx|Hx]]%store_evicted; [by apply (i_delayed w I)|by apply (rd_delayed _ _ (Hready _ Hx))].
  - apply I.
  - apply I.
  - apply I.
  - intros s x Hx. destruct (i_recorded w I s x Hx) as (c' & Hc' & Hs). exists c'. split; [by apply Hkeep|done].
  - intros s min x c' Hs Hin [_ [Hx|Hx]]%store_evicted Hsc; [by apply (i_full w I s min x c')|].
    by apply (rd_recorded _ _ (Hready _ Hx) s min).
  - intros s min Hs. destruct (i_min w I s min Hs) as [Hm Hall]. split; [lia|]. intros q Hq.
    destruct (Hall q Hq) as [Hq1 Hq2]. split; [set_solver|]. intros c' [[-> ->]|[_ Hx]]%Hlook; [|by apply Hq2].
    destruct (i_live w I s min Hs) as [Hs' _]. destruct Hnew as [|[? _]]; [done|lia].
  - intros x c' [[-> ->]|[_ Hx]]%Hlook Hpub; [|by apply (i_unlisted w I x c')].
    destruct Hnew as [Hin|[? _]]; [by apply (i_prep w I p Hin)|lia].
  - intros x Hx. pose proof (i_listed w I x Hx). lia.
Qed.
End store.

Lemma inv_commit w p c d' : inv w -> p ∈ prepared w \/ published w < p /\ committed w !! p = None -> p <= c < kMaxSequenceNumber -> published w < c ->
  AddCommitted (view w) p c (dbs w) = Some d' ->
  let w' := World d' (published w) (latest w) (Z.max (alloc w) c) (<[p := c]> (committed w)) (prepared w ∖ {[p]}) (live w) in
  inv w' /\ extends w w'.
Proof.
  intros I Hnew Hpc Hpub HA. assert (Hp : 1 <= p).
  { destruct Hnew as [Hin|[? _]]; [by apply (i_prep w I p Hin)|]. destruct (i_range w I). lia. }
  destruct (AddCommitted_effect w p c d' I ltac:(lia) ltac:(lia) HA) as [(d1 & word & -> & Hword & HE)].
  assert (H1' : inv (with_db w d1) /\ commit_cache_ d1 = commit_cache_ (dbs w) /\
    max_evicted_seq_ (dbs w) <= max_evicted_seq_ d1 /\ forall e, cached (with_db w d1) p = Some e -> ready (with_db w d1) e).
  { destruct (cached w p) as [e|] eqn:Ec.
    - destruct (inv_evict w I p e Ec d1 HE) as [I1 R1]. pose proof (ev_cache _ _ _ _ _ HE) as Ecc.
      split_and!; [done|done|by apply (ev_max _ _ _ _ _ HE)|].
      unfold cached, GetCommitEntry, cell in *. simpl in *. rewrite Ecc. intros e' He'. by simplify_eq.
    - subst d1. assert (with_db w (dbs w) = w) as -> by (by destruct w). split_and!; [done|done|done|]. congruence. }
  destruct H1' as (I1 & Ecc & Hm & Hr). rewrite <- Ecc.
  split; [apply (inv_store (with_db w d1) I1 p c word); simpl; (done || lia)|].
  apply extends_trans with (with_db w d1).
  - split; simpl; try done; [congruence|by left|]. intros x c'. by rewrite evicted_with_db.
  - apply (store_extends (with_db w d1) I1 p c word); simpl; (done || lia).
Qed.

(** ** The other steps *)

Lemma inv_prepare w p : inv w -> alloc w < p < kMaxSequenceNumber ->
  let w' := World (AddPrepared p (dbs w)) (published w) (latest w) p (committed w) ({[p]} ∪ prepared w) (live w) in
  inv w' /\ extends w w'.
Proof.
  intros I Hp w'. destruct (i_range w I) as (R1 & R2 & R3).
  destruct (AddPrepared_effect p (dbs w) (i_db w I)) as (E1 & (h & dp & e & E2) & E3 & E4 & E5);
    [lia|intros x Hx; pose proof (i_nums w I x Hx); lia|].
  assert (HL : forall x, listed w' x <-> listed w x \/ x = p) by (intros x; unfold listed; simpl; rewrite E3; tauto).
  assert (Hnc : committed w !! p = None).
  { destruct (committed w !! p) as [c|] eqn:E; [|done]. destruct (i_comm w I p c E). lia. }
  assert (Hev : forall x c, evicted w' x c <-> evicted w x c) by (intros; unfold evicted, cached, w'; simpl; by rewrite E2).
  split; [|apply extends_same; unfold w'; simpl; rewrite ?E2; try done; set_solver].
  pose proof (f_equal commit_cache_ E2) as Q1. pose proof (f_equal max_evicted_seq_ E2) as Q2.
  pose proof (f_equal snapshots_all_ E2) as Q3. pose proof (f_equal old_commit_map_ E2) as Q4.
  pose proof (f_equal delayed_prepared_commits_ E2) as Q5. simpl in Q5. simpl in Q1, Q2, Q3, Q4. clear E2.
  split; unfold w'; simpl; rewrite ?Q1, ?Q2, ?Q3, ?Q4, ?Q5.
  - done.
  - lia.
  - intros q [->%elem_of_singleton|Hq]%elem_of_union; [split_and!; [lia|lia|done|apply HL; by right]|].
    destruct (i_prep w I q Hq) as (A & B & C). split_and!; [lia|lia|done|apply HL; by left].
  - intros x c Hx. destruct (i_comm w I x c Hx). lia.
  - intros x [Hx| ->]%E5; [pose proof (i_nums w I x Hx); lia|lia].
  - apply I.
  - unfold cell. rewrite ?Q1. apply (i_cache w I).
  - intros x c Hx%Hev. by apply (i_evicted w I x c).
  - apply I.
  - intros x c [Hx| ->]%E4 Hev'%Hev; [by apply (i_delayed w I)|]. destruct Hev'. congruence.
  - apply I.
  - apply I.
  - apply I.
  - apply I.
  - intros s min x c Hs Hin Hx%Hev. by apply (i_full w I s min).
  - intros s min Hs. destruct (i_min w I s min Hs) as [Hm Hall]. split; [lia|]. intros q Hq.
    destruct (Hall q Hq) as [Hq1 Hq2]. split; [|done]. intros [->%elem_of_singleton|]%elem_of_union; [lia|done].
  - intros x c Hx Hpub. apply HL. left. by apply (i_unlisted w I x c).
  - intros x [Hx| ->]%HL; [pose proof (i_listed w I x Hx)|]; lia.
Qed.

(** Removing one prepared number, committed and published. *)
Lemma inv_remove_one w p c : inv w -> committed w !! p = Some c -> c <= published w ->
  let w' := with_db w (remove_one p (dbs w)) in inv w' /\ extends w w'.
Proof.
  intros I Hp Hpub w'.
  destruct (remove_one_effect p (dbs w) (i_db w I)) as (E1 & (h & dp & dpc & e & E2) & E3 & E4 & E5 & E6 & E7).
  assert (HL : forall x, x <> p -> listed w' x <-> listed w x).
  { intros x Hx. unfold listed, w'. simpl. rewrite E3, E4. tauto. }
  assert (Hev : forall x c, evicted w' x c <-> evicted w x c).
  { intros x c'. apply evicted_with_db. by rewrite E2. }
  split; [|apply extends_same; unfold w'; simpl; rewrite ?E2; done].
  pose proof (f_equal commit_cache_ E2) as Q1. pose proof (f_equal max_evicted_seq_ E2) as Q2.
  pose proof (f_equal snapshots_all_ E2) as Q3. pose proof (f_equal old_commit_map_ E2) as Q4.
  simpl in Q1, Q2, Q3, Q4. clear E2.
  split; unfold w'; simpl; rewrite ?Q1, ?Q2, ?Q3, ?Q4.
  - done.
  - apply I.
  - intros q Hq. destruct (i_prep w I q Hq) as (A & B & C). split_and!; [lia|lia|done|]. apply HL; [congruence|done].
  - apply I.
  - intros x [Hx| ->]%E7; [by apply (i_nums w I)|]. destruct (i_comm w I p c Hp). lia.
  - apply I.
  - unfold cell. rewrite ?Q1. apply (i_cache w I).
  - intros x c' Hx%Hev. by apply (i_evicted w I x c').
  - intros x c' Hx. by apply (i_commits w I), E5.
  - intros x c' [Hx Hne]%E4 Hev'%Hev. simpl in *. rewrite E6 by done. by apply (i_delayed w I).
  - apply I.
  - apply I.
  - apply I.
  - apply I.
  - intros s min x c' Hs Hin Hx%Hev. by apply (i_full w I s min).
  - apply I.
  - intros x c' Hx Hpub'. apply HL; [|by apply (i_unlisted w I x c')]. intros ->. simplify_eq. lia.
  - intros x Hx. apply (i_listed w I). unfold listed, w' in *. simpl in Hx. rewrite E3, E4 in Hx. tauto.
Qed.

Lemma inv_remove w p n : inv w ->
  (forall i, (i < n)%nat -> exists c, committed w !! (p + Z.of_nat i) = Some c /\ c <= published w) ->
  let w' := with_db w (RemovePrepared p n (dbs w)) in inv w' /\ extends w w'.
Proof.
  pose proof seq_limit. revert p w. induction n as [|n IH]; intros p w I Hc; cbn [RemovePrepared].
  { assert (with_db w (dbs w) = w) as -> by (by destruct w). split; [done|apply extends_refl]. }
  destruct (Hc 0%nat ltac:(lia)) as (c & Hp & Hpub). rewrite Z.add_0_r in Hp.
  destruct (inv_remove_one w p c I Hp Hpub) as [I1 X1].
  destruct (IH (u64 (p + 1)) (with_db w (remove_one p (dbs w))) I1) as [I2 X2].
  { destruct (i_comm w I p c Hp). destruct (i_range w I). rewrite u64_small by lia.
    intros i Hi. destruct (Hc (S i) ltac:(lia)) as (c' & Hc' & Hpub'). exists c'. split; [|done]. simpl.
    rewrite <- Hc'. f_equal. lia. }
  simpl in *. split; [done|]. by eapply extends_trans.
Qed.

Lemma inv_snapshot w min : inv w -> published w = 0 \/ future_max_evicted_seq_ (dbs w) < published w -> min_ok w min ->
  inv (World (dbs w) (published w) (latest w) (alloc w) (committed w) (prepared w) ((published w, min) :: live w)).
Proof.
  intros I Hpub Hmin. pose proof I as [J1 J2 J3 J4 J5 J6 J7 J8 J9 J10 J11 J12 J13 J14 J15 J16 J17 J18].
  split; simpl; try done.
  - intros s m [[= -> ->]|Hs]%elem_of_cons; [|by apply (J11 s m)]. split; [lia|]. rewrite (ok_future _ J1) in Hpub. tauto.
  - intros s m x [[= -> ->]|Hs]%elem_of_cons Hx; [|by apply (J12 s m x)]. pose proof (J13 x Hx).
    destruct (decide (x = published w)) as [->|]; [by left|right; lia].
  - intros s m x c [[= -> ->]|Hs]%elem_of_cons Hin Hx Hsc; [|by apply (J15 s m x c)].
    pose proof (J8 x c Hx). destruct Hpub as [E|Hlt]; [destruct Hx as [Hx _]; destruct (J4 x c Hx); lia|].
    rewrite (ok_future _ J1) in Hlt. lia.
  - intros s m [[= -> ->]|Hs]%elem_of_cons; [|by apply (J16 s m)]. destruct Hmin as [Hle Hmin]. split; [done|].
    intros p Hp. split; [intros Hin; destruct (J3 p Hin) as (_ & _ & Hl%Hmin); lia|].
    intros c Hc Hps. destruct (Z.le_gt_cases c (published w)); [done|].
    pose proof (Hmin p (J17 p c Hc ltac:(lia))). lia.
Qed.

Lemma inv_release w lv : inv w -> lv ⊆ live w ->
  inv (World (dbs w) (published w) (latest w) (alloc w) (committed w) (prepared w) lv).
Proof.
  intros [J1 J2 J3 J4 J5 J6 J7 J8 J9 J10 J11 J12 J13 J14 J15 J16 J17 J18] Hlv. split; simpl; try done.
  - intros s m Hs. by apply (J11 s m), Hlv.
  - intros s m x Hs. by apply (J12 s m x), Hlv.
  - intros s m x c Hs. by apply (J15 s m x c), Hlv.
  - intros s m Hs. by apply (J16 s m), Hlv.
Qed.

Lemma inv_publish w n : inv w -> published w <= n <= alloc w ->
  (forall p c, committed w !! p = Some c -> p <= n < c -> listed w p) ->
  inv (World (dbs w) n (latest w) (alloc w) (committed w) (prepared w) (live w)).
Proof.
  intros [J1 J2 J3 J4 J5 J6 J7 J8 J9 J10 J11 J12 J13 J14 J15 J16 J17 J18] Hn Hl. split; simpl; try done.
  - lia.
  - intros s m Hs. destruct (J11 s m Hs). split; [lia|done].
  - intros x Hx. specialize (J13 x Hx). lia.
Qed.

Lemma step_inv w w' : step w w' -> inv w -> inv w' /\ extends w w'.
Proof.
  intros [d pub lat al com prep lv p Hp
    |d d' pub lat al com prep lv p c Hnew Hpc Hc HA
    |d pub lat al com prep lv n Hn Hl
    |d pub lat al com prep lv n Hn
    |d pub lat al com prep lv p n Hc
    |d pub lat al com prep lv min Hpub Hmin
    |d pub lat al com prep lv1 sn lv2] I.
  - by apply (inv_prepare _ p I).
  - by apply (inv_commit _ p c d' I).
  - split; [by apply (inv_publish _ n I)|by apply extends_same; try done; simpl; lia].
  - split; [|by apply extends_same].
    destruct I as [J1 J2 J3 J4 J5 J6 J7 J8 J9 J10 J11 J12 J13 J14 J15 J16 J17 J18].
    split; simpl in *; try done; lia.
  - by apply (inv_remove _ p n I).
  - split; [by apply (inv_snapshot _ min I)|by apply extends_same].
  - split; [apply (inv_release _ _ I); simpl; set_solver|by apply extends_same].
Qed.

Lemma steps_inv w w' : rtc step w w' -> inv w -> inv w' /\ extends w w'.
Proof.
  induction 1 as [|w1 w2 w3 Hs _ IH]; intros I; [split; [done|apply extends_refl]|].
  destruct (step_inv w1 w2 Hs I) as [I2 X2]. destruct (IH I2) as [I3 X3]. split; [done|by eapply extends_trans].
Qed.

(** ** [IsInSnapshot] *)

(** The value with prepare number [p] is committed as of snapshot [s]. *)
Definition visible w (p s : Z) : bool := match committed w !! p with Some c => c <=? s | None => false end.
Definition known w (p : Z) : Prop := p ∈ prepared w \/ is_Some (committed w !! p).

(** Visibility as of a published number does not change. *)
Lemma visible_stable w w' p s : extends w w' -> s <= published w -> visible w' p s = visible w p s.
Proof.
  intros X Hs. unfold visible. destruct (committed w !! p) as [c|] eqn:E; [by rewrite (ex_committed _ _ X p c E)|].
  destruct (committed w' !! p) as [c|] eqn:E'; [|done]. pose proof (ex_new _ _ X p c E' E).
  apply Z.leb_gt. lia.
Qed.

Lemma known_mono w w' p : extends w w' -> known w p -> known w' p.
Proof. intros X [Hp|[c Hc]]; [by apply (ex_known _ _ X)|]. right. exists c. by apply (ex_committed _ _ X). Qed.

(** At one moment: a value that is not in the cache is not committed or evicted. *)
Lemma missed w p : inv w -> (forall c, cached w p <> Some (mkCommitEntry p c)) ->
  match committed w !! p with
  | Some c => evicted w p c /\ c <= max_evicted_seq_ (dbs w)
  | None => True
  end.
Proof.
  intros I Hn. destruct (committed w !! p) as [c|] eqn:E; [|done].
  assert (evicted w p c) by (split; [done|apply Hn]). split; [done|by apply (i_evicted w I p)].
Qed.

Lemma cached_visible w p e s : inv w -> cached w p = Some e -> prep_seq e = p -> visible w p s = (commit_seq e <=? s).
Proof. intros I He <-. destruct (i_cache w I _ e (index_range _) He) as [Hc _]. unfold visible. by rewrite Hc. Qed.

Lemma uncommitted_delayed w p : inv w -> p ∈ prepared w -> p <= max_evicted_seq_ (dbs w) -> p ∈ delayed_prepared_ (dbs w).
Proof.
  intros I Hp Hle. destruct (i_prep w I p Hp) as (_ & _ & [Hm|]); [|done].
  pose proof (ok_members _ (i_db w I) p Hm). lia.
Qed.

(** A reader of snapshot number [s]: [st i] is the state at its i-th load; other
    operations may run in between. *)
Section reader.
Context (st : nat -> world) (p s : Z).
Context (I0 : inv (st 0)) (ST : forall i, rtc step (st i) (st (S i))).
Context (PUB : s <= published (st 0)) (KN : known (st 0) p) (PS : p <= s).
#[local] Abbreviation loads := (fun i => dbs (st i)).
#[local] Abbreviation V := (visible (st 0) p s).

Lemma trace_steps i j : (i <= j)%nat -> rtc step (st i) (st j).
Proof. induction 1 as [|j _ IH]; [done|]. by transitivity (st j). Qed.
Lemma trace_inv i : inv (st i).
Proof. by apply (steps_inv _ _ (trace_steps 0 i ltac:(lia))). Qed.
Lemma trace_ext i j : (i <= j)%nat -> extends (st i) (st j).
Proof. intros Hij. by apply (steps_inv _ _ (trace_steps i j Hij)), trace_inv. Qed.
Lemma trace_visible i : visible (st i) p s = V.
Proof. apply visible_stable; [by apply trace_ext, Nat.le_0_l|done]. Qed.
Lemma trace_known i : known (st i) p.
Proof. eapply known_mono; [by apply (trace_ext 0 i), Nat.le_0_l|done]. Qed.
Lemma trace_max i j : (i <= j)%nat -> max_evicted_seq_ (dbs (st i)) <= max_evicted_seq_ (dbs (st j)).
Proof. intros Hij. apply (ex_max _ _ (trace_ext i j Hij)). Qed.

Lemma prep_pos : 1 <= p.
Proof. destruct KN as [Hp|[c Hc]]; [by apply (i_prep _ I0 p)|by apply (i_comm _ I0 p c)]. Qed.

(** What the part after the loop must do for evicted values. *)
Definition tail_right : Prop := forall i m c, evicted (st i) p c -> c <= m -> m <= max_evicted_seq_ (dbs (st i)) ->
  in_snapshot_tail loads i p s m = Ret V false.

(** It does for a live snapshot, *)
Section live.
Context (min : Z) (LIVE : forall i, (s, min) ∈ live (st i)).

Lemma old_snapshot i : s <= max_evicted_seq_ (dbs (st i)) -> s ∈ snapshots_all_ (dbs (st i)).
Proof.
  intros Hle. pose proof prep_pos. destruct (i_live _ (trace_inv i) s min (LIVE i)) as [_ [|[|]]]; [lia|lia|done].
Qed.

Lemma tail_live : tail_right.
Proof.
  intros i m c Hev Hc Hm. assert (EV : V = (c <=? s)).
  { rewrite <- (trace_visible i). unfold visible. destruct Hev as [Hx _]. by rewrite Hx. }
  unfold in_snapshot_tail. destruct (Z.ltb_spec m s) as [Hlt|Hge].
  { rewrite EV, (proj2 (Z.leb_le _ _)) by lia. done. }
  pose proof (trace_inv i) as Ii. pose proof (trace_inv (S i)) as I1. pose proof (trace_max i (S i) ltac:(lia)).
  destruct (ok_keys _ (i_db _ Ii) s (old_snapshot i ltac:(lia))) as [vec0 Hvec0].
  destruct (old_commit_map_empty_ (dbs (st i))) eqn:Ee.
  { rewrite (proj1 (ok_ocm _ (i_db _ Ii)) Ee) in Hvec0. by rewrite lookup_empty in Hvec0. }
  pose proof (old_snapshot (S i) ltac:(lia)) as Hin. destruct (ok_keys _ (i_db _ I1) s Hin) as [vec Hvec]. rewrite Hvec.
  rewrite binary_search_spec by (by apply (proj2 (ok_ocm _ (i_db _ I1)) s vec)).
  pose proof (ex_evicted _ _ (trace_ext i (S i) ltac:(lia)) p c Hev) as Hev1. rewrite EV.
  destruct (Z.leb_spec c s) as [Hcs|Hcs].
  - rewrite bool_decide_false; [done|]. intros Hp.
    destruct (i_recorded _ I1 s p) as (c' & Hc' & Hs); [by exists vec|]. destruct Hev1. simplify_eq. lia.
  - rewrite bool_decide_true; [done|].
    destruct (i_full _ I1 s min p c (LIVE _) Hin Hev1 ltac:(lia)) as (vec' & Hv' & Hp). by simplify_eq.
Qed.

End live.

(** and for a number that has not been passed by the largest evicted one. *)
Lemma tail_recent : (forall i, max_evicted_seq_ (dbs (st i)) < s) -> tail_right.
Proof.
  intros HM i m c Hev Hc Hm. specialize (HM i). unfold in_snapshot_tail. rewrite (proj2 (Z.ltb_lt _ _)) by lia.
  f_equal. rewrite <- (trace_visible i). unfold visible. destruct Hev as [-> _]. symmetry. apply Z.leb_le. lia.
Qed.

Context (TAIL : tail_right).

(** A value that is committed at time [i] and not in the cache at time [j] was evicted by then. *)
Lemma missed_evicted i j : (i <= j)%nat -> p ∉ prepared (st i) -> (forall c, cached (st j) p <> Some (mkCommitEntry p c)) ->
  exists c, evicted (st j) p c /\ c <= max_evicted_seq_ (dbs (st j)).
Proof.
  intros Hij Hp Hn. destruct (trace_known i) as [|[c Hc]]; [done|].
  pose proof (ex_committed _ _ (trace_ext i j Hij) p c Hc) as Hc'. pose proof (missed _ p (trace_inv j) Hn) as HM.
  rewrite Hc' in HM. by exists c.
Qed.

(** A value not in the cache at time [i] and not evicted is invisible. *)
Lemma missed_invisible i : (forall c, cached (st i) p <> Some (mkCommitEntry p c)) ->
  (forall c, ~ evicted (st i) p c) -> V = false.
Proof.
  intros Hn He. rewrite <- (trace_visible i). unfold visible. pose proof (missed _ p (trace_inv i) Hn) as HM.
  destruct (committed (st i) !! p) as [c|]; [|done]. destruct (He c). apply HM.
Qed.

Lemma on_miss_ok j k :
  ((forall c, cached (st j) p <> Some (mkCommitEntry p c)) -> k tt = Throw \/ k tt = Ret V false) ->
  on_miss p s (cached (st j) p) k = Throw \/ on_miss p s (cached (st j) p) k = Ret V false.
Proof.
  intros Hk. unfold on_miss. destruct (cached (st j) p) as [e|] eqn:E; [|by apply Hk].
  destruct (Z.eqb_spec p (prep_seq e)) as [Ep|Ep]; [|by apply Hk; intros c [= ->]].
  right. rewrite <- (trace_visible j). by rewrite (cached_visible _ p e s (trace_inv j) E).
Qed.

Lemma loop_ok n i : in_snapshot_loop n loads i p s = Throw \/ in_snapshot_loop n loads i p s = Ret V false.
Proof.
  revert i. induction n as [|n IH]; intros i; [by left|]. cbn [in_snapshot_loop].
  change (snd (GetCommitEntry (p mod COMMIT_CACHE_SIZE) (dbs (st (2 + i))))) with (cached (st (2 + i)) p).
  change (snd (GetCommitEntry (p mod COMMIT_CACHE_SIZE) (dbs (st (5 + i))))) with (cached (st (5 + i)) p).
  apply on_miss_ok. intros Hmiss. cbv beta.
  destruct (Z.eqb_spec (max_evicted_seq_ (dbs (st i))) (max_evicted_seq_ (dbs (st (3 + i))))) as [EM|_]; cbn [negb]; [|apply IH].
  pose proof (trace_max i (2 + i) ltac:(lia)) as M02. pose proof (trace_max (2 + i) (3 + i) ltac:(lia)) as M23.
  rewrite <- EM. destruct (Z.ltb_spec (max_evicted_seq_ (dbs (st i))) p) as [Hlt|Hge].
  { right. f_equal. symmetry. apply (missed_invisible (2 + i) Hmiss). intros c Hc.
    pose proof (i_evicted _ (trace_inv _) p c Hc). destruct Hc as [Hc _]. destruct (i_comm _ (trace_inv _) p c Hc). lia. }
  pose proof (trace_max i (1 + i) ltac:(lia)) as M01. destruct (delayed_prepared_empty_ (dbs (st (1 + i)))) eqn:Ee; cbn [negb].
  - destruct (missed_evicted (1 + i) (2 + i) ltac:(lia)) as (c & Hc & Hle); [|done|].
    { intros Hp%uncommitted_delayed; [|apply trace_inv|lia]. rewrite (ok_delayed _ (i_db _ (trace_inv _))) in Ee.
      apply bool_decide_eq_true in Ee. set_solver. }
    right. pose proof (trace_max i (4 + i) ltac:(lia)). apply (TAIL _ _ c); [|lia|done].
    by apply (ex_evicted _ _ (trace_ext (2 + i) (4 + i) ltac:(lia))).
  - pose proof (trace_max i (4 + i) ltac:(lia)) as M04. case_bool_decide as Hd.
    + right. destruct (delayed_prepared_commits_ (dbs (st (4 + i))) !! p) as [c|] eqn:Ec.
      * rewrite <- (trace_visible (4 + i)). unfold visible. by rewrite (i_commits _ (trace_inv _) p c Ec).
      * f_equal. symmetry. apply (missed_invisible (2 + i) Hmiss). intros c Hc.
        pose proof (ex_evicted _ _ (trace_ext (2 + i) (4 + i) ltac:(lia)) p c Hc) as Hc4.
        rewrite (i_delayed _ (trace_inv _) p c Hd Hc4) in Ec. done.
    + apply on_miss_ok. intros Hmiss5. cbv beta.
      destruct (Z.eqb_spec (max_evicted_seq_ (dbs (st i))) (max_evicted_seq_ (dbs (st (6 + i))))) as [EM6|_]; cbn [negb]; [|apply IH].
      destruct (missed_evicted (4 + i) (5 + i) ltac:(lia)) as (c & Hc & Hle); [|done|].
      { intros Hp%uncommitted_delayed; [done|apply trace_inv|lia]. }
      pose proof (trace_max (5 + i) (6 + i) ltac:(lia)). pose proof (trace_max i (7 + i) ltac:(lia)).
      right. rewrite <- EM6. apply (TAIL _ _ c); [|lia|done].
      by apply (ex_evicted _ _ (trace_ext (5 + i) (7 + i) ltac:(lia))).
Qed.

(** Undisturbed, the loop runs once. *)
Lemma loop_undisturbed n i : (forall j, max_evicted_seq_ (dbs (st j)) = max_evicted_seq_ (dbs (st 0))) ->
  in_snapshot_loop (S n) loads i p s <> Throw.
Proof.
  intros HM. cbn [in_snapshot_loop]. unfold on_miss, in_snapshot_tail.
  assert (HE : forall j k, negb (max_evicted_seq_ (dbs (st j)) =? max_evicted_seq_ (dbs (st k))) = false)
    by (intros j k; by rewrite (HM j), (HM k), Z.eqb_refl).
  rewrite !HE. repeat case_match; done.
Qed.
End reader.

(** A read that takes the shortcut of [min] rightly and whose last part is right. *)
Lemma read_ok (st : nat -> world) (p s min : Z) : inv (st 0%nat) -> (forall i, rtc step (st i) (st (S i))) ->
  s <= published (st 0%nat) -> known (st 0%nat) p -> (p < min -> p <= s -> visible (st 0%nat) p s = true) ->
  (p <= s -> tail_right st p s) ->
  let r := IsInSnapshot (fun i => dbs (st i)) p s min in
  (r = Throw \/ r = Ret (visible (st 0%nat) p s) false) /\
  ((forall i, max_evicted_seq_ (dbs (st i)) = max_evicted_seq_ (dbs (st 0%nat))) -> r <> Throw).
Proof.
  intros I0 HST Hs HK HM HT. unfold IsInSnapshot.
  pose proof (prep_pos st p I0 HK) as Hpos. rewrite (proj2 (Z.eqb_neq p 0)) by lia.
  destruct (Z.ltb_spec s p) as [Hlt|Hge].
  { split; [|done]. right. f_equal. unfold visible. destruct (committed (st 0%nat) !! p) as [c|] eqn:E; [|done].
    destruct (i_comm _ I0 p c E). symmetry. apply Z.leb_gt. lia. }
  destruct (Z.ltb_spec p min) as [Hmin|Hmin]; [split; [right; by rewrite HM|done]|].
  split; [apply (loop_ok st p s I0); try done; by apply HT|]. intros HE. by apply (loop_undisturbed st p s).
Qed.

Lemma live_tail (st : nat -> world) (p s min : Z) : inv (st 0%nat) -> (forall i, rtc step (st i) (st (S i))) ->
  (forall i, (s, min) ∈ live (st i)) -> known (st 0%nat) p ->
  s <= published (st 0%nat) /\ (p <= s -> tail_right st p s) /\ (p < min -> p <= s -> visible (st 0%nat) p s = true).
Proof.
  intros I0 HST HL HK. destruct (i_live _ I0 s min (HL 0%nat)) as [Hs _]. split_and!; [lia| |].
  - intros Hp. apply (tail_live st p s I0) with min; (done || lia).
  - intros Hmin Hp. destruct (i_min _ I0 s min (HL 0%nat)) as [_ Hall]. destruct (Hall p Hmin) as [Hnp Hc].
    destruct HK as [|[c Hc']]; [done|]. unfold visible. rewrite Hc'. apply Z.leb_le. by apply Hc.
Qed.

(** C1: whatever operations ran before, and whatever operations run
    between the loads of [IsInSnapshot], for a live snapshot with the smallest
    uncommitted number recorded in it and a value whose prepare number was given
    out before the read, the answer is that the value is visible if and only if
    it is committed with a commit number up to the snapshot, and the snapshot is
    not reported as released; the only other outcome is the exception after 99
    interruptions, which cannot happen when the largest evicted number does not
    move. *)
Theorem is_in_snapshot_correct (st : nat -> world) (p s min : Z) :
  rtc step initial (st 0%nat) -> (forall i, rtc step (st i) (st (S i))) ->
  (forall i, (s, min) ∈ live (st i)) -> known (st 0%nat) p ->
  let r := IsInSnapshot (fun i => dbs (st i)) p s min in
  (r = Throw \/ r = Ret (visible (st 0%nat) p s) false) /\
  ((forall i, max_evicted_seq_ (dbs (st i)) = max_evicted_seq_ (dbs (st 0%nat))) -> r <> Throw).
Proof.
  intros R0 HST HL HK. pose proof (proj1 (steps_inv _ _ R0 inv_initial)) as I0.
  destruct (live_tail st p s min I0 HST HL HK) as (Hs & HT & HM). by apply read_ok.
Qed.

(** C20: a read at a published sequence number that is not backed by a
    snapshot is right as long as [ValidateSnapshot] accepts the number: the
    answer is then exact and no release is reported. *)
Theorem unbacked_read_correct (st : nat -> world) (p s min : Z) :
  rtc step initial (st 0%nat) -> (forall i, rtc step (st i) (st (S i))) -> known (st 0%nat) p ->
  s = published (st 0%nat) -> 0 < s -> min_ok (st 0%nat) min ->
  (forall i, ValidateSnapshot s kUnbackedByDBSnapshot (dbs (st i)) = true) ->
  let r := IsInSnapshot (fun i => dbs (st i)) p s min in
  r = Throw \/ r = Ret (visible (st 0%nat) p s) false.
Proof.
  intros R0 HST HK Hs Hs0 [Hm1 Hm2] HV. pose proof (proj1 (steps_inv _ _ R0 inv_initial)) as I0.
  assert (HM : forall i, max_evicted_seq_ (dbs (st i)) < s).
  { intros i. specialize (HV i). unfold ValidateSnapshot in HV. rewrite (proj2 (Z.eqb_neq s 0)) in HV by lia.
    rewrite andb_true_r in HV. apply negb_true_iff, Z.leb_gt in HV. done. }
  apply read_ok; [done|done|lia|done| |].
  - intros Hmin Hp. unfold visible. destruct HK as [Hp'|[c Hc]].
    + destruct (i_prep _ I0 p Hp') as (_ & _ & Hl%Hm2). lia.
    + rewrite Hc. apply Z.leb_le. destruct (Z.le_gt_cases c s) as [|Hcs]; [done|].
      pose proof (Hm2 p (i_unlisted _ I0 p c Hc ltac:(lia))). lia.
  - intros Hp. apply (tail_recent st p s I0); (done || lia).
Qed.

Lemma set_min_spec (X : gset Z) : (forall x, x ∈ X -> set_min X <= x) /\ (set_min X = kMaxSequenceNumber \/ set_min X ∈ X).
Proof.
  unfold set_min. assert (HE : forall l : list Z, (forall x, x ∈ l -> foldr Z.min kMaxSequenceNumber l <= x) /\
    (foldr Z.min kMaxSequenceNumber l = kMaxSequenceNumber \/ foldr Z.min kMaxSequenceNumber l ∈ l)).
  { induction l as [|y l [I1 I2]]; simpl; [split; [intros x Hx; by apply elem_of_nil in Hx|by left]|]. split.
    - intros x [->|Hx]%elem_of_cons; [lia|]. specialize (I1 x Hx). lia.
    - destruct (Z.min_spec y (foldr Z.min kMaxSequenceNumber l)) as [[_ ->]|[_ ->]]; [right; left|].
      destruct I2; [by left|right; by right]. }
  destruct (HE (elements X)) as [H1' H2']. split.
  - intros x Hx. by apply H1', elem_of_elements.
  - destruct H2' as [|Hin]; [by left|]. right. by apply elem_of_elements.
Qed.

Lemma smallest_min_ok w : inv w -> min_ok w (SmallestUnCommittedSeq (view w) (dbs w)).
Proof.
  intros I. pose proof (i_db w I) as O. destruct (i_range w I) as (R1 & R2 & R3). unfold SmallestUnCommittedSeq.
  rewrite (ok_delayed _ O). destruct (decide (delayed_prepared_ (dbs w) = ∅)) as [E|E].
  - rewrite bool_decide_true by done. cbn [negb andb view GetLatestSequenceNumber].
    pose proof seq_limit. rewrite u64_small by lia.
    change (_ =? _) with (PreparedHeap.empty (prepared_txns_ (dbs w))). rewrite (empty_ok _ (ok_heap _ O)), (top_ok _ (ok_heap _ O)).
    pose proof (members_sorted _ (ok_heap _ O)) as Hs. unfold min_ok, listed. rewrite E.
    destruct (members _) as [|x l].
    + rewrite bool_decide_true by done. split; [lia|]. intros p [Hp|Hp]; [by apply elem_of_nil in Hp|set_solver].
    + rewrite bool_decide_false by done. split; [lia|]. intros p [Hp|Hp]; [|set_solver].
      apply StronglySorted_inv in Hs as [_ Hx]. rewrite Forall_forall in Hx.
      apply elem_of_cons in Hp as [->|Hp]; [lia|]. specialize (Hx p Hp). lia.
  - rewrite bool_decide_false by done. cbn [negb andb].
    destruct (set_min_spec (delayed_prepared_ (dbs w))) as [S1 S2].
    apply set_choose_L in E as [y Hy]. pose proof (ok_delayed_max _ O y Hy). pose proof (S1 y Hy).
    pose proof (i_listed w I y ltac:(by right)). split; [lia|].
    intros p [Hp|Hp]; [|by apply S1]. pose proof (ok_members _ O p Hp). lia.
Qed.

(** C21: in every reachable state the number [SmallestUnCommittedSeq]
    returns is a lower bound of every number that is prepared and not committed,
    of every number still listed as prepared, and of the numbers given out later. *)
Theorem smallest_uncommitted_bound (w : world) : rtc step initial w ->
  let min := SmallestUnCommittedSeq (view w) (dbs w) in
  min <= alloc w + 1 /\ (forall p, listed w p -> min <= p) /\ (forall p, p ∈ prepared w -> min <= p).
Proof.
  intros R. pose proof (proj1 (steps_inv _ _ R inv_initial)) as I. destruct (smallest_min_ok w I) as [H1' H2'].
  split_and!; [done|done|]. intros p Hp. apply H2'. by apply (i_prep w I p Hp).
Qed.

Lemma AddCommitted_None w p c : inv w -> 0 <= p <= c -> c < kMaxSequenceNumber ->
  AddCommitted (view w) p c (dbs w) = None <-> 2 ^ (8 + COMMIT_CACHE_BITS) <= c - p + 1.
Proof.
  intros I Hp Hc. pose proof seq_limit.
  destruct (AddCommitted_run w p c I) as (d1 & _ & _ & ->). pose proof (new_eq _ commit_bits p c) as HN.
  destruct (CommitEntry64b.new p c FORMAT) as [nw|] eqn:EN.
  - pose proof (new_Some _ commit_bits p c nw ltac:(lia) ltac:(lia) EN). split; [done|lia].
  - split; [|done]. intros _. destruct (Z.le_gt_cases (2 ^ (8 + COMMIT_CACHE_BITS)) (c - p + 1)) as [|Hlt]; [done|].
    unfold FORMAT in EN. rewrite HN in EN by lia. done.
Qed.

(** C25: in every reachable state [AddCommitted] finishes without
    running into its retry limit: it fails exactly when the commit number is too
    far from the prepare number for a cache entry. *)
Theorem add_committed_total (w : world) (p c : Z) : rtc step initial w -> 0 <= p <= c -> c < kMaxSequenceNumber ->
  AddCommitted (view w) p c (dbs w) = None <-> 2 ^ (8 + COMMIT_CACHE_BITS) <= c - p + 1.
Proof. intros R. apply AddCommitted_None, (steps_inv _ _ R), inv_initial. Qed.
End machine.

(** ** A concrete database *)

Module Example.
#[local] Instance limit : SeqLimit := {| kMaxSequenceNumber := 2 ^ 56 - 1 |}.
#[local] Instance options : WpOptions := {| SNAPSHOT_CACHE_BITS := 1; COMMIT_CACHE_BITS := 1 |}.
#[local] Instance lists : SnapshotLists := {| snapshots_GetAll l n := merge_sort Z.le (filter (fun x => x <= n) l) |}.
#[local] Instance lists_laws : SnapshotListsLaws.
Proof.
  split; cbn.
  - intros l n. apply (StronglySorted_merge_sort Z.le).
  - intros l n x. rewrite merge_sort_Permutation, list_elem_of_filter. tauto.
Qed.
#[local] Instance limits : WpLimits.
Proof. split; cbn; lia. Qed.

(** Transaction 1 is prepared and committed as 2, a snapshot is taken, and the
    commit of 3 as 4 evicts its entry. *)
Definition w1 : world := World (AddPrepared 1 new) 0 0 1 ∅ ({[1]} ∪ ∅) [].
Definition d2 : WritePreparedTxnDB.t := default new (AddCommitted (view w1) 1 2 (dbs w1)).
Definition w2 : world := World d2 2 0 2 (<[1 := 2]> ∅) (({[1]} ∪ ∅) ∖ {[1]}) [(2, 1)].
Definition w3 : world := World (AddPrepared 3 d2) 2 0 3 (<[1 := 2]> ∅) ({[3]} ∪ (({[1]} ∪ ∅) ∖ {[1]})) [(2, 1)].
Definition d4 : WritePreparedTxnDB.t := default new (AddCommitted (view w3) 3 4 (dbs w3)).
Definition w4 : world :=
  World d4 2 0 4 (<[3 := 4]> (<[1 := 2]> ∅)) (({[3]} ∪ (({[1]} ∪ ∅) ∖ {[1]})) ∖ {[3]}) [(2, 1)].

Definition w2' : world := World d2 2 0 2 (<[1 := 2]> ∅) (({[1]} ∪ ∅) ∖ {[1]}) [].

Lemma run_w2' : rtc step initial w2'.
Proof.
  apply rtc_l with w1; [apply (step_prepare new 0 0 0 ∅ ∅ [] 1); cbn; lia|].
  apply rtc_l with (World d2 0 0 2 (<[1 := 2]> ∅) (({[1]} ∪ ∅) ∖ {[1]}) []).
  { apply (step_commit (AddPrepared 1 new) d2 0 0 1 ∅ ({[1]} ∪ ∅) [] 1 2); cbn; try lia.
    - left. set_solver.
    - vm_compute. reflexivity. }
  apply rtc_once, step_publish; [lia|]. intros p c. rewrite lookup_insert_Some, lookup_empty. naive_solver lia.
Qed.

Lemma run_w4 : rtc step initial w4.
Proof.
  transitivity w2'; [apply run_w2'|]. apply rtc_l with w2.
  { apply step_snapshot; [right; vm_compute; reflexivity|].
    assert (E : SmallestUnCommittedSeq (view w2') (dbs w2') = 1) by (vm_compute; reflexivity). rewrite <- E.
    apply smallest_min_ok, (steps_inv _ _ run_w2'), inv_initial. }
  apply rtc_l with w3; [apply step_prepare; cbn; lia|].
  apply rtc_once. apply (step_commit (AddPrepared 3 d2) d4 2 0 3 (committed w3) (prepared w3) (live w3) 3 4); cbn; try lia.
  - left. set_solver.
  - vm_compute. reflexivity.
Qed.

Lemma is_in_snapshot_correct_witness :
  let r := IsInSnapshot (fun _ => dbs w4) 1 2 1 in
  (r = Throw \/ r = Ret (visible w4 1 2) false) /\
  ((forall i : nat, max_evicted_seq_ (dbs w4) = max_evicted_seq_ (dbs w4)) -> r <> Throw).
Proof.
  apply (is_in_snapshot_correct (fun _ => w4)).
  - apply run_w4.
  - intros i. apply rtc_refl.
  - intros i. left.
  - right. vm_compute. eexists. reflexivity.
Defined.

Lemma unbacked_read_correct_witness :
  let r := IsInSnapshot (fun _ => dbs w2') 1 2 1 in r = Throw \/ r = Ret (visible w2' 1 2) false.
Proof.
  apply (unbacked_read_correct (fun _ => w2')).
  - apply run_w2'.
  - intros i. apply rtc_refl.
  - right. vm_compute. eexists. reflexivity.
  - reflexivity.
  - lia.
  - assert (E : SmallestUnCommittedSeq (view w2') (dbs w2') = 1) by (vm_compute; reflexivity). rewrite <- E.
    apply smallest_min_ok, (steps_inv _ _ run_w2'), inv_initial.
  - intros i. vm_compute. reflexivity.
Defined.

Lemma smallest_uncommitted_bound_witness :
  let min := SmallestUnCommittedSeq (view w4) (dbs w4) in
  min <= alloc w4 + 1 /\ (forall p, listed w4 p -> min <= p) /\ (forall p, p ∈ prepared w4 -> min <= p).
Proof. apply smallest_uncommitted_bound, run_w4. Defined.

Lemma add_committed_total_witness :
  AddCommitted (view w4) 7 2000 (dbs w4) = None <-> 2 ^ (8 + 1) <= 2000 - 7 + 1.
Proof. apply (add_committed_total w4 7 2000 run_w4); cbn; lia. Defined.
End Example.
