(* ===== verification/WritePreparedCallbacks.v ===== *)
(** * The callbacks of WritePrepared transactions
    (utilities/transactions/write_prepared_txn_db.h, snapshot_checker.cc)

    What the write path runs before it releases a sequence number, as functions on
    the state of [WritePrepared]: [AddPreparedCallback],
    [WritePreparedCommitEntryPreReleaseCallback] and
    [WritePreparedRollbackPreReleaseCallback]; and the readers that ask
    [IsInSnapshot]: [WritePreparedTxnReadCallback] and
    [WritePreparedSnapshotChecker]. The theorems show that a commit callback is a
    run of the state machine of [WritePreparedProofs] that commits all batches of
    the transaction with one number. *)

From stdpp Require Import prelude gmap.
From Stdlib Require Import ZArith Lia Bool.
From S2P Require Import Prelude Status CommitCache PreparedHeap WritePrepared WritePreparedSpec WritePreparedProofs.
Import WritePreparedTxnDB.

Section callbacks.
Context `{SeqLimit} `{WpOptions}.

(** [for (size_t i = 0; i < cnt; i++) db_->AddPrepared(seq + i, kLocked)]. *)
Fixpoint add_prepared_range (seq : Z) (cnt : nat) (d : t) : t :=
  match cnt with
  | O => d
  | S n => add_prepared_range (u64 (seq + 1)) n (AddPrepared seq d)
  end.

(** [AddPreparedCallback::Callback]; with it, whether the log is marked as one that
    contains a prepare section. *)
Definition AddPreparedCallback (sub_batch_cnt_ : nat) (first_prepare_batch_ : bool) (prepare_seq : Z) (d : t) :
    Status * t * bool :=
  (St.OK, add_prepared_range prepare_seq sub_batch_cnt_ d, first_prepare_batch_).

(** [for (size_t i = 0; i < cnt; i++) db_->AddCommitted(seq + i, commit_seq)]. *)
Fixpoint add_committed_range (db : DbView) (seq : Z) (cnt : nat) (commit_seq : Z) (d : t) : option t :=
  match cnt with
  | O => Some d
  | S n =>
      match AddCommitted db seq commit_seq d with
      | Some d => add_committed_range db (u64 (seq + 1)) n commit_seq d
      | None => None
      end
  end.

Definition SetLastPublishedSequence (s : Z) (db : DbView) : DbView :=
  mkDb s (GetLatestSequenceNumber db) (GetAll db).

(** The members of [WritePreparedCommitEntryPreReleaseCallback]. *)
Record CommitCallback := mkCommitCallback {
  prep_seq_ : Z;
  prep_batch_cnt_ : nat;
  data_batch_cnt_ : nat;
  aux_seq_ : Z;
  aux_batch_cnt_ : nat;
}.
Definition includes_data_ (cb : CommitCallback) : bool := (0 <? data_batch_cnt_ cb)%nat.
Definition includes_aux_batch_ (cb : CommitCallback) : bool := (0 <? aux_batch_cnt_ cb)%nat.
Definition has_prepare (cb : CommitCallback) : bool := negb (prep_seq_ cb =? kMaxSequenceNumber).

Definition last_commit_seq (cb : CommitCallback) (commit_seq : Z) : Z :=
  if (data_batch_cnt_ cb <=? 1)%nat then commit_seq
  else u64 (u64 (commit_seq + Z.of_nat (data_batch_cnt_ cb)) - 1).

(** The three loops that record the commit. *)
Definition commit_batches (cb : CommitCallback) (commit_seq : Z) (db : DbView) (d : t) : option t :=
  let last := last_commit_seq cb commit_seq in
  d ← if has_prepare cb then add_committed_range db (prep_seq_ cb) (prep_batch_cnt_ cb) last d else Some d;
  d ← if includes_aux_batch_ cb then add_committed_range db (aux_seq_ cb) (aux_batch_cnt_ cb) last d else Some d;
  if includes_data_ cb then add_committed_range db commit_seq (data_batch_cnt_ cb) last d else Some d.

(** What follows the publishing: the batches leave the list of prepared ones. *)
Definition remove_batches (cb : CommitCallback) (d : t) : t :=
  let d := if has_prepare cb then RemovePrepared (prep_seq_ cb) (prep_batch_cnt_ cb) d else d in
  if includes_aux_batch_ cb then RemovePrepared (aux_seq_ cb) (aux_batch_cnt_ cb) d else d.

(** [Callback]: the status, the state and what the database answers afterwards;
    [None] if an [AddCommitted] throws. *)
Definition CommitEntryCallback (cb : CommitCallback) (two_write_queues : bool) (commit_seq : Z)
    (db : DbView) (d : t) : option (Status * t * DbView) :=
  d ← commit_batches cb commit_seq db d;
  if two_write_queues
  then Some (St.OK, remove_batches cb d, SetLastPublishedSequence (last_commit_seq cb commit_seq) db)
  else Some (St.OK, d, db).

(** [WritePreparedRollbackPreReleaseCallback::Callback]. *)
Definition RollbackCallback (prep_seq rollback_seq : Z) (prep_batch_cnt : nat) (commit_seq : Z)
    (db : DbView) (d : t) : option (Status * t * DbView) :=
  let last := commit_seq in
  d ← AddCommitted db rollback_seq last d;
  d ← add_committed_range db prep_seq prep_batch_cnt last d;
  Some (St.OK, d, SetLastPublishedSequence last db).

(** [WritePreparedTxnReadCallback], with the two members of its base class. *)
Record TxnReadCallback := mkReadCallback {
  max_visible_seq_ : Z;
  min_uncommitted_ : Z;
  backed_by_snapshot_ : SnapshotBackup;
  snap_released_ : bool;
  valid_checked_ : bool;
}.

Definition IsVisibleFullCheck (st : nat -> t) (seq : Z) (cb : TxnReadCallback) : option (bool * TxnReadCallback) :=
  match IsInSnapshot st seq (max_visible_seq_ cb) (min_uncommitted_ cb) with
  | Throw => None
  | Ret ret snap_released =>
      Some (ret, mkReadCallback (max_visible_seq_ cb) (min_uncommitted_ cb) (backed_by_snapshot_ cb)
                   (snap_released_ cb || snap_released) (valid_checked_ cb))
  end.

Definition valid (cb : TxnReadCallback) : bool * TxnReadCallback :=
  (eqb (snap_released_ cb) false,
   mkReadCallback (max_visible_seq_ cb) (min_uncommitted_ cb) (backed_by_snapshot_ cb) (snap_released_ cb) true).

(** [WritePreparedSnapshotChecker::CheckInSnapshot]. *)
Inductive SnapshotCheckerResult := kInSnapshot | kNotInSnapshot | kSnapshotReleased.

Definition CheckInSnapshot (st : nat -> t) (sequence snapshot_sequence : Z) : option SnapshotCheckerResult :=
  match IsInSnapshot st sequence snapshot_sequence kMinUnCommittedSeq with
  | Throw => None
  | Ret in_snapshot snapshot_released =>
      Some (if snapshot_released then kSnapshotReleased else if in_snapshot then kInSnapshot else kNotInSnapshot)
  end.
End callbacks.

(** ** Commits as runs of the state machine *)

Section runs.
Context `{SeqLimit} `{WpOptions} `{SnapshotLists} `{!SnapshotListsLaws} `{!WpLimits}.
Implicit Types w : world.

Definition within (seq : Z) (cnt : nat) (p : Z) : Prop := seq <= p < seq + Z.of_nat cnt.

(** [w'] is [w] after the numbers that satisfy [P] were committed as [c]. *)
Record commits (P : Z -> Prop) (c : Z) w w' : Prop := {
  cm_run : rtc step w w';
  cm_view : view w' = view w;
  cm_published : published w' = published w;
  cm_alloc : alloc w' = alloc w \/ alloc w' = Z.max (alloc w) c;
  cm_last p : P p -> c <= alloc w';
  cm_new p : P p -> committed w' !! p = Some c;
  cm_old p : ~ P p -> committed w' !! p = committed w !! p;
  cm_prepared p : ~ P p -> p ∈ prepared w -> p ∈ prepared w';
}.

Lemma commits_refl P c w : (forall p, ~ P p) -> commits P c w w.
Proof. intros HP. split; try done; [by left| |]; intros p Hp; by destruct (HP p). Qed.

Lemma commits_trans P1 P2 P c w1 w2 w3 : (forall p, P p <-> P1 p \/ P2 p) -> (forall p, Decision (P1 p)) ->
  (forall p, P1 p -> P2 p -> False) -> commits P1 c w1 w2 -> commits P2 c w2 w3 -> commits P c w1 w3.
Proof.
  intros HP HD Hd [A1 A2 A3 A4 A5 A6 A7 A8] [B1 B2 B3 B4 B5 B6 B7 B8]. split.
  - by transitivity w2.
  - congruence.
  - congruence.
  - lia.
  - intros p [Hp|Hp]%HP; [specialize (A5 p Hp); lia|by apply (B5 p)].
  - intros p [Hp|Hp]%HP; [|by apply B6]. rewrite B7; [by apply A6|]. intros Hp'. by apply (Hd p).
  - intros p Hp. rewrite B7, A7; [done| |]; intros Hp'; apply Hp, HP; tauto.
  - intros p Hp Hin. apply B8; [|apply A8; [|done]]; intros Hp'; apply Hp, HP; tauto.
Qed.

(** A number that can be committed as [c]. *)
Definition committable w (c p : Z) : Prop :=
  (p ∈ prepared w \/ published w < p /\ committed w !! p = None) /\ p <= c /\ c - p + 1 < 2 ^ (8 + COMMIT_CACHE_BITS).

Lemma commit_one w c p : inv w -> published w < c < kMaxSequenceNumber -> committable w c p -> exists w',
  AddCommitted (view w) p c (dbs w) = Some (dbs w') /\ commits (fun q => q = p) c w w'.
Proof.
  intros I Hc (Hnew & Hpc & Hnear). assert (Hp : 1 <= p).
  { destruct Hnew as [Hin|[? _]]; [by apply (i_prep w I p Hin)|]. destruct (i_range w I). lia. }
  destruct (AddCommitted (view w) p c (dbs w)) as [d'|] eqn:E.
  2: { apply AddCommitted_None in E; [lia|done|lia|lia]. }
  exists (World d' (published w) (latest w) (Z.max (alloc w) c) (<[p := c]> (committed w)) (prepared w ∖ {[p]}) (live w)).
  split; [done|]. split; simpl; try done.
  - apply rtc_once. destruct w as [d pub lat al com prep lv]. simpl in *. apply step_commit; try done; lia.
  - by right.
  - intros; lia.
  - intros q ->. apply lookup_insert_eq.
  - intros q Hq. by apply lookup_insert_ne.
  - set_solver.
Qed.

Lemma commits_inv P c w w' : inv w -> commits P c w w' -> inv w'.
Proof. intros I C. by apply (steps_inv _ _ (cm_run _ _ _ _ C)). Qed.

Lemma commits_committable P c w w' p : commits P c w w' -> ~ P p -> committable w c p -> committable w' c p.
Proof.
  intros C HP (Hn & Hr). split; [|done]. rewrite (cm_published _ _ _ _ C), (cm_old _ _ _ _ C p HP).
  destruct Hn as [Hin|]; [left; by apply (cm_prepared _ _ _ _ C)|by right].
Qed.

Lemma commit_range w c seq cnt : inv w -> published w < c < kMaxSequenceNumber ->
  (forall p, within seq cnt p -> committable w c p) -> exists w',
  add_committed_range (view w) seq cnt c (dbs w) = Some (dbs w') /\ commits (within seq cnt) c w w'.
Proof.
  pose proof seq_limit. revert w seq. induction cnt as [|n IH]; intros w seq I Hc Hall; cbn [add_committed_range].
  { exists w. split; [done|]. apply commits_refl. unfold within. lia. }
  assert (Hs : committable w c seq) by (apply Hall; unfold within; lia).
  destruct (commit_one w c seq I Hc Hs) as (w1 & -> & C1). rewrite <- (cm_view _ _ _ _ C1).
  assert (Hpos : 0 <= seq).
  { destruct Hs as [[Hin|[? _]] _]; [destruct (i_prep w I seq Hin); lia|destruct (i_range w I); lia]. }
  rewrite u64_small by (destruct Hs; lia).
  destruct (IH w1 (seq + 1)) as (w2 & E & C2).
  - by apply (commits_inv _ _ _ _ I C1).
  - by rewrite (cm_published _ _ _ _ C1).
  - intros p Hp. unfold within in *. apply (commits_committable _ _ _ _ _ C1); [lia|]. apply Hall. lia.
  - exists w2. split; [done|]. apply (commits_trans _ _ _ _ _ _ _) with (4 := C1) (5 := C2); unfold within; [lia| |lia].
    intros p. apply _.
Qed.

(** A loop that runs only under a condition. *)
Lemma commit_range_if (b : bool) w c seq cnt : inv w -> published w < c < kMaxSequenceNumber ->
  (forall p, b = true /\ within seq cnt p -> committable w c p) -> exists w',
  (if b then add_committed_range (view w) seq cnt c (dbs w) else Some (dbs w)) = Some (dbs w') /\
  commits (fun p => b = true /\ within seq cnt p) c w w'.
Proof.
  intros I Hc Hall. destruct b.
  - destruct (commit_range w c seq cnt I Hc) as (w' & E & [C1 C2 C3 C4 C5 C6 C7 C8]); [by auto|].
    exists w'. split; [done|]. split; try done; naive_solver.
  - exists w. split; [done|]. apply commits_refl. naive_solver.
Qed.

Definition prep_batch (cb : CommitCallback) (p : Z) : Prop := has_prepare cb = true /\ within (prep_seq_ cb) (prep_batch_cnt_ cb) p.
Definition aux_batch (cb : CommitCallback) (p : Z) : Prop := includes_aux_batch_ cb = true /\ within (aux_seq_ cb) (aux_batch_cnt_ cb) p.
Definition data_batch (cb : CommitCallback) (commit_seq p : Z) : Prop := includes_data_ cb = true /\ within commit_seq (data_batch_cnt_ cb) p.
Definition batches (cb : CommitCallback) (commit_seq p : Z) : Prop :=
  prep_batch cb p \/ aux_batch cb p \/ data_batch cb commit_seq p.

(** What the write path guarantees when it calls back: the prepared and the
    auxiliary batches are prepared and distinct, the callback commits something,
    the commit numbers are new, and no batch is too far from its commit. *)
Record callable w (cb : CommitCallback) (commit_seq : Z) : Prop := {
  cl_prep p : prep_batch cb p -> p ∈ prepared w;
  cl_aux p : aux_batch cb p -> p ∈ prepared w;
  cl_disjoint p : prep_batch cb p -> ~ aux_batch cb p;
  cl_some : exists p, batches cb commit_seq p;
  cl_new : alloc w < commit_seq;
  cl_limit : commit_seq + Z.of_nat (data_batch_cnt_ cb) < kMaxSequenceNumber;
  cl_near p : batches cb commit_seq p -> last_commit_seq cb commit_seq - p + 1 < 2 ^ (8 + COMMIT_CACHE_BITS);
}.

Lemma last_commit_eq w cb commit_seq : inv w -> callable w cb commit_seq ->
  last_commit_seq cb commit_seq = commit_seq + Z.max 1 (Z.of_nat (data_batch_cnt_ cb)) - 1.
Proof.
  intros I C. pose proof seq_limit. destruct (i_range w I). pose proof (cl_new _ _ _ C). pose proof (cl_limit _ _ _ C).
  unfold last_commit_seq. destruct (Nat.leb_spec (data_batch_cnt_ cb) 1); [lia|].
  rewrite (u64_small (commit_seq + _)) by lia. rewrite u64_small by lia. lia.
Qed.

Lemma commit_batches_run w cb commit_seq : inv w -> callable w cb commit_seq -> exists w',
  commit_batches cb commit_seq (view w) (dbs w) = Some (dbs w') /\
  commits (batches cb commit_seq) (last_commit_seq cb commit_seq) w w'.
Proof.
  intros I C. pose proof (last_commit_eq w cb commit_seq I C) as El. unfold commit_batches.
  destruct (i_range w I) as (R1 & R2 & R3). pose proof (cl_new _ _ _ C). pose proof (cl_limit _ _ _ C).
  set (last := last_commit_seq cb commit_seq) in *.
  assert (Hold : forall p, p ∈ prepared w -> p <= alloc w) by (intros p Hp; apply (i_prep w I p Hp)).
  assert (Hcan : forall p, batches cb commit_seq p -> committable w last p).
  { intros p Hp. split_and!; [| |by apply (cl_near _ _ _ C)]; destruct Hp as [Hp|[Hp|[_ Hp]]].
    - left. by apply (cl_prep _ _ _ C).
    - left. by apply (cl_aux _ _ _ C).
    - unfold within in Hp. right. split; [lia|]. destruct (committed w !! p) as [c|] eqn:Ec; [|done].
      destruct (i_comm w I p c Ec). lia.
    - pose proof (Hold p (cl_prep _ _ _ C p Hp)). lia.
    - pose proof (Hold p (cl_aux _ _ _ C p Hp)). lia.
    - unfold within in Hp. lia. }
  destruct (commit_range_if (has_prepare cb) w last (prep_seq_ cb) (prep_batch_cnt_ cb)) as (w1 & -> & C1);
    [done|lia|intros p Hp; apply Hcan; by left|]. fold (prep_batch cb) in C1. rewrite <- (cm_view _ _ _ _ C1). simpl.
  destruct (commit_range_if (includes_aux_batch_ cb) w1 last (aux_seq_ cb) (aux_batch_cnt_ cb)) as (w2 & -> & C2).
  { by apply (commits_inv _ _ _ _ I C1). }
  { rewrite (cm_published _ _ _ _ C1). lia. }
  { intros p Hp. apply (commits_committable _ _ _ _ _ C1); [|apply Hcan; by right; left]. intros Hp'. by apply (cl_disjoint _ _ _ C p). }
  fold (aux_batch cb) in C2. rewrite <- (cm_view _ _ _ _ C2). simpl.
  assert (C12 : commits (fun p => prep_batch cb p \/ aux_batch cb p) last w w2).
  { apply (commits_trans _ _ _ _ _ _ _) with (4 := C1) (5 := C2); [done|intros p; apply _|apply (cl_disjoint _ _ _ C)]. }
  assert (Hdata : forall p, data_batch cb commit_seq p -> ~ (prep_batch cb p \/ aux_batch cb p)).
  { intros p [_ Hp] [Hp'|Hp']; unfold within in Hp; [pose proof (Hold p (cl_prep _ _ _ C p Hp'))|pose proof (Hold p (cl_aux _ _ _ C p Hp'))]; lia. }
  destruct (commit_range_if (includes_data_ cb) w2 last commit_seq (data_batch_cnt_ cb)) as (w3 & -> & C3).
  { by apply (commits_inv _ _ _ _ I C12). }
  { rewrite (cm_published _ _ _ _ C12). lia. }
  { intros p Hp. apply (commits_committable _ _ _ _ _ C12); [by apply Hdata|]. apply Hcan. by right; right. }
  exists w3. split; [done|]. apply (commits_trans _ _ _ _ _ _ _) with (4 := C12) (5 := C3).
  - intros p. unfold batches, data_batch. tauto.
  - intros p. apply _.
  - intros p Hp Hp'. by apply (Hdata p).
Qed.

(** [RemovePrepared] of committed and published numbers. *)
Lemma remove_range w p n : inv w ->
  (forall x, within p n x -> exists c, committed w !! x = Some c /\ c <= published w) ->
  let w' := with_db w (RemovePrepared p n (dbs w)) in
  rtc step w w' /\ forall x, listed w' x <-> listed w x /\ ~ within p n x.
Proof.
  intros I Hall w'. split.
  { destruct w as [d pub lat al com prep lv]. apply rtc_once, step_remove. intros i Hi. apply Hall. unfold within. lia. }
  unfold w'. clear w'. pose proof seq_limit. revert p w I Hall.
  induction n as [|n IH]; intros p w I Hall x; cbn [RemovePrepared].
  { split; [intros Hx; split; [done|unfold within; lia]|by intros []]. }
  destruct (Hall p) as (c & Hp & Hpub); [unfold within; lia|]. destruct (inv_remove_one w p c I Hp Hpub) as [I1 _].
  destruct (i_comm w I p c Hp). destruct (i_range w I). rewrite u64_small by lia.
  destruct (remove_one_effect p (dbs w) (i_db w I)) as (_ & _ & E3 & E4 & _).
  specialize (IH (p + 1) _ I1). simpl in IH. change (with_db (with_db w ?d) ?d') with (with_db w d') in IH. rewrite IH.
  - assert (Hw : within p (S n) x <-> x = p \/ within (p + 1) n x) by (unfold within; lia).
    unfold listed. simpl. rewrite E3, E4. tauto.
  - intros y Hy. apply Hall. unfold within in *. lia.
Qed.

Lemma remove_range_if (b : bool) w p n : inv w ->
  (forall x, b = true /\ within p n x -> exists c, committed w !! x = Some c /\ c <= published w) ->
  let w' := with_db w (if b then RemovePrepared p n (dbs w) else dbs w) in
  rtc step w w' /\ forall x, listed w' x <-> listed w x /\ ~ (b = true /\ within p n x).
Proof.
  intros I Hall. destruct b.
  - destruct (remove_range w p n I) as [R HL]; [by auto|]. split; [done|]. intros x. rewrite HL. tauto.
  - assert (with_db w (dbs w) = w) as -> by (by destruct w). split; [done|]. intros x. naive_solver.
Qed.

(** [SetLastPublishedSequence] of a number just committed. *)
Definition published_at (c : Z) w : world :=
  World (dbs w) c (latest w) (alloc w) (committed w) (prepared w) (live w).

Lemma publish_run P c w w' q : inv w -> commits P c w w' -> P q -> alloc w < c -> rtc step w' (published_at c w').
Proof.
  intros I CM Hq Hc. pose proof (cm_last _ _ _ _ CM q Hq) as Hlast. pose proof (commits_inv _ _ _ _ I CM) as I'.
  destruct (i_range w I) as (R1 & _). pose proof (cm_alloc _ _ _ _ CM). pose proof (cm_published _ _ _ _ CM).
  apply rtc_once. unfold published_at. destruct w' as [d pub lat al com prep lv]. simpl in *. apply step_publish; [lia|].
  intros p c' Hp Hpc. destruct (i_comm _ I' p c' Hp). simpl in *. lia.
Qed.

(** C7: a commit callback invoked as the write path does succeeds and is a
    run of the state machine; it commits every prepared, auxiliary and data batch
    with one number, so a snapshot sees all of them or none, leaves every other
    number alone, and with two write queues publishes that number and takes the
    batches off the lists of prepared ones. *)
Theorem commit_callback_atomic (w : world) (cb : CommitCallback) (two_write_queues : bool) (commit_seq : Z) :
  rtc step initial w -> callable w cb commit_seq ->
  let last := last_commit_seq cb commit_seq in
  exists w', CommitEntryCallback cb two_write_queues commit_seq (view w) (dbs w) = Some (St.OK, dbs w', view w') /\
    rtc step w w' /\
    (forall p s, batches cb commit_seq p -> visible w' p s = (last <=? s)) /\
    (forall p, ~ batches cb commit_seq p -> committed w' !! p = committed w !! p) /\
    published w' = (if two_write_queues then last else published w) /\
    (two_write_queues = true -> forall p, prep_batch cb p \/ aux_batch cb p -> ~ listed w' p).
Proof.
  intros R C last. pose proof (proj1 (steps_inv _ _ R inv_initial)) as I.
  destruct (commit_batches_run w cb commit_seq I C) as (w1 & E & CM). pose proof (commits_inv _ _ _ _ I CM) as I1.
  unfold CommitEntryCallback. rewrite E. simpl. fold last in CM |- *.
  assert (Hvis : forall w' p s, committed w' = committed w1 -> batches cb commit_seq p -> visible w' p s = (last <=? s)).
  { intros w' p s Ec Hp. unfold visible. by rewrite Ec, (cm_new _ _ _ _ CM p Hp). }
  destruct two_write_queues.
  2: { exists w1. split_and!; [by rewrite (cm_view _ _ _ _ CM)|by apply CM|by auto|by apply CM|by apply CM|done]. }
  destruct (cl_some _ _ _ C) as [q Hq]. pose proof (last_commit_eq w cb commit_seq I C) as El. fold last in El.
  pose proof (cl_new _ _ _ C). set (w2 := published_at last w1).
  pose proof (publish_run _ last w w1 q I CM Hq ltac:(lia)) as S2. fold w2 in S2.
  pose proof (proj1 (steps_inv _ _ S2 I1)) as I2.
  assert (Hcom : forall p, batches cb commit_seq p -> exists c, committed w2 !! p = Some c /\ c <= published w2).
  { intros p Hp. exists last. split; [by apply CM|done]. }
  destruct (remove_range_if (has_prepare cb) w2 (prep_seq_ cb) (prep_batch_cnt_ cb) I2) as [S3 L3];
    [intros p Hp; apply Hcom; by left|].
  set (w3 := with_db w2 _) in S3, L3. pose proof (proj1 (steps_inv _ _ S3 I2)) as I3.
  destruct (remove_range_if (includes_aux_batch_ cb) w3 (aux_seq_ cb) (aux_batch_cnt_ cb) I3) as [S4 L4];
    [intros p Hp; apply Hcom; by right; left|].
  set (w4 := with_db w3 _) in S4, L4. exists w4. split_and!.
  - rewrite <- (cm_view _ _ _ _ CM). done.
  - transitivity w1; [apply CM|]. transitivity w2; [done|]. by transitivity w3.
  - intros p s Hp. by apply Hvis.
  - intros p Hp. apply (cm_old _ _ _ _ CM p Hp).
  - done.
  - intros _ p Hp [HL Hn]%L4. apply L3 in HL as [_ Hn']. unfold prep_batch, aux_batch in Hp. tauto.
Qed.

(** A rollback callback invoked as the write path does succeeds and is
    a run of the state machine: it commits the batches of the transaction and the
    batch that undoes them with one number and publishes it, so a snapshot sees
    all of them or none, and every other number is left alone. *)
Theorem rollback_callback_atomic (w : world) (prep_seq rollback_seq commit_seq : Z) (cnt : nat) :
  rtc step initial w -> alloc w < commit_seq < kMaxSequenceNumber ->
  (forall p, p = rollback_seq \/ within prep_seq cnt p -> p ∈ prepared w /\ commit_seq - p + 1 < 2 ^ (8 + COMMIT_CACHE_BITS)) ->
  ~ within prep_seq cnt rollback_seq ->
  exists w', RollbackCallback prep_seq rollback_seq cnt commit_seq (view w) (dbs w) = Some (St.OK, dbs w', view w') /\
    rtc step w w' /\ published w' = commit_seq /\
    (forall p s, p = rollback_seq \/ within prep_seq cnt p -> visible w' p s = (commit_seq <=? s)) /\
    (forall p, ~ (p = rollback_seq \/ within prep_seq cnt p) -> committed w' !! p = committed w !! p).
Proof.
  intros R Hc Hall Hd. pose proof (proj1 (steps_inv _ _ R inv_initial)) as I. destruct (i_range w I) as (R1 & _).
  assert (Hcan : forall p, p = rollback_seq \/ within prep_seq cnt p -> committable w commit_seq p).
  { intros p Hp. destruct (Hall p Hp) as [Hin Hn]. split_and!; [by left| |done]. destruct (i_prep w I p Hin). lia. }
  destruct (commit_one w commit_seq rollback_seq I ltac:(lia)) as (w1 & E1 & C1); [by apply Hcan; left|].
  destruct (commit_range w1 commit_seq prep_seq cnt) as (w2 & E2 & C2).
  { by apply (commits_inv _ _ _ _ I C1). }
  { rewrite (cm_published _ _ _ _ C1). lia. }
  { intros p Hp. apply (commits_committable _ _ _ _ _ C1); [by intros ->|]. apply Hcan. by right. }
  assert (CM : commits (fun p => p = rollback_seq \/ within prep_seq cnt p) commit_seq w w2).
  { apply (commits_trans _ _ _ _ _ _ _) with (4 := C1) (5 := C2); [done|intros p; apply _|by intros p ->]. }
  rewrite (cm_view _ _ _ _ C1) in E2. exists (published_at commit_seq w2). split_and!.
  - unfold RollbackCallback. rewrite E1. simpl. rewrite E2. simpl. rewrite <- (cm_view _ _ _ _ CM). done.
  - transitivity w2; [apply CM|]. apply (publish_run _ _ w w2 rollback_seq I CM); [by left|lia].
  - done.
  - intros p s Hp. unfold visible. simpl. by rewrite (cm_new _ _ _ _ CM p Hp).
  - intros p Hp. apply (cm_old _ _ _ _ CM p Hp).
Qed.

(** C26: for a live snapshot, whatever operations run in between, the snapshot
    checker of compactions and the read callback of transactions answer whether
    the value is committed up to the snapshot, and never report the snapshot as
    released, so a read that was valid stays valid; they throw only if the
    largest evicted number moves. *)
Theorem snapshot_readers_correct (st : nat -> world) (p s min : Z) (cb : TxnReadCallback) :
  rtc step initial (st 0%nat) -> (forall i, rtc step (st i) (st (S i))) ->
  (forall i, (s, min) ∈ live (st i)) -> known (st 0%nat) p -> max_visible_seq_ cb = s -> min_uncommitted_ cb = min ->
  let loads := fun i => dbs (st i) in
  let v := visible (st 0%nat) p s in
  let moves := ~ (forall i, max_evicted_seq_ (dbs (st i)) = max_evicted_seq_ (dbs (st 0%nat))) in
  (CheckInSnapshot loads p s = None /\ moves \/
   CheckInSnapshot loads p s = Some (if v then kInSnapshot else kNotInSnapshot)) /\
  (IsVisibleFullCheck loads p cb = None /\ moves \/
   exists cb', IsVisibleFullCheck loads p cb = Some (v, cb') /\ fst (valid cb') = fst (valid cb)).
Proof.
  intros R0 HST HL HK Es Em. pose proof (proj1 (steps_inv _ _ R0 inv_initial)) as I0. pose proof (prep_pos st p I0 HK).
  destruct (live_tail st p s min I0 HST HL HK) as (Hs & HT & HM).
  unfold CheckInSnapshot, IsVisibleFullCheck. rewrite Es, Em. split.
  - destruct (read_ok st p s kMinUnCommittedSeq I0 HST Hs HK) as [[E|E] HU]; [unfold kMinUnCommittedSeq; lia|done| |];
      rewrite E in HU |- *; [left; split; [done|by intros HE; apply HU]|by right].
  - destruct (read_ok st p s min I0 HST Hs HK HM HT) as [[E|E] HU]; rewrite E in HU |- *;
      [left; split; [done|by intros HE; apply HU]|].
    right. eexists. split; [reflexivity|]. simpl. by rewrite orb_false_r.
Qed.

Lemma prepare_range w seq cnt : inv w -> alloc w < seq -> seq + Z.of_nat cnt <= kMaxSequenceNumber -> exists w',
  add_prepared_range seq cnt (dbs w) = dbs w' /\ rtc step w w' /\ view w' = view w /\ committed w' = committed w /\
  (forall p, p ∈ prepared w' <-> within seq cnt p \/ p ∈ prepared w).
Proof.
  pose proof seq_limit. revert w seq. induction cnt as [|n IH]; intros w seq I Hs Hk; cbn [add_prepared_range].
  { exists w. split_and!; try done. intros p. unfold within. split; [by right|intros [|]; [lia|done]]. }
  set (w1 := World (AddPrepared seq (dbs w)) (published w) (latest w) seq (committed w) ({[seq]} ∪ prepared w) (live w)).
  assert (S1 : step w w1).
  { unfold w1. destruct w as [d pub lat al com prep lv]. simpl in *. apply step_prepare. lia. }
  destruct (i_range w I) as (R1 & _). rewrite u64_small by lia.
  destruct (IH w1 (seq + 1)) as (w' & E & S2 & V & C & P); [by apply (step_inv _ _ S1)|simpl; lia|lia|].
  exists w'. split_and!; [done|by eapply rtc_l|done|done|]. intros p. rewrite P. simpl. rewrite elem_of_union, elem_of_singleton.
  unfold within. split; [intros [|[->|]]|intros [|]]; try (by right); try (left; lia); [|by right; right].
  destruct (decide (p = seq)); [right; by left|left; lia].
Qed.

(** A prepare callback with new numbers is a run of the state machine that
    prepares exactly the numbers of the sub-batches; from then on
    [SmallestUnCommittedSeq] is not above any of them until they are committed. *)
Theorem prepare_callback_lists (w : world) (seq : Z) (cnt : nat) (first : bool) :
  rtc step initial w -> alloc w < seq -> seq + Z.of_nat cnt <= kMaxSequenceNumber ->
  exists w', AddPreparedCallback cnt first seq (dbs w) = (St.OK, dbs w', first) /\ rtc step w w' /\
    view w' = view w /\ committed w' = committed w /\
    (forall p, p ∈ prepared w' <-> within seq cnt p \/ p ∈ prepared w) /\
    (forall w2 p, rtc step w' w2 -> within seq cnt p -> committed w2 !! p = None -> SmallestUnCommittedSeq (view w2) (dbs w2) <= p).
Proof.
  intros R Hs Hk. pose proof (proj1 (steps_inv _ _ R inv_initial)) as I.
  destruct (prepare_range w seq cnt I Hs Hk) as (w' & E & S & V & C & P). exists w'. unfold AddPreparedCallback. rewrite E.
  split_and!; try done. intros w2 p S2 Hp Hc. pose proof (proj1 (steps_inv _ _ S I)) as I'.
  destruct (steps_inv _ _ S2 I') as [I2 X2]. destruct (known_mono w' w2 p X2) as [Hin|[c Hc']]; [left; apply P; by left| |congruence].
  apply (smallest_min_ok w2 I2), (i_prep w2 I2 p Hin).
Qed.
End runs.

(** ** A commit with a commit-time batch *)

Module CallbackExample.
#[local] Existing Instances Example.limit Example.options Example.lists Example.lists_laws Example.limits.

(** Transaction 1 commits together with two data batches, 2 and 3. *)
Definition cb : CommitCallback := mkCommitCallback 1 1 2 kMaxSequenceNumber 0.

Lemma run_w1 : rtc step initial Example.w1.
Proof. apply rtc_once, (step_prepare new 0 0 0 ∅ ∅ [] 1). cbn. lia. Qed.

Lemma callable_w1 : callable Example.w1 cb 2.
Proof.
  assert (Hp : forall p, prep_batch cb p -> p = 1) by (intros p [_ Hw]; unfold within in Hw; simpl in Hw; lia).
  assert (Ha : forall p, ~ aux_batch cb p) by (by intros p [Hw _]).
  split.
  - intros p ->%Hp. cbn. set_solver.
  - intros p Hw. by destruct (Ha p).
  - intros p _. apply Ha.
  - exists 1. left. split; [reflexivity|]. unfold within. simpl. lia.
  - cbn. lia.
  - cbn. lia.
  - assert (El : last_commit_seq cb 2 = 3) by reflexivity. rewrite El. cbn.
    intros p [->%Hp|[Hp'|[_ Hp']]]; [lia|by destruct (Ha p)|]. unfold within in Hp'. lia.
Qed.

Lemma commit_callback_atomic_witness : exists w',
  CommitEntryCallback cb true 2 (view Example.w1) (dbs Example.w1) = Some (St.OK, dbs w', view w') /\
  rtc step Example.w1 w' /\
  (forall p s, batches cb 2 p -> visible w' p s = (last_commit_seq cb 2 <=? s)) /\
  (forall p, ~ batches cb 2 p -> committed w' !! p = committed Example.w1 !! p) /\
  published w' = last_commit_seq cb 2 /\
  (true = true -> forall p, prep_batch cb p \/ aux_batch cb p -> ~ listed w' p).
Proof. apply (commit_callback_atomic Example.w1 cb true 2 run_w1 callable_w1). Defined.

Lemma snapshot_readers_correct_witness :
  let cb := mkReadCallback 2 1 kBackedByDBSnapshot false false in
  let loads := fun _ : nat => dbs Example.w4 in
  let v := visible Example.w4 1 2 in
  let moves := ~ (forall _ : nat, max_evicted_seq_ (dbs Example.w4) = max_evicted_seq_ (dbs Example.w4)) in
  (CheckInSnapshot loads 1 2 = None /\ moves \/
   CheckInSnapshot loads 1 2 = Some (if v then kInSnapshot else kNotInSnapshot)) /\
  (IsVisibleFullCheck loads 1 cb = None /\ moves \/
   exists cb', IsVisibleFullCheck loads 1 cb = Some (v, cb') /\ fst (valid cb') = fst (valid cb)).
Proof.
  intros cb. apply (snapshot_readers_correct (fun _ => Example.w4) 1 2 1 cb).
  - apply Example.run_w4.
  - intros i. apply rtc_refl.
  - intros i. left.
  - right. vm_compute. eexists. reflexivity.
  - reflexivity.
  - reflexivity.
Defined.

(** Transaction 1 is rolled back by the batch 2. *)
Definition w12 : world := World (AddPrepared 2 (dbs Example.w1)) 0 0 2 ∅ ({[2]} ∪ ({[1]} ∪ ∅)) [].

Lemma run_w12 : rtc step initial w12.
Proof. apply rtc_r with Example.w1; [apply run_w1|]. apply step_prepare. cbn. lia. Qed.

Lemma rollback_callback_atomic_witness : exists w',
  RollbackCallback 1 2 1 3 (view w12) (dbs w12) = Some (St.OK, dbs w', view w') /\
  rtc step w12 w' /\ published w' = 3 /\
  (forall p s, p = 2 \/ within 1 1 p -> visible w' p s = (3 <=? s)) /\
  (forall p, ~ (p = 2 \/ within 1 1 p) -> committed w' !! p = committed w12 !! p).
Proof.
  apply (rollback_callback_atomic w12 1 2 3 1 run_w12).
  - cbn. lia.
  - intros p Hp. assert (p = 1 \/ p = 2) as [-> | ->] by (unfold within in Hp; lia); (split; [cbn; set_solver|cbn; lia]).
  - unfold within. lia.
Defined.

Lemma prepare_callback_lists_witness : exists w',
  AddPreparedCallback 3 true 2 (dbs Example.w1) = (St.OK, dbs w', true) /\ rtc step Example.w1 w' /\
  view w' = view Example.w1 /\ committed w' = committed Example.w1 /\
  (forall p, p ∈ prepared w' <-> within 2 3 p \/ p ∈ prepared Example.w1) /\
  (forall w2 p, rtc step w' w2 -> within 2 3 p -> committed w2 !! p = None -> SmallestUnCommittedSeq (view w2) (dbs w2) <= p).
Proof. apply (prepare_callback_lists Example.w1 2 3 true run_w1); cbn; lia. Defined.
End CallbackExample.
