(* ===== verification/StateMonad.v ===== *)
(** * Stateful code that may be undefined

    [M S A]: code with state [S] and result [A]; [None] stands for undefined
    behaviour (a null or dangling pointer, an uninitialised read) or an exception.
    It is used through stdpp's notation for monads. [wp m Q s] says that [m] is
    defined from [s] and ends in a state and with a result that satisfy [Q]. *)

From stdpp Require Import prelude.
From S2P Require Import Prelude.

Definition M (S A : Type) : Type := S -> option (A * S).

#[global] Instance M_ret S : MRet (M S) := fun A a s => Some (a, s).
#[global] Instance M_bind S : MBind (M S) := fun A B f m s =>
  match m s with Some (a, s') => f a s' | None => None end.

Definition undefined {S A} : M S A := fun _ => None.
Definition gets {S A} (f : S -> A) : M S A := fun s => Some (f s, s).
Definition modify {S} (f : S -> S) : M S unit := fun s => Some (tt, f s).
Definition of_option {S A} (o : option A) : M S A := fun s => match o with Some a => Some (a, s) | None => None end.
(** [if (b) m]. *)
Definition when {S} (b : bool) (m : M S unit) : M S unit := if b then m else mret tt.

(** [for (auto x : l) f(x)]. *)
Fixpoint for_each {S A} (f : A -> M S unit) (l : list A) : M S unit :=
  match l with
  | [] => mret tt
  | x :: l => f x ;; for_each f l
  end.

Definition wp {S A} (m : M S A) (Q : A -> S -> Prop) (s : S) : Prop :=
  match m s with Some (a, s') => Q a s' | None => False end.

Section wp.
Context {S : Type}.
Implicit Types s : S.

Lemma wp_ret {A} (a : A) Q s : Q a s -> wp (mret a) Q s.
Proof. done. Qed.
Lemma wp_bind {A B} (m : M S A) (f : A -> M S B) Q s : wp m (fun a => wp (f a) Q) s -> wp (m ≫= f) Q s.
Proof. unfold wp, mbind, M_bind. by destruct (m s) as [[a s']|]. Qed.
Lemma wp_unbind {A B} (m : M S A) (f : A -> M S B) Q s : wp (m ≫= f) Q s -> wp m (fun a => wp (f a) Q) s.
Proof. unfold wp, mbind, M_bind. by destruct (m s) as [[a s']|]. Qed.
Lemma wp_mono {A} (m : M S A) (Q R : A -> S -> Prop) s : wp m Q s -> (forall a s', Q a s' -> R a s') -> wp m R s.
Proof. unfold wp. destruct (m s) as [[a s']|]; [|done]. auto. Qed.
Lemma wp_gets {A} (f : S -> A) Q s : Q (f s) s -> wp (gets f) Q s.
Proof. done. Qed.
Lemma wp_modify (f : S -> S) Q s : Q tt (f s) -> wp (modify f) Q s.
Proof. done. Qed.
Lemma wp_of_option {A} (o : option A) a Q s : o = Some a -> Q a s -> wp (of_option o) Q s.
Proof. by intros ->. Qed.
Lemma wp_when (b : bool) m Q s : (b = true -> wp m Q s) -> (b = false -> Q tt s) -> wp (when b m) Q s.
Proof. intros Ht Hf. destruct b; [by apply Ht|by apply Hf]. Qed.
Lemma wp_run {A} (m : M S A) Q s : wp m Q s -> exists a s', m s = Some (a, s') /\ Q a s'.
Proof. unfold wp. destruct (m s) as [[a s']|]; [|done]. eauto. Qed.

(** A loop that keeps a predicate which may speak of the elements still to come. *)
Lemma wp_for_each {A} (f : A -> M S unit) (I : list A -> S -> Prop) l s : I l s ->
  (forall x l s, I (x :: l) s -> wp (f x) (fun _ => I l) s) -> wp (for_each f l) (fun _ => I []) s.
Proof.
  intros H0 HI. revert s H0. induction l as [|x l IH]; intros s H0; [done|]. simpl. apply wp_bind.
  eapply wp_mono; [by apply HI|]. intros [] s'. apply IH.
Qed.
End wp.

(** Steps through a sequence of primitive operations. *)
Ltac wp_step :=
  lazymatch goal with
  | |- wp (mret _) _ _ => apply wp_ret
  | |- wp (gets _) _ _ => apply wp_gets
  | |- wp (modify _) _ _ => apply wp_modify
  | |- wp (mbind _ _) _ _ => apply wp_bind
  end; cbv beta.
Ltac wp_steps := repeat wp_step.
