(* ===== verification/SkipList.v ===== *)
(** * The skip list (memtable/skiplist.h)

    Nodes are identifiers in a heap; a link that was not written yet is
    uninitialised, and [None] is undefined behaviour (a dangling pointer, a level a node
    does not have, an uninitialised link). There is one writer at a time; readers run beside
    it. A reader therefore takes a state for each of its loads: [st i] is the
    memory at its [i]-th load, and a reader that runs alone is the case of a
    constant [st]. Loads and stores are sequentially consistent. *)

From stdpp Require Import prelude gmap.
From Stdlib Require Import ZArith Lia.
From S2P Require Import Prelude StateMonad.

(** What the list needs of its comparator. *)
Class KeyOrder {K} (compare_ : K -> K -> Z) : Prop := {
  compare_antisym a b : compare_ a b < 0 <-> 0 < compare_ b a;
  compare_trans a b c : compare_ a b < 0 -> compare_ b c < 0 -> compare_ a c < 0;
  compare_eq_l a b c : compare_ a b = 0 -> compare_ a c < 0 -> compare_ b c < 0;
  compare_eq_r a b c : compare_ a b = 0 -> compare_ c a < 0 -> compare_ c b < 0;
}.

Module SkipList.
Section skiplist.
Context {K : Type} (compare_ : K -> K -> Z).

(** A pointer; [None] is null. *)
Definition ptr : Type := option nat.
Record Node := mkNode { key : K; next_ : list (option ptr) }.

Record t := mk {
  nodes : gmap nat Node;
  fresh : nat;
  max_height_ : nat;
  prev_ : list nat;
  prev_height_ : nat;
}.

Definition head_ : nat := 0.

(** [x->Next(n)]. *)
Definition Next (s : t) (x n : nat) : option ptr := nd ← nodes s !! x; mjoin (next_ nd !! n).
Definition key_of (s : t) (x : nat) : option K := key <$> nodes s !! x.

(** [compare_(n->key, key) < 0], false for null. *)
Definition KeyIsAfterNode (s : t) (k : K) (n : ptr) : option bool :=
  match n with
  | None => Some false
  | Some x => kx ← key_of s x; Some (compare_ kx k <? 0)
  end.

(** ** Readers *)

(** How the node found compares to the key; null, and a node known to be bigger, are not compared. *)
Definition compare_next (s : t) (k : K) (next last_bigger : ptr) : option Z :=
  if decide (next = None \/ next = last_bigger) then Some 1
  else n ← next; kn ← key_of s n; Some (compare_ kn k).

(** Keys do not change, so a node's key is read in the state of the load that found the node. *)
Fixpoint FindGreaterOrEqual_loop (fuel : nat) (st : nat -> t) (i : nat) (k : K) (x level : nat) (last_bigger : ptr)
    : option (ptr * nat) :=
  match fuel with
  | O => None
  | S fuel =>
      next ← Next (st i) x level;
      cmp ← compare_next (st i) k next last_bigger;
      if decide (cmp = 0 \/ (0 < cmp /\ level = 0%nat)) then Some (next, i)
      else if decide (cmp < 0) then n ← next; FindGreaterOrEqual_loop fuel st (S i) k n level last_bigger
      else FindGreaterOrEqual_loop fuel st (S i) k x (level - 1) next
  end.
(** The node, and the number of the last load. *)
Definition FindGreaterOrEqual (fuel : nat) (st : nat -> t) (k : K) : option (ptr * nat) :=
  FindGreaterOrEqual_loop fuel st 1 k head_ (max_height_ (st 0%nat) - 1) None.

(** Whether the key is after the node found; a node known to be past the key is not compared. *)
Definition after_next (s : t) (k : K) (next last_not_after : ptr) : option bool :=
  if decide (next = last_not_after) then Some false else KeyIsAfterNode s k next.

(** [prev] is written at each level the search leaves. *)
Fixpoint FindLessThan_loop (fuel : nat) (st : nat -> t) (i : nat) (k : K) (x level : nat) (last_not_after : ptr)
    (prev : list nat) : option (nat * list nat * nat) :=
  match fuel with
  | O => None
  | S fuel =>
      next ← Next (st i) x level;
      after ← after_next (st i) k next last_not_after;
      if (after : bool) then n ← next; FindLessThan_loop fuel st (S i) k n level last_not_after prev
      else
        let prev := <[level := x]> prev in
        if decide (level = 0%nat) then Some (x, prev, i)
        else FindLessThan_loop fuel st (S i) k x (level - 1) next prev
  end.
Definition FindLessThan (fuel : nat) (st : nat -> t) (k : K) (prev : list nat) : option (nat * list nat * nat) :=
  FindLessThan_loop fuel st 1 k head_ (max_height_ (st 0%nat) - 1) None prev.

Fixpoint FindLast_loop (fuel : nat) (st : nat -> t) (i x level : nat) : option (nat * nat) :=
  match fuel with
  | O => None
  | S fuel =>
      next ← Next (st i) x level;
      match next with
      | None => if decide (level = 0%nat) then Some (x, i) else FindLast_loop fuel st (S i) x (level - 1)
      | Some n => FindLast_loop fuel st (S i) n level
      end
  end.
Definition FindLast (fuel : nat) (st : nat -> t) : option (nat * nat) :=
  FindLast_loop fuel st 1 head_ (max_height_ (st 0%nat) - 1).

Definition Contains (fuel : nat) (st : nat -> t) (k : K) : option bool :=
  r ← FindGreaterOrEqual fuel st k;
  match r with
  | (None, _) => Some false
  | (Some x, i) => kx ← key_of (st i) x; Some (bool_decide (compare_ k kx = 0))
  end.

Fixpoint EstimateCount_loop (fuel : nat) (kBranching_ : Z) (st : nat -> t) (i : nat) (k : K) (x level : nat) (count : Z) : option Z :=
  match fuel with
  | O => None
  | S fuel =>
      next ← Next (st i) x level;
      stop ← match next with None => Some true | Some n => kn ← key_of (st i) n; Some (0 <=? compare_ kn k) end;
      if (stop : bool) then
        if decide (level = 0%nat) then Some count
        else EstimateCount_loop fuel kBranching_ st (S i) k x (level - 1) (u64 (count * kBranching_))
      else n ← next; EstimateCount_loop fuel kBranching_ st (S i) k n level (u64 (count + 1))
  end.
Definition EstimateCount (fuel : nat) (kBranching_ : Z) (st : nat -> t) (k : K) : option Z :=
  EstimateCount_loop fuel kBranching_ st 1 k head_ (max_height_ (st 0%nat) - 1) 0.

(** ** The writer *)

(** [head_] has every level, all of them null. Its key, of which any will do, is [k0]. *)
Definition new (k0 : K) (kMaxHeight_ : nat) : t :=
  mk {[ head_ := mkNode k0 (replicate kMaxHeight_ (Some None)) ]} 1 1 (replicate kMaxHeight_ head_) 1.

(** [rnd i] is the [i]-th number drawn. *)
Fixpoint RandomHeight_loop (fuel : nat) (kScaledInverseBranching_ : Z) (rnd : nat -> Z) (kMaxHeight_ height : nat) : nat :=
  match fuel with
  | O => height
  | S fuel =>
      if decide (height < kMaxHeight_)%nat then
        if rnd (height - 1)%nat <? kScaledInverseBranching_ then
          RandomHeight_loop fuel kScaledInverseBranching_ rnd kMaxHeight_ (S height)
        else height
      else height
  end.
Definition RandomHeight (kScaledInverseBranching_ : Z) (rnd : nat -> Z) (kMaxHeight_ : nat) : nat :=
  RandomHeight_loop kMaxHeight_ kScaledInverseBranching_ rnd kMaxHeight_ 1.

Definition set_prev (p : list nat) (h : nat) (s : t) : t := mk (nodes s) (fresh s) (max_height_ s) p h.
Definition set_max_height (h : nat) (s : t) : t := mk (nodes s) (fresh s) h (prev_ s) (prev_height_ s).
Definition set_nodes (m : gmap nat Node) (f : nat) (s : t) : t := mk m f (max_height_ s) (prev_ s) (prev_height_ s).

(** [NewNode]: the links are not initialised. *)
Definition NewNode (x : nat) (k : K) (height : nat) : M t unit :=
  modify (fun s => set_nodes (<[x := mkNode k (replicate height None)]> (nodes s)) (S x) s).
(** [x->SetNext(n, p)]. *)
Definition SetNext (x n : nat) (p : ptr) : M t unit :=
  nd ← gets (fun s => nodes s !! x);
  nd ← of_option nd;
  (if decide (n < length (next_ nd))%nat then
     modify (fun s => set_nodes (<[x := mkNode (key nd) (<[n := Some p]> (next_ nd))]> (nodes s)) (fresh s) s)
   else undefined).

(** Whether the key belongs just after the node inserted last. *)
Definition sequential (k : K) (s : t) : option bool :=
  p ← prev_ s !! 0%nat;
  n ← Next s p 0;
  a ← KeyIsAfterNode s k n;
  if (a : bool) then Some false
  else if decide (p = head_) then Some true else KeyIsAfterNode s k (Some p).

(** Enough for any search of the writer: there are fewer nodes than identifiers in use. *)
Definition search_fuel (s : t) : nat := fresh s + max_height_ s.

(** The stores of [Insert], in order; between two of them a reader may load. First [prev_] becomes the predecessors
    of the key. *)
Definition find_prev (k : K) : M t unit :=
  b ← gets (sequential k);
  b ← of_option b;
  if (b : bool) then
    modify (fun s => set_prev (imap (fun i p => if decide (1 <= i < prev_height_ s)%nat then prev_ s !!! 0%nat else p) (prev_ s)) (prev_height_ s) s)
  else
    r ← gets (fun s => FindLessThan (search_fuel s) (fun _ => s) k (prev_ s));
    r ← of_option r;
    modify (fun s => set_prev r.1.2 (prev_height_ s) s).
(** The levels above the list start at the head. *)
Definition raise_prev (height : nat) : M t unit :=
  modify (fun s => set_prev (imap (fun i p => if decide (max_height_ s <= i < height)%nat then head_ else p) (prev_ s)) (prev_height_ s) s).
Definition raise_height (height : nat) : M t unit :=
  h ← gets max_height_;
  when (bool_decide (h < height)%nat) (modify (set_max_height height)).
(** The new node is given its successor at a level, and then published there. *)
Definition init_level (x i : nat) : M t unit :=
  p ← gets (fun s => prev_ s !! i);
  p ← of_option p;
  n ← gets (fun s => Next s p i);
  n ← of_option n;
  SetNext x i n.
Definition publish_level (x i : nat) : M t unit :=
  p ← gets (fun s => prev_ s !! i);
  p ← of_option p;
  SetNext p i (Some x).
Definition finish_insert (x height : nat) : M t unit :=
  modify (fun s => set_prev (<[0%nat := x]> (prev_ s)) height s).

Definition link_levels (x : nat) (levels : list nat) : list (M t unit) :=
  flat_map (fun i => [init_level x i; publish_level x i]) levels.
Definition insert_commands (k : K) (height x : nat) : list (M t unit) :=
  [find_prev k; raise_prev height; raise_height height; NewNode x k height] ++
  link_levels x (seq 0 height) ++ [finish_insert x height].

Definition Insert (kScaledInverseBranching_ : Z) (rnd : nat -> Z) (kMaxHeight_ : nat) (k : K) : M t unit :=
  x ← gets fresh;
  for_each id (insert_commands k (RandomHeight kScaledInverseBranching_ rnd kMaxHeight_) x).
End skiplist.
Arguments t : clear implicits.
Arguments Node : clear implicits.

(** [SkipList::Iterator]; each operation is given the memory its loads see. *)
Module Iterator.
Section iterator.
Context {K : Type} (compare_ : K -> K -> Z).
Implicit Types (st : nat -> t K).

Definition Valid (node_ : ptr) : bool := bool_decide (is_Some node_).
Definition key (s : t K) node_ : option K := n ← node_; key_of s n.
Definition Next st (node_ : ptr) : option ptr := n ← node_; SkipList.Next (st 0%nat) n 0.
Definition Prev (fuel : nat) st node_ : option ptr :=
  n ← node_; k ← key_of (st 0%nat) n;
  r ← FindLessThan compare_ fuel st k [];
  Some (if decide (r.1.1 = head_) then None else Some r.1.1).
Definition Seek (fuel : nat) st (target : K) : option ptr :=
  r ← FindGreaterOrEqual compare_ fuel st target; Some r.1.
Definition SeekToFirst st : option ptr := SkipList.Next (st 0%nat) head_ 0.
Definition SeekToLast (fuel : nat) st : option ptr :=
  r ← FindLast fuel st; Some (if decide (r.1 = head_) then None else Some r.1).
(** The loop of [SeekForPrev]; it runs alone. *)
Fixpoint SeekForPrev_loop (rounds fuel : nat) (s : t K) (target : K) (node_ : ptr) : option ptr :=
  match rounds with
  | O => None
  | S rounds =>
      match node_ with
      | None => Some None
      | Some n =>
          kn ← key_of s n;
          if compare_ target kn <? 0 then node_ ← Prev fuel (fun _ => s) node_; SeekForPrev_loop rounds fuel s target node_
          else Some node_
      end
  end.
Definition SeekForPrev (rounds fuel : nat) (s : t K) (target : K) : option ptr :=
  node_ ← Seek fuel (fun _ => s) target;
  node_ ← (if Valid node_ then Some node_ else SeekToLast fuel (fun _ => s));
  SeekForPrev_loop rounds fuel s target node_.
End iterator.
End Iterator.
End SkipList.
