(* ===== verification/SkipListProofs.v ===== *)
(** * The skip list is a sorted list, also under concurrent reads

    [wf]: the nodes in order, and how many levels of each are linked. Each store of
    [Insert] keeps it and lets the list only grow, so that a search whose loads
    are spread over any part of any number of insertions answers for the list as it
    is at its last load. *)

From stdpp Require Import prelude gmap sorting.
From Stdlib Require Import ZArith Lia.
From S2P Require Import Prelude StateMonad SkipList.
Import SkipList.

Lemma NoDup_split_unique (a a' : list nat) x b b' : a ++ x :: b = a' ++ x :: b' -> NoDup (a ++ x :: b) -> a = a' /\ b = b'.
Proof.
  revert a'. induction a as [|y a IH]; intros [|z a'] E Hnd; cbn in *.
  - by injection E as ->.
  - injection E as -> ->. apply NoDup_cons in Hnd as [Hnd _]. set_solver.
  - injection E as -> E. apply NoDup_cons in Hnd as [Hnd _]. set_solver.
  - injection E as -> E. apply NoDup_cons in Hnd as [_ Hnd]. destruct (IH a' E Hnd) as [-> ->]. done.
Qed.
Lemma sublist_mem (l l' : list nat) x : sublist l l' -> x ∈ l -> x ∈ l'.
Proof. induction 1; set_solver. Qed.

Section proofs.
Context {K : Type} (compare_ : K -> K -> Z) `{!KeyOrder compare_} (kMaxHeight_ : nat).
Implicit Types (s : t K) (l pre suf : list nat) (lh : nat -> nat) (k : K).

Lemma compare_neg_pos a b : 0 < compare_ a b <-> compare_ b a < 0.
Proof. symmetry. apply compare_antisym. Qed.

(** The first node of [suf] that is linked above level [i]. *)
Definition first_above lh (i : nat) suf : ptr := head (filter (fun y => i < lh y)%nat suf).

(** Keys against a key, and against each other. *)
Definition key_lt s k (x : nat) : Prop := exists kx, key_of s x = Some kx /\ compare_ kx k < 0.
Definition key_ge s k (x : nat) : Prop := exists kx, key_of s x = Some kx /\ 0 <= compare_ kx k.
Definition node_lt s (x y : nat) : Prop := exists ky, key_of s y = Some ky /\ key_lt s ky x.

(** Links, for nodes linked up to [lh]. *)
Definition links s l lh : Prop := forall pre x suf i, head_ :: l = pre ++ x :: suf -> (i < lh x)%nat ->
  Next s x i = Some (first_above lh i suf).

Record shape s l lh : Prop := {
  wf_links : links s l lh;
  wf_head : lh head_ = kMaxHeight_;
  wf_nodes x : x ∈ head_ :: l -> exists nd, nodes s !! x = Some nd /\ (lh x <= length (next_ nd))%nat;
  wf_height x : x ∈ l -> (lh x <= max_height_ s)%nat;
  wf_nodup : NoDup (head_ :: l);
  wf_sorted : StronglySorted (node_lt s) l;
  wf_max : (1 <= max_height_ s <= kMaxHeight_)%nat;
  wf_fresh x : is_Some (nodes s !! x) -> (x < fresh s)%nat;
}.
(** Every node of the list is linked on the lowest level. *)
Record wf s l lh : Prop := {
  wf_shape :> shape s l lh;
  wf_linked x : x ∈ l -> (1 <= lh x)%nat;
}.

(** The list where a key belongs. *)
Definition cut s l k l1 l2 : Prop := l = l1 ++ l2 /\ Forall (key_lt s k) l1 /\ Forall (key_ge s k) l2.

Lemma first_above_app lh i l1 l2 : Forall (fun y => lh y <= i)%nat l1 -> first_above lh i (l1 ++ l2) = first_above lh i l2.
Proof.
  unfold first_above. induction 1 as [|y l1 Hy Hl IH]; [done|]. cbn [app]. rewrite filter_cons_False by lia. done.
Qed.
Lemma first_above_split lh i suf n : first_above lh i suf = Some n -> exists a b,
  suf = a ++ n :: b /\ (i < lh n)%nat /\ Forall (fun y => lh y <= i)%nat a.
Proof.
  unfold first_above. induction suf as [|y suf IH]; [done|]. destruct (decide (i < lh y)%nat) as [Hy|Hy].
  - rewrite filter_cons_True by done. intros [= <-]. exists [], suf. by split_and!.
  - rewrite filter_cons_False by done. intros H. destruct (IH H) as (a & b & -> & Hn & Ha). exists (y :: a), b.
    split_and!; [done|done|]. constructor; [lia|done].
Qed.
Lemma first_above_none lh i suf : first_above lh i suf = None -> Forall (fun y => lh y <= i)%nat suf.
Proof.
  unfold first_above. induction suf as [|y suf IH]; [by constructor|]. destruct (decide (i < lh y)%nat) as [Hy|Hy].
  - by rewrite filter_cons_True.
  - rewrite filter_cons_False by done. intros H. constructor; [lia|by apply IH].
Qed.
Lemma first_above_0 s l lh pre x suf : wf s l lh -> head_ :: l = pre ++ x :: suf -> first_above lh 0 suf = head suf.
Proof.
  intros Hwf E. destruct suf as [|y suf]; [done|]. unfold first_above. rewrite filter_cons_True; [done|].
  enough (y ∈ l) as Hy by (pose proof (wf_linked _ _ _ Hwf y Hy); lia).
  destruct pre as [|z pre]; injection E as _ E; rewrite E; set_solver.
Qed.

(** ** Keys *)

Lemma wf_key s l lh x : wf s l lh -> x ∈ head_ :: l -> exists kx, key_of s x = Some kx.
Proof. intros Hwf Hx. destruct (wf_nodes _ _ _ Hwf x Hx) as (nd & E & _). exists (key nd). unfold key_of. by rewrite E. Qed.

Lemma key_lt_trans s k x y : node_lt s x y -> key_lt s k y -> key_lt s k x.
Proof.
  intros (ky & Ey & kx & Ex & H) (ky' & Ey' & H'). rewrite Ey in Ey'. injection Ey' as <-.
  exists kx. split; [done|]. by apply (compare_trans _ ky).
Qed.
Lemma key_ge_trans s k x y : node_lt s x y -> key_ge s k x -> key_ge s k y.
Proof.
  intros (ky & Ey & kx & Ex & H) (kx' & Ex' & H'). rewrite Ex in Ex'. injection Ex' as <-.
  exists ky. split; [done|]. destruct (Z.lt_ge_cases (compare_ ky k) 0) as [Hlt|]; [|done].
  pose proof (compare_trans _ _ _ H Hlt). lia.
Qed.
Lemma key_lt_ge s k x : key_lt s k x -> key_ge s k x -> False.
Proof. intros (kx & E & H) (kx' & E' & H'). rewrite E in E'. injection E' as <-. lia. Qed.

(** A sorted list is cut by any two neighbours around the key. *)
Lemma sorted_cut s k l1 l2 : StronglySorted (node_lt s) (l1 ++ l2) ->
  (forall x, last l1 = Some x -> key_lt s k x) -> (forall y, head l2 = Some y -> key_ge s k y) -> cut s (l1 ++ l2) k l1 l2.
Proof.
  intros HS H1 H2. split; [done|]. apply StronglySorted_app in HS as (_ & HS1 & HS2). split.
  - destruct l1 as [|x l1 _] using rev_ind; [constructor|]. specialize (H1 x (last_snoc _ _)).
    apply Forall_app. split; [|by constructor]. apply Forall_forall. intros y Hy.
    apply (key_lt_trans s k y x); [|done]. apply StronglySorted_app in HS1 as (HS1 & _ & _).
    apply HS1; [done|by apply list_elem_of_singleton].
  - destruct l2 as [|y l2]; [constructor|]. specialize (H2 y eq_refl). constructor; [done|].
    apply StronglySorted_inv in HS2 as [_ HS2]. eapply Forall_impl; [exact HS2|]. intros z Hz. by apply (key_ge_trans s k y z).
Qed.

Lemma key_cases s l lh k x : wf s l lh -> x ∈ head_ :: l -> key_lt s k x \/ key_ge s k x.
Proof.
  intros Hwf Hx. destruct (wf_key s l lh x Hwf Hx) as (kx & E).
  destruct (Z.lt_ge_cases (compare_ kx k) 0); [left|right]; by exists kx.
Qed.
Lemma cut_exists s l lh k : wf s l lh -> exists l1 l2, cut s l k l1 l2.
Proof.
  intros Hwf. pose proof (wf_sorted _ _ _ Hwf) as HS.
  assert (Hc : forall x, x ∈ l -> key_lt s k x \/ key_ge s k x) by (intros x Hx; eapply key_cases; [done|by right]).
  clear Hwf. induction l as [|x l IH]; [exists [], []; by split_and!|].
  apply StronglySorted_inv in HS as [HS Hx]. destruct (Hc x) as [Hlt|Hge]; [by left| |].
  - destruct IH as (l1 & l2 & E & H1 & H2); [done|intros y Hy; apply Hc; by right|].
    exists (x :: l1), l2. split_and!; [by rewrite E|by constructor|done].
  - exists [], (x :: l). split_and!; [done|done|]. constructor; [done|]. eapply Forall_impl; [exact Hx|].
    intros y Hy. by apply (key_ge_trans s k x y).
Qed.
Lemma cut_unique s l k l1 l2 l1' l2' : cut s l k l1 l2 -> cut s l k l1' l2' -> l1 = l1' /\ l2 = l2'.
Proof.
  intros (E & H1 & H2) (E' & H1' & H2'). subst l. revert l1' E' H1'. induction H1 as [|x l1 Hx _ IH]; intros l1' E' H1'.
  - destruct l1' as [|y l1']; [done|]. cbn in E'. subst l2. inversion H2; inversion H1'; subst. by destruct (key_lt_ge s k y).
  - destruct l1' as [|y l1'].
    + cbn in E'. subst l2'. inversion H2'; subst. by destruct (key_lt_ge s k x).
    + injection E' as <- E'. inversion H1'; subst. destruct (IH l1' E') as [-> ->]; done.
Qed.

(** The last node before the key that is linked above level [i]. *)
Definition is_pred lh (i : nat) l1 (y : nat) : Prop :=
  exists pre suf, head_ :: l1 = pre ++ y :: suf /\ (i < lh y)%nat /\ Forall (fun z => lh z <= i)%nat suf.

(** ** Growth *)

Record evolves s l lh s' l' lh' : Prop := {
  ev_sub : sublist l l';
  ev_lh x : x ∈ head_ :: l -> (lh x <= lh' x)%nat;
  ev_key x : x ∈ head_ :: l -> key_of s' x = key_of s x;
}.

Lemma evolves_refl s l lh : evolves s l lh s l lh.
Proof. by split. Qed.
Lemma evolves_elem s l lh s' l' lh' x : evolves s l lh s' l' lh' -> x ∈ head_ :: l -> x ∈ head_ :: l'.
Proof. intros [Hs _ _] [->|Hx]%elem_of_cons; [by left|right]. by apply (sublist_mem l). Qed.
Lemma evolves_trans s1 l1 h1 s2 l2 h2 s3 l3 h3 :
  evolves s1 l1 h1 s2 l2 h2 -> evolves s2 l2 h2 s3 l3 h3 -> evolves s1 l1 h1 s3 l3 h3.
Proof.
  intros H12 H23. pose proof H12 as [A1 A2 A3]. pose proof H23 as [B1 B2 B3]. split.
  - by etrans.
  - intros x Hx. pose proof (evolves_elem _ _ _ _ _ _ x H12 Hx). specialize (A2 x Hx). specialize (B2 x ltac:(done)). lia.
  - intros x Hx. pose proof (evolves_elem _ _ _ _ _ _ x H12 Hx). by rewrite B3, A3.
Qed.

(** A node's place can only move towards the end. *)
Lemma evolves_split s l lh s' l' lh' pre x suf : evolves s l lh s' l' lh' -> NoDup (head_ :: l') ->
  head_ :: l = pre ++ x :: suf -> exists pre' suf', head_ :: l' = pre' ++ x :: suf' /\ (length pre <= length pre')%nat.
Proof.
  intros [Hs _ _] Hnd E. assert (Hsub : sublist (pre ++ x :: suf) (head_ :: l')) by (rewrite <- E; by apply sublist_skip).
  apply sublist_app_l in Hsub as (k1 & k2 & E' & H1 & (k3 & k4 & -> & H2)%sublist_cons_l).
  exists (k1 ++ k3), k4. rewrite E', <- app_assoc. split; [done|]. rewrite length_app. apply sublist_length in H1. lia.
Qed.

Section trace.
(** The memory at each load, its nodes in order and how far they are linked. *)
Context (st : nat -> t K) (L : nat -> list nat) (H : nat -> nat -> nat) (N : nat).
Hypothesis trace_wf : forall i, wf (st i) (L i) (H i).
Hypothesis trace_ev : forall i, evolves (st i) (L i) (H i) (st (S i)) (L (S i)) (H (S i)).
Hypothesis trace_bound : forall i, (length (L i) <= N)%nat.

Lemma trace_split i pre x suf : head_ :: L i = pre ++ x :: suf ->
  exists pre' suf', head_ :: L (S i) = pre' ++ x :: suf' /\ (length pre <= length pre')%nat.
Proof. intros E. eapply evolves_split; [apply trace_ev|apply (trace_wf (S i))|done]. Qed.
Lemma trace_lt i k x : x ∈ head_ :: L i -> key_lt (st i) k x -> key_lt (st (S i)) k x.
Proof. intros Hx (kx & E & Hlt). exists kx. by rewrite (ev_key _ _ _ _ _ _ (trace_ev i)). Qed.
Lemma trace_ge i k x : x ∈ head_ :: L i -> key_ge (st i) k x -> key_ge (st (S i)) k x.
Proof. intros Hx (kx & E & Hlt). exists kx. by rewrite (ev_key _ _ _ _ _ _ (trace_ev i)). Qed.
Lemma trace_level i x level : x ∈ head_ :: L i -> (level < H i x)%nat -> (level < H (S i) x)%nat.
Proof. intros Hx Hl. pose proof (ev_lh _ _ _ _ _ _ (trace_ev i) x Hx). lia. Qed.
Lemma pre_bound i pre x suf : head_ :: L i = pre ++ x :: suf -> (length pre <= N)%nat.
Proof. intros E. apply (f_equal length) in E. rewrite length_app in E. cbn in E. specialize (trace_bound i). lia. Qed.

(** Where a search stands at its [i]-th load: at [x], which is before the key, on a level [x] is linked on; [not_after] is null
    or not before the key. *)
Record searching i k (x level : nat) (not_after : ptr) pre suf : Prop := {
  s_split : head_ :: L i = pre ++ x :: suf;
  s_level : (level < H i x)%nat;
  s_before : x = head_ \/ key_lt (st i) k x;
  s_after n : not_after = Some n -> n ∈ L i /\ key_ge (st i) k n;
}.

Lemma searching_elem i k x level na pre suf : searching i k x level na pre suf -> x ∈ head_ :: L i.
Proof. intros [E _ _ _]. rewrite E. set_solver. Qed.
Lemma suffix_elem i pre x suf y : head_ :: L i = pre ++ x :: suf -> y ∈ suf -> y ∈ L i.
Proof. intros E Hy. destruct pre as [|z pre]; injection E as _ E; rewrite E; set_solver. Qed.

(** The next load moves on along the level, or goes down. *)
Lemma searching_next i k x level na pre suf n a b : searching i k x level na pre suf -> suf = a ++ n :: b ->
  (level < H i n)%nat -> key_lt (st i) k n ->
  exists pre' suf', searching (S i) k n level na pre' suf' /\ (length pre < length pre')%nat.
Proof.
  intros [E Hl Hb Ha] -> Hn Hk. assert (E' : head_ :: L i = (pre ++ x :: a) ++ n :: b) by (rewrite E, <- app_assoc; done).
  assert (Hin : n ∈ head_ :: L i) by (rewrite E'; set_solver).
  destruct (trace_split i _ n b E') as (pre' & suf' & E'' & Hlen). rewrite length_app in Hlen. cbn in Hlen.
  exists pre', suf'. split; [|lia]. split; [done|by apply trace_level|right; by apply trace_lt|].
  intros m Hm. destruct (Ha m Hm) as [Hm1 Hm2].
  split; [by apply (sublist_mem (L i)); [apply (ev_sub _ _ _ _ _ _ (trace_ev i))|]|apply trace_ge; [by right|done]].
Qed.
Lemma searching_down i k x level na pre suf (next : ptr) : searching i k x level na pre suf -> level <> 0%nat ->
  (forall n, next = Some n -> n ∈ L i /\ key_ge (st i) k n) ->
  exists pre' suf', searching (S i) k x (level - 1) next pre' suf' /\ (length pre <= length pre')%nat.
Proof.
  intros HS Hl Hn. pose proof (searching_elem _ _ _ _ _ _ _ HS) as Hin. destruct HS as [E Hlv Hb _].
  destruct (trace_split i _ x suf E) as (pre' & suf' & E' & Hlen). exists pre', suf'. split; [|done].
  split; [done|pose proof (trace_level i x level Hin Hlv); lia|destruct Hb as [->|Hb]; [by left|right; by apply trace_lt]|].
  intros m Hm. destruct (Hn m Hm) as [Hm1 Hm2].
  split; [by apply (sublist_mem (L i)); [apply (ev_sub _ _ _ _ _ _ (trace_ev i))|]|apply trace_ge; [by right|done]].
Qed.

(** Everything up to [x] is before the key; if the rest is not, the list is cut there. *)
Lemma searching_cut i k x level na pre suf : searching i k x level na pre suf ->
  (forall y, head suf = Some y -> key_ge (st i) k y) ->
  exists l1, cut (st i) (L i) k l1 suf /\ head_ :: l1 = pre ++ [x].
Proof.
  intros [E Hl Hb _] Hs. destruct pre as [|z pre]; injection E as E0 E.
  - exists []. rewrite E, <- E0. split; [|done].
    pose proof (wf_sorted _ _ _ (trace_wf i)) as HS. rewrite E in HS. apply (sorted_cut (st i) k [] suf); done.
  - exists (pre ++ [x]). rewrite E0. split; [|done]. pose proof (wf_sorted _ _ _ (trace_wf i)) as HS. rewrite E in *.
    change (x :: suf) with ([x] ++ suf) in *. rewrite app_assoc in *. apply sorted_cut; [done| |done].
    intros y. rewrite last_snoc. intros [= <-]. destruct Hb as [->|Hb]; [|done].
    pose proof (wf_nodup _ _ _ (trace_wf i)) as Hnd. rewrite E in Hnd. apply NoDup_cons in Hnd as [Hnd _]. set_solver.
Qed.

(** What the load finds: null, or a node that is linked on the level, with nothing between. *)
Lemma searching_load i k x level na pre suf : searching i k x level na pre suf ->
  Next (st i) x level = Some (first_above (H i) level suf).
Proof. intros [E Hl _ _]. by apply (wf_links _ _ _ (trace_wf i) pre). Qed.
Lemma suffix_key i pre x suf n : head_ :: L i = pre ++ x :: suf -> n ∈ suf -> exists kn, key_of (st i) n = Some kn.
Proof. intros E Hn. eapply wf_key; [apply trace_wf|right]. by eapply suffix_elem. Qed.

(** On the lowest level the search ends where the list is cut. *)
Lemma searching_bottom i k x na pre suf : searching i k x 0 na pre suf ->
  (forall n, first_above (H i) 0 suf = Some n -> key_ge (st i) k n) ->
  exists l1 l2, cut (st i) (L i) k l1 l2 /\ first_above (H i) 0 suf = head l2 /\ last (head_ :: l1) = Some x.
Proof.
  intros HS Hn. pose proof (first_above_0 _ _ _ _ _ _ (trace_wf i) (s_split _ _ _ _ _ _ _ HS)) as E0. rewrite E0 in *.
  destruct (searching_cut i k x 0 na pre suf HS Hn) as (l1 & Hc & El). exists l1, suf. split_and!; [done|done|].
  by rewrite El, last_snoc.
Qed.

(** A node with an equal key is where the list is cut. *)
Lemma equal_cut i k n kn : n ∈ L i -> key_of (st i) n = Some kn -> compare_ kn k = 0 ->
  exists l1 l2, cut (st i) (L i) k l1 (n :: l2).
Proof.
  intros (l1 & l2 & E)%list_elem_of_split Ek H0. exists l1, l2.
  pose proof (wf_sorted _ _ _ (trace_wf i)) as HS. rewrite E in *. apply sorted_cut; [done| |].
  - intros x Hx. apply StronglySorted_app in HS as (HS & _ & _).
    destruct (HS x n) as (kn' & Ek' & kx & Ex & Hlt); [by apply last_Some_elem_of|by left|].
    rewrite Ek in Ek'. injection Ek' as <-. exists kx. split; [done|]. by apply (compare_eq_r kn).
  - intros y [= <-]. exists kn. split; [done|lia].
Qed.

(** What the comparison says of the node found. *)
Lemma compare_next_ok i k x level na pre suf : searching i k x level na pre suf ->
  let next := first_above (H i) level suf in
  exists cmp, compare_next compare_ (st i) k next na = Some cmp /\
    (cmp < 0 -> exists n a b, next = Some n /\ suf = a ++ n :: b /\ (level < H i n)%nat /\ key_lt (st i) k n) /\
    (cmp = 0 -> exists n l1 l2, next = Some n /\ cut (st i) (L i) k l1 (n :: l2)) /\
    (0 < cmp -> forall n, next = Some n -> n ∈ L i /\ key_ge (st i) k n).
Proof.
  intros HS next. subst next. unfold compare_next. destruct (first_above (H i) level suf) as [n|] eqn:En.
  - apply first_above_split in En as (a & b & Esuf & Hln & _).
    assert (Hns : n ∈ suf) by (rewrite Esuf; set_solver). pose proof (s_split _ _ _ _ _ _ _ HS) as E.
    destruct (suffix_key _ _ _ _ n E Hns) as (kn & Ekn). pose proof (suffix_elem _ _ _ _ _ E Hns) as HnL. case_decide as Hd.
    + exists 1. split_and!; [done|lia|lia|]. intros _ m [= <-]. destruct Hd as [?|<-]; [done|]. by apply (s_after _ _ _ _ _ _ _ HS).
    + cbn. rewrite Ekn. cbn. exists (compare_ kn k). split_and!; [done| | |].
      * intros Hlt. exists n, a, b. split_and!; [done..|by exists kn].
      * intros H0. destruct (equal_cut i k n kn HnL Ekn H0) as (l1 & l2 & Hcut). by exists n, l1, l2.
      * intros Hgt m [= <-]. split; [done|]. exists kn. split; [done|lia].
  - rewrite decide_True by (by left). exists 1. split_and!; [done|lia|lia|done].
Qed.

Lemma FindGreaterOrEqual_loop_ok k : forall fuel i x level na pre suf, searching i k x level na pre suf ->
  (N - length pre + level < fuel)%nat ->
  exists j l1 l2, FindGreaterOrEqual_loop compare_ fuel st i k x level na = Some (head l2, j) /\
    (i <= j)%nat /\ cut (st j) (L j) k l1 l2.
Proof.
  induction fuel as [|fuel IH]; intros i x level na pre suf HS Hf; [lia|]. cbn [FindGreaterOrEqual_loop].
  rewrite (searching_load _ _ _ _ _ _ _ HS). cbn [mbind option_bind].
  pose proof (pre_bound _ _ _ _ (s_split _ _ _ _ _ _ _ HS)) as Hpre.
  destruct (compare_next_ok _ _ _ _ _ _ _ HS) as (cmp & -> & Hneg & Hzero & Hpos). cbn [mbind option_bind].
  destruct (decide (cmp = 0 \/ 0 < cmp /\ level = 0%nat)) as [[Hc|[Hc ->]]|Hd].
  - destruct (Hzero Hc) as (n & l1 & l2 & -> & Hcut). exists i, l1, (n :: l2). by split_and!.
  - destruct (searching_bottom i k x na pre suf HS) as (l1 & l2 & Hcut & -> & _); [intros n Hn; by apply Hpos|].
    exists i, l1, l2. by split_and!.
  - case_decide as Hlt.
    + destruct (Hneg Hlt) as (n & a & b & -> & Esuf & Hln & Hk). cbn [mbind option_bind].
      destruct (searching_next i k x level na pre suf n a b HS Esuf Hln Hk) as (pre' & suf' & HS' & Hlen).
      destruct (IH (S i) n level na pre' suf' HS') as (j & l1 & l2 & -> & Hj & Hcut);
        [pose proof (pre_bound _ _ _ _ (s_split _ _ _ _ _ _ _ HS')); lia|].
      exists j, l1, l2. split_and!; [done|lia|done].
    + assert (Hl0 : level <> 0%nat) by (intros ->; apply Hd; right; lia).
      destruct (searching_down i k x level na pre suf _ HS Hl0 (Hpos ltac:(lia))) as (pre' & suf' & HS' & Hlen).
      destruct (IH (S i) x (level - 1)%nat _ pre' suf' HS') as (j & l1 & l2 & -> & Hj & Hcut); [lia|].
      exists j, l1, l2. split_and!; [done|lia|done].
Qed.

(** Searches start at the head, at the level the first load gave. *)
Lemma searching_start k : exists suf, searching 1 k head_ (max_height_ (st 0%nat) - 1) None [] suf.
Proof.
  exists (L 1%nat). split; [done| |by left|done]. rewrite (wf_head _ _ _ (trace_wf 1%nat)).
  pose proof (wf_max _ _ _ (trace_wf 0%nat)). lia.
Qed.

Lemma FindGreaterOrEqual_ok k fuel : (N + max_height_ (st 0%nat) <= fuel)%nat ->
  exists j l1 l2, FindGreaterOrEqual compare_ fuel st k = Some (head l2, j) /\ cut (st j) (L j) k l1 l2.
Proof.
  intros Hf. destruct (searching_start k) as (suf & HS). pose proof (wf_max _ _ _ (trace_wf 0%nat)).
  destruct (FindGreaterOrEqual_loop_ok k fuel _ _ _ _ _ _ HS) as (j & l1 & l2 & E & _ & Hcut); [cbn; lia|]. by exists j, l1, l2.
Qed.

Lemma after_next_ok i k x level na pre suf : searching i k x level na pre suf ->
  let next := first_above (H i) level suf in
  exists b, after_next compare_ (st i) k next na = Some b /\
    (b = true -> exists n a c, next = Some n /\ suf = a ++ n :: c /\ (level < H i n)%nat /\ key_lt (st i) k n) /\
    (b = false -> forall n, next = Some n -> n ∈ L i /\ key_ge (st i) k n).
Proof.
  intros HS next. subst next. unfold after_next. case_decide as Hd.
  - exists false. split_and!; [done|done|]. intros _ n Hn. apply (s_after _ _ _ _ _ _ _ HS). congruence.
  - destruct (first_above (H i) level suf) as [n|] eqn:En; [|by exists false].
    apply first_above_split in En as (a & c & Esuf & Hln & _).
    assert (Hns : n ∈ suf) by (rewrite Esuf; set_solver). pose proof (s_split _ _ _ _ _ _ _ HS) as E.
    destruct (suffix_key _ _ _ _ n E Hns) as (kn & Ekn). pose proof (suffix_elem _ _ _ _ _ E Hns) as HnL.
    cbn. rewrite Ekn. cbn. exists (compare_ kn k <? 0). split_and!; [done| |].
    + intros Hlt%Z.ltb_lt. exists n, a, c. split_and!; [done..|by exists kn].
    + intros Hge%Z.ltb_ge m [= <-]. split; [done|by exists kn].
Qed.

(** Leaving a level, the search stands at the predecessor there. *)
Lemma searching_pred i k x level na pre suf : searching i k x level na pre suf ->
  (forall n, first_above (H i) level suf = Some n -> key_ge (st i) k n) ->
  exists l1 l2, cut (st i) (L i) k l1 l2 /\ is_pred (H i) level l1 x.
Proof.
  intros HS Hn. pose proof HS as [E Hl Hb _]. destruct (cut_exists _ _ _ k (trace_wf i)) as (l1 & l2 & Hcut).
  exists l1, l2. split; [done|]. destruct Hcut as (EL & H1 & H2).
  assert (Hx : x ∈ head_ :: l1).
  { pose proof (searching_elem _ _ _ _ _ _ _ HS) as Hx. rewrite EL in Hx. destruct Hb as [->|Hb]; [by left|].
    apply elem_of_cons in Hx as [->|[Hx|Hx]%elem_of_app]; [by left|by right|]. rewrite Forall_forall in H2. by destruct (key_lt_ge _ _ _ Hb (H2 x Hx)). }
  apply list_elem_of_split in Hx as (pre' & s1 & E1). exists pre', s1. split_and!; [done|done|].
  assert (Esuf : suf = s1 ++ l2).
  { rewrite EL in E. change (head_ :: l1 ++ l2) with ((head_ :: l1) ++ l2) in E. rewrite E1, <- app_assoc in E. cbn in E.
    pose proof (wf_nodup _ _ _ (trace_wf i)) as Hnd. rewrite EL in Hnd. change (head_ :: l1 ++ l2) with ((head_ :: l1) ++ l2) in Hnd.
    rewrite E1, <- app_assoc in Hnd. by apply (NoDup_split_unique pre' pre x) in E as [_ ?]. }
  apply Forall_forall. intros z Hz. destruct (decide (H i z <= level)%nat) as [|Hgt]; [done|exfalso].
  destruct (first_above (H i) level s1) as [n|] eqn:En.
  - apply first_above_split in En as (a & c & Es & Hln & Ha).
    assert (Hk : key_ge (st i) k n). { apply Hn. rewrite Esuf, Es, <- app_assoc, first_above_app by done. cbn. unfold first_above. by rewrite filter_cons_True. }
    rewrite Forall_forall in H1. refine (key_lt_ge (st i) k n (H1 n _) Hk).
    assert (Hin : n ∈ s1) by (rewrite Es; set_solver). destruct pre' as [|w pre']; injection E1 as _ ->; set_solver.
  - apply first_above_none in En. rewrite Forall_forall in En. by specialize (En z Hz).
Qed.

(** Each level the search left has the predecessor of the moment it was left. *)
Definition preds_from k (level : nat) (prev prev' : list nat) : Prop :=
  length prev' = length prev /\
  (forall lv, (level < lv)%nat -> prev' !! lv = prev !! lv) /\
  (forall lv, (lv <= level)%nat -> (lv < length prev)%nat ->
     exists j y l1 l2, prev' !! lv = Some y /\ cut (st j) (L j) k l1 l2 /\ is_pred (H j) lv l1 y).

Lemma FindLessThan_loop_ok k : forall fuel i x level na pre suf prev, searching i k x level na pre suf ->
  (N - length pre + level < fuel)%nat ->
  exists j y prev' l1 l2, FindLessThan_loop compare_ fuel st i k x level na prev = Some (y, prev', j) /\
    cut (st j) (L j) k l1 l2 /\ last (head_ :: l1) = Some y /\ preds_from k level prev prev'.
Proof.
  induction fuel as [|fuel IH]; intros i x level na pre suf prev HS Hf; [lia|]. cbn [FindLessThan_loop].
  rewrite (searching_load _ _ _ _ _ _ _ HS). cbn [mbind option_bind].
  pose proof (pre_bound _ _ _ _ (s_split _ _ _ _ _ _ _ HS)) as Hpre.
  destruct (after_next_ok _ _ _ _ _ _ _ HS) as (b & -> & Ht & Hge). cbn [mbind option_bind]. destruct b.
  - destruct (Ht eq_refl) as (n & a & c & -> & Esuf & Hln & Hk). cbn [mbind option_bind].
    destruct (searching_next i k x level na pre suf n a c HS Esuf Hln Hk) as (pre' & suf' & HS' & Hlen).
    apply (IH (S i) n level na pre' suf' prev HS'). pose proof (pre_bound _ _ _ _ (s_split _ _ _ _ _ _ _ HS')). lia.
  - destruct (searching_pred i k x level na pre suf HS) as (p1 & p2 & Hpc & Hp); [intros n Hn; by apply Hge|].
    assert (Hlv : (level < length prev)%nat -> exists j y l1 l2, <[level := x]> prev !! level = Some y /\
      cut (st j) (L j) k l1 l2 /\ is_pred (H j) level l1 y).
    { intros Hl. exists i, x, p1, p2. by rewrite list_lookup_insert_eq. }
    case_decide as Hl0.
    + subst level. destruct (searching_bottom i k x na pre suf HS) as (l1 & l2 & Hcut & _ & Hx); [intros n Hn; by apply Hge|].
      exists i, x, (<[0%nat := x]> prev), l1, l2. do 3 (split; [done|]). split; [by rewrite length_insert|split].
      * intros lv Hl. by rewrite list_lookup_insert_ne by lia.
      * intros lv Hl. replace lv with 0%nat by lia. done.
    + destruct (searching_down i k x level na pre suf _ HS Hl0 (Hge eq_refl)) as (pre' & suf' & HS' & Hlen).
      destruct (IH (S i) x (level - 1)%nat _ pre' suf' (<[level := x]> prev) HS') as (j & y & prev' & l1 & l2 & -> & Hcut & Hy & Hp1 & Hp2 & Hp3);
        [lia|].
      rewrite length_insert in *. exists j, y, prev', l1, l2. do 3 (split; [done|]). split; [done|split].
      * intros lv Hl. rewrite Hp2 by lia. by rewrite list_lookup_insert_ne by lia.
      * intros lv Hl Hlen'. destruct (decide (lv = level)) as [->|Hne]; [rewrite Hp2 by lia; by apply Hlv|apply Hp3; lia].
Qed.

Lemma FindLessThan_ok k fuel prev : (N + max_height_ (st 0%nat) <= fuel)%nat ->
  exists j y prev' l1 l2, FindLessThan compare_ fuel st k prev = Some (y, prev', j) /\
    cut (st j) (L j) k l1 l2 /\ last (head_ :: l1) = Some y /\ preds_from k (max_height_ (st 0%nat) - 1) prev prev'.
Proof.
  intros Hf. destruct (searching_start k) as (suf & HS). pose proof (wf_max _ _ _ (trace_wf 0%nat)).
  apply (FindLessThan_loop_ok k fuel _ _ _ _ _ _ prev HS). cbn. lia.
Qed.

Lemma FindLast_loop_ok : forall fuel i x level pre suf, head_ :: L i = pre ++ x :: suf -> (level < H i x)%nat ->
  (N - length pre + level < fuel)%nat ->
  exists j y, FindLast_loop fuel st i x level = Some (y, j) /\ last (head_ :: L j) = Some y.
Proof.
  induction fuel as [|fuel IH]; intros i x level pre suf E Hl Hf; [lia|]. cbn [FindLast_loop].
  rewrite (wf_links _ _ _ (trace_wf i) pre x suf level E Hl). cbn [mbind option_bind].
  pose proof (pre_bound _ _ _ _ E) as Hpre.
  destruct (first_above (H i) level suf) as [n|] eqn:En.
  - apply first_above_split in En as (a & b & -> & Hln & _).
    assert (E' : head_ :: L i = (pre ++ x :: a) ++ n :: b) by (rewrite E, <- app_assoc; done).
    destruct (trace_split i _ n b E') as (pre' & suf' & E'' & Hlen). rewrite length_app in Hlen. cbn in Hlen.
    apply (IH (S i) n level pre' suf' E''); [apply trace_level; [rewrite E'; set_solver|done]|].
    pose proof (pre_bound _ _ _ _ E''). lia.
  - case_decide as Hl0.
    + subst level. rewrite (first_above_0 _ _ _ _ _ _ (trace_wf i) E) in En. apply head_None in En. subst suf.
      exists i, x. split; [done|]. by rewrite E, last_snoc.
    + destruct (trace_split i _ x suf E) as (pre' & suf' & E' & Hlen).
      apply (IH (S i) x (level - 1)%nat pre' suf' E'); [|lia].
      pose proof (trace_level i x level ltac:(rewrite E; set_solver) Hl). lia.
Qed.
Lemma FindLast_ok fuel : (N + max_height_ (st 0%nat) <= fuel)%nat ->
  exists j y, FindLast fuel st = Some (y, j) /\ last (head_ :: L j) = Some y.
Proof.
  intros Hf. pose proof (wf_max _ _ _ (trace_wf 0%nat)). apply (FindLast_loop_ok fuel 1 head_ _ [] (L 1%nat)); [done| |cbn; lia].
  rewrite (wf_head _ _ _ (trace_wf 1%nat)). lia.
Qed.
End trace.
End proofs.
