(* ===== verification/SkipListWriter.v ===== *)
(** * Insertion into the skip list, one store at a time

    The commands of [Insert] and what holds between any two of them: the memory
    is always a well-formed list for readers, each command is defined and only lets the list
    grow, and when the last one is done the key is in its place. *)

From stdpp Require Import prelude gmap sorting.
From Stdlib Require Import ZArith Lia.
From S2P Require Import Prelude StateMonad SkipList SkipListProofs.
Import SkipList.

(** ** Places in a list *)

Section lists.
Context {A : Type}.
Implicit Types (a b pre suf : list A).

Lemma split_app a b pre y suf : a ++ b = pre ++ y :: suf ->
  (exists c, a = pre ++ y :: c /\ suf = c ++ b) \/ (exists c, pre = a ++ c /\ b = c ++ y :: suf).
Proof.
  revert pre. induction a as [|z a IH]; intros pre E; [right; by exists pre|].
  destruct pre as [|w pre]; injection E as -> E.
  - left. exists a. by subst.
  - destruct (IH pre E) as [(c & -> & ->)|(c & -> & ->)]; [left|right]; by exists c.
Qed.
Lemma split_app_cons a x b pre y suf : a ++ x :: b = pre ++ y :: suf -> y <> x ->
  (exists c, a = pre ++ y :: c /\ suf = c ++ x :: b) \/ (exists c, pre = a ++ x :: c /\ b = c ++ y :: suf).
Proof.
  intros [(c & -> & ->)|([|w c] & -> & E)]%split_app Hne; [left; by exists c|by injection E as -> ->|].
  injection E as -> ->. right. by exists c.
Qed.
End lists.

Section writer.
Context {K : Type} (compare_ : K -> K -> Z) `{!KeyOrder compare_} (kMaxHeight_ : nat).
Implicit Types (s : t K) (l pre suf : list nat) (lh : nat -> nat) (k : K) (x height : nat).
Notation shape := (shape compare_ kMaxHeight_).
Notation wf := (wf compare_ kMaxHeight_).
Notation cut := (cut compare_).

Definition lh_set lh x (i : nat) : nat -> nat := fun y => if decide (y = x) then i else lh y.
Lemma lh_set_eq lh x i : lh_set lh x i x = i.
Proof. unfold lh_set. by rewrite decide_True. Qed.
Lemma lh_set_ne lh x i y : y <> x -> lh_set lh x i y = lh y.
Proof. intros H. unfold lh_set. by rewrite decide_False. Qed.

Lemma first_above_ext lh lh' i suf : (forall z, z ∈ suf -> (i < lh z)%nat <-> (i < lh' z)%nat) ->
  first_above lh i suf = first_above lh' i suf.
Proof.
  unfold first_above. induction suf as [|z suf IH]; intros H; [done|]. pose proof (H z ltac:(by left)) as Hz.
  destruct (decide (i < lh z)%nat) as [Hd|Hd].
  - rewrite !filter_cons_True by tauto. done.
  - rewrite !filter_cons_False by tauto. apply IH. intros y Hy. apply H. by right.
Qed.
(** A linked node hides what follows it. *)
Lemma first_above_stop lh i a p b : (i < lh p)%nat -> first_above lh i (a ++ p :: b) = first_above lh i (a ++ [p]).
Proof.
  intros Hp. unfold first_above. induction a as [|z a IH]; cbn [app]; [by rewrite !filter_cons_True|].
  destruct (decide (i < lh z)%nat) as [Hd|Hd]; [by rewrite !filter_cons_True|by rewrite !filter_cons_False].
Qed.
Lemma first_above_skip lh i a x b : (lh x <= i)%nat -> first_above lh i (a ++ x :: b) = first_above lh i (a ++ b).
Proof. intros H. unfold first_above. rewrite !filter_app, filter_cons_False by lia. done. Qed.

Lemma links_frame s s' l lh lh' : links s l lh -> (forall y, y ∈ head_ :: l -> lh y = lh' y) ->
  (forall y i, y ∈ head_ :: l -> (i < lh y)%nat -> Next s' y i = Next s y i) -> links s' l lh'.
Proof.
  intros HL Hlh HN pre y suf i E Hi. assert (Hy : y ∈ head_ :: l) by (rewrite E; set_solver).
  rewrite <- Hlh in Hi by done. rewrite HN, (HL pre y suf i E Hi) by done. f_equal. apply first_above_ext.
  intros z Hz. rewrite Hlh; [done|]. rewrite E. set_solver.
Qed.
(** A node that is not linked at all does not matter. *)
Lemma links_skip s l1 x l2 lh : lh x = 0%nat -> links s (l1 ++ x :: l2) lh <-> links s (l1 ++ l2) lh.
Proof.
  intros Hx. split; intros HL pre y suf i E Hi.
  - change (head_ :: l1 ++ l2) with ((head_ :: l1) ++ l2) in E. apply split_app in E as [(c & E & ->)|(c & -> & ->)].
    + rewrite <- (first_above_skip lh i c x l2) by lia. apply (HL pre); [|done].
      change (head_ :: l1 ++ x :: l2) with ((head_ :: l1) ++ x :: l2). rewrite E. by rewrite <- app_assoc.
    + apply (HL (head_ :: l1 ++ x :: c)); [|done]. cbn [app]. by rewrite <- !app_assoc.
  - change (head_ :: l1 ++ x :: l2) with ((head_ :: l1) ++ x :: l2) in E.
    apply split_app_cons in E as [(c & E & ->)|(c & -> & ->)]; [| |intros ->; lia].
    + rewrite first_above_skip by lia. apply (HL pre); [|done].
      change (head_ :: l1 ++ l2) with ((head_ :: l1) ++ l2). rewrite E. by rewrite <- app_assoc.
    + apply (HL (head_ :: l1 ++ c)); [|done]. cbn [app]. by rewrite <- !app_assoc.
Qed.

Lemma key_lt_frame s s' k y : key_of s' y = key_of s y -> key_lt compare_ s k y -> key_lt compare_ s' k y.
Proof. intros E (ky & Ey & H). exists ky. by rewrite E. Qed.
Lemma key_ge_frame s s' k y : key_of s' y = key_of s y -> key_ge compare_ s k y -> key_ge compare_ s' k y.
Proof. intros E (ky & Ey & H). exists ky. by rewrite E. Qed.
Lemma sorted_frame s s' l : (forall y, y ∈ l -> key_of s' y = key_of s y) ->
  StronglySorted (node_lt compare_ s) l -> StronglySorted (node_lt compare_ s') l.
Proof.
  intros Hk. induction l as [|y l IH]; [constructor|]. intros [HS Hy]%StronglySorted_inv. constructor.
  - apply IH; [|done]. intros z Hz. apply Hk. by right.
  - rewrite Forall_forall in *. intros z Hz. destruct (Hy z Hz) as (kz & Ez & Hlt). exists kz. rewrite Hk by (by right).
    split; [done|]. apply (key_lt_frame s); [apply Hk; by left|done].
Qed.

(** Taking out a node that is not linked. *)
Lemma shape_skip s l1 x l2 lh : shape s (l1 ++ x :: l2) lh -> lh x = 0%nat -> shape s (l1 ++ l2) lh.
Proof.
  intros [HL Hh Hn Hm Hnd HS Hmax Hf] Hx. assert (Hin : forall y, y ∈ l1 ++ l2 -> y ∈ l1 ++ x :: l2) by set_solver.
  split; [by apply (links_skip s l1 x)|done| | | | |done|done].
  - intros y [->|Hy]%elem_of_cons; apply Hn; [by left|right; by apply Hin].
  - intros y Hy. by apply Hm, Hin.
  - apply (NoDup_app (head_ :: l1)). apply (NoDup_app (head_ :: l1)) in Hnd as (A & B & C). apply NoDup_cons in C as [_ C].
    split_and!; [done| |done]. intros y Hy Hy2. apply (B y Hy). by right.
  - apply StronglySorted_app in HS as (A & B & C). apply StronglySorted_inv in C as [C _]. apply StronglySorted_app.
    split_and!; [|done|done]. intros y z Hy Hz. apply A; [done|by right].
Qed.

(** ** One store *)

Record stored s x (n : nat) (p : ptr) s' : Prop := {
  so_eq : Next s' x n = Some p;
  so_ne y i : (y, i) <> (x, n) -> Next s' y i = Next s y i;
  so_key y : key_of s' y = key_of s y;
  so_node y nd : nodes s !! y = Some nd -> exists nd', nodes s' !! y = Some nd' /\ length (next_ nd') = length (next_ nd);
  so_heap y : is_Some (nodes s' !! y) -> is_Some (nodes s !! y);
  so_max : max_height_ s' = max_height_ s;
  so_fresh : fresh s' = fresh s;
  so_prev : prev_ s' = prev_ s;
}.

Lemma wp_SetNext x n p Q s nd : nodes s !! x = Some nd -> (n < length (next_ nd))%nat ->
  (forall s', stored s x n p s' -> Q tt s') -> wp (SetNext x n p) Q s.
Proof.
  intros E Hn HQ. unfold SetNext. wp_steps. eapply wp_of_option; [exact E|]. rewrite decide_True by done. wp_step. apply HQ.
  split; try done; cbn.
  - unfold Next. cbn. rewrite lookup_insert_eq. cbn. by rewrite list_lookup_insert_eq.
  - intros y i Hne. unfold Next. cbn. destruct (decide (y = x)) as [->|]; [|by rewrite lookup_insert_ne].
    rewrite lookup_insert_eq, E. cbn. rewrite list_lookup_insert_ne; [done|]. congruence.
  - intros y. unfold key_of. cbn. destruct (decide (y = x)) as [->|]; [|by rewrite lookup_insert_ne].
    by rewrite lookup_insert_eq, E.
  - intros y nd' Hy. destruct (decide (y = x)) as [->|]; [|rewrite lookup_insert_ne by done; by exists nd'].
    rewrite lookup_insert_eq. rewrite E in Hy. injection Hy as <-. eexists. split; [done|]. cbn. apply length_insert.
  - intros y. destruct (decide (y = x)) as [->|]; [by rewrite E|by rewrite lookup_insert_ne].
Qed.

(** A store that leaves the links right keeps the shape. *)
Lemma shape_stored s x n p s' l lh lh' : shape s l lh -> stored s x n p s' -> links s' l lh' -> lh' head_ = kMaxHeight_ ->
  (forall y, y ∈ l -> (lh' y <= max_height_ s)%nat) ->
  (forall y, y ∈ head_ :: l -> exists nd, nodes s !! y = Some nd /\ (lh' y <= length (next_ nd))%nat) -> shape s' l lh'.
Proof.
  intros Hs Hst HL Hh Hm Hn. split; [done|done| | |apply Hs| | |].
  - intros y Hy. destruct (Hn y Hy) as (nd & E & Hlen). destruct (so_node _ _ _ _ _ Hst y nd E) as (nd' & E' & Hl').
    exists nd'. split; [done|lia].
  - intros y Hy. rewrite (so_max _ _ _ _ _ Hst). by apply Hm.
  - apply (sorted_frame s); [intros y _; apply (so_key _ _ _ _ _ Hst)|apply Hs].
  - rewrite (so_max _ _ _ _ _ Hst). apply Hs.
  - intros y Hy. rewrite (so_fresh _ _ _ _ _ Hst). apply (wf_fresh _ _ _ _ _ Hs). by apply (so_heap _ _ _ _ _ Hst).
Qed.

(** The store that publishes [x] on level [i], after the last node [p] before it that is linked there. *)
Lemma links_publish s s' l1 x l2 lh i p : shape s (l1 ++ x :: l2) lh -> lh x = i -> is_pred lh i l1 p ->
  Next s x i = Next s p i -> stored s p i (Some x) s' -> links s' (l1 ++ x :: l2) (lh_set lh x (S i)).
Proof.
  intros Hs Hx (pre0 & suf0 & E0 & Hp & Hsuf0) HN Hst. pose proof (wf_links _ _ _ _ _ Hs) as HL.
  assert (Hnd : NoDup ((pre0 ++ p :: suf0) ++ x :: l2)) by (rewrite <- E0; apply Hs).
  assert (Hpx : p <> x) by (intros ->; lia).
  assert (El : head_ :: l1 ++ x :: l2 = pre0 ++ p :: suf0 ++ x :: l2).
  { change (head_ :: l1 ++ x :: l2) with ((head_ :: l1) ++ x :: l2). rewrite E0. by rewrite <- app_assoc. }
  assert (Hn12 : x ∉ pre0 ++ p :: suf0 /\ x ∉ l2).
  { apply NoDup_app in Hnd as (_ & A & B). apply NoDup_cons in B as [B _]. split; [|done]. intros C. apply (A x C). by left. }
  destruct Hn12 as [Hx1 Hx2].
  assert (Hext : forall j c, x ∉ c -> first_above lh j c = first_above (lh_set lh x (S i)) j c).
  { intros j c Hc. apply first_above_ext. intros z Hz. rewrite lh_set_ne; [done|]. by intros ->. }
  rewrite <- app_assoc in Hnd. cbn in Hnd.
  intros pre y suf j E Hj. rewrite El in E. destruct (decide (y = x)) as [->|Hyx].
  - (* the new node *)
    rewrite lh_set_eq in Hj. change (pre0 ++ p :: suf0 ++ x :: l2) with (pre0 ++ (p :: suf0) ++ x :: l2) in E. rewrite app_assoc in E.
    apply NoDup_split_unique in E as [<- <-]; [|by rewrite <- app_assoc]. rewrite (so_ne _ _ _ _ _ Hst) by congruence.
    rewrite <- Hext by done. destruct (decide (j = i)) as [->|Hji].
    + rewrite HN, (HL pre0 p (suf0 ++ x :: l2) i El Hp). f_equal. rewrite first_above_skip by lia. by apply first_above_app.
    + apply (HL (pre0 ++ p :: suf0)); [rewrite El; by rewrite <- app_assoc|lia].
  - rewrite lh_set_ne in Hj by done. destruct (decide ((y, j) = (p, i))) as [[= -> ->]|Hne].
    + (* its predecessor *)
      apply NoDup_split_unique in E as [<- <-]; [|done]. rewrite (so_eq _ _ _ _ _ Hst). f_equal.
      rewrite first_above_app.
      2:{ rewrite Forall_forall in *. intros z Hz. rewrite lh_set_ne; [by apply Hsuf0|]. intros ->. set_solver. }
      unfold first_above. by rewrite filter_cons_True by (rewrite lh_set_eq; lia).
    + rewrite (so_ne _ _ _ _ _ Hst) by done. rewrite (HL pre y suf j); [|by rewrite El|done]. f_equal.
      destruct (decide (j = i)) as [->|Hji].
      2:{ apply first_above_ext. intros z _. unfold lh_set. case_decide; [subst z; lia|done]. }
      apply split_app in E as [(c & E & ->)|([|w c] & -> & E)].
      * rewrite (first_above_stop lh), (first_above_stop (lh_set lh x (S i))) by (rewrite ?lh_set_ne; done). apply Hext. subst. set_solver.
      * injection E as ->. done.
      * injection E as -> E. apply split_app_cons in E as [(d & -> & ->)|(d & -> & ->)]; [|apply Hext; set_solver|done].
        rewrite Forall_forall in Hsuf0. specialize (Hsuf0 y ltac:(set_solver)). lia.
Qed.

(** ** Between insertions *)

(** The hint: [prev_[0]] is the node inserted last (at first the head), [prev_height_] its height, and above it [prev_] holds
    its predecessors. *)
Definition hint s l lh : Prop := exists l1 l2 p, l = l1 ++ l2 /\ prev_ s !! 0%nat = Some p /\ last (head_ :: l1) = Some p /\
  (1 <= prev_height_ s <= lh p)%nat /\
  (forall i, (prev_height_ s <= i < max_height_ s)%nat -> exists y, prev_ s !! i = Some y /\ is_pred lh i l1 y).

Record idle s l lh : Prop := {
  id_wf : wf s l lh;
  id_len : length (prev_ s) = kMaxHeight_;
  id_heap y : is_Some (nodes s !! y) -> y ∈ head_ :: l;
  id_hint : hint s l lh;
}.

(** The key is new, as [Insert] requires. *)
Definition absent s k : Prop := map_Forall (fun x nd => x = head_ \/ compare_ (key nd) k <> 0) (nodes s).

(** ** [prev_] found, up to level [top] *)

Record ready s l lh k l1 l2 (top : nat) : Prop := {
  rd_wf : wf s l lh;
  rd_cut : cut s l k l1 l2;
  rd_new y ky : y ∈ l2 -> key_of s y = Some ky -> 0 < compare_ ky k;
  rd_len : length (prev_ s) = kMaxHeight_;
  rd_heap y : is_Some (nodes s !! y) -> y ∈ head_ :: l;
  rd_prev i : (i < top)%nat -> exists y, prev_ s !! i = Some y /\ is_pred lh i l1 y;
}.

Lemma wf_set_prev s l lh p h : wf s l lh -> wf (set_prev p h s) l lh.
Proof. intros [[] ?]. by split; [split|]. Qed.
Lemma wf_set_max s l lh h : wf s l lh -> (max_height_ s <= h <= kMaxHeight_)%nat -> wf (set_max_height h s) l lh.
Proof.
  intros [[HL Hh Hn Hm Hnd HS Hmax Hf] Hl] Hle. split; [|done]. split; try done.
  - intros y Hy. specialize (Hm y Hy). cbn. lia.
  - cbn. lia.
Qed.

Lemma wf_length s l lh : wf s l lh -> (length l < fresh s)%nat.
Proof.
  intros Hwf. enough (Hsub : head_ :: l ⊆+ seq 0 (fresh s)) by (apply submseteq_length in Hsub; rewrite length_seq in Hsub; cbn in Hsub; lia).
  apply NoDup_submseteq; [apply Hwf|]. intros y Hy. destruct (wf_nodes _ _ _ _ _ Hwf y Hy) as (nd & E & _). apply elem_of_seq.
  pose proof (wf_fresh _ _ _ _ _ Hwf y ltac:(by eexists)). lia.
Qed.

Lemma KeyIsAfterNode_ok s l lh k y : wf s l lh -> y ∈ head_ :: l ->
  exists b, KeyIsAfterNode compare_ s k (Some y) = Some b /\ (if b then key_lt compare_ s k y else key_ge compare_ s k y).
Proof.
  intros Hwf Hy. destruct (wf_key _ _ _ _ _ _ Hwf Hy) as (ky & E). cbn. rewrite E. cbn. exists (compare_ ky k <? 0). split; [done|].
  destruct (Z.ltb_spec (compare_ ky k) 0); by exists ky.
Qed.

(** The fast path is taken just where it is right. *)
Lemma sequential_ok s l lh k l1 l2 p : wf s l lh -> l = l1 ++ l2 -> prev_ s !! 0%nat = Some p -> last (head_ :: l1) = Some p ->
  exists b, sequential compare_ k s = Some b /\ (b = true -> cut s l k l1 l2).
Proof.
  intros Hwf -> E0 Hlast. apply last_Some in Hlast as (pre & Epre).
  assert (El : head_ :: l1 ++ l2 = pre ++ p :: l2).
  { change (head_ :: l1 ++ l2) with ((head_ :: l1) ++ l2). rewrite Epre. by rewrite <- app_assoc. }
  assert (Hp : p ∈ head_ :: l1 ++ l2) by (rewrite El; set_solver).
  assert (Hlp : (0 < lh p)%nat).
  { apply elem_of_cons in Hp as [->|Hp]; [rewrite (wf_head _ _ _ _ _ Hwf); pose proof (wf_max _ _ _ _ _ Hwf); lia|].
    by apply (wf_linked _ _ _ _ _ Hwf). }
  unfold sequential. rewrite E0. cbn [mbind option_bind]. rewrite (wf_links _ _ _ _ _ Hwf pre p l2 0%nat El Hlp).
  cbn [mbind option_bind]. rewrite (first_above_0 _ _ _ _ _ _ _ _ Hwf El).
  assert (Hcut : (forall y, head l2 = Some y -> key_ge compare_ s k y) -> (p = head_ \/ key_lt compare_ s k p) -> cut s (l1 ++ l2) k l1 l2).
  { intros H2 H1. apply sorted_cut; [done|apply Hwf| |done]. intros y Hy. destruct l1 as [|z l1]; [done|].
    assert (y = p). { change (head_ :: z :: l1) with ([head_] ++ z :: l1) in Epre. apply last_Some in Hy as (q & Hy). rewrite Hy, app_assoc in Epre. by apply app_inj_tail in Epre as [_ ?]. }
    subst y. destruct H1 as [->|]; [|done]. exfalso. pose proof (wf_nodup _ _ _ _ _ Hwf) as Hnd. apply NoDup_cons in Hnd as [Hnd _].
    apply Hnd. apply elem_of_app. left. by apply last_Some_elem_of. }
  assert (Hnext : exists b, KeyIsAfterNode compare_ s k (head l2) = Some b /\ (b = false -> forall y, head l2 = Some y -> key_ge compare_ s k y)).
  { destruct l2 as [|y l2]; [by exists false|]. destruct (KeyIsAfterNode_ok s _ lh k y Hwf) as (b & E & Hb); [set_solver|].
    exists b. split; [done|]. intros -> z [= <-]. done. }
  destruct Hnext as (b & -> & Hb). cbn [mbind option_bind]. destruct b; [by exists false|].
  case_decide as Hd; [exists true; split; [done|]; intros _; apply Hcut; [by apply Hb|by left]|].
  destruct (KeyIsAfterNode_ok s _ lh k p Hwf Hp) as (b & -> & Hb'). exists b. split; [done|]. intros ->. apply Hcut; [by apply Hb|by right].
Qed.

Lemma absent_new s l lh k l1 l2 y ky : wf s l lh -> absent s k -> cut s l k l1 l2 -> y ∈ l2 -> key_of s y = Some ky -> 0 < compare_ ky k.
Proof.
  intros Hwf Ha (-> & _ & H2) Hy Ek. rewrite Forall_forall in H2. destruct (H2 y Hy) as (ky' & Ek' & Hge).
  rewrite Ek in Ek'. injection Ek' as <-. enough (compare_ ky k <> 0) by lia. unfold key_of in Ek.
  destruct (nodes s !! y) as [nd|] eqn:E; [|done]. injection Ek as <-. destruct (Ha y nd E) as [->|]; [|done].
  exfalso. pose proof (wf_nodup _ _ _ _ _ Hwf) as Hnd. apply NoDup_cons in Hnd as [Hnd _]. set_solver.
Qed.

Lemma find_prev_ok s l lh k : idle s l lh -> absent s k ->
  wp (find_prev compare_ k) (fun _ s' => (exists l1 l2, ready s' l lh k l1 l2 (max_height_ s')) /\ nodes s' = nodes s /\ fresh s' = fresh s) s.
Proof.
  intros [Hwf Hlen Hheap (l1 & l2 & p & El & E0 & Hlast & Hph & Hhint)] Ha. unfold find_prev. wp_steps.
  destruct (sequential_ok s l lh k l1 l2 p Hwf El E0 Hlast) as (b & Eb & Hcut). eapply wp_of_option; [exact Eb|].
  assert (Hready : forall prev' l1 l2, cut s l k l1 l2 -> length prev' = kMaxHeight_ ->
    (forall i, (i < max_height_ s)%nat -> exists y, prev' !! i = Some y /\ is_pred lh i l1 y) ->
    (exists l1 l2, ready (set_prev prev' (prev_height_ s) s) l lh k l1 l2 (max_height_ s)) /\ nodes s = nodes s /\ fresh s = fresh s).
  { intros prev' m1 m2 Hc Hl' Hp. split; [|done]. exists m1, m2. split; [by apply wf_set_prev|done| |done|done|done].
    intros y ky. by apply (absent_new s l lh k m1 m2). }
  destruct b.
  - wp_steps. apply (Hready _ l1 l2); [by apply Hcut|by rewrite length_imap|]. intros i Hi. rewrite list_lookup_imap.
    apply last_Some in Hlast as (pre & Epre). rewrite (list_lookup_total_correct _ _ _ E0).
    destruct (decide (prev_height_ s <= i)%nat) as [Hle|Hgt].
    + destruct (Hhint i) as (y & -> & Hy); [lia|]. cbn. rewrite decide_False by lia. by exists y.
    + exists p. assert (Hlt : (i < length (prev_ s))%nat) by (pose proof (wf_max _ _ _ _ _ Hwf); lia).
      apply lookup_lt_is_Some in Hlt as (q & Eq). rewrite Eq. cbn. split; [|exists pre, []; split_and!; [done|lia|constructor]].
      destruct (decide (i = 0%nat)) as [->|]; [rewrite decide_False by lia; congruence|by rewrite decide_True by lia].
  - wp_steps. destruct (FindLessThan_ok compare_ kMaxHeight_ (fun _ => s) (fun _ => l) (fun _ => lh) (length l)
      ltac:(done) ltac:(intros; apply evolves_refl) ltac:(done) k (search_fuel s) (prev_ s)) as (j & y & prev' & m1 & m2 & E & Hc & _ & Hp1 & _ & Hp3).
    { unfold search_fuel. pose proof (wf_length _ _ _ Hwf). lia. }
    eapply wp_of_option; [exact E|]. wp_step. cbn. apply (Hready _ m1 m2); [done|lia|]. intros i Hi.
    destruct (Hp3 i) as (_ & z & n1 & n2 & Ez & Hcn & Hz); [lia|pose proof (wf_max _ _ _ _ _ Hwf); lia|].
    exists z. split; [done|]. by destruct (cut_unique _ _ _ _ _ _ _ _ Hcn Hc) as [<- _].
Qed.

Lemma ready_top s l lh k l1 l2 top top' : ready s l lh k l1 l2 top -> (top' <= top)%nat -> ready s l lh k l1 l2 top'.
Proof. intros [] Hle. split; [done..|]. intros i Hi. apply rd_prev0. lia. Qed.

Lemma raise_prev_ok s l lh k l1 l2 height : ready s l lh k l1 l2 (max_height_ s) -> (height <= kMaxHeight_)%nat ->
  wp (raise_prev height) (fun _ s' => ready s' l lh k l1 l2 (max_height_ s' `max` height) /\ nodes s' = nodes s /\ fresh s' = fresh s) s.
Proof.
  intros [Hwf Hc Hn Hlen Hheap Hp] Hh. unfold raise_prev. wp_steps. split; [|done].
  split; [by apply wf_set_prev|done|done|cbn; by rewrite length_imap|done|]. cbn. intros i Hi. rewrite list_lookup_imap.
  destruct (decide (max_height_ s <= i)%nat) as [Hle|Hgt].
  - pose proof (wf_max _ _ _ _ _ Hwf). assert (Hlt : (i < length (prev_ s))%nat) by lia. apply lookup_lt_is_Some in Hlt as (q & ->).
    cbn. rewrite decide_True by lia. exists head_. split; [done|]. exists [], l1. split_and!; [done|rewrite (wf_head _ _ _ _ _ Hwf); lia|].
    apply Forall_forall. intros y Hy. pose proof (wf_height _ _ _ _ _ Hwf y). destruct Hc as (-> & _). specialize (H0 ltac:(set_solver)). lia.
  - destruct (Hp i) as (y & -> & Hy); [lia|]. cbn. rewrite decide_False by lia. by exists y.
Qed.
Lemma raise_height_ok s l lh k l1 l2 height : ready s l lh k l1 l2 (max_height_ s `max` height) -> (height <= kMaxHeight_)%nat ->
  wp (raise_height height) (fun _ s' => ready s' l lh k l1 l2 (max_height_ s') /\ (height <= max_height_ s')%nat /\
    nodes s' = nodes s /\ fresh s' = fresh s) s.
Proof.
  intros Hr Hh. unfold raise_height. wp_steps. apply wp_when.
  - intros Hlt%bool_decide_eq_true. wp_step. destruct Hr as [Hwf Hc Hn Hlen Hheap Hp]. split; [|done].
    split; [apply wf_set_max; [done|lia]|done..|]. cbn. intros i Hi. apply Hp. lia.
  - intros Hge%bool_decide_eq_false. split; [|split; [lia|done]]. eapply ready_top; [done|lia].
Qed.

(** ** The node is in memory, and linked up to level [i] *)

Record linking s k height x (i : nat) l1 l2 lh : Prop := {
  lk_shape : shape s (l1 ++ x :: l2) lh;
  lk_level : lh x = i;
  lk_bound : (i <= height <= max_height_ s)%nat;
  lk_min y : y ∈ l1 ++ l2 -> (1 <= lh y)%nat;
  lk_node : exists nd, nodes s !! x = Some nd /\ key nd = k /\ length (next_ nd) = height;
  lk_len : length (prev_ s) = kMaxHeight_;
  lk_heap y : is_Some (nodes s !! y) -> y ∈ head_ :: l1 ++ x :: l2;
  lk_prev j : (j < max_height_ s)%nat -> exists y, prev_ s !! j = Some y /\ is_pred lh j l1 y;
}.
(** What a reader sees of the new node. *)
Definition visible (i : nat) l1 x l2 : list nat := if decide (i = 0%nat) then l1 ++ l2 else l1 ++ x :: l2.

Lemma linking_wf s k height x i l1 l2 lh : linking s k height x i l1 l2 lh -> wf s (visible i l1 x l2) lh.
Proof.
  intros [Hs Hi _ Hm _ _ _ _]. unfold visible. case_decide as Hd.
  - split; [|done]. apply (shape_skip s l1 x); [done|lia].
  - split; [done|]. intros y Hy. destruct (decide (y = x)) as [->|]; [lia|]. apply Hm. set_solver.
Qed.

Lemma is_pred_frame lh lh' i l1 y : (forall z, z ∈ head_ :: l1 -> lh z = lh' z) -> is_pred lh i l1 y -> is_pred lh' i l1 y.
Proof.
  intros He (pre & suf & E & Hy & Hs). exists pre, suf. rewrite E in He. rewrite <- He by set_solver. split_and!; [done|done|].
  rewrite Forall_forall in *. intros z Hz. rewrite <- He by set_solver. by apply Hs.
Qed.

Lemma NewNode_ok s l lh k l1 l2 height : ready s l lh k l1 l2 (max_height_ s) -> (height <= max_height_ s)%nat ->
  let x := fresh s in
  wp (NewNode x k height) (fun _ s' => linking s' k height x 0 l1 l2 (lh_set lh x 0) /\ evolves s l lh s' l (lh_set lh x 0)) s.
Proof.
  intros [Hwf (El & H1 & H2) Hn Hlen Hheap Hp] Hh x. unfold NewNode. wp_steps.
  assert (Hx : nodes s !! x = None).
  { destruct (nodes s !! x) eqn:E; [|done]. pose proof (wf_fresh _ _ _ _ _ Hwf x ltac:(by eexists)). lia. }
  assert (Hxl : x ∉ head_ :: l). { intros Hin. destruct (wf_nodes _ _ _ _ _ Hwf x Hin) as (nd & E & _). congruence. }
  set (s' := set_nodes _ _ s).
  assert (Hold : forall y, y <> x -> nodes s' !! y = nodes s !! y) by (intros y Hy; cbn; by rewrite lookup_insert_ne).
  assert (Hnew : nodes s' !! x = Some (mkNode k (replicate height None))) by (cbn; by rewrite lookup_insert_eq).
  assert (Hkey : forall y, y ∈ head_ :: l -> key_of s' y = key_of s y).
  { intros y Hy. unfold key_of. rewrite Hold; [done|]. by intros ->. }
  assert (Hkx : key_of s' x = Some k) by (unfold key_of; by rewrite Hnew).
  assert (Hlh : forall y, y ∈ head_ :: l -> lh y = lh_set lh x 0 y). { intros y Hy. rewrite lh_set_ne; [done|]. by intros ->. }
  split; [|split; [done|intros y Hy; by rewrite Hlh|done]]. subst l.
  split; [|apply lh_set_eq|cbn; lia|intros y Hy; rewrite <- Hlh by (by right); by apply (wf_linked _ _ _ _ _ Hwf)| |done| |].
  - split.
    + apply links_skip; [apply lh_set_eq|]. apply (links_frame s s' _ lh); [apply Hwf|done|]. intros y i Hy _. unfold Next.
      rewrite Hold; [done|]. by intros ->.
    + rewrite <- Hlh by (by left). apply Hwf.
    + intros y Hy. destruct (decide (y = x)) as [->|Hyx].
      * eexists. split; [done|]. rewrite lh_set_eq. lia.
      * rewrite Hold, lh_set_ne by done. apply (wf_nodes _ _ _ _ _ Hwf). set_solver.
    + intros y Hy. cbn. unfold lh_set. case_decide; [lia|]. apply (wf_height _ _ _ _ _ Hwf). set_solver.
    + apply (NoDup_app (head_ :: l1)). pose proof (wf_nodup _ _ _ _ _ Hwf) as Hnd. apply (NoDup_app (head_ :: l1)) in Hnd as (A & B & C).
      split_and!; [done| |apply NoDup_cons; split; [set_solver|done]]. intros y Hy [->|Hy2]%elem_of_cons; [set_solver|by apply (B y)].
    + pose proof (wf_sorted _ _ _ _ _ Hwf) as HS. apply (sorted_frame s s') in HS; [|intros y Hy; apply Hkey; by right].
      rewrite Forall_forall in H1, H2. apply StronglySorted_app in HS as (A & B & C). apply StronglySorted_app. split_and!; [|done|].
      * intros y z Hy [->|Hz]%elem_of_cons; [|by apply A]. exists k. split; [done|].
        apply (key_lt_frame s); [apply Hkey; set_solver|by apply H1].
      * constructor; [done|]. apply Forall_forall. intros y Hy. destruct (H2 y Hy) as (ky & Ey & _).
        exists ky. rewrite Hkey by set_solver. split; [done|]. exists k. split; [done|].
        apply compare_antisym. by apply (Hn y).
    + apply Hwf.
    + intros y Hy. cbn. destruct (decide (y = x)) as [->|Hyx]; [lia|]. rewrite Hold in Hy by done.
      pose proof (wf_fresh _ _ _ _ _ Hwf y Hy). lia.
  - eexists. split_and!; [done|done|]. cbn. apply length_replicate.
  - intros y Hy. destruct (decide (y = x)) as [->|Hyx]; [set_solver|]. rewrite Hold in Hy by done. specialize (Hheap y Hy). set_solver.
  - intros j Hj. destruct (Hp j Hj) as (y & Ey & Hy). exists y. split; [done|]. eapply is_pred_frame; [|done]. intros z Hz. apply Hlh. set_solver.
Qed.

Lemma pred_elem lh i l1 y : is_pred lh i l1 y -> y ∈ head_ :: l1.
Proof. intros (pre & suf & -> & _). set_solver. Qed.
Lemma linking_x s k height x i l1 l2 lh : linking s k height x i l1 l2 lh -> x ∉ head_ :: l1 /\ x ∉ l2.
Proof.
  intros Hl. pose proof (wf_nodup _ _ _ _ _ (lk_shape _ _ _ _ _ _ _ _ Hl)) as Hnd.
  apply (NoDup_app (head_ :: l1)) in Hnd as (_ & A & B). apply NoDup_cons in B as [B _]. split; [|done]. intros C. apply (A x C). by left.
Qed.
Lemma visible_elem i l1 x l2 y : y ∈ visible i l1 x l2 -> y ∈ l1 ++ x :: l2.
Proof. unfold visible. case_decide; set_solver. Qed.

(** What a store of the writer keeps, whatever it does to the links. *)
Lemma linking_stored s k height x i i' l1 l2 lh y n p s' : linking s k height x i l1 l2 lh -> stored s y n p s' ->
  links s' (l1 ++ x :: l2) (lh_set lh x i') -> (i' <= height)%nat ->
  linking s' k height x i' l1 l2 (lh_set lh x i').
Proof.
  intros Hl Hst HL Hi'. pose proof (linking_x _ _ _ _ _ _ _ _ Hl) as [Hx1 Hx2].
  destruct Hl as [Hs Hi Hb Hm (nd & En & Ek & Enl) Hlen Hheap Hp].
  split; [|apply lh_set_eq|rewrite (so_max _ _ _ _ _ Hst); lia| | |by rewrite (so_prev _ _ _ _ _ Hst)| |].
  - eapply shape_stored; [done|done|done| | |].
    + rewrite lh_set_ne by set_solver. apply Hs.
    + intros z Hz. unfold lh_set. case_decide; [lia|]. by apply (wf_height _ _ _ _ _ Hs).
    + intros z Hz. unfold lh_set. case_decide as Hd; [subst z; exists nd; split; [done|lia]|by apply (wf_nodes _ _ _ _ _ Hs)].
  - intros z Hz. rewrite lh_set_ne by set_solver. by apply Hm.
  - destruct (so_node _ _ _ _ _ Hst x nd En) as (nd' & En' & Hl'). exists nd'. split_and!; [done| |congruence].
    pose proof (so_key _ _ _ _ _ Hst x) as E. unfold key_of in E. rewrite En, En' in E. cbn in E. congruence.
  - intros z Hz. by apply Hheap, (so_heap _ _ _ _ _ Hst).
  - intros j. rewrite (so_max _ _ _ _ _ Hst), (so_prev _ _ _ _ _ Hst). intros Hj. destruct (Hp j Hj) as (z & Ez & Hz). exists z. split; [done|].
    eapply is_pred_frame; [|done]. intros w Hw. rewrite lh_set_ne; [done|]. by intros ->.
Qed.
Lemma linking_evolves s s' k height x i i' l1 l2 lh y n p : linking s k height x i l1 l2 lh -> stored s y n p s' -> (i <= i')%nat ->
  evolves s (visible i l1 x l2) lh s' (visible i' l1 x l2) (lh_set lh x i').
Proof.
  intros Hl Hst Hi. split; [| |intros z _; apply (so_key _ _ _ _ _ Hst)].
  - unfold visible. do 2 case_decide; [done| |lia|done]. apply sublist_app; [done|]. by apply sublist_cons.
  - intros z _. unfold lh_set. case_decide; [subst z; rewrite (lk_level _ _ _ _ _ _ _ _ Hl); lia|lia].
Qed.

Lemma init_level_ok s k height x i l1 l2 lh : linking s k height x i l1 l2 lh -> (i < height)%nat ->
  wp (init_level x i) (fun _ s' => exists lh', linking s' k height x i l1 l2 lh' /\
    (exists p, prev_ s' !! i = Some p /\ is_pred lh' i l1 p /\ Next s' x i = Next s' p i) /\
    (forall y, key_of s' y = key_of s y) /\ evolves s (visible i l1 x l2) lh s' (visible i l1 x l2) lh') s.
Proof.
  intros Hl Hi. pose proof (linking_x _ _ _ _ _ _ _ _ Hl) as [Hx1 Hx2]. pose proof Hl as [Hs Hlx Hb Hm (nd & En & Ek & Enl) Hlen Hheap Hp].
  unfold init_level. destruct (Hp i) as (p & Ep & Hpred); [lia|]. assert (Hpx : p <> x) by (intros ->; by apply pred_elem in Hpred).
  wp_steps. eapply wp_of_option; [exact Ep|]. wp_steps. destruct Hpred as (pre & suf & Epre & Hip & Hsuf).
  assert (EN : Next s p i = Some (first_above lh i (suf ++ x :: l2))).
  { apply (wf_links _ _ _ _ _ Hs pre); [|done]. change (head_ :: l1 ++ x :: l2) with ((head_ :: l1) ++ x :: l2). rewrite Epre. by rewrite <- app_assoc. }
  eapply wp_of_option; [exact EN|]. eapply wp_SetNext; [exact En|lia|]. intros s' Hst.
  exists (lh_set lh x i). split_and!.
  - eapply linking_stored; [done|done| |lia]. apply (links_frame s s' _ lh); [apply Hs| |].
    + intros y Hy. unfold lh_set. case_decide; congruence.
    + intros y j Hy Hj. apply (so_ne _ _ _ _ _ Hst). intros [= -> ->]. lia.
  - exists p. rewrite (so_prev _ _ _ _ _ Hst). split_and!; [done| |].
    + eapply is_pred_frame; [|by exists pre, suf]. intros z Hz. rewrite lh_set_ne; [done|]. by intros ->.
    + rewrite (so_eq _ _ _ _ _ Hst), (so_ne _ _ _ _ _ Hst), EN; [done|congruence].
  - apply (so_key _ _ _ _ _ Hst).
  - by eapply linking_evolves.
Qed.

Lemma publish_level_ok s k height x i l1 l2 lh p : linking s k height x i l1 l2 lh -> (i < height)%nat ->
  prev_ s !! i = Some p -> is_pred lh i l1 p -> Next s x i = Next s p i ->
  wp (publish_level x i) (fun _ s' => exists lh', linking s' k height x (S i) l1 l2 lh' /\
    (forall y, key_of s' y = key_of s y) /\ evolves s (visible i l1 x l2) lh s' (visible (S i) l1 x l2) lh') s.
Proof.
  intros Hl Hi Ep Hpred EN. pose proof (lk_shape _ _ _ _ _ _ _ _ Hl) as Hs. pose proof (pred_elem _ _ _ _ Hpred) as Hpe.
  unfold publish_level. wp_steps. eapply wp_of_option; [exact Ep|].
  destruct (wf_nodes _ _ _ _ _ Hs p) as (nd & En & Hlen); [set_solver|].
  eapply wp_SetNext; [exact En|destruct Hpred as (? & ? & _ & ? & _); lia|]. intros s' Hst. exists (lh_set lh x (S i)). split_and!.
  - eapply linking_stored; [done|done| |lia]. by apply (links_publish s s' l1 x l2 lh i p); [|apply (lk_level _ _ _ _ _ _ _ _ Hl)|..].
  - apply (so_key _ _ _ _ _ Hst).
  - eapply linking_evolves; [done|done|lia].
Qed.

Lemma finish_insert_ok s k height x l1 l2 lh : linking s k height x height l1 l2 lh -> (1 <= height)%nat ->
  wp (finish_insert x height) (fun _ s' => idle s' (l1 ++ x :: l2) lh /\ nodes s' = nodes s) s.
Proof.
  intros Hl Hh. pose proof (linking_wf _ _ _ _ _ _ _ _ Hl) as Hwf. unfold visible in Hwf. rewrite decide_False in Hwf by lia.
  destruct Hl as [Hs Hlx Hb Hm _ Hlen Hheap Hp]. unfold finish_insert. wp_steps. split; [|done].
  pose proof (wf_max _ _ _ _ _ Hs). split; [by apply wf_set_prev|cbn; by rewrite length_insert|done|].
  exists (l1 ++ [x]), l2, x. cbn. split_and!.
  - by rewrite <- app_assoc.
  - by rewrite list_lookup_insert_eq by lia.
  - by rewrite app_comm_cons, last_snoc.
  - done.
  - lia.
  - intros i Hi. rewrite list_lookup_insert_ne by lia. destruct (Hp i) as (y & Ey & (pre & suf & E & Hy & Hsuf)); [lia|].
    exists y. split; [done|]. exists pre, (suf ++ [x]). rewrite app_comm_cons, E, <- app_assoc. split_and!; [done|done|].
    apply Forall_app. split; [done|]. constructor; [lia|constructor].
Qed.
End writer.
