(* ===== verification/SkipListTheorems.v ===== *)
(** * The skip list refines a sorted list of keys

    A writer that inserts keys, one store at a time, and readers whose loads fall
    anywhere between its stores. Alone, the operations are those of a sorted list of keys;
    beside the writer, each search answers for the keys in the list at its last load. *)

From stdpp Require Import prelude gmap sorting.
From Stdlib Require Import ZArith Lia.
From S2P Require Import Prelude Comparator StateMonad SkipList SkipListProofs SkipListWriter.
Import SkipList.

Section spec.
Context {K : Type} (compare_ : K -> K -> Z).
Implicit Types (k : K) (ks : list K).

(** ** The abstract list *)

Definition keys_before k ks : list K := filter (fun a => compare_ a k < 0) ks.
Definition keys_from k ks : list K := filter (fun a => ~ compare_ a k < 0) ks.
Definition spec_insert k ks : list K := keys_before k ks ++ k :: keys_from k ks.
Definition spec_contains k ks : bool := existsb (fun a => bool_decide (compare_ k a = 0)) ks.
(** The last key that is not after [k]. *)
Definition spec_seek_for_prev k ks : option K := last (filter (fun a => compare_ a k <= 0) ks).

(** The keys an iteration from the first node visits. *)
Fixpoint scan (n : nat) (s : t K) (node_ : ptr) : option (list K) :=
  match n with
  | O => None
  | S n =>
      if Iterator.Valid node_ then
        k ← Iterator.key s node_;
        node_ ← Iterator.Next (fun _ => s) node_;
        ks ← scan n s node_;
        Some (k :: ks)
      else Some []
  end.
Definition contents (s : t K) : option (list K) :=
  node_ ← Iterator.SeekToFirst (fun _ => s);
  scan (S (size (nodes s))) s node_.

(** A position that is null when there is no key, and otherwise a node with that key. *)
Definition at_key (s : t K) (node_ : ptr) (o : option K) : Prop :=
  match node_ with
  | None => o = None
  | Some n => exists k, o = Some k /\ key_of s n = Some k
  end.

(** ** The writer's steps *)

Context (kScaledInverseBranching_ : Z) (kMaxHeight_ : nat) (k0 : K).
Definition writer : Type := t K * list (M (t K) unit).
Inductive wstep : writer -> writer -> Prop :=
  | w_command c cs s s' : c s = Some (tt, s') -> wstep (s, c :: cs) (s', cs)
  | w_begin s k rnd : absent compare_ s k ->
      wstep (s, []) (s, insert_commands compare_ k (RandomHeight kScaledInverseBranching_ rnd kMaxHeight_) (fresh s)).
Definition reachable (w : writer) : Prop := rtc wstep (new k0 kMaxHeight_, []) w.
End spec.

Section proofs.
Context {K : Type} (compare_ : K -> K -> Z) `{!KeyOrder compare_} (kScaledInverseBranching_ : Z) (kMaxHeight_ : nat) (k0 : K).
Implicit Types (s : t K) (l pre suf : list nat) (lh : nat -> nat) (k : K) (ks : list K) (x height : nat).
Notation wf := (wf compare_ kMaxHeight_).
Notation cut := (cut compare_).
Notation idle := (idle compare_ kMaxHeight_).
Notation ready := (ready compare_ kMaxHeight_).
Notation linking := (linking compare_ kMaxHeight_).
Notation absent := (absent compare_).
Notation wstep := (wstep compare_ kScaledInverseBranching_ kMaxHeight_).
Notation reachable := (reachable compare_ kScaledInverseBranching_ kMaxHeight_ k0).

Definition keys_of s l : list K := omap (key_of s) l.
Lemma keys_of_app s l1 l2 : keys_of s (l1 ++ l2) = keys_of s l1 ++ keys_of s l2.
Proof. apply omap_app. Qed.
Lemma keys_of_cons s y l ky : key_of s y = Some ky -> keys_of s (y :: l) = ky :: keys_of s l.
Proof. intros E. cbn. by rewrite E. Qed.
Lemma keys_of_frame s s' l : (forall y, y ∈ l -> key_of s' y = key_of s y) -> keys_of s' l = keys_of s l.
Proof.
  induction l as [|y l IH]; intros H; [done|]. cbn. rewrite H by (by left). change (omap (key_of s') l) with (keys_of s' l).
  rewrite IH; [done|]. intros z Hz. apply H. by right.
Qed.
Lemma keys_of_nodes s s' l : nodes s' = nodes s -> keys_of s' l = keys_of s l.
Proof. intros E. apply keys_of_frame. intros y _. unfold key_of. by rewrite E. Qed.

(** A cut of the nodes cuts the keys. *)
Lemma keys_lt s k l : Forall (key_lt compare_ s k) l -> keys_before compare_ k (keys_of s l) = keys_of s l /\ keys_from compare_ k (keys_of s l) = [].
Proof.
  induction 1 as [|y l (ky & E & Hlt) _ [IH1 IH2]]; [done|]. rewrite (keys_of_cons _ _ _ _ E). unfold keys_before, keys_from in *.
  rewrite filter_cons_True, filter_cons_False by (done || tauto). by split; [f_equal|].
Qed.
Lemma keys_ge s k l : Forall (key_ge compare_ s k) l -> keys_before compare_ k (keys_of s l) = [] /\ keys_from compare_ k (keys_of s l) = keys_of s l.
Proof.
  induction 1 as [|y l (ky & E & Hge) _ [IH1 IH2]]; [done|]. rewrite (keys_of_cons _ _ _ _ E). unfold keys_before, keys_from in *.
  rewrite filter_cons_False, filter_cons_True by lia. by split; [|f_equal].
Qed.
Lemma keys_cut s l k l1 l2 : cut s l k l1 l2 ->
  keys_before compare_ k (keys_of s l) = keys_of s l1 /\ keys_from compare_ k (keys_of s l) = keys_of s l2.
Proof.
  intros (-> & H1 & H2). rewrite keys_of_app. unfold keys_before, keys_from. rewrite !filter_app.
  destruct (keys_lt s k l1 H1) as [A1 A2]. destruct (keys_ge s k l2 H2) as [B1 B2]. unfold keys_before, keys_from in *.
  rewrite A1, A2, B1, B2. by rewrite app_nil_r.
Qed.

(** ** Heights *)

Lemma RandomHeight_loop_bound fuel rnd h : (1 <= h <= kMaxHeight_)%nat ->
  (h <= RandomHeight_loop fuel kScaledInverseBranching_ rnd kMaxHeight_ h <= kMaxHeight_)%nat.
Proof.
  revert h. induction fuel as [|fuel IH]; intros h Hh; cbn [RandomHeight_loop]; [lia|]. case_decide; [|lia].
  case_match; [|lia]. specialize (IH (S h)). lia.
Qed.
Lemma RandomHeight_bound rnd : (1 <= kMaxHeight_)%nat ->
  (1 <= RandomHeight kScaledInverseBranching_ rnd kMaxHeight_ <= kMaxHeight_)%nat.
Proof. intros H. unfold RandomHeight. apply (RandomHeight_loop_bound kMaxHeight_ rnd 1). lia. Qed.

(** ** The writer's invariant: what is visible now, and the keys once the pending insertion is done *)

Definition levels x i n : list (M (t K) unit) := link_levels x (seq i n) ++ [finish_insert x (i + n)].

Inductive inv : t K -> list (M (t K) unit) -> list nat -> (nat -> nat) -> list K -> Prop :=
  | inv_idle s l lh : idle s l lh -> inv s [] l lh (keys_of s l)
  | inv_find s l lh k height : idle s l lh -> absent s k -> (1 <= height <= kMaxHeight_)%nat ->
      inv s (insert_commands compare_ k height (fresh s)) l lh (spec_insert compare_ k (keys_of s l))
  | inv_raise_prev s l lh k height l1 l2 : ready s l lh k l1 l2 (max_height_ s) -> (1 <= height <= kMaxHeight_)%nat ->
      inv s (raise_prev height :: raise_height height :: NewNode (fresh s) k height :: levels (fresh s) 0 height) l lh
        (keys_of s l1 ++ k :: keys_of s l2)
  | inv_raise_height s l lh k height l1 l2 : ready s l lh k l1 l2 (max_height_ s `max` height) -> (1 <= height <= kMaxHeight_)%nat ->
      inv s (raise_height height :: NewNode (fresh s) k height :: levels (fresh s) 0 height) l lh (keys_of s l1 ++ k :: keys_of s l2)
  | inv_new s l lh k height l1 l2 : ready s l lh k l1 l2 (max_height_ s) -> (1 <= height <= max_height_ s)%nat ->
      inv s (NewNode (fresh s) k height :: levels (fresh s) 0 height) l lh (keys_of s l1 ++ k :: keys_of s l2)
  | inv_init s k x i n l1 l2 lh : linking s k (i + n) x i l1 l2 lh -> (1 <= i + n)%nat ->
      inv s (levels x i n) (visible i l1 x l2) lh (keys_of s (l1 ++ x :: l2))
  | inv_publish s k x i n l1 l2 lh p : linking s k (i + S n) x i l1 l2 lh -> prev_ s !! i = Some p -> is_pred lh i l1 p ->
      Next s x i = Next s p i ->
      inv s (publish_level x i :: levels x (S i) n) (visible i l1 x l2) lh (keys_of s (l1 ++ x :: l2)).

Lemma inv_wf s cs l lh ks : inv s cs l lh ks -> wf s l lh.
Proof. destruct 1; try (by eapply id_wf); try (by eapply rd_wf); by eapply linking_wf. Qed.

Lemma wp_command (m : M (t K) unit) Q s : wp m (fun _ => Q) s -> exists s', m s = Some (tt, s') /\ Q s'.
Proof. intros ([] & s' & E & H)%wp_run. by exists s'. Qed.
Lemma evolves_nodes s s' l lh : nodes s' = nodes s -> evolves s l lh s' l lh.
Proof. intros E. split; [done|done|]. intros y _. unfold key_of. by rewrite E. Qed.

Lemma finds s l lh k l1 l2 top : ready s l lh k l1 l2 top -> keys_of s l1 ++ k :: keys_of s l2 = spec_insert compare_ k (keys_of s l).
Proof. intros Hr. unfold spec_insert. by destruct (keys_cut s l k l1 l2 (rd_cut _ _ _ _ _ _ _ _ _ Hr)) as [-> ->]. Qed.

Lemma inv_step s c cs l lh ks : inv s (c :: cs) l lh ks ->
  exists s' l' lh', c s = Some (tt, s') /\ inv s' cs l' lh' ks /\ evolves s l lh s' l' lh'.
Proof.
  intros Hinv. remember (c :: cs) as w eqn:Ew. destruct Hinv as [s l lh Hid|s l lh k height Hid Ha Hh|s l lh k height l1 l2 Hr Hh
    |s l lh k height l1 l2 Hr Hh|s l lh k height l1 l2 Hr Hh|s k x i n l1 l2 lh Hl Hn|s k x i n l1 l2 lh p Hl Ep Hp Hnx].
  - done.
  - injection Ew as <- <-. destruct (wp_command _ _ _ (find_prev_ok _ _ _ _ _ _ Hid Ha)) as (s' & E & (l1 & l2 & Hr) & En & Ef).
    exists s', l, lh. split_and!; [done| |by apply evolves_nodes]. rewrite <- (keys_of_nodes s s') by done.
    rewrite <- (finds _ _ _ _ _ _ _ Hr), <- Ef. by apply inv_raise_prev.
  - injection Ew as <- <-. destruct (wp_command _ _ _ (raise_prev_ok _ _ _ _ _ _ _ _ height Hr ltac:(lia))) as (s' & E & Hr' & En & Ef).
    exists s', l, lh. split_and!; [done| |by apply evolves_nodes]. rewrite <- !(keys_of_nodes s s'), <- Ef by done. by apply inv_raise_height.
  - injection Ew as <- <-. destruct (wp_command _ _ _ (raise_height_ok _ _ _ _ _ _ _ _ height Hr ltac:(lia))) as (s' & E & Hr' & Hh' & En & Ef).
    exists s', l, lh. split_and!; [done| |by apply evolves_nodes]. rewrite <- !(keys_of_nodes s s'), <- Ef by done. apply inv_new; [done|lia].
  - injection Ew as <- <-. destruct (wp_command _ _ _ (NewNode_ok _ _ _ _ _ _ _ _ height Hr ltac:(lia))) as (s' & E & Hl & Hev).
    exists s', l, (lh_set lh (fresh s) 0). split_and!; [done| |done]. destruct Hr as [_ (-> & _) _ _ _ _].
    pose proof (inv_init s' k (fresh s) 0 height l1 l2 _ Hl) as Hi. rewrite keys_of_app in Hi.
    destruct (lk_node _ _ _ _ _ _ _ _ _ _ Hl) as (nd & Ex & <- & _).
    rewrite (keys_of_cons _ _ _ (key nd)) in Hi by (unfold key_of; by rewrite Ex).
    rewrite (keys_of_frame s s' l1), (keys_of_frame s s' l2) in Hi by (intros y Hy; apply (ev_key _ _ _ _ _ _ Hev); set_solver).
    apply Hi. lia.
  - destruct n as [|n]; injection Ew as <- <-.
    + rewrite Nat.add_0_r in *. destruct (wp_command _ _ _ (finish_insert_ok _ _ _ _ _ _ _ _ _ Hl Hn)) as (s' & E & Hid & En).
      exists s', (l1 ++ x :: l2), lh. unfold visible. rewrite decide_False by lia. split_and!; [done| |by apply evolves_nodes].
      rewrite <- (keys_of_nodes s s') by done. by apply inv_idle.
    + destruct (wp_command _ _ _ (init_level_ok _ _ _ _ _ _ _ _ _ _ Hl ltac:(lia))) as (s' & E & lh' & Hl' & (p & Ep & Hp & Hnx) & Hk & Hev).
      exists s', (visible i l1 x l2), lh'. split_and!; [done| |done].
      rewrite <- (keys_of_frame s s') by (intros; apply Hk). rewrite <- Nat.add_succ_comm. by eapply inv_publish.
  - injection Ew as <- <-. destruct (wp_command _ _ _ (publish_level_ok _ _ _ _ _ _ _ _ _ _ _ Hl ltac:(lia) Ep Hp Hnx)) as (s' & E & lh' & Hl' & Hk & Hev).
    exists s', (visible (S i) l1 x l2), lh'. split_and!; [done| |done].
    rewrite <- (keys_of_frame s s') by (intros; apply Hk). eapply inv_init; [by rewrite Nat.add_succ_comm|lia].
Qed.

Lemma inv_begin s l lh ks k rnd : inv s [] l lh ks -> absent s k ->
  inv s (insert_commands compare_ k (RandomHeight kScaledInverseBranching_ rnd kMaxHeight_) (fresh s)) l lh (spec_insert compare_ k ks).
Proof.
  intros Hinv Ha. pose proof (wf_max _ _ _ _ _ (inv_wf _ _ _ _ _ Hinv)) as Hm. remember [] as cs eqn:E. destruct Hinv; try done.
  - apply inv_find; [done|done|]. apply RandomHeight_bound. lia.
  - by destruct n.
Qed.

Lemma inv_new_list : (1 <= kMaxHeight_)%nat -> inv (new k0 kMaxHeight_) [] [] (fun _ => kMaxHeight_) [].
Proof.
  intros Hm. apply (inv_idle _ [] _). assert (Hn : nodes (new k0 kMaxHeight_) !! head_ = Some (mkNode k0 (replicate kMaxHeight_ (Some None)))) by done.
  split; [split; [split|]| | |]; cbn; try done.
  - intros pre x suf i E Hi. destruct pre as [|? [|??]]; try done. injection E as <- <-. unfold Next. rewrite Hn. cbn.
    by rewrite lookup_replicate_2.
  - intros x Hx%list_elem_of_singleton. subst x. eexists. split; [done|]. cbn. rewrite length_replicate. lia.
  - by intros x Hx%elem_of_nil.
  - apply NoDup_singleton.
  - constructor.
  - intros x [nd Hx]. apply lookup_singleton_Some in Hx as [<- _]. lia.
  - apply length_replicate.
  - intros y [nd Hx]. apply lookup_singleton_Some in Hx as [<- _]. by left.
  - exists [], [], head_. split_and!; cbn; try done; try lia. by apply lookup_replicate_2.
Qed.

(** Every step keeps the invariant and lets the list only grow. *)
Lemma wstep_inv w w' l lh ks : wstep w w' -> inv w.1 w.2 l lh ks ->
  exists l' lh' ks', inv w'.1 w'.2 l' lh' ks' /\ evolves w.1 l lh w'.1 l' lh'.
Proof.
  intros [c cs s s' E|s k rnd Ha] Hinv; cbn in *.
  - destruct (inv_step _ _ _ _ _ _ Hinv) as (s'' & l' & lh' & E' & Hinv' & Hev). rewrite E in E'. injection E' as <-.
    by exists l', lh', ks.
  - exists l, lh, (spec_insert compare_ k ks). split; [by apply inv_begin|apply evolves_refl].
Qed.
Lemma wsteps_inv w w' l lh ks : rtc wstep w w' -> inv w.1 w.2 l lh ks ->
  exists l' lh' ks', inv w'.1 w'.2 l' lh' ks' /\ evolves w.1 l lh w'.1 l' lh'.
Proof.
  intros Hr. revert l lh ks. induction Hr as [w|w w1 w2 Hs _ IH]; intros l lh ks Hinv.
  - exists l, lh, ks. split; [done|apply evolves_refl].
  - destruct (wstep_inv _ _ _ _ _ Hs Hinv) as (l1 & lh1 & ks1 & H1 & E1). destruct (IH _ _ _ H1) as (l2 & lh2 & ks2 & H2 & E2).
    exists l2, lh2, ks2. split; [done|]. by eapply evolves_trans.
Qed.
Lemma skip_reachable_inv w : (1 <= kMaxHeight_)%nat -> reachable w -> exists l lh ks, inv w.1 w.2 l lh ks.
Proof. intros Hm Hr. destruct (wsteps_inv _ _ _ _ _ Hr (inv_new_list Hm)) as (l & lh & ks & H & _). by exists l, lh, ks. Qed.

(** ** What a reader sees *)

Lemma keys_sorted s l : StronglySorted (node_lt compare_ s) l -> StronglySorted (fun a b => compare_ a b < 0) (keys_of s l).
Proof.
  induction 1 as [|y l HS IH Hy]; [constructor|]. cbn. destruct (key_of s y) as [ky|] eqn:Ey; [|done]. constructor; [done|].
  apply Forall_forall. intros kz (z & Hz & Ez)%list_elem_of_omap. rewrite Forall_forall in Hy.
  destruct (Hy z Hz) as (kz' & Ez' & ky' & Ey' & Hlt). congruence.
Qed.
Lemma keys_sublist s l s' l' lh lh' : evolves s l lh s' l' lh' -> sublist (keys_of s l) (keys_of s' l').
Proof.
  intros [Hs _ Hk]. rewrite <- (keys_of_frame s s' l) by (intros y Hy; apply Hk; by right). clear Hk. induction Hs; cbn.
  - constructor.
  - destruct (key_of s' x); [by apply sublist_skip|done].
  - destruct (key_of s' x); [by apply sublist_cons|done].
Qed.
Lemma wf_size s l lh : wf s l lh -> (length l < size (nodes s))%nat.
Proof.
  intros Hwf. rewrite <- size_dom. enough (Hsub : list_to_set (C := gset nat) (head_ :: l) ⊆ dom (nodes s)).
  { apply subseteq_size in Hsub. rewrite size_list_to_set in Hsub by apply Hwf. cbn in Hsub. lia. }
  intros y Hy%elem_of_list_to_set. apply elem_of_dom. destruct (wf_nodes _ _ _ _ _ Hwf y Hy) as (nd & E & _). by exists nd.
Qed.

Lemma wf_next s l lh pre x suf : wf s l lh -> head_ :: l = pre ++ x :: suf -> Next s x 0 = Some (head suf).
Proof.
  intros Hwf E. rewrite (wf_links _ _ _ _ _ Hwf pre x suf 0%nat E).
  - f_equal. by eapply first_above_0.
  - assert (Hx : x ∈ head_ :: l) by (rewrite E; set_solver). apply elem_of_cons in Hx as [->|Hx]; [|by apply (wf_linked _ _ _ _ _ Hwf)].
    rewrite (wf_head _ _ _ _ _ Hwf). pose proof (wf_max _ _ _ _ _ Hwf). lia.
Qed.
Lemma scan_ok s l lh suf : forall n pre, wf s l lh -> l = pre ++ suf -> (length suf < n)%nat -> scan n s (head suf) = Some (keys_of s suf).
Proof.
  induction suf as [|x suf IH]; intros n pre Hwf E Hn; (destruct n as [|n]; [cbn in Hn; lia|]); [done|].
  destruct (wf_key _ _ _ _ _ x Hwf) as (kx & Ek); [rewrite E; set_solver|]. rewrite (keys_of_cons _ _ _ _ Ek).
  cbn [scan head]. unfold Iterator.Valid. rewrite bool_decide_true by done. cbn [Iterator.key mbind option_bind]. unfold Iterator.key.
  cbn [mbind option_bind]. rewrite Ek. cbn [mbind option_bind]. unfold Iterator.Next. cbn [mbind option_bind].
  rewrite (wf_next s l lh (head_ :: pre) x suf) by (done || by rewrite E). cbn [mbind option_bind].
  rewrite (IH n (pre ++ [x])); [done|done|by rewrite <- app_assoc|cbn in Hn; lia].
Qed.
Lemma contents_ok s l lh : wf s l lh -> contents s = Some (keys_of s l).
Proof.
  intros Hwf. unfold contents, Iterator.SeekToFirst. rewrite (wf_next s l lh [] head_ l) by done. cbn [mbind option_bind].
  apply (scan_ok s l lh l _ []); [done|done|]. pose proof (wf_size _ _ _ Hwf). lia.
Qed.

(** A node of the list, and its key. *)
Lemma at_head s l lh pre suf : wf s l lh -> l = pre ++ suf -> at_key s (head suf) (head (keys_of s suf)).
Proof.
  intros Hwf ->. destruct suf as [|x suf]; [done|]. destruct (wf_key _ _ _ _ _ x Hwf) as (kx & Ek); [set_solver|].
  rewrite (keys_of_cons _ _ _ _ Ek). by exists kx.
Qed.
Lemma at_last s l lh pre suf y : wf s l lh -> l = pre ++ suf -> last (head_ :: pre) = Some y ->
  at_key s (if decide (y = head_) then None else Some y) (last (keys_of s pre)).
Proof.
  intros Hwf -> Hy. destruct pre as [|x pre _] using rev_ind; [injection Hy as <-; by rewrite decide_True|].
  rewrite app_comm_cons, last_snoc in Hy. injection Hy as <-. destruct (wf_key _ _ _ _ _ x Hwf) as (kx & Ek); [set_solver|].
  rewrite decide_False; [|intros ->; pose proof (wf_nodup _ _ _ _ _ Hwf) as Hnd; apply NoDup_cons in Hnd as [Hnd _]; set_solver].
  rewrite keys_of_app, (keys_of_cons _ _ _ _ Ek). change (keys_of s []) with (@nil K). rewrite last_snoc. by exists kx.
Qed.

Lemma existsb_app_false (f : K -> bool) a b : Forall (fun z => f z = false) a -> existsb f (a ++ b) = existsb f b.
Proof. induction 1 as [|z a Hz _ IH]; [done|]. cbn. by rewrite Hz. Qed.
(** Only the first key that is not before [k] can be equal to it. *)
Lemma contains_cut s l lh k l1 l2 : wf s l lh -> cut s l k l1 l2 ->
  match head l2 with
  | None => Some false
  | Some x => kx ← key_of s x; Some (bool_decide (compare_ k kx = 0))
  end = Some (spec_contains compare_ k (keys_of s l)).
Proof.
  intros Hwf (-> & H1 & H2). pose proof (wf_sorted _ _ _ _ _ Hwf) as HS. apply keys_sorted in HS. rewrite keys_of_app in *.
  unfold spec_contains. rewrite existsb_app_false.
  2:{ apply Forall_forall. intros ky (y & Hy & Ey)%list_elem_of_omap. rewrite Forall_forall in H1. destruct (H1 y Hy) as (ky' & Ey' & Hlt).
    rewrite Ey in Ey'. injection Ey' as <-. apply bool_decide_false. intros H0. apply compare_antisym in Hlt. lia. }
  destruct l2 as [|x l2]; [done|]. cbn [head]. destruct (wf_key _ _ _ _ _ x Hwf) as (kx & Ek); [set_solver|].
  rewrite Ek, (keys_of_cons _ _ _ _ Ek) in *. cbn. f_equal. apply StronglySorted_app in HS as (_ & _ & HS).
  apply StronglySorted_inv in HS as [_ HS]. destruct (decide (compare_ k kx = 0)) as [H0|H0].
  { by rewrite bool_decide_true. }
  rewrite bool_decide_false by done. cbn. symmetry. rewrite <- (app_nil_r (keys_of s l2)). apply existsb_app_false.
  apply Forall_forall. intros kz Hz. rewrite Forall_forall in HS. specialize (HS kz Hz). apply bool_decide_false. intros Hk.
  inversion H2 as [|?? (kx' & Ek' & Hge) _]; subst. rewrite Ek in Ek'. injection Ek' as <-.
  assert (Hlt : compare_ kx kz < 0) by done. assert (Hlt' : compare_ kx k < 0).
  { apply (compare_eq_r kz); [|done]. destruct (Z.lt_trichotomy (compare_ kz k) 0) as [C|[C|C]]; [apply compare_antisym in C; lia|done|].
    apply compare_antisym in C. lia. }
  lia.
Qed.

(** ** Runs: only the states of a search's own loads matter *)

Section ext.
Context (st st' : nat -> t K) (n : nat).
Hypothesis same : forall j, (j <= n)%nat -> st j = st' j.

Lemma FindGreaterOrEqual_loop_ext k : forall fuel i x level lb, (i + fuel <= S n)%nat ->
  FindGreaterOrEqual_loop compare_ fuel st i k x level lb = FindGreaterOrEqual_loop compare_ fuel st' i k x level lb.
Proof.
  induction fuel as [|fuel IH]; intros i x level lb Hn; [done|]. cbn [FindGreaterOrEqual_loop]. rewrite same by lia.
  destruct (Next _ _ _) as [next|]; [|done]. cbn [mbind option_bind]. destruct (compare_next _ _ _ _ _); [|done]. cbn [mbind option_bind].
  case_decide; [done|]. case_decide; [|apply IH; lia]. destruct next; [|done]. cbn [mbind option_bind]. apply IH. lia.
Qed.
Lemma FindLessThan_loop_ext k : forall fuel i x level na prev, (i + fuel <= S n)%nat ->
  FindLessThan_loop compare_ fuel st i k x level na prev = FindLessThan_loop compare_ fuel st' i k x level na prev.
Proof.
  induction fuel as [|fuel IH]; intros i x level na prev Hn; [done|]. cbn [FindLessThan_loop]. rewrite same by lia.
  destruct (Next _ _ _) as [next|]; [|done]. cbn [mbind option_bind]. destruct (after_next _ _ _ _ _) as [b|]; [|done]. cbn [mbind option_bind].
  destruct b; [|case_decide; [done|apply IH; lia]]. destruct next; [|done]. cbn [mbind option_bind]. apply IH. lia.
Qed.
Lemma FindLast_loop_ext : forall fuel i x level, (i + fuel <= S n)%nat ->
  FindLast_loop fuel st i x level = FindLast_loop fuel st' i x level.
Proof.
  induction fuel as [|fuel IH]; intros i x level Hn; [done|]. cbn [FindLast_loop]. rewrite same by lia.
  destruct (Next _ _ _) as [[m|]|]; cbn [mbind option_bind]; [apply IH; lia|case_decide; [done|apply IH; lia]|done].
Qed.
End ext.

(** A search makes at most one load per round. *)
Lemma FindGreaterOrEqual_loop_index st k : forall fuel i x level lb r j,
  FindGreaterOrEqual_loop compare_ fuel st i k x level lb = Some (r, j) -> (j < i + fuel)%nat.
Proof.
  induction fuel as [|fuel IH]; intros i x level lb r j E; [done|]. cbn [FindGreaterOrEqual_loop] in E.
  apply bind_Some in E as (next & _ & (cmp & _ & E)%bind_Some). case_decide; [injection E as <- <-; lia|].
  case_decide; [apply bind_Some in E as (n & _ & E)|]; apply IH in E; lia.
Qed.
Lemma FindLessThan_loop_index st k : forall fuel i x level na prev r j,
  FindLessThan_loop compare_ fuel st i k x level na prev = Some (r, j) -> (j < i + fuel)%nat.
Proof.
  induction fuel as [|fuel IH]; intros i x level na prev r j E; [done|]. cbn [FindLessThan_loop] in E.
  apply bind_Some in E as (next & _ & ([] & _ & E)%bind_Some); [apply bind_Some in E as (n & _ & E); apply IH in E; lia|].
  case_decide; [injection E as <- <-; lia|apply IH in E; lia].
Qed.
Lemma FindLast_loop_index (st : nat -> t K) : forall fuel i x level r j, FindLast_loop fuel st i x level = Some (r, j) -> (j < i + fuel)%nat.
Proof.
  induction fuel as [|fuel IH]; intros i x level r j E; [done|]. cbn [FindLast_loop] in E.
  apply bind_Some in E as ([n|] & _ & E); [apply IH in E; lia|]. case_decide; [injection E as <- <-; lia|apply IH in E; lia].
Qed.

Section run.
Context (run : nat -> @writer K) (N fuel : nat).
Hypothesis max_pos : (1 <= kMaxHeight_)%nat.
Hypothesis run_start : reachable (run 0%nat).
Hypothesis run_step : forall i, rtc wstep (run i) (run (S i)).
Hypothesis run_bound : forall i, (size (nodes (run i).1) <= N)%nat.
Hypothesis fuel_enough : (N + kMaxHeight_ <= fuel)%nat.
Let st i := (run i).1.

Lemma run_ghost n : exists (L : nat -> list nat) (H : nat -> nat -> nat),
  (exists ks, inv (run n).1 (run n).2 (L n) (H n) ks) /\ (forall i, (i <= n)%nat -> wf (st i) (L i) (H i)) /\
  (forall i, (i < n)%nat -> evolves (st i) (L i) (H i) (st (S i)) (L (S i)) (H (S i))).
Proof.
  induction n as [|n (L & H & (ks & Hinv) & Hwf & Hev)].
  - destruct (skip_reachable_inv _ max_pos run_start) as (l & lh & ks & Hinv). exists (fun _ => l), (fun _ => lh).
    split_and!; [by exists ks| |lia]. intros i Hi. replace i with 0%nat by lia. by eapply inv_wf.
  - destruct (wsteps_inv _ _ _ _ _ (run_step n) Hinv) as (l & lh & ks' & Hinv' & Hev').
    exists (fun i => if decide (i <= n)%nat then L i else l), (fun i => if decide (i <= n)%nat then H i else lh).
    split_and!.
    + rewrite !decide_False by lia. by exists ks'.
    + intros i Hi. case_decide; [by apply Hwf|]. replace i with (S n) by lia. by eapply inv_wf.
    + intros i Hi. rewrite (decide_True (P := (i <= n)%nat)), (decide_True (P := (i <= n)%nat)) by lia.
      destruct (decide (i = n)) as [->|]; [rewrite !decide_False by lia; done|rewrite !decide_True by lia; apply Hev; lia].
Qed.

(** The states of the loads, as an endless trace. *)
Lemma run_trace : exists (st' : nat -> t K) (L : nat -> list nat) (H : nat -> nat -> nat), (forall j, (j <= fuel)%nat -> st j = st' j) /\
  (forall i, wf (st' i) (L i) (H i)) /\ (forall i, evolves (st' i) (L i) (H i) (st' (S i)) (L (S i)) (H (S i))) /\
  (forall i, (length (L i) <= N)%nat) /\ (forall i, exists j, (j <= fuel)%nat /\ st' i = st j).
Proof.
  destruct (run_ghost fuel) as (L & H & _ & Hwf & Hev).
  exists (fun i => st (Nat.min i fuel)), (fun i => L (Nat.min i fuel)), (fun i => H (Nat.min i fuel)). split_and!.
  - intros j Hj. f_equal. lia.
  - intros i. apply Hwf. lia.
  - intros i. destruct (decide (i < fuel)%nat); [rewrite !Nat.min_l by lia; by apply Hev|rewrite !Nat.min_r by lia; apply evolves_refl].
  - intros i. pose proof (wf_size _ _ _ (Hwf (Nat.min i fuel) ltac:(lia))). specialize (run_bound (Nat.min i fuel)). unfold st in *. lia.
  - intros i. exists (Nat.min i fuel). split; [lia|done].
Qed.
Lemma trace_grows (st' : nat -> t K) (L : nat -> list nat) (H : nat -> nat -> nat) j :
  (forall i, evolves (st' i) (L i) (H i) (st' (S i)) (L (S i)) (H (S i))) -> evolves (st' 0%nat) (L 0%nat) (H 0%nat) (st' j) (L j) (H j).
Proof. intros Hev. induction j as [|j IH]; [apply evolves_refl|]. by eapply evolves_trans. Qed.

(** The list as a search finds it: sorted, and with all that was in it at the start of the search. *)
Definition seen_at (j : nat) ks : Prop := contents (st j) = Some ks /\ StronglySorted (fun a b => compare_ a b < 0) ks /\
  exists ks0, contents (st 0%nat) = Some ks0 /\ sublist ks0 ks.

Lemma trace_seen (st' : nat -> t K) (L : nat -> list nat) (H : nat -> nat -> nat) j : (forall j, (j <= fuel)%nat -> st j = st' j) ->
  (forall i, wf (st' i) (L i) (H i)) -> (forall i, evolves (st' i) (L i) (H i) (st' (S i)) (L (S i)) (H (S i))) ->
  (j <= fuel)%nat -> seen_at j (keys_of (st' j) (L j)).
Proof.
  intros Hst Hwf Hev Hj. unfold seen_at. rewrite !Hst by lia. split_and!; [by eapply contents_ok|apply keys_sorted, Hwf|].
  exists (keys_of (st' 0%nat) (L 0%nat)). split; [by eapply contents_ok|]. by eapply keys_sublist, trace_grows.
Qed.

(** *** Each search ends, at a load [j], with what the list holds there *)

Lemma run_greater k : exists node_ j ks, FindGreaterOrEqual compare_ fuel st k = Some (node_, j) /\ seen_at j ks /\
  at_key (st j) node_ (head (keys_from compare_ k ks)) /\ Contains compare_ fuel st k = Some (spec_contains compare_ k ks).
Proof.
  destruct run_trace as (st' & L & H & Hst & Hwf & Hev & HN & _). pose proof (wf_max _ _ _ _ _ (Hwf 0%nat)) as Hm.
  destruct (FindGreaterOrEqual_ok compare_ kMaxHeight_ st' L H N Hwf Hev HN k fuel ltac:(lia)) as (j & l1 & l2 & E & Hcut).
  assert (Hj : (j <= fuel)%nat) by (apply FindGreaterOrEqual_loop_index in E; lia).
  assert (E' : FindGreaterOrEqual compare_ fuel st k = Some (head l2, j)).
  { rewrite <- E. unfold FindGreaterOrEqual. rewrite (Hst 0%nat) by lia. apply (FindGreaterOrEqual_loop_ext st st' fuel Hst). lia. }
  exists (head l2), j, (keys_of (st' j) (L j)). destruct (keys_cut _ _ _ _ _ Hcut) as [_ Ek]. split_and!; [done|by apply trace_seen with H| |].
  - rewrite Hst, Ek by lia. destruct Hcut as (EL & _). by eapply at_head.
  - unfold Contains. rewrite E'. cbn [mbind option_bind]. rewrite <- (contains_cut _ _ _ _ _ _ (Hwf j) Hcut). rewrite Hst by lia. by destruct (head l2).
Qed.

Lemma run_less k prev : exists y prev' j ks, FindLessThan compare_ fuel st k prev = Some (y, prev', j) /\ seen_at j ks /\
  at_key (st j) (if decide (y = head_) then None else Some y) (last (keys_before compare_ k ks)).
Proof.
  destruct run_trace as (st' & L & H & Hst & Hwf & Hev & HN & _). pose proof (wf_max _ _ _ _ _ (Hwf 0%nat)) as Hm.
  destruct (FindLessThan_ok compare_ kMaxHeight_ st' L H N Hwf Hev HN k fuel prev ltac:(lia)) as (j & y & prev' & l1 & l2 & E & Hcut & Hy & _).
  assert (Hj : (j <= fuel)%nat) by (apply FindLessThan_loop_index in E; lia).
  exists y, prev', j, (keys_of (st' j) (L j)). destruct (keys_cut _ _ _ _ _ Hcut) as [Ek _]. split_and!; [|by apply trace_seen with H|].
  - rewrite <- E. unfold FindLessThan. rewrite (Hst 0%nat) by lia. apply (FindLessThan_loop_ext st st' fuel Hst). lia.
  - rewrite Hst, Ek by lia. destruct Hcut as (EL & _). by eapply at_last.
Qed.

Lemma run_last : exists y j ks, FindLast fuel st = Some (y, j) /\ seen_at j ks /\
  at_key (st j) (if decide (y = head_) then None else Some y) (last ks).
Proof.
  destruct run_trace as (st' & L & H & Hst & Hwf & Hev & HN & _). pose proof (wf_max _ _ _ _ _ (Hwf 0%nat)) as Hm.
  destruct (FindLast_ok compare_ kMaxHeight_ st' L H N Hwf Hev HN fuel ltac:(lia)) as (j & y & E & Hy).
  assert (Hj : (j <= fuel)%nat) by (apply FindLast_loop_index in E; lia).
  exists y, j, (keys_of (st' j) (L j)). split_and!; [|by apply trace_seen with H|].
  - rewrite <- E. unfold FindLast. rewrite (Hst 0%nat) by lia. apply (FindLast_loop_ext st st' fuel Hst). lia.
  - rewrite Hst by lia. apply (at_last (st' j) (L j) (H j) (L j) []); [done|by rewrite app_nil_r|done].
Qed.
End run.

(** ** Sorted keys *)

Lemma compare_zero_sym a b : compare_ a b = 0 -> compare_ b a = 0.
Proof. intros H. pose proof (compare_antisym a b). pose proof (compare_antisym b a). lia. Qed.

Notation sorted := (StronglySorted (fun a b => compare_ a b < 0)).
Lemma sorted_split k ks : sorted ks -> ks = keys_before compare_ k ks ++ keys_from compare_ k ks.
Proof.
  unfold keys_before, keys_from. induction 1 as [|a ks HS IH Ha]; [done|]. destruct (decide (compare_ a k < 0)) as [Hd|Hd].
  - rewrite filter_cons_True, filter_cons_False by tauto. cbn. by f_equal.
  - assert (Hall : Forall (fun b => ~ compare_ b k < 0) (a :: ks)).
    { constructor; [done|]. eapply Forall_impl; [exact Ha|]. intros b Hb Hbk. apply Hd. by apply (compare_trans _ b). }
    rewrite (filter_none _ (a :: ks)), filter_all by done. done.
Qed.
Lemma keys_before_all k ks : Forall (fun a => compare_ a k < 0) (keys_before compare_ k ks).
Proof. apply Forall_forall. intros a Ha. by apply list_elem_of_filter in Ha as [? _]. Qed.
Lemma keys_from_all k ks : Forall (fun a => ~ compare_ a k < 0) (keys_from compare_ k ks).
Proof. apply Forall_forall. intros a Ha. by apply list_elem_of_filter in Ha as [? _]. Qed.

(** The first key [a] from [k] on: what is before it, and what comes after it. *)
Lemma sorted_first k ks a b : sorted ks -> keys_from compare_ k ks = a :: b ->
  keys_before compare_ a ks = keys_before compare_ k ks /\
  spec_seek_for_prev compare_ k ks = (if decide (compare_ k a < 0) then last (keys_before compare_ k ks) else Some a) /\
  (compare_ k a = 0 -> filter (fun z => 0 < compare_ z k) ks = b).
Proof.
  intros HS Ef. pose proof (sorted_split k ks HS) as Es. pose proof (keys_before_all k ks) as HB. pose proof (keys_from_all k ks) as HF.
  rewrite Ef in *. set (A := keys_before compare_ k ks) in *. clearbody A. subst ks. apply StronglySorted_app in HS as (HAB & _ & HS).
  apply StronglySorted_inv in HS as [_ Hab]. apply Forall_cons in HF as [Ha HF].
  assert (HA : Forall (fun z => compare_ z k <= 0) A) by (eapply Forall_impl; [exact HB|]; cbn; lia).
  assert (Hb : Forall (fun z => 0 < compare_ z k) b).
  { eapply Forall_impl; [exact Hab|]. intros z Hz. apply compare_antisym. destruct (decide (compare_ k a < 0)); [by apply (compare_trans _ a)|].
    apply (compare_eq_l a); [|done]. pose proof (compare_antisym k a). pose proof (compare_antisym a k). lia. }
  split_and!.
  - unfold keys_before. rewrite filter_app, filter_all, filter_none; [by rewrite app_nil_r| |].
    + constructor; [pose proof (compare_antisym a a); lia|]. eapply Forall_impl; [exact Hab|]. cbn. intros z Hz. pose proof (compare_antisym a z). pose proof (compare_antisym z a). lia.
    + apply Forall_forall. intros z Hz. apply HAB; [done|by left].
  - unfold spec_seek_for_prev. rewrite filter_app, filter_all by done. case_decide as Hd.
    + rewrite filter_none; [by rewrite app_nil_r|]. constructor; [apply compare_antisym in Hd; lia|]. eapply Forall_impl; [exact Hb|]. cbn. lia.
    + rewrite filter_cons_True by (pose proof (compare_antisym k a); lia). rewrite filter_none; [by rewrite last_snoc|].
      eapply Forall_impl; [exact Hb|]. cbn. lia.
  - intros H0. rewrite filter_app, filter_none by (eapply Forall_impl; [exact HB|]; cbn; lia).
    rewrite filter_cons_False by (apply compare_zero_sym in H0; lia). by rewrite filter_all.
Qed.
Lemma sorted_end k ks : sorted ks -> keys_from compare_ k ks = [] -> spec_seek_for_prev compare_ k ks = last ks /\ keys_before compare_ k ks = ks.
Proof.
  intros HS Ef. pose proof (sorted_split k ks HS) as Es. rewrite Ef, app_nil_r in Es. split; [|done]. unfold spec_seek_for_prev. f_equal.
  apply filter_all. rewrite Es. eapply Forall_impl; [apply keys_before_all|]. cbn. lia.
Qed.

(** ** Insertion as a whole *)

Lemma run_commands s cs l lh ks : inv s cs l lh ks -> exists s' l' lh', for_each id cs s = Some (tt, s') /\ inv s' [] l' lh' ks /\ rtc wstep (s, cs) (s', []).
Proof.
  revert s l lh. induction cs as [|c cs IH]; intros s l lh Hinv; [by exists s, l, lh|].
  destruct (inv_step _ _ _ _ _ _ Hinv) as (s1 & l1 & lh1 & E & Hinv1 & _). destruct (IH _ _ _ Hinv1) as (s' & l' & lh' & E' & Hinv' & Hr).
  exists s', l', lh'. split_and!; [|done|by eapply rtc_l; [apply w_command|]]. cbn. unfold mbind, M_bind, id. by rewrite E.
Qed.
Lemma inv_idle_inv s l lh ks : inv s [] l lh ks -> idle s l lh /\ ks = keys_of s l.
Proof. intros Hinv. remember [] as cs eqn:E. destruct Hinv; try done. by destruct n. Qed.

Lemma absent_spec s l lh k : idle s l lh -> absent s k <-> spec_contains compare_ k (keys_of s l) = false.
Proof.
  intros [Hwf _ Hheap _]. rewrite <- not_true_iff_false. unfold spec_contains. rewrite existsb_exists. split.
  - intros Ha (kx & Hin%list_elem_of_In & H0%bool_decide_eq_true). apply list_elem_of_omap in Hin as (x & Hx & Ek).
    unfold key_of in Ek. destruct (nodes s !! x) as [nd|] eqn:En; [|done]. injection Ek as <-. destruct (Ha x nd En) as [->|Hne].
    + pose proof (wf_nodup _ _ _ _ _ Hwf) as Hnd. by apply NoDup_cons in Hnd as [? _].
    + apply Hne. by apply compare_zero_sym.
  - intros Hn x nd En. destruct (decide (x = head_)) as [|Hx]; [by left|right]. intros H0. apply Hn. exists (key nd).
    split; [|apply bool_decide_true; by apply compare_zero_sym]. apply list_elem_of_In, list_elem_of_omap. exists x.
    specialize (Hheap x ltac:(by eexists)). split; [set_solver|]. unfold key_of. by rewrite En.
Qed.

(** *** One reader alone *)

Section alone.
Context (s : t K) (fuel : nat) (l : list nat) (lh : nat -> nat) (ks : list K).
Hypothesis max_pos : (1 <= kMaxHeight_)%nat.
Hypothesis start : reachable (s, []).
Hypothesis fuel_ok : (size (nodes s) + kMaxHeight_ <= fuel)%nat.
Hypothesis wf_s : wf s l lh.
Hypothesis contents_s : contents s = Some ks.
Let st : nat -> t K := fun _ => s.

Lemma alone_seen (j : nat) ks' : seen_at (fun _ => (s, [])) j ks' -> ks' = ks /\ sorted ks.
Proof. intros (E & HS & _). cbn in E. rewrite contents_s in E. by injection E as <-. Qed.

Lemma alone_seek k : exists n, Iterator.Seek compare_ fuel st k = Some n /\ at_key s n (head (keys_from compare_ k ks)).
Proof.
  destruct (run_greater (fun _ => (s, [])) _ fuel max_pos start ltac:(done) ltac:(done) fuel_ok k) as (n & j & ks' & E & Hs & Hk & _).
  apply alone_seen in Hs as [-> _]. exists n. split; [|done]. unfold Iterator.Seek, st. cbn in E. by rewrite E.
Qed.
Lemma alone_contains k : Contains compare_ fuel st k = Some (spec_contains compare_ k ks).
Proof.
  destruct (run_greater (fun _ => (s, [])) _ fuel max_pos start ltac:(done) ltac:(done) fuel_ok k) as (n & j & ks' & _ & Hs & _ & E).
  by apply alone_seen in Hs as [-> _].
Qed.
Lemma alone_prev x k : key_of s x = Some k ->
  exists n, Iterator.Prev compare_ fuel st (Some x) = Some n /\ at_key s n (last (keys_before compare_ k ks)).
Proof.
  intros Ek. destruct (run_less (fun _ => (s, [])) _ fuel max_pos start ltac:(done) ltac:(done) fuel_ok k []) as (y & prev & j & ks' & E & Hs & Hk).
  apply alone_seen in Hs as [-> _]. eexists. split; [|exact Hk]. unfold Iterator.Prev. cbn [mbind option_bind]. unfold st. rewrite Ek.
  cbn [mbind option_bind]. cbn in E. by rewrite E.
Qed.
Lemma alone_last : exists n, Iterator.SeekToLast fuel st = Some n /\ at_key s n (last ks).
Proof.
  destruct (run_last (fun _ => (s, [])) _ fuel max_pos start ltac:(done) ltac:(done) fuel_ok) as (y & j & ks' & E & Hs & Hk).
  apply alone_seen in Hs as [-> _]. eexists. split; [|exact Hk]. unfold Iterator.SeekToLast, st. cbn in E. by rewrite E.
Qed.
Lemma alone_next x k : key_of s x = Some k -> x ∈ l ->
  exists n, Iterator.Next st (Some x) = Some n /\ at_key s n (head (filter (fun a => 0 < compare_ a k) ks)).
Proof.
  intros Ek (pre & suf & ->)%list_elem_of_split. exists (head suf). unfold Iterator.Next, st. cbn [mbind option_bind]. split.
  - by apply (wf_next s (pre ++ x :: suf) lh (head_ :: pre)).
  - pose proof (contents_ok _ _ _ wf_s) as E. rewrite contents_s in E. injection E as E.
    assert (Hcut : cut s (pre ++ x :: suf) k pre (x :: suf)).
    { pose proof (wf_sorted _ _ _ _ _ wf_s) as HS. apply sorted_cut; [done|done| |].
      - intros y Hy%last_Some_elem_of. apply StronglySorted_app in HS as (A & _ & _). destruct (A y x Hy ltac:(by left)) as (k' & Ek' & Hlt).
        rewrite Ek in Ek'. by injection Ek' as <-.
      - intros y [= <-]. exists k. split; [done|]. pose proof (compare_antisym k k). lia. }
    destruct (keys_cut _ _ _ _ _ Hcut) as [_ Ef]. rewrite <- E, (keys_of_cons _ _ _ _ Ek) in Ef.
    destruct (sorted_first k ks k _ ltac:(rewrite E; apply keys_sorted, wf_s) Ef) as (_ & _ & ->).
    + apply (at_head s (pre ++ x :: suf) lh (pre ++ [x])); [done|by rewrite <- app_assoc].
    + pose proof (compare_antisym k k). lia.
Qed.

Lemma SeekForPrev_stop r k n : at_key s n (last (keys_before compare_ k ks)) ->
  Iterator.SeekForPrev_loop compare_ (S r) fuel s k n = Some n.
Proof.
  intros Hn. cbn [Iterator.SeekForPrev_loop]. destruct n as [m|]; [|done]. destruct Hn as (km & Em & ->). cbn [mbind option_bind].
  apply last_Some_elem_of, list_elem_of_filter in Em as [Hm _]. apply compare_antisym in Hm. by destruct (Z.ltb_spec (compare_ k km) 0); [lia|].
Qed.
(** At most one step back is needed. *)
Lemma alone_seek_for_prev k r : exists n, Iterator.SeekForPrev compare_ (S (S r)) fuel s k = Some n /\ at_key s n (spec_seek_for_prev compare_ k ks).
Proof.
  assert (HS : sorted ks). { pose proof (contents_ok _ _ _ wf_s) as E. rewrite contents_s in E. injection E as ->. apply keys_sorted, wf_s. }
  destruct (alone_seek k) as (n & En & Hn). unfold Iterator.SeekForPrev. unfold st in En. rewrite En. cbn [mbind option_bind].
  unfold Iterator.Valid. destruct n as [x|].
  - rewrite bool_decide_true by done. cbn [mbind option_bind]. destruct Hn as (kx & Ef & Ek).
    destruct (keys_from compare_ k ks) as [|kx' b] eqn:Efr; [done|]. injection Ef as ->.
    destruct (sorted_first k ks kx b HS Efr) as (Eb & -> & _). remember (S r) as r'. cbn [Iterator.SeekForPrev_loop]. rewrite Ek. cbn [mbind option_bind].
    case_decide as Hd.
    + rewrite (proj2 (Z.ltb_lt _ _) Hd). destruct (alone_prev x kx Ek) as (n & En' & Hn). unfold st in En'. rewrite En'.
      cbn [mbind option_bind]. rewrite Eb in Hn. subst r'. rewrite SeekForPrev_stop by done. by exists n.
    + rewrite (proj2 (Z.ltb_ge _ _)) by lia. exists (Some x). split; [done|]. by exists kx.
  - rewrite bool_decide_false by (by intros [? ?]). destruct (alone_last) as (n & En' & Hn'). unfold st in En'. rewrite En'. cbn [mbind option_bind].
    cbn in Hn. apply head_None in Hn. destruct (sorted_end k ks HS Hn) as [-> Ebk]. exists n. split; [|done].
    apply SeekForPrev_stop. by rewrite Ebk.
Qed.
End alone.

(** C11: From the state after any insertions, with at least as much fuel as nodes and levels, the skip list behaves as the strictly
    sorted list of its keys. A key is absent just when the list does not contain it; [Insert] of an absent key, whatever height is
    drawn, is defined and puts the key in its place; [Contains], [Seek], [SeekToFirst], [SeekToLast], [SeekForPrev] (with at most
    one step back), and [Next] and [Prev] from any node of the list find what they name. *)
Theorem skip_list_refines s k fuel r : (1 <= kMaxHeight_)%nat -> reachable (s, []) -> (size (nodes s) + kMaxHeight_ <= fuel)%nat ->
  let st := fun _ : nat => s in
  exists ks, contents s = Some ks /\ StronglySorted (fun a b => compare_ a b < 0) ks /\
    (absent s k <-> spec_contains compare_ k ks = false) /\
    (forall rnd, absent s k -> exists s', Insert compare_ kScaledInverseBranching_ rnd kMaxHeight_ k s = Some (tt, s') /\
       contents s' = Some (spec_insert compare_ k ks) /\ reachable (s', [])) /\
    Contains compare_ fuel st k = Some (spec_contains compare_ k ks) /\
    (exists n, Iterator.Seek compare_ fuel st k = Some n /\ at_key s n (head (keys_from compare_ k ks))) /\
    (exists n, Iterator.SeekToFirst st = Some n /\ at_key s n (head ks)) /\
    (exists n, Iterator.SeekToLast fuel st = Some n /\ at_key s n (last ks)) /\
    (exists n, Iterator.SeekForPrev compare_ (S (S r)) fuel s k = Some n /\ at_key s n (spec_seek_for_prev compare_ k ks)) /\
    (forall x, key_of s x = Some k -> x <> head_ ->
       (exists n, Iterator.Next st (Some x) = Some n /\ at_key s n (head (filter (fun a => 0 < compare_ a k) ks))) /\
       (exists n, Iterator.Prev compare_ fuel st (Some x) = Some n /\ at_key s n (last (keys_before compare_ k ks)))).
Proof.
  intros Hm Hr Hf st. destruct (skip_reachable_inv _ Hm Hr) as (l & lh & ks & Hinv). cbn in Hinv. pose proof Hinv as (Hid & ->)%inv_idle_inv.
  pose proof (id_wf _ _ _ _ _ Hid) as Hwf. pose proof (contents_ok _ _ _ Hwf) as Ec. exists (keys_of s l).
  split_and!; [done|apply keys_sorted, Hwf| | | | | | | |].
  - by eapply absent_spec.
  - intros rnd Ha. pose proof (inv_begin _ _ _ _ k rnd Hinv Ha) as Hb. destruct (run_commands _ _ _ _ _ Hb) as (s' & l' & lh' & E & Hinv' & Hs).
    exists s'. split_and!; [done| |].
    + apply inv_idle_inv in Hinv' as (Hid' & ->). eapply contents_ok, id_wf, Hid'.
    + unfold SkipListTheorems.reachable in *; etrans; [exact Hr|]. eapply rtc_l; [by apply w_begin|exact Hs].
  - by apply (alone_contains s fuel _ Hm Hr Hf Ec).
  - by apply (alone_seek s fuel _ Hm Hr Hf Ec).
  - exists (head l). split; [by apply (wf_next s l lh [])|by apply (at_head s l lh [])].
  - by apply (alone_last s fuel _ Hm Hr Hf Ec).
  - by apply (alone_seek_for_prev s fuel l lh _ Hm Hr Hf Hwf Ec).
  - intros x Ek Hx. split; [|by apply (alone_prev s fuel _ Hm Hr Hf Ec)]. eapply alone_next; [done..|].
    pose proof (id_heap _ _ _ _ _ Hid x) as Hh. unfold key_of in Ek. destruct (nodes s !! x); [|done]. specialize (Hh ltac:(done)). set_solver.
Qed.

(** C3: Readers beside the writer. The memory a search's loads see is taken from any run of the writer: any number of its stores,
    over any number of insertions, may fall between two loads. If the list stays within [N] nodes, every search ends within
    its fuel and never touches an uninitialised link, and what it returns is right for the keys in the list at its last load [j], which
    are sorted and include all keys that were in the list when it began; the writer itself is never stuck. *)
Theorem skip_list_readers (run : nat -> @writer K) N fuel k prev : (1 <= kMaxHeight_)%nat -> reachable (run 0%nat) ->
  (forall i, rtc wstep (run i) (run (S i))) -> (forall i, size (nodes (run i).1) <= N)%nat -> (N + kMaxHeight_ <= fuel)%nat ->
  let st := fun i => (run i).1 in
  (exists n j ks, FindGreaterOrEqual compare_ fuel st k = Some (n, j) /\ seen_at run j ks /\
     at_key (st j) n (head (keys_from compare_ k ks)) /\ Contains compare_ fuel st k = Some (spec_contains compare_ k ks)) /\
  (exists y prev' j ks, FindLessThan compare_ fuel st k prev = Some (y, prev', j) /\ seen_at run j ks /\
     at_key (st j) (if decide (y = head_) then None else Some y) (last (keys_before compare_ k ks))) /\
  (exists y j ks, FindLast fuel st = Some (y, j) /\ seen_at run j ks /\
     at_key (st j) (if decide (y = head_) then None else Some y) (last ks)) /\
  (forall i c cs, (run i).2 = c :: cs -> exists s', c (run i).1 = Some (tt, s')).
Proof.
  intros Hm Hr Hs HN Hf st. split_and!.
  - by apply (run_greater run N fuel).
  - by apply (run_less run N fuel).
  - by apply (run_last run N fuel).
  - intros i c cs Ec. destruct (run_ghost run N fuel Hm Hr Hs Hf i) as (L & H & (ks & Hinv) & _). rewrite Ec in Hinv.
    destruct (inv_step _ _ _ _ _ _ Hinv) as (s' & _ & _ & E & _). by exists s'.
Qed.

Lemma reachable_insert s s' k rnd : (1 <= kMaxHeight_)%nat -> reachable (s, []) -> absent s k ->
  Insert compare_ kScaledInverseBranching_ rnd kMaxHeight_ k s = Some (tt, s') -> reachable (s', []).
Proof.
  intros Hm Hr Ha E. destruct (skip_reachable_inv _ Hm Hr) as (l & lh & ks & Hinv). pose proof (inv_begin _ _ _ _ k rnd Hinv Ha) as Hb.
  destruct (run_commands _ _ _ _ _ Hb) as (s1 & l' & lh' & E' & _ & Hs).
  assert (Some (tt, s') = Some (tt, s1)) as [= ->] by (rewrite <- E; exact E'). unfold SkipListTheorems.reachable in *. etrans; [exact Hr|]. eapply rtc_l; [by apply w_begin|exact Hs].
Qed.

(** The writer's next command. *)
Definition exec (w : @writer K) : @writer K :=
  match w with
  | (s, c :: cs) => match c s with Some (_, s') => (s', cs) | None => w end
  | (s, []) => w
  end.
Lemma exec_step w : rtc wstep w (exec w).
Proof.
  destruct w as [s [|c cs]]; [done|]. cbn. destruct (c s) as [[[] s']|] eqn:E; [|done]. by apply rtc_once, w_command.
Qed.
End proofs.

(** Every lawful comparator orders keys. *)
#[export] Instance comparator_key_order cmp `{!ComparatorLaws cmp} : KeyOrder cmp.
Proof.
  split.
  - apply cmp_flip.
  - apply cmp_lt_trans.
  - intros a b c H0 H1. apply cmp_zero_sym in H0. apply (cmp_le_lt_trans b a c); lia.
  - intros a b c H0 H1. apply (cmp_lt_le_trans c a b); lia.
Qed.

(** Three keys, inserted out of order. *)
Definition example_insert (h : Z) (k : list Z) (s : t (list Z)) : t (list Z) :=
  match Insert BytewiseComparator.Compare 1 (fun _ => h) 2 k s with Some (_, s') => s' | None => s end.
Definition example_list : t (list Z) := example_insert 1 [2] (example_insert 0 [3] (example_insert 0 [1] (new [] 2))).
Lemma example_reachable h k s : reachable BytewiseComparator.Compare 1 2 [] (s, []) -> absent BytewiseComparator.Compare s k ->
  reachable BytewiseComparator.Compare 1 2 [] (example_insert h k s, []).
Proof.
  intros Hr Ha. unfold example_insert. destruct (Insert _ _ _ _ _ _) as [[[] s']|] eqn:E; [|done]. by apply (reachable_insert _ 1 2 [] s s' k (fun _ => h)); [lia|..].
Qed.
Lemma example_list_reachable : reachable BytewiseComparator.Compare 1 2 [] (example_list, []).
Proof. repeat (apply example_reachable; [|apply (bool_decide_unpack _); vm_compute; exact I]). apply rtc_refl. Qed.

Lemma skip_list_refines_witness : contents example_list = Some [[1]; [2]; [3]] /\
  let s := example_list in
  exists ks, contents s = Some ks /\ Contains BytewiseComparator.Compare 6 (fun _ => s) [2] = Some (spec_contains BytewiseComparator.Compare [2] ks).
Proof.
  split; [vm_compute; reflexivity|]. intros s.
  destruct (skip_list_refines BytewiseComparator.Compare 1 2 [] s [2] 6 0 ltac:(lia) example_list_reachable ltac:(vm_compute; lia))
    as (ks & E & _ & _ & _ & Ec & _). exists ks. by split.
Defined.

(** A reader that starts before the last insertion and sees its stores one by one. *)
Definition example_run (i : nat) : @writer (list Z) :=
  let s := example_insert 0 [3] (example_insert 0 [1] (new [] 2)) in
  Nat.iter (Nat.min i 8) exec (s, insert_commands BytewiseComparator.Compare [2] (RandomHeight 1 (fun _ => 0) 2) (fresh s)).
Lemma skip_list_readers_witness : contents (example_run 0).1 = Some [[1]; [3]] /\ contents (example_run 6).1 = Some [[1]; [2]; [3]] /\
  exists n j ks, FindGreaterOrEqual BytewiseComparator.Compare 6 (fun i => (example_run i).1) [2] = Some (n, j) /\
    seen_at BytewiseComparator.Compare example_run j ks.
Proof.
  split; [vm_compute; reflexivity|]. split; [vm_compute; reflexivity|].
  destruct (skip_list_readers BytewiseComparator.Compare 1 2 [] example_run 4 6 [2] []) as ((n & j & ks & E & Hs & _) & _).
  - lia.
  - unfold example_run. cbn [Nat.min Nat.iter]. eapply rtc_r; [|apply w_begin; apply (bool_decide_unpack _); vm_compute; exact I].
    apply example_reachable; [|apply (bool_decide_unpack _); vm_compute; exact I].
    apply example_reachable; [apply rtc_refl|apply (bool_decide_unpack _); vm_compute; exact I].
  - intros i. unfold example_run. destruct (decide (i < 8)%nat); [|rewrite !Nat.min_r by lia; done].
    rewrite !Nat.min_l by lia. apply exec_step.
  - intros i. do 8 (destruct i as [|i]; [vm_compute; lia|]). unfold example_run. rewrite Nat.min_r by lia. vm_compute. lia.
  - lia.
  - by exists n, j, ks.
Defined.
