(* ===== verification/BinaryHeap.v ===== *)
(** * The binary heap of merging iterators (util/heap.h)

    [BinaryHeap] with its operations on the array [data_] and the cached larger
    child of the root, and the proof that it is a priority queue for every strict
    weak order: the elements are kept, and the top is one of the greatest. *)

From stdpp Require Import prelude sorting.
From Stdlib Require Import ZArith Lia Bool.
From S2P Require Import Prelude.

(** What [std::priority_queue] asks of a comparison. *)
Class StrictWeakOrder {T} (cmp : T -> T -> bool) : Prop := {
  cmp_asym a b : cmp a b = true -> cmp b a = false;
  cmp_neg_trans a b c : cmp a b = false -> cmp b c = false -> cmp a c = false;
}.

Module BinaryHeap.
Section heap.
Context {T : Type} `{Inhabited T} (cmp_ : T -> T -> bool).

Record t := mk { data_ : list T; root_cmp_cache_ : Z }.

(** [std::numeric_limits<size_t>::max()]. *)
Definition no_cache : Z := 2 ^ 64 - 1.

Definition new : t := mk [] no_cache.
Definition empty (h : t) : bool := bool_decide (data_ h = []).
Definition size (h : t) : nat := length (data_ h).
Definition reset_root_cmp_cache (h : t) : t := mk (data_ h) no_cache.

Definition get_root : nat := 0.
Definition get_parent (index : nat) : nat := (index - 1) `div` 2.
Definition get_left (index : nat) : nat := 2 * index + 1.
Definition get_right (index : nat) : nat := 2 * index + 2.

(** The loop of [upheap] on [data_] with [v] moved out. *)
Fixpoint upheap_loop (fuel : nat) (v : T) (index : nat) (data : list T) : nat * list T :=
  match fuel with
  | O => (index, data)
  | S fuel =>
      if (get_root <? index)%nat
      then
        let parent := get_parent index in
        if negb (cmp_ (data !!! parent) v) then (index, data)
        else upheap_loop fuel v parent (<[index := data !!! parent]> data)
      else (index, data)
  end.

Definition upheap (index : nat) (h : t) : t :=
  let v := data_ h !!! index in
  let '(index, data) := upheap_loop (S index) v index (data_ h) in
  reset_root_cmp_cache (mk (<[index := v]> data) (root_cmp_cache_ h)).

(** The loop of [downheap]: the final index, [data_] and [picked_child]. *)
Fixpoint downheap_loop (fuel : nat) (cache : Z) (v : T) (index : nat) (picked_child : Z) (data : list T) :
    nat * Z * list T :=
  match fuel with
  | O => (index, picked_child, data)
  | S fuel =>
      let left_child := get_left index in
      if (length data <=? left_child)%nat then (index, picked_child, data)
      else
        let right_child := S left_child in
        let picked_child :=
          if (index =? 0)%nat && (cache <? Z.of_nat (length data)) then cache
          else if (right_child <? length data)%nat && cmp_ (data !!! left_child) (data !!! right_child)
          then Z.of_nat right_child else Z.of_nat left_child in
        let picked := Z.to_nat picked_child in
        if negb (cmp_ v (data !!! picked)) then (index, picked_child, data)
        else downheap_loop fuel cache v picked picked_child (<[index := data !!! picked]> data)
  end.

Definition downheap (index : nat) (h : t) : t :=
  let v := data_ h !!! index in
  let '(index, picked_child, data) :=
    downheap_loop (S (size h)) (root_cmp_cache_ h) v index no_cache (data_ h) in
  mk (<[index := v]> data) (if (index =? 0)%nat then picked_child else no_cache).

Definition push (value : T) (h : t) : t :=
  let h := mk (data_ h ++ [value]) (root_cmp_cache_ h) in
  upheap (size h - 1) h.

Definition top (h : t) : T := data_ h !!! 0%nat.

Definition replace_top (value : T) (h : t) : t :=
  downheap get_root (mk (<[0%nat := value]> (data_ h)) (root_cmp_cache_ h)).

Definition pop (h : t) : t :=
  let data := if (1 <? size h)%nat then <[0%nat := data_ h !!! (size h - 1)%nat]> (data_ h) else data_ h in
  let h := mk (take (length data - 1) data) (root_cmp_cache_ h) in
  if negb (empty h) then downheap get_root h else reset_root_cmp_cache h.

Definition clear (h : t) : t := reset_root_cmp_cache (mk [] (root_cmp_cache_ h)).
End heap.
End BinaryHeap.
Import BinaryHeap.

(** ** Heap order *)

Section proofs.
Context {T : Type} `{Inhabited T} (cmp : T -> T -> bool) `{!StrictWeakOrder cmp}.
Implicit Types d : list T.

(** [child_of i j]: [j] is a child of [i] in a heap of the length of [d]. *)
Definition child_of d (i j : nat) : Prop := (j < length d)%nat /\ (j = get_left i \/ j = get_right i).

(** The children of every position but [skip] are not above it. *)
Definition ordered_but d (skip : nat -> nat -> Prop) : Prop :=
  forall i j, child_of d i j -> ~ skip i j -> cmp (d !!! i) (d !!! j) = false.
Definition ordered d : Prop := forall i j, child_of d i j -> cmp (d !!! i) (d !!! j) = false.

(** The children of [k] are not above its parent. *)
Definition grand_ok d (k : nat) : Prop :=
  forall i j, child_of d i k -> child_of d k j -> cmp (d !!! i) (d !!! j) = false.

Lemma child_lt d i j : child_of d i j -> (i < j < length d)%nat.
Proof. unfold child_of, get_left, get_right. lia. Qed.
Lemma child_length d d' i j : length d = length d' -> child_of d i j -> child_of d' i j.
Proof. unfold child_of. intros ->. done. Qed.
Lemma child_unique d i i' j : child_of d i j -> child_of d i' j -> i = i'.
Proof. unfold child_of, get_left, get_right. lia. Qed.
Lemma parent_child d j : (0 < j < length d)%nat -> child_of d (get_parent j) j.
Proof.
  unfold child_of, get_left, get_right, get_parent. intros Hj. split; [lia|].
  pose proof (Nat.div_mod_eq (j - 1) 2). pose proof (Nat.mod_upper_bound (j - 1) 2). lia.
Qed.

Lemma lookup_total_swap d i j k v : (i < length d)%nat -> (j < length d)%nat -> i <> j ->
  <[j := v]> (<[i := d !!! j]> d) !!! k = if decide (k = j) then v else if decide (k = i) then d !!! j else d !!! k.
Proof.
  intros Hi Hj Hij. repeat case_decide; subst.
  - apply list_lookup_total_insert_eq. by rewrite length_insert.
  - rewrite list_lookup_total_insert_ne by done. by apply list_lookup_total_insert_eq.
  - by rewrite !list_lookup_total_insert_ne.
Qed.

Lemma insert_Permutation d i v : (i < length d)%nat -> d !!! i :: <[i := v]> d ≡ₚ v :: d.
Proof.
  revert i. induction d as [|x d IH]; intros [|i] Hi; simpl in *; try lia; [constructor|].
  rewrite (Permutation_swap x (d !!! i)), IH by lia. constructor.
Qed.

(** Moving the hole from [i] to [j] swaps two elements. *)
Lemma move_Permutation d i j v : (i < length d)%nat -> (j < length d)%nat -> i <> j ->
  <[j := v]> (<[i := d !!! j]> d) ≡ₚ <[i := v]> d.
Proof.
  intros Hi Hj Hij. apply (Permutation_cons_inv (a := d !!! i)), (Permutation_cons_inv (a := d !!! j)).
  rewrite (insert_Permutation d i v) by done. rewrite (Permutation_swap (d !!! i) (d !!! j)).
  pose proof (insert_Permutation (<[i := d !!! j]> d) j v) as E. rewrite length_insert, list_lookup_total_insert_ne in E by done.
  rewrite (E Hj). rewrite (Permutation_swap v (d !!! i)), (insert_Permutation d i (d !!! j)) by done. constructor.
Qed.

(** ** [upheap] *)

Lemma upheap_loop_ok fuel v i d : (i < fuel)%nat -> (i < length d)%nat ->
  ordered_but (<[i := v]> d) (fun _ j => j = i) -> grand_ok (<[i := v]> d) i ->
  let '(i', d') := upheap_loop cmp fuel v i d in
  ordered (<[i' := v]> d') /\ <[i' := v]> d' ≡ₚ <[i := v]> d.
Proof.
  revert i d. induction fuel as [|fuel IH]; intros i d Hf Hi HO HG; [lia|]. cbn [upheap_loop]. unfold get_root.
  destruct (Nat.ltb_spec 0 i) as [Hpos|].
  2: { split; [|done]. intros a b Hc. apply HO; [done|]. apply child_lt in Hc. lia. }
  set (p := get_parent i). set (D := <[i := v]> d) in *.
  assert (Hp : child_of d p i) by (apply parent_child; lia). assert (HpD : child_of D p i).
  { apply (child_length d); [unfold D; by rewrite length_insert|done]. }
  pose proof (child_lt _ _ _ Hp). assert (ED : D !!! p = d !!! p) by (apply list_lookup_total_insert_ne; lia).
  assert (Ei : D !!! i = v) by (by apply list_lookup_total_insert_eq).
  destruct (cmp (d !!! p) v) eqn:Ecmp; cbn [negb].
  2: { split; [|done]. intros a b Hc. destruct (decide (b = i)) as [->|]; [|by apply HO]. fold D in Hc |- *.
       by rewrite (child_unique _ _ _ _ Hc HpD), ED, Ei. }
  set (D' := <[p := v]> (<[i := d !!! p]> d)).
  assert (EL : forall k, D' !!! k = if decide (k = p) then v else if decide (k = i) then d !!! p else D !!! k).
  { intros k. unfold D'. rewrite lookup_total_swap by lia. repeat case_decide; try done.
    unfold D. by rewrite list_lookup_total_insert_ne by done. }
  assert (HlD : length D' = length D) by (unfold D', D; by rewrite !length_insert).
  assert (HO' : ordered_but D' (fun _ j => j = p)).
  { intros a b Hc Hb. apply (child_length D' D) in Hc; [|done]. pose proof (child_lt _ _ _ Hc). rewrite !EL.
    repeat case_decide; try subst a; try subst b; try lia.
    - by apply cmp_asym.
    - apply cmp_neg_trans with (D !!! p); [rewrite ED; by apply cmp_asym|by apply HO].
    - rewrite <- ED. by apply HG.
    - by destruct (child_unique _ _ _ _ Hc HpD).
    - by apply HO. }
  assert (HG' : grand_ok D' p).
  { intros a b Ha Hb. apply (child_length D' D) in Ha, Hb; [|done..]. pose proof (child_lt _ _ _ Ha). pose proof (child_lt _ _ _ Hb).
    assert (HA : cmp (D !!! a) (D !!! p) = false) by (apply HO; [done|lia]).
    rewrite !EL. repeat case_decide; try subst a; try subst b; try lia; [by rewrite <- ED|].
    apply cmp_neg_trans with (D !!! p); [done|by apply HO]. }
  specialize (IH p (<[i := d !!! p]> d)). rewrite length_insert in IH.
  specialize (IH ltac:(lia) ltac:(lia) HO' HG'). destruct (upheap_loop cmp fuel v p (<[i := d !!! p]> d)) as [i' d'].
  destruct IH as [IH1 IH2]. split; [done|]. rewrite IH2. apply move_Permutation; lia.
Qed.

(** ** [downheap] *)

(** A cached child of the root is a greatest child. *)
Definition cache_valid d (c : Z) : Prop := 0 <= c /\
  (c < Z.of_nat (length d) -> child_of d 0 (Z.to_nat c) /\ forall j, child_of d 0 j -> cmp (d !!! Z.to_nat c) (d !!! j) = false).

Definition max_child d (i c : nat) : Prop := child_of d i c /\ forall j, child_of d i j -> cmp (d !!! c) (d !!! j) = false.

(** [data_[index]] is not read: with or without [v] in the hole, the children are the same. *)
Lemma child_hole d i j v : child_of d i j -> <[i := v]> d !!! j = d !!! j.
Proof. intros Hc%child_lt. apply list_lookup_total_insert_ne. lia. Qed.

Lemma pick_child d i : (get_left i < length d)%nat ->
  max_child d i (if (S (get_left i) <? length d)%nat && cmp (d !!! get_left i) (d !!! S (get_left i))
                 then S (get_left i) else get_left i).
Proof.
  intros Hl. assert (Hirr : forall x, cmp x x = false).
  { intros x. destruct (cmp x x) eqn:E; [by rewrite (cmp_asym x x E) in E|done]. }
  assert (Hr : get_right i = S (get_left i)) by (unfold get_left, get_right; lia).
  unfold max_child, child_of. rewrite Hr.
  destruct (Nat.ltb_spec (S (get_left i)) (length d)); simpl.
  - destruct (cmp _ _) eqn:E; (split; [tauto|]); intros j [_ [->| ->]]; try done. by apply cmp_asym.
  - split; [tauto|]. intros j [? [->| ->]]; [done|lia].
Qed.

(** One move of the hole from [i] to its greatest child [c]. *)
Lemma down_step d i c v : let D := <[i := v]> d in let D' := <[c := v]> (<[i := d !!! c]> d) in
  (i < length d)%nat -> ordered_but D (fun a _ => a = i) -> grand_ok D i -> max_child d i c -> cmp v (d !!! c) = true ->
  ordered_but D' (fun a _ => a = c) /\ grand_ok D' c.
Proof.
  intros D D' Hi HO HG [Hc Hmax] Hv. pose proof (child_lt _ _ _ Hc).
  assert (HlD : length D' = length D) by (unfold D', D; by rewrite !length_insert).
  assert (Hld : length d = length D) by (unfold D; by rewrite length_insert).
  assert (EL : forall k, D' !!! k = if decide (k = c) then v else if decide (k = i) then d !!! c else d !!! k)
    by (intros k; apply lookup_total_swap; lia).
  assert (ED : forall k, k <> i -> D !!! k = d !!! k) by (intros k Hk; by apply list_lookup_total_insert_ne).
  assert (HcD : child_of D i c) by (by apply (child_length d)). clearbody D' D. split.
  - intros a b Hab Ha. apply (child_length D' D) in Hab; [|done]. pose proof (child_lt _ _ _ Hab). rewrite !EL.
    repeat case_decide; try subst a; try subst b; try lia; try done.
    + by apply cmp_asym.
    + apply Hmax. by apply (child_length D).
    + by destruct (child_unique _ _ _ _ Hab HcD).
    + rewrite <- (ED c), <- (ED a) by lia. by apply (HG a c).
    + rewrite <- !ED by done. by apply HO.
  - intros a b Ha Hb. apply (child_length D' D) in Ha, Hb; [|done..]. pose proof (child_lt _ _ _ Hb).
    rewrite (child_unique _ _ _ _ Ha HcD). rewrite !EL. repeat case_decide; try lia; try done.
    rewrite <- !ED by lia. apply HO; [done|lia].
Qed.

Lemma downheap_loop_ok fuel cache v i pc d : (i < length d)%nat -> (length d < fuel + i)%nat ->
  Z.of_nat (length d) < no_cache -> ordered_but (<[i := v]> d) (fun a _ => a = i) -> grand_ok (<[i := v]> d) i ->
  (i = 0%nat -> cache_valid d cache /\ pc = no_cache) ->
  let '(i', pc', d') := downheap_loop cmp fuel cache v i pc d in
  (i <= i' < length d')%nat /\ ordered (<[i' := v]> d') /\ <[i' := v]> d' ≡ₚ <[i := v]> d /\
  (i' = 0%nat -> cache_valid (<[i' := v]> d') pc').
Proof.
  revert i pc d. induction fuel as [|fuel IH]; intros i pc d Hi Hf Hl HO HG HC; [lia|]. cbn [downheap_loop].
  destruct (Nat.leb_spec (length d) (get_left i)) as [Hle|Hlt].
  { split_and!; try done.
    - intros a b Hab. destruct (decide (a = i)) as [->|]; [|by apply HO].
      destruct Hab as [Hb Hab]. rewrite length_insert in Hb. unfold get_left, get_right in *. lia.
    - intros Hi0. destruct (HC Hi0) as [_ ->]. split; [done|]. rewrite length_insert. lia. }
  set (picked := if _ && _ then cache else _).
  assert (HM : max_child d i (Z.to_nat picked) /\ 0 <= picked).
  { unfold picked. clear picked. pose proof (pick_child d i Hlt) as HP. destruct (Nat.eqb_spec i 0) as [->|]; cbn [andb].
    - destruct (Z.ltb_spec cache (Z.of_nat (length d))) as [Hc|Hc]; [by destruct (HC eq_refl) as [[? HC'] _]; split; [apply HC'|]|].
      destruct (_ && _); rewrite Nat2Z.id; (split; [done|lia]).
    - destruct (_ && _); rewrite Nat2Z.id; (split; [done|lia]). }
  clearbody picked. destruct HM as [HM Hp0]. pose proof (child_lt _ _ _ (proj1 HM)) as Hpk.
  destruct (cmp v (d !!! Z.to_nat picked)) eqn:Ecmp; cbn [negb].
  - destruct (down_step d i _ v Hi HO HG HM Ecmp) as [HO' HG'].
    specialize (IH (Z.to_nat picked) picked (<[i := d !!! Z.to_nat picked]> d)). rewrite !length_insert in IH.
    specialize (IH ltac:(lia) ltac:(lia) Hl HO' HG'). destruct (downheap_loop _ _ _ _ _ _ _) as [[i' pc'] d'].
    destruct IH as (I1 & I2 & I3 & I4); [lia|]. split_and!; [lia|lia|done| |done].
    rewrite I3. apply move_Permutation; lia.
  - destruct HM as [Hc Hmax]. split_and!; try done.
    + intros a b Hab. destruct (decide (a = i)) as [->|]; [|by apply HO]. apply (child_length _ d) in Hab; [|apply length_insert].
      rewrite (child_hole d i b v Hab), list_lookup_total_insert_eq by done.
      apply cmp_neg_trans with (d !!! Z.to_nat picked); [done|by apply Hmax].
    + intros ->. split; [done|]. intros _. split; [by apply (child_length d); [rewrite length_insert|]|].
      intros j Hj. apply (child_length _ d) in Hj; [|apply length_insert]. rewrite !child_hole by done. by apply Hmax.
Qed.

(** ** The operations *)

Record heap_inv (h : BinaryHeap.t (T := T)) : Prop := {
  hi_ordered : ordered (data_ h);
  hi_cache : cache_valid (data_ h) (root_cmp_cache_ h);
  hi_size : Z.of_nat (size h) < no_cache;
}.

Definition greatest (x : T) d : Prop := x ∈ d /\ forall y, y ∈ d -> cmp x y = false.

Lemma no_cache_valid d : Z.of_nat (length d) < no_cache -> cache_valid d no_cache.
Proof. intros Hl. split; [done|lia]. Qed.

Lemma insert_self d i v : d !!! i = v -> <[i := v]> d = d.
Proof.
  intros <-. destruct (decide (i < length d)%nat) as [Hi|Hi]; [|apply list_insert_ge; lia].
  apply list_insert_id. by apply list_lookup_lookup_total_lt.
Qed.

Lemma heap_inv_new : heap_inv new.
Proof. split; [|by apply no_cache_valid|done]. intros i j [Hj _]. simpl in Hj. lia. Qed.

Lemma top_greatest h : heap_inv h -> data_ h <> [] -> greatest (top h) (data_ h).
Proof.
  intros [HO _ _] Hne. assert (Hl : (0 < length (data_ h))%nat) by (destruct (data_ h); simpl in *; [done|lia]).
  split; [by apply list_elem_of_lookup_total_2|]. intros y Hy. apply list_elem_of_lookup_total_1 in Hy as (i & Hi & <-).
  unfold top. revert Hi. induction (lt_wf i) as [i _ IH]. intros Hi. destruct (decide (i = 0%nat)) as [->|Hi0].
  - destruct (cmp (data_ h !!! 0%nat) (data_ h !!! 0%nat)) eqn:E; [by rewrite (cmp_asym _ _ E) in E|done].
  - assert (Hp : child_of (data_ h) (get_parent i) i) by (apply parent_child; lia). pose proof (child_lt _ _ _ Hp).
    apply cmp_neg_trans with (data_ h !!! get_parent i); [apply IH; lia|by apply HO].
Qed.

Lemma bin_push_ok v h : heap_inv h -> Z.of_nat (size h) + 1 < no_cache ->
  heap_inv (push cmp v h) /\ data_ (push cmp v h) ≡ₚ v :: data_ h.
Proof.
  intros [HO HC HS] Hs. unfold push, upheap, size. cbn [data_]. rewrite length_app. cbn [length].
  replace (length (data_ h) + 1 - 1)%nat with (length (data_ h)) by lia. set (n := length (data_ h)).
  set (d := data_ h ++ [v]). assert (Hn : d !!! n = v) by (by apply list_lookup_total_middle). rewrite Hn.
  assert (Hld : length d = S n) by (unfold d; rewrite length_app; simpl; lia).
  assert (Ed : <[n := v]> d = d) by (by apply insert_self).
  pose proof (upheap_loop_ok (S n) v n d) as HU. rewrite Ed, Hld in HU.
  destruct (upheap_loop cmp (S n) v n d) as [i' d'] eqn:E. destruct HU as [U1 U2]; [lia|lia| | |].
  - intros i j Hc Hj. pose proof (child_lt _ _ _ Hc). unfold d. rewrite !lookup_total_app_l by (fold n; lia).
    apply HO. destruct Hc as [_ Hc]. split; [fold n; lia|done].
  - intros i j _ Hj%child_lt. lia.
  - assert (HP : <[i' := v]> d' ≡ₚ v :: data_ h) by (rewrite U2; unfold d; by rewrite Permutation_app_comm).
    assert (Hl : Z.of_nat (length (<[i' := v]> d')) < no_cache) by (rewrite HP; simpl; unfold size in Hs; lia).
    split; [|done]. split; [done|by apply no_cache_valid|done].
Qed.

Lemma downheap_root d c : (0 < length d)%nat -> Z.of_nat (length d) < no_cache -> ordered_but d (fun a _ => a = 0%nat) ->
  cache_valid d c -> heap_inv (downheap cmp get_root (mk d c)) /\ data_ (downheap cmp get_root (mk d c)) ≡ₚ d.
Proof.
  intros Hl Hs HO HC. unfold downheap, get_root, size. cbn [data_ root_cmp_cache_].
  set (v := d !!! 0%nat). assert (Ed : <[0%nat := v]> d = d) by (by apply insert_self).
  pose proof (downheap_loop_ok (S (length d)) c v 0 no_cache d) as HD. rewrite Ed in HD.
  destruct (downheap_loop _ _ _ _ _ _ _) as [[i' pc'] d']. destruct HD as (D1 & D2 & D3 & D4); try done; [lia| |].
  { intros i j Hc%child_lt. lia. }
  split; [|done]. split; unfold size; simpl; [done| |by rewrite D3].
  destruct (Nat.eqb_spec i' 0); [by apply D4|]. apply no_cache_valid. by rewrite D3.
Qed.

(** Replacing the root and cutting the tail keeps the order below the root and the cache. *)
Lemma root_changed d d' c : ordered d -> cache_valid d c -> (length d' <= length d)%nat ->
  (forall i, (0 < i < length d')%nat -> d' !!! i = d !!! i) ->
  ordered_but d' (fun a _ => a = 0%nat) /\ cache_valid d' c.
Proof.
  intros HO [HC0 HC] Hl Hsame. assert (Hcd : forall i j, child_of d' i j -> child_of d i j).
  { intros i j [Hj Hc]. split; [lia|done]. }
  split.
  - intros i j Hc Hi. pose proof (child_lt _ _ _ Hc). rewrite !Hsame by lia. apply HO, Hcd, Hc.
  - split; [done|]. intros Hlt. destruct (HC ltac:(lia)) as [Hc Hm]. assert (Hc' : child_of d' 0 (Z.to_nat c)).
    { destruct Hc as [_ Hc]. split; [lia|done]. }
    split; [done|]. intros j Hj. pose proof (child_lt _ _ _ Hj). pose proof (child_lt _ _ _ Hc').
    rewrite !Hsame by lia. apply Hm, Hcd, Hj.
Qed.

Lemma replace_top_ok v h : heap_inv h -> data_ h <> [] ->
  heap_inv (replace_top cmp v h) /\ top h :: data_ (replace_top cmp v h) ≡ₚ v :: data_ h.
Proof.
  intros [HO HC HS] Hne. unfold replace_top. unfold size in HS.
  assert (Hl : (0 < length (data_ h))%nat) by (destruct (data_ h); simpl in *; [done|lia]).
  destruct (root_changed (data_ h) (<[0%nat := v]> (data_ h)) (root_cmp_cache_ h)) as [HO' HC']; try done.
  { by rewrite length_insert. }
  { intros i Hi. apply list_lookup_total_insert_ne. lia. }
  destruct (downheap_root (<[0%nat := v]> (data_ h)) (root_cmp_cache_ h)) as [HI HP]; rewrite ?length_insert; try done.
  split; [done|]. rewrite HP. by apply insert_Permutation.
Qed.

Lemma pop_heap_ok h : heap_inv h -> data_ h <> [] -> heap_inv (pop cmp h) /\ top h :: data_ (pop cmp h) ≡ₚ data_ h.
Proof.
  intros [HO HC HS] Hne. unfold pop, top, size in *. destruct h as [d c]. cbn [data_ root_cmp_cache_] in *.
  destruct d as [|x [|y d]]; [done|by split; [apply heap_inv_new|]|].
  destruct (exists_last (l := y :: d)) as (mid & z & E); [done|]. rewrite E in *. clear E y d Hne.
  assert (El : length (x :: mid ++ [z]) = S (S (length mid))) by (simpl; rewrite length_app; simpl; lia). rewrite El in *.
  cbn [Nat.ltb Nat.leb]. replace (S (S (length mid)) - 1)%nat with (S (length mid)) by lia.
  assert (Ez : (x :: mid ++ [z]) !!! S (length mid) = z) by (by apply (list_lookup_total_middle (x :: mid))). rewrite Ez.
  cbn [list_insert insert length]. rewrite length_app. cbn [length].
  replace (S (length mid + 1) - 1)%nat with (length (z :: mid)) by (simpl; lia).
  rewrite (take_app_length (z :: mid) [z] : take _ (z :: mid ++ [z]) = _). cbn [empty data_ negb bool_decide].
  destruct (root_changed (x :: mid ++ [z]) (z :: mid) c HO HC) as [HO' HC'].
  { rewrite El. simpl. lia. }
  { intros [|i] Hi; [lia|]. simpl in *. symmetry. apply lookup_total_app_l. lia. }
  destruct (downheap_root (z :: mid) c) as [HI HP]; [simpl; lia|simpl; lia|done|done|].
  split; [done|]. rewrite HP. simpl. by rewrite (Permutation_app_comm mid [z]).
Qed.

(** ** A priority queue *)

Inductive heap_op := Push (v : T) | Pop | ReplaceTop (v : T) | Clear.

Definition run_op (h : BinaryHeap.t) (op : heap_op) : BinaryHeap.t :=
  match op with
  | Push v => push cmp v h
  | Pop => pop cmp h
  | ReplaceTop v => replace_top cmp v h
  | Clear => clear h
  end.

(** What each operation does to a bag of elements. *)
Inductive bag_step : heap_op -> list T -> list T -> Prop :=
  | bag_push v l l' : l' ≡ₚ v :: l -> bag_step (Push v) l l'
  | bag_pop x l l' : greatest x l -> l ≡ₚ x :: l' -> bag_step Pop l l'
  | bag_replace x v l rest l' : greatest x l -> l ≡ₚ x :: rest -> l' ≡ₚ v :: rest -> bag_step (ReplaceTop v) l l'
  | bag_clear l : bag_step Clear l [].

Inductive bag_run : list heap_op -> list T -> list T -> Prop :=
  | bag_nil l : bag_run [] l l
  | bag_cons op ops l l' l'' : bag_step op l l' -> bag_run ops l' l'' -> bag_run (op :: ops) l l''.

(** Only non-empty heaps are popped or have their top replaced, and sizes fit. *)
Fixpoint ops_ok (n : nat) (ops : list heap_op) : Prop :=
  match ops with
  | [] => True
  | Push _ :: ops => Z.of_nat n + 1 < no_cache /\ ops_ok (S n) ops
  | Pop :: ops => n <> 0%nat /\ ops_ok (n - 1) ops
  | ReplaceTop _ :: ops => n <> 0%nat /\ ops_ok n ops
  | Clear :: ops => ops_ok 0 ops
  end.

(** The elements in the order in which they are popped. *)
Fixpoint drain_heap (n : nat) (h : BinaryHeap.t) : list T :=
  match n with
  | O => []
  | S n => top h :: drain_heap n (pop cmp h)
  end.

Lemma nonempty_size (h : BinaryHeap.t (T := T)) : size h <> 0%nat -> data_ h <> [].
Proof. intros Hs E. apply Hs. unfold size. by rewrite E. Qed.

Lemma heap_run_ok ops h : heap_inv h -> ops_ok (size h) ops ->
  heap_inv (foldl run_op h ops) /\ bag_run ops (data_ h) (data_ (foldl run_op h ops)).
Proof.
  revert h. induction ops as [|op ops IH]; intros h HI Hok; [split; [done|constructor]|]. simpl in Hok |- *.
  assert (HS : heap_inv (run_op h op) /\ bag_step op (data_ h) (data_ (run_op h op)) /\ ops_ok (size (run_op h op)) ops).
  { destruct op as [v| |v|]; simpl.
    - destruct (bin_push_ok v h HI) as [HI' HP]; [tauto|]. split_and!; [done|by constructor|].
      unfold size. rewrite HP. simpl. tauto.
    - destruct Hok as [Hn Hok]. apply nonempty_size in Hn. destruct (pop_heap_ok h HI Hn) as [HI' HP].
      split_and!; [done|by apply bag_pop with (top h); [apply top_greatest|]|].
      unfold size in *. rewrite <- HP in Hok. simpl in Hok. by rewrite Nat.sub_0_r in Hok.
    - destruct Hok as [Hn Hok]. apply nonempty_size in Hn. destruct (replace_top_ok v h HI Hn) as [HI' HP].
      pose proof (top_greatest h HI Hn) as HG. destruct (elem_of_Permutation (data_ h) (top h)) as [HE _].
      destruct (HE (proj1 HG)) as [rest Hrest]. split_and!; [done| |].
      + apply bag_replace with (top h) rest; [done|done|]. apply (Permutation_cons_inv (a := top h)).
        rewrite HP, Hrest. constructor.
      + unfold size in *. apply Permutation_length in HP. simpl in HP. by replace (length (data_ (replace_top cmp v h))) with (length (data_ h)) by lia.
    - split_and!; [apply heap_inv_new|constructor|done]. }
  destruct HS as (HI' & HB & Hok'). destruct (IH _ HI' Hok') as [HI'' HR]. split; [done|]. by econstructor.
Qed.

Lemma drain_heap_sorted n h : heap_inv h -> size h = n ->
  drain_heap n h ≡ₚ data_ h /\ StronglySorted (fun a b => cmp a b = false) (drain_heap n h).
Proof.
  revert h. induction n as [|n IH]; intros h HI Hs; simpl.
  { unfold size in Hs. destruct (data_ h); [split; constructor|done]. }
  assert (Hne : data_ h <> []) by (apply nonempty_size; lia). destruct (pop_heap_ok h HI Hne) as [HI' HP].
  destruct (IH (pop cmp h) HI') as [IP IS].
  { unfold size in *. apply Permutation_length in HP. simpl in HP. lia. }
  split; [by rewrite IP|]. constructor; [done|]. apply Forall_forall. intros y Hy. apply (top_greatest h HI Hne).
  rewrite <- HP, <- IP. by right.
Qed.

(** C34: for every strict weak order and every sequence of operations that pops and
    replaces only when there is something to, the heap with its cached child
    holds the same elements as a bag on which the operations act, its top is a
    greatest one, and popping everything yields the elements in order. *)
Theorem binary_heap_refines (ops : list heap_op) : ops_ok 0 ops ->
  let h := foldl run_op new ops in
  bag_run ops [] (data_ h) /\ (data_ h <> [] -> greatest (top h) (data_ h)) /\
  drain_heap (size h) h ≡ₚ data_ h /\ StronglySorted (fun a b => cmp a b = false) (drain_heap (size h) h).
Proof.
  intros Hok h. destruct (heap_run_ok ops new heap_inv_new Hok) as [HI HR]. fold h in HI, HR.
  split_and!; [done|by apply top_greatest|by apply drain_heap_sorted|by apply drain_heap_sorted].
Qed.
End proofs.

#[local] Instance Zltb_order : StrictWeakOrder Z.ltb.
Proof. split; intros a b; [rewrite Z.ltb_lt, Z.ltb_ge; lia|]. intros c. rewrite !Z.ltb_ge. lia. Qed.

Lemma binary_heap_refines_witness :
  let ops := [Push 3; Push 8; Push 5; ReplaceTop 4; Push 9; Pop; Push 1] in
  let h := foldl (run_op Z.ltb) new ops in
  bag_run Z.ltb ops [] (data_ h) /\ (data_ h <> [] -> greatest Z.ltb (top h) (data_ h)) /\
  drain_heap Z.ltb (size h) h ≡ₚ data_ h /\
  StronglySorted (fun a b => (a <? b) = false) (drain_heap Z.ltb (size h) h).
Proof. apply (binary_heap_refines Z.ltb). repeat split; done. Defined.
