(* ===== verification/DeadlockBuffer.v ===== *)
(** * The ring buffer of the latest deadlocks
    (utilities/transactions/lock/point/point_lock_manager.h)

    [DeadlockInfoBufferTempl]. [None] is an access out of the vector's range. The buffer
    is proved to hold the latest paths, newest first in [PrepareBuffer]; resizing it
    to exactly the number of paths it holds leaves its index out of range. *)

From stdpp Require Import prelude.
From Stdlib Require Import ZArith Lia.
From S2P Require Import Prelude.

Module DeadlockInfoBuffer.
Section buffer.
(** [Path], its default value and [empty()]. *)
Context {Path : Type} (default_path : Path) (path_empty : Path -> bool).

Record t := mk { paths_buffer_ : list Path; buffer_idx_ : nat }.

Definition new (n_latest_dlocks : nat) : t := mk (replicate n_latest_dlocks default_path) 0.

Definition Normalize (b : t) : option (list Path) :=
  let working := paths_buffer_ b in
  match working with
  | [] => Some working
  | _ =>
      p ← working !! buffer_idx_ b;
      Some (if path_empty p then take (buffer_idx_ b) working
            else drop (buffer_idx_ b) working ++ take (buffer_idx_ b) working)
  end.

Definition AddNewPath (path : Path) (b : t) : option t :=
  match paths_buffer_ b with
  | [] => Some b
  | _ =>
      if decide (buffer_idx_ b < length (paths_buffer_ b))%nat then
        Some (mk (<[buffer_idx_ b := path]> (paths_buffer_ b)) ((buffer_idx_ b + 1) mod length (paths_buffer_ b)))
      else None
  end.

Definition Resize (target_size : nat) (b : t) : option t :=
  buf ← Normalize b;
  Some (if decide (target_size < length buf)%nat then mk (drop (length buf - target_size) buf) 0
        else mk (buf ++ replicate (target_size - length buf) default_path) (length buf)).

Definition PrepareBuffer (b : t) : option (list Path) := working ← Normalize b; Some (reverse working).
End buffer.
Arguments t : clear implicits.
End DeadlockInfoBuffer.
Import DeadlockInfoBuffer.

(** ** Refinement *)

Section refine.
Context {Path : Type} (default_path : Path) (path_empty : Path -> bool).
Hypothesis default_empty : path_empty default_path = true.
Implicit Types (b : t Path) (kept : list Path).

(** [kept]: the paths in the buffer, oldest first. They fill its first places, or all of them from the index on. *)
Definition holds b kept : Prop :=
  Forall (fun p => path_empty p = false) kept /\
  ((exists m, paths_buffer_ b = kept ++ replicate m default_path /\ buffer_idx_ b = length kept /\ (m = 0%nat -> kept = [])) \/
   (paths_buffer_ b <> [] /\ (buffer_idx_ b < length (paths_buffer_ b))%nat /\
    kept = drop (buffer_idx_ b) (paths_buffer_ b) ++ take (buffer_idx_ b) (paths_buffer_ b))).

Lemma Normalize_holds b kept : holds b kept -> Normalize path_empty b = Some kept.
Proof.
  intros [HF [(m & Eb & Ei & Hm)|(Hne & Hi & Ek)]]; unfold Normalize.
  - rewrite Eb, Ei. destruct m as [|m]; [rewrite Hm by done; done|].
    destruct (kept ++ replicate (S m) default_path) as [|x l] eqn:E; [by destruct kept|]. rewrite <- E.
    rewrite lookup_app_r, Nat.sub_diag by lia. cbn [replicate lookup list_lookup]. cbn. by rewrite default_empty, take_app_length.
  - destruct (lookup_lt_is_Some_2 _ _ Hi) as [p Hp]. assert (path_empty p = false).
    { rewrite Forall_forall in HF. apply HF. rewrite Ek. apply elem_of_app. left. rewrite (drop_S _ _ _ Hp). by left. }
    destruct (paths_buffer_ b) as [|x l] eqn:E; [done|]. rewrite <- E in *. cbn. rewrite Hp. cbn. by rewrite H, Ek.
Qed.

Lemma holds_new n : holds (new default_path n) [].
Proof. split; [constructor|]. left. exists n. by split_and!. Qed.

(** The [n] newest of [l], which is oldest first. *)
Definition newest (n : nat) (l : list Path) : list Path := drop (length l - n) l.

Lemma Add_holds b kept p : holds b kept -> path_empty p = false -> exists b', AddNewPath p b = Some b' /\
  length (paths_buffer_ b') = length (paths_buffer_ b) /\ holds b' (newest (length (paths_buffer_ b)) (kept ++ [p])).
Proof.
  intros [HF Hcase] Hp. assert (HFp : Forall (fun q => path_empty q = false) (kept ++ [p])).
  { apply Forall_app. split; [done|]. by constructor. }
  destruct (decide (paths_buffer_ b = [])) as [E0|Hne].
  { exists b. unfold AddNewPath. rewrite E0 in *. split_and!; [done|done|]. unfold newest. cbn [length]. rewrite Nat.sub_0_r, drop_all.
    split; [constructor|]. left. exists 0%nat. destruct Hcase as [(m & E & Ei & _)|(? & _)]; [|done].
    symmetry in E. apply app_eq_nil in E as [-> _]. by rewrite E0. }
  assert (Eadd : AddNewPath p b = if decide (buffer_idx_ b < length (paths_buffer_ b))%nat then
    Some (mk (<[buffer_idx_ b := p]> (paths_buffer_ b)) ((buffer_idx_ b + 1) mod length (paths_buffer_ b))) else None).
  { unfold AddNewPath. by destruct (paths_buffer_ b). }
  rewrite Eadd. clear Eadd.
  destruct Hcase as [(m & Eb & Ei & Hm)|(_ & Hi & Ek)].
  - destruct m as [|m]; [rewrite Hm, app_nil_r in Eb by done; by rewrite Eb in Hne|].
    assert (Hlen : length (paths_buffer_ b) = (length kept + S m)%nat) by (by rewrite Eb, length_app, length_replicate).
    rewrite decide_True by lia. eexists. split; [done|]. cbn. rewrite length_insert. split; [done|].
    assert (Ebuf : <[buffer_idx_ b := p]> (paths_buffer_ b) = (kept ++ [p]) ++ replicate m default_path).
    { rewrite Eb, Ei, insert_app_r_alt, Nat.sub_diag by lia. cbn. by rewrite <- app_assoc. }
    unfold newest. rewrite length_app. cbn [length]. replace (length kept + 1 - length (paths_buffer_ b))%nat with 0%nat by lia.
    rewrite drop_0. split; [done|]. rewrite Ebuf, Ei. cbn [paths_buffer_ buffer_idx_]. destruct m as [|m].
    + right. cbn. rewrite app_nil_r. replace (length kept + 1)%nat with (length (paths_buffer_ b)) by lia.
      rewrite Nat.Div0.mod_same, drop_0, take_0, app_nil_r. split_and!; [by destruct kept|rewrite length_app; simpl; lia|done].
    + left. exists (S m). split_and!; [done| |done]. cbn. rewrite length_app. cbn. rewrite Nat.mod_small; lia.
  - rewrite decide_True by done. eexists. split; [done|]. cbn. rewrite length_insert. split; [done|].
    destruct (lookup_lt_is_Some_2 _ _ Hi) as [x Hx]. pose proof (take_drop_middle _ _ _ Hx) as Eb.
    set (l1 := take (buffer_idx_ b) (paths_buffer_ b)) in *. set (l2 := drop (S (buffer_idx_ b)) (paths_buffer_ b)) in *.
    assert (Hl1 : length l1 = buffer_idx_ b) by (apply length_take_le; lia). rewrite (drop_S _ _ _ Hx) in Ek. fold l2 in Ek.
    assert (Ebuf : <[buffer_idx_ b := p]> (paths_buffer_ b) = l1 ++ p :: l2).
    { by rewrite <- Eb, <- Hl1, insert_app_r_alt, Nat.sub_diag by lia. }
    assert (Hlen : length (paths_buffer_ b) = S (length l1 + length l2)) by (rewrite <- Eb, length_app; simpl; lia).
    assert (Enew : newest (length (paths_buffer_ b)) (kept ++ [p]) = l2 ++ l1 ++ [p]).
    { unfold newest. rewrite Ek, !length_app. cbn [length app].
      replace (S (length l2) + length l1 + 1 - length (paths_buffer_ b))%nat with 1%nat by lia. cbn. by rewrite <- app_assoc. }
    rewrite Enew. split; [rewrite Ek in HFp; inversion HFp; by rewrite <- app_assoc in *|]. right. cbn [paths_buffer_ buffer_idx_]. rewrite Ebuf.
    split; [by destruct l1|]. rewrite length_app, <- Hl1. cbn [length]. destruct l2 as [|y l2].
    + replace (length l1 + 1)%nat with (length (paths_buffer_ b)) by (rewrite Hlen; cbn; lia). rewrite Nat.Div0.mod_same.
      split; [lia|]. by rewrite drop_0, take_0, app_nil_r.
    + rewrite Nat.mod_small by (rewrite Hlen; cbn; lia). split; [cbn; lia|].
      replace (l1 ++ p :: y :: l2) with ((l1 ++ [p]) ++ y :: l2) by (by rewrite <- app_assoc). assert (E : length (l1 ++ [p]) = (length l1 + 1)%nat) by (rewrite length_app; done).
      by rewrite <- E, drop_app_length, take_app_length.
Qed.

Lemma Resize_holds b kept n : holds b kept -> n = 0%nat \/ n <> length kept ->
  exists b', Resize default_path path_empty n b = Some b' /\ length (paths_buffer_ b') = n /\ holds b' (newest n kept).
Proof.
  intros Hh Hn. pose proof (Normalize_holds b kept Hh) as HN. destruct Hh as [HF _]. unfold Resize. rewrite HN. cbn. eexists. split; [done|].
  assert (HF' : Forall (fun p => path_empty p = false) (newest n kept)) by (by apply Forall_drop).
  case_decide as Hlt; cbn.
  - rewrite length_drop. split; [lia|]. split; [done|]. destruct n as [|n].
    + left. exists 0%nat. unfold newest. by rewrite Nat.sub_0_r, drop_all.
    + right. cbn. rewrite length_drop, drop_0, take_0, app_nil_r. split_and!; [|lia|done]. intros E.
      apply (f_equal length) in E. rewrite length_drop in E. cbn in E. lia.
  - rewrite length_app, length_replicate. split; [lia|]. split; [done|]. left. exists (n - length kept)%nat. unfold newest.
    replace (length kept - n)%nat with 0%nat by lia. rewrite drop_0. split_and!; [done|done|]. intros ?.
    assert (length kept = 0%nat) by lia. by destruct kept.
Qed.

(** Operations on the buffer, and on the list of the paths it should hold (oldest first). *)
Inductive buf_op := Add (p : Path) | SetSize (n : nat).

Definition buf_run (o : buf_op) (b : t Path) : option (t Path) :=
  match o with Add p => AddNewPath p b | SetSize n => Resize default_path path_empty n b end.
Definition buf_spec (o : buf_op) (x : nat * list Path) : nat * list Path :=
  match o with Add p => (x.1, newest x.1 (x.2 ++ [p])) | SetSize n => (n, newest n x.2) end.
(** Paths are not empty; the buffer is not resized to just the number of paths in it. *)
Definition buf_pre (o : buf_op) (x : nat * list Path) : Prop :=
  match o with Add p => path_empty p = false | SetSize n => n = 0%nat \/ n <> length x.2 end.

Fixpoint buf_runs (l : list buf_op) (b : t Path) : option (t Path) :=
  match l with [] => Some b | o :: l => b' ← buf_run o b; buf_runs l b' end.
Fixpoint buf_pres (l : list buf_op) (x : nat * list Path) : Prop :=
  match l with [] => True | o :: l => buf_pre o x /\ buf_pres l (buf_spec o x) end.

Lemma buf_runs_ok l b x : holds b x.2 -> length (paths_buffer_ b) = x.1 -> buf_pres l x ->
  exists b', buf_runs l b = Some b' /\ holds b' (foldl (fun x o => buf_spec o x) x l).2.
Proof.
  revert b x. induction l as [|o l IH]; intros b x Hh Hlen Hpre; cbn; [by exists b|]. destruct Hpre as [Hp Hpre].
  destruct o as [p|n]; cbn [buf_run buf_spec buf_pre] in *.
  - destruct (Add_holds b x.2 p Hh Hp) as (b' & -> & Hl' & Hh'). cbn. rewrite Hlen in Hl', Hh'. by apply IH.
  - destruct (Resize_holds b x.2 n Hh Hp) as (b' & -> & Hl' & Hh'). cbn. by apply IH.
Qed.

(** Whatever deadlocks are recorded and however the buffer is resized (except to just the number of
    deadlocks it holds), every access stays in range and [PrepareBuffer] lists the latest deadlocks, newest first, as
    many as fit. *)
Theorem deadlock_buffer_refines n l : buf_pres l (n, []) ->
  exists b', buf_runs l (new default_path n) = Some b' /\
    PrepareBuffer path_empty b' = Some (reverse (foldl (fun x o => buf_spec o x) (n, []) l).2).
Proof.
  intros Hpre. destruct (buf_runs_ok l (new default_path n) (n, [])) as (b' & E & Hh); [apply holds_new|apply length_replicate|done|].
  exists b'. split; [done|]. unfold PrepareBuffer. by rewrite (Normalize_holds _ _ Hh).
Qed.

(** Resizing to exactly the number of deadlocks the buffer holds leaves the index at the end of the
    vector, and recording the next deadlock or listing them then accesses it out of range. *)
Theorem deadlock_buffer_resize_overrun b kept p : holds b kept -> kept <> [] ->
  exists b', Resize default_path path_empty (length kept) b = Some b' /\
    AddNewPath p b' = None /\ PrepareBuffer path_empty b' = None.
Proof.
  intros Hh Hne. unfold Resize. rewrite (Normalize_holds _ _ Hh). cbn. rewrite decide_False by lia. rewrite Nat.sub_diag, app_nil_r.
  eexists. split; [done|]. unfold AddNewPath, PrepareBuffer, Normalize. cbn [paths_buffer_ buffer_idx_].
  destruct kept as [|x kept]; [done|]. cbn [replicate]. rewrite decide_False by lia. split; [done|].
  by rewrite (lookup_ge_None_2 (x :: kept)) by done.
Qed.
End refine.

Definition ex_empty (p : nat) : bool := Nat.eqb p 0.
Definition ex_ops : list (buf_op (Path := nat)) := [Add 1; Add 2; SetSize 3; Add 3; Add 4]%nat.

Lemma deadlock_buffer_refines_witness : buf_pres ex_empty ex_ops (2%nat, []) /\
  exists b', buf_runs 0%nat ex_empty ex_ops (new 0%nat 2) = Some b' /\ PrepareBuffer ex_empty b' = Some [4; 3; 2]%nat.
Proof.
  assert (Hpre : buf_pres ex_empty ex_ops (2%nat, [])) by (cbn; auto 10).
  split; [exact Hpre|]. exact (deadlock_buffer_refines 0%nat ex_empty eq_refl 2 _ Hpre).
Defined.

Lemma deadlock_buffer_resize_overrun_witness :
  exists b', Resize 0%nat ex_empty 2 (mk [1; 2]%nat 0) = Some b' /\
    AddNewPath 3%nat b' = None /\ PrepareBuffer ex_empty b' = None.
Proof.
  apply (deadlock_buffer_resize_overrun 0%nat ex_empty eq_refl (mk [1; 2]%nat 0) [1; 2]%nat 3%nat); [|done].
  split; [repeat constructor|]. right. split_and!; [done|cbn; lia|done].
Defined.
