(* ===== verification/PointLock.v ===== *)
(** * The point lock manager (utilities/transactions/lock/point/point_lock_manager.cc)

    [PointLockManager]: locks on keys, waiting with a timeout, and deadlock
    detection. Code that holds a mutex throughout is atomic. [AcquireWithTimeout]
    gives up the stripe's mutex while it waits, so it is cut there: [acquire] runs
    from the start, and [resume] from the end of a wait, to the next wait ([Blocks]) or to
    the answer ([Done]); [Spins] is a loop that has used up its fuel without doing
    either.

    A [LockMap] is shared by pointer: pointers are indices into [maps]. The
    thread-local cache of those pointers is left out. The hash of a key, the limits of
    the options, the clock and the answers of the mutex and the condition variable are
    parameters. [None] is undefined behaviour. *)

From stdpp Require Import prelude gmap sorting.
From Stdlib Require Import ZArith Lia Bool.
From S2P Require Import Prelude Math Status StateMonad DeadlockBuffer.

Record LockInfo := mkLockInfo { exclusive : bool; txn_ids : list Z; expiration_time : Z }.
(** [num_stripes_] is the length of [lock_map_stripes_]. *)
Record LockMap := mkLockMap { lock_cnt : Z; lock_map_stripes_ : list (gmap (list Z) LockInfo) }.
Record TrackedTrxInfo := mkTracked { m_neighbors : list Z; m_cf_id : Z; m_exclusive : bool; m_waiting_key : list Z }.
Record DeadlockInfo := mkDeadlockInfo { d_txn_id : Z; d_cf_id : Z; d_exclusive : bool; d_waiting_key : list Z }.
Record DeadlockPath := mkDeadlockPath { path : list DeadlockInfo; limit_exceeded : bool; deadlock_time : Z }.

Definition default_deadlock_path : DeadlockPath := mkDeadlockPath [] false 0.
Definition deadlock_path_empty (p : DeadlockPath) : bool :=
  match path p with [] => negb (limit_exceeded p) | _ => false end.

Inductive TransactionState :=
  | STARTED | AWAITING_PREPARE | PREPARED | AWAITING_COMMIT | COMMITTED | AWAITING_ROLLBACK | ROLLEDBACK | LOCKS_STOLEN.
#[global] Instance TransactionState_eq_dec : EqDecision TransactionState.
Proof. solve_decision. Defined.

(** What the manager reads of a [PessimisticTransaction]. *)
Record Txn := mkTxn {
  GetID : Z;
  GetExpirationTime : Z;
  GetLockTimeout : Z;
  IsDeadlockDetect : bool;
  GetDeadlockDetectDepth : nat;
}.

Module PointLockManager.
Section manager.
(** [max_num_locks_], [default_num_stripes_] and [GetSliceNPHash64]. *)
Context (max_num_locks_ : Z) (default_num_stripes_ : nat) (GetSliceNPHash64 : list Z -> Z).

(** [expirable_transactions_map_] of the database, with the transactions' states, and the
    transactions' [waiting_txn_ids_], [waiting_cf_id_] and [waiting_key_] are part of the state. *)
Record t := mk {
  maps : list LockMap;
  lock_maps_ : gmap Z nat;
  rev_wait_txn_map_ : gmap Z Z;
  wait_txn_map_ : gmap Z TrackedTrxInfo;
  dlock_buffer_ : DeadlockInfoBuffer.t DeadlockPath;
  expirable_transactions_map_ : gmap Z TransactionState;
  waiting_ : gmap Z (list Z * Z * list Z);
}.

Definition set_maps (l : list LockMap) (s : t) : t :=
  mk l (lock_maps_ s) (rev_wait_txn_map_ s) (wait_txn_map_ s) (dlock_buffer_ s) (expirable_transactions_map_ s) (waiting_ s).
Definition set_lock_maps (m : gmap Z nat) (s : t) : t :=
  mk (maps s) m (rev_wait_txn_map_ s) (wait_txn_map_ s) (dlock_buffer_ s) (expirable_transactions_map_ s) (waiting_ s).
Definition set_wait (r : gmap Z Z) (w : gmap Z TrackedTrxInfo) (s : t) : t :=
  mk (maps s) (lock_maps_ s) r w (dlock_buffer_ s) (expirable_transactions_map_ s) (waiting_ s).
Definition set_dlock (b : DeadlockInfoBuffer.t DeadlockPath) (s : t) : t :=
  mk (maps s) (lock_maps_ s) (rev_wait_txn_map_ s) (wait_txn_map_ s) b (expirable_transactions_map_ s) (waiting_ s).
Definition set_expirable (m : gmap Z TransactionState) (s : t) : t :=
  mk (maps s) (lock_maps_ s) (rev_wait_txn_map_ s) (wait_txn_map_ s) (dlock_buffer_ s) m (waiting_ s).
Definition set_waiting (m : gmap Z (list Z * Z * list Z)) (s : t) : t :=
  mk (maps s) (lock_maps_ s) (rev_wait_txn_map_ s) (wait_txn_map_ s) (dlock_buffer_ s) (expirable_transactions_map_ s) m.

Definition new (max_num_deadlocks : nat) : t :=
  mk [] ∅ ∅ ∅ (DeadlockInfoBuffer.new default_deadlock_path max_num_deadlocks) ∅ ∅.

(** ** Lock maps *)

Definition GetStripe (lm : LockMap) (key : list Z) : nat :=
  Z.to_nat (FastRange64 (GetSliceNPHash64 key) (Z.of_nat (length (lock_map_stripes_ lm)))).

Definition AddColumnFamily (cf : Z) : M t unit :=
  found ← gets (fun s => lock_maps_ s !! cf);
  match found with
  | None =>
      modify (fun s => set_maps (maps s ++ [mkLockMap 0 (replicate default_num_stripes_ ∅)])
                                (set_lock_maps (<[cf := length (maps s)]> (lock_maps_ s)) s))
  | Some _ => mret tt
  end.
Definition RemoveColumnFamily (cf : Z) : M t unit :=
  modify (fun s => set_lock_maps (base.delete cf (lock_maps_ s)) s).
Definition GetLockMap (cf : Z) (s : t) : option nat := lock_maps_ s !! cf.

Definition get_map (m : nat) : M t LockMap := l ← gets maps; of_option (l !! m).
Definition put_map (m : nat) (lm : LockMap) : M t unit := modify (fun s => set_maps (<[m := lm]> (maps s)) s).
Definition get_stripe (m stripe : nat) : M t (gmap (list Z) LockInfo) :=
  lm ← get_map m; of_option (lock_map_stripes_ lm !! stripe).
Definition put_stripe (m stripe : nat) (keys : gmap (list Z) LockInfo) : M t unit :=
  lm ← get_map m; put_map m (mkLockMap (lock_cnt lm) (<[stripe := keys]> (lock_map_stripes_ lm))).
Definition add_lock_cnt (m : nat) (d : Z) : M t unit :=
  lm ← get_map m; put_map m (mkLockMap (lock_cnt lm + d) (lock_map_stripes_ lm)).

(** ** Expiration *)

(** A transaction that expires is entered with its state when it begins, and removed when it is destroyed. *)
Definition InsertExpirableTransaction (id : Z) (st : TransactionState) : M t unit :=
  modify (fun s => match expirable_transactions_map_ s !! id with
                   | Some _ => s
                   | None => set_expirable (<[id := st]> (expirable_transactions_map_ s)) s
                   end).
Definition RemoveExpirableTransaction (id : Z) : M t unit :=
  modify (fun s => set_expirable (base.delete id (expirable_transactions_map_ s)) s).

Definition TryStealingExpiredTransactionLocks (id : Z) : M t bool :=
  e ← gets expirable_transactions_map_;
  match e !! id with
  | None => mret true
  | Some STARTED => modify (set_expirable (<[id := LOCKS_STOLEN]> e)) ;; mret true
  | Some _ => mret false
  end.

Fixpoint steal_all (txn_id : Z) (ids : list Z) : M t bool :=
  match ids with
  | [] => mret true
  | id :: ids =>
      if decide (txn_id = id) then steal_all txn_id ids
      else
        success ← TryStealingExpiredTransactionLocks id;
        if (success : bool) then steal_all txn_id ids else mret false
  end.

(** Whether the lock has expired, and [*expire_time]. *)
Definition IsLockExpired (txn_id : Z) (li : LockInfo) (now expire_time : Z) : M t (bool * Z) :=
  if decide (expiration_time li = 0) then mret (false, 0)
  else if negb (expiration_time li <=? now) then mret (false, expiration_time li)
  else
    expired ← steal_all txn_id (txn_ids li);
    mret (expired, if (expired : bool) then expire_time else 0).

(** ** Acquiring *)

(** The answer, [*expire_time] and [*txn_ids]; the request has one transaction, [id]. *)
Definition AcquireLocked (m stripe : nat) (key : list Z) (now : Z) (id : Z) (excl : bool) (exp : Z)
    (expire_time : Z) (ids : list Z) : M t (Status * Z * list Z) :=
  keys ← get_stripe m stripe;
  match keys !! key with
  | Some li =>
      if exclusive li || excl then
        if decide (txn_ids li = [id]) then
          put_stripe m stripe (<[key := mkLockInfo excl (txn_ids li) exp]> keys) ;;
          mret (St.OK, expire_time, ids)
        else
          r ← IsLockExpired id li now expire_time;
          let '(expired, expire_time) := r in
          if (expired : bool) then
            put_stripe m stripe (<[key := mkLockInfo excl [id] exp]> keys) ;;
            mret (St.OK, expire_time, ids)
          else mret (St.TimedOut kLockTimeout, expire_time, txn_ids li)
      else
        put_stripe m stripe
          (<[key := mkLockInfo (exclusive li) (txn_ids li ++ [id]) (Z.max (expiration_time li) exp)]> keys) ;;
        mret (St.OK, expire_time, ids)
  | None =>
      lm ← get_map m;
      if (0 <? max_num_locks_) && (max_num_locks_ <=? lock_cnt lm) then
        mret (St.Busy kLockLimit, expire_time, ids)
      else
        put_stripe m stripe (<[key := mkLockInfo excl [id] exp]> keys) ;;
        when (negb (max_num_locks_ =? 0)) (add_lock_cnt m 1) ;;
        mret (St.OK, expire_time, ids)
  end.

(** ** Deadlock detection *)

Fixpoint dec_rev (ids : list Z) : M t unit :=
  match ids with
  | [] => mret tt
  | wait_id :: ids =>
      r ← gets rev_wait_txn_map_;
      n ← of_option (r !! wait_id);
      modify (fun s => set_wait (if decide (n - 1 = 0) then base.delete wait_id r else <[wait_id := n - 1]> r) (wait_txn_map_ s) s) ;;
      dec_rev ids
  end.
Definition DecrementWaiters (id : Z) (wait_ids : list Z) : M t unit :=
  modify (fun s => set_wait (rev_wait_txn_map_ s) (base.delete id (wait_txn_map_ s)) s) ;;
  dec_rev wait_ids.

Fixpoint inc_rev (ids : list Z) (r : gmap Z Z) : gmap Z Z :=
  match ids with
  | [] => r
  | wait_id :: ids => inc_rev ids (<[wait_id := match r !! wait_id with Some n => n + 1 | None => 1 end]> r)
  end.

(** [queue_values] and [queue_parents]; -1 is no parent. *)
Record queue := mkQueue { q_values : list Z; q_parents : list Z }.

(** The loop over [next_ids]: it stops where the queue ends. *)
Fixpoint push_ids (depth tail : nat) (parent : Z) (next_ids : list Z) (q : queue) : nat * queue :=
  match next_ids with
  | [] => (tail, q)
  | x :: next_ids =>
      if decide (tail < depth)%nat then
        push_ids depth (S tail) parent next_ids (mkQueue (<[tail := x]> (q_values q)) (<[tail := parent]> (q_parents q)))
      else (tail, q)
  end.

(** The path from [head] up to the root. *)
Fixpoint extract_path (fuel : nat) (w : gmap Z TrackedTrxInfo) (q : queue) (head : Z) : option (list DeadlockInfo) :=
  match fuel with
  | O => None
  | S fuel =>
      if decide (head = -1) then Some []
      else
        v ← q_values q !! Z.to_nat head;
        info ← w !! v;
        parent ← q_parents q !! Z.to_nat head;
        rest ← extract_path fuel w q parent;
        Some (mkDeadlockInfo v (m_cf_id info) (m_exclusive info) (m_waiting_key info) :: rest)
  end.

Inductive search := NoDeadlock | Deadlock (p : list DeadlockInfo) | TooDeep.

(** The search, from [head] on, with [n] places of the queue left to visit. *)
Fixpoint find_deadlock (n : nat) (depth : nat) (id : Z) (w : gmap Z TrackedTrxInfo) (head tail : nat) (parent : Z)
    (next_ids : list Z) (q : queue) : option search :=
  match n with
  | O => Some TooDeep
  | S n =>
      let '(tail, q) := push_ids depth tail parent next_ids q in
      if decide (tail = head) then Some NoDeadlock
      else
        next ← q_values q !! head;
        if decide (next = id) then
          p ← extract_path (S depth) w q (Z.of_nat head);
          Some (Deadlock (reverse p))
        else
          match w !! next with
          | None => find_deadlock n depth id w (S head) tail parent [] q
          | Some info => find_deadlock n depth id w (S head) tail (Z.of_nat head) (m_neighbors info) q
          end
  end.

(** Whether waiting would deadlock. [current_time] is the answer of [Env::GetCurrentTime]. The code asserts that
    [id] is not waiting yet. *)
Definition IncrementWaiters (txn : Txn) (wait_ids : list Z) (key : list Z) (cf_id : Z) (excl : bool)
    (current_time : option Z) : M t bool :=
  let id := GetID txn in
  let depth := GetDeadlockDetectDepth txn in
  w ← gets wait_txn_map_;
  (if decide (is_Some (w !! id)) then undefined else mret tt) ;;
  modify (fun s => set_wait (inc_rev wait_ids (rev_wait_txn_map_ s))
                            (<[id := mkTracked wait_ids cf_id excl key]> (wait_txn_map_ s)) s) ;;
  r ← gets rev_wait_txn_map_;
  match r !! id with
  | None => mret false
  | Some _ =>
      w ← gets wait_txn_map_;
      found ← of_option (find_deadlock depth depth id w 0 0 (-1) wait_ids (mkQueue (replicate depth 0) (replicate depth 0)));
      let report p :=
        b ← gets dlock_buffer_;
        b ← of_option (DeadlockInfoBuffer.AddNewPath p b);
        modify (set_dlock b) ;;
        DecrementWaiters id wait_ids ;;
        mret true in
      match found with
      | NoDeadlock => mret false
      | Deadlock p => report (mkDeadlockPath p false (default 0 current_time))
      | TooDeep => report (mkDeadlockPath [] true (default 0 current_time))
      end
  end.

(** ** Waiting *)

(** What [AcquireWithTimeout] keeps over a wait. *)
Record wait_state := mkWait { end_time : Z; expire_time_hint : Z; wait_ids : list Z }.
(** A request: the transaction, the lock map and stripe, the column family, the key and the mode. *)
Record request := mkRequest { r_txn : Txn; r_map : nat; r_stripe : nat; r_cf : Z; r_key : list Z; r_excl : bool }.

(** The clock in one round of the loop: [NowMicros] before the wait, [NowMicros] in [IsLockExpired], and
    [GetCurrentTime] when a deadlock is recorded. *)
Record reading := mkReading { wait_now : Z; locked_now : Z; current_time : option Z }.

Inductive outcome :=
  | Done (s : Status)
  | Blocks (cv_end_time : Z) (ws : wait_state)
  | Spins.

Definition try_acquire (r : request) (now : Z) (ws : wait_state) : M t (Status * wait_state) :=
  a ← AcquireLocked (r_map r) (r_stripe r) (r_key r) now (GetID (r_txn r)) (r_excl r) (GetExpirationTime (r_txn r))
        (expire_time_hint ws) (wait_ids ws);
  mret (a.1.1, mkWait (end_time ws) a.1.2 a.2).

(** [cv_end_time], a signed integer the unsigned times are converted to. *)
Definition cv_end (ws : wait_state) : Z :=
  if (0 <? expire_time_hint ws) && (0 <? end_time ws) then i64 (Z.min (expire_time_hint ws) (end_time ws))
  else if 0 <? expire_time_hint ws then i64 (expire_time_hint ws)
  else if 0 <? end_time ws then i64 (end_time ws)
  else -1.

Definition waits (ws : wait_state) : bool := match wait_ids ws with [] => false | _ => true end.

(** The loop's body after the wait, to the test of the loop: whether to go on. *)
Definition after_wait (r : request) (now : Z) (result : Status) (ws : wait_state) : M t (bool * Status * wait_state) :=
  when (waits ws) (
    modify (fun s => set_waiting (base.delete (GetID (r_txn r)) (waiting_ s)) s) ;;
    when (IsDeadlockDetect (r_txn r)) (DecrementWaiters (GetID (r_txn r)) (wait_ids ws))) ;;
  let timed_out := bool_decide (code_ result = kTimedOut) in
  if St.ok result || timed_out then
    a ← try_acquire r now ws;
    mret (negb (St.ok a.1) && negb timed_out, a.1, a.2)
  else mret (true, result, ws).

(** The loop from round [i] on, to a wait or to the answer. *)
Fixpoint acquire_loop (fuel : nat) (r : request) (env : nat -> reading) (i : nat) (result : Status) (ws : wait_state)
    : M t outcome :=
  match fuel with
  | O => mret Spins
  | S fuel =>
      let cv_end_time := cv_end ws in
      deadlock ← (
        if waits ws then
          d ← (if IsDeadlockDetect (r_txn r) then IncrementWaiters (r_txn r) (wait_ids ws) (r_key r) (r_cf r) (r_excl r) (current_time (env i))
               else mret false);
          when (negb d)
            (modify (fun s => set_waiting (<[GetID (r_txn r) := (wait_ids ws, r_cf r, r_key r)]> (waiting_ s)) s)) ;;
          mret d
        else mret false);
      if (deadlock : bool) then mret (Done (St.Busy kDeadlock))
      else if (cv_end_time <? 0) || (wait_now (env i) <? cv_end_time) then mret (Blocks cv_end_time ws)
      else
        a ← after_wait r (locked_now (env i)) result ws;
        if (a.1.1 : bool) then acquire_loop fuel r env (S i) a.1.2 a.2 else mret (Done a.1.2)
  end.

(** [AcquireWithTimeout] from the start, at [start_time]: [mutex] is the answer of the stripe's mutex, and [now] the
    time in the first [IsLockExpired]. *)
Definition acquire (fuel : nat) (r : request) (start_time now : Z) (env : nat -> reading) (mutex : Status) : M t outcome :=
  let timeout := GetLockTimeout (r_txn r) in
  let end_time := if 0 <? timeout then u64 (start_time + timeout) else 0 in
  if negb (St.ok mutex) then mret (Done mutex)
  else
    a ← try_acquire r now (mkWait end_time 0 []);
    if negb (St.ok a.1) && negb (timeout =? 0) then acquire_loop fuel r env 0 a.1 a.2
    else mret (Done a.1).

(** [AcquireWithTimeout] from the end of a wait, whose answer is [cv]; [env] is the clock of the rounds that follow. *)
Definition resume (fuel : nat) (r : request) (now : Z) (env : nat -> reading) (cv : Status) (ws : wait_state) : M t outcome :=
  a ← after_wait r now cv ws;
  if (a.1.1 : bool) then acquire_loop fuel r env 0 a.1.2 a.2 else mret (Done a.1.2).

(** The request [TryLock] makes, or its answer. *)
Definition TryLock_request (txn : Txn) (cf : Z) (key : list Z) (excl : bool) : M t (request + Status) :=
  m ← gets (GetLockMap cf);
  match m with
  | None => mret (inr St.InvalidArgument)
  | Some m =>
      lm ← get_map m;
      let stripe_num := GetStripe lm key in
      _ ← get_stripe m stripe_num;
      mret (inl (mkRequest txn m stripe_num cf key excl))
  end.

Definition TryLock (fuel : nat) (txn : Txn) (cf : Z) (key : list Z) (excl : bool) (start_time now : Z)
    (env : nat -> reading) (mutex : Status)
    : M t (request * outcome + Status) :=
  r ← TryLock_request txn cf key excl;
  match r with
  | inr s => mret (inr s)
  | inl r => o ← acquire fuel r start_time now env mutex; mret (inl (r, o))
  end.

(** ** Unlocking *)

Definition UnLockKey (txn : Txn) (key : list Z) (m stripe : nat) : M t unit :=
  let txn_id := GetID txn in
  keys ← get_stripe m stripe;
  match keys !! key with
  | Some li =>
      match list_find (fun id => id = txn_id) (txn_ids li) with
      | Some (i, _) =>
          (if decide (length (txn_ids li) = 1%nat) then put_stripe m stripe (base.delete key keys)
           else
             let l := txn_ids li in
             let last := (length l - 1)%nat in
             let l := if decide (i = last) then l else <[i := l !!! last]> l in
             put_stripe m stripe (<[key := mkLockInfo (exclusive li) (take last l) (expiration_time li)]> keys)) ;;
          when (0 <? max_num_locks_) (add_lock_cnt m (-1))
      | None => mret tt
      end
  | None => mret tt
  end.

Definition UnLock (txn : Txn) (cf : Z) (key : list Z) : M t unit :=
  m ← gets (GetLockMap cf);
  match m with
  | None => mret tt
  | Some m => lm ← get_map m; UnLockKey txn key m (GetStripe lm key)
  end.

(** [keys_by_stripe], in the order in which the stripes are first met (the map's own order is not specified). *)
Fixpoint bucket (stripe : nat) (key : list Z) (l : list (nat * list (list Z))) : list (nat * list (list Z)) :=
  match l with
  | [] => [(stripe, [key])]
  | (s, ks) :: l => if decide (s = stripe) then (s, ks ++ [key]) :: l else (s, ks) :: bucket stripe key l
  end.

(** The keys of the tracker by column family. A column family that was dropped ends the loop. *)
Fixpoint UnLock_all (txn : Txn) (tracker : list (Z * list (list Z))) : M t unit :=
  match tracker with
  | [] => mret tt
  | (cf, ks) :: tracker =>
      m ← gets (GetLockMap cf);
      match m with
      | None => mret tt
      | Some m =>
          lm ← get_map m;
          for_each (fun b => for_each (fun key => UnLockKey txn key m b.1) b.2)
            (foldl (fun l key => bucket (GetStripe lm key) key l) [] ks) ;;
          UnLock_all txn tracker
      end
  end.

(** ** Reports *)

Record KeyLockInfo := mkKeyLockInfo { k_key : list Z; k_ids : list Z; k_exclusive : bool }.
(** By column family in ascending order, then by stripe; the order of the keys of a stripe is that of [map_to_list]. *)
Definition GetPointLockStatus (s : t) : option (list (Z * KeyLockInfo)) :=
  l ← mapM (fun cf =>
        m ← lock_maps_ s !! cf;
        lm ← maps s !! m;
        Some (concat (map (fun keys : gmap (list Z) LockInfo =>
          map (fun it => (cf, mkKeyLockInfo it.1 (txn_ids it.2) (exclusive it.2))) (map_to_list keys))
          (lock_map_stripes_ lm))))
      (merge_sort Z.le (map fst (map_to_list (lock_maps_ s))));
  Some (concat l).

Definition GetDeadlockInfoBuffer (s : t) : option (list DeadlockPath) :=
  DeadlockInfoBuffer.PrepareBuffer deadlock_path_empty (dlock_buffer_ s).
Definition Resize (target_size : nat) : M t unit :=
  b ← gets dlock_buffer_;
  b ← of_option (DeadlockInfoBuffer.Resize default_deadlock_path deadlock_path_empty target_size b);
  modify (set_dlock b).
End manager.
End PointLockManager.
