(* ===== verification/WaitGraph.v ===== *)
(** * The wait-for graph of the point lock manager

    [wait_txn_map_] is a graph: a waiting transaction points to those it waits for.
    [rev_wait_txn_map_] counts the edges into each transaction. The bounded
    breadth-first search of [IncrementWaiters] is proved sound, so that the graph stays
    free of cycles and some waiting transaction always waits only for running ones. *)

From stdpp Require Import prelude gmap relations.
From Stdlib Require Import ZArith Lia Bool.
From S2P Require Import Prelude StateMonad DeadlockBuffer PointLock.
Import PointLockManager.

Definition edge (w : gmap Z TrackedTrxInfo) (a b : Z) : Prop := exists i, w !! a = Some i /\ b ∈ m_neighbors i.
Definition acyclic (w : gmap Z TrackedTrxInfo) : Prop := forall a, ~ tc (edge w) a a.

(** How often [x] is in [l], and in the lists of the whole graph. *)
Definition occ (x : Z) (l : list Z) : Z := Z.of_nat (length (filter (fun y => y = x) l)).
Definition total (x : Z) (w : gmap Z TrackedTrxInfo) : Z := map_fold (fun _ i n => occ x (m_neighbors i) + n) 0 w.
Definition count_of (n : Z) : option Z := if decide (n = 0) then None else Some n.
Definition counts (r : gmap Z Z) (w : gmap Z TrackedTrxInfo) : Prop := forall x, r !! x = count_of (total x w).

(** ** Counts *)

Lemma occ_nonneg x l : 0 <= occ x l.
Proof. unfold occ. lia. Qed.
Lemma occ_cons x y l : occ x (y :: l) = (if decide (y = x) then 1 else 0) + occ x l.
Proof. unfold occ. rewrite filter_cons. destruct (decide (y = x)); cbn [length]; lia. Qed.
Lemma occ_elem x l : x ∈ l -> 0 < occ x l.
Proof.
  induction l as [|y l IH]; [by intros ?%not_elem_of_nil|]. rewrite occ_cons. pose proof (occ_nonneg x l).
  intros [->|H1]%elem_of_cons; [by rewrite decide_True by done; lia|]. specialize (IH H1). case_decide; lia.
Qed.

Lemma graph_total_insert x id i w : w !! id = None -> total x (<[id := i]> w) = occ x (m_neighbors i) + total x w.
Proof. intros H. unfold total. rewrite map_fold_insert_L; [done| |done]. intros. lia. Qed.
Lemma total_delete x id i w : w !! id = Some i -> total x w = occ x (m_neighbors i) + total x (base.delete id w).
Proof. intros H. rewrite <- (insert_delete_id w id i H) at 1. by apply graph_total_insert, lookup_delete_eq. Qed.
Lemma graph_total_nonneg x w : 0 <= total x w.
Proof.
  induction w as [|id i w H IH] using map_ind; [done|]. rewrite graph_total_insert by done.
  pose proof (occ_nonneg x (m_neighbors i)). lia.
Qed.
Lemma total_edge a x w : edge w a x -> 0 < total x w.
Proof.
  intros (i & Hi & Hx). rewrite (total_delete x a i w Hi).
  pose proof (occ_elem x _ Hx). pose proof (graph_total_nonneg x (base.delete a w)). lia.
Qed.

Lemma counts_inj r r' w : counts r w -> counts r' w -> r = r'.
Proof. intros H H'. apply map_eq. intros x. by rewrite H, H'. Qed.

(** What a map of counts [f] becomes. *)
Lemma inc_rev_count ids r (f : Z -> Z) : (forall x, 0 <= f x) -> (forall x, r !! x = count_of (f x)) ->
  forall x, inc_rev ids r !! x = count_of (occ x ids + f x).
Proof.
  revert r f. induction ids as [|y ids IH]; intros r f Hf Hr x; [exact (Hr x)|]. cbn [inc_rev].
  rewrite (IH _ (fun x => (if decide (y = x) then 1 else 0) + f x)).
  - rewrite occ_cons. f_equal. lia.
  - intros z. specialize (Hf z). case_decide; lia.
  - intros z. specialize (Hf y) as Hy. destruct (decide (y = z)) as [<-|Hne].
    + rewrite lookup_insert_eq, Hr. unfold count_of. repeat case_decide; f_equal; lia.
    + rewrite lookup_insert_ne by done. by rewrite Hr.
Qed.

Lemma dec_rev_count ids s (f : Z -> Z) : (forall x, 0 <= f x) -> (forall x, rev_wait_txn_map_ s !! x = count_of (occ x ids + f x)) ->
  exists r, dec_rev ids s = Some (tt, set_wait r (wait_txn_map_ s) s) /\ forall x, r !! x = count_of (f x).
Proof.
  revert s. induction ids as [|y ids IH]; intros s Hf Hr.
  - exists (rev_wait_txn_map_ s). split; [by destruct s|exact Hr].
  - cbn [dec_rev]. unfold mbind, M_bind, gets, of_option, modify.
    assert (Ey : rev_wait_txn_map_ s !! y = Some (1 + occ y ids + f y)).
    { rewrite Hr, occ_cons, decide_True by done. unfold count_of. pose proof (occ_nonneg y ids). specialize (Hf y).
      rewrite decide_False by lia. done. }
    rewrite Ey. set (r' := if decide _ then _ else _).
    destruct (IH (set_wait r' (wait_txn_map_ s) s) Hf) as (r & Er & H).
    + intros x. cbn. pose proof (occ_nonneg y ids). specialize (Hf y) as Hy. subst r'. destruct (decide (y = x)) as [<-|Hne].
      * unfold count_of. case_decide.
        -- rewrite lookup_delete_eq, decide_True by lia. done.
        -- rewrite lookup_insert_eq, decide_False by lia. f_equal. lia.
      * specialize (Hr x). rewrite occ_cons, (decide_False (P := y = x)) in Hr by done.
        case_decide; [rewrite lookup_delete_ne by done|rewrite lookup_insert_ne by done]; exact Hr.
    + exists r. split; [exact Er|exact H].
Qed.

(** ** Cycles *)

Lemma edge_insert_ne w id i a b : a <> id -> edge (<[id := i]> w) a b <-> edge w a b.
Proof. intros H. unfold edge. by rewrite lookup_insert_ne. Qed.

Lemma tc_insert w id i a b : tc (edge (<[id := i]> w)) a b ->
  tc (edge w) a b \/ (rtc (edge (<[id := i]> w)) a id /\ tc (edge (<[id := i]> w)) id b).
Proof.
  induction 1 as [a b H|a c b H H1 [IH|[IH1 IH2]]].
  - destruct (decide (a = id)) as [->|Hne]; [right; split; [done|by apply tc_once]|].
    left. apply tc_once. by apply edge_insert_ne in H.
  - destruct (decide (a = id)) as [->|Hne]; [right; split; [done|by eapply tc_l]|].
    left. eapply tc_l; [by apply edge_insert_ne in H|done].
  - right. split; [by eapply rtc_l|done].
Qed.

Lemma acyclic_insert w id i : acyclic w -> ~ tc (edge (<[id := i]> w)) id id -> acyclic (<[id := i]> w).
Proof.
  intros Hw Hid a [H|[H1 H2]]%tc_insert; [by apply (Hw a)|]. apply Hid.
  by eapply tc_rtc_r.
Qed.

Lemma edge_delete w id a b : edge (base.delete id w) a b -> edge w a b.
Proof. intros (i & Hi & Hb). apply lookup_delete_Some in Hi as [_ Hi]. by exists i. Qed.
Lemma acyclic_delete w id : acyclic w -> acyclic (base.delete id w).
Proof. intros Hw a H. apply (Hw a). revert H. apply tc_congruence with (f := fun x => x). intros ??. apply edge_delete. Qed.

Lemma acyclic_empty : acyclic ∅.
Proof. intros a H. assert (exists b, edge ∅ a b) as (b & i & Hi & _); [by inversion H; eauto|done]. Qed.

Lemma tc_last {A} (R : relation A) a b : tc R a b -> exists c, R c b.
Proof. induction 1; eauto. Qed.

(** ** The search *)

(** The deadlock reported: the transactions on a cycle from [id] back to [id], each waiting for the next, with what
    each of them waits for. *)
Fixpoint walk (w : gmap Z TrackedTrxInfo) (a : Z) (p : list DeadlockInfo) (z : Z) : Prop :=
  match p with
  | [] => a = z
  | d :: p =>
      edge w a (d_txn_id d) /\
      (exists i, w !! d_txn_id d = Some i /\ d_cf_id d = m_cf_id i /\ d_exclusive d = m_exclusive i /\ d_waiting_key d = m_waiting_key i) /\
      walk w (d_txn_id d) p z
  end.

Lemma walk_app w a p b q z : walk w a p b -> walk w b q z -> walk w a (p ++ q) z.
Proof. revert a. induction p as [|d p IH]; intros a; cbn; [by intros ->|]. intros (H1 & H2 & H3) Hq. eauto. Qed.
Lemma walk_tc w a p z : p <> [] -> walk w a p z -> tc (edge w) a z.
Proof.
  revert a. induction p as [|d p IH]; intros a Hne; [done|]. cbn. intros (H1 & _ & H3).
  destruct p as [|d' p]; [cbn in H3; subst; by apply tc_once|]. eapply tc_l; [done|by apply IH].
Qed.

Section search.
Context (w : gmap Z TrackedTrxInfo) (id : Z) (depth : nat).
Implicit Types q : queue.

(** The vertex a parent index stands for. *)
Definition at_parent q (p v : Z) : Prop :=
  (p = -1 /\ v = id) \/ (0 <= p /\ q_values q !! Z.to_nat p = Some v).

(** The first [tail] places hold vertices, each with an edge from its parent, which is in an earlier place. *)
Record filled q (tail : nat) : Prop := {
  filled_values : length (q_values q) = depth;
  filled_parents : length (q_parents q) = depth;
  filled_tail : (tail <= depth)%nat;
  filled_edge j v : (j < tail)%nat -> q_values q !! j = Some v ->
    exists p u, q_parents q !! j = Some p /\ p < Z.of_nat j /\ at_parent q p u /\ edge w u v;
}.

(** Every successor of [a] is in the queue, or among [next_ids], unless the queue is full. *)
Definition expanded q (tail : nat) (next_ids : list Z) (a : Z) : Prop :=
  forall b, edge w a b -> tail = depth \/ b ∈ next_ids \/ exists j, (j < tail)%nat /\ q_values q !! j = Some b.

Record searching q (head tail : nat) (parent : Z) (next_ids : list Z) : Prop := {
  s_filled : filled q tail;
  s_head : (head <= tail)%nat;
  s_next b : b ∈ next_ids -> exists u, parent < Z.of_nat tail /\ at_parent q parent u /\ edge w u b;
  s_root : expanded q tail next_ids id;
  s_done j v : (j < head)%nat -> q_values q !! j = Some v -> v <> id /\ expanded q tail next_ids v;
}.

Lemma at_parent_insert q tail x y p v : p < Z.of_nat tail -> at_parent q p v ->
  at_parent (mkQueue (<[tail := x]> (q_values q)) (<[tail := y]> (q_parents q))) p v.
Proof.
  intros Hp [?|[H1 H2]]; [by left|right]. split; [done|]. cbn. by rewrite list_lookup_insert_ne by lia.
Qed.

Lemma filled_push q tail parent u x : filled q tail -> (tail < depth)%nat -> parent < Z.of_nat tail ->
  at_parent q parent u -> edge w u x ->
  filled (mkQueue (<[tail := x]> (q_values q)) (<[tail := parent]> (q_parents q))) (S tail).
Proof.
  intros [Hv Hp Ht He] Hlt Hpar Hat Hux. split; cbn; rewrite ?length_insert; [done..|].
  intros j v Hj Hjv. destruct (decide (j = tail)) as [->|Hne].
  - rewrite list_lookup_insert_eq in Hjv by lia. injection Hjv as <-. exists parent, u.
    rewrite list_lookup_insert_eq by lia. split_and!; [done|done|by apply at_parent_insert|done].
  - rewrite list_lookup_insert_ne in Hjv by done. destruct (He j v) as (p & u' & H1 & H2 & H3 & H4); [lia|done|].
    exists p, u'. rewrite list_lookup_insert_ne by done. split_and!; [done|done|apply at_parent_insert; [lia|done]|done].
Qed.

Lemma expanded_push q tail parent x next_ids a : length (q_values q) = depth -> (tail < depth)%nat ->
  expanded q tail (x :: next_ids) a ->
  expanded (mkQueue (<[tail := x]> (q_values q)) (<[tail := parent]> (q_parents q))) (S tail) next_ids a.
Proof.
  intros Hl Hlt H b Hb. destruct (H b Hb) as [?|[[->|Hin]%elem_of_cons|(j & Hj & Hjb)]]; [lia| |by right; left|].
  - right. right. exists tail. cbn. rewrite list_lookup_insert_eq by lia. split; [lia|done].
  - right. right. exists j. cbn. rewrite list_lookup_insert_ne by lia. split; [lia|done].
Qed.

(** The loop over [next_ids] leaves nothing behind, unless the queue is full. *)
Lemma push_ids_searching head parent next_ids : forall tail q tail' q',
  searching q head tail parent next_ids -> push_ids depth tail parent next_ids q = (tail', q') ->
  searching q' head tail' parent [].
Proof.
  induction next_ids as [|x next_ids IH]; intros tail q tail' q' H E; cbn [push_ids] in E.
  - by injection E as <- <-.
  - destruct H as [HF Hh Hn Hr Hd]. pose proof HF as [Hv _ Ht _]. case_decide as Hlt.
    + apply IH in E; [done|]. destruct (Hn x) as (u & H1 & H2 & H3); [by left|].
      split; [by eapply filled_push|lia| |by apply expanded_push|].
      * intros b Hb. destruct (Hn b) as (u' & H1' & H2' & H3'); [by right|]. exists u'.
        split_and!; [lia|by apply at_parent_insert|done].
      * intros j v Hj Hjv. cbn in Hjv. rewrite list_lookup_insert_ne in Hjv by lia.
        destruct (Hd j v) as [? ?]; [done|done|]. split; [done|by apply expanded_push].
    + injection E as <- <-. assert (Efull : tail = depth) by lia.
      split; [done|done|by intros b ?%not_elem_of_nil|by intros b _; left|].
      intros j v Hj Hjv. split; [by apply (Hd j v)|by intros b _; left].
Qed.

(** An exhausted queue holds everything that can be reached, and not [id]. *)
Lemma exhausted_no_cycle q tail parent : searching q tail tail parent [] -> (tail < depth)%nat -> ~ tc (edge w) id id.
Proof.
  intros [_ _ _ Hr Hd] Hlt Hc.
  assert (Hin : forall a b, edge w a b -> a = id \/ (exists j, (j < tail)%nat /\ q_values q !! j = Some a) ->
    exists j, (j < tail)%nat /\ q_values q !! j = Some b).
  { intros a b Hab [->|(j & Hj & Hja)];
      [destruct (Hr b Hab) as [?|[?%not_elem_of_nil|?]]|destruct (proj2 (Hd j a Hj Hja) b Hab) as [?|[?%not_elem_of_nil|?]]];
      (lia || done). }
  assert (Ht : forall a b, tc (edge w) a b -> a = id \/ (exists j, (j < tail)%nat /\ q_values q !! j = Some a) ->
    exists j, (j < tail)%nat /\ q_values q !! j = Some b).
  { induction 1 as [a b H|a c b H _ IH]; intros Ha; [by eapply Hin|]. apply IH. right. by eapply Hin. }
  destruct (Ht id id Hc) as (j & Hj & Hjid); [by left|]. by destruct (Hd j id Hj Hjid).
Qed.

Lemma extract_path_walk q tail : filled q tail -> forall fuel p v, at_parent q p v -> p < Z.of_nat tail ->
  (0 <= p -> is_Some (w !! v)) -> (Z.to_nat (p + 2) <= fuel)%nat ->
  exists l, extract_path fuel w q p = Some l /\ walk w id (reverse l) v /\ (0 <= p -> reverse l <> []).
Proof.
  intros HF. induction fuel as [|fuel IH]; intros p v Hat Hp Hw Hfuel; [destruct Hat; lia|].
  cbn [extract_path]. destruct Hat as [[-> ->]|[H0 Hv]]; [exists []; by rewrite decide_True by done|].
  rewrite decide_False, Hv by lia. cbn. destruct (Hw H0) as [i Hi]. rewrite Hi. cbn.
  destruct (filled_edge _ _ HF (Z.to_nat p) v) as (p' & u & Ep & Hlt & Hu & He); [lia|done|]. rewrite Ep. cbn.
  destruct (IH p' u Hu) as (l & -> & Hl & _); [lia|destruct He as (j & Hj & _); by exists j|lia|]. cbn.
  eexists. split; [done|]. rewrite reverse_cons. split; [|by intros _ []%app_nil].
  eapply walk_app; [done|]. cbn. split_and!; [done|by exists i|done].
Qed.

Lemma filled_reaches q tail : filled q tail -> forall j v, (j < tail)%nat -> q_values q !! j = Some v -> tc (edge w) id v.
Proof.
  intros HF j. induction (lt_wf j) as [j _ IH]. intros v Hj Hv.
  destruct (filled_edge _ _ HF j v) as (p & u & _ & Hlt & [[-> ->]|[H0 Hu]] & He); [done|done|by apply tc_once|].
  eapply tc_r; [|done]. apply (IH (Z.to_nat p)); [lia|lia|done].
Qed.

(** What each answer of the search says. *)
Definition search_says (found : search) : Prop :=
  match found with
  | NoDeadlock => ~ tc (edge w) id id
  | Deadlock p => p <> [] /\ walk w id p id
  | TooDeep => exists vs, length vs = depth /\ forall v, v ∈ vs -> v <> id /\ tc (edge w) id v
  end.

(** A vertex that does not wait, and one whose neighbours come next. *)
Lemma searching_skip q head tail parent next : searching q head tail parent [] -> (head < tail)%nat ->
  q_values q !! head = Some next -> next <> id -> w !! next = None -> searching q (S head) tail parent [].
Proof.
  intros [HF Hh _ Hr Hd] Hlt Hnext Hni Ei. split; [done|lia|by intros b ?%not_elem_of_nil|done|].
  intros j v Hj Hjv. destruct (decide (j = head)) as [->|Hjh]; [|apply (Hd j v); [lia|done]].
  rewrite Hnext in Hjv. injection Hjv as <-. split; [done|]. intros b (i' & Hi' & _). congruence.
Qed.
Lemma expanded_more q tail next_ids a : expanded q tail [] a -> expanded q tail next_ids a.
Proof. intros H b Hb. destruct (H b Hb) as [?|[?%not_elem_of_nil|?]]; [by left|done|by right; right]. Qed.
Lemma searching_expand q head tail parent next i : searching q head tail parent [] -> (head < tail)%nat ->
  q_values q !! head = Some next -> next <> id -> w !! next = Some i ->
  searching q (S head) tail (Z.of_nat head) (m_neighbors i).
Proof.
  intros [HF Hh _ Hr Hd] Hlt Hnext Hni Ei. split; [done|lia| |by apply expanded_more|].
  - intros b Hb. exists next. split_and!; [lia|right; split; [lia|by rewrite Nat2Z.id]|by exists i].
  - intros j v Hj Hjv. destruct (decide (j = head)) as [->|Hjh].
    + rewrite Hnext in Hjv. injection Hjv as <-. split; [done|]. intros b (i' & Hi' & Hb). right. left. congruence.
    + destruct (Hd j v) as [? Hx]; [lia|done|]. split; [done|by apply expanded_more].
Qed.

Lemma find_deadlock_says : is_Some (w !! id) -> forall n head tail parent next_ids q,
  (n + head)%nat = depth -> searching q head tail parent next_ids ->
  exists found, find_deadlock n depth id w head tail parent next_ids q = Some found /\ search_says found.
Proof.
  intros Hid. induction n as [|n IH]; intros head tail parent next_ids q Hn HS; cbn [find_deadlock].
  - exists TooDeep. split; [done|]. destruct HS as [HF Hh _ _ Hd]. pose proof HF as [Hv _ Ht _].
    exists (q_values q). split; [done|]. intros v (j & Hj)%list_elem_of_lookup.
    pose proof (lookup_lt_Some _ _ _ Hj). split; [apply (Hd j v); [lia|done]|apply (filled_reaches q tail HF j); [lia|done]].
  - destruct (push_ids depth tail parent next_ids q) as [tail' q'] eqn:E.
    apply (push_ids_searching head) in E; [|done]. clear HS. case_decide as Hth.
    + exists NoDeadlock. split; [done|]. subst tail'. eapply exhausted_no_cycle; [done|lia].
    + pose proof E as [HF Hh _ _ _]. pose proof HF as [Hv _ Ht _].
      destruct (lookup_lt_is_Some_2 (q_values q') head) as [next Hnext]; [lia|]. rewrite Hnext.
      cbn [mbind option_bind]. case_decide as Hni.
      * subst next. destruct (extract_path_walk q' tail' HF (S depth) (Z.of_nat head) id) as (l & El & Hl & Hl0);
          [right; split; [lia|by rewrite Nat2Z.id]|lia|done|lia|].
        rewrite El. eexists. split; [done|]. split; [apply Hl0; lia|done].
      * destruct (w !! next) as [i|] eqn:Ei; (apply IH; [lia|]);
          [eapply searching_expand|eapply searching_skip]; eauto; lia.
Qed.
End search.

(** ** Waiting *)

Record wait_ok (s : t) : Prop := {
  ok_counts : counts (rev_wait_txn_map_ s) (wait_txn_map_ s);
  ok_acyclic : acyclic (wait_txn_map_ s);
}.

Lemma wait_ok_new n : wait_ok (new n).
Proof. split; [|apply acyclic_empty]. intros x. done. Qed.

Lemma DecrementWaiters_spec id i s : counts (rev_wait_txn_map_ s) (wait_txn_map_ s) -> wait_txn_map_ s !! id = Some i ->
  exists r, DecrementWaiters id (m_neighbors i) s = Some (tt, set_wait r (base.delete id (wait_txn_map_ s)) s) /\
    counts r (base.delete id (wait_txn_map_ s)).
Proof.
  intros Hc Hi.
  destruct (dec_rev_count (m_neighbors i) (set_wait (rev_wait_txn_map_ s) (base.delete id (wait_txn_map_ s)) s)
    (fun x => total x (base.delete id (wait_txn_map_ s)))) as (r & E & H).
  - intros x. apply graph_total_nonneg.
  - intros x. cbn. rewrite (Hc x). by rewrite (total_delete x id i).
  - exists r. split; [exact E|exact H].
Qed.

Section increment.
Context (txn : Txn) (wait_ids key : list Z) (cf_id : Z) (excl : bool) (time : option Z).
Let id := GetID txn.
Let info := mkTracked wait_ids cf_id excl key.

(** The wait entered in the graph. *)
Definition entered (s : t) : t :=
  set_wait (inc_rev wait_ids (rev_wait_txn_map_ s)) (<[id := info]> (wait_txn_map_ s)) s.

(** What [IncrementWaiters] answers and leaves behind. *)
Definition increment_result (s : t) (deadlock : bool) (s' : t) : Prop :=
  if deadlock then
    exists p b, search_says (<[id := info]> (wait_txn_map_ s)) id (GetDeadlockDetectDepth txn) p /\
      match p with
      | NoDeadlock => False
      | Deadlock p => DeadlockInfoBuffer.AddNewPath (mkDeadlockPath p false (default 0 time)) (dlock_buffer_ s) = Some b
      | TooDeep => DeadlockInfoBuffer.AddNewPath (mkDeadlockPath [] true (default 0 time)) (dlock_buffer_ s) = Some b
      end /\ s' = set_dlock b s
  else ~ tc (edge (<[id := info]> (wait_txn_map_ s))) id id /\ s' = entered s /\ wait_ok s'.

Lemma entered_counts s : wait_ok s -> wait_txn_map_ s !! id = None ->
  counts (inc_rev wait_ids (rev_wait_txn_map_ s)) (<[id := info]> (wait_txn_map_ s)).
Proof.
  intros [Hc _] Hid x. rewrite (inc_rev_count wait_ids _ (fun x => total x (wait_txn_map_ s)));
    [by rewrite graph_total_insert|intros; apply graph_total_nonneg|exact Hc].
Qed.

(** A recorded deadlock takes the wait out of the graph again. *)
Lemma leave_entered s b : wait_ok s -> wait_txn_map_ s !! id = None ->
  DecrementWaiters id wait_ids (set_dlock b (entered s)) = Some (tt, set_dlock b s).
Proof.
  intros Hok Hid.
  destruct (DecrementWaiters_spec id info (set_dlock b (entered s))) as (r & E & Hr);
    [by apply entered_counts|apply lookup_insert_eq|]. cbn [m_neighbors info] in E. rewrite E. do 2 f_equal.
  cbn in Hr |- *. rewrite delete_insert_id in Hr |- * by done.
  rewrite (counts_inj r (rev_wait_txn_map_ s) _ Hr (ok_counts _ Hok)). by destruct s.
Qed.

Lemma initial_searching s : searching (<[id := info]> (wait_txn_map_ s)) id (GetDeadlockDetectDepth txn)
  (mkQueue (replicate (GetDeadlockDetectDepth txn) 0) (replicate (GetDeadlockDetectDepth txn) 0)) 0 0 (-1) wait_ids.
Proof.
  assert (Hedge : forall b, edge (<[id := info]> (wait_txn_map_ s)) id b <-> b ∈ wait_ids).
  { intros b. unfold edge. rewrite lookup_insert_eq. split; [by intros (i & [= <-] & ?)|intros ?; by exists info]. }
  split; [|lia| | |lia].
  - split; cbn; rewrite ?length_replicate; [done|done|lia|lia].
  - intros b Hb. exists id. split_and!; [lia|by left|by apply Hedge].
  - intros b Hb. right. left. by apply Hedge.
Qed.

(** Only the buffer of deadlocks can make it undefined. *)
Lemma IncrementWaiters_spec s : wait_ok s -> wait_txn_map_ s !! id = None ->
  match IncrementWaiters txn wait_ids key cf_id excl time s with
  | Some (d, s') => increment_result s d s'
  | None => exists p, DeadlockInfoBuffer.AddNewPath p (dlock_buffer_ s) = None
  end.
Proof.
  intros Hok Hid. pose proof (entered_counts s Hok Hid) as Hc.
  assert (Hin : ~ tc (edge (<[id := info]> (wait_txn_map_ s))) id id -> wait_ok (entered s)).
  { intros Hn. split; [done|]. apply acyclic_insert; [apply Hok|done]. }
  unfold IncrementWaiters. fold id. unfold mbind, M_bind, gets, modify, mret, M_ret.
  rewrite decide_False by (rewrite Hid; by intros [? ?]). fold info. fold (entered s).
  destruct (rev_wait_txn_map_ (entered s) !! id) as [n|] eqn:En.
  - destruct (find_deadlock_says _ id _ (mk_is_Some _ _ (lookup_insert_eq (wait_txn_map_ s) id info))
      (GetDeadlockDetectDepth txn) 0 0 (-1) wait_ids _ (Nat.add_0_r _) (initial_searching s)) as (found & Ef & Hs).
    cbn [wait_txn_map_ entered set_wait]. rewrite Ef. cbn [of_option]. destruct found as [|p|].
    + split_and!; [done|done|by apply Hin].
    + cbn [dlock_buffer_ entered set_wait]. destruct (DeadlockInfoBuffer.AddNewPath _ (dlock_buffer_ s)) as [b|] eqn:Eb;
        cbn [of_option]; [|by eexists]. rewrite leave_entered by done. by exists (Deadlock p), b.
    + cbn [dlock_buffer_ entered set_wait]. destruct (DeadlockInfoBuffer.AddNewPath _ (dlock_buffer_ s)) as [b|] eqn:Eb;
        cbn [of_option]; [|by eexists]. rewrite leave_entered by done. by exists (TooDeep), b.
  - assert (Hn : ~ tc (edge (<[id := info]> (wait_txn_map_ s))) id id).
    { intros [c Hc']%tc_last. apply total_edge in Hc'. specialize (Hc id). cbn in En. rewrite En in Hc.
      unfold count_of in Hc. case_decide; [lia|done]. }
    split_and!; [done|done|by apply Hin].
Qed.
End increment.

(** ** Progress *)

(** The wait-for graph as the threads change it: a wait is entered, a wait that was entered is ended with the same
    transactions, and everything else leaves the graph alone. *)
Inductive wait_step : t -> t -> Prop :=
  | step_increment txn wait_ids key cf_id excl time d s s' : wait_txn_map_ s !! GetID txn = None ->
      IncrementWaiters txn wait_ids key cf_id excl time s = Some (d, s') -> wait_step s s'
  | step_decrement id i s s' : wait_txn_map_ s !! id = Some i ->
      DecrementWaiters id (m_neighbors i) s = Some (tt, s') -> wait_step s s'
  | step_elsewhere s s' : wait_txn_map_ s' = wait_txn_map_ s -> rev_wait_txn_map_ s' = rev_wait_txn_map_ s -> wait_step s s'.

Lemma wait_step_ok s s' : wait_step s s' -> wait_ok s -> wait_ok s'.
Proof.
  intros [txn wait_ids key cf_id excl time d s0 s1 Hid E|id i s0 s1 Hi E|s0 s1 E1 E2] Hok.
  - pose proof (IncrementWaiters_spec txn wait_ids key cf_id excl time s0 Hok Hid) as H. rewrite E in H.
    destruct d; [|by destruct H as (_ & _ & ?)]. destruct H as (p & b & _ & _ & ->). by destruct Hok.
  - destruct (DecrementWaiters_spec id i s0 (ok_counts _ Hok) Hi) as (r & E' & Hr). rewrite E in E'.
    injection E' as ->. split; [exact Hr|]. apply acyclic_delete, Hok.
  - destruct Hok as [H1 H2]. split; rewrite E1; [by rewrite E2|done].
Qed.
Lemma wait_reachable_ok n s : rtc wait_step (new n) s -> wait_ok s.
Proof.
  intros H. assert (Hx : forall s0, rtc wait_step s0 s -> wait_ok s0 -> wait_ok s);
    [|apply (Hx (new n) H), wait_ok_new].
  clear H. induction 1 as [|x y z Hs _ IH]; [done|]. intros Hx. by apply IH, (wait_step_ok x).
Qed.

(** In a graph without cycles some vertex with neighbours has none that has. *)
Lemma edge_sn w a : acyclic w -> sn (edge w) a.
Proof.
  intros Hw. apply tc_finite_sn; [by intros x Hx; apply (Hw x)|].
  exists (concat (map (fun p => m_neighbors p.2) (map_to_list w))).
  intros b (c & i & Hi & Hb)%tc_last. apply list_elem_of_In, in_concat. exists (m_neighbors i).
  split; [|by apply list_elem_of_In]. apply in_map_iff. exists (c, i). split; [done|].
  by apply list_elem_of_In, elem_of_map_to_list.
Qed.
Lemma sink_exists w a i : acyclic w -> w !! a = Some i ->
  exists b j, w !! b = Some j /\ forall c, c ∈ m_neighbors j -> w !! c = None.
Proof.
  intros Hw. revert i. induction (edge_sn w a Hw) as [a _ IH]. intros i Hi.
  destruct (decide (Exists (fun c => is_Some (w !! c)) (m_neighbors i))) as [(c & Hc & j & Hj)%Exists_exists|Hn].
  - apply (IH c) with j; [by exists i|done].
  - exists a, i. split; [done|]. intros c Hc. apply eq_None_not_Some. intros Hs. apply Hn, Exists_exists. eauto.
Qed.

(** C14: deadlock detection is exact up to its depth. From a graph without cycles whose counts are right,
    for a transaction that is not waiting yet, and with a ring buffer of deadlocks that accepts a path, [IncrementWaiters] is defined, and: if it answers false there is no cycle
    of waiting transactions through this one, the wait is in the graph and the graph has no cycle at all; if it answers true
    the only change is a new path in the buffer, which is a cycle from this transaction back to itself, each of its
    transactions waiting for the next and reported with what it waits for, or, marked as too deep, stands for a search that visited as many
    transactions as the depth allows, none of them this one. *)
Theorem increment_waiters_correct txn wait_ids key cf_id excl time s :
  wait_ok s -> wait_txn_map_ s !! GetID txn = None ->
  (forall p, is_Some (DeadlockInfoBuffer.AddNewPath p (dlock_buffer_ s))) ->
  exists d s', IncrementWaiters txn wait_ids key cf_id excl time s = Some (d, s') /\
    increment_result txn wait_ids key cf_id excl time s d s'.
Proof.
  intros Hok Hid Hbuf. pose proof (IncrementWaiters_spec txn wait_ids key cf_id excl time s Hok Hid) as H.
  destruct (IncrementWaiters _ _ _ _ _ _ s) as [[d s']|]; [by exists d, s'|].
  destruct H as [p Hp]. destruct (Hbuf p) as [? ?]. congruence.
Qed.

Definition detecting (id : Z) (depth : nat) : Txn := mkTxn id 0 1000 true depth.

Lemma increment_waiters_correct_witness : exists d s',
  IncrementWaiters (detecting 1 50) [2] [7] 0 true (Some 9) (new 5) = Some (d, s') /\
  increment_result (detecting 1 50) [2] [7] 0 true (Some 9) (new 5) d s'.
Proof.
  apply (increment_waiters_correct (detecting 1 50) [2] [7] 0 true (Some 9) (new 5));
    [apply wait_ok_new|reflexivity|intros p; eexists; reflexivity].
Defined.

(** C23: waiting threads never wait for each other. Whatever waits have been entered and ended by transactions that detect
    deadlocks, in any order, if one of them is waiting then one of them waits only for transactions that are not waiting, so that it can go
    on as soon as these are done; and no transaction waits for itself through others. *)
Theorem wait_graph_progress n s : rtc wait_step (new n) s -> wait_txn_map_ s <> ∅ ->
  acyclic (wait_txn_map_ s) /\
  exists id i, wait_txn_map_ s !! id = Some i /\ forall c, c ∈ m_neighbors i -> wait_txn_map_ s !! c = None.
Proof.
  intros H%wait_reachable_ok Hne. split; [apply H|].
  destruct (map_choose _ Hne) as (a & i & Hi). by apply (sink_exists _ a i); [apply H|].
Qed.

Definition waiting_for (id : Z) (ids : list Z) (s : t) : t :=
  match IncrementWaiters (detecting id 50) ids [7] 0 true None s with Some (_, s') => s' | None => s end.
Definition two_waiting : t := waiting_for 2 [3] (waiting_for 1 [2] (new 5)).

Lemma wait_graph_progress_witness : acyclic (wait_txn_map_ two_waiting) /\
  exists id i, wait_txn_map_ two_waiting !! id = Some i /\
    forall c, c ∈ m_neighbors i -> wait_txn_map_ two_waiting !! c = None.
Proof.
  apply (wait_graph_progress 5 two_waiting).
  - apply rtc_l with (waiting_for 1 [2] (new 5)); [|apply rtc_once];
      [apply (step_increment (detecting 1 50) [2] [7] 0 true None false)
      |apply (step_increment (detecting 2 50) [3] [7] 0 true None false)]; vm_compute; reflexivity.
  - intros H. apply (f_equal (fun w => bool_decide (is_Some (w !! 1)))) in H. vm_compute in H. discriminate H.
Defined.

(** A transaction that asks for an exclusive lock on a key it shares with others is refused as a deadlock. The holders it would
    wait for include the transaction itself, so [IncrementWaiters] always finds a cycle (or gives up), even where the others
    wait for nothing. *)
Theorem shared_upgrade_self_deadlock txn wait_ids key cf_id excl time s d s' :
  wait_ok s -> wait_txn_map_ s !! GetID txn = None -> GetID txn ∈ wait_ids ->
  IncrementWaiters txn wait_ids key cf_id excl time s = Some (d, s') -> d = true.
Proof.
  intros Hok Hid Hin E. pose proof (IncrementWaiters_spec txn wait_ids key cf_id excl time s Hok Hid) as H.
  rewrite E in H. destruct d; [done|]. destruct H as [Hn _]. destruct Hn. apply tc_once.
  eexists. by rewrite lookup_insert_eq.
Qed.

Lemma shared_upgrade_self_deadlock_witness : exists s',
  IncrementWaiters (detecting 1 50) [1; 2] [7] 0 true None (new 5) = Some (true, s').
Proof.
  destruct (IncrementWaiters (detecting 1 50) [1; 2] [7] 0 true None (new 5)) as [[d s']|] eqn:E;
    [|vm_compute in E; discriminate E].
  exists s'. rewrite (shared_upgrade_self_deadlock (detecting 1 50) [1; 2] [7] 0 true None (new 5) d s'
    (wait_ok_new 5) eq_refl ltac:(by left) E). reflexivity.
Defined.
