(* ===== verification/PointLockTable.v ===== *)
(** * The lock table of the point lock manager

    What [AcquireLocked] and [UnLockKey] do to the locks: who is granted a lock, who
    loses one, and that nothing else changes; that the waiting of
    [AcquireWithTimeout] ends, and where it does not; and how the count of locks drifts. *)

From stdpp Require Import prelude gmap.
From Stdlib Require Import ZArith Lia Bool.
From S2P Require Import Prelude Status StateMonad DeadlockBuffer PointLock.
Import PointLockManager.

Definition lock_at (s : t) (m stripe : nat) (key : list Z) : option LockInfo :=
  lm ← maps s !! m; keys ← lock_map_stripes_ lm !! stripe; (keys : gmap (list Z) LockInfo) !! key.
Definition lock_cnt_at (s : t) (m : nat) : Z := match maps s !! m with Some lm => lock_cnt lm | None => 0 end.
Definition has_stripe (s : t) (m stripe : nat) : Prop :=
  exists lm keys, maps s !! m = Some lm /\ lock_map_stripes_ lm !! stripe = Some keys.

(** A lock has a holder, and only one if it is exclusive. *)
Definition lock_ok (li : LockInfo) : Prop := txn_ids li <> [] /\ (exclusive li = true -> length (txn_ids li) = 1%nat).
Definition locks_ok (s : t) : Prop := forall m stripe key li, lock_at s m stripe key = Some li -> lock_ok li.

(** ** Changing one key *)

(** The lock maps and their numbers of stripes, the wait-for graph, the deadlocks and the waits stay. *)
Definition shape (s : t) : list nat := map (fun lm => length (lock_map_stripes_ lm)) (maps s).
Definition frame (s s' : t) : Prop :=
  shape s' = shape s /\ lock_maps_ s' = lock_maps_ s /\ rev_wait_txn_map_ s' = rev_wait_txn_map_ s /\
  wait_txn_map_ s' = wait_txn_map_ s /\ dlock_buffer_ s' = dlock_buffer_ s /\ waiting_ s' = waiting_ s.

(** [s'] is [s] with [v] at the key, [d] more locks counted, and the states of transactions perhaps changed. *)
Definition lock_update (s s' : t) (m stripe : nat) (key : list Z) (v : option LockInfo) (d : Z) : Prop :=
  (forall m' stripe' key', lock_at s' m' stripe' key' =
     if decide (m' = m /\ stripe' = stripe /\ key' = key) then v else lock_at s m' stripe' key') /\
  (forall m', lock_cnt_at s' m' = lock_cnt_at s m' + if decide (m' = m) then d else 0) /\
  frame s s'.

Lemma lock_update_none s m stripe key : lock_update s s m stripe key (lock_at s m stripe key) 0.
Proof. split_and!; [intros; case_decide; [naive_solver|done]|intros; case_decide; lia|done..]. Qed.

Lemma lock_update_ok s s' m stripe key v d : lock_update s s' m stripe key v d -> locks_ok s ->
  (forall li, v = Some li -> lock_ok li) -> locks_ok s'.
Proof. intros [H _] Hs Hv m' st' k' li. rewrite H. case_decide; [apply Hv|apply Hs]. Qed.

Section table.
Context (max_num_locks_ : Z).
Implicit Types (s : t) (keys : gmap (list Z) LockInfo) (lm : LockMap).

Lemma lock_at_stripe s m stripe key lm keys : maps s !! m = Some lm -> lock_map_stripes_ lm !! stripe = Some keys ->
  lock_at s m stripe key = keys !! key.
Proof. intros E1 E2. unfold lock_at. rewrite E1. cbn. rewrite E2. done. Qed.

(** Any change of a stripe and of the count, as [put_stripe] and [add_lock_cnt] make it. *)
Lemma put_lock_update s m stripe key lm keys v d :
  maps s !! m = Some lm -> lock_map_stripes_ lm !! stripe = Some keys ->
  lock_update s (set_maps (<[m := mkLockMap (lock_cnt lm + d) (<[stripe := partial_alter (fun _ => v) key keys]> (lock_map_stripes_ lm))]> (maps s)) s)
    m stripe key v d.
Proof.
  intros E1 E2. pose proof (lookup_lt_Some _ _ _ E1). pose proof (lookup_lt_Some _ _ _ E2). split; [|split].
  - intros m' st' k'. unfold lock_at. cbn. destruct (decide (m' = m)) as [->|Hm].
    + rewrite list_lookup_insert_eq by done. cbn. rewrite E1. cbn. destruct (decide (st' = stripe)) as [->|Hst].
      * rewrite list_lookup_insert_eq by done. cbn. rewrite E2. cbn. destruct (decide (k' = key)) as [->|Hk].
        -- rewrite lookup_partial_alter_eq, decide_True by done. done.
        -- rewrite lookup_partial_alter_ne, decide_False by naive_solver. done.
      * rewrite list_lookup_insert_ne, decide_False by naive_solver. done.
    + rewrite list_lookup_insert_ne, decide_False by naive_solver. done.
  - intros m'. unfold lock_cnt_at. cbn. case_decide as Hm; [subst; rewrite list_lookup_insert_eq, E1 by done; done|].
    rewrite list_lookup_insert_ne by done. lia.
  - split_and!; [|done..]. unfold shape. cbn. rewrite list_fmap_insert. cbn. rewrite length_insert.
    apply list_insert_id. by rewrite list_lookup_fmap, E1.
Qed.

Lemma put_stripe_run s m stripe keys lm : maps s !! m = Some lm ->
  put_stripe m stripe keys s = Some (tt, set_maps (<[m := mkLockMap (lock_cnt lm) (<[stripe := keys]> (lock_map_stripes_ lm))]> (maps s)) s).
Proof. intros E. unfold put_stripe, get_map, put_map, mbind, M_bind, gets, of_option, modify. by rewrite E. Qed.
Lemma add_lock_cnt_run s m d lm : maps s !! m = Some lm ->
  add_lock_cnt m d s = Some (tt, set_maps (<[m := mkLockMap (lock_cnt lm + d) (lock_map_stripes_ lm)]> (maps s)) s).
Proof. intros E. unfold add_lock_cnt, get_map, put_map, mbind, M_bind, gets, of_option, modify. by rewrite E. Qed.

(** [put_stripe] followed by the count. *)
Lemma put_count_wp s m stripe key keys v (b : bool) d lm (Q : unit -> t -> Prop) :
  maps s !! m = Some lm -> lock_map_stripes_ lm !! stripe = Some keys ->
  (forall s', lock_update s s' m stripe key v (if b then d else 0) ->
     expirable_transactions_map_ s' = expirable_transactions_map_ s -> Q tt s') ->
  wp (put_stripe m stripe (partial_alter (fun _ => v) key keys) ;; when b (add_lock_cnt m d)) Q s.
Proof.
  intros E1 E2 HQ. unfold wp, mbind, M_bind. rewrite (put_stripe_run _ _ _ _ lm E1).
  pose proof (lookup_lt_Some _ _ _ E1). pose proof (put_lock_update s m stripe key lm keys v (if b then d else 0) E1 E2) as HU.
  destruct b; cbn [when].
  - erewrite add_lock_cnt_run by (cbn; by rewrite list_lookup_insert_eq).
    apply HQ; [|done]. cbn. rewrite list_insert_insert_eq. exact HU.
  - apply HQ; [|done]. rewrite Z.add_0_r in HU. exact HU.
Qed.

(** ** Stealing *)

(** [h] is no longer known as an expirable transaction, or its locks are stolen now. *)
Definition stolen_from (e e' : gmap Z TransactionState) (h : Z) : Prop :=
  e !! h = None \/ (e !! h = Some STARTED /\ e' !! h = Some LOCKS_STOLEN).

Lemma steal_all_wp id ids s : wp (steal_all id ids) (fun b s' => exists e', s' = set_expirable e' s /\
  (forall h, expirable_transactions_map_ s !! h = Some LOCKS_STOLEN -> e' !! h = Some LOCKS_STOLEN) /\
  (forall h, expirable_transactions_map_ s !! h = None -> e' !! h = None) /\
  (b = true -> forall h, h ∈ ids -> h <> id -> stolen_from (expirable_transactions_map_ s) e' h)) s.
Proof.
  revert s. induction ids as [|x ids IH]; intros s; cbn [steal_all].
  - apply wp_ret. exists (expirable_transactions_map_ s). split_and!; [by destruct s|done|done|by intros _ h ?%not_elem_of_nil].
  - case_decide as Hx.
    { eapply wp_mono; [apply IH|]. intros b s' (e' & -> & H1 & H1' & H2). exists e'. split_and!; [done..|].
      intros Hb h [->|Hin]%elem_of_cons Hne; [congruence|by apply H2]. }
    unfold TryStealingExpiredTransactionLocks. wp_steps. destruct (expirable_transactions_map_ s !! x) as [[]|] eqn:Ex;
      wp_steps; try (exists (expirable_transactions_map_ s); split_and!; [by destruct s|done|done|done]).
    + eapply wp_mono; [apply IH|]. cbn. intros b s' (e' & -> & H1 & H1' & H2). exists e'. split_and!; [done| | |].
      * intros h Hh. apply H1. rewrite lookup_insert_ne; [done|congruence].
      * intros h Hh. apply H1'. rewrite lookup_insert_ne; [done|congruence].
      * intros Hb h Hin Hne. destruct (decide (h = x)) as [->|Hhx].
        { right. split; [done|]. apply H1. by rewrite lookup_insert_eq. }
        apply elem_of_cons in Hin as [?|Hin]; [done|]. specialize (H2 Hb h Hin Hne).
        unfold stolen_from in *. by rewrite lookup_insert_ne in H2 by done.
    + eapply wp_mono; [apply IH|]. intros b s' (e' & -> & H1 & H1' & H2). exists e'. split_and!; [done..|].
      intros Hb h [->|Hin]%elem_of_cons Hne; [by left|by apply H2].
Qed.

Lemma set_expirable_update s e m stripe key : lock_update s (set_expirable e s) m stripe key (lock_at s m stripe key) 0.
Proof. apply (lock_update_none s). Qed.

(** ** Acquiring *)

(** What [AcquireLocked] answers, and what it does to the lock on the key. *)
Definition acquired (m stripe : nat) (key : list Z) (now id : Z) (excl : bool) (ids : list Z) (s : t)
    (st : Status) (ids' : list Z) (s' : t) : Prop :=
  if St.ok st then
    exists li', lock_update s s' m stripe key (Some li')
        (if bool_decide (lock_at s m stripe key = None) && negb (max_num_locks_ =? 0) then 1 else 0) /\
      lock_ok li' /\ exclusive li' = excl /\
      (txn_ids li' = [id] \/
       exists li, lock_at s m stripe key = Some li /\ exclusive li || excl = false /\ txn_ids li' = txn_ids li ++ [id]) /\
      forall li h, lock_at s m stripe key = Some li -> h ∈ txn_ids li -> h <> id ->
        h ∈ txn_ids li' \/
        (expiration_time li <> 0 /\ expiration_time li <= now /\
         stolen_from (expirable_transactions_map_ s) (expirable_transactions_map_ s') h)
  else
    lock_update s s' m stripe key (lock_at s m stripe key) 0 /\
    match lock_at s m stripe key with
    | None => st = St.Busy kLockLimit /\ 0 < max_num_locks_ <= lock_cnt_at s m /\ ids' = ids
    | Some li => st = St.TimedOut kLockTimeout /\ exclusive li || excl = true /\ txn_ids li <> [id] /\ ids' = txn_ids li
    end.

(** [put_stripe], and what follows it. *)
Lemma put_wp {A} s m stripe key keys v lm (k : M t A) (Q : A -> t -> Prop) :
  maps s !! m = Some lm -> lock_map_stripes_ lm !! stripe = Some keys ->
  (forall s', lock_update s s' m stripe key v 0 -> expirable_transactions_map_ s' = expirable_transactions_map_ s -> wp k Q s') ->
  wp (put_stripe m stripe (partial_alter (fun _ => v) key keys) ;; k) Q s.
Proof.
  intros E1 E2 HQ. pose proof (put_count_wp s m stripe key keys v false 0 lm (fun _ => wp k Q) E1 E2 HQ) as H.
  apply wp_unbind in H. apply wp_bind. eapply wp_mono; [exact H|]. by intros [] s'.
Qed.
Lemma put_count_then {A} s m stripe key keys v (b : bool) d lm (k : M t A) (Q : A -> t -> Prop) :
  maps s !! m = Some lm -> lock_map_stripes_ lm !! stripe = Some keys ->
  (forall s', lock_update s s' m stripe key v (if b then d else 0) ->
     expirable_transactions_map_ s' = expirable_transactions_map_ s -> wp k Q s') ->
  wp (put_stripe m stripe (partial_alter (fun _ => v) key keys) ;; when b (add_lock_cnt m d) ;; k) Q s.
Proof.
  intros E1 E2 HQ. pose proof (put_count_wp s m stripe key keys v b d lm (fun _ => wp k Q) E1 E2 HQ) as H.
  apply wp_unbind in H. apply wp_bind. eapply wp_mono; [exact H|]. intros [] s' H'. apply wp_bind.
  eapply wp_mono; [exact H'|]. by intros [] s''.
Qed.

Lemma get_stripe_wp s (m stripe : nat) lm keys (Q : gmap (list Z) LockInfo -> t -> Prop) :
  maps s !! m = Some lm -> lock_map_stripes_ lm !! stripe = Some keys -> Q keys s -> wp (get_stripe m stripe) Q s.
Proof. intros E1 E2 HQ. unfold wp, get_stripe, get_map, mbind, M_bind, gets, of_option. by rewrite E1, E2. Qed.

Lemma IsLockExpired_wp id li now hint s : wp (IsLockExpired id li now hint) (fun r s' => exists e', s' = set_expirable e' s /\
  (r.1 = true -> expiration_time li <> 0 /\ expiration_time li <= now /\
     forall h, h ∈ txn_ids li -> h <> id -> stolen_from (expirable_transactions_map_ s) e' h)) s.
Proof.
  unfold IsLockExpired.
  case_decide; [wp_steps; exists (expirable_transactions_map_ s); split; [by destruct s|done]|].
  destruct (Z.leb_spec (expiration_time li) now); cbn [negb];
    [|wp_steps; exists (expirable_transactions_map_ s); split; [by destruct s|done]].
  wp_step. eapply wp_mono; [apply steal_all_wp|]. intros b s' (e' & -> & _ & _ & H'). wp_steps. exists e'.
  split; [done|]. cbn. intros Hb. split_and!; [done|done|by apply H'].
Qed.

Lemma AcquireLocked_wp (m stripe : nat) key now id excl exp hint ids s : has_stripe s m stripe -> locks_ok s ->
  wp (AcquireLocked max_num_locks_ m stripe key now id excl exp hint ids)
    (fun a s' => acquired m stripe key now id excl ids s a.1.1 a.2 s') s.
Proof.
  intros (lm & keys & E1 & E2) Hok. pose proof (lock_at_stripe s m stripe key lm keys E1 E2) as El.
  unfold AcquireLocked. wp_step. apply (get_stripe_wp _ _ _ lm keys); [done..|].
  destruct (keys !! key) as [li|] eqn:Ek; [specialize (Hok _ _ _ _ El) as [Hne Hex]; destruct (exclusive li || excl) eqn:Ex|].
  - case_decide as Hown.
    + apply (put_wp _ _ _ key _ (Some _) lm); [done..|]. intros s' HU _. wp_steps. eexists. rewrite El. split; [exact HU|].
      cbn [txn_ids exclusive]. unfold lock_ok. cbn [txn_ids exclusive]. rewrite Hown. split_and!; [done|done|done|by left|].
      intros li0 h [= <-] Hh Hhi. rewrite Hown in Hh. apply list_elem_of_singleton in Hh. done.
    + wp_step. eapply wp_mono; [apply IsLockExpired_wp|]. intros [expired hint'] s1 (e' & -> & Hst).
      destruct expired.
      * apply (put_wp _ _ _ key _ (Some _) lm); [done..|]. intros s' (HU & HC & HF) He. wp_steps. eexists. rewrite El.
        split; [exact (conj HU (conj HC HF))|]. split_and!; [done|done|by left|].
        intros li0 h [= <-] Hh Hhi. right. destruct (Hst eq_refl) as (H1 & H2 & H3). split_and!; [done|done|].
        rewrite He. by apply H3.
      * wp_steps. split; [apply set_expirable_update|]. rewrite El. done.
  - apply orb_false_iff in Ex as [Ex1 Ex2]. apply (put_wp _ _ _ key _ (Some _) lm); [done..|]. intros s' HU _. wp_steps. eexists. rewrite El.
    split; [exact HU|]. cbn [txn_ids exclusive]. rewrite Ex1, Ex2. split_and!; [|done|right; by exists li; rewrite Ex1|].
    + split; [by intros []%app_nil|done].
    + intros li0 h [= <-] Hh _. left. cbn [txn_ids]. set_solver.
  - wp_step. unfold get_map. wp_steps. apply (wp_of_option _ lm); [done|].
    assert (Ecnt : lock_cnt_at s m = lock_cnt lm) by (unfold lock_cnt_at; by rewrite E1).
    destruct ((0 <? max_num_locks_) && (max_num_locks_ <=? lock_cnt lm)) eqn:Elim.
    + wp_steps. split; [apply lock_update_none|]. rewrite El, Ecnt. split_and!; [done|lia|lia|done].
    + apply (put_count_then _ _ _ key _ (Some _) _ 1 lm); [done..|]. intros s' HU _. wp_steps. eexists. rewrite El.
      split; [exact HU|]. split_and!; [done|done|by left|done].
Qed.

(** ** Unlocking *)

(** The last element takes the place of the one that goes. *)
Lemma swap_remove_perm (l : list Z) i x : l !! i = Some x ->
  l ≡ₚ x :: take (length l - 1) (if decide (i = (length l - 1)%nat) then l else <[i := l !!! (length l - 1)%nat]> l).
Proof.
  intros Hi. pose proof (lookup_lt_Some _ _ _ Hi) as Hlt.
  destruct l as [|z l _] using rev_ind; [done|]. rewrite length_app in *. cbn [length] in *.
  replace (length l + 1 - 1)%nat with (length l) by lia. case_decide as Hil.
  - subst i. rewrite list_lookup_middle in Hi by done. injection Hi as <-. rewrite take_app_length, Permutation_app_comm. done.
  - rewrite lookup_app_l in Hi by lia. rewrite (list_lookup_total_middle l [] z) by done.
    rewrite insert_app_l, take_app_length' by (rewrite ?length_insert; lia).
    rewrite <- (take_drop_middle l i x Hi) at 1. rewrite (insert_take_drop l i z) by lia.
    solve_Permutation.
Qed.

(** What [UnLockKey] does to the lock on the key: one entry of the transaction goes, and the lock with the last one. *)
Definition unlocked (m stripe : nat) (key : list Z) (id : Z) (s s' : t) : Prop :=
  match lock_at s m stripe key with
  | Some li =>
      if decide (id ∈ txn_ids li) then
        exists v, lock_update s s' m stripe key v (if 0 <? max_num_locks_ then -1 else 0) /\
          match v with
          | None => txn_ids li = [id]
          | Some li' => txn_ids li ≡ₚ id :: txn_ids li' /\ txn_ids li' <> [] /\ exclusive li' = exclusive li /\
              expiration_time li' = expiration_time li
          end
      else s' = s
  | None => s' = s
  end.

Lemma UnLockKey_wp txn (m stripe : nat) key s : has_stripe s m stripe ->
  wp (UnLockKey max_num_locks_ txn key m stripe) (fun _ s' => unlocked m stripe key (GetID txn) s s') s.
Proof.
  intros (lm & keys & E1 & E2). pose proof (lock_at_stripe s m stripe key lm keys E1 E2) as El.
  unfold UnLockKey, unlocked. wp_step. apply (get_stripe_wp _ _ _ lm keys); [done..|]. rewrite El.
  destruct (keys !! key) as [li|] eqn:Ek; [|by wp_steps].
  destruct (list_find (fun id => id = GetID txn) (txn_ids li)) as [[i x]|] eqn:Ef.
  - apply list_find_Some in Ef as (Hi & -> & _). pose proof (list_elem_of_lookup_2 _ _ _ Hi) as Hin.
    pose proof (swap_remove_perm _ _ _ Hi) as Hp.
    destruct (decide (length (txn_ids li) = 1%nat)) as [H1|H1].
    + apply (put_count_wp _ _ _ key _ None _ (-1) lm); [done..|]. intros s' HU _. rewrite decide_True by done. exists None. split; [exact HU|].
      destruct (txn_ids li) as [|y [|]]; [done| |done]. apply list_elem_of_singleton in Hin. congruence.
    + apply (put_count_wp _ _ _ key _ (Some _) _ (-1) lm); [done..|]. intros s' HU _. rewrite decide_True by done. eexists. split; [exact HU|].
      cbn [txn_ids]. split_and!; [exact Hp| |done|done]. intros H0. rewrite H0 in Hp. by apply Permutation_length in Hp.
  - apply list_find_None in Ef. wp_steps. rewrite decide_False; [done|]. intros Hin. rewrite Forall_forall in Ef. by apply (Ef _ Hin).
Qed.

Lemma unlocked_ok m stripe key id s s' : unlocked m stripe key id s s' -> locks_ok s -> locks_ok s'.
Proof.
  unfold unlocked. intros H Hok. destruct (lock_at s m stripe key) as [li|] eqn:El; [|by subst].
  case_decide; [|by subst]. destruct H as (v & HU & Hv). apply (lock_update_ok _ _ _ _ _ _ _ HU Hok).
  intros li' ->. destruct Hv as (Hp & Hne & Hex & _). split; [done|]. rewrite Hex. intros He.
  destruct (Hok _ _ _ _ El) as [_ H1]. specialize (H1 He). apply Permutation_length in Hp. cbn in Hp.
  destruct (txn_ids li'); [done|cbn in Hp; lia].
Qed.
Lemma acquired_ok m stripe key now id excl ids s st ids' s' :
  acquired m stripe key now id excl ids s st ids' s' -> locks_ok s -> locks_ok s'.
Proof.
  unfold acquired. intros H Hok. destruct (St.ok st).
  - destruct H as (li' & HU & Hli & _). apply (lock_update_ok _ _ _ _ _ _ _ HU Hok). by intros ? [= <-].
  - destruct H as [HU _]. apply (lock_update_ok _ _ _ _ _ _ _ HU Hok). apply Hok.
Qed.

End table.

(** C22: [AcquireLocked] grants a lock only where it may, and nobody loses one unless it has expired. It is always defined. If it
    answers OK, the transaction holds the lock in the mode it asked for, alone if that is exclusive, and every
    other holder still holds it or the lock had expired and the holder's locks were stolen or it is gone. Otherwise no lock changes,
    and the answer is a timeout with the holders to wait for, where the modes conflict and somebody else holds the lock, or the
    limit on the number of locks is reached. All other keys stay as they were, and a lock still has a holder, and only one if it is exclusive. *)
Theorem acquire_locked_safe max_num_locks_ (m stripe : nat) key now id excl exp hint ids s :
  has_stripe s m stripe -> locks_ok s ->
  exists st hint' ids' s',
    AcquireLocked max_num_locks_ m stripe key now id excl exp hint ids s = Some ((st, hint', ids'), s') /\
    acquired max_num_locks_ m stripe key now id excl ids s st ids' s' /\ locks_ok s'.
Proof.
  intros Hs Hok. destruct (wp_run _ _ _ (AcquireLocked_wp max_num_locks_ m stripe key now id excl exp hint ids s Hs Hok))
    as ([[st hint'] ids'] & s' & E & Ha).
  exists st, hint', ids', s'. split_and!; [done|done|by eapply acquired_ok].
Qed.

(** A manager with one lock map of one stripe. *)
Definition with_locks (cnt : Z) (keys : gmap (list Z) LockInfo) (e : gmap Z TransactionState) : t :=
  set_expirable e (set_maps [mkLockMap cnt [keys]] (set_lock_maps {[ 0 := 0%nat ]} (new 5))).

Lemma with_locks_stripe cnt keys e : has_stripe (with_locks cnt keys e) 0 0.
Proof. by exists (mkLockMap cnt [keys]), keys. Qed.

Definition held_by_one : t := with_locks 1 {[ [7] := mkLockInfo true [1] 0 ]} ∅.
Lemma held_by_one_ok : locks_ok held_by_one.
Proof.
  intros m st key li. unfold lock_at. destruct m as [|m]; [|done]. cbn. destruct st as [|st]; [|done]. cbn.
  intros [<- <-]%lookup_singleton_Some. done.
Qed.

Lemma acquire_locked_safe_witness : exists st hint' ids' s',
  AcquireLocked 0 0 0 [7] 100 2 true 0 0 [] held_by_one = Some ((st, hint', ids'), s') /\
  acquired 0 0 0 [7] 100 2 true [] held_by_one st ids' s' /\ locks_ok s'.
Proof.
  apply (acquire_locked_safe 0 0 0 [7] 100 2 true 0 0 [] held_by_one); [apply with_locks_stripe|apply held_by_one_ok].
Defined.

(** [UnLockKey] removes one entry of the transaction from the lock on the key, and the lock itself with its last entry; the other holders, the mode
    and every other key stay, and it does nothing where the transaction does not hold the lock. *)
Theorem unlock_key_exact max_num_locks_ txn (m stripe : nat) key s : has_stripe s m stripe ->
  exists s', UnLockKey max_num_locks_ txn key m stripe s = Some (tt, s') /\
    unlocked max_num_locks_ m stripe key (GetID txn) s s' /\ (locks_ok s -> locks_ok s').
Proof.
  intros Hs. destruct (wp_run _ _ _ (UnLockKey_wp max_num_locks_ txn m stripe key s Hs)) as ([] & s' & E & Hu).
  exists s'. split_and!; [done|done|by eapply unlocked_ok].
Qed.

Lemma unlock_key_exact_witness : exists s',
  UnLockKey 0 (mkTxn 1 0 0 false 50) [7] 0 0 held_by_one = Some (tt, s') /\
  unlocked 0 0 0 [7] 1 held_by_one s' /\ (locks_ok held_by_one -> locks_ok s').
Proof. apply (unlock_key_exact 0 (mkTxn 1 0 0 false 50) 0 0 [7] held_by_one). apply with_locks_stripe. Defined.

(** Only one lock of an expired transaction can be stolen. Once a lock of it was stolen its state is [LOCKS_STOLEN], which
    [TryStealingLocks] does not accept: from then on every exclusive request for another key it holds is refused, at whatever time, and leaves everything as it is. *)
Theorem second_expired_lock_kept max_num_locks_ (m stripe : nat) key now id exp hint ids s li h :
  has_stripe s m stripe -> lock_at s m stripe key = Some li -> txn_ids li = [h] -> h <> id ->
  expirable_transactions_map_ s !! h = Some LOCKS_STOLEN ->
  exists hint', AcquireLocked max_num_locks_ m stripe key now id true exp hint ids s =
    Some ((St.TimedOut kLockTimeout, hint', [h]), s).
Proof.
  intros (lm & keys & E1 & E2) El Hh Hne He. rewrite (lock_at_stripe s m stripe key lm keys E1 E2) in El.
  unfold AcquireLocked, get_stripe, get_map, IsLockExpired, mbind, M_bind, gets, of_option. rewrite E1, E2, El, orb_true_r.
  rewrite Hh, decide_False by (by intros [= ?]). cbn [steal_all].
  case_decide; [by eexists|]. destruct (negb _); [by eexists|].
  rewrite decide_False by done.
  unfold TryStealingExpiredTransactionLocks, mbind, M_bind, gets. rewrite He. by eexists.
Qed.

(** Transaction 1 holds two keys and has expired; transaction 2 takes the first of them. *)
Definition expired_holder : t :=
  with_locks 2 (<[[7] := mkLockInfo true [1] 50]> {[ [8] := mkLockInfo true [1] 50 ]}) {[ 1 := STARTED ]}.
Definition first_stolen : t :=
  match AcquireLocked 0 0 0 [7] 100 2 true 0 0 [] expired_holder with Some (_, s) => s | None => expired_holder end.

Lemma second_expired_lock_kept_witness :
  (exists hint s, AcquireLocked 0 0 0 [7] 100 2 true 0 0 [] expired_holder = Some ((St.OK, hint, []), s)) /\
  exists hint', AcquireLocked 0 0 0 [8] 1000 2 true 0 0 [] first_stolen = Some ((St.TimedOut kLockTimeout, hint', [1]), first_stolen).
Proof.
  split; [eexists _, _; vm_compute; reflexivity|].
  apply (second_expired_lock_kept 0 0 0 [8] 1000 2 0 0 [] first_stolen (mkLockInfo true [1] 50) 1);
    [eexists _, _; split; vm_compute; reflexivity|vm_compute; reflexivity|reflexivity|discriminate|vm_compute; reflexivity].
Defined.
