(* ===== verification/PointLockSystem.v ===== *)
(** * The point lock manager under many transactions

    The operations of the manager put together: transactions ask for locks, wait, go on
    after a wait, and unlock, in any order. The code between two waits of a thread is
    taken as one step. Without a limit on the number of locks every step is
    proved defined, ends with an answer or in a wait, and keeps the lock table
    and the wait-for graph well formed. The defects of the manager are shown here too. *)

From stdpp Require Import prelude gmap.
From Stdlib Require Import ZArith Lia Bool.
From S2P Require Import Prelude Math Status StateMonad DeadlockBuffer PointLock WaitGraph PointLockTable.
Import PointLockManager.

(** The ring buffer accepts a path. *)
Definition buffer_ok (b : DeadlockInfoBuffer.t DeadlockPath) : Prop :=
  DeadlockInfoBuffer.paths_buffer_ b = [] \/
  (DeadlockInfoBuffer.buffer_idx_ b < length (DeadlockInfoBuffer.paths_buffer_ b))%nat.

Lemma buffer_ok_add p b : buffer_ok b -> exists b', DeadlockInfoBuffer.AddNewPath p b = Some b' /\ buffer_ok b'.
Proof.
  unfold DeadlockInfoBuffer.AddNewPath. intros [E|Hlt].
  - rewrite E. exists b. split; [done|by left].
  - destruct (DeadlockInfoBuffer.paths_buffer_ b) as [|x l] eqn:E; [cbn in Hlt; lia|]. rewrite decide_True by done.
    eexists. split; [done|]. right. cbn [DeadlockInfoBuffer.buffer_idx_ DeadlockInfoBuffer.paths_buffer_].
    rewrite length_insert. apply Nat.mod_upper_bound. done.
Qed.
Lemma buffer_ok_new n : buffer_ok (dlock_buffer_ (new n)).
Proof. destruct n as [|n]; [by left|right]. cbn. lia. Qed.

Section system.
Context (max_num_locks_ : Z) (default_num_stripes_ : nat) (GetSliceNPHash64 : list Z -> Z).
Hypothesis no_limit : max_num_locks_ <= 0.
Hypothesis stripes_u64 : 0 < Z.of_nat default_num_stripes_ < 2 ^ 64.
Hypothesis hash_u64 : forall key, is_u 64 (GetSliceNPHash64 key).

(** ** The manager *)

Record manager_ok (s : t) : Prop := {
  mgr_locks : locks_ok s;
  mgr_maps cf m : lock_maps_ s !! cf = Some m -> (m < length (shape s))%nat;
  mgr_shape : Forall (fun n => n = default_num_stripes_) (shape s);
  mgr_waits : wait_ok s;
  mgr_buffer : buffer_ok (dlock_buffer_ s);
}.

Lemma manager_ok_new n : manager_ok (new n).
Proof. split; [by intros m st key li|done|constructor|apply wait_ok_new|apply buffer_ok_new]. Qed.

Lemma shape_stripe s m stripe : has_stripe s m stripe <-> exists n, shape s !! m = Some n /\ (stripe < n)%nat.
Proof.
  unfold has_stripe, shape. setoid_rewrite list_lookup_fmap. split.
  - intros (lm & keys & -> & E). exists (length (lock_map_stripes_ lm)). split; [done|by eapply lookup_lt_Some].
  - destruct (maps s !! m) as [lm|]; [|by intros (n & ? & _)]. intros (n & [= <-] & Hlt).
    apply lookup_lt_is_Some_2 in Hlt as [keys E]. by exists lm, keys.
Qed.

Lemma GetStripe_lt lm key : length (lock_map_stripes_ lm) = default_num_stripes_ ->
  (GetStripe GetSliceNPHash64 lm key < default_num_stripes_)%nat.
Proof.
  intros E. unfold GetStripe. rewrite E. pose proof (hash_u64 key) as Hh. unfold is_u in Hh.
  unfold FastRange64. rewrite FastRangeGeneric64_exact by lia.
  assert (0 <= Z.of_nat default_num_stripes_ * GetSliceNPHash64 key / 2 ^ 64 < Z.of_nat default_num_stripes_).
  { split; [apply Z.div_pos; nia|]. apply Z.div_lt_upper_bound; nia. }
  rewrite wrapT_small by (change (bits 8) with 64; lia). lia.
Qed.

Lemma map_stripe s cf m : manager_ok s -> lock_maps_ s !! cf = Some m ->
  exists lm, maps s !! m = Some lm /\ length (lock_map_stripes_ lm) = default_num_stripes_ /\
    forall key, has_stripe s m (GetStripe GetSliceNPHash64 lm key).
Proof.
  intros [_ Hm Hs _ _] E. specialize (Hm cf m E). unfold shape in Hm. rewrite length_map in Hm.
  apply lookup_lt_is_Some_2 in Hm as [lm El]. exists lm.
  assert (Esh : shape s !! m = Some (length (lock_map_stripes_ lm))) by (unfold shape; by rewrite list_lookup_fmap, El).
  rewrite Forall_lookup in Hs. pose proof (Hs m _ Esh) as Hn. split_and!; [done|done|].
  intros key. apply shape_stripe. eexists. split; [exact Esh|]. rewrite Hn. by apply GetStripe_lt.
Qed.

(** ** One transaction's step *)

(** The step of [id]: the manager stays well formed, and what the others wait for stays. *)
Definition keeps (id : Z) (s s' : t) : Prop :=
  manager_ok s' /\ shape s' = shape s /\ lock_maps_ s' = lock_maps_ s /\
  forall id', id' <> id -> wait_txn_map_ s' !! id' = wait_txn_map_ s !! id'.

Lemma keeps_trans id s1 s2 s3 : keeps id s1 s2 -> keeps id s2 s3 -> keeps id s1 s3.
Proof.
  intros (_ & E1 & E2 & E3) (H & F1 & F2 & F3). split_and!; [done|congruence|congruence|].
  intros id' Hne. by rewrite F3, E3.
Qed.

Lemma keeps_frame id s s' : manager_ok s -> frame s s' -> locks_ok s' -> keeps id s s'.
Proof.
  intros [H1 H2 H3 H4 H5] (F1 & F2 & F3 & F4 & F5 & F6) Hl. split_and!; [|done|done|by intros; rewrite F4].
  split; [done|by rewrite F1, F2|by rewrite F1|destruct H4 as [? ?]; split; rewrite ?F3, ?F4; done|by rewrite F5].
Qed.
Lemma keeps_refl id s : manager_ok s -> keeps id s s.
Proof. intros H. by split_and!. Qed.

(** What the graph has for a transaction in a wait. *)
Definition tracked (r : request) (ws : wait_state) : option TrackedTrxInfo :=
  if waits ws && IsDeadlockDetect (r_txn r) then Some (mkTracked (wait_ids ws) (r_cf r) (r_excl r) (r_key r)) else None.
Definition graph_has (r : request) (o : option TrackedTrxInfo) (s : t) : Prop := wait_txn_map_ s !! GetID (r_txn r) = o.
Definition request_ok (r : request) (s : t) : Prop := has_stripe s (r_map r) (r_stripe r).

Lemma request_ok_keeps r id s s' : keeps id s s' -> request_ok r s -> request_ok r s'.
Proof. intros (_ & E & _) H. unfold request_ok in *. rewrite shape_stripe in *. by rewrite E. Qed.

(** Without a limit a lock is granted, or somebody holds it. *)
Lemma try_acquire_wp r now ws s : manager_ok s -> request_ok r s ->
  wp (try_acquire max_num_locks_ r now ws) (fun a s' => keeps (GetID (r_txn r)) s s' /\
    wait_txn_map_ s' = wait_txn_map_ s /\ (St.ok a.1 = true \/ (a.1 = St.TimedOut kLockTimeout /\ waits a.2 = true))) s.
Proof.
  intros Hok Hr. unfold try_acquire. wp_step. eapply wp_mono; [by apply AcquireLocked_wp; [|apply Hok]|].
  intros [[st hint] ids] s' Ha. wp_steps. cbn [fst snd] in *.
  pose proof (acquired_ok _ _ _ _ _ _ _ _ _ _ _ _ Ha (mgr_locks _ Hok)) as Hl. unfold acquired in Ha.
  destruct (St.ok st) eqn:Est.
  - destruct Ha as (li' & (_ & _ & HF) & _). split_and!; [by apply keeps_frame|apply HF|by left].
  - destruct Ha as ((_ & _ & HF) & Ha). split_and!; [by apply keeps_frame|apply HF|right].
    destruct (lock_at s (r_map r) (r_stripe r) (r_key r)) as [li|] eqn:El; [|lia].
    destruct Ha as (-> & _ & _ & ->). split; [done|].
    destruct (mgr_locks _ Hok _ _ _ _ El) as [Hne _]. unfold waits. cbn. by destruct (txn_ids li).
Qed.

(** The loop's body up to the wait. *)
Definition enter_wait (r : request) (time : option Z) (ws : wait_state) : M t bool :=
  if waits ws then
    d ← (if IsDeadlockDetect (r_txn r) then IncrementWaiters (r_txn r) (wait_ids ws) (r_key r) (r_cf r) (r_excl r) time
         else mret false);
    when (negb d) (modify (fun s => set_waiting (<[GetID (r_txn r) := (wait_ids ws, r_cf r, r_key r)]> (waiting_ s)) s)) ;;
    mret d
  else mret false.

Lemma keeps_set_waiting id m s : manager_ok s -> keeps id s (set_waiting m s).
Proof. intros H. by split_and!; [destruct H as [? ? ? [? ?] ?]; split; [..|split|]|..]. Qed.

Lemma IncrementWaiters_keeps r time ws s : manager_ok s -> graph_has r None s ->
  wp (IncrementWaiters (r_txn r) (wait_ids ws) (r_key r) (r_cf r) (r_excl r) time) (fun d s' =>
    keeps (GetID (r_txn r)) s s' /\
    graph_has r (if d then None else Some (mkTracked (wait_ids ws) (r_cf r) (r_excl r) (r_key r))) s') s.
Proof.
  intros Hok Hid. pose proof Hok as [Hl Hm Hs Hw Hb].
  pose proof (IncrementWaiters_spec (r_txn r) (wait_ids ws) (r_key r) (r_cf r) (r_excl r) time s Hw Hid) as H.
  unfold wp. destruct (IncrementWaiters _ _ _ _ _ _ s) as [[d s']|].
  - destruct d.
    + destruct H as (p & b & _ & Hp & ->). split; [|exact Hid].
      assert (Hb' : buffer_ok b).
      { destruct p as [|p|]; [done| |];
          match type of Hp with DeadlockInfoBuffer.AddNewPath ?q _ = _ => destruct (buffer_ok_add q _ Hb) as (b' & Eb & ?) end; congruence. }
      split_and!; [split; [done..|by destruct Hw|done]|done..].
    + destruct H as (_ & -> & Hw'). split; [|apply lookup_insert_eq].
      split_and!; [split; done|done|done|]. intros id' Hne. cbn. by rewrite lookup_insert_ne.
  - destruct H as [p Hp]. destruct (buffer_ok_add p _ Hb) as (b' & Eb & _). congruence.
Qed.

Lemma enter_wait_wp r time ws s : manager_ok s -> graph_has r None s ->
  wp (enter_wait r time ws) (fun d s' => keeps (GetID (r_txn r)) s s' /\ graph_has r (if d then None else tracked r ws) s') s.
Proof.
  intros Hok Hid. unfold enter_wait, tracked. destruct (waits ws); cbn [andb]; [|wp_steps; split; [by apply keeps_refl|done]].
  wp_step. destruct (IsDeadlockDetect (r_txn r)).
  - eapply wp_mono; [by apply IncrementWaiters_keeps|]. intros d s' [Hk Hg].
    destruct d; cbn [negb when]; wp_steps; [done|].
    split; [|exact Hg]. eapply keeps_trans; [exact Hk|]. apply keeps_set_waiting, Hk.
  - wp_steps. cbn [negb when]. wp_steps. split; [by apply keeps_set_waiting|exact Hid].
Qed.

(** The end of a wait takes it out of the graph. *)
Lemma end_wait_wp r ws s : manager_ok s -> graph_has r (tracked r ws) s ->
  wp (when (waits ws) (
    modify (fun s => set_waiting (base.delete (GetID (r_txn r)) (waiting_ s)) s) ;;
    when (IsDeadlockDetect (r_txn r)) (DecrementWaiters (GetID (r_txn r)) (wait_ids ws))))
    (fun _ s' => keeps (GetID (r_txn r)) s s' /\ graph_has r None s') s.
Proof.
  intros Hok. unfold tracked. destruct (waits ws); cbn [when andb]; [|intros Hg; wp_steps; split; [by apply keeps_refl|done]].
  intros Hg. wp_steps. set (s1 := set_waiting _ s).
  assert (Hk1 : keeps (GetID (r_txn r)) s s1) by by apply keeps_set_waiting.
  destruct (IsDeadlockDetect (r_txn r)); cbn [when]; [|by wp_steps].
  pose proof Hk1 as ([Hl Hm Hs Hw Hb] & _).
  destruct (DecrementWaiters_spec (GetID (r_txn r)) _ s1 (ok_counts _ Hw) Hg) as (rv & E & Hc).
  unfold wp. cbn [m_neighbors] in E. rewrite E. split; [|apply lookup_delete_eq].
  eapply keeps_trans; [exact Hk1|]. split_and!; [|done|done|].
  - split; [done..|split; [exact Hc|apply acyclic_delete, Hw]|done].
  - intros id' Hne. cbn. by rewrite lookup_delete_ne.
Qed.

(** The answers of a condition variable: woken, or timed out. *)
Definition cv_answer (st : Status) : Prop := St.ok st = true \/ code_ st = kTimedOut.

(** After a wait the loop ends, unless it was woken and the lock is still held. *)
Lemma after_wait_wp r now st ws s : manager_ok s -> request_ok r s -> graph_has r (tracked r ws) s -> cv_answer st ->
  wp (after_wait max_num_locks_ r now st ws) (fun a s' => keeps (GetID (r_txn r)) s s' /\ graph_has r None s' /\
    (a.1.1 = true -> code_ st <> kTimedOut /\ a.1.2 = St.TimedOut kLockTimeout)) s.
Proof.
  intros Hok Hr Hg Hst. unfold after_wait. wp_step. eapply wp_mono; [by apply end_wait_wp|]. intros [] s1 [Hk1 Hg1].
  assert (Eif : St.ok st || bool_decide (code_ st = kTimedOut) = true).
  { destruct Hst as [->|H]; [done|]. rewrite (bool_decide_eq_true_2 _ H). apply orb_true_r. }
  rewrite Eif. wp_step. eapply wp_mono; [apply try_acquire_wp; [apply Hk1|by eapply request_ok_keeps]|].
  intros [st' ws'] s2 (Hk2 & Ew & Ha). wp_steps. cbn [fst snd] in *.
  split_and!; [by eapply keeps_trans|unfold graph_has; by rewrite Ew|].
  intros [H1 H2]%andb_true_iff. apply negb_true_iff in H1, H2. apply bool_decide_eq_false_1 in H2.
  split; [done|]. destruct Ha as [Ha|[Ha _]]; congruence.
Qed.

(** What is left behind where [AcquireWithTimeout] answers or waits. *)
Definition settled (r : request) (s : t) (o : outcome) (s' : t) : Prop :=
  keeps (GetID (r_txn r)) s s' /\
  match o with
  | Done _ => graph_has r None s'
  | Blocks _ ws => graph_has r (tracked r ws) s'
  | Spins => False
  end.

Lemma acquire_loop_wp fuel r env i ws s : manager_ok s -> request_ok r s -> graph_has r None s ->
  wp (acquire_loop max_num_locks_ (S fuel) r env i (St.TimedOut kLockTimeout) ws) (settled r s) s.
Proof.
  intros Hok Hr Hg. cbn [acquire_loop]. fold (enter_wait r (current_time (env i)) ws).
  wp_step. eapply wp_mono; [by apply enter_wait_wp|]. intros d s1 [Hk1 Hg1]. destruct d; [by wp_steps|].
  destruct (_ || _); [by wp_steps|]. wp_step.
  eapply wp_mono; [apply after_wait_wp; [apply Hk1|by eapply request_ok_keeps|done|by right]|].
  intros [[go st'] ws'] s2 (Hk2 & Hg2 & Hgo). cbn [fst snd] in *.
  destruct go; [by destruct (Hgo eq_refl) as [? _]|]. wp_steps. split; [by eapply keeps_trans|done].
Qed.

Lemma settled_trans r s s1 o s2 : keeps (GetID (r_txn r)) s s1 -> settled r s1 o s2 -> settled r s o s2.
Proof. intros Hk [Hk2 Ho]. split; [by eapply keeps_trans|done]. Qed.

Lemma acquire_wp fuel r start now env mutex s : manager_ok s -> request_ok r s -> graph_has r None s ->
  wp (acquire max_num_locks_ (S fuel) r start now env mutex) (settled r s) s.
Proof.
  intros Hok Hr Hg. unfold acquire. destruct (St.ok mutex); cbn [negb]; [|wp_steps; split; [by apply keeps_refl|done]].
  wp_step. eapply wp_mono; [by apply try_acquire_wp|]. intros [st ws] s1 (Hk & Ew & Ha). cbn [fst snd] in *.
  assert (Hg1 : graph_has r None s1) by (unfold graph_has; by rewrite Ew).
  destruct (negb (St.ok st) && _) eqn:Eb; [|by wp_steps].
  destruct Ha as [Ha|[-> _]]; [by rewrite Ha in Eb|].
  eapply wp_mono; [apply acquire_loop_wp; [apply Hk|by eapply request_ok_keeps|done]|]. intros o s2. by apply settled_trans.
Qed.

Lemma resume_wp fuel r now env cv ws s : manager_ok s -> request_ok r s -> graph_has r (tracked r ws) s -> cv_answer cv ->
  wp (resume max_num_locks_ (S fuel) r now env cv ws) (settled r s) s.
Proof.
  intros Hok Hr Hg Hcv. unfold resume. wp_step. eapply wp_mono; [by apply after_wait_wp|].
  intros [[go st] ws'] s1 (Hk & Hg1 & Hgo). cbn [fst snd] in *. destruct go; [|by wp_steps].
  destruct (Hgo eq_refl) as [_ ->].
  eapply wp_mono; [apply acquire_loop_wp; [apply Hk|by eapply request_ok_keeps|done]|]. intros o s2. by apply settled_trans.
Qed.

Lemma UnLockKey_keeps txn (m stripe : nat) key id s : manager_ok s -> has_stripe s m stripe ->
  wp (UnLockKey max_num_locks_ txn key m stripe) (fun _ s' => keeps id s s' /\ wait_txn_map_ s' = wait_txn_map_ s) s.
Proof.
  intros Hok Hs. eapply wp_mono; [by apply UnLockKey_wp|]. intros [] s' Hu.
  pose proof (unlocked_ok _ _ _ _ _ _ _ Hu (mgr_locks _ Hok)) as Hl. unfold unlocked in Hu.
  destruct (lock_at s m stripe key); [case_decide|]; [|subst; split; [by apply keeps_refl|done]..].
  destruct Hu as (v & (_ & _ & HF) & _). split; [by apply keeps_frame|apply HF].
Qed.

Lemma bucket_stripes (P : nat -> Prop) stripe key l : P stripe -> Forall (fun b => P b.1) l -> Forall (fun b => P b.1) (bucket stripe key l).
Proof.
  intros HP. induction 1 as [|[st ks] l Hb Hl IH]; cbn [bucket]; [by repeat constructor|]. case_decide; by constructor.
Qed.
Lemma buckets_stripes (P : nat -> Prop) (f : list Z -> nat) keys : (forall key, P (f key)) -> forall l, Forall (fun b => P b.1) l ->
  Forall (fun b => P b.1) (foldl (fun l key => bucket (f key) key l) l keys).
Proof. intros HP. induction keys as [|key keys IH]; intros l Hl; [done|]. cbn. by apply IH, bucket_stripes. Qed.

Definition quiet (s s' : t) : Prop := forall id, keeps id s s' /\ wait_txn_map_ s' = wait_txn_map_ s.
Lemma quiet_trans s1 s2 s3 : quiet s1 s2 -> quiet s2 s3 -> quiet s1 s3.
Proof. intros H1 H2 id. destruct (H1 id), (H2 id). split; [by eapply keeps_trans|congruence]. Qed.
Lemma quiet_refl s : manager_ok s -> quiet s s.
Proof. intros H id. split; [by apply keeps_refl|done]. Qed.
Lemma quiet_stripe s s' m stripe : quiet s s' -> has_stripe s m stripe -> has_stripe s' m stripe.
Proof. intros H. destruct (H 0) as [(_ & E & _) _]. rewrite !shape_stripe. by rewrite E. Qed.
Lemma quiet_ok s s' : quiet s s' -> manager_ok s'.
Proof. intros H. apply (H 0). Qed.

Lemma UnLockKey_quiet txn (m stripe : nat) key s : manager_ok s -> has_stripe s m stripe ->
  wp (UnLockKey max_num_locks_ txn key m stripe) (fun _ => quiet s) s.
Proof.
  intros Hok Hs. destruct (wp_run _ _ _ (UnLockKey_keeps txn m stripe key 0 s Hok Hs)) as ([] & s' & E & _).
  unfold wp. rewrite E. intros id. pose proof (UnLockKey_keeps txn m stripe key id s Hok Hs) as H. unfold wp in H. by rewrite E in H.
Qed.

(** A loop of quiet steps is quiet. *)
Lemma for_each_quiet {A} (f : A -> M t unit) (P : A -> Prop) s0 l : manager_ok s0 -> Forall P l ->
  (forall x s, P x -> quiet s0 s -> wp (f x) (fun _ => quiet s) s) -> wp (for_each f l) (fun _ => quiet s0) s0.
Proof.
  intros Hok HP Hf. eapply wp_mono; [apply (wp_for_each f (fun l s => Forall P l /\ quiet s0 s))|by intros ? ? [_ ?]].
  - split; [done|by apply quiet_refl].
  - intros x l' s [[Hx Hl]%Forall_cons Hq]. eapply wp_mono; [by apply Hf|].
    intros [] s' Hq'. split; [done|by eapply quiet_trans].
Qed.

Lemma get_map_wp s (m : nat) lm (Q : LockMap -> t -> Prop) : maps s !! m = Some lm -> Q lm s -> wp (get_map m) Q s.
Proof. intros E HQ. unfold wp, get_map, mbind, M_bind, gets, of_option. by rewrite E. Qed.

Lemma UnLock_quiet txn cf key s : manager_ok s ->
  wp (UnLock max_num_locks_ GetSliceNPHash64 txn cf key) (fun _ => quiet s) s.
Proof.
  intros Hok. unfold UnLock, GetLockMap. wp_steps. destruct (lock_maps_ s !! cf) as [m|] eqn:E; [|wp_steps; by apply quiet_refl].
  destruct (map_stripe s cf m Hok E) as (lm & El & _ & Hs). wp_step. apply (get_map_wp _ _ lm); [done|]. by apply UnLockKey_quiet.
Qed.

Lemma UnLock_all_quiet txn tracker s : manager_ok s ->
  wp (UnLock_all max_num_locks_ GetSliceNPHash64 txn tracker) (fun _ => quiet s) s.
Proof.
  revert s. induction tracker as [|[cf ks] tracker IH]; intros s Hok; cbn [UnLock_all]; [wp_steps; by apply quiet_refl|].
  unfold GetLockMap. wp_steps. destruct (lock_maps_ s !! cf) as [m|] eqn:E; [|wp_steps; by apply quiet_refl].
  destruct (map_stripe s cf m Hok E) as (lm & El & _ & Hs). wp_step. apply (get_map_wp _ _ lm); [done|]. wp_step.
  eapply wp_mono; [apply (for_each_quiet _ (fun b => has_stripe s m b.1)); [done|by apply buckets_stripes|]|].
  - intros b s1 Hb Hq. apply (for_each_quiet _ (fun _ => True)); [by eapply quiet_ok|by apply Forall_true|].
    intros key s2 _ Hq2. apply UnLockKey_quiet; [by eapply quiet_ok|]. by do 2 (eapply quiet_stripe; [done|]).
  - intros [] s1 Hq. eapply wp_mono; [apply IH; by eapply quiet_ok|]. intros [] s2. by apply quiet_trans.
Qed.

(** ** Many transactions *)

(** The manager, and the transactions in a wait. *)
Record system := mkSystem { mgr : t; pend : gmap Z (request * wait_state) }.

Inductive action :=
  | ATryLock (txn : Txn) (cf : Z) (key : list Z) (excl : bool) (start now : Z) (env : nat -> reading) (mutex : Status)
  | AResume (id now : Z) (env : nat -> reading) (cv : Status)
  | AUnLock (txn : Txn) (cf : Z) (key : list Z)
  | AUnLockAll (txn : Txn) (tracker : list (Z * list (list Z)))
  | AAddColumnFamily (cf : Z)
  | ARemoveColumnFamily (cf : Z)
  | AInsertExpirable (id : Z) (st : TransactionState)
  | ARemoveExpirable (id : Z).

(** A wait is noted, and an answer ends it; one round of the loop is all the fuel. *)
Definition settle (r : request) (o : outcome) (s : t) (p : gmap Z (request * wait_state)) : option system :=
  match o with
  | Done _ => Some (mkSystem s (base.delete (GetID (r_txn r)) p))
  | Blocks _ ws => Some (mkSystem s (<[GetID (r_txn r) := (r, ws)]> p))
  | Spins => None
  end.
Definition quietly (m : M t unit) (S : system) : option system := '(_, s) ← m (mgr S); Some (mkSystem s (pend S)).

Definition act (a : action) (S : system) : option system :=
  match a with
  | ATryLock txn cf key excl start now env mutex =>
      match TryLock max_num_locks_ GetSliceNPHash64 1 txn cf key excl start now env mutex (mgr S) with
      | Some (inl (r, o), s) => settle r o s (pend S)
      | Some (inr _, s) => Some (mkSystem s (pend S))
      | None => None
      end
  | AResume id now env cv =>
      '(r, ws) ← pend S !! id;
      '(o, s) ← resume max_num_locks_ 1 r now env cv ws (mgr S);
      settle r o s (pend S)
  | AUnLock txn cf key => quietly (UnLock max_num_locks_ GetSliceNPHash64 txn cf key) S
  | AUnLockAll txn tracker => quietly (UnLock_all max_num_locks_ GetSliceNPHash64 txn tracker) S
  | AAddColumnFamily cf => quietly (AddColumnFamily default_num_stripes_ cf) S
  | ARemoveColumnFamily cf => quietly (RemoveColumnFamily cf) S
  | AInsertExpirable id st => quietly (InsertExpirableTransaction id st) S
  | ARemoveExpirable id => quietly (RemoveExpirableTransaction id) S
  end.

(** A transaction asks for one lock at a time, and only one in a wait goes on. *)
Definition enabled (a : action) (S : system) : Prop :=
  match a with
  | ATryLock txn _ _ _ _ _ _ _ => pend S !! GetID txn = None
  | AResume id _ _ cv => is_Some (pend S !! id) /\ cv_answer cv
  | _ => True
  end.

Fixpoint acts (l : list action) (S : system) : option system :=
  match l with [] => Some S | a :: l => S' ← act a S; acts l S' end.
Fixpoint all_enabled (l : list action) (S : system) : Prop :=
  match l with [] => True | a :: l => enabled a S /\ match act a S with Some S' => all_enabled l S' | None => True end end.

Record system_ok (S : system) : Prop := {
  sys_manager : manager_ok (mgr S);
  sys_pend id r ws : pend S !! id = Some (r, ws) ->
    GetID (r_txn r) = id /\ request_ok r (mgr S) /\ graph_has r (tracked r ws) (mgr S);
  sys_idle id : pend S !! id = None -> wait_txn_map_ (mgr S) !! id = None;
}.

Lemma settle_ok S r o s : system_ok S -> request_ok r (mgr S) -> settled r (mgr S) o s ->
  exists S', settle r o s (pend S) = Some S' /\ system_ok S'.
Proof.
  intros [Hm Hp Hi] Hr [Hk Ho]. pose proof Hk as (Hm' & _ & _ & Hw).
  assert (Hother : forall id r' ws, id <> GetID (r_txn r) -> pend S !! id = Some (r', ws) ->
    GetID (r_txn r') = id /\ request_ok r' s /\ graph_has r' (tracked r' ws) s).
  { intros id r' ws Hne E. destruct (Hp id r' ws E) as (H1 & H2 & H3). split_and!; [done|by eapply request_ok_keeps|].
    unfold graph_has in *. rewrite H1 in *. by rewrite Hw. }
  destruct o as [st|cv ws|]; [| |done]; (eexists; split; [done|]; split; cbn; [done| |]).
  - intros id r' ws [Hne E]%lookup_delete_Some. by apply Hother.
  - intros id [<-|E]%lookup_delete_None; [exact Ho|]. destruct (decide (id = GetID (r_txn r))) as [->|?]; [exact Ho|].
    rewrite Hw by done. by apply Hi.
  - intros id r' ws' [[<- [= <- <-]]|[Hne E]]%lookup_insert_Some; [|by apply Hother].
    split_and!; [done|by eapply request_ok_keeps|done].
  - intros id [E Hne]%lookup_insert_None. rewrite Hw by done. by apply Hi.
Qed.

(** A step that leaves the graph alone and takes no stripe away. *)
Lemma quietly_ok m S : system_ok S ->
  wp m (fun _ s => manager_ok s /\ wait_txn_map_ s = wait_txn_map_ (mgr S) /\
    forall i st, has_stripe (mgr S) i st -> has_stripe s i st) (mgr S) ->
  exists S', quietly m S = Some S' /\ system_ok S'.
Proof.
  intros [Hm Hp Hi] Hw. unfold quietly. destruct (wp_run _ _ _ Hw) as (u & s & -> & Hm' & Ew & Hs). cbn.
  eexists. split; [done|]. split; cbn; [done| |by rewrite Ew].
  intros id r ws E. destruct (Hp id r ws E) as (H1 & H2 & H3). split_and!; [done|by apply Hs|]. unfold graph_has in *. by rewrite Ew.
Qed.
Lemma quiet_quietly m S : system_ok S -> wp m (fun _ => quiet (mgr S)) (mgr S) -> exists S', quietly m S = Some S' /\ system_ok S'.
Proof.
  intros HS Hw. apply quietly_ok; [done|]. eapply wp_mono; [exact Hw|]. intros u s Hq.
  split_and!; [exact (quiet_ok _ _ Hq)|apply (Hq 0)|intros i st; exact (quiet_stripe _ _ i st Hq)].
Qed.

Lemma AddColumnFamily_wp cf s : manager_ok s -> wp (AddColumnFamily default_num_stripes_ cf) (fun _ s' => manager_ok s' /\
  wait_txn_map_ s' = wait_txn_map_ s /\ forall i st, has_stripe s i st -> has_stripe s' i st) s.
Proof.
  intros Hok. unfold AddColumnFamily. wp_steps. destruct (lock_maps_ s !! cf); wp_steps; [done|].
  pose proof Hok as [Hl Hm Hs [Hw1 Hw2] Hb]. set (lm := mkLockMap 0 (replicate default_num_stripes_ ∅)).
  set (s' := set_maps _ _). assert (Esh : shape s' = shape s ++ [default_num_stripes_]).
  { unfold shape. cbn. rewrite map_app. cbn. by rewrite length_replicate. }
  split_and!; [|done|intros i st; rewrite !shape_stripe, Esh; intros (n & En & ?); exists n; split; [by apply lookup_app_l_Some|done]].
  split; [| |rewrite Esh; apply Forall_app; split; [done|by repeat constructor]|by split|done].
  - intros m st key li. unfold lock_at. cbn. destruct (decide (m < length (maps s))%nat) as [Hlt|Hge].
    + rewrite lookup_app_l by done. apply Hl.
    + rewrite lookup_app_r by lia. destruct (m - length (maps s))%nat; [|done]. cbn.
      destruct (replicate _ _ !! st) as [keys|] eqn:E; [|done]. cbn. apply lookup_replicate in E as [-> _]. by rewrite lookup_empty.
  - intros cf' m H. rewrite Esh, length_app. cbn [length]. cbn in H. apply lookup_insert_Some in H as [[<- <-]|[Hne E]];
      [unfold shape; rewrite length_map; lia|]. specialize (Hm cf' m E). lia.
Qed.

Lemma act_ok a S : system_ok S -> enabled a S -> exists S', act a S = Some S' /\ system_ok S'.
Proof.
  intros HS Hen. pose proof (sys_manager _ HS) as Hok. destruct a; cbn [act enabled] in *.
  - unfold TryLock, TryLock_request, GetLockMap, mbind, M_bind, gets. destruct (lock_maps_ (mgr S) !! cf) as [m|] eqn:E;
      [|eexists; split; [done|by destruct S]].
    destruct (map_stripe _ cf m Hok E) as (lm & El & _ & Hs). specialize (Hs key) as Hst.
    pose proof Hst as (lm' & keys & El' & Ek). rewrite El in El'. injection El' as <-.
    unfold get_stripe, get_map, mbind, M_bind, gets, of_option. rewrite El, El, Ek. cbn [mret M_ret].
    set (r := mkRequest txn m _ cf key excl).
    destruct (wp_run _ _ _ (acquire_wp 0 r start now env mutex (mgr S) Hok Hst (sys_idle _ HS _ Hen))) as (o & s & -> & Ho).
    by apply settle_ok.
  - destruct Hen as [[[r ws] E] Hcv]. rewrite E. cbn. destruct (sys_pend _ HS _ _ _ E) as (H1 & H2 & H3).
    destruct (wp_run _ _ _ (resume_wp 0 r now env cv ws (mgr S) Hok H2 H3 Hcv)) as (o & s & -> & Ho). cbn. by apply settle_ok.
  - by apply quiet_quietly, UnLock_quiet.
  - by apply quiet_quietly, UnLock_all_quiet.
  - by apply quietly_ok, AddColumnFamily_wp.
  - apply quietly_ok; [done|]. unfold RemoveColumnFamily. wp_steps. split_and!; [|done|done].
    destruct Hok as [? Hm ? [? ?] ?]. split; [done| |done|by split|done].
    intros cf' m E. cbn in E. apply lookup_delete_Some in E as [_ E]. by apply (Hm cf').
  - apply quietly_ok; [done|]. unfold InsertExpirableTransaction. wp_steps. destruct (_ !! id); [done|].
    split_and!; [|done|done]. destruct Hok as [? ? ? [? ?] ?]. split; [done..|by split|done].
  - apply quietly_ok; [done|]. unfold RemoveExpirableTransaction. wp_steps. split_and!; [|done|done].
    destruct Hok as [? ? ? [? ?] ?]. split; [done..|by split|done].
Qed.

Lemma acts_ok l S : system_ok S -> all_enabled l S -> exists S', acts l S = Some S' /\ system_ok S'.
Proof.
  revert S. induction l as [|a l IH]; intros S HS Hen; [by exists S|]. cbn [acts all_enabled] in *. destruct Hen as [Ha Hen].
  destruct (act_ok a S HS Ha) as (S1 & E & HS1). rewrite E in *. cbn. by apply IH.
Qed.
Lemma system_ok_new n : system_ok (mkSystem (new n) ∅).
Proof. split; [apply manager_ok_new|done|done]. Qed.

End system.

(** C4: without a limit on the number of locks the lock manager is sound under any interleaving of its users. Transactions ask for
    locks, go on after waits that were woken or timed out, and unlock, and column families come and go: every such step is defined, one round of the loop of
    [AcquireWithTimeout] is enough to answer or to wait, every lock has a holder and only one if it is exclusive, the wait-for graph
    has no cycle, and it has exactly the waits of the waiting transactions that detect deadlocks. *)
Theorem lock_manager_sound max_num_locks_ stripes hash n l :
  max_num_locks_ <= 0 -> 0 < Z.of_nat stripes < 2 ^ 64 -> (forall key, is_u 64 (hash key)) ->
  all_enabled max_num_locks_ stripes hash l (mkSystem (new n) ∅) ->
  exists S, acts max_num_locks_ stripes hash l (mkSystem (new n) ∅) = Some S /\
    locks_ok (mgr S) /\ acyclic (wait_txn_map_ (mgr S)) /\
    (forall id r ws, pend S !! id = Some (r, ws) -> graph_has r (tracked r ws) (mgr S)) /\
    (forall id, pend S !! id = None -> wait_txn_map_ (mgr S) !! id = None).
Proof.
  intros H1 H2 H3 Hen. destruct (acts_ok max_num_locks_ stripes hash H1 H2 H3 l _ (system_ok_new stripes n) Hen) as (S & E & HS).
  exists S. split_and!; [done|apply HS|apply HS|intros id r ws Er; by apply (sys_pend _ _ HS id r ws Er)|apply (sys_idle _ _ HS)].
Qed.

Definition at_time (now : Z) : nat -> reading := fun _ => mkReading now now (Some now).
Definition contend : list action :=
  [AAddColumnFamily 0; ATryLock (detecting 1 50) 0 [7] true 100 100 (at_time 100) St.OK;
   ATryLock (detecting 2 50) 0 [7] true 200 200 (at_time 200) St.OK;
   AUnLock (detecting 1 50) 0 [7]; AResume 2 300 (at_time 300) St.OK].

Lemma lock_manager_sound_witness : exists S, acts (-1) 16 (fun _ => 0) contend (mkSystem (new 5) ∅) = Some S /\
  locks_ok (mgr S) /\ acyclic (wait_txn_map_ (mgr S)) /\
  (forall id r ws, pend S !! id = Some (r, ws) -> graph_has r (tracked r ws) (mgr S)) /\
  (forall id, pend S !! id = None -> wait_txn_map_ (mgr S) !! id = None).
Proof.
  apply (lock_manager_sound (-1) 16 (fun _ => 0) 5 contend); [lia|lia|intros key; unfold is_u; lia|].
  vm_compute. repeat split; try (eexists; reflexivity). left. reflexivity.
Defined.

(** A request that meets the limit on the number of locks after its deadline never ends. The loop of [AcquireWithTimeout] does
    not wait any more, and since the answer is neither OK nor a timeout it does not try again either: whatever number of rounds
    it is given, it is still running, with the stripe's mutex held. *)
Theorem lock_limit_spins max_num_locks_ fuel r start now env mutex s :
  has_stripe s (r_map r) (r_stripe r) -> lock_at s (r_map r) (r_stripe r) (r_key r) = None ->
  0 < max_num_locks_ <= lock_cnt_at s (r_map r) -> 0 <= start -> 0 < GetLockTimeout (r_txn r) ->
  start + GetLockTimeout (r_txn r) < 2 ^ 63 -> St.ok mutex = true ->
  (forall i, start + GetLockTimeout (r_txn r) <= wait_now (env i)) ->
  acquire max_num_locks_ fuel r start now env mutex s = Some (Spins, s).
Proof.
  intros (lm & keys & E1 & E2) El Hlim Hst Hto Hend Hmx Henv. rewrite (lock_at_stripe _ _ _ _ lm keys E1 E2) in El.
  unfold lock_cnt_at in Hlim. rewrite E1 in Hlim.
  assert (Eacq : try_acquire max_num_locks_ r now (mkWait (start + GetLockTimeout (r_txn r)) 0 []) s =
    Some ((St.Busy kLockLimit, mkWait (start + GetLockTimeout (r_txn r)) 0 []), s)).
  { unfold try_acquire, AcquireLocked, get_stripe, get_map, mbind, M_bind, gets, of_option. rewrite E1, E2, El, E1.
    destruct (Z.ltb_spec 0 max_num_locks_), (Z.leb_spec max_num_locks_ (lock_cnt lm)); try lia. done. }
  unfold acquire. rewrite Hmx. cbn [negb]. destruct (Z.ltb_spec 0 (GetLockTimeout (r_txn r))); [|lia].
  rewrite u64_small by (unfold is_u; lia). unfold mbind at 1, M_bind at 1. rewrite Eacq. cbn [fst snd].
  destruct (Z.eqb_spec (GetLockTimeout (r_txn r)) 0); [lia|]. cbn.
  generalize 0%nat as i. induction fuel as [|fuel IH]; intros i; [done|]. cbn [acquire_loop waits wait_ids].
  assert (Ecv : cv_end (mkWait (start + GetLockTimeout (r_txn r)) 0 []) = start + GetLockTimeout (r_txn r)).
  { unfold cv_end. cbn. destruct (Z.ltb_spec 0 (start + GetLockTimeout (r_txn r))); [|lia].
    unfold i64, signed. rewrite Z.mod_small by lia. change (2 ^ (64 - 1)) with (2 ^ 63).
    destruct (Z.ltb_spec (start + GetLockTimeout (r_txn r)) (2 ^ 63)); lia. }
  rewrite Ecv. specialize (Henv i). unfold mbind at 1, M_bind at 1, mret, M_ret.
  destruct (Z.ltb_spec (start + GetLockTimeout (r_txn r)) 0), (Z.ltb_spec (wait_now (env i)) (start + GetLockTimeout (r_txn r))); try lia.
  exact (IH (S i)).
Qed.

Definition at_limit : t := with_locks 1 {[ [7] := mkLockInfo true [1] 0 ]} ∅.
Lemma lock_limit_spins_witness :
  acquire 1 1000 (mkRequest (detecting 2 50) 0 0 0 [8] true) 100 5000 (at_time 5000) St.OK at_limit = Some (Spins, at_limit).
Proof.
  apply (lock_limit_spins 1 1000 (mkRequest (detecting 2 50) 0 0 0 [8] true) 100 5000 (at_time 5000) St.OK at_limit);
    [apply with_locks_stripe|vm_compute; reflexivity|vm_compute; split; [reflexivity|discriminate]|lia|vm_compute; reflexivity
    |vm_compute; reflexivity|reflexivity|intros i; vm_compute; discriminate].
Defined.

(** The count of locks drifts. Two transactions share one key, which counts as one lock, and unlocking takes one off for each of
    them: no key is locked and the count is -1, so that with a limit of one lock two more keys can be locked. *)
Theorem shared_unlock_count_drift :
  let lock key excl id := AcquireLocked 1 0 0 key 0 id excl 0 0 [] in
  let unlock key id := UnLockKey 1 (mkTxn id 0 0 false 50) key 0 0 in
  let shared : M t _ := lock [7] false 1 ;; lock [7] false 2 ;; unlock [7] 1 ;; unlock [7] 2 in
  (exists s, shared (with_locks 0 ∅ ∅) = Some (tt, s) /\ lock_cnt_at s 0 = -1 /\ lock_at s 0 0 [7] = None) /\
  exists s li li', (shared ;; lock [8] true 3 ;; lock [9] true 3 ;; mret tt) (with_locks 0 ∅ ∅) = Some (tt, s) /\
    lock_at s 0 0 [8] = Some li /\ lock_at s 0 0 [9] = Some li'.
Proof. split; [eexists|eexists _, _, _]; vm_compute; split_and!; reflexivity. Qed.

(** [UnLock] of everything a transaction holds stops at a column family that was dropped, and leaves the locks in the rest. *)
Theorem unlock_stops_at_dropped_family :
  exists s, UnLock_all 0 (fun _ => 0) (mkTxn 1 0 0 false 50) [(5, [[7]]); (0, [[7]])] held_by_one = Some (tt, s) /\
    lock_at s 0 0 [7] = Some (mkLockInfo true [1] 0).
Proof. eexists. vm_compute. split; reflexivity. Qed.
