(* ===== verification/LockTracker.v ===== *)
(** * Tracking the locks of a transaction (utilities/transactions/lock/)

    [PointLockTracker] counts, for each key of each column family, how
    often a transaction locked it for reading and for writing. The order in which an unordered
    map is walked is left open: loops over one are folds whose result is shown not to depend on it. *)

From stdpp Require Import prelude gmap.
From Stdlib Require Import ZArith Lia.
From S2P Require Import Prelude.

(** lock_tracker.h *)
Record PointLockRequest := mkPointLockRequest {
  column_family_id : Z;
  key : list Z;
  seq : Z;
  read_only : bool;
  exclusive : bool;
}.
Record PointLockStatus := mkPointLockStatus { ps_locked : bool; ps_exclusive : bool; ps_seq : Z }.
Inductive UntrackStatus := NOT_TRACKED | UNTRACKED | REMOVED.
#[global] Instance UntrackStatus_eq_dec : EqDecision UntrackStatus.
Proof. solve_decision. Defined.

Record TrackedKeyInfo := mkInfo { info_seq : Z; num_writes : Z; num_reads : Z; info_exclusive : bool }.
Definition new_info (seq_no : Z) : TrackedKeyInfo := mkInfo seq_no 0 0 false.
(** [TrackedKeyInfo::Merge]. The assertion that [seq] is not above that of [info] is compiled out. *)
Definition merge_info (info s : TrackedKeyInfo) : TrackedKeyInfo :=
  mkInfo (info_seq s) (u32 (num_writes s + num_writes info)) (u32 (num_reads s + num_reads info)) (info_exclusive s || info_exclusive info).

Module PointLockTracker.
Notation TrackedKeyInfos := (gmap (list Z) TrackedKeyInfo).
Notation t := (gmap Z TrackedKeyInfos).

Definition track_info (r : PointLockRequest) (it : option TrackedKeyInfo) : TrackedKeyInfo :=
  let info := match it with
              | None => new_info (seq r)
              | Some info => if seq r <? info_seq info then mkInfo (seq r) (num_writes info) (num_reads info) (info_exclusive info) else info
              end in
  let info := if read_only r then mkInfo (info_seq info) (num_writes info) (u32 (num_reads info + 1)) (info_exclusive info)
              else mkInfo (info_seq info) (u32 (num_writes info + 1)) (num_reads info) (info_exclusive info) in
  mkInfo (info_seq info) (num_writes info) (num_reads info) (info_exclusive info || exclusive r).
Definition Track (r : PointLockRequest) (s : t) : t :=
  let keys := default ∅ (s !! column_family_id r) in
  <[column_family_id r := <[key r := track_info r (keys !! key r)]> keys]> s.

Definition Untrack (r : PointLockRequest) (s : t) : UntrackStatus * t :=
  match s !! column_family_id r with
  | None => (NOT_TRACKED, s)
  | Some keys =>
      match keys !! key r with
      | None => (NOT_TRACKED, s)
      | Some info =>
          let '(untracked, info) :=
            if read_only r then
              if 0 <? num_reads info then (true, mkInfo (info_seq info) (num_writes info) (num_reads info - 1) (info_exclusive info)) else (false, info)
            else
              if 0 <? num_writes info then (true, mkInfo (info_seq info) (num_writes info - 1) (num_reads info) (info_exclusive info)) else (false, info) in
          if (num_reads info =? 0) && (num_writes info =? 0) then
            let keys := delete (key r) keys in
            (REMOVED, if bool_decide (keys = ∅) then delete (column_family_id r) s else <[column_family_id r := keys]> s)
          else (if untracked then UNTRACKED else NOT_TRACKED, <[column_family_id r := <[key r := info]> keys]> s)
      end
  end.

Definition merge_key (k : list Z) (info : TrackedKeyInfo) (current_keys : TrackedKeyInfos) : TrackedKeyInfos :=
  match current_keys !! k with
  | None => <[k := info]> current_keys
  | Some current_info => <[k := merge_info info current_info]> current_keys
  end.
Definition merge_cf (cf : Z) (keys : TrackedKeyInfos) (s : t) : t :=
  match s !! cf with
  | None => <[cf := keys]> s
  | Some current_keys => <[cf := map_fold merge_key current_keys keys]> s
  end.
Definition Merge (tracker s : t) : t := map_fold merge_cf s tracker.

(** A key that is not tracked is a dereference of [end()]. *)
Definition subtract_key (k : list Z) (info : TrackedKeyInfo) (acc : option TrackedKeyInfos) : option TrackedKeyInfos :=
  current_keys ← acc;
  current ← current_keys !! k;
  let current := if 0 <? num_reads info then mkInfo (info_seq current) (num_writes current) (u32 (num_reads current - num_reads info)) (info_exclusive current) else current in
  let current := if 0 <? num_writes info then mkInfo (info_seq current) (u32 (num_writes current - num_writes info)) (num_reads current) (info_exclusive current) else current in
  Some (if (num_reads current =? 0) && (num_writes current =? 0) then delete k current_keys else <[k := current]> current_keys).
(** [at] throws if the column family is not there. *)
Definition subtract_cf (cf : Z) (keys : TrackedKeyInfos) (acc : option t) : option t :=
  s ← acc;
  current_keys ← s !! cf;
  current_keys ← map_fold subtract_key (Some current_keys) keys;
  Some (<[cf := current_keys]> s).
Definition Subtract (tracker s : t) : option t := map_fold subtract_cf (Some s) tracker.

(** The keys whose every read and write is the save point's. *)
Definition since_key (cf : Z) (current_keys : TrackedKeyInfos) (k : list Z) (info : TrackedKeyInfo) (acc : option t) : option t :=
  t' ← acc;
  current ← current_keys !! k;
  Some (if (num_reads current =? num_reads info) && (num_writes current =? num_writes info) then
          Track (mkPointLockRequest cf k (info_seq info) (num_writes info =? 0) (info_exclusive info)) t'
        else t').
Definition since_cf (s : t) (cf : Z) (keys : TrackedKeyInfos) (acc : option t) : option t :=
  acc ← acc;
  current_keys ← s !! cf;
  map_fold (since_key cf current_keys) (Some acc) keys.
Definition GetTrackedLocksSinceSavePoint (save_point_tracker s : t) : option t :=
  map_fold (since_cf s) (Some ∅) save_point_tracker.

Definition GetPointLockStatus (s : t) (cf : Z) (k : list Z) : PointLockStatus :=
  match s !! cf with
  | None => mkPointLockStatus false true 0
  | Some keys =>
      match keys !! k with
      | None => mkPointLockStatus false true 0
      | Some key_info => mkPointLockStatus true (info_exclusive key_info) (info_seq key_info)
      end
  end.
Definition GetNumPointLocks (s : t) : Z :=
  map_fold (fun _ (keys : TrackedKeyInfos) n => u64 (n + Z.of_nat (size keys))) 0 s.

(** What the two iterators visit. *)
Definition GetColumnFamilyIterator (s : t) : list Z := (map_to_list s).*1.
Definition GetKeyIterator (s : t) (cf : Z) : option (list (list Z)) := keys ← s !! cf; Some (map_to_list keys).*1.
Definition Clear (s : t) : t := ∅.
End PointLockTracker.

(** ** Folds over a map that change one entry each *)

Section fold.
Context {K A B : Type} `{Countable K} (g : A -> option B -> option (option B)) (f : K -> A -> option (gmap K B) -> option (gmap K B)).
Hypothesis f_none : forall i x, f i x None = None.
Hypothesis f_some : forall i x r, f i x (Some r) = v ← g x (r !! i); Some (partial_alter (fun _ => v) i r).

Lemma map_fold_entries b (m : gmap K A) :
  match map_fold f (Some b) m with
  | Some r => forall i, match m !! i with None => r !! i = b !! i | Some x => g x (b !! i) = Some (r !! i) end
  | None => exists i x, m !! i = Some x /\ g x (b !! i) = None
  end.
Proof.
  apply (map_fold_weak_ind (fun acc m => match acc with
    | Some r => forall i, match m !! i with None => r !! i = b !! i | Some x => g x (b !! i) = Some (r !! i) end
    | None => exists i x, m !! i = Some x /\ g x (b !! i) = None end)).
  - intros i. by rewrite lookup_empty.
  - intros i x m' [r|] Hi IH.
    + rewrite f_some. pose proof (IH i) as Hr. rewrite Hi in Hr. destruct (g x (r !! i)) as [v|] eqn:Eg; cbn.
      * intros j. destruct (decide (j = i)) as [->|Hj].
        -- rewrite lookup_insert_eq, lookup_partial_alter_eq. by rewrite <- Hr.
        -- rewrite lookup_insert_ne, lookup_partial_alter_ne by done. apply IH.
      * exists i, x. rewrite lookup_insert_eq. by rewrite <- Hr.
    + rewrite f_none. destruct IH as (j & y & Hj & Hg). exists j, y. split; [|done]. rewrite lookup_insert_ne; [done|]. intros ->. congruence.
Qed.
End fold.

Section total_fold.
Context {K A B : Type} `{Countable K} (g : A -> option B -> B) (f : K -> A -> gmap K B -> gmap K B).
Hypothesis f_eq : forall i x r, f i x r = <[i := g x (r !! i)]> r.
Lemma map_fold_inserts b (m : gmap K A) i :
  map_fold f b m !! i = match m !! i with None => b !! i | Some x => Some (g x (b !! i)) end.
Proof.
  revert i. apply (map_fold_weak_ind (fun r m => forall i, r !! i = match m !! i with None => b !! i | Some x => Some (g x (b !! i)) end)).
  - intros i. by rewrite lookup_empty.
  - intros i x m' r Hi IH j. rewrite f_eq. destruct (decide (j = i)) as [->|Hj].
    + rewrite !lookup_insert_eq, IH. by rewrite Hi.
    + rewrite !lookup_insert_ne by done. apply IH.
Qed.
End total_fold.

(** ** The tracker key by key *)

Section spec.
Import PointLockTracker.
Implicit Types (s tr : t) (cf : Z) (k : list Z).

Definition info s cf k : option TrackedKeyInfo := keys ← s !! cf; keys !! k.

Lemma info_insert s cf keys cf' k : info (<[cf := keys]> s) cf' k = if decide (cf' = cf) then keys !! k else info s cf' k.
Proof. unfold info. case_decide as Hd; [subst; by rewrite lookup_insert_eq|by rewrite lookup_insert_ne]. Qed.

Lemma Track_info r s cf k : info (Track r s) cf k =
  if decide (cf = column_family_id r /\ k = key r) then Some (track_info r (info s (column_family_id r) (key r))) else info s cf k.
Proof.
  unfold Track. rewrite info_insert. destruct (decide (cf = column_family_id r)) as [->|Hc]; [|by rewrite decide_False by tauto].
  destruct (decide (k = key r)) as [->|Hk].
  - rewrite lookup_insert_eq, decide_True by done. do 2 f_equal. unfold info. destruct (s !! column_family_id r); [done|]. cbn. by rewrite lookup_empty.
  - rewrite lookup_insert_ne, decide_False by tauto || done. unfold info. destruct (s !! column_family_id r); [done|]. cbn. by rewrite lookup_empty.
Qed.

(** Merging two records, either of which may be missing. *)
Definition merged (i o : option TrackedKeyInfo) : option TrackedKeyInfo :=
  match i, o with
  | None, o => o
  | Some a, None => Some a
  | Some a, Some b => Some (merge_info a b)
  end.
Lemma merge_keys (keys current : TrackedKeyInfos) k : map_fold merge_key current keys !! k = merged (keys !! k) (current !! k).
Proof.
  rewrite (map_fold_inserts (fun a o => match o with None => a | Some b => merge_info a b end)).
  - destruct (keys !! k) as [a|], (current !! k) as [b|]; done.
  - intros i x r. unfold merge_key. by destruct (r !! i).
Qed.
Lemma Merge_info tr s cf k : info (Merge tr s) cf k = merged (info tr cf k) (info s cf k).
Proof.
  unfold info at 1, Merge. rewrite (map_fold_inserts (fun keys o => match o with None => keys | Some cur => map_fold merge_key cur keys end)).
  - unfold info. destruct (tr !! cf) as [keys|], (s !! cf) as [cur|]; cbn; [apply merge_keys| |done|done]. by destruct (keys !! k).
  - intros i x r. unfold merge_cf. by destruct (r !! i).
Qed.

(** Taking the counts of one record off another's. *)
Definition subtracted (a b : TrackedKeyInfo) : option TrackedKeyInfo :=
  let reads := if 0 <? num_reads a then u32 (num_reads b - num_reads a) else num_reads b in
  let writes := if 0 <? num_writes a then u32 (num_writes b - num_writes a) else num_writes b in
  if (reads =? 0) && (writes =? 0) then None else Some (mkInfo (info_seq b) writes reads (info_exclusive b)).
Definition subtract_entry (a : TrackedKeyInfo) (o : option TrackedKeyInfo) : option (option TrackedKeyInfo) :=
  b ← o; Some (subtracted a b).
Lemma subtract_key_entry k (a : TrackedKeyInfo) (r : TrackedKeyInfos) :
  subtract_key k a (Some r) = v ← subtract_entry a (r !! k); Some (partial_alter (fun _ => v) k r).
Proof.
  unfold subtract_key, subtract_entry, subtracted. cbn [mbind option_bind]. destruct (r !! k) as [[sq nw nr ex]|]; [|done]. cbn [mbind option_bind].
  destruct (0 <? num_reads a), (0 <? num_writes a); cbn -[partial_alter insert delete]; case_match; reflexivity.
Qed.

(** Everything one tracker holds is in the other, as [Subtract] and [GetTrackedLocksSinceSavePoint] require. *)
Definition covers s tr : Prop := forall cf keys, tr !! cf = Some keys -> is_Some (s !! cf) /\ forall k, is_Some (keys !! k) -> is_Some (info s cf k).

Lemma Subtract_spec tr s :
  match Subtract tr s with
  | Some s' => covers s tr /\ (forall cf, is_Some (s' !! cf) <-> is_Some (s !! cf)) /\
      forall cf k, info s' cf k = match info tr cf k with None => info s cf k | Some a => b ← info s cf k; subtracted a b end
  | None => ~ covers s tr
  end.
Proof.
  pose proof (map_fold_entries (fun keys o => cur ← o; r ← map_fold subtract_key (Some cur) keys; Some (Some r)) subtract_cf) as HF.
  specialize (HF ltac:(done)). specialize (HF ltac:(intros i x r; cbn; destruct (r !! i) as [cur|]; [|done]; cbn; by destruct (map_fold _ _ _)) s tr).
  unfold Subtract. destruct (map_fold subtract_cf (Some s) tr) as [s'|].
  - assert (Hkeys : forall cf keys, tr !! cf = Some keys -> exists cur r, s !! cf = Some cur /\ s' !! cf = Some r /\
      forall k, match keys !! k with None => r !! k = cur !! k | Some a => subtract_entry a (cur !! k) = Some (r !! k) end).
    { intros cf keys E. specialize (HF cf). rewrite E in HF. destruct (s !! cf) as [cur|]; [|done]. cbn in HF.
      pose proof (map_fold_entries subtract_entry subtract_key ltac:(done) subtract_key_entry cur keys) as HK.
      destruct (map_fold subtract_key (Some cur) keys) as [r|]; [|done]. injection HF as HF. by exists cur, r. }
    split_and!.
    + intros cf keys E. destruct (Hkeys cf keys E) as (cur & r & Es & _ & Hk). split; [by rewrite Es|]. intros k [a Ha]. unfold info. rewrite Es. cbn.
      specialize (Hk k). rewrite Ha in Hk. by destruct (cur !! k).
    + intros cf. destruct (tr !! cf) as [keys|] eqn:E; [destruct (Hkeys cf keys E) as (cur & r & -> & -> & _); done|].
      specialize (HF cf). rewrite E in HF. by rewrite HF.
    + intros cf k. unfold info at 1 2. destruct (tr !! cf) as [keys|] eqn:E.
      * destruct (Hkeys cf keys E) as (cur & r & Es & -> & Hk). cbn. unfold info. rewrite Es. cbn. specialize (Hk k).
        destruct (keys !! k) as [a|]; [|done]. unfold subtract_entry in Hk. destruct (cur !! k) as [b|]; [|done]. cbn in Hk |- *. injection Hk as Hk. by rewrite <- Hk.
      * specialize (HF cf). rewrite E in HF. unfold info. by rewrite HF.
  - destruct HF as (cf & keys & E & HF). intros Hc. destruct (Hc cf keys E) as [[cur Es] Hk]. rewrite Es in HF. cbn in HF.
    pose proof (map_fold_entries subtract_entry subtract_key ltac:(done) subtract_key_entry cur keys) as HK.
    destruct (map_fold subtract_key (Some cur) keys) as [r|]; [done|]. destruct HK as (k & a & Ha & HK).
    destruct (Hk k ltac:(by eexists)) as [b Hb]. unfold info in Hb. rewrite Es in Hb. cbn in Hb. by rewrite Hb in HK.
Qed.

(** What [GetTrackedLocksSinceSavePoint] keeps of a record [a] of the save point, for the record [b] of the transaction. *)
Definition since (a b : TrackedKeyInfo) : option TrackedKeyInfo :=
  if (num_reads b =? num_reads a) && (num_writes b =? num_writes a) then
    Some (mkInfo (info_seq a) (if num_writes a =? 0 then 0 else 1) (if num_writes a =? 0 then 1 else 0) (info_exclusive a))
  else None.
Definition since_info tr s cf k : option TrackedKeyInfo := a ← info tr cf k; b ← info s cf k; since a b.

Lemma since_keys s cf (cur keys : TrackedKeyInfos) (t0 : t) : s !! cf = Some cur -> (forall k, is_Some (keys !! k) -> is_Some (cur !! k)) -> t0 !! cf = None ->
  exists t', map_fold (since_key cf cur) (Some t0) keys = Some t' /\ (forall cf', cf' <> cf -> t' !! cf' = t0 !! cf') /\
    forall cf' k, info t' cf' k = if decide (cf' = cf) then a ← keys !! k; b ← cur !! k; since a b else info t0 cf' k.
Proof.
  intros Es. intros Hc Ht0. assert (Hi0 : forall k, info t0 cf k = None) by (intros k; unfold info; by rewrite Ht0).
  revert Hc. apply (map_fold_weak_ind (fun acc m => (forall k, is_Some (m !! k) -> is_Some (cur !! k)) -> exists t', acc = Some t' /\
    (forall cf', cf' <> cf -> t' !! cf' = t0 !! cf') /\ forall cf' k, info t' cf' k = if decide (cf' = cf) then a ← m !! k; b ← cur !! k; since a b else info t0 cf' k)).
  - intros _. exists t0. split; [done|split; [done|]]. intros cf' k. case_decide as Hd; [subst; by rewrite lookup_empty|done].
  - intros k a m acc Hk IH Hc. destruct IH as (t1 & -> & Ho & H1).
    { intros k' Hk'. apply Hc. rewrite lookup_insert_ne; [done|]. intros <-. rewrite Hk in Hk'. by destruct Hk'. }
    destruct (Hc k) as [b Hb]; [by rewrite lookup_insert_eq|]. unfold since_key at 1. cbn [mbind option_bind]. rewrite Hb. cbn [mbind option_bind].
    assert (Hnew : info t1 cf k = None) by (rewrite H1, decide_True by done; by rewrite Hk).
    eexists. split; [done|]. split.
    { intros cf' Hcf. rewrite <- Ho by done. case_match; [|done]. unfold Track. cbn. by rewrite lookup_insert_ne. }
    intros cf' k'. destruct (decide (cf' = cf /\ k' = k)) as [[-> ->]|Hne].
    + rewrite (decide_True (P := cf = cf)), lookup_insert_eq by done. cbn [mbind option_bind]. rewrite Hb. cbn [mbind option_bind]. unfold since. destruct ((num_reads b =? num_reads a) && (num_writes b =? num_writes a)); [|done].
      rewrite Track_info. cbn. rewrite decide_True by done. rewrite Hnew. unfold track_info. cbn. f_equal.
      by destruct (num_writes a =? 0).
    + assert (Ht : forall u, info (if (u : bool) then Track (mkPointLockRequest cf k (info_seq a) (num_writes a =? 0) (info_exclusive a)) t1 else t1) cf' k' = info t1 cf' k').
      { intros [|]; [|done]. rewrite Track_info. cbn. by rewrite decide_False. }
      rewrite Ht, H1. case_decide as Hd; [|done]. rewrite lookup_insert_ne; [done|]. intros <-. by apply Hne.
Qed.
Lemma since_spec tr s : covers s tr -> exists t', GetTrackedLocksSinceSavePoint tr s = Some t' /\ forall cf k, info t' cf k = since_info tr s cf k.
Proof.
  intros Hc. enough (exists t', GetTrackedLocksSinceSavePoint tr s = Some t' /\ (forall cf, tr !! cf = None -> t' !! cf = None) /\
    forall cf k, info t' cf k = since_info tr s cf k) as (t' & E & _ & Hi) by (by exists t').
  revert Hc. unfold GetTrackedLocksSinceSavePoint. apply (map_fold_weak_ind (fun acc m => covers s m -> exists t', acc = Some t' /\
    (forall cf, m !! cf = None -> t' !! cf = None) /\ forall cf k, info t' cf k = since_info m s cf k)).
  - intros _. exists ∅. split_and!; [done|intros cf _; apply lookup_empty|]. intros cf k. unfold info at 1, since_info, info. by rewrite lookup_empty.
  - intros cf keys m acc Hm IH Hc. destruct IH as (t1 & -> & Hn & H1).
    { intros cf' keys' E. apply Hc. rewrite lookup_insert_ne; [done|]. intros <-. congruence. }
    destruct (Hc cf keys) as [[cur Es] Hk]; [by rewrite lookup_insert_eq|]. cbn. rewrite Es. cbn.
    destruct (since_keys s cf cur keys t1 Es) as (t' & E & Ho & Hi); [|by apply Hn|].
    { intros k Hkk. specialize (Hk k Hkk). unfold info in Hk. by rewrite Es in Hk. }
    exists t'. split_and!; [done| |].
    + intros cf' Hcf. destruct (decide (cf' = cf)) as [->|Hne]; [by rewrite lookup_insert_eq in Hcf|].
      rewrite lookup_insert_ne in Hcf by done. rewrite Ho by done. by apply Hn.
    + intros cf' k. rewrite Hi. unfold since_info. rewrite info_insert. case_decide as Hd; [subst cf'; unfold info; by rewrite Es|apply H1].
Qed.

(** One read or write less, if there is one. *)
Definition untracked (r : PointLockRequest) (i : TrackedKeyInfo) : bool * TrackedKeyInfo :=
  if read_only r then
    if 0 <? num_reads i then (true, mkInfo (info_seq i) (num_writes i) (num_reads i - 1) (info_exclusive i)) else (false, i)
  else if 0 <? num_writes i then (true, mkInfo (info_seq i) (num_writes i - 1) (num_reads i) (info_exclusive i)) else (false, i).
Definition counts_zero (i : TrackedKeyInfo) : bool := (num_reads i =? 0) && (num_writes i =? 0).
Lemma Untrack_info r s cf k : info (Untrack r s).2 cf k =
  if decide (cf = column_family_id r /\ k = key r) then
    i ← info s cf k; if counts_zero (untracked r i).2 then None else Some (untracked r i).2
  else info s cf k.
Proof.
  unfold Untrack. destruct (s !! column_family_id r) as [keys|] eqn:Es; cbn [snd].
  2:{ case_decide as Hd; [destruct Hd as [-> ->]; unfold info; by rewrite Es|done]. }
  destruct (keys !! key r) as [i|] eqn:Ek; cbn [snd].
  2:{ case_decide as Hd; [destruct Hd as [-> ->]; unfold info; rewrite Es; cbn; by rewrite Ek|done]. }
  fold (untracked r i). destruct (untracked r i) as [u i'] eqn:Eu. fold (counts_zero i').
  assert (Hi : cf = column_family_id r -> info s cf k = keys !! k) by (intros ->; unfold info; by rewrite Es).
  destruct (counts_zero i') eqn:Ez; cbn [snd].
  - assert (Hdel : info (if bool_decide (delete (key r) keys = ∅) then delete (column_family_id r) s else <[column_family_id r := delete (key r) keys]> s) cf k =
      if decide (cf = column_family_id r) then delete (key r) keys !! k else info s cf k).
    { case_bool_decide as He; [|apply info_insert]. unfold info. case_decide as Hd; [subst cf; rewrite lookup_delete_eq, He; by rewrite lookup_empty|by rewrite lookup_delete_ne]. }
    rewrite Hdel. destruct (decide (cf = column_family_id r)) as [Hc|Hc]; [|by rewrite decide_False by tauto]. rewrite Hi by done.
    destruct (decide (k = key r)) as [->|Hk]; [|rewrite lookup_delete_ne, decide_False by naive_solver; done].
    rewrite lookup_delete_eq, decide_True, Ek by done. cbn. by rewrite Eu; cbn; rewrite Ez.
  - rewrite info_insert. destruct (decide (cf = column_family_id r)) as [Hc|Hc]; [|by rewrite decide_False by tauto]. rewrite Hi by done.
    destruct (decide (k = key r)) as [->|Hk]; [|rewrite lookup_insert_ne, decide_False by naive_solver; done].
    rewrite lookup_insert_eq, decide_True, Ek by done. cbn. by rewrite Eu; cbn; rewrite Ez.
Qed.
Lemma Untrack_status r s : (Untrack r s).1 =
  match info s (column_family_id r) (key r) with
  | None => NOT_TRACKED
  | Some i => if counts_zero (untracked r i).2 then REMOVED else if (untracked r i).1 then UNTRACKED else NOT_TRACKED
  end.
Proof.
  unfold Untrack, info. destruct (s !! column_family_id r) as [keys|]; [|done]. cbn. destruct (keys !! key r) as [i|]; [|done].
  fold (untracked r i). destruct (untracked r i) as [u i']. cbn. fold (counts_zero i'). by destruct (counts_zero i').
Qed.

Lemma GetPointLockStatus_info s cf k : GetPointLockStatus s cf k =
  match info s cf k with None => mkPointLockStatus false true 0 | Some i => mkPointLockStatus true (info_exclusive i) (info_seq i) end.
Proof. unfold GetPointLockStatus, info. destruct (s !! cf) as [keys|]; [|done]. cbn. by destruct (keys !! k). Qed.

(** The keys the iterators visit are the tracked keys, each once. *)
Definition tracked_keys s : list (Z * list Z) :=
  flat_map (fun cf => pair cf <$> default [] (GetKeyIterator s cf)) (GetColumnFamilyIterator s).
Lemma key_iterator_elem s cf k : k ∈ default [] (GetKeyIterator s cf) <-> is_Some (info s cf k).
Proof.
  unfold GetKeyIterator, info. destruct (s !! cf) as [keys|]; cbn; [|rewrite elem_of_nil; by split; [|intros [? ?]]].
  rewrite list_elem_of_fmap. split.
  - intros ([k' i] & -> & Hin%elem_of_map_to_list). cbn. by rewrite Hin.
  - intros [i Hi]. exists (k, i). split; [done|]. by apply elem_of_map_to_list.
Qed.
Lemma cf_iterator_elem s cf : cf ∈ GetColumnFamilyIterator s <-> is_Some (s !! cf).
Proof.
  unfold GetColumnFamilyIterator. rewrite list_elem_of_fmap. split.
  - intros ([cf' i] & -> & Hin%elem_of_map_to_list). cbn. by rewrite Hin.
  - intros [i Hi]. exists (cf, i). split; [done|]. by apply elem_of_map_to_list.
Qed.
Lemma tracked_keys_elem s cf k : (cf, k) ∈ tracked_keys s <-> is_Some (info s cf k).
Proof.
  unfold tracked_keys. rewrite list_elem_of_In, in_flat_map. setoid_rewrite <- list_elem_of_In. split.
  - intros (cf' & _ & Hin). apply list_elem_of_fmap in Hin as (k' & [= -> ->] & Hin). by apply key_iterator_elem.
  - intros Hi. exists cf. split; [apply cf_iterator_elem; unfold info in Hi; destruct (s !! cf); [by eexists|by destruct Hi]|].
    apply list_elem_of_fmap. exists k. split; [done|]. by apply key_iterator_elem.
Qed.

(** ** Histories of requests *)

Implicit Types (rs : list PointLockRequest).
Definition after rs : t := foldl (fun s r => Track r s) ∅ rs.
Definition of_key cf k rs : list PointLockRequest := filter (fun r => column_family_id r = cf /\ key r = k) rs.
Definition reads rs : Z := Z.of_nat (length (filter (fun r => read_only r = true) rs)).
Definition writes rs : Z := Z.of_nat (length (filter (fun r => read_only r = false) rs)).
Definition any_exclusive rs : bool := existsb exclusive rs.
(** The lowest sequence number; [None] without requests. *)
Fixpoint lowest rs : option Z :=
  match rs with
  | [] => None
  | r :: rs => Some (match lowest rs with None => seq r | Some m => Z.min (seq r) m end)
  end.
(** A record with the counts of the requests. *)
Definition tally (m : option Z) rs (ex : bool) : option TrackedKeyInfo :=
  m ← m; Some (mkInfo m (u32 (writes rs)) (u32 (reads rs)) ex).
Definition summary rs : option TrackedKeyInfo := tally (lowest rs) rs (any_exclusive rs).

Lemma lowest_snoc rs r : lowest (rs ++ [r]) = Some (match lowest rs with None => seq r | Some m => Z.min m (seq r) end).
Proof.
  induction rs as [|r' rs IH]; [done|]. cbn. rewrite IH. f_equal. destruct (lowest rs) as [m|]; lia.
Qed.
Lemma lowest_none rs : lowest rs = None <-> rs = [].
Proof. by destruct rs. Qed.
Lemma reads_snoc rs r : reads (rs ++ [r]) = reads rs + (if read_only r then 1 else 0).
Proof.
  unfold reads. rewrite filter_app, length_app. destruct (read_only r) eqn:E; [rewrite filter_cons_True by congruence|rewrite filter_cons_False by congruence];
    cbn [filter length list_filter]; lia.
Qed.
Lemma writes_snoc rs r : writes (rs ++ [r]) = writes rs + (if read_only r then 0 else 1).
Proof.
  unfold writes. rewrite filter_app, length_app. destruct (read_only r) eqn:E; [rewrite filter_cons_False by congruence|rewrite filter_cons_True by congruence];
    cbn [filter length list_filter]; lia.
Qed.
Lemma u32_add_l a b : u32 (u32 a + b) = u32 (a + b).
Proof. apply Z.add_mod_idemp_l. done. Qed.
Lemma summary_snoc rs r : summary (rs ++ [r]) = Some (track_info r (summary rs)).
Proof.
  unfold summary, tally. rewrite lowest_snoc, reads_snoc, writes_snoc. unfold any_exclusive. rewrite existsb_app. cbn [mbind option_bind existsb]. f_equal.
  rewrite orb_false_r. destruct (lowest rs) as [m|] eqn:El.
  - cbn [mbind option_bind]. unfold track_info. cbn [info_seq].
    destruct (Z.ltb_spec (seq r) m), (read_only r); cbn [num_reads num_writes info_seq info_exclusive]; rewrite ?u32_add_l, ?Z.add_0_r; f_equal; lia.
  - apply lowest_none in El. subst rs. unfold track_info. by destruct (read_only r).
Qed.
Lemma after_snoc rs r : after (rs ++ [r]) = Track r (after rs).
Proof. unfold after. by rewrite foldl_app. Qed.
Lemma after_info rs cf k : info (after rs) cf k = summary (of_key cf k rs).
Proof.
  induction rs as [|r rs IH] using rev_ind; [unfold info, after; cbn; by rewrite lookup_empty|].
  rewrite after_snoc, Track_info. unfold of_key. rewrite filter_app. case_decide as Hd.
  - destruct Hd as [-> ->]. rewrite filter_cons_True by done. cbn [filter list_filter]. by rewrite summary_snoc, IH.
  - rewrite filter_cons_False by naive_solver. cbn [filter list_filter]. by rewrite app_nil_r.
Qed.
Lemma reads_app rs rs' : reads (rs ++ rs') = reads rs + reads rs'.
Proof. unfold reads. rewrite filter_app, length_app. lia. Qed.
Lemma writes_app rs rs' : writes (rs ++ rs') = writes rs + writes rs'.
Proof. unfold writes. rewrite filter_app, length_app. lia. Qed.
Lemma reads_writes rs : reads rs + writes rs = Z.of_nat (length rs).
Proof.
  induction rs as [|r rs IH] using rev_ind; [done|]. rewrite reads_snoc, writes_snoc, length_app. cbn. destruct (read_only r); lia.
Qed.
Lemma reads_nonneg rs : 0 <= reads rs.
Proof. unfold reads. lia. Qed.
Lemma writes_nonneg rs : 0 <= writes rs.
Proof. unfold writes. lia. Qed.
Lemma lowest_app rs rs' : lowest (rs ++ rs') = match lowest rs, lowest rs' with None, o => o | o, None => o | Some a, Some b => Some (Z.min a b) end.
Proof.
  induction rs as [|r rs IH]; [cbn; by destruct (lowest rs')|]. cbn. rewrite IH. destruct (lowest rs), (lowest rs'); f_equal; lia.
Qed.

Lemma of_key_length cf k rs : (length (of_key cf k rs) <= length rs)%nat.
Proof. apply length_filter. Qed.
Lemma of_key_app cf k rs rs' : of_key cf k (rs ++ rs') = of_key cf k rs ++ of_key cf k rs'.
Proof. apply filter_app. Qed.

(** A merged record has the sequence number of the one it is merged into, if there is one. *)
Lemma merged_summary rs rs' : Z.of_nat (length (rs ++ rs')) < 2 ^ 32 ->
  merged (summary rs') (summary rs) = tally (lowest (if decide (rs = []) then rs' else rs)) (rs ++ rs') (any_exclusive (rs ++ rs')).
Proof.
  intros Hlen. case_decide as Hd; [subst rs; cbn [app]; unfold merged; change (summary []) with (@None TrackedKeyInfo); fold (summary rs'); by destruct (summary rs')|].
  unfold summary, tally. rewrite reads_app, writes_app. unfold any_exclusive. rewrite existsb_app. rewrite length_app in Hlen.
  pose proof (reads_writes rs). pose proof (reads_writes rs'). pose proof (reads_nonneg rs). pose proof (reads_nonneg rs').
  pose proof (writes_nonneg rs). pose proof (writes_nonneg rs').
  destruct (lowest rs) as [m|] eqn:E1; [|by apply lowest_none in E1].
  destruct (lowest rs') as [m'|] eqn:E2; cbn [mbind option_bind merged].
  - unfold merge_info. cbn [num_reads num_writes info_exclusive info_seq]. by rewrite !(u32_small (reads _)), !(u32_small (writes _)) by lia.
  - apply lowest_none in E2. subst rs'. cbn [existsb].
    change (reads []) with 0. change (writes []) with 0. by rewrite orb_false_r, !Z.add_0_r.
Qed.

Lemma after_cf rs cf : is_Some (after rs !! cf) <-> exists k, is_Some (info (after rs) cf k).
Proof.
  split; [|intros (k & i & Hi); unfold info in Hi; by destruct (after rs !! cf)].
  induction rs as [|r rs IH] using rev_ind; [intros [? H]; unfold after in H; cbn in H; by rewrite lookup_empty in H|].
  rewrite after_snoc. intros Hcf. destruct (decide (cf = column_family_id r)) as [->|Hne].
  - exists (key r). rewrite Track_info, decide_True by done. by eexists.
  - unfold Track in Hcf. rewrite lookup_insert_ne in Hcf by done. destruct (IH Hcf) as (k & Hk). exists k. by rewrite Track_info, decide_False by tauto.
Qed.
Lemma summary_some rs : is_Some (summary rs) <-> rs <> [].
Proof. destruct rs as [|r rs]; cbn; [by split; [intros [? ?]|]|]. by split; [|eexists]. Qed.
Lemma covers_after rs rs' : covers (after (rs ++ rs')) (after rs').
Proof.
  assert (Hi : forall cf k, is_Some (info (after rs') cf k) -> is_Some (info (after (rs ++ rs')) cf k)).
  { intros cf k. rewrite !after_info, of_key_app, !summary_some. by intros H [_ ?]%app_nil. }
  intros cf keys E. assert (Hk : forall k, is_Some (keys !! k) -> is_Some (info (after (rs ++ rs')) cf k)).
  { intros k Hk. apply Hi. unfold info. by rewrite E. }
  split; [|done]. apply after_cf. destruct (proj1 (after_cf rs' cf)) as (k & Hkk); [by rewrite E|]. exists k. by apply Hi.
Qed.
(** What is left has the counts of the first requests, and the sequence number and the mode of all. *)
Lemma subtracted_summary rs rs' : Z.of_nat (length (rs ++ rs')) < 2 ^ 32 ->
  match summary rs' with None => summary (rs ++ rs') | Some a => b ← summary (rs ++ rs'); subtracted a b end =
  if decide (rs = []) then None else tally (lowest (rs ++ rs')) rs (any_exclusive (rs ++ rs')).
Proof.
  intros Hlen. unfold summary. rewrite length_app in Hlen.
  pose proof (reads_writes rs) as HS. pose proof (reads_writes rs') as HS'. pose proof (reads_nonneg rs). pose proof (reads_nonneg rs').
  pose proof (writes_nonneg rs). pose proof (writes_nonneg rs').
  destruct (lowest rs') as [m'|] eqn:E2; unfold tally at 1; cbn [mbind option_bind].
  2:{ apply lowest_none in E2. subst rs'. rewrite app_nil_r. case_decide; [by subst rs|done]. }
  destruct (lowest (rs ++ rs')) as [m|] eqn:E; [|apply lowest_none, app_nil in E as [_ ->]; done].
  unfold tally, subtracted. cbn [mbind option_bind num_reads num_writes info_seq info_exclusive]. rewrite reads_app, writes_app.
  rewrite (u32_small (reads rs')), (u32_small (writes rs')), (u32_small (reads rs + _)), (u32_small (writes rs + _)), (u32_small (reads rs)), (u32_small (writes rs)) by lia.
  assert (Er : (if 0 <? reads rs' then u32 (reads rs + reads rs' - reads rs') else reads rs + reads rs') = reads rs)
    by (destruct (Z.ltb_spec 0 (reads rs')); [rewrite u32_small|]; lia).
  assert (Ew : (if 0 <? writes rs' then u32 (writes rs + writes rs' - writes rs') else writes rs + writes rs') = writes rs)
    by (destruct (Z.ltb_spec 0 (writes rs')); [rewrite u32_small|]; lia).
  rewrite Er, Ew. case_decide as Hd; [by subst rs|]. assert (0 < Z.of_nat (length rs)) by (destruct rs; [done|cbn; lia]).
  destruct (Z.eqb_spec (reads rs) 0), (Z.eqb_spec (writes rs) 0); try done. lia.
Qed.
Lemma since_summary rs rs' : Z.of_nat (length (rs ++ rs')) < 2 ^ 32 ->
  is_Some (a ← summary rs'; b ← summary (rs ++ rs'); since a b) <-> rs = [] /\ rs' <> [].
Proof.
  intros Hlen. rewrite length_app in Hlen. pose proof (reads_writes rs) as HS. pose proof (reads_writes rs') as HS'.
  pose proof (reads_nonneg rs). pose proof (reads_nonneg rs'). pose proof (writes_nonneg rs). pose proof (writes_nonneg rs').
  destruct (summary rs') as [a|] eqn:Ea; cbn [mbind option_bind].
  2:{ split; [by intros [? ?]|]. intros [_ Hne]. apply summary_some in Hne. rewrite Ea in Hne. by destruct Hne. }
  assert (Hne : rs' <> []) by (apply summary_some; by rewrite Ea). unfold summary, tally in *. rewrite lowest_app, reads_app, writes_app.
  destruct (lowest rs') as [m'|]; [|done]. cbn in Ea. injection Ea as <-.
  assert (Hex : forall o, is_Some (b ← (m ← match o with Some a0 => Some (Z.min a0 m') | None => Some m' end;
      Some (mkInfo m (u32 (writes rs + writes rs')) (u32 (reads rs + reads rs')) (any_exclusive (rs ++ rs'))));
      since (mkInfo m' (u32 (writes rs')) (u32 (reads rs')) (any_exclusive rs')) b) <-> rs = []).
  { intros o. assert (Hm : exists m, match o with Some a0 => Some (Z.min a0 m') | None => Some m' end = Some m) by (destruct o; by eexists).
    destruct Hm as (m & ->). cbn [mbind option_bind]. unfold since. cbn [num_reads num_writes]. rewrite !u32_small by lia. destruct rs as [|r rs].
    - change (reads []) with 0. change (writes []) with 0. rewrite !Z.add_0_l, !Z.eqb_refl. cbn. split; [done|by eexists].
    - cbn [length] in HS. destruct (Z.eqb_spec (reads (r :: rs) + reads rs') (reads rs')), (Z.eqb_spec (writes (r :: rs) + writes rs') (writes rs'));
        cbn; try lia; split; try done; by intros [? ?]. }
  rewrite Hex. tauto.
Qed.

(** C29: while there are fewer than 2^32 requests, what the trackers hold of a key is known from the requests for it. After the requests
    [rs] it is their lowest sequence number, the number of their reads and of their writes and whether one was exclusive. Merging
    the tracker of [rs'] into that of [rs] gives the counts and the mode of both, and keeps the sequence number of [rs], even if
    that of [rs'] is lower. Taking the tracker of [rs'] off that of both is defined, leaves the keys and the counts of [rs], and keeps the
    sequence number and the mode of both. The keys reported since a save point are those of [rs'] for which [rs] has no request. *)
Theorem tracker_history rs rs' cf k : Z.of_nat (length (rs ++ rs')) < 2 ^ 32 ->
  let a := of_key cf k rs in
  let b := of_key cf k rs' in
  info (after rs) cf k = summary a /\
  info (Merge (after rs') (after rs)) cf k = tally (lowest (if decide (a = []) then b else a)) (a ++ b) (any_exclusive (a ++ b)) /\
  (exists s, Subtract (after rs') (after (rs ++ rs')) = Some s /\
     info s cf k = if decide (a = []) then None else tally (lowest (a ++ b)) a (any_exclusive (a ++ b))) /\
  (exists s, GetTrackedLocksSinceSavePoint (after rs') (after (rs ++ rs')) = Some s /\ (is_Some (info s cf k) <-> a = [] /\ b <> [])).
Proof.
  intros Hlen. cbv zeta. rewrite length_app in Hlen.
  pose proof (of_key_length cf k rs) as Hl. pose proof (of_key_length cf k rs') as Hl'.
  pose proof (covers_after rs rs') as Hcov. split_and!.
  - apply after_info.
  - rewrite Merge_info, !after_info. apply merged_summary. rewrite length_app. lia.
  - pose proof (Subtract_spec (after rs') (after (rs ++ rs'))) as HS. destruct (Subtract _ _) as [s|]; [|done].
    destruct HS as (_ & _ & HS). exists s. split; [done|]. rewrite HS, !after_info, of_key_app. apply subtracted_summary. rewrite length_app. lia.
  - destruct (since_spec _ _ Hcov) as (s & E & Hi). exists s. split; [done|]. rewrite Hi. unfold since_info. rewrite !after_info, of_key_app.
    apply since_summary. rewrite length_app. lia.
Qed.
Lemma tracker_history_witness :
  let r b seq ro ex := mkPointLockRequest 0 [b] seq ro ex in
  info (Merge (after [r 1 5 false true; r 2 6 false true]) (after [r 1 7 true false])) 0 [1] = Some (mkInfo 7 1 1 true) /\
  exists s, Subtract (after [r 1 5 false true; r 2 6 false true]) (after ([r 1 7 true false] ++ [r 1 5 false true; r 2 6 false true])) = Some s /\
    info s 0 [1] = Some (mkInfo 5 0 1 true).
Proof.
  intros r. destruct (tracker_history [r 1 7 true false] [r 1 5 false true; r 2 6 false true] 0 [1]) as (_ & Hm & Hs & _); [vm_compute; reflexivity|].
  split; [exact Hm|exact Hs].
Defined.
End spec.
