(* ===== verification/TrackerCounts.v ===== *)
(** * The counts of a lock tracker

    The reads and writes a tracker holds of each key, and what each operation of
    [PointLockTracker] does to them, as long as they stay below 2^32. *)

From stdpp Require Import prelude gmap.
From Stdlib Require Import ZArith Lia.
From S2P Require Import Prelude LockTracker.

Section counts.
Implicit Types (tr : PointLockTracker.t) (cf : Z) (k : list Z) (b : bool).

(** The reads ([true]) or writes of a key. *)
Definition cnt tr cf k b : Z :=
  match info tr cf k with None => 0 | Some i => if b then num_reads i else num_writes i end.
Definition bump cf k b cf' k' b' : Z := if decide (cf' = cf /\ k' = k /\ b' = b) then 1 else 0.

Lemma bump_range cf k b cf' k' b' : 0 <= bump cf k b cf' k' b' <= 1.
Proof. unfold bump. case_decide; lia. Qed.

(** A record counts something, and a column family has a record. *)
Record tracker_ok tr : Prop := {
  tr_nonneg cf k b : 0 <= cnt tr cf k b < 2 ^ 32;
  tr_pos cf k : is_Some (info tr cf k) -> 0 < cnt tr cf k true + cnt tr cf k false;
}.
Definition tight tr : Prop := forall cf, is_Some (tr !! cf) -> exists k, is_Some (info tr cf k).

Lemma info_cnt tr cf k : tracker_ok tr -> info tr cf k = None <-> cnt tr cf k true = 0 /\ cnt tr cf k false = 0.
Proof.
  intros Hok. unfold cnt. split; [by intros ->|]. intros [H1 H2]. destruct (info tr cf k) as [i|] eqn:E; [|done].
  pose proof (tr_pos tr Hok cf k ltac:(by rewrite E)) as Hp. unfold cnt in Hp. rewrite E in Hp. lia.
Qed.
Lemma tracker_ok_empty : tracker_ok ∅.
Proof.
  assert (E : forall cf k, info ∅ cf k = None) by (intros; unfold info; by rewrite lookup_empty).
  split; intros; unfold cnt; rewrite E in *; [lia|by destruct H].
Qed.
Lemma tight_empty : tight ∅.
Proof. intros cf [? H]. by rewrite lookup_empty in H. Qed.

Lemma cnt_Track r tr cf k b : cnt tr (column_family_id r) (key r) (read_only r) < 2 ^ 32 - 1 -> tracker_ok tr ->
  cnt (PointLockTracker.Track r tr) cf k b = cnt tr cf k b + bump (column_family_id r) (key r) (read_only r) cf k b.
Proof.
  intros Hlt Hok. unfold cnt, bump. rewrite Track_info. pose proof (tr_nonneg tr Hok (column_family_id r) (key r) (read_only r)) as Hn. unfold cnt in *.
  destruct (decide (cf = column_family_id r /\ k = key r)) as [[-> ->]|Hd]; [|rewrite decide_False by tauto; lia].
  unfold PointLockTracker.track_info. destruct (info tr _ _) as [i|]; destruct (read_only r), b; cbn;
    rewrite ?decide_True, ?decide_False by naive_solver; try (case_match; cbn); rewrite ?u32_small by lia; lia.
Qed.

Lemma tracker_ok_Track r tr : cnt tr (column_family_id r) (key r) (read_only r) < 2 ^ 32 - 1 -> tracker_ok tr ->
  tracker_ok (PointLockTracker.Track r tr).
Proof.
  intros Hlt Hok. split.
  - intros cf k b. rewrite cnt_Track by done. pose proof (tr_nonneg tr Hok cf k b). unfold bump. case_decide as Hd; [|lia].
    destruct Hd as (-> & -> & ->). lia.
  - intros cf k. rewrite !cnt_Track by done. rewrite Track_info. pose proof (tr_nonneg tr Hok cf k true). pose proof (tr_nonneg tr Hok cf k false).
    case_decide as Hd.
    + destruct Hd as [-> ->]. intros _. unfold bump. destruct (read_only r).
      * rewrite decide_True, decide_False by naive_solver. lia.
      * rewrite decide_False, decide_True by naive_solver. lia.
    + intros Hs%(tr_pos tr Hok). unfold bump. rewrite !decide_False by tauto. lia.
Qed.
Lemma tight_Track r tr : tight tr -> tight (PointLockTracker.Track r tr).
Proof.
  intros Ht cf Hcf. destruct (decide (cf = column_family_id r)) as [->|Hne].
  - exists (key r). rewrite Track_info, decide_True by done. by eexists.
  - unfold PointLockTracker.Track in Hcf. rewrite lookup_insert_ne in Hcf by done. destruct (Ht cf Hcf) as (k & Hk). exists k.
    by rewrite Track_info, decide_False by tauto.
Qed.
Lemma exclusive_Track r tr cf k : info_exclusive <$> info (PointLockTracker.Track r tr) cf k =
  if decide (cf = column_family_id r /\ k = key r) then Some (default false (info_exclusive <$> info tr cf k) || exclusive r) else info_exclusive <$> info tr cf k.
Proof.
  rewrite Track_info. case_decide as Hd; [|done]. destruct Hd as [-> ->]. cbn. f_equal. f_equal. unfold PointLockTracker.track_info.
  destruct (info tr _ _) as [i|]; cbn; [|by destruct (read_only r)]. destruct (read_only r); by case_match.
Qed.

(** [Untrack] of a read. *)
Definition read_request cf k : PointLockRequest := mkPointLockRequest cf k 0 true true.
Lemma cnt_Untrack tr cf k cf' k' b : tracker_ok tr ->
  cnt (PointLockTracker.Untrack (read_request cf k) tr).2 cf' k' b =
  cnt tr cf' k' b - (if decide (0 < cnt tr cf k true) then bump cf k true cf' k' b else 0).
Proof.
  intros Hok. unfold cnt at 1. rewrite Untrack_info. unfold bump. cbn [column_family_id key read_request].
  destruct (decide (cf' = cf /\ k' = k)) as [[-> ->]|Hd].
  2:{ unfold cnt. rewrite (decide_False (P := cf' = cf /\ k' = k /\ b = true)) by tauto. case_decide; lia. }
  unfold cnt. destruct (info tr cf k) as [i|] eqn:Ei; cbn [mbind option_bind]; [|rewrite decide_False by lia; lia].
  pose proof (tr_nonneg tr Hok cf k true) as Hr. pose proof (tr_nonneg tr Hok cf k false) as Hw. unfold cnt in Hr, Hw. rewrite Ei in Hr, Hw.
  unfold untracked. cbn [read_only read_request]. destruct (Z.ltb_spec 0 (num_reads i)) as [Hlt|Hge]; unfold counts_zero; cbn [snd num_reads num_writes].
  - rewrite (decide_True (P := 0 < num_reads i)) by done. destruct (Z.eqb_spec (num_reads i - 1) 0), (Z.eqb_spec (num_writes i) 0), b;
      cbn; rewrite ?decide_True, ?decide_False by naive_solver; lia.
  - rewrite (decide_False (P := 0 < num_reads i)) by lia. destruct (Z.eqb_spec (num_reads i) 0), (Z.eqb_spec (num_writes i) 0), b; cbn; lia.
Qed.
Lemma Untrack_read tr cf k : tracker_ok tr -> let r := PointLockTracker.Untrack (read_request cf k) tr in
  (r.1 = NOT_TRACKED <-> cnt tr cf k true = 0) /\ (r.1 = REMOVED <-> cnt tr cf k true = 1 /\ cnt tr cf k false = 0).
Proof.
  intros Hok r. subst r. rewrite Untrack_status. cbn [column_family_id key read_request].
  pose proof (tr_nonneg tr Hok cf k true) as Hr. pose proof (tr_nonneg tr Hok cf k false) as Hw. pose proof (tr_pos tr Hok cf k) as Hp.
  unfold cnt in *. destruct (info tr cf k) as [i|]; [|split; split; try done; lia]. specialize (Hp ltac:(by eexists)).
  unfold untracked. cbn [read_only read_request]. destruct (Z.ltb_spec 0 (num_reads i)) as [Hlt|Hge]; unfold counts_zero; cbn [fst snd num_reads num_writes].
  - destruct (Z.eqb_spec (num_reads i - 1) 0), (Z.eqb_spec (num_writes i) 0); cbn; split; split; try done; lia.
  - destruct (Z.eqb_spec (num_reads i) 0), (Z.eqb_spec (num_writes i) 0); cbn; split; split; try done; lia.
Qed.
Lemma exclusive_Untrack tr cf k cf' k' : info_exclusive <$> info (PointLockTracker.Untrack (read_request cf k) tr).2 cf' k' =
  if decide (cf' = cf /\ k' = k /\ (PointLockTracker.Untrack (read_request cf k) tr).1 = REMOVED) then None else info_exclusive <$> info tr cf' k'.
Proof.
  rewrite Untrack_info, Untrack_status. cbn [column_family_id key read_request].
  destruct (decide (cf' = cf /\ k' = k)) as [[-> ->]|Hd]; [|by rewrite decide_False by tauto].
  destruct (info tr cf k) as [i|]; cbn [mbind option_bind]; [|by case_decide].
  destruct (counts_zero (untracked (read_request cf k) i).2).
  - by rewrite decide_True by tauto.
  - rewrite decide_False by (intros (_ & _ & HH); by destruct (untracked (read_request cf k) i).1). cbn. f_equal. unfold untracked. cbn. by case_match.
Qed.
Lemma tracker_ok_Untrack tr cf k : tracker_ok tr -> tracker_ok (PointLockTracker.Untrack (read_request cf k) tr).2.
Proof.
  intros Hok. split.
  - intros cf' k' b. rewrite cnt_Untrack by done. pose proof (tr_nonneg tr Hok cf' k' b). pose proof (tr_nonneg tr Hok cf k true).
    unfold bump. do 2 (case_decide; try lia). destruct H2 as (-> & -> & ->). lia.
  - intros cf' k' Hs. destruct (info (PointLockTracker.Untrack (read_request cf k) tr).2 cf' k') as [i|] eqn:E; [|by destruct Hs].
    rewrite !cnt_Untrack by done. rewrite Untrack_info in E. cbn [column_family_id key read_request] in E.
    destruct (decide (cf' = cf /\ k' = k)) as [[-> ->]|Hd].
    + destruct (Untrack_read tr cf k Hok) as [_ Hrem]. pose proof (exclusive_Untrack tr cf k cf k) as Hx. rewrite Untrack_info in Hx.
      cbn [column_family_id key read_request] in Hx. rewrite decide_True in Hx by done. rewrite E in Hx.
      case_decide as Hd; [done|]. assert (Hne : ~ (cnt tr cf k true = 1 /\ cnt tr cf k false = 0)) by (intros Hc; apply Hd; split_and!; [done|done|by apply Hrem]).
      pose proof (tr_nonneg tr Hok cf k true). pose proof (tr_nonneg tr Hok cf k false).
      assert (0 < cnt tr cf k true + cnt tr cf k false). { apply (tr_pos tr Hok). destruct (info tr cf k); [by eexists|done]. }
      unfold bump. rewrite (decide_True (P := cf = cf /\ k = k /\ true = true)), (decide_False (P := cf = cf /\ k = k /\ false = true)) by naive_solver.
      case_decide; lia.
    + pose proof (tr_pos tr Hok cf' k' ltac:(by rewrite E)). unfold bump. rewrite !(decide_False (P := cf' = cf /\ k' = k /\ _)) by tauto. case_decide; lia.
Qed.
Lemma tight_Untrack r tr : tight tr -> tight (PointLockTracker.Untrack r tr).2.
Proof.
  intros Ht cf Hcf. unfold PointLockTracker.Untrack in *. destruct (tr !! column_family_id r) as [keys|] eqn:E; [|by apply Ht].
  destruct (keys !! key r) as [i|] eqn:Ek; [|by apply Ht]. fold (untracked r i) in *. destruct (untracked r i) as [u i']. fold (counts_zero i') in *.
  assert (Hother : cf <> column_family_id r -> exists k, is_Some (info tr cf k)).
  { intros Hne. apply Ht. destruct (counts_zero i'); cbn in Hcf; [case_bool_decide; cbn in Hcf; [by rewrite lookup_delete_ne in Hcf|by rewrite lookup_insert_ne in Hcf]|].
    by rewrite lookup_insert_ne in Hcf. }
  destruct (decide (cf = column_family_id r)) as [->|Hne].
  - destruct (counts_zero i'); cbn in *.
    + case_bool_decide as Hk; [rewrite lookup_delete_eq in Hcf; by destruct Hcf|]. apply map_choose in Hk as (k & v & Hk). exists k.
      rewrite info_insert, decide_True by done. by eexists.
    + exists (key r). rewrite info_insert, decide_True, lookup_insert_eq by done. by eexists.
  - destruct (Hother Hne) as (k & Hk). exists k. destruct (counts_zero i'); cbn; [case_bool_decide; unfold info; [by rewrite lookup_delete_ne|by rewrite lookup_insert_ne]|].
    by rewrite info_insert, decide_False.
Qed.

(** [Merge], while the sums fit. *)
Lemma cnt_Merge tr s cf k b : tracker_ok tr -> tracker_ok s -> cnt tr cf k b + cnt s cf k b < 2 ^ 32 ->
  cnt (PointLockTracker.Merge tr s) cf k b = cnt tr cf k b + cnt s cf k b.
Proof.
  intros Ht Hs. pose proof (tr_nonneg tr Ht cf k b) as H1. pose proof (tr_nonneg s Hs cf k b) as H2. unfold cnt in *. rewrite Merge_info.
  destruct (info tr cf k) as [i|], (info s cf k) as [j|]; cbn [merged]; try lia. unfold merge_info. destruct b; cbn [num_reads num_writes]; intros; rewrite u32_small; lia.
Qed.
Lemma tracker_ok_Merge tr s : tracker_ok tr -> tracker_ok s -> (forall cf k b, cnt tr cf k b + cnt s cf k b < 2 ^ 32) ->
  tracker_ok (PointLockTracker.Merge tr s).
Proof.
  intros Ht Hs Hb. split.
  - intros cf k b. rewrite cnt_Merge by done. pose proof (tr_nonneg tr Ht cf k b). pose proof (tr_nonneg s Hs cf k b). specialize (Hb cf k b). lia.
  - intros cf k. rewrite !cnt_Merge by done. rewrite Merge_info. pose proof (tr_nonneg tr Ht cf k true). pose proof (tr_nonneg s Hs cf k true).
    pose proof (tr_nonneg tr Ht cf k false). pose proof (tr_nonneg s Hs cf k false).
    destruct (info tr cf k) eqn:E1; [intros _; pose proof (tr_pos tr Ht cf k ltac:(by rewrite E1)); lia|].
    destruct (info s cf k) eqn:E2; [intros _; pose proof (tr_pos s Hs cf k ltac:(by rewrite E2)); lia|by intros [? ?]].
Qed.
Lemma Merge_cf tr s cf : is_Some (PointLockTracker.Merge tr s !! cf) <-> is_Some (tr !! cf) \/ is_Some (s !! cf).
Proof.
  unfold PointLockTracker.Merge.
  rewrite (map_fold_inserts (fun keys o => match o with None => keys | Some cur => map_fold PointLockTracker.merge_key cur keys end)).
  - destruct (tr !! cf), (s !! cf); cbn; split; try (intros; by eexists); try naive_solver. 
  - intros i x r. unfold PointLockTracker.merge_cf. by destruct (r !! i).
Qed.
Lemma tight_Merge tr s : tight tr -> tight s -> tight (PointLockTracker.Merge tr s).
Proof.
  intros Ht Hs cf [Hc|Hc]%Merge_cf.
  - destruct (Ht cf Hc) as (k & [i Hi]). exists k. rewrite Merge_info, Hi. by destruct (info s cf k); eexists.
  - destruct (Hs cf Hc) as (k & [i Hi]). exists k. rewrite Merge_info, Hi. by destruct (info tr cf k); eexists.
Qed.

(** A tracker whose counts are within another's. *)
Definition within tr s : Prop := forall cf k b, cnt tr cf k b <= cnt s cf k b.
Lemma within_covers tr s : tracker_ok tr -> tracker_ok s -> tight tr -> within tr s -> covers s tr.
Proof.
  intros Ht Hs Hti Hw cf keys E. assert (Hk : forall k, is_Some (info tr cf k) -> is_Some (info s cf k)).
  { intros k Hk. pose proof (tr_pos tr Ht cf k Hk). pose proof (Hw cf k true). pose proof (Hw cf k false).
    destruct (info s cf k) eqn:Ei; [by eexists|]. apply (info_cnt s cf k Hs) in Ei. lia. }
  split.
  - destruct (Hti cf) as (k & Hkk); [by rewrite E|]. specialize (Hk k Hkk). unfold info in Hk. destruct (s !! cf); [by eexists|by destruct Hk].
  - intros k Hkk. apply Hk. unfold info. by rewrite E.
Qed.
(** The keys that only [tr] accounts for. *)
Definition emptied tr s cf k : Prop := is_Some (info tr cf k) /\ cnt tr cf k true = cnt s cf k true /\ cnt tr cf k false = cnt s cf k false.
#[global] Instance emptied_dec tr s cf k : Decision (emptied tr s cf k).
Proof. unfold emptied. apply _. Defined.

Lemma subtracted_counts (a b : TrackedKeyInfo) : 0 <= num_reads a <= num_reads b -> 0 <= num_writes a <= num_writes b ->
  num_reads b < 2 ^ 32 -> num_writes b < 2 ^ 32 ->
  subtracted a b = if decide (num_reads a = num_reads b /\ num_writes a = num_writes b) then None
                   else Some (mkInfo (info_seq b) (num_writes b - num_writes a) (num_reads b - num_reads a) (info_exclusive b)).
Proof.
  intros Hr Hw Hr' Hw'. unfold subtracted.
  assert (Er : (if 0 <? num_reads a then u32 (num_reads b - num_reads a) else num_reads b) = num_reads b - num_reads a)
    by (destruct (Z.ltb_spec 0 (num_reads a)); [rewrite u32_small|]; lia).
  assert (Ew : (if 0 <? num_writes a then u32 (num_writes b - num_writes a) else num_writes b) = num_writes b - num_writes a)
    by (destruct (Z.ltb_spec 0 (num_writes a)); [rewrite u32_small|]; lia).
  rewrite Er, Ew. destruct (Z.eqb_spec (num_reads b - num_reads a) 0), (Z.eqb_spec (num_writes b - num_writes a) 0); cbn;
    rewrite ?decide_True, ?decide_False by lia; done.
Qed.
Lemma Subtract_ok tr s : tracker_ok tr -> tracker_ok s -> tight tr -> within tr s ->
  exists s', PointLockTracker.Subtract tr s = Some s' /\ tracker_ok s' /\ (forall cf k b, cnt s' cf k b = cnt s cf k b - cnt tr cf k b) /\
    (forall cf k, info_exclusive <$> info s' cf k = if decide (emptied tr s cf k) then None else info_exclusive <$> info s cf k).
Proof.
  intros Ht Hs Hti Hw. pose proof (Subtract_spec tr s) as HS.
  destruct (PointLockTracker.Subtract tr s) as [s'|]; [|exfalso; apply HS; by apply within_covers].
  destruct HS as (Hc & _ & HS). exists s'. split; [done|].
  assert (Hi : forall cf k, info s' cf k = match info tr cf k with
    | None => info s cf k
    | Some a => b ← info s cf k; if decide (emptied tr s cf k) then None
                else Some (mkInfo (info_seq b) (num_writes b - num_writes a) (num_reads b - num_reads a) (info_exclusive b)) end).
  { intros cf k. rewrite HS. pose proof (Hw cf k true) as W1. pose proof (Hw cf k false) as W2.
    pose proof (tr_nonneg tr Ht cf k true) as R1. pose proof (tr_nonneg tr Ht cf k false) as R2.
    pose proof (tr_nonneg s Hs cf k true) as R3. pose proof (tr_nonneg s Hs cf k false) as R4. unfold cnt in W1, W2, R1, R2, R3, R4.
    destruct (info tr cf k) as [a|] eqn:Ea, (info s cf k) as [b|] eqn:Eb; cbn [mbind option_bind]; try done. rewrite subtracted_counts by lia.
    assert (Hiff : emptied tr s cf k <-> num_reads a = num_reads b /\ num_writes a = num_writes b).
    { unfold emptied, cnt. rewrite Ea, Eb. split; [tauto|split; [by eexists|done]]. }
    destruct (decide (emptied tr s cf k)) as [Hd|Hd]; [rewrite decide_True by tauto|rewrite decide_False by tauto]; done. }
  assert (Hcnt : forall cf k b, cnt s' cf k b = cnt s cf k b - cnt tr cf k b).
  { intros cf k b. pose proof (Hw cf k b) as Hwb. pose proof (tr_nonneg tr Ht cf k b) as R. unfold cnt at 1. rewrite Hi. case_decide as He.
    - assert (cnt tr cf k b = cnt s cf k b) by (destruct b; apply He). unfold cnt in *. destruct (info tr cf k), (info s cf k); cbn; lia.
    - unfold cnt in *. destruct (info tr cf k) as [a|], (info s cf k) as [b'|]; cbn; destruct b; cbn; lia. }
  split_and!; [|done|].
  - split.
    + intros cf k b. rewrite Hcnt. pose proof (Hw cf k b). pose proof (tr_nonneg tr Ht cf k b). pose proof (tr_nonneg s Hs cf k b). lia.
    + intros cf k. rewrite !Hcnt, Hi. pose proof (Hw cf k true). pose proof (Hw cf k false). destruct (info tr cf k) as [a|] eqn:Ea.
      * destruct (info s cf k) as [b|]; cbn [mbind option_bind]; [|by intros [? ?]]. case_decide as He; [by intros [? ?]|]. intros _.
        unfold emptied in He. rewrite Ea in He. assert (Hne : ~ (cnt tr cf k true = cnt s cf k true /\ cnt tr cf k false = cnt s cf k false)) by (intros ?; apply He; split; [by eexists|done]). lia.
      * intros Hss. pose proof (tr_pos s Hs cf k Hss). assert (Hz : forall b, cnt tr cf k b = 0) by (intros b; unfold cnt; by rewrite Ea). rewrite !Hz. lia.
  - intros cf k. rewrite Hi. destruct (info tr cf k) as [a|] eqn:Ea; [|rewrite decide_False; [done|intros [[? ?] _]; congruence]].
    case_decide; by destruct (info s cf k).
Qed.

Lemma since_ok tr s : tracker_ok tr -> tracker_ok s -> tight tr -> within tr s ->
  exists t', PointLockTracker.GetTrackedLocksSinceSavePoint tr s = Some t' /\ forall cf k, (cf, k) ∈ tracked_keys t' <-> emptied tr s cf k.
Proof.
  intros Ht Hs Hti Hw. destruct (since_spec tr s (within_covers tr s Ht Hs Hti Hw)) as (t' & E & Hi). exists t'. split; [done|]. intros cf k.
  rewrite tracked_keys_elem, Hi. unfold since_info, emptied, cnt. destruct (info tr cf k) as [a|] eqn:Ea; cbn [mbind option_bind]; [|by split; [intros [? ?]|intros [[? ?] _]]].
  destruct (info s cf k) as [b|] eqn:Eb; cbn [mbind option_bind].
  - unfold since. destruct (Z.eqb_spec (num_reads b) (num_reads a)), (Z.eqb_spec (num_writes b) (num_writes a)); cbn;
      (split; [intros [? ?]; try done|intros (? & ? & ?); try lia; try by eexists]).
  - pose proof (tr_pos tr Ht cf k ltac:(by rewrite Ea)) as Hp. unfold cnt in Hp. rewrite Ea in Hp. split; [by intros [? ?]|]. intros (_ & ? & ?). lia.
Qed.
End counts.
