(* ===== verification/Transaction.v ===== *)
(** * Pessimistic transactions (utilities/transactions/)

    [TransactionBaseImpl] (transaction_base.cc), [PessimisticTransaction] and
    [WriteCommittedTxn] (pessimistic_transaction.cc) and [TransactionUtil] (transaction_util.cc).
    The lock manager, the write batches and the database below the transaction are parameters:
    what a call of the database answers is part of an [Env]. The transaction's tracker is
    [PointLockTracker]. [None] is an exception of the tracker or undefined behaviour. *)

From stdpp Require Import prelude gmap.
From Stdlib Require Import ZArith Lia.
From S2P Require Import Prelude Coding Comparator Status StateMonad PreparedHeap PointLock LockTracker.

(** ** TransactionUtil *)

Module TransactionUtil.
Section util.
Context `{SeqLimit}.

(** A [SuperVersion] as far as conflicts are checked on it: [GetEarliestMemTableSequenceNumber] and
    [GetLatestSequenceForKey], which is given the key, whether to read the memtables only, and the lower bound,
    and answers with a status, the sequence number, the timestamp and whether a record was found. *)
Record SuperVersion := mkSuperVersion {
  earliest_seq : Z;
  GetLatestSequenceForKey : list Z -> bool -> Z -> Status * Z * list Z * bool;
}.

Definition is_code (c : Code) (s : Status) : bool := bool_decide (code_ s = c).

Definition CheckKey (CompareTimestamp : list Z -> list Z -> Z) (sv : SuperVersion) (earliest_seq snap_seq : Z) (key : list Z)
    (read_ts : option (list Z)) (cache_only : bool) (snap_checker : option (Z -> bool)) (min_uncommitted : Z) : Status :=
  let '(need_to_read_sst, result) :=
    if earliest_seq =? kMaxSequenceNumber then (true, if cache_only then St.TryAgain else St.OK)
    else if (snap_seq <? earliest_seq) || (min_uncommitted <=? earliest_seq) then (true, if cache_only then St.TryAgain else St.OK)
    else (false, St.OK) in
  if St.ok result then
    let lower_bound_seq := if min_uncommitted =? kMaxSequenceNumber then snap_seq else min_uncommitted in
    let '(s, seq, timestamp, found_record_for_key) := GetLatestSequenceForKey sv key (negb need_to_read_sst) lower_bound_seq in
    if negb (St.ok s || is_code kNotFound s || is_code kMergeInProgress s) then s
    else if (found_record_for_key : bool) then
      let write_conflict := match snap_checker with None => snap_seq <? seq | Some IsVisible => negb (IsVisible seq) end in
      let write_conflict :=
        match read_ts with
        | Some read_ts => if negb write_conflict then CompareTimestamp read_ts timestamp <? 0 else write_conflict
        | None => write_conflict
        end in
      if (write_conflict : bool) then St.Busy kNone else result
    else result
  else result.

(** [sv]: what [GetAndRefSuperVersion] gives for the column family. *)
Definition CheckKeyForConflicts (CompareTimestamp : list Z -> list Z -> Z) (sv : option SuperVersion) (key : list Z) (snap_seq : Z)
    (read_ts : option (list Z)) (cache_only : bool) (snap_checker : option (Z -> bool)) (min_uncommitted : Z) : Status :=
  match sv with
  | None => St.InvalidArgument
  | Some sv => CheckKey CompareTimestamp sv (earliest_seq sv) snap_seq key read_ts cache_only snap_checker min_uncommitted
  end.

Fixpoint check_keys (sv : SuperVersion) (tracker : PointLockTracker.t) (cf : Z) (cache_only : bool) (keys : list (list Z)) : Status :=
  match keys with
  | [] => St.OK
  | key :: keys =>
      let key_seq := ps_seq (PointLockTracker.GetPointLockStatus tracker cf key) in
      let result := CheckKey (fun _ _ => 0) sv (earliest_seq sv) key_seq key None cache_only None kMaxSequenceNumber in
      if St.ok result then check_keys sv tracker cf cache_only keys else result
  end.
Fixpoint check_cfs (svs : Z -> option SuperVersion) (tracker : PointLockTracker.t) (cache_only : bool) (cfs : list Z) : option Status :=
  match cfs with
  | [] => Some St.OK
  | cf :: cfs =>
      match svs cf with
      | None => Some St.InvalidArgument
      | Some sv =>
          keys ← PointLockTracker.GetKeyIterator tracker cf;
          let result := check_keys sv tracker cf cache_only keys in
          if St.ok result then check_cfs svs tracker cache_only cfs else Some result
      end
  end.
Definition CheckKeysForConflicts (svs : Z -> option SuperVersion) (tracker : PointLockTracker.t) (cache_only : bool) : option Status :=
  check_cfs svs tracker cache_only (PointLockTracker.GetColumnFamilyIterator tracker).
End util.
End TransactionUtil.

(** ** What a transaction is given *)

(** The lock manager, as this transaction uses it. *)
Class LockMgr (L : Type) := {
  lm_TryLock : Z -> list Z -> bool -> L -> Status * L;
  lm_UnLock : Z -> list Z -> L -> L;
}.
(** [WriteBatch] and [WriteBatchWithIndex]. *)
Inductive BatchOp := BPut (v : list Z) | BDelete | BSingleDelete | BMerge (v : list Z).
Class Batch (B : Type) := {
  wb_new : B;
  wb_Operate : BatchOp -> Z -> list Z -> B -> Status * B;
  wb_SetSavePoint : B -> B;
  wb_RollbackToSavePoint : B -> Status * B;
  wb_PopSavePoint : B -> Status * B;
  wb_Count : B -> Z;
  wb_HasKeyWithTimestamp : B -> bool;
  wb_UpdateTimestamps : list Z -> gset Z -> B -> Status * B;
  wb_MarkEndPrepare : list Z -> B -> B;
  wb_MarkCommit : list Z -> B -> Status * B;
  wb_MarkCommitWithTimestamp : list Z -> list Z -> B -> Status * B;
  wb_MarkRollback : list Z -> B -> B;
  wb_MarkWalTerminationPoint : B -> B;
  wb_Append : B -> B -> B;
  (** The keys an [Iterate] of [LockBatch]'s handler records, in order, or its error. The handler has no
      [SingleDeleteCF]: it does not record the keys of single deletions. *)
  wb_Keys : B -> Status * list (Z * list Z);
  (** The keys a write of the batch writes records of. *)
  wb_Written : B -> list (Z * list Z);
}.

(** What the database answers during one call: the clock, the latest sequence number, the sequence number of a snapshot
    taken now, the super versions, and the result of [WriteImpl] with the sequence number and the log it used, and
    the snapshot its callback created. *)
Record Env := mkEnv {
  NowMicros : Z;
  GetLatestSequenceNumber : Z;
  snapshot_now : Z;
  super_version : Z -> option TransactionUtil.SuperVersion;
  write_status : Status;
  seq_used : Z;
  log_used : Z;
  snapshot_created : option Z;
}.

Definition kMaxTxnTimestamp : Z := 2 ^ 64 - 1.

Fixpoint remove_one (z : Z) (l : list Z) : list Z :=
  match l with [] => [] | y :: l => if y =? z then l else y :: remove_one z l end.

(** ** The transaction *)

Module Transaction.
Section transaction.
Context {L B : Type} `{LockMgr L} `{Batch B} `{SeqLimit} `{Port}.
(** The timestamp size of a column family's comparator, [CompareTimestamp], and whether the database allows two-phase commit. *)
Context (timestamp_size : Z -> Z) (CompareTimestamp : list Z -> list Z -> Z) (allow_2pc : bool) (wb_InsertNoop : B -> B).

(** The snapshot is known by its sequence number. *)
Record Snap := mkSnap { snapshot_ : option Z; snapshot_needed_ : bool; snapshot_notifier_ : option nat }.
Record Nums := mkNums { num_puts_ : Z; num_deletes_ : Z; num_merges_ : Z }.
Record SavePoint := mkSavePoint { sp_snap : Snap; sp_nums : Nums; new_locks_ : PointLockTracker.t }.
Record Life := mkLife {
  txn_state_ : TransactionState;
  expiration_time_ : Z;
  name_ : list Z;
  log_number_ : Z;
  id_ : Z;
  txn_id_ : Z;
  skip_prepare_ : bool;
  skip_concurrency_control_ : bool;
}.
(** What transactions share: [expirable_transactions_map_], the names of [transactions_], the next transaction id,
    the log sections not yet flushed, and the batches written so far with whether the memtable was skipped. *)
Record Shared := mkShared {
  expirable : gset Z;
  transactions_ : gset (list Z);
  txn_id_counter_ : Z;
  prep_sections : list Z;
  written : list (bool * B);
}.
Record t := mk {
  snap : Snap;
  nums : Nums;
  write_batch_ : B;
  commit_time_batch_ : B;
  tracked_locks_ : PointLockTracker.t;
  (** The top is the head; no stack yet and an empty stack are the same. *)
  save_points_ : list SavePoint;
  read_timestamp_ : Z;
  commit_timestamp_ : Z;
  cfs_with_ts : gset Z;
  indexing_enabled_ : bool;
  life : Life;
  locks : L;
  shared : Shared;
}.

Definition set_snap x s := mk x (nums s) (write_batch_ s) (commit_time_batch_ s) (tracked_locks_ s) (save_points_ s) (read_timestamp_ s) (commit_timestamp_ s) (cfs_with_ts s) (indexing_enabled_ s) (life s) (locks s) (shared s).
Definition set_nums x s := mk (snap s) x (write_batch_ s) (commit_time_batch_ s) (tracked_locks_ s) (save_points_ s) (read_timestamp_ s) (commit_timestamp_ s) (cfs_with_ts s) (indexing_enabled_ s) (life s) (locks s) (shared s).
Definition set_batch x s := mk (snap s) (nums s) x (commit_time_batch_ s) (tracked_locks_ s) (save_points_ s) (read_timestamp_ s) (commit_timestamp_ s) (cfs_with_ts s) (indexing_enabled_ s) (life s) (locks s) (shared s).
Definition set_commit_batch x s := mk (snap s) (nums s) (write_batch_ s) x (tracked_locks_ s) (save_points_ s) (read_timestamp_ s) (commit_timestamp_ s) (cfs_with_ts s) (indexing_enabled_ s) (life s) (locks s) (shared s).
Definition set_tracked x s := mk (snap s) (nums s) (write_batch_ s) (commit_time_batch_ s) x (save_points_ s) (read_timestamp_ s) (commit_timestamp_ s) (cfs_with_ts s) (indexing_enabled_ s) (life s) (locks s) (shared s).
Definition set_save_points x s := mk (snap s) (nums s) (write_batch_ s) (commit_time_batch_ s) (tracked_locks_ s) x (read_timestamp_ s) (commit_timestamp_ s) (cfs_with_ts s) (indexing_enabled_ s) (life s) (locks s) (shared s).
Definition set_timestamps r c s := mk (snap s) (nums s) (write_batch_ s) (commit_time_batch_ s) (tracked_locks_ s) (save_points_ s) r c (cfs_with_ts s) (indexing_enabled_ s) (life s) (locks s) (shared s).
Definition set_cfs_ts x s := mk (snap s) (nums s) (write_batch_ s) (commit_time_batch_ s) (tracked_locks_ s) (save_points_ s) (read_timestamp_ s) (commit_timestamp_ s) x (indexing_enabled_ s) (life s) (locks s) (shared s).
Definition set_life x s := mk (snap s) (nums s) (write_batch_ s) (commit_time_batch_ s) (tracked_locks_ s) (save_points_ s) (read_timestamp_ s) (commit_timestamp_ s) (cfs_with_ts s) (indexing_enabled_ s) x (locks s) (shared s).
Definition set_locks x s := mk (snap s) (nums s) (write_batch_ s) (commit_time_batch_ s) (tracked_locks_ s) (save_points_ s) (read_timestamp_ s) (commit_timestamp_ s) (cfs_with_ts s) (indexing_enabled_ s) (life s) x (shared s).
Definition set_shared x s := mk (snap s) (nums s) (write_batch_ s) (commit_time_batch_ s) (tracked_locks_ s) (save_points_ s) (read_timestamp_ s) (commit_timestamp_ s) (cfs_with_ts s) (indexing_enabled_ s) (life s) (locks s) x.

Definition set_indexing x s := mk (snap s) (nums s) (write_batch_ s) (commit_time_batch_ s) (tracked_locks_ s) (save_points_ s) (read_timestamp_ s) (commit_timestamp_ s) (cfs_with_ts s) x (life s) (locks s) (shared s).

Definition set_state st (l : Life) : Life := mkLife st (expiration_time_ l) (name_ l) (log_number_ l) (id_ l) (txn_id_ l) (skip_prepare_ l) (skip_concurrency_control_ l).
Definition set_expiration e (l : Life) : Life := mkLife (txn_state_ l) e (name_ l) (log_number_ l) (id_ l) (txn_id_ l) (skip_prepare_ l) (skip_concurrency_control_ l).
Definition set_name n (l : Life) : Life := mkLife (txn_state_ l) (expiration_time_ l) n (log_number_ l) (id_ l) (txn_id_ l) (skip_prepare_ l) (skip_concurrency_control_ l).
Definition set_log n (l : Life) : Life := mkLife (txn_state_ l) (expiration_time_ l) (name_ l) n (id_ l) (txn_id_ l) (skip_prepare_ l) (skip_concurrency_control_ l).
Definition set_id n (l : Life) : Life := mkLife (txn_state_ l) (expiration_time_ l) (name_ l) (log_number_ l) n (txn_id_ l) (skip_prepare_ l) (skip_concurrency_control_ l).

(** [txn_state_.store]. *)
Definition store st : M t unit := modify (fun s => set_life (set_state st (life s)) s).
Definition get_state : M t TransactionState := gets (fun s => txn_state_ (life s)).
(** [atomic_compare_exchange_strong(&txn_state_, STARTED, st)]. *)
Definition cas_started st : M t bool :=
  old ← get_state;
  if decide (old = STARTED) then store st ;; mret true else mret false.
Definition IsExpired (env : Env) : M t bool :=
  e ← gets (fun s => expiration_time_ (life s));
  mret ((0 <? e) && (e <=? NowMicros env)).

(** [UnLock(this, tracker)]: every key the iterators of the tracker visit. *)
Definition UnLock_tracker (tracker : PointLockTracker.t) : M t unit :=
  modify (fun s => set_locks (foldl (fun l ck => lm_UnLock ck.1 ck.2 l) (locks s) (tracked_keys tracker)) s).
Definition db_TryLock (cf : Z) (key : list Z) (exclusive : bool) : M t Status :=
  l ← gets locks;
  let '(st, l) := lm_TryLock cf key exclusive l in
  modify (set_locks l) ;; mret st.
Definition db_UnLock (cf : Z) (key : list Z) : M t unit := modify (fun s => set_locks (lm_UnLock cf key (locks s)) s).

(** *** TransactionBaseImpl *)

Definition SetSnapshotInternal (snapshot : option Z) : M t unit := modify (set_snap (mkSnap snapshot false None)).
Definition SetSnapshot (env : Env) : M t unit := SetSnapshotInternal (Some (snapshot_now env)).
Definition SetSnapshotOnNextOperation (notifier : option nat) : M t unit :=
  modify (fun s => set_snap (mkSnap (snapshot_ (snap s)) true notifier) s).
Definition ClearSnapshot : M t unit := SetSnapshotInternal None.
(** The notifier is only told. *)
Definition SetSnapshotIfNeeded (env : Env) : M t unit :=
  needed ← gets (fun s => snapshot_needed_ (snap s));
  when needed (SetSnapshot env).

Definition InitWriteBatch : M t unit := modify (fun s => set_batch (wb_InsertNoop (write_batch_ s)) s).
Definition Clear_base : M t unit :=
  modify (set_save_points []) ;;
  modify (set_batch wb_new) ;;
  modify (set_commit_batch wb_new) ;;
  modify (fun s => set_tracked (PointLockTracker.Clear (tracked_locks_ s)) s) ;;
  modify (set_nums (mkNums 0 0 0)) ;;
  when allow_2pc InitWriteBatch.

Definition TrackKey (cf : Z) (key : list Z) (seq : Z) (read_only exclusive : bool) : M t unit :=
  let r := mkPointLockRequest cf key seq read_only exclusive in
  modify (fun s => set_tracked (PointLockTracker.Track r (tracked_locks_ s)) s) ;;
  sps ← gets save_points_;
  match sps with
  | [] => mret tt
  | top :: rest => modify (set_save_points (mkSavePoint (sp_snap top) (sp_nums top) (PointLockTracker.Track r (new_locks_ top)) :: rest))
  end.

Definition SetSavePoint : M t unit :=
  modify (fun s => set_save_points (mkSavePoint (snap s) (nums s) ∅ :: save_points_ s) s) ;;
  modify (fun s => set_batch (wb_SetSavePoint (write_batch_ s)) s).

Definition RollbackToSavePoint_base : M t Status :=
  sps ← gets save_points_;
  match sps with
  | [] => mret St.NotFound
  | save_point :: rest =>
      modify (set_snap (sp_snap save_point)) ;;
      modify (set_nums (sp_nums save_point)) ;;
      b ← gets write_batch_;
      let '(st, b) := wb_RollbackToSavePoint b in
      modify (set_batch b) ;;
      tr ← gets (fun s => PointLockTracker.Subtract (new_locks_ save_point) (tracked_locks_ s));
      tr ← of_option tr;
      modify (set_tracked tr) ;;
      modify (set_save_points rest) ;;
      mret st
  end.

Definition PopSavePoint : M t Status :=
  sps ← gets save_points_;
  match sps with
  | [] => mret St.NotFound
  | top :: rest =>
      modify (set_save_points
        match rest with
        | [] => []
        | below :: rest => mkSavePoint (sp_snap below) (sp_nums below) (PointLockTracker.Merge (new_locks_ top) (new_locks_ below)) :: rest
        end) ;;
      b ← gets write_batch_;
      let '(st, b) := wb_PopSavePoint b in
      modify (set_batch b) ;; mret st
  end.

Definition UndoGetForUpdate (cf : Z) (key : list Z) : M t unit :=
  let r := mkPointLockRequest cf key 0 true true in
  sps ← gets save_points_;
  can_untrack ←
    match sps with
    | [] => mret true
    | top :: rest =>
        let '(st, tr) := PointLockTracker.Untrack r (new_locks_ top) in
        modify (set_save_points (mkSavePoint (sp_snap top) (sp_nums top) tr :: rest)) ;;
        mret (negb (bool_decide (st = NOT_TRACKED)))
    end;
  when can_untrack (
    tr ← gets tracked_locks_;
    let '(st, tr) := PointLockTracker.Untrack r tr in
    modify (set_tracked tr) ;;
    when (bool_decide (st = REMOVED)) (db_UnLock cf key)).

(** *** PessimisticTransaction *)

(** The status, and the sequence number the key is tracked at. *)
Definition ValidateSnapshot (env : Env) (cf : Z) (key : list Z) (tracked_at_seq : Z) (s : t) : Status * Z :=
  let check snap_seq :=
    let ts_sz := timestamp_size cf in
    let ts_buf := if (0 <? ts_sz) && (read_timestamp_ s <? kMaxTxnTimestamp) then PutFixed64 [] (read_timestamp_ s) else [] in
    (TransactionUtil.CheckKeyForConflicts CompareTimestamp (super_version env cf) key snap_seq (if ts_sz =? 0 then None else Some ts_buf)
       false None kMaxSequenceNumber, snap_seq) in
  match snapshot_ (snap s) with
  | Some snap_seq => if tracked_at_seq <=? snap_seq then (St.OK, tracked_at_seq) else check snap_seq
  | None => check (GetLatestSequenceNumber env)
  end.

Definition TryLock (env : Env) (cf : Z) (key : list Z) (read_only exclusive do_validate assume_tracked : bool) : M t Status :=
  skip ← gets (fun s => skip_concurrency_control_ (life s));
  if (skip : bool) then mret St.OK
  else
    status ← gets (fun s => PointLockTracker.GetPointLockStatus (tracked_locks_ s) cf key);
    let previously_locked := ps_locked status in
    let lock_upgrade := previously_locked && exclusive && negb (ps_exclusive status) in
    st ← (if negb previously_locked || lock_upgrade then db_TryLock cf key exclusive else mret St.OK);
    SetSnapshotIfNeeded env ;;
    let ts_sz := timestamp_size cf in
    let tracked_at_seq := if ps_locked status then ps_seq status else kMaxSequenceNumber in
    snapshot ← gets (fun s => snapshot_ (snap s));
    read_timestamp ← gets read_timestamp_;
    r ← (if negb do_validate || (bool_decide (snapshot = None) && ((0 =? ts_sz) || (kMaxTxnTimestamp =? read_timestamp))) then
           let st := if assume_tracked && negb previously_locked then St.InvalidArgument else st in
           mret (st, if tracked_at_seq =? kMaxSequenceNumber then GetLatestSequenceNumber env else tracked_at_seq)
         else if St.ok st then
           v ← gets (ValidateSnapshot env cf key tracked_at_seq);
           if negb (St.ok v.1) then
             if lock_upgrade then st ← db_TryLock cf key false; mret (st, v.2)
             else when (negb previously_locked) (db_UnLock cf key) ;; mret v
           else mret v
         else mret (st, tracked_at_seq));
    when (St.ok r.1 && negb assume_tracked) (TrackKey cf key r.2 read_only exclusive) ;;
    mret r.1.

Definition RollbackToSavePoint : M t Status :=
  st ← get_state;
  if decide (st <> STARTED) then mret St.InvalidArgument
  else
    sps ← gets save_points_;
    match sps with
    | [] => mret tt
    | top :: _ =>
        tr ← gets (fun s => PointLockTracker.GetTrackedLocksSinceSavePoint (new_locks_ top) (tracked_locks_ s));
        tr ← of_option tr;
        UnLock_tracker tr
    end ;;
    RollbackToSavePoint_base.

Definition Clear : M t unit :=
  tr ← gets tracked_locks_;
  UnLock_tracker tr ;; Clear_base.

Definition TryStealingLocks : M t bool := cas_started LOCKS_STOLEN.

(** *** Two-phase commit *)

(** [WriteImpl] of a batch: an accepted one is written, with or without the memtable. *)
Definition WriteImpl (env : Env) (batch : B) (disable_memtable : bool) : M t Status :=
  when (St.ok (write_status env))
    (modify (fun s => set_shared (mkShared (expirable (shared s)) (transactions_ (shared s)) (txn_id_counter_ (shared s))
                                           (prep_sections (shared s)) (written (shared s) ++ [(disable_memtable, batch)])) s)) ;;
  mret (write_status env).
Definition SetId (n : Z) : M t unit := modify (fun s => set_life (set_id n (life s)) s).
Definition MarkLogAsContainingPrepSection (log : Z) : M t unit :=
  modify (fun s => set_shared (mkShared (expirable (shared s)) (transactions_ (shared s)) (txn_id_counter_ (shared s))
                                        (log :: prep_sections (shared s)) (written (shared s))) s).
Definition MarkLogAsHavingPrepSectionFlushed (log : Z) : M t unit :=
  modify (fun s => set_shared (mkShared (expirable (shared s)) (transactions_ (shared s)) (txn_id_counter_ (shared s))
                                        (remove_one log (prep_sections (shared s))) (written (shared s))) s).
Definition RegisterTransaction : M t unit :=
  modify (fun s => set_shared (mkShared (expirable (shared s)) ({[name_ (life s)]} ∪ transactions_ (shared s)) (txn_id_counter_ (shared s))
                                        (prep_sections (shared s)) (written (shared s))) s).
Definition UnregisterTransaction : M t unit :=
  modify (fun s => set_shared (mkShared (expirable (shared s)) (transactions_ (shared s) ∖ {[name_ (life s)]}) (txn_id_counter_ (shared s))
                                        (prep_sections (shared s)) (written (shared s))) s).

(** [WriteCommittedTxn::PrepareInternal]: to the log only. *)
Definition PrepareInternal (env : Env) : M t Status :=
  modify (fun s => set_batch (wb_MarkEndPrepare (name_ (life s)) (write_batch_ s)) s) ;;
  b ← gets write_batch_;
  st ← WriteImpl env b true;
  when (St.ok st) (modify (fun s => set_life (set_log (log_used env) (life s)) s) ;; MarkLogAsContainingPrepSection (log_used env)) ;;
  mret st.

Definition Prepare (env : Env) : M t Status :=
  name ← gets (fun s => name_ (life s));
  if decide (name = []) then mret St.InvalidArgument
  else
    expired ← IsExpired env;
    if (expired : bool) then mret St.Expired
    else
      e ← gets (fun s => expiration_time_ (life s));
      can_prepare ← (if 0 <? e then cas_started AWAITING_PREPARE
                     else st ← get_state; if decide (st = STARTED) then store AWAITING_PREPARE ;; mret true else mret false);
      if (can_prepare : bool) then
        modify (fun s => set_life (set_expiration 0 (life s)) s) ;;
        st ← PrepareInternal env;
        when (St.ok st) (store PREPARED) ;; mret st
      else
        st ← get_state;
        mret (if decide (st = LOCKS_STOLEN) then St.Expired else St.InvalidArgument).

(** The commit timestamp is put into the batch's keys. *)
Definition assign_timestamp : M t Status :=
  s ← gets id;
  let '(st, b) := wb_UpdateTimestamps (PutFixed64 [] (commit_timestamp_ s)) (cfs_with_ts s) (write_batch_ s) in
  modify (set_batch b) ;; mret st.
(** A commit may make a snapshot as its writes become visible; it needs a commit timestamp for that. *)
Definition write_committed (env : Env) (batch : B) : M t Status :=
  s ← gets id;
  if snapshot_needed_ (snap s) && (commit_timestamp_ s =? kMaxTxnTimestamp) then mret St.InvalidArgument
  else
    st ← WriteImpl env batch false;
    when (St.ok st && snapshot_needed_ (snap s)) (modify (fun s => set_snap (mkSnap (snapshot_created env) (snapshot_needed_ (snap s)) (snapshot_notifier_ (snap s))) s)) ;;
    when (St.ok st) (SetId (seq_used env)) ;;
    mret st.

Definition CommitWithoutPrepareInternal (env : Env) : M t Status :=
  s ← gets id;
  let needs_ts := wb_HasKeyWithTimestamp (write_batch_ s) in
  if needs_ts && (commit_timestamp_ s =? kMaxTxnTimestamp) then mret St.InvalidArgument
  else
    st ← (if needs_ts then assign_timestamp else mret St.OK);
    if negb (St.ok st) then mret st
    else b ← gets write_batch_; write_committed env b.

Definition CommitInternal (env : Env) : M t Status :=
  s ← gets id;
  let needs_ts := wb_HasKeyWithTimestamp (write_batch_ s) in
  if needs_ts && (commit_timestamp_ s =? kMaxTxnTimestamp) then mret St.InvalidArgument
  else
    let '(st, working_batch) :=
      if needs_ts then wb_MarkCommitWithTimestamp (name_ (life s)) (PutFixed64 [] (commit_timestamp_ s)) (commit_time_batch_ s)
      else wb_MarkCommit (name_ (life s)) (commit_time_batch_ s) in
    modify (set_commit_batch working_batch) ;;
    st ← (if needs_ts && St.ok st then assign_timestamp else mret st);
    if negb (St.ok st) then mret st
    else
      modify (fun s => set_commit_batch (wb_Append (wb_MarkWalTerminationPoint (commit_time_batch_ s)) (write_batch_ s)) s) ;;
      b ← gets commit_time_batch_; write_committed env b.

Definition CommitBatchInternal (env : Env) (batch : B) : M t Status :=
  st ← WriteImpl env batch false;
  when (St.ok st) (SetId (seq_used env)) ;; mret st.

Definition RollbackInternal (env : Env) : M t Status :=
  name ← gets (fun s => name_ (life s));
  WriteImpl env (wb_MarkRollback name wb_new) false.

Definition Commit (env : Env) : M t Status :=
  expired ← IsExpired env;
  if (expired : bool) then mret St.Expired
  else
    s ← gets id;
    let l := life s in
    (** [inl] is the early return, [inr (without_prepare, prepared)]. *)
    r ← (if 0 <? expiration_time_ l then b ← cas_started AWAITING_COMMIT; mret (inr (b, false))
         else if decide (txn_state_ l = PREPARED) then mret (inr (false, true))
         else if decide (txn_state_ l = STARTED) then
           mret (if skip_prepare_ l then inr (true, false) else inl (mkStatus kInvalidArgument kTxnNotPrepared))
         else mret (inr (false, false)));
    match r with
    | inl st => mret st
    | inr (true, _) =>
        if 0 <? wb_Count (commit_time_batch_ s) then mret St.InvalidArgument
        else
          store AWAITING_COMMIT ;;
          when (0 <? log_number_ l) (MarkLogAsHavingPrepSectionFlushed (log_number_ l)) ;;
          st ← CommitWithoutPrepareInternal env;
          when (negb (bool_decide (name_ l = []))) UnregisterTransaction ;;
          Clear ;;
          when (St.ok st) (store COMMITTED) ;;
          mret st
    | inr (false, true) =>
        store AWAITING_COMMIT ;;
        st ← CommitInternal env;
        if negb (St.ok st) then mret st
        else
          log ← gets (fun s => log_number_ (life s));
          MarkLogAsHavingPrepSectionFlushed log ;;
          UnregisterTransaction ;;
          Clear ;;
          store COMMITTED ;;
          mret st
    | inr (false, false) =>
        st ← get_state;
        mret (if decide (st = LOCKS_STOLEN) then St.Expired else St.InvalidArgument)
    end.

Definition Rollback (env : Env) : M t Status :=
  st ← get_state;
  log ← gets (fun s => log_number_ (life s));
  if decide (st = PREPARED) then
    store AWAITING_ROLLBACK ;;
    st ← RollbackInternal env;
    when (St.ok st) (MarkLogAsHavingPrepSectionFlushed log ;; Clear ;; store ROLLEDBACK) ;;
    mret st
  else if decide (st = STARTED) then
    st ← (if 0 <? log then
            st ← RollbackInternal env;
            when (St.ok st) (MarkLogAsHavingPrepSectionFlushed log) ;; mret st
          else mret St.OK);
    Clear ;; mret st
  else mret St.InvalidArgument.

(** *** A batch on its own *)

(** The handler's [std::map] of [std::set]s: keys in order, each once. *)
Fixpoint record_key (ck : Z * list Z) (l : list (Z * list Z)) : list (Z * list Z) :=
  match l with
  | [] => [ck]
  | ck' :: rest =>
      if decide (ck = ck') then l
      else if (ck.1 <? ck'.1) || ((ck.1 =? ck'.1) && (Slice.compare ck.2 ck'.2 <? 0)) then ck :: l
      else ck' :: record_key ck rest
  end.
Fixpoint lock_keys (keys : list (Z * list Z)) (keys_to_unlock : PointLockTracker.t) : M t (Status * PointLockTracker.t) :=
  match keys with
  | [] => mret (St.OK, keys_to_unlock)
  | (cf, key) :: keys =>
      st ← db_TryLock cf key true;
      if negb (St.ok st) then mret (st, keys_to_unlock)
      else lock_keys keys (PointLockTracker.Track (mkPointLockRequest cf key kMaxSequenceNumber false true) keys_to_unlock)
  end.
(** [None] is a null pointer. *)
Definition LockBatch (batch : option B) : M t (Status * PointLockTracker.t) :=
  match batch with
  | None => mret (St.InvalidArgument, ∅)
  | Some batch =>
      let '(st, keys) := wb_Keys batch in
      if negb (St.ok st) then mret (st, ∅)
      else
        r ← lock_keys (foldl (fun l ck => record_key ck l) [] keys) ∅;
        when (negb (St.ok r.1)) (UnLock_tracker r.2) ;;
        mret r
  end.

Definition CommitBatch (env : Env) (batch : option B) : M t Status :=
  if match batch with Some batch => wb_HasKeyWithTimestamp batch | None => false end then mret St.NotSupported
  else
    r ← LockBatch batch;
    if negb (St.ok r.1) then mret r.1
    else
      expired ← IsExpired env;
      e ← gets (fun s => expiration_time_ (life s));
      can_commit ← (if (expired : bool) then mret false
                    else if 0 <? e then cas_started AWAITING_COMMIT
                    else st ← get_state; mret (bool_decide (st = STARTED)));
      st ← (if (can_commit : bool) then
              store AWAITING_COMMIT ;;
              batch ← of_option batch;
              st ← CommitBatchInternal env batch;
              when (St.ok st) (store COMMITTED) ;; mret st
            else
              st ← get_state;
              mret (if decide (st = LOCKS_STOLEN) then St.Expired else St.InvalidArgument));
      UnLock_tracker r.2 ;;
      mret st.

(** *** Naming, starting and ending *)

Definition SetName (name : list Z) : M t Status :=
  s ← gets id;
  if decide (txn_state_ (life s) = STARTED) then
    if negb (bool_decide (name_ (life s) = [])) then mret St.InvalidArgument
    else if decide (name ∈ transactions_ (shared s)) then mret St.InvalidArgument
    else if (zlen name <? 1) || (512 <? zlen name) then mret St.InvalidArgument
    else modify (fun s => set_life (set_name name (life s)) s) ;; RegisterTransaction ;; mret St.OK
  else mret St.InvalidArgument.

(** [TransactionOptions] read by [Initialize]; the lock timeout and the options of deadlock detection are the lock manager's. *)
Record Options := mkOptions { expiration : Z; set_snapshot : bool; o_skip_prepare : bool; o_skip_concurrency_control : bool }.
Definition Initialize (env : Env) (start_time : Z) (o : Options) : M t unit :=
  n ← gets (fun s => txn_id_counter_ (shared s));
  let e := if 0 <=? expiration o then u64 (start_time + expiration o * 1000) else 0 in
  modify (fun s => set_life (mkLife STARTED e (name_ (life s)) (log_number_ (life s)) (id_ (life s)) n (o_skip_prepare o) (o_skip_concurrency_control o)) s) ;;
  when (set_snapshot o) (SetSnapshot env) ;;
  modify (fun s => set_shared (mkShared (if 0 <? e then {[n]} ∪ expirable (shared s) else expirable (shared s)) (transactions_ (shared s)) (u64 (n + 1))
                                        (prep_sections (shared s)) (written (shared s))) s) ;;
  modify (set_timestamps kMaxTxnTimestamp kMaxTxnTimestamp).
Definition Reinitialize (env : Env) (start_time : Z) (o : Options) : M t unit :=
  l ← gets life;
  when (negb (bool_decide (name_ l = [])) && negb (bool_decide (txn_state_ l = COMMITTED))) UnregisterTransaction ;;
  Clear ;;
  ClearSnapshot ;;
  modify (fun s => set_life (mkLife (txn_state_ (life s)) (expiration_time_ (life s)) [] 0 0 (txn_id_ (life s)) (skip_prepare_ (life s)) (skip_concurrency_control_ (life s))) s) ;;
  modify (set_indexing true) ;;
  Initialize env start_time o.
(** The destructor. *)
Definition destroy : M t unit :=
  tr ← gets tracked_locks_;
  UnLock_tracker tr ;;
  l ← gets life;
  when (0 <? expiration_time_ l)
    (modify (fun s => set_shared (mkShared (expirable (shared s) ∖ {[txn_id_ l]}) (transactions_ (shared s)) (txn_id_counter_ (shared s))
                                           (prep_sections (shared s)) (written (shared s))) s)) ;;
  when (negb (bool_decide (name_ l = [])) && negb (bool_decide (txn_state_ l = COMMITTED))) UnregisterTransaction.

Definition SetReadTimestampForValidation (ts : Z) : M t Status :=
  s ← gets id;
  if (read_timestamp_ s <? kMaxTxnTimestamp) && (ts <? read_timestamp_ s) then mret St.InvalidArgument
  else modify (set_timestamps ts (commit_timestamp_ s)) ;; mret St.OK.
Definition SetCommitTimestamp (ts : Z) : M t Status :=
  s ← gets id;
  if (read_timestamp_ s <? kMaxTxnTimestamp) && (ts <=? read_timestamp_ s) then mret St.InvalidArgument
  else modify (set_timestamps (read_timestamp_ s) ts) ;; mret St.OK.

(** *** Reads and writes *)

Definition count_op (op : BatchOp) (n : Nums) : Nums :=
  match op with
  | BPut _ => mkNums (u64 (num_puts_ n + 1)) (num_deletes_ n) (num_merges_ n)
  | BDelete | BSingleDelete => mkNums (num_puts_ n) (u64 (num_deletes_ n + 1)) (num_merges_ n)
  | BMerge _ => mkNums (num_puts_ n) (num_deletes_ n) (u64 (num_merges_ n + 1))
  end.
(** [Operate] with the operation of [Put], [Delete], [SingleDelete] and [Merge]. *)
Definition Operate (env : Env) (op : BatchOp) (cf : Z) (key : list Z) (do_validate assume_tracked : bool) : M t Status :=
  st ← TryLock env cf key false true do_validate assume_tracked;
  if negb (St.ok st) then mret st
  else
    indexing ← gets indexing_enabled_;
    when ((0 <? timestamp_size cf) && negb indexing) (modify (fun s => set_cfs_ts ({[cf]} ∪ cfs_with_ts s) s)) ;;
    b ← gets write_batch_;
    let '(st, b) := wb_Operate op cf key b in
    modify (set_batch b) ;;
    when (St.ok st) (modify (fun s => set_nums (count_op op (nums s)) s)) ;;
    mret st.
Definition Write (env : Env) (op : BatchOp) (cf : Z) (key : list Z) (assume_tracked : bool) : M t Status :=
  Operate env op cf key (negb assume_tracked) assume_tracked.
Definition WriteUntracked (env : Env) (op : BatchOp) (cf : Z) (key : list Z) : M t Status := Operate env op cf key false false.

(** The locking of [GetForUpdate] (transaction_base.cc); [read_snapshot]: whether [read_options.snapshot] is set. The read itself is
    the database's. *)
Definition GetForUpdate (env : Env) (cf : Z) (key : list Z) (read_snapshot exclusive do_validate : bool) : M t Status :=
  if negb do_validate && read_snapshot then mret St.InvalidArgument
  else TryLock env cf key true exclusive do_validate false.
(** [WriteCommittedTxn]: [timestamp] is [read_options.timestamp], [ts_check] the answer of [FailIfTsMismatchCf] for it. *)
Definition GetForUpdateImpl (env : Env) (cf : Z) (key : list Z) (read_snapshot : bool) (timestamp : option (list Z)) (ts_check : Status)
    (exclusive do_validate : bool) : M t Status :=
  let checked :=
    read_timestamp ← gets read_timestamp_;
    if negb do_validate then mret St.InvalidArgument
    else if kMaxTxnTimestamp =? read_timestamp then mret St.InvalidArgument
    else
      match timestamp with
      | None => GetForUpdate env cf key read_snapshot exclusive do_validate
      | Some ts_buf =>
          ts ← (if zlen ts_buf <? 8 then undefined else mret (DecodeFixed64 ts_buf));
          if negb (ts =? read_timestamp) then mret St.InvalidArgument
          else GetForUpdate env cf key read_snapshot exclusive do_validate
      end in
  match timestamp with
  | None => if 0 =? timestamp_size cf then GetForUpdate env cf key read_snapshot exclusive do_validate else checked
  | Some _ => if negb (St.ok ts_check) then mret ts_check else checked
  end.
Fixpoint MultiGetForUpdate (env : Env) (keys : list (Z * list Z)) : M t Status :=
  match keys with
  | [] => mret St.OK
  | (cf, key) :: keys =>
      st ← TryLock env cf key true true true false;
      if negb (St.ok st) then mret st else MultiGetForUpdate env keys
  end.
End transaction.
End Transaction.
