(* ===== verification/TransactionProofs.v ===== *)
(** * The locks of a pessimistic transaction

    How often a transaction locked each key, and how often it had when each save point
    was set, is an abstract stack of counts. The trackers and the lock manager follow it: save points
    are rolled back to what was locked when they were set, and the locks held are
    always those of the keys that are tracked. *)

From stdpp Require Import prelude gmap.
From Stdlib Require Import ZArith Lia.
From S2P Require Import Prelude Coding Status StateMonad PreparedHeap PointLock LockTracker TrackerCounts Transaction.
Import Transaction.

(** ** The lock manager's contract *)

(** What a transaction holds of each key: nothing, or a lock and whether it is exclusive. A transaction that holds a
    shared lock only asks again to have it exclusively. *)
Class LockMgrLaws (L : Type) `{LockMgr L} := {
  lm_ok : L -> Prop;
  held : L -> Z -> list Z -> option bool;
  held_TryLock cf k ex l st l' : lm_ok l -> lm_TryLock cf k ex l = (st, l') -> (held l cf k = Some false -> ex = true) ->
    lm_ok l' /\ forall cf' k', held l' cf' k' = if decide (St.ok st = true /\ cf' = cf /\ k' = k) then Some ex else held l cf' k';
  held_UnLock cf k l : lm_ok l ->
    lm_ok (lm_UnLock cf k l) /\ forall cf' k', held (lm_UnLock cf k l) cf' k' = if decide (cf' = cf /\ k' = k) then None else held l cf' k';
}.
(** The manager is in order, and the transaction's locks are those of [f]. *)
Definition holds `{LockMgrLaws L} (l : L) (f : Z -> list Z -> option bool) : Prop := lm_ok l /\ forall cf k, held l cf k = f cf k.

Ltac txn_fields := cbn [tracked_locks_ save_points_ locks life snap nums write_batch_ commit_time_batch_ shared read_timestamp_ commit_timestamp_ set_shared set_save_points set_tracked set_locks set_snap set_nums set_batch set_commit_batch set_life column_family_id key read_only exclusive].

Section proofs.
Context {L B : Type} `{LockMgrLaws L} `{Batch B} `{SeqLimit} `{Port}.
Context (timestamp_size : Z -> Z) (CompareTimestamp : list Z -> list Z -> Z) (allow_2pc : bool) (wb_InsertNoop : B -> B).
Notation t := (@Transaction.t L B).
Implicit Types (s : t) (cf : Z) (k : list Z) (b : bool) (tr : PointLockTracker.t) (n : Z).

Lemma held_UnLock_all l ks : lm_ok l ->
  holds (foldl (fun l ck => lm_UnLock ck.1 ck.2 l) l ks) (fun cf k => if decide ((cf, k) ∈ ks) then None else held l cf k).
Proof.
  revert l. induction ks as [|[cf' k'] ks IH]; intros l Hl; cbn [foldl fst snd].
  { split; [done|]. intros cf k. rewrite decide_False; [done|apply not_elem_of_nil]. }
  destruct (held_UnLock cf' k' l Hl) as [Hl' HU]. destruct (IH _ Hl') as [Hok Hh]. split; [done|]. intros cf k. rewrite Hh, HU. destruct (decide ((cf, k) ∈ ks)) as [Hin|Hin]; [by rewrite decide_True by (by right)|].
  destruct (decide (cf = cf' /\ k = k')) as [[-> ->]|Hne]; [by rewrite decide_True by (by left)|].
  rewrite decide_False; [done|]. intros [[= -> ->]|?]%elem_of_cons; [by apply Hne|done].
Qed.

(** ** The operations of a transaction *)

Inductive op :=
  | OTryLock (env : Env) (cf : Z) (k : list Z) (read_only exclusive do_validate assume_tracked : bool)
  | OUndoGetForUpdate (cf : Z) (k : list Z)
  | OSetSavePoint
  | ORollbackToSavePoint
  | OPopSavePoint
  | OSetSnapshot (env : Env)
  | OPrepare (env : Env)
  | OCommit (env : Env)
  | ORollback (env : Env).
Definition exec (o : op) : M t Status :=
  match o with
  | OTryLock env cf k ro ex dv at_ => TryLock timestamp_size CompareTimestamp env cf k ro ex dv at_
  | OUndoGetForUpdate cf k => UndoGetForUpdate cf k ;; mret St.OK
  | OSetSavePoint => SetSavePoint ;; mret St.OK
  | ORollbackToSavePoint => RollbackToSavePoint
  | OPopSavePoint => PopSavePoint
  | OSetSnapshot env => SetSnapshot env ;; mret St.OK
  | OPrepare env => Prepare env
  | OCommit env => Commit allow_2pc wb_InsertNoop env
  | ORollback env => Rollback allow_2pc wb_InsertNoop env
  end.

(** What the transaction's own code gets wrong is excluded here: a lock that is upgraded on a key whose
    validation then fails, and [assume_tracked] for a key that is not tracked with the same mode. *)
Definition upgrades tr cf k (exclusive : bool) : bool :=
  match info tr cf k with Some i => exclusive && negb (info_exclusive i) | None => false end.
Definition proper (o : op) s : Prop :=
  match o with
  | OTryLock env cf k ro ex dv at_ =>
      (at_ = true -> dv = false /\ info_exclusive <$> info (tracked_locks_ s) cf k = Some ex) /\
      (upgrades (tracked_locks_ s) cf k ex = true -> dv = true ->
       forall s' seq, snap s' = snap s \/ snap s' = mkSnap (Some (snapshot_now env)) false None -> read_timestamp_ s' = read_timestamp_ s ->
         St.ok (ValidateSnapshot timestamp_size CompareTimestamp env cf k seq s').1 = true)
  | _ => True
  end.

(** ** The abstract stack of counts *)

Definition counts : Type := Z -> list Z -> bool -> Z.
Record spec := mkSpec { cur : counts; saved : list counts }.
Ltac fields := txn_fields; cbn [cur saved].
Definition floor (c : spec) : counts := default (fun _ _ _ => 0) (head (saved c)).
Definition spec_init : spec := mkSpec (fun _ _ _ => 0) [].
Definition add (f : counts) cf k b : counts := fun cf' k' b' => f cf' k' b' + bump cf k b cf' k' b'.
Definition sub (f : counts) cf k b : counts := fun cf' k' b' => f cf' k' b' - bump cf k b cf' k' b'.

(** [started]: the transaction is neither prepared nor over. *)
Inductive spec_step (started : bool) : op -> Status -> spec -> spec -> Prop :=
  | sp_lock env cf k ro ex dv at_ st c :
      spec_step started (OTryLock env cf k ro ex dv at_) st c (if St.ok st && negb at_ then mkSpec (add (cur c) cf k ro) (saved c) else c)
  | sp_undo cf k c :
      spec_step started (OUndoGetForUpdate cf k) St.OK c
        (if decide (floor c cf k true < cur c cf k true) then mkSpec (sub (cur c) cf k true) (saved c) else c)
  | sp_set c : spec_step started OSetSavePoint St.OK c (mkSpec (cur c) (cur c :: saved c))
  | sp_rollback f c st : started = true -> head (saved c) = Some f -> spec_step started ORollbackToSavePoint st c (mkSpec f (tail (saved c)))
  | sp_rollback_none c : started = true -> saved c = [] -> spec_step started ORollbackToSavePoint St.NotFound c c
  | sp_rollback_late c : started = false -> spec_step started ORollbackToSavePoint St.InvalidArgument c c
  | sp_pop c st : saved c <> [] -> spec_step started OPopSavePoint st c (mkSpec (cur c) (tail (saved c)))
  | sp_pop_none c : saved c = [] -> spec_step started OPopSavePoint St.NotFound c c
  | sp_snapshot env c : spec_step started (OSetSnapshot env) St.OK c c
  | sp_prepare env st c : spec_step started (OPrepare env) st c c
  | sp_end o env st c : o = OCommit env \/ o = ORollback env -> spec_step started o st c spec_init
  | sp_no_end o env st c : o = OCommit env \/ o = ORollback env -> St.ok st = false -> spec_step started o st c c.

(** ** The relation *)

Fixpoint floors (f : counts) (sps : list SavePoint) : list counts :=
  match sps with
  | [] => []
  | sp :: sps => let g : counts := fun cf k b => f cf k b - cnt (new_locks_ sp) cf k b in g :: floors g sps
  end.
Definition feq (f g : counts) : Prop := forall cf k b, f cf k b = g cf k b.

Record rel (n : Z) (c : spec) s : Prop := {
  r_cur : feq (cur c) (cnt (tracked_locks_ s));
  r_saved : Forall2 feq (saved c) (floors (cnt (tracked_locks_ s)) (save_points_ s));
  r_floor : Forall (fun g : counts => forall cf k b, 0 <= g cf k b) (floors (cnt (tracked_locks_ s)) (save_points_ s));
  r_ok : tracker_ok (tracked_locks_ s);
  r_sps : Forall (fun sp => tracker_ok (new_locks_ sp) /\ tight (new_locks_ sp)) (save_points_ s);
  r_bound cf k : cnt (tracked_locks_ s) cf k true + cnt (tracked_locks_ s) cf k false <= n;
  r_held cf k : held (locks s) cf k = info_exclusive <$> info (tracked_locks_ s) cf k;
  r_skip : skip_concurrency_control_ (life s) = false;
  r_lm : lm_ok (locks s);
}.

Lemma floors_ext f g sps : feq f g -> Forall2 feq (floors f sps) (floors g sps).
Proof.
  revert f g. induction sps as [|sp sps IH]; intros f g Hfg; cbn; constructor.
  - intros cf k b. by rewrite Hfg.
  - apply IH. intros cf k b. by rewrite Hfg.
Qed.
#[global] Instance feq_equiv : Equivalence feq.
Proof. split; [by intros f cf k b|by intros f g E cf k b; rewrite E|by intros f g h E1 E2 cf k b; rewrite E1, E2]. Qed.
Lemma Forall2_feq_trans (l1 l2 l3 : list counts) : Forall2 feq l1 l2 -> Forall2 feq l2 l3 -> Forall2 feq l1 l3.
Proof. intros E1 E2. by etrans. Qed.
Lemma floor_nonneg_ext (l l' : list counts) : Forall2 feq l l' -> Forall (fun g : counts => forall cf k b, 0 <= g cf k b) l ->
  Forall (fun g : counts => forall cf k b, 0 <= g cf k b) l'.
Proof. induction 1 as [|f g l l' Hfg _ IH]; [done|]. intros [Hf Hl]%Forall_cons. constructor; [intros cf k b; by rewrite <- Hfg|by apply IH]. Qed.


(** Parts of the state the relation does not read. *)
Definition same s s' : Prop := tracked_locks_ s' = tracked_locks_ s /\ save_points_ s' = save_points_ s /\ locks s' = locks s /\
  skip_concurrency_control_ (life s') = skip_concurrency_control_ (life s).
Lemma same_refl s : same s s.
Proof. done. Qed.
Lemma same_trans s s' s'' : same s s' -> same s' s'' -> same s s''.
Proof. intros (E1 & E2 & E3 & E4) (F1 & F2 & F3 & F4). split_and!; congruence. Qed.
Lemma rel_same n n' c s s' : rel n c s -> same s s' -> n <= n' -> rel n' c s'.
Proof.
  intros [] (E1 & E2 & E3 & E4) Hn. split; rewrite ?E1, ?E2, ?E3, ?E4; try done. intros cf k. specialize (r_bound0 cf k). lia.
Qed.

Lemma floors_track f sps top cf k b : cnt (new_locks_ top) cf k b < 2 ^ 32 - 1 -> tracker_ok (new_locks_ top) ->
  forall r, column_family_id r = cf -> key r = k -> read_only r = b ->
  Forall2 feq (floors f (top :: sps))
    (floors (add f cf k b) (mkSavePoint (sp_snap top) (sp_nums top) (PointLockTracker.Track r (new_locks_ top)) :: sps)).
Proof.
  intros Hlt Hok r E1 E2 E3. cbn. assert (Hg : feq (fun cf' k' b' => f cf' k' b' - cnt (new_locks_ top) cf' k' b')
    (fun cf' k' b' => add f cf k b cf' k' b' - cnt (PointLockTracker.Track r (new_locks_ top)) cf' k' b')).
  { intros cf' k' b'. rewrite cnt_Track by (by subst). unfold add. rewrite E1, E2, E3. lia. }
  constructor; [done|]. by apply floors_ext.
Qed.

(** [TrackKey] counts the request for the transaction and for its last save point. *)
Lemma TrackKey_ok n c s cf k seq ro ex l : rel n c s -> n + 1 < 2 ^ 32 ->
  holds l (fun cf' k' => if decide (cf' = cf /\ k' = k) then Some (default false (info_exclusive <$> info (tracked_locks_ s) cf k) || ex) else held (locks s) cf' k') ->
  wp (TrackKey cf k seq ro ex) (fun _ s' => rel (n + 1) (mkSpec (add (cur c) cf k ro) (saved c)) s') (set_locks l s).
Proof.
  intros [Rc Rs Rf Rok Rsp Rb Rh Rsk Rlm] Hn [Hlok Hheld]. set (r := mkPointLockRequest cf k seq ro ex).
  assert (Hcnt : forall cf' k' b', cnt (tracked_locks_ s) cf' k' b' <= n).
  { intros cf' k' b'. pose proof (Rb cf' k'). pose proof (tr_nonneg _ Rok cf' k' true). pose proof (tr_nonneg _ Rok cf' k' false). destruct b'; lia. }
  assert (Hlt : cnt (tracked_locks_ s) cf k ro < 2 ^ 32 - 1) by (specialize (Hcnt cf k ro); lia).
  assert (Htr : feq (add (cnt (tracked_locks_ s)) cf k ro) (cnt (PointLockTracker.Track r (tracked_locks_ s)))).
  { intros cf' k' b'. by rewrite (cnt_Track r). }
  assert (Hrest : forall sps', save_points_ s = sps' -> forall sps,
    Forall2 feq (floors (cnt (tracked_locks_ s)) sps') (floors (add (cnt (tracked_locks_ s)) cf k ro) sps) ->
    Forall (fun sp => tracker_ok (new_locks_ sp) /\ tight (new_locks_ sp)) sps ->
    rel (n + 1) (mkSpec (add (cur c) cf k ro) (saved c)) (set_save_points sps (set_tracked (PointLockTracker.Track r (tracked_locks_ s)) (set_locks l s)))).
  { intros sps' Es sps Hfl Hsps. subst sps'. pose proof (floors_ext _ _ sps Htr) as Hext. split; fields.
    - intros cf' k' b'. rewrite <- Htr. unfold add. by rewrite Rc.
    - eapply Forall2_feq_trans; [exact Rs|]. by eapply Forall2_feq_trans.
    - eapply floor_nonneg_ext; [|exact Rf]. by eapply Forall2_feq_trans.
    - by apply (tracker_ok_Track r).
    - done.
    - intros cf' k'. rewrite <- !Htr. unfold add, bump. specialize (Rb cf' k'). repeat case_decide; try lia. naive_solver.
    - intros cf' k'. rewrite Hheld. rewrite (exclusive_Track r). unfold r; fields. case_decide as Hd; [destruct Hd as [-> ->]; done|apply Rh].
    - done.
    - done. }
  unfold TrackKey. wp_steps. fold r. cbn [tracked_locks_ set_locks save_points_ set_tracked].
  destruct (save_points_ s) as [|top rest] eqn:Es.
  - apply wp_ret. replace (set_tracked _ _) with (set_save_points [] (set_tracked (PointLockTracker.Track r (tracked_locks_ s)) (set_locks l s))) by (by unfold set_save_points, set_tracked; cbn; rewrite Es).
    by apply (Hrest [] eq_refl).
  - wp_steps. apply Forall_cons in Rsp as [[Hok Hti] Hrsp]. apply Forall_cons in Rf as [Hf0 _].
    assert (Hlt' : cnt (new_locks_ top) cf k ro < 2 ^ 32 - 1) by (specialize (Hf0 cf k ro); cbn in Hf0; specialize (Hcnt cf k ro); lia).
    apply (Hrest _ eq_refl).
    + by apply (floors_track _ rest top cf k ro Hlt' Hok r).
    + constructor; [|done]. split; [by apply (tracker_ok_Track r)|by apply tight_Track].
Qed.

Lemma SetSavePoint_ok n c s : rel n c s -> wp SetSavePoint (fun _ s' => rel n (mkSpec (cur c) (cur c :: saved c)) s') s.
Proof.
  intros [Rc Rs Rf Rok Rsp Rb Rh Rsk Rlm]. unfold SetSavePoint. wp_steps.
  assert (Hg : feq (cnt (tracked_locks_ s)) (fun cf k b => cnt (tracked_locks_ s) cf k b - cnt ∅ cf k b)).
  { intros cf k b. assert (E : cnt ∅ cf k b = 0) by (unfold cnt, info; by rewrite lookup_empty). rewrite E. lia. }
  pose proof (floors_ext _ _ (save_points_ s) Hg) as Hext. split; fields; cbn [floors new_locks_]; try done.
  - constructor; [by etrans|]. by eapply Forall2_feq_trans.
  - constructor; [intros cf k b; rewrite <- Hg; apply Rok|by eapply floor_nonneg_ext].
  - constructor; [|done]. split; [apply tracker_ok_empty|apply tight_empty].
Qed.

Lemma PopSavePoint_ok n c s : rel n c s -> n < 2 ^ 32 ->
  wp PopSavePoint (fun st s' => (saved c = [] /\ st = St.NotFound /\ rel n c s') \/ (saved c <> [] /\ rel n (mkSpec (cur c) (tail (saved c))) s')) s.
Proof.
  intros [Rc Rs Rf Rok Rsp Rb Rh Rsk Rlm] Hn. unfold PopSavePoint. wp_steps. destruct (save_points_ s) as [|top rest] eqn:Es.
  - apply wp_ret. left. apply Forall2_nil_inv_r in Rs. split_and!; [done|done|]. split; rewrite ?Es, ?Rs; done.
  - wp_steps. fields. destruct (wb_PopSavePoint (write_batch_ s)) as [st wb]. cbv iota beta. wp_steps. right. cbn [floors] in *.
    apply Forall2_cons_inv_r in Rs as (f & fs & Hf & Hfs & Ec). rewrite Ec. split; [done|]. apply Forall_cons in Rf as [Rf0 Rf]. apply Forall_cons in Rsp as [[Ot Tt] Rsp].
    set (g := fun cf k b => cnt (tracked_locks_ s) cf k b - cnt (new_locks_ top) cf k b) in *.
    destruct rest as [|below rest]; [by split; fields; cbn [tail floors]; try done|]. cbn [floors] in *.
    apply Forall_cons in Rf as [Rf1 Rf]. apply Forall_cons in Rsp as [[Ob Tb] Rsp].
    assert (Hb : forall cf k b, cnt (new_locks_ top) cf k b + cnt (new_locks_ below) cf k b < 2 ^ 32).
    { intros cf k b. specialize (Rf1 cf k b). unfold g in Rf1. pose proof (tr_nonneg _ Rok cf k b). lia. }
    assert (Hg : feq (fun cf k b => g cf k b - cnt (new_locks_ below) cf k b)
      (fun cf k b => cnt (tracked_locks_ s) cf k b - cnt (PointLockTracker.Merge (new_locks_ top) (new_locks_ below)) cf k b)).
    { intros cf k b. rewrite cnt_Merge by done. unfold g. lia. }
    pose proof (floors_ext _ _ rest Hg) as Hext. apply Forall2_cons_inv_r in Hfs as (f2 & fs2 & Hf2 & Hfs2 & ->).
    split; fields; cbn [tail floors new_locks_]; try done.
    + constructor; [by etrans|by eapply Forall2_feq_trans].
    + constructor; [intros cf k b; rewrite <- Hg; apply Rf1|by eapply floor_nonneg_ext].
    + constructor; [split; [by apply tracker_ok_Merge|by apply tight_Merge]|done].
Qed.

(** Rolling back takes off what the save point counted and releases the keys nothing else counts. *)
Lemma RollbackToSavePoint_ok n c s : rel n c s ->
  wp RollbackToSavePoint (fun st s' =>
    (txn_state_ (life s) <> STARTED /\ st = St.InvalidArgument /\ rel n c s') \/
    (txn_state_ (life s) = STARTED /\ saved c = [] /\ st = St.NotFound /\ rel n c s') \/
    (exists f, txn_state_ (life s) = STARTED /\ head (saved c) = Some f /\ rel n (mkSpec f (tail (saved c))) s')) s.
Proof.
  intros Hrel. pose proof Hrel as [Rc Rs Rf Rok Rsp Rb Rh Rsk Rlm]. unfold RollbackToSavePoint, get_state. wp_steps.
  destruct (decide (txn_state_ (life s) <> STARTED)) as [Hd|Hd]; [apply wp_ret; by left|]. assert (Hst : txn_state_ (life s) = STARTED) by (destruct (decide (txn_state_ (life s) = STARTED)); tauto).
  eapply wp_mono; [|intros st' s' HH; right; exact HH]. wp_steps. destruct (save_points_ s) as [|top rest] eqn:Es.
  - wp_steps. unfold RollbackToSavePoint_base. wp_steps. rewrite Es. apply wp_ret. left. apply Forall2_nil_inv_r in Rs. by split_and!.
  - cbn [floors] in *. apply Forall2_cons_inv_r in Rs as (f & fs & Hf & Hfs & Ec). apply Forall_cons in Rf as [Rf0 Rf]. apply Forall_cons in Rsp as [[Ot Tt] Rsp].
    assert (Hw : within (new_locks_ top) (tracked_locks_ s)) by (intros cf k b; specialize (Rf0 cf k b); cbn in Rf0; lia).
    destruct (since_ok _ _ Ot Rok Tt Hw) as (t' & Et & Hkeys). destruct (Subtract_ok _ _ Ot Rok Tt Hw) as (tr & Etr & Hok & Hcnt & Hex).
    wp_steps. eapply wp_of_option; [exact Et|]. unfold UnLock_tracker. wp_steps. unfold RollbackToSavePoint_base. wp_steps. fields. rewrite Es. wp_steps. fields.
    destruct (wb_RollbackToSavePoint (write_batch_ s)) as [st wb]. cbv iota beta. wp_steps. fields. eapply wp_of_option; [exact Etr|]. wp_steps.
    right. exists f. rewrite Ec. split_and!; [done|done|].
    assert (Hg : feq (fun cf k b => cnt (tracked_locks_ s) cf k b - cnt (new_locks_ top) cf k b) (cnt tr)) by (intros cf k b; by rewrite Hcnt).
    pose proof (floors_ext _ _ rest Hg) as Hext. destruct (held_UnLock_all _ (tracked_keys t') Rlm) as [HlU HhU]. split; fields; cbn [tail]; try done.
    + by etrans.
    + by eapply Forall2_feq_trans.
    + by eapply floor_nonneg_ext.
    + intros cf k. rewrite <- !Hg. cbn. pose proof (tr_nonneg _ Ot cf k true). pose proof (tr_nonneg _ Ot cf k false). specialize (Rb cf k). lia.
    + intros cf k. rewrite HhU, Rh, Hex. destruct (decide (emptied (new_locks_ top) (tracked_locks_ s) cf k)) as [He|He];
        [rewrite decide_True by (by apply Hkeys)|rewrite decide_False by (by rewrite Hkeys)]; done.
Qed.

(** [UndoGetForUpdate] takes back a read of the last save point, if it has one. *)
Definition spec_undo cf k c : spec := if decide (floor c cf k true < cur c cf k true) then mkSpec (sub (cur c) cf k true) (saved c) else c.

Lemma untrack_tracked n c s cf k sps : rel n c s ->
  (forall g, feq g (if decide (0 < cnt (tracked_locks_ s) cf k true) then sub (cnt (tracked_locks_ s)) cf k true else cnt (tracked_locks_ s)) ->
     Forall2 feq (floors (cnt (tracked_locks_ s)) (save_points_ s)) (floors g sps)) ->
  Forall (fun sp => tracker_ok (new_locks_ sp) /\ tight (new_locks_ sp)) sps ->
  let '(st, tr) := PointLockTracker.Untrack (read_request cf k) (tracked_locks_ s) in
  forall l, holds l (fun cf' k' => if decide (st = REMOVED /\ cf' = cf /\ k' = k) then None else held (locks s) cf' k') ->
  rel n (if decide (0 < cnt (tracked_locks_ s) cf k true) then mkSpec (sub (cur c) cf k true) (saved c) else c)
    (set_locks l (set_tracked tr (set_save_points sps s))).
Proof.
  intros [Rc Rs Rf Rok Rsp Rb Rh Rsk Rlm] Hfl Hsps. pose proof (cnt_Untrack (tracked_locks_ s) cf k) as Hcnt. pose proof (exclusive_Untrack (tracked_locks_ s) cf k) as Hex.
  pose proof (tracker_ok_Untrack (tracked_locks_ s) cf k Rok) as Hok. destruct (PointLockTracker.Untrack _ _) as [st tr]. cbn [fst snd] in *. intros l [Hlok Hl].
  assert (Htr : feq (cnt tr) (if decide (0 < cnt (tracked_locks_ s) cf k true) then sub (cnt (tracked_locks_ s)) cf k true else cnt (tracked_locks_ s))).
  { intros cf' k' b. rewrite Hcnt by done. unfold sub. case_decide; lia. }
  specialize (Hfl (cnt tr) Htr). split; fields; try done.
  - intros cf' k' b. rewrite Htr. case_decide; fields; unfold sub; by rewrite Rc.
  - assert (Esv : saved (if decide (0 < cnt (tracked_locks_ s) cf k true) then mkSpec (sub (cur c) cf k true) (saved c) else c) = saved c) by (by case_decide).
    rewrite Esv. by eapply Forall2_feq_trans.
  - by eapply floor_nonneg_ext.
  - intros cf' k'. rewrite !Htr. specialize (Rb cf' k'). case_decide; [|done]. unfold sub. pose proof (bump_range cf k true cf' k' true). pose proof (bump_range cf k true cf' k' false). lia.
  - intros cf' k'. rewrite Hl, Hex, Rh. destruct (decide (cf' = cf /\ k' = k /\ st = REMOVED)) as [(-> & -> & ->)|Hne];
      [by rewrite decide_True|rewrite decide_False by (intros (-> & -> & ->); by apply Hne); done].
Qed.

Lemma UndoGetForUpdate_ok n c s cf k : rel n c s -> wp (UndoGetForUpdate cf k) (fun _ s' => rel n (spec_undo cf k c) s') s.
Proof.
  intros Hrel. pose proof Hrel as [Rc Rs Rf Rok Rsp Rb Rh Rsk Rlm]. unfold UndoGetForUpdate. fold (read_request cf k). wp_steps.
  assert (Hfin : forall sps, (forall g, feq g (if decide (0 < cnt (tracked_locks_ s) cf k true) then sub (cnt (tracked_locks_ s)) cf k true else cnt (tracked_locks_ s)) ->
     Forall2 feq (floors (cnt (tracked_locks_ s)) (save_points_ s)) (floors g sps)) ->
    Forall (fun sp => tracker_ok (new_locks_ sp) /\ tight (new_locks_ sp)) sps ->
    wp (tr ← gets tracked_locks_; let '(st, tr) := PointLockTracker.Untrack (read_request cf k) tr in
        modify (set_tracked tr) ;; when (bool_decide (st = REMOVED)) (db_UnLock cf k))
      (fun _ s' => rel n (if decide (0 < cnt (tracked_locks_ s) cf k true) then mkSpec (sub (cur c) cf k true) (saved c) else c) s') (set_save_points sps s)).
  { intros sps Hfl Hsps. wp_steps. fields. pose proof (untrack_tracked n c s cf k sps Hrel Hfl Hsps) as HU.
    destruct (PointLockTracker.Untrack (read_request cf k) (tracked_locks_ s)) as [st tr]. wp_steps. unfold db_UnLock. apply wp_when.
    - intros ->%bool_decide_eq_true. wp_steps. fields. apply (HU (lm_UnLock cf k (locks s))). destruct (held_UnLock cf k _ Rlm) as [HlU HhU]. split; [done|]. intros cf' k'. rewrite HhU.
      destruct (decide (cf' = cf /\ k' = k)); [by rewrite decide_True|by rewrite decide_False by tauto].
    - intros Hst%bool_decide_eq_false. apply (HU (locks s)). split; [done|]. intros cf' k'. by rewrite decide_False by tauto. }
  destruct (save_points_ s) as [|top rest] eqn:Es.
  - wp_steps. apply wp_when; [|done]. intros _. unfold spec_undo. apply Forall2_nil_inv_r in Rs. unfold floor. rewrite Rs. cbn [head default from_option].
    assert (Es' : set_save_points [] s = s) by (destruct s; cbn in *; by subst).
    pose proof (Hfin [] ltac:(by constructor) ltac:(constructor)) as HF. rewrite Es' in HF. pose proof (Rc cf k true) as Ek.
    destruct (decide (0 < cur c cf k true)); [rewrite decide_True in HF by lia|rewrite decide_False in HF by lia]; rewrite ?Rs in HF; exact HF.
  - cbn [floors] in *. apply Forall2_cons_inv_r in Rs as (f & fs & Hf & Hfs & Ec). apply Forall_cons in Rf as [Rf0 Rf]. apply Forall_cons in Rsp as [[Ot Tt] Rsp].
    destruct (Untrack_read (new_locks_ top) cf k Ot) as [Hnt _]. pose proof (cnt_Untrack (new_locks_ top) cf k) as Hcnt.
    pose proof (tracker_ok_Untrack (new_locks_ top) cf k Ot) as Hok'. pose proof (tight_Untrack (read_request cf k) (new_locks_ top) Tt) as Hti'.
    destruct (PointLockTracker.Untrack (read_request cf k) (new_locks_ top)) as [st tr]. cbn [fst snd] in *. wp_steps.
    assert (Hc : floor c cf k true < cur c cf k true <-> 0 < cnt (new_locks_ top) cf k true).
    { unfold floor. rewrite Ec. cbn [head default from_option]. rewrite Rc, Hf. cbn. lia. }
    pose proof (Rf0 cf k true) as Hle. cbn in Hle. pose proof (tr_nonneg _ Ot cf k true). unfold spec_undo.
    apply wp_when.
    + intros Hne%negb_true_iff%bool_decide_eq_false. assert (Hpos : 0 < cnt (new_locks_ top) cf k true) by (destruct (decide (cnt (new_locks_ top) cf k true = 0)); [tauto|lia]).
      rewrite (decide_True (P := floor c cf k true < cur c cf k true)) by tauto.
      rewrite <- (decide_True (P := 0 < cnt (tracked_locks_ s) cf k true) (mkSpec (sub (cur c) cf k true) (saved c)) c) by lia. apply Hfin.
      * intros g Hg. rewrite decide_True in Hg by lia. cbn [floors new_locks_].
        assert (Hgg : feq (fun cf' k' b => cnt (tracked_locks_ s) cf' k' b - cnt (new_locks_ top) cf' k' b) (fun cf' k' b => g cf' k' b - cnt tr cf' k' b)).
        { intros cf' k' b. rewrite Hg, Hcnt, decide_True by done. unfold sub. lia. }
        constructor; [done|by apply floors_ext].
      * by constructor.
    + intros Heq%negb_false_iff%bool_decide_eq_true. assert (Hz : cnt (new_locks_ top) cf k true = 0) by tauto.
      rewrite decide_False by (rewrite Hc; lia).
      assert (Hgg : feq (fun cf' k' b => cnt (tracked_locks_ s) cf' k' b - cnt (new_locks_ top) cf' k' b) (fun cf' k' b => cnt (tracked_locks_ s) cf' k' b - cnt tr cf' k' b)).
      { intros cf' k' b. rewrite Hcnt, decide_False by (done || lia). lia. }
      pose proof (floors_ext _ _ rest Hgg) as Hext. split; fields; cbn [floors new_locks_]; try done.
      * rewrite Ec. constructor; [by etrans|by eapply Forall2_feq_trans].
      * constructor; [intros cf' k' b; rewrite <- Hgg; apply Rf0|by eapply floor_nonneg_ext].
      * by constructor.
Qed.

(** ** Locking a key *)

Lemma set_locks_id s : set_locks (locks s) s = s.
Proof. by destruct s. Qed.
Definition excl_of s cf k : bool := default false (info_exclusive <$> info (tracked_locks_ s) cf k).

(** The lock is taken or upgraded if it has to be; a failure changes nothing. *)
Lemma first_lock_ok n c s cf k ex : rel n c s ->
  let prev := ps_locked (PointLockTracker.GetPointLockStatus (tracked_locks_ s) cf k) in
  let up := prev && ex && negb (ps_exclusive (PointLockTracker.GetPointLockStatus (tracked_locks_ s) cf k)) in
  wp (if negb prev || up then db_TryLock cf k ex else mret St.OK) (fun st s' => exists l, s' = set_locks l s /\
    (St.ok st = true -> holds l (fun cf' k' => if decide (cf' = cf /\ k' = k) then Some (excl_of s cf k || ex) else held (locks s) cf' k')) /\
    (St.ok st = false -> holds l (held (locks s))) /\ (prev = true -> up = false -> l = locks s)) s.
Proof.
  intros Hrel prev up. pose proof (r_held _ _ _ Hrel cf k) as Hh. pose proof (r_lm _ _ _ Hrel) as Hlm. subst prev up. unfold excl_of. rewrite GetPointLockStatus_info in *.
  destruct (info (tracked_locks_ s) cf k) as [i|]; cbn [ps_locked ps_exclusive fmap option_fmap option_map default from_option] in *.
  - destruct ex, (info_exclusive i) eqn:Ei; cbn [negb orb andb]; try (apply wp_ret; exists (locks s); rewrite set_locks_id; split_and!; try done;
      intros _; split; [done|]; intros cf' k'; try done; case_decide as Hd; [destruct Hd as [-> ->]; by rewrite Hh|done]).
    unfold db_TryLock. wp_steps. destruct (lm_TryLock cf k true (locks s)) as [st l] eqn:El. cbv beta iota. wp_steps. exists l.
    destruct (held_TryLock cf k true _ _ _ Hlm El ltac:(done)) as [HlT HT]. split_and!; [done| | |done].
    + intros Hok. split; [done|]. intros cf' k'. rewrite HT. destruct (decide (cf' = cf /\ k' = k)); [by rewrite decide_True|by rewrite decide_False by tauto].
    + intros Hok. split; [done|]. intros cf' k'. rewrite HT. rewrite decide_False; [done|]. intros [? _]. congruence.
  - cbn [negb orb]. unfold db_TryLock. wp_steps. destruct (lm_TryLock cf k ex (locks s)) as [st l] eqn:El. cbv beta iota. wp_steps. exists l.
    destruct (held_TryLock cf k ex _ _ _ Hlm El ltac:(by rewrite Hh)) as [HlT HT]. split_and!; [done| | |done].
    + intros Hok. split; [done|]. intros cf' k'. rewrite HT. destruct (decide (cf' = cf /\ k' = k)); [by rewrite decide_True|by rewrite decide_False by tauto].
    + intros Hok. split; [done|]. intros cf' k'. rewrite HT. rewrite decide_False; [done|]. intros [? _]. congruence.
Qed.

Lemma rel_snap n n' c s l sn : rel n c s -> n <= n' -> holds l (held (locks s)) -> rel n' c (set_snap sn (set_locks l s)).
Proof.
  intros [] Hn [Hlok Hl]. split; fields; try done.
  - intros cf k. specialize (r_bound0 cf k). lia.
  - intros cf k. by rewrite Hl.
Qed.
Lemma rel_set_snap n c s sn : rel n c s -> rel n c (set_snap sn s).
Proof. intros []. by split. Qed.

Definition spec_lock cf k (ro at_ : bool) (st : Status) c : spec := if St.ok st && negb at_ then mkSpec (add (cur c) cf k ro) (saved c) else c.

(** The key is counted; its lock is held in the mode that is tracked. *)
Lemma track_after n c s cf k seq ro ex l sn : rel n c s -> n + 1 < 2 ^ 32 ->
  holds l (fun cf' k' => if decide (cf' = cf /\ k' = k) then Some (excl_of s cf k || ex) else held (locks s) cf' k') ->
  wp (TrackKey cf k seq ro ex) (fun _ s' => rel (n + 1) (mkSpec (add (cur c) cf k ro) (saved c)) s') (set_snap sn (set_locks l s)).
Proof.
  intros Hrel Hn Hheld. change (set_snap sn (set_locks l s)) with (set_locks l (set_snap sn s)).
  apply (TrackKey_ok n c (set_snap sn s)); [by apply rel_set_snap|done|exact Hheld].
Qed.

Lemma TryLock_ok n c s env cf k ro ex dv at_ : rel n c s -> n + 1 < 2 ^ 32 -> proper (OTryLock env cf k ro ex dv at_) s ->
  wp (TryLock timestamp_size CompareTimestamp env cf k ro ex dv at_) (fun st s' => rel (n + 1) (spec_lock cf k ro at_ st c) s') s.
Proof.
  intros Hrel Hn (Hat & Hval). unfold TryLock. wp_steps. rewrite (r_skip _ _ _ Hrel). wp_steps.
  set (status := PointLockTracker.GetPointLockStatus (tracked_locks_ s) cf k). cbv zeta.
  set (prev := ps_locked status). set (up := prev && ex && negb (ps_exclusive status)).
  assert (Hprev : prev = bool_decide (is_Some (info (tracked_locks_ s) cf k))).
  { subst prev status. rewrite GetPointLockStatus_info. by destruct (info _ _ _). }
  assert (Hup : up = upgrades (tracked_locks_ s) cf k ex).
  { subst up prev status. unfold upgrades. rewrite GetPointLockStatus_info. by destruct (info _ _ _). }
  eapply wp_mono; [exact (first_lock_ok n c s cf k ex Hrel)|]. intros st s0 (l & -> & Hok & Hfail & Hsame). fold status prev up in Hsame.
  unfold SetSnapshotIfNeeded. wp_steps. set (sn := if snapshot_needed_ (snap s) then mkSnap (Some (snapshot_now env)) false None else snap s).
  assert (Esn : forall Q : unit -> t -> Prop, Q tt (set_snap sn (set_locks l s)) -> wp (when (snapshot_needed_ (snap (set_locks l s))) (SetSnapshot env)) Q (set_locks l s)).
  { intros Q HQ. apply wp_when; fields; intros E; subst sn; rewrite E in HQ; [exact HQ|]. by destruct s. }
  apply Esn. clear Esn. wp_steps. fields.
  assert (Hfin : forall st' seq, (St.ok st' = true -> St.ok st = true /\ (at_ = true -> l = locks s)) -> (St.ok st' = false -> holds l (held (locks s))) ->
    wp (when (St.ok st' && negb at_) (TrackKey cf k seq ro ex)) (fun _ => wp (mret st') (fun st s' => rel (n + 1) (spec_lock cf k ro at_ st c) s')) (set_snap sn (set_locks l s))).
  { intros st' seq H1' H2'. unfold spec_lock. destruct (St.ok st') eqn:Eo; cbn [andb when].
    - destruct (H1' eq_refl) as [Hst Hlk]. destruct at_; cbn [negb when].
      + wp_steps. rewrite Hlk by done. rewrite set_locks_id, Eo. cbn. apply (rel_same n _ _ (set_snap sn s)); [by apply rel_set_snap|done|lia].
      + eapply wp_mono; [apply (track_after n c s cf k seq ro ex l sn); [done|done|by apply Hok]|]. intros [] s1 Hr. apply wp_ret. by rewrite Eo.
    - wp_steps. rewrite Eo. cbn. apply rel_snap with n; [done|lia|by apply H2']. }
  assert (Hatl : at_ = true -> l = locks s).
  { intros Ea. destruct (Hat Ea) as [_ Hi]. destruct (info (tracked_locks_ s) cf k) as [i|] eqn:Ei; [|done]. injection Hi as Hi. apply Hsame.
    - rewrite Hprev. by apply bool_decide_true.
    - rewrite Hup. unfold upgrades. rewrite Ei, Hi. by destruct ex. }
  destruct (negb dv || _) eqn:Eb.
  - wp_steps. assert (Ea : at_ && negb prev = false).
    { destruct at_; [|done]. destruct (Hat eq_refl) as [_ Hi]. rewrite Hprev, bool_decide_true; [done|]. destruct (info _ _ _); [by eexists|done]. }
    rewrite Ea. cbn [fst snd]. by apply Hfin.
  - destruct (St.ok st) eqn:Eo.
    + wp_steps. set (v := ValidateSnapshot _ _ _ _ _ _ _). assert (Edv : dv = true) by (by destruct dv).
      assert (Eat : at_ = false) by (destruct at_; [by destruct (Hat eq_refl) as [? _]; subst dv|done]).
      destruct (St.ok v.1) eqn:Ev; cbn [negb].
      * wp_steps. apply Hfin; [|congruence]. by rewrite Ev.
      * destruct up eqn:Eup.
        { exfalso. rewrite Hup in Eup at 1. assert (Hv : St.ok v.1 = true); [|congruence]. subst v. apply (Hval ltac:(by rewrite <- Hup) Edv); [|done].
          subst sn. fields. by destruct (snapshot_needed_ (snap s)); [right|left]. }
        wp_steps. apply wp_when.
        -- intros Hp%negb_true_iff. unfold db_UnLock. wp_steps. subst at_. cbn [fst snd]. rewrite Ev. cbn [andb when]. wp_steps. unfold spec_lock. rewrite Ev. cbn [andb]. fields.
           change (set_locks (lm_UnLock cf k l) (set_snap sn (set_locks l s))) with (set_snap sn (set_locks (lm_UnLock cf k l) s)). apply rel_snap with n; [done|lia|].
           destruct (Hok ltac:(done)) as [Hlok Hh]. destruct (held_UnLock cf k l Hlok) as [HlU HhU]. split; [done|]. intros cf' k'. rewrite HhU, Hh. case_decide as Hd; [|done]. destruct Hd as [-> ->]. rewrite (r_held _ _ _ Hrel).
           rewrite Hprev in Hp. apply bool_decide_eq_false in Hp. by destruct (info _ _ _); [destruct Hp; eexists|].
        -- intros Hp%negb_false_iff. wp_steps. apply Hfin; [by rewrite Ev|]. intros _. rewrite (Hsame Hp eq_refl). split; [apply (r_lm _ _ _ Hrel)|done].
    + wp_steps. cbn [fst snd]. apply Hfin; [by rewrite Eo|intros _; by apply Hfail].
Qed.

(** ** The end of a transaction *)

(** Code that does not touch the locks or the trackers. *)
Definition keeps {A} (m : M t A) : Prop := forall s, wp m (fun _ s' => same s s') s.
Lemma keeps_ret {A} (a : A) : keeps (mret a).
Proof. intros s. done. Qed.
Lemma keeps_gets {A} (f : t -> A) : keeps (gets f).
Proof. intros s. done. Qed.
Lemma keeps_modify f : (forall s, same s (f s)) -> keeps (modify f).
Proof. intros Hf s. apply wp_modify, Hf. Qed.
Lemma keeps_bind {A A'} (m : M t A) (f : A -> M t A') : keeps m -> (forall a, keeps (f a)) -> keeps (m ≫= f).
Proof.
  intros Hm Hf s. apply wp_bind. eapply wp_mono; [apply Hm|]. intros a s1 H1s. eapply wp_mono; [apply Hf|]. intros a' s2 H2s. exact (same_trans _ _ _ H1s H2s).
Qed.
Lemma keeps_when b (m : M t unit) : keeps m -> keeps (when b m).
Proof. intros Hm. destruct b; [done|apply keeps_ret]. Qed.
Lemma wp_keeps {A} (m : M t A) (Q : A -> t -> Prop) s : keeps m -> (forall a s', same s s' -> Q a s') -> wp m Q s.
Proof. intros Hm HQ. eapply wp_mono; [apply Hm|done]. Qed.

Ltac keep := repeat first
  [ apply keeps_ret | apply keeps_gets | apply keeps_when | apply keeps_modify; done
  | apply keeps_bind; [|intros ?] | progress cbv zeta | case_decide | case_match ].

Lemma keeps_WriteImpl env wb d : keeps (WriteImpl env wb d).
Proof. unfold WriteImpl. keep. Qed.
Lemma keeps_IsExpired env : keeps (IsExpired env).
Proof. unfold IsExpired. keep. Qed.
Lemma keeps_cas st : keeps (cas_started st).
Proof. unfold cas_started, get_state, store. keep. Qed.
Lemma keeps_write_committed env wb : keeps (write_committed env wb).
Proof. unfold write_committed, SetId. keep. all: try apply keeps_WriteImpl. Qed.
Lemma keeps_assign : keeps assign_timestamp.
Proof. unfold assign_timestamp. keep. Qed.
Lemma keeps_CommitWithoutPrepare env : keeps (CommitWithoutPrepareInternal env).
Proof. unfold CommitWithoutPrepareInternal. keep; first [apply keeps_assign|apply keeps_write_committed]. Qed.
Lemma keeps_CommitInternal env : keeps (CommitInternal env).
Proof. unfold CommitInternal. keep; first [apply keeps_assign|apply keeps_write_committed]. Qed.
Lemma keeps_Prepare env : keeps (Prepare env).
Proof.
  unfold Prepare, PrepareInternal, MarkLogAsContainingPrepSection, store, get_state.
  keep; first [apply keeps_IsExpired|apply keeps_cas|apply keeps_WriteImpl].
Qed.
Lemma keeps_RollbackInternal env : keeps (RollbackInternal env).
Proof. unfold RollbackInternal. keep; apply keeps_WriteImpl. Qed.

(** [Clear] gives up every lock. *)
Definition cleared s s' : Prop := tracked_locks_ s' = ∅ /\ save_points_ s' = [] /\
  locks s' = foldl (fun l ck => lm_UnLock ck.1 ck.2 l) (locks s) (tracked_keys (tracked_locks_ s)) /\
  skip_concurrency_control_ (life s') = skip_concurrency_control_ (life s).
Lemma Clear_ok s s0 : same s s0 -> wp (Clear allow_2pc wb_InsertNoop) (fun _ s' => cleared s s') s0.
Proof.
  intros (E1 & E2 & E3 & E4). unfold Clear, Clear_base, UnLock_tracker, InitWriteBatch. wp_steps. apply wp_when; intros _; wp_steps; split_and!; fields; rewrite ?E1, ?E3, ?E4; done.
Qed.
Lemma cleared_same s s1 s2 : cleared s s1 -> same s1 s2 -> cleared s s2.
Proof. intros (E1 & E2 & E3 & E4) (F1 & F2 & F3 & F4). split_and!; congruence. Qed.
Lemma rel_cleared n c s s' : 0 <= n -> rel n c s -> cleared s s' -> rel n spec_init s'.
Proof.
  intros Hn [] (E1 & E2 & E3 & E4). assert (Hz : forall cf k b, cnt ∅ cf k b = 0) by (intros; unfold cnt, info; by rewrite lookup_empty).
  destruct (held_UnLock_all _ (tracked_keys (tracked_locks_ s)) r_lm0) as [HlU HhU]. split; rewrite ?E1, ?E2, ?E3, ?E4; cbn [cur saved spec_init floors]; try done.
  - apply tracker_ok_empty.
  - intros cf k. rewrite HhU, r_held0. unfold info at 2. rewrite lookup_empty. cbn. case_decide as Hd; [done|].
    rewrite tracked_keys_elem in Hd. by destruct (info (tracked_locks_ s) cf k); [destruct Hd; eexists|].
Qed.

Definition ended s st s' : Prop := cleared s s' \/ (same s s' /\ St.ok st = false).
Lemma Commit_ok env s : wp (Commit allow_2pc wb_InsertNoop env) (fun st s' => ended s st s') s.
Proof.
  unfold Commit. apply wp_bind. apply wp_keeps; [apply keeps_IsExpired|]. intros [] s1 S1; [apply wp_ret; by right|]. wp_steps. unfold id.
  eapply (wp_mono _ (fun r s' => same s1 s' /\ match r with inl st => St.ok st = false | inr _ => True end)).
  { destruct (0 <? expiration_time_ (life s1)); [apply wp_bind, wp_keeps; [apply keeps_cas|]; intros a s' Hs; apply wp_ret; by split|].
    repeat case_decide; try (apply wp_ret; done). destruct (skip_prepare_ (life s1)); by apply wp_ret. }
  intros r s2 [S2 Hr]. pose proof (same_trans _ _ _ S1 S2) as S12. destruct r as [st|[[] pr]]; [apply wp_ret; by right| |destruct pr].
  - destruct (0 <? wb_Count _); [apply wp_ret; by right|]. unfold store, MarkLogAsHavingPrepSectionFlushed, UnregisterTransaction. wp_steps.
    apply wp_keeps; [keep|]. intros [] s3 S3. wp_steps. apply wp_keeps; [apply keeps_CommitWithoutPrepare|]. intros st s4 S4. wp_steps.
    apply wp_keeps; [keep|]. intros [] s5 S5. wp_steps. eapply wp_mono; [apply (Clear_ok s)|].
    + eapply same_trans; [exact S12|]. eapply same_trans; [|exact S5]. eapply same_trans; [|exact S4]. exact S3.
    + intros [] s6 S6. wp_steps. apply wp_keeps; [keep|]. intros [] s7 S7. apply wp_ret. left. by eapply cleared_same.
  - unfold store, MarkLogAsHavingPrepSectionFlushed, UnregisterTransaction. wp_steps. apply wp_keeps; [apply keeps_CommitInternal|]. intros st s4 S4.
    destruct (St.ok st) eqn:Eo; cbn [negb].
    + wp_steps. eapply wp_mono; [apply (Clear_ok s)|].
      * eapply same_trans; [exact S12|]. eapply same_trans; [|exact S4]. done.
      * intros [] s6 S6. wp_steps. left. eapply cleared_same; [exact S6|done].
    + apply wp_ret. right. split; [|done]. eapply same_trans; [exact S12|]. exact S4.
  - unfold get_state. wp_steps. right. split; [done|]. by case_decide.
Qed.
Lemma Rollback_ok env s : wp (Rollback allow_2pc wb_InsertNoop env) (fun st s' => ended s st s') s.
Proof.
  unfold Rollback, get_state, store, MarkLogAsHavingPrepSectionFlushed. wp_steps. destruct (decide _) as [Hp|Hp].
  - wp_steps. apply wp_keeps; [apply keeps_RollbackInternal|]. intros st s1 S1. wp_steps. apply wp_when; intros Eo.
    + wp_steps. eapply wp_mono; [apply (Clear_ok s); exact S1|]. intros [] s2 S2. wp_steps. left. eapply cleared_same; [exact S2|done].
    + apply wp_ret. right. by split.
  - destruct (decide _) as [Hs|Hs].
    + wp_steps. apply wp_keeps; [keep; apply keeps_RollbackInternal|]. intros st s1 S1. wp_steps. eapply wp_mono; [apply (Clear_ok s); exact S1|].
      intros [] s2 S2. apply wp_ret. by left.
    + apply wp_ret. by right.
Qed.

(** ** Every operation follows the abstract one *)

Theorem exec_refines n c s o : rel n c s -> 0 <= n -> n + 1 < 2 ^ 32 -> proper o s ->
  exists st s' c', exec o s = Some (st, s') /\ spec_step (bool_decide (txn_state_ (life s) = STARTED)) o st c c' /\ rel (n + 1) c' s'.
Proof.
  intros Hrel H0n Hn Hp. pose proof (rel_same n (n + 1) c s s Hrel (same_refl s) ltac:(lia)) as Hrel'.
  enough (Hwp : wp (exec o) (fun st s' => exists c', spec_step (bool_decide (txn_state_ (life s) = STARTED)) o st c c' /\ rel (n + 1) c' s') s).
  { apply wp_run in Hwp as (st & s' & E & c' & Hs & Hr). by exists st, s', c'. }
  destruct o; cbn [exec].
  - eapply wp_mono; [by apply (TryLock_ok n c)|]. intros st s' Hr. eexists. split; [apply sp_lock|exact Hr].
  - apply wp_bind. eapply wp_mono; [by apply (UndoGetForUpdate_ok (n + 1) c)|]. intros [] s' Hr. apply wp_ret. eexists. split; [apply sp_undo|exact Hr].
  - apply wp_bind. eapply wp_mono; [by apply (SetSavePoint_ok (n + 1) c)|]. intros [] s' Hr. apply wp_ret. eexists. split; [apply sp_set|exact Hr].
  - eapply wp_mono; [by apply (RollbackToSavePoint_ok (n + 1) c)|]. intros st s' [(Hst & -> & Hr)|[(Hst & Hc & -> & Hr)|(f & Hst & Hf & Hr)]]; eexists; (split; [|exact Hr]).
    + apply sp_rollback_late. by apply bool_decide_false.
    + apply sp_rollback_none; [by apply bool_decide_true|done].
    + apply sp_rollback; [by apply bool_decide_true|done].
  - eapply wp_mono; [by apply (PopSavePoint_ok (n + 1) c)|]. intros st s' [(Hc & -> & Hr)|(Hc & Hr)]; eexists; (split; [|exact Hr]); [by apply sp_pop_none|by apply sp_pop].
  - unfold SetSnapshot, SetSnapshotInternal. wp_steps. exists c. split; [apply sp_snapshot|by apply rel_set_snap].
  - apply wp_keeps; [apply keeps_Prepare|]. intros st s' Hs. exists c. split; [apply sp_prepare|]. by eapply rel_same.
  - eapply wp_mono; [apply Commit_ok|]. intros st s' [Hc|[Hs Ho]].
    + exists spec_init. split; [eapply sp_end; by left|]. eapply rel_cleared; [lia|exact Hrel'|done].
    + exists c. split; [eapply sp_no_end; [by left|done]|]. by eapply rel_same.
  - eapply wp_mono; [apply Rollback_ok|]. intros st s' [Hc|[Hs Ho]].
    + exists spec_init. split; [eapply sp_end; by right|]. eapply rel_cleared; [lia|exact Hrel'|done].
    + exists c. split; [eapply sp_no_end; [by right|done]|]. by eapply rel_same.
Qed.
End proofs.
