(* ===== verification/PointLockMgr.v ===== *)
(** * The point lock manager as a transaction sees it

    One transaction's calls of [PointLockManager] ([TryLock] with a lock timeout of zero, so that it
    does not wait, and [UnLock]) keep the contract that the transaction's theorems assume of
    a lock manager. Its state is in order if, beside the manager's own invariant, no two column families share a lock map and the
    transaction is at most once in the list of a lock's holders. *)

From stdpp Require Import prelude gmap.
From Stdlib Require Import ZArith Lia.
From S2P Require Import Prelude Status StateMonad DeadlockBuffer PointLock WaitGraph PointLockTable PointLockSystem Transaction TransactionProofs.
Import PointLockManager.

Section mgr.
Context (max_num_locks_ : Z) (default_num_stripes_ : nat) (GetSliceNPHash64 : list Z -> Z).
Context (stripes_u64 : 0 < Z.of_nat default_num_stripes_ < 2 ^ 64).
Context (hash_u64 : forall key, is_u 64 (GetSliceNPHash64 key)).
(** The transaction, and the clock when it asks for the [i]th lock. *)
Context (txn : Txn) (timeout0 : GetLockTimeout txn = 0) (clock : nat -> Z).
Notation id := (GetID txn).
Notation stripe_of := (GetStripe GetSliceNPHash64).
Implicit Types (s : t) (cf : Z) (key : list Z) (ex : bool) (li : LockInfo).

Definition own (o : option LockInfo) : option bool :=
  match o with Some li => if decide (id ∈ txn_ids li) then Some (exclusive li) else None | None => None end.
(** What the transaction holds of a key. *)
Definition mgr_held s cf key : option bool :=
  match lock_maps_ s !! cf with
  | Some m => match maps s !! m with Some lm => own (lock_at s m (stripe_of lm key) key) | None => None end
  | None => None
  end.

Definition once li : Prop := forall l1 l2, txn_ids li = l1 ++ id :: l2 -> id ∉ l1 /\ id ∉ l2.
Record mgr_inv s : Prop := {
  mi_ok : manager_ok default_num_stripes_ s;
  mi_inj cf cf' m : lock_maps_ s !! cf = Some m -> lock_maps_ s !! cf' = Some m -> cf = cf';
  mi_once m stripe key li : lock_at s m stripe key = Some li -> once li;
}.

Lemma once_single li : txn_ids li = [id] -> once li.
Proof. intros E l1 l2 E2. rewrite E in E2. destruct l1 as [|x l1]; [|by destruct l1]. injection E2 as <-. split; apply not_elem_of_nil. Qed.
Lemma once_snoc li li' : id ∉ txn_ids li -> txn_ids li' = txn_ids li ++ [id] -> once li'.
Proof.
  intros Hni E l1 l2 E2. rewrite E in E2. destruct l2 as [|x l2 _] using rev_ind.
  - apply app_inj_tail in E2 as [<- _]. split; [done|apply not_elem_of_nil].
  - rewrite app_comm_cons, app_assoc in E2. apply app_inj_tail in E2 as [E2 _]. exfalso. apply Hni. rewrite E2. set_solver.
Qed.
Lemma once_perm li li' : once li -> txn_ids li ≡ₚ id :: txn_ids li' -> id ∉ txn_ids li'.
Proof.
  intros Ho Hp Hin. apply list_elem_of_split in Hin as (l1 & l2 & E). rewrite E in Hp.
  assert (Hin : id ∈ txn_ids li) by (rewrite Hp; by left). apply list_elem_of_split in Hin as (k1 & k2 & E2).
  destruct (Ho _ _ E2) as [H1 H2]. rewrite E2 in Hp. assert (Hq : k1 ++ k2 ≡ₚ l1 ++ id :: l2).
  { apply (Permutation_cons_inv (a := id)). by rewrite <- Hp, Permutation_middle. }
  assert (id ∈ k1 ++ k2) by (rewrite Hq; set_solver). set_solver.
Qed.

Lemma lock_update_held s s' m lm cf key v d : lock_maps_ s !! cf = Some m -> maps s !! m = Some lm -> mgr_inv s ->
  lock_update s s' m (stripe_of lm key) key v d ->
  forall cf' key', mgr_held s' cf' key' = if decide (cf' = cf /\ key' = key) then own v else mgr_held s cf' key'.
Proof.
  intros Ecf Em Hinv (HU & _ & Hsh & Hlm & _) cf' key'. unfold mgr_held. rewrite Hlm.
  assert (Hst : forall m' lm' lm0, maps s' !! m' = Some lm' -> maps s !! m' = Some lm0 -> stripe_of lm' key' = stripe_of lm0 key').
  { intros m' lm' lm0 E1 E2. unfold GetStripe. enough (length (lock_map_stripes_ lm') = length (lock_map_stripes_ lm0)) as -> by done.
    assert (Hl : shape s' !! m' = shape s !! m') by (by rewrite Hsh). unfold shape in Hl. rewrite !list_lookup_fmap, E1, E2 in Hl. by injection Hl. }
  assert (Hdom : forall m', is_Some (maps s' !! m') <-> is_Some (maps s !! m')).
  { intros m'. rewrite !lookup_lt_is_Some. assert (length (shape s') = length (shape s)) as Hl by (by rewrite Hsh). unfold shape in Hl. rewrite !length_map in Hl. lia. }
  destruct (lock_maps_ s !! cf') as [m'|] eqn:Ecf'; [|rewrite decide_False; [done|]; intros [-> ->]; congruence].
  destruct (maps s' !! m') as [lm'|] eqn:E1; destruct (maps s !! m') as [lm0|] eqn:E2;
    pose proof (Hdom m') as Hd; rewrite E1, E2 in Hd; [|by destruct (proj1 Hd ltac:(done))|by destruct (proj2 Hd ltac:(done))|].
  - rewrite HU, (Hst _ _ _ E1 E2). destruct (decide (cf' = cf /\ key' = key)) as [[-> ->]|Hne].
    + replace m' with m in * by congruence. replace lm0 with lm by congruence. by rewrite decide_True.
    + rewrite decide_False; [done|]. intros (-> & _ & ->). apply Hne. split; [|done]. by apply (mi_inj _ Hinv _ _ m).
  - rewrite decide_False; [done|]. intros [-> ->]. congruence.
Qed.

Lemma mgr_inv_update s s' m stripe key v d : mgr_inv s -> lock_update s s' m stripe key v d -> locks_ok s' ->
  (forall li, v = Some li -> once li) -> mgr_inv s'.
Proof.
  intros [Hok Hinj Ho] (HU & _ & HF) Hl Hv. destruct (keeps_frame default_num_stripes_ id _ _ Hok HF Hl) as (Hok' & _ & Elm & _). split.
  - done.
  - intros cf cf' m'. rewrite Elm. apply Hinj.
  - intros m' st' k' li. rewrite HU. case_decide; [apply Hv|apply Ho].
Qed.

(** What a call does to the transaction's locks. *)
Definition owns s' (f : Z -> list Z -> option bool) : Prop := mgr_inv s' /\ forall cf key, mgr_held s' cf key = f cf key.

Lemma owns_acquired s s' m lm cf key now ex ids st ids' : lock_maps_ s !! cf = Some m -> maps s !! m = Some lm -> mgr_inv s ->
  (mgr_held s cf key = Some false -> ex = true) -> acquired max_num_locks_ m (stripe_of lm key) key now id ex ids s st ids' s' ->
  owns s' (fun cf' key' => if decide (St.ok st = true /\ cf' = cf /\ key' = key) then Some ex else mgr_held s cf' key').
Proof.
  intros Ecf Em Hinv Hex Ha. pose proof (acquired_ok _ _ _ _ _ _ _ _ _ _ _ _ Ha (mgr_locks _ _ (mi_ok _ Hinv))) as Hl. unfold acquired in Ha.
  assert (Eh : mgr_held s cf key = own (lock_at s m (stripe_of lm key) key)) by (unfold mgr_held; by rewrite Ecf, Em).
  destruct (St.ok st).
  - destruct Ha as (li' & HU & _ & He & Hids & _). assert (Hin : id ∈ txn_ids li').
    { destruct Hids as [->|(li & _ & _ & ->)]; set_solver. }
    split.
    + apply (mgr_inv_update _ _ _ _ _ _ _ Hinv HU Hl). intros ? [= <-]. destruct Hids as [E|(li & El & Ex & E)]; [by apply once_single|].
      apply (once_snoc li); [|done]. intros Hold. rewrite El in Eh. cbn in Eh. rewrite decide_True in Eh by done.
      apply orb_false_iff in Ex as [Ex1 Ex2]. rewrite Ex1 in Eh. specialize (Hex Eh). congruence.
    + intros cf' key'. rewrite (lock_update_held _ _ _ _ _ _ _ _ Ecf Em Hinv HU). cbn [own]. rewrite (decide_True (P := id ∈ _)) by done. rewrite He.
      by destruct (decide (cf' = cf /\ key' = key)); [rewrite decide_True by tauto|rewrite decide_False by tauto].
  - destruct Ha as [HU _]. split; [apply (mgr_inv_update _ _ _ _ _ _ _ Hinv HU Hl); intros li; apply (mi_once _ Hinv)|].
    intros cf' key'. rewrite (lock_update_held _ _ _ _ _ _ _ _ Ecf Em Hinv HU). rewrite (decide_False (P := false = true /\ _)) by (by intros [? _]).
    case_decide as Hd; [|done]. destruct Hd as [-> ->]. done.
Qed.

Lemma owns_unlocked s s' m lm cf key : lock_maps_ s !! cf = Some m -> maps s !! m = Some lm -> mgr_inv s ->
  unlocked max_num_locks_ m (stripe_of lm key) key id s s' ->
  owns s' (fun cf' key' => if decide (cf' = cf /\ key' = key) then None else mgr_held s cf' key').
Proof.
  intros Ecf Em Hinv Hu. pose proof (unlocked_ok _ _ _ _ _ _ _ Hu (mgr_locks _ _ (mi_ok _ Hinv))) as Hl. unfold unlocked in Hu.
  assert (Eh : mgr_held s cf key = own (lock_at s m (stripe_of lm key) key)) by (unfold mgr_held; by rewrite Ecf, Em).
  assert (Hsame : mgr_held s cf key = None -> owns s (fun cf' key' => if decide (cf' = cf /\ key' = key) then None else mgr_held s cf' key')).
  { intros Hn. split; [done|]. intros cf' key'. by case_decide as Hd; [destruct Hd as [-> ->]|]. }
  destruct (lock_at s m (stripe_of lm key) key) as [li|] eqn:El; [|subst; by apply Hsame]. cbn [own] in Eh.
  case_decide as Hin; [|subst; by apply Hsame]. destruct Hu as (v & HU & Hv).
  assert (Hown : own v = None).
  { destruct v as [li'|]; [|done]. cbn. rewrite decide_False; [done|]. apply (once_perm li); [by apply (mi_once _ Hinv _ _ _ _ El)|apply Hv]. }
  split.
  - apply (mgr_inv_update _ _ _ _ _ _ _ Hinv HU Hl). intros li' ->. cbn [own] in Hown. intros l1 l2 E. rewrite decide_True in Hown; [done|]. rewrite E. set_solver.
  - intros cf' key'. rewrite (lock_update_held _ _ _ _ _ _ _ _ Ecf Em Hinv HU). by rewrite Hown.
Qed.

(** [TryLock] without waiting: the clock is only read to find out whether the lock has expired. *)
Definition mgr_TryLock (now : Z) cf key ex : M t (request * outcome + Status) :=
  TryLock max_num_locks_ GetSliceNPHash64 0 txn cf key ex now now (fun _ => mkReading now now None) St.OK.
Definition answer (r : request * outcome + Status) : Status :=
  match r with inl (_, Done st) => st | inl _ => St.TimedOut kLockTimeout | inr st => st end.

Lemma mgr_TryLock_wp now cf key ex s : mgr_inv s -> (mgr_held s cf key = Some false -> ex = true) ->
  wp (mgr_TryLock now cf key ex) (fun r s' => owns s' (fun cf' key' =>
    if decide (St.ok (answer r) = true /\ cf' = cf /\ key' = key) then Some ex else mgr_held s cf' key')) s.
Proof.
  intros Hinv Hex. unfold mgr_TryLock, TryLock, TryLock_request, GetLockMap. wp_steps.
  destruct (lock_maps_ s !! cf) as [m|] eqn:Ecf.
  - destruct (map_stripe _ _ stripes_u64 hash_u64 s cf m (mi_ok _ Hinv) Ecf) as (lm & Em & _ & Hst). wp_step. apply (get_map_wp _ _ lm); [done|]. wp_steps.
    destruct (Hst key) as (lm' & keys & Em' & Ek). replace lm' with lm in * by congruence. apply (get_stripe_wp _ _ _ lm keys); [done..|]. wp_steps.
    unfold acquire, try_acquire. cbn [r_txn r_map r_stripe r_key r_excl]. rewrite timeout0. cbv zeta. change (negb (St.ok St.OK)) with false. cbv iota. do 2 wp_step.
    eapply wp_mono; [apply AcquireLocked_wp; [exact (Hst key)|apply (mgr_locks _ _ (mi_ok _ Hinv))]|]. intros [[st hint] ids] s' Ha. cbn [r_txn r_excl fst snd] in *. wp_steps.
    cbn [fst snd]. change (0 =? 0) with true. rewrite andb_false_r. wp_steps. cbn [answer]. by eapply owns_acquired.
  - wp_steps. cbn [answer]. split; [done|]. intros cf' key'. by rewrite decide_False by (by intros [? _]).
Qed.

Lemma mgr_UnLock_wp cf key s : mgr_inv s ->
  wp (UnLock max_num_locks_ GetSliceNPHash64 txn cf key) (fun _ s' => owns s' (fun cf' key' =>
    if decide (cf' = cf /\ key' = key) then None else mgr_held s cf' key')) s.
Proof.
  intros Hinv. unfold UnLock, GetLockMap. wp_steps. destruct (lock_maps_ s !! cf) as [m|] eqn:Ecf.
  - destruct (map_stripe _ _ stripes_u64 hash_u64 s cf m (mi_ok _ Hinv) Ecf) as (lm & Em & _ & Hst). wp_step. apply (get_map_wp _ _ lm); [done|].
    eapply wp_mono; [apply UnLockKey_wp, Hst|]. intros [] s' Hu. by eapply owns_unlocked.
  - apply wp_ret. split; [done|]. intros cf' key'. case_decide as Hd; [|done]. destruct Hd as [-> ->]. unfold mgr_held. by rewrite Ecf.
Qed.

(** The manager, and how often it has been asked. *)
#[export] Instance point_LockMgr : LockMgr (t * nat) := {
  lm_TryLock cf key ex l :=
    match mgr_TryLock (clock l.2) cf key ex l.1 with Some (r, s) => (answer r, (s, S l.2)) | None => (St.Busy kNone, l) end;
  lm_UnLock cf key l :=
    match UnLock max_num_locks_ GetSliceNPHash64 txn cf key l.1 with Some (_, s) => (s, l.2) | None => l end;
}.
#[export, program] Instance point_LockMgrLaws : LockMgrLaws (t * nat) := {
  lm_ok l := mgr_inv l.1;
  held l := mgr_held l.1;
}.
Next Obligation.
  intros cf key ex [s i] st l' Hinv E Hex. cbn in *. destruct (wp_run _ _ _ (mgr_TryLock_wp (clock i) cf key ex s Hinv Hex)) as (r & s' & Er & Ho).
  rewrite Er in E. injection E as <- <-. exact Ho.
Qed.
Next Obligation.
  intros cf key [s i] Hinv. cbn in *. destruct (wp_run _ _ _ (mgr_UnLock_wp cf key s Hinv)) as (r & s' & -> & Ho). exact Ho.
Qed.
End mgr.
