(* ===== verification/TransactionTheorems.v ===== *)
(** * What holds of a pessimistic transaction, and what does not

    Runs of operations of one transaction against the abstract stack of counts; its life cycle;
    and the cases in which its code loses a conflict, a lock or its state. *)

From stdpp Require Import prelude gmap.
From Stdlib Require Import ZArith Lia.
From S2P Require Import Prelude Coding Status StateMonad PreparedHeap PointLock WaitGraph PointLockTable PointLockSystem LockTracker TrackerCounts Transaction TransactionProofs PointLockMgr.
Import Transaction.

Section theorems.
Context {L B : Type} `{LockMgrLaws L} `{Batch B} `{SeqLimit} `{Port}.
Context (timestamp_size : Z -> Z) (CompareTimestamp : list Z -> list Z -> Z) (allow_2pc : bool) (wb_InsertNoop : B -> B).
Notation t := (@Transaction.t L B).
Notation exec := (exec timestamp_size CompareTimestamp allow_2pc wb_InsertNoop).
Notation proper := (proper timestamp_size CompareTimestamp).
Implicit Types (s : t) (cf : Z) (k : list Z) (ops : list op).

(** A transaction that has locked nothing yet. *)
Definition fresh s : Prop := tracked_locks_ s = ∅ /\ save_points_ s = [] /\ skip_concurrency_control_ (life s) = false /\
  lm_ok (locks s) /\ forall cf k, held (locks s) cf k = None.
Lemma rel_fresh s : fresh s -> rel 0 spec_init s.
Proof.
  intros (E1 & E2 & E3 & E4 & E5). split; rewrite ?E1, ?E2; try done.
  apply tracker_ok_empty.
Qed.

Fixpoint proper_run ops s : Prop :=
  match ops with
  | [] => True
  | o :: ops => proper o s /\ match exec o s with Some (_, s) => proper_run ops s | None => True end
  end.
(** A lock that is not assumed to be tracked, and is not validated or not exclusive, is proper in any state. *)
Definition simple (o : op) : bool :=
  match o with OTryLock _ _ _ _ ex dv at_ => negb at_ && (negb dv || negb ex) | _ => true end.
Lemma simple_run ops s : forallb simple ops = true -> proper_run ops s.
Proof.
  revert s. induction ops as [|o ops IH]; intros s Hs; [done|]. apply andb_true_iff in Hs as [Ho Hs]. split.
  - destruct o as [env cf k ro ex dv at_| | | | | | | |]; try done. destruct at_; [done|]. split; [done|]. intros Hup ->. cbn in Ho.
    destruct ex; [done|]. unfold upgrades in Hup. by destruct (info _ _ _).
  - destruct (exec o s) as [[st s1]|]; [by apply IH|done].
Qed.
(** A run beside the abstract one. *)
Inductive runs : list op -> t -> spec -> list Status -> t -> spec -> Prop :=
  | runs_nil s c : runs [] s c [] s c
  | runs_cons o ops s c st s1 c1 sts s' c' : exec o s = Some (st, s1) ->
      spec_step (bool_decide (txn_state_ (life s) = STARTED)) o st c c1 -> runs ops s1 c1 sts s' c' -> runs (o :: ops) s c (st :: sts) s' c'.

Lemma txn_run_refines ops : forall n c s, rel n c s -> 0 <= n -> n + Z.of_nat (length ops) < 2 ^ 32 -> proper_run ops s ->
  exists sts s' c', runs ops s c sts s' c' /\ rel (n + Z.of_nat (length ops)) c' s'.
Proof.
  induction ops as [|o ops IH]; intros n c s Hrel H0n Hn Hp.
  - exists [], s, c. split; [constructor|]. by rewrite Z.add_0_r.
  - destruct Hp as [Hp Hps]. cbn [length] in Hn. destruct (exec_refines timestamp_size CompareTimestamp allow_2pc wb_InsertNoop n c s o Hrel) as (st & s1 & c1 & E & Hs & Hr); [done|lia|done|].
    rewrite E in Hps. destruct (IH (n + 1) c1 s1 Hr) as (sts & s' & c' & Hrun & Hr'); [lia|lia|done|].
    exists (st :: sts), s', c'. split; [by econstructor|]. replace (n + Z.of_nat (length (o :: ops))) with (n + 1 + Z.of_nat (length ops)) by (cbn [length]; lia). done.
Qed.

(** C6: A run of fewer than 2^32 operations of a fresh transaction - locking keys for reads and writes, undoing reads, setting, rolling
    back to and popping save points, taking snapshots, preparing, committing, rolling back - in which [assume_tracked] is only given for
    keys that are tracked in that mode (and without validation) and no validation after an upgrade of a shared lock fails ([proper_run]), is defined, and
    follows the abstract stack of counts: rolling back to a save point restores the counts of the moment it was set. After it, the
    transaction holds in the lock manager exactly the locks of the keys with a count, each in the mode its tracker has for it. *)
Theorem transaction_locks_refine ops s : fresh s -> Z.of_nat (length ops) < 2 ^ 32 -> proper_run ops s ->
  exists sts s' c, runs ops s spec_init sts s' c /\
    (forall cf k, held (locks s') cf k = info_exclusive <$> info (tracked_locks_ s') cf k) /\
    (forall cf k, is_Some (held (locks s') cf k) <-> 0 < cur c cf k true + cur c cf k false) /\
    (forall cf k b, cnt (tracked_locks_ s') cf k b = cur c cf k b).
Proof.
  intros Hf Hn Hp. destruct (txn_run_refines ops 0 spec_init s (rel_fresh s Hf) ltac:(done) ltac:(lia) Hp) as (sts & s' & c & Hr & Hrel).
  exists sts, s', c. split; [done|]. destruct Hrel. split_and!.
  - done.
  - intros cf k. rewrite r_held, !r_cur. pose proof (info_cnt _ cf k r_ok) as Hi. pose proof (tr_nonneg _ r_ok cf k true). pose proof (tr_nonneg _ r_ok cf k false).
    destruct (info (tracked_locks_ s') cf k) as [i|].
    + cbn. split; [|by eexists]. intros _. destruct (decide (cnt (tracked_locks_ s') cf k true = 0 /\ cnt (tracked_locks_ s') cf k false = 0)) as [Hz|]; [|lia].
      apply Hi in Hz. done.
    + cbn. split; [by intros [? ?]|]. destruct (proj1 Hi eq_refl) as [-> ->]. lia.
  - intros cf k b. by rewrite r_cur.
Qed.
End theorems.

(** ** A transaction of a point lock manager *)

Fixpoint after_mark {A} (b : list (option A)) : list (option A) :=
  match b with Some _ :: b => after_mark b | None :: b => b | [] => [] end.
(** A batch that is the list of its operations, with marks for its save points. *)
#[export] Instance list_Batch : Batch (list (option (BatchOp * Z * list Z))) := {
  wb_new := [];
  wb_Operate op cf k b := (St.OK, b ++ [Some (op, cf, k)]);
  wb_SetSavePoint b := b ++ [None];
  wb_RollbackToSavePoint b := (St.OK, reverse (after_mark (reverse b)));
  wb_PopSavePoint b := (St.OK, b);
  wb_Count b := Z.of_nat (length (omap id b));
  wb_HasKeyWithTimestamp _ := false;
  wb_UpdateTimestamps _ _ b := (St.OK, b);
  wb_MarkEndPrepare _ b := b;
  wb_MarkCommit _ b := (St.OK, b);
  wb_MarkCommitWithTimestamp _ _ b := (St.OK, b);
  wb_MarkRollback _ b := b;
  wb_MarkWalTerminationPoint b := b;
  wb_Append b b' := b ++ b';
  wb_Keys b :=
    let single o := match o.1.1 with BSingleDelete => true | _ => false end in
    let ops := omap id b in
    (if existsb (fun o => single o && negb (o.1.2 =? 0)) ops then St.InvalidArgument else St.OK,
     map (fun o => (o.1.2, o.2)) (List.filter (fun o => negb (single o)) ops));
  wb_Written b := map (fun o => (o.1.2, o.2)) (omap id b);
}.

Instance seq_limit : SeqLimit := {| kMaxSequenceNumber := 2 ^ 56 - 1 |}.
Instance little : Port := {| kLittleEndian := true |}.
(** Transaction 1, with no lock timeout, of a manager in which transaction 2 has locked a key. *)
Definition txn1 : Txn := mkTxn 1 0 0 false 50.
Instance mgr1 : LockMgr (PointLockManager.t * nat) := point_LockMgr 0 (fun _ => 0) txn1 Z.of_nat.
Lemma one_stripe : 0 < Z.of_nat 1 < 2 ^ 64.
Proof. done. Qed.
Lemma hash_0 (key : list Z) : is_u 64 ((fun _ => 0) key).
Proof. done. Qed.
Instance laws1 : LockMgrLaws (PointLockManager.t * nat) := point_LockMgrLaws 0 1 (fun _ => 0) one_stripe hash_0 txn1 eq_refl Z.of_nat.
Definition life0 : Life := mkLife STARTED 0 [] 0 0 1 true false.
Definition start {L} (l : L) : t (L := L) (B := list (option (BatchOp * Z * list Z))) :=
  mk (mkSnap None false None) (mkNums 0 0 0) [] [] ∅ [] kMaxTxnTimestamp kMaxTxnTimestamp ∅ true life0 l (mkShared ∅ ∅ 2 [] []).
Definition env0 : Env := mkEnv 10 100 100 (fun _ => None) St.OK 101 1 None.
Definition one_key (k : list Z) (li : PointLock.LockInfo) : PointLockManager.t := with_locks 1 {[ k := li ]} ∅.
Lemma one_key_map k li cf m : PointLockManager.lock_maps_ (one_key k li) !! cf = Some m -> 0 = cf /\ 0%nat = m.
Proof. apply (lookup_singleton_Some (M := gmap Z)). Qed.
Lemma one_key_at k li m st k' li' : lock_at (one_key k li) m st k' = Some li' -> li' = li.
Proof.
  unfold lock_at. destruct m as [|m]; [|done]. cbn. destruct st as [|st]; [|done]. cbn. by intros [_ <-]%lookup_singleton_Some.
Qed.
Lemma one_key_held k li k' : own txn1 (lock_at (one_key k li) 0 0 k') = if decide (k' = k) then own txn1 (Some li) else None.
Proof.
  change (lock_at (one_key k li) 0 0 k') with (({[ k := li ]} : gmap (list Z) PointLock.LockInfo) !! k').
  case_decide as E; [subst; by rewrite lookup_singleton_eq|by rewrite lookup_singleton_ne].
Qed.
Lemma one_key_ok k li : lock_ok li -> once txn1 li -> lm_ok (one_key k li, 0%nat).
Proof.
  intros Hok Ho. cbn. split.
  - split; [|intros cf m [<- <-]%one_key_map; cbn; lia|by constructor|destruct (wait_ok_new 5) as [? ?]; by split|apply (buffer_ok_new 5)].
    by intros m st k' li' ->%one_key_at.
  - by intros cf cf' m [<- <-]%one_key_map [<- _]%one_key_map.
  - by intros m st k' li' ->%one_key_at.
Qed.
Definition other_holds : PointLockManager.t := one_key [7] (PointLock.mkLockInfo true [2] 0).
Lemma start_fresh : fresh (start (other_holds, 0%nat)).
Proof.
  split_and!; try done.
  - apply one_key_ok; [done|]. intros l1 l2 E. by destruct l1 as [|? [|]].
  - intros cf k. cbn. unfold mgr_held. destruct (PointLockManager.lock_maps_ other_holds !! cf) as [m|] eqn:E; [|done].
    apply one_key_map in E as [<- <-]. change (own txn1 (lock_at other_holds 0 0 k) = None). unfold other_holds; rewrite one_key_held. by case_decide.
Qed.

(** Transaction 1 reads a key after a save point, is refused the key of the other, writes the first key, goes back to the save point,
    reads another key, and commits. *)
Definition ops0 : list op := [OSetSavePoint; OTryLock env0 0 [8] true false true false; OTryLock env0 0 [7] true false true false;
  OTryLock env0 0 [8] false true false false; ORollbackToSavePoint; OTryLock env0 0 [9] true false true false; OCommit env0].
Lemma transaction_locks_refine_witness : exists sts s' c,
  runs (fun _ => 0) (fun _ _ => 0) false (fun b => b) ops0 (start (other_holds, 0%nat)) spec_init sts s' c /\
  (forall cf k, held (locks s') cf k = info_exclusive <$> info (tracked_locks_ s') cf k) /\
  (forall cf k, is_Some (held (locks s') cf k) <-> 0 < cur c cf k true + cur c cf k false) /\
  (forall cf k b, cnt (tracked_locks_ s') cf k b = cur c cf k b).
Proof.
  apply (transaction_locks_refine (fun _ => 0) (fun _ _ => 0) false (fun b => b) ops0 (start (other_holds, 0%nat))).
  - apply start_fresh.
  - done.
  - by apply simple_run.
Defined.

(** ** A conflict that is not reported, and a lock that is not given back *)

Section defects.
Context {L B : Type} `{LockMgrLaws L} `{Batch B} `{SeqLimit} `{Port}.
Context (timestamp_size : Z -> Z) (CompareTimestamp : list Z -> list Z -> Z) (allow_2pc : bool) (wb_InsertNoop : B -> B).
Notation t := (@Transaction.t L B).
Notation TryLock := (Transaction.TryLock timestamp_size CompareTimestamp).
Implicit Types (s : t) (cf : Z) (k : list Z).

(** C37: A write of a key that was changed after the transaction's snapshot is accepted if the transaction has a shared lock on it. The validation
    fails, but its answer is overwritten by that of the call that gives the exclusive lock back: [TryLock] answers OK, and the
    key is tracked as locked exclusively while only the shared lock is held. *)
Theorem upgrade_conflict_accepted env s cf k i snap_seq l1 l2 ro :
  skip_concurrency_control_ (life s) = false -> snap s = mkSnap (Some snap_seq) false None ->
  info (tracked_locks_ s) cf k = Some i -> info_exclusive i = false -> lm_ok (locks s) -> held (locks s) cf k = Some false ->
  lm_TryLock cf k true (locks s) = (St.OK, l1) -> lm_TryLock cf k false l1 = (St.OK, l2) ->
  St.ok (ValidateSnapshot timestamp_size CompareTimestamp env cf k (info_seq i) s).1 = false ->
  exists s', TryLock env cf k ro true true false s = Some (St.OK, s') /\
    info_exclusive <$> info (tracked_locks_ s') cf k = Some true /\ held (locks s') cf k = Some false.
Proof.
  intros Hskip Hsnap Hi Hsh Hlm Hh H1' H2' Hv.
  destruct (held_TryLock _ _ _ _ _ _ Hlm H1' ltac:(done)) as [Hl1 Hh1].
  destruct (held_TryLock _ _ _ _ _ _ Hl1 H2') as [_ Hh2]; [rewrite Hh1, decide_True by done; done|].
  assert (Hw : wp (TryLock env cf k ro true true false) (fun st s' => st = St.OK /\ locks s' = l2 /\
    exists seq, tracked_locks_ s' = PointLockTracker.Track (mkPointLockRequest cf k seq ro true) (tracked_locks_ s)) s).
  { unfold Transaction.TryLock, db_TryLock, SetSnapshotIfNeeded. wp_steps. rewrite Hskip. wp_steps. cbv zeta. rewrite GetPointLockStatus_info, Hi. cbn [ps_locked ps_exclusive ps_seq]. rewrite Hsh. cbn [negb andb orb].
    wp_steps. rewrite H1'. wp_steps. apply wp_when; txn_fields; rewrite Hsnap; [done|intros _]. wp_steps. txn_fields. rewrite Hsnap. cbn [snapshot_ negb orb bool_decide decide_rel andb].
    rewrite bool_decide_false by done. cbn [andb]. change (St.ok St.OK) with true. cbv iota. wp_steps.
    change (ValidateSnapshot timestamp_size CompareTimestamp env cf k (info_seq i) (set_locks l1 s)) with (ValidateSnapshot timestamp_size CompareTimestamp env cf k (info_seq i) s).
    rewrite Hv. cbn [negb]. wp_steps. txn_fields. rewrite H2'. wp_steps. cbn [fst snd]. change (St.ok St.OK && true) with true. unfold TrackKey, when. wp_steps. txn_fields.
    destruct (save_points_ s); wp_steps; split_and!; try done; eexists; done. }
  destruct (wp_run _ _ _ Hw) as (st & s' & E & -> & El & seq & Et). exists s'. split_and!; [done| |by rewrite El, Hh2, decide_True].
  rewrite Et, exclusive_Track. cbn. rewrite decide_True by done. by rewrite orb_true_r.
Qed.

(** A write with [assume_tracked] of a key that is not tracked is refused, but only after its lock was taken: the lock is not tracked, so
    that the end of the transaction ([Clear]) does not give it back. *)
Theorem assume_tracked_leaks_lock env s cf k l1 ro ex :
  skip_concurrency_control_ (life s) = false -> info (tracked_locks_ s) cf k = None -> lm_ok (locks s) -> held (locks s) cf k = None ->
  lm_TryLock cf k ex (locks s) = (St.OK, l1) ->
  exists s' s'', TryLock env cf k ro ex false true s = Some (St.InvalidArgument, s') /\ Clear allow_2pc wb_InsertNoop s' = Some (tt, s'') /\
    info (tracked_locks_ s'') cf k = None /\ held (locks s'') cf k = Some ex.
Proof.
  intros Hskip Hi Hlm Hh H1'. destruct (held_TryLock _ _ _ _ _ _ Hlm H1' ltac:(by rewrite Hh)) as [Hl1 Hh1].
  assert (Hw : wp (TryLock env cf k ro ex false true) (fun st s' => st = St.InvalidArgument /\ locks s' = l1 /\ tracked_locks_ s' = tracked_locks_ s) s).
  { unfold Transaction.TryLock, db_TryLock, SetSnapshotIfNeeded. wp_steps. rewrite Hskip. wp_steps. cbv zeta. rewrite GetPointLockStatus_info, Hi. cbn [ps_locked ps_exclusive ps_seq negb andb orb].
    wp_steps. rewrite H1'. wp_steps. apply wp_when; txn_fields; intros _; unfold SetSnapshot, SetSnapshotInternal; wp_steps; cbn [fst snd];
      change (St.ok St.InvalidArgument) with false; cbn [andb when]; wp_steps; done. }
  destruct (wp_run _ _ _ Hw) as (st & s' & E & -> & El & Et).
  destruct (wp_run _ _ _ (Clear_ok allow_2pc wb_InsertNoop s' s' (same_refl s'))) as ([] & s'' & E2 & (Ht & _ & Hl & _)).
  exists s', s''. split_and!; [done|done|by rewrite Ht|]. rewrite Hl, El, Et. destruct (held_UnLock_all _ (tracked_keys (tracked_locks_ s)) Hl1) as [_ ->].
  rewrite decide_False; [by rewrite Hh1, decide_True|]. rewrite tracked_keys_elem, Hi. by intros [? ?].
Qed.
End defects.

(** Transaction 1 took a snapshot at 50, the key was written at 60, and it was then read with a shared lock and without validation. *)
Definition env1 : Env := mkEnv 10 100 100 (fun _ => Some (TransactionUtil.mkSuperVersion 0 (fun _ _ _ => (St.OK, 60, [], true)))) St.OK 101 1 None.
Definition shared_read : t (L := PointLockManager.t * nat) (B := list (option (BatchOp * Z * list Z))) :=
  set_snap (mkSnap (Some 50) false None) (set_tracked (PointLockTracker.Track (mkPointLockRequest 0 [8] 60 true false) ∅)
    (start (one_key [8] (PointLock.mkLockInfo false [1] 0), 0%nat))).
Lemma upgrade_conflict_accepted_witness : exists s',
  TryLock (fun _ => 0) (fun _ _ => 0) env1 0 [8] false true true false shared_read = Some (St.OK, s') /\
  info_exclusive <$> info (tracked_locks_ s') 0 [8] = Some true /\ held (locks s') 0 [8] = Some false.
Proof.
  eapply (upgrade_conflict_accepted (fun _ => 0) (fun _ _ => 0) env1 shared_read 0 [8] _ 50); try by vm_compute.
  apply one_key_ok; [done|]. by apply once_single.
Defined.

Lemma assume_tracked_leaks_lock_witness : exists s' s'',
  TryLock (fun _ => 0) (fun _ _ => 0) env0 0 [8] false true false true (start (other_holds, 0%nat)) = Some (St.InvalidArgument, s') /\
  Clear false (fun b => b) s' = Some (tt, s'') /\ info (tracked_locks_ s'') 0 [8] = None /\ held (locks s'') 0 [8] = Some true.
Proof.
  eapply (assume_tracked_leaks_lock (fun _ => 0) (fun _ _ => 0) false (fun b => b) env0 (start (other_holds, 0%nat)) 0 [8]); try by vm_compute.
  apply start_fresh.
Defined.
