(* ===== verification/TransactionLife.v ===== *)
(** * The life of a pessimistic transaction

    The states of a transaction as an abstract automaton: what each call may do to the state, and what it
    writes to the database. Every sequence of calls, with locks stolen between them, follows the automaton; so a
    transaction commits at most once, and never after its locks were stolen. *)

From stdpp Require Import prelude gmap.
From Stdlib Require Import ZArith Lia.
From S2P Require Import Prelude Coding Status StateMonad PreparedHeap PointLock LockTracker TrackerCounts Transaction TransactionProofs TransactionTheorems.
Import Transaction.

Section life.
Context {L B : Type} `{LockMgr L} `{Batch B} `{SeqLimit} `{Port}.
Context (timestamp_size : Z -> Z) (CompareTimestamp : list Z -> list Z -> Z) (allow_2pc : bool) (wb_InsertNoop : B -> B).
Notation t := (@Transaction.t L B).
Implicit Types (s : t) (b : B).

(** ** The calls *)

Inductive event :=
  | ETryLock (env : Env) (cf : Z) (k : list Z) (read_only exclusive do_validate assume_tracked : bool)
  | EOperate (env : Env) (o : BatchOp) (cf : Z) (k : list Z) (do_validate assume_tracked : bool)
  | EUndoGetForUpdate (cf : Z) (k : list Z)
  | ESetSavePoint
  | EPrepare (env : Env)
  | ECommit (env : Env)
  | ECommitBatch (env : Env) (b : B)
  | ERollback (env : Env)
  (** Another transaction asks for the locks. *)
  | ETryStealingLocks.
Definition call (e : event) : M t Status :=
  match e with
  | ETryLock env cf k ro ex dv at_ => TryLock timestamp_size CompareTimestamp env cf k ro ex dv at_
  | EOperate env o cf k dv at_ => Operate timestamp_size CompareTimestamp env o cf k dv at_
  | EUndoGetForUpdate cf k => UndoGetForUpdate cf k ;; mret St.OK
  | ESetSavePoint => SetSavePoint ;; mret St.OK
  | EPrepare env => Prepare env
  | ECommit env => Commit allow_2pc wb_InsertNoop env
  | ECommitBatch env b => CommitBatch env (Some b)
  | ERollback env => Rollback allow_2pc wb_InsertNoop env
  | ETryStealingLocks => r ← TryStealingLocks; mret (if (r : bool) then St.OK else St.Expired)
  end.

(** ** The automaton *)

(** What was written: a batch for the log only ([true]), or also for the memtable. *)
Notation writes := (list (bool * B)).
Definition commits (e : event) : bool := match e with ECommit _ | ECommitBatch _ _ => true | _ => false end.

Inductive life_step : event -> TransactionState -> Status -> writes -> TransactionState -> Prop :=
  (** A call that does not concern the life of the transaction, and one that is refused. *)
  | ls_none e st x : match e with ETryLock _ _ _ _ _ _ _ | EOperate _ _ _ _ _ _ | EUndoGetForUpdate _ _ | ESetSavePoint => True | _ => False end ->
      life_step e x st [] x
  | ls_refused e st x : St.ok st = false -> life_step e x st [] x
  | ls_prepare env st b : St.ok st = true -> life_step (EPrepare env) STARTED st [(true, b)] PREPARED
  | ls_prepare_fails env st : St.ok st = false -> life_step (EPrepare env) STARTED st [] AWAITING_PREPARE
  | ls_commit e st b x : commits e = true -> x = STARTED \/ (x = PREPARED /\ exists env, e = ECommit env) -> St.ok st = true ->
      life_step e x st [(false, b)] COMMITTED
  | ls_commit_fails e st x : commits e = true -> x = STARTED \/ (x = PREPARED /\ exists env, e = ECommit env) -> St.ok st = false ->
      life_step e x st [] AWAITING_COMMIT
  | ls_rollback env st b : St.ok st = true -> life_step (ERollback env) PREPARED st [(false, b)] ROLLEDBACK
  | ls_rollback_fails env st : St.ok st = false -> life_step (ERollback env) PREPARED st [] AWAITING_ROLLBACK
  (** A transaction that was not prepared can be used again. *)
  | ls_restart env st w : w = [] \/ (exists b, w = [(false, b)]) -> life_step (ERollback env) STARTED st w STARTED
  | ls_stolen st : St.ok st = true -> life_step ETryStealingLocks STARTED st [] LOCKS_STOLEN.

Inductive life_trace : list event -> TransactionState -> list (event * Status * writes) -> TransactionState -> Prop :=
  | lt_nil x : life_trace [] x [] x
  | lt_cons e es x st w y tr z : life_step e x st w y -> life_trace es y tr z -> life_trace (e :: es) x ((e, st, w) :: tr) z.

(** ** The calls follow the automaton *)

Notation state s := (txn_state_ (life s)).
Notation wr s := (written (shared s)).
Definition calm {A} (m : M t A) : Prop := forall s, wp m (fun _ s' => state s' = state s /\ wr s' = wr s) s.
Lemma calm_ret {A} (a : A) : calm (mret a).
Proof. intros s. done. Qed.
Lemma calm_gets {A} (f : t -> A) : calm (gets f).
Proof. intros s. done. Qed.
Lemma calm_modify f : (forall s, state (f s) = state s /\ wr (f s) = wr s) -> calm (modify f).
Proof. intros Hf s. apply wp_modify, Hf. Qed.
Lemma calm_bind {A C} (m : M t A) (f : A -> M t C) : calm m -> (forall a, calm (f a)) -> calm (m ≫= f).
Proof.
  intros Hm Hf s. apply wp_bind. eapply wp_mono; [apply Hm|]. intros a s1 [E1 E2]. eapply wp_mono; [apply Hf|].
  intros c s2 [F1 F2]. split; congruence.
Qed.
Lemma calm_when (c : bool) m : calm m -> calm (when c m).
Proof. intros Hm. destruct c; [apply Hm|apply calm_ret]. Qed.
Ltac calm_step := first
  [ apply calm_ret | apply calm_gets | by apply calm_modify | apply calm_bind; [|intros ?] | apply calm_when
  | match goal with |- calm (if ?c then _ else _) => destruct c end
  | match goal with |- calm (match ?c with _ => _ end) => destruct c end ].
Ltac calm := repeat calm_step.

(** A call that writes one batch if it answers OK, and otherwise none. *)
Definition wrote (d : bool) s (st : Status) s' : Prop :=
  state s' = state s /\ exists w, wr s' = wr s ++ w /\ if St.ok st then exists b, w = [(d, b)] else w = [].
Lemma wrote_calm_l d s s1 st s2 : state s1 = state s -> wr s1 = wr s -> wrote d s1 st s2 -> wrote d s st s2.
Proof. intros E1 E2 (F1 & w & F2 & Hw). split; [congruence|]. exists w. by rewrite <- E2. Qed.
Lemma wrote_calm_r d s st s1 s2 : wrote d s st s1 -> state s2 = state s1 -> wr s2 = wr s1 -> wrote d s st s2.
Proof. intros (F1 & w & F2 & Hw) E1 E2. split; [congruence|]. exists w. by rewrite E2. Qed.
Lemma wrote_none d s st s' : St.ok st = false -> state s' = state s -> wr s' = wr s -> wrote d s st s'.
Proof. intros E E1 E2. split; [done|]. exists []. by rewrite E, E2, app_nil_r. Qed.
Lemma wp_calm {A} (m : M t A) (Q : A -> t -> Prop) s : calm m -> (forall a s', state s' = state s -> wr s' = wr s -> Q a s') -> wp m Q s.
Proof. intros Hm HQ. eapply wp_mono; [apply Hm|]. intros a s' [E1 E2]. by apply HQ. Qed.

Lemma WriteImpl_wrote env b d s : wp (WriteImpl env b d) (wrote d s) s.
Proof.
  unfold WriteImpl. destruct (St.ok (write_status env)) eqn:E; cbn [when]; wp_steps.
  - split; [done|]. exists [(d, b)]. rewrite E. split; [done|by eexists].
  - by apply wrote_none.
Qed.
Lemma write_committed_wrote env b s : wp (write_committed env b) (wrote false s) s.
Proof.
  unfold write_committed. wp_steps. case_match; [wp_steps; by apply wrote_none|]. wp_steps. eapply wp_mono; [apply WriteImpl_wrote|].
  intros st s1 Hw. wp_steps. apply wp_calm; [calm|]. intros [] s2 E1 E2. wp_steps. apply wp_calm; [unfold SetId; calm|]. intros [] s3 E3 E4. wp_steps.
  eapply wrote_calm_r; [exact Hw|congruence..].
Qed.
Lemma calm_assign : calm assign_timestamp.
Proof. unfold assign_timestamp. calm. Qed.
Lemma CommitWithoutPrepareInternal_wrote env s : wp (CommitWithoutPrepareInternal env) (wrote false s) s.
Proof.
  unfold CommitWithoutPrepareInternal. wp_steps. cbv zeta. case_match; [wp_steps; by apply wrote_none|]. wp_steps.
  apply wp_calm; [calm; apply calm_assign|]. intros st s1 E1 E2. destruct (St.ok st) eqn:E; cbn [negb]; wp_steps; [|by apply wrote_none].
  eapply wp_mono; [apply write_committed_wrote|]. intros st' s2. by apply wrote_calm_l.
Qed.
Lemma CommitInternal_wrote env s : wp (CommitInternal env) (wrote false s) s.
Proof.
  unfold CommitInternal. wp_steps. cbv zeta. case_match; [wp_steps; by apply wrote_none|].
  match goal with |- context [let '(_, _) := ?e in _] => destruct e as [st wb] end. wp_steps.
  apply wp_calm; [calm; apply calm_assign|]. intros st1 s1 E1 E2. destruct (St.ok st1) eqn:E; cbn [negb]; wp_steps; [|by apply wrote_none].
  eapply wp_mono; [apply write_committed_wrote|]. intros st' s2. by apply wrote_calm_l.
Qed.
Lemma CommitBatchInternal_wrote env b s : wp (CommitBatchInternal env b) (wrote false s) s.
Proof.
  unfold CommitBatchInternal. wp_steps. eapply wp_mono; [apply WriteImpl_wrote|]. intros st s1 Hw. wp_steps.
  apply wp_calm; [unfold SetId; calm|]. intros [] s2 E1 E2. wp_steps. by eapply wrote_calm_r.
Qed.
Lemma RollbackInternal_wrote env s : wp (RollbackInternal env) (wrote false s) s.
Proof. unfold RollbackInternal. wp_steps. apply WriteImpl_wrote. Qed.
Lemma PrepareInternal_wrote env s : wp (PrepareInternal env) (wrote true s) s.
Proof.
  unfold PrepareInternal. wp_steps. eapply wp_mono; [apply WriteImpl_wrote|]. intros st s1 Hw. wp_steps.
  apply wp_calm; [unfold MarkLogAsContainingPrepSection; calm|]. intros [] s2 E1 E2. wp_steps.
  eapply wrote_calm_r; [|done..]. eapply wrote_calm_l; [..|exact Hw]; done.
Qed.
Lemma calm_Clear : calm (Clear allow_2pc wb_InsertNoop).
Proof. unfold Clear, Clear_base, UnLock_tracker, InitWriteBatch. calm. Qed.

Definition follows (e : event) s (st : Status) s' : Prop := exists w, wr s' = wr s ++ w /\ life_step e (state s) st w (state s').
Lemma follows_calm (e : event) s st s' : state s' = state s -> wr s' = wr s -> life_step e (state s) st [] (state s) -> follows e s st s'.
Proof. intros E1 E2 Hs. exists []. by rewrite E1, E2, app_nil_r. Qed.

Lemma calm_IsExpired env : calm (IsExpired env).
Proof. unfold IsExpired. calm. Qed.
Lemma cas_started_wp y s : wp (cas_started y) (fun r s' => wr s' = wr s /\ (if (r : bool) then state s = STARTED /\ state s' = y else state s' = state s)) s.
Proof. unfold cas_started, get_state, store. wp_steps. case_decide; wp_steps; by split. Qed.

Lemma Prepare_follows env s : wp (Prepare env) (follows (EPrepare env) s) s.
Proof.
  unfold Prepare, get_state, store. wp_steps. case_decide; [wp_steps; by apply follows_calm, ls_refused|]. wp_steps.
  apply wp_calm; [apply calm_IsExpired|]. intros [] s1 E1 E2; wp_steps; [by apply follows_calm, ls_refused|].
  eapply (wp_mono _ (fun r s' => wr s' = wr s1 /\ (if (r : bool) then state s1 = STARTED /\ state s' = AWAITING_PREPARE else state s' = state s1))).
  { destruct (0 <? expiration_time_ (life s1)); [apply cas_started_wp|]. wp_steps. case_decide; wp_steps; by split. }
  intros r s2 [E3 Hr]. destruct r; [|wp_steps; apply follows_calm; [congruence..|]; apply ls_refused; by case_decide].
  destruct Hr as [E4 E5]. wp_steps. eapply wp_mono; [apply PrepareInternal_wrote|]. intros st s3 (E6 & w & E7 & Hw). wp_steps.
  txn_fields. cbn in E6, E7. destruct (St.ok st) eqn:Est; cbn [when]; wp_steps; exists w; (split; [cbn; congruence|]); rewrite <- E1, E4.
  - destruct Hw as [b ->]. by constructor.
  - subst w. rewrite E6, E5. by constructor.
Qed.

(** The rest of a commit once the batch was handed to the database. *)
Lemma committing (e : event) s x st s1 w s' : commits e = true -> x = STARTED \/ (x = PREPARED /\ exists env, e = ECommit env) -> state s = x ->
  wr s1 = wr s ++ w -> (if St.ok st then exists b, w = [(false, b)] else w = []) ->
  wr s' = wr s1 -> state s' = (if St.ok st then COMMITTED else AWAITING_COMMIT) -> follows e s st s'.
Proof.
  intros He Hx <- E1 Hw E2 E3. exists w. split; [congruence|]. rewrite E3. destruct (St.ok st) eqn:Est; [destruct Hw as [b ->]; by constructor|subst; by constructor].
Qed.

Lemma calm_Flushed log : calm (MarkLogAsHavingPrepSectionFlushed log).
Proof. unfold MarkLogAsHavingPrepSectionFlushed. calm. Qed.
Lemma calm_Unregister : calm UnregisterTransaction.
Proof. unfold UnregisterTransaction. calm. Qed.
Lemma store_wp y (Q : unit -> t -> Prop) s : (forall s', state s' = y -> wr s' = wr s -> Q tt s') -> wp (store y) Q s.
Proof. intros HQ. unfold store. apply wp_modify. by apply HQ. Qed.

Lemma commit_unprepared env s s2 log (named : bool) : state s = STARTED -> wr s2 = wr s ->
  wp (store AWAITING_COMMIT ;; when (0 <? log) (MarkLogAsHavingPrepSectionFlushed log) ;; st ← CommitWithoutPrepareInternal env;
      when named UnregisterTransaction ;; Clear allow_2pc wb_InsertNoop ;; when (St.ok st) (store COMMITTED) ;; mret st) (follows (ECommit env) s) s2.
Proof.
  intros Es E0. apply wp_bind, store_wp. intros s3 E1 E2. apply wp_bind, wp_calm; [apply calm_when, calm_Flushed|]. intros [] s4 E3 E4.
  apply wp_bind. eapply wp_mono; [apply CommitWithoutPrepareInternal_wrote|]. intros st s5 (E5 & w & E6 & Hw).
  apply wp_bind, wp_calm; [apply calm_when, calm_Unregister|]. intros [] s6 E7 E8. apply wp_bind, wp_calm; [apply calm_Clear|]. intros [] s7 E9 E10.
  assert (Hfin : forall s', wr s' = wr s7 -> state s' = (if St.ok st then COMMITTED else AWAITING_COMMIT) -> follows (ECommit env) s st s').
  { intros s' F1 F2. apply (committing _ _ STARTED _ s5 w); [done|by left|done|congruence|done|congruence|done]. }
  apply wp_bind. destruct (St.ok st); cbn [when].
  - apply store_wp. intros s8 E11 E12. apply wp_ret. by apply Hfin.
  - apply wp_ret, wp_ret, Hfin; [done|congruence].
Qed.
Lemma commit_prepared env s s2 : state s = PREPARED -> wr s2 = wr s ->
  wp (store AWAITING_COMMIT ;; st ← CommitInternal env;
      if negb (St.ok st) then mret st
      else log ← gets (fun s => log_number_ (life s)); MarkLogAsHavingPrepSectionFlushed log ;; UnregisterTransaction ;;
           Clear allow_2pc wb_InsertNoop ;; store COMMITTED ;; mret st) (follows (ECommit env) s) s2.
Proof.
  intros Es E0. apply wp_bind, store_wp. intros s3 E1 E2. apply wp_bind. eapply wp_mono; [apply CommitInternal_wrote|]. intros st s5 (E5 & w & E6 & Hw).
  assert (Hfin : forall s', wr s' = wr s5 -> state s' = (if St.ok st then COMMITTED else AWAITING_COMMIT) -> follows (ECommit env) s st s').
  { intros s' F1 F2. apply (committing _ _ PREPARED _ s5 w); [done|right; by eauto|done|congruence|done|congruence|done]. }
  destruct (St.ok st); cbn [negb]; [|apply wp_ret, Hfin; [done|congruence]].
  apply wp_bind, wp_calm; [apply calm_gets|]. intros log s6 E7 E8. apply wp_bind, wp_calm; [apply calm_Flushed|]. intros [] s7 E9 E10.
  apply wp_bind, wp_calm; [apply calm_Unregister|]. intros [] s8 E11 E12. apply wp_bind, wp_calm; [apply calm_Clear|]. intros [] s9 E13 E14.
  apply wp_bind, store_wp. intros s10 E15 E16. apply wp_ret, Hfin; congruence.
Qed.

Lemma Commit_follows env s : wp (Commit allow_2pc wb_InsertNoop env) (follows (ECommit env) s) s.
Proof.
  unfold Commit, get_state. wp_steps. apply wp_calm; [apply calm_IsExpired|]. intros [] s1 E1 E2; wp_steps; [by apply follows_calm, ls_refused|].
  cbv zeta. unfold id. eapply (wp_mono _ (fun r s' => wr s' = wr s1 /\ match r with
    | inl st => St.ok st = false /\ state s' = state s1
    | inr (true, _) => state s1 = STARTED /\ (state s' = STARTED \/ state s' = AWAITING_COMMIT)
    | inr (false, true) => state s1 = PREPARED /\ state s' = PREPARED
    | inr (false, false) => state s' = state s1
    end)).
  { destruct (0 <? expiration_time_ (life s1)).
    - wp_steps. eapply wp_mono; [apply cas_started_wp|]. intros r s' [E3 Hr]. wp_steps. split; [done|]. destruct r; [|done]. destruct Hr. by split; [|right].
    - repeat case_decide; wp_steps; [done| |done]. destruct (skip_prepare_ (life s1)); split; [done|by split; [|left]|done|done]. }
  intros r s2 [E3 Hr]. destruct r as [st|[[] pr]]; [wp_steps; destruct Hr; apply follows_calm; [congruence..|by apply ls_refused]| |].
  - destruct Hr as [E4 E5]. destruct (0 <? wb_Count _); [|apply commit_unprepared; congruence]. apply wp_ret. exists []. rewrite app_nil_r.
    split; [congruence|]. rewrite <- E1, E4. destruct E5 as [E5|E5]; rewrite E5; [by apply ls_refused|apply ls_commit_fails; [done|by left|done]].
  - destruct pr; [apply commit_prepared; destruct Hr; congruence|]. wp_steps. apply follows_calm; [congruence..|]. apply ls_refused. by case_decide.
Qed.

Lemma Rollback_follows env s : wp (Rollback allow_2pc wb_InsertNoop env) (follows (ERollback env) s) s.
Proof.
  unfold Rollback, get_state. wp_steps. destruct (decide (state s = PREPARED)) as [Es|]; [|destruct (decide (state s = STARTED)) as [Es|]].
  - apply wp_bind, store_wp. intros s1 E1 E2. apply wp_bind. eapply wp_mono; [apply RollbackInternal_wrote|]. intros st s2 (E3 & w & E4 & Hw).
    destruct (St.ok st) eqn:Est; cbn [when]; wp_steps.
    + apply wp_calm; [apply calm_Flushed|]. intros [] s3 E5 E6. wp_steps. apply wp_calm; [apply calm_Clear|]. intros [] s4 E7 E8. apply store_wp. intros s5 E9 E10.
      apply wp_ret. exists w. split; [congruence|]. rewrite Es, E9. destruct Hw as [b ->]. by constructor.
    + exists w. split; [congruence|]. rewrite Es, E3, E1. subst. by constructor.
  - apply wp_bind. eapply (wp_mono _ (fun st s' => state s' = state s /\ exists w, wr s' = wr s ++ w /\ (w = [] \/ exists b, w = [(false, b)]))).
    { destruct (0 <? _); [|wp_steps; split; [done|]; exists []; rewrite app_nil_r; by split; [|left]].
      apply wp_bind. eapply wp_mono; [apply RollbackInternal_wrote|]. intros st s1 (E1 & w & E2 & Hw). apply wp_bind, wp_calm; [apply calm_when, calm_Flushed|].
      intros [] s2 E3 E4. apply wp_ret. split; [congruence|]. exists w. split; [congruence|]. destruct (St.ok st); [by right|by left]. }
    intros st s1 (E1 & w & E2 & Hw). apply wp_bind, wp_calm; [apply calm_Clear|]. intros [] s2 E3 E4. apply wp_ret. exists w. split; [congruence|].
    rewrite E3, E1, Es. by constructor.
  - wp_steps. by apply follows_calm, ls_refused.
Qed.

Lemma calm_lock_keys keys : forall tr, calm (lock_keys keys tr).
Proof.
  induction keys as [|[cf k] keys IH]; intros tr; cbn [lock_keys]; [apply calm_ret|]. unfold db_TryLock.
  calm; first [apply IH|match goal with |- calm (let '(_, _) := ?e in _) => destruct e end; calm].
Qed.
Lemma calm_LockBatch b : calm (LockBatch (Some b)).
Proof. unfold LockBatch, UnLock_tracker. destruct (wb_Keys b) as [st keys]. calm. apply calm_lock_keys. Qed.
Lemma CommitBatch_follows env b s : wp (CommitBatch env (Some b)) (follows (ECommitBatch env b) s) s.
Proof.
  unfold CommitBatch, get_state. destruct (wb_HasKeyWithTimestamp b); [wp_steps; by apply follows_calm, ls_refused|].
  apply wp_bind, wp_calm; [apply calm_LockBatch|]. intros [st0 tr] s1 E1 E2. cbn [fst snd]. destruct (St.ok st0) eqn:Est0; cbn [negb]; [|wp_steps; by apply follows_calm, ls_refused].
  apply wp_bind, wp_calm; [apply calm_IsExpired|]. intros expired s2 E3 E4. wp_steps.
  eapply (wp_mono _ (fun r s' => wr s' = wr s2 /\ (if (r : bool) then state s2 = STARTED else state s' = state s2))).
  { destruct expired; [by wp_steps|]. destruct (0 <? _).
    - eapply wp_mono; [apply cas_started_wp|]. intros r s' [F1 F2]. split; [done|]. destruct r; [apply F2|done].
    - wp_steps. by case_bool_decide. }
  intros r s3 [E5 Hr]. apply wp_bind. eapply (wp_mono _ (fun st s' => follows (ECommitBatch env b) s st s')).
  - destruct r; [|wp_steps; apply follows_calm; [congruence..|]; apply ls_refused; by case_decide].
    apply wp_bind, store_wp. intros s4 E6 E7. wp_steps. eapply wp_of_option; [done|]. apply wp_bind. eapply wp_mono; [apply CommitBatchInternal_wrote|].
    intros st s5 (E8 & w & E9 & Hw). assert (Hfin : forall s', wr s' = wr s5 -> state s' = (if St.ok st then COMMITTED else AWAITING_COMMIT) -> follows (ECommitBatch env b) s st s').
    { intros s' F1 F2. apply (committing _ _ STARTED _ s5 w); [done|by left|congruence|congruence|done|congruence|done]. }
    destruct (St.ok st); cbn [when]; wp_steps; [apply store_wp; intros s6 E10 E11; apply wp_ret, Hfin; congruence|apply Hfin; congruence].
  - intros st s4 (w & F1 & F2). unfold UnLock_tracker. wp_steps. by exists w.
Qed.

Lemma calm_TryLock env cf k ro ex dv at_ : calm (TryLock timestamp_size CompareTimestamp env cf k ro ex dv at_).
Proof.
  unfold TryLock, db_TryLock, db_UnLock, SetSnapshotIfNeeded, SetSnapshot, SetSnapshotInternal, TrackKey.
  repeat first [calm_step|progress cbv zeta|match goal with |- calm (let '(_, _) := ?e in _) => destruct e end].
Qed.
Lemma calm_Operate env o cf k dv at_ : calm (Operate timestamp_size CompareTimestamp env o cf k dv at_).
Proof.
  unfold Operate. apply calm_bind; [apply calm_TryLock|intros st].
  repeat first [calm_step|match goal with |- calm (let '(_, _) := ?e in _) => destruct e end].
Qed.
Lemma calm_Undo cf k : calm (UndoGetForUpdate cf k).
Proof.
  unfold UndoGetForUpdate, db_UnLock.
  repeat first [calm_step|progress cbv zeta|match goal with |- calm (let '(_, _) := ?e in _) => destruct e end].
Qed.

Lemma call_follows (e : event) s : wp (call e) (follows e s) s.
Proof.
  destruct e; cbn [call].
  - apply wp_calm; [apply calm_TryLock|]. intros st s' E1 E2. by apply follows_calm, ls_none.
  - apply wp_calm; [apply calm_Operate|]. intros st s' E1 E2. by apply follows_calm, ls_none.
  - apply wp_bind, wp_calm; [apply calm_Undo|]. intros [] s' E1 E2. apply wp_ret. by apply follows_calm, ls_none.
  - unfold SetSavePoint. wp_steps. by apply follows_calm, ls_none.
  - apply Prepare_follows.
  - apply Commit_follows.
  - apply CommitBatch_follows.
  - apply Rollback_follows.
  - unfold TryStealingLocks. apply wp_bind. eapply wp_mono; [apply cas_started_wp|]. intros [] s' [E1 Hs]; apply wp_ret.
    + destruct Hs as [E2 E3]. exists []. rewrite app_nil_r, E2, E3. split; [done|by constructor].
    + by apply follows_calm, ls_refused.
Qed.

(** ** Sequences of calls *)

Fixpoint calls (es : list event) : M t (list Status) :=
  match es with
  | [] => mret []
  | e :: es => st ← call e; sts ← calls es; mret (st :: sts)
  end.
Definition committed (x : event * Status * writes) : bool := commits x.1.1 && St.ok x.1.2.
Definition written_by (tr : list (event * Status * writes)) : writes := concat (map snd tr).

Lemma calls_follow es : forall s, wp (calls es) (fun sts s' => exists tr, life_trace es (state s) tr (state s') /\
  map (fun x => x.1.2) tr = sts /\ wr s' = wr s ++ written_by tr) s.
Proof.
  induction es as [|e es IH]; intros s; cbn [calls].
  - apply wp_ret. exists []. split_and!; [constructor|done|by rewrite app_nil_r].
  - apply wp_bind. eapply wp_mono; [apply call_follows|]. intros st s1 (w & E1 & Hs). apply wp_bind. eapply wp_mono; [apply IH|].
    intros sts s2 (tr & Ht & <- & E2). apply wp_ret. exists ((e, st, w) :: tr). split_and!; [by econstructor|done|]. unfold written_by. cbn. by rewrite E2, E1, app_assoc.
Qed.

(** In the other states nothing happens any more. *)
Lemma life_over e x st w y : life_step e x st w y -> x <> STARTED -> x <> PREPARED -> y = x /\ w = [] /\ (commits e = true -> St.ok st = false) /\
  (e = ETryStealingLocks -> St.ok st = false).
Proof.
  intros Hs H1' H2'. destruct Hs as [e st x He|e st x He| | |e st b x _ [|[]]|e st x _ [|[]]| | | |]; try done.
  split_and!; [done..| |]; destruct e; done.
Qed.
Lemma trace_over es x tr z : life_trace es x tr z -> x <> STARTED -> x <> PREPARED ->
  z = x /\ written_by tr = [] /\ filter committed tr = [] /\ Forall (fun y => y.1.1 = ETryStealingLocks -> St.ok y.1.2 = false) tr.
Proof.
  induction 1 as [|e es x st w y tr z Hs Ht IH]; intros H1' H2'; [by split_and!|]. destruct (life_over _ _ _ _ _ Hs H1' H2') as (-> & -> & Hc & Hst).
  destruct (IH H1' H2') as (-> & Hw & Hf & Hall). split_and!; [done|done| |by constructor]. rewrite filter_cons_False; [done|]. unfold committed. cbn. destruct (commits e); [rewrite Hc by done|]; by intros [].
Qed.

Lemma trace_commits es x tr z : life_trace es x tr z -> x <> COMMITTED -> length (filter committed tr) = if decide (z = COMMITTED) then 1%nat else 0%nat.
Proof.
  induction 1 as [x|e es x st w y tr z Hs Ht IH]; intros Hx; [by rewrite decide_False|].
  destruct (decide (y = COMMITTED)) as [->|Hy].
  - destruct (trace_over _ _ _ _ Ht) as (-> & _ & Hf & _); [done..|]. rewrite decide_True by done. inversion Hs; subst; try done.
    rewrite filter_cons_True; [by rewrite Hf|]. unfold committed. cbn. by apply andb_True; split; apply Is_true_true.
  - rewrite <- IH by done. rewrite filter_cons_False; [done|]. unfold committed. cbn. destruct (commits e) eqn:Ec; [|by intros []]. destruct (St.ok st) eqn:Est; [|by intros []].
    destruct Hs as [e st x He| | | | | | | | |]; try congruence; try done. by destruct e.
Qed.

Lemma life_trace_split pre x post es a z : life_trace es a (pre ++ x :: post) z ->
  exists es1 e es2 y c, es = es1 ++ e :: es2 /\ x.1.1 = e /\ life_trace es1 a pre y /\ life_step e y x.1.2 x.2 c /\ life_trace es2 c post z.
Proof.
  revert es a. induction pre as [|y pre IH]; intros es a Ht; inversion Ht as [|e es0 a0 st w b tr z0 Hs Ht']; subst.
  - by exists [], e, es0, a, b; split_and!; [done..|constructor|done|done].
  - destruct (IH _ _ Ht') as (es1 & e' & es2 & b' & c & -> & E & H1' & H2' & H3'). exists (e :: es1), e', es2, b', c. split_and!; [done..|by econstructor|done|done].
Qed.

(** C17: Whatever of locking, writing, undoing reads, setting save points, preparing, committing, committing a batch and rolling back is called on a transaction
    that has started, in whatever order, and whenever other transactions try to steal its locks, all calls are defined, and its state and what is written to the database follow
    the automaton. At most one commit answers OK, and one does exactly if the transaction ends up [COMMITTED]; after it nothing is written
    any more. If its locks were stolen, the state stays [LOCKS_STOLEN], nothing is written any more, and no commit answers OK. *)
Theorem transaction_life_cycle es s : state s = STARTED ->
  exists sts s' tr, calls es s = Some (sts, s') /\ life_trace es STARTED tr (state s') /\
    map (fun x => x.1.2) tr = sts /\ wr s' = wr s ++ written_by tr /\
    length (filter committed tr) = (if decide (state s' = COMMITTED) then 1%nat else 0%nat) /\
    (forall pre x post, tr = pre ++ x :: post -> committed x = true -> (exists b, x.2 = [(false, b)]) /\ written_by post = []) /\
    (forall pre x post, tr = pre ++ x :: post -> x.1.1 = ETryStealingLocks -> St.ok x.1.2 = true ->
       state s' = LOCKS_STOLEN /\ written_by post = [] /\ filter committed tr = []).
Proof.
  intros Es. destruct (wp_run _ _ _ (calls_follow es s)) as (sts & s' & E & tr & Ht & Em & Ew). rewrite Es in Ht.
  pose proof (trace_commits _ _ _ _ Ht ltac:(done)) as Hlen. exists sts, s', tr. split_and!; [done..| |].
  - intros pre x post -> Hx. destruct (life_trace_split _ _ _ _ _ _ Ht) as (_ & e & es2 & y & c & _ & Ex & _ & Hs & Hpost). apply andb_true_iff in Hx as [Hc Hok]. rewrite Ex in Hc.
    destruct Hs as [e st ? He|e st| | |e st b ? _ _ _| | | | |]; try congruence; try done; [by destruct e|]. split; [by eexists|]. by apply (trace_over _ _ _ _ Hpost).
  - intros pre x post -> Hx Hok. destruct (life_trace_split _ _ _ _ _ _ Ht) as (_ & e & es2 & y & c & _ & Ex & _ & Hs & Hpost). rewrite Hx in Ex. subst e.
    assert (c = LOCKS_STOLEN) as ->. { inversion Hs; subst; try done; congruence. }
    destruct (trace_over _ _ _ _ Hpost) as (Ez & Hw & _ & _); [done..|]. split_and!; [done|done|]. apply nil_length_inv. rewrite Hlen, Ez. done.
Qed.

End life.

Lemma transaction_life_cycle_witness : exists sts s' tr,
  calls (fun _ => 0) (fun _ _ => 0) false (fun b => b) [EOperate env0 (BPut [1]) 0 [8] true false; ECommit env0; ETryStealingLocks; ECommit env0]
    (start (other_holds, 0%nat)) = Some (sts, s') /\
  life_trace [EOperate env0 (BPut [1]) 0 [8] true false; ECommit env0; ETryStealingLocks; ECommit env0] STARTED tr (txn_state_ (life s')) /\
  map (fun x => x.1.2) tr = sts /\ written (shared s') = [] ++ written_by tr /\
  length (filter committed tr) = (if decide (txn_state_ (life s') = COMMITTED) then 1%nat else 0%nat) /\
  (forall pre x post, tr = pre ++ x :: post -> committed x = true -> (exists b, x.2 = [(false, b)]) /\ written_by post = []) /\
  (forall pre x post, tr = pre ++ x :: post -> x.1.1 = ETryStealingLocks -> St.ok x.1.2 = true ->
     txn_state_ (life s') = LOCKS_STOLEN /\ written_by post = [] /\ filter committed tr = []).
Proof.
  apply (transaction_life_cycle (fun _ => 0) (fun _ _ => 0) false (fun b => b) _ (start (other_holds, 0%nat))). done.
Defined.

