(* ===== verification/Optimistic.v ===== *)
(** * Optimistic transactions (utilities/transactions/optimistic_transaction.cc, optimistic_transaction_db_impl.h)

    [OptimisticTransaction] on top of [TransactionBaseImpl]: keys are tracked, not locked, and
    checked for conflicts when the transaction commits, on the writer thread or under the locks of the keys' buckets. The commits of
    many transactions, with the steps of the second policy apart, are a transition system. *)

From stdpp Require Import prelude gmap.
From Stdlib Require Import ZArith Lia.
From S2P Require Import Prelude Coding Math Status StateMonad PreparedHeap PointLock LockTracker Transaction.

Inductive OccValidationPolicy := kValidateSerial | kValidateParallel.

(** [UnlockGetForUpdate] does nothing: there are no locks. *)
#[export] Instance no_locks : LockMgr unit := {
  lm_TryLock _ _ _ l := (St.OK, l);
  lm_UnLock _ _ l := l;
}.

Module OptimisticTransaction.
Section occ.
Context {B : Type} `{Batch B} `{SeqLimit}.
Context (allow_2pc : bool) (wb_InsertNoop : B -> B) (GetSliceNPHash64 : list Z -> Z).
Notation t := (@Transaction.t unit B).

(** ** One transaction *)

Definition Clear : M t unit := Transaction.Clear_base allow_2pc wb_InsertNoop.
Definition Initialize (env : Env) (set_snapshot : bool) : M t unit := when set_snapshot (Transaction.SetSnapshot env).
Definition Reinitialize (env : Env) (set_snapshot : bool) : M t unit :=
  Clear ;;
  Transaction.ClearSnapshot ;;
  modify (fun s => Transaction.set_life (Transaction.mkLife (Transaction.txn_state_ (Transaction.life s)) (Transaction.expiration_time_ (Transaction.life s)) [] 0 0
    (Transaction.txn_id_ (Transaction.life s)) (Transaction.skip_prepare_ (Transaction.life s)) (Transaction.skip_concurrency_control_ (Transaction.life s))) s) ;;
  modify (Transaction.set_indexing true) ;;
  Initialize env set_snapshot.
Definition Prepare : M t Status := mret St.InvalidArgument.
Definition SetName (name : list Z) : M t Status := mret St.InvalidArgument.
Definition Rollback : M t Status := Clear ;; mret St.OK.

(** The sequence number a key is tracked at. *)
Definition track_seq (env : Env) (s : t) : Z :=
  match Transaction.snapshot_ (Transaction.snap s) with Some seq => seq | None => GetLatestSequenceNumber env end.
Definition TryLock (env : Env) (cf : Z) (key : list Z) (read_only exclusive do_validate : bool) : M t Status :=
  if negb do_validate then mret St.OK
  else
    Transaction.SetSnapshotIfNeeded env ;;
    seq ← gets (track_seq env);
    Transaction.TrackKey cf key seq read_only exclusive ;;
    mret St.OK.

(** [Put], [Delete], [SingleDelete] and [Merge], and their untracked variants. *)
Definition Operate (env : Env) (op : BatchOp) (cf : Z) (key : list Z) (do_validate : bool) : M t Status :=
  st ← TryLock env cf key false true do_validate;
  if negb (St.ok st) then mret st
  else
    b ← gets Transaction.write_batch_;
    let '(st, b) := wb_Operate op cf key b in
    modify (Transaction.set_batch b) ;;
    when (St.ok st) (modify (fun s => Transaction.set_nums (Transaction.count_op op (Transaction.nums s)) s)) ;;
    mret st.

Definition CheckTransactionForConflicts (env : Env) : M t Status :=
  c ← gets (fun s => TransactionUtil.CheckKeysForConflicts (super_version env) (Transaction.tracked_locks_ s) true);
  of_option c.
(** [WriteWithCallback] writes if the callback answers OK. *)
Definition CommitWithSerialValidate (env : Env) : M t Status :=
  c ← CheckTransactionForConflicts env;
  st ← (if negb (St.ok c) then mret c else b ← gets Transaction.write_batch_; Transaction.WriteImpl env b false);
  when (St.ok st) Clear ;; mret st.

(** *** The buckets of the keys *)

Definition GetLockBucketsSize (occ_lock_buckets : Z) : Z := Z.max 16 occ_lock_buckets.
(** Insertion into a [std::set]. *)
Fixpoint set_insert (x : Z) (l : list Z) : list Z :=
  match l with
  | [] => [x]
  | y :: l' => if x <? y then x :: l else if x =? y then l else y :: set_insert x l'
  end.
Definition bucket_of (space : Z) (key : list Z) : Z := FastRange64 (GetSliceNPHash64 key) space.
Definition lk_idxes (space : Z) (tracked : PointLockTracker.t) : list Z :=
  foldl (fun l ck => set_insert (bucket_of space ck.2) l) [] (tracked_keys tracked).

(** What follows once it has locked the buckets [lk_idxes], which are released where it returns. The locks themselves, and other
    threads between the check and the write, are in [step]. *)
Definition CommitWithParallelValidate (env : Env) : M t Status :=
  c ← CheckTransactionForConflicts env;
  if negb (St.ok c) then mret c
  else
    b ← gets Transaction.write_batch_;
    st ← Transaction.WriteImpl env b false;
    when (St.ok st) Clear ;; mret st.

Definition Commit (policy : OccValidationPolicy) (env : Env) : M t Status :=
  match policy with
  | kValidateParallel => CommitWithParallelValidate env
  | kValidateSerial => CommitWithSerialValidate env
  end.

(** ** Many transactions *)

(** A record of the database: its sequence number, its column family and its key. *)
Definition record : Type := Z * Z * list Z.
(** What a read of the key at a sequence number finds: the newest record that is not above it. *)
Definition version (hist : list record) (seq cf : Z) (key : list Z) : option Z :=
  foldl (fun o r => if bool_decide (r.1.2 = cf /\ r.2 = key /\ r.1.1 <= seq) then Some (Z.max (default (r.1.1) o) (r.1.1)) else o) None hist.

Inductive phase :=
  | Idle
  (** In [CommitWithParallelValidate]: the locks of some buckets are held, others are to be taken. *)
  | Locking (held todo : list Z)
  (** The keys were checked, the batch is not written yet. *)
  | Validated (held : list Z).
(** [accesses]: the keys that were accessed with validation since the transaction was last cleared, each with the sequence number it was accessed at. *)
Record thread := mkThread { txn : t; ph : phase; accesses : list record }.
Record sys := mkSys { hist : list record; latest : Z; buckets : gmap Z nat; threads : list thread }.

(** What the database tells a transaction is true: its latest sequence number, and of every key a record that is
    not older than any that is in the memtables (those above their earliest sequence number, the largest before they were created) and
    above the lower bound. *)
Record sees (env : Env) (h : list record) (last : Z) : Prop := {
  see_latest : GetLatestSequenceNumber env = last;
  see_snapshot : snapshot_now env = last;
  see_record cf sv key cache_only lower st seq ts found seq' : super_version env cf = Some sv ->
    TransactionUtil.GetLatestSequenceForKey sv key cache_only lower = (st, seq, ts, found) ->
    St.ok st || TransactionUtil.is_code kNotFound st || TransactionUtil.is_code kMergeInProgress st = true ->
    (seq', cf, key) ∈ h -> lower < seq' -> TransactionUtil.earliest_seq sv < seq' -> found = true /\ seq' <= seq;
}.

Inductive user_op :=
  | UTryLock (cf : Z) (key : list Z) (read_only exclusive do_validate : bool)
  | UOperate (op : BatchOp) (cf : Z) (key : list Z) (do_validate : bool)
  | USetSnapshot
  | URollback.
Definition run_user (env : Env) (o : user_op) : M t Status :=
  match o with
  | UTryLock cf key ro ex dv => TryLock env cf key ro ex dv
  | UOperate op cf key dv => Operate env op cf key dv
  | USetSnapshot => Transaction.SetSnapshot env ;; mret St.OK
  | URollback => Rollback
  end.
(** The access a call makes, at the sequence number its transaction then reads at. *)
Definition accesses_of (env : Env) (o : user_op) (t' : t) (l : list record) : list record :=
  match o with
  | UTryLock cf key _ _ true | UOperate _ cf key true => (track_seq env t', cf, key) :: l
  | URollback => []
  | _ => l
  end.

(** Records of the keys are written, above the last sequence number. *)
Definition appended (s : sys) (keys : list (Z * list Z)) (recs : list record) (latest' : Z) : Prop :=
  Forall (fun r => latest s < r.1.1 <= latest' /\ (r.1.2, r.2) ∈ keys) recs /\
  Forall (fun ck => exists seq, (seq, ck.1, ck.2) ∈ recs) keys /\ latest s <= latest'.
Definition batch_keys (t0 : t) : list (Z * list Z) := wb_Written (Transaction.write_batch_ t0).
Definition release (held : list Z) (m : gmap Z nat) : gmap Z nat := foldl (fun m b => base.delete b m) m held.
Definition with_thread (i : nat) (th : thread) (s : sys) : sys := mkSys (hist s) (latest s) (buckets s) (<[i := th]> (threads s)).

(** What happens, and who commits ([Some i]). [strict]: all writes are those of tracked keys of transactions, there are neither
    untracked writes nor writes outside transactions. *)
Inductive step (policy : OccValidationPolicy) (strict : bool) (space : Z) : option nat -> sys -> sys -> Prop :=
  | st_user s i th env o st t' :
      threads s !! i = Some th -> ph th = Idle -> sees env (hist s) (latest s) ->
      (strict = true -> match o with UOperate _ _ _ dv => dv = true | _ => True end) ->
      run_user env o (txn th) = Some (st, t') ->
      step policy strict space None s (with_thread i (mkThread t' Idle (accesses_of env o t' (accesses th))) s)
  | st_outside s keys recs latest' : strict = false -> appended s keys recs latest' ->
      step policy strict space None s (mkSys (hist s ++ recs) latest' (buckets s) (threads s))
  | st_serial_fails s i th env st t' : policy = kValidateSerial ->
      threads s !! i = Some th -> ph th = Idle -> sees env (hist s) (latest s) ->
      CommitWithSerialValidate env (txn th) = Some (st, t') -> St.ok st = false ->
      step policy strict space None s (with_thread i (mkThread t' Idle (accesses th)) s)
  | st_serial s i th env st t' recs latest' : policy = kValidateSerial ->
      threads s !! i = Some th -> ph th = Idle -> sees env (hist s) (latest s) ->
      CommitWithSerialValidate env (txn th) = Some (st, t') -> St.ok st = true ->
      appended s (batch_keys (txn th)) recs latest' ->
      step policy strict space (Some i) s (mkSys (hist s ++ recs) latest' (buckets s) (<[i := mkThread t' Idle []]> (threads s)))
  (** [CommitWithParallelValidate] *)
  | st_begin s i th : policy = kValidateParallel -> threads s !! i = Some th -> ph th = Idle ->
      step policy strict space None s (with_thread i (mkThread (txn th) (Locking [] (lk_idxes space (Transaction.tracked_locks_ (txn th)))) (accesses th)) s)
  | st_lock s i th held b todo : threads s !! i = Some th -> ph th = Locking held (b :: todo) -> buckets s !! b = None ->
      step policy strict space None s
        (mkSys (hist s) (latest s) (<[b := i]> (buckets s)) (<[i := mkThread (txn th) (Locking (held ++ [b]) todo) (accesses th)]> (threads s)))
  | st_validate s i th held env st t' : threads s !! i = Some th -> ph th = Locking held [] -> sees env (hist s) (latest s) ->
      CheckTransactionForConflicts env (txn th) = Some (st, t') -> St.ok st = true ->
      step policy strict space None s (with_thread i (mkThread t' (Validated held) (accesses th)) s)
  | st_conflict s i th held env st t' : threads s !! i = Some th -> ph th = Locking held [] -> sees env (hist s) (latest s) ->
      CheckTransactionForConflicts env (txn th) = Some (st, t') -> St.ok st = false ->
      step policy strict space None s
        (mkSys (hist s) (latest s) (release held (buckets s)) (<[i := mkThread t' Idle (accesses th)]> (threads s)))
  | st_write s i th held t' recs latest' : threads s !! i = Some th -> ph th = Validated held ->
      Clear (txn th) = Some (tt, t') -> appended s (batch_keys (txn th)) recs latest' ->
      step policy strict space (Some i) s
        (mkSys (hist s ++ recs) latest' (release held (buckets s)) (<[i := mkThread t' Idle []]> (threads s)))
  | st_write_fails s i th held : threads s !! i = Some th -> ph th = Validated held ->
      step policy strict space None s
        (mkSys (hist s) (latest s) (release held (buckets s)) (<[i := mkThread (txn th) Idle (accesses th)]> (threads s))).

End occ.
End OptimisticTransaction.
