(* ===== verification/OptimisticProofs.v ===== *)
(** * What the validation of optimistic transactions guarantees

    A commit that answers OK has read nothing that was changed since, with validation on the writer thread always, and with
    validation under bucket locks if all writes are tracked writes of transactions; and taking the bucket locks does not deadlock. *)

From stdpp Require Import prelude gmap sorting.
From Stdlib Require Import ZArith Lia.
From S2P Require Import Prelude Coding Math Status StateMonad PreparedHeap PointLock LockTracker TrackerCounts Transaction TransactionProofs TransactionTheorems Optimistic.
Import OptimisticTransaction.

(** ** Sorted sets of buckets *)

Lemma set_insert_elem x y l : y ∈ set_insert x l <-> y = x \/ y ∈ l.
Proof.
  induction l as [|z l IH]; cbn [set_insert]; [by rewrite list_elem_of_singleton, elem_of_nil; tauto|].
  destruct (Z.ltb_spec x z); [set_solver|]. destruct (Z.eqb_spec x z); [set_solver|]. rewrite !elem_of_cons, IH. tauto.
Qed.
Lemma set_insert_sorted x l : StronglySorted Z.lt l -> StronglySorted Z.lt (set_insert x l).
Proof.
  induction 1 as [|z l Hl IH Hz]; cbn [set_insert]; [by repeat constructor|]. destruct (Z.ltb_spec x z).
  - constructor; [by constructor|]. constructor; [done|]. eapply Forall_impl; [exact Hz|]. intros; lia.
  - destruct (Z.eqb_spec x z); [by constructor|]. constructor; [done|]. rewrite Forall_forall in *. intros y [->|Hy]%set_insert_elem; [lia|by apply Hz].
Qed.

Section proofs.
Context {B : Type} `{Batch B} `{SeqLimit}.
Context (allow_2pc : bool) (wb_InsertNoop : B -> B) (GetSliceNPHash64 : list Z -> Z) (policy : OccValidationPolicy) (strict : bool) (space : Z).
(** The keys of a batch are those of its operations. *)
Record batch_laws : Prop := {
  keys_Operate op cf k b ck : ck ∈ wb_Written (wb_Operate op cf k b).2 -> ck = (cf, k) \/ ck ∈ wb_Written b;
  keys_new : wb_Written wb_new = [];
  keys_InsertNoop b : wb_Written (wb_InsertNoop b) = wb_Written b;
}.
Context (laws : batch_laws).
Notation t := (@Transaction.t unit B).
Notation tracked th := (Transaction.tracked_locks_ (txn th)).
Notation step := (step allow_2pc wb_InsertNoop GetSliceNPHash64 policy strict space).
Notation lk_idxes := (lk_idxes GetSliceNPHash64 space).
Implicit Types (s : sys (B := B)) (th : thread (B := B)) (tr : PointLockTracker.t) (h : list record) (cf : Z) (k : list Z).

Lemma lk_idxes_fold ks : forall l, StronglySorted Z.lt l ->
  let l' := foldl (fun l (ck : Z * list Z) => set_insert (bucket_of GetSliceNPHash64 space ck.2) l) l ks in
  StronglySorted Z.lt l' /\ forall b, b ∈ l' <-> b ∈ l \/ exists ck, ck ∈ ks /\ b = bucket_of GetSliceNPHash64 space ck.2.
Proof.
  induction ks as [|ck ks IH]; intros l Hl; cbn [foldl]; [split; [done|]; intros b; set_solver|].
  destruct (IH _ (set_insert_sorted (bucket_of GetSliceNPHash64 space ck.2) l Hl)) as [IH1 IH2]. split; [done|]. intros b. rewrite IH2, set_insert_elem. set_solver.
Qed.
Lemma lk_idxes_sorted tr : StronglySorted Z.lt (lk_idxes tr).
Proof. apply lk_idxes_fold. constructor. Qed.
Lemma lk_idxes_elem tr cf k : is_Some (info tr cf k) -> bucket_of GetSliceNPHash64 space k ∈ lk_idxes tr.
Proof. intros Hi. apply (lk_idxes_fold (tracked_keys tr) []); [constructor|]. right. exists (cf, k). by rewrite tracked_keys_elem. Qed.

(** ** Validation *)

Lemma CheckKey_ok env h last cf sv seq k : sees env h last -> super_version env cf = Some sv ->
  St.ok (TransactionUtil.CheckKey (fun _ _ => 0) sv (TransactionUtil.earliest_seq sv) seq k None true None kMaxSequenceNumber) = true ->
  forall q, (q, cf, k) ∈ h -> q <= seq.
Proof.
  intros Hsee Esv. unfold TransactionUtil.CheckKey. rewrite Z.eqb_refl. destruct (Z.eqb_spec (TransactionUtil.earliest_seq sv) kMaxSequenceNumber); [done|].
  destruct (Z.ltb_spec seq (TransactionUtil.earliest_seq sv)); [done|]. cbn [orb]. destruct (kMaxSequenceNumber <=? _); [done|]. cbn [negb].
  change (St.ok St.OK) with true. cbv iota. destruct (TransactionUtil.GetLatestSequenceForKey sv k true seq) as [[[st q'] ts] found] eqn:E.
  destruct (St.ok st || _ || _) eqn:Est; cbn [negb].
  - intros Hok q Hq. destruct (decide (q <= seq)) as [|Hgt]; [done|]. destruct (see_record _ _ _ Hsee _ _ _ _ _ _ _ _ _ q Esv E Est Hq) as [-> Hle]; [lia..|].
    destruct (Z.ltb_spec seq q'); [done|lia].
  - intros Hok. by rewrite Hok in Est.
Qed.
Lemma check_keys_ok env h last cf sv tr ks : sees env h last -> super_version env cf = Some sv ->
  St.ok (TransactionUtil.check_keys sv tr cf true ks) = true -> forall k i, k ∈ ks -> info tr cf k = Some i ->
  forall q, (q, cf, k) ∈ h -> q <= info_seq i.
Proof.
  intros Hsee Esv. induction ks as [|k0 ks IH]; cbn [TransactionUtil.check_keys]; intros Hok k i Hk Hi; [by apply not_elem_of_nil in Hk|].
  destruct (St.ok (TransactionUtil.CheckKey _ _ _ _ _ _ _ _ _)) eqn:E; [|by rewrite E in Hok].
  apply elem_of_cons in Hk as [->|Hk]; [|by apply IH]. rewrite GetPointLockStatus_info, Hi in E. by eapply CheckKey_ok.
Qed.
Lemma check_cfs_ok env h last tr cfs st : sees env h last -> TransactionUtil.check_cfs (super_version env) tr true cfs = Some st -> St.ok st = true ->
  forall cf k i, cf ∈ cfs -> info tr cf k = Some i -> forall q, (q, cf, k) ∈ h -> q <= info_seq i.
Proof.
  intros Hsee. induction cfs as [|cf0 cfs IH]; cbn [TransactionUtil.check_cfs]; intros E Hok cf k i Hcf Hi; [by apply not_elem_of_nil in Hcf|].
  destruct (super_version env cf0) as [sv|] eqn:Esv; [|by injection E as <-]. destruct (PointLockTracker.GetKeyIterator tr cf0) as [ks|] eqn:Eks; [|done].
  cbn [mbind option_bind] in E. destruct (St.ok (TransactionUtil.check_keys sv tr cf0 true ks)) eqn:Ec; [|injection E as <-; congruence].
  apply elem_of_cons in Hcf as [->|Hcf]; [|by apply IH]. eapply check_keys_ok; [done..| |done].
  pose proof (key_iterator_elem tr cf0 k) as Hk. rewrite Eks in Hk. apply Hk. by eexists.
Qed.
(** Checked keys have no record that is newer than where they were accessed. *)
Definition current h tr : Prop := forall cf k i, info tr cf k = Some i -> forall q, (q, cf, k) ∈ h -> q <= info_seq i.
Lemma check_current env h last tr st : sees env h last -> TransactionUtil.CheckKeysForConflicts (super_version env) tr true = Some st -> St.ok st = true -> current h tr.
Proof.
  intros Hsee E Hok cf k i Hi. eapply check_cfs_ok; [done..| |done]. apply cf_iterator_elem. unfold info in Hi. by destruct (tr !! cf); [eexists|].
Qed.
Lemma check_total svs tr c : exists st, TransactionUtil.CheckKeysForConflicts svs tr c = Some st.
Proof.
  unfold TransactionUtil.CheckKeysForConflicts. assert (Hin : forall cf, cf ∈ PointLockTracker.GetColumnFamilyIterator tr -> is_Some (tr !! cf)) by (intros cf; apply cf_iterator_elem).
  induction (PointLockTracker.GetColumnFamilyIterator tr) as [|cf cfs IH]; cbn [TransactionUtil.check_cfs]; [by eexists|].
  destruct (svs cf); [|by eexists]. destruct (Hin cf) as [ks Eks]; [by left|]. unfold PointLockTracker.GetKeyIterator. rewrite Eks. cbn [mbind option_bind].
  case_match; [|by eexists]. apply IH. intros cf' ?. apply Hin. by right.
Qed.

(** ** What the calls do *)

Notation tl := Transaction.tracked_locks_.
Notation wb := Transaction.write_batch_.
Lemma TryLock_effect env cf k ro ex dv (x : t) : wp (TryLock env cf k ro ex dv) (fun st x' => st = St.OK /\ wb x' = wb x /\
  tl x' = if dv then PointLockTracker.Track (mkPointLockRequest cf k (track_seq env x') ro ex) (tl x) else tl x) x.
Proof.
  unfold TryLock, Transaction.SetSnapshotIfNeeded, Transaction.TrackKey. destruct dv; cbn [negb]; [|by wp_steps]. wp_steps.
  eapply (wp_mono _ (fun _ x' => wb x' = wb x /\ tl x' = tl x)).
  { apply wp_when; intros _; [|done]. unfold Transaction.SetSnapshot, Transaction.SetSnapshotInternal. wp_steps. done. }
  intros [] x1 [E1 E2]. wp_steps. case_match; wp_steps; split_and!; try done; cbn; by rewrite E2.
Qed.

(** Accesses and written keys are tracked. *)
Definition txn_ok th : Prop :=
  Forall (fun a : record => exists i, info (tracked th) a.1.2 a.2 = Some i /\ info_seq i <= a.1.1) (accesses th) /\
  (strict = true -> forall ck, ck ∈ batch_keys (txn th) -> is_Some (info (tracked th) ck.1 ck.2)).

Lemma Track_seq r tr cf k i : info tr cf k = Some i -> exists i', info (PointLockTracker.Track r tr) cf k = Some i' /\ info_seq i' <= info_seq i.
Proof.
  intros Hi. rewrite Track_info. case_decide as Hd; [|by exists i]. destruct Hd as [-> ->]. rewrite Hi. eexists. split; [done|].
  unfold PointLockTracker.track_info. destruct (Z.ltb_spec (seq r) (info_seq i)), (read_only r); cbn; lia.
Qed.
Lemma Track_own r tr : exists i, info (PointLockTracker.Track r tr) (column_family_id r) (key r) = Some i /\ info_seq i <= seq r.
Proof.
  rewrite Track_info, decide_True by done. eexists. split; [done|]. unfold PointLockTracker.track_info.
  destruct (info tr _ _) as [i|]; [destruct (Z.ltb_spec (seq r) (info_seq i))|]; destruct (read_only r); cbn; lia.
Qed.
Lemma txn_ok_track th r x' : txn_ok th -> tl x' = PointLockTracker.Track r (tracked th) ->
  (strict = true -> forall ck, ck ∈ batch_keys x' -> ck = (column_family_id r, key r) \/ ck ∈ batch_keys (txn th)) ->
  txn_ok (mkThread x' Idle ((seq r, column_family_id r, key r) :: accesses th)).
Proof.
  intros [Ha Hb] E Hk. split; cbn [accesses txn]; rewrite E.
  - constructor; [apply Track_own|]. eapply Forall_impl; [exact Ha|]. intros [[q cf] k] (i & Hi & Hq). cbn in *.
    destruct (Track_seq r _ _ _ _ Hi) as (i' & -> & ?). exists i'. split; [done|lia].
  - intros Hs ck Hck. destruct (Hk Hs ck Hck) as [->|Hin]; [destruct (Track_own r (tracked th)) as (i & Hi & _); by eexists|].
    destruct (Hb Hs ck Hin) as [i Hi]. destruct (Track_seq r _ _ _ _ Hi) as (i' & -> & _). by eexists.
Qed.
Lemma txn_ok_cleared x' p : tl x' = ∅ -> batch_keys x' = [] -> txn_ok (mkThread x' p []).
Proof. intros E1 E2. split; [constructor|]. intros _ ck. cbn. rewrite E2. by intros ?%not_elem_of_nil. Qed.
Lemma Clear_effect (x : t) : wp (Clear allow_2pc wb_InsertNoop) (fun _ x' => tl x' = ∅ /\ batch_keys x' = []) x.
Proof.
  unfold Clear, Transaction.Clear_base, Transaction.InitWriteBatch, batch_keys. wp_steps. apply wp_when; intros _; wp_steps; (split; [done|]); cbn;
    rewrite ?(keys_InsertNoop laws); apply (keys_new laws).
Qed.
Lemma run_user_ok env o th : txn_ok th -> (strict = true -> match o with UOperate _ _ _ dv => dv = true | _ => True end) ->
  wp (run_user allow_2pc wb_InsertNoop env o) (fun _ x' => txn_ok (mkThread x' Idle (accesses_of env o x' (accesses th)))) (txn th).
Proof.
  intros Hok Hs. destruct o as [cf k ro ex dv|op cf k dv| |]; cbn [run_user].
  - eapply wp_mono; [apply TryLock_effect|]. intros st x' (_ & Eb & Et). destruct dv; cbn [accesses_of].
    + apply (txn_ok_track th (mkPointLockRequest cf k (track_seq env x') ro ex)); [done|done|]. intros _ ck. unfold batch_keys. rewrite Eb. by right.
    + destruct Hok as [Ha Hb]. split; cbn [accesses txn]; [by rewrite Et|]. unfold batch_keys. by rewrite Et, Eb.
  - unfold Operate. apply wp_bind. eapply wp_mono; [apply TryLock_effect|]. intros st x1 (-> & Eb & Et). change (negb (St.ok St.OK)) with false. cbv iota. wp_steps.
    destruct (wb_Operate op cf k (wb x1)) as [st b] eqn:E. wp_steps.
    eapply (wp_mono _ (fun _ x' => wb x' = b /\ tl x' = tl x1 /\ track_seq env x' = track_seq env x1)).
    { apply wp_when; intros _; wp_steps; done. }
    intros [] x2 (E1 & E2 & E3). apply wp_ret. pose proof (keys_Operate laws op cf k (wb x1)) as Hkeys. rewrite E in Hkeys. destruct dv; cbn [accesses_of].
    + apply (txn_ok_track th (mkPointLockRequest cf k (track_seq env x2) false true)); [done|by rewrite E2, E3|]. intros _ ck. unfold batch_keys. rewrite E1, <- Eb. apply Hkeys.
    + destruct Hok as [Ha Hb]. split; cbn [accesses txn]; [by rewrite E2, Et|]. intros Hst. specialize (Hs Hst). done.
  - unfold Transaction.SetSnapshot, Transaction.SetSnapshotInternal. wp_steps. exact Hok.
  - unfold Rollback. wp_steps. eapply wp_mono; [apply Clear_effect|]. intros [] x' [E1 E2]. apply wp_ret. by apply txn_ok_cleared.
Qed.

(** ** The invariant *)

Definition held_of (p : phase) : list Z := match p with Idle => [] | Locking held _ => held | Validated held => held end.
Definition phase_ok h th : Prop :=
  match ph th with
  | Idle => True
  | Locking held todo => policy = kValidateParallel /\ held ++ todo = lk_idxes (tracked th)
  | Validated held => policy = kValidateParallel /\ held = lk_idxes (tracked th) /\ (strict = true -> current h (tracked th))
  end.
Record inv s : Prop := {
  i_threads i th : threads s !! i = Some th -> txn_ok th /\ phase_ok (hist s) th;
  i_buckets i b : buckets s !! b = Some i <-> exists th, threads s !! i = Some th /\ b ∈ held_of (ph th);
}.

Lemma release_lookup held (m : gmap Z nat) b : release held m !! b = if decide (b ∈ held) then None else m !! b.
Proof.
  unfold release. revert m. induction held as [|c held IH]; intros m; cbn [foldl]; [by rewrite decide_False by apply not_elem_of_nil|].
  rewrite IH. destruct (decide (b ∈ held)) as [|Hn]; [by rewrite decide_True by (by right)|]. destruct (decide (b = c)) as [->|Hne].
  - rewrite lookup_delete_eq, decide_True by (by left). done.
  - rewrite lookup_delete_ne by done. rewrite decide_False; [done|]. by intros [?|?]%elem_of_cons.
Qed.

(** Thread [i] goes on to [th'], gives up [rel] of its buckets and takes [new]. *)
Lemma inv_thread s i th th' h last m : inv s -> threads s !! i = Some th ->
  txn_ok th' -> phase_ok h th' ->
  (forall b j, m !! b = Some j <-> (j = i /\ b ∈ held_of (ph th')) \/ (j <> i /\ buckets s !! b = Some j)) ->
  (forall j thj, j <> i -> threads s !! j = Some thj -> phase_ok h thj) ->
  inv (mkSys h last m (<[i := th']> (threads s))).
Proof.
  intros [I1 I2] Ei Ht Hp Hm Hh. pose proof (lookup_lt_Some _ _ _ Ei) as Hlt. split; cbn [threads hist buckets].
  - intros j thj. destruct (decide (j = i)) as [->|Hne]; [rewrite list_lookup_insert_eq by done; by intros [= <-]|].
    rewrite list_lookup_insert_ne by done. intros Ej. split; [by apply (I1 j)|by apply (Hh j)].
  - intros j b. rewrite Hm. destruct (decide (j = i)) as [->|Hne].
    + rewrite list_lookup_insert_eq by done. split; [intros [[_ ?]|[? _]]; [by eexists|done]|]. intros (thj & [= <-] & ?). by left.
    + rewrite list_lookup_insert_ne by done. rewrite I2. naive_solver.
Qed.
(** Its buckets stay. *)
Lemma inv_same s i th th' : inv s -> threads s !! i = Some th -> held_of (ph th') = held_of (ph th) -> txn_ok th' -> phase_ok (hist s) th' ->
  inv (with_thread i th' s).
Proof.
  intros Hinv Ei Eh Ht Hp. apply (inv_thread s i th); [done..| |].
  - intros b j. rewrite Eh, (i_buckets _ Hinv). destruct (decide (j = i)) as [->|Hne]; [|naive_solver].
    split; [intros (? & [= <-]%(eq_trans (eq_sym Ei)) & ?); by left|]. intros [[_ ?]|[? _]]; [by eexists|done].
  - intros j thj _ Ej. apply (i_threads _ Hinv j thj Ej).
Qed.
(** It gives up all of them. *)
Lemma occ_inv_release s i th th' h last : inv s -> threads s !! i = Some th -> txn_ok th' -> ph th' = Idle ->
  (forall j thj, j <> i -> threads s !! j = Some thj -> phase_ok h thj) ->
  inv (mkSys h last (release (held_of (ph th)) (buckets s)) (<[i := th']> (threads s))).
Proof.
  intros Hinv Ei Ht Hp Hh. apply (inv_thread s i th); [done..|unfold phase_ok; by rewrite Hp| |done].
  intros b j. rewrite release_lookup, Hp. cbn [held_of]. pose proof (i_buckets _ Hinv i b) as Hi. rewrite Ei in Hi.
  destruct (decide (b ∈ held_of (ph th))) as [Hb|Hb].
  - split; [done|]. intros [[_ []%elem_of_nil]|[Hne Hj]]. assert (Hx : buckets s !! b = Some i) by (apply Hi; by eexists). congruence.
  - split; [|intros [[_ []%elem_of_nil]|[_ ?]]; done]. intros Hj. right. split; [|done]. intros ->. apply Hi in Hj as (? & [= <-] & ?). done.
Qed.

(** New records of keys that thread [i] has tracked do not touch what another has validated. *)
Lemma others_current s i th keys recs latest' j thj : inv s -> threads s !! i = Some th -> held_of (ph th) = lk_idxes (tracked th) ->
  (strict = true -> forall ck, ck ∈ keys -> is_Some (info (tracked th) ck.1 ck.2)) -> appended s keys recs latest' ->
  j <> i -> threads s !! j = Some thj -> phase_ok (hist s ++ recs) thj.
Proof.
  intros Hinv Ei Hheld Hkeys (Hrecs & _) Hne Ej. pose proof (proj2 (i_threads _ Hinv j thj Ej)) as Hp. unfold phase_ok in *.
  destruct (ph thj) as [| |held] eqn:Eph; [done|done|]. destruct Hp as (Hpol & Hl & Hc). split_and!; [done|done|]. intros Hs cf k inf Hi q [Hq|Hq]%elem_of_app; [by apply (Hc Hs cf k inf)|].
  exfalso. rewrite Forall_forall in Hrecs. destruct (Hrecs _ Hq) as [_ Hck]. cbn in Hck. pose proof (lk_idxes_elem _ _ _ (Hkeys Hs _ Hck)) as Hb1. cbn in Hb1.
  assert (Hb2 : bucket_of GetSliceNPHash64 space k ∈ lk_idxes (tracked thj)) by (eapply lk_idxes_elem; by eexists).
  assert (buckets s !! bucket_of GetSliceNPHash64 space k = Some i) as E1 by (apply (i_buckets _ Hinv); exists th; split; [done|by rewrite Hheld]).
  assert (buckets s !! bucket_of GetSliceNPHash64 space k = Some j) as E2 by (apply (i_buckets _ Hinv); exists thj; split; [done|by rewrite Eph; cbn; rewrite Hl]).
  congruence.
Qed.

Lemma serial_effect env (x : t) st x' : CommitWithSerialValidate allow_2pc wb_InsertNoop env x = Some (st, x') ->
  if St.ok st then (exists c, TransactionUtil.CheckKeysForConflicts (super_version env) (tl x) true = Some c /\ St.ok c = true) /\ tl x' = ∅ /\ batch_keys x' = []
  else tl x' = tl x /\ wb x' = wb x.
Proof.
  intros E. destruct (check_total (super_version env) (tl x) true) as [c Ec].
  assert (Hw : wp (CommitWithSerialValidate allow_2pc wb_InsertNoop env) (fun st x' => if St.ok st then St.ok c = true /\ tl x' = ∅ /\ batch_keys x' = []
    else tl x' = tl x /\ wb x' = wb x) x).
  { unfold CommitWithSerialValidate, CheckTransactionForConflicts. wp_steps. eapply wp_of_option; [exact Ec|].
    apply wp_bind. eapply (wp_mono _ (fun st x' => tl x' = tl x /\ wb x' = wb x /\ (St.ok st = true -> St.ok c = true))).
    { destruct (St.ok c) eqn:Eok; cbn [negb]; [|wp_steps; rewrite Eok; done]. wp_steps. unfold Transaction.WriteImpl. wp_steps.
      apply wp_when; intros _; wp_steps; done. }
    intros st1 x1 (E1 & E2 & Hc). wp_steps. apply wp_when; intros Est.
    - eapply wp_mono; [apply Clear_effect|]. intros [] x2 [E3 E4]. apply wp_ret. rewrite Est. split; [by apply Hc|done].
    - apply wp_ret. by rewrite Est. }
  unfold wp in Hw. rewrite E in Hw. destruct (St.ok st); [|done]. destruct Hw as (Hc & Hw). split; [by exists c|done].
Qed.
Lemma check_effect env (x : t) st x' : CheckTransactionForConflicts env x = Some (st, x') ->
  x' = x /\ TransactionUtil.CheckKeysForConflicts (super_version env) (tl x) true = Some st.
Proof.
  unfold CheckTransactionForConflicts, gets, of_option, mbind, M_bind. destruct (TransactionUtil.CheckKeysForConflicts _ _ _); [|done]. by intros [= -> ->].
Qed.
Lemma serial_idle h th : policy = kValidateSerial -> phase_ok h th -> ph th = Idle.
Proof. intros Hpol. unfold phase_ok. destruct (ph th); [done|intros [? _]; congruence..]. Qed.

Lemma occ_step_inv l s s' : inv s -> step l s s' -> inv s'.
Proof.
  intros Hinv Hs. pose proof (i_threads _ Hinv) as Hth.
  destruct Hs as [s i th env o st t' Ei Ep Hsee Hst Hr|s keys recs latest' Hst Ha|s i th env st t' Hpol Ei Ep Hsee Hr Hok|s i th env st t' recs latest' Hpol Ei Ep Hsee Hr Hok Ha
    |s i th Hpol Ei Ep|s i th held b todo Ei Ep Hb|s i th held env st t' Ei Ep Hsee Hr Hok|s i th held env st t' Ei Ep Hsee Hr Hok|s i th held t' recs latest' Ei Ep Hr Ha|s i th held Ei Ep].
  - destruct (Hth i th Ei) as [Ht Hp]. apply (inv_same s i th); [done|done|by rewrite Ep| |done]. pose proof (run_user_ok env o th Ht Hst) as Hw. unfold wp in Hw. by rewrite Hr in Hw.
  - split; [|apply (i_buckets _ Hinv)]. cbn. intros j thj Ej. destruct (Hth j thj Ej) as [Ht Hp]. split; [done|]. unfold phase_ok in *. destruct (ph thj); [done|done|].
    destruct Hp as (? & ? & _). split_and!; [done|done|by rewrite Hst].
  - destruct (Hth i th Ei) as [[Ha Hb] Hp]. apply serial_effect in Hr. rewrite Hok in Hr. destruct Hr as [E1 E2]. apply (inv_same s i th); [done|done|by rewrite Ep| |done].
    split; cbn [accesses txn]; [by rewrite E1|]. unfold batch_keys. by rewrite E1, E2.
  - destruct (Hth i th Ei) as [Ht Hp]. apply serial_effect in Hr. rewrite Hok in Hr. destruct Hr as (_ & E1 & E2).
    replace (buckets s) with (release (held_of (ph th)) (buckets s)) by (by rewrite Ep). apply occ_inv_release; [done|done|by apply txn_ok_cleared|done|].
    intros j thj Hne Ej. unfold phase_ok. by rewrite (serial_idle _ _ Hpol (proj2 (Hth j thj Ej))).
  - destruct (Hth i th Ei) as [Ht Hp]. apply (inv_same s i th); [done|done|by rewrite Ep|done|done].
  - destruct (Hth i th Ei) as [Ht Hp]. unfold phase_ok in Hp. rewrite Ep in Hp. destruct Hp as [Hpol Hl].
    apply (inv_thread s i th); [done|done|done| | |]; cbn [ph held_of]; [split; [done|]; cbn; by rewrite <- app_assoc| |intros j thj _ Ej; apply (Hth j thj Ej)].
    intros c j. pose proof (i_buckets _ Hinv i c) as Hi. rewrite Ei in Hi. destruct (decide (c = b)) as [->|Hne].
    + rewrite lookup_insert_eq. rewrite Hb. split; [intros [= <-]; left; set_solver|]. intros [[-> _]|[_ ?]]; done.
    + rewrite lookup_insert_ne by done. destruct (decide (j = i)) as [->|Hji]; [|naive_solver]. rewrite Hi. split.
      * intros (? & [= <-] & Hc). rewrite Ep in Hc. left. cbn in Hc. set_solver.
      * intros [[_ Hc]|[? _]]; [|done]. exists th. rewrite Ep. split; [done|]. cbn. set_solver.
  - destruct (Hth i th Ei) as [Ht Hp]. unfold phase_ok in Hp. rewrite Ep in Hp. destruct Hp as [Hpol Hl]. rewrite app_nil_r in Hl. apply check_effect in Hr as [-> Hc].
    apply (inv_same s i th); [done|done|by rewrite Ep|done|]. split_and!; [done|done|]. intros _. by eapply check_current.
  - destruct (Hth i th Ei) as [Ht Hp]. apply check_effect in Hr as [-> Hc]. replace held with (held_of (ph th)) by (by rewrite Ep).
    apply occ_inv_release; [done|done|done|done|]. intros j thj _ Ej. apply (Hth j thj Ej).
  - destruct (Hth i th Ei) as [Ht Hp]. unfold phase_ok in Hp. rewrite Ep in Hp. destruct Hp as (Hpol & Hl & Hc). pose proof (Clear_effect (txn th)) as Hw. unfold wp in Hw. rewrite Hr in Hw. destruct Hw as [E1 E2].
    replace held with (held_of (ph th)) by (by rewrite Ep). apply occ_inv_release; [done|done|by apply txn_ok_cleared|done|].
    intros j thj Hne Ej. eapply (others_current s i th); [done|done|by rewrite Ep|apply Ht|done|done|done].
  - destruct (Hth i th Ei) as [Ht Hp]. replace held with (held_of (ph th)) by (by rewrite Ep). apply occ_inv_release; [done|done|done|done|]. intros j thj _ Ej. apply (Hth j thj Ej).
Qed.

Lemma step_current i s s' : inv s -> policy = kValidateSerial \/ strict = true -> step (Some i) s s' ->
  exists th, threads s !! i = Some th /\ txn_ok th /\ current (hist s) (tracked th).
Proof.
  intros Hinv Hps Hs. remember (Some i) as l eqn:El. destruct Hs as [| | |s i' th env st t' recs latest' Hpol Ei Ep Hsee Hr Hok Ha| | | | |s i' th held t' recs latest' Ei Ep Hr Ha|]; try done;
    injection El as ->; exists th; destruct (i_threads _ Hinv i th Ei) as [Ht Hp]; split_and!; try done.
  - apply serial_effect in Hr. rewrite Hok in Hr. destruct Hr as ((c & Hc & Hcok) & _). by eapply check_current.
  - unfold phase_ok in Hp. rewrite Ep in Hp. destruct Hp as (Hpol & _ & Hc). apply Hc. destruct Hps; [congruence|done].
Qed.

(** ** Runs *)

Definition initial s : Prop := buckets s = ∅ /\
  Forall (fun th => ph th = Idle /\ accesses th = [] /\ tracked th = ∅ /\ batch_keys (txn th) = []) (threads s).
Definition reachable s0 s : Prop := rtc (fun s s' => exists l, step l s s') s0 s.
Lemma initial_inv s : initial s -> inv s.
Proof.
  intros [Eb Hth]. rewrite Forall_forall in Hth. split.
  - intros i th Ei. destruct (Hth th (list_elem_of_lookup_2 _ _ _ Ei)) as (E1 & E2 & E3 & E4). split; [|unfold phase_ok; by rewrite E1].
    split; [by rewrite E2|]. rewrite E4. by intros _ ck ?%not_elem_of_nil.
  - intros i b. rewrite Eb, lookup_empty. split; [done|]. intros (th & Ei & Hb). destruct (Hth th (list_elem_of_lookup_2 _ _ _ Ei)) as (E1 & _). rewrite E1 in Hb. by apply not_elem_of_nil in Hb.
Qed.
Lemma occ_reachable_inv s0 s : initial s0 -> reachable s0 s -> inv s.
Proof. intros Hi%initial_inv Hr. induction Hr as [|s1 s2 s3 [l Hl] _ IH]; [done|]. by eapply IH, occ_step_inv. Qed.

Lemma version_stable h q q' cf k : (forall p, (p, cf, k) ∈ h -> p <= q) -> q <= q' -> version h q' cf k = version h q cf k.
Proof.
  intros Hh Hq. unfold version. generalize (None : option Z). induction h as [|[[p cf'] k'] h IH]; intros o; cbn [foldl fst snd]; [done|].
  assert (bool_decide (cf' = cf /\ k' = k /\ p <= q') = bool_decide (cf' = cf /\ k' = k /\ p <= q)) as ->.
  { apply bool_decide_ext. split; intros (-> & -> & ?); split_and!; try done; [apply Hh; by left|lia]. }
  apply IH. intros p' ?. apply Hh. by right.
Qed.

(** ** The order of the locks *)

Definition awaits th : option Z := match ph th with Locking _ (b :: _) => Some b | _ => None end.
Lemma awaits_bound (l : list thread) : exists m, forall th b, th ∈ l -> awaits th = Some b -> b <= m.
Proof.
  induction l as [|th l [m IH]]; [exists 0; by intros th b ?%not_elem_of_nil|]. exists (Z.max m (default 0 (awaits th))).
  intros th' b [->|Hin]%elem_of_cons E; [rewrite E; cbn; lia|]. specialize (IH th' b Hin E). lia.
Qed.
(** A transaction in its commit that needs no lock that another holds. *)
Definition ready s th : Prop :=
  match ph th with Idle => False | Locking _ (b :: _) => buckets s !! b = None | _ => True end.
Lemma some_ready s i th : inv s -> threads s !! i = Some th -> ph th <> Idle -> exists j thj, threads s !! j = Some thj /\ ready s thj.
Proof.
  intros Hinv. destruct (awaits_bound (threads s)) as [m Hm].
  assert (Hwait : forall n b i th, m - b <= Z.of_nat n -> threads s !! i = Some th -> awaits th = Some b -> exists j thj, threads s !! j = Some thj /\ ready s thj).
  { induction n as [|n IH]; intros b i0 th0 Hn Ei Hb; (destruct (buckets s !! b) as [j|] eqn:Ej;
      [|exists i0, th0; split; [done|]; unfold ready, awaits in *; destruct (ph th0) as [|? [|c todo]|]; try done; by injection Hb as ->]);
      apply (i_buckets _ Hinv) in Ej as (thj & Ej & Hin); destruct (i_threads _ Hinv j thj Ej) as [_ Hp];
      (destruct (awaits thj) as [c|] eqn:Ec; [|exists j, thj; split; [done|]; unfold ready, awaits in *; destruct (ph thj) as [|? [|]|]; try done; by apply not_elem_of_nil in Hin]);
      assert (b < c) by (unfold awaits, phase_ok in *; destruct (ph thj) as [|held [|c' todo]|]; try done; injection Ec as ->; destruct Hp as [_ Hl];
        pose proof (lk_idxes_sorted (tracked thj)) as Hso; rewrite <- Hl in Hso; apply StronglySorted_app in Hso as (Hlt & _ & _); apply Hlt; [done|by left]);
      pose proof (Hm thj c (list_elem_of_lookup_2 _ _ _ Ej) Ec).
    - lia.
    - by apply (IH c j thj); [lia|..]. }
  intros Ei Hne. destruct (awaits th) as [b|] eqn:Eb; [by apply (Hwait (Z.to_nat (m - b)) b i th); [lia|..]|].
  exists i, th. split; [done|]. unfold ready, awaits in *. by destruct (ph th) as [|? [|]|].
Qed.
End proofs.

(** C5: A commit of an optimistic transaction that succeeds is serializable: at that moment, every key the transaction accessed with validation
    has still the version it had at the access, so that all of them could as well be made there. With validation on the writer thread this holds whatever else is
    written; with validation under the locks of the keys' buckets, if all writes are tracked writes of transactions. *)
Theorem occ_commit_serializable {B} `{Batch B} `{SeqLimit} allow_2pc (wb_InsertNoop : B -> B) GetSliceNPHash64 policy strict space s0 s s' i :
  batch_laws wb_InsertNoop -> policy = kValidateSerial \/ strict = true ->
  initial s0 -> reachable allow_2pc wb_InsertNoop GetSliceNPHash64 policy strict space s0 s ->
  step allow_2pc wb_InsertNoop GetSliceNPHash64 policy strict space (Some i) s s' ->
  exists th, threads s !! i = Some th /\
    forall q cf k, (q, cf, k) ∈ accesses th -> forall q', q <= q' -> version (hist s) q' cf k = version (hist s) q cf k.
Proof.
  intros Hl Hps Hi Hr Hs. destruct (step_current allow_2pc wb_InsertNoop GetSliceNPHash64 policy strict space Hl i s s') as (th & Ei & [Ha _] & Hc); [by eapply occ_reachable_inv|done|done|].
  exists th. split; [done|]. intros q cf k Hin q' Hq. apply version_stable; [|done]. intros p Hp. rewrite Forall_forall in Ha.
  destruct (Ha _ Hin) as (inf & Hinf & Hle). cbn in *. specialize (Hc _ _ _ Hinf _ Hp). lia.
Qed.

(** C24: The bucket locks of commits never deadlock: as long as a transaction is in its commit, one that is can take its next step. *)
Theorem occ_commit_progress {B} `{Batch B} `{SeqLimit} allow_2pc (wb_InsertNoop : B -> B) GetSliceNPHash64 policy strict space s0 s env i th :
  batch_laws wb_InsertNoop -> initial s0 -> reachable allow_2pc wb_InsertNoop GetSliceNPHash64 policy strict space s0 s ->
  sees env (hist s) (latest s) -> threads s !! i = Some th -> ph th <> Idle ->
  exists j thj l s', threads s !! j = Some thj /\ ph thj <> Idle /\
    step allow_2pc wb_InsertNoop GetSliceNPHash64 policy strict space l s s' /\ threads s' !! j <> Some thj.
Proof.
  intros Hl Hi Hr Hsee Ei Hne. pose proof (occ_reachable_inv allow_2pc wb_InsertNoop GetSliceNPHash64 policy strict space Hl s0 s Hi Hr) as Hinv.
  destruct (some_ready wb_InsertNoop GetSliceNPHash64 policy strict space Hl s i th Hinv Ei Hne) as (j & thj & Ej & Hj).
  pose proof (lookup_lt_Some _ _ _ Ej) as Hlt. exists j, thj. unfold ready in Hj. destruct (ph thj) as [|held [|b todo]|held] eqn:Ep; [done| | |].
  - destruct (check_total (super_version env) (Transaction.tracked_locks_ (txn thj)) true) as [st Est].
    assert (Ec : CheckTransactionForConflicts env (txn thj) = Some (st, txn thj)).
    { unfold CheckTransactionForConflicts, gets, of_option, mbind, M_bind. by rewrite Est. }
    destruct (St.ok st) eqn:Eok; eexists _, _; (split_and!; [done|done|first [eapply st_validate; done|eapply st_conflict; done]|]);
      cbn [with_thread threads]; rewrite list_lookup_insert_eq by done; intros [= E]; rewrite <- E in Ep; done.
  - eexists _, _. split_and!; [done|done|by eapply st_lock|]. cbn [threads]. rewrite list_lookup_insert_eq by done. intros [= E]. rewrite <- E in Ep. cbn in Ep.
    injection Ep as _ Ep. apply (f_equal length) in Ep. cbn in Ep. lia.
  - eexists _, _. split_and!; [done|done|by eapply st_write_fails|]. cbn [threads]. rewrite list_lookup_insert_eq by done. intros [= E]. by rewrite <- E in Ep.
Qed.

(** ** A run *)

(** One transaction, which writes a key of an empty database, takes the lock of its bucket and is validated. *)
Notation occ_sys := (sys (B := list (option (BatchOp * Z * list Z)))).
Definition env2 : Env :=
  mkEnv 0 0 0 (fun _ => Some (TransactionUtil.mkSuperVersion 0 (fun _ _ _ => (St.NotFound, 0, [], false)))) St.OK 0 0 None.
Lemma env2_sees : sees env2 [] 0.
Proof. split; [done|done|]. intros * _ _ _ ?%not_elem_of_nil. done. Qed.
Definition put1 : user_op := UOperate (BPut [9]) 0 [1] true.
Definition occ0 : occ_sys := mkSys [] 0 ∅ [mkThread (start tt) Idle []].
Definition wrote1 : Transaction.t (L := unit) (B := list (option (BatchOp * Z * list Z))) :=
  match run_user false (fun b => b) env2 put1 (start tt) with Some (_, x) => x | None => start tt end.
Definition occ1 : occ_sys := with_thread 0 (mkThread wrote1 Idle [(0, 0, [1])]) occ0.
Definition occ2 : occ_sys := with_thread 0 (mkThread wrote1 (Locking [] [0]) [(0, 0, [1])]) occ1.
Definition occ3 : occ_sys := mkSys [] 0 {[ 0 := 0%nat ]} [mkThread wrote1 (Locking [0] []) [(0, 0, [1])]].
Definition occ4 : occ_sys := with_thread 0 (mkThread wrote1 (Validated [0]) [(0, 0, [1])]) occ3.

Lemma list_batch_laws : batch_laws (fun b : list (option (BatchOp * Z * list Z)) => b).
Proof.
  split; [|done|done]. intros op cf k b ck. cbn. rewrite omap_app, map_app, elem_of_app. cbn. rewrite list_elem_of_singleton. tauto.
Qed.
Lemma occ0_initial : initial occ0.
Proof. split; [done|]. by repeat constructor. Qed.
Lemma occ_reach policy strict : policy = kValidateParallel ->
  reachable false (fun b => b) (fun _ => 0) policy strict 16 occ0 occ4.
Proof.
  intros Hp. eapply rtc_l; [exists None; by apply (st_user _ _ _ policy strict 16 occ0 0 (mkThread (start tt) Idle []) env2 put1 St.OK wrote1 eq_refl eq_refl env2_sees)|].
  eapply rtc_l; [exists None; by apply (st_begin _ _ _ policy strict 16 occ1 0 (mkThread wrote1 Idle [(0, 0, [1])]))|].
  eapply rtc_l; [exists None; by apply (st_lock _ _ _ policy strict 16 occ2 0 (mkThread wrote1 (Locking [] [0]) [(0, 0, [1])]) [] 0 [])|].
  eapply rtc_l; [exists None; by apply (st_validate _ _ _ policy strict 16 occ3 0 (mkThread wrote1 (Locking [0] []) [(0, 0, [1])]) [0] env2 St.OK wrote1 eq_refl eq_refl env2_sees)|].
  apply rtc_refl.
Qed.
Definition cleared1 : Transaction.t (L := unit) (B := list (option (BatchOp * Z * list Z))) :=
  match Clear false (fun b => b) wrote1 with Some (_, x) => x | None => wrote1 end.

Lemma occ_commit_serializable_witness : exists th, threads occ4 !! 0%nat = Some th /\
  forall q cf k, (q, cf, k) ∈ accesses th -> forall q', q <= q' -> version (hist occ4) q' cf k = version (hist occ4) q cf k.
Proof.
  apply (occ_commit_serializable false (fun b => b) (fun _ => 0) kValidateParallel true 16 occ0 occ4
    (mkSys [(1, 0, [1])] 1 (release [0] (buckets occ4)) [mkThread cleared1 Idle []]) 0).
  - apply list_batch_laws.
  - by right.
  - apply occ0_initial.
  - by apply occ_reach.
  - apply (st_write _ _ _ kValidateParallel true 16 occ4 0 (mkThread wrote1 (Validated [0]) [(0, 0, [1])]) [0] cleared1 [(1, 0, [1])] 1); [done..|].
    split_and!; [|constructor; [|done]; exists 1; by left|done]. constructor; [|done]. split; [done|]. by left.
Defined.

Lemma occ_commit_progress_witness : exists j thj l s', threads occ2 !! j = Some thj /\ ph thj <> Idle /\
  step false (fun b => b) (fun _ => 0) kValidateParallel true 16 l occ2 s' /\ threads s' !! j <> Some thj.
Proof.
  apply (occ_commit_progress false (fun b => b) (fun _ => 0) kValidateParallel true 16 occ0 occ2 env2 0 (mkThread wrote1 (Locking [] [0]) [(0, 0, [1])])).
  - apply list_batch_laws.
  - apply occ0_initial.
  - eapply rtc_l; [exists None; by apply (st_user _ _ _ kValidateParallel true 16 occ0 0 (mkThread (start tt) Idle []) env2 put1 St.OK wrote1 eq_refl eq_refl env2_sees)|].
    eapply rtc_l; [exists None; by apply (st_begin _ _ _ kValidateParallel true 16 occ1 0 (mkThread wrote1 Idle [(0, 0, [1])]))|]. apply rtc_refl.
  - apply env2_sees.
  - done.
  - done.
Defined.

