(* ===== verification/Bloom.v ===== *)
(** * Bloom filter implementations (util/bloom_impl.h)

    [FastLocalBloomImpl], with the probes made one by one and eight at a time with AVX2, [LegacyNoLocalityBloomImpl] and
    [LegacyLocalityBloomImpl]. Filter data is a list of bytes; [None] is an access outside of it. *)

From stdpp Require Import prelude.
From Stdlib Require Import ZArith Lia Bool SpecFloat.
From S2P Require Import Prelude Coding Math Hash Float64.

(** ** Probing *)

(** [data[i] |= m] and [data[i]]. *)
Definition or_byte (data : list Z) (i m : Z) : option (list Z) :=
  if 0 <=? i then b ← data !! Z.to_nat i; Some (<[Z.to_nat i := u8 (Z.lor b m)]> data) else None.
Definition get_byte (data : list Z) (i : Z) : option Z := if 0 <=? i then data !! Z.to_nat i else None.

(** The loops the implementations share: [n] probes from [h], with the bit address [bitpos h] in the data at offset [off], and [next h] for the next probe. *)
Section probing.
Context (bitpos next : Z -> Z) (off : Z).
Fixpoint set_probes (n : nat) (h : Z) (data : list Z) : option (list Z) :=
  match n with
  | O => Some data
  | S n =>
      data ← or_byte data (off + Z.shiftr (bitpos h) 3) (u8 (Z.shiftl 1 (Z.land (bitpos h) 7)));
      set_probes n (next h) data
  end.
Fixpoint test_probes (n : nat) (h : Z) (data : list Z) : option bool :=
  match n with
  | O => Some true
  | S n =>
      b ← get_byte data (off + Z.shiftr (bitpos h) 3);
      if Z.land b (u8 (Z.shiftl 1 (Z.land (bitpos h) 7))) =? 0 then Some false else test_probes n (next h) data
  end.
End probing.

(** ** False positive rates

    [std::pow] and [std::exp] are parameters; the square root is the correctly rounded one of IEEE 754. *)
Module BloomMath.
Section rates.
Context (std_pow : spec_float -> spec_float -> spec_float) (std_exp : spec_float -> spec_float).
Notation sub := (SFsub 53 1024).
Definition StandardFpRate (bits_per_key : spec_float) (num_probes : Z) : spec_float :=
  std_pow (sub f64_1 (std_exp (f64_div (f64_of_Z (- num_probes)) bits_per_key))) (f64_of_Z num_probes).
Definition CacheLocalFpRate (bits_per_key : spec_float) (num_probes cache_line_bits : Z) : spec_float :=
  if SFleb bits_per_key f64_0 then f64_1
  else
    let keys_per_cache_line := f64_div (f64_of_Z cache_line_bits) bits_per_key in
    let keys_stddev := SFsqrt 53 1024 keys_per_cache_line in
    let crowded_fp := StandardFpRate (f64_div (f64_of_Z cache_line_bits) (f64_add keys_per_cache_line keys_stddev)) num_probes in
    let uncrowded_fp := StandardFpRate (f64_div (f64_of_Z cache_line_bits) (sub keys_per_cache_line keys_stddev)) num_probes in
    f64_div (f64_add crowded_fp uncrowded_fp) (f64_of_Z 2).
Definition FingerprintFpRate (num_keys fingerprint_bits : Z) : spec_float :=
  let half := f64_div f64_1 (f64_of_Z 2) in
  let inv_fingerprint_space := std_pow half (f64_of_Z fingerprint_bits) in
  let base_estimate := f64_mul (f64_of_Z num_keys) inv_fingerprint_space in
  if f64_gtb base_estimate (f64_div f64_1 (f64_of_Z 10000)) then sub f64_1 (std_exp (SFopp base_estimate))
  else sub base_estimate (f64_mul (f64_mul base_estimate base_estimate) half).
Definition IndependentProbabilitySum (rate1 rate2 : spec_float) : spec_float := sub (f64_add rate1 rate2) (f64_mul rate1 rate2).
End rates.
End BloomMath.

Module FastLocalBloomImpl.
Definition EstimatedFpRate std_pow std_exp (keys bytes num_probes hash_bits : Z) : spec_float :=
  BloomMath.IndependentProbabilitySum
    (BloomMath.CacheLocalFpRate std_pow std_exp (f64_div (f64_mul (f64_of_Z 8) (f64_of_Z bytes)) (f64_of_Z keys)) num_probes 512)
    (BloomMath.FingerprintFpRate std_pow std_exp keys hash_bits).
Definition ChooseNumProbes (millibits_per_key : Z) : Z :=
  if millibits_per_key <=? 2080 then 1
  else if millibits_per_key <=? 3580 then 2
  else if millibits_per_key <=? 5100 then 3
  else if millibits_per_key <=? 6640 then 4
  else if millibits_per_key <=? 8300 then 5
  else if millibits_per_key <=? 10070 then 6
  else if millibits_per_key <=? 11720 then 7
  else if millibits_per_key <=? 14001 then 8
  else if millibits_per_key <=? 16050 then 9
  else if millibits_per_key <=? 18300 then 10
  else if millibits_per_key <=? 22001 then 11
  else if millibits_per_key <=? 25501 then 12
  else if 50000 <? millibits_per_key then 24
  else Z.quot (millibits_per_key - 1) 2000 - 1.

Definition golden : Z := 0x9e3779b9.
Definition bitpos (h : Z) : Z := Z.shiftr h (32 - 9).
Definition next (h : Z) : Z := u32 (h * golden).
Definition line_offset (h1 len_bytes : Z) : Z := u32 (Z.shiftl (FastRange32 (Z.shiftr len_bytes 6) h1) 6).

Definition AddHashPrepared (h2 num_probes : Z) (data : list Z) (off : Z) : option (list Z) :=
  set_probes bitpos next off (Z.to_nat num_probes) h2 data.
Definition AddHash (h1 h2 len_bytes num_probes : Z) (data : list Z) : option (list Z) :=
  AddHashPrepared h2 num_probes data (line_offset h1 len_bytes).
(** The byte offset; prefetching has no effect. *)
Definition PrepareHash (h1 len_bytes : Z) : Z := line_offset h1 len_bytes.
Definition HashMayMatchPrepared (h2 num_probes : Z) (data : list Z) (off : Z) : option bool :=
  test_probes bitpos next off (Z.to_nat num_probes) h2 data.
Definition HashMayMatch (h1 h2 len_bytes num_probes : Z) (data : list Z) : option bool :=
  HashMayMatchPrepared h2 num_probes data (line_offset h1 len_bytes).

(** *** AVX2 *)

(** A vector is its eight 32-bit lanes. *)
Definition mm256_set1_epi32 (x : Z) : list Z := replicate 8 (u32 x).
Definition lanes (f : Z -> Z -> Z) (a b : list Z) : list Z := zip_with f a b.
Definition mm256_mullo_epi32 : list Z -> list Z -> list Z := lanes (fun x y => u32 (x * y)).
Definition mm256_sub_epi32 : list Z -> list Z -> list Z := lanes (fun x y => u32 (x - y)).
Definition mm256_srli_epi32 (a : list Z) (n : Z) : list Z := map (fun x => Z.shiftr x n) a.
Definition mm256_slli_epi32 (a : list Z) (n : Z) : list Z := map (fun x => u32 (Z.shiftl x n)) a.
Definition mm256_srai_epi32 (a : list Z) (n : Z) : list Z := map (fun x => u32 (Z.shiftr (i32 x) n)) a.
Definition mm256_sllv_epi32 : list Z -> list Z -> list Z := lanes (fun x n => if n <? 32 then u32 (Z.shiftl x n) else 0).
Definition mm256_permutevar8x32_epi32 (a idx : list Z) : list Z := map (fun i => nth (Z.to_nat (Z.land i 7)) a 0) idx.
(** Of each byte the one of [b] where the mask's byte has its high bit, and of [a] elsewhere. *)
Definition blend_byte (a b m i : Z) : Z := Z.land (Z.shiftr (if Z.testbit m (8 * i + 7) then b else a) (8 * i)) 0xff.
Definition blend_lane (a b m : Z) : Z := le_val [blend_byte a b m 0; blend_byte a b m 1; blend_byte a b m 2; blend_byte a b m 3].
Definition mm256_blendv_epi8 (a b m : list Z) : list Z := zip_with (fun ab m => blend_lane ab.1 ab.2 m) (zip a b) m.
(** Whether [~a & b] is zero. *)
Definition mm256_testc_si256 (a b : list Z) : bool := forallb (fun x => x =? 0) (lanes (fun x y => Z.land (Z.lnot x) y) a b).
(** 32 bytes, as little-endian words. *)
Definition mm256_loadu_si256 (data : list Z) (off : Z) : option (list Z) :=
  if (0 <=? off) && (off + 32 <=? zlen data) then Some (map (fun i => le_val (zsub (off + 4 * i) 4 data)) (map Z.of_nat (seq 0 8)))
  else None.

Definition multipliers : list Z :=
  [0x00000001; 0x9e3779b9; 0xe35e67b1; 0x734297e9; 0x35fbe861; 0xdeb7c719; 0x448b211; 0x3459b749].
Definition zero_to_seven : list Z := [0; 1; 2; 3; 4; 5; 6; 7].
(** One round of the loop: whether the next eight probes match. *)
Definition avx2_round (h rem_probes : Z) (data : list Z) (off : Z) : option bool :=
  let hash_vector := mm256_mullo_epi32 (mm256_set1_epi32 h) multipliers in
  let word_addresses := mm256_srli_epi32 hash_vector 28 in
  lower ← mm256_loadu_si256 data off;
  upper ← mm256_loadu_si256 data (off + 32);
  let lower := mm256_permutevar8x32_epi32 lower word_addresses in
  let upper := mm256_permutevar8x32_epi32 upper word_addresses in
  let upper_lower_selector := mm256_srai_epi32 hash_vector 31 in
  let value_vector := mm256_blendv_epi8 lower upper upper_lower_selector in
  let k_selector := mm256_sub_epi32 zero_to_seven (mm256_set1_epi32 rem_probes) in
  let k_selector := mm256_srli_epi32 k_selector 31 in
  let bit_addresses := mm256_slli_epi32 hash_vector 4 in
  let bit_addresses := mm256_srli_epi32 bit_addresses 27 in
  let bit_mask := mm256_sllv_epi32 k_selector bit_addresses in
  Some (mm256_testc_si256 value_vector bit_mask).
(** [None] also if the fuel runs out; one round takes eight probes. *)
Fixpoint avx2_loop (fuel : nat) (h rem_probes : Z) (data : list Z) (off : Z) : option bool :=
  match fuel with
  | O => None
  | S fuel =>
      m ← avx2_round h rem_probes data off;
      if rem_probes <=? 8 then Some m
      else if negb m then Some false
      else avx2_loop fuel (u32 (h * 0xab25f4c1)) (rem_probes - 8) data off
  end.
Definition HashMayMatchPrepared_avx2 (h2 num_probes : Z) (data : list Z) (off : Z) : option bool :=
  avx2_loop (S (Z.to_nat num_probes)) h2 num_probes data off.
End FastLocalBloomImpl.

(** ** Legacy filters *)

(** A 32-bit rotation to the right. *)
Definition rotr32 (h n : Z) : Z := Z.lor (Z.shiftr h n) (u32 (Z.shiftl h (32 - n))).

Module LegacyNoLocalityBloomImpl.
(** 0.69 is the nearest [double]. *)
Definition ChooseNumProbes (bits_per_key : Z) : Z :=
  let num_probes := f64_trunc (f64_mul (f64_of_Z bits_per_key) (f64_div (f64_of_Z 69) (f64_of_Z 100))) in
  let num_probes := if num_probes <? 1 then 1 else num_probes in
  if 30 <? num_probes then 30 else num_probes.
Definition AddHash (h total_bits num_probes : Z) (data : list Z) : option (list Z) :=
  let delta := rotr32 h 17 in
  set_probes (fun h => h mod total_bits) (fun h => u32 (h + delta)) 0 (Z.to_nat num_probes) h data.
Definition HashMayMatch (h total_bits num_probes : Z) (data : list Z) : option bool :=
  let delta := rotr32 h 17 in
  test_probes (fun h => h mod total_bits) (fun h => u32 (h + delta)) 0 (Z.to_nat num_probes) h data.
End LegacyNoLocalityBloomImpl.

Module LegacyLocalityBloomImpl.
Section legacy.
Context (ExtraRotates : bool).
Definition GetLine (h num_lines : Z) : Z := (if ExtraRotates then rotr32 h 11 else h) mod num_lines.
Definition bitpos (log2_cache_line_bits h : Z) : Z := Z.land h (Z.shiftl 1 log2_cache_line_bits - 1).
Definition next (log2_cache_line_bits delta h : Z) : Z :=
  let h := if ExtraRotates then rotr32 h log2_cache_line_bits else h in u32 (h + delta).
Definition byte_offset (h num_lines log2_cache_line_bytes : Z) : Z := u32 (Z.shiftl (GetLine h num_lines) log2_cache_line_bytes).
Definition AddHash (h num_lines num_probes : Z) (data : list Z) (log2_cache_line_bytes : Z) : option (list Z) :=
  let log2_cache_line_bits := log2_cache_line_bytes + 3 in
  let delta := rotr32 h 17 in
  set_probes (bitpos log2_cache_line_bits) (next log2_cache_line_bits delta) (byte_offset h num_lines log2_cache_line_bytes)
    (Z.to_nat num_probes) h data.
Definition PrepareHashMayMatch (h num_lines log2_cache_line_bytes : Z) : Z := byte_offset h num_lines log2_cache_line_bytes.
Definition HashMayMatchPrepared (h num_probes : Z) (data : list Z) (off log2_cache_line_bytes : Z) : option bool :=
  let log2_cache_line_bits := log2_cache_line_bytes + 3 in
  let delta := rotr32 h 17 in
  test_probes (bitpos log2_cache_line_bits) (next log2_cache_line_bits delta) off (Z.to_nat num_probes) h data.
Definition HashMayMatch (h num_lines num_probes : Z) (data : list Z) (log2_cache_line_bytes : Z) : option bool :=
  HashMayMatchPrepared h num_probes data (byte_offset h num_lines log2_cache_line_bytes) log2_cache_line_bytes.
End legacy.
End LegacyLocalityBloomImpl.
