(* ===== verification/BloomProofs.v ===== *)
(** * Bloom filters have no false negatives

    What adding a hash does to the bits of a filter and what a query answers, for all implementations at once; that the
    queries that make eight probes at a time answer the same as those that make them one by one. *)

From stdpp Require Import prelude.
From Stdlib Require Import ZArith Lia Bool.
From S2P Require Import Prelude Coding Math Hash Float64 Bloom.

(** ** The bits of a filter *)

Definition bitat (data : list Z) (p : Z) : bool := Z.testbit (byte_at data (p / 8)) (p mod 8).
Fixpoint probes (bitpos next : Z -> Z) (off : Z) (n : nat) (h : Z) : list Z :=
  match n with O => [] | S n => (8 * off + bitpos h) :: probes bitpos next off n (next h) end.
Definition within (off : Z) (data : list Z) (ps : list Z) : Prop := Forall (fun p => 8 * off <= p < 8 * zlen data) ps.
(** Filter data is a string of bytes; adding only sets bits. *)
Definition adds (data data' : list Z) (ps : list Z) : Prop :=
  zlen data' = zlen data /\ bytes_ok data' /\ forall p, 0 <= p -> bitat data' p = bitat data p || bool_decide (p ∈ ps).

Lemma tbit_pow2 k i : 0 <= k -> 0 <= i -> Z.testbit (Z.shiftl 1 k) i = (i =? k).
Proof.
  intros Hk Hi. rewrite Z.shiftl_spec by done. destruct (Z.eqb_spec i k) as [->|Hne]; [by rewrite Z.sub_diag|].
  destruct (decide (i < k)); [by rewrite Z.testbit_neg_r by lia|]. replace 1 with (2 ^ 0) by done. rewrite Z.pow2_bits_eqb by lia. lia.
Qed.
Lemma mask_small b : 0 <= b -> u8 (Z.shiftl 1 (Z.land b 7)) = Z.shiftl 1 (b mod 8).
Proof.
  intros Hb. change 7 with (2 ^ 3 - 1). rewrite land_ones_mod by lia. change (2 ^ 3) with 8. pose proof (Z.mod_pos_bound b 8 ltac:(lia)).
  apply u8_small. rewrite Z.shiftl_1_l. split; [lia|]. apply Z.pow_lt_mono_r; lia.
Qed.
Lemma offset_div off b : 0 <= b -> off + Z.shiftr b 3 = (8 * off + b) / 8.
Proof. intros Hb. rewrite Z.shiftr_div_pow2 by lia. change (2 ^ 3) with 8. rewrite (Z.mul_comm 8), Z.div_add_l by lia. done. Qed.
Lemma offset_mod off b : (8 * off + b) mod 8 = b mod 8.
Proof. rewrite (Z.mul_comm 8), Z.add_comm, Z.mod_add by lia. done. Qed.

Lemma byte_at_lookup (data : list Z) i : 0 <= i < zlen data -> data !! Z.to_nat i = Some (byte_at data i).
Proof.
  intros Hi. unfold byte_at. unfold zlen in Hi. destruct (lookup_lt_is_Some_2 data (Z.to_nat i)) as [x E]; [lia|]. rewrite E. f_equal. symmetry. by apply nth_lookup_Some.
Qed.
Lemma byte_at_set (data : list Z) i j x : 0 <= i < zlen data -> 0 <= j -> byte_at (<[Z.to_nat i := x]> data) j = if decide (j = i) then x else byte_at data j.
Proof.
  intros Hi Hj. unfold byte_at, zlen in *. rewrite !nth_lookup. case_decide as E.
  - subst. rewrite list_lookup_insert_eq by lia. done.
  - by rewrite list_lookup_insert_ne by lia.
Qed.
Lemma byte_at_byte (data : list Z) i : bytes_ok data -> is_byte (byte_at data i).
Proof.
  intros Hd. unfold byte_at. rewrite nth_lookup. destruct (data !! Z.to_nat i) as [x|] eqn:E; [|done]. cbn. unfold bytes_ok in Hd. rewrite Forall_lookup in Hd. by eapply Hd.
Qed.

Lemma or_byte_adds data off b : 0 <= b -> 0 <= off -> bytes_ok data -> 8 * off + b < 8 * zlen data ->
  exists data', or_byte data (off + Z.shiftr b 3) (u8 (Z.shiftl 1 (Z.land b 7))) = Some data' /\ adds data data' [8 * off + b].
Proof.
  intros Hb Ho Hd Hlt. rewrite mask_small by done. rewrite offset_div by done. set (p := 8 * off + b) in *. rewrite <- (offset_mod off b). fold p.
  assert (Hp : 0 <= p / 8 < zlen data) by (split; [apply Z.div_pos; lia|apply Z.div_lt_upper_bound; lia]).
  pose proof (Z.mod_pos_bound p 8 ltac:(lia)) as Hm. pose proof (byte_at_byte data (p / 8) Hd) as Hby.
  assert (Hu : u8 (Z.lor (byte_at data (p / 8)) (Z.shiftl 1 (p mod 8))) = Z.lor (byte_at data (p / 8)) (Z.shiftl 1 (p mod 8))).
  { apply u8_small. split; [apply Z.lor_nonneg; split; [apply Hby|rewrite Z.shiftl_1_l; lia]|]. destruct (Z.eqb_spec (Z.lor (byte_at data (p / 8)) (Z.shiftl 1 (p mod 8))) 0) as [->|Hz]; [done|].
    apply Z.log2_lt_pow2; [assert (0 <= Z.lor (byte_at data (p / 8)) (Z.shiftl 1 (p mod 8))) by (apply Z.lor_nonneg; split; [apply Hby|rewrite Z.shiftl_1_l; lia]); lia|].
    rewrite Z.log2_lor by (try apply Hby; rewrite Z.shiftl_1_l; lia). rewrite Z.shiftl_1_l, Z.log2_pow2 by lia. apply Z.max_lub_lt; [|lia].
    destruct (decide (byte_at data (p / 8) = 0)) as [->|]; [done|]. apply Z.log2_lt_pow2; unfold is_byte, is_u in Hby; lia. }
  unfold or_byte. rewrite (proj2 (Z.leb_le _ _) (proj1 Hp)), byte_at_lookup by done. cbn [mbind option_bind]. eexists. split; [done|]. rewrite Hu. split_and!.
  - unfold zlen. by rewrite length_insert.
  - apply Forall_insert; [done|]. rewrite <- Hu. apply u8_range.
  - intros q Hq. unfold bitat. rewrite byte_at_set by (try done; apply Z.div_pos; lia). pose proof (Z.mod_pos_bound q 8 ltac:(lia)).
    case_decide as E.
    + rewrite Z.lor_spec, tbit_pow2 by lia. rewrite E. f_equal. destruct (Z.eqb_spec (q mod 8) (p mod 8)) as [E2|E2]; symmetry.
      * apply bool_decide_eq_true, list_elem_of_singleton. rewrite (Z.div_mod q 8), (Z.div_mod p 8) by lia. lia.
      * apply bool_decide_eq_false. rewrite list_elem_of_singleton. by intros ->.
    + rewrite (bool_decide_false (q ∈ [p])), orb_false_r; [done|]. rewrite list_elem_of_singleton. by intros ->.
Qed.

Lemma adds_refl data : bytes_ok data -> adds data data [].
Proof. intros Hd. split_and!; [done|done|]. intros p _. by rewrite (bool_decide_false (p ∈ [])), orb_false_r by apply not_elem_of_nil. Qed.
Lemma adds_trans d1 d2 d3 ps qs : adds d1 d2 ps -> adds d2 d3 qs -> adds d1 d3 (ps ++ qs).
Proof.
  intros (E1 & _ & H1) (E2 & B2 & H2). split_and!; [congruence|done|]. intros p Hp. rewrite H2, H1 by done. rewrite <- orb_assoc. f_equal.
  apply eq_bool_prop_intro. rewrite orb_True, !bool_decide_spec, elem_of_app. done.
Qed.

Section probing.
Context (bitpos next : Z -> Z) (off : Z) (off_nonneg : 0 <= off).
Notation probes := (probes bitpos next off).
Lemma set_probes_adds n : forall h data, bytes_ok data -> within off data (probes n h) ->
  exists data', set_probes bitpos next off n h data = Some data' /\ adds data data' (probes n h).
Proof.
  induction n as [|n IH]; intros h data Hd Hw; cbn [Bloom.set_probes BloomProofs.probes] in *; [exists data; split; [done|by apply adds_refl]|].
  apply Forall_cons in Hw as [Hp Hw]. destruct (or_byte_adds data off (bitpos h)) as (d1 & -> & Ha); [lia|done|done|lia|]. cbn [mbind option_bind].
  destruct (IH (next h) d1) as (d2 & -> & Ha2); [apply Ha|unfold within; destruct Ha as [-> _]; done|]. exists d2. split; [done|]. by apply (adds_trans data d1 d2 [_]).
Qed.
Lemma test_probes_all n : forall h data, within off data (probes n h) -> test_probes bitpos next off n h data = Some (forallb (bitat data) (probes n h)).
Proof.
  induction n as [|n IH]; intros h data Hw; cbn [Bloom.test_probes BloomProofs.probes forallb] in *; [done|]. apply Forall_cons in Hw as [Hp Hw].
  assert (Hb : 0 <= bitpos h) by lia. rewrite offset_div by done. assert (Hq : 0 <= (8 * off + bitpos h) / 8 < zlen data) by (split; [apply Z.div_pos; lia|apply Z.div_lt_upper_bound; lia]).
  unfold get_byte. rewrite (proj2 (Z.leb_le _ _) (proj1 Hq)), byte_at_lookup by done. cbn [mbind option_bind]. rewrite mask_small by done. rewrite <- (offset_mod off).
  pose proof (Z.mod_pos_bound (8 * off + bitpos h) 8 ltac:(lia)) as Hm. rewrite Z.shiftl_1_l.
  assert (Hbit : (Z.land (byte_at data ((8 * off + bitpos h) / 8)) (2 ^ ((8 * off + bitpos h) mod 8)) =? 0) = negb (bitat data (8 * off + bitpos h))).
  { unfold bitat. destruct (Z.testbit _ _) eqn:Et; cbn [negb].
    - apply Z.eqb_neq. intros E0. apply (f_equal (fun z => Z.testbit z ((8 * off + bitpos h) mod 8))) in E0. rewrite Z.land_spec, Et, Z.pow2_bits_true, Z.testbit_0_l in E0 by lia. done.
    - apply Z.eqb_eq. apply Z.bits_inj'. intros i Hi. rewrite Z.land_spec, Z.pow2_bits_eqb, Z.testbit_0_l by lia. destruct (Z.eqb_spec ((8 * off + bitpos h) mod 8) i) as [<-|]; [by rewrite Et|by rewrite andb_false_r]. }
  rewrite Hbit. destruct (bitat data _); cbn [negb andb]; [by apply IH|done].
Qed.
End probing.

(** ** Eight probes at a time *)

Module Avx2.
Import FastLocalBloomImpl.

Lemma iter_next i h : is_u 32 h -> Nat.iter i next h = u32 (h * golden ^ Z.of_nat i).
Proof.
  intros Hh. induction i as [|i IH]; [cbn; rewrite Z.mul_1_r; by rewrite u32_small|].
  rewrite Nat.iter_succ, IH. unfold next, u32. rewrite Z.mul_mod_idemp_l by done. f_equal. rewrite Nat2Z.inj_succ, Z.pow_succ_r by lia. lia.
Qed.
Lemma probes_iter off n : forall h, probes bitpos next off n h = map (fun i => 8 * off + bitpos (Nat.iter i next h)) (seq 0 n).
Proof.
  induction n as [|n IH]; intros h; [done|]. cbn [probes seq map]. f_equal. rewrite IH, <- seq_shift, map_map. apply map_ext. intros i. by rewrite Nat.iter_succ_r.
Qed.
Lemma probes_app off n m h : probes bitpos next off (n + m) h = probes bitpos next off n h ++ probes bitpos next off m (Nat.iter n next h).
Proof.
  revert h. induction n as [|n IH]; intros h; [done|]. cbn [Nat.add probes app]. by rewrite IH, Nat.iter_succ_r.
Qed.

(** *** The words of a cache line *)

Lemma le_val_bit l i : bytes_ok l -> 0 <= i -> Z.testbit (le_val l) i = bitat l i.
Proof.
  intros Hl. revert i. induction Hl as [|b l Hb Hl IH]; intros i Hi; unfold bitat.
  - cbn. rewrite Z.testbit_0_l. unfold byte_at. destruct (Z.to_nat _); by rewrite Z.testbit_0_l.
  - cbn [le_val]. rewrite (Z.mul_comm (2 ^ 8)). rewrite <- (lor_add_pow2 b (le_val l) 8) by (try done; lia). rewrite Z.lor_spec, Z.shiftl_spec by done.
    destruct (decide (i < 8)).
    + rewrite (Z.testbit_neg_r _ (i - 8)) by lia. rewrite orb_false_r, Z.div_small, Z.mod_small by lia. done.
    + rewrite (tbit_high b 8) by (done || lia). cbn [orb]. rewrite IH by lia. unfold bitat. replace (i / 8) with ((i - 8) / 8 + 1) by (rewrite <- Z.div_add by lia; f_equal; lia).
      replace (i mod 8) with ((i - 8) mod 8) by (rewrite <- (Z.mod_add (i - 8) 1) by lia; f_equal; lia). f_equal. unfold byte_at.
      rewrite Z2Nat.inj_add by (try apply Z.div_pos; lia). rewrite Nat.add_1_r. done.
Qed.
Lemma word_bit data o w a : bytes_ok data -> 0 <= o -> 0 <= w -> 0 <= a < 32 -> o + 4 * w + 4 <= zlen data ->
  Z.testbit (le_val (zsub (o + 4 * w) 4 data)) a = bitat data (8 * o + 32 * w + a).
Proof.
  intros Hd Ho Hw Ha Hlen. rewrite le_val_bit by (lia || (apply Forall_take, Forall_drop; done)). unfold bitat.
  replace (8 * o + 32 * w + a) with (8 * (o + 4 * w) + a) by lia. rewrite offset_mod. rewrite (Z.mul_comm 8), Z.div_add_l by lia. f_equal.
  pose proof (Z.div_pos a 8 ltac:(lia) ltac:(lia)). assert (a / 8 < 4) by (apply Z.div_lt_upper_bound; lia).
  unfold byte_at, zsub, ztake, zdrop. rewrite !nth_lookup. rewrite lookup_take_lt by lia. rewrite lookup_drop. do 2 f_equal. lia.
Qed.
Definition word (data : list Z) (o w : Z) : Z := le_val (zsub (o + 4 * w) 4 data).
Lemma word_range data o w : bytes_ok data -> is_u 32 (word data o w).
Proof.
  intros Hd. unfold word. pose proof (le_val_range (zsub (o + 4 * w) 4 data) ltac:(apply Forall_take, Forall_drop; done)) as Hr.
  assert (zlen (zsub (o + 4 * w) 4 data) <= 4) by (unfold zlen, zsub, ztake; rewrite length_take; lia). unfold is_u.
  enough (2 ^ (8 * zlen (zsub (o + 4 * w) 4 data)) <= 2 ^ 32) by lia. apply Z.pow_le_mono_r; lia.
Qed.

(** *** One lane *)

Lemma blend_all a b : is_u 32 a -> is_u 32 b -> blend_lane a b (2 ^ 32 - 1) = b /\ blend_lane a b 0 = a.
Proof.
  intros Ha Hb. unfold blend_lane, blend_byte. rewrite !Z.testbit_0_l. change (Z.testbit (2 ^ 32 - 1) _) with true.
  assert (Hx : forall x, is_u 32 x -> le_val [Z.land (Z.shiftr x (8 * 0)) 255; Z.land (Z.shiftr x (8 * 1)) 255; Z.land (Z.shiftr x (8 * 2)) 255; Z.land (Z.shiftr x (8 * 3)) 255] = x).
  { intros x Hx. change 255 with (2 ^ 8 - 1). rewrite !land_ones_mod by lia. rewrite !Z.shiftr_div_pow2 by lia. rewrite <- (le_val_bytes_small 4 x) at 5 by done.
    f_equal. cbn [le_bytes]. unfold u8. rewrite ?Z.shiftr_div_pow2 by lia. rewrite !Z.div_div by lia. by rewrite Z.div_1_r. }
  by split; apply Hx.
Qed.
Lemma selector_word x : is_u 32 x -> u32 (Z.shiftr (i32 x) 31) = if 8 <=? Z.shiftr x 28 then 2 ^ 32 - 1 else 0.
Proof.
  intros Hx. unfold i32, signed. rewrite Z.mod_small by done. rewrite !Z.shiftr_div_pow2 by lia. change (2 ^ (32 - 1)) with 2147483648. unfold is_u in Hx.
  change (2 ^ 32) with 4294967296 in *. change (2 ^ 31) with 2147483648. change (2 ^ 28) with 268435456.
  destruct (Z.ltb_spec x 2147483648), (Z.leb_spec 8 (x / 268435456)); unfold u32.
  - Z.to_euclidean_division_equations. lia.
  - by rewrite Z.div_small by lia.
  - replace ((x - 4294967296) / 2147483648) with (-1) by (Z.to_euclidean_division_equations; lia). done.
  - Z.to_euclidean_division_equations. lia.
Qed.
Definition half (data : list Z) (o : Z) : list Z := map (fun i => le_val (zsub (o + 4 * i) 4 data)) (map Z.of_nat (seq 0 8)).
Lemma half_nth data o i : 0 <= i < 8 -> nth (Z.to_nat i) (half data o) 0 = word data o i.
Proof.
  intros Hi. unfold half. rewrite map_map. rewrite nth_lookup, list_lookup_fmap, lookup_seq_lt by lia. cbn. unfold word. by rewrite Z2Nat.id by lia.
Qed.
(** The word the lane reads. *)
Lemma lane_word data off x : bytes_ok data -> is_u 32 x ->
  blend_lane (nth (Z.to_nat (Z.land (Z.shiftr x 28) 7)) (half data off) 0) (nth (Z.to_nat (Z.land (Z.shiftr x 28) 7)) (half data (off + 32)) 0)
    (u32 (Z.shiftr (i32 x) 31)) = word data off (Z.shiftr x 28).
Proof.
  intros Hd Hx. rewrite selector_word by done. change 7 with (2 ^ 3 - 1). rewrite land_ones_mod by lia. change (2 ^ 3) with 8.
  assert (Hw : 0 <= Z.shiftr x 28 < 16).
  { rewrite Z.shiftr_div_pow2 by lia. unfold is_u in Hx. split; [apply Z.div_pos; lia|apply Z.div_lt_upper_bound; lia]. }
  pose proof (Z.mod_pos_bound (Z.shiftr x 28) 8 ltac:(lia)). rewrite !half_nth by done. destruct (blend_all (word data off (Z.shiftr x 28 mod 8)) (word data (off + 32) (Z.shiftr x 28 mod 8))) as [Eb Ea]; [by apply word_range..|].
  destruct (Z.leb_spec 8 (Z.shiftr x 28)).
  - rewrite Eb. unfold word. do 2 f_equal. rewrite <- (Z.mod_add _ (-1)) by lia. rewrite Z.mod_small by lia. lia.
  - rewrite Ea. by rewrite Z.mod_small by lia.
Qed.
(** Whether it finds its bit. *)
Lemma lane_bit v a k : 0 <= a < 32 -> k = 0 \/ k = 1 -> (Z.land (Z.lnot v) (if a <? 32 then u32 (Z.shiftl k a) else 0) =? 0) = (k =? 0) || Z.testbit v a.
Proof.
  intros Ha [->| ->]; rewrite (proj2 (Z.ltb_lt _ _) (proj2 Ha)).
  - by rewrite Z.shiftl_0_l, Z.land_0_r.
  - rewrite Z.shiftl_1_l, u32_small by (split; [lia|apply Z.pow_lt_mono_r; lia]). cbn [Z.eqb orb]. destruct (Z.testbit v a) eqn:Et.
    + apply Z.eqb_eq, Z.bits_inj'. intros i Hi. rewrite Z.land_spec, Z.lnot_spec, Z.pow2_bits_eqb, Z.testbit_0_l by lia. destruct (Z.eqb_spec a i) as [<-|]; [by rewrite Et|by rewrite andb_false_r].
    + apply Z.eqb_neq. intros E0. apply (f_equal (fun z => Z.testbit z a)) in E0. rewrite Z.land_spec, Z.lnot_spec, Et, Z.pow2_bits_true, Z.testbit_0_l in E0 by lia. done.
Qed.
Lemma address_split x : is_u 32 x -> bitpos x = 32 * Z.shiftr x 28 + Z.shiftr (u32 (Z.shiftl x 4)) 27 /\ 0 <= Z.shiftr (u32 (Z.shiftl x 4)) 27 < 32.
Proof.
  intros Hx. unfold is_u in Hx. unfold bitpos, u32. change (32 - 9) with 23. rewrite !Z.shiftr_div_pow2, Z.shiftl_mul_pow2 by lia.
  change (2 ^ 32) with 4294967296 in *. change (2 ^ 23) with 8388608. change (2 ^ 28) with 268435456. change (2 ^ 27) with 134217728. change (2 ^ 4) with 16.
  Z.to_euclidean_division_equations. lia.
Qed.
Lemma lane_match data off x k : bytes_ok data -> 0 <= off -> off + 64 <= zlen data -> is_u 32 x -> k = 0 \/ k = 1 ->
  (Z.land (Z.lnot (blend_lane (nth (Z.to_nat (Z.land (Z.shiftr x 28) 7)) (half data off) 0) (nth (Z.to_nat (Z.land (Z.shiftr x 28) 7)) (half data (off + 32)) 0)
     (u32 (Z.shiftr (i32 x) 31)))) (if Z.shiftr (u32 (Z.shiftl x 4)) 27 <? 32 then u32 (Z.shiftl k (Z.shiftr (u32 (Z.shiftl x 4)) 27)) else 0) =? 0) =
  (k =? 0) || bitat data (8 * off + bitpos x).
Proof.
  intros Hd Ho Hlen Hx Hk. destruct (address_split x Hx) as [-> Ha]. rewrite lane_word, lane_bit by done. f_equal. unfold word.
  assert (Hw : 0 <= Z.shiftr x 28 < 16).
  { rewrite Z.shiftr_div_pow2 by lia. unfold is_u in Hx. split; [apply Z.div_pos; lia|apply Z.div_lt_upper_bound; lia]. }
  rewrite word_bit by (done || lia). f_equal. lia.
Qed.

(** *** Rounds *)

Lemma k_selected i rem : 0 <= i < 8 -> 0 <= rem < 2 ^ 31 -> Z.shiftr (u32 (i - u32 rem)) 31 = if i <? rem then 1 else 0.
Proof.
  intros Hi Hr. rewrite (u32_small rem) by lia. unfold u32. rewrite Z.shiftr_div_pow2 by lia. change (2 ^ 32) with 4294967296. change (2 ^ 31) with 2147483648 in *.
  destruct (Z.ltb_spec i rem); Z.to_euclidean_division_equations; lia.
Qed.
Lemma multiplied i h : (i < 8)%nat -> is_u 32 h -> u32 (u32 h * nth i multipliers 0) = Nat.iter i next h.
Proof.
  intros Hi Hh. rewrite iter_next, (u32_small h) by done. unfold u32. rewrite <- (Z.mul_mod_idemp_r h (golden ^ _)), <- (Z.mul_mod_idemp_r h (nth _ _ _)) by done. do 2 f_equal.
  do 8 (destruct i as [|i]; [by vm_compute|]). lia.
Qed.
Lemma load_half data o : 0 <= o -> o + 32 <= zlen data -> mm256_loadu_si256 data o = Some (half data o).
Proof. intros Ho Hl. unfold mm256_loadu_si256. by rewrite (proj2 (Z.leb_le _ _) Ho), (proj2 (Z.leb_le _ _) Hl). Qed.

Lemma avx2_round_lanes h rem data off : bytes_ok data -> 0 <= off -> off + 64 <= zlen data -> is_u 32 h -> 0 <= rem < 2 ^ 31 ->
  avx2_round h rem data off = Some (forallb (fun i => negb (Z.of_nat i <? rem) || bitat data (8 * off + bitpos (Nat.iter i next h))) (seq 0 8)).
Proof.
  intros Hd Ho Hl Hh Hr. unfold avx2_round. rewrite !load_half by lia. cbn [mbind option_bind]. f_equal.
  assert (Hlane : forall i, (i < 8)%nat -> forall k, k = Z.shiftr (u32 (Z.of_nat i - u32 rem)) 31 ->
    (Z.land (Z.lnot (blend_lane (nth (Z.to_nat (Z.land (Z.shiftr (u32 (u32 h * nth i multipliers 0)) 28) 7)) (half data off) 0)
       (nth (Z.to_nat (Z.land (Z.shiftr (u32 (u32 h * nth i multipliers 0)) 28) 7)) (half data (off + 32)) 0) (u32 (Z.shiftr (i32 (u32 (u32 h * nth i multipliers 0))) 31))))
       (if Z.shiftr (u32 (Z.shiftl (u32 (u32 h * nth i multipliers 0)) 4)) 27 <? 32 then u32 (Z.shiftl k (Z.shiftr (u32 (Z.shiftl (u32 (u32 h * nth i multipliers 0)) 4)) 27)) else 0) =? 0) =
    negb (Z.of_nat i <? rem) || bitat data (8 * off + bitpos (Nat.iter i next h))).
  { intros i Hi k ->. rewrite k_selected by lia. rewrite lane_match by (try done; try apply u32_range; destruct (_ <? _); tauto). rewrite multiplied by done. f_equal. by destruct (_ <? _). }
  pose proof (Hlane 0%nat ltac:(lia) _ eq_refl) as L0. pose proof (Hlane 1%nat ltac:(lia) _ eq_refl) as L1. pose proof (Hlane 2%nat ltac:(lia) _ eq_refl) as L2. pose proof (Hlane 3%nat ltac:(lia) _ eq_refl) as L3.
  pose proof (Hlane 4%nat ltac:(lia) _ eq_refl) as L4. pose proof (Hlane 5%nat ltac:(lia) _ eq_refl) as L5. pose proof (Hlane 6%nat ltac:(lia) _ eq_refl) as L6. pose proof (Hlane 7%nat ltac:(lia) _ eq_refl) as L7.
  cbn [nth multipliers] in L0, L1, L2, L3, L4, L5, L6, L7. cbn [seq forallb]. rewrite <- L0, <- L1, <- L2, <- L3, <- L4, <- L5, <- L6, <- L7. reflexivity.
Qed.
Lemma guarded_probes (f : nat -> bool) n : forallb (fun i => negb (Z.of_nat i <? Z.of_nat n) || f i) (seq 0 8) = forallb f (seq 0 (Nat.min 8 n)).
Proof.
  assert (E : forall i, (Z.of_nat i <? Z.of_nat n) = (i <? n)%nat) by (intros i; apply eq_true_iff_eq; rewrite Z.ltb_lt, Nat.ltb_lt; lia).
  cbn [seq forallb]. rewrite !E. do 8 (destruct n as [|n]; [cbn; rewrite ?andb_true_r; reflexivity|]). reflexivity.
Qed.
Lemma forallb_map {A B} (f : B -> bool) (g : A -> B) l : forallb f (map g l) = forallb (fun x => f (g x)) l.
Proof. induction l as [|x l IH]; cbn; [done|by rewrite IH]. Qed.
Lemma avx2_round_probes h n data off : bytes_ok data -> 0 <= off -> off + 64 <= zlen data -> is_u 32 h -> Z.of_nat n < 2 ^ 31 ->
  avx2_round h (Z.of_nat n) data off = Some (forallb (bitat data) (probes bitpos next off (Nat.min 8 n) h)).
Proof.
  intros Hd Ho Hl Hh Hn. rewrite avx2_round_lanes by (done || lia). by rewrite guarded_probes, probes_iter, forallb_map.
Qed.
Lemma avx2_loop_probes fuel : forall h n data off, bytes_ok data -> 0 <= off -> off + 64 <= zlen data -> is_u 32 h -> Z.of_nat n < 2 ^ 31 -> (n < fuel)%nat ->
  avx2_loop fuel h (Z.of_nat n) data off = Some (forallb (bitat data) (probes bitpos next off n h)).
Proof.
  induction fuel as [|fuel IH]; intros h n data off Hd Ho Hl Hh Hn Hf; [lia|]. cbn [avx2_loop]. rewrite avx2_round_probes by done. cbn [mbind option_bind].
  destruct (Z.leb_spec (Z.of_nat n) 8); [by rewrite Nat.min_r by lia|]. rewrite Nat.min_l by lia. replace n with (8 + (n - 8))%nat at 2 by lia. rewrite probes_app, forallb_app.
  destruct (forallb (bitat data) (probes bitpos next off 8 h)); cbn [negb andb]; [|done]. replace (Z.of_nat n - 8) with (Z.of_nat (n - 8)) by lia.
  rewrite IH by (done || lia || apply u32_range). do 3 f_equal. rewrite iter_next by done. unfold u32. rewrite <- (Z.mul_mod_idemp_r h (golden ^ _)) by done. reflexivity.
Qed.
End Avx2.

(** The bit addresses of [FastLocalBloomImpl] are those of the cache line. *)
Lemma fast_bitpos h : is_u 32 h -> 0 <= FastLocalBloomImpl.bitpos h < 512.
Proof.
  intros Hh. unfold FastLocalBloomImpl.bitpos, is_u in *. rewrite Z.shiftr_div_pow2 by lia. split; [apply Z.div_pos; lia|apply Z.div_lt_upper_bound; lia].
Qed.
Lemma fast_probes off n : forall h, is_u 32 h -> Forall (fun p => 8 * off <= p < 8 * (off + 64)) (probes FastLocalBloomImpl.bitpos FastLocalBloomImpl.next off n h).
Proof.
  induction n as [|n IH]; intros h Hh; cbn [probes]; constructor; [pose proof (fast_bitpos h Hh); lia|]. apply IH, u32_range.
Qed.

(** C32: The query of a cache line that makes eight probes at a time with AVX2 instructions answers exactly what the query
    that makes them one by one answers, for every hash, number of probes and content of the line. *)
Theorem avx2_query_equiv h2 num_probes data off : bytes_ok data -> 0 <= off -> off + 64 <= zlen data -> is_u 32 h2 -> 0 <= num_probes < 2 ^ 31 ->
  FastLocalBloomImpl.HashMayMatchPrepared_avx2 h2 num_probes data off = FastLocalBloomImpl.HashMayMatchPrepared h2 num_probes data off.
Proof.
  intros Hd Ho Hl Hh Hn. unfold FastLocalBloomImpl.HashMayMatchPrepared_avx2, FastLocalBloomImpl.HashMayMatchPrepared.
  rewrite <- (Z2Nat.id num_probes) at 2 by lia. rewrite Avx2.avx2_loop_probes by (done || lia). symmetry. apply test_probes_all; [done|].
  eapply Forall_impl; [by apply fast_probes|]. intros p Hp. cbn in Hp. lia.
Qed.
Lemma avx2_query_equiv_witness :
  FastLocalBloomImpl.HashMayMatchPrepared_avx2 0x12345678 10 (replicate 64 0xff) 0 = FastLocalBloomImpl.HashMayMatchPrepared 0x12345678 10 (replicate 64 0xff) 0.
Proof.
  apply (avx2_query_equiv 0x12345678 10 (replicate 64 0xff) 0); [|done..]. by apply Forall_replicate.
Defined.
