(* ===== verification/Ribbon.v ===== *)
(** * Ribbon filters (util/ribbon_alg.h, util/ribbon_impl.h)

    A Ribbon filter is the solution of a system of linear equations over GF(2), one equation for each key and column. [StandardBanding] brings the equations into echelon form
    as they are added, [SerializableInterleavedSolution] is the solution by back substitution as it is stored in a filter, and [InMemSimpleSolution] a simple
    form of it. The types and settings of the templates are a record. A [CoeffRow] is a number of [kCoeffBits] bits (with 128 bits, the operations of the two-word struct compute
    the same, [unsigned128_refinement]). [None] is an access outside of an array or of uninitialised memory, or other undefined behaviour. Prefetching has no effect. *)

From stdpp Require Import prelude.
From Stdlib Require Import ZArith Lia Bool SpecFloat.
From S2P Require Import Prelude Coding Math Float64.

(** ** Types and settings *)

Record TypesAndSettings := mkSettings {
  kCoeffBits : Z;
  kResultBits : Z;
  (** Bytes of [Index], [Hash] and [Seed]. *)
  index_bytes : nat;
  hash_bytes : nat;
  seed_bytes : nat;
  kIsFilter : bool;
  kHomogeneous : bool;
  kFirstCoeffAlwaysOne : bool;
  kUseSmash : bool;
  kAllowZeroStarts : bool;
}.

(** ** Rows of coefficients *)

Definition to128 (v : Z) : Unsigned128.t := Unsigned128.mk (u64 v) (Z.shiftr v 64).
Definition row_BitParity (w v : Z) : Z := if w =? 128 then BitParity_128 (to128 v) else BitParity v.
Definition row_CountTrailingZeroBits (w v : Z) : Z := if w =? 128 then CountTrailingZeroBits_128 (to128 v) else CountTrailingZeroBits v.
Definition row (w v : Z) : Z := v mod 2 ^ w.

Section generic.
Context `{Port}.
Definition EncodeFixedGeneric (w v : Z) : list Z :=
  if w =? 16 then EncodeFixed16 v else if w =? 32 then EncodeFixed32 v else if w =? 64 then EncodeFixed64 v else EncodeFixed128 (to128 v).
Definition DecodeFixedGeneric (w : Z) (ptr : list Z) : Z :=
  if w =? 16 then DecodeFixed16 ptr else if w =? 32 then DecodeFixed32 ptr else if w =? 64 then DecodeFixed64 ptr else Unsigned128.val (DecodeFixed128 ptr).
End generic.

Section ribbon.
Context (ts : TypesAndSettings).
Definition ix (v : Z) : Z := wrapT (index_bytes ts) v.
Definition hw (v : Z) : Z := wrapT (hash_bytes ts) v.
Definition sw (v : Z) : Z := wrapT (seed_bytes ts) v.
Definition rw (v : Z) : Z := v mod 2 ^ kResultBits ts.

(** ** [StandardHasher] *)

Definition kCoeffAndResultFactor : Z := hw 0xc28f82822b650bed.
Definition kAltCoeffFactor1 : Z := 0x876f170be4f1fcb9.
Definition kAltCoeffFactor2 : Z := 0xf0433a4aecda4c5f.
Definition kCoeffXor32 : Z := 0xa6293635.
Definition kCoeffXor64 : Z := 0xc367844a6e52731d.
Definition kSeedMixMask : Z := hw 0xf0f0f0f0f0f0f0f0.
Definition kSeedMixShift : Z := 4.
Definition kToRawSeedFactor : Z := hw 0xc78219a23eeadd03.
Definition kFromRawSeedFactor : Z := hw 0xfe1a137d14b475ab.

Definition FastRangeGeneric (h range : Z) : Z :=
  if (hash_bytes ts =? 4)%nat then FastRangeGeneric32 (index_bytes ts) h range else FastRangeGeneric64 (index_bytes ts) h range.
Definition GetStart (h num_starts : Z) : Z :=
  if kUseSmash ts then
    let kFrontSmash := kCoeffBits ts / 4 in
    let kBackSmash := kCoeffBits ts / 4 in
    let start := FastRangeGeneric h (ix (num_starts + kFrontSmash + kBackSmash)) in
    let start := Z.max start kFrontSmash in
    let start := start - kFrontSmash in
    Z.min start (ix (num_starts - 1))
  else FastRangeGeneric h num_starts.

Definition GetCoeffRow (h : Z) : Z :=
  if kUseSmash ts then
    let a := Unsigned128.val (Multiply64to128 h kAltCoeffFactor1) in
    let b := Unsigned128.val (Multiply64to128 h kAltCoeffFactor2) in
    let cr := row (kCoeffBits ts) (Z.lxor (Z.lxor b (row 128 (Z.shiftl a 64))) (Z.shiftr a 64)) in
    if kFirstCoeffAlwaysOne ts then Z.lor cr 1 else Z.lor cr (if cr =? 0 then 1 else 0)
  else
    let a := hw (h * kCoeffAndResultFactor) in
    let b := if (hash_bytes ts <? 8)%nat then Z.lxor (u64 (Z.shiftl a 32)) (Z.lxor a kCoeffXor32) else a in
    let c := if 64 <? kCoeffBits ts then Z.lxor (row 128 (Z.shiftl b 64)) (Z.lxor b kCoeffXor64) else b in
    let cr := row (kCoeffBits ts) c in
    if kFirstCoeffAlwaysOne ts then Z.lor cr 1
    else if kCoeffBits ts =? bits (hash_bytes ts) then Z.lor cr (if cr =? 0 then 1 else 0)
    else cr.
Definition GetResultRowMask : Z := rw (Z.lnot 0).
Definition GetResultRowFromHash (h : Z) : Z :=
  if kIsFilter ts && negb (kHomogeneous ts) then
    let a := hw (h * kCoeffAndResultFactor) in
    let rr := rw (EndianSwapValue (hash_bytes ts) a) in
    Z.land rr GetResultRowMask
  else 0.

Definition seed_mix (tmp : Z) : Z := Z.lxor tmp (Z.shiftr (Z.land tmp kSeedMixMask) kSeedMixShift).
(** The raw seed of an ordinal seed. *)
Definition SetOrdinalSeed (count : Z) : Z :=
  let tmp := hw (count * kToRawSeedFactor) in
  sw (seed_mix tmp).
Definition GetOrdinalSeed (raw_seed_ : Z) : Z :=
  let tmp := raw_seed_ in
  sw (hw (seed_mix tmp * kFromRawSeedFactor)).

(** [StandardRehasherAdapter::HashFn] *)
Definition kRehashFactor : Z := hw 0x6193d459236a3a0d.
Definition Rehash_HashFn (input raw_seed : Z) : Z := hw (Z.lxor input raw_seed * kRehashFactor).

Section hashed.
Context {Key : Type} (HashFn : Key -> Z -> Z).
Definition GetHash (raw_seed_ : Z) (key : Key) : Z := HashFn key raw_seed_.
(** An input is a key, and for a general function also its result. *)
Notation AddInput := (Key * Z)%type.
Definition GetResultRowFromInput (bi : AddInput) : Z := if kIsFilter ts then 0 else bi.2.

(** ** [StandardBanding] *)

Record StandardBanding := mkBanding {
  coeff_rows_ : list Z;
  result_rows_ : list Z;
  num_starts_ : Z;
  num_slots_allocated_ : Z;
  backtrack_ : list (option Z);
  backtrack_size_ : Z;
  raw_seed_ : Z;
}.
Definition default_banding : StandardBanding := mkBanding [] [] 0 0 [] 0 0.
Definition set_rows (crs rrs : list Z) (s : StandardBanding) : StandardBanding :=
  mkBanding crs rrs (num_starts_ s) (num_slots_allocated_ s) (backtrack_ s) (backtrack_size_ s) (raw_seed_ s).
Definition set_backtrack (bt : list (option Z)) (size : Z) (s : StandardBanding) : StandardBanding :=
  mkBanding (coeff_rows_ s) (result_rows_ s) (num_starts_ s) (num_slots_allocated_ s) bt size (raw_seed_ s).

Definition EnsureBacktrackSize (backtrack_size : Z) (s : StandardBanding) : StandardBanding :=
  if backtrack_size_ s <? backtrack_size then set_backtrack (replicate (Z.to_nat backtrack_size) None) backtrack_size s else s.
Definition zero_rows (n : nat) (rows : list Z) : list Z := replicate (Nat.min n (length rows)) 0 ++ drop n rows.
Definition Reset (num_slots backtrack_size : Z) (s : StandardBanding) : StandardBanding :=
  let n := Z.to_nat num_slots in
  let zeros := replicate n 0 in
  let s :=
    if num_slots =? 0 then mkBanding (coeff_rows_ s) (result_rows_ s) 0 (num_slots_allocated_ s) (backtrack_ s) (backtrack_size_ s) (raw_seed_ s)
    else
      let num_starts := ix (num_slots - kCoeffBits ts + 1) in
      if num_slots_allocated_ s <? num_slots then
        mkBanding zeros (if kHomogeneous ts then result_rows_ s else zeros) num_starts num_slots (backtrack_ s) (backtrack_size_ s) (raw_seed_ s)
      else
        mkBanding (zero_rows n (coeff_rows_ s)) (if kHomogeneous ts then result_rows_ s else zero_rows n (result_rows_ s)) num_starts
          (num_slots_allocated_ s) (backtrack_ s) (backtrack_size_ s) (raw_seed_ s) in
  EnsureBacktrackSize backtrack_size s.

Definition UsePrefetch (s : StandardBanding) : bool := 1500 <? num_starts_ s.
Definition LoadRow (i : Z) (for_back_subst : bool) (s : StandardBanding) : option (Z * Z) :=
  cr ← coeff_rows_ s !! Z.to_nat i;
  if kHomogeneous ts then Some (cr, if for_back_subst && (cr =? 0) then rw (u64 (i * 0x9E3779B185EBCA87)) else 0)
  else rr ← result_rows_ s !! Z.to_nat i; Some (cr, rr).
(** A store out of range is undefined. *)
Definition store (rows : list Z) (i v : Z) : option (list Z) := _ ← rows !! Z.to_nat i; Some (<[Z.to_nat i := v]> rows).
Definition StoreRow (i cr rr : Z) (s : StandardBanding) : option StandardBanding :=
  crs ← store (coeff_rows_ s) i cr;
  if kHomogeneous ts then Some (set_rows crs (result_rows_ s) s)
  else rrs ← store (result_rows_ s) i rr; Some (set_rows crs rrs s).
Definition BacktrackPut (i to_save : Z) (s : StandardBanding) : option StandardBanding :=
  _ ← backtrack_ s !! Z.to_nat i;
  Some (set_backtrack (<[Z.to_nat i := Some to_save]> (backtrack_ s)) (backtrack_size_ s) s).
Definition BacktrackGet (i : Z) (s : StandardBanding) : option Z := v ← backtrack_ s !! Z.to_nat i; v.

(** ** Banding

    [bts] tells whether the banding is also the storage for backtracking, or [NoopBacktrackStorage] is. *)

Fixpoint BandingAdd_loop (fuel : nat) (bts : bool) (i rr cr backtrack_pos : Z) (bs : StandardBanding) : option (bool * StandardBanding * Z) :=
  match fuel with
  | O => None
  | S fuel =>
      '(cr_at_i, rr_at_i) ← LoadRow i false bs;
      if cr_at_i =? 0 then
        bs ← StoreRow i cr rr bs;
        bs ← (if bts then BacktrackPut backtrack_pos i bs else Some bs);
        Some (true, bs, ix (backtrack_pos + 1))
      else
        let cr := Z.lxor cr cr_at_i in
        let rr := Z.lxor rr rr_at_i in
        if cr =? 0 then Some (rr =? 0, bs, backtrack_pos)
        else
          let tz := row_CountTrailingZeroBits (kCoeffBits ts) cr in
          BandingAdd_loop fuel bts (ix (i + tz)) rr (Z.shiftr cr tz) backtrack_pos bs
  end.
(** Each round goes to a later row. The number of trailing zeros of zero is undefined. *)
Definition BandingAdd (bts : bool) (start rr cr backtrack_pos : Z) (bs : StandardBanding) : option (bool * StandardBanding * Z) :=
  let fuel := length (coeff_rows_ bs) in
  if negb (kFirstCoeffAlwaysOne ts) then
    if cr =? 0 then None
    else
      let tz := row_CountTrailingZeroBits (kCoeffBits ts) cr in
      BandingAdd_loop fuel bts (ix (start + tz)) rr (Z.shiftr cr tz) backtrack_pos bs
  else BandingAdd_loop fuel bts start rr cr backtrack_pos bs.

Fixpoint add_range (bts : bool) (num_starts : Z) (inputs : list AddInput) (backtrack_pos : Z) (bs : StandardBanding)
    : option (bool * StandardBanding * Z) :=
  match inputs with
  | [] => Some (true, bs, backtrack_pos)
  | cur :: inputs =>
      let h := GetHash (raw_seed_ bs) cur.1 in
      let start := GetStart h num_starts in
      let rr := Z.lor (GetResultRowFromInput cur) (GetResultRowFromHash h) in
      let cr := GetCoeffRow h in
      '(ok, bs, backtrack_pos) ← BandingAdd bts start rr cr backtrack_pos bs;
      if (ok : bool) then add_range bts num_starts inputs backtrack_pos bs else Some (false, bs, backtrack_pos)
  end.
(** The loop with prefetch: the hash, the start and the result of the current input are known. *)
Fixpoint add_range_pipelined (bts : bool) (num_starts h start rr : Z) (inputs : list AddInput) (backtrack_pos : Z) (bs : StandardBanding)
    : option (bool * StandardBanding * Z) :=
  let rr := Z.lor rr (GetResultRowFromHash h) in
  let cr := GetCoeffRow h in
  match inputs with
  | [] => BandingAdd bts start rr cr backtrack_pos bs
  | cur :: inputs =>
      let next_h := GetHash (raw_seed_ bs) cur.1 in
      let next_start := GetStart next_h num_starts in
      let next_rr := GetResultRowFromInput cur in
      '(ok, bs, backtrack_pos) ← BandingAdd bts start rr cr backtrack_pos bs;
      if (ok : bool) then add_range_pipelined bts num_starts next_h next_start next_rr inputs backtrack_pos bs
      else Some (false, bs, backtrack_pos)
  end.
Fixpoint roll_back (backtrack_pos : nat) (bs : StandardBanding) : option StandardBanding :=
  match backtrack_pos with
  | O => Some bs
  | S backtrack_pos =>
      i ← BacktrackGet (Z.of_nat backtrack_pos) bs;
      bs ← StoreRow i 0 0 bs;
      roll_back backtrack_pos bs
  end.
Definition BandingAddRange (bts : bool) (inputs : list AddInput) (bs : StandardBanding) : option (bool * StandardBanding) :=
  match inputs with
  | [] => Some (true, bs)
  | cur :: rest =>
      let num_starts := num_starts_ bs in
      '(ok, bs, backtrack_pos) ←
        (if negb (UsePrefetch bs) then add_range bts num_starts inputs 0 bs
         else
           let h := GetHash (raw_seed_ bs) cur.1 in
           add_range_pipelined bts num_starts h (GetStart h num_starts) (GetResultRowFromInput cur) rest 0 bs);
      if (ok : bool) then Some (true, bs)
      else if bts then bs ← roll_back (Z.to_nat backtrack_pos) bs; Some (false, bs)
      else Some (false, bs)
  end.

Definition AddRange (inputs : list AddInput) (s : StandardBanding) : option (bool * StandardBanding) :=
  if kAllowZeroStarts ts && (num_starts_ s =? 0) then Some (bool_decide (inputs = []), s) else BandingAddRange false inputs s.
Definition AddRangeOrRollBack (inputs : list AddInput) (s : StandardBanding) : option (bool * StandardBanding) :=
  if kAllowZeroStarts ts && (num_starts_ s =? 0) then Some (bool_decide (inputs = []), s) else BandingAddRange true inputs s.
Definition Add (input : AddInput) (s : StandardBanding) : option (bool * StandardBanding) := AddRange [input] s.
Definition GetOccupiedCount (s : StandardBanding) : option Z :=
  if 0 <? num_starts_ s then
    let num_slots := ix (num_starts_ s + kCoeffBits ts - 1) in
    foldl (fun count i => count ← count; cr ← coeff_rows_ s !! i; Some (if negb (cr =? 0) then ix (count + 1) else count)) (Some 0) (seq 0 (Z.to_nat num_slots))
  else Some 0.

Definition IsOccupied (i : Z) (s : StandardBanding) : option bool := cr ← coeff_rows_ s !! Z.to_nat i; Some (negb (cr =? 0)).

(** The seeds from [cur_ordinal_seed] until the starting seed comes round; [ordinal_seed_mask + 1] rounds are enough. *)
Fixpoint find_seed (fuel : nat) (num_slots : Z) (inputs : list AddInput) (starting_ordinal_seed ordinal_seed_mask cur_ordinal_seed : Z) (s : StandardBanding)
    : option (bool * StandardBanding) :=
  match fuel with
  | O => None
  | S fuel =>
      let s := mkBanding (coeff_rows_ s) (result_rows_ s) (num_starts_ s) (num_slots_allocated_ s) (backtrack_ s) (backtrack_size_ s) (SetOrdinalSeed cur_ordinal_seed) in
      let s := Reset num_slots 0 s in
      '(success, s) ← AddRange inputs s;
      if (success : bool) then Some (true, s)
      else
        let cur_ordinal_seed := Z.land (sw (cur_ordinal_seed + 1)) ordinal_seed_mask in
        if negb (cur_ordinal_seed =? starting_ordinal_seed) then find_seed fuel num_slots inputs starting_ordinal_seed ordinal_seed_mask cur_ordinal_seed s
        else Some (false, s)
  end.
Definition ResetAndFindSeedToSolve (num_slots : Z) (inputs : list AddInput) (starting_ordinal_seed ordinal_seed_mask : Z) (s : StandardBanding)
    : option (bool * StandardBanding) :=
  let starting_ordinal_seed := Z.land starting_ordinal_seed ordinal_seed_mask in
  find_seed (Z.to_nat (ordinal_seed_mask + 1)) num_slots inputs starting_ordinal_seed ordinal_seed_mask starting_ordinal_seed s.
End hashed.
Definition EstimateMemoryUsage (num_slots : Z) : Z :=
  let bytes_coeff_rows := u64 (num_slots * (kCoeffBits ts / 8)) in
  let bytes_result_rows := u64 (num_slots * (kResultBits ts / 8)) in
  let bytes_backtrack := 0 in
  u64 (u64 (bytes_coeff_rows + bytes_result_rows) + bytes_backtrack).

(** ** Back substitution

    [state] holds, for each column, the solution from the current row on for [kCoeffBits] rows. *)

Definition subst_column (cr rr j tmp : Z) : Z :=
  let tmp := row (kCoeffBits ts) (Z.shiftl tmp 1) in
  let bit := Z.lxor (row_BitParity (kCoeffBits ts) (Z.land tmp cr)) (Z.land (Z.shiftr rr j) 1) in
  Z.lor tmp bit.
Definition subst_row (num_columns cr rr : Z) (state : list Z) : list Z :=
  imap (fun j tmp => if Z.of_nat j <? num_columns then subst_column cr rr (Z.of_nat j) tmp else tmp) state.
(** The [n] rows from [start_slot] on, the last one first. *)
Fixpoint subst_rows (n : nat) (state : list Z) (num_columns : Z) (bs : StandardBanding) (start_slot : Z) : option (list Z) :=
  match n with
  | O => Some state
  | S n =>
      '(cr, rr) ← LoadRow (start_slot + Z.of_nat n) true bs;
      subst_rows n (subst_row num_columns cr rr state) num_columns bs start_slot
  end.
Definition BackSubstBlock (state : list Z) (num_columns : Z) (bs : StandardBanding) (start_slot : Z) : option (list Z) :=
  subst_rows (Z.to_nat (kCoeffBits ts)) state num_columns bs start_slot.

(** ** [InMemSimpleSolution] *)

Record InMemSimpleSolution := mkSimple {
  simple_num_starts_ : Z;
  simple_num_slots_allocated_ : Z;
  solution_rows_ : list (option Z);
}.
Definition Simple_PrepareForNumStarts (num_starts : Z) (s : InMemSimpleSolution) : InMemSimpleSolution :=
  if kAllowZeroStarts ts && (num_starts =? 0) then mkSimple 0 (simple_num_slots_allocated_ s) (solution_rows_ s)
  else
    let num_slots := ix (num_starts + kCoeffBits ts - 1) in
    if simple_num_slots_allocated_ s <? num_slots then mkSimple num_starts num_slots (replicate (Z.to_nat num_slots) None)
    else mkSimple num_starts (simple_num_slots_allocated_ s) (solution_rows_ s).
Definition Simple_Load (slot_num : Z) (s : InMemSimpleSolution) : option Z := v ← solution_rows_ s !! Z.to_nat slot_num; v.
Definition Simple_Store (slot_num solution_row : Z) (s : InMemSimpleSolution) : option InMemSimpleSolution :=
  _ ← solution_rows_ s !! Z.to_nat slot_num;
  Some (mkSimple (simple_num_starts_ s) (simple_num_slots_allocated_ s) (<[Z.to_nat slot_num := Some solution_row]> (solution_rows_ s))).

(** The row of the solution: the new bit of each column. *)
Definition solution_row (state : list Z) : Z := foldr (fun tmp sr => Z.lor (Z.shiftl sr 1) (Z.land tmp 1)) 0 state.
Fixpoint simple_subst (i : nat) (state : list Z) (bs : StandardBanding) (sss : InMemSimpleSolution) : option InMemSimpleSolution :=
  match i with
  | O => Some sss
  | S i =>
      '(cr, rr) ← LoadRow (Z.of_nat i) true bs;
      let state := subst_row (kResultBits ts) cr rr state in
      sss ← Simple_Store (Z.of_nat i) (solution_row state) sss;
      simple_subst i state bs sss
  end.
Definition SimpleBackSubst (bs : StandardBanding) (sss : InMemSimpleSolution) : option InMemSimpleSolution :=
  let state := replicate (Z.to_nat (kResultBits ts)) 0 in
  let num_starts := num_starts_ bs in
  let sss := Simple_PrepareForNumStarts num_starts sss in
  let num_slots := ix (num_starts + kCoeffBits ts - 1) in
  simple_subst (Z.to_nat num_slots) state bs sss.
Definition Simple_BackSubstFrom (bs : StandardBanding) (s : InMemSimpleSolution) : option InMemSimpleSolution :=
  if kAllowZeroStarts ts && (num_starts_ bs =? 0) then Some (Simple_PrepareForNumStarts 0 s) else SimpleBackSubst bs s.

Definition SimpleQueryHelper (start_slot cr : Z) (sss : InMemSimpleSolution) : option Z :=
  foldl (fun result i =>
    result ← result;
    v ← Simple_Load (ix (start_slot + Z.of_nat i)) sss;
    Some (Z.lxor result (Z.land v (rw (0 - Z.land (rw (Z.shiftr cr (Z.of_nat i))) 1))))) (Some 0) (seq 0 (Z.to_nat (kCoeffBits ts))).
Section simple_query.
Context {Key : Type} (HashFn : Key -> Z -> Z).
Definition SimplePhsfQuery (raw_seed : Z) (key : Key) (sss : InMemSimpleSolution) : option Z :=
  let hash := GetHash HashFn raw_seed key in
  SimpleQueryHelper (GetStart hash (simple_num_starts_ sss)) (GetCoeffRow hash) sss.
Definition SimpleFilterQuery (raw_seed : Z) (key : Key) (sss : InMemSimpleSolution) : option bool :=
  let hash := GetHash HashFn raw_seed key in
  let expected := GetResultRowFromHash hash in
  r ← SimpleQueryHelper (GetStart hash (simple_num_starts_ sss)) (GetCoeffRow hash) sss;
  Some (expected =? r).
Definition Simple_PhsfQuery (raw_seed : Z) (key : Key) (s : InMemSimpleSolution) : option Z :=
  if kAllowZeroStarts ts && (simple_num_starts_ s =? 0) then Some 0 else SimplePhsfQuery raw_seed key s.
Definition Simple_FilterQuery (raw_seed : Z) (key : Key) (s : InMemSimpleSolution) : option bool :=
  if kAllowZeroStarts ts && (simple_num_starts_ s =? 0) then Some false else SimpleFilterQuery raw_seed key s.
End simple_query.
Definition Simple_RoundUpNumSlots (num_slots : Z) : Z :=
  let min_slots := kCoeffBits ts * (if kUseSmash ts then 1 else 2) in
  Z.max num_slots min_slots.

(** ** [SerializableInterleavedSolution] *)

Record SerializableInterleavedSolution := mkSoln {
  data_ : list Z;
  data_len_ : Z;
  soln_num_starts_ : Z;
  upper_num_columns_ : Z;
  upper_start_block_ : Z;
}.
Definition new_soln (data : list Z) (data_len : Z) : SerializableInterleavedSolution := mkSoln data data_len 0 0 0.
Definition sizeof_CoeffRow : Z := kCoeffBits ts / 8.
Definition GetNumBlocks (s : SerializableInterleavedSolution) : Z :=
  let num_slots := ix (soln_num_starts_ s + kCoeffBits ts - 1) in
  num_slots / kCoeffBits ts.
Definition GetNumSegments (s : SerializableInterleavedSolution) : Z := ix (data_len_ s / sizeof_CoeffRow).
Definition InternalConfigure (s : SerializableInterleavedSolution) : SerializableInterleavedSolution :=
  let num_blocks := GetNumBlocks s in
  let num_segments := GetNumSegments s in
  let '(columns, start_block, num_segments) :=
    if num_blocks =? 0 then (0, 0, num_segments)
    else
      let columns := ix (ix (num_segments + num_blocks) - 1) / num_blocks in
      let start_block := ix (ix (columns * num_blocks) - num_segments) in
      if kResultBits ts <? columns then (ix (kResultBits ts), 0, ix (num_blocks * ix (kResultBits ts)))
      else (columns, start_block, num_segments) in
  mkSoln (data_ s) (u64 (num_segments * sizeof_CoeffRow)) (soln_num_starts_ s) columns start_block.
Definition PrepareForNumStarts (num_starts : Z) (s : SerializableInterleavedSolution) : SerializableInterleavedSolution :=
  InternalConfigure (mkSoln (data_ s) (data_len_ s) num_starts (upper_num_columns_ s) (upper_start_block_ s)).
Definition ConfigureForNumBlocks (num_blocks : Z) (s : SerializableInterleavedSolution) : SerializableInterleavedSolution :=
  if num_blocks =? 0 then PrepareForNumStarts 0 s
  else PrepareForNumStarts (ix (ix (num_blocks * kCoeffBits ts) - kCoeffBits ts + 1)) s.
Definition ConfigureForNumSlots (num_slots : Z) (s : SerializableInterleavedSolution) : SerializableInterleavedSolution :=
  ConfigureForNumBlocks (num_slots / kCoeffBits ts) s.

Definition RoundUpNumSlots (num_slots : Z) : Z :=
  let corrected := ix (ix (ix (num_slots + kCoeffBits ts) - 1) / kCoeffBits ts * kCoeffBits ts) in
  if negb (kUseSmash ts) && (corrected =? kCoeffBits ts) then ix (corrected + kCoeffBits ts) else corrected.
Definition RoundDownNumSlots (num_slots : Z) : Z :=
  let corrected := num_slots / kCoeffBits ts * kCoeffBits ts in
  if negb (kUseSmash ts) && (corrected =? kCoeffBits ts) then 0 else corrected.

Section data.
Context `{Port}.
(** Segments outside of the data are undefined. *)
Definition LoadSegment (segment_num : Z) (s : SerializableInterleavedSolution) : option Z :=
  let o := segment_num * sizeof_CoeffRow in
  if o + sizeof_CoeffRow <=? zlen (data_ s) then Some (DecodeFixedGeneric (kCoeffBits ts) (zdrop o (data_ s))) else None.
Definition StoreSegment (segment_num val : Z) (s : SerializableInterleavedSolution) : option SerializableInterleavedSolution :=
  let o := segment_num * sizeof_CoeffRow in
  if o + sizeof_CoeffRow <=? zlen (data_ s) then
    Some (mkSoln (ztake o (data_ s) ++ EncodeFixedGeneric (kCoeffBits ts) val ++ zdrop (o + sizeof_CoeffRow) (data_ s))
            (data_len_ s) (soln_num_starts_ s) (upper_num_columns_ s) (upper_start_block_ s))
  else None.

(** The first [num_columns] segments of [state], from [segment_num] on. *)
Fixpoint store_segments (num_columns : nat) (segment_num : Z) (state : list Z) (iss : SerializableInterleavedSolution) : option SerializableInterleavedSolution :=
  match num_columns, state with
  | S n, v :: state => iss ← StoreSegment segment_num v iss; store_segments n (ix (segment_num + 1)) state iss
  | S _, [] => None
  | O, _ => Some iss
  end.
(** [n] blocks down from [block]. *)
Fixpoint subst_blocks (n : nat) (num_columns block segment_num : Z) (state : list Z) (bs : StandardBanding) (iss : SerializableInterleavedSolution)
    : option (Z * Z * list Z * SerializableInterleavedSolution) :=
  match n with
  | O => Some (block, segment_num, state, iss)
  | S n =>
      let block := block - 1 in
      state ← BackSubstBlock state num_columns bs (ix (block * kCoeffBits ts));
      let segment_num := ix (segment_num - num_columns) in
      iss ← store_segments (Z.to_nat num_columns) segment_num state iss;
      subst_blocks n num_columns block segment_num state bs iss
  end.
Definition InterleavedBackSubst (bs : StandardBanding) (iss : SerializableInterleavedSolution) : option SerializableInterleavedSolution :=
  let num_starts := num_starts_ bs in
  let iss := PrepareForNumStarts num_starts iss in
  let num_slots := ix (num_starts + kCoeffBits ts - 1) in
  let num_blocks := num_slots / kCoeffBits ts in
  let num_segments := GetNumSegments iss in
  let num_columns := upper_num_columns_ iss in
  let upper_start_block := upper_start_block_ iss in
  if num_columns =? 0 then Some iss
  else
    let state := replicate (Z.to_nat num_columns) 0 in
    '(block, segment_num, state, iss) ← subst_blocks (Z.to_nat (num_blocks - upper_start_block)) num_columns num_blocks num_segments state bs iss;
    '(block, segment_num, state, iss) ← subst_blocks (Z.to_nat block) (num_columns - 1) block segment_num state bs iss;
    Some iss.
Definition BackSubstFrom (bs : StandardBanding) (s : SerializableInterleavedSolution) : option SerializableInterleavedSolution :=
  if kAllowZeroStarts ts && (num_starts_ bs =? 0) then Some (PrepareForNumStarts 0 s) else InterleavedBackSubst bs s.

(** *** Queries *)

(** The hash is given; the answer is the segment, the number of columns and the bit where the row starts. *)
Definition InterleavedPrepareQuery (hash : Z) (iss : SerializableInterleavedSolution) : Z * Z * Z :=
  let start_slot := GetStart hash (soln_num_starts_ iss) in
  let upper_start_block := upper_start_block_ iss in
  let num_columns := upper_num_columns_ iss in
  let start_block_num := start_slot / kCoeffBits ts in
  let segment_num := ix (ix (start_block_num * num_columns) - Z.min start_block_num upper_start_block) in
  let num_columns := ix (num_columns - (if start_block_num <? upper_start_block then 1 else 0)) in
  let start_bit := start_slot mod kCoeffBits ts in
  (segment_num, num_columns, start_bit).

(** A one is shifted as an [int]; a shift by 32 or more is undefined. *)
Fixpoint phsf_columns (n : nat) (i segment_num cr sr : Z) (iss : SerializableInterleavedSolution) : option Z :=
  match n with
  | O => Some sr
  | S n =>
      v ← LoadSegment (ix (segment_num + i)) iss;
      if 32 <=? i then None
      else phsf_columns n (i + 1) segment_num cr (Z.lxor sr (rw (i32 (Z.shiftl (row_BitParity (kCoeffBits ts) (Z.land v cr)) i)))) iss
  end.
Definition InterleavedPhsfQuery (hash segment_num num_columns start_bit : Z) (iss : SerializableInterleavedSolution) : option Z :=
  let cr := GetCoeffRow hash in
  let cr_left := row (kCoeffBits ts) (Z.shiftl cr start_bit) in
  sr ← phsf_columns (Z.to_nat num_columns) 0 segment_num cr_left 0 iss;
  if 0 <? start_bit then
    let segment_num := ix (segment_num + num_columns) in
    let cr_right := Z.shiftr cr (kCoeffBits ts - start_bit) in
    phsf_columns (Z.to_nat num_columns) 0 segment_num cr_right sr iss
  else Some sr.

(** The columns from [i] on, of a row in one block and of a row in two. *)
Fixpoint filter_columns_aligned (n : nat) (i segment_num cr expected : Z) (iss : SerializableInterleavedSolution) : option bool :=
  match n with
  | O => Some true
  | S n =>
      v ← LoadSegment (ix (segment_num + i)) iss;
      if negb (row_BitParity (kCoeffBits ts) (Z.land v cr) =? Z.land (Z.shiftr expected i) 1) then Some false
      else filter_columns_aligned n (i + 1) segment_num cr expected iss
  end.
Fixpoint filter_columns (n : nat) (i segment_num num_columns cr_left cr_right expected : Z) (iss : SerializableInterleavedSolution) : option bool :=
  match n with
  | O => Some true
  | S n =>
      v ← LoadSegment (ix (segment_num + i)) iss;
      v' ← LoadSegment (ix (ix (segment_num + num_columns) + i)) iss;
      let soln_data := Z.lxor (Z.land v cr_left) (Z.land v' cr_right) in
      if negb (row_BitParity (kCoeffBits ts) soln_data =? Z.land (Z.shiftr expected i) 1) then Some false
      else filter_columns n (i + 1) segment_num num_columns cr_left cr_right expected iss
  end.
Definition InterleavedFilterQuery (hash segment_num num_columns start_bit : Z) (iss : SerializableInterleavedSolution) : option bool :=
  let cr := GetCoeffRow hash in
  let expected := GetResultRowFromHash hash in
  if start_bit =? 0 then filter_columns_aligned (Z.to_nat num_columns) 0 segment_num cr expected iss
  else
    let cr_left := row (kCoeffBits ts) (Z.shiftl cr start_bit) in
    let cr_right := Z.shiftr cr (kCoeffBits ts - start_bit) in
    filter_columns (Z.to_nat num_columns) 0 segment_num num_columns cr_left cr_right expected iss.

Section query.
Context {Key : Type} (HashFn : Key -> Z -> Z).
Definition PhsfQuery (raw_seed : Z) (key : Key) (s : SerializableInterleavedSolution) : option Z :=
  if kAllowZeroStarts ts && (soln_num_starts_ s =? 0) then Some 0
  else
    let hash := GetHash HashFn raw_seed key in
    let '(segment_num, num_columns, start_bit) := InterleavedPrepareQuery hash s in
    InterleavedPhsfQuery hash segment_num num_columns start_bit s.
Definition FilterQuery (raw_seed : Z) (key : Key) (s : SerializableInterleavedSolution) : option bool :=
  if kAllowZeroStarts ts && (soln_num_starts_ s =? 0) then Some false
  else
    let hash := GetHash HashFn raw_seed key in
    let '(segment_num, num_columns, start_bit) := InterleavedPrepareQuery hash s in
    InterleavedFilterQuery hash segment_num num_columns start_bit s.
End query.
End data.

(** *** Sizes and rates *)

Section rates.
Context (std_pow : spec_float -> spec_float -> spec_float).
Definition f64_half : spec_float := f64_div f64_1 (f64_of_Z 2).
Definition ExpectedFpRate (s : SerializableInterleavedSolution) : spec_float :=
  if kAllowZeroStarts ts && (soln_num_starts_ s =? 0) then f64_0
  else
    let lower_portion := f64_div (f64_mul (f64_mul (f64_of_Z (upper_start_block_ s)) f64_1) (f64_of_Z (kCoeffBits ts))) (f64_of_Z (soln_num_starts_ s)) in
    f64_add (f64_mul lower_portion (std_pow f64_half (f64_of_Z (ix (upper_num_columns_ s - 1)))))
      (f64_mul (SFsub 53 1024 f64_1 lower_portion) (std_pow f64_half (f64_of_Z (upper_num_columns_ s)))).
Definition Simple_ExpectedFpRate (s : InMemSimpleSolution) : spec_float :=
  if kAllowZeroStarts ts && (simple_num_starts_ s =? 0) then f64_0 else std_pow f64_half (f64_of_Z (kResultBits ts)).
Definition InternalGetBytesForFpRate (num_slots : Z) (desired_fp_rate desired_one_in_fp_rate : spec_float) (rounding_bias32 : Z) : Z :=
  if kAllowZeroStarts ts && (num_slots =? 0) then 0
  else if f64_gtb desired_one_in_fp_rate f64_1 && f64_gtb f64_1 desired_fp_rate then
    if SFleb desired_one_in_fp_rate (f64_of_Z (rw (-1))) then
      let rounded := rw (f64_trunc desired_one_in_fp_rate) in
      let lower_columns := FloorLog2 (Z.to_nat (kResultBits ts / 8)) rounded in
      let lower_columns_fp_rate := std_pow (f64_of_Z 2) (f64_of_Z (- lower_columns)) in
      let upper_columns_fp_rate := std_pow (f64_of_Z 2) (f64_of_Z (- (lower_columns + 1))) in
      let lower_portion :=
        f64_div (SFsub 53 1024 desired_fp_rate upper_columns_fp_rate) (SFsub 53 1024 lower_columns_fp_rate upper_columns_fp_rate) in
      let rounding_bias := f64_div (f64_add (f64_of_Z rounding_bias32) f64_half) (f64_of_Z 0x100000000) in
      let num_starts := ix (num_slots - kCoeffBits ts + 1) in
      let upper_start_block := ix (f64_trunc (f64_div (f64_add (f64_mul lower_portion (f64_of_Z num_starts)) rounding_bias) (f64_of_Z (kCoeffBits ts)))) in
      let num_blocks := num_slots / kCoeffBits ts in
      let num_segments := ix (num_blocks * lower_columns) in
      let num_segments := ix (num_segments + ix (num_blocks - upper_start_block)) in
      u64 (num_segments * sizeof_CoeffRow)
    else u64 (num_slots * (kResultBits ts / 8))
  else if kAllowZeroStarts ts then 0
  else sizeof_CoeffRow.
Definition GetBytesForFpRate (num_slots : Z) (desired_fp_rate : spec_float) (rounding_bias32 : Z) : Z :=
  InternalGetBytesForFpRate num_slots desired_fp_rate (f64_div f64_1 desired_fp_rate) rounding_bias32.
Definition GetBytesForOneInFpRate (num_slots : Z) (desired_one_in_fp_rate : spec_float) (rounding_bias32 : Z) : Z :=
  InternalGetBytesForFpRate num_slots (f64_div f64_1 desired_one_in_fp_rate) desired_one_in_fp_rate rounding_bias32.
End rates.
End ribbon.
