(* ===== verification/RibbonProofs.v ===== *)
(** * Ribbon filters: the equations, the elimination and the solution

    A column of a solution is a number whose bit [i] belongs to slot [i], and an equation asks for the parity of the bits that a row of coefficients selects from its
    slot on. Adding a row keeps the set of the solutions, or shows that there is none; back substitution finds one. *)

From stdpp Require Import prelude.
From Stdlib Require Import ZArith Lia Bool.
From S2P Require Import Prelude Coding Math Ribbon.

(** ** Parity *)

Definition parity (v : Z) : bool := Z.odd (popcount v).

Lemma BitParity_parity v : BitParity v = Z.b2z (parity v).
Proof. unfold BitParity, parity. change 1 with (Z.ones 1). rewrite Z.land_ones by lia. change (2 ^ 1) with 2. by rewrite Zmod_odd. Qed.
Lemma popcount_nonneg v : 0 <= popcount v.
Proof. destruct v as [|p|p]; simpl; [lia| |lia]. induction p; simpl; lia. Qed.
Lemma parity_cons v b : 0 <= v -> parity (2 * v + Z.b2z b) = xorb b (parity v).
Proof.
  intros Hv. destruct v as [|p|p]; [by destruct b| |lia]. destruct b.
  - change (2 * Z.pos p + Z.b2z true) with (Z.pos p~1). unfold parity. cbn [popcount popcount_pos]. rewrite Z.odd_add. done.
  - change (2 * Z.pos p + Z.b2z false) with (Z.pos p~0). unfold parity. cbn [popcount popcount_pos]. by destruct (Z.odd _).
Qed.
Lemma parity_double v : 0 <= v -> parity (2 * v) = parity v.
Proof. intros Hv. rewrite <- (Z.add_0_r (2 * v)). change 0 with (Z.b2z false). by rewrite parity_cons. Qed.
Lemma lxor_cons a b x y : Z.lxor (2 * a + Z.b2z x) (2 * b + Z.b2z y) = 2 * Z.lxor a b + Z.b2z (xorb x y).
Proof.
  apply Z.bits_inj'. intros i Hi. rewrite Z.lxor_spec. destruct (decide (i = 0)) as [->|Hn]; [by rewrite !Z.testbit_0_r|].
  replace i with (Z.succ (Z.pred i)) by lia. rewrite !Z.testbit_succ_r by lia. by rewrite Z.lxor_spec.
Qed.
Lemma bits_ind (P : Z -> Prop) : P 0 -> (forall v b, 0 <= v -> P v -> P (2 * v + Z.b2z b)) -> forall v, 0 <= v -> P v.
Proof.
  intros H0 HS v Hv. destruct v as [|p|p]; [done| |lia]. induction p as [p IH|p IH|].
  - change (Z.pos p~1) with (2 * Z.pos p + Z.b2z true). apply HS; [lia|]. apply IH. lia.
  - change (Z.pos p~0) with (2 * Z.pos p + Z.b2z false). apply HS; [lia|]. apply IH. lia.
  - change 1 with (2 * 0 + Z.b2z true). by apply HS.
Qed.
Lemma parity_lxor a b : 0 <= a -> 0 <= b -> parity (Z.lxor a b) = xorb (parity a) (parity b).
Proof.
  intros Ha. revert b. pattern a. apply bits_ind; [intros b Hb; by rewrite Z.lxor_0_l| |done]. clear a Ha. intros a x Ha IH b Hb.
  rewrite (Z.div2_odd b). set (b' := Z.div2 b). assert (Hb' : 0 <= b') by (unfold b'; rewrite Z.div2_div; apply Z.div_pos; lia).
  rewrite lxor_cons, !parity_cons by (done || by apply Z.lxor_nonneg). rewrite IH by done. by destruct x, (Z.odd b), (parity a), (parity b').
Qed.
Lemma parity_shiftl v n : 0 <= v -> 0 <= n -> parity (Z.shiftl v n) = parity v.
Proof.
  intros Hv Hn. pattern n. apply natlike_ind; [by rewrite Z.shiftl_0_r| |done]. clear n Hn. intros n Hn IH.
  replace (Z.shiftl v (Z.succ n)) with (2 * Z.shiftl v n) by (rewrite !Z.shiftl_mul_pow2, Z.pow_succ_r by lia; lia).
  rewrite parity_double; [done|]. by apply Z.shiftl_nonneg.
Qed.

(** ** Products of a row and a column *)

Definition dot (a x : Z) : bool := parity (Z.land a x).

Lemma dot_0 x : dot 0 x = false.
Proof. unfold dot. by rewrite Z.land_0_l. Qed.
Lemma dot_lxor a b x : 0 <= a -> 0 <= b -> dot (Z.lxor a b) x = xorb (dot a x) (dot b x).
Proof.
  intros Ha Hb. unfold dot. rewrite <- parity_lxor by (apply Z.land_nonneg; by left). f_equal.
  apply Z.bits_inj'. intros i Hi. rewrite Z.lxor_spec, !Z.land_spec, Z.lxor_spec. by destruct (Z.testbit a i), (Z.testbit b i), (Z.testbit x i).
Qed.
Lemma dot_shiftl a x n : 0 <= a -> 0 <= n -> dot (Z.shiftl a n) x = dot a (Z.shiftr x n).
Proof.
  intros Ha Hn. unfold dot. rewrite <- (parity_shiftl (Z.land a (Z.shiftr x n)) n) by (done || apply Z.land_nonneg; by left). f_equal.
  apply Z.bits_inj'. intros i Hi. destruct (Z.leb_spec n i) as [Hle|Hlt].
  - rewrite Z.land_spec, !Z.shiftl_spec, Z.land_spec, Z.shiftr_spec by lia. do 2 f_equal. lia.
  - rewrite Z.land_spec, !Z.shiftl_spec_low by done. done.
Qed.
Lemma dot_mod a x w : 0 <= w -> 0 <= a < 2 ^ w -> dot a (x mod 2 ^ w) = dot a x.
Proof.
  intros Hw Ha. unfold dot. f_equal. apply Z.bits_inj'. intros i Hi. rewrite !Z.land_spec. destruct (Z.ltb_spec i w).
  - by rewrite Z.mod_pow2_bits_low by lia.
  - by rewrite (tbit_high a w) by (done || lia).
Qed.
Lemma land_cons a b x y : Z.land (2 * a + Z.b2z x) (2 * b + Z.b2z y) = 2 * Z.land a b + Z.b2z (x && y).
Proof.
  apply Z.bits_inj'. intros i Hi. rewrite Z.land_spec. destruct (decide (i = 0)) as [->|Hn]; [by rewrite !Z.testbit_0_r|].
  replace i with (Z.succ (Z.pred i)) by lia. rewrite !Z.testbit_succ_r by lia. by rewrite Z.land_spec.
Qed.
Lemma lor_bit x b : Z.lor (2 * x) (Z.b2z b) = 2 * x + Z.b2z b.
Proof.
  apply Z.bits_inj'. intros i Hi. rewrite Z.lor_spec. destruct (decide (i = 0)) as [->|Hn]; [rewrite Z.testbit_0_r, Z.testbit_even_0; by destruct b|].
  replace i with (Z.succ (Z.pred i)) by lia. rewrite Z.testbit_succ_r, Z.testbit_even_succ by lia. rewrite (tbit_high (Z.b2z b) 1); [apply orb_false_r|destruct b; cbn; lia|lia].
Qed.
Lemma dot_cons a x b : Z.odd a = true -> 0 <= a -> dot a (2 * x + Z.b2z b) = xorb (dot a (2 * x)) b.
Proof.
  intros Ho Ha. unfold dot. rewrite <- (Z.add_0_r (2 * x)) at 2. change 0 with (Z.b2z false). rewrite (Z.div2_odd a), Ho, !land_cons.
  rewrite !parity_cons by (apply Z.land_nonneg; left; rewrite Z.div2_div; apply Z.div_pos; lia). by destruct b, (parity _).
Qed.

(** ** Operations on rows of coefficients *)

Lemma to128_ok v : 0 <= v < 2 ^ 128 -> Unsigned128.ok (to128 v) /\ Unsigned128.val (to128 v) = v.
Proof.
  intros Hv. unfold to128, Unsigned128.ok, Unsigned128.val, is_u, u64; cbn [Unsigned128.lo Unsigned128.hi]. rewrite Z.shiftr_div_pow2 by lia.
  pose proof (Z.div_mod v (2 ^ 64)) as Hd. pose proof (Z.mod_pos_bound v (2 ^ 64)).
  assert (0 <= v / 2 ^ 64 < 2 ^ 64) by (split; [apply Z.div_pos; lia|apply Z.div_lt_upper_bound; lia]). lia.
Qed.
Lemma row_BitParity_eq w v : 0 <= v < 2 ^ w -> w <= 128 -> row_BitParity w v = Z.b2z (parity v).
Proof.
  intros Hv Hw. unfold row_BitParity. destruct (Z.eqb_spec w 128) as [->|]; [|apply BitParity_parity].
  unfold BitParity_128, to128, Lower64of128, Upper64of128; cbn [Unsigned128.lo Unsigned128.hi]. rewrite BitParity_parity. f_equal.
  assert (Hu : 0 <= u64 v) by apply u64_range. assert (Hs : 0 <= Z.shiftr v 64) by (apply Z.shiftr_nonneg; lia).
  rewrite parity_lxor by done. rewrite <- (parity_shiftl (Z.shiftr v 64) 64) by lia. rewrite <- parity_lxor by (done || by apply Z.shiftl_nonneg). f_equal.
  apply Z.bits_inj'. intros i Hi. unfold u64. rewrite Z.lxor_spec. destruct (Z.ltb_spec i 64).
  - rewrite Z.mod_pow2_bits_low, Z.shiftl_spec_low by lia. by destruct (Z.testbit v i).
  - rewrite Z.mod_pow2_bits_high, Z.shiftl_spec, Z.shiftr_spec by lia. rewrite xorb_false_l. f_equal. lia.
Qed.
Lemma ctz_pos_spec p : exists u, 0 < u /\ Z.odd u = true /\ Z.pos p = 2 ^ ctz_pos p * u /\ 0 <= ctz_pos p.
Proof.
  induction p as [p _|p IH|]; [exists (Z.pos p~1); simpl; lia| |by exists 1]. destruct IH as (u & Hu & Ho & E & Ht). exists u. cbn [ctz_pos].
  rewrite Z.pow_add_r by lia. split; [done|]. split; [done|]. split; [|lia]. rewrite Pos2Z.inj_xO, E. lia.
Qed.
Lemma ctz_spec v : 0 < v -> exists u, 0 < u /\ Z.odd u = true /\ v = 2 ^ CountTrailingZeroBits v * u /\ 0 <= CountTrailingZeroBits v.
Proof. intros Hv. destruct v as [|p|p]; [lia| |lia]. apply ctz_pos_spec. Qed.
Lemma row_ctz_spec w v : 0 < v < 2 ^ w -> w <= 128 -> let t := row_CountTrailingZeroBits w v in
  0 <= t /\ exists u, 0 < u /\ Z.odd u = true /\ v = 2 ^ t * u.
Proof.
  intros Hv Hw. cbn zeta. unfold row_CountTrailingZeroBits. destruct (Z.eqb_spec w 128) as [->|].
  2: { destruct (ctz_spec v) as (u & ?); [lia|]. split; [lia|]. exists u. tauto. }
  destruct (to128_ok v) as [[Hlo Hhi] Ev]; [lia|]. unfold CountTrailingZeroBits_128, Lower64of128, Upper64of128. unfold Unsigned128.val in Ev. unfold is_u in Hlo, Hhi.
  set (lo := Unsigned128.lo (to128 v)) in *. set (hi := Unsigned128.hi (to128 v)) in *. destruct (Z.eqb_spec lo 0) as [E0|N0]; cbn [negb].
  - destruct (ctz_spec hi) as (u & Hu & Ho & E & Ht); [lia|]. split; [lia|]. exists u. rewrite Z.pow_add_r by lia. split; [done|]. split; [done|]. rewrite <- Ev, E0, E at 1. lia.
  - destruct (ctz_spec lo) as (u & Hu & Ho & E & Ht); [lia|]. set (t := CountTrailingZeroBits lo) in *. split; [done|].
    assert (Hlt : t < 64). { apply (Z.pow_lt_mono_r_iff 2); [lia|lia|]. nia. }
    exists (u + 2 ^ (64 - t) * hi). rewrite Z.odd_add, Ho, Z.odd_mul, Z.odd_pow by lia.
    split; [nia|]. split; [done|]. rewrite Z.mul_add_distr_l, <- E, Z.mul_assoc, <- Z.pow_add_r by lia. replace (t + (64 - t)) with 64 by lia. lia.
Qed.
Lemma shiftr_factor t u : 0 <= t -> Z.shiftr (2 ^ t * u) t = u.
Proof. intros Ht. rewrite Z.shiftr_div_pow2, Z.mul_comm, Z.div_mul by lia. done. Qed.

(** ** Equations *)

(** The settings the theorems are about. The templates admit more: where the first coefficient is not always one and a row is narrower than a hash, [GetCoeffRow] can be zero and
    [BandingAdd] then counts the trailing zeros of zero; a homogeneous function has nothing to store. *)
Record settings (ts : TypesAndSettings) : Prop := {
  set_coeff : kCoeffBits ts = 16 \/ kCoeffBits ts = 32 \/ kCoeffBits ts = 64 \/ kCoeffBits ts = 128;
  set_result : 8 <= kResultBits ts <= 64;
  set_index : index_bytes ts = 4%nat \/ index_bytes ts = 8%nat;
  set_hash : hash_bytes ts = 4%nat \/ hash_bytes ts = 8%nat;
  set_seed : (0 < seed_bytes ts <= hash_bytes ts)%nat;
  set_first : kFirstCoeffAlwaysOne ts = true \/ bits (hash_bytes ts) <= kCoeffBits ts;
  set_homogeneous : kHomogeneous ts = true -> kIsFilter ts = true;
}.

Section banding.
Context (ts : TypesAndSettings) (Hts : settings ts).
Notation w := (kCoeffBits ts).
Notation R := (kResultBits ts).
Notation index_max := (2 ^ bits (index_bytes ts)).
Implicit Types (s bs : StandardBanding) (X : Z -> Z).

(** Column [j] of the solution is [X j]. *)
Definition sat X (start cr rr : Z) : Prop := forall j, 0 <= j < R -> dot cr (Z.shiftr (X j) start) = Z.testbit rr j.
Definition slots s : Z := num_starts_ s + w - 1.
Definition solves s X : Prop := forall i cr rr, 0 <= i < slots s -> LoadRow ts i false s = Some (cr, rr) -> cr <> 0 -> sat X i cr rr.

Definition fits (n i cr : Z) : Prop := 0 <= i /\ 0 < cr < 2 ^ w /\ Z.odd cr = true /\ 2 ^ i * cr < 2 ^ n.
Definition result_ok (rr : Z) : Prop := 0 <= rr < 2 ^ R /\ (kHomogeneous ts = true -> rr = 0).
Record wf s : Prop := {
  wf_starts : 1 <= num_starts_ s;
  wf_slots : slots s + w < 2 ^ 32;
  wf_coeff : slots s <= zlen (coeff_rows_ s);
  wf_result : kHomogeneous ts = true \/ slots s <= zlen (result_rows_ s);
  wf_rows : forall i cr rr, 0 <= i < slots s -> LoadRow ts i false s = Some (cr, rr) -> (cr = 0 \/ fits (slots s) i cr) /\ result_ok rr;
}.

Lemma w_range : 16 <= w <= 128.
Proof using Hts. destruct (set_coeff ts Hts) as [->|[->|[->| ->]]]; lia. Qed.
Lemma index_width_range : 2 ^ 32 <= index_max.
Proof using Hts. unfold bits. by destruct (set_index ts Hts) as [-> | ->]. Qed.
Lemma ix_small v : 0 <= v < index_max -> ix ts v = v.
Proof using. intros Hv. unfold ix. by apply wrapT_small. Qed.
Lemma wf_index s : wf s -> slots s < index_max.
Proof using Hts. intros Hw. pose proof (wf_slots s Hw). pose proof index_width_range. pose proof w_range. lia. Qed.
Lemma result_ok_lxor a b : result_ok a -> result_ok b -> result_ok (Z.lxor a b).
Proof using Hts.
  intros [Ha Ha0] [Hb Hb0]. split; [apply is_u_lxor; [pose proof (set_result ts Hts); lia|done|done]|]. intros Hh. by rewrite Ha0, Hb0.
Qed.
Lemma result_ok_0 : result_ok 0.
Proof using Hts. pose proof (set_result ts Hts). split; [|done]. split; [done|]. apply Z.pow_pos_nonneg; lia. Qed.
Lemma result_zero rr : result_ok rr -> (forall j, 0 <= j < R -> Z.testbit rr j = false) -> rr = 0.
Proof using Hts.
  intros [Hr _] Hz. apply Z.bits_inj'. intros j Hj. rewrite Z.bits_0. destruct (Z.ltb_spec j R); [by apply Hz|]. apply (tbit_high rr R); done.
Qed.

Lemma fits_slot n i cr : 0 <= n -> fits n i cr -> i < n.
Proof using. intros Hn (Hi & Hc & _ & Hb). apply (Z.pow_lt_mono_r_iff 2); [lia|lia|]. nia. Qed.

(** *** Loads and stores *)

Lemma LoadRow_some s i b : wf s -> 0 <= i < slots s -> exists cr rr, LoadRow ts i b s = Some (cr, rr).
Proof using.
  intros Hw Hi. pose proof (wf_coeff s Hw) as Hc. unfold zlen in Hc. unfold LoadRow. destruct (lookup_lt_is_Some_2 (coeff_rows_ s) (Z.to_nat i)) as [cr ->]; [lia|]. cbn [mbind option_bind].
  destruct (kHomogeneous ts) eqn:Eh; [by eexists _, _|]. destruct (wf_result s Hw) as [?|Hr]; [congruence|]. unfold zlen in Hr.
  destruct (lookup_lt_is_Some_2 (result_rows_ s) (Z.to_nat i)) as [rr ->]; [lia|]. by eexists _, _.
Qed.
Lemma LoadRow_back s i cr rr : LoadRow ts i true s = Some (cr, rr) -> cr <> 0 -> LoadRow ts i false s = Some (cr, rr).
Proof using.
  unfold LoadRow. destruct (coeff_rows_ s !! Z.to_nat i) as [c|]; cbn [mbind option_bind]; [|by intros [=]]. destruct (kHomogeneous ts); [|done]. cbn [andb]. destruct (Z.eqb_spec c 0) as [->|]; [|done]. intros [= <- _]. by intros [].
Qed.
Definition same_shape s s' : Prop := num_starts_ s' = num_starts_ s /\ length (coeff_rows_ s') = length (coeff_rows_ s) /\
  length (result_rows_ s') = length (result_rows_ s) /\ num_slots_allocated_ s' = num_slots_allocated_ s /\ raw_seed_ s' = raw_seed_ s.
Lemma StoreRow_spec s i cr rr : wf s -> 0 <= i < slots s -> result_ok rr ->
  exists s', StoreRow ts i cr rr s = Some s' /\ same_shape s s' /\ backtrack_ s' = backtrack_ s /\ backtrack_size_ s' = backtrack_size_ s /\
    forall k, 0 <= k < slots s -> LoadRow ts k false s' = if k =? i then Some (cr, rr) else LoadRow ts k false s.
Proof using.
  intros Hw Hi [_ Hh0]. pose proof (wf_coeff s Hw) as Hc. unfold zlen in Hc. unfold StoreRow, store. destruct (lookup_lt_is_Some_2 (coeff_rows_ s) (Z.to_nat i)) as [c0 E0]; [lia|]. rewrite E0. cbn [mbind option_bind].
  destruct (kHomogeneous ts) eqn:Eh.
  - eexists. split; [done|]. unfold same_shape. cbn. rewrite length_insert. split; [done|]. split; [done|]. split; [done|]. intros k Hk. unfold LoadRow. cbn. rewrite Eh. destruct (Z.eqb_spec k i) as [->|Hn].
    + rewrite list_lookup_insert_eq by lia. cbn. by rewrite Hh0.
    + by rewrite list_lookup_insert_ne by lia.
  - destruct (wf_result s Hw) as [?|Hr]; [congruence|]. unfold zlen in Hr. destruct (lookup_lt_is_Some_2 (result_rows_ s) (Z.to_nat i)) as [r0 E1]; [lia|]. rewrite E1. cbn [mbind option_bind].
    eexists. split; [done|]. unfold same_shape. cbn. rewrite !length_insert. split; [done|]. split; [done|]. split; [done|]. intros k Hk. unfold LoadRow. cbn. rewrite Eh. destruct (Z.eqb_spec k i) as [->|Hn].
    + by rewrite !list_lookup_insert_eq by lia.
    + by rewrite !list_lookup_insert_ne by lia.
Qed.
Lemma same_shape_slots s s' : same_shape s s' -> slots s' = slots s.
Proof using. intros (E & _). unfold slots. by rewrite E. Qed.

(** *** Adding a row *)

Lemma sat_lxor X i cr rr c r : 0 <= cr -> 0 <= c -> sat X i c r -> sat X i cr rr <-> sat X i (Z.lxor cr c) (Z.lxor rr r).
Proof using.
  intros Hcr Hc Hs. split; intros H j Hj; specialize (H j Hj); specialize (Hs j Hj); rewrite ?dot_lxor, ?Z.lxor_spec in * by done; rewrite Hs in *.
  - by rewrite H.
  - by destruct (dot cr _), (Z.testbit rr j), (Z.testbit r j).
Qed.
Lemma sat_shift X i t u rr : 0 <= i -> 0 <= t -> 0 <= u -> sat X i (2 ^ t * u) rr <-> sat X (i + t) u rr.
Proof using.
  intros Hi Ht Hu. unfold sat. rewrite Z.mul_comm, <- Z.shiftl_mul_pow2 by done. split; intros H j Hj; specialize (H j Hj); rewrite dot_shiftl, Z.shiftr_shiftr in * by done; done.
Qed.
Lemma fits_bound n i cr : fits n i cr -> i <= n -> cr < 2 ^ (n - i).
Proof using. intros (Hi & Hc & _ & Hb) Hn. apply (Z.mul_lt_mono_pos_l (2 ^ i)); [lia|]. rewrite <- Z.pow_add_r by lia. by replace (i + (n - i)) with n by lia. Qed.
(** The row that is left after eliminating with the row in the slot. *)
Lemma fits_reduce n i cr c : 0 <= n -> fits n i cr -> fits n i c -> Z.lxor cr c <> 0 ->
  let t := row_CountTrailingZeroBits w (Z.lxor cr c) in 0 < t /\ Z.lxor cr c = 2 ^ t * Z.shiftr (Z.lxor cr c) t /\ fits n (i + t) (Z.shiftr (Z.lxor cr c) t).
Proof using Hts.
  intros Hn Hf Hf' H0 t. pose proof (fits_slot _ _ _ Hn Hf) as Hin. pose proof (fits_bound _ _ _ Hf ltac:(lia)) as B1. pose proof (fits_bound _ _ _ Hf' ltac:(lia)) as B2.
  destruct Hf as (Hi & Hc & Ho & _), Hf' as (_ & Hc' & Ho' & _). pose proof w_range as Hw.
  assert (Hr : 0 <= Z.lxor cr c < 2 ^ w) by (apply is_u_lxor; unfold is_u; lia).
  assert (Hr' : 0 <= Z.lxor cr c < 2 ^ (n - i)) by (apply is_u_lxor; unfold is_u; lia).
  destruct (row_ctz_spec w (Z.lxor cr c)) as (Ht & u & Hu & Hou & E); [lia|lia|]. fold t in Ht, E.
  assert (Ht0 : t <> 0). { intros E0. rewrite E0, Z.mul_1_l in E. rewrite <- E in Hou. rewrite <- Z.bit0_odd, Z.lxor_spec, !Z.bit0_odd, Ho, Ho' in Hou. done. }
  rewrite E at 2 3. rewrite shiftr_factor by done. split; [lia|]. split; [done|]. split; [lia|]. assert (1 <= 2 ^ t) by lia. split; [nia|]. split; [done|].
  rewrite Z.pow_add_r, <- Z.mul_assoc, <- E by lia. replace n with (i + (n - i)) by lia. rewrite Z.pow_add_r by lia. nia.
Qed.

Inductive added (bts : bool) s (pos start cr rr : Z) : bool * StandardBanding * Z -> Prop :=
  | added_row k cr' rr' rr0 s1 : 0 <= k < slots s -> LoadRow ts k false s = Some (0, rr0) -> fits (slots s) k cr' -> result_ok rr' ->
      StoreRow ts k cr' rr' s = Some s1 -> (forall X, solves s X -> sat X start cr rr <-> sat X k cr' rr') ->
      added bts s pos start cr rr (true, if bts then set_backtrack (<[Z.to_nat pos := Some k]> (backtrack_ s1)) (backtrack_size_ s1) s1 else s1, pos + 1)
  | added_reduced rr' : result_ok rr' -> (forall X, solves s X -> sat X start cr rr <-> (forall j, 0 <= j < R -> Z.testbit rr' j = false)) ->
      added bts s pos start cr rr (rr' =? 0, s, pos).
Lemma added_equiv bts s pos i cr rr i' cr' rr' r : (forall X, solves s X -> sat X i cr rr <-> sat X i' cr' rr') ->
  added bts s pos i' cr' rr' r -> added bts s pos i cr rr r.
Proof using.
  intros Heq Ha. destruct Ha; [eapply added_row|eapply added_reduced]; try done; intros X HX; rewrite Heq by done; auto.
Qed.

(** There is room to record [n] more rows for backtracking. *)
Definition room (bts : bool) s (pos n : Z) : Prop := 0 <= pos /\ pos + n < index_max /\ (bts = true -> pos + n <= zlen (backtrack_ s)).
Lemma BandingAdd_loop_spec bts s pos : wf s -> room bts s pos 1 -> forall fuel i rr cr, fits (slots s) i cr -> result_ok rr -> (Z.to_nat (slots s - i) <= fuel)%nat ->
  exists r, BandingAdd_loop ts fuel bts i rr cr pos s = Some r /\ added bts s pos i cr rr r.
Proof using Hts.
  intros Hw (Hp0 & Hp1 & Hbt). pose proof (wf_starts s Hw) as Hst. pose proof (wf_index s Hw) as Hsl. pose proof w_range as Hwr.
  assert (Hn : 0 <= slots s) by (unfold slots; lia). induction fuel as [|fuel IH]; intros i rr cr Hf Hrr Hfuel; pose proof (fits_slot _ _ _ Hn Hf) as Hin; [lia|].
  assert (Hi : 0 <= i < slots s) by (destruct Hf; lia). destruct (LoadRow_some s i false Hw Hi) as (c & r & El). cbn [BandingAdd_loop]. rewrite El. cbn [mbind option_bind].
  destruct (wf_rows s Hw i c r Hi El) as [Hc Hr]. destruct (Z.eqb_spec c 0) as [->|Hc0].
  - destruct (StoreRow_spec s i cr rr Hw Hi Hrr) as (s1 & E1 & Hsh & Ebt & _). rewrite E1. cbn [mbind option_bind]. rewrite (ix_small (pos + 1)) by lia.
    eexists. split; [|by eapply (added_row bts s pos i cr rr i cr rr)]. destruct bts; [|done]. unfold BacktrackPut. specialize (Hbt eq_refl). unfold zlen in Hbt. rewrite Ebt.
    destruct (lookup_lt_is_Some_2 (backtrack_ s) (Z.to_nat pos)) as [? ->]; [lia|]. done.
  - destruct Hc as [?|Hfc]; [done|].
    assert (Heq : forall X, solves s X -> sat X i cr rr <-> sat X i (Z.lxor cr c) (Z.lxor rr r)).
    { intros X HX. apply sat_lxor; [destruct Hf; lia|destruct Hfc; lia|]. by apply (HX i c r Hi El). }
    pose proof (result_ok_lxor _ _ Hrr Hr) as Hrr'. destruct (Z.eqb_spec (Z.lxor cr c) 0) as [E0|N0].
    + eexists. split; [done|]. apply added_reduced; [done|]. intros X HX. rewrite Heq, E0 by done. split; intros H j Hj; specialize (H j Hj); rewrite dot_0 in *; congruence.
    + destruct (fits_reduce _ _ _ _ Hn Hf Hfc N0) as (Ht & Et & Hf'). set (t := row_CountTrailingZeroBits w (Z.lxor cr c)) in *. set (u := Z.shiftr (Z.lxor cr c) t) in *.
      pose proof (fits_slot _ _ _ Hn Hf') as Hit. rewrite (ix_small (i + t)) by lia. destruct (IH (i + t) (Z.lxor rr r) u Hf' Hrr') as (res & Eres & Ha); [lia|].
      exists res. split; [done|]. eapply added_equiv; [|exact Ha]. intros X HX. rewrite Heq by done. rewrite Et. apply sat_shift; [lia|lia|destruct Hf'; lia].
Qed.

Lemma solves_store s s1 k cr rr rr0 : LoadRow ts k false s = Some (0, rr0) -> cr <> 0 -> 0 <= k < slots s -> slots s1 = slots s ->
  (forall i, 0 <= i < slots s -> LoadRow ts i false s1 = if i =? k then Some (cr, rr) else LoadRow ts i false s) ->
  forall X, solves s1 X <-> solves s X /\ sat X k cr rr.
Proof using.
  intros E0 Hc Hk Hsl Hl X. unfold solves. rewrite Hsl. split.
  - intros H. split; [|apply (H k cr rr Hk); [by rewrite Hl, Z.eqb_refl by done|done]]. intros i c r Hi El Hc0. apply (H i c r Hi); [|done]. rewrite Hl by done.
    destruct (Z.eqb_spec i k) as [->|]; [|done]. rewrite E0 in El. by injection El as <- _.
  - intros [H Hs] i c r Hi El Hc0. rewrite Hl in El by done. destruct (Z.eqb_spec i k) as [->|]; [by injection El as <- <-|]. by apply (H i c r Hi).
Qed.
Lemma wf_store s s1 k cr rr : wf s -> same_shape s s1 -> fits (slots s) k cr \/ cr = 0 -> result_ok rr ->
  (forall i, 0 <= i < slots s -> LoadRow ts i false s1 = if i =? k then Some (cr, rr) else LoadRow ts i false s) -> wf s1.
Proof using.
  intros Hw Hsh Hf Hr Hl. pose proof (same_shape_slots _ _ Hsh) as Hsl. destruct Hsh as (E1 & E2 & E3 & _). split; unfold zlen; rewrite ?Hsl, ?E1, ?E2, ?E3.
  - apply (wf_starts s Hw).
  - apply (wf_slots s Hw).
  - apply (wf_coeff s Hw).
  - apply (wf_result s Hw).
  - intros i c r Hi El. rewrite Hl in El by done. destruct (Z.eqb_spec i k) as [->|]; [injection El as <- <-; tauto|]. by apply (wf_rows s Hw).
Qed.

Lemma added_spec bts s pos start cr rr ok s' pos' : wf s -> added bts s pos start cr rr (ok, s', pos') ->
  wf s' /\ same_shape s s' /\ (if ok then forall X, solves s' X <-> solves s X /\ sat X start cr rr else s' = s /\ forall X, solves s X -> ~ sat X start cr rr).
Proof using Hts.
  intros Hw Ha. inversion Ha as [k cr' rr' rr0 s1 Hk E0 Hf Hr Es Heq|rr' Hr Heq]; subst; clear Ha.
  - destruct (StoreRow_spec s k cr' rr' Hw Hk Hr) as (s1' & Es' & Hsh & _ & _ & Hl). rewrite Es in Es'. injection Es' as <-.
    assert (Hw1 : wf s1) by (by eapply wf_store; [| |left| |]). assert (Hc : cr' <> 0) by (destruct Hf; lia).
    assert (Hs1 : forall X, solves s1 X <-> solves s X /\ sat X start cr rr).
    { intros X. rewrite (solves_store s s1 k cr' rr' rr0) by (done || by apply same_shape_slots). split; intros [H1 H2]; split; try done; by apply Heq. }
    destruct bts; (split; [|split; [|done]]); try done. destruct Hw1 as [A B C D F]; by split.
  - split; [done|]. split; [by repeat split|]. destruct (Z.eqb_spec rr' 0) as [->|Hn]; cbn.
    + intros X. split; [|tauto]. intros HX. split; [done|]. apply Heq; [done|]. intros j _. apply Z.bits_0.
    + split; [done|]. intros X HX Hs. apply Hn. apply result_zero; [done|]. by apply (Heq X HX).
Qed.

Lemma added_room bts s pos start cr rr ok s' pos' n : wf s -> 0 <= n -> room bts s pos (1 + n) -> added bts s pos start cr rr (ok, s', pos') -> room bts s' pos' n.
Proof using.
  intros Hw Hn (H0 & H1 & Hb) Ha. inversion Ha as [k cr' rr' ? s1 Hk ? ? Hr Es|]; subst; (split; [lia|]); (split; [lia|]); intros Hbt; specialize (Hb Hbt); [|lia].
  destruct (StoreRow_spec s k cr' rr' Hw Hk Hr) as (? & E' & _ & Ebt & _). rewrite Es in E'. injection E' as <-. subst bts. cbn. unfold zlen in *. rewrite length_insert, Ebt. lia.
Qed.

Definition coeff_ok (cr : Z) : Prop := 0 < cr < 2 ^ w /\ (kFirstCoeffAlwaysOne ts = true -> Z.odd cr = true).
Lemma fits_start s start cr : 0 <= start < num_starts_ s -> 0 < cr < 2 ^ w -> 2 ^ start * cr < 2 ^ slots s.
Proof using Hts.
  intros Hs Hc. pose proof w_range. unfold slots. apply Z.lt_le_trans with (2 ^ (start + w)); [rewrite Z.pow_add_r by lia; nia|]. apply Z.pow_le_mono_r; lia.
Qed.
Lemma BandingAdd_spec bts s pos start cr rr : wf s -> room bts s pos 1 -> 0 <= start < num_starts_ s -> coeff_ok cr -> result_ok rr ->
  exists r, BandingAdd ts bts start rr cr pos s = Some r /\ added bts s pos start cr rr r.
Proof using Hts.
  intros Hw Hroom Hs [Hc Hodd] Hr. pose proof w_range. pose proof (wf_index s Hw) as Hsl. pose proof (wf_coeff s Hw) as Hcl. pose proof (wf_starts s Hw). pose proof (fits_start s start cr Hs Hc) as Hb. unfold zlen in Hcl.
  unfold BandingAdd. destruct (kFirstCoeffAlwaysOne ts); cbn [negb].
  - apply BandingAdd_loop_spec; [done|done| |done|unfold slots in *; lia]. split; [lia|]. split; [done|]. split; [by apply Hodd|done].
  - destruct (Z.eqb_spec cr 0); [lia|]. destruct (row_ctz_spec w cr) as (Ht & u & Hu & Ho & E); [lia|lia|]. set (t := row_CountTrailingZeroBits w cr) in *. assert (Hsh : Z.shiftr cr t = u) by (rewrite E; by apply shiftr_factor). rewrite Hsh.
    assert (Hf : fits (slots s) (start + t) u). { split; [lia|]. assert (1 <= 2 ^ t) by lia. split; [nia|]. split; [done|]. by rewrite Z.pow_add_r, <- Z.mul_assoc, <- E by lia. }
    assert (Hn : 0 <= slots s) by (unfold slots; lia). pose proof (fits_slot _ _ _ Hn Hf) as Hlt. rewrite ix_small by lia.
    destruct (BandingAdd_loop_spec bts s pos Hw Hroom (length (coeff_rows_ s)) (start + t) rr u Hf Hr) as (r & Er & Ha); [lia|]. exists r. split; [done|].
    eapply added_equiv; [|exact Ha]. intros X _. rewrite E at 1. apply sat_shift; lia.
Qed.

(** *** Hashed inputs *)

Lemma FastRange_range h n : 0 <= h < 2 ^ bits (hash_bytes ts) -> 0 < n < 2 ^ 32 -> 0 <= FastRangeGeneric ts h n < n.
Proof using Hts.
  intros Hh Hn. pose proof index_width_range as Hix. unfold FastRangeGeneric. unfold bits in Hh.
  assert (B : forall k, 0 < k -> 0 <= h < 2 ^ k -> 0 <= n * h / 2 ^ k < n) by (intros k Hk Hh'; split; [apply Z.div_pos; nia|apply Z.div_lt_upper_bound; nia]).
  destruct (set_hash ts Hts) as [E|E]; rewrite E in *; cbn [Nat.eqb].
  - specialize (B 32 ltac:(lia) Hh). pose proof (mul32_bound n h). unfold FastRangeGeneric32. rewrite u64_small, Z.shiftr_div_pow2, wrapT_small by lia. done.
  - specialize (B 64 ltac:(lia) Hh). rewrite FastRangeGeneric64_exact by lia. rewrite wrapT_small by lia. done.
Qed.
Lemma GetStart_range h n : 0 <= h < 2 ^ bits (hash_bytes ts) -> 1 <= n -> n + w < 2 ^ 32 -> 0 <= GetStart ts h n < n.
Proof using Hts.
  intros Hh Hn Hm. pose proof w_range as Hw. pose proof index_width_range as Hix. unfold GetStart. destruct (kUseSmash ts); [|apply FastRange_range; [done|lia]].
  assert (Hq : 0 <= w / 4 <= w / 2 /\ w / 4 * 2 <= w) by (destruct (set_coeff ts Hts) as [->|[->|[->| ->]]]; vm_compute; intuition congruence).
  rewrite !ix_small by lia. lia.
Qed.

Lemma lor_one cr : 0 <= cr < 2 ^ w -> 0 < Z.lor cr 1 < 2 ^ w /\ Z.odd (Z.lor cr 1) = true.
Proof using Hts.
  intros Hc. pose proof w_range. assert (Ho : Z.odd (Z.lor cr 1) = true) by (rewrite <- Z.bit0_odd, Z.lor_spec; apply orb_true_r).
  assert (0 <= Z.lor cr 1 < 2 ^ w) by (apply is_u_lor; [lia|done|split; [lia|apply Z.pow_gt_1; lia]]). split; [|done].
  destruct (decide (Z.lor cr 1 = 0)) as [E|]; [rewrite E in Ho; done|lia].
Qed.
Lemma lor_nonzero cr : 0 <= cr < 2 ^ w -> 0 < Z.lor cr (if cr =? 0 then 1 else 0) < 2 ^ w.
Proof using Hts. intros Hc. pose proof (lor_one cr Hc). destruct (Z.eqb_spec cr 0); [tauto|]. rewrite Z.lor_0_r. lia. Qed.
Lemma expansion_nonzero n a k : 0 <= n -> 0 <= a < 2 ^ n -> 0 < k < 2 ^ n -> 0 < Z.lxor (Z.shiftl a n) (Z.lxor a k) < 2 ^ (n + n).
Proof using.
  intros Hn Ha Hk. assert (Hx : 0 <= Z.lxor a k < 2 ^ n) by (apply is_u_lxor; unfold is_u; lia). rewrite Z.shiftl_mul_pow2 by done.
  assert (Hr : 0 <= Z.lxor (a * 2 ^ n) (Z.lxor a k) < 2 ^ (n + n)) by (apply is_u_lxor; unfold is_u; rewrite ?Z.pow_add_r by lia; nia).
  destruct (decide (Z.lxor (a * 2 ^ n) (Z.lxor a k) = 0)) as [E|]; [|lia]. apply Z.lxor_eq in E. assert (a = 0) by nia. subst a. rewrite Z.lxor_0_l in E. lia.
Qed.
Lemma hw_range v : 0 <= hw ts v < 2 ^ bits (hash_bytes ts).
Proof using. unfold hw, wrapT. apply Z.mod_pos_bound. unfold bits. lia. Qed.
Lemma GetCoeffRow_ok h : coeff_ok (GetCoeffRow ts h).
Proof using Hts.
  pose proof w_range as Hw. assert (Hrow : forall v, 0 <= row w v < 2 ^ w) by (intros v; unfold row; apply Z.mod_pos_bound; lia). unfold GetCoeffRow.
  destruct (kUseSmash ts).
  - cbv zeta. set (cr := row w _). specialize (Hrow _ : 0 <= cr < 2 ^ w). pose proof (lor_one _ Hrow). pose proof (lor_nonzero _ Hrow). unfold coeff_ok. destruct (kFirstCoeffAlwaysOne ts); [tauto|by split].
  - cbv zeta. set (a := hw ts _). pose proof (hw_range (h * kCoeffAndResultFactor ts)) as Ha. fold a in Ha. set (b := if (hash_bytes ts <? 8)%nat then _ else a). set (c := if 64 <? w then _ else b).
    unfold coeff_ok. destruct (kFirstCoeffAlwaysOne ts) eqn:Ef; [pose proof (lor_one _ (Hrow c)); tauto|]. split; [|done]. destruct (Z.eqb_spec w (bits (hash_bytes ts))) as [Ew|Nw]; [apply lor_nonzero, Hrow|].
    destruct (set_first ts Hts) as [?|Hf]; [congruence|]. unfold bits in *. unfold row, c, b. clear c b Hrow.
    destruct (set_hash ts Hts) as [Eh|Eh]; rewrite Eh in *; cbn [Nat.ltb Nat.leb].
    + pose proof (expansion_nonzero 32 a kCoeffXor32 ltac:(lia) Ha ltac:(done)) as Hb. rewrite u64_small by (rewrite Z.shiftl_mul_pow2 by lia; lia).
      destruct (set_coeff ts Hts) as [E|[E|[E|E]]]; rewrite E in *; try lia; cbn [Z.ltb Z.compare Pos.compare Pos.compare_cont]; [rewrite Z.mod_small by lia; lia|].
      pose proof (expansion_nonzero 64 _ kCoeffXor64 ltac:(lia) (conj (Z.lt_le_incl _ _ (proj1 Hb)) (proj2 Hb)) ltac:(done)) as Hc. unfold row. rewrite (Z.mod_small (Z.shiftl _ 64)) by (rewrite Z.shiftl_mul_pow2 by lia; lia).
      rewrite Z.mod_small by lia. lia.
    + destruct (set_coeff ts Hts) as [E|[E|[E|E]]]; rewrite E in *; try lia. cbn [Z.ltb Z.compare Pos.compare Pos.compare_cont].
      pose proof (expansion_nonzero 64 a kCoeffXor64 ltac:(lia) Ha ltac:(done)) as Hc. unfold row. rewrite (Z.mod_small (Z.shiftl _ 64)) by (rewrite Z.shiftl_mul_pow2 by lia; lia).
      rewrite Z.mod_small by lia. lia.
Qed.
Lemma rw_range v : 0 <= rw ts v < 2 ^ R.
Proof using Hts. unfold rw. pose proof (set_result ts Hts). apply Z.mod_pos_bound. lia. Qed.
Lemma GetResultRowFromHash_ok h : result_ok (GetResultRowFromHash ts h).
Proof using Hts.
  pose proof (set_result ts Hts) as HR. unfold GetResultRowFromHash, result_ok. destruct (kIsFilter ts && negb (kHomogeneous ts)) eqn:E; [|split; [lia|done]].
  apply andb_prop in E as [_ E]. split; [apply is_u_land; [lia|apply rw_range|apply rw_range]|]. intros Hh. by rewrite Hh in E.
Qed.

(** *** Adding a range of inputs *)

Section inputs.
Context {Key : Type} (HashFn : Key -> Z -> Z) (HashFn_range : forall k seed, 0 <= HashFn k seed < 2 ^ bits (hash_bytes ts)).
Implicit Types (bi : Key * Z) (inputs : list (Key * Z)).

Definition result_of (h : Z) bi : Z := Z.lor (GetResultRowFromInput ts bi) (GetResultRowFromHash ts h).
(** What an input demands of a solution. *)
Definition meets X (seed num_starts : Z) bi : Prop :=
  let h := GetHash HashFn seed bi.1 in sat X (GetStart ts h num_starts) (GetCoeffRow ts h) (result_of h bi).
Definition input_ok bi : Prop := 0 <= bi.2 < 2 ^ R.

Lemma result_of_ok h bi : input_ok bi -> result_ok (result_of h bi).
Proof using Hts.
  intros Hb. pose proof (set_result ts Hts). pose proof (GetResultRowFromHash_ok h) as [Hr Hr0]. unfold result_of, GetResultRowFromInput. split.
  - apply is_u_lor; [lia| |done]. destruct (kIsFilter ts); [split; lia|done].
  - intros Hh. by rewrite (set_homogeneous ts Hts Hh), Hr0.
Qed.
Lemma BandingAdd_input bts s pos bi : wf s -> room bts s pos 1 -> input_ok bi -> let h := GetHash HashFn (raw_seed_ s) bi.1 in
  exists r, BandingAdd ts bts (GetStart ts h (num_starts_ s)) (result_of h bi) (GetCoeffRow ts h) pos s = Some r /\
    added bts s pos (GetStart ts h (num_starts_ s)) (GetCoeffRow ts h) (result_of h bi) r.
Proof using Hts HashFn_range.
  intros Hw Hroom Hb h. pose proof (wf_starts s Hw). pose proof (wf_slots s Hw) as Hs. unfold slots in Hs. apply BandingAdd_spec; [done|done| |apply GetCoeffRow_ok|by apply result_of_ok].
  apply GetStart_range; [apply HashFn_range|lia|]. pose proof w_range. lia.
Qed.

Lemma room_less bts s pos n m : room bts s pos n -> 0 <= m <= n -> room bts s pos m.
Proof using. intros (? & ? & Hb) ?. split; [done|]. split; [lia|]. intros Hbt. specialize (Hb Hbt). lia. Qed.
Lemma pipelined_eq bts bi inputs pos s : let h := GetHash HashFn (raw_seed_ s) bi.1 in
  wf s -> room bts s pos (zlen (bi :: inputs)) -> Forall input_ok (bi :: inputs) ->
  add_range_pipelined ts HashFn bts (num_starts_ s) h (GetStart ts h (num_starts_ s)) (GetResultRowFromInput ts bi) inputs pos s =
  add_range ts HashFn bts (num_starts_ s) (bi :: inputs) pos s.
Proof using Hts HashFn_range.
  revert bi pos s. induction inputs as [|bi' inputs IH]; intros bi pos s h Hw Hroom Hok.
  - cbn [add_range_pipelined add_range]. fold h. destruct (BandingAdd _ _ _ _ _ _ _) as [[[[] s'] pos']|]; done.
  - rewrite zlen_cons in Hroom. pose proof (zlen_nonneg (bi' :: inputs)) as Hn. apply Forall_cons in Hok as [Hb Hok].
    destruct (BandingAdd_input bts s pos bi Hw (room_less _ _ _ _ 1 Hroom ltac:(lia)) Hb) as ([[ok s'] pos'] & E & Ha). fold h in E, Ha.
    destruct (added_spec _ _ _ _ _ _ _ _ _ Hw Ha) as (Hw' & (E1 & _ & _ & _ & E5) & _). pose proof (added_room _ _ _ _ _ _ _ _ _ _ Hw Hn Hroom Ha) as Hroom'.
    cbn [add_range_pipelined]. remember (bi' :: inputs) as rest eqn:Er. cbn [add_range]. fold h. fold (result_of h bi). rewrite E. cbn [mbind option_bind]. destruct ok; [|done].
    subst rest. rewrite <- E1, <- E5. by apply IH.
Qed.

(** [s'] is [s] but for the rows [ks], which were empty and are recorded for backtracking. *)
Record restorable s s' (ks : list Z) : Prop := {
  re_shape : same_shape s s';
  re_marks : forall m k, ks !! m = Some k -> backtrack_ s' !! m = Some (Some k) /\ 0 <= k < slots s /\ LoadRow ts k false s = Some (0, 0);
  re_rows : forall i, 0 <= i < slots s -> i ∉ ks -> LoadRow ts i false s' = LoadRow ts i false s;
}.
Definition used s (ks : list Z) : Prop := forall k, k ∈ ks -> exists cr rr, LoadRow ts k false s = Some (cr, rr) /\ cr <> 0.
Definition clean s : Prop := forall i rr, 0 <= i < slots s -> LoadRow ts i false s = Some (0, rr) -> rr = 0.

Lemma same_shape_trans s1 s2 s3 : same_shape s1 s2 -> same_shape s2 s3 -> same_shape s1 s3.
Proof using. unfold same_shape. intuition congruence. Qed.
Lemma roll_back_spec s ks : forall s', wf s' -> restorable s s' ks ->
  exists s'', roll_back ts (length ks) s' = Some s'' /\ wf s'' /\ same_shape s s'' /\ forall i, 0 <= i < slots s -> LoadRow ts i false s'' = LoadRow ts i false s.
Proof using Hts.
  induction ks as [|k ks IH] using rev_ind; intros s' Hw [Hsh Hm Hr].
  - exists s'. split; [done|]. split; [done|]. split; [done|]. intros i Hi. apply Hr; [done|]. apply not_elem_of_nil.
  - rewrite length_app, Nat.add_1_r. cbn [roll_back]. destruct (Hm (length ks) k) as (Eb & Hk & E0); [by rewrite list_lookup_middle|].
    unfold BacktrackGet. rewrite Nat2Z.id, Eb. cbn [mbind option_bind]. pose proof (same_shape_slots _ _ Hsh) as Hsl.
    destruct (StoreRow_spec s' k 0 0 Hw ltac:(lia) result_ok_0) as (s1 & E1 & Hsh1 & Ebt & _ & Hl). rewrite E1. cbn [mbind option_bind].
    apply IH; [eapply wf_store; [exact Hw|exact Hsh1|by right|exact result_ok_0|exact Hl]|]. split; [by eapply same_shape_trans| |].
    + intros m k' Hmk. rewrite Ebt. apply Hm. apply lookup_app_l_Some. done.
    + intros i Hi Hni. rewrite Hl by lia. destruct (Z.eqb_spec i k) as [->|Hn]; [done|]. apply Hr; [done|]. rewrite elem_of_app, list_elem_of_singleton. tauto.
Qed.
Lemma added_restorable s0 s pos start cr rr ok s' pos' ks : wf s -> clean s0 -> restorable s0 s ks -> used s ks -> pos = zlen ks -> room true s pos 1 ->
  added true s pos start cr rr (ok, s', pos') -> exists ks', restorable s0 s' ks' /\ used s' ks' /\ pos' = zlen ks'.
Proof using.
  intros Hw Hc [Hsh Hm Hr] Hu -> (_ & _ & Hroom) Ha. specialize (Hroom eq_refl). unfold zlen in Hroom. pose proof (same_shape_slots _ _ Hsh) as Hsl.
  inversion Ha as [k cr' rr' rr0 s1 Hk E0 Hf Hrr Es Heq|]; subst; [|by exists ks]. destruct (StoreRow_spec s k cr' rr' Hw Hk Hrr) as (s1' & Es' & Hsh1 & Ebt & _ & Hl). rewrite Es in Es'. injection Es' as <-.
  assert (Hnk : k ∉ ks). { intros Hin. destruct (Hu k Hin) as (c & r & El & Hc0). rewrite E0 in El. by injection El as <- _. }
  assert (E00 : LoadRow ts k false s0 = Some (0, 0)). { rewrite <- Hr by (done || lia). rewrite E0. do 2 f_equal. apply (Hc k); [lia|]. by rewrite <- Hr by (done || lia). }
  exists (ks ++ [k]). split; [split|split; [|by rewrite zlen_app]].
  - apply (same_shape_trans _ _ _ Hsh). destruct Hsh1 as (? & ? & ? & ? & ?). by repeat split.
  - intros m k' Hmk. cbn. unfold zlen. rewrite Nat2Z.id, Ebt. apply lookup_app_Some in Hmk as [Hmk|[Hle Hmk]].
    + pose proof (lookup_lt_Some _ _ _ Hmk). rewrite list_lookup_insert_ne by lia. by apply Hm.
    + apply list_lookup_singleton_Some in Hmk as [Hm0 ->]. replace m with (length ks) by lia. rewrite list_lookup_insert_eq by lia. split; [done|]. split; [lia|done].
  - intros i Hi Hni. rewrite elem_of_app, list_elem_of_singleton in Hni. change (LoadRow ts i false (set_backtrack _ _ s1)) with (LoadRow ts i false s1).
    rewrite Hl by lia. destruct (Z.eqb_spec i k); [tauto|]. apply Hr; tauto.
  - intros k' Hin. change (LoadRow ts k' false (set_backtrack _ _ s1)) with (LoadRow ts k' false s1). apply elem_of_app in Hin as [Hin|Hin%list_elem_of_singleton].
    + apply list_elem_of_lookup in Hin as Hin'. destruct Hin' as [m Hmk]. destruct (Hm _ _ Hmk) as (_ & Hk' & _). rewrite Hl by lia. destruct (Z.eqb_spec k' k) as [->|]; [done|]. by apply Hu.
    + subst k'. rewrite Hl, Z.eqb_refl by done. exists cr', rr'. split; [done|]. destruct Hf; lia.
Qed.
Lemma added_clean bts s pos start cr rr ok s' pos' : wf s -> clean s -> added bts s pos start cr rr (ok, s', pos') -> clean s'.
Proof using.
  intros Hw Hc Ha. inversion Ha as [k cr' rr' rr0 s1 Hk E0 Hf Hrr Es Heq|]; subst; [|done]. destruct (StoreRow_spec s k cr' rr' Hw Hk Hrr) as (s1' & Es' & Hsh1 & _ & _ & Hl). rewrite Es in Es'. injection Es' as <-.
  assert (Hc1 : clean s1). { intros i r Hi El. rewrite (same_shape_slots _ _ Hsh1) in Hi. rewrite Hl in El by done. destruct (Z.eqb_spec i k); [destruct Hf; injection El as ??; lia|]. by apply (Hc i). }
  by destruct bts.
Qed.

Lemma add_range_spec bts inputs : forall s pos, wf s -> room bts s pos (zlen inputs) -> Forall input_ok inputs ->
  exists ok s' pos', add_range ts HashFn bts (num_starts_ s) inputs pos s = Some (ok, s', pos') /\ wf s' /\ same_shape s s' /\ (clean s -> clean s') /\
    (if ok then forall X, solves s' X <-> solves s X /\ Forall (meets X (raw_seed_ s) (num_starts_ s)) inputs
     else forall X, solves s X -> ~ Forall (meets X (raw_seed_ s) (num_starts_ s)) inputs) /\
    (bts = true -> forall s0 ks, clean s0 -> restorable s0 s ks -> used s ks -> pos = zlen ks -> exists ks', restorable s0 s' ks' /\ used s' ks' /\ pos' = zlen ks').
Proof using Hts HashFn_range.
  induction inputs as [|bi inputs IH]; intros s pos Hw Hroom Hok.
  - exists true, s, pos. split; [done|]. split; [done|]. split; [by repeat split|]. split; [done|]. split; [intros X; rewrite Forall_nil; tauto|]. intros _ s0 ks _ ? ? ?. by exists ks.
  - rewrite zlen_cons in Hroom. pose proof (zlen_nonneg inputs) as Hn. apply Forall_cons in Hok as [Hb Hok]. set (h := GetHash HashFn (raw_seed_ s) bi.1).
    pose proof (room_less _ _ _ _ 1 Hroom ltac:(lia)) as Hroom1. destruct (BandingAdd_input bts s pos bi Hw Hroom1 Hb) as ([[ok s1] pos1] & E & Ha). fold h in E, Ha.
    destruct (added_spec _ _ _ _ _ _ _ _ _ Hw Ha) as (Hw1 & Hsh1 & Hok1). pose proof Hsh1 as (E1 & _ & _ & _ & E5).
    cbn [add_range]. fold h. fold (result_of h bi). rewrite E. cbn [mbind option_bind]. destruct ok.
    + destruct (IH s1 pos1 Hw1 (added_room _ _ _ _ _ _ _ _ _ _ Hw Hn Hroom Ha) Hok) as (ok & s' & pos' & Er & Hw' & Hsh' & Hcl & Hok' & Hre).
      rewrite <- E1. exists ok, s', pos'. split; [done|]. split; [done|]. split; [by eapply same_shape_trans|]. split; [intros Hc; apply Hcl; exact (added_clean _ _ _ _ _ _ _ _ _ Hw Hc Ha)|]. rewrite E1, E5 in Hok'. rewrite E1. split.
      * destruct ok; intros X; [rewrite Hok', Hok1, Forall_cons; unfold meets at 2; fold h; tauto|]. intros HX [Hm HF]%Forall_cons. apply (Hok' X); [|done]. by apply Hok1.
      * intros Hbt s0 ks Hc0 Hr0 Hu0 Hp0. destruct (added_restorable s0 s pos _ _ _ _ _ _ ks Hw Hc0 Hr0 Hu0 Hp0 ltac:(by rewrite <- Hbt) ltac:(rewrite <- Hbt; exact Ha)) as (ks1 & ? & ? & ?). by apply (Hre Hbt s0 ks1).
    + destruct Hok1 as [-> Hno]. exists false, s, pos1. split; [done|]. split; [done|]. split; [done|]. split; [done|]. split; [intros X HX [Hm _]%Forall_cons; by apply (Hno X HX)|].
      intros Hbt s0 ks Hc0 Hr0 Hu0 Hp0. apply (added_restorable s0 s pos _ _ _ _ _ _ ks Hw Hc0 Hr0 Hu0 Hp0 ltac:(by rewrite <- Hbt) ltac:(rewrite <- Hbt; exact Ha)).
Qed.

Lemma BandingAddRange_spec bts inputs s : wf s -> room bts s 0 (zlen inputs) -> Forall input_ok inputs -> (bts = true -> clean s) ->
  exists ok s', BandingAddRange ts HashFn bts inputs s = Some (ok, s') /\ wf s' /\ same_shape s s' /\
    (if ok then (clean s -> clean s') /\ forall X, solves s' X <-> solves s X /\ Forall (meets X (raw_seed_ s) (num_starts_ s)) inputs
     else (forall X, solves s X -> ~ Forall (meets X (raw_seed_ s) (num_starts_ s)) inputs) /\
       (bts = true -> forall i, 0 <= i < slots s -> LoadRow ts i false s' = LoadRow ts i false s)).
Proof using Hts HashFn_range.
  intros Hw Hroom Hok Hc. destruct inputs as [|bi inputs].
  { exists true, s. split; [done|]. split; [done|]. split; [by repeat split|]. split; [done|]. intros X. rewrite Forall_nil. tauto. }
  destruct (add_range_spec bts (bi :: inputs) s 0 Hw Hroom Hok) as (ok & s1 & pos1 & E & Hw1 & Hsh1 & Hcl & Hok1 & Hre).
  assert (Eb : BandingAddRange ts HashFn bts (bi :: inputs) s = if ok then Some (true, s1) else if bts then bs ← roll_back ts (Z.to_nat pos1) s1; Some (false, bs) else Some (false, s1)).
  { unfold BandingAddRange. rewrite pipelined_eq by done. rewrite E. by destruct (negb (UsePrefetch s)). }
  rewrite Eb. destruct ok; [exists true, s1; tauto|]. destruct bts; [|exists false, s1; split; [done|]; split; [done|]; split; [done|]; by split].
  destruct (Hre eq_refl s [] (Hc eq_refl)) as (ks & Hks & _ & Ep).
  { split; [by repeat split|intros m k Hm; by rewrite lookup_nil in Hm|done]. }
  { intros k Hk. by apply not_elem_of_nil in Hk. }
  { done. }
  destruct (roll_back_spec s ks s1 Hw1 Hks) as (s2 & E2 & Hw2 & Hsh2 & Hl). rewrite Ep. unfold zlen. rewrite Nat2Z.id, E2. exists false, s2. split; [done|]. split; [done|]. split; [done|]. by split.
Qed.

(** *** Finding a seed *)

(** The arrays are as large as [num_slots_allocated_] says. *)
Definition allocated s : Prop := zlen (coeff_rows_ s) = num_slots_allocated_ s /\ (kHomogeneous ts = true \/ zlen (result_rows_ s) = num_slots_allocated_ s).
Lemma zero_rows_lookup n rows i : (i < n)%nat -> (n <= length rows)%nat -> zero_rows n rows !! i = Some 0.
Proof using. intros Hi Hn. unfold zero_rows. rewrite lookup_app_l by (rewrite length_replicate; lia). apply lookup_replicate_2. lia. Qed.
Lemma length_zero_rows n rows : length (zero_rows n rows) = length rows.
Proof using. unfold zero_rows. rewrite length_app, length_replicate, length_drop. lia. Qed.
Lemma LoadRow_zero s i : coeff_rows_ s !! Z.to_nat i = Some 0 -> kHomogeneous ts = true \/ result_rows_ s !! Z.to_nat i = Some 0 -> LoadRow ts i false s = Some (0, 0).
Proof using. intros E1 E2. unfold LoadRow. rewrite E1. cbn [mbind option_bind andb]. destruct (kHomogeneous ts); [done|]. destruct E2 as [?|E2]; [done|]. by rewrite E2. Qed.
Lemma Reset_spec num_slots s : allocated s -> w <= num_slots -> num_slots + w < 2 ^ 32 -> let s' := Reset ts num_slots 0 s in
  wf s' /\ allocated s' /\ slots s' = num_slots /\ raw_seed_ s' = raw_seed_ s /\ clean s' /\ forall X, solves s' X.
Proof using Hts.
  intros [Ha1 Ha2] Hn Hm s'. pose proof w_range as Hw. pose proof index_width_range as Hix. unfold zlen in Ha1, Ha2.
  assert (Hst : num_starts_ s' = num_slots - w + 1 /\ raw_seed_ s' = raw_seed_ s /\ allocated s' /\ num_slots <= num_slots_allocated_ s').
  { unfold s', Reset, EnsureBacktrackSize. destruct (Z.eqb_spec num_slots 0); [lia|]. rewrite ix_small by lia. unfold allocated, zlen.
    destruct (Z.ltb_spec (num_slots_allocated_ s) num_slots), (backtrack_size_ _ <? 0); cbn; rewrite ?length_replicate, ?length_zero_rows; (split; [lia|]; split; [done|]; split; [|lia]; split; [lia|]);
      destruct (kHomogeneous ts); rewrite ?length_replicate, ?length_zero_rows; by (left + (right; lia) + (right; destruct Ha2; done)). }
  destruct Hst as (Est & Eseed & [Hc Hr] & Hal). assert (Esl : slots s' = num_slots) by (unfold slots; lia).
  assert (Hl : forall i, 0 <= i < num_slots -> LoadRow ts i false s' = Some (0, 0)).
  { intros i Hi. unfold s', Reset, EnsureBacktrackSize. destruct (Z.eqb_spec num_slots 0); [lia|]. apply LoadRow_zero.
    - destruct (Z.ltb_spec (num_slots_allocated_ s) num_slots), (backtrack_size_ _ <? 0); cbn; (apply lookup_replicate_2; lia) || (apply zero_rows_lookup; lia).
    - destruct (kHomogeneous ts); [by left|right]. destruct Ha2 as [?|Ha2]; [done|].
      destruct (Z.ltb_spec (num_slots_allocated_ s) num_slots), (backtrack_size_ _ <? 0); cbn; (apply lookup_replicate_2; lia) || (apply zero_rows_lookup; lia). }
  split; [|split; [done|split; [done|split; [done|split]]]].
  - split; [lia|lia|lia|destruct Hr; [by left|right; lia]|]. intros i cr rr Hi El. rewrite Hl in El by lia. injection El as <- <-. split; [by left|]. apply result_ok_0.
  - intros i rr Hi El. rewrite Hl in El by lia. by injection El as <-.
  - intros X i cr rr Hi El Hc0. rewrite Hl in El by lia. by injection El as <- <-.
Qed.

Lemma AddRange_eq s inputs : wf s -> AddRange ts HashFn inputs s = BandingAddRange ts HashFn false inputs s.
Proof using. intros Hw. pose proof (wf_starts s Hw). unfold AddRange. destruct (Z.eqb_spec (num_starts_ s) 0); [lia|]. by rewrite andb_false_r. Qed.
Lemma same_shape_allocated s s' : same_shape s s' -> allocated s -> allocated s'.
Proof using. intros (_ & E1 & E2 & E3 & _). unfold allocated, zlen. by rewrite E1, E2, E3. Qed.

(** No function satisfies all inputs, hashed with the ordinal seed. *)
Definition unsolvable (num_slots : Z) inputs (ordinal : Z) : Prop := forall X, ~ Forall (meets X (SetOrdinalSeed ts ordinal) (num_slots - w + 1)) inputs.
Definition solved (num_slots : Z) inputs (ordinal : Z) s : Prop :=
  wf s /\ slots s = num_slots /\ raw_seed_ s = SetOrdinalSeed ts ordinal /\ forall X, solves s X <-> Forall (meets X (SetOrdinalSeed ts ordinal) (num_slots - w + 1)) inputs.

Lemma try_seed num_slots inputs ordinal s : allocated s -> w <= num_slots -> num_slots + w < 2 ^ 32 -> zlen inputs < 2 ^ 32 -> Forall input_ok inputs ->
  exists ok s', AddRange ts HashFn inputs (Reset ts num_slots 0 (mkBanding (coeff_rows_ s) (result_rows_ s) (num_starts_ s) (num_slots_allocated_ s) (backtrack_ s) (backtrack_size_ s) (SetOrdinalSeed ts ordinal))) = Some (ok, s') /\
    allocated s' /\ if ok then solved num_slots inputs ordinal s' else unsolvable num_slots inputs ordinal.
Proof using Hts HashFn_range.
  intros Ha Hn Hm Hlen Hok. set (s0 := mkBanding _ _ _ _ _ _ _). destruct (Reset_spec num_slots s0 Ha Hn Hm) as (Hw & Ha' & Esl & Eseed & Hc & HX). set (s1 := Reset ts num_slots 0 s0) in *.
  rewrite AddRange_eq by done. destruct (BandingAddRange_spec false inputs s1 Hw) as (ok & s' & E & Hw' & Hsh & Hres); [|done|done|].
  { split; [lia|]. split; [|done]. pose proof index_width_range. lia. }
  assert (Est : num_starts_ s1 = num_slots - w + 1) by (unfold slots in Esl; lia). rewrite Est, Eseed in Hres. cbn in Hres. exists ok, s'. split; [done|]. split; [by eapply same_shape_allocated|]. destruct ok.
  - destruct Hres as [_ Hres]. split; [done|]. split; [by rewrite (same_shape_slots _ _ Hsh)|]. split; [destruct Hsh as (_ & _ & _ & _ & ->); done|]. intros X. rewrite Hres. specialize (HX X). tauto.
  - intros X. by apply Hres.
Qed.
Lemma next_seed k cur : 0 <= k <= bits (seed_bytes ts) -> Z.land (sw ts (cur + 1)) (2 ^ k - 1) = (cur + 1) mod 2 ^ k.
Proof using. intros Hk. rewrite Z.sub_1_r, <- Z.ones_equiv, Z.land_ones by lia. unfold sw, wrapT. apply Z.mod_mod_divide. exists (2 ^ (bits (seed_bytes ts) - k)). rewrite <- Z.pow_add_r by lia. f_equal. lia. Qed.
Lemma find_seed_spec num_slots inputs k start : w <= num_slots -> num_slots + w < 2 ^ 32 -> zlen inputs < 2 ^ 32 -> Forall input_ok inputs ->
  0 <= k <= bits (seed_bytes ts) -> 0 <= start < 2 ^ k -> forall fuel d s, allocated s -> 0 <= d < 2 ^ k -> d + Z.of_nat fuel = 2 ^ k ->
  (forall d', 0 <= d' < d -> unsolvable num_slots inputs ((start + d') mod 2 ^ k)) ->
  exists ok s', find_seed ts HashFn fuel num_slots inputs start (2 ^ k - 1) ((start + d) mod 2 ^ k) s = Some (ok, s') /\
    if ok then exists d0, 0 <= d0 < 2 ^ k /\ solved num_slots inputs ((start + d0) mod 2 ^ k) s' /\ forall d', 0 <= d' < d0 -> unsolvable num_slots inputs ((start + d') mod 2 ^ k)
    else forall d', 0 <= d' < 2 ^ k -> unsolvable num_slots inputs ((start + d') mod 2 ^ k).
Proof using Hts HashFn_range.
  intros Hn Hm Hlen Hok Hk Hst. induction fuel as [|fuel IH]; intros d s Ha Hd Hf Hno; [lia|]. cbn [find_seed].
  destruct (try_seed num_slots inputs ((start + d) mod 2 ^ k) s Ha Hn Hm Hlen Hok) as (ok & s' & E & Ha' & Hres). rewrite E. cbn [mbind option_bind]. destruct ok.
  - exists true, s'. split; [done|]. exists d. split; [lia|]. by split.
  - assert (Hno' : forall d', 0 <= d' < d + 1 -> unsolvable num_slots inputs ((start + d') mod 2 ^ k)).
    { intros d' Hd'. destruct (decide (d' = d)) as [->|]; [done|]. apply Hno. lia. }
    rewrite next_seed by done. rewrite Z.add_mod_idemp_l, <- Z.add_assoc by lia. destruct (decide (d + 1 = 2 ^ k)) as [Hend|].
    + rewrite Hend, Z.add_mod, Z.mod_same, Z.add_0_r, !Z.mod_mod, Z.mod_small, Z.eqb_refl by lia. cbn [negb]. exists false, s'. split; [done|]. intros d' Hd'. apply Hno'. lia.
    + destruct (Z.eqb_spec ((start + (d + 1)) mod 2 ^ k) start) as [Es|_]; cbn [negb]; [exfalso|apply IH; (done || lia)].
      destruct (Z.ltb_spec (start + (d + 1)) (2 ^ k)); [rewrite Z.mod_small in Es by lia; lia|].
      replace (start + (d + 1)) with (start + (d + 1) - 2 ^ k + 1 * 2 ^ k) in Es by lia. rewrite Z.mod_add, Z.mod_small in Es by lia. lia.
Qed.
Lemma ResetAndFindSeedToSolve_spec num_slots inputs k start s : allocated s -> w <= num_slots -> num_slots + w < 2 ^ 32 -> zlen inputs < 2 ^ 32 -> Forall input_ok inputs ->
  0 <= k <= bits (seed_bytes ts) -> 0 <= start < 2 ^ k ->
  exists ok s', ResetAndFindSeedToSolve ts HashFn num_slots inputs start (2 ^ k - 1) s = Some (ok, s') /\
    if ok then exists d0, 0 <= d0 < 2 ^ k /\ solved num_slots inputs ((start + d0) mod 2 ^ k) s' /\ forall d', 0 <= d' < d0 -> unsolvable num_slots inputs ((start + d') mod 2 ^ k)
    else forall d', 0 <= d' < 2 ^ k -> unsolvable num_slots inputs ((start + d') mod 2 ^ k).
Proof using Hts HashFn_range.
  intros Ha Hn Hm Hlen Hok Hk Hst. unfold ResetAndFindSeedToSolve.
  assert (El : Z.land start (2 ^ k - 1) = start) by (rewrite Z.sub_1_r, <- Z.ones_equiv, Z.land_ones, Z.mod_small by lia; done). rewrite El.
  destruct (find_seed_spec num_slots inputs k start Hn Hm Hlen Hok Hk Hst (Z.to_nat (2 ^ k - 1 + 1)) 0 s Ha) as (ok & s' & E & Hres); [lia|lia|lia|].
  rewrite Z.add_0_r, (Z.mod_small start) in E by done. exists ok, s'. by split.
Qed.
End inputs.
End banding.
