(* ===== verification/RibbonSolution.v ===== *)
(** * Ribbon filters: back substitution, the stored solution and the queries

    Back substitution finds a solution of the equations in a banding; it is stored in segments of [kCoeffBits] rows of a column, and a query finds in it the parities
    the equation of its key asks for. *)

From stdpp Require Import prelude.
From Stdlib Require Import ZArith Lia Bool.
From S2P Require Import Prelude Coding Math Ribbon RibbonProofs.

(** ** The solution *)

Section solution.
Context (ts : TypesAndSettings) (Hts : settings ts) (bs : StandardBanding) (Hwf : wf ts bs).
Notation w := (kCoeffBits ts).
Notation R := (kResultBits ts).
Notation N := (slots ts bs).

(** The last [n] rows of column [j]. *)
Fixpoint col (j : Z) (n : nat) : Z :=
  match n with
  | O => 0
  | S n =>
      let x := 2 * col j n in
      match LoadRow ts (N - Z.of_nat (S n)) true bs with
      | Some (cr, rr) => x + Z.b2z (xorb (dot cr x) (Z.testbit rr j))
      | None => x
      end
  end.
Definition the_solution (j : Z) : Z := col j (Z.to_nat N).

Lemma N_pos : w <= N.
Proof using Hwf. pose proof (wf_starts ts bs Hwf). unfold slots. lia. Qed.
Lemma col_shift j n m : Z.shiftr (col j (m + n)) (Z.of_nat m) = col j n.
Proof using.
  induction m as [|m IH]; [done|]. rewrite Nat2Z.inj_succ, <- Z.add_1_l, <- Z.shiftr_shiftr by lia. rewrite <- IH. f_equal. cbn [Nat.add col].
  destruct (LoadRow _ _ _ _) as [[cr rr]|]; rewrite Z.shiftr_div_pow2 by lia; change (2 ^ 1) with 2.
  - rewrite Z.mul_comm, Z.div_add_l by lia. destruct (xorb _ _); cbn [Z.b2z]; rewrite Z.div_small by lia; lia.
  - rewrite Z.mul_comm. by apply Z.div_mul.
Qed.
Lemma the_solution_shift j i : 0 <= i <= N -> Z.shiftr (the_solution j) i = col j (Z.to_nat (N - i)).
Proof using. intros Hi. unfold the_solution. rewrite <- (col_shift j (Z.to_nat (N - i)) (Z.to_nat i)). rewrite Z2Nat.id by lia. f_equal. f_equal. lia. Qed.

Lemma row_range i cr rr : 0 <= i < N -> LoadRow ts i true bs = Some (cr, rr) -> 0 <= cr < 2 ^ w /\ (cr = 0 \/ Z.odd cr = true).
Proof using Hts Hwf.
  intros Hi El. pose proof (w_range ts Hts). destruct (decide (cr = 0)) as [->|Hn]; [split; [split; [done|]; apply Z.pow_pos_nonneg; lia|by left]|].
  destruct (wf_rows ts bs Hwf i cr rr Hi (LoadRow_back ts bs i cr rr El Hn)) as [[?|(_ & ? & ? & _)] _]; [done|]. split; [lia|by right].
Qed.
Lemma col_row j i cr rr : 0 <= i < N -> LoadRow ts i false bs = Some (cr, rr) -> cr <> 0 -> dot cr (col j (Z.to_nat (N - i))) = Z.testbit rr j.
Proof using Hts Hwf.
  intros Hi El Hc. destruct (LoadRow_some ts bs i true Hwf Hi) as (cr' & rr' & El'). assert (E : cr' = cr).
  { unfold LoadRow in El, El'. destruct (coeff_rows_ bs !! _); cbn [mbind option_bind] in *; [|done]. destruct (kHomogeneous ts); [congruence|]. destruct (result_rows_ bs !! _); cbn in *; congruence. }
  subst cr'. pose proof (LoadRow_back ts bs i cr rr' El' Hc) as E'. rewrite El in E'. injection E' as <-. destruct (row_range i cr rr Hi El') as [Hr [?|Ho]]; [done|].
  destruct (Z.to_nat (N - i)) as [|n] eqn:En; [lia|]. cbn [col]. replace (N - Z.of_nat (S n)) with i by lia. rewrite El'. rewrite dot_cons by (done || lia). by destruct (dot cr _), (Z.testbit rr j).
Qed.
(** The banding has a solution. *)
Lemma the_solution_solves : solves ts bs the_solution.
Proof using Hts Hwf. intros i cr rr Hi El Hc j Hj. rewrite the_solution_shift by lia. by apply col_row. Qed.

(** *** The state of back substitution *)

Lemma subst_column_spec cr rr j n : 0 <= j -> (n < Z.to_nat N)%nat -> LoadRow ts (N - Z.of_nat (S n)) true bs = Some (cr, rr) ->
  subst_column ts cr rr j (col j n mod 2 ^ w) = col j (S n) mod 2 ^ w.
Proof using Hts Hwf.
  intros Hj Hn El. pose proof (w_range ts Hts) as Hw. assert (Hi : 0 <= N - Z.of_nat (S n) < N) by lia. destruct (row_range _ _ _ Hi El) as [Hc _]. cbn [col]. rewrite El. set (x := col j n). unfold subst_column, row.
  assert (E2 : Z.shiftl (x mod 2 ^ w) 1 mod 2 ^ w = (2 * x) mod 2 ^ w) by (rewrite Z.shiftl_mul_pow2, Z.mul_comm, Z.mul_mod_idemp_r by lia; done). rewrite E2.
  assert (Hp : 0 < 2 ^ w) by (apply Z.pow_pos_nonneg; lia). pose proof (Z.mod_pos_bound (2 * x) _ Hp) as Hm.
  rewrite row_BitParity_eq; [|apply is_u_land; unfold is_u; lia|lia]. rewrite Z.land_comm. fold (dot cr ((2 * x) mod 2 ^ w)). rewrite dot_mod by lia.
  replace (Z.land (Z.shiftr rr j) 1) with (Z.b2z (Z.testbit rr j)) by (change 1 with (Z.ones 1); rewrite Z.land_ones by lia; change (2 ^ 1) with 2; rewrite Z.shiftr_div_pow2 by lia; apply Z.testbit_spec'; done).
  set (a := dot cr (2 * x)). set (b := Z.testbit rr j). replace (Z.lxor (Z.b2z a) (Z.b2z b)) with (Z.b2z (xorb a b)) by (by destruct a, b). set (c := xorb a b).
  assert ((2 * x) mod 2 ^ w = 2 * (x mod 2 ^ (w - 1)) /\ (2 * x + Z.b2z c) mod 2 ^ w = 2 * (x mod 2 ^ (w - 1)) + Z.b2z c) as [Ev1 Ev2].
  { replace (2 ^ w) with (2 * 2 ^ (w - 1)) by (rewrite <- Z.pow_succ_r by lia; f_equal; lia). assert (0 < 2 ^ (w - 1)) by (apply Z.pow_pos_nonneg; lia). split; [by rewrite Zmult_mod_distr_l|].
    pose proof (Z.mod_pos_bound x (2 ^ (w - 1)) ltac:(lia)). rewrite (Z.div_mod x (2 ^ (w - 1))) at 1 by lia.
    replace (2 * (2 ^ (w - 1) * (x / 2 ^ (w - 1)) + x mod 2 ^ (w - 1)) + Z.b2z c) with (2 * (x mod 2 ^ (w - 1)) + Z.b2z c + x / 2 ^ (w - 1) * (2 * 2 ^ (w - 1))) by lia.
    rewrite Z.mod_add, Z.mod_small by (destruct c; cbn; lia). done. }
  rewrite Ev1, Ev2. set (y := x mod 2 ^ (w - 1)). apply lor_bit.
Qed.

Definition state_ok (c : Z) (n : nat) (state : list Z) : Prop := forall j, 0 <= j < c -> state !! Z.to_nat j = Some (col j n mod 2 ^ w).
Lemma subst_row_spec c n cr rr state : (n < Z.to_nat N)%nat -> LoadRow ts (N - Z.of_nat (S n)) true bs = Some (cr, rr) -> state_ok c n state -> state_ok c (S n) (subst_row ts c cr rr state).
Proof using Hts Hwf.
  intros Hn El Hs j Hj. unfold subst_row. rewrite list_lookup_imap, (Hs j Hj). cbn [fmap option_fmap option_map]. rewrite Z2Nat.id by lia.
  destruct (Z.ltb_spec j c); [|lia]. f_equal. apply subst_column_spec; [lia|done|done].
Qed.
Lemma subst_rows_spec c k : forall n state start_slot, 0 <= start_slot -> start_slot + Z.of_nat k + Z.of_nat n = N -> state_ok c n state ->
  exists state', subst_rows ts k state c bs start_slot = Some state' /\ state_ok c (n + k) state' /\ length state' = length state.
Proof using Hts Hwf.
  induction k as [|k IH]; intros n state start Hst Hsum Hs; [exists state; by rewrite Nat.add_0_r|]. cbn [subst_rows].
  destruct (LoadRow_some ts bs (start + Z.of_nat k) true Hwf ltac:(lia)) as (cr & rr & El). rewrite El. cbn [mbind option_bind].
  replace (start + Z.of_nat k) with (N - Z.of_nat (S n)) in El by lia. pose proof (subst_row_spec c n cr rr state ltac:(lia) El Hs) as Hs'.
  destruct (IH (S n) _ start Hst ltac:(lia) Hs') as (state' & E & Hs'' & Hl). exists state'. split; [done|]. replace (n + S k)%nat with (S n + k)%nat by lia. split; [done|].
  rewrite Hl. unfold subst_row. apply length_imap.
Qed.
End solution.

(** ** Segments *)

Section segments.
Context (ts : TypesAndSettings) (Hts : settings ts) `{Port}.
Notation w := (kCoeffBits ts).
Notation sz := (sizeof_CoeffRow ts).
Implicit Types (iss : SerializableInterleavedSolution).

Lemma sz_eq : 8 * sz = w /\ 2 <= sz <= 16.
Proof using Hts. unfold sizeof_CoeffRow. destruct (set_coeff ts Hts) as [->|[->|[->| ->]]]; by vm_compute. Qed.
Lemma le_bytes_app n m v : le_bytes (n + m) v = le_bytes n v ++ le_bytes m (v / 2 ^ (8 * Z.of_nat n)).
Proof using.
  revert v. induction n as [|n IH]; intros v; [by rewrite Z.div_1_r|]. cbn [Nat.add le_bytes app]. rewrite IH, Z.div_div by lia. do 3 f_equal. rewrite <- Z.pow_add_r by lia. do 2 f_equal. lia.
Qed.
Lemma le_bytes_mod n v k : (8 * Z.of_nat n <= k) -> le_bytes n (v mod 2 ^ k) = le_bytes n v.
Proof using.
  revert v k. induction n as [|n IH]; intros v k Hk; [done|]. cbn [le_bytes]. f_equal.
  - apply Z.mod_mod_divide. exists (2 ^ (k - 8)). rewrite <- Z.pow_add_r by lia. f_equal. lia.
  - rewrite <- (IH (v / 2 ^ 8) (k - 8)) by lia. f_equal. replace k with (8 + (k - 8)) at 1 by lia. rewrite Z.pow_add_r by lia. rewrite Z.rem_mul_r by lia. rewrite Z.mul_comm, Z.div_add by lia.
    rewrite (Z.div_small (v mod 2 ^ 8)) by (apply Z.mod_pos_bound; lia). done.
Qed.
Lemma EncodeFixedGeneric_eq v : 0 <= v < 2 ^ w -> EncodeFixedGeneric w v = le_bytes (Z.to_nat sz) v.
Proof using Hts.
  intros Hv. unfold EncodeFixedGeneric, sizeof_CoeffRow. destruct (set_coeff ts Hts) as [E|[E|[E|E]]]; rewrite E in *; cbn [Z.eqb Pos.eqb].
  - apply EncodeFixed16_eq.
  - apply EncodeFixed32_eq.
  - apply EncodeFixed64_eq.
  - unfold EncodeFixed128, to128, Lower64of128, Upper64of128; cbn [Unsigned128.lo Unsigned128.hi]. rewrite !EncodeFixed64_eq. change (Z.to_nat (128 / 8)) with (8 + 8)%nat. rewrite le_bytes_app. f_equal; [apply (le_bytes_mod 8 v 64); lia|].
    rewrite Z.shiftr_div_pow2 by lia. done.
Qed.
Lemma DecodeFixedGeneric_eq p : bytes_ok p -> sz <= zlen p -> DecodeFixedGeneric w p = le_val (ztake sz p).
Proof using Hts.
  intros Hp Hl. unfold DecodeFixedGeneric, sizeof_CoeffRow in *. unfold zlen in Hl. destruct (set_coeff ts Hts) as [E|[E|[E|E]]]; rewrite E in *; cbn [Z.eqb Pos.eqb].
  - change (16 / 8) with 2 in *. apply DecodeFixed16_eq; [by apply bytes_ok_take|lia].
  - change (32 / 8) with 4 in *. apply DecodeFixed32_eq; [by apply bytes_ok_take|lia].
  - change (64 / 8) with 8 in *. apply DecodeFixed64_eq; [by apply bytes_ok_take|lia].
  - change (128 / 8) with 16 in *. unfold DecodeFixed128. rewrite DecodeFixed64_eq; [|by apply bytes_ok_take, bytes_ok_drop|unfold zdrop; rewrite length_drop; lia]. rewrite DecodeFixed64_eq by (by apply bytes_ok_take || lia).
    assert (Hh : is_u 64 (le_val (take 8 (zdrop 8 p)))) by (pose proof (le_val_range (take 8 (zdrop 8 p)) ltac:(by apply bytes_ok_take, bytes_ok_drop)) as Hr; unfold zlen in Hr; rewrite length_take_le in Hr by (unfold zdrop; rewrite length_drop; lia); exact Hr).
    assert (Hlo : is_u 64 (le_val (take 8 p))) by (pose proof (le_val_range (take 8 p) ltac:(by apply bytes_ok_take)) as Hr; unfold zlen in Hr; rewrite length_take_le in Hr by lia; exact Hr).
    destruct (val_concat _ _ Hh Hlo) as [E1 E2]. unfold Unsigned128.val. rewrite E1, E2. unfold ztake. change (Z.to_nat 16) with (8 + 8)%nat. rewrite <- (take_drop 8 (take (8 + 8) p)), take_take, le_val_app. change (8 `min` (8 + 8))%nat with 8%nat.
    rewrite <- take_drop_commute. unfold zlen. rewrite length_take_le by lia. done.
Qed.
Lemma LoadSegment_eq m iss : bytes_ok (data_ iss) -> 0 <= m -> m * sz + sz <= zlen (data_ iss) -> LoadSegment ts m iss = Some (le_val (ztake sz (zdrop (m * sz) (data_ iss)))).
Proof using Hts.
  intros Hb Hm Hl. pose proof sz_eq. unfold LoadSegment. destruct (Z.leb_spec (m * sz + sz) (zlen (data_ iss))); [|lia]. rewrite DecodeFixedGeneric_eq; [done|by apply bytes_ok_drop|]. rewrite zlen_zdrop by lia. lia.
Qed.
Lemma window_ext (d1 d2 : list Z) o n : 0 <= o -> (forall i : nat, o <= Z.of_nat i < o + n -> d1 !! i = d2 !! i) -> ztake n (zdrop o d1) = ztake n (zdrop o d2).
Proof using.
  intros Ho Hi. apply list_eq. intros k. unfold ztake, zdrop. destruct (decide (k < Z.to_nat n)%nat); [|by rewrite !lookup_take_ge by lia]. rewrite !lookup_take_lt, !lookup_drop by lia. apply Hi. lia.
Qed.
Definition same_config iss iss' : Prop := zlen (data_ iss') = zlen (data_ iss) /\ data_len_ iss' = data_len_ iss /\ soln_num_starts_ iss' = soln_num_starts_ iss /\
  upper_num_columns_ iss' = upper_num_columns_ iss /\ upper_start_block_ iss' = upper_start_block_ iss.
Lemma same_config_trans a b c : same_config a b -> same_config b c -> same_config a c.
Proof using. unfold same_config. intuition congruence. Qed.
Lemma StoreSegment_spec m v iss : bytes_ok (data_ iss) -> 0 <= m -> m * sz + sz <= zlen (data_ iss) -> 0 <= v < 2 ^ w ->
  exists iss', StoreSegment ts m v iss = Some iss' /\ bytes_ok (data_ iss') /\ same_config iss iss' /\ LoadSegment ts m iss' = Some v /\
    forall m', 0 <= m' -> m' <> m -> LoadSegment ts m' iss' = LoadSegment ts m' iss.
Proof using Hts.
  intros Hb Hm Hl Hv. pose proof sz_eq as [Hw8 Hsz]. unfold StoreSegment. destruct (Z.leb_spec (m * sz + sz) (zlen (data_ iss))); [|lia]. rewrite EncodeFixedGeneric_eq by done.
  set (d := data_ iss) in *. set (o := m * sz) in *. assert (Ho : 0 <= o) by (unfold o; nia). eexists. split; [done|]. set (d' := ztake o d ++ le_bytes (Z.to_nat sz) v ++ zdrop (o + sz) d). set (iss' := mkSoln d' _ _ _ _).
  assert (Hlen : zlen d' = zlen d). { unfold d'. rewrite !zlen_app, zlen_ztake, zlen_zdrop by lia. unfold zlen at 1. rewrite le_bytes_length. lia. }
  assert (Hb' : bytes_ok d') by (unfold d', ztake, zdrop; repeat apply Forall_app_2; [by apply bytes_ok_take|apply le_bytes_ok|by apply bytes_ok_drop]).
  split; [done|]. split; [by repeat split|]. split.
  - rewrite LoadSegment_eq by (done || (cbn; lia)). cbn. fold o. unfold d'. rewrite zdrop_app' by (rewrite zlen_ztake; lia). rewrite ztake_app' by (unfold zlen; rewrite le_bytes_length; lia).
    rewrite le_val_bytes, Z2Nat.id, Hw8, Z.mod_small by lia. done.
  - intros m' Hm' Hne. unfold LoadSegment. cbn. fold d. rewrite Hlen. destruct (Z.leb_spec (m' * sz + sz) (zlen d)) as [Hle|]; [|done]. f_equal. assert (0 <= m' * sz) by nia.
    rewrite !DecodeFixedGeneric_eq; [|by apply bytes_ok_drop|rewrite zlen_zdrop by lia; lia|by apply bytes_ok_drop|rewrite zlen_zdrop by lia; lia]. f_equal. apply window_ext; [lia|]. intros i Hi.
    unfold zlen in *. unfold d', ztake, zdrop. destruct (Z.ltb_spec m' m) as [Hlt|Hgt].
    + assert (m' * sz + sz <= o) by (unfold o; nia). rewrite lookup_app_l, lookup_take_lt by (rewrite ?length_take; lia). done.
    + assert (o + sz <= m' * sz) by (unfold o; nia). rewrite lookup_app_r, lookup_app_r by (rewrite ?le_bytes_length, length_take; lia). rewrite lookup_drop. f_equal. rewrite le_bytes_length, length_take. lia.
Qed.

Lemma store_segments_spec n : forall m state iss, bytes_ok (data_ iss) -> 0 <= m -> (n <= length state)%nat -> (m + Z.of_nat n) * sz <= zlen (data_ iss) -> m + Z.of_nat n < 2 ^ bits (index_bytes ts) ->
  (forall i v, (i < n)%nat -> state !! i = Some v -> 0 <= v < 2 ^ w) ->
  exists iss', store_segments ts n m state iss = Some iss' /\ bytes_ok (data_ iss') /\ same_config iss iss' /\
    (forall i v, (i < n)%nat -> state !! i = Some v -> LoadSegment ts (m + Z.of_nat i) iss' = Some v) /\
    forall m', 0 <= m' -> m' < m \/ m + Z.of_nat n <= m' -> LoadSegment ts m' iss' = LoadSegment ts m' iss.
Proof using Hts.
  induction n as [|n IH]; intros m state iss Hb Hm Hn Hl Hix Hv.
  { exists iss. destruct state; (split; [done|]; split; [done|]; split; [by repeat split|]; split; [lia|done]). }
  destruct state as [|v state]; cbn in Hn; [lia|]. pose proof sz_eq as [_ Hsz]. cbn [store_segments].
  destruct (StoreSegment_spec m v iss Hb Hm ltac:(nia) (Hv 0%nat v ltac:(lia) eq_refl)) as (iss1 & E1 & Hb1 & Hc1 & Hl1 & Ho1). rewrite E1. cbn [mbind option_bind]. rewrite ix_small by lia.
  pose proof Hc1 as (El & _). destruct (IH (m + 1) state iss1 Hb1) as (iss' & E & Hb' & Hc' & Hl' & Ho'); [lia|lia|rewrite El; nia|lia|intros i u Hi; apply (Hv (S i)); lia|].
  exists iss'. split; [done|]. split; [done|]. split; [by eapply same_config_trans|]. split.
  - intros [|i] u Hi Hu; [injection Hu as <-; rewrite Z.add_0_r, Ho' by lia; done|]. rewrite <- (Hl' i u) by (done || lia). f_equal. lia.
  - intros m' Hm' Hout. rewrite Ho' by lia. apply Ho1; lia.
Qed.
End segments.

(** ** The interleaved solution *)

Section interleaved.
Context (ts : TypesAndSettings) (Hts : settings ts) `{Port} (bs : StandardBanding) (Hwf : wf ts bs) (blocks : slots ts bs mod kCoeffBits ts = 0).
Notation w := (kCoeffBits ts).
Notation R := (kResultBits ts).
Notation N := (slots ts bs).
Notation B := (slots ts bs / kCoeffBits ts).
Notation sz := (sizeof_CoeffRow ts).
Notation index_max := (2 ^ bits (index_bytes ts)).
Notation c iss := (upper_num_columns_ iss).
Notation u iss := (upper_start_block_ iss).
Implicit Types (iss : SerializableInterleavedSolution).

Lemma N_blocks : N = B * w /\ 1 <= B.
Proof using Hts Hwf blocks.
  pose proof (w_range ts Hts) as Hw. pose proof (N_pos ts bs Hwf). pose proof (Z.div_mod N w ltac:(lia)) as E. rewrite blocks in E. split; [lia|]. apply Z.div_le_lower_bound; lia.
Qed.
Definition columns iss (b : Z) : Z := c iss - (if b <? u iss then 1 else 0).
(** The first segment of block [b]. *)
Definition segment iss (b : Z) : Z := b * c iss - Z.min b (u iss).
Record configured iss : Prop := {
  conf_starts : soln_num_starts_ iss = num_starts_ bs;
  conf_columns : 0 <= c iss <= R;
  conf_upper : 0 <= u iss < B;
  conf_zero : c iss = 0 -> u iss = 0;
  conf_segments : segment iss B + B < index_max;
  conf_len : data_len_ iss = segment iss B * sz;
  conf_data : data_len_ iss <= zlen (data_ iss);
  conf_bytes : bytes_ok (data_ iss);
}.
Lemma segment_next iss b : segment iss (b + 1) = segment iss b + columns iss b.
Proof using. unfold segment, columns. destruct (Z.ltb_spec b (u iss)); lia. Qed.
Lemma segment_mono iss b b' : configured iss -> 0 <= b <= b' -> 0 <= segment iss b <= segment iss b'.
Proof using. intros Hc Hb. pose proof (conf_columns iss Hc). pose proof (conf_zero iss Hc). pose proof (conf_upper iss Hc). unfold segment. destruct (decide (c iss = 0)) as [Ez|]; [rewrite Ez; lia|]. nia. Qed.
Lemma columns_range iss b : configured iss -> 0 <= b -> 0 <= columns iss b <= R /\ columns iss b <= columns iss (b + 1).
Proof using. intros Hc Hb. pose proof (conf_columns iss Hc). pose proof (conf_zero iss Hc). unfold columns. destruct (decide (c iss = 0)), (Z.ltb_spec b (u iss)), (Z.ltb_spec (b + 1) (u iss)); lia. Qed.
Lemma same_config_configured iss iss' : same_config iss iss' -> bytes_ok (data_ iss') -> configured iss -> configured iss'.
Proof using. intros (E1 & E2 & E3 & E4 & E5) Hb [? ? ? ? H5 H6 H7 _]. split; unfold segment in *; rewrite ?E1, ?E2, ?E3, ?E4, ?E5; done. Qed.
Lemma same_config_segment iss iss' : same_config iss iss' -> segment iss' = segment iss /\ columns iss' = columns iss.
Proof using. intros (_ & _ & _ & E4 & E5). unfold segment, columns. by rewrite E4, E5. Qed.

(** *** Configuration *)

Lemma num_slots_eq : ix ts (num_starts_ bs + w - 1) = N.
Proof using Hts Hwf. pose proof (wf_index ts Hts bs Hwf). pose proof (N_pos ts bs Hwf). pose proof (w_range ts Hts). apply ix_small. unfold slots in *. lia. Qed.
Lemma PrepareForNumStarts_spec iss : bytes_ok (data_ iss) -> 0 <= data_len_ iss <= zlen (data_ iss) -> data_len_ iss < 2 ^ 64 -> data_len_ iss / sz + B < index_max ->
  let iss' := PrepareForNumStarts ts (num_starts_ bs) iss in configured iss' /\ data_ iss' = data_ iss /\ GetNumBlocks ts iss' = B /\ GetNumSegments ts iss' = segment iss' B /\
    segment iss' B <= data_len_ iss / sz.
Proof using Hts Hwf blocks.
  intros Hb Hl Hl64 Hix iss'. pose proof N_blocks as [HN HB]. pose proof (sz_eq ts Hts) as [_ Hsz]. pose proof (set_result ts Hts) as HR. set (S := data_len_ iss / sz) in *.
  assert (HS : 0 <= S /\ S * sz <= data_len_ iss). { split; [apply Z.div_pos; lia|]. rewrite Z.mul_comm. apply Z.mul_div_le. lia. }
  set (k := (S + B - 1) / B). assert (Hk : S <= k * B < S + B). { pose proof (Z.div_mod (S + B - 1) B ltac:(lia)) as Hd. pose proof (Z.mod_pos_bound (S + B - 1) B ltac:(lia)). fold k in Hd. lia. }
  assert (Hk0 : 0 <= k) by (apply Z.div_pos; lia).
  assert (E : exists c u, iss' = mkSoln (data_ iss) ((B * c - u) * sz) (num_starts_ bs) c u /\ 0 <= c <= R /\ 0 <= u < B /\ (c = 0 -> u = 0) /\ 0 <= B * c - u <= S).
  { unfold iss', PrepareForNumStarts, InternalConfigure, GetNumBlocks, GetNumSegments. cbn. rewrite num_slots_eq. destruct (Z.eqb_spec B 0); [lia|]. fold S. rewrite !(ix_small ts S), (ix_small ts (S + B)), (ix_small ts (S + B - 1)) by lia. fold k.
    rewrite (ix_small ts (k * B)), (ix_small ts (k * B - S)) by lia. destruct (Z.ltb_spec R k) as [Hlt|Hge].
    - assert (R * B <= S) by nia. rewrite (ix_small ts R) by nia. rewrite (ix_small ts (B * R)), u64_small by nia. exists R, 0. rewrite Z.sub_0_r. split; [done|]. lia.
    - exists k, (k * B - S). rewrite u64_small by lia. split; [do 2 f_equal; lia|]. split; [lia|]. split; [lia|]. split; [nia|lia]. }
  destruct E as (c & u & E & Hc & Hu & Hz & Ht). clearbody iss'. subst iss'. assert (Eseg : segment (mkSoln (data_ iss) ((B * c - u) * sz) (num_starts_ bs) c u) B = B * c - u) by (unfold segment; cbn; lia).
  split; [split; try rewrite Eseg; cbn; try done; nia|]. split; [done|]. unfold GetNumBlocks, GetNumSegments. rewrite Eseg. cbn. rewrite num_slots_eq, Z.div_mul by lia. split; [done|]. split; [|fold S; lia]. apply ix_small. lia.
Qed.

(** *** Back substitution *)

(** The segments of the blocks from [b0] on hold the solution. *)
Definition layout iss (b0 : Z) : Prop := forall b j, b0 <= b < B -> 0 <= j < columns iss b -> LoadSegment ts (segment iss b + j) iss = Some (col ts bs j (Z.to_nat (N - b * w)) mod 2 ^ w).

Lemma subst_block_spec cc b state iss : configured iss -> 0 <= b < B -> columns iss b = cc -> layout iss (b + 1) -> (Z.to_nat cc <= length state)%nat ->
  state_ok ts bs cc (Z.to_nat (N - (b + 1) * w)) state ->
  exists state' iss', BackSubstBlock ts state cc bs (ix ts (b * w)) = Some state' /\ store_segments ts (Z.to_nat cc) (segment iss b) state' iss = Some iss' /\
    same_config iss iss' /\ configured iss' /\ layout iss' b /\ state_ok ts bs cc (Z.to_nat (N - b * w)) state' /\ length state' = length state.
Proof using Hts Hwf blocks.
  intros Hc Hb Ecc Hlay Hlen Hs. pose proof N_blocks as [HN HB]. pose proof (w_range ts Hts) as Hw. pose proof (wf_index ts Hts bs Hwf) as Hix. pose proof (columns_range iss b Hc ltac:(lia)) as Hcol. rewrite Ecc in Hcol.
  assert (Hbw : 0 <= b * w /\ b * w + w <= N) by nia. rewrite (ix_small ts (b * w)) by lia. unfold BackSubstBlock. set (n := Z.to_nat (N - (b + 1) * w)) in *. destruct (subst_rows_spec ts Hts bs Hwf cc (Z.to_nat w) n state (b * w)) as (state' & E & Hs' & Hl'); [lia|lia|done|].
  replace (n + Z.to_nat w)%nat with (Z.to_nat (N - b * w)) in Hs' by lia. pose proof (segment_mono iss b (b + 1) Hc ltac:(lia)) as Hm1. pose proof (segment_mono iss (b + 1) B Hc ltac:(lia)) as Hm2. pose proof (segment_next iss b) as Hnext. rewrite Ecc in Hnext.
  pose proof (sz_eq ts Hts) as [_ Hsz]. pose proof (conf_data iss Hc) as Hd. rewrite (conf_len iss Hc) in Hd. pose proof (conf_segments iss Hc) as Hseg.
  destruct (store_segments_spec ts Hts (Z.to_nat cc) (segment iss b) state' iss (conf_bytes iss Hc)) as (iss' & E' & Hb' & Hcfg & Hld & Hold); [lia|lia|rewrite Z2Nat.id by lia; nia|lia| |].
  { intros i v Hi Hv. specialize (Hs' (Z.of_nat i) ltac:(lia)). rewrite Nat2Z.id, Hv in Hs'. injection Hs' as ->. apply Z.mod_pos_bound. apply Z.pow_pos_nonneg; lia. }
  exists state', iss'. destruct (same_config_segment _ _ Hcfg) as [Es Ec]. split; [done|]. split; [done|]. split; [done|]. split; [by eapply same_config_configured|]. split; [|done].
  intros b' j Hb'' Hj. rewrite Es, Ec in *. destruct (decide (b' = b)) as [->|Hne].
  - rewrite Ecc in Hj. specialize (Hs' j Hj). specialize (Hld (Z.to_nat j) _ ltac:(lia) Hs'). by rewrite Z2Nat.id in Hld by lia.
  - pose proof (segment_mono iss (b + 1) b' Hc ltac:(lia)). rewrite Hold by lia. apply Hlay; [lia|done].
Qed.
Lemma subst_blocks_spec cc n : forall b state iss, configured iss -> Z.of_nat n <= b <= B -> (forall b', b - Z.of_nat n <= b' < b -> columns iss b' = cc) -> layout iss b -> (Z.to_nat cc <= length state)%nat ->
  state_ok ts bs cc (Z.to_nat (N - b * w)) state ->
  exists state' iss', subst_blocks ts n cc b (segment iss b) state bs iss = Some (b - Z.of_nat n, segment iss (b - Z.of_nat n), state', iss') /\
    same_config iss iss' /\ configured iss' /\ layout iss' (b - Z.of_nat n) /\ state_ok ts bs cc (Z.to_nat (N - (b - Z.of_nat n) * w)) state' /\ length state' = length state.
Proof using Hts Hwf blocks.
  induction n as [|n IH]; intros b state iss Hc Hb Hcc Hlay Hlen Hs.
  { exists state, iss. rewrite Z.sub_0_r. split; [done|]. split; [by repeat split|]. done. }
  cbn [subst_blocks]. assert (Ecc : columns iss (b - 1) = cc) by (apply Hcc; lia). pose proof (segment_next iss (b - 1)) as Hnext. rewrite Z.sub_add, Ecc in Hnext.
  pose proof (segment_mono iss (b - 1) b Hc ltac:(lia)). pose proof (segment_mono iss b B Hc ltac:(lia)). pose proof (conf_segments iss Hc).
  destruct (subst_block_spec cc (b - 1) state iss Hc ltac:(lia) Ecc) as (state1 & iss1 & E1 & E2 & Hcfg & Hc1 & Hlay1 & Hs1 & Hl1); [by rewrite Z.sub_add|done|by rewrite Z.sub_add|].
  rewrite E1. cbn [mbind option_bind]. replace (ix ts (segment iss b - cc)) with (segment iss (b - 1)) by (rewrite ix_small; lia). rewrite E2. cbn [mbind option_bind].
  destruct (same_config_segment _ _ Hcfg) as [Es Ec]. destruct (IH (b - 1) state1 iss1 Hc1) as (state' & iss' & E & Hcfg' & Hc' & Hlay' & Hs' & Hl'); [lia|intros b' Hb'; rewrite Ec; apply Hcc; lia|done|lia|done|].
  rewrite Es in E. replace (b - 1 - Z.of_nat n) with (b - Z.of_nat (S n)) in * by lia. exists state', iss'. split; [done|]. split; [by eapply same_config_trans|]. split; [done|]. split; [done|]. split; [done|lia].
Qed.
Lemma InterleavedBackSubst_spec iss : bytes_ok (data_ iss) -> 0 <= data_len_ iss <= zlen (data_ iss) -> data_len_ iss < 2 ^ 64 -> data_len_ iss / sz + B < index_max ->
  exists iss', InterleavedBackSubst ts bs iss = Some iss' /\ same_config (PrepareForNumStarts ts (num_starts_ bs) iss) iss' /\ configured iss' /\ layout iss' 0.
Proof using Hts Hwf blocks.
  intros Hb Hl Hl64 Hix. destruct (PrepareForNumStarts_spec iss Hb Hl Hl64 Hix) as (Hc & Ed & _ & Eseg & _). unfold InterleavedBackSubst. set (iss0 := PrepareForNumStarts ts (num_starts_ bs) iss) in *. rewrite num_slots_eq, Eseg.
  pose proof N_blocks as [HN HB]. pose proof (conf_columns iss0 Hc) as Hcol. pose proof (conf_upper iss0 Hc) as Hu. destruct (Z.eqb_spec (c iss0) 0) as [Ez|Hz].
  { exists iss0. split; [done|]. split; [by repeat split|]. split; [done|]. intros b j Hb0 Hj. unfold columns in Hj. rewrite Ez, (conf_zero iss0 Hc Ez) in Hj. destruct (b <? 0); lia. }
  destruct (subst_blocks_spec (c iss0) (Z.to_nat (B - u iss0)) B (replicate (Z.to_nat (c iss0)) 0) iss0 Hc) as (st1 & iss1 & E1 & Hcfg1 & Hc1 & Hlay1 & Hs1 & Hl1).
  { lia. } { intros b' Hb'. unfold columns. destruct (Z.ltb_spec b' (u iss0)); lia. } { intros b j Hb'. lia. } { rewrite length_replicate. lia. }
  { intros j Hj. rewrite lookup_replicate_2 by lia. replace (Z.to_nat (N - B * w)) with 0%nat by lia. done. }
  rewrite E1. cbn [mbind option_bind]. replace (B - Z.of_nat (Z.to_nat (B - u iss0))) with (u iss0) in * by lia. destruct (same_config_segment _ _ Hcfg1) as [Es Ec]. rewrite <- Es.
  destruct (subst_blocks_spec (c iss0 - 1) (Z.to_nat (u iss0)) (u iss0) st1 iss1 Hc1) as (st2 & iss2 & E2 & Hcfg2 & Hc2 & Hlay2 & _).
  { lia. } { intros b' Hb'. rewrite Ec. unfold columns. destruct (Z.ltb_spec b' (u iss0)); lia. } { done. } { rewrite Hl1, length_replicate. lia. } { intros j Hj. apply Hs1. lia. }
  rewrite E2. cbn [mbind option_bind]. replace (u iss0 - Z.of_nat (Z.to_nat (u iss0))) with 0 in * by lia. exists iss2. split; [done|]. split; [by eapply same_config_trans|]. done.
Qed.

(** *** Queries *)

Lemma row_halves cr sb : 0 <= cr < 2 ^ w -> 0 < sb < w -> Z.shiftl cr sb = Z.lxor (row w (Z.shiftl cr sb)) (Z.shiftl (Z.shiftr cr (w - sb)) w).
Proof using.
  intros Hc Hs. apply Z.bits_inj'. intros i Hi. unfold row. rewrite Z.lxor_spec. destruct (Z.ltb_spec i w).
  - rewrite Z.mod_pow2_bits_low, (Z.shiftl_spec_low _ w) by lia. by rewrite xorb_false_r.
  - rewrite Z.mod_pow2_bits_high, (Z.shiftl_spec _ w), Z.shiftr_spec, xorb_false_l, Z.shiftl_spec by lia. f_equal. lia.
Qed.
Lemma lxor_b2z x y : Z.lxor (Z.b2z x) (Z.b2z y) = Z.b2z (xorb x y).
Proof using. by destruct x, y. Qed.
(** A row in two blocks. *)
Lemma split_dot y cr sb : 0 <= cr < 2 ^ w -> 0 < sb < w ->
  row_BitParity w (Z.lxor (Z.land (y mod 2 ^ w) (row w (Z.shiftl cr sb))) (Z.land (Z.shiftr y w mod 2 ^ w) (Z.shiftr cr (w - sb)))) = Z.b2z (dot cr (Z.shiftr y sb)) /\
  Z.lxor (row_BitParity w (Z.land (y mod 2 ^ w) (row w (Z.shiftl cr sb)))) (row_BitParity w (Z.land (Z.shiftr y w mod 2 ^ w) (Z.shiftr cr (w - sb)))) = Z.b2z (dot cr (Z.shiftr y sb)).
Proof using Hts.
  intros Hc Hs. pose proof (w_range ts Hts) as Hw. assert (Hp : 0 < 2 ^ w) by (apply Z.pow_pos_nonneg; lia).
  assert (Hl : 0 <= row w (Z.shiftl cr sb) < 2 ^ w) by (apply Z.mod_pos_bound; lia).
  assert (Hr : 0 <= Z.shiftr cr (w - sb) < 2 ^ w) by (apply is_u_shiftr; unfold is_u; lia).
  pose proof (Z.mod_pos_bound y _ Hp) as Hy. pose proof (Z.mod_pos_bound (Z.shiftr y w) _ Hp) as Hy'.
  assert (E : xorb (dot (row w (Z.shiftl cr sb)) (y mod 2 ^ w)) (dot (Z.shiftr cr (w - sb)) (Z.shiftr y w mod 2 ^ w)) = dot cr (Z.shiftr y sb)).
  { rewrite !dot_mod by lia. symmetry. rewrite <- (dot_shiftl cr y sb) by lia. rewrite (row_halves cr sb) at 1 by lia. rewrite dot_lxor by (lia || (apply Z.shiftl_nonneg; lia)). by rewrite dot_shiftl by lia. }
  assert (Hu1 : 0 <= Z.land (y mod 2 ^ w) (row w (Z.shiftl cr sb)) < 2 ^ w) by (apply is_u_land; unfold is_u; lia).
  assert (Hu2 : 0 <= Z.land (Z.shiftr y w mod 2 ^ w) (Z.shiftr cr (w - sb)) < 2 ^ w) by (apply is_u_land; unfold is_u; lia).
  rewrite !row_BitParity_eq by (lia || (apply is_u_lxor; unfold is_u; lia)). rewrite parity_lxor by lia. rewrite <- E. unfold dot. rewrite !(Z.land_comm (_ mod _)). split; [done|]. apply lxor_b2z.
Qed.
Lemma whole_dot y cr : 0 <= cr < 2 ^ w -> row_BitParity w (Z.land (y mod 2 ^ w) cr) = Z.b2z (dot cr y).
Proof using Hts.
  intros Hc. pose proof (w_range ts Hts) as Hw. assert (Hp : 0 < 2 ^ w) by (apply Z.pow_pos_nonneg; lia). pose proof (Z.mod_pos_bound y _ Hp).
  rewrite row_BitParity_eq by (lia || (apply is_u_land; unfold is_u; lia)). rewrite Z.land_comm. fold (dot cr (y mod 2 ^ w)). by rewrite dot_mod by lia.
Qed.
Lemma bit_of v i : 0 <= i -> Z.land (Z.shiftr v i) 1 = Z.b2z (Z.testbit v i).
Proof using. intros Hi. change 1 with (Z.ones 1). rewrite Z.land_ones, Z.shiftr_div_pow2 by lia. change (2 ^ 1) with 2. symmetry. by apply Z.testbit_spec'. Qed.
Lemma b2z_eqb a b : (Z.b2z a =? Z.b2z b) = eqb a b.
Proof using. by destruct a, b. Qed.

Section query.
Context (iss : SerializableInterleavedSolution) (Hc : configured iss) (Hlay : layout iss 0).
Notation X := (the_solution ts bs).
Context (start : Z) (Hstart : 0 <= start < num_starts_ bs).
Notation b := (start / kCoeffBits ts).
Notation sb := (start mod kCoeffBits ts).

Lemma start_block : start = b * w + sb /\ 0 <= sb < w /\ 0 <= b < B /\ (0 < sb -> b + 1 < B).
Proof using Hts Hwf blocks Hstart.
  pose proof N_blocks as [HN HB]. pose proof (w_range ts Hts). pose proof (Z.div_mod start w ltac:(lia)) as E. pose proof (Z.mod_pos_bound start w ltac:(lia)). assert (Hn : start <= N - w) by (unfold slots; lia). rewrite HN in Hn.
  assert (0 <= b) by (apply Z.div_pos; lia). set (k := b) in *. set (B' := B) in *. split; [lia|]. split; [lia|]. split; [split; [done|]; nia|]. intros Hsb. nia.
Qed.
Lemma load_left j : 0 <= j < columns iss b -> LoadSegment ts (ix ts (segment iss b + j)) iss = Some (Z.shiftr (X j) (b * w) mod 2 ^ w).
Proof using Hts Hwf blocks Hc Hlay Hstart.
  intros Hj. destruct start_block as (_ & _ & Hb & _). pose proof N_blocks as [HN HB]. pose proof (w_range ts Hts). pose proof (segment_next iss b). pose proof (segment_mono iss b (b + 1) Hc ltac:(lia)). pose proof (segment_mono iss (b + 1) B Hc ltac:(lia)). pose proof (conf_segments iss Hc).
  rewrite ix_small by lia. rewrite the_solution_shift by nia. apply Hlay; [lia|done].
Qed.
Lemma load_right j : 0 < sb -> 0 <= j < columns iss b -> LoadSegment ts (ix ts (ix ts (segment iss b + columns iss b) + j)) iss = Some (Z.shiftr (Z.shiftr (X j) (b * w)) w mod 2 ^ w).
Proof using Hts Hwf blocks Hc Hlay Hstart.
  intros Hsb Hj. destruct start_block as (_ & _ & Hb & Hb1). specialize (Hb1 Hsb). pose proof N_blocks as [HN HB]. pose proof (w_range ts Hts). pose proof (segment_next iss b) as E1. pose proof (segment_next iss (b + 1)) as E2. pose proof (columns_range iss b Hc ltac:(lia)).
  pose proof (segment_mono iss b (b + 1) Hc ltac:(lia)). pose proof (segment_mono iss (b + 1 + 1) B Hc ltac:(lia)). pose proof (conf_segments iss Hc).
  rewrite <- E1. rewrite (ix_small ts (segment iss (b + 1))) by lia. rewrite ix_small by lia. rewrite Z.shiftr_shiftr by lia. replace (b * w + w) with ((b + 1) * w) by lia. rewrite the_solution_shift by nia. apply Hlay; [lia|lia].
Qed.
Lemma PrepareQuery_eq h : GetStart ts h (num_starts_ bs) = start -> InterleavedPrepareQuery ts h iss = (segment iss b, columns iss b, sb).
Proof using Hts Hwf blocks Hc Hlay Hstart.
  intros Es. destruct start_block as (_ & _ & Hb & _). unfold InterleavedPrepareQuery. rewrite (conf_starts iss Hc), Es. pose proof (segment_mono iss b B Hc ltac:(lia)). pose proof (conf_segments iss Hc). pose proof (columns_range iss b Hc ltac:(lia)). pose proof (conf_upper iss Hc). pose proof (conf_columns iss Hc).
  pose proof (index_width_range ts Hts). pose proof (set_result ts Hts). pose proof (wf_index ts Hts bs Hwf). assert (Hbc : 0 <= b * c iss < index_max). { split; [nia|]. unfold segment in *. nia. }
  rewrite (ix_small ts (b * c iss)) by done. rewrite ix_small by (unfold segment in *; lia). rewrite ix_small by (unfold columns in *; lia). done.
Qed.

Context (cr : Z) (Hcr : 0 <= cr < 2 ^ w).
Notation cr_left := (row w (Z.shiftl cr sb)).
Notation cr_right := (Z.shiftr cr (w - sb)).
Definition matches (expected j : Z) : Prop := dot cr (Z.shiftr (X j) start) = Z.testbit expected j.
Lemma block_dot j : 0 < sb -> dot cr (Z.shiftr (Z.shiftr (X j) (b * w)) sb) = dot cr (Z.shiftr (X j) start).
Proof using Hts Hwf blocks Hstart. intros Hsb. destruct start_block as (E & ? & ? & _). pose proof (w_range ts Hts). rewrite Z.shiftr_shiftr by nia. by rewrite <- E. Qed.
Lemma filter_columns_aligned_spec expected n : sb = 0 -> forall i, 0 <= i -> i + Z.of_nat n = columns iss b ->
  exists ans, filter_columns_aligned ts n i (segment iss b) cr expected iss = Some ans /\ (ans = true <-> forall j, i <= j < columns iss b -> matches expected j).
Proof using All.
  intros Hsb. destruct start_block as (E & _ & _ & _). rewrite Hsb, Z.add_0_r in E. induction n as [|n IH]; intros i Hi Hn; [exists true; split; [done|]; split; [lia|done]|].
  cbn [filter_columns_aligned]. rewrite load_left by lia. cbn [mbind option_bind]. rewrite whole_dot, bit_of, b2z_eqb by done. rewrite <- E.
  destruct (eqb _ _) eqn:Eq; cbn [negb].
  - apply eqb_prop in Eq. destruct (IH (i + 1)) as (ans & Ea & Ha); [lia|lia|]. exists ans. split; [done|]. rewrite Ha. split; intros Hm j Hj; [|apply Hm; lia]. destruct (decide (j = i)) as [->|]; [done|]. apply Hm. lia.
  - apply eqb_false_iff in Eq. exists false. split; [done|]. split; [done|]. intros Hm. exfalso. apply Eq, Hm. lia.
Qed.
Lemma filter_columns_spec expected n : 0 < sb -> forall i, 0 <= i -> i + Z.of_nat n = columns iss b ->
  exists ans, filter_columns ts n i (segment iss b) (columns iss b) cr_left cr_right expected iss = Some ans /\ (ans = true <-> forall j, i <= j < columns iss b -> matches expected j).
Proof using All.
  intros Hsb. destruct start_block as (E & Hsw & _ & _). induction n as [|n IH]; intros i Hi Hn; [exists true; split; [done|]; split; [lia|done]|].
  cbn [filter_columns]. rewrite load_left, load_right by lia. cbn [mbind option_bind]. rewrite (proj1 (split_dot _ cr sb Hcr ltac:(lia))), bit_of, b2z_eqb, block_dot by done.
  destruct (eqb _ _) eqn:Eq; cbn [negb].
  - apply eqb_prop in Eq. destruct (IH (i + 1)) as (ans & Ea & Ha); [lia|lia|]. exists ans. split; [done|]. rewrite Ha. split; intros Hm j Hj; [|apply Hm; lia]. destruct (decide (j = i)) as [->|]; [done|]. apply Hm. lia.
  - apply eqb_false_iff in Eq. exists false. split; [done|]. split; [done|]. intros Hm. exfalso. apply Eq, Hm. lia.
Qed.

Lemma phsf_bit v i : R <= 32 -> 0 <= i < R -> rw ts (i32 (Z.shiftl (Z.b2z v) i)) = Z.shiftl (Z.b2z v) i.
Proof using Hts.
  intros HR Hi. pose proof (set_result ts Hts). rewrite Z.shiftl_mul_pow2 by lia. assert (2 ^ i < 2 ^ R) by (apply Z.pow_lt_mono_r; lia). assert (Hb : 0 <= Z.b2z v * 2 ^ i < 2 ^ R) by (destruct v; cbn [Z.b2z]; lia).
  unfold rw. rewrite <- (Z.mod_small (Z.b2z v * 2 ^ i) (2 ^ R)) at 2 by lia. set (z := Z.b2z v * 2 ^ i). rewrite <- (Z.mod_mod_divide (i32 z) (2 ^ 32)), <- (Z.mod_mod_divide z (2 ^ 32)) by (exists (2 ^ (32 - R)); rewrite <- Z.pow_add_r by lia; f_equal; lia).
  f_equal. apply signed_mod. lia.
Qed.
(** What one of the two passes over the columns adds. *)
Lemma phsf_columns_spec (part : Z -> bool) seg c' n : R <= 32 -> forall i sr, 0 <= i -> i + Z.of_nat n = columns iss b ->
  (forall j, 0 <= j < columns iss b -> exists v, LoadSegment ts (ix ts (seg + j)) iss = Some v /\ row_BitParity w (Z.land v c') = Z.b2z (part j)) ->
  exists sr', phsf_columns ts n i seg c' sr iss = Some sr' /\ forall j, 0 <= j -> Z.testbit sr' j = xorb (Z.testbit sr j) ((i <=? j) && (j <? columns iss b) && part j).
Proof using All.
  intros HR. pose proof (columns_range iss b Hc ltac:(destruct start_block; lia)) as [Hcr' _]. induction n as [|n IH]; intros i sr Hi Hn Hl.
  { exists sr. split; [done|]. intros j Hj. destruct (Z.leb_spec i j), (Z.ltb_spec j (columns iss b)); try lia; by rewrite xorb_false_r. }
  cbn [phsf_columns]. destruct (Hl i ltac:(lia)) as (v & -> & Ev). cbn [mbind option_bind]. destruct (Z.leb_spec 32 i); [lia|]. rewrite Ev, phsf_bit by lia.
  destruct (IH (i + 1) (Z.lxor sr (Z.shiftl (Z.b2z (part i)) i)) ltac:(lia) ltac:(lia) Hl) as (sr' & E & Hb). exists sr'. split; [done|]. intros j Hj. rewrite Hb, Z.lxor_spec by done.
  destruct (decide (j = i)) as [->|Hne].
  - rewrite Z.shiftl_spec, Z.sub_diag by lia. destruct (Z.leb_spec (i + 1) i); [lia|]. rewrite Z.leb_refl. destruct (Z.ltb_spec i (columns iss b)); [|lia]. rewrite xorb_false_r. by destruct (part i).
  - assert (Ez : Z.testbit (Z.shiftl (Z.b2z (part i)) i) j = false). { destruct (Z.ltb_spec j i); [by rewrite Z.shiftl_spec_low|]. rewrite Z.shiftl_spec by lia. apply (tbit_high _ 1); [destruct (part i); cbn; lia|lia]. }
    rewrite Ez, xorb_false_r. do 3 f_equal. destruct (Z.leb_spec (i + 1) j), (Z.leb_spec i j); lia.
Qed.
End query.

Section keys.
Context {Key : Type} (HashFn : Key -> Z -> Z) (HashFn_range : forall k seed, 0 <= HashFn k seed < 2 ^ bits (hash_bytes ts)).
Context (iss : SerializableInterleavedSolution) (Hc : configured iss) (Hlay : layout iss 0).
Notation X := (the_solution ts bs).
Notation start_of h := (GetStart ts h (num_starts_ bs)).

Lemma start_of_range k seed : 0 <= start_of (GetHash HashFn seed k) < num_starts_ bs.
Proof using Hts Hwf HashFn_range. pose proof (wf_starts ts bs Hwf). pose proof (wf_slots ts bs Hwf) as Hs. pose proof (w_range ts Hts). unfold slots in Hs. apply GetStart_range; [done|apply HashFn_range|lia|lia]. Qed.
Lemma coeff_range h : 0 <= GetCoeffRow ts h < 2 ^ w.
Proof using Hts. destruct (GetCoeffRow_ok ts Hts h) as [? _]. lia. Qed.
Lemma starts_pos : kAllowZeroStarts ts && (soln_num_starts_ iss =? 0) = false.
Proof using Hwf Hc. pose proof (wf_starts ts bs Hwf). rewrite (conf_starts iss Hc). destruct (Z.eqb_spec (num_starts_ bs) 0); [lia|]. apply andb_false_r. Qed.

(** A query answers true exactly if the columns stored for the key's first block have the parities its hash asks for. *)
Lemma FilterQuery_spec seed k : let h := GetHash HashFn seed k in
  exists ans, FilterQuery ts HashFn seed k iss = Some ans /\ (ans = true <-> forall j, 0 <= j < columns iss (start_of h / w) -> matches (start_of h) (GetCoeffRow ts h) (GetResultRowFromHash ts h) j).
Proof using All.
  intros h. pose proof (start_of_range k seed) as Hs. fold h in Hs. pose proof (coeff_range h) as Hcr. destruct (start_block (start_of h) Hs) as (_ & Hsw & Hb & _). pose proof (columns_range iss _ Hc (proj1 Hb)) as [Hcol _].
  unfold FilterQuery. rewrite starts_pos. fold h. rewrite (PrepareQuery_eq iss Hc Hlay (start_of h) Hs h eq_refl). unfold InterleavedFilterQuery. destruct (Z.eqb_spec (start_of h mod w) 0) as [E0|N0].
  - apply filter_columns_aligned_spec; try done; lia.
  - apply filter_columns_spec; try done; lia.
Qed.
Lemma PhsfQuery_spec seed k : R <= 32 -> let h := GetHash HashFn seed k in
  exists sr, PhsfQuery ts HashFn seed k iss = Some sr /\ forall j, 0 <= j -> Z.testbit sr j = (j <? columns iss (start_of h / w)) && dot (GetCoeffRow ts h) (Z.shiftr (X j) (start_of h)).
Proof using All.
  intros HR h. pose proof (start_of_range k seed) as Hs. fold h in Hs. pose proof (coeff_range h) as Hcr. pose proof (w_range ts Hts) as Hw. destruct (start_block (start_of h) Hs) as (Est & Hsw & Hb & _). pose proof (columns_range iss _ Hc (proj1 Hb)) as [Hcol _].
  unfold PhsfQuery. rewrite starts_pos. fold h. rewrite (PrepareQuery_eq iss Hc Hlay (start_of h) Hs h eq_refl). unfold InterleavedPhsfQuery. set (start := start_of h) in *. set (cr := GetCoeffRow ts h) in *. set (b := start / w) in *. set (sb := start mod w) in *.
  assert (Hsub : forall (p : bool) j, 0 <= j -> (0 <=? j) && (j <? columns iss b) && p = (j <? columns iss b) && p) by (intros p j Hj; destruct (Z.leb_spec 0 j); [done|lia]).
  set (y j := Z.shiftr (X j) (b * w)).
  destruct (phsf_columns_spec iss Hc Hlay start Hs cr Hcr (fun j => dot (row w (Z.shiftl cr sb)) (y j)) (segment iss b) (row w (Z.shiftl cr sb)) (Z.to_nat (columns iss b)) HR 0 0) as (sr & E & Hbit); [lia|fold b; lia| |].
  { intros j Hj. eexists. split; [by apply load_left|]. apply whole_dot. apply Z.mod_pos_bound. apply Z.pow_pos_nonneg; lia. }
  fold b in Hbit. rewrite E. cbn [mbind option_bind]. destruct (Z.ltb_spec 0 sb) as [Hsb|Hsb].
  - destruct (phsf_columns_spec iss Hc Hlay start Hs cr Hcr (fun j => dot (Z.shiftr cr (w - sb)) (Z.shiftr (y j) w)) (ix ts (segment iss b + columns iss b)) (Z.shiftr cr (w - sb)) (Z.to_nat (columns iss b)) HR 0 sr) as (sr' & E' & Hbit'); [lia|fold b; lia| |].
    { intros j Hj. eexists. split; [by apply load_right|]. apply whole_dot. apply is_u_shiftr; unfold is_u; lia. }
    fold b in Hbit'. exists sr'. split; [done|]. intros j Hj. rewrite Hbit', Hbit, Z.bits_0, xorb_false_l by done. rewrite !Hsub by done. destruct (j <? columns iss b); cbn [andb]; [|done].
    pose proof (block_dot start Hs cr j Hsb) as Hbd. fold b sb in Hbd. fold (y j) in Hbd. rewrite <- Hbd. symmetry.
    rewrite <- (dot_shiftl cr (y j) sb) by lia.
    rewrite (row_halves cr sb) at 1 by lia.
    assert (0 <= row w (Z.shiftl cr sb)) by (apply Z.mod_pos_bound, Z.pow_pos_nonneg; lia). assert (0 <= Z.shiftr cr (w - sb)) by (apply Z.shiftr_nonneg; lia).
    rewrite dot_lxor, dot_shiftl by (done || lia || by apply Z.shiftl_nonneg). done.
  - exists sr. split; [done|]. intros j Hj. rewrite Hbit, Z.bits_0, xorb_false_l, Hsub by done. replace sb with 0 by lia. rewrite Z.shiftl_0_r. unfold row. rewrite Z.mod_small by lia. unfold y. replace (b * w) with start by lia. done.
Qed.
End keys.
End interleaved.

(** ** The simple solution *)

Section simple.
Context (ts : TypesAndSettings) (Hts : settings ts) (bs : StandardBanding) (Hwf : wf ts bs).
Notation w := (kCoeffBits ts).
Notation R := (kResultBits ts).
Notation N := (slots ts bs).
Notation X := (the_solution ts bs).
Implicit Types (sss : InMemSimpleSolution).

Definition row_holds (sr i : Z) : Prop := 0 <= sr < 2 ^ R /\ forall j, 0 <= j < R -> Z.testbit sr j = Z.testbit (X j) i.
Lemma solution_row_spec state : (forall j, (0 <= j) -> Z.testbit (solution_row state) j = match state !! Z.to_nat j with Some v => Z.testbit v 0 | None => false end) /\ 0 <= solution_row state < 2 ^ zlen state.
Proof using.
  induction state as [|v state [IH1 IH2]]; [split; [intros j Hj; by rewrite Z.bits_0|done]|]. cbn [solution_row foldr]. fold (solution_row state). set (r := solution_row state) in *.
  assert (Ev : Z.land v 1 = Z.b2z (Z.testbit v 0)) by (rewrite <- (Z.shiftr_0_r v) at 1; by apply bit_of). rewrite Ev, Z.shiftl_mul_pow2, Z.mul_comm by lia. change (2 ^ 1) with 2. rewrite lor_bit. split.
  - intros j Hj. destruct (decide (j = 0)) as [->|]; [by rewrite Z.testbit_0_r|]. replace j with (Z.succ (Z.pred j)) at 1 by lia. rewrite Z.testbit_succ_r, IH1 by lia. replace (Z.to_nat j) with (S (Z.to_nat (Z.pred j))) by lia. done.
  - rewrite zlen_cons, Z.pow_add_r by (pose proof (zlen_nonneg state); lia). destruct (Z.testbit v 0); cbn [Z.b2z]; lia.
Qed.
Lemma simple_subst_spec i : forall n state sss, Z.of_nat i + Z.of_nat n = N -> state_ok ts bs R n state -> zlen state = R -> N <= zlen (solution_rows_ sss) ->
  exists sss', simple_subst ts i state bs sss = Some sss' /\ simple_num_starts_ sss' = simple_num_starts_ sss /\
    (forall k, 0 <= k < Z.of_nat i -> exists sr, Simple_Load k sss' = Some sr /\ row_holds sr k) /\ (forall k, Z.of_nat i <= k -> Simple_Load k sss' = Simple_Load k sss).
Proof using Hts Hwf.
  induction i as [|i IH]; intros n state sss Hsum Hs Hl Hlen; [exists sss; split; [done|]; split; [done|]; split; [lia|done]|]. cbn [simple_subst].
  destruct (LoadRow_some ts bs (Z.of_nat i) true Hwf ltac:(lia)) as (cr & rr & El). rewrite El. cbn [mbind option_bind]. replace (Z.of_nat i) with (N - Z.of_nat (S n)) in El by lia.
  pose proof (subst_row_spec ts Hts bs Hwf R n cr rr state ltac:(lia) El Hs) as Hs'. set (state' := subst_row ts R cr rr state) in *. assert (Hl' : zlen state' = R) by (unfold state', zlen, subst_row in *; by rewrite length_imap).
  unfold Simple_Store. rewrite Nat2Z.id. unfold zlen in Hlen. destruct (lookup_lt_is_Some_2 (solution_rows_ sss) i) as [? ->]; [lia|]. cbn [mbind option_bind]. set (sss1 := mkSimple _ _ _).
  destruct (IH (S n) state' sss1) as (sss' & E & Est & Hrows & Hold); [lia|done|done|unfold zlen; cbn; rewrite length_insert; lia|]. exists sss'. split; [done|]. split; [done|]. split.
  - intros k Hk. destruct (decide (k = Z.of_nat i)) as [->|]; [|apply Hrows; lia]. exists (solution_row state'). split.
    + rewrite Hold by lia. unfold Simple_Load. cbn. rewrite Nat2Z.id, list_lookup_insert_eq by lia. done.
    + destruct (solution_row_spec state') as [Hb Hr]. rewrite Hl' in Hr. split; [done|]. intros j Hj. rewrite Hb, (Hs' j Hj) by lia. pose proof (w_range ts Hts). rewrite Z.mod_pow2_bits_low by lia.
      rewrite <- (Z.add_0_l (Z.of_nat i)), <- Z.shiftr_spec, the_solution_shift by lia. do 2 f_equal. lia.
  - intros k Hk. rewrite Hold by lia. unfold Simple_Load. cbn. rewrite list_lookup_insert_ne by lia. done.
Qed.
Lemma Simple_BackSubstFrom_spec sss : zlen (solution_rows_ sss) = simple_num_slots_allocated_ sss ->
  exists sss', Simple_BackSubstFrom ts bs sss = Some sss' /\ simple_num_starts_ sss' = num_starts_ bs /\ forall k, 0 <= k < N -> exists sr, Simple_Load k sss' = Some sr /\ row_holds sr k.
Proof using Hts Hwf.
  intros Ha. pose proof (wf_starts ts bs Hwf) as Hst. pose proof (N_pos ts bs Hwf) as HN. pose proof (w_range ts Hts). pose proof (set_result ts Hts). unfold Simple_BackSubstFrom, SimpleBackSubst. destruct (Z.eqb_spec (num_starts_ bs) 0); [lia|]. rewrite andb_false_r.
  rewrite (num_slots_eq ts Hts bs Hwf). unfold Simple_PrepareForNumStarts. destruct (Z.eqb_spec (num_starts_ bs) 0); [lia|]. rewrite andb_false_r, (num_slots_eq ts Hts bs Hwf).
  set (sss0 := if simple_num_slots_allocated_ sss <? N then _ else _). assert (Hsss0 : N <= zlen (solution_rows_ sss0) /\ simple_num_starts_ sss0 = num_starts_ bs).
  { unfold sss0. destruct (Z.ltb_spec (simple_num_slots_allocated_ sss) N); cbn; [unfold zlen; rewrite length_replicate; lia|lia]. }
  destruct (simple_subst_spec (Z.to_nat N) 0 (replicate (Z.to_nat R) 0) sss0) as (sss' & E & Es & Hr & _); [lia| |unfold zlen; rewrite length_replicate; lia|tauto|].
  { intros j Hj. rewrite lookup_replicate_2 by lia. done. }
  exists sss'. split; [done|]. split; [rewrite Es; tauto|]. intros k Hk. apply Hr. lia.
Qed.

Lemma parity_fold n v : 0 <= v < 2 ^ Z.of_nat n -> parity v = foldl (fun p i => xorb p (Z.testbit v (Z.of_nat i))) false (seq 0 n).
Proof using.
  intros Hv. set (f := fun p (i : nat) => xorb p (Z.testbit v (Z.of_nat i))). enough (E : forall k, (k <= n)%nat -> foldl f false (seq 0 k) = parity (v mod 2 ^ Z.of_nat k)).
  { rewrite E by lia. by rewrite Z.mod_small. }
  induction k as [|k IH]; intros Hk; [by rewrite Z.mod_1_r|]. rewrite seq_S, foldl_snoc, IH by lia. cbn [Nat.add]. unfold f.
  assert (E : v mod 2 ^ Z.of_nat (S k) = Z.lxor (v mod 2 ^ Z.of_nat k) (Z.shiftl (Z.b2z (Z.testbit v (Z.of_nat k))) (Z.of_nat k))).
  { apply Z.bits_inj'. intros i Hi. rewrite Z.lxor_spec. destruct (Z.compare_spec i (Z.of_nat k)) as [->|Hlt|Hgt].
    - rewrite Z.mod_pow2_bits_low, Z.mod_pow2_bits_high, Z.shiftl_spec, Z.sub_diag by lia. by destruct (Z.testbit v _).
    - rewrite !Z.mod_pow2_bits_low, Z.shiftl_spec_low by lia. by rewrite xorb_false_r.
    - rewrite !Z.mod_pow2_bits_high, Z.shiftl_spec by lia. rewrite (tbit_high _ 1); [done| |lia]. by destruct (Z.testbit v _). }
  rewrite E, parity_lxor by (apply Z.mod_pos_bound; lia) || (apply Z.shiftl_nonneg; by destruct (Z.testbit v _)). rewrite parity_shiftl by (lia || by destruct (Z.testbit v _)). by destruct (Z.testbit v (Z.of_nat k)).
Qed.
Lemma SimpleQueryHelper_spec sss start cr : (forall k, 0 <= k < N -> exists sr, Simple_Load k sss = Some sr /\ row_holds sr k) -> 0 <= start < num_starts_ bs -> 0 <= cr < 2 ^ w ->
  exists r, SimpleQueryHelper ts start cr sss = Some r /\ 0 <= r < 2 ^ R /\ forall j, 0 <= j < R -> Z.testbit r j = dot cr (Z.shiftr (X j) start).
Proof using Hts Hwf.
  intros Hrows Hst Hcr. pose proof (w_range ts Hts) as Hw. pose proof (set_result ts Hts) as HR. pose proof (wf_index ts Hts bs Hwf) as Hix. unfold slots in *. unfold SimpleQueryHelper. set (f := fun _ _ => _).
  enough (Hk : forall k, (k <= Z.to_nat w)%nat -> exists r, foldl f (Some 0) (seq 0 k) = Some r /\ 0 <= r < 2 ^ R /\
    forall j, 0 <= j < R -> Z.testbit r j = foldl (fun p i => xorb p (Z.testbit (Z.land cr (Z.shiftr (X j) start)) (Z.of_nat i))) false (seq 0 k)).
  { destruct (Hk (Z.to_nat w) ltac:(lia)) as (r & E & Hr & Hb). exists r. split; [done|]. split; [done|]. intros j Hj. rewrite Hb by done. unfold dot. rewrite (parity_fold (Z.to_nat w)); [done|]. rewrite Z2Nat.id by lia.
    apply (is_u_bits w); [lia|apply Z.land_nonneg; lia|]. intros i Hi. by rewrite Z.land_spec, (tbit_high cr w) by done. }
  induction k as [|k IH]; intros Hk; [exists 0; split; [done|]; split; [lia|]; intros j Hj; apply Z.bits_0|]. destruct IH as (r & E & Hr & Hb); [lia|]. rewrite seq_S, foldl_snoc, E. cbn [Nat.add]. unfold f. cbn [mbind option_bind].
  rewrite ix_small by lia. destruct (Hrows (start + Z.of_nat k) ltac:(lia)) as (sr & -> & Hsr & Hsb). cbn [mbind option_bind]. eexists. split; [done|].
  assert (Em : rw ts (0 - Z.land (rw ts (Z.shiftr cr (Z.of_nat k))) 1) = if Z.testbit cr (Z.of_nat k) then Z.ones R else 0).
  { assert (Eb : Z.land (rw ts (Z.shiftr cr (Z.of_nat k))) 1 = Z.b2z (Z.testbit cr (Z.of_nat k))).
    { rewrite <- (Z.shiftr_0_r (rw ts _)), bit_of by lia. unfold rw. rewrite Z.mod_pow2_bits_low, Z.shiftr_spec, Z.add_0_l by lia. done. }
    rewrite Eb. unfold rw. destruct (Z.testbit cr _); cbn [Z.b2z]; [|by rewrite Z.mod_0_l by lia]. rewrite Z.ones_equiv. change (0 - 1) with (-1). rewrite <- Z.sub_1_r. symmetry. apply (Z.mod_unique_pos _ _ (-1)); lia. }
  rewrite Em. assert (Ho : 0 <= (if Z.testbit cr (Z.of_nat k) then Z.ones R else 0) < 2 ^ R) by (destruct (Z.testbit cr _); [rewrite Z.ones_equiv|]; lia).
  split; [apply is_u_lxor; [lia|done|]; apply is_u_land; [lia|done|done]|]. intros j Hj. rewrite Z.lxor_spec, Hb, foldl_snoc by done. cbn [Nat.add]. f_equal. rewrite !Z.land_spec, Hsb, Z.shiftr_spec by lia. rewrite Z.add_comm, andb_comm. f_equal.
  destruct (Z.testbit cr _); [apply Z.ones_spec_low; lia|apply Z.bits_0].
Qed.

Section keys.
Context {Key : Type} (HashFn : Key -> Z -> Z) (HashFn_range : forall k seed, 0 <= HashFn k seed < 2 ^ bits (hash_bytes ts)).
Lemma Simple_queries_spec sss seed k : simple_num_starts_ sss = num_starts_ bs -> (forall i, 0 <= i < N -> exists sr, Simple_Load i sss = Some sr /\ row_holds sr i) ->
  let h := GetHash HashFn seed k in
  exists r, Simple_PhsfQuery ts HashFn seed k sss = Some r /\ Simple_FilterQuery ts HashFn seed k sss = Some (GetResultRowFromHash ts h =? r) /\ 0 <= r < 2 ^ R /\
    forall j, 0 <= j < R -> Z.testbit r j = dot (GetCoeffRow ts h) (Z.shiftr (X j) (GetStart ts h (num_starts_ bs))).
Proof using Hts Hwf HashFn_range.
  intros Es Hrows h. pose proof (wf_starts ts bs Hwf). unfold Simple_PhsfQuery, Simple_FilterQuery. rewrite Es. destruct (Z.eqb_spec (num_starts_ bs) 0); [lia|]. rewrite andb_false_r. unfold SimplePhsfQuery, SimpleFilterQuery. fold h. rewrite Es.
  destruct (SimpleQueryHelper_spec sss (GetStart ts h (num_starts_ bs)) (GetCoeffRow ts h) Hrows) as (r & E & Hr); [by apply start_of_range|by apply coeff_range|]. exists r. rewrite E. done.
Qed.
End keys.
End simple.
