(* ===== verification/RibbonTheorems.v ===== *)
(** * Ribbon: the search for a seed is exact, functions and filters give back what was added

    A banding of any settings accepts inputs just as long as their equations have a solution, and forgets what it could not add; the stored solution
    answers for each key as its input asked. *)

From stdpp Require Import prelude.
From Stdlib Require Import ZArith Lia Bool.
From S2P Require Import Prelude Coding Math Ribbon RibbonProofs RibbonSolution.

(** ** Seeds *)

Section seeds.
Context (ts : TypesAndSettings) (Hts : settings ts).
Notation hbits := (bits (hash_bytes ts)).
Notation sbits := (bits (seed_bytes ts)).

Lemma mask_bit i : 0 <= i -> Z.testbit (kSeedMixMask ts) i = (4 <=? i mod 8) && (i <? hbits).
Proof using Hts.
  intros Hi. unfold kSeedMixMask, hw, wrapT, bits. destruct (Z.ltb_spec i (8 * Z.of_nat (hash_bytes ts))) as [Hlt|Hge]; [|by rewrite Z.mod_pow2_bits_high, andb_false_r by lia].
  rewrite Z.mod_pow2_bits_low, andb_true_r by lia. assert (Hb : i < 64) by (destruct (set_hash ts Hts) as [E|E]; rewrite E in Hlt; lia).
  assert (Hall : forallb (fun n => eqb (Z.testbit 0xf0f0f0f0f0f0f0f0 (Z.of_nat n)) (4 <=? Z.of_nat n mod 8)) (seq 0 64) = true) by (by vm_compute).
  rewrite forallb_forall in Hall. specialize (Hall (Z.to_nat i)). rewrite in_seq, Z2Nat.id in Hall by lia. apply eqb_prop, Hall. lia.
Qed.
Lemma seed_mix_bit v i : 0 <= i -> Z.testbit (seed_mix ts v) i = xorb (Z.testbit v i) (Z.testbit v (i + 4) && (4 <=? (i + 4) mod 8) && (i + 4 <? hbits)).
Proof using Hts. intros Hi. unfold seed_mix, kSeedMixShift. rewrite Z.lxor_spec, Z.shiftr_spec, Z.land_spec, mask_bit by lia. by rewrite andb_assoc. Qed.
Lemma seed_mix_involutive v : seed_mix ts (seed_mix ts v) = v.
Proof using Hts.
  apply Z.bits_inj'. intros i Hi. rewrite !seed_mix_bit by lia. replace (i + 4 + 4) with (i + 1 * 8) by lia. rewrite Z.mod_add by lia.
  pose proof (Z.mod_pos_bound i 8 ltac:(lia)). destruct (Z.leb_spec 4 ((i + 4) mod 8)) as [Hm|]; [|by rewrite !andb_false_r, !xorb_false_r].
  assert (Hlow : i mod 8 < 4). { destruct (Z.ltb_spec (i mod 8) 4); [done|]. assert (E : (i + 4) mod 8 = i mod 8 - 4) by (symmetry; apply (Z.mod_unique_pos _ _ (i / 8 + 1)); [lia|]; pose proof (Z.div_mod i 8 ltac:(lia)); lia). lia. }
  destruct (Z.leb_spec 4 (i mod 8)); [lia|]. rewrite andb_false_r, andb_false_l, xorb_false_r. by destruct (Z.testbit v i), (Z.testbit v (i + 4)), (i + 4 <? hbits).
Qed.
(** The mixing does not move bits between bytes. *)
Lemma seed_mix_mod v : seed_mix ts (v mod 2 ^ sbits) = seed_mix ts v mod 2 ^ sbits.
Proof using Hts.
  apply Z.bits_inj'. intros i Hi. unfold bits. destruct (Z.ltb_spec i (8 * Z.of_nat (seed_bytes ts))) as [Hlt|Hge].
  - rewrite Z.mod_pow2_bits_low, !seed_mix_bit, Z.mod_pow2_bits_low by lia. f_equal. destruct (Z.ltb_spec (i + 4) (8 * Z.of_nat (seed_bytes ts))) as [Hlt'|Hge']; [by rewrite Z.mod_pow2_bits_low by lia|].
    assert (E : (i + 4) mod 8 = i + 4 - 8 * Z.of_nat (seed_bytes ts)) by (symmetry; apply (Z.mod_unique_pos _ _ (Z.of_nat (seed_bytes ts))); lia). rewrite E. destruct (Z.leb_spec 4 (i + 4 - 8 * Z.of_nat (seed_bytes ts))); [lia|]. by rewrite !andb_false_r.
  - rewrite Z.mod_pow2_bits_high, seed_mix_bit, !Z.mod_pow2_bits_high by lia. done.
Qed.
Lemma GetOrdinalSeed_SetOrdinalSeed c : 0 <= c < 2 ^ sbits -> GetOrdinalSeed ts (SetOrdinalSeed ts c) = c.
Proof using Hts.
  intros Hc. pose proof (set_seed ts Hts) as Hs. unfold GetOrdinalSeed, SetOrdinalSeed, sw, hw, wrapT. rewrite seed_mix_mod, seed_mix_involutive.
  assert (Hdiv : (2 ^ sbits | 2 ^ hbits)) by (exists (2 ^ (hbits - sbits)); unfold bits; rewrite <- Z.pow_add_r by lia; f_equal; lia).
  rewrite Z.mod_mod_divide by done.
  assert (E1 : (kToRawSeedFactor ts * kFromRawSeedFactor ts) mod 2 ^ hbits = 1) by (unfold kToRawSeedFactor, kFromRawSeedFactor, hw, wrapT, bits; destruct (set_hash ts Hts) as [-> | ->]; by vm_compute).
  assert (E2 : (kToRawSeedFactor ts * kFromRawSeedFactor ts) mod 2 ^ sbits = 1) by (rewrite <- (Z.mod_mod_divide _ (2 ^ hbits)), E1 by done; apply Z.mod_small; unfold bits; split; [lia|]; apply Z.pow_gt_1; lia).
  assert (Hp : 2 ^ sbits <> 0 /\ 2 ^ hbits <> 0) by (unfold bits; split; apply Z.pow_nonzero; lia).
  rewrite Z.mul_mod_idemp_l by tauto. rewrite <- (Z.mod_mod_divide (_ * kFromRawSeedFactor ts) (2 ^ hbits)) by done. rewrite Z.mul_mod_idemp_l, Z.mod_mod_divide by (done || tauto).
  rewrite <- Z.mul_assoc, Z.mul_mod, E2, Z.mul_1_r, Z.mod_mod, Z.mod_small by tauto. done.
Qed.
End seeds.

(** ** From the inputs to the answers *)

Section ribbon.
Context (ts : TypesAndSettings) (Hts : settings ts) `{Port}.
Context {Key : Type} (HashFn : Key -> Z -> Z) (HashFn_range : forall k seed, 0 <= HashFn k seed < 2 ^ bits (hash_bytes ts)).
Notation w := (kCoeffBits ts).
Notation R := (kResultBits ts).
Notation sz := (sizeof_CoeffRow ts).
Notation index_max := (2 ^ bits (index_bytes ts)).
Implicit Types (inputs : list (Key * Z)) (iss : SerializableInterleavedSolution).

(** There is a function with the demanded results, hashed with the ordinal seed. *)
Definition solvable (num_slots : Z) inputs (ordinal : Z) : Prop := exists X, Forall (meets ts HashFn X (SetOrdinalSeed ts ordinal) (num_slots - w + 1)) inputs.

Lemma solved_meets num_slots inputs o bs : solved ts HashFn num_slots inputs o bs -> Forall (meets ts HashFn (the_solution ts bs) (SetOrdinalSeed ts o) (num_starts_ bs)) inputs.
Proof using Hts. intros (Hw & Es & _ & HX). replace (num_starts_ bs) with (num_slots - w + 1) by (unfold slots in Es; lia). apply HX. by apply the_solution_solves. Qed.

(** The configuration depends on the number of whole segments only. *)
Lemma PrepareForNumStarts_ext n d1 l1 d2 l2 : l1 / sz = l2 / sz ->
  let a := PrepareForNumStarts ts n (new_soln d1 l1) in let b := PrepareForNumStarts ts n (new_soln d2 l2) in upper_num_columns_ a = upper_num_columns_ b /\ upper_start_block_ a = upper_start_block_ b.
Proof using. intros El. unfold PrepareForNumStarts, InternalConfigure, GetNumSegments, new_soln. cbn. rewrite El. destruct (GetNumBlocks _ _ =? 0); [done|]. by destruct (R <? _). Qed.
Lemma ConfigureForNumBlocks_eq bs iss : wf ts bs -> slots ts bs mod w = 0 -> ConfigureForNumBlocks ts (slots ts bs / w) iss = PrepareForNumStarts ts (num_starts_ bs) iss.
Proof using Hts.
  intros Hw Hb. destruct (N_blocks ts Hts bs Hw Hb) as [HN HB]. pose proof (wf_index ts Hts bs Hw). pose proof (wf_starts ts bs Hw). pose proof (w_range ts Hts). unfold ConfigureForNumBlocks. destruct (Z.eqb_spec (slots ts bs / w) 0); [lia|]. rewrite <- HN.
  rewrite (ix_small ts (slots ts bs)) by lia. f_equal. rewrite ix_small; unfold slots in *; lia.
Qed.

(** The solution that is stored by back substitution, read from a buffer with the same segments. *)
Lemma reader_layout bs data len : wf ts bs -> slots ts bs mod w = 0 -> bytes_ok data -> 0 <= len <= zlen data -> len < 2 ^ 64 -> len / sz + slots ts bs / w < index_max ->
  exists iss', BackSubstFrom ts bs (new_soln data len) = Some iss' /\ zlen (data_ iss') = zlen data /\ bytes_ok (data_ iss') /\ GetNumBlocks ts iss' = slots ts bs / w /\
    forall data2 len2, bytes_ok data2 -> 0 <= len2 <= zlen data2 -> len2 < 2 ^ 64 -> len2 / sz = len / sz -> ztake (len / sz * sz) data2 = ztake (len / sz * sz) (data_ iss') ->
      let iss2 := ConfigureForNumBlocks ts (slots ts bs / w) (new_soln data2 len2) in configured ts bs iss2 /\ layout ts bs iss2 0.
Proof using Hts.
  intros Hw Hb Hd Hl Hl64 Hix. pose proof (wf_starts ts bs Hw) as Hst. pose proof (sz_eq ts Hts) as [_ Hsz].
  destruct (InterleavedBackSubst_spec ts Hts bs Hw Hb (new_soln data len) Hd Hl Hl64 Hix) as (iss' & E & Hcfg & Hc & Hlay). destruct (PrepareForNumStarts_spec ts Hts bs Hw Hb (new_soln data len) Hd Hl Hl64 Hix) as (_ & Ed0 & Enb & _).
  exists iss'. unfold BackSubstFrom. destruct (Z.eqb_spec (num_starts_ bs) 0); [lia|]. rewrite andb_false_r. split; [done|]. pose proof Hcfg as (El & _ & Es & E4 & E5). rewrite Ed0 in El. split; [done|]. split; [exact (conf_bytes ts bs iss' Hc)|].
  split; [unfold GetNumBlocks in *; by rewrite Es|]. intros data2 len2 Hd2 Hl2 Hl264 Eq Etake. rewrite ConfigureForNumBlocks_eq by done.
  destruct (PrepareForNumStarts_spec ts Hts bs Hw Hb (new_soln data2 len2) Hd2 Hl2 Hl264 ltac:(cbn [new_soln data_len_]; by rewrite Eq)) as (Hc2 & Ed2 & _ & _ & Hle). change (data_len_ (new_soln data2 len2)) with len2 in Hle. split; [done|].
  destruct (PrepareForNumStarts_ext (num_starts_ bs) data2 len2 data len Eq) as [Ec Eu]. rewrite <- E4 in Ec. rewrite <- E5 in Eu. set (iss2' := PrepareForNumStarts ts (num_starts_ bs) (new_soln data2 len2)) in *.
  assert (Eseg : segment iss2' = segment iss' /\ columns iss2' = columns iss') by (unfold segment, columns; by rewrite Ec, Eu). destruct Eseg as [Eseg Ecol].
  intros b j Hbb Hj. rewrite Eseg, Ecol in *. rewrite <- (Hlay b j Hbb Hj). destruct (N_blocks ts Hts bs Hw Hb) as [HN HB].
  assert (Hm : 0 <= segment iss' b + j < len / sz).
  { pose proof (segment_mono ts bs iss' b (b + 1) Hc ltac:(lia)). pose proof (segment_mono ts bs iss' (b + 1) (slots ts bs / w) Hc ltac:(lia)). pose proof (segment_next iss' b). rewrite Eq in Hle. lia. }
  set (m := segment iss' b + j) in *. set (ns := len / sz) in *. assert (Hn : ns * sz <= len) by (unfold ns; rewrite Z.mul_comm; apply Z.mul_div_le; lia). assert (Hn2 : ns * sz <= len2) by (rewrite <- Eq, Z.mul_comm; apply Z.mul_div_le; lia).
  assert (Hms : 0 <= m * sz /\ m * sz + sz <= ns * sz) by nia. cbn in El. rewrite !LoadSegment_eq by (done || lia || (rewrite Ed2; cbn; done || lia) || (rewrite El; cbn; lia) || exact (conf_bytes ts bs iss' Hc)).
  rewrite Ed2. cbn. do 2 f_equal. apply window_ext; [lia|]. intros i Hi. rewrite <- (lookup_take_lt data2 (Z.to_nat (ns * sz))), <- (lookup_take_lt (data_ iss') (Z.to_nat (ns * sz))) by lia. unfold ztake in Etake. by rewrite Etake.
Qed.

Lemma filter_finds num_slots inputs o bs iss k v : kIsFilter ts = true -> solved ts HashFn num_slots inputs o bs -> num_slots mod w = 0 -> configured ts bs iss -> layout ts bs iss 0 ->
  (k, v) ∈ inputs -> FilterQuery ts HashFn (SetOrdinalSeed ts o) k iss = Some true.
Proof using Hts HashFn_range.
  intros Hfil Hsol Hmod Hc Hlay Hin. pose proof (solved_meets _ _ _ _ Hsol) as Hm. rewrite Forall_forall in Hm. specialize (Hm _ Hin). destruct Hsol as (Hw & Es & _).
  destruct (FilterQuery_spec ts Hts bs Hw ltac:(by rewrite Es) HashFn HashFn_range iss Hc Hlay (SetOrdinalSeed ts o) k) as (ans & E & Ha). rewrite E. f_equal. apply Ha. intros j Hj.
  unfold meets, sat, result_of, GetResultRowFromInput in Hm. rewrite Hfil, Z.lor_0_l in Hm. apply Hm. cbn [fst] in *. set (h := GetHash HashFn (SetOrdinalSeed ts o) k) in *.
  pose proof (start_of_range ts Hts bs Hw HashFn HashFn_range k (SetOrdinalSeed ts o)) as Hs. fold h in Hs. destruct (start_block ts Hts bs Hw ltac:(by rewrite Es) _ Hs) as (_ & _ & [Hb _] & _). pose proof (columns_range ts bs iss _ Hc Hb). lia.
Qed.
Lemma function_finds num_slots inputs o bs iss k v : kIsFilter ts = false -> R <= 32 -> solved ts HashFn num_slots inputs o bs -> num_slots mod w = 0 -> configured ts bs iss -> layout ts bs iss 0 ->
  (k, v) ∈ inputs -> input_ok ts (k, v) -> exists n, upper_num_columns_ iss - 1 <= n <= upper_num_columns_ iss /\ PhsfQuery ts HashFn (SetOrdinalSeed ts o) k iss = Some (v mod 2 ^ n).
Proof using Hts HashFn_range.
  intros Hfil HR Hsol Hmod Hc Hlay Hin Hv. pose proof (solved_meets _ _ _ _ Hsol) as Hm. rewrite Forall_forall in Hm. specialize (Hm _ Hin). destruct Hsol as (Hw & Es & _).
  destruct (PhsfQuery_spec ts Hts bs Hw ltac:(by rewrite Es) HashFn HashFn_range iss Hc Hlay (SetOrdinalSeed ts o) k HR) as (sr & E & Ha). cbv zeta in Ha. set (h := GetHash HashFn (SetOrdinalSeed ts o) k) in *.
  pose proof (start_of_range ts Hts bs Hw HashFn HashFn_range k (SetOrdinalSeed ts o)) as Hs. fold h in Hs. destruct (start_block ts Hts bs Hw ltac:(by rewrite Es) _ Hs) as (_ & _ & [Hb _] & _). pose proof (columns_range ts bs iss _ Hc Hb) as [Hcol _].
  set (n := columns iss (GetStart ts h (num_starts_ bs) / w)) in *. exists n. split; [unfold n, columns; destruct (_ <? _); lia|]. rewrite E. f_equal. apply Z.bits_inj'. intros j Hj. rewrite Ha by done.
  unfold meets, sat, result_of, GetResultRowFromInput, GetResultRowFromHash in Hm. rewrite Hfil, Z.lor_0_r in Hm. cbn [fst snd andb] in Hm. destruct (Z.ltb_spec j n); cbn [andb].
  - rewrite Z.mod_pow2_bits_low by lia. apply Hm. lia.
  - by rewrite Z.mod_pow2_bits_high by lia.
Qed.
End ribbon.

(** C13: The search for a seed is exact. For the template settings of [settings] (rows of 16 to 128 bits, results of 8 to 64, 4 or 8 bytes of hash and of index, seeds no wider than
    hashes, and the first coefficient always one unless a row is at least as wide as a hash), every hash function, at least as many slots as a row has bits, fewer than 2^32 inputs and slots, it
    ends with the banding of the first ordinal seed, from the starting seed on and around, with which the inputs have a solution - the banding has then the same solutions as the
    inputs, and its seed is reported - or it fails, and then the inputs have no solution with any of the seeds. *)
Theorem ribbon_search_exact (ts : TypesAndSettings) {Key : Type} (HashFn : Key -> Z -> Z) (num_slots : Z) (inputs : list (Key * Z)) (k start : Z) (s : StandardBanding) :
  settings ts -> (forall key seed, 0 <= HashFn key seed < 2 ^ bits (hash_bytes ts)) -> allocated ts s -> kCoeffBits ts <= num_slots -> num_slots + kCoeffBits ts < 2 ^ 32 ->
  zlen inputs < 2 ^ 32 -> Forall (input_ok ts) inputs -> 0 <= k <= bits (seed_bytes ts) -> 0 <= start < 2 ^ k ->
  exists ok s', ResetAndFindSeedToSolve ts HashFn num_slots inputs start (2 ^ k - 1) s = Some (ok, s') /\
    if ok then exists d, 0 <= d < 2 ^ k /\ let ordinal := (start + d) mod 2 ^ k in
      GetOrdinalSeed ts (raw_seed_ s') = ordinal /\ solvable ts HashFn num_slots inputs ordinal /\ (forall d', 0 <= d' < d -> ~ solvable ts HashFn num_slots inputs ((start + d') mod 2 ^ k)) /\
      forall X, solves ts s' X <-> Forall (meets ts HashFn X (raw_seed_ s') (num_starts_ s')) inputs
    else forall ordinal, 0 <= ordinal < 2 ^ k -> ~ solvable ts HashFn num_slots inputs ordinal.
Proof.
  intros Hts Hh Ha Hn Hm Hlen Hok Hk Hst. assert (Hp : 0 < 2 ^ k) by lia. destruct (ResetAndFindSeedToSolve_spec ts Hts HashFn Hh num_slots inputs k start s Ha Hn Hm Hlen Hok Hk Hst) as (ok & s' & E & Hres).
  exists ok, s'. split; [done|]. destruct ok.
  - destruct Hres as (d & Hd & Hsol & Hno). exists d. split; [done|]. cbv zeta. pose proof Hsol as (Hw & Es & Er & HX). pose proof (Z.mod_pos_bound (start + d) _ Hp) as Hr.
    assert (2 ^ k <= 2 ^ bits (seed_bytes ts)) by (apply Z.pow_le_mono_r; lia). split; [rewrite Er; apply GetOrdinalSeed_SetOrdinalSeed; [done|lia]|].
    assert (Est : num_starts_ s' = num_slots - kCoeffBits ts + 1) by (unfold slots in Es; lia). split; [exists (the_solution ts s'); rewrite <- Est; by eapply solved_meets|].
    split; [|intros X; rewrite Er, Est; apply HX]. intros d' Hd' [X HF]. by apply (Hno d' Hd' X).
  - intros o Ho [X HF]. apply (Hres ((o - start) mod 2 ^ k) (Z.mod_pos_bound _ _ Hp) X). rewrite Z.add_mod_idemp_r by lia. replace (start + (o - start)) with o by lia. by rewrite Z.mod_small.
Qed.

(** Adding a range with roll-back adds all inputs, so that exactly the solutions that satisfy them remain, or none: the banding has then the same rows as before, and
    no solution of it satisfies the inputs. *)
Theorem ribbon_roll_back (ts : TypesAndSettings) {Key : Type} (HashFn : Key -> Z -> Z) (inputs : list (Key * Z)) (s : StandardBanding) :
  settings ts -> (forall key seed, 0 <= HashFn key seed < 2 ^ bits (hash_bytes ts)) -> wf ts s -> clean ts s -> zlen inputs < 2 ^ 32 -> zlen inputs <= zlen (backtrack_ s) -> Forall (input_ok ts) inputs ->
  exists ok s', AddRangeOrRollBack ts HashFn inputs s = Some (ok, s') /\ wf ts s' /\ raw_seed_ s' = raw_seed_ s /\
    if ok then clean ts s' /\ forall X, solves ts s' X <-> solves ts s X /\ Forall (meets ts HashFn X (raw_seed_ s) (num_starts_ s)) inputs
    else (forall X, solves ts s X -> ~ Forall (meets ts HashFn X (raw_seed_ s) (num_starts_ s)) inputs) /\
      forall i, 0 <= i < slots ts s -> LoadRow ts i false s' = LoadRow ts i false s.
Proof.
  intros Hts Hh Hw Hc Hlen Hbt Hok. pose proof (wf_starts ts s Hw). pose proof (index_width_range ts Hts). unfold AddRangeOrRollBack. destruct (Z.eqb_spec (num_starts_ s) 0); [lia|]. rewrite andb_false_r.
  destruct (BandingAddRange_spec ts Hts HashFn Hh true inputs s Hw) as (ok & s' & E & Hw' & Hsh & Hres); [|done|done|]; [split; [lia|split; [lia|intros _; lia]]|].
  exists ok, s'. split; [done|]. split; [done|]. split; [by destruct Hsh as (_ & _ & _ & _ & ->)|]. destruct ok; [destruct Hres as [? ?]; by split; [auto|]|]. destruct Hres as [? Hres]. split; [done|]. by apply Hres.
Qed.

(** C28: A Ribbon function of at most 32 result bits gives back its values. With the template settings of [settings], not those of a filter, and a number of slots that is a multiple of the bits of a row, once
    the search for a seed has banded the inputs, the simple solution answers for each key just the value that was added, and the interleaved solution, in less than 2^31 bytes, the
    low bits of it, of as many columns as there is room for, up to one. *)
Theorem ribbon_function_correct (ts : TypesAndSettings) `{Port} {Key : Type} (HashFn : Key -> Z -> Z) (num_slots : Z) (inputs : list (Key * Z)) (k start : Z) (s bs : StandardBanding) (data : list Z) :
  settings ts -> (forall key seed, 0 <= HashFn key seed < 2 ^ bits (hash_bytes ts)) -> kIsFilter ts = false -> kResultBits ts <= 32 -> allocated ts s ->
  kCoeffBits ts <= num_slots -> num_slots mod kCoeffBits ts = 0 -> num_slots + kCoeffBits ts < 2 ^ 32 -> zlen inputs < 2 ^ 32 -> Forall (input_ok ts) inputs -> 0 <= k <= bits (seed_bytes ts) -> 0 <= start < 2 ^ k ->
  bytes_ok data -> zlen data < 2 ^ 31 -> ResetAndFindSeedToSolve ts HashFn num_slots inputs start (2 ^ k - 1) s = Some (true, bs) ->
  exists simple soln, Simple_BackSubstFrom ts bs (mkSimple 0 0 []) = Some simple /\ BackSubstFrom ts bs (new_soln data (zlen data)) = Some soln /\
    forall key v, (key, v) ∈ inputs -> Simple_PhsfQuery ts HashFn (raw_seed_ bs) key simple = Some v /\
      exists n, upper_num_columns_ soln - 1 <= n <= upper_num_columns_ soln /\ PhsfQuery ts HashFn (raw_seed_ bs) key soln = Some (v mod 2 ^ n).
Proof.
  intros Hts Hh Hfil HR Ha Hn Hmod Hm Hlen Hok Hk Hst Hd Hdl E. destruct (ResetAndFindSeedToSolve_spec ts Hts HashFn Hh num_slots inputs k start s Ha Hn Hm Hlen Hok Hk Hst) as (ok & s' & E' & Hres).
  rewrite E in E'. injection E' as <- <-. destruct Hres as (d & Hd' & Hsol & _). set (o := (start + d) mod 2 ^ k) in *. pose proof Hsol as (Hw & Es & Er & _). pose proof (w_range ts Hts). pose proof (sz_eq ts Hts) as [_ Hsz]. pose proof (index_width_range ts Hts).
  destruct (Simple_BackSubstFrom_spec ts Hts bs Hw (mkSimple 0 0 []) eq_refl) as (simple & E1 & Est & Hrows). pose proof (zlen_nonneg data).
  assert (Hix : zlen data / sizeof_CoeffRow ts + slots ts bs / kCoeffBits ts < 2 ^ bits (index_bytes ts)). { assert (zlen data / sizeof_CoeffRow ts <= zlen data) by (apply Z.div_le_upper_bound; nia). assert (slots ts bs / kCoeffBits ts <= 2 ^ 28) by (apply Z.div_le_upper_bound; lia). lia. }
  destruct (InterleavedBackSubst_spec ts Hts bs Hw ltac:(by rewrite Es) (new_soln data (zlen data)) Hd ltac:(cbn; lia) ltac:(cbn; lia) Hix) as (soln & E2 & _ & Hc & Hlay). exists simple, soln. split; [done|].
  split; [unfold BackSubstFrom; pose proof (wf_starts ts bs Hw); destruct (Z.eqb_spec (num_starts_ bs) 0); [lia|]; by rewrite andb_false_r|]. intros key v Hin. rewrite Er. rewrite Forall_forall in Hok. specialize (Hok _ Hin). split.
  - pose proof (solved_meets _ Hts _ _ _ _ _ Hsol) as HF. rewrite Forall_forall in HF. specialize (HF _ Hin). destruct (Simple_queries_spec ts Hts bs Hw HashFn Hh simple (SetOrdinalSeed ts o) key Est Hrows) as (r & -> & _ & Hr & Hb).
    f_equal. apply Z.bits_inj'. intros j Hj. destruct (Z.ltb_spec j (kResultBits ts)); [|rewrite !(tbit_high _ (kResultBits ts)) by done; done]. rewrite Hb by lia.
    unfold meets, sat, result_of, GetResultRowFromInput, GetResultRowFromHash in HF. rewrite Hfil, Z.lor_0_r in HF. apply HF. lia.
  - by eapply function_finds.
Qed.

(** ** Examples *)

(** A function of bytes, with rows of 16 coefficients. *)
Definition bytes16 : TypesAndSettings := mkSettings 16 8 4 4 4 false false true false false.
Lemma bytes16_settings : settings bytes16.
Proof. by split; cbn; auto; try lia; try (split; lia). Qed.
Definition bytes_inputs : list (Z * Z) := [(1, 7); (2, 200); (3, 0); (77, 255)].
Definition bytes_banding : StandardBanding := default default_banding (snd <$> ResetAndFindSeedToSolve bytes16 (Rehash_HashFn bytes16) 32 bytes_inputs 1 3 default_banding).
Lemma bytes_inputs_ok : Forall (input_ok bytes16) bytes_inputs.
Proof. repeat constructor; cbn; lia. Qed.

Lemma ribbon_search_exact_witness :
  let r := ResetAndFindSeedToSolve bytes16 (Rehash_HashFn bytes16) 32 bytes_inputs 1 3 default_banding in
  (fst <$> r) = Some true /\ exists ok s', r = Some (ok, s') /\ if ok then exists d, 0 <= d < 4 /\ solvable bytes16 (Rehash_HashFn bytes16) 32 bytes_inputs ((1 + d) mod 4) else True.
Proof.
  intros r. split; [by vm_compute|].
  destruct (ribbon_search_exact bytes16 (Rehash_HashFn bytes16) 32 bytes_inputs 2 1 default_banding bytes16_settings) as (ok & s' & E & Hres);
    [intros; apply hw_range|by split; [|right]|cbn; lia|cbn; lia|by vm_compute|apply bytes_inputs_ok|split; by vm_compute|lia|].
  change (2 ^ 2 - 1) with 3 in E. exists ok, s'. split; [exact E|]. destruct ok; [|exact I]. destruct Hres as (d & Hd & _ & Hs & _). exists d. split; [exact Hd|exact Hs].
Defined.
#[local] Instance big_endian : Port := {| kLittleEndian := false |}.
Lemma ribbon_function_correct_witness :
  exists simple soln, Simple_BackSubstFrom bytes16 bytes_banding (mkSimple 0 0 []) = Some simple /\ BackSubstFrom bytes16 bytes_banding (new_soln (replicate 40 0) 40) = Some soln /\
    Simple_PhsfQuery bytes16 (Rehash_HashFn bytes16) (raw_seed_ bytes_banding) 2 simple = Some 200 /\
    exists n, upper_num_columns_ soln - 1 <= n <= upper_num_columns_ soln /\ PhsfQuery bytes16 (Rehash_HashFn bytes16) (raw_seed_ bytes_banding) 77 soln = Some (255 mod 2 ^ n).
Proof.
  destruct (@ribbon_function_correct bytes16 big_endian Z (Rehash_HashFn bytes16) 32 bytes_inputs 2 1 default_banding bytes_banding (replicate 40 0) bytes16_settings) as (simple & soln & E1 & E2 & Hq);
    [intros; apply hw_range|done|cbn; lia|by split; [|right]|cbn; lia|done|cbn; lia|by vm_compute|apply bytes_inputs_ok|split; by vm_compute|lia|by apply Forall_replicate|by vm_compute|by vm_compute|].
  change (zlen (replicate 40 0)) with 40 in E2. exists simple, soln. split; [exact E1|]. split; [exact E2|]. split; [apply (Hq 2 200)|apply (Hq 77 255)]; apply list_elem_of_lookup; [by exists 1%nat|by exists 3%nat].
Defined.
