(* ===== verification/RibbonConfig.v ===== *)
(** * The sizes of Ribbon filters (util/ribbon_config.h, util/ribbon_config.cc)

    How many entries a number of slots holds, and how many slots entries need, for a chance that a seed fails. [std::log] is a parameter. *)

From stdpp Require Import prelude.
From Stdlib Require Import ZArith Lia Bool SpecFloat.
From S2P Require Import Prelude Float64 Ribbon.

Definition f64_sub : spec_float -> spec_float -> spec_float := SFsub 53 1024.
(** A decimal constant: digits, and how many of them are after the point. *)
Definition f64_dec (digits : Z) (after : Z) : spec_float := f64_div (f64_of_Z digits) (f64_of_Z (10 ^ after)).

Inductive ConstructionFailureChance := kOneIn2 | kOneIn20 | kOneIn1000.

Definition kKnownSize : Z := 18.
Definition unsupported (n : nat) : list (Z * Z) := replicate n (0, 0).
(** By whether rows have 128 bits (and not 64), and [kUseSmash]. *)
Definition known_OneIn2 (is128 kUseSmash : bool) : list (Z * Z) :=
  match is128, kUseSmash with
  | true, false => unsupported 8 ++ [(252984, 3); (506109, 3); (101371, 2); (202947, 2); (406043, 2); (811563, 2); (162022, 1); (323051, 1); (643835, 1); (128274, 0)]
  | true, true => unsupported 7 ++ [(126274, 3); (254279, 3); (51027, 2); (102224, 2); (204602, 2); (409199, 2); (815498, 2); (162443, 1); (323497, 1); (644266, 1); (128307, 0)]
  | false, false => unsupported 7 ++ [(12494, 2); (249968, 3); (501234, 3); (100406, 2); (200615, 2); (399789, 2); (794699, 2); (157784, 1); (313069, 1); (621153, 1); (123284, 0)]
  | false, true => unsupported 6 ++ [(622683, 4); (126259, 3); (254268, 3); (509975, 3); (101998, 2); (202616, 2); (401975, 2); (79698, 1); (157982, 1); (313303, 1); (621342, 1); (123255, 0)]
  end.
Definition known_OneIn20 (is128 kUseSmash : bool) : list (Z * Z) :=
  match is128, kUseSmash with
  | true, false => unsupported 8 ++ [(248851, 3); (499532, 3); (100126, 2); (200397, 2); (400559, 2); (800039, 2); (159666, 1); (318281, 1); (634473, 1); (126506, 0)]
  | true, true => unsupported 7 ++ [(122637, 3); (250651, 3); (506625, 3); (101854, 2); (203643, 2); (40416, 1); (803925, 2); (16005, 0); (318696, 1); (634928, 1); (126537, 0)]
  | false, false => unsupported 7 ++ [(120659, 3); (243346, 3); (488168, 3); (976373, 3); (194886, 2); (387585, 2); (770497, 2); (153124, 1); (303951, 1); (603218, 1); (119813, 0)]
  | false, true => unsupported 6 ++ [(586016, 4); (122619, 3); (250641, 3); (503595, 3); (994165, 3); (196736, 2); (389817, 2); (772721, 2); (153315, 1); (304058, 1); (603762, 1); (119836, 0)]
  end.
Definition known_OneIn1000 (is128 kUseSmash : bool) : list (Z * Z) :=
  match is128, kUseSmash with
  | true, false => unsupported 8 ++ [(24261, 2); (491887, 3); (983603, 3); (196821, 2); (392698, 2); (783399, 2); (15629, 0); (311999, 1); (623078, 1); (123870, 0)]
  | true, true => unsupported 7 ++ [(11719, 2); (245105, 3); (500748, 3); (101067, 2); (19934, 1); (395001, 2); (786331, 2); (15652, 0); (312621, 1); (624628, 1); (124095, 0)]
  | false, false => unsupported 7 ++ [(114, 0); (2348, 1); (471498, 3); (940165, 3); (1874, 0); (37215, 1); (73875, 1); (14592, 0); (29160, 0); (57745, 0); (115082, 0)]
  | false, true => unsupported 6 ++ [(530434, 4); (117, 0); (245312, 3); (483571, 3); (950251, 3); (1878, 0); (373634, 2); (738797, 2); (14618, 0); (291429, 1); (578388, 1); (114932, 0)]
  end.
Definition known (kCfc : ConstructionFailureChance) : bool -> bool -> list (Z * Z) :=
  match kCfc with kOneIn2 => known_OneIn2 | kOneIn20 => known_OneIn20 | kOneIn1000 => known_OneIn1000 end.

Section data.
Context (kCfc : ConstructionFailureChance) (kCoeffBits : Z) (kUseSmash kHomogeneous : bool).
Definition kKnownToAddByPow2 (i : Z) : spec_float :=
  let '(digits, after) := nth (Z.to_nat i) (known kCfc (kCoeffBits =? 128) kUseSmash) (0, 0) in
  f64_dec digits after.
Definition GetFactorPerPow2 : spec_float := if kCoeffBits =? 128 then f64_dec 38 4 else f64_dec 83 4.
Definition GetFinalKnownFactor : spec_float :=
  f64_div (f64_mul f64_1 (f64_of_Z (Z.shiftl 1 (kKnownSize - 1)))) (kKnownToAddByPow2 (kKnownSize - 1)).
Definition GetBaseFactor : spec_float := f64_sub GetFinalKnownFactor (f64_mul (f64_of_Z (kKnownSize - 1)) GetFactorPerPow2).
Definition GetFactorForLarge (log2_num_slots : spec_float) : spec_float := f64_add GetBaseFactor (f64_mul log2_num_slots GetFactorPerPow2).
Definition GetNumToAddForPow2 (log2_num_slots : Z) : spec_float :=
  if log2_num_slots <? kKnownSize then kKnownToAddByPow2 log2_num_slots
  else f64_div (f64_mul f64_1 (f64_of_Z (Z.shiftl 1 log2_num_slots))) (GetFactorForLarge (f64_mul f64_1 (f64_of_Z log2_num_slots))).

Context (std_log : spec_float -> spec_float).
Definition log2_of (n : Z) : spec_float := f64_mul (std_log (f64_of_Z n)) (f64_dec 14426950409 10).
Definition kIsSupported : bool := (kCoeffBits =? 64) || (kCoeffBits =? 128).

Definition GetNumToAdd (num_slots : Z) : Z :=
  if negb kIsSupported || (num_slots =? 0) then 0
  else
    let log2_num_slots := log2_of num_slots in
    let floor_log2 := u32 (f64_trunc log2_num_slots) in
    let num_to_add :=
      if floor_log2 + 1 <? kKnownSize then
        let ceil_portion := f64_sub (f64_div (f64_mul f64_1 (f64_of_Z num_slots)) (f64_of_Z (Z.shiftl 1 floor_log2))) f64_1 in
        u32 (f64_trunc (f64_add (f64_mul ceil_portion (kKnownToAddByPow2 (floor_log2 + 1)))
                          (f64_mul (f64_sub f64_1 ceil_portion) (kKnownToAddByPow2 floor_log2))))
      else
        let factor := GetFactorForLarge log2_num_slots in
        u32 (f64_trunc (f64_div (f64_of_Z num_slots) factor)) in
    if kHomogeneous then if 8 <=? num_to_add then num_to_add - 8 else num_to_add else num_to_add.

Definition GetNumSlots (num_to_add : Z) : Z :=
  if negb kIsSupported || (num_to_add =? 0) then 0
  else
    let num_to_add := if kHomogeneous then u32 (num_to_add + 8) else num_to_add in
    let log2_num_to_add := log2_of num_to_add in
    let approx_log2_slots := u32 (f64_trunc (f64_add log2_num_to_add f64_half)) in
    let lower_num_to_add := GetNumToAddForPow2 approx_log2_slots in
    if (approx_log2_slots =? 0) || SFeqb lower_num_to_add f64_0 then if kUseSmash then kCoeffBits else 2 * kCoeffBits
    else
      let '(approx_log2_slots, lower_num_to_add, upper_num_to_add) :=
        if SFltb (f64_of_Z num_to_add) lower_num_to_add then (approx_log2_slots - 1, GetNumToAddForPow2 (approx_log2_slots - 1), lower_num_to_add)
        else (approx_log2_slots, lower_num_to_add, GetNumToAddForPow2 (approx_log2_slots + 1)) in
      let upper_portion := f64_div (f64_sub (f64_of_Z num_to_add) lower_num_to_add) (f64_sub upper_num_to_add lower_num_to_add) in
      let lower_num_slots := f64_mul f64_1 (f64_of_Z (Z.shiftl 1 approx_log2_slots)) in
      u32 (f64_trunc (f64_add (f64_add (f64_mul upper_portion lower_num_slots) lower_num_slots) (f64_dec 999999999 9))).
End data.

(** [BandingConfigHelper1TS] *)
Definition GetNumToAdd_TS (kCfc : ConstructionFailureChance) (ts : TypesAndSettings) : (spec_float -> spec_float) -> Z -> Z :=
  GetNumToAdd kCfc (kCoeffBits ts) (kUseSmash ts) (kHomogeneous ts).
Definition GetNumSlots_TS (kCfc : ConstructionFailureChance) (ts : TypesAndSettings) : (spec_float -> spec_float) -> Z -> Z :=
  GetNumSlots kCfc (kCoeffBits ts) (kUseSmash ts) (kHomogeneous ts).
