(* ===== verification/FilterPolicy.v ===== *)
(** * Filter builders and readers (table/block_based/filter_policy.cc)

    The readers [BuiltinFilterPolicy::GetBuiltinFilterBitsReader] makes of a filter, the base class [XXPH3FilterBitsBuilder] of the builders, and
    [FastLocalBloomBitsBuilder] and [LegacyBloomBitsBuilder] with the filters they write. The hash [GetSliceHash64], [std::pow], [std::exp] and [malloc_usable_size] are parameters, the
    size of a cache line also, since filters are read on other machines. The reservation of memory for entries and filters in the block cache has no effect on the filter.
    [None] is an access outside of the filter, or undefined behaviour. *)

From stdpp Require Import prelude.
From Stdlib Require Import ZArith Lia Bool SpecFloat.
From S2P Require Import Prelude Coding Math Hash Status Float64 Bloom Ribbon.

Definition kMetadataLen : Z := 5.
Definition FinishAlwaysFalse : list Z := [].
Definition FinishAlwaysTrue : list Z := [0; 0; 0; 0; 0; 0].

(** The settings of [Standard128RibbonTypesAndSettings]. *)
Definition Standard128Ribbon : TypesAndSettings := mkSettings 128 32 4 8 4 true false true false false.

(** [MultiGetContext::MAX_BATCH_SIZE]. *)
Notation MAX_BATCH_SIZE := 32 (only parsing).

Section filters.
Context `{Port} (GetSliceHash64 : list Z -> Z).

(** ** Readers *)

Inductive FilterBitsReader :=
  | AlwaysTrueFilter
  | AlwaysFalseFilter
  | FastLocalBloomBitsReader (data : list Z) (num_probes len_bytes : Z)
  | LegacyBloomBitsReader (data : list Z) (num_probes num_lines log2_cache_line_size : Z)
  (** The solution, and the raw seed of the hasher. *)
  | Standard128RibbonBitsReader (soln_ : SerializableInterleavedSolution) (hasher_ : Z).
Definition new_Standard128RibbonBitsReader (data : list Z) (len_bytes num_blocks seed : Z) : FilterBitsReader :=
  Standard128RibbonBitsReader (ConfigureForNumBlocks Standard128Ribbon num_blocks (new_soln data len_bytes)) (SetOrdinalSeed Standard128Ribbon seed).

Definition GetRibbonBitsReader (contents : list Z) : FilterBitsReader :=
  let len_with_meta := u32 (zlen contents) in
  let len := u32 (len_with_meta - kMetadataLen) in
  let seed := byte_at contents (len + 1) in
  let num_blocks := byte_at contents (len + 2) in
  let num_blocks := Z.lor num_blocks (Z.shiftl (byte_at contents (len + 3)) 8) in
  let num_blocks := Z.lor num_blocks (Z.shiftl (byte_at contents (len + 4)) 16) in
  if num_blocks <? 2 then AlwaysTrueFilter else new_Standard128RibbonBitsReader contents len num_blocks seed.

Definition GetBloomBitsReader (contents : list Z) : FilterBitsReader :=
  let len_with_meta := u32 (zlen contents) in
  let len := u32 (len_with_meta - kMetadataLen) in
  let sub_impl_val := i8 (byte_at contents (len_with_meta - 4)) in
  let block_and_probes := i8 (byte_at contents (len_with_meta - 3)) in
  let log2_block_bytes := Z.land (Z.shiftr block_and_probes 5) 7 + 6 in
  let num_probes := Z.land block_and_probes 31 in
  if (num_probes <? 1) || (30 <? num_probes) then AlwaysTrueFilter
  else
    let rest := DecodeFixed16 (zdrop (len_with_meta - 2) contents) in
    if negb (rest =? 0) then AlwaysTrueFilter
    else if (sub_impl_val =? 0) && (log2_block_bytes =? 6) then FastLocalBloomBitsReader contents num_probes len
    else AlwaysTrueFilter.

(** The search for the size of a cache line; a shift by 32 is undefined. *)
Fixpoint find_log2 (fuel : nat) (num_lines len log2_cache_line_size : Z) : option Z :=
  match fuel with
  | O => None
  | S fuel =>
      if u32 (Z.shiftl num_lines log2_cache_line_size) <? len then find_log2 fuel num_lines len (log2_cache_line_size + 1)
      else Some log2_cache_line_size
  end.

Definition GetBuiltinFilterBitsReader (CACHE_LINE_SIZE : Z) (contents : list Z) : option FilterBitsReader :=
  let len_with_meta := u32 (zlen contents) in
  if len_with_meta <=? kMetadataLen then Some AlwaysFalseFilter
  else
    let raw_num_probes := i8 (byte_at contents (len_with_meta - kMetadataLen)) in
    if raw_num_probes <? 1 then
      Some (if raw_num_probes =? 0 then AlwaysTrueFilter
            else if raw_num_probes =? -1 then GetBloomBitsReader contents
            else if raw_num_probes =? -2 then GetRibbonBitsReader contents
            else AlwaysTrueFilter)
    else
      let num_probes := raw_num_probes in
      let len := len_with_meta - kMetadataLen in
      let num_lines := DecodeFixed32 (zdrop (len_with_meta - 4) contents) in
      if u32 (num_lines * CACHE_LINE_SIZE) =? len then
        Some (LegacyBloomBitsReader contents num_probes num_lines (ConstexprFloorLog2 4 CACHE_LINE_SIZE))
      else if (num_lines =? 0) || negb (len mod num_lines =? 0) then Some AlwaysTrueFilter
      else
        log2_cache_line_size ← find_log2 32 num_lines len 0;
        Some (if negb (u32 (Z.shiftl num_lines log2_cache_line_size) =? len) then AlwaysTrueFilter
              else LegacyBloomBitsReader contents num_probes num_lines log2_cache_line_size).

(** For [LegacyBloomBitsReader], [HashMayMatch] is not supported and answers false. *)
Definition HashMayMatch (r : FilterBitsReader) (h : Z) : option bool :=
  match r with
  | AlwaysTrueFilter => Some true
  | AlwaysFalseFilter => Some false
  | FastLocalBloomBitsReader data num_probes len_bytes =>
      FastLocalBloomImpl.HashMayMatch (Lower32of64 h) (Upper32of64 h) len_bytes num_probes data
  | LegacyBloomBitsReader _ _ _ _ => Some false
  | Standard128RibbonBitsReader soln_ hasher_ => FilterQuery Standard128Ribbon (Rehash_HashFn Standard128Ribbon) hasher_ h soln_
  end.
Definition MayMatch (r : FilterBitsReader) (key : list Z) : option bool :=
  match r with
  | AlwaysTrueFilter => Some true
  | AlwaysFalseFilter => Some false
  | FastLocalBloomBitsReader data num_probes len_bytes =>
      let h := GetSliceHash64 key in
      let byte_offset := FastLocalBloomImpl.PrepareHash (Lower32of64 h) len_bytes in
      FastLocalBloomImpl.HashMayMatchPrepared (Upper32of64 h) num_probes data byte_offset
  | LegacyBloomBitsReader data num_probes num_lines log2_cache_line_size =>
      let hash := BloomHash key in
      let byte_offset := LegacyLocalityBloomImpl.PrepareHashMayMatch false hash num_lines log2_cache_line_size in
      LegacyLocalityBloomImpl.HashMayMatchPrepared false hash num_probes data byte_offset log2_cache_line_size
  | Standard128RibbonBitsReader soln_ hasher_ => FilterQuery Standard128Ribbon (Rehash_HashFn Standard128Ribbon) hasher_ (GetSliceHash64 key) soln_
  end.
(** Several keys at once: all hashes are prepared in an array of [MAX_BATCH_SIZE] elements ([None]: more are written past its end), then looked up. The
    filters that answer the same for all keys inherit one call for each. *)
Definition MayMatch_batch (r : FilterBitsReader) (keys : list (list Z)) : option (list bool) :=
  match r with
  | AlwaysTrueFilter | AlwaysFalseFilter => mapM (MayMatch r) keys
  | FastLocalBloomBitsReader data num_probes len_bytes =>
      let saved := map (fun key => let h := GetSliceHash64 key in (Upper32of64 h, FastLocalBloomImpl.PrepareHash (Lower32of64 h) len_bytes)) keys in
      if MAX_BATCH_SIZE <? zlen keys then None else mapM (fun '(hash, byte_offset) => FastLocalBloomImpl.HashMayMatchPrepared hash num_probes data byte_offset) saved
  | LegacyBloomBitsReader data num_probes num_lines log2_cache_line_size =>
      let saved := map (fun key => let hash := BloomHash key in (hash, LegacyLocalityBloomImpl.PrepareHashMayMatch false hash num_lines log2_cache_line_size)) keys in
      if MAX_BATCH_SIZE <? zlen keys then None else mapM (fun '(hash, byte_offset) => LegacyLocalityBloomImpl.HashMayMatchPrepared false hash num_probes data byte_offset log2_cache_line_size) saved
  | Standard128RibbonBitsReader soln_ hasher_ =>
      let saved := map (fun key =>
        let hash := GetHash (Rehash_HashFn Standard128Ribbon) hasher_ (GetSliceHash64 key) in (hash, InterleavedPrepareQuery Standard128Ribbon hash soln_)) keys in
      if MAX_BATCH_SIZE <? zlen keys then None else mapM (fun '(seeded_hash, (segment_num, num_columns, start_bits)) =>
        InterleavedFilterQuery Standard128Ribbon seeded_hash segment_num num_columns start_bits soln_) saved
  end.

End filters.

(** ** The base class of the builders *)

Module XXPH3FilterBitsBuilder.
Section builder.
Context `{Port} (GetSliceHash64 : list Z -> Z).
(** [rounding]: whether there is an [aggregate_rounding_balance_]. *)
Record t := mk {
  rounding : bool;
  detect_filter_construct_corruption_ : bool;
  entries : list Z;
  xor_checksum : Z;
}.
Definition new (rounding detect : bool) : t := mk rounding detect [] 0.
Definition set_entries (es : list Z) (x : Z) (s : t) : t := mk (rounding s) (detect_filter_construct_corruption_ s) es x.

Definition AddKey (key : list Z) (s : t) : t :=
  let hash := GetSliceHash64 key in
  if bool_decide (entries s = []) || negb (bool_decide (last (entries s) = Some hash)) then
    set_entries (entries s ++ [hash]) (if detect_filter_construct_corruption_ s then Z.lxor (xor_checksum s) hash else xor_checksum s) s
  else s.
Definition EstimateEntriesAdded (s : t) : Z := zlen (entries s).
Definition ResetEntries (s : t) : t := set_entries [] 0 s.
(** Both builders afterwards. *)
Definition SwapEntriesWith (other s : t) : t * t := (set_entries (entries s) (xor_checksum s) other, set_entries (entries other) (xor_checksum other) s).

Definition MaybeVerifyHashEntriesChecksum (s : t) : Status * t :=
  if negb (detect_filter_construct_corruption_ s) then (St.OK, s)
  else if foldl Z.lxor 0 (entries s) =? xor_checksum s then (St.OK, s)
  else (St.Corruption, ResetEntries s).

(** All hashes are looked up in the finished filter. *)
Fixpoint verify_entries (r : FilterBitsReader) (es : list Z) : option Status :=
  match es with
  | [] => Some St.OK
  | h :: es => m ← HashMayMatch r h; if negb (m : bool) then Some St.Corruption else verify_entries r es
  end.
Definition MaybePostVerify (CACHE_LINE_SIZE : Z) (filter_content : list Z) (s : t) : option (Status * t) :=
  if negb (detect_filter_construct_corruption_ s) then Some (St.OK, s)
  else
    r ← GetBuiltinFilterBitsReader CACHE_LINE_SIZE filter_content;
    st ← verify_entries r (entries s);
    Some (st, ResetEntries s).

(** *** The size of a filter, of what the builder overrides *)

Section allocate.
Context (ROCKSDB_MALLOC_USABLE_SIZE : bool) (malloc_usable_size : Z -> Z).
Context (RoundDownUsableSpace : Z -> Z) (EstimatedFpRate : Z -> Z -> spec_float).
Definition kExtraPadding : Z := 5.
Definition two32 : spec_float := f64_of_Z 0x100000000.
(** The first of the sizes whose rate is good enough, or [None]. *)
Fixpoint first_within (num_entries : Z) (for_balance_fp_rate : spec_float) (maybe_lens_rough : list Z) : option (Z * spec_float) :=
  match maybe_lens_rough with
  | [] => None
  | maybe_len_rough :: rest =>
      let maybe_len_with_metadata := RoundDownUsableSpace (maybe_len_rough + kMetadataLen) in
      let maybe_fp_rate := EstimatedFpRate num_entries maybe_len_with_metadata in
      if SFleb maybe_fp_rate for_balance_fp_rate then Some (maybe_len_with_metadata, maybe_fp_rate)
      else first_within num_entries for_balance_fp_rate rest
  end.
(** The size, and what [*aggregate_rounding_balance_] becomes. *)
Definition AllocateMaybeRounding (balance target_len_with_metadata num_entries : Z) (s : t) : Z * Z :=
  let rv := target_len_with_metadata in
  if ROCKSDB_MALLOC_USABLE_SIZE && rounding s then
    let target_fp_rate := EstimatedFpRate num_entries target_len_with_metadata in
    let '(rv, rv_fp_rate) :=
      if balance <? 0 then
        let for_balance_fp_rate := f64_add (f64_div (f64_of_Z (i64 (- balance))) two32) target_fp_rate in
        let target_len := u64 (target_len_with_metadata - kMetadataLen) in
        default (rv, target_fp_rate)
          (first_within num_entries for_balance_fp_rate
             [u64 (3 * target_len) / 4; u64 (13 * target_len) / 16; u64 (7 * target_len) / 8; u64 (15 * target_len) / 16])
      else (rv, target_fp_rate) in
    let requested := u64 (rv + kExtraPadding) in
    let usable := malloc_usable_size requested in
    let '(rv, rv_fp_rate) :=
      if requested <? u64 (usable - usable / 4) then (rv, rv_fp_rate)
      else if requested <? usable then
        let rv := RoundDownUsableSpace (u64 (usable - kExtraPadding)) in
        (rv, EstimatedFpRate num_entries rv)
      else (rv, rv_fp_rate) in
    let diff := f64_trunc (f64_mul (SFsub 53 1024 rv_fp_rate target_fp_rate) two32) in
    (rv, i64 (balance + diff))
  else (rv, balance).

End allocate.
End builder.
End XXPH3FilterBitsBuilder.

(** ** The builder of FastLocalBloom *)

Module FastLocalBloomBitsBuilder.
Section builder.
Import XXPH3FilterBitsBuilder.
Context (ROCKSDB_MALLOC_USABLE_SIZE : bool) (malloc_usable_size : Z -> Z).
Context (std_pow : spec_float -> spec_float -> spec_float) (std_exp : spec_float -> spec_float).
Record t := mk {
  base :> XXPH3FilterBitsBuilder.t;
  millibits_per_key_ : Z;
}.
Definition new (millibits_per_key : Z) (rounding detect : bool) : t := mk (XXPH3FilterBitsBuilder.new rounding detect) millibits_per_key.

Definition round64 (x : Z) : Z := Z.land x (u64 (Z.lnot 63)).
Definition CalculateSpace (num_entries : Z) (s : t) : Z :=
  let raw_target_len := u64 (u64 (num_entries * millibits_per_key_ s) + 7999) / 8000 in
  let raw_target_len := if 0xffffffc0 <=? raw_target_len then 0xffffffc0 else raw_target_len in
  round64 (raw_target_len + 63) + kMetadataLen.
Definition RoundDownUsableSpace (available_size : Z) : Z :=
  let rv := u64 (available_size - kMetadataLen) in
  let rv := if 0xffffffc0 <=? rv then 0xffffffc0 else rv in
  round64 rv + kMetadataLen.
Definition ApproximateNumEntries (bytes : Z) (s : t) : Z :=
  let bytes_no_meta := if kMetadataLen <=? bytes then RoundDownUsableSpace bytes - kMetadataLen else 0 in
  u64 (8000 * bytes_no_meta) / millibits_per_key_ s.
Definition GetNumProbes (keys len_with_metadata : Z) (s : t) : Z :=
  let millibits := u64 (u64 (len_with_metadata - kMetadataLen) * 8000) in
  let actual_millibits_per_key := i32 (millibits / Z.max keys 1) in
  let actual_millibits_per_key := if negb (rounding s) then millibits_per_key_ s else actual_millibits_per_key in
  FastLocalBloomImpl.ChooseNumProbes actual_millibits_per_key.

(** *** [AddAllEntries]: a buffer of eight prepared hashes, [hashes] and [byte_offsets] *)

Definition kBufferMask : Z := 7.
Definition slot (i : Z) : nat := Z.to_nat (Z.land i kBufferMask).
Record buffer := mkBuffer { hashes : list Z; byte_offsets : list Z }.
Definition prepare (len : Z) (i : Z) (h : Z) (b : buffer) : buffer :=
  mkBuffer (<[slot i := Upper32of64 h]> (hashes b)) (<[slot i := FastLocalBloomImpl.PrepareHash (Lower32of64 h) len]> (byte_offsets b)).
Definition add_slot (num_probes : Z) (i : Z) (b : buffer) (data : list Z) : option (list Z) :=
  h ← hashes b !! slot i;
  o ← byte_offsets b !! slot i;
  FastLocalBloomImpl.AddHashPrepared h num_probes data o.
(** The entries that are left, and their index. *)
Fixpoint prime (len i : Z) (es : list Z) (b : buffer) : list Z * Z * buffer :=
  match es with
  | [] => ([], i, b)
  | h :: es' => if i <=? kBufferMask then prime len (i + 1) es' (prepare len i h b) else (es, i, b)
  end.
Fixpoint process (len num_probes i : Z) (es : list Z) (b : buffer) (data : list Z) : option (buffer * list Z) :=
  match es with
  | [] => Some (b, data)
  | h :: es => data ← add_slot num_probes i b data; process len num_probes (i + 1) es (prepare len i h b) data
  end.
Fixpoint flush (num_probes : Z) (n : nat) (i : Z) (b : buffer) (data : list Z) : option (list Z) :=
  match n with
  | O => Some data
  | S n => data ← add_slot num_probes i b data; flush num_probes n (i + 1) b data
  end.
Definition AddAllEntries (es : list Z) (data : list Z) (len num_probes : Z) : option (list Z) :=
  let '(rest, i, b) := prime len 0 es (mkBuffer (replicate 8 0) (replicate 8 0)) in
  r ← process len num_probes i rest b data;
  flush num_probes (Nat.min 8 (length es)) 0 r.1 r.2.
(** The simple version of its comment. *)
Fixpoint AddAllEntries_simple (es : list Z) (data : list Z) (len num_probes : Z) : option (list Z) :=
  match es with
  | [] => Some data
  | h :: es =>
      data ← FastLocalBloomImpl.AddHash (Lower32of64 h) (Upper32of64 h) len num_probes data;
      AddAllEntries_simple es data len num_probes
  end.

Definition EstimatedFpRate (keys len_with_metadata : Z) (s : t) : spec_float :=
  let num_probes := GetNumProbes keys len_with_metadata s in
  FastLocalBloomImpl.EstimatedFpRate std_pow std_exp keys (u64 (len_with_metadata - kMetadataLen)) num_probes 64.

(** The filter, the status, the builder and the rounding balance afterwards. *)
Definition Finish (balance : Z) (s : t) : option (list Z * Status * t * Z) :=
  let num_entries := zlen (entries s) in
  let len_with_metadata := CalculateSpace num_entries s in
  let '(len_with_metadata, balance) :=
    AllocateMaybeRounding ROCKSDB_MALLOC_USABLE_SIZE malloc_usable_size RoundDownUsableSpace (fun keys len => EstimatedFpRate keys len s)
      balance len_with_metadata num_entries s in
  let num_probes := GetNumProbes num_entries len_with_metadata s in
  let len := u32 (len_with_metadata - kMetadataLen) in
  let buf := replicate (Z.to_nat len_with_metadata) 0 in
  buf ← (if 0 <? len then AddAllEntries (entries s) buf len num_probes else Some buf);
  let '(st, b) := if 0 <? len then MaybeVerifyHashEntriesChecksum s else (St.OK, base s) in
  if negb (St.ok st) then Some (FinishAlwaysTrue, st, mk b (millibits_per_key_ s), balance)
  else
    let b := if detect_filter_construct_corruption_ b then b else ResetEntries b in
    let buf := <[Z.to_nat len := 255]> buf in
    let buf := <[Z.to_nat (len + 1) := 0]> buf in
    let buf := <[Z.to_nat (len + 2) := u8 num_probes]> buf in
    Some (buf, St.OK, mk b (millibits_per_key_ s), balance).

End builder.
End FastLocalBloomBitsBuilder.

(** ** The builder of the legacy filter *)

Module LegacyBloomBitsBuilder.
Section builder.
Context `{Port}.
Record t := mk { bits_per_key_ : Z; num_probes_ : Z; hash_entries_ : list Z }.
Definition new (bits_per_key : Z) : t := mk bits_per_key (LegacyNoLocalityBloomImpl.ChooseNumProbes bits_per_key) [].
Definition AddKey (key : list Z) (s : t) : t :=
  let hash := BloomHash key in
  if bool_decide (hash_entries_ s = []) || negb (bool_decide (last (hash_entries_ s) = Some hash)) then mk (bits_per_key_ s) (num_probes_ s) (hash_entries_ s ++ [hash])
  else s.
Definition EstimateEntriesAdded (s : t) : Z := zlen (hash_entries_ s).

Definition GetTotalBitsForLocality (CACHE_LINE_SIZE total_bits : Z) : Z :=
  let num_lines := u32 (u32 (total_bits + CACHE_LINE_SIZE * 8) - 1) / (CACHE_LINE_SIZE * 8) in
  let num_lines := if num_lines mod 2 =? 0 then u32 (num_lines + 1) else num_lines in
  u32 (num_lines * (CACHE_LINE_SIZE * 8)).
(** The size, [*total_bits] and [*num_lines]. *)
Definition CalculateSpace (CACHE_LINE_SIZE num_entries : Z) (s : t) : Z * Z * Z :=
  let '(total_bits, num_lines) :=
    if negb (num_entries =? 0) then
      let total_bits_tmp := u64 (num_entries * u64 (bits_per_key_ s)) in
      let total_bits_tmp := Z.min total_bits_tmp 0xffff0000 in
      let total_bits := GetTotalBitsForLocality CACHE_LINE_SIZE (u32 total_bits_tmp) in
      (total_bits, total_bits / (CACHE_LINE_SIZE * 8))
    else (0, 0) in
  (u32 (total_bits / 8 + kMetadataLen), total_bits, num_lines).
Fixpoint add_all (CACHE_LINE_SIZE : Z) (s : t) (es : list Z) (num_lines : Z) (data : list Z) : option (list Z) :=
  match es with
  | [] => Some data
  | h :: es =>
      data ← LegacyLocalityBloomImpl.AddHash false h num_lines (num_probes_ s) data (ConstexprFloorLog2 4 CACHE_LINE_SIZE);
      add_all CACHE_LINE_SIZE s es num_lines data
  end.
(** The number of entries is converted to [int] on its way to the size. *)
Definition Finish (CACHE_LINE_SIZE : Z) (s : t) : option (list Z * t) :=
  let num_entries := zlen (hash_entries_ s) in
  let '(sz, total_bits, num_lines) := CalculateSpace CACHE_LINE_SIZE (u64 (i32 num_entries)) s in
  let data := replicate (Z.to_nat sz) 0 in
  data ← (if negb (total_bits =? 0) && negb (num_lines =? 0) then add_all CACHE_LINE_SIZE s (hash_entries_ s) num_lines data else Some data);
  let data := <[Z.to_nat (total_bits / 8) := u8 (num_probes_ s)]> data in
  Some (ztake (total_bits / 8 + 1) data ++ EncodeFixed32 num_lines, mk (bits_per_key_ s) (num_probes_ s) []).
(** The search from [n] down to one; what it answers if no [n] fits is one less. *)
Fixpoint largest_fit (CACHE_LINE_SIZE : Z) (s : t) (fuel : nat) (n bytes : Z) : Z :=
  match fuel with
  | O => n
  | S fuel =>
      if 1 <=? n then
        if (CalculateSpace CACHE_LINE_SIZE n s).1.1 <=? bytes then n else largest_fit CACHE_LINE_SIZE s fuel (u32 (n - 1)) bytes
      else n
  end.
Definition ApproximateNumEntries (CACHE_LINE_SIZE bytes : Z) (s : t) : Z :=
  let total_bits_tmp := Z.min (u64 (bytes * 8)) 0xffff0000 in
  let high := u32 (total_bits_tmp / bits_per_key_ s + 1) in
  largest_fit CACHE_LINE_SIZE s (S (Z.to_nat high)) high bytes.
End builder.
End LegacyBloomBitsBuilder.
