(* ===== verification/FilterProofs.v ===== *)
(** * Filters have no false negatives, from the keys to the reader

    The buffered loop of [AddAllEntries] sets the same bits as the simple one; a finished filter, read on any machine, matches every key that was added to it. *)

From stdpp Require Import prelude.
From Stdlib Require Import ZArith Lia Bool SpecFloat.
From S2P Require Import Prelude Coding Math Hash Status Float64 Bloom BloomProofs Ribbon FilterPolicy.

(** ** Equal bits *)

Lemma bytes_ext (d1 d2 : list Z) : zlen d1 = zlen d2 -> bytes_ok d1 -> bytes_ok d2 -> (forall p, 0 <= p -> bitat d1 p = bitat d2 p) -> d1 = d2.
Proof.
  intros El H1 H2 Hb. apply list_eq. intros i. unfold zlen in El. destruct (decide (i < length d1)%nat) as [Hi|Hi]; [|by rewrite !lookup_ge_None_2 by lia].
  assert (Hz : forall d, (i < length d)%nat -> d !! i = Some (byte_at d (Z.of_nat i))) by (intros d Hd; rewrite <- (Nat2Z.id i) at 1; apply byte_at_lookup; unfold zlen; lia).
  rewrite !Hz by lia. f_equal. apply Z.bits_inj'. intros n Hn. destruct (decide (n < 8)) as [Hlt|Hge].
  - specialize (Hb (8 * Z.of_nat i + n) ltac:(lia)). unfold bitat in Hb. rewrite (Z.mul_comm 8), Z.div_add_l, Z.div_small, Z.add_0_r, Z.add_comm, Z.mod_add, Z.mod_small in Hb by lia. exact Hb.
  - rewrite !(tbit_high _ 8) by (lia || by apply byte_at_byte). done.
Qed.
Lemma adds_unique d d1 d2 ps qs : adds d d1 ps -> adds d d2 qs -> (forall p, p ∈ ps <-> p ∈ qs) -> d1 = d2.
Proof.
  intros (E1 & B1 & H1) (E2 & B2 & H2) Hpq. apply bytes_ext; [congruence|done|done|]. intros p Hp. rewrite H1, H2 by done. f_equal. by apply bool_decide_ext.
Qed.

(** ** The lines of a FastLocalBloom filter *)

Section fast.
Context (len num_probes : Z).
Context (len_lines : len mod 64 = 0) (len_range : 64 <= len < 2 ^ 32).

Lemma line_offset_range h1 : is_u 32 h1 -> 0 <= FastLocalBloomImpl.line_offset h1 len <= len - 64.
Proof.
  intros Hh. unfold FastLocalBloomImpl.line_offset, FastRange32, FastRangeGeneric32, is_u in *. set (n := Z.shiftr len 6).
  assert (Hn : len = 64 * n /\ 0 < n).
  { subst n. rewrite Z.shiftr_div_pow2 by lia. change (2 ^ 6) with 64. pose proof (Z.div_mod len 64 ltac:(lia)). lia. }
  destruct Hn as [El Hn]. assert (0 <= h1 * n < 2 ^ 64) by nia. rewrite u64_small by done. rewrite Z.shiftr_div_pow2 by lia.
  assert (0 <= h1 * n / 2 ^ 32 < n) by (split; [apply Z.div_pos; lia|apply Z.div_lt_upper_bound; nia]).
  rewrite wrapT_small by (change (bits 4) with 32; lia). rewrite Z.shiftl_mul_pow2 by lia. change (2 ^ 6) with 64. rewrite u32_small by lia. lia.
Qed.

(** The bits of an entry. *)
Definition pos (h : Z) : list Z :=
  probes FastLocalBloomImpl.bitpos FastLocalBloomImpl.next (FastLocalBloomImpl.line_offset (Lower32of64 h) len) (Z.to_nat num_probes) (Upper32of64 h).
Lemma pos_within data h : len <= zlen data -> within (FastLocalBloomImpl.line_offset (Lower32of64 h) len) data (pos h).
Proof.
  intros Hl. pose proof (line_offset_range (Lower32of64 h) (u32_range h)). eapply Forall_impl; [apply fast_probes, u32_range|]. intros p Hp. cbn in Hp. lia.
Qed.
Lemma add_entry data h : bytes_ok data -> len <= zlen data ->
  exists d, FastLocalBloomImpl.AddHashPrepared (Upper32of64 h) num_probes data (FastLocalBloomImpl.line_offset (Lower32of64 h) len) = Some d /\ adds data d (pos h).
Proof.
  intros Hd Hl. apply set_probes_adds; [apply line_offset_range, u32_range|done|by apply pos_within].
Qed.
Lemma test_entry data h : len <= zlen data ->
  FastLocalBloomImpl.HashMayMatchPrepared (Upper32of64 h) num_probes data (FastLocalBloomImpl.line_offset (Lower32of64 h) len) = Some (forallb (bitat data) (pos h)).
Proof. intros Hl. apply test_probes_all; [apply line_offset_range, u32_range|by apply pos_within]. Qed.

Notation all_pos es := (flat_map pos es).
Lemma all_pos_elem p es : p ∈ all_pos es <-> exists h, h ∈ es /\ p ∈ pos h.
Proof. rewrite list_elem_of_In, in_flat_map. setoid_rewrite <- list_elem_of_In. done. Qed.

Lemma simple_adds es : forall data, bytes_ok data -> len <= zlen data ->
  exists d, FastLocalBloomBitsBuilder.AddAllEntries_simple es data len num_probes = Some d /\ adds data d (all_pos es).
Proof.
  induction es as [|h es IH]; intros data Hd Hl; cbn [FastLocalBloomBitsBuilder.AddAllEntries_simple flat_map]; [exists data; split; [done|by apply adds_refl]|].
  unfold FastLocalBloomImpl.AddHash. destruct (add_entry data h Hd Hl) as (d1 & -> & Ha). cbn [mbind option_bind].
  destruct (IH d1) as (d2 & -> & Ha2); [apply Ha|destruct Ha as [-> _]; done|]. exists d2. split; [done|]. by eapply adds_trans.
Qed.

(** *** The buffer *)

Import FastLocalBloomBitsBuilder.
Definition holds (b : buffer) (q : list Z) : Prop :=
  length (hashes b) = 8%nat /\ length (byte_offsets b) = 8%nat /\ (length q <= 8)%nat /\
  forall j h, q !! j = Some h -> hashes b !! j = Some (Upper32of64 h) /\ byte_offsets b !! j = Some (FastLocalBloomImpl.line_offset (Lower32of64 h) len).

Lemma slot_mod i : 0 <= i -> slot i = (Z.to_nat i mod 8)%nat.
Proof. intros Hi. unfold slot, kBufferMask. change 7 with (2 ^ 3 - 1). rewrite land_ones_mod by lia. change (2 ^ 3) with 8. rewrite Z2Nat.inj_mod by lia. done. Qed.
Lemma holds_prepare b q i h : holds b q -> (slot i < length q)%nat -> holds (prepare len i h b) (<[slot i := h]> q).
Proof.
  intros (E1 & E2 & E3 & Hq) Hi. unfold prepare. split_and!; cbn; rewrite ?length_insert; try done. intros j h' Hj. destruct (decide (j = slot i)) as [->|Hne].
  - rewrite list_lookup_insert_eq in Hj by done. injection Hj as <-. rewrite !list_lookup_insert_eq by lia. done.
  - rewrite list_lookup_insert_ne in Hj by done. rewrite !list_lookup_insert_ne by done. by apply Hq.
Qed.
Lemma holds_snoc b q h : holds b q -> (length q < 8)%nat -> holds (prepare len (Z.of_nat (length q)) h b) (q ++ [h]).
Proof.
  intros (E1 & E2 & E3 & Hq) Hl. unfold prepare. rewrite slot_mod, Nat2Z.id, Nat.mod_small by lia. split_and!; cbn; rewrite ?length_insert, ?length_app; try done; [cbn; lia|].
  intros j h' [Hj|[Hge Hj]]%lookup_app_Some.
  - pose proof (lookup_lt_Some _ _ _ Hj). rewrite !list_lookup_insert_ne by lia. by apply Hq.
  - apply list_lookup_singleton_Some in Hj as [Hz <-]. replace j with (length q) by lia. rewrite !list_lookup_insert_eq by lia. done.
Qed.
Lemma add_slot_adds b q i h data : holds b q -> q !! slot i = Some h -> bytes_ok data -> len <= zlen data ->
  exists d, add_slot num_probes i b data = Some d /\ adds data d (pos h).
Proof. intros (_ & _ & _ & Hq) Hh Hd Hl. unfold add_slot. destruct (Hq _ _ Hh) as [-> ->]. cbn [mbind option_bind]. by apply add_entry. Qed.

Lemma prime_holds es : forall q b, holds b q ->
  let '(rest, i, b') := prime len (Z.of_nat (length q)) es b in
  exists q', holds b' q' /\ q ++ es = q' ++ rest /\ i = Z.of_nat (length q') /\ (rest = [] \/ length q' = 8%nat) /\ length q' = Nat.min 8 (length (q ++ es)).
Proof.
  induction es as [|h es IH]; intros q b Hb; cbn [prime].
  - exists q. rewrite !app_nil_r. split; [exact Hb|]. split_and!; [done|done|by left|]. destruct Hb as (_ & _ & ? & _). lia.
  - unfold kBufferMask. destruct (Z.leb_spec (Z.of_nat (length q)) 7).
    + specialize (IH (q ++ [h]) (prepare len (Z.of_nat (length q)) h b) (holds_snoc b q h Hb ltac:(lia))). rewrite length_app in IH. cbn [length] in IH.
      replace (Z.of_nat (length q + 1)) with (Z.of_nat (length q) + 1) in IH by lia. by rewrite <- app_assoc in IH.
    + pose proof Hb as (_ & _ & ? & _). exists q. split; [exact Hb|]. split_and!; [done|done|right; lia|rewrite Nat.min_l by (rewrite length_app; lia); lia].
Qed.
Lemma process_adds es : forall i b q data, holds b q -> length q = 8%nat -> 0 <= i -> bytes_ok data -> len <= zlen data ->
  exists b' q' d ps, process len num_probes i es b data = Some (b', d) /\ holds b' q' /\ length q' = 8%nat /\ adds data d ps /\
    forall p, p ∈ ps \/ p ∈ all_pos q' <-> p ∈ all_pos q \/ p ∈ all_pos es.
Proof.
  induction es as [|h es IH]; intros i b q data Hb Hq Hi Hd Hl; cbn [process].
  - exists b, q, data, []. split; [done|]. split; [exact Hb|]. split; [done|]. split; [by apply adds_refl|]. intros p. cbn. rewrite !elem_of_nil. tauto.
  - assert (Hs : (slot i < length q)%nat) by (rewrite Hq, slot_mod by done; apply Nat.mod_upper_bound; lia). destruct (lookup_lt_is_Some_2 q (slot i) Hs) as [h0 Eh].
    destruct (add_slot_adds b q i h0 data Hb Eh Hd Hl) as (d1 & -> & Ha). cbn [mbind option_bind].
    destruct (IH (i + 1) _ _ d1 (holds_prepare b q i h Hb Hs)) as (b' & q' & d & ps & -> & Hb' & Hq' & Ha' & Hp); [by rewrite length_insert|lia|apply Ha|destruct Ha as [-> _]; done|].
    exists b', q', d, (pos h0 ++ ps). split; [done|]. split; [exact Hb'|]. split; [done|]. split; [by eapply adds_trans|]. intros p. specialize (Hp p). cbn [flat_map].
    assert (Eq : all_pos q = all_pos (take (slot i) q) ++ pos h0 ++ all_pos (drop (S (slot i)) q)) by (rewrite <- (take_drop_middle q (slot i) h0 Eh) at 1; by rewrite flat_map_app).
    rewrite (insert_take_drop q (slot i) h Hs), flat_map_app in Hp. cbn [flat_map] in Hp. rewrite Eq. rewrite !elem_of_app in *. tauto.
Qed.
Lemma flush_adds n : forall i b q data, holds b q -> (Z.to_nat i + n = length q)%nat -> 0 <= i -> bytes_ok data -> len <= zlen data ->
  exists d, flush num_probes n i b data = Some d /\ adds data d (all_pos (drop (Z.to_nat i) q)).
Proof.
  induction n as [|n IH]; intros i b q data Hb Hn Hi Hd Hl; cbn [flush].
  - exists data. split; [done|]. rewrite drop_ge by lia. by apply adds_refl.
  - destruct (lookup_lt_is_Some_2 q (Z.to_nat i)) as [h Eh]; [lia|]. assert (Es : slot i = Z.to_nat i) by (rewrite slot_mod by done; apply Nat.mod_small; destruct Hb as (_ & _ & ? & _); lia).
    destruct (add_slot_adds b q i h data Hb) as (d1 & -> & Ha); [by rewrite Es|done|done|]. cbn [mbind option_bind].
    destruct (IH (i + 1) b q d1 Hb) as (d & -> & Ha'); [lia|lia|apply Ha|destruct Ha as [-> _]; done|]. exists d. split; [done|]. rewrite (drop_S q h) by done. cbn [flat_map].
    replace (Z.to_nat (i + 1)) with (S (Z.to_nat i)) in Ha' by lia. by eapply adds_trans.
Qed.

Lemma AddAllEntries_adds es data : bytes_ok data -> len <= zlen data ->
  exists d ps, AddAllEntries es data len num_probes = Some d /\ adds data d ps /\ forall p, p ∈ ps <-> p ∈ all_pos es.
Proof.
  intros Hd Hl. unfold AddAllEntries. assert (H0 : holds (mkBuffer (replicate 8 0) (replicate 8 0)) []) by (split_and!; [done|done|cbn; lia|done]).
  pose proof (prime_holds es [] _ H0) as Hpr. change (Z.of_nat (length [])) with 0 in Hpr. change ([] ++ es) with es in Hpr. destruct (prime len 0 es (mkBuffer (replicate 8 0) (replicate 8 0))) as [[rest i] b]. cbv beta iota. destruct Hpr as (q & Hb & -> & -> & Hrest & Hlen).
  destruct Hrest as [->|H8].
  - cbn [process mbind option_bind fst snd]. rewrite app_nil_r in *. rewrite <- Hlen. destruct (flush_adds (length q) 0 b q data Hb) as (d & -> & Ha); [done|lia|done|done|]. by exists d, (all_pos q).
  - destruct (process_adds rest (Z.of_nat (length q)) b q data Hb H8 ltac:(lia) Hd Hl) as (b' & q' & d1 & ps & -> & Hb' & Hq' & Ha & Hp). cbn [mbind option_bind fst snd].
    replace (Nat.min 8 (length (q ++ rest))) with (length q') by lia. destruct (flush_adds (length q') 0 b' q' d1 Hb') as (d & -> & Ha'); [done|lia|apply Ha|destruct Ha as [-> _]; done|].
    exists d, (ps ++ all_pos q'). split; [done|]. split; [by eapply adds_trans|]. intros p. rewrite flat_map_app, !elem_of_app. apply Hp.
Qed.
End fast.

(** The loop that adds all hashes to a filter, through a buffer of eight prepared ones, writes exactly what the simple loop that adds them one after the
    other writes, and stays within the filter. *)
Theorem add_all_entries_equiv es data len num_probes : bytes_ok data -> len mod 64 = 0 -> 64 <= len < 2 ^ 32 -> len <= zlen data ->
  exists d, FastLocalBloomBitsBuilder.AddAllEntries es data len num_probes = Some d /\ FastLocalBloomBitsBuilder.AddAllEntries_simple es data len num_probes = Some d.
Proof.
  intros Hd Hm Hr Hl. destruct (AddAllEntries_adds len num_probes Hm Hr es data Hd Hl) as (d & ps & E & Ha & Hp).
  destruct (simple_adds len num_probes Hm Hr es data Hd Hl) as (d' & E' & Ha'). exists d. split; [done|]. rewrite E'. f_equal. symmetry. by eapply adds_unique.
Qed.
Lemma add_all_entries_equiv_witness : exists d,
  FastLocalBloomBitsBuilder.AddAllEntries [1; 2 ^ 40 + 5; 3] (replicate 69 0) 64 6 = Some d /\ FastLocalBloomBitsBuilder.AddAllEntries_simple [1; 2 ^ 40 + 5; 3] (replicate 69 0) 64 6 = Some d.
Proof. apply (add_all_entries_equiv [1; 2 ^ 40 + 5; 3] (replicate 69 0) 64 6); [by apply Forall_replicate|done..]. Defined.

(** ** From the keys to the reader *)

Lemma choose_probes_range m : 1 <= FastLocalBloomImpl.ChooseNumProbes m <= 24.
Proof.
  unfold FastLocalBloomImpl.ChooseNumProbes. repeat (case_match; [lia|]). rewrite Z.quot_div_nonneg by lia.
  assert (12 <= (m - 1) / 2000 < 25) by (split; [apply Z.div_le_lower_bound; lia|apply Z.div_lt_upper_bound; lia]). lia.
Qed.
Lemma round64_spec x : 0 <= x < 2 ^ 64 -> FastLocalBloomBitsBuilder.round64 x = 64 * (x / 64).
Proof.
  intros Hx. unfold FastLocalBloomBitsBuilder.round64. apply Z.bits_inj'. intros n Hn. rewrite Z.land_spec, (Z.mul_comm 64). change 64 with (2 ^ 6) at 1 2. rewrite <- Z.shiftr_div_pow2, <- Z.shiftl_mul_pow2 by lia.
  rewrite Z.shiftl_spec by done. unfold u64. rewrite tbit_mod, Z.lnot_spec by lia. change 63 with (2 ^ 6 - 1). rewrite tbit_ones by lia.
  destruct (decide (n < 6)) as [Hl|Hl].
  - rewrite (Z.testbit_neg_r _ (n - 6)) by lia. rewrite (proj2 (Z.leb_le 0 n)), (proj2 (Z.ltb_lt n 6)) by lia. by rewrite !andb_false_r.
  - rewrite Z.shiftr_spec by lia. replace (n - 6 + 6) with n by lia. rewrite (proj2 (Z.ltb_ge n 6)) by lia. rewrite andb_false_r. cbn [negb]. rewrite andb_true_r.
    destruct (Z.ltb_spec n 64); [by rewrite andb_true_r|]. rewrite (tbit_high x 64) by lia. done.
Qed.

(** ** The base class *)

Section base.
Context `{Port} (GetSliceHash64 : list Z -> Z).
Import XXPH3FilterBitsBuilder.

Definition with_keys (s : t) (keys : list (list Z)) : t := foldl (fun s k => AddKey GetSliceHash64 k s) s keys.
(** The entries are the hashes of the keys, and the checksum is theirs. *)
Record added (s0 s : t) (keys : list (list Z)) : Prop := {
  ad_entries h : h ∈ entries s <-> exists k, k ∈ keys /\ GetSliceHash64 k = h;
  ad_length : (length (entries s) <= length keys)%nat;
  ad_checksum : detect_filter_construct_corruption_ s = true -> foldl Z.lxor 0 (entries s) = xor_checksum s;
  ad_same : rounding s = rounding s0 /\ detect_filter_construct_corruption_ s = detect_filter_construct_corruption_ s0;
}.
Lemma with_keys_added r d keys : added (new r d) (with_keys (new r d) keys) keys.
Proof.
  induction keys as [|k keys IH] using rev_ind.
  - split; [|done|done|done]. intros h. split; [by intros ?%not_elem_of_nil|]. by intros (? & ?%not_elem_of_nil & _).
  - unfold with_keys in *. rewrite foldl_snoc. destruct IH as [He Hl Hc Hs]. set (s := foldl _ _ keys) in *.
    assert (Hsn : forall h, (exists k', k' ∈ keys ++ [k] /\ GetSliceHash64 k' = h) <-> h ∈ entries s \/ h = GetSliceHash64 k).
    { intros h. rewrite He. setoid_rewrite elem_of_app. setoid_rewrite list_elem_of_singleton. naive_solver. }
    unfold AddKey. destruct (bool_decide (entries s = []) || _) eqn:Eb.
    + split; cbn [set_entries entries xor_checksum rounding detect_filter_construct_corruption_]; [| |intros Hd|done].
      * intros h. rewrite Hsn, elem_of_app, list_elem_of_singleton. done.
      * rewrite !length_app. cbn. lia.
      * rewrite foldl_snoc, Hd, Hc by done. done.
    + apply orb_false_iff in Eb as [_ Eb%negb_false_iff%bool_decide_eq_true]. split; [|rewrite length_app; lia|done|done].
      intros h. rewrite Hsn. split; [by left|]. intros [?| ->]; [done|]. by apply last_Some_elem_of.
Qed.
Lemma added_nonempty s0 s keys : added s0 s keys -> keys <> [] -> 0 < zlen (entries s) <= zlen keys.
Proof.
  intros [He Hl _ _] Hk. unfold zlen. destruct keys as [|k keys]; [done|]. assert (Hin : GetSliceHash64 k ∈ entries s) by (apply He; exists k; split; [constructor|done]).
  destruct (entries s); [by apply not_elem_of_nil in Hin|]. cbn [length] in *. lia.
Qed.
Lemma added_verified s0 s keys : added s0 s keys -> MaybeVerifyHashEntriesChecksum s = (St.OK, s).
Proof. intros [_ _ Hc _]. unfold MaybeVerifyHashEntriesChecksum. destruct (detect_filter_construct_corruption_ s); [|done]. cbn [negb]. rewrite Hc by done. by rewrite Z.eqb_refl. Qed.

Lemma verify_all r es : (forall h, h ∈ es -> HashMayMatch r h = Some true) -> verify_entries r es = Some St.OK.
Proof.
  induction es as [|h es IH]; [done|]. intros He. cbn [verify_entries]. rewrite He by constructor. cbn. apply IH. intros h' Hh'. apply He. by constructor.
Qed.
Lemma post_verify CLS filter r s : GetBuiltinFilterBitsReader CLS filter = Some r -> (detect_filter_construct_corruption_ s = true -> forall h, h ∈ entries s -> HashMayMatch r h = Some true) ->
  exists s', MaybePostVerify CLS filter s = Some (St.OK, s').
Proof. intros Er Hh. unfold MaybePostVerify. destruct (detect_filter_construct_corruption_ s); cbn [negb]; [|by eexists]. rewrite Er. cbn [mbind option_bind]. rewrite verify_all by auto. by eexists. Qed.

(** A property that all rounded sizes of at least [unit] have holds of the allocated size, if the target is twice as long. *)
Section allocate.
Context (ROCKSDB_MALLOC_USABLE_SIZE : bool) (malloc_usable_size : Z -> Z) (usable_size_ge : forall x, 0 <= x < 2 ^ 33 -> x <= malloc_usable_size x < 2 ^ 64).
Context (RoundDownUsableSpace : Z -> Z) (EstimatedFpRate : Z -> Z -> spec_float).
Context (P : Z -> Prop) (unit target : Z) (unit_range : 16 <= unit) (target_range : unit + kMetadataLen <= target < 2 ^ 32 + 64) (target_P : P target).
Context (rounds : forall x, unit + kMetadataLen <= x <= 2 * target -> P (RoundDownUsableSpace x) /\ unit + kMetadataLen <= RoundDownUsableSpace x <= x).

Lemma first_within_P n rate l : Forall (fun x => unit <= x <= target - kMetadataLen) l -> forall r, first_within RoundDownUsableSpace EstimatedFpRate n rate l = Some r -> P r.1 /\ unit + kMetadataLen <= r.1 <= target.
Proof using rounds unit_range target_range.
  unfold kMetadataLen in *. induction 1 as [|x l Hx _ IH]; intros r; cbn [first_within]; [done|]. case_match; [|apply IH]. intros [= <-]. cbn [fst]. unfold kMetadataLen. destruct (rounds (x + 5) ltac:(lia)). split; [done|lia].
Qed.
Lemma AllocateMaybeRounding_P balance n s : (ROCKSDB_MALLOC_USABLE_SIZE = true -> rounding s = true -> 2 * unit <= target - kMetadataLen) ->
  P (AllocateMaybeRounding ROCKSDB_MALLOC_USABLE_SIZE malloc_usable_size RoundDownUsableSpace EstimatedFpRate balance target n s).1.
Proof using usable_size_ge rounds unit_range target_range target_P.
  intros H2. unfold AllocateMaybeRounding, kMetadataLen in *. destruct ROCKSDB_MALLOC_USABLE_SIZE; [|done]. destruct (rounding s); [|done]. specialize (H2 eq_refl eq_refl). cbn [andb]. cbv zeta.
  match goal with |- context [let '(rv, rate) := ?p in _] => assert (Hp : P p.1 /\ unit + 5 <= p.1 <= target); [|destruct p as [rv rate]; cbn [fst] in Hp] end.
  { destruct (balance <? 0); [|cbn; split; [done|lia]]. rewrite (u64_small (target - 5)), !(u64_small (_ * (target - 5))) by lia.
    destruct (first_within _ _ _ _ _) as [r|] eqn:Er; [|cbn; split; [done|lia]]. cbn [default]. eapply first_within_P; [|exact Er]. unfold kMetadataLen.
    repeat (constructor; [split; [apply Z.div_le_lower_bound; lia|apply Z.div_le_upper_bound; lia]|]). constructor. }
  destruct Hp as [HP Hr]. unfold kExtraPadding. rewrite (u64_small (rv + 5)) by lia. set (requested := rv + 5). pose proof (usable_size_ge requested ltac:(lia)) as Hu.
  set (usable := malloc_usable_size requested) in *. assert (0 <= usable / 4 <= usable) by (split; [apply Z.div_pos; lia|apply Z.div_le_upper_bound; lia]). rewrite (u64_small (usable - usable / 4)) by lia.
  destruct (Z.ltb_spec requested (usable - usable / 4)); [done|]. destruct (Z.ltb_spec requested usable); [|done]. rewrite (u64_small (usable - 5)) by lia. cbn [fst]. apply rounds. Z.to_euclidean_division_equations; lia.
Qed.
End allocate.
End base.

Section whole.
Context `{Port} (GetSliceHash64 : list Z -> Z).
Context (ROCKSDB_MALLOC_USABLE_SIZE : bool) (malloc_usable_size : Z -> Z) (usable_size_ge : forall x, 0 <= x < 2 ^ 33 -> x <= malloc_usable_size x < 2 ^ 64).
Context (std_pow : spec_float -> spec_float -> spec_float) (std_exp : spec_float -> spec_float).
Import XXPH3FilterBitsBuilder FastLocalBloomBitsBuilder.
Notation t := FastLocalBloomBitsBuilder.t.
Notation with_keys := (with_keys GetSliceHash64).
Notation Finish := (FastLocalBloomBitsBuilder.Finish ROCKSDB_MALLOC_USABLE_SIZE malloc_usable_size std_pow std_exp).

(** The size: at least a cache line, and a whole number of them. *)
Definition lines (l : Z) : Prop := exists m, 1 <= m <= 0x3ffffff /\ l = 64 * m + kMetadataLen.
Lemma CalculateSpace_lines n s : 0 < n < 2 ^ 40 -> 1000 <= millibits_per_key_ s <= 100000 -> lines (CalculateSpace n s).
Proof.
  intros Hn Hm. unfold CalculateSpace. assert (1000 <= n * millibits_per_key_ s < 2 ^ 57) by nia. rewrite (u64_small (n * _)), u64_small by lia.
  set (raw := (n * millibits_per_key_ s + 7999) / 8000). assert (Hr : 1 <= raw < 2 ^ 57) by (subst raw; split; [apply Z.div_le_lower_bound; lia|apply Z.div_lt_upper_bound; lia]).
  destruct (Z.leb_spec 0xffffffc0 raw); rewrite round64_spec by lia.
  - exists 0x3ffffff. by split.
  - exists ((raw + 63) / 64). split; [|done]. split; [apply Z.div_le_lower_bound; lia|]. assert ((raw + 63) / 64 < 0x3ffffff + 1) by (apply Z.div_lt_upper_bound; lia). lia.
Qed.

Lemma RoundDownUsableSpace_lines x : 64 + kMetadataLen <= x < 2 ^ 64 -> lines (RoundDownUsableSpace x) /\ 64 + kMetadataLen <= RoundDownUsableSpace x <= x.
Proof.
  unfold RoundDownUsableSpace, kMetadataLen. intros Hx. rewrite u64_small by lia. destruct (Z.leb_spec 0xffffffc0 (x - 5)); rewrite round64_spec by lia.
  - split; [exists 0x3ffffff; by split|]. change (64 * (0xffffffc0 / 64)) with 0xffffffc0. lia.
  - assert (1 <= (x - 5) / 64 < 0x3ffffff) by (split; [apply Z.div_le_lower_bound; lia|apply Z.div_lt_upper_bound; lia]). split; [exists ((x - 5) / 64); split; [lia|done]|].
    pose proof (Z.mul_div_le (x - 5) 64 ltac:(lia)). lia.
Qed.
Lemma byte_at_zeros n i : byte_at (replicate n 0) i = 0.
Proof. unfold byte_at. rewrite nth_lookup. destruct (replicate n 0 !! _) as [x|] eqn:E; [|done]. by apply lookup_replicate in E as [-> _]. Qed.
Lemma adds_byte d d' ps i : bytes_ok d -> adds d d' ps -> 0 <= i -> (forall p, p ∈ ps -> p / 8 <> i) -> byte_at d' i = byte_at d i.
Proof.
  intros Hd (_ & Hd' & Hb) Hi Hp. apply Z.bits_inj'. intros n Hn. destruct (decide (n < 8)) as [Hlt|Hge]; [|by rewrite !(tbit_high _ 8) by (lia || by apply byte_at_byte)].
  specialize (Hb (8 * i + n) ltac:(lia)). unfold bitat in Hb. rewrite (Z.mul_comm 8), Z.div_add_l, (Z.div_small n), Z.add_0_r, (Z.add_comm _ n), Z.mod_add, (Z.mod_small n) in Hb by lia.
  rewrite Hb, bool_decide_false, orb_false_r; [done|]. intros Hin. apply (Hp _ Hin). rewrite Z.div_add, Z.div_small by lia. done.
Qed.

Lemma probes_byte np : 1 <= np <= 24 -> i8 np = np /\ Z.land np 31 = np /\ Z.land (Z.shiftr np 5) 7 = 0.
Proof.
  intros Hnp. assert (Hall : Forall (fun np => i8 np = np /\ Z.land np 31 = np /\ Z.land (Z.shiftr np 5) 7 = 0) (map Z.of_nat (seq 1 24))) by (repeat constructor).
  rewrite Forall_forall in Hall. apply Hall, list_elem_of_In, in_map_iff. exists (Z.to_nat np). split; [lia|]. apply in_seq. lia.
Qed.
Lemma insert_bytes_ok d i x : is_byte x -> bytes_ok d -> bytes_ok (<[i := x]> d).
Proof. intros Hx Hd. by apply Forall_insert. Qed.
Lemma fixed16_zero d o : bytes_ok d -> 0 <= o -> o + 2 <= zlen d -> byte_at d o = 0 -> byte_at d (o + 1) = 0 -> DecodeFixed16 (zdrop o d) = 0.
Proof.
  intros Hd Ho Hl H0 H1. pose proof (byte_at_lookup d o ltac:(lia)) as E0. pose proof (byte_at_lookup d (o + 1) ltac:(lia)) as E1.
  rewrite H0 in E0. rewrite H1, Z2Nat.inj_add in E1 by lia. unfold zdrop. rewrite (drop_S _ _ _ E0). change (Z.to_nat 1) with 1%nat in E1. rewrite Nat.add_1_r in E1. rewrite (drop_S _ _ _ E1).
  rewrite DecodeFixed16_eq; [done| |cbn; lia]. cbn. by repeat constructor.
Qed.

(** A filter of [m] lines with the entries [es], and what the reader makes of it. *)
Lemma filter_read CLS m np es d : 1 <= m <= 0x3ffffff -> 1 <= np <= 24 -> AddAllEntries es (replicate (Z.to_nat (64 * m + kMetadataLen)) 0) (64 * m) np = Some d ->
  let filter := <[Z.to_nat (64 * m + 2) := u8 np]> (<[Z.to_nat (64 * m + 1) := 0]> (<[Z.to_nat (64 * m) := 255]> d)) in
  GetBuiltinFilterBitsReader CLS filter = Some (FastLocalBloomBitsReader filter np (64 * m)) /\
  forall h, h ∈ es -> FastLocalBloomImpl.HashMayMatchPrepared (Upper32of64 h) np filter (FastLocalBloomImpl.line_offset (Lower32of64 h) (64 * m)) = Some true.
Proof.
  intros Hm Hnp Eadd filter. unfold kMetadataLen in *. set (len := 64 * m) in *. assert (Hmod : len mod 64 = 0) by (subst len; rewrite Z.mul_comm; by apply Z.mod_mul).
  assert (Hr : 64 <= len < 2 ^ 32 - 5) by (subst len; lia). set (z := replicate (Z.to_nat (len + 5)) 0) in *.
  assert (Hz : bytes_ok z) by (by apply Forall_replicate). assert (Ez : zlen z = len + 5) by (unfold zlen, z; rewrite length_replicate; lia).
  destruct (AddAllEntries_adds len np Hmod ltac:(lia) es z Hz ltac:(lia)) as (d' & ps & Ed & Ha & Hps). rewrite Eadd in Ed. injection Ed as <-.
  assert (Hlow : forall p, p ∈ ps -> 0 <= p / 8 < len).
  { intros p Hp. apply Hps, all_pos_elem in Hp as (h & _ & Hp). pose proof (line_offset_range len Hmod ltac:(lia) (Lower32of64 h) (u32_range h)) as Ho.
    pose proof (fast_probes (FastLocalBloomImpl.line_offset (Lower32of64 h) len) (Z.to_nat np) (Upper32of64 h) ltac:(apply u32_range)) as Hf.
    rewrite Forall_forall in Hf. specialize (Hf p Hp). cbn in Hf. split; [apply Z.div_pos; lia|apply Z.div_lt_upper_bound; lia]. }
  assert (El : zlen d = len + 5) by (destruct Ha as [-> _]; done).
  assert (Ef : zlen filter = len + 5) by (unfold filter, zlen; rewrite !length_insert; exact El).
  assert (Hat : forall i, 0 <= i -> byte_at filter i = if decide (i = len + 2) then u8 np else if decide (i = len + 1) then 0 else if decide (i = len) then 255 else byte_at d i).
  { intros i Hi. unfold filter. rewrite !byte_at_set by (unfold zlen in *; rewrite ?length_insert; lia). done. }
  assert (Hmeta : forall i, len <= i -> byte_at d i = 0).
  { intros i Hi. rewrite (adds_byte z d ps i Hz Ha); [apply byte_at_zeros|lia|]. intros p Hp. specialize (Hlow p Hp). lia. }
  split.
  - unfold GetBuiltinFilterBitsReader, kMetadataLen. rewrite Ef, u32_small by lia. rewrite (proj2 (Z.leb_gt (len + 5) 5)) by lia. replace (len + 5 - 5) with len by lia.
    rewrite (Hat len) by lia. rewrite !decide_False, decide_True by lia. change (i8 255) with (-1). cbn [Z.ltb Z.eqb Z.compare Pos.eqb]. f_equal.
    unfold GetBloomBitsReader, kMetadataLen. rewrite Ef, (u32_small (len + 5)) by lia. replace (len + 5 - 5) with len by lia. rewrite u32_small by lia.
    replace (len + 5 - 4) with (len + 1) by lia. replace (len + 5 - 3) with (len + 2) by lia. replace (len + 5 - 2) with (len + 3) by lia. rewrite (Hat (len + 1)), (Hat (len + 2)) by lia.
    rewrite (decide_False (P := len + 1 = len + 2)), !decide_True by lia. rewrite (u8_small np) by lia.
    destruct (probes_byte np Hnp) as (-> & -> & ->). rewrite (proj2 (Z.ltb_ge np 1)), (proj2 (Z.ltb_ge 30 np)) by lia. cbn [orb].
    assert (Erest : DecodeFixed16 (zdrop (len + 3) filter) = 0).
    { apply fixed16_zero; [repeat (apply insert_bytes_ok; [first [apply u8_range|done]|]); apply Ha|lia|lia| |].
      - rewrite Hat by lia. rewrite !decide_False by lia. apply Hmeta; lia.
      - rewrite Hat by lia. rewrite !decide_False by lia. apply Hmeta; lia. }
    rewrite Erest. done.
  - intros h Hh. rewrite (test_entry len np Hmod) by lia. f_equal. apply forallb_forall. intros p Hp%list_elem_of_In. assert (Hin : p ∈ ps) by (apply Hps, all_pos_elem; by exists h).
    pose proof (Hlow p Hin). unfold bitat. rewrite Hat by lia. rewrite !decide_False by lia. destruct Ha as (_ & _ & Hb). fold (bitat d p). rewrite Hb by (Z.to_euclidean_division_equations; lia).
    rewrite bool_decide_true, orb_true_r by done. done.
Qed.

Lemma Finish_spec balance s0 (s : t) keys : added GetSliceHash64 s0 s keys -> keys <> [] -> zlen keys < 2 ^ 40 -> 1000 <= millibits_per_key_ s <= 100000 ->
  (ROCKSDB_MALLOC_USABLE_SIZE = true -> rounding s = true -> 64 < CalculateSpace (zlen (entries s)) s - kMetadataLen) ->
  exists m np d balance', 1 <= m <= 0x3ffffff /\ 1 <= np <= 24 /\ AddAllEntries (entries s) (replicate (Z.to_nat (64 * m + kMetadataLen)) 0) (64 * m) np = Some d /\
    Finish balance s = Some (<[Z.to_nat (64 * m + 2) := u8 np]> (<[Z.to_nat (64 * m + 1) := 0]> (<[Z.to_nat (64 * m) := 255]> d)), St.OK,
      FastLocalBloomBitsBuilder.mk (if detect_filter_construct_corruption_ s then base s else ResetEntries s) (millibits_per_key_ s), balance').
Proof using usable_size_ge.
  intros Ha Hk Hkl Hm Hr. pose proof (added_nonempty _ _ _ _ Ha Hk) as Hn. pose proof (CalculateSpace_lines (zlen (entries s)) s ltac:(lia) Hm) as Hl. unfold FastLocalBloomBitsBuilder.Finish.
  match goal with |- context [AllocateMaybeRounding ?a ?b ?c ?d ?e ?f ?g ?h] => assert (Hlw : lines (AllocateMaybeRounding a b c d e f g h).1); [|destruct (AllocateMaybeRounding a b c d e f g h) as [len balance']] end.
  { destruct Hl as (m0 & Hm0 & E0). rewrite E0 in Hr |- *. unfold kMetadataLen in *. apply (AllocateMaybeRounding_P _ _ usable_size_ge _ _ lines 64); unfold kMetadataLen; [lia|lia|by exists m0| |].
    - intros x Hx. apply RoundDownUsableSpace_lines. unfold kMetadataLen. lia.
    - intros Hx Hy. specialize (Hr Hx Hy). lia. }
  cbn [fst] in Hlw. destruct Hlw as (m & Hmr & ->). set (np := GetNumProbes _ _ s). assert (Hnp : 1 <= np <= 24) by apply choose_probes_range.
  unfold kMetadataLen in *. rewrite (u32_small (64 * m + 5 - 5)) by lia. replace (64 * m + 5 - 5) with (64 * m) by lia.
  destruct (AddAllEntries_adds (64 * m) np ltac:(rewrite Z.mul_comm; by apply Z.mod_mul) ltac:(lia) (entries s) (replicate (Z.to_nat (64 * m + 5)) 0)
    ltac:(by apply Forall_replicate) ltac:(unfold zlen; rewrite length_replicate; lia)) as (d & ps & Ed & _).
  rewrite (proj2 (Z.ltb_lt 0 (64 * m))) by lia. rewrite Ed. cbn [mbind option_bind]. rewrite (added_verified _ _ _ _ Ha). change (St.ok St.OK) with true. cbn [negb]. by exists m, np, d, balance'.
Qed.

(** What a builder with the entries of some keys writes, and the detection of corruption afterwards. *)
Lemma fast_local_builds balance CACHE_LINE_SIZE s0 (s : t) keys : added GetSliceHash64 s0 s keys -> keys <> [] -> zlen keys < 2 ^ 40 -> 1000 <= millibits_per_key_ s <= 100000 ->
  (ROCKSDB_MALLOC_USABLE_SIZE = true -> rounding s = true -> 64 < CalculateSpace (zlen (entries s)) s - kMetadataLen) ->
  exists filter s' balance' r, Finish balance s = Some (filter, St.OK, s', balance') /\
    GetBuiltinFilterBitsReader CACHE_LINE_SIZE filter = Some r /\ (forall k, k ∈ keys -> MayMatch GetSliceHash64 r k = Some true) /\
    (entries s' = if detect_filter_construct_corruption_ s then entries s else []) /\ exists s'', MaybePostVerify CACHE_LINE_SIZE filter s' = Some (St.OK, s'').
Proof using usable_size_ge.
  intros Ha Hk Hkl Hm Hr. destruct (Finish_spec balance _ s keys Ha Hk Hkl Hm Hr) as (m & np & d & balance' & Hmr & Hnp & Ed & ->).
  destruct (filter_read CACHE_LINE_SIZE m np _ d Hmr Hnp Ed) as [Erd Hmatch]. set (filter := <[_ := _]> _) in *. eexists _, _, _, _. split; [done|]. split; [exact Erd|]. split.
  - intros k Hin. apply Hmatch. apply (ad_entries _ _ _ _ Ha). by exists k.
  - cbn [FastLocalBloomBitsBuilder.base]. split; [by destruct (detect_filter_construct_corruption_ s)|]. eapply post_verify; [exact Erd|]. destruct (detect_filter_construct_corruption_ s) eqn:E; [|by cbn; rewrite E]. intros _ h Hh. apply Hmatch. done.
Qed.

(** A FastLocalBloom filter has no false negatives, from the keys to the reader: whatever the hash function, the bits per key within the bounds of
    [BloomLikeFilterPolicy], whether corruption is detected, and on a reader of any cache line size, the builder finishes with a filter,
    the reader recognises it and answers that each key that was added may match, and [MaybePostVerify] accepts it. Sizes may be rounded to what
    the allocator has, whatever the balance and the floating-point functions answer, if the calculated size is more than one cache line. *)
Theorem fast_local_no_false_negatives balance CACHE_LINE_SIZE millibits rounding detect keys :
  keys <> [] -> zlen keys < 2 ^ 40 -> 1000 <= millibits <= 100000 ->
  let s := FastLocalBloomBitsBuilder.mk (with_keys (XXPH3FilterBitsBuilder.new rounding detect) keys) millibits in
  (rounding = true -> 64 < CalculateSpace (zlen (entries s)) s - kMetadataLen) ->
  exists filter s' balance' r, Finish balance s = Some (filter, St.OK, s', balance') /\
    GetBuiltinFilterBitsReader CACHE_LINE_SIZE filter = Some r /\ (forall k, k ∈ keys -> MayMatch GetSliceHash64 r k = Some true) /\
    exists s'', MaybePostVerify CACHE_LINE_SIZE filter s' = Some (St.OK, s'').
Proof using usable_size_ge.
  intros Hk Hkl Hm s Hr. pose proof (with_keys_added GetSliceHash64 rounding detect keys) as Ha.
  destruct (fast_local_builds balance CACHE_LINE_SIZE _ s keys Ha Hk Hkl Hm) as (filter & s' & balance' & r & E & Er & Hq & _ & Hv); [|by exists filter, s', balance', r].
  intros _ Hround. apply Hr. destruct Ha as [_ _ _ [Er _]]. by rewrite <- Hround; symmetry.
Qed.
End whole.

Import (coercions) FastLocalBloomBitsBuilder.
#[local] Instance little_endian : Port := {| kLittleEndian := true |}.
(** Seventy keys of ten bits each, rounded. *)
Definition some_keys : list (list Z) := map (fun n => [Z.of_nat n]) (seq 0 70).
Lemma fast_local_no_false_negatives_witness : exists filter s' balance' r,
  FastLocalBloomBitsBuilder.Finish true (fun x => x + 8) (fun x _ => x) id (-1000) (FastLocalBloomBitsBuilder.mk (with_keys (foldl Z.add 7) (XXPH3FilterBitsBuilder.new true true) some_keys) 10000) = Some (filter, St.OK, s', balance') /\
  GetBuiltinFilterBitsReader 64 filter = Some r /\
  (forall k, k ∈ some_keys -> MayMatch (foldl Z.add 7) r k = Some true) /\
  exists s'', XXPH3FilterBitsBuilder.MaybePostVerify 64 filter s' = Some (St.OK, s'').
Proof.
  apply (fast_local_no_false_negatives (foldl Z.add 7) true (fun x => x + 8) ltac:(intros; lia) (fun x _ => x) id (-1000) 64 10000 true true some_keys); [done|done|done|].
  intros _. by vm_compute.
Defined.

(** C38: A filter of one cache line whose builder rounds sizes is made empty when the balance allows a false positive rate of an empty filter, which [EstimatedFpRate] takes to
    be that of a filter that always answers true: the reader takes the filter of five bytes for one without keys and answers false for every key that was added.
    The builder reports success; only with the detection of corruption does [MaybePostVerify] refuse the filter. *)
Theorem rounding_forgets_keys `{Port} GetSliceHash64 malloc_usable_size std_pow std_exp balance CACHE_LINE_SIZE millibits detect keys :
  let s := FastLocalBloomBitsBuilder.mk (with_keys GetSliceHash64 (XXPH3FilterBitsBuilder.new true detect) keys) millibits in
  let n := zlen (XXPH3FilterBitsBuilder.entries s) in
  keys <> [] -> FastLocalBloomBitsBuilder.CalculateSpace n s = 64 + kMetadataLen -> malloc_usable_size 10 = 24 -> - 2 ^ 63 < balance < 0 ->
  SFleb (FastLocalBloomBitsBuilder.EstimatedFpRate std_pow std_exp n kMetadataLen s)
    (f64_add (f64_div (f64_of_Z (- balance)) XXPH3FilterBitsBuilder.two32) (FastLocalBloomBitsBuilder.EstimatedFpRate std_pow std_exp n (64 + kMetadataLen) s)) = true ->
  exists filter s' balance' r, FastLocalBloomBitsBuilder.Finish true malloc_usable_size std_pow std_exp balance s = Some (filter, St.OK, s', balance') /\
    GetBuiltinFilterBitsReader CACHE_LINE_SIZE filter = Some r /\ (forall k, MayMatch GetSliceHash64 r k = Some false) /\
    (detect = true -> exists s'', XXPH3FilterBitsBuilder.MaybePostVerify CACHE_LINE_SIZE filter s' = Some (St.Corruption, s'')).
Proof.
  intros s n Hk Hspace Hmalloc Hb Hrate. pose proof (with_keys_added GetSliceHash64 true detect keys) as [He _ _ (Hr & Hd)]. change (with_keys _ _ keys) with (FastLocalBloomBitsBuilder.base s) in He, Hr, Hd. cbn [XXPH3FilterBitsBuilder.new XXPH3FilterBitsBuilder.rounding XXPH3FilterBitsBuilder.detect_filter_construct_corruption_] in Hr, Hd.
  unfold FastLocalBloomBitsBuilder.Finish. fold n. rewrite Hspace. unfold XXPH3FilterBitsBuilder.AllocateMaybeRounding. rewrite Hr. cbn [andb]. rewrite (proj2 (Z.ltb_lt balance 0)) by lia.
  unfold i64. rewrite (signed_small 64) by lia. change (u64 (64 + kMetadataLen - kMetadataLen)) with 64. cbn [XXPH3FilterBitsBuilder.first_within].
  change (FastLocalBloomBitsBuilder.RoundDownUsableSpace (u64 (3 * 64) / 4 + kMetadataLen)) with kMetadataLen. rewrite Hrate. cbn [default fst snd]. cbv delta [id]. cbv beta iota zeta. change (u64 (kMetadataLen + XXPH3FilterBitsBuilder.kExtraPadding)) with 10.
  rewrite Hmalloc.
  change (10 <? u64 (24 - 24 / 4)) with true. cbv iota beta. unfold FastLocalBloomBitsBuilder.GetNumProbes. rewrite Hr. change (u64 (u64 (kMetadataLen - kMetadataLen) * 8000)) with 0.
  rewrite Zdiv_0_l. cbv zeta. change (0 <? u32 (kMetadataLen - kMetadataLen)) with false. cbn [mbind option_bind negb]. change (St.ok St.OK) with true. cbn [negb].
  eexists _, _, _, AlwaysFalseFilter. split; [done|]. split; [done|]. split; [done|]. intros ->. rewrite Hd. unfold XXPH3FilterBitsBuilder.MaybePostVerify. cbn [FastLocalBloomBitsBuilder.base]. rewrite Hd. cbn [negb].
  change (GetBuiltinFilterBitsReader _ _) with (Some AlwaysFalseFilter). cbn [mbind option_bind]. destruct (XXPH3FilterBitsBuilder.entries s) as [|h es] eqn:Es; [|by eexists].
  destruct keys as [|k keys]; [done|]. exfalso. apply (not_elem_of_nil (GetSliceHash64 k)). apply He. exists k. split; [constructor|done].
Qed.
Lemma rounding_forgets_keys_witness : let pow_half_64 := f64_div f64_1 (f64_of_Z (2 ^ 64)) in
  exists filter s' balance' r,
  FastLocalBloomBitsBuilder.Finish true (fun x => x + 14) (fun _ _ => pow_half_64) id (- 2 ^ 33) (FastLocalBloomBitsBuilder.mk (with_keys (foldl Z.add 7) (XXPH3FilterBitsBuilder.new true true) [[1]; [2]]) 10000) =
    Some (filter, St.OK, s', balance') /\
  GetBuiltinFilterBitsReader 64 filter = Some r /\ (forall k, MayMatch (foldl Z.add 7) r k = Some false) /\
  (true = true -> exists s'', XXPH3FilterBitsBuilder.MaybePostVerify 64 filter s' = Some (St.Corruption, s'')).
Proof.
  apply (rounding_forgets_keys (foldl Z.add 7) (fun x => x + 14) (fun _ _ => f64_div f64_1 (f64_of_Z (2 ^ 64))) id (- 2 ^ 33) 64 10000 true [[1]; [2]]); [done|by vm_compute|done|done|by vm_compute].
Defined.
