(* ===== verification/FilterLegacy.v ===== *)
(** * The legacy filter has no false negatives, also read on a machine of another cache line size *)

From stdpp Require Import prelude.
From Stdlib Require Import ZArith Lia Bool.
From S2P Require Import Prelude Coding Math Hash Status Float64 Bloom BloomProofs FilterPolicy FilterProofs.
Import LegacyBloomBitsBuilder.

Section legacy.
(** A filter of [num_lines] cache lines of [2 ^ k] bytes. *)
Context `{Port} (k num_lines num_probes : Z).
Context (k_range : 6 <= k <= 8) (num_lines_pos : 1 <= num_lines) (len_range : num_lines * 2 ^ k < 2 ^ 29 + 2 ^ 9).
Notation len := (num_lines * 2 ^ k).

Lemma byte_offset_range h : 0 <= LegacyLocalityBloomImpl.byte_offset false h num_lines k <= len - 2 ^ k.
Proof using k_range num_lines_pos len_range.
  clear num_probes. unfold LegacyLocalityBloomImpl.byte_offset, LegacyLocalityBloomImpl.GetLine. pose proof (Z.mod_pos_bound h num_lines ltac:(lia)). pose proof (Z.pow_pos_nonneg 2 k ltac:(lia) ltac:(lia)).
  rewrite Z.shiftl_mul_pow2 by lia. rewrite u32_small by nia. nia.
Qed.
Lemma legacy_bitpos h : 0 <= LegacyLocalityBloomImpl.bitpos (k + 3) h < 8 * 2 ^ k.
Proof using k_range.
  clear - k_range. unfold LegacyLocalityBloomImpl.bitpos. rewrite Z.shiftl_1_l. replace (2 ^ (k + 3) - 1) with (Z.ones (k + 3)) by (rewrite Z.ones_equiv; lia). rewrite Z.land_ones by lia.
  replace (8 * 2 ^ k) with (2 ^ (k + 3)) by (rewrite Z.pow_add_r by lia; lia). apply Z.mod_pos_bound. lia.
Qed.
Definition legacy_pos (h : Z) : list Z :=
  probes (LegacyLocalityBloomImpl.bitpos (k + 3)) (LegacyLocalityBloomImpl.next false (k + 3) (rotr32 h 17)) (LegacyLocalityBloomImpl.byte_offset false h num_lines k) (Z.to_nat num_probes) h.
Lemma legacy_pos_range h : Forall (fun p => 8 * LegacyLocalityBloomImpl.byte_offset false h num_lines k <= p < 8 * len) (legacy_pos h).
Proof using k_range num_lines_pos len_range.
  pose proof (byte_offset_range h) as Ho. unfold legacy_pos. generalize h at 4. induction (Z.to_nat num_probes) as [|n IH]; intros h'; cbn [probes]; [constructor|].
  constructor; [|apply IH]. pose proof (legacy_bitpos h'). lia.
Qed.
Lemma legacy_pos_within data h : len <= zlen data -> within (LegacyLocalityBloomImpl.byte_offset false h num_lines k) data (legacy_pos h).
Proof using k_range num_lines_pos len_range. intros Hl. eapply Forall_impl; [apply legacy_pos_range|]. cbn. lia. Qed.

Lemma add_all_adds CACHE_LINE_SIZE s es : ConstexprFloorLog2 4 CACHE_LINE_SIZE = k -> num_probes_ s = num_probes -> forall data, bytes_ok data -> len <= zlen data ->
  exists d, add_all CACHE_LINE_SIZE s es num_lines data = Some d /\ adds data d (flat_map legacy_pos es).
Proof using k_range num_lines_pos len_range.
  intros Ek Ep. induction es as [|h es IH]; intros data Hd Hl; cbn [add_all flat_map]; [exists data; split; [done|by apply adds_refl]|]. unfold LegacyLocalityBloomImpl.AddHash. rewrite Ek, Ep.
  destruct (set_probes_adds (LegacyLocalityBloomImpl.bitpos (k + 3)) (LegacyLocalityBloomImpl.next false (k + 3) (rotr32 h 17)) (LegacyLocalityBloomImpl.byte_offset false h num_lines k)
    ltac:(apply byte_offset_range) (Z.to_nat num_probes) h data Hd (legacy_pos_within data h Hl)) as (d1 & -> & Ha1). cbn [mbind option_bind].
  destruct (IH d1) as (d & E & Ha); [apply Ha1|destruct Ha1 as [-> _]; done|]. exists d. split; [done|]. by eapply adds_trans.
Qed.

(** The reader finds the size of the lines from the length of the filter. *)
Lemma find_log2_spec j fuel : 0 <= j <= k -> (Z.to_nat (k - j) < fuel)%nat -> find_log2 fuel num_lines len j = Some k.
Proof using k_range num_lines_pos len_range.
  clear num_probes. revert j. induction fuel as [|fuel IH]; intros j Hj Hf; [lia|]. cbn [find_log2]. pose proof (Z.pow_pos_nonneg 2 j ltac:(lia) ltac:(lia)).
  rewrite Z.shiftl_mul_pow2 by lia. destruct (decide (j = k)) as [->|Hne].
  - rewrite u32_small by nia. by rewrite Z.ltb_irrefl.
  - assert (2 ^ j < 2 ^ k) by (apply Z.pow_lt_mono_r; lia). rewrite u32_small by nia. rewrite (proj2 (Z.ltb_lt _ _)) by nia. apply IH; lia.
Qed.
Context (num_probes_range : 1 <= num_probes <= 30).
Lemma legacy_read k' filter : 0 <= k' <= 8 -> zlen filter = len + 5 -> byte_at filter len = num_probes -> zdrop (len + 1) filter = EncodeFixed32 num_lines ->
  GetBuiltinFilterBitsReader (2 ^ k') filter = Some (LegacyBloomBitsReader filter num_probes num_lines k).
Proof using k_range num_lines_pos len_range num_probes_range.
  intros Hk' Ef Enp Enl. unfold GetBuiltinFilterBitsReader, kMetadataLen. pose proof (Z.pow_pos_nonneg 2 k ltac:(lia) ltac:(lia)). pose proof (Z.pow_pos_nonneg 2 k' ltac:(lia) ltac:(lia)).
  assert (1 <= len) by nia. assert (Hn : num_lines <= len) by nia. rewrite Ef, u32_small by lia. rewrite (proj2 (Z.leb_gt (len + 5) 5)) by lia. replace (len + 5 - 5) with len by lia. rewrite Enp.
  unfold i8. rewrite (signed_small 8 num_probes) by lia.
  rewrite (proj2 (Z.ltb_ge num_probes 1)) by lia. replace (len + 5 - 4) with (len + 1) by lia. rewrite Enl, EncodeFixed32_eq, <- (app_nil_r (le_bytes _ _)), DecodeFixed32_app by (unfold is_u; lia).
  destruct (decide (k' = k)) as [->|Hne].
  - rewrite u32_small, Z.eqb_refl by lia. do 2 f_equal. assert (Hc : k ∈ map Z.of_nat (seq 6 3)) by (apply list_elem_of_In, in_map_iff; exists (Z.to_nat k); split; [lia|apply in_seq; lia]).
    revert Hc. clear. revert k. apply Forall_forall. repeat constructor.
  - assert (Hx : num_lines * 2 ^ k' <> len) by (rewrite Z.mul_cancel_l by lia; intros E; apply Z.pow_inj_r in E; lia).
    assert (Hb : num_lines * 2 ^ k' < 2 ^ 32).
    { assert (2 ^ 6 <= 2 ^ k) by (apply Z.pow_le_mono_r; lia). assert (2 ^ k' <= 2 ^ 8) by (apply Z.pow_le_mono_r; lia). nia. }
    rewrite u32_small by nia. rewrite (proj2 (Z.eqb_neq _ _)) by done. rewrite (proj2 (Z.eqb_neq num_lines 0)) by lia. rewrite Z.mul_comm, Z.mod_mul by lia. cbn [orb negb Z.eqb].
    rewrite Z.mul_comm, find_log2_spec by lia. cbn [mbind option_bind]. rewrite Z.shiftl_mul_pow2, u32_small, Z.eqb_refl by lia. done.
Qed.
End legacy.

(** ** The builder *)

Section builder.
Context `{Port}.
Definition legacy_with_keys (s : t) (keys : list (list Z)) : t := foldl (fun s k => AddKey k s) s keys.
Lemma legacy_with_keys_added bits keys : let s := legacy_with_keys (new bits) keys in
  (forall h, h ∈ hash_entries_ s <-> exists k, k ∈ keys /\ BloomHash k = h) /\ (length (hash_entries_ s) <= length keys)%nat /\ bits_per_key_ s = bits /\ num_probes_ s = num_probes_ (new bits).
Proof.
  induction keys as [|k keys IH] using rev_ind; cbv zeta.
  - split; [|done]. intros h. split; [by intros ?%not_elem_of_nil|]. by intros (? & ?%not_elem_of_nil & _).
  - unfold legacy_with_keys in *. rewrite foldl_snoc. destruct IH as (He & Hl & Hb & Hn). set (s := foldl _ _ keys) in *.
    assert (Hsn : forall h, (exists k', k' ∈ keys ++ [k] /\ BloomHash k' = h) <-> h ∈ hash_entries_ s \/ h = BloomHash k).
    { intros h. rewrite He. setoid_rewrite elem_of_app. setoid_rewrite list_elem_of_singleton. naive_solver. }
    unfold AddKey. destruct (bool_decide (hash_entries_ s = []) || _) eqn:Eb; rewrite length_app; cbn [length].
    + cbn [hash_entries_ bits_per_key_ num_probes_]. split; [|rewrite length_app; cbn [length]; split; [lia|done]]. intros h. rewrite Hsn, elem_of_app, list_elem_of_singleton. done.
    + apply orb_false_iff in Eb as [_ Eb%negb_false_iff%bool_decide_eq_true]. split; [|split; [lia|done]].
      intros h. rewrite Hsn. split; [by left|]. intros [?| ->]; [done|]. by apply last_Some_elem_of.
Qed.

(** The size: an odd number of cache lines. *)
Lemma CalculateSpace_odd k n s : 6 <= k <= 8 -> 0 < n < 2 ^ 31 -> 1 <= bits_per_key_ s <= 100 ->
  exists m, Z.odd m = true /\ 1 <= m /\ m * 2 ^ k < 2 ^ 29 + 2 ^ 9 /\ CalculateSpace (2 ^ k) n s = (m * 2 ^ k + kMetadataLen, 8 * (m * 2 ^ k), m).
Proof.
  intros Hk Hn Hb. assert (Hline : exists b, 2 ^ k * 8 = b /\ 2 ^ k = b / 8 /\ b mod 8 = 0 /\ 512 <= b <= 2048).
  { exists (2 ^ k * 8). split; [done|]. rewrite Z.div_mul, Z.mod_mul by lia. pose proof (Z.pow_le_mono_r 2 6 k ltac:(lia) ltac:(lia)). pose proof (Z.pow_le_mono_r 2 k 8 ltac:(lia) ltac:(lia)). lia. }
  destruct Hline as (b & Eb & Eb8 & Hb8 & Hbr). unfold CalculateSpace, GetTotalBitsForLocality. rewrite (proj2 (Z.eqb_neq n 0)) by lia. cbn [negb]. rewrite Eb.
  rewrite (u64_small (bits_per_key_ s)), (u64_small (n * _)) by nia. set (t := Z.min _ _). assert (Ht : 1 <= t <= 0xffff0000) by (subst t; nia). rewrite (u32_small t), (u32_small (t + b)), (u32_small (t + b - 1)) by lia.
  set (q := (t + b - 1) / b). assert (Hq : 1 <= q /\ (q - 1) * b < t) by (subst q; pose proof (Z.mul_div_le (t + b - 1) b ltac:(lia)); split; [apply Z.div_le_lower_bound; lia|nia]).
  assert (Hm : exists m, (if q mod 2 =? 0 then u32 (q + 1) else q) = m /\ Z.odd m = true /\ 1 <= m /\ m * b < 2 ^ 32 /\ m * b <= 0xffff0000 + 2 * b).
  { rewrite Zmod_even. destruct (Z.even q) eqn:Eq; cbn [Z.eqb]; eexists; split; [done| |done|].
    - rewrite u32_small by nia. rewrite Z.odd_add, <- Z.negb_even, Eq. split; [done|]. nia.
    - rewrite <- Z.negb_even, Eq. split; [done|]. nia. }
  destruct Hm as (m & -> & Hodd & Hm1 & Hm2 & Hm3). exists m. split; [done|]. split; [done|]. rewrite (u32_small (m * b)) by nia. rewrite Z.div_mul by lia.
  assert (E8 : m * b = m * 2 ^ k * 8) by lia. rewrite E8, Z.div_mul by lia. unfold kMetadataLen. rewrite u32_small by lia. split; [|f_equal; f_equal; lia]. lia.
Qed.

Lemma legacy_probes bits : 1 <= num_probes_ (new bits) <= 30.
Proof. unfold new, LegacyNoLocalityBloomImpl.ChooseNumProbes. cbn [num_probes_]. repeat case_match; lia. Qed.
Lemma floor_log2_pow k : 6 <= k <= 8 -> ConstexprFloorLog2 4 (2 ^ k) = k.
Proof. intros Hk. assert (Hc : k = 6 \/ k = 7 \/ k = 8) by lia. by destruct Hc as [-> | [-> | ->]]. Qed.

(** A legacy Bloom filter has no false negatives: a filter of at least one and less than [2 ^ 31] entries, of up to 100 bits per key, that is built on a
    machine with cache lines of 64, 128 or 256 bytes is recognised by a reader on a machine with any of these, which finds the size of the lines
    in the filter and answers that each key that was added may match. *)
Theorem legacy_no_false_negatives GetSliceHash64 k k' bits keys : 6 <= k <= 8 -> 6 <= k' <= 8 -> 1 <= bits <= 100 -> keys <> [] -> zlen keys < 2 ^ 31 ->
  exists filter s' r, Finish (2 ^ k) (legacy_with_keys (new bits) keys) = Some (filter, s') /\ GetBuiltinFilterBitsReader (2 ^ k') filter = Some r /\
    forall key, key ∈ keys -> MayMatch GetSliceHash64 r key = Some true.
Proof.
  intros Hk Hk' Hb Hne Hlen. destruct (legacy_with_keys_added bits keys) as (He & Hl & Hbits & Hnp). set (s := legacy_with_keys (new bits) keys) in *.
  pose proof (legacy_probes bits) as Hp. rewrite <- Hnp in Hp. assert (Hn : 0 < zlen (hash_entries_ s) < 2 ^ 31).
  { destruct keys as [|key keys]; [done|]. assert (Hin : BloomHash key ∈ hash_entries_ s) by (apply He; exists key; split; [constructor|done]).
    unfold zlen in *. destruct (hash_entries_ s); [by apply not_elem_of_nil in Hin|]. cbn [length] in *. lia. }
  unfold Finish. unfold i32. rewrite (signed_small 32), u64_small by lia. destruct (CalculateSpace_odd k _ s Hk Hn ltac:(lia)) as (m & _ & Hm & Hml & ->). unfold kMetadataLen.
  pose proof (Z.pow_pos_nonneg 2 k ltac:(lia) ltac:(lia)). set (len := m * 2 ^ k) in *. assert (1 <= len) by nia. rewrite (proj2 (Z.eqb_neq (8 * len) 0)), (proj2 (Z.eqb_neq m 0)) by lia. cbn [negb andb].
  replace (8 * len / 8) with len by (rewrite Z.mul_comm, Z.div_mul; lia). set (z := replicate _ 0). assert (Ez : zlen z = len + 5) by (unfold zlen, z; rewrite length_replicate; lia).
  destruct (add_all_adds k m (num_probes_ s) Hk Hm Hml (2 ^ k) s (hash_entries_ s) (floor_log2_pow k Hk) eq_refl z ltac:(by apply Forall_replicate) ltac:(fold len; lia)) as (d & -> & El & _ & Hbit).
  cbn [mbind option_bind]. rewrite Ez in El. set (body := ztake _ _). assert (Eb : zlen body = len + 1) by (apply zlen_ztake; unfold zlen in *; rewrite length_insert; lia).
  assert (Hat : forall i, 0 <= i <= len -> byte_at (body ++ EncodeFixed32 m) i = if decide (i = len) then u8 (num_probes_ s) else byte_at d i).
  { intros i Hi. rewrite byte_at_app_l by lia. rewrite <- (byte_at_set d) by lia. unfold body, byte_at, ztake. rewrite !nth_lookup, lookup_take_lt by lia. done. }
  eexists _, _, _. split; [done|]. split.
  - apply (legacy_read k m (num_probes_ s)); [done|done|done|done|lia|fold len..].
    + rewrite zlen_app, EncodeFixed32_eq. unfold zlen at 2. rewrite le_bytes_length. lia.
    + rewrite Hat, decide_True by lia. apply u8_small. lia.
    + by apply zdrop_app'.
  - intros key Hkey. cbn [MayMatch]. unfold LegacyLocalityBloomImpl.HashMayMatchPrepared, LegacyLocalityBloomImpl.PrepareHashMayMatch. rewrite test_probes_all.
    + f_equal. apply forallb_forall. intros p Hpin%list_elem_of_In. pose proof (legacy_pos_range k m (num_probes_ s) Hk Hm Hml (BloomHash key)) as Hr. rewrite Forall_forall in Hr. specialize (Hr p Hpin). cbn in Hr. fold len in Hr.
      pose proof (byte_offset_range k m Hk Hm Hml (BloomHash key)). assert (0 <= p / 8 < len) by (Z.to_euclidean_division_equations; lia).
      unfold bitat. rewrite Hat, decide_False by lia. fold (bitat d p). rewrite Hbit, bool_decide_true, orb_true_r by (lia || (apply list_elem_of_In, in_flat_map; exists (BloomHash key); split; [apply list_elem_of_In, He; by exists key|by apply list_elem_of_In])). done.
    + apply (byte_offset_range k m Hk Hm Hml).
    + apply (legacy_pos_within k m (num_probes_ s) Hk Hm Hml). fold len. rewrite zlen_app. pose proof (zlen_nonneg (EncodeFixed32 m)). lia.
Qed.
End builder.

#[local] Instance big_endian : Port := {| kLittleEndian := false |}.
Lemma legacy_no_false_negatives_witness : exists filter s' r,
  Finish (2 ^ 6) (legacy_with_keys (new 10) [[1; 2]; [200; 1; 2; 3; 4]]) = Some (filter, s') /\ GetBuiltinFilterBitsReader (2 ^ 7) filter = Some r /\
  forall key, key ∈ [[1; 2]; [200; 1; 2; 3; 4]] -> MayMatch (fun _ => 0) r key = Some true.
Proof. apply (legacy_no_false_negatives (fun _ => 0) 6 7 10 [[1; 2]; [200; 1; 2; 3; 4]]); done. Defined.
