(* ===== verification/RibbonBuilder.v ===== *)
(** * The builder of Ribbon filters (table/block_based/filter_policy.cc)

    [Standard128RibbonBitsBuilder] bands the hashes of the keys and stores the solution, or falls back on its Bloom builder. [std::log], [std::pow], [std::exp], [malloc_usable_size] and the answer of the reservation of memory for
    the banding are parameters. *)

From stdpp Require Import prelude.
From Stdlib Require Import ZArith Lia Bool SpecFloat.
From S2P Require Import Prelude Coding Math Hash Status Float64 Bloom Ribbon RibbonConfig FilterPolicy.

(** ** The builder *)

Module Standard128RibbonBitsBuilder.
Section builder.
Import XXPH3FilterBitsBuilder.
Import (coercions) FastLocalBloomBitsBuilder.
Notation TS := Standard128Ribbon.
Context `{Port} (ROCKSDB_MALLOC_USABLE_SIZE : bool) (malloc_usable_size : Z -> Z).
Context (std_pow : spec_float -> spec_float -> spec_float) (std_exp std_log : spec_float -> spec_float).
Record t := mk {
  base :> XXPH3FilterBitsBuilder.t;
  desired_one_in_fp_rate_ : spec_float;
  bloom_fallback_ : FastLocalBloomBitsBuilder.t;
}.
Definition new (desired_one_in_fp_rate : spec_float) (bloom_millibits_per_key : Z) (rounding detect : bool) : t :=
  mk (XXPH3FilterBitsBuilder.new rounding detect) desired_one_in_fp_rate (FastLocalBloomBitsBuilder.new bloom_millibits_per_key rounding detect).

Definition kMaxRibbonEntries : Z := 950000000.
Definition NumEntriesToNumSlots (num_entries : Z) : Z :=
  let num_slots1 := GetNumSlots_TS kOneIn20 TS std_log num_entries in
  RoundUpNumSlots TS num_slots1.
Definition RoundDownUsableSpace (available_size : Z) : Z :=
  let rv := u64 (available_size - kMetadataLen) in
  let rv := Z.land rv (u64 (Z.lnot 15)) in
  rv + kMetadataLen.
Definition EstimatedFpRate (num_entries len_with_metadata : Z) (s : t) : spec_float :=
  if kMaxRibbonEntries <? num_entries then FastLocalBloomBitsBuilder.EstimatedFpRate std_pow std_exp num_entries len_with_metadata (bloom_fallback_ s)
  else
    let num_slots := NumEntriesToNumSlots (u32 num_entries) in
    let fake_soln := new_soln [] len_with_metadata in
    let fake_soln := ConfigureForNumSlots TS num_slots fake_soln in
    ExpectedFpRate TS std_pow fake_soln.

(** The target length and the number of slots, zero to fall back. *)
Definition CalculateSpaceAndSlots (num_entries : Z) (s : t) : Z * Z :=
  if kMaxRibbonEntries <? num_entries then (FastLocalBloomBitsBuilder.CalculateSpace num_entries (bloom_fallback_ s), 0)
  else
    let entropy := match entries s with h :: _ => Upper32of64 h | [] => 0 end in
    let num_slots := NumEntriesToNumSlots (u32 num_entries) in
    let target_len_with_metadata := u64 (GetBytesForOneInFpRate TS std_pow num_slots (desired_one_in_fp_rate_ s) entropy + kMetadataLen) in
    let bloom := FastLocalBloomBitsBuilder.CalculateSpace num_entries (bloom_fallback_ s) in
    if (num_slots <? 1024) && (bloom <? target_len_with_metadata) then (bloom, 0)
    else (target_len_with_metadata, num_slots).
Definition CalculateSpace (num_entries : Z) (s : t) : Z :=
  if num_entries =? 0 then 0 else (CalculateSpaceAndSlots num_entries s).1.

(** Up to two times fewer slots, until they fit. *)
Fixpoint fit_slots (n : nat) (slots len_no_metadata : Z) (s : t) : Z :=
  if 0 <? slots then
    let reqd_bytes := GetBytesForOneInFpRate TS std_pow slots (desired_one_in_fp_rate_ s) 0 in
    if reqd_bytes <=? len_no_metadata then slots
    else
      match n with
      | O => slots
      | S n => fit_slots n (RoundDownNumSlots TS (slots - 1)) len_no_metadata s
      end
  else slots.
Definition ApproximateNumEntries (bytes : Z) (s : t) : Z :=
  let len_no_metadata := RoundDownUsableSpace (Z.max bytes kMetadataLen) - kMetadataLen in
  if negb (f64_gtb (desired_one_in_fp_rate_ s) f64_1) then kMaxRibbonEntries
  else
    let min_real_bits_per_slot :=
      if SFleb (f64_add f64_1 (f64_of_Z 0xffffffff)) (desired_one_in_fp_rate_ s) then f64_of_Z 32
      else
        let rounded := u32 (f64_trunc (desired_one_in_fp_rate_ s)) in
        let upper_bits_per_key := 1 + FloorLog2 4 rounded in
        let fp_rate_for_upper := std_pow (f64_of_Z 2) (f64_of_Z (- upper_bits_per_key)) in
        let portion_lower := f64_div (f64_sub (f64_div f64_1 (desired_one_in_fp_rate_ s)) fp_rate_for_upper) fp_rate_for_upper in
        f64_sub (f64_of_Z upper_bits_per_key) portion_lower in
    let max_slots := f64_div (f64_mul (f64_of_Z len_no_metadata) (f64_of_Z 8)) min_real_bits_per_slot in
    if negb (SFltb max_slots (f64_of_Z (GetNumSlots_TS kOneIn20 TS std_log kMaxRibbonEntries))) then kMaxRibbonEntries
    else
      let slots := RoundUpNumSlots TS (u32 (f64_trunc max_slots)) in
      let slots := fit_slots 2 slots len_no_metadata s in
      let num_entries := GetNumToAdd_TS kOneIn20 TS std_log slots in
      if slots <? 1024 then
        let bloom := FastLocalBloomBitsBuilder.ApproximateNumEntries bytes (bloom_fallback_ s) in
        if num_entries <? bloom then bloom else num_entries
      else Z.min num_entries kMaxRibbonEntries.

(** The entries are swapped with those of the Bloom builder, which makes the filter. *)
Definition fall_back (balance : Z) (s : t) : option (list Z * Status * t * Z) :=
  let '(other, b) := SwapEntriesWith (bloom_fallback_ s) s in
  '(filter, st, bloom, balance) ←
    FastLocalBloomBitsBuilder.Finish ROCKSDB_MALLOC_USABLE_SIZE malloc_usable_size std_pow std_exp balance
      (FastLocalBloomBitsBuilder.mk other (FastLocalBloomBitsBuilder.millibits_per_key_ (bloom_fallback_ s)));
  Some (filter, st, mk b (desired_one_in_fp_rate_ s) bloom, balance).

(** [MakeCacheReservation]: what [cache_res_mgr_], if there is one, answers to the reservation of a number of bytes. *)
Definition Finish (MakeCacheReservation : option (Z -> Status)) (balance : Z) (s : t) : option (list Z * Status * t * Z) :=
  if kMaxRibbonEntries <? zlen (entries s) then fall_back balance s
  else if zlen (entries s) =? 0 then Some (FinishAlwaysFalse, St.OK, s, balance)
  else
    let num_entries := u32 (zlen (entries s)) in
    let '(len_with_metadata, num_slots) := CalculateSpaceAndSlots num_entries s in
    if num_slots =? 0 then fall_back balance s
    else
      let entropy := match entries s with h :: _ => Lower32of64 h | [] => 0 end in
      let bytes_banding := EstimateMemoryUsage TS num_slots in
      let status_banding_cache_res := match MakeCacheReservation with Some reserve => reserve bytes_banding | None => St.OK end in
      if St.IsMemoryLimit status_banding_cache_res then fall_back balance s
      else
        '(success, banding) ← ResetAndFindSeedToSolve TS (Rehash_HashFn TS) num_slots (map (fun h => (h, 0)) (entries s)) (Z.land entropy 255) 255 default_banding;
        if negb (success : bool) then fall_back balance s
        else
          let '(st, b) := MaybeVerifyHashEntriesChecksum s in
          if negb (St.ok st) then Some (FinishAlwaysTrue, st, mk b (desired_one_in_fp_rate_ s) (bloom_fallback_ s), balance)
          else
            let b := if detect_filter_construct_corruption_ b then b else ResetEntries b in
            let s := mk b (desired_one_in_fp_rate_ s) (bloom_fallback_ s) in
            let seed := GetOrdinalSeed TS (raw_seed_ banding) in
            let '(len_with_metadata, balance) :=
              AllocateMaybeRounding ROCKSDB_MALLOC_USABLE_SIZE malloc_usable_size RoundDownUsableSpace (fun keys len => EstimatedFpRate keys len s)
                balance len_with_metadata num_entries s in
            let mutable_buf := replicate (Z.to_nat len_with_metadata) 0 in
            soln ← BackSubstFrom TS banding (new_soln mutable_buf len_with_metadata);
            let num_blocks := GetNumBlocks TS soln in
            let mutable_buf := data_ soln in
            let mutable_buf := <[Z.to_nat (len_with_metadata - 5) := u8 (-2)]> mutable_buf in
            let mutable_buf := <[Z.to_nat (len_with_metadata - 4) := u8 seed]> mutable_buf in
            let mutable_buf := <[Z.to_nat (len_with_metadata - 3) := Z.land num_blocks 255]> mutable_buf in
            let mutable_buf := <[Z.to_nat (len_with_metadata - 2) := Z.land (Z.shiftr num_blocks 8) 255]> mutable_buf in
            let mutable_buf := <[Z.to_nat (len_with_metadata - 1) := Z.land (Z.shiftr num_blocks 16) 255]> mutable_buf in
            Some (mutable_buf, St.OK, s, balance).

Definition MaybePostVerify (CACHE_LINE_SIZE : Z) (filter_content : list Z) (s : t) : option (Status * t) :=
  let fall_back := 0 <? EstimateEntriesAdded (bloom_fallback_ s) in
  if fall_back then
    '(st, b) ← XXPH3FilterBitsBuilder.MaybePostVerify CACHE_LINE_SIZE filter_content (bloom_fallback_ s);
    Some (st, mk s (desired_one_in_fp_rate_ s) (FastLocalBloomBitsBuilder.mk b (FastLocalBloomBitsBuilder.millibits_per_key_ (bloom_fallback_ s))))
  else
    '(st, b) ← XXPH3FilterBitsBuilder.MaybePostVerify CACHE_LINE_SIZE filter_content s;
    Some (st, mk b (desired_one_in_fp_rate_ s) (bloom_fallback_ s)).
End builder.
End Standard128RibbonBitsBuilder.
