(* ===== verification/RibbonBuilderProofs.v ===== *)
(** * Ribbon filters have no false negatives, from the keys to the reader

    The sizes the builder calculates are whole segments; what it stores after a successful search for a seed is a filter the reader recognises and that matches all keys,
    and in all other cases the Bloom builder makes the filter. *)

From stdpp Require Import prelude.
From Stdlib Require Import ZArith Lia Bool SpecFloat.
From S2P Require Import Prelude Coding Math Hash Status Float64 Bloom BloomProofs Ribbon RibbonProofs RibbonSolution RibbonTheorems RibbonConfig FilterPolicy FilterProofs RibbonBuilder.

Notation TS := Standard128Ribbon.
Lemma Standard128_settings : settings TS.
Proof. split; cbn; auto; lia. Qed.

(** ** Sizes *)

Lemma RoundUpNumSlots_spec x : let n := RoundUpNumSlots TS x in n mod 128 = 0 /\ (n = 0 \/ 256 <= n < 2 ^ 32).
Proof.
  unfold RoundUpNumSlots. change (ix TS) with u32. cbn [kCoeffBits kUseSmash TS negb andb]. set (y := u32 (u32 (x + 128) - 1)). pose proof (u32_range (u32 (x + 128) - 1)) as Hy. fold y in Hy.
  assert (Hq : 0 <= y / 128 < 2 ^ 25) by (split; [apply Z.div_pos; lia|apply Z.div_lt_upper_bound; lia]). rewrite (u32_small (y / 128 * 128)) by lia. set (q := y / 128) in *. cbv zeta.
  destruct (Z.eqb_spec (q * 128) 128) as [E|E].
  - rewrite E. change (u32 (128 + 128)) with 256. split; [done|lia].
  - split; [by apply Z.mod_mul|lia].
Qed.
Lemma u64_segments x : x mod 16 = 0 -> u64 x mod 16 = 0.
Proof. intros Hx. unfold u64. change (2 ^ 64) with (16 * 2 ^ 60). rewrite Z.rem_mul_r by lia. rewrite Hx, Z.add_0_l, Z.mul_comm, Z.mod_mul; lia. Qed.
Lemma GetBytesForOneInFpRate_segments std_pow n rate bias : n mod 128 = 0 -> let b := GetBytesForOneInFpRate TS std_pow n rate bias in b mod 16 = 0 /\ 0 <= b < 2 ^ 64 - 5.
Proof.
  intros Hn b. assert (Hb : b mod 16 = 0 /\ 0 <= b < 2 ^ 64).
  { unfold b, GetBytesForOneInFpRate, InternalGetBytesForFpRate. cbn [kAllowZeroStarts TS andb]. destruct (_ && _); [|done]. destruct (SFleb _ _).
    - split; [|apply u64_range]. apply u64_segments. change (sizeof_CoeffRow TS) with 16. apply Z.mod_mul. lia.
    - split; [|apply u64_range]. apply u64_segments. change (kResultBits TS / 8) with 4. apply Z.mod_divide in Hn as [q ->]; [|lia]. replace (q * 128 * 4) with (q * 32 * 16) by lia. apply Z.mod_mul. lia. }
  split; [apply Hb|]. destruct Hb as [Hb Hr]. apply Z.mod_divide in Hb as [q E]; [|lia]. lia.
Qed.

Section builder.
Context `{Port} (GetSliceHash64 : list Z -> Z).
Context (ROCKSDB_MALLOC_USABLE_SIZE : bool) (malloc_usable_size : Z -> Z) (usable_size_ge : forall x, 0 <= x < 2 ^ 33 -> x <= malloc_usable_size x < 2 ^ 64).
Context (std_pow : spec_float -> spec_float -> spec_float) (std_exp std_log : spec_float -> spec_float).
Import XXPH3FilterBitsBuilder Standard128RibbonBitsBuilder.
Import (coercions) FastLocalBloomBitsBuilder.
Notation t := Standard128RibbonBitsBuilder.t.
Notation CalculateSpaceAndSlots := (CalculateSpaceAndSlots std_pow std_log).
Notation Finish := (Standard128RibbonBitsBuilder.Finish ROCKSDB_MALLOC_USABLE_SIZE malloc_usable_size std_pow std_exp std_log).
Notation fall_back := (fall_back ROCKSDB_MALLOC_USABLE_SIZE malloc_usable_size std_pow std_exp).
Notation with_keys := (with_keys GetSliceHash64).

Definition segments (l : Z) : Prop := exists m, 1 <= m /\ l = 16 * m + kMetadataLen.
Lemma CalculateSpaceAndSlots_spec n (s : t) target slots : CalculateSpaceAndSlots n s = (target, slots) -> slots <> 0 ->
  n <= kMaxRibbonEntries /\ slots mod 128 = 0 /\ 256 <= slots /\ (kMetadataLen < target -> segments target).
Proof.
  unfold Standard128RibbonBitsBuilder.CalculateSpaceAndSlots. destruct (Z.ltb_spec kMaxRibbonEntries n); [by intros [= _ <-]|]. set (e := match entries s with [] => 0 | h :: _ => Upper32of64 h end).
  destruct (RoundUpNumSlots_spec (GetNumSlots_TS kOneIn20 TS std_log (u32 n))) as [Hm Hr]. fold (NumEntriesToNumSlots std_log (u32 n)) in Hm, Hr. set (sl := NumEntriesToNumSlots std_log (u32 n)) in *.
  destruct (GetBytesForOneInFpRate_segments std_pow sl (desired_one_in_fp_rate_ s) e Hm) as [Hb Hbr]. set (b := GetBytesForOneInFpRate TS std_pow sl _ e) in *. cbv zeta. destruct (_ && _); [by intros [= _ <-]|].
  intros [= <- <-] Hne. unfold kMetadataLen in *. rewrite u64_small by lia. split; [done|]. split; [done|]. split; [lia|]. intros Hlt. apply Z.mod_divide in Hb as [q E]; [|lia]. exists q. unfold kMetadataLen. lia.
Qed.
Lemma round16 x : 0 <= x < 2 ^ 64 -> Z.land x (u64 (Z.lnot 15)) = 16 * (x / 16).
Proof.
  intros Hx. apply Z.bits_inj'. intros n Hn. rewrite Z.land_spec, (Z.mul_comm 16). change 16 with (2 ^ 4) at 1 2. rewrite <- Z.shiftr_div_pow2, <- Z.shiftl_mul_pow2 by lia.
  rewrite Z.shiftl_spec by done. unfold u64. rewrite tbit_mod, Z.lnot_spec by lia. change 15 with (2 ^ 4 - 1). rewrite tbit_ones by lia.
  destruct (decide (n < 4)) as [Hl|Hl].
  - rewrite (Z.testbit_neg_r _ (n - 4)) by lia. rewrite (proj2 (Z.leb_le 0 n)), (proj2 (Z.ltb_lt n 4)) by lia. by rewrite !andb_false_r.
  - rewrite Z.shiftr_spec by lia. replace (n - 4 + 4) with n by lia. rewrite (proj2 (Z.ltb_ge n 4)) by lia. rewrite andb_false_r. cbn [negb]. rewrite andb_true_r.
    destruct (Z.ltb_spec n 64); [by rewrite andb_true_r|]. rewrite (tbit_high x 64) by lia. done.
Qed.
Lemma RoundDownUsableSpace_segments x : 16 + kMetadataLen <= x < 2 ^ 64 -> segments (RoundDownUsableSpace x) /\ 16 + kMetadataLen <= RoundDownUsableSpace x <= x.
Proof.
  unfold RoundDownUsableSpace, segments, kMetadataLen. intros Hx. rewrite u64_small, round16 by lia. assert (1 <= (x - 5) / 16) by (apply Z.div_le_lower_bound; lia). pose proof (Z.mul_div_le (x - 5) 16 ltac:(lia)).
  split; [by exists ((x - 5) / 16)|lia].
Qed.
Lemma allocated_segments rate balance target n (s : XXPH3FilterBitsBuilder.t) : segments target -> target < 2 ^ 32 -> (rounding s = true -> 32 <= target - kMetadataLen < 2 ^ 31 - kMetadataLen) ->
  let l := (AllocateMaybeRounding ROCKSDB_MALLOC_USABLE_SIZE malloc_usable_size RoundDownUsableSpace rate balance target n s).1 in segments l /\ l < 2 ^ 32.
Proof using usable_size_ge.
  intros Hs Hl Hr. destruct (ROCKSDB_MALLOC_USABLE_SIZE && rounding s) eqn:E; [|by unfold AllocateMaybeRounding; rewrite E]. apply andb_true_iff in E as [_ E]. specialize (Hr E). unfold kMetadataLen in *.
  apply (AllocateMaybeRounding_P _ _ usable_size_ge _ _ (fun l => segments l /\ l < 2 ^ 32) 16); unfold kMetadataLen; [lia|lia|done| |lia].
  intros x Hx. destruct (RoundDownUsableSpace_segments x) as [? ?]; unfold kMetadataLen in *; [lia|]. split; [split; [done|lia]|lia].
Qed.

(** ** The filter *)

(** What the builder writes behind the solution. *)
Definition with_metadata (len seed num_blocks : Z) (buf : list Z) : list Z :=
  <[Z.to_nat (len - 1) := Z.land (Z.shiftr num_blocks 16) 255]> (<[Z.to_nat (len - 2) := Z.land (Z.shiftr num_blocks 8) 255]>
    (<[Z.to_nat (len - 3) := Z.land num_blocks 255]> (<[Z.to_nat (len - 4) := u8 seed]> (<[Z.to_nat (len - 5) := u8 (-2)]> buf)))).
Lemma land_255 x : is_byte (Z.land x 255) /\ Z.land x 255 = x mod 256.
Proof. change 255 with (Z.ones 8). rewrite Z.land_ones by lia. change (2 ^ 8) with 256. split; [|done]. unfold is_byte, is_u. pose proof (Z.mod_pos_bound x 256 ltac:(lia)). lia. Qed.
Lemma three_bytes n : 0 <= n < 2 ^ 24 -> Z.lor (Z.lor (Z.land n 255) (Z.shiftl (Z.land (Z.shiftr n 8) 255) 8)) (Z.shiftl (Z.land (Z.shiftr n 16) 255) 16) = n.
Proof.
  intros Hn. apply Z.bits_inj'. intros i Hi. rewrite !Z.lor_spec, !Z.shiftl_spec, !Z.land_spec by lia. change 255 with (2 ^ 8 - 1). rewrite !tbit_ones by lia.
  destruct (decide (24 <= i)); [rewrite (tbit_high n 24) by (done || lia)|].
  - rewrite (proj2 (Z.ltb_ge i 8)), (proj2 (Z.ltb_ge (i - 8) 8)), (proj2 (Z.ltb_ge (i - 16) 8)) by lia. by rewrite !andb_false_r.
  - destruct (Z.leb_spec 0 (i - 16)) as [|H16]; [rewrite Z.shiftr_spec by lia|]; (destruct (Z.leb_spec 0 (i - 8)) as [|H8]; [rewrite Z.shiftr_spec by lia|]); rewrite ?Z.sub_add;
      repeat match goal with |- context [?a <? 8] => destruct (Z.ltb_spec a 8) end; repeat match goal with |- context [0 <=? ?a] => destruct (Z.leb_spec 0 a) end; rewrite ?andb_true_r, ?andb_false_r, ?orb_false_r, ?orb_true_r, ?orb_false_l; try done; lia.
Qed.
Lemma ribbon_read CLS m seed nb buf : 1 <= m -> 16 * m + 5 < 2 ^ 32 -> 0 <= seed < 256 -> 2 <= nb < 2 ^ 24 -> zlen buf = 16 * m + 5 -> bytes_ok buf ->
  let filter := with_metadata (16 * m + 5) seed nb buf in
  bytes_ok filter /\ zlen filter = 16 * m + 5 /\ ztake (16 * m) filter = ztake (16 * m) buf /\ GetBuiltinFilterBitsReader CLS filter = Some (new_Standard128RibbonBitsReader filter (16 * m) nb seed).
Proof.
  intros Hm Hl Hs Hn El Hb filter. set (len := 16 * m) in *. assert (Ef : zlen filter = len + 5) by (unfold filter, with_metadata, zlen; rewrite !length_insert; exact El).
  assert (Hat : forall i, 0 <= i -> byte_at filter i = if decide (i = len + 4) then Z.land (Z.shiftr nb 16) 255 else if decide (i = len + 3) then Z.land (Z.shiftr nb 8) 255 else
    if decide (i = len + 2) then Z.land nb 255 else if decide (i = len + 1) then seed else if decide (i = len) then 254 else byte_at buf i).
  { intros i Hi. unfold filter, with_metadata. rewrite (u8_small seed) by lia. replace (len + 5 - 1) with (len + 4) by lia. replace (len + 5 - 2) with (len + 3) by lia. replace (len + 5 - 3) with (len + 2) by lia.
    replace (len + 5 - 4) with (len + 1) by lia. replace (len + 5 - 5) with len by lia. rewrite !byte_at_set by (unfold zlen in *; rewrite ?length_insert; lia). done. }
  split; [unfold filter, with_metadata; repeat (apply insert_bytes_ok; [first [apply land_255|apply u8_range]|]); done|]. split; [done|]. split.
  - unfold ztake, filter, with_metadata. rewrite !take_insert_ge by lia. done.
  - unfold GetBuiltinFilterBitsReader, kMetadataLen. rewrite Ef, u32_small by lia. rewrite (proj2 (Z.leb_gt (len + 5) 5)) by lia. replace (len + 5 - 5) with len by lia. rewrite (Hat len) by lia. rewrite !decide_False, decide_True by lia.
    change (i8 254) with (-2). cbn [Z.ltb Z.eqb Z.compare Pos.eqb]. f_equal. unfold GetRibbonBitsReader, kMetadataLen. rewrite Ef, (u32_small (len + 5)) by lia. replace (len + 5 - 5) with len by lia. rewrite u32_small by lia.
    rewrite (Hat (len + 1)), (Hat (len + 2)), (Hat (len + 3)), (Hat (len + 4)) by lia. repeat case_decide; try lia. rewrite three_bytes by lia. cbv zeta. by rewrite (proj2 (Z.ltb_ge nb 2)) by lia.
Qed.

(** What a finished filter is good for. *)
Definition finds_all (CLS : Z) (keys : list (list Z)) (res : option (list Z * Status * t * Z)) : Prop :=
  exists filter s' balance' r, res = Some (filter, St.OK, s', balance') /\ GetBuiltinFilterBitsReader CLS filter = Some r /\
    (forall k, k ∈ keys -> MayMatch GetSliceHash64 r k = Some true) /\ exists s'', MaybePostVerify CLS filter s' = Some (St.OK, s'').

Section made.
Context (millibits : Z) (round detect : bool) (rate : spec_float) (b : XXPH3FilterBitsBuilder.t) (keys : list (list Z)) (CLS : Z).
Notation bloom := (FastLocalBloomBitsBuilder.new millibits round detect).
Notation s := (Standard128RibbonBitsBuilder.mk b rate bloom).
Context (b_added : added GetSliceHash64 (XXPH3FilterBitsBuilder.new round detect) b keys) (keys_some : keys <> []) (keys_few : zlen keys < 2 ^ 40) (millibits_range : 1000 <= millibits <= 100000).
Notation n := (zlen (entries b)).

Lemma fall_back_spec balance : (round = true -> 64 < FastLocalBloomBitsBuilder.CalculateSpace n bloom - kMetadataLen) -> finds_all CLS keys (fall_back balance s).
Proof using usable_size_ge b_added keys_some keys_few millibits_range.
  intros Hr. unfold Standard128RibbonBitsBuilder.fall_back. cbn [SwapEntriesWith bloom_fallback_ Standard128RibbonBitsBuilder.base desired_one_in_fp_rate_]. set (f := FastLocalBloomBitsBuilder.mk _ _).
  assert (Ha : added GetSliceHash64 (XXPH3FilterBitsBuilder.new round detect) f keys). { destruct b_added as [He Hl Hc [_ Hd]]. split; [done|done| |done]. cbn. intros ->. by apply Hc. }
  destruct (fast_local_builds GetSliceHash64 ROCKSDB_MALLOC_USABLE_SIZE malloc_usable_size usable_size_ge std_pow std_exp balance CLS _ f keys Ha keys_some keys_few millibits_range) as (filter & f' & balance' & r & E & Er & Hq & Ees & sv & Hv); [by intros _|].
  rewrite E. cbn [mbind option_bind]. eexists _, _, _, r. split; [done|]. split; [done|]. split; [done|]. unfold Standard128RibbonBitsBuilder.MaybePostVerify, EstimateEntriesAdded. cbn [bloom_fallback_ Standard128RibbonBitsBuilder.base].
  destruct (Z.ltb_spec 0 (zlen (entries f'))) as [Hlt|Hge].
  - rewrite Hv. cbn [mbind option_bind]. by eexists.
  - cbn in Ees. destruct detect; [rewrite Ees in Hge; pose proof (added_nonempty _ _ _ _ Ha keys_some); cbn in *; lia|]. destruct b_added as [_ _ _ [_ Hd]]. cbn in Hd. unfold XXPH3FilterBitsBuilder.MaybePostVerify. cbn. rewrite Hd. by eexists.
Qed.

(** A filter with the solution of the keys' equations. *)
Lemma stored_spec num_slots o banding len : solved TS (Rehash_HashFn TS) num_slots (map (fun h => (h, 0)) (entries b)) o banding -> 0 <= o < 256 -> num_slots mod 128 = 0 -> 256 <= num_slots < 2 ^ 31 -> segments len -> len < 2 ^ 32 ->
  exists soln iss seed, let r := Standard128RibbonBitsReader iss seed in BackSubstFrom TS banding (new_soln (replicate (Z.to_nat len) 0) len) = Some soln /\
    GetBuiltinFilterBitsReader CLS (with_metadata len (GetOrdinalSeed TS (raw_seed_ banding)) (GetNumBlocks TS soln) (data_ soln)) = Some r /\ forall h, h ∈ entries b -> HashMayMatch r h = Some true.
Proof using.
  intros Hsol Ho Hm Hn (m & Hm1 & El) Hl. pose proof Standard128_settings as Hts. destruct Hsol as (Hw & Es & Eseed & HX). unfold kMetadataLen in El. assert (Hblk : 2 <= num_slots / 128 < 2 ^ 24) by (split; [apply Z.div_le_lower_bound; lia|apply Z.div_lt_upper_bound; lia]).
  assert (Hdiv : len / 16 = m /\ (16 * m) / 16 = m) by (split; [rewrite El, Z.add_comm, Z.mul_comm, Z.div_add by lia; done|rewrite Z.mul_comm; apply Z.div_mul; lia]). destruct Hdiv as [Hd1 Hd2].
  assert (Ez : zlen (replicate (Z.to_nat len) 0) = len) by (unfold zlen; rewrite length_replicate; lia).
  destruct (reader_layout TS Hts banding (replicate (Z.to_nat len) 0) len Hw) as (soln & E & Elen & Hbo & Enb & Hread); [by rewrite Es|by apply Forall_replicate|lia|lia| |].
  { rewrite Es. change (sizeof_CoeffRow TS) with 16. change (kCoeffBits TS) with 128. change (2 ^ bits (index_bytes TS)) with (2 ^ 32). rewrite Hd1. lia. }
  rewrite Es in Enb, Hread. change (kCoeffBits TS) with 128 in Enb, Hread. change (sizeof_CoeffRow TS) with 16 in Hread. rewrite Ez in Elen.
  eexists soln, (ConfigureForNumBlocks TS (num_slots / 128) (new_soln (with_metadata len o (num_slots / 128) (data_ soln)) (16 * m))), (SetOrdinalSeed TS o). intros r. split; [done|]. rewrite Enb, Eseed, GetOrdinalSeed_SetOrdinalSeed by (done || (change (2 ^ bits (seed_bytes TS)) with (2 ^ 32); lia)). rewrite El in Elen.
  destruct (ribbon_read CLS m o (num_slots / 128) (data_ soln) Hm1 ltac:(lia) Ho Hblk Elen Hbo) as (Hfb & Hfl & Htake & Hrd). rewrite <- El in Hfb, Hfl, Htake, Hrd. set (filter := with_metadata _ _ _ _) in *. rewrite Hd1 in Hread. replace (m * 16) with (16 * m) in Hread by lia.
  destruct (Hread filter (16 * m) Hfb ltac:(lia) ltac:(lia) Hd2 Htake) as [Hcfg Hlay]. split; [done|]. intros h Hh.
  eapply (filter_finds TS Hts (Rehash_HashFn TS) (fun k seed => hw_range TS _)); [done|split; [done|split; [done|split; [done|exact HX]]]|done|done|done|]. apply list_elem_of_In, in_map_iff. exists h. split; [done|by apply list_elem_of_In].
Qed.

Lemma ribbon_builds MakeCacheReservation balance : let '(target, slots) := CalculateSpaceAndSlots n s in
  (slots <> 0 -> slots < 2 ^ 31 /\ kMetadataLen < target < 2 ^ 32) -> (round = true -> (slots <> 0 -> 32 <= target - kMetadataLen < 2 ^ 31 - kMetadataLen) /\ 64 < FastLocalBloomBitsBuilder.CalculateSpace n bloom - kMetadataLen) ->
  finds_all CLS keys (Finish MakeCacheReservation balance s).
Proof using usable_size_ge b_added keys_some keys_few millibits_range.
  destruct (CalculateSpaceAndSlots n s) as [target slots] eqn:Ec. intros Hs Hr. assert (Hfb : forall bal, finds_all CLS keys (fall_back bal s)) by (intros bal; apply fall_back_spec; intros E; by apply Hr).
  pose proof (added_nonempty _ _ _ _ b_added keys_some) as Hn. unfold Standard128RibbonBitsBuilder.Finish. cbn [Standard128RibbonBitsBuilder.base]. destruct (Z.ltb_spec kMaxRibbonEntries n); [apply Hfb|]. unfold kMaxRibbonEntries in *.
  destruct (Z.eqb_spec n 0) as [|Hn0]; [lia|]. rewrite (u32_small n) by lia. rewrite Ec. destruct (Z.eqb_spec slots 0) as [|Hne]; [apply Hfb|]. destruct (St.IsMemoryLimit _); [apply Hfb|].
  destruct (CalculateSpaceAndSlots_spec _ _ _ _ Ec Hne) as (_ & Hmod & H256 & Hseg). destruct (Hs Hne) as [H31 Ht]. specialize (Hseg (proj1 Ht)). set (inputs := map _ _). set (start := Z.land _ 255).
  assert (Hst : 0 <= start < 2 ^ 8) by (unfold start; apply land_255).
  destruct (ResetAndFindSeedToSolve_spec TS Standard128_settings (Rehash_HashFn TS) (fun k seed => hw_range TS _) slots inputs 8 start default_banding) as (ok & banding & E & Hres);
    [by split; [|right]|cbn; lia|cbn; lia|unfold inputs, zlen in *; rewrite length_map; lia|apply Forall_forall; intros x Hx; apply list_elem_of_In, in_map_iff in Hx as (h & <- & _); done|by split; vm_compute|done|].
  change (2 ^ 8 - 1) with 255 in E. rewrite E. cbn [mbind option_bind]. destruct ok; [|apply Hfb]. cbn [negb]. destruct Hres as (d & Hd & Hsol & _). rewrite (added_verified _ _ _ _ b_added). change (St.ok St.OK) with true. cbn [negb].
  set (b' := if detect_filter_construct_corruption_ b then b else ResetEntries b). set (s' := Standard128RibbonBitsBuilder.mk b' rate bloom). cbn [Standard128RibbonBitsBuilder.base s'].
  match goal with |- context [AllocateMaybeRounding _ _ _ ?f _ _ _ _] => pose proof (allocated_segments f balance target n b' Hseg (proj2 Ht)) as Hal end.
  assert (Er : rounding b' = round) by (destruct b_added as [_ _ _ [Er _]]; unfold b'; by destruct (detect_filter_construct_corruption_ b)). rewrite Er in Hal. specialize (Hal (fun E => proj1 (Hr E) Hne)).
  destruct (AllocateMaybeRounding _ _ _ _ _ _ _ b') as [len balance']. cbn [fst] in Hal. destruct Hal as [Hls Hll].
  destruct (stored_spec slots ((start + d) mod 2 ^ 8) banding len Hsol (Z.mod_pos_bound _ (2 ^ 8) ltac:(lia)) Hmod ltac:(lia) Hls Hll) as (soln & iss & seed & Eb & Erd & Hmm). set (r := Standard128RibbonBitsReader iss seed) in *. rewrite Eb. cbn [mbind option_bind].
  unfold with_metadata in Erd. eexists _, _, _, r. split; [done|]. split; [exact Erd|]. split.
  - intros k Hk. apply Hmm, (ad_entries _ _ _ _ b_added). by exists k.
  - unfold Standard128RibbonBitsBuilder.MaybePostVerify, EstimateEntriesAdded. cbn [bloom_fallback_ s' Standard128RibbonBitsBuilder.base]. change (0 <? zlen (entries bloom)) with false. cbv iota zeta.
    destruct (post_verify CLS _ r b' Erd) as [sv Hv]; [|rewrite Hv; cbn [mbind option_bind]; by eexists]. intros Hdet h Hh. apply Hmm. unfold b' in Hdet, Hh. destruct (detect_filter_construct_corruption_ b) eqn:Ed; [done|]. cbn in Hdet. congruence.
Qed.
End made.
End builder.
