(* ===== verification/BuiltinPolicies.v ===== *)
(** * Filter policies (table/block_based/filter_policy.cc)

    [BloomLikeFilterPolicy] and the policies derived from it, which choose a builder by the context of a table, and the calls on the builder that was chosen. *)

From stdpp Require Import prelude.
From Stdlib Require Import ZArith Lia Bool SpecFloat.
From S2P Require Import Prelude Coding Status Float64 Bloom Ribbon RibbonConfig FilterPolicy RibbonBuilder.

(** ** Policies *)

Inductive CompactionStyle := kCompactionStyleLevel | kCompactionStyleUniversal | kCompactionStyleFIFO | kCompactionStyleNone.
Inductive TableFileCreationReason := kFlush | kCompaction | kRecovery | kMisc.
(** What the policies read of the context. *)
Record FilterBuildingContext := mkContext {
  format_version : Z;
  optimize_filters_for_memory : bool;
  detect_filter_construct_corruption : bool;
  compaction_style : CompactionStyle;
  level_at_creation : Z;
  reason : TableFileCreationReason;
}.

Record BloomLikeFilterPolicy := mkPolicy {
  millibits_per_key_ : Z;
  desired_one_in_fp_rate_ : spec_float;
  whole_bits_per_key_ : Z;
}.
Inductive FilterBitsBuilder :=
  | LegacyBloomBuilder (s : LegacyBloomBitsBuilder.t)
  | FastLocalBloomBuilder (s : FastLocalBloomBitsBuilder.t)
  | Standard128RibbonBuilder (s : Standard128RibbonBitsBuilder.t).
Inductive BuiltinFilterPolicy :=
  | ReadOnlyBuiltinFilterPolicy
  | LegacyBloomFilterPolicy (p : BloomLikeFilterPolicy)
  | FastLocalBloomFilterPolicy (p : BloomLikeFilterPolicy)
  | Standard128RibbonFilterPolicy (p : BloomLikeFilterPolicy)
  | BloomFilterPolicy (p : BloomLikeFilterPolicy)
  | RibbonFilterPolicy (p : BloomLikeFilterPolicy) (bloom_before_level_ : Z).

Section policies.
Context (std_pow : spec_float -> spec_float -> spec_float) (std_exp : spec_float -> spec_float).
Definition sanitize (bits_per_key : spec_float) : spec_float :=
  if SFltb bits_per_key f64_half then f64_0
  else if SFltb bits_per_key f64_1 then f64_1
  else if negb (SFltb bits_per_key (f64_of_Z 100)) then f64_of_Z 100
  else bits_per_key.
(** The sum that is converted to [int] is below 100001 after [sanitize]: the conversion is defined, and [i32] does not wrap. *)
Definition new_BloomLikeFilterPolicy (bits_per_key : spec_float) : BloomLikeFilterPolicy :=
  let bits_per_key := sanitize bits_per_key in
  let millibits_per_key := i32 (f64_trunc (f64_add (f64_mul bits_per_key (f64_of_Z 1000)) (f64_dec 500001 6))) in
  mkPolicy millibits_per_key
    (f64_div f64_1 (BloomMath.CacheLocalFpRate std_pow std_exp bits_per_key (FastLocalBloomImpl.ChooseNumProbes millibits_per_key) 512))
    (Z.quot (millibits_per_key + 500) 1000).

Definition GetFastLocalBloomBuilderWithContext (p : BloomLikeFilterPolicy) (context : FilterBuildingContext) : FilterBitsBuilder :=
  FastLocalBloomBuilder (FastLocalBloomBitsBuilder.new (millibits_per_key_ p) (optimize_filters_for_memory context) (detect_filter_construct_corruption context)).
Definition GetLegacyBloomBuilderWithContext (p : BloomLikeFilterPolicy) : FilterBitsBuilder :=
  LegacyBloomBuilder (LegacyBloomBitsBuilder.new (whole_bits_per_key_ p)).
Definition GetStandard128RibbonBuilderWithContext (p : BloomLikeFilterPolicy) (context : FilterBuildingContext) : FilterBitsBuilder :=
  Standard128RibbonBuilder (Standard128RibbonBitsBuilder.new (desired_one_in_fp_rate_ p) (millibits_per_key_ p)
    (optimize_filters_for_memory context) (detect_filter_construct_corruption context)).

Definition INT_MAX : Z := 2147483647.
(** [None] for no filter. *)
Definition Bloom_GetBuilderWithContext (p : BloomLikeFilterPolicy) (context : FilterBuildingContext) : option FilterBitsBuilder :=
  if millibits_per_key_ p =? 0 then None
  else if format_version context <? 5 then Some (GetLegacyBloomBuilderWithContext p)
  else Some (GetFastLocalBloomBuilderWithContext p context).
Definition Ribbon_GetBuilderWithContext (p : BloomLikeFilterPolicy) (bloom_before_level_ : Z) (context : FilterBuildingContext) : option FilterBitsBuilder :=
  if millibits_per_key_ p =? 0 then None
  else
    let levelish :=
      match compaction_style context with
      | kCompactionStyleLevel | kCompactionStyleUniversal =>
          match reason context with
          | kFlush => -1
          | _ => if level_at_creation context =? -1 then INT_MAX else level_at_creation context
          end
      | kCompactionStyleFIFO | kCompactionStyleNone => INT_MAX
      end in
    if levelish <? bloom_before_level_ then Some (GetFastLocalBloomBuilderWithContext p context)
    else Some (GetStandard128RibbonBuilderWithContext p context).
Definition GetBuilderWithContext (policy : BuiltinFilterPolicy) (context : FilterBuildingContext) : option FilterBitsBuilder :=
  match policy with
  | ReadOnlyBuiltinFilterPolicy => None
  | LegacyBloomFilterPolicy p => if millibits_per_key_ p =? 0 then None else Some (GetLegacyBloomBuilderWithContext p)
  | FastLocalBloomFilterPolicy p => if millibits_per_key_ p =? 0 then None else Some (GetFastLocalBloomBuilderWithContext p context)
  | Standard128RibbonFilterPolicy p => if millibits_per_key_ p =? 0 then None else Some (GetStandard128RibbonBuilderWithContext p context)
  | BloomFilterPolicy p => Bloom_GetBuilderWithContext p context
  | RibbonFilterPolicy p bloom_before_level_ => Ribbon_GetBuilderWithContext p bloom_before_level_ context
  end.
End policies.

(** *** The builder a policy chose *)

Module Chosen.
Section chosen.
Context `{Port} (GetSliceHash64 : list Z -> Z) (ROCKSDB_MALLOC_USABLE_SIZE : bool) (malloc_usable_size : Z -> Z).
Context (std_pow : spec_float -> spec_float -> spec_float) (std_exp std_log : spec_float -> spec_float).
Context (CACHE_LINE_SIZE : Z) (MakeCacheReservation : option (Z -> Status)).
Definition AddKey (key : list Z) (b : FilterBitsBuilder) : FilterBitsBuilder :=
  match b with
  | LegacyBloomBuilder s => LegacyBloomBuilder (LegacyBloomBitsBuilder.AddKey key s)
  | FastLocalBloomBuilder s =>
      FastLocalBloomBuilder (FastLocalBloomBitsBuilder.mk (XXPH3FilterBitsBuilder.AddKey GetSliceHash64 key (FastLocalBloomBitsBuilder.base s)) (FastLocalBloomBitsBuilder.millibits_per_key_ s))
  | Standard128RibbonBuilder s =>
      Standard128RibbonBuilder (Standard128RibbonBitsBuilder.mk (XXPH3FilterBitsBuilder.AddKey GetSliceHash64 key (Standard128RibbonBitsBuilder.base s))
        (Standard128RibbonBitsBuilder.desired_one_in_fp_rate_ s) (Standard128RibbonBitsBuilder.bloom_fallback_ s))
  end.
Definition Finish (balance : Z) (b : FilterBitsBuilder) : option (list Z * Status * FilterBitsBuilder * Z) :=
  match b with
  | LegacyBloomBuilder s => '(filter, s) ← LegacyBloomBitsBuilder.Finish CACHE_LINE_SIZE s; Some (filter, St.OK, LegacyBloomBuilder s, balance)
  | FastLocalBloomBuilder s =>
      '(filter, st, s, balance) ← FastLocalBloomBitsBuilder.Finish ROCKSDB_MALLOC_USABLE_SIZE malloc_usable_size std_pow std_exp balance s;
      Some (filter, st, FastLocalBloomBuilder s, balance)
  | Standard128RibbonBuilder s =>
      '(filter, st, s, balance) ← Standard128RibbonBitsBuilder.Finish ROCKSDB_MALLOC_USABLE_SIZE malloc_usable_size std_pow std_exp std_log MakeCacheReservation balance s;
      Some (filter, st, Standard128RibbonBuilder s, balance)
  end.
(** The legacy builder inherits a verification that accepts everything. *)
Definition MaybePostVerify (filter_content : list Z) (b : FilterBitsBuilder) : option Status :=
  match b with
  | LegacyBloomBuilder _ => Some St.OK
  | FastLocalBloomBuilder s => fst <$> XXPH3FilterBitsBuilder.MaybePostVerify CACHE_LINE_SIZE filter_content (FastLocalBloomBitsBuilder.base s)
  | Standard128RibbonBuilder s => fst <$> Standard128RibbonBitsBuilder.MaybePostVerify CACHE_LINE_SIZE filter_content s
  end.
End chosen.
End Chosen.
