(* ===== verification/BuiltinPoliciesProofs.v ===== *)
(** * The bits per key of a policy, and no false negatives for any policy

    Every double gives a policy without filters or one whose bits per key are in the bounds the builders rely on; what the chosen builder writes, the reader finds all keys in. *)

From stdpp Require Import prelude.
From Stdlib Require Import ZArith Lia Bool SpecFloat.
From S2P Require Import Prelude Coding Math Status Float64 Bloom Ribbon RibbonConfig FilterPolicy FilterProofs FilterLegacy RibbonBuilder RibbonBuilderProofs BuiltinPolicies.

(** ** Bits per key *)

(** A double from one on and below one hundred. *)
Lemma sanitize_cases x : valid_binary 53 1024 x = true ->
  sanitize x = f64_0 \/ sanitize x = f64_1 \/ sanitize x = f64_of_Z 100 \/
  exists m e, sanitize x = S754_finite false m e /\ 2 ^ 52 <= Zpos m < 2 ^ 53 /\ -52 <= e <= -46 /\ Zpos m * 2 ^ (e + 52) < 100 * 2 ^ 52.
Proof.
  intros Hv. unfold sanitize. destruct (SFltb x f64_half) eqn:E0; [by left|]. destruct (SFltb x f64_1) eqn:E1; [by right; left|]. destruct (SFltb x (f64_of_Z 100)) eqn:E2; cbn [negb]; [|by right; right; left].
  right; right; right. change f64_1 with (S754_finite false 4503599627370496 (-52)) in E1. change (f64_of_Z 100) with (S754_finite false 7036874417766400 (-46)) in E2. change f64_half with (S754_finite false 4503599627370496 (-53)) in E0.
  destruct x as [s|[]| |[] m e]; try done. exists m, e. split; [done|]. unfold SFltb, SFcompare in E1, E2. change (Pos.compare_cont Eq) with Pos.compare in *.
  assert (He : -52 <= e <= -46) by (destruct (Z.compare_spec e (-52)), (Z.compare_spec e (-46)); try done; lia).
  cbn [valid_binary] in Hv. unfold bounded, canonical_mantissa, fexp, emin in Hv. apply andb_true_iff in Hv as [Hd%Z.eqb_eq _]. assert (Ed : Zpos (digits2_pos m) = 53) by lia. pose proof (digits2_pos_bounds m) as Hm. rewrite Ed in Hm. change (53 - 1) with 52 in Hm.
  split; [done|]. split; [done|]. destruct (Z.compare_spec e (-46)) as [->|Hlt|]; [|clear E2|lia].
  - destruct (Pos.compare_spec m 7036874417766400) as [|Hlt|]; try done. apply Pos2Z.pos_lt_pos in Hlt. clear - Hlt. change (2 ^ (-46 + 52)) with 64. change (100 * 2 ^ 52) with 450359962737049600. lia.
  - assert (2 ^ (e + 52) <= 2 ^ 5) by (apply Z.pow_le_mono_r; lia). assert (0 < 2 ^ (e + 52)) by (apply Z.pow_pos_nonneg; lia). change (2 ^ 5) with 32 in *. nia.
Qed.

Lemma mul_1000 m e : 2 ^ 52 <= Zpos m < 2 ^ 53 -> -52 <= e <= -46 -> Zpos m * 2 ^ (e + 52) < 100 * 2 ^ 52 ->
  exists m' e', f64_mul (S754_finite false m e) (f64_of_Z 1000) = S754_finite false m' e' /\ -43 <= e' <= -35 /\ 1000 * 2 ^ 43 <= Zpos m' * 2 ^ (e' + 43) <= 100000 * 2 ^ 43.
Proof.
  intros Hm He Hu. change (f64_of_Z 1000) with (S754_finite false (1000 * 2 ^ 43) (-43)). unfold f64_mul, SFmul. cbn [xorb]. set (M := Pos.mul m (1000 * 2 ^ 43)).
  assert (EM : Zpos M = Zpos m * (1000 * 2 ^ 43)) by (unfold M; rewrite Pos2Z.inj_mul; done). clearbody M. pose proof (digits2_pos_bounds M) as Hd. set (d := Zpos (digits2_pos M)) in *.
  assert (Hdr : 105 <= d <= 106). { split; apply Z.nlt_ge; intros Hlt; [pose proof (Z.pow_le_mono_r 2 d 104 ltac:(lia) ltac:(lia))|pose proof (Z.pow_le_mono_r 2 106 (d - 1) ltac:(lia) ltac:(lia))]; lia. }
  destruct (binary_round_aux_bounds M (e + -43)) as (m' & e' & E & He' & Hb); fold d; [lia..|]. fold d in He', Hb. set (k := d - 53) in *. exists m', e'. split; [done|]. split; [lia|].
  assert (EA : 2 ^ 52 <= 2 ^ (- e) * 2 ^ (e + 52) <= 2 ^ 52) by (rewrite <- Z.pow_add_r by lia; replace (- e + (e + 52)) with 52 by lia; lia).
  assert (EB : 2 ^ (43 - e - k) * 2 ^ k = 2 ^ 43 * 2 ^ (- e)) by (rewrite <- !Z.pow_add_r by lia; f_equal; lia). assert (EW : 2 ^ (e' - (e + -43)) = 2 ^ (e' + 43) * 2 ^ (- e)) by (rewrite <- Z.pow_add_r by lia; f_equal; lia).
  rewrite EW in Hb. assert (H52 : 2 ^ (- e) <= 2 ^ 52) by (apply Z.pow_le_mono_r; lia). assert (0 < 2 ^ (- e)) by (apply Z.pow_pos_nonneg; lia). assert (0 < 2 ^ k) by (apply Z.pow_pos_nonneg; lia). assert (0 < 2 ^ (e + 52)) by (apply Z.pow_pos_nonneg; lia).
  set (A := 2 ^ (- e)) in *. set (B := 2 ^ (43 - e - k)) in *. set (K := 2 ^ k) in *. set (q := Zpos M / K) in *. assert (Hmu : Zpos m < 100 * A) by nia.
  assert (Hq : 1000 * B <= q < 100000 * B). { unfold q. split; [apply Z.div_le_lower_bound; [lia|]|apply Z.div_lt_upper_bound; [lia|]]; rewrite EM; nia. }
  set (P := 2 ^ (e' + 43)) in *. nia.
Qed.

Lemma add_half_trunc m e : -43 <= e <= -35 -> 1000 * 2 ^ 43 <= Zpos m * 2 ^ (e + 43) <= 100000 * 2 ^ 43 -> 1000 <= f64_trunc (f64_add (S754_finite false m e) (f64_dec 500001 6)) <= 100000.
Proof.
  intros He Hm. change (f64_dec 500001 6) with (S754_finite false 4503608634569751 (-53)). unfold f64_add, SFadd. rewrite Z.min_r by lia. unfold shl_align. replace (-53 - e) with (Z.neg (Z.to_pos (e + 53))) by (rewrite <- Pos2Z.opp_pos, Z2Pos.id; lia).
  change (-53 - -53) with 0. cbn [fst cond_Zopp]. set (Mp := Pos.iter xO m (Z.to_pos (e + 53))). assert (EM : Zpos Mp = Zpos m * 2 ^ (e + 43) * 2 ^ 10). { unfold Mp. rewrite iter_xO_spec, Z2Pos.id, <- Z.mul_assoc, <- Z.pow_add_r by lia. do 2 f_equal. lia. }
  clearbody Mp. change (Zpos Mp + 4503608634569751) with (Zpos (Mp + 4503608634569751)). set (S := Pos.add Mp 4503608634569751). assert (ES : Zpos S = Zpos m * 2 ^ (e + 43) * 2 ^ 10 + 4503608634569751) by (unfold S; rewrite Pos2Z.inj_add, EM; done). clearbody S.
  pose proof (digits2_pos_bounds S) as Hd. cbn [binary_normalize]. unfold binary_round. set (d := Zpos (digits2_pos S)) in *.
  assert (Hdr : 63 <= d <= 70). { split; apply Z.nlt_ge; intros Hlt; [pose proof (Z.pow_le_mono_r 2 d 62 ltac:(lia) ltac:(lia))|pose proof (Z.pow_le_mono_r 2 70 (d - 1) ltac:(lia) ltac:(lia))]; lia. }
  assert (Eal : shl_align S (-53) (fexp 53 1024 (d + -53)) = (S, -53)). { unfold shl_align, fexp, emin. destruct (Z.max (d + -53 - 53) (3 - 1024 - 53) - -53) eqn:E; [done|done|lia]. } rewrite Eal.
  destruct (binary_round_aux_bounds S (-53)) as (r & e' & E & He' & Hb); fold d; [lia..|]. fold d in He', Hb. rewrite E. set (k := d - 53) in *. cbn [f64_trunc]. rewrite (proj2 (Z.leb_gt 0 e')) by lia.
  replace (e' - -53) with (e' + 53) in Hb by lia. assert (EP : 2 ^ (- e') * 2 ^ (e' + 53) = 2 ^ 53) by (rewrite <- Z.pow_add_r by lia; f_equal; lia). assert (HP : 0 < 2 ^ (e' + 53)) by (apply Z.pow_pos_nonneg; lia). assert (0 < 2 ^ (- e')) by (apply Z.pow_pos_nonneg; lia).
  rewrite <- (Z.div_mul_cancel_r _ _ (2 ^ (e' + 53))) by lia. rewrite EP. set (V := Zpos r * 2 ^ (e' + 53)) in *. assert (EK : 2 ^ (50 - k) * 2 ^ k = 2 ^ 50) by (rewrite <- Z.pow_add_r by lia; f_equal; lia). assert (0 < 2 ^ k) by (apply Z.pow_pos_nonneg; lia).
  set (B := 2 ^ (50 - k)) in *. set (K := 2 ^ k) in *. set (q := Zpos S / K) in *. assert (Hq : 8000 * B <= q < 800005 * B). { unfold q. split; [apply Z.div_le_lower_bound; [lia|]|apply Z.div_lt_upper_bound; [lia|]]; rewrite ES; nia. }
  assert (HV : 8000 * 2 ^ 50 <= V <= 800005 * 2 ^ 50) by nia. split; [apply Z.div_le_lower_bound; lia|]. apply Z.lt_succ_r, Z.div_lt_upper_bound; lia.
Qed.

Lemma policy_range std_pow std_exp bits_per_key : valid_binary 53 1024 bits_per_key = true ->
  let p := new_BloomLikeFilterPolicy std_pow std_exp bits_per_key in
  millibits_per_key_ p = 0 \/ 1000 <= millibits_per_key_ p <= 100000 /\ 1 <= whole_bits_per_key_ p <= 100.
Proof.
  intros Hv p. assert (Hm : let m := f64_trunc (f64_add (f64_mul (sanitize bits_per_key) (f64_of_Z 1000)) (f64_dec 500001 6)) in m = 0 \/ 1000 <= m <= 100000).
  { destruct (sanitize_cases bits_per_key Hv) as [-> |[-> |[-> |(m & e & -> & Hm & He & Hu)]]]; [by left|right; by vm_compute|right; by vm_compute|right].
    destruct (mul_1000 m e Hm He Hu) as (m' & e' & -> & He' & Hm'). by apply add_half_trunc. }
  unfold p, new_BloomLikeFilterPolicy. cbn [millibits_per_key_ whole_bits_per_key_]. cbv zeta in Hm. set (t := f64_trunc _) in *. unfold i32. rewrite (signed_small 32) by lia. destruct Hm as [-> |Hm]; [by left|right]. split; [done|].
  rewrite Z.quot_div_nonneg by lia. split; [apply Z.div_le_lower_bound; lia|]. apply Z.lt_succ_r, Z.div_lt_upper_bound; lia.
Qed.
(** C33: Whatever double a policy is made of, not a number and infinities included, it makes no filters, or it has between one and one hundred bits per key, as the thousandths the
    Bloom and Ribbon builders use and as the whole bits of the legacy builder: the rounding of floating-point arithmetic does not lead out of the bounds. *)
Theorem policy_bits_per_key std_pow std_exp bits_per_key : valid_binary 53 1024 bits_per_key = true ->
  let p := new_BloomLikeFilterPolicy std_pow std_exp bits_per_key in
  millibits_per_key_ p = 0 \/ 1000 <= millibits_per_key_ p <= 100000 /\ 1 <= whole_bits_per_key_ p <= 100.
Proof. apply policy_range. Qed.
Lemma policy_bits_per_key_witness : let p := new_BloomLikeFilterPolicy (fun x _ => x) id S754_nan in
  valid_binary 53 1024 S754_nan = true /\ (millibits_per_key_ p = 0 \/ 1000 <= millibits_per_key_ p <= 100000 /\ 1 <= whole_bits_per_key_ p <= 100).
Proof. split; [reflexivity|]. exact (policy_bits_per_key (fun x _ => x) id S754_nan eq_refl). Defined.

(** ** The builder with its keys *)

Section keys.
Context `{Port} (GetSliceHash64 : list Z -> Z).
Definition chosen_with_keys (b : FilterBitsBuilder) (keys : list (list Z)) : FilterBitsBuilder := foldl (fun b k => Chosen.AddKey GetSliceHash64 k b) b keys.
Lemma legacy_chosen keys s : chosen_with_keys (LegacyBloomBuilder s) keys = LegacyBloomBuilder (legacy_with_keys s keys).
Proof. revert s. induction keys as [|k keys IH]; intros s; [done|]. apply IH. Qed.
Lemma fast_local_chosen keys b m : chosen_with_keys (FastLocalBloomBuilder (FastLocalBloomBitsBuilder.mk b m)) keys = FastLocalBloomBuilder (FastLocalBloomBitsBuilder.mk (with_keys GetSliceHash64 b keys) m).
Proof. revert b. induction keys as [|k keys IH]; intros b; [done|]. apply IH. Qed.
Lemma ribbon_chosen keys b r f :
  chosen_with_keys (Standard128RibbonBuilder (Standard128RibbonBitsBuilder.mk b r f)) keys = Standard128RibbonBuilder (Standard128RibbonBitsBuilder.mk (with_keys GetSliceHash64 b keys) r f).
Proof. revert b. induction keys as [|k keys IH]; intros b; [done|]. apply IH. Qed.

(** Looking up several keys at once, as many as there is room for, is looking up each. *)
Lemma MayMatch_batch_eq r keys : zlen keys <= MAX_BATCH_SIZE -> MayMatch_batch GetSliceHash64 r keys = mapM (MayMatch GetSliceHash64 r) keys.
Proof.
  intros Hl%Z.ltb_ge. destruct r as [| |data np len|data np nl ls|iss seed]; cbn [MayMatch_batch]; [reflexivity|reflexivity|..]; rewrite Hl; clear Hl; cbv zeta; (induction keys as [|k keys IH]; [reflexivity|]); cbn [map mapM]; rewrite IH; [reflexivity|reflexivity|].
  cbn [MayMatch]. unfold FilterQuery. cbn [kAllowZeroStarts Standard128Ribbon andb]. by destruct (InterleavedPrepareQuery _ _ _) as [[? ?] ?].
Qed.
Lemma batch_all r keys : (forall k, k ∈ keys -> MayMatch GetSliceHash64 r k = Some true) ->
  forall batch, batch ⊆ keys -> zlen batch <= MAX_BATCH_SIZE -> MayMatch_batch GetSliceHash64 r batch = Some (map (fun _ => true) batch).
Proof.
  intros Hk batch Hb Hl. rewrite MayMatch_batch_eq by done. clear Hl. induction batch as [|k batch IH]; [done|].
  cbn [mapM]. rewrite Hk, IH; [done|intros x Hx; apply Hb; by constructor|apply Hb; constructor].
Qed.
End keys.

(** The policies of some bits per key. *)
Definition policies (p : BloomLikeFilterPolicy) (bloom_before_level : Z) : list BuiltinFilterPolicy :=
  [LegacyBloomFilterPolicy p; FastLocalBloomFilterPolicy p; Standard128RibbonFilterPolicy p; BloomFilterPolicy p; RibbonFilterPolicy p bloom_before_level].
(** The size of a filter is within the bounds of its format: less than [2 ^ 31] entries of a legacy filter; more than one cache line of a Bloom filter whose size is rounded; for
    a Ribbon filter the bounds that the builder asserts, and room to round its size. *)
Definition sized std_pow std_log (keys : list (list Z)) (b : FilterBitsBuilder) : Prop :=
  match b with
  | LegacyBloomBuilder _ => zlen keys < 2 ^ 31
  | FastLocalBloomBuilder s =>
      let base := FastLocalBloomBitsBuilder.base s in
      XXPH3FilterBitsBuilder.rounding base = true -> 64 < FastLocalBloomBitsBuilder.CalculateSpace (zlen (XXPH3FilterBitsBuilder.entries base)) s - kMetadataLen
  | Standard128RibbonBuilder s =>
      let base := Standard128RibbonBitsBuilder.base s in
      let n := zlen (XXPH3FilterBitsBuilder.entries base) in
      let '(target, slots) := Standard128RibbonBitsBuilder.CalculateSpaceAndSlots std_pow std_log n s in
      (slots <> 0 -> slots < 2 ^ 31 /\ kMetadataLen < target < 2 ^ 32) /\
      (XXPH3FilterBitsBuilder.rounding base = true -> (slots <> 0 -> 32 <= target - kMetadataLen < 2 ^ 31 - kMetadataLen) /\
        64 < FastLocalBloomBitsBuilder.CalculateSpace n (Standard128RibbonBitsBuilder.bloom_fallback_ s) - kMetadataLen)
  end.

Section policy.
Context `{Port} (GetSliceHash64 : list Z -> Z).
Context (ROCKSDB_MALLOC_USABLE_SIZE : bool) (malloc_usable_size : Z -> Z) (usable_size_ge : forall x, 0 <= x < 2 ^ 33 -> x <= malloc_usable_size x < 2 ^ 64).
Context (std_pow : spec_float -> spec_float -> spec_float) (std_exp std_log : spec_float -> spec_float).
Notation Finish := (Chosen.Finish ROCKSDB_MALLOC_USABLE_SIZE malloc_usable_size std_pow std_exp std_log).
Notation sized := (sized std_pow std_log).

(** The filter a builder makes of some keys. *)
Definition complete (keys : list (list Z)) (CLS CLS' : Z) (res : option (list Z * Status * FilterBitsBuilder * Z)) : Prop :=
  exists filter b' balance' r, res = Some (filter, St.OK, b', balance') /\ GetBuiltinFilterBitsReader CLS' filter = Some r /\
    (forall key, key ∈ keys -> MayMatch GetSliceHash64 r key = Some true) /\ (forall batch, batch ⊆ keys -> zlen batch <= MAX_BATCH_SIZE -> MayMatch_batch GetSliceHash64 r batch = Some (map (fun _ => true) batch)) /\
    Chosen.MaybePostVerify CLS filter b' = Some St.OK.

Lemma legacy_complete reserve balance k k' bits keys : 6 <= k <= 8 -> 6 <= k' <= 8 -> 1 <= bits <= 100 -> keys <> [] ->
  let b := chosen_with_keys GetSliceHash64 (LegacyBloomBuilder (LegacyBloomBitsBuilder.new bits)) keys in sized keys b -> complete keys (2 ^ k) (2 ^ k') (Finish (2 ^ k) reserve balance b).
Proof using.
  intros Hk Hk' Hb Hne. cbv zeta. rewrite legacy_chosen. intros Hs. destruct (legacy_no_false_negatives GetSliceHash64 k k' bits keys Hk Hk' Hb Hne Hs) as (filter & s' & r & E & Er & Hm).
  cbn [Chosen.Finish]. rewrite E. cbn [mbind option_bind]. eexists _, _, _, r. split; [done|]. split; [done|]. split; [done|]. split; [by apply batch_all|done].
Qed.
Lemma fast_local_complete reserve balance CLS CLS' millibits round detect keys : 1000 <= millibits <= 100000 -> keys <> [] -> zlen keys < 2 ^ 40 ->
  let b := chosen_with_keys GetSliceHash64 (FastLocalBloomBuilder (FastLocalBloomBitsBuilder.new millibits round detect)) keys in sized keys b -> complete keys CLS CLS' (Finish CLS reserve balance b).
Proof using usable_size_ge.
  intros Hb Hne Hl. cbv zeta. unfold FastLocalBloomBitsBuilder.new. rewrite fast_local_chosen. intros Hs. pose proof (with_keys_added GetSliceHash64 round detect keys) as Ha. set (s := FastLocalBloomBitsBuilder.mk _ millibits) in *.
  pose proof (fun c => fast_local_builds GetSliceHash64 ROCKSDB_MALLOC_USABLE_SIZE malloc_usable_size usable_size_ge std_pow std_exp balance c _ s keys Ha Hne Hl Hb (fun _ => Hs)) as Hf.
  destruct (Hf CLS) as (filter & s' & balance' & _ & E & _ & _ & _ & sv & Hv). destruct (Hf CLS') as (filter2 & s2 & balance2 & r & E2 & Er & Hm & _). rewrite E in E2. injection E2 as <- <- <-.
  cbn [Chosen.Finish]. rewrite E. cbn [mbind option_bind]. eexists _, _, _, r. split; [done|]. split; [done|]. split; [done|]. split; [by apply batch_all|]. cbn [Chosen.MaybePostVerify]. by rewrite Hv.
Qed.
Lemma ribbon_complete reserve balance CLS CLS' rate millibits round detect keys : 1000 <= millibits <= 100000 -> keys <> [] -> zlen keys < 2 ^ 40 ->
  let b := chosen_with_keys GetSliceHash64 (Standard128RibbonBuilder (Standard128RibbonBitsBuilder.new rate millibits round detect)) keys in sized keys b -> complete keys CLS CLS' (Finish CLS reserve balance b).
Proof using usable_size_ge.
  intros Hb Hne Hl. cbv zeta. unfold Standard128RibbonBitsBuilder.new. rewrite ribbon_chosen. intros Hs. pose proof (with_keys_added GetSliceHash64 round detect keys) as Ha. set (b := with_keys _ _ keys) in *.
  assert (Er : XXPH3FilterBitsBuilder.rounding b = round) by (by destruct Ha as [_ _ _ [-> _]]).
  assert (Hf : forall c, finds_all GetSliceHash64 c keys (Standard128RibbonBitsBuilder.Finish ROCKSDB_MALLOC_USABLE_SIZE malloc_usable_size std_pow std_exp std_log reserve balance (Standard128RibbonBitsBuilder.mk b rate (FastLocalBloomBitsBuilder.new millibits round detect)))).
  { intros c. pose proof (ribbon_builds GetSliceHash64 ROCKSDB_MALLOC_USABLE_SIZE malloc_usable_size usable_size_ge std_pow std_exp std_log millibits round detect rate b keys c Ha Hne Hl Hb reserve balance) as Hr.
    cbn [BuiltinPoliciesProofs.sized Standard128RibbonBitsBuilder.base Standard128RibbonBitsBuilder.bloom_fallback_] in Hs. rewrite Er in Hs. destruct (Standard128RibbonBitsBuilder.CalculateSpaceAndSlots _ _ _ _) as [target slots]. exact (Hr (proj1 Hs) (proj2 Hs)). }
  destruct (Hf CLS) as (filter & s' & balance' & _ & E & _ & _ & sv & Hv). destruct (Hf CLS') as (filter2 & s2 & balance2 & r & E2 & Erd & Hm & _). rewrite E in E2. injection E2 as <- <- <-.
  cbn [Chosen.Finish]. rewrite E. cbn [mbind option_bind]. eexists _, _, _, r. split; [done|]. split; [done|]. split; [done|]. split; [by apply batch_all|]. cbn [Chosen.MaybePostVerify]. by rewrite Hv.
Qed.

(** C8: a built-in filter within the bounds of its format ([sized]) has no false negatives, from the configuration to the reader. For any double as bits per key, any of the policies and any context
    of a table, if the policy makes a filter, then the builder it chooses, given at least one and fewer than 2^40 keys, finishes with a filter that a reader on a machine with cache lines of 64, 128 or
    256 bytes recognises, that matches each of the keys, alone or in a batch of at most 32, and that is accepted by [MaybePostVerify]. The bounds are: fewer than 2^31 keys for a legacy Bloom filter; more than one
    cache line for a Bloom filter whose size is rounded to the allocator's; for a Ribbon filter fewer than 2^31 slots and a length of less than 2^32 bytes, and where its size is
    rounded at least 32 and less than 2^31 bytes, with more than one cache line for the Bloom filter it falls back on. It holds for
    Ribbon filters with a solution and for those that fall back on Bloom, because of their size, because no seed has a solution or because memory is short; for any hash function and floating-point functions, and any
    allocator that gives as much as it is asked for. *)
Theorem policy_no_false_negatives bits_per_key bloom_before_level policy context reserve balance k k' b keys :
  valid_binary 53 1024 bits_per_key = true -> policy ∈ policies (new_BloomLikeFilterPolicy std_pow std_exp bits_per_key) bloom_before_level ->
  GetBuilderWithContext policy context = Some b -> 6 <= k <= 8 -> 6 <= k' <= 8 -> keys <> [] -> zlen keys < 2 ^ 40 -> sized keys (chosen_with_keys GetSliceHash64 b keys) ->
  exists filter b' balance' r, Finish (2 ^ k) reserve balance (chosen_with_keys GetSliceHash64 b keys) = Some (filter, St.OK, b', balance') /\
    GetBuiltinFilterBitsReader (2 ^ k') filter = Some r /\ (forall key, key ∈ keys -> MayMatch GetSliceHash64 r key = Some true) /\
    (forall batch, batch ⊆ keys -> zlen batch <= MAX_BATCH_SIZE -> MayMatch_batch GetSliceHash64 r batch = Some (map (fun _ => true) batch)) /\ Chosen.MaybePostVerify (2 ^ k) filter b' = Some St.OK.
Proof using usable_size_ge.
  intros Hv Hp Hb Hk Hk' Hne Hl Hs. change (complete keys (2 ^ k) (2 ^ k') (Finish (2 ^ k) reserve balance (chosen_with_keys GetSliceHash64 b keys))). pose proof (policy_range std_pow std_exp bits_per_key Hv) as Hbits. set (p := new_BloomLikeFilterPolicy _ _ _) in *.
  assert (Hcase : millibits_per_key_ p <> 0 /\ (b = GetLegacyBloomBuilderWithContext p \/ b = GetFastLocalBloomBuilderWithContext p context \/ b = GetStandard128RibbonBuilderWithContext p context)).
  { unfold policies in Hp. repeat (apply elem_of_cons in Hp as [-> |Hp]); [..|by apply not_elem_of_nil in Hp]; cbn [GetBuilderWithContext] in Hb; unfold Bloom_GetBuilderWithContext, Ribbon_GetBuilderWithContext in Hb; (destruct (Z.eqb_spec (millibits_per_key_ p) 0); [done|]); (split; [done|]); repeat case_match; injection Hb as <-; auto. }
  destruct Hcase as [Hm0 Hcase]. destruct Hbits as [|[Hm Hw]]; [done|]. destruct Hcase as [-> |[-> | ->]]; [by apply legacy_complete|by apply fast_local_complete|by apply ribbon_complete].
Qed.
End policy.

(** ** An example *)

#[local] Instance little_endian : Port := {| kLittleEndian := true |}.
(** Two hundred keys; powers of two, and what else the rate of the policy needs; a logarithm of the number of keys. *)
Definition ribbon_keys : list (list Z) := map (fun n => [Z.of_nat n]) (seq 0 200).
Definition ribbon_hash (key : list Z) : Z := u64 (0x9E3779B97F4A7C15 * (foldl Z.add 1 key)).
Definition ribbon_pow (x y : spec_float) : spec_float :=
  let n := f64_trunc y in
  if SFeqb x (f64_of_Z 2) then if n <? 0 then f64_div f64_1 (f64_of_Z (2 ^ (- n))) else f64_of_Z (2 ^ n)
  else if SFeqb x f64_half then f64_div f64_1 (f64_of_Z (2 ^ n))
  else f64_dec 1 2.
Definition ribbon_log (x : spec_float) : spec_float := f64_dec 5298317366548036 15.
Definition ribbon_context : FilterBuildingContext := mkContext 5 true true kCompactionStyleLevel 6 kCompaction.
Definition ribbon_policy : BuiltinFilterPolicy := RibbonFilterPolicy (new_BloomLikeFilterPolicy ribbon_pow id (f64_of_Z 10)) 3.
Definition ribbon_builder : FilterBitsBuilder := default (LegacyBloomBuilder (LegacyBloomBitsBuilder.new 1)) (GetBuilderWithContext ribbon_policy ribbon_context).

Lemma policy_no_false_negatives_witness :
  (match ribbon_builder with Standard128RibbonBuilder _ => True | _ => False end) /\
  exists filter b' balance' r,
    Chosen.Finish true (fun x => x + 8) ribbon_pow id ribbon_log (2 ^ 6) (Some (fun _ => St.OK)) (-1000) (chosen_with_keys ribbon_hash ribbon_builder ribbon_keys) = Some (filter, St.OK, b', balance') /\
    GetBuiltinFilterBitsReader (2 ^ 7) filter = Some r /\ (forall key, key ∈ ribbon_keys -> MayMatch ribbon_hash r key = Some true) /\
    (forall batch, batch ⊆ ribbon_keys -> zlen batch <= MAX_BATCH_SIZE -> MayMatch_batch ribbon_hash r batch = Some (map (fun _ => true) batch)) /\ Chosen.MaybePostVerify (2 ^ 6) filter b' = Some St.OK.
Proof.
  split; [by vm_compute|].
  apply (policy_no_false_negatives ribbon_hash true (fun x => x + 8) ltac:(intros; lia) ribbon_pow id ribbon_log (f64_of_Z 10) 3 ribbon_policy ribbon_context (Some (fun _ => St.OK)) (-1000) 6 7 ribbon_builder ribbon_keys);
    [by vm_compute|by repeat constructor|by vm_compute|done|done|done|by vm_compute|].
  vm_compute. repeat split; intros; done.
Defined.
