(* ===== verification/DynamicBloom.v ===== *)
(** * The in-memory Bloom filter of memtables (util/dynamic_bloom.h, util/dynamic_bloom.cc)

    The constructor with its arithmetic on sizes and addresses, the sequential operations, and the system of threads that add with [AddHashConcurrently] and
    query with [MayContainHash], one atomic access of a word at a time.

    The theorem on the system holds for every interleaving: all accesses are within the filter, a query that starts after an add has returned
    answers true, a query that answers true found bits that adds have set, and when all adds have returned the filter is
    the one that sequential adds give. *)

From stdpp Require Import prelude.
From Stdlib Require Import ZArith Lia Bool.
From S2P Require Import Prelude Coding Math Hash Bloom BloomProofs.

(** ** The constructor *)

Fixpoint roundUpToPow2_loop (fuel : nat) (rv x : Z) : option Z :=
  match fuel with
  | O => None
  | S fuel => if rv <? x then roundUpToPow2_loop fuel (u32 (Z.shiftl rv 1)) x else Some rv
  end.
(** Above [2 ^ 31] the source does not return. *)
Definition roundUpToPow2 (x : Z) : option Z := roundUpToPow2_loop 32 1 x.

Record DynamicBloom := mkBloom { kLen : Z; kNumDoubleProbes : Z; data_ : list Z }.

(** What is allocated, and where in it the words are. *)
Record layout := mkLayout { allocated : Z; data_address : Z; bloom : DynamicBloom }.
Definition DynamicBloom_new (AllocateAligned : Z -> Z) (total_bits num_probes : Z) : option layout :=
  let kNumDoubleProbes := u32 (num_probes + (if num_probes =? 1 then 1 else 0)) / 2 in
  pow2 ← roundUpToPow2 kNumDoubleProbes;
  let block_bytes := u32 (8 * Z.max 1 pow2) in
  let block_bits := u32 (block_bytes * 8) in
  let blocks := u32 (u32 (total_bits + block_bits) - 1) / block_bits in
  let sz := u32 (blocks * block_bytes) in
  let kLen := sz / 8 in
  let sz := u32 (sz + u32 (block_bytes - 1)) in
  let raw := AllocateAligned sz in
  let block_offset := raw mod block_bytes in
  let data := if 0 <? block_offset then raw + (block_bytes - block_offset) else raw in
  Some (mkLayout sz data (mkBloom kLen kNumDoubleProbes (replicate (Z.to_nat kLen) 0))).

(** ** One word *)

Definition golden64 : Z := 0x9e3779b97f4a7c13.
Definition probe_mask (h : Z) : Z := Z.lor (u64 (Z.shiftl 1 (Z.land h 63))) (u64 (Z.shiftl 1 (Z.land (Z.shiftr h 6) 63))).
Definition remix (h : Z) : Z := Z.lor (Z.shiftr h 12) (u64 (Z.shiftl h 52)).
Definition first_word (b : DynamicBloom) (h32 : Z) : Z := FastRange32 (kLen b) h32.
(** The load and the read-modify-write of [data_[a]]. *)
Definition load_word (data : list Z) (a : Z) : option Z := if 0 <=? a then data !! Z.to_nat a else None.
Definition or_word (data : list Z) (a mask : Z) : option (list Z) := v ← load_word data a; Some (<[Z.to_nat a := Z.lor v mask]> data).

(** ** Sequential operations *)

Section bloom.
Context (b : DynamicBloom).

(** [n] probes are left. *)
Fixpoint AddHash_loop (n : nat) (a i h : Z) (data : list Z) : option (list Z) :=
  match n with
  | O => None
  | S n =>
      data ← or_word data (Z.lxor a i) (probe_mask h);
      if kNumDoubleProbes b <=? i + 1 then Some data else AddHash_loop n a (i + 1) (remix h) data
  end.
Definition AddHash (h32 : Z) (data : list Z) : option (list Z) :=
  AddHash_loop (S (Z.to_nat (kNumDoubleProbes b))) (first_word b h32) 0 (u64 (golden64 * h32)) data.
Fixpoint DoubleProbe_loop (n : nat) (byte_offset i h : Z) (data : list Z) : option bool :=
  match n with
  | O => None
  | S n =>
      let mask := probe_mask h in
      val ← load_word data (Z.lxor byte_offset i);
      if kNumDoubleProbes b <=? i + 1 then Some (Z.land val mask =? mask)
      else if negb (Z.land val mask =? mask) then Some false
      else DoubleProbe_loop n byte_offset (i + 1) (remix h) data
  end.
Definition MayContainHash (h32 : Z) (data : list Z) : option bool :=
  DoubleProbe_loop (S (Z.to_nat (kNumDoubleProbes b))) (first_word b h32) 0 (u64 (golden64 * h32)) data.

Context `{Port}.
Definition Add (key : list Z) (data : list Z) : option (list Z) := AddHash (BloomHash key) data.
Definition MayContain (key : list Z) (data : list Z) : option bool := MayContainHash (BloomHash key) data.
End bloom.

(** ** Threads *)

(** A thread in [AddHashConcurrently] is about to load a word, or about to or the mask into it; one in [DoubleProbe] is about to load a word. [h] is the remixed
    hash and [i] the index of the probe. [before] is what was added when the query began; the code has no such variable. *)
Inductive thread :=
  | Idle
  | AddLoad (h32 i h : Z)
  | AddOr (h32 i h : Z)
  | Probing (before : list Z) (h32 i h : Z).
Inductive request := ReqAddHashConcurrently (h32 : Z) | ReqMayContainHash (h32 : Z).
Inductive event := Silent | Answered (before : list Z) (h32 : Z) (r : bool).
(** [added]: the hashes whose add has returned, the last first. *)
Record config := mkConfig { words : list Z; threads : list thread; added : list Z }.

Definition set_thread (k : nat) (th : thread) (c : config) : config := mkConfig (words c) (<[k := th]> (threads c)) (added c).
Definition next_add (b : DynamicBloom) (k : nat) (h32 i h : Z) (c : config) : config :=
  if kNumDoubleProbes b <=? i + 1 then mkConfig (words c) (<[k := Idle]> (threads c)) (h32 :: added c)
  else set_thread k (AddLoad h32 (i + 1) (remix h)) c.
(** A step of thread [k], which begins [req] if it is idle. *)
Definition step (b : DynamicBloom) (k : nat) (req : request) (c : config) : option (config * event) :=
  th ← threads c !! k;
  match th with
  | Idle =>
      Some (match req with
            | ReqAddHashConcurrently h32 => set_thread k (AddLoad h32 0 (u64 (golden64 * h32))) c
            | ReqMayContainHash h32 => set_thread k (Probing (added c) h32 0 (u64 (golden64 * h32))) c
            end, Silent)
  | AddLoad h32 i h =>
      v ← load_word (words c) (Z.lxor (first_word b h32) i);
      Some (if negb (Z.land (probe_mask h) v =? probe_mask h) then set_thread k (AddOr h32 i h) c else next_add b k h32 i h c, Silent)
  | AddOr h32 i h =>
      ws ← or_word (words c) (Z.lxor (first_word b h32) i) (probe_mask h);
      Some (next_add b k h32 i h (mkConfig ws (threads c) (added c)), Silent)
  | Probing before h32 i h =>
      let mask := probe_mask h in
      val ← load_word (words c) (Z.lxor (first_word b h32) i);
      Some (if kNumDoubleProbes b <=? i + 1 then (set_thread k Idle c, Answered before h32 (Z.land val mask =? mask))
            else if negb (Z.land val mask =? mask) then (set_thread k Idle c, Answered before h32 false)
            else (set_thread k (Probing before h32 (i + 1) (remix h)) c, Silent))
  end.
Definition init (b : DynamicBloom) (n : nat) : config := mkConfig (data_ b) (replicate n Idle) [].
Inductive reachable (b : DynamicBloom) (n : nat) : config -> Prop :=
  | reach_init : reachable b n (init b n)
  | reach_step c k req c' e : reachable b n c -> (match req with ReqAddHashConcurrently h | ReqMayContainHash h => is_u 32 h end) ->
      step b k req c = Some (c', e) -> reachable b n c'.

(** ** The constructor makes a filter whose probes stay inside *)

Record well_sized (b : DynamicBloom) : Prop := {
  ws_probes : 1 <= kNumDoubleProbes b <= 5;
  ws_len : 0 < kLen b < 2 ^ 29;
  ws_xor a i : 0 <= a < kLen b -> 0 <= i < kNumDoubleProbes b -> 0 <= Z.lxor a i < kLen b;
  ws_data : data_ b = replicate (Z.to_nat (kLen b)) 0;
}.
Lemma lxor_block j m a i : 0 <= j -> 0 <= a < 2 ^ j * m -> 0 <= i < 2 ^ j -> 0 <= Z.lxor a i < 2 ^ j * m.
Proof.
  intros Hj Ha Hi. assert (0 <= Z.lxor a i) by (apply Z.lxor_nonneg; lia). split; [done|]. pose proof (Z.pow_pos_nonneg 2 j ltac:(lia) Hj).
  assert (E : Z.lxor a i / 2 ^ j = a / 2 ^ j) by (rewrite <- !Z.shiftr_div_pow2, Z.shiftr_lxor, (Z.shiftr_div_pow2 i), (Z.div_small i), Z.lxor_0_r by lia; done).
  assert (a / 2 ^ j < m) by (apply Z.div_lt_upper_bound; lia). pose proof (Z.mul_succ_div_gt (Z.lxor a i) (2 ^ j) ltac:(lia)). nia.
Qed.

(** For an even number of probes up to ten, and a number of bits that leaves room to round up to whole blocks below [2 ^ 32], the constructor makes a filter of at least
    that many bits, in words that are aligned to a block and lie in the memory that was allocated, wherever that is, and in which
    every probe [a ^ i] of a first word [a] is a word of the filter. *)
Theorem dynamic_bloom_layout AllocateAligned total_bits p : 1 <= p <= 5 -> 1 <= total_bits < 2 ^ 32 - 512 -> (forall sz, 0 <= AllocateAligned sz) ->
  exists l, DynamicBloom_new AllocateAligned total_bits (2 * p) = Some l /\ well_sized (bloom l) /\ kNumDoubleProbes (bloom l) = p /\ total_bits <= 64 * kLen (bloom l) /\
    (exists j, 0 <= j /\ p <= 2 ^ j /\ data_address l mod (8 * 2 ^ j) = 0) /\
    AllocateAligned (allocated l) <= data_address l /\ data_address l + 8 * kLen (bloom l) <= AllocateAligned (allocated l) + allocated l.
Proof.
  intros Hp Ht Hraw. unfold DynamicBloom_new. rewrite (proj2 (Z.eqb_neq (2 * p) 1)) by lia. rewrite Z.add_0_r, u32_small, Z.mul_comm, Z.div_mul by lia.
  assert (Hj : exists j, 0 <= j <= 3 /\ roundUpToPow2 p = Some (2 ^ j) /\ p <= 2 ^ j).
  { assert (Hc : p = 1 \/ p = 2 \/ p = 3 \/ p = 4 \/ p = 5) by lia. destruct Hc as [->|[->|[->|[->| ->]]]]; [exists 0|exists 1|exists 2|exists 2|exists 3]; (split; [lia|split; [reflexivity|lia]]). }
  destruct Hj as (j & Hj & -> & Hpj). cbn [mbind option_bind]. set (w := 2 ^ j) in *. assert (Hw : 1 <= w <= 8) by (subst w; pose proof (Z.pow_le_mono_r 2 j 3 ltac:(lia) ltac:(lia)); lia).
  rewrite Z.max_r by lia. rewrite (u32_small (8 * w)), (u32_small (8 * w * 8)), (u32_small (total_bits + _)), (u32_small (_ - 1)) by lia. set (q := _ / (8 * w * 8)).
  assert (Hq : total_bits <= q * (8 * w * 8) /\ (q - 1) * (8 * w * 8) < total_bits /\ 1 <= q).
  { subst q. pose proof (Z.mul_div_le (total_bits + 8 * w * 8 - 1) (8 * w * 8) ltac:(lia)). pose proof (Z.mul_succ_div_gt (total_bits + 8 * w * 8 - 1) (8 * w * 8) ltac:(lia)).
    split; [nia|]. split; [nia|]. apply Z.div_le_lower_bound; lia. }
  assert (Hqw : 8 <= q * (8 * w) <= 2 ^ 29 + 64) by nia. rewrite (u32_small (q * (8 * w))), (u32_small (8 * w - 1)), (u32_small (_ + _)) by lia. replace (q * (8 * w)) with (q * w * 8) by lia. rewrite Z.div_mul by lia. set (sz := q * w * 8 + _). set (raw := AllocateAligned sz).
  eexists. split; [done|]. cbn [bloom data_address allocated kLen kNumDoubleProbes]. split.
  { split; cbn [kLen kNumDoubleProbes data_]; [lia|lia| |done]. intros a i Ha Hi. rewrite (Z.mul_comm q). apply lxor_block; [lia|fold w; lia|fold w; lia]. }
  split; [done|]. split; [nia|]. specialize (Hraw sz). fold raw in Hraw |- *. pose proof (Z.mod_pos_bound raw (8 * w) ltac:(lia)) as Hmod. pose proof (Z.div_mod raw (8 * w) ltac:(lia)) as Hdm.
  destruct (Z.ltb_spec 0 (raw mod (8 * w))).
  - split; [|lia]. exists j. split; [lia|]. split; [done|]. fold w. replace (raw + _) with ((raw / (8 * w) + 1) * (8 * w)) by lia. apply Z.mod_mul. lia.
  - split; [|lia]. exists j. split; [lia|]. split; [done|]. fold w. lia.
Qed.
Lemma dynamic_bloom_layout_witness : exists l, DynamicBloom_new (fun _ => 1000) 1000 (2 * 3) = Some l /\ well_sized (bloom l) /\ kNumDoubleProbes (bloom l) = 3 /\ 1000 <= 64 * kLen (bloom l) /\
    (exists j, 0 <= j /\ 3 <= 2 ^ j /\ data_address l mod (8 * 2 ^ j) = 0) /\ 1000 <= data_address l /\ data_address l + 8 * kLen (bloom l) <= 1000 + allocated l.
Proof. apply (dynamic_bloom_layout (fun _ => 1000) 1000 3); [lia|lia|]. intros _. lia. Defined.

(** ** Bits of words *)

Definition wbit (ws : list Z) (w i : Z) : bool := Z.testbit (byte_at ws w) i.
Lemma load_word_some ws a : 0 <= a < zlen ws -> load_word ws a = Some (byte_at ws a).
Proof. intros Ha. unfold load_word. rewrite (proj2 (Z.leb_le 0 a)) by lia. by apply byte_at_lookup. Qed.
Lemma or_word_bits ws a mask : 0 <= a < zlen ws -> exists ws', or_word ws a mask = Some ws' /\ zlen ws' = zlen ws /\
  forall w i, 0 <= w -> 0 <= i -> wbit ws' w i = wbit ws w i || (w =? a) && Z.testbit mask i.
Proof.
  intros Ha. unfold or_word. rewrite load_word_some by done. eexists. split; [done|]. split; [unfold zlen; by rewrite length_insert|]. intros w i Hw Hi. unfold wbit. rewrite byte_at_set by lia.
  destruct (decide (w = a)) as [->|Hne]; [by rewrite Z.lor_spec, Z.eqb_refl|]. by rewrite (proj2 (Z.eqb_neq w a)), orb_false_r by done.
Qed.
Lemma words_ext (l1 l2 : list Z) : zlen l1 = zlen l2 -> (forall w i, 0 <= w -> 0 <= i -> wbit l1 w i = wbit l2 w i) -> l1 = l2.
Proof.
  intros El Hb. apply list_eq. intros n. unfold zlen in El. destruct (decide (n < length l1)%nat) as [Hn|Hn]; [|by rewrite !lookup_ge_None_2 by lia].
  assert (Hz : forall l : list Z, (n < length l)%nat -> l !! n = Some (byte_at l (Z.of_nat n))) by (intros l Hl; rewrite <- (Nat2Z.id n) at 1; apply byte_at_lookup; unfold zlen; lia).
  rewrite !Hz by lia. f_equal. apply Z.bits_inj'. intros i Hi. apply Hb; lia.
Qed.
Lemma land_covers v mask : 0 <= mask -> (Z.land v mask =? mask) = true <-> forall i, 0 <= i -> Z.testbit mask i = true -> Z.testbit v i = true.
Proof.
  intros Hm. rewrite Z.eqb_eq. split.
  - intros E i Hi Ht. rewrite <- E, Z.land_spec in Ht. by apply andb_true_iff in Ht as [? _].
  - intros Hc. apply Z.bits_inj'. intros i Hi. rewrite Z.land_spec. destruct (Z.testbit mask i) eqn:E; [by rewrite Hc|by rewrite andb_false_r].
Qed.

Section system.
Context (b : DynamicBloom) (sized : well_sized b) (n : nat).
Notation K := (kNumDoubleProbes b).

(** Probe [j] of a hash: its word and its mask. *)
Definition mixed (h32 j : Z) : Z := Nat.iter (Z.to_nat j) remix (u64 (golden64 * h32)).
Definition word_of (h32 j : Z) : Z := Z.lxor (first_word b h32) j.
Definition sets (h32 j w i : Z) : Prop := w = word_of h32 j /\ Z.testbit (probe_mask (mixed h32 j)) i = true.
Definition covered (ws : list Z) (h32 j : Z) : Prop := forall w i, 0 <= i -> sets h32 j w i -> wbit ws w i = true.

Lemma mixed_next h32 j : 0 <= j -> remix (mixed h32 j) = mixed h32 (j + 1).
Proof. intros Hj. unfold mixed. rewrite Z2Nat.inj_add by lia. change (Z.to_nat 1) with 1%nat. by rewrite Nat.add_1_r. Qed.
Lemma word_of_range h32 j : is_u 32 h32 -> 0 <= j < K -> 0 <= word_of h32 j < kLen b.
Proof using sized.
  intros Hh Hj. destruct sized as [_ Hl Hx _]. apply Hx; [|done]. unfold first_word, FastRange32, FastRangeGeneric32, is_u in *. assert (0 <= h32 * kLen b < 2 ^ 64) by nia. rewrite u64_small by done.
  rewrite Z.shiftr_div_pow2 by lia. assert (0 <= h32 * kLen b / 2 ^ 32 < kLen b) by (split; [apply Z.div_pos; lia|apply Z.div_lt_upper_bound; nia]). rewrite wrapT_small by (change (bits 4) with 32; lia). lia.
Qed.
Lemma probe_mask_nonneg h : 0 <= probe_mask h.
Proof. apply Z.lor_nonneg. split; apply Z.mod_pos_bound; lia. Qed.
Lemma covered_check ws h32 j : (Z.land (byte_at ws (word_of h32 j)) (probe_mask (mixed h32 j)) =? probe_mask (mixed h32 j)) = true <-> covered ws h32 j.
Proof.
  rewrite land_covers by apply probe_mask_nonneg. unfold covered, sets, wbit. split; [intros Hc w i Hi [-> Ht]; by apply Hc|]. intros Hc i Hi Ht. by apply Hc.
Qed.

(** ** The sequential operations *)

Lemma AddHash_loop_bits h32 ws : is_u 32 h32 -> zlen ws = kLen b -> forall m j, 0 <= j < K -> (Z.to_nat (K - j) <= m)%nat ->
  exists ws', AddHash_loop b m (first_word b h32) j (mixed h32 j) ws = Some ws' /\ zlen ws' = kLen b /\
    forall w i, 0 <= w -> 0 <= i -> wbit ws' w i = true <-> wbit ws w i = true \/ exists j', j <= j' < K /\ sets h32 j' w i.
Proof using sized.
  intros Hh Hl m. revert ws Hl. induction m as [|m IH]; intros ws Hl j Hj Hm; [lia|]. cbn [AddHash_loop].
  destruct (or_word_bits ws (word_of h32 j) (probe_mask (mixed h32 j))) as (w1 & E1 & L1 & B1); [rewrite Hl; by apply word_of_range|]. change (Z.lxor _ j) with (word_of h32 j). rewrite E1. cbn [mbind option_bind].
  assert (B1' : forall w i, 0 <= w -> 0 <= i -> wbit w1 w i = true <-> wbit ws w i = true \/ sets h32 j w i).
  { intros w i Hw Hi. rewrite B1, orb_true_iff, andb_true_iff, Z.eqb_eq by done. done. }
  destruct (Z.leb_spec K (j + 1)).
  - exists w1. split; [done|]. split; [lia|]. intros w i Hw Hi. rewrite B1' by done. split; (intros [?|Hs]; [by left|right]); [by exists j; split; [lia|]|].
    destruct Hs as (j' & Hj' & Hs). by replace j with j' by lia.
  - rewrite mixed_next by lia. destruct (IH w1 ltac:(lia) (j + 1) ltac:(lia) ltac:(lia)) as (w2 & -> & L2 & B2). exists w2. split; [done|]. split; [done|]. intros w i Hw Hi. rewrite B2, B1' by done. split.
    + intros [[?|?]|(j' & ? & ?)]; [by left|right; by exists j; split; [lia|]|right; by exists j'; split; [lia|]].
    + intros [?|(j' & Hj' & Hs)]; [by left; left|]. destruct (decide (j' = j)) as [->|]; [by left; right|right; by exists j'; split; [lia|]].
Qed.
Lemma AddHash_bits h32 ws : is_u 32 h32 -> zlen ws = kLen b -> exists ws', AddHash b h32 ws = Some ws' /\ zlen ws' = kLen b /\
    forall w i, 0 <= w -> 0 <= i -> wbit ws' w i = true <-> wbit ws w i = true \/ exists j, 0 <= j < K /\ sets h32 j w i.
Proof using sized. intros Hh Hl. destruct (ws_probes _ sized). apply (AddHash_loop_bits h32 ws Hh Hl); lia. Qed.

(** ** The invariant of the threads *)

Definition progress (th : thread) : option (Z * Z) :=
  match th with AddLoad h32 i _ | AddOr h32 i _ => Some (h32, i) | _ => None end.
Definition at_probe (h32 i h : Z) : Prop := is_u 32 h32 /\ 0 <= i < K /\ h = mixed h32 i.
Definition thread_ok (c : config) (th : thread) : Prop :=
  match th with
  | Idle => True
  | AddLoad h32 i h | AddOr h32 i h => at_probe h32 i h
  | Probing before h32 i h => at_probe h32 i h /\ before ⊆ added c /\ forall j, 0 <= j < i -> covered (words c) h32 j
  end.
(** Probe [j] of [h] has been made, by an add that has returned or by one under way. *)
Definition made (c : config) (h j : Z) : Prop :=
  h ∈ added c /\ 0 <= j < K \/ exists k th i, threads c !! k = Some th /\ progress th = Some (h, i) /\ 0 <= j < i.
Record inv (c : config) : Prop := {
  inv_len : zlen (words c) = kLen b;
  inv_added h : h ∈ added c -> is_u 32 h;
  inv_threads k th : threads c !! k = Some th -> thread_ok c th;
  inv_bits w i : 0 <= w -> 0 <= i -> wbit (words c) w i = true <-> exists h j, made c h j /\ sets h j w i;
}.

Lemma inv_covered c h : inv c -> h ∈ added c -> forall j, 0 <= j < K -> covered (words c) h j.
Proof using sized.
  intros Hi Hh j Hj w i Hib Hs. apply (inv_bits c Hi); [|done|exists h, j; split; [by left|done]]. destruct Hs as [-> _]. pose proof (word_of_range h j (inv_added c Hi h Hh) Hj). lia.
Qed.
(** A step that keeps the filter and the adds, and with which no add makes progress. *)
Lemma inv_set_thread c k th th' : inv c -> threads c !! k = Some th -> progress th' = progress th \/ (progress th = None /\ exists h, progress th' = Some (h, 0)) \/ progress th' = None /\ progress th = None ->
  thread_ok c th' -> inv (set_thread k th' c).
Proof.
  intros Hi Hk Hp Hok. split; cbn [set_thread words added threads]; [apply Hi|apply Hi| |].
  - intros k' th'' Hk'. destruct (decide (k' = k)) as [->|Hne].
    + rewrite list_lookup_insert_eq in Hk' by (by eapply lookup_lt_Some). injection Hk' as <-. exact Hok.
    + rewrite list_lookup_insert_ne in Hk' by done. exact (inv_threads c Hi _ _ Hk').
  - intros w i Hw Hib. rewrite (inv_bits c Hi) by done. assert (Hm : forall h j, made c h j <-> made (set_thread k th' c) h j); [|by setoid_rewrite Hm].
    intros h j. unfold made. cbn [set_thread added threads]. apply or_iff_compat_l. split.
    + intros (k' & t & i' & Ht & Hpt & Hj). destruct (decide (k' = k)) as [->|Hne].
      * rewrite Hk in Ht. injection Ht as <-. exists k, th', i'. rewrite list_lookup_insert_eq by (by eapply lookup_lt_Some). split; [done|]. split; [|done].
        destruct Hp as [->|[[? _]|[_ ?]]]; congruence.
      * exists k', t, i'. rewrite list_lookup_insert_ne by done. done.
    + intros (k' & t & i' & Ht & Hpt & Hj). destruct (decide (k' = k)) as [->|Hne].
      * rewrite list_lookup_insert_eq in Ht by (by eapply lookup_lt_Some). injection Ht as <-. destruct Hp as [Hp|[[_ [h' Hp]]|[Hp _]]]; rewrite Hp in Hpt; [|injection Hpt as _ <-; lia|done].
        exists k, th, i'. done.
      * rewrite list_lookup_insert_ne in Ht by done. by exists k', t, i'.
Qed.

Lemma thread_ok_mono c c' th : (forall h, h ∈ added c -> h ∈ added c') -> (forall w i, 0 <= w -> 0 <= i -> wbit (words c) w i = true -> wbit (words c') w i = true) ->
  thread_ok c th -> thread_ok c' th.
Proof using sized.
  intros Ha Hw. destruct th as [| | |before h32 i h]; [done|done|done|]. intros (Hat & Hb & Hc). split; [done|]. split; [set_solver|]. intros j Hj w i' Hi' Hs.
  apply Hw; [|done|by apply (Hc j Hj w i')]. destruct Hs as [-> _]. destruct Hat as (Hh & Hi & _). pose proof (word_of_range h32 j Hh ltac:(lia)). lia.
Qed.

(** Probe [i] of the add of thread [k] is made, and the thread goes on or returns. *)
Lemma made_next c k th h32 i h ws : threads c !! k = Some th -> progress th = Some (h32, i) -> 0 <= i < K -> forall h' j,
  made (next_add b k h32 i h (mkConfig ws (threads c) (added c))) h' j <-> made c h' j \/ h' = h32 /\ j = i.
Proof.
  intros Hk Hp Hi h' j. pose proof (lookup_lt_Some _ _ _ Hk) as Hlt. unfold made, next_add, set_thread. destruct (Z.leb_spec K (i + 1)) as [Hlast|Hmore]; cbn [added threads].
  - split.
    + intros [[[->|Hin]%elem_of_cons Hj]|(k' & t & i' & Ht & Hpt & Hj)]; [|by left; left|].
      * destruct (decide (j = i)) as [->|]; [by right|left; right]. exists k, th, i. split; [done|]. split; [done|lia].
      * destruct (decide (k' = k)) as [->|Hne]; [rewrite list_lookup_insert_eq in Ht by done; by injection Ht as <-|]. rewrite list_lookup_insert_ne in Ht by done. left. right. by exists k', t, i'.
    + intros [[[Hin Hj]|(k' & t & i' & Ht & Hpt & Hj)]|[-> ->]]; [left; split; [by constructor|done]| |left; split; [by constructor|lia]].
      destruct (decide (k' = k)) as [->|Hne]; [|right; exists k', t, i'; by rewrite list_lookup_insert_ne].
      rewrite Hk in Ht. injection Ht as <-. rewrite Hp in Hpt. injection Hpt as <- <-. left. split; [by constructor|lia].
  - split.
    + intros [?|(k' & t & i' & Ht & Hpt & Hj)]; [by left; left|]. destruct (decide (k' = k)) as [->|Hne].
      * rewrite list_lookup_insert_eq in Ht by done. injection Ht as <-. injection Hpt as <- <-. destruct (decide (j = i)) as [->|]; [by right|left; right]. exists k, th, i. split; [done|]. split; [done|lia].
      * rewrite list_lookup_insert_ne in Ht by done. left. right. by exists k', t, i'.
    + intros [[?|(k' & t & i' & Ht & Hpt & Hj)]|[-> ->]]; [by left| |].
      * right. destruct (decide (k' = k)) as [->|Hne]; [|exists k', t, i'; by rewrite list_lookup_insert_ne]. rewrite Hk in Ht. injection Ht as <-. rewrite Hp in Hpt. injection Hpt as <- <-.
        eexists k, _, _. rewrite list_lookup_insert_eq by done. split; [done|]. split; [done|lia].
      * right. eexists k, _, _. rewrite list_lookup_insert_eq by done. split; [done|]. split; [done|lia].
Qed.
Lemma inv_next c k th h32 i h ws : inv c -> threads c !! k = Some th -> progress th = Some (h32, i) -> at_probe h32 i h -> zlen ws = kLen b ->
  (forall w i', 0 <= w -> 0 <= i' -> wbit ws w i' = true <-> wbit (words c) w i' = true \/ sets h32 i w i') -> inv (next_add b k h32 i h (mkConfig ws (threads c) (added c))).
Proof using sized.
  intros Hinv Hk Hp (Hh & Hi & Eh) Hl Hw. set (c' := next_add _ _ _ _ _ _). pose proof (lookup_lt_Some _ _ _ Hk) as Hlt.
  assert (Ew : words c' = ws) by (unfold c', next_add; by case_match).
  assert (Ha : forall x, x ∈ added c -> x ∈ added c') by (intros x Hx; unfold c', next_add; case_match; cbn; [by constructor|done]).
  split.
  - by rewrite Ew.
  - intros x Hx. unfold c', next_add in Hx. case_match; cbn in Hx; [apply elem_of_cons in Hx as [->|Hx]; [done|]|]; by apply (inv_added c Hinv).
  - intros k' t Ht. assert (Hcase : threads c !! k' = Some t \/ t = Idle \/ i + 1 < K /\ t = AddLoad h32 (i + 1) (remix h)).
    { unfold c', next_add, set_thread in Ht. destruct (Z.leb_spec K (i + 1)); cbn [threads] in Ht; (destruct (decide (k' = k)) as [->|Hne]; [rewrite list_lookup_insert_eq in Ht by done; injection Ht as <-|rewrite list_lookup_insert_ne in Ht by done]); auto. }
    destruct Hcase as [Hold|[->|[Hlt' ->]]]; [|done|].
    + apply (thread_ok_mono c); [done| |by apply (inv_threads c Hinv k')]. intros w i' Hw0 Hi0 Hb. rewrite Ew. apply Hw; auto.
    + split; [done|]. split; [lia|]. rewrite Eh. apply mixed_next. lia.
  - intros w i' Hw0 Hi0. rewrite Ew, Hw, (inv_bits c Hinv) by done. unfold c'. setoid_rewrite (made_next c k th h32 i h ws Hk Hp Hi). split.
    + intros [(h' & j & ? & ?)|?]; [by exists h', j; auto|]. exists h32, i. auto.
    + intros (h' & j & [?|[-> ->]] & ?); [left; by exists h', j|by right].
Qed.

Definition answer_ok (c : config) (e : event) : Prop :=
  match e with
  | Silent => True
  | Answered before h r => (h ∈ before -> r = true) /\ (r = true -> forall j, 0 <= j < K -> covered (words c) h j)
  end.
Lemma bloom_step_inv c k th req : inv c -> threads c !! k = Some th -> (match req with ReqAddHashConcurrently h | ReqMayContainHash h => is_u 32 h end) ->
  exists c' e, step b k req c = Some (c', e) /\ inv c' /\ answer_ok c' e.
Proof using sized.
  intros Hinv Hk Hreq. pose proof (inv_threads c Hinv k th Hk) as Hok. unfold step. rewrite Hk. cbn [mbind option_bind]. destruct (ws_probes b sized) as [HK _].
  destruct th as [|h32 i h|h32 i h|before h32 i h].
  - eexists _, _. split; [done|]. split; [|done]. destruct req as [h32|h32]; (eapply inv_set_thread; [done|exact Hk|cbn; eauto|]); cbn.
    + split; [done|]. split; [lia|done].
    + split; [split; [done|]; split; [lia|done]|]. split; [done|]. lia.
  - destruct Hok as (Hh & Hi & ->). change (Z.lxor _ i) with (word_of h32 i). rewrite load_word_some by (rewrite (inv_len c Hinv); by apply word_of_range). cbn [mbind option_bind]. eexists _, _. split; [done|]. split; [|done].
    rewrite Z.land_comm. destruct (_ =? _) eqn:E; cbn [negb]; [|eapply inv_set_thread; [done|exact Hk|by left|done]].
    apply covered_check in E. destruct c as [ws ths ad]. eapply (inv_next (mkConfig ws ths ad)); [done|exact Hk|done|done|apply Hinv|].
    intros w i' Hw Hi'. split; [by left|]. intros [?|Hs]; [done|]. by apply (E w i').
  - destruct Hok as (Hh & Hi & ->). change (Z.lxor _ i) with (word_of h32 i).
    destruct (or_word_bits (words c) (word_of h32 i) (probe_mask (mixed h32 i))) as (ws & -> & Hl & Hb); [rewrite (inv_len c Hinv); by apply word_of_range|]. cbn [mbind option_bind]. eexists _, _. split; [done|]. split; [|done].
    eapply inv_next; [done|exact Hk|done|done|by rewrite Hl; apply Hinv|]. intros w i' Hw Hi'. rewrite Hb, orb_true_iff, andb_true_iff, Z.eqb_eq by done. done.
  - destruct Hok as ((Hh & Hi & ->) & Hbef & Hcov). change (Z.lxor _ i) with (word_of h32 i). rewrite load_word_some by (rewrite (inv_len c Hinv); by apply word_of_range). cbn [mbind option_bind].
    assert (Hidle : inv (set_thread k Idle c)) by (eapply inv_set_thread; [done|exact Hk|by left|done]).
    assert (Hmust : h32 ∈ before -> covered (words c) h32 i) by (intros Hin; apply (inv_covered c h32); [done|by apply Hbef|done]).
    pose proof (covered_check (words c) h32 i) as Hcheck. destruct (Z.leb_spec K (i + 1)) as [Hlast|Hmore].
    + eexists _, _. split; [done|]. split; [exact Hidle|]. split; [intros Hin; by apply Hcheck, Hmust|]. intros Hr j Hj. destruct (decide (j = i)) as [->|]; [by apply Hcheck|apply Hcov; lia].
    + destruct (_ =? _) eqn:E; cbn [negb]; eexists _, _; (split; [done|]).
      * split; [|done]. eapply inv_set_thread; [done|exact Hk|by left|]. cbn. split; [split; [done|]; split; [lia|apply mixed_next; lia]|]. split; [done|].
        intros j Hj. destruct (decide (j = i)) as [->|]; [by apply Hcheck|apply Hcov; lia].
      * split; [exact Hidle|]. split; [intros Hin; by apply Hcheck, Hmust|done].
Qed.
Lemma zero_bits m w i : wbit (replicate m 0) w i = false.
Proof. unfold wbit, byte_at. rewrite nth_lookup. destruct (replicate m 0 !! _) as [x|] eqn:E; [apply lookup_replicate in E as [-> _]|]; apply Z.testbit_0_l. Qed.
Lemma inv_init : inv (init b n).
Proof using sized.
  destruct sized as [_ Hl _ Hd]. split; cbn [init words added threads].
  - rewrite Hd. unfold zlen. rewrite length_replicate. lia.
  - by intros h ?%not_elem_of_nil.
  - intros k th Hth. by apply lookup_replicate in Hth as [-> _].
  - intros w i _ _. rewrite Hd, zero_bits. split; [done|]. intros (h & j & [[Hin _]|(k & th & i' & Ht & Hp & _)] & _); [by apply not_elem_of_nil in Hin|].
    cbn in Ht. apply lookup_replicate in Ht as [-> _]. done.
Qed.
Lemma bloom_reachable_inv c : reachable b n c -> inv c.
Proof using sized.
  induction 1 as [|c k req c' e Hr IH Hreq Hs]; [apply inv_init|]. destruct (threads c !! k) as [th|] eqn:Hk; [|by unfold step in Hs; rewrite Hk in Hs].
  destruct (bloom_step_inv c k th req IH Hk Hreq) as (c1 & e1 & E & Hi & _). rewrite E in Hs. by injection Hs as <- _.
Qed.
Lemma sequential_adds hs : (forall h, h ∈ hs -> is_u 32 h) -> exists ws, foldr (fun h ws => ws ≫= AddHash b h) (Some (data_ b)) hs = Some ws /\ zlen ws = kLen b /\
  forall w i, 0 <= w -> 0 <= i -> wbit ws w i = true <-> exists h j, h ∈ hs /\ 0 <= j < K /\ sets h j w i.
Proof using sized.
  intros Hh. destruct sized as [_ Hl _ Hd]. induction hs as [|h hs IH]; cbn [foldr].
  - exists (data_ b). split; [done|]. split; [rewrite Hd; unfold zlen; rewrite length_replicate; lia|]. intros w i _ _. rewrite Hd, zero_bits. split; [done|]. by intros (? & ? & ?%not_elem_of_nil & _).
  - destruct IH as (ws & -> & Hz & Hb); [intros x Hx; apply Hh; by constructor|]. cbn [mbind option_bind]. destruct (AddHash_bits h ws) as (ws' & -> & Hz' & Hb'); [apply Hh; by constructor|done|].
    exists ws'. split; [done|]. split; [done|]. intros w i Hw Hi. rewrite Hb', Hb by done. setoid_rewrite elem_of_cons. naive_solver.
Qed.
End system.

(** C12: However threads that add hashes with [AddHashConcurrently] and query with [MayContainHash] interleave, every step of every thread stays inside the filter; a query for a hash whose add
    had returned when it began answers true, and one that answers true found its bits set by adds that had been made; and when no add is under way the filter
    is the one that sequential calls of [AddHash] give. *)
Theorem concurrent_bloom_correct b n c : well_sized b -> reachable b n c ->
  (forall k th req, threads c !! k = Some th -> (match req with ReqAddHashConcurrently h | ReqMayContainHash h => is_u 32 h end) ->
     exists c' e, step b k req c = Some (c', e) /\
       forall before h r, e = Answered before h r -> (h ∈ before -> r = true) /\
         (r = true -> forall j w i, 0 <= j < kNumDoubleProbes b -> 0 <= w -> 0 <= i -> sets b h j w i -> exists h' j', made b c' h' j' /\ sets b h' j' w i)) /\
  ((forall k th, threads c !! k = Some th -> progress th = None) -> foldr (fun h ws => ws ≫= AddHash b h) (Some (data_ b)) (added c) = Some (words c)).
Proof.
  intros Hs Hr. pose proof (bloom_reachable_inv b Hs n c Hr) as Hinv. split.
  - intros k th req Hk Hreq. destruct (bloom_step_inv b Hs c k th req Hinv Hk Hreq) as (c' & e & E & Hi & Ha). exists c', e. split; [done|]. intros before h r ->. destruct Ha as [Ha1 Ha2]. split; [done|].
    intros -> j w i Hj Hw Hib Hset. apply (inv_bits b c' Hi); [done|done|]. by apply (Ha2 eq_refl j Hj w i).
  - intros Hidle. destruct (sequential_adds b Hs (added c) (inv_added b c Hinv)) as (ws & -> & Hl & Hb). f_equal. apply words_ext; [by rewrite Hl, (inv_len b c Hinv)|]. intros w i Hw Hi.
    apply eq_true_iff_eq. rewrite Hb, (inv_bits b c Hinv) by done. split.
    + intros (h & j & ? & ? & ?). exists h, j. split; [by left|done].
    + intros (h & j & [[? ?]|(k & th & i' & Ht & Hp & _)] & ?); [by exists h, j|]. by rewrite (Hidle k th Ht) in Hp.
Qed.

(** A schedule: which thread steps, and what it begins if it is idle. *)
Fixpoint run_schedule (b : DynamicBloom) (l : list (nat * request)) (c : config) : option config :=
  match l with
  | [] => Some c
  | (k, req) :: l => r ← step b k req c; run_schedule b l r.1
  end.
Lemma run_reachable b n l : forall c c', reachable b n c -> Forall (fun '(_, req) => match req with ReqAddHashConcurrently h | ReqMayContainHash h => is_u 32 h end) l ->
  run_schedule b l c = Some c' -> reachable b n c'.
Proof.
  induction l as [|[k req] l IH]; intros c c' Hr Hl E; cbn [run_schedule] in E; [by injection E as <-|]. apply Forall_cons in Hl as [Hq Hl]. destruct (step b k req c) as [[c1 e]|] eqn:E1; [|done].
  apply (IH c1); [by eapply reach_step|done|done].
Qed.
Definition two_words : DynamicBloom := mkBloom 2 2 [0; 0].
Lemma two_words_sized : well_sized two_words.
Proof. split; cbn [two_words kLen kNumDoubleProbes data_]; [lia|lia| |done]. intros a i Ha Hi. by apply (lxor_block 1 1 a i). Qed.
(** Two adds, interleaved, and a query that begins when one of them has returned. *)
Definition two_adds : list (nat * request) :=
  [(0%nat, ReqAddHashConcurrently 5); (1%nat, ReqAddHashConcurrently 0xdeadbeef); (0%nat, ReqMayContainHash 0); (1%nat, ReqMayContainHash 0);
   (1%nat, ReqMayContainHash 0); (0%nat, ReqMayContainHash 0); (0%nat, ReqMayContainHash 0); (0%nat, ReqMayContainHash 0); (2%nat, ReqMayContainHash 5); (2%nat, ReqMayContainHash 0)].
Lemma concurrent_bloom_correct_witness : exists c, run_schedule two_words two_adds (init two_words 3) = Some c /\ added c = [5] /\
  exists c' e, step two_words 2 (ReqMayContainHash 0) c = Some (c', e) /\ e = Answered [5] 5 true /\
  forall before h r, e = Answered before h r -> h ∈ before -> r = true.
Proof.
  destruct (run_schedule two_words two_adds (init two_words 3)) as [c|] eqn:E; [|by vm_compute in E]. exists c. split; [done|].
  destruct (concurrent_bloom_correct two_words 3 c two_words_sized) as [Hstep _].
  - refine (run_reachable two_words 3 two_adds _ c (reach_init _ _) _ E). by repeat constructor.
  - vm_compute in E. injection E as <-. split; [done|]. destruct (Hstep 2%nat _ (ReqMayContainHash 0) eq_refl) as (c' & e & Es & Ha); [done|]. exists c', e. split; [done|]. split.
    + vm_compute in Es. by injection Es as _ <-.
    + intros before h r He. apply (Ha before h r He).
Defined.
