(* ===== verification/Crc32cProofs.v ===== *)
(** * CRC-32C: the tables, the buffers and the combination of checksums

    A checksum is [iter (8 n) crc_bit (l xor le_val data)]: the bits of the data in little-endian order are shifted through the register. Every implementation computes
    that, and since [crc_bit] is linear over GF(2), checksums of parts can be combined. *)

From stdpp Require Import prelude.
From Stdlib Require Import ZArith Lia Bool.
From S2P Require Import Prelude Coding Math Crc32c.

Notation iter n := (Nat.iter n crc_bit).

(** ** The register is linear *)

Lemma crc_bit_linear : linear crc_bit.
Proof.
  intros a b. unfold crc_bit. rewrite Z.shiftr_lxor. replace (Z.odd (Z.lxor a b)) with (xorb (Z.odd a) (Z.odd b)) by (rewrite <- !Z.bit0_odd, Z.lxor_spec; done).
  rewrite !Z.lxor_assoc. f_equal. rewrite <- !Z.lxor_assoc, (Z.lxor_comm _ (Z.shiftr b 1)), !Z.lxor_assoc. f_equal.
  by destruct (Z.odd a), (Z.odd b); cbn [xorb]; rewrite ?Z.lxor_nilpotent, ?Z.lxor_0_l, ?Z.lxor_0_r.
Qed.
Lemma iter_lxor n a b : iter n (Z.lxor a b) = Z.lxor (iter n a) (iter n b).
Proof. induction n as [|n IH]; [done|]. by rewrite !Nat.iter_succ, IH, crc_bit_linear. Qed.
Lemma iter_linear n : linear (fun v => iter n v).
Proof. intros a b. apply iter_lxor. Qed.
#[local] Hint Resolve crc_bit_linear iter_linear : linear.
Lemma iter_add n m v : iter (n + m) v = iter n (iter m v).
Proof. induction n as [|n IH]; [done|]. cbn [Nat.add]. by rewrite !Nat.iter_succ, IH. Qed.
Lemma lxor_range w a b : 0 <= w -> is_u w a -> is_u w b -> is_u w (Z.lxor a b).
Proof.
  unfold is_u. intros Hw Ha Hb. assert (0 <= Z.lxor a b) by (apply Z.lxor_nonneg; lia). split; [done|]. replace (Z.lxor a b) with (Z.lxor a b mod 2 ^ w); [apply Z.mod_pos_bound; lia|].
  apply Z.bits_inj'. intros i Hi. rewrite tbit_mod, Z.lxor_spec by lia. destruct (Z.ltb_spec i w); [by rewrite ?andb_true_r|]. by rewrite (tbit_high a w), (tbit_high b w), ?andb_false_r by lia.
Qed.
Lemma crc_bit_range v : is_u 32 v -> is_u 32 (crc_bit v).
Proof.
  intros Hv. unfold crc_bit. assert (H1 : is_u 32 (Z.shiftr v 1)) by (unfold is_u in *; rewrite Z.shiftr_div_pow2 by lia; split; [apply Z.div_pos; lia|apply Z.div_lt_upper_bound; lia]).
  assert (H2 : is_u 32 (if Z.odd v then crc32c_m else 0)) by (unfold is_u; destruct (Z.odd v); by vm_compute).
  by apply (lxor_range 32).
Qed.
Lemma iter_range n v : is_u 32 v -> is_u 32 (iter n v).
Proof. induction n as [|n IH]; [done|]. intros Hv. rewrite Nat.iter_succ. by apply crc_bit_range, IH. Qed.
(** Zeros shift out. *)
Lemma iter_shiftl n v : iter n (Z.shiftl v (Z.of_nat n)) = v.
Proof.
  revert v. induction n as [|n IH]; intros v; [apply Z.shiftl_0_r|]. replace (S n) with (n + 1)%nat by lia. rewrite iter_add. rewrite <- (IH v) at 2. f_equal.
  change (crc_bit (Z.shiftl v (Z.of_nat (n + 1))) = Z.shiftl v (Z.of_nat n)). unfold crc_bit. rewrite Nat2Z.inj_add, <- Z.shiftl_shiftl by lia. rewrite Z.shiftr_shiftl_l by lia. change (Z.of_nat 1 - 1) with 0. rewrite Z.shiftl_0_r.
  replace (Z.odd _) with false; [by rewrite Z.lxor_0_r|]. by rewrite <- Z.bit0_odd, Z.shiftl_spec_low by lia.
Qed.

(** ** The reference: bytes in order, eight bits each *)

Definition crc_byte (l b : Z) : Z := iter 8 (Z.lxor l b).
Definition crc_bytes (l : Z) (p : list Z) : Z := foldl crc_byte l p.
Lemma crc_bytes_iter p : bytes_ok p -> forall l, crc_bytes l p = iter (8 * length p) (Z.lxor l (le_val p)).
Proof.
  induction 1 as [|b p Hb Hp IH]; intros l; cbn [crc_bytes foldl length]; [by rewrite Z.lxor_0_r|]. fold (crc_bytes (crc_byte l b) p). rewrite IH. unfold crc_byte. replace (8 * S (length p))%nat with (8 * length p + 8)%nat by lia.
  rewrite iter_add. f_equal. replace (le_val (b :: p)) with (Z.lxor b (Z.shiftl (le_val p) 8)).
  - rewrite <- Z.lxor_assoc, (iter_lxor 8 (Z.lxor l b)).
    pose proof (iter_shiftl 8 (le_val p)) as E. change (Z.of_nat 8) with 8 in E. by rewrite E.
  - cbn [le_val]. unfold is_byte, is_u in Hb. rewrite <- Z.add_nocarry_lxor.
    + rewrite Z.shiftl_mul_pow2 by lia. lia.
    + apply Z.bits_inj'. intros i Hi. rewrite Z.land_spec, Z.shiftl_spec, Z.bits_0 by lia. destruct (Z.ltb_spec i 8); [by rewrite (tbit_neg _ (i - 8)), andb_false_r by lia|by rewrite (tbit_high b 8) by lia].
Qed.
Lemma crc_bytes_range p l : bytes_ok p -> is_u 32 l -> is_u 32 (crc_bytes l p).
Proof.
  intros Hp. revert l. induction Hp as [|b p Hb _ IH]; intros l Hl; [done|]. change (crc_bytes l (b :: p)) with (crc_bytes (crc_byte l b) p). apply IH. apply iter_range, lxor_range; [done|done|]. unfold is_byte, is_u in *. lia.
Qed.

(** ** The tables *)

Definition table_ok (table : list Z) (n : nat) : bool := forallb (fun i => at_ table (Z.of_nat i) =? iter n (Z.of_nat i)) (seq 0 256).
Lemma tables : table_ok table0_ 8 && table_ok table1_ 16 && table_ok table2_ 24 && table_ok table3_ 32 = true.
Proof. by vm_compute. Qed.
Lemma table_spec table n i : table_ok table n = true -> is_byte i -> at_ table i = iter n i.
Proof.
  intros Ht Hi. unfold is_byte, is_u in Hi. unfold table_ok in Ht. rewrite forallb_forall in Ht. specialize (Ht (Z.to_nat i) ltac:(apply in_seq; lia)). rewrite Z2Nat.id in Ht by lia. by apply Z.eqb_eq.
Qed.
Lemma tables_spec i : is_byte i -> at_ table0_ i = iter 8 i /\ at_ table1_ i = iter 16 i /\ at_ table2_ i = iter 24 i /\ at_ table3_ i = iter 32 i.
Proof. pose proof tables as Ht. rewrite !andb_true_iff in Ht. destruct Ht as [[[H0 H1] H2] H3]. intros Hi. split_and!; by apply table_spec. Qed.
Lemma low_byte v : is_byte (Z.land v 0xff).
Proof. change 0xff with (Z.ones 8). rewrite Z.land_ones by lia. apply Z.mod_pos_bound. lia. Qed.
Lemma STEP1_spec l b p : is_u 32 l -> is_byte b -> STEP1 l (b :: p) = (crc_byte l b, p).
Proof.
  intros Hl Hb. unfold STEP1. change (byte_at (b :: p) 0) with b. change (zdrop 1 (b :: p)) with p. f_equal.
  assert (Hx : Z.lxor (Z.land l 255) b = Z.land (Z.lxor l b) 255).
  { apply Z.bits_inj'. intros i Hi. rewrite !Z.lxor_spec, !Z.land_spec, Z.lxor_spec. change 255 with (Z.ones 8). destruct (Z.ltb_spec i 8).
    - rewrite Z.ones_spec_low by lia. by rewrite !andb_true_r.
    - rewrite Z.ones_spec_high, !andb_false_r by lia. by rewrite (tbit_high b 8). }
  assert (Hs : Z.shiftr l 8 = Z.shiftr (Z.lxor l b) 8).
  { rewrite Z.shiftr_lxor, (Z.shiftr_div_pow2 b) by lia. unfold is_byte, is_u in Hb. rewrite (Z.div_small b) by lia. by rewrite Z.lxor_0_r. }
  rewrite Hx, Hs. rewrite (proj1 (tables_spec _ (low_byte _))). unfold crc_byte. symmetry.
  apply (linear_ext 32 (fun v => iter 8 v) (fun v => Z.lxor (iter 8 (Z.land v 255)) (Z.shiftr v 8))).
  - auto with linear.
  - apply linear_lxor; [|auto with linear]. apply (linear_compose (fun v => Z.land v 255) (fun v => iter 8 v)); auto with linear.
  - by vm_compute.
  - apply lxor_range; [lia|done|]. unfold is_byte, is_u in *. lia.
Qed.

(** ** Eight bytes at a time *)

(** What [ExtendImpl] expects of the function it is instantiated with. *)
Class Crc8 (CRC32 : Z -> list Z -> Z * list Z) : Prop :=
  crc8 l p : is_u 32 l -> bytes_ok p -> 8 <= zlen p -> CRC32 l p = (crc_bytes l (ztake 8 p), zdrop 8 p).

Section implementations.
Context `{Port}.
Lemma crc_bytes_app l p q : crc_bytes l (p ++ q) = crc_bytes (crc_bytes l p) q.
Proof. apply foldl_app. Qed.
Lemma slow_tables c : is_u 32 c ->
  Z.lxor (Z.lxor (Z.lxor (at_ table3_ (Z.land c 0xff)) (at_ table2_ (Z.land (Z.shiftr c 8) 0xff))) (at_ table1_ (Z.land (Z.shiftr c 16) 0xff))) (at_ table0_ (Z.shiftr c 24)) = iter 32 c.
Proof.
  intros Hc. assert (Htop : Z.shiftr c 24 = Z.land (Z.shiftr c 24) 0xff).
  { change 255 with (Z.ones 8). rewrite Z.land_ones, Z.mod_small; [done| |lia]. unfold is_u in Hc. rewrite Z.shiftr_div_pow2 by lia. split; [apply Z.div_pos; lia|apply Z.div_lt_upper_bound; lia]. }
  rewrite Htop. destruct (tables_spec _ (low_byte c)) as (_ & _ & _ & ->). destruct (tables_spec _ (low_byte (Z.shiftr c 8))) as (_ & _ & -> & _).
  destruct (tables_spec _ (low_byte (Z.shiftr c 16))) as (_ & -> & _ & _). destruct (tables_spec _ (low_byte (Z.shiftr c 24))) as (-> & _). symmetry.
  apply (linear_ext 32 (fun v => iter 32 v) (fun c => Z.lxor (Z.lxor (Z.lxor (iter 32 (Z.land c 0xff)) (iter 24 (Z.land (Z.shiftr c 8) 0xff))) (iter 16 (Z.land (Z.shiftr c 16) 0xff))) (iter 8 (Z.land (Z.shiftr c 24) 0xff)))).
  - auto with linear.
  - assert (Hpart : forall n s, linear (fun c => iter n (Z.land (Z.shiftr c s) 0xff))) by (intros n s; apply (linear_compose (fun v => Z.land (Z.shiftr v s) 255) (fun v => iter n v)); auto with linear).
    apply linear_lxor; [apply linear_lxor; [apply linear_lxor; [|apply Hpart]|apply Hpart]|apply Hpart]. apply (linear_compose (fun v => Z.land v 255) (fun v => iter 32 v)); auto with linear.
  - by vm_compute.
  - done.
Qed.
Lemma half_spec l p : is_u 32 l -> bytes_ok p -> 4 <= zlen p -> Slow_CRC32_half l p = crc_bytes l (ztake 4 p).
Proof.
  intros Hl Hp Hn. unfold Slow_CRC32_half, LE_LOAD32. unfold zlen in Hn. rewrite DecodeFixed32_eq by (by apply bytes_ok_take || lia). change (ztake 4 p) with (take 4 p).
  assert (Hv : is_u 32 (le_val (take 4 p))).
  { pose proof (le_val_range (take 4 p) (bytes_ok_take 4 p Hp)) as Hb. unfold zlen in Hb. rewrite length_take, Nat.min_l in Hb by lia. exact Hb. }
  pose proof (lxor_range 32 _ _ ltac:(lia) Hl Hv) as Hc. rewrite u32_small by exact Hc. rewrite slow_tables by done. rewrite crc_bytes_iter by (by apply bytes_ok_take). rewrite length_take, Nat.min_l by lia. done.
Qed.
#[export] Instance slow_crc8 : Crc8 Slow_CRC32.
Proof.
  intros l p Hl Hp Hn. unfold Slow_CRC32. rewrite (half_spec l) by (done || lia). rewrite half_spec; [|apply crc_bytes_range; [by apply bytes_ok_take|done]|by apply bytes_ok_drop|rewrite zlen_zdrop; lia].
  rewrite zdrop_zdrop by lia. f_equal. rewrite <- crc_bytes_app. f_equal. unfold ztake, zdrop. change (Z.to_nat 8) with (4 + 4)%nat. by rewrite take_take_drop.
Qed.
#[export] Instance fast_crc8 : Crc8 Fast_CRC32.
Proof.
  intros l p Hl Hp Hn. unfold Fast_CRC32, mm_crc32_u64, LE_LOAD64. f_equal. unfold zlen in Hn. rewrite DecodeFixed64_eq by (by apply bytes_ok_take || lia). rewrite u32_small by exact Hl.
  change (ztake 8 p) with (take 8 p). rewrite crc_bytes_iter by (by apply bytes_ok_take). by rewrite length_take, Nat.min_l by lia.
Qed.

(** ** Buffers *)

Lemma steps_spec n : forall l p, is_u 32 l -> bytes_ok p -> (n <= length p)%nat -> steps n l p = (crc_bytes l (take n p), drop n p).
Proof.
  induction n as [|n IH]; intros l p Hl Hp Hn; [done|]. destruct p as [|b p]; cbn [length] in Hn; [lia|]. apply Forall_cons in Hp as [Hb Hp].
  cbn [steps]. rewrite STEP1_spec by done. rewrite IH; [done| |done|lia]. apply (crc_bytes_range [b]); [by constructor|done].
Qed.
Section extend.
Context (CRC32 : Z -> list Z -> Z * list Z) {Hcrc : Crc8 CRC32}.
(** A loop leaves the bytes it did not take. *)
Definition consumed (l : Z) (p : list Z) (r : Z * list Z) : Prop := exists q, p = q ++ r.2 /\ r.1 = crc_bytes l q.
Lemma consumed_trans l p r r' : consumed l p r -> consumed r.1 r.2 r' -> consumed l p r'.
Proof. intros (q & -> & E) (q' & -> & E'). exists (q ++ q'). rewrite app_assoc. split; [done|]. by rewrite crc_bytes_app, <- E. Qed.
Lemma consumed_ok l p r : is_u 32 l -> bytes_ok p -> consumed l p r -> is_u 32 r.1 /\ bytes_ok r.2.
Proof. intros Hl Hp (q & -> & ->). apply Forall_app in Hp as [Hq Hp]. split; [by apply crc_bytes_range|done]. Qed.
Lemma crc8_consumed l p : is_u 32 l -> bytes_ok p -> 8 <= zlen p -> consumed l p (CRC32 l p).
Proof using Hcrc. intros Hl Hp Hn. rewrite Hcrc by done. exists (ztake 8 p). split; [symmetry; apply ztake_zdrop|done]. Qed.
Lemma crc8_len l p : is_u 32 l -> bytes_ok p -> 8 <= zlen p -> zlen (CRC32 l p).2 = zlen p - 8.
Proof using Hcrc. intros Hl Hp Hn. rewrite Hcrc by done. cbn [snd]. by rewrite zlen_zdrop by lia. Qed.
Lemma by16_consumed fuel : forall l p, is_u 32 l -> bytes_ok p -> consumed l p (by16 CRC32 fuel l p).
Proof using Hcrc.
  induction fuel as [|fuel IH]; intros l p Hl Hp; cbn [by16]; [by exists []|]. destruct (Z.leb_spec 16 (zlen p)); [|by exists []].
  pose proof (crc8_consumed l p Hl Hp ltac:(lia)) as H1. pose proof (crc8_len l p Hl Hp ltac:(lia)) as E1. destruct (CRC32 l p) as [l1 p1]. destruct (consumed_ok _ _ _ Hl Hp H1) as [Hl1 Hp1]. cbn [fst snd] in *.
  pose proof (crc8_consumed l1 p1 Hl1 Hp1 ltac:(lia)) as H2. destruct (CRC32 l1 p1) as [l2 p2]. destruct (consumed_ok _ _ _ Hl1 Hp1 H2) as [Hl2 Hp2]. cbn [fst snd] in *.
  eapply consumed_trans; [exact H1|]. eapply consumed_trans; [exact H2|]. by apply IH.
Qed.
Lemma by8_consumed fuel : forall l p, is_u 32 l -> bytes_ok p -> consumed l p (by8 CRC32 fuel l p).
Proof using Hcrc.
  induction fuel as [|fuel IH]; intros l p Hl Hp; cbn [by8]; [by exists []|]. destruct (Z.leb_spec 8 (zlen p)); [|by exists []].
  pose proof (crc8_consumed l p Hl Hp ltac:(lia)) as H1. destruct (CRC32 l p) as [l1 p1]. destruct (consumed_ok _ _ _ Hl Hp H1) as [Hl1 Hp1]. cbn [fst snd] in *.
  eapply consumed_trans; [exact H1|]. by apply IH.
Qed.
Lemma ExtendImpl_spec pval crc buf : is_u 32 crc -> bytes_ok buf -> 0 <= pval -> pval + 16 <= 2 ^ 64 ->
  ExtendImpl CRC32 pval crc buf = Z.lxor (crc_bytes (Z.lxor crc 0xffffffff) buf) 0xffffffff.
Proof using Hcrc.
  intros Hc Hb Hp0 Hp. unfold ExtendImpl. assert (Hones : is_u 32 0xffffffff) by (by vm_compute). pose proof (lxor_range 32 _ _ ltac:(lia) Hc Hones) as Hl. set (l := Z.lxor crc 0xffffffff) in *.
  assert (H1 : consumed l buf (if ALIGN pval 4 <=? pval + zlen buf then steps (Z.to_nat (ALIGN pval 4 - pval)) l buf else (l, buf))).
  { destruct (Z.leb_spec (ALIGN pval 4) (pval + zlen buf)); [|by exists []]. rewrite steps_spec by (done || (unfold zlen in *; lia)). exists (take (Z.to_nat (ALIGN pval 4 - pval)) buf). split; [symmetry; apply take_drop|done]. }
  destruct (if _ <=? _ then _ else _) as [l1 p1]. destruct (consumed_ok _ _ _ Hl Hb H1) as [Hl1 Hp1]. cbn [fst snd] in *.
  pose proof (by16_consumed (length p1) l1 p1 Hl1 Hp1) as H2. destruct (by16 _ _ _ _) as [l2 p2]. destruct (consumed_ok _ _ _ Hl1 Hp1 H2) as [Hl2 Hp2]. cbn [fst snd] in *.
  pose proof (by8_consumed (length p2) l2 p2 Hl2 Hp2) as H3. destruct (by8 _ _ _ _) as [l3 p3]. destruct (consumed_ok _ _ _ Hl2 Hp2 H3) as [Hl3 Hp3]. cbn [fst snd] in *.
  rewrite steps_spec, take_ge by done. pose proof (consumed_trans _ _ _ _ (consumed_trans _ _ _ _ H1 H2) H3) as (q & E & E3). cbn [fst snd] in *. rewrite E, crc_bytes_app, <- E3.
  apply u32_small. apply (lxor_range 32); [lia| |done]. by apply crc_bytes_range.
Qed.
End extend.
End implementations.

(** C15: On any buffer at any address, the table-driven CRC and the one with the CRC instruction compute the CRC of the bitwise definition, extended from the checksum of what came
    before. *)
Theorem crc_extend_spec `{Port} pval crc buf : is_u 32 crc -> bytes_ok buf -> 0 <= pval -> pval + 16 <= 2 ^ 64 ->
  let spec := Z.lxor (foldl (fun l b => Nat.iter 8 crc_bit (Z.lxor l b)) (Z.lxor crc 0xffffffff) buf) 0xffffffff in
  ExtendImpl Slow_CRC32 pval crc buf = spec /\ ExtendImpl Fast_CRC32 pval crc buf = spec.
Proof. intros Hc Hb H0 Hp spec. split; by apply (ExtendImpl_spec _). Qed.
#[local] Instance some_port : Port := {| kLittleEndian := true |}.
Lemma crc_extend_spec_witness : ExtendImpl Slow_CRC32 1003 0 (map Z.of_nat (seq 0 32)) = 0x46dd794e /\ ExtendImpl Fast_CRC32 1003 0 (map Z.of_nat (seq 0 32)) = 0x46dd794e.
Proof. apply (crc_extend_spec 1003 0 (map Z.of_nat (seq 0 32))); [done|by repeat constructor|lia|lia]. Defined.

(** ** Multiplication of polynomials *)

Definition basis (i : nat) : Z := 2 ^ Z.of_nat i.
Lemma bilinear_ext w (f g : Z -> Z -> Z) : (forall b, linear (fun a => f a b)) -> (forall b, linear (fun a => g a b)) -> (forall a, linear (f a)) -> (forall a, linear (g a)) ->
  forallb (fun i => agree_on_basis w (f (basis i)) (g (basis i))) (seq 0 w) = true -> forall a b, is_u (Z.of_nat w) a -> is_u (Z.of_nat w) b -> f a b = g a b.
Proof.
  intros Hf1 Hg1 Hf2 Hg2 Hb a b Ha Hbb. apply (linear_ext w (fun a => f a b) (fun a => g a b)); [done|done| |done]. apply forallb_forall. intros i Hi. apply Z.eqb_eq.
  rewrite forallb_forall in Hb. specialize (Hb i Hi). by apply (linear_ext w (f (basis i)) (g (basis i))).
Qed.
Lemma bit_mask t : u32 (0 - Z.land t 1) = if Z.odd t then 0xffffffff else 0.
Proof. change 1 with (Z.ones 1). rewrite Z.land_ones by lia. change (2 ^ 1) with 2. rewrite Zmod_odd. by destruct (Z.odd t). Qed.
Lemma linear_select f v : linear f -> linear (fun t => if Z.odd (f t) then v else 0).
Proof.
  intros Hf a b. rewrite Hf. replace (Z.odd (Z.lxor (f a) (f b))) with (xorb (Z.odd (f a)) (Z.odd (f b))) by (rewrite <- !Z.bit0_odd, Z.lxor_spec; done).
  destruct (Z.odd (f a)), (Z.odd (f b)); cbn [xorb]; by rewrite ?Z.lxor_nilpotent, ?Z.lxor_0_l, ?Z.lxor_0_r.
Qed.
(** One round without the accumulator. *)
Definition term (a b : Z) : Z := if Z.odd (Z.shiftr b 31) then Z.land a 0xffffffff else 0.
Lemma term_eq a b : Z.land (u32 (0 - Z.land (Z.shiftr b 31) 1)) a = term a b.
Proof. rewrite bit_mask. unfold term. destruct (Z.odd _); [apply Z.land_comm|done]. Qed.
Lemma times_x a : Z.lxor (Z.shiftr a 1) (Z.land (u32 (0 - Z.land a 1)) crc32c_m) = crc_bit a.
Proof. rewrite bit_mask. unfold crc_bit. f_equal. by destruct (Z.odd a). Qed.
Lemma gf_acc n : forall p a b, gf_multiply_sw_1 n p a b crc32c_m = Z.lxor p (gf_multiply_sw_1 n 0 a b crc32c_m).
Proof.
  induction n as [|n IH]; intros p a b; cbn [gf_multiply_sw_1]; [by rewrite Z.lxor_0_r|]. rewrite IH, (IH (Z.lxor 0 _)), Z.lxor_0_l. by rewrite Z.lxor_assoc.
Qed.
Lemma gf_step n a b : gf_multiply_sw_1 (S n) 0 a b crc32c_m = Z.lxor (term a b) (gf_multiply_sw_1 n 0 (crc_bit a) (u32 (Z.shiftl b 1)) crc32c_m).
Proof. cbn [gf_multiply_sw_1]. rewrite gf_acc, Z.lxor_0_l, term_eq, times_x. done. Qed.
Lemma gf_linear_l n : forall b, linear (fun a => gf_multiply_sw_1 n 0 a b crc32c_m).
Proof.
  induction n as [|n IH]; intros b x y; [done|]. rewrite !gf_step, crc_bit_linear, (IH (u32 (Z.shiftl b 1)) (crc_bit x) (crc_bit y)).
  assert (Ht : term (Z.lxor x y) b = Z.lxor (term x b) (term y b)) by (unfold term; destruct (Z.odd _); [apply (linear_land _ _ linear_id)|done]).
  rewrite Ht, !Z.lxor_assoc. f_equal. rewrite <- !Z.lxor_assoc. f_equal. apply Z.lxor_comm.
Qed.
Lemma gf_linear_r n : forall a, linear (fun b => gf_multiply_sw_1 n 0 a b crc32c_m).
Proof.
  induction n as [|n IH]; intros a x y; [done|]. rewrite !gf_step. assert (Hu : u32 (Z.shiftl (Z.lxor x y) 1) = Z.lxor (u32 (Z.shiftl x 1)) (u32 (Z.shiftl y 1))) by (rewrite Z.shiftl_lxor; apply (linear_mod (fun v => v) 32); [lia|apply linear_id]).
  rewrite Hu, (IH (crc_bit a) (u32 (Z.shiftl x 1)) (u32 (Z.shiftl y 1))).
  assert (Ht : term a (Z.lxor x y) = Z.lxor (term a x) (term a y)) by (apply (linear_select (fun t => Z.shiftr t 31)); auto with linear).
  rewrite Ht, !Z.lxor_assoc. f_equal. rewrite <- !Z.lxor_assoc. f_equal. apply Z.lxor_comm.
Qed.
Notation mul a b := (gf_multiply_sw a b crc32c_m).
(** Multiplication commutes with the register, so multiplying with [x ^ k] is [k] steps of it. *)
Lemma mul_crc_bit a b : is_u 32 a -> is_u 32 b -> mul a (crc_bit b) = crc_bit (mul a b).
Proof.
  apply (bilinear_ext 32 (fun a b => mul a (crc_bit b)) (fun a b => crc_bit (mul a b))).
  - intros b'. apply gf_linear_l.
  - intros b' x y. unfold gf_multiply_sw. rewrite (gf_linear_l 32 b' x y). apply crc_bit_linear.
  - intros a' x y. unfold gf_multiply_sw. rewrite crc_bit_linear. apply (gf_linear_r 32 a').
  - intros a' x y. unfold gf_multiply_sw. rewrite (gf_linear_r 32 a' x y). apply crc_bit_linear.
  - by vm_compute.
Qed.
Definition one : Z := 0x80000000.
Lemma mul_one a : is_u 32 a -> mul a one = a.
Proof. apply (linear_ext 32 (fun a => mul a one) (fun a => a)); [apply gf_linear_l|apply linear_id|by vm_compute]. Qed.
Lemma one_range : is_u 32 one. Proof. by vm_compute. Qed.
Lemma mul_power a k : is_u 32 a -> mul a (iter k one) = iter k a.
Proof.
  intros Ha. induction k as [|k IH]; [by apply mul_one|]. rewrite !Nat.iter_succ, mul_crc_bit, IH; [done|done|]. apply iter_range, one_range.
Qed.
Lemma powers_spec i : gf_powers_memo i crc32c_m = iter (32 * 2 ^ i) one.
Proof.
  induction i as [|i IH]; [by vm_compute|]. cbn [gf_powers_memo]. unfold gf_square_sw. rewrite IH, mul_power by (apply iter_range, one_range). rewrite <- iter_add. f_equal. rewrite Nat.pow_succ_r'. lia.
Qed.

(** ** Appending zeros *)

Lemma powers_lookup i : (i < 62)%nat -> crc32c_powers !! i = Some (iter (32 * 2 ^ i) one).
Proof.
  intros Hi. unfold crc32c_powers. change (map ?f ?l) with (f <$> l). rewrite list_lookup_fmap, lookup_seq_lt by done. cbn [fmap option_fmap option_map]. rewrite Nat.add_0_l. by rewrite powers_spec.
Qed.
Lemma ctz_split v : 0 < v -> exists (r : nat) o, CountTrailingZeroBits v = Z.of_nat r /\ v = 2 ^ Z.of_nat r * (2 * o + 1) /\ 0 <= o.
Proof.
  destruct v as [|p|p]; [lia| |lia]. intros _. cbn [CountTrailingZeroBits]. induction p as [p _|p (r & o & E & Ev & Ho)|].
  - exists 0%nat, (Z.pos p). split; [done|]. cbn. lia.
  - exists (S r), o. cbn [ctz_pos]. rewrite E. split; [lia|]. rewrite Nat2Z.inj_succ, Z.pow_succ_r by lia. lia.
  - exists 0%nat, 0. done.
Qed.
Lemma append_zeroes_spec fuel : forall crc len_bits idx, is_u 32 crc -> 0 <= len_bits -> len_bits < 2 ^ (62 - Z.of_nat idx) -> len_bits < 2 ^ (Z.of_nat fuel - 1) -> (idx <= 62)%nat ->
  AppendZeroes_loop fuel crc len_bits crc32c_m (drop idx crc32c_powers) = Some (iter (Z.to_nat (32 * 2 ^ Z.of_nat idx * len_bits)) crc).
Proof.
  induction fuel as [|fuel IH]; intros crc len idx Hc H0 Hlen Hfuel Hidx.
  { change (Z.of_nat 0 - 1) with (-1) in Hfuel. rewrite Z.pow_neg_r in Hfuel by lia. lia. }
  cbn [AppendZeroes_loop]. destruct (Z.eqb_spec len 0) as [->|Hne]; [by rewrite Z.mul_0_r|].
  destruct (ctz_split len ltac:(lia)) as (r & o & Er & Hlen' & Ho). rewrite Er. rewrite Nat2Z.id, drop_drop.
  assert (Hpow : 0 < 2 ^ Z.of_nat r) by (apply Z.pow_pos_nonneg; lia).
  assert (Hr : (idx + r < 62)%nat).
  { assert (Z.of_nat r < 62 - Z.of_nat idx) by (apply (Z.pow_lt_mono_r_iff 2); [lia|lia|nia]). lia. }
  pose proof (powers_lookup _ Hr) as Hp. rewrite (drop_S _ _ _ Hp). cbn [head tail mbind option_bind]. rewrite mul_power by done.
  assert (Eo : Z.shiftr (Z.shiftr len (Z.of_nat r)) 1 = o).
  { rewrite Hlen', Z.shiftr_shiftr, (Z.shiftr_div_pow2) by lia. rewrite Z.pow_add_r, <- Z.div_div by lia. rewrite (Z.mul_comm (2 ^ _)), Z.div_mul by lia. change (2 ^ 1) with 2. Z.to_euclidean_division_equations; lia. }
  rewrite Eo. assert (E2 : 2 ^ (Z.of_nat r + 1) * o <= len) by (rewrite Z.pow_add_r by lia; nia).
  rewrite (IH _ _ (S (idx + r))); [|by apply iter_range|done| | |lia].
  - rewrite <- iter_add. do 2 f_equal. rewrite Hlen', Nat2Z.inj_succ, Nat2Z.inj_add, Z.pow_succ_r, Z.pow_add_r by lia.
    replace (32 * 2 ^ (idx + r))%nat with (Z.to_nat (32 * (2 ^ Z.of_nat idx * 2 ^ Z.of_nat r))) by (rewrite <- Z.pow_add_r, <- Nat2Z.inj_add by lia; rewrite Z2Nat.inj_mul by lia; f_equal; rewrite <- (Nat2Z.inj_pow 2), Nat2Z.id; lia).
    rewrite <- Z2Nat.inj_add by nia. f_equal. lia.
  - apply (Z.mul_lt_mono_pos_l (2 ^ (Z.of_nat r + 1))); [apply Z.pow_pos_nonneg; lia|]. rewrite <- Z.pow_add_r by lia. replace (Z.of_nat r + 1 + (62 - Z.of_nat (S (idx + r)))) with (62 - Z.of_nat idx) by lia. lia.
  - destruct fuel as [|fuel]; [change (Z.of_nat 1 - 1) with 0 in Hfuel; lia|]. replace (Z.of_nat (S (S fuel)) - 1) with (Z.succ (Z.of_nat (S fuel) - 1)) in Hfuel by lia. rewrite Z.pow_succ_r in Hfuel by lia.
    assert (2 * o < len) by nia. lia.
Qed.
Lemma not_lxor v : is_u 32 v -> u32 (Z.lnot v) = Z.lxor v 0xffffffff.
Proof.
  intros Hv. apply Z.bits_inj'. intros i Hi. unfold u32. rewrite tbit_mod, Z.lnot_spec, Z.lxor_spec by lia. change 0xffffffff with (Z.ones 32). destruct (Z.ltb_spec i 32).
  - rewrite Z.ones_spec_low by lia. by rewrite xorb_true_r.
  - rewrite Z.ones_spec_high by lia. by rewrite (tbit_high v 32).
Qed.
Lemma lxor_ones_twice v : Z.lxor (Z.lxor v 0xffffffff) 0xffffffff = v.
Proof. by rewrite Z.lxor_assoc, Z.lxor_nilpotent, Z.lxor_0_r. Qed.
Lemma crc_zeros n l : crc_bytes l (replicate n 0) = iter (8 * n) l.
Proof.
  rewrite crc_bytes_iter, length_replicate by (by apply Forall_replicate). f_equal. replace (le_val (replicate n 0)) with 0; [apply Z.lxor_0_r|]. induction n as [|n IH]; [done|]. cbn [replicate le_val]. lia.
Qed.

(** C30: [Crc32cCombine] of the checksums of two strings, and the length of the second, is the checksum of their concatenation, for strings of any length a [size_t] can hold, with either implementation of
    [Extend] and wherever the buffers are. *)
Theorem crc_combine_correct `{Port} CRC32 `{!Crc8 CRC32} za pa pb pab a b : bytes_ok a -> bytes_ok b -> zlen b < 2 ^ 64 ->
  Forall (fun p => 0 <= p <= 2 ^ 64 - 16) [za; pa; pb; pab] ->
  let Extend := ExtendImpl CRC32 in Crc32cCombine Extend za (Value Extend pa a) (Value Extend pb b) (zlen b) = Some (Value Extend pab (a ++ b)).
Proof.
  intros Ha Hb Hlen Haddr Extend. repeat (apply Forall_cons in Haddr as [? Haddr]). assert (Hones : is_u 32 0xffffffff) by (by vm_compute). assert (Hzero : is_u 32 0) by (by vm_compute).
  assert (Hval : forall p x, bytes_ok x -> 0 <= p <= 2 ^ 64 - 16 -> Value Extend p x = Z.lxor (crc_bytes 0xffffffff x) 0xffffffff) by (intros p x Hx Hp; unfold Value, Extend; rewrite ExtendImpl_spec by (done || lia); done).
  rewrite !Hval by (done || by apply Forall_app). pose proof (crc_bytes_range a _ Ha Hones) as HA. pose proof (crc_bytes_range b _ Hb Hones) as HB. unfold Crc32cCombine, InvertedToPure.
  assert (Hinv : forall v, is_u 32 v -> u32 (Z.lnot (Z.lxor v 0xffffffff)) = v) by (intros v Hv; rewrite not_lxor by (by apply (lxor_range 32)); apply lxor_ones_twice).
  rewrite !Hinv by done. change (u32 (-1)) with 0xffffffff. set (tmp := Z.lxor (crc_bytes 0xffffffff a) 0xffffffff). assert (Ht : is_u 32 tmp) by (by apply (lxor_range 32)).
  set (k := Z.land (zlen b) 3). assert (Hk : k = zlen b mod 4) by (unfold k; by rewrite (Z.land_ones _ 2)). pose proof (zlen_nonneg b). pose proof (Z.mod_pos_bound (zlen b) 4 ltac:(lia)).
  assert (Etmp : (if k =? 0 then tmp else PureExtend Extend za tmp (ztake k [0; 0; 0; 0])) = iter (Z.to_nat (8 * k)) tmp).
  { destruct (Z.eqb_spec k 0) as [->|]; [done|]. assert (Ez : ztake k [0; 0; 0; 0] = replicate (Z.to_nat k) 0).
    { assert (Hc : k = 1 \/ k = 2 \/ k = 3) by lia. by destruct Hc as [-> | [-> | ->]]. }
    unfold PureExtend, InvertedToPure, PureToInverted, Extend. rewrite Ez, (ExtendImpl_spec CRC32 za); [|apply u32_range|by apply Forall_replicate|lia|lia]. rewrite (not_lxor tmp), lxor_ones_twice, crc_zeros by done.
    rewrite Hinv by (by apply iter_range). f_equal. lia. }
  rewrite Etmp. unfold Crc32AppendZeroes. pose proof (append_zeroes_spec 65 (iter (Z.to_nat (8 * k)) tmp) (zlen b / 4) 0 ltac:(by apply iter_range) ltac:(apply Z.div_pos; lia)) as Happ. rewrite drop_0 in Happ.
  change (62 - Z.of_nat 0) with 62 in Happ. change (Z.of_nat 65 - 1) with 64 in Happ. rewrite Happ by (try apply Z.div_lt_upper_bound; lia). cbn [mbind option_bind]. f_equal. unfold PureToInverted. change (2 ^ Z.of_nat 0) with 1. rewrite <- iter_add.
  replace (Z.to_nat (32 * 1 * (zlen b / 4)) + Z.to_nat (8 * k))%nat with (8 * length b)%nat by (unfold zlen in *; Z.to_euclidean_division_equations; lia).
  rewrite crc_bytes_app, (crc_bytes_iter b Hb (crc_bytes _ a)), (crc_bytes_iter b Hb 0xffffffff), <- iter_lxor. rewrite not_lxor.
  - f_equal. unfold tmp. rewrite Z.lxor_assoc, <- (Z.lxor_assoc 0xffffffff), Z.lxor_nilpotent, Z.lxor_0_l. done.
  - rewrite iter_lxor. apply (lxor_range 32); [lia|by apply iter_range|]. rewrite <- crc_bytes_iter by done. done.
Qed.
Lemma crc_combine_correct_witness : let Extend := ExtendImpl Slow_CRC32 in
  Crc32cCombine Extend 16 (Value Extend 3 [1; 2; 3]) (Value Extend 40 [4; 5; 6; 7; 8; 9]) 6 = Some (Value Extend 1000 ([1; 2; 3] ++ [4; 5; 6; 7; 8; 9])).
Proof. apply (crc_combine_correct Slow_CRC32 16 3 40 1000 [1; 2; 3] [4; 5; 6; 7; 8; 9]); [by repeat constructor|by repeat constructor|done|by repeat constructor]. Defined.

(** ** Masked checksums *)

Lemma rotate_bits v n i : is_u 32 v -> 0 < n < 32 -> 0 <= i ->
  Z.testbit (Z.lor (Z.shiftr v n) (u32 (Z.shiftl v (32 - n)))) i = if i <? 32 - n then Z.testbit v (i + n) else if i <? 32 then Z.testbit v (i - (32 - n)) else false.
Proof.
  intros Hv Hn Hi. unfold u32. rewrite Z.lor_spec, Z.shiftr_spec, tbit_mod, Z.shiftl_spec by lia. destruct (Z.ltb_spec i (32 - n)).
  - rewrite (tbit_neg v (i - (32 - n))) by lia. by rewrite andb_false_r, orb_false_r.
  - rewrite (tbit_high v 32 (i + n)) by (lia || exact Hv). by destruct (Z.ltb_spec i 32).
Qed.
Lemma rotate_range v n : is_u 32 v -> 0 < n < 32 -> is_u 32 (Z.lor (Z.shiftr v n) (u32 (Z.shiftl v (32 - n)))).
Proof.
  intros Hv Hn. set (r := Z.lor _ _). replace r with (r mod 2 ^ 32); [apply Z.mod_pos_bound; lia|]. apply Z.bits_inj'. intros i Hi. rewrite tbit_mod by lia. destruct (Z.ltb_spec i 32); [by rewrite ?andb_true_l|].
  unfold r. rewrite rotate_bits by done. by rewrite (proj2 (Z.ltb_ge i (32 - n))), (proj2 (Z.ltb_ge i 32)) by lia.
Qed.
(** [Unmask] gives back the checksum. *)
Theorem mask_roundtrip crc : is_u 32 crc -> is_u 32 (Mask crc) /\ Unmask (Mask crc) = crc.
Proof.
  intros Hc. split; [apply u32_range|]. unfold Unmask, Mask. pose proof (rotate_range crc 15 Hc ltac:(lia)) as Hr. change (32 - 15) with 17 in Hr. set (rot := Z.lor (Z.shiftr crc 15) _) in *.
  assert (Es : u32 (u32 (rot + kMaskDelta) - kMaskDelta) = rot) by (unfold u32; rewrite Zminus_mod_idemp_l; replace (rot + kMaskDelta - kMaskDelta) with rot by lia; by apply Z.mod_small).
  rewrite Es. apply Z.bits_inj'. intros i Hi. pose proof (rotate_bits rot 17 i Hr ltac:(lia) Hi) as Hb. change (32 - 17) with 15 in Hb. rewrite Hb.
  assert (Hrot : forall j, 0 <= j -> Z.testbit rot j = if j <? 17 then Z.testbit crc (j + 15) else if j <? 32 then Z.testbit crc (j - 17) else false) by (intros j Hj; by apply (rotate_bits crc 15 j)).
  destruct (Z.ltb_spec i 15); [|destruct (Z.ltb_spec i 32); [|by rewrite (tbit_high crc 32)]].
  - rewrite Hrot by lia. rewrite (proj2 (Z.ltb_ge (i + 17) 17)), (proj2 (Z.ltb_lt (i + 17) 32)) by lia. f_equal. lia.
  - rewrite Hrot by lia. rewrite (proj2 (Z.ltb_lt (i - 15) 17)) by lia. f_equal. lia.
Qed.
