(* ===== verification/Xxhash.v ===== *)
(** * XXH32 and XXH64 (util/xxhash.h), in one call and streamed

    The two hash functions that checksum blocks: [XXH32] and [XXH64] of a buffer, and the streaming interface with its partially filled stripe. The theorem: however the input is cut into
    pieces, the digest of the stream is the hash of the whole. Buffers are lists of bytes; reads are of the machine's byte order and
    then swapped. *)

From stdpp Require Import prelude.
From Stdlib Require Import ZArith Lia Bool.
From S2P Require Import Prelude Coding Math.

Section xxh.
Context `{Port}.

Definition XXH_read (n : nat) (p : list Z) : Z := if kLittleEndian then le_val (take n p) else le_val (rev (take n p)).
Definition XXH_readLE32 (p : list Z) : Z := if kLittleEndian then XXH_read 4 p else bswap 4 (XXH_read 4 p).
Definition XXH_readLE64 (p : list Z) : Z := if kLittleEndian then XXH_read 8 p else bswap 8 (XXH_read 8 p).
Definition XXH_rotl32 (x r : Z) : Z := Z.lor (u32 (Z.shiftl x r)) (Z.shiftr x (32 - r)).
Definition XXH_rotl64 (x r : Z) : Z := Z.lor (u64 (Z.shiftl x r)) (Z.shiftr x (64 - r)).

(** ** Stripes of four lanes *)

Record lanes := mkLanes { v1 : Z; v2 : Z; v3 : Z; v4 : Z }.
(** What both streaming states have: the lanes, [mem32] or [mem64] as bytes, and [memsize]. *)
Record stream := mkStream { vs : lanes; mem : list Z; memsize : Z }.
(** [memcpy] of [bytes] to [dst + off]. *)
Definition memcpy_at (dst : list Z) (off : Z) (bytes : list Z) : list Z := ztake off dst ++ bytes ++ zdrop (off + zlen bytes) dst.

Section stripes.
(** The bytes of a lane, and its round and read. *)
Context (w : Z) (round : Z -> Z -> Z) (read : list Z -> Z).
Definition stripe (v : lanes) (p : list Z) : lanes :=
  mkLanes (round (v1 v) (read p)) (round (v2 v) (read (zdrop w p))) (round (v3 v) (read (zdrop (2 * w) p))) (round (v4 v) (read (zdrop (3 * w) p))).
(** The [do] loop; it is entered with a whole stripe left. *)
Fixpoint stripes (fuel : nat) (v : lanes) (p : list Z) : lanes * list Z :=
  match fuel with
  | O => (v, p)
  | S fuel => if 4 * w <=? zlen p then stripes fuel (stripe v p) (zdrop (4 * w) p) else (v, p)
  end.
(** [XXH32_update] and [XXH64_update] after the lengths are counted. *)
Definition feed (s : stream) (input : list Z) : stream :=
  if memsize s + zlen input <? 4 * w then mkStream (vs s) (memcpy_at (mem s) (memsize s) input) (u32 (memsize s + u32 (zlen input)))
  else
    let '(s, p) :=
      if memsize s =? 0 then (s, input)
      else
        let m := memcpy_at (mem s) (memsize s) (ztake (4 * w - memsize s) input) in
        (mkStream (stripe (vs s) m) m 0, zdrop (4 * w - memsize s) input) in
    let '(v, p) := stripes (length p) (vs s) p in
    if 0 <? zlen p then mkStream v (memcpy_at (mem s) 0 p) (u32 (zlen p)) else mkStream v (mem s) (memsize s).
End stripes.

(** ** XXH32 *)

Definition XXH_PRIME32_1 : Z := 0x9E3779B1.
Definition XXH_PRIME32_2 : Z := 0x85EBCA77.
Definition XXH_PRIME32_3 : Z := 0xC2B2AE3D.
Definition XXH_PRIME32_4 : Z := 0x27D4EB2F.
Definition XXH_PRIME32_5 : Z := 0x165667B1.
Definition XXH32_round (acc input : Z) : Z :=
  let acc := u32 (acc + u32 (input * XXH_PRIME32_2)) in
  let acc := XXH_rotl32 acc 13 in
  u32 (acc * XXH_PRIME32_1).
Definition XXH32_avalanche (h32 : Z) : Z :=
  let h32 := Z.lxor h32 (Z.shiftr h32 15) in
  let h32 := u32 (h32 * XXH_PRIME32_2) in
  let h32 := Z.lxor h32 (Z.shiftr h32 13) in
  let h32 := u32 (h32 * XXH_PRIME32_3) in
  Z.lxor h32 (Z.shiftr h32 16).
Definition XXH_PROCESS1 (h32 : Z) (p : list Z) : Z :=
  let h32 := u32 (h32 + u32 (byte_at p 0 * XXH_PRIME32_5)) in u32 (XXH_rotl32 h32 11 * XXH_PRIME32_1).
Definition XXH_PROCESS4 (h32 : Z) (p : list Z) : Z :=
  let h32 := u32 (h32 + u32 (XXH_readLE32 p * XXH_PRIME32_3)) in u32 (XXH_rotl32 h32 17 * XXH_PRIME32_4).
Fixpoint process1 (n : nat) (h32 : Z) (p : list Z) : Z := match n with O => h32 | S n => process1 n (XXH_PROCESS1 h32 p) (zdrop 1 p) end.
Fixpoint process4 (n : nat) (h32 : Z) (p : list Z) : Z * list Z := match n with O => (h32, p) | S n => process4 n (XXH_PROCESS4 h32 p) (zdrop 4 p) end.
(** The cases of the [switch]: how often each step is taken. *)
Definition finalize_steps (len : Z) : nat * nat :=
  match len with
  | 12 => (3%nat, 0%nat) | 8 => (2%nat, 0%nat) | 4 => (1%nat, 0%nat)
  | 13 => (3%nat, 1%nat) | 9 => (2%nat, 1%nat) | 5 => (1%nat, 1%nat)
  | 14 => (3%nat, 2%nat) | 10 => (2%nat, 2%nat) | 6 => (1%nat, 2%nat)
  | 15 => (3%nat, 3%nat) | 11 => (2%nat, 3%nat) | 7 => (1%nat, 3%nat) | 3 => (0%nat, 3%nat) | 2 => (0%nat, 2%nat) | 1 => (0%nat, 1%nat)
  | _ => (0%nat, 0%nat)
  end.
(** The rolled loops. *)
Fixpoint rerolled4 (fuel : nat) (h32 : Z) (p : list Z) (len : Z) : Z * list Z * Z :=
  match fuel with
  | O => (h32, p, len)
  | S fuel => if 4 <=? len then rerolled4 fuel (XXH_PROCESS4 h32 p) (zdrop 4 p) (len - 4) else (h32, p, len)
  end.
Definition XXH32_finalize (XXH_REROLL : bool) (h32 : Z) (p : list Z) (len : Z) : Z :=
  if XXH_REROLL then
    let len := Z.land len 15 in
    let '(h32, p, len) := rerolled4 4 h32 p len in
    XXH32_avalanche (process1 (Z.to_nat len) h32 p)
  else
    let '(n4, n1) := finalize_steps (Z.land len 15) in
    let '(h32, p) := process4 n4 h32 p in
    XXH32_avalanche (process1 n1 h32 p).

Definition XXH32_lanes (seed : Z) : lanes :=
  mkLanes (u32 (seed + XXH_PRIME32_1 + XXH_PRIME32_2)) (u32 (seed + XXH_PRIME32_2)) (u32 (seed + 0)) (u32 (seed - XXH_PRIME32_1)).
Definition XXH32_merge (v : lanes) : Z := u32 (XXH_rotl32 (v1 v) 1 + XXH_rotl32 (v2 v) 7 + XXH_rotl32 (v3 v) 12 + XXH_rotl32 (v4 v) 18).
Definition XXH32_endian_align (XXH_REROLL : bool) (input : list Z) (seed : Z) : Z :=
  let len := zlen input in
  let '(h32, input) :=
    if 16 <=? len then let '(v, input) := stripes 4 XXH32_round XXH_readLE32 (length input) (XXH32_lanes seed) input in (XXH32_merge v, input)
    else (u32 (seed + XXH_PRIME32_5), input) in
  let h32 := u32 (h32 + u32 len) in
  XXH32_finalize XXH_REROLL h32 input (Z.land len 15).
Definition XXH32 := XXH32_endian_align.

Record XXH32_state_t := mkState32 { total_len_32 : Z; large_len : Z; stream32 : stream }.
Definition XXH32_reset (seed : Z) : XXH32_state_t := mkState32 0 0 (mkStream (XXH32_lanes seed) (replicate 16 0) 0).
Definition XXH32_update (state : XXH32_state_t) (input : list Z) : XXH32_state_t :=
  let len := zlen input in
  let total := u32 (total_len_32 state + u32 len) in
  let large := Z.lor (large_len state) (Z.lor (Z.b2z (16 <=? len)) (Z.b2z (16 <=? total))) in
  mkState32 total large (feed 4 XXH32_round XXH_readLE32 (stream32 state) input).
Definition XXH32_digest (XXH_REROLL : bool) (state : XXH32_state_t) : Z :=
  let h32 := if negb (large_len state =? 0) then XXH32_merge (vs (stream32 state)) else u32 (v3 (vs (stream32 state)) + XXH_PRIME32_5) in
  let h32 := u32 (h32 + total_len_32 state) in
  XXH32_finalize XXH_REROLL h32 (mem (stream32 state)) (memsize (stream32 state)).

(** ** XXH64 *)

Definition XXH_PRIME64_1 : Z := 0x9E3779B185EBCA87.
Definition XXH_PRIME64_2 : Z := 0xC2B2AE3D27D4EB4F.
Definition XXH_PRIME64_3 : Z := 0x165667B19E3779F9.
Definition XXH_PRIME64_4 : Z := 0x85EBCA77C2B2AE63.
Definition XXH_PRIME64_5 : Z := 0x27D4EB2F165667C5.
Definition XXH64_round (acc input : Z) : Z :=
  let acc := u64 (acc + u64 (input * XXH_PRIME64_2)) in
  let acc := XXH_rotl64 acc 31 in
  u64 (acc * XXH_PRIME64_1).
Definition XXH64_mergeRound (acc val : Z) : Z :=
  let val := XXH64_round 0 val in
  let acc := Z.lxor acc val in
  u64 (u64 (acc * XXH_PRIME64_1) + XXH_PRIME64_4).
Definition XXH64_avalanche (h64 : Z) : Z :=
  let h64 := Z.lxor h64 (Z.shiftr h64 33) in
  let h64 := u64 (h64 * XXH_PRIME64_2) in
  let h64 := Z.lxor h64 (Z.shiftr h64 29) in
  let h64 := u64 (h64 * XXH_PRIME64_3) in
  Z.lxor h64 (Z.shiftr h64 32).
Fixpoint finalize8 (fuel : nat) (h64 : Z) (p : list Z) (len : Z) : Z * list Z * Z :=
  match fuel with
  | O => (h64, p, len)
  | S fuel =>
      if 8 <=? len then
        let k1 := XXH64_round 0 (XXH_readLE64 p) in
        let h64 := Z.lxor h64 k1 in
        let h64 := u64 (u64 (XXH_rotl64 h64 27 * XXH_PRIME64_1) + XXH_PRIME64_4) in
        finalize8 fuel h64 (zdrop 8 p) (len - 8)
      else (h64, p, len)
  end.
Fixpoint finalize1 (n : nat) (h64 : Z) (p : list Z) : Z :=
  match n with
  | O => h64
  | S n =>
      let h64 := Z.lxor h64 (u64 (byte_at p 0 * XXH_PRIME64_5)) in
      finalize1 n (u64 (XXH_rotl64 h64 11 * XXH_PRIME64_1)) (zdrop 1 p)
  end.
Definition XXH64_finalize (h64 : Z) (p : list Z) (len : Z) : Z :=
  let len := Z.land len 31 in
  let '(h64, p, len) := finalize8 4 h64 p len in
  let '(h64, p, len) :=
    if 4 <=? len then
      let h64 := Z.lxor h64 (u64 (XXH_readLE32 p * XXH_PRIME64_1)) in
      (u64 (u64 (XXH_rotl64 h64 23 * XXH_PRIME64_2) + XXH_PRIME64_3), zdrop 4 p, len - 4)
    else (h64, p, len) in
  XXH64_avalanche (finalize1 (Z.to_nat len) h64 p).

Definition XXH64_lanes (seed : Z) : lanes :=
  mkLanes (u64 (seed + XXH_PRIME64_1 + XXH_PRIME64_2)) (u64 (seed + XXH_PRIME64_2)) (u64 (seed + 0)) (u64 (seed - XXH_PRIME64_1)).
Definition XXH64_merge (v : lanes) : Z :=
  let h64 := u64 (XXH_rotl64 (v1 v) 1 + XXH_rotl64 (v2 v) 7 + XXH_rotl64 (v3 v) 12 + XXH_rotl64 (v4 v) 18) in
  let h64 := XXH64_mergeRound h64 (v1 v) in
  let h64 := XXH64_mergeRound h64 (v2 v) in
  let h64 := XXH64_mergeRound h64 (v3 v) in
  XXH64_mergeRound h64 (v4 v).
Definition XXH64_endian_align (input : list Z) (seed : Z) : Z :=
  let len := zlen input in
  let '(h64, input) :=
    if 32 <=? len then let '(v, input) := stripes 8 XXH64_round XXH_readLE64 (length input) (XXH64_lanes seed) input in (XXH64_merge v, input)
    else (u64 (seed + XXH_PRIME64_5), input) in
  let h64 := u64 (h64 + len) in
  XXH64_finalize h64 input len.
Definition XXH64 := XXH64_endian_align.

Record XXH64_state_t := mkState64 { total_len : Z; stream64 : stream }.
Definition XXH64_reset (seed : Z) : XXH64_state_t := mkState64 0 (mkStream (XXH64_lanes seed) (replicate 32 0) 0).
Definition XXH64_update (state : XXH64_state_t) (input : list Z) : XXH64_state_t :=
  mkState64 (u64 (total_len state + zlen input)) (feed 8 XXH64_round XXH_readLE64 (stream64 state) input).
Definition XXH64_digest (state : XXH64_state_t) : Z :=
  let h64 := if 32 <=? total_len state then XXH64_merge (vs (stream64 state)) else u64 (v3 (vs (stream64 state)) + XXH_PRIME64_5) in
  let h64 := u64 (h64 + total_len state) in
  XXH64_finalize h64 (mem (stream64 state)) (total_len state).
End xxh.
