(* ===== verification/XxhashProofs.v ===== *)
(** * A stream of pieces has the hash of the whole *)

From stdpp Require Import prelude.
From Stdlib Require Import ZArith Lia Bool.
From S2P Require Import Prelude Coding Math Xxhash.

(** ** Stripes *)

Section stripes.
Context (w : Z) (round : Z -> Z -> Z) (read : list Z -> Z).
Context (w_range : 0 < w <= 8) (read_prefix : forall p q, ztake w p = ztake w q -> read p = read q).
Notation stripe := (stripe w round read).
Notation stripes := (stripes w round read).
Notation feed := (feed w round read).

Lemma ztake_zdrop_comm a b (p : list Z) : 0 <= a -> 0 <= b -> ztake a (zdrop b p) = zdrop b (ztake (b + a) p).
Proof. intros Ha Hb. unfold ztake, zdrop. rewrite Z2Nat.inj_add by lia. by rewrite take_drop_commute. Qed.
Lemma stripe_prefix v p q : ztake (4 * w) p = ztake (4 * w) q -> stripe v p = stripe v q.
Proof using w_range read_prefix.
  intros E. assert (Hr : forall k, 0 <= k -> k + w <= 4 * w -> read (zdrop k p) = read (zdrop k q)).
  { intros k Hk Hkw. apply read_prefix. rewrite !ztake_zdrop_comm by lia. f_equal. replace (k + w) with (Z.min (k + w) (4 * w)) by lia.
    assert (Hm : forall l : list Z, ztake (Z.min (k + w) (4 * w)) l = ztake (k + w) (ztake (4 * w) l)) by (intros l; unfold ztake; rewrite take_take; f_equal; lia). by rewrite !Hm, E. }
  unfold Xxhash.stripe. pose proof (Hr 0) as H0. rewrite !zdrop_0 in H0. by rewrite H0, !Hr by lia.
Qed.

(** All whole stripes. *)
Definition run (v : lanes) (p : list Z) : lanes * list Z := stripes (length p) v p.
Lemma stripes_fuel f : forall f' v p, (length p <= f)%nat -> (length p <= f')%nat -> stripes f v p = stripes f' v p.
Proof using w_range.
  induction f as [|f IH]; intros [|f'] v p Hf Hf'; cbn [Xxhash.stripes]; try (destruct p; [|cbn in *; lia]).
  - done.
  - by rewrite (proj2 (Z.leb_gt _ _)) by (change (zlen (@nil Z)) with 0; lia).
  - by rewrite (proj2 (Z.leb_gt _ _)) by (change (zlen (@nil Z)) with 0; lia).
  - destruct (Z.leb_spec (4 * w) (zlen p)); [|done]. apply IH; unfold zdrop, zlen in *; rewrite length_drop; lia.
Qed.
Lemma run_step v p : 4 * w <= zlen p -> run v p = run (stripe v p) (zdrop (4 * w) p).
Proof using w_range.
  intros Hp. unfold run. destruct p as [|b p]; [change (zlen (@nil Z)) with 0 in Hp; lia|]. change (length (b :: p)) with (S (length p)). cbn [Xxhash.stripes]. rewrite (proj2 (Z.leb_le _ _)) by done.
  apply stripes_fuel; [unfold zdrop; rewrite length_drop; cbn [length]; lia|done].
Qed.
Lemma run_done v p : zlen p < 4 * w -> run v p = (v, p).
Proof. intros Hp. unfold run. destruct (length p); [done|]. cbn [Xxhash.stripes]. by rewrite (proj2 (Z.leb_gt _ _)) by lia. Qed.
Lemma run_block v b p : zlen b = 4 * w -> run v (b ++ p) = run (stripe v b) p.
Proof using w_range read_prefix.
  intros Hb. rewrite run_step by (rewrite zlen_app; pose proof (zlen_nonneg p); lia). rewrite zdrop_app' by done. f_equal. apply stripe_prefix. rewrite ztake_app' by done. by rewrite <- Hb, ztake_all.
Qed.
Lemma run_app : forall n v p x, (length p <= n)%nat -> run v (p ++ x) = run (run v p).1 ((run v p).2 ++ x).
Proof using w_range read_prefix.
  induction n as [|n IH]; intros v p x Hn; [destruct p; [done|cbn in Hn; lia]|]. destruct (decide (4 * w <= zlen p)) as [Hp|Hp].
  - rewrite (run_step v p) by done. rewrite <- IH by (unfold zdrop, zlen in *; rewrite length_drop; lia). rewrite <- (ztake_zdrop (4 * w) p) at 1. rewrite <- app_assoc, run_block by (apply zlen_ztake; lia).
    f_equal. apply stripe_prefix. unfold ztake. by rewrite take_take, Nat.min_id.
  - by rewrite (run_done v p) by lia.
Qed.
Lemma run_rest n : forall v p, (length p <= n)%nat -> zlen (run v p).2 = zlen p mod (4 * w).
Proof using w_range.
  induction n as [|n IH]; intros v p Hn; [destruct p; [done|cbn in Hn; lia]|]. pose proof (zlen_nonneg p). destruct (decide (4 * w <= zlen p)) as [Hp|Hp].
  - rewrite run_step by done. rewrite IH by (unfold zdrop, zlen in *; rewrite length_drop; lia). rewrite zlen_zdrop by lia. replace (zlen p - 4 * w) with (zlen p + (-1) * (4 * w)) by lia. by rewrite Z.mod_add by lia.
  - rewrite run_done by lia. by rewrite Z.mod_small by lia.
Qed.

(** ** The stream holds the lanes and the rest of what it was fed *)

Definition streamed (v0 : lanes) (data : list Z) (s : stream) : Prop :=
  zlen (mem s) = 4 * w /\ vs s = (run v0 data).1 /\ memsize s = zlen (run v0 data).2 /\ ztake (memsize s) (mem s) = (run v0 data).2.
Lemma memcpy_len dst off b : 0 <= off -> off + zlen b <= zlen dst -> zlen (memcpy_at dst off b) = zlen dst.
Proof. intros Ho Hl. unfold memcpy_at. pose proof (zlen_nonneg b). rewrite !zlen_app, zlen_ztake, zlen_zdrop by lia. lia. Qed.
Lemma memcpy_take dst off b : 0 <= off -> off + zlen b <= zlen dst -> ztake (off + zlen b) (memcpy_at dst off b) = ztake off dst ++ b.
Proof. intros Ho Hl. unfold memcpy_at. rewrite app_assoc. apply ztake_app'. pose proof (zlen_nonneg b). rewrite zlen_app, zlen_ztake by lia. done. Qed.
Lemma feed_spec v0 data s x : streamed v0 data s -> streamed v0 (data ++ x) (feed s x).
Proof using w_range read_prefix.
  intros (Hlen & Hv & Hm & Ht). assert (Hrun : run v0 (data ++ x) = run (vs s) ((run v0 data).2 ++ x)) by (rewrite Hv; by apply (run_app (length data))). rewrite <- Ht in Hrun.
  pose proof (run_rest (length data) v0 data ltac:(done)) as Hmod. pose proof (Z.mod_pos_bound (zlen data) (4 * w) ltac:(lia)). assert (Hms : 0 <= memsize s < 4 * w) by lia. clear Hm Hmod. clear Ht.
  set (r := ztake (memsize s) (mem s)) in *. assert (Hr : zlen r = memsize s) by (apply zlen_ztake; lia). pose proof (zlen_nonneg x) as Hx0. unfold Xxhash.feed, streamed. rewrite Hrun.
  destruct (Z.ltb_spec (memsize s + zlen x) (4 * w)) as [Hsmall|Hbig].
  { rewrite run_done by (rewrite zlen_app; lia). cbn [mem vs memsize fst snd]. rewrite (u32_small (zlen x)), u32_small by lia. rewrite memcpy_len by lia. split; [done|]. split; [done|]. rewrite zlen_app, Hr. split; [done|]. rewrite memcpy_take by lia. done. }
  match goal with |- context [let '(_, _) := ?q in _] => assert (Hq : zlen (mem q.1) = 4 * w /\ run (vs s) (r ++ x) = run (vs q.1) q.2 /\ memsize q.1 = 0); [|destruct q as [s' p]; cbn [fst snd] in Hq; clear Hrun] end.
  { destruct (Z.eqb_spec (memsize s) 0) as [E0|E0]; cbn [fst snd mem vs memsize].
    - split; [done|]. split; [|done]. unfold r. by rewrite E0, ztake_0.
    - set (b := ztake (4 * w - memsize s) x). assert (Hb : zlen b = 4 * w - memsize s) by (apply zlen_ztake; lia). rewrite memcpy_len by lia. split; [done|]. split; [|done].
      rewrite <- (ztake_zdrop (4 * w - memsize s) x) at 1. fold b. rewrite app_assoc, run_block by (rewrite zlen_app; lia). f_equal. apply stripe_prefix.
      pose proof (memcpy_take (mem s) (memsize s) b ltac:(lia) ltac:(lia)) as Hmt. replace (memsize s + zlen b) with (4 * w) in Hmt by lia. rewrite Hmt. fold r.
      rewrite <- (ztake_all (r ++ b)) at 2. f_equal. rewrite zlen_app. lia. }
  destruct Hq as (Hl' & -> & H0). fold (run (vs s') p). pose proof (run_rest (length p) (vs s') p ltac:(done)) as Hmod. pose proof (Z.mod_pos_bound (zlen p) (4 * w) ltac:(lia)).
  destruct (run (vs s') p) as [v rest]. cbn [fst snd] in *. pose proof (zlen_nonneg rest). destruct (Z.ltb_spec 0 (zlen rest)); cbn [mem vs memsize].
  - rewrite u32_small, memcpy_len by lia. split; [done|]. split; [done|]. split; [done|]. pose proof (memcpy_take (mem s') 0 rest ltac:(lia) ltac:(lia)) as Hmt. by rewrite Z.add_0_l, ztake_0 in Hmt.
  - assert (rest = []) as -> by (destruct rest; [done|unfold zlen in *; cbn in *; lia]). split; [done|]. split; [done|]. rewrite H0. split; [done|apply ztake_0].
Qed.
End stripes.

Section xxh.
Context `{Port}.
Lemma read_take n p q : take n p = take n q -> XXH_read n p = XXH_read n q.
Proof. unfold XXH_read. by intros ->. Qed.
Lemma readLE32_prefix p q : ztake 4 p = ztake 4 q -> XXH_readLE32 p = XXH_readLE32 q.
Proof. intros E. unfold XXH_readLE32. by rewrite (read_take 4 p q E). Qed.
Lemma readLE64_prefix p q : ztake 8 p = ztake 8 q -> XXH_readLE64 p = XXH_readLE64 q.
Proof. intros E. unfold XXH_readLE64. by rewrite (read_take 8 p q E). Qed.
Lemma ztake_app_l n (a c : list Z) : 0 <= n <= zlen a -> ztake n (a ++ c) = ztake n a.
Proof. intros Hn. unfold ztake, zlen in *. apply take_app_le. lia. Qed.
Lemma zdrop_app_l n (a c : list Z) : 0 <= n <= zlen a -> zdrop n (a ++ c) = zdrop n a ++ c.
Proof. intros Hn. unfold zdrop, zlen in *. apply drop_app_le. lia. Qed.
Lemma byte_at_app a (c : list Z) : 1 <= zlen a -> byte_at (a ++ c) 0 = byte_at a 0.
Proof. intros Ha. apply byte_at_app_l. lia. Qed.

(** *** The last bytes of XXH32 *)

Lemma process1_app n : forall h a c, Z.of_nat n <= zlen a -> process1 n h (a ++ c) = process1 n h a.
Proof.
  induction n as [|n IH]; intros h a c Hn; cbn [process1]; [done|]. unfold XXH_PROCESS1. rewrite byte_at_app, zdrop_app_l by lia. apply IH. rewrite zlen_zdrop; lia.
Qed.
Lemma process4_app n : forall h a c, 4 * Z.of_nat n <= zlen a ->
  process4 n h (a ++ c) = ((process4 n h a).1, (process4 n h a).2 ++ c) /\ zlen (process4 n h a).2 = zlen a - 4 * Z.of_nat n.
Proof.
  induction n as [|n IH]; intros h a c Hn; cbn [process4]; [split; [done|]; cbn [snd]; lia|]. assert (E4 : XXH_PROCESS4 h (a ++ c) = XXH_PROCESS4 h a) by (unfold XXH_PROCESS4; by rewrite (readLE32_prefix (a ++ c) a) by (apply ztake_app_l; lia)). rewrite E4, zdrop_app_l by lia.
  destruct (IH (XXH_PROCESS4 h a) (zdrop 4 a) c) as [-> E2]; [rewrite zlen_zdrop; lia|]. split; [done|]. rewrite E2, zlen_zdrop by lia. lia.
Qed.
Lemma rerolled4_spec fuel : forall h p len, 0 <= len < 4 * Z.of_nat fuel + 4 -> rerolled4 fuel h p len = ((process4 (Z.to_nat (len / 4)) h p).1, (process4 (Z.to_nat (len / 4)) h p).2, len mod 4).
Proof.
  induction fuel as [|fuel IH]; intros h p len Hl; cbn [rerolled4].
  - by rewrite Z.div_small, Z.mod_small by lia.
  - destruct (Z.leb_spec 4 len); [|by rewrite Z.div_small, Z.mod_small by lia]. rewrite IH by lia. replace (Z.to_nat (len / 4)) with (S (Z.to_nat ((len - 4) / 4))) by (Z.to_euclidean_division_equations; lia).
    cbn [process4]. assert (Em : (len - 4) mod 4 = len mod 4) by (Z.to_euclidean_division_equations; lia). by rewrite Em.
Qed.
Lemma finalize_steps_spec len : 0 <= len < 16 -> finalize_steps len = (Z.to_nat (len / 4), Z.to_nat (len mod 4)).
Proof.
  intros Hl. assert (Hall : Forall (fun len => finalize_steps len = (Z.to_nat (len / 4), Z.to_nat (len mod 4))) (map Z.of_nat (seq 0 16))) by (repeat constructor).
  rewrite Forall_forall in Hall. apply Hall, list_elem_of_In, in_map_iff. exists (Z.to_nat len). split; [lia|]. apply in_seq. lia.
Qed.
(** The rolled loops and the [switch] agree. *)
Lemma finalize32_reroll r h p len : XXH32_finalize r h p len = let n := len mod 16 in let r := process4 (Z.to_nat (n / 4)) h p in XXH32_avalanche (process1 (Z.to_nat (n mod 4)) r.1 r.2).
Proof.
  unfold XXH32_finalize. change 15 with (Z.ones 4). rewrite Z.land_ones by lia. change (2 ^ 4) with 16. pose proof (Z.mod_pos_bound len 16 ltac:(lia)). destruct r.
  - by rewrite rerolled4_spec by lia.
  - rewrite finalize_steps_spec by lia. by destruct (process4 _ _ _).
Qed.
Lemma finalize32_app r h a c len : len mod 16 = zlen a -> XXH32_finalize r h (a ++ c) len = XXH32_finalize r h a (zlen a).
Proof.
  intros Hl. pose proof (Z.mod_pos_bound len 16 ltac:(lia)). rewrite !finalize32_reroll, Hl, (Z.mod_small (zlen a)) by lia. cbv zeta.
  destruct (process4_app (Z.to_nat (zlen a / 4)) h a c) as [-> E2]; [Z.to_euclidean_division_equations; lia|]. cbn [fst snd]. rewrite process1_app; [done|]. rewrite E2. Z.to_euclidean_division_equations; lia.
Qed.

(** *** The last bytes of XXH64 *)

Lemma finalize8_app fuel : forall h a c, exists h' a', finalize8 fuel h (a ++ c) (zlen a) = (h', a' ++ c, zlen a') /\ finalize8 fuel h a (zlen a) = (h', a', zlen a').
Proof.
  induction fuel as [|fuel IH]; intros h a c; cbn [finalize8]; [by exists h, a|]. destruct (Z.leb_spec 8 (zlen a)); [|by exists h, a].
  rewrite (readLE64_prefix (a ++ c) a), zdrop_app_l by (try apply ztake_app_l; lia). replace (zlen a - 8) with (zlen (zdrop 8 a)) by (rewrite zlen_zdrop; lia). apply IH.
Qed.
Lemma finalize1_app n : forall h a c, Z.of_nat n <= zlen a -> finalize1 n h (a ++ c) = finalize1 n h a.
Proof.
  induction n as [|n IH]; intros h a c Hn; cbn [finalize1]; [done|]. rewrite byte_at_app, zdrop_app_l by lia. apply IH. rewrite zlen_zdrop; lia.
Qed.
Lemma finalize64_app h a c len : len mod 32 = zlen a -> XXH64_finalize h (a ++ c) len = XXH64_finalize h a len.
Proof.
  intros Hl. unfold XXH64_finalize. change 31 with (Z.ones 5). rewrite !Z.land_ones by lia. change (2 ^ 5) with 32. rewrite Hl. destruct (finalize8_app 4 h a c) as (h' & a' & -> & ->).
  destruct (Z.leb_spec 4 (zlen a')).
  - rewrite (readLE32_prefix (a' ++ c) a'), zdrop_app_l by (try apply ztake_app_l; lia). rewrite finalize1_app; [done|]. rewrite zlen_zdrop by lia. lia.
  - rewrite finalize1_app; [done|]. pose proof (zlen_nonneg a'). lia.
Qed.

(** ** The streams *)

Definition hashed32 (seed : Z) (data : list Z) (s : XXH32_state_t) : Prop :=
  total_len_32 s = u32 (zlen data) /\ (0 <= large_len s) /\ (large_len s = 0 <-> zlen data < 16) /\ streamed 4 XXH32_round XXH_readLE32 (XXH32_lanes seed) data (stream32 s).
Lemma update32_hashed seed data s x : hashed32 seed data s -> hashed32 seed (data ++ x) (XXH32_update s x).
Proof.
  intros (Ht & Hl0 & Hl & Hs). unfold hashed32, XXH32_update. cbn [total_len_32 large_len stream32]. pose proof (zlen_nonneg data). pose proof (zlen_nonneg x).
  assert (Eu : u32 (total_len_32 s + u32 (zlen x)) = u32 (zlen (data ++ x))) by (rewrite Ht, zlen_app; unfold u32; by rewrite <- Zplus_mod). rewrite Eu.
  split; [done|]. assert (Hb : forall b, 0 <= Z.b2z b) by (intros []; cbn; lia). split; [apply Z.lor_nonneg; split; [done|]; apply Z.lor_nonneg; split; apply Hb|]. split; [|by apply feed_spec; [lia|apply readLE32_prefix|]].
  rewrite Z.lor_eq_0_iff, Z.lor_eq_0_iff, Hl, zlen_app. split.
  - intros (Hd & E1 & E2). destruct (Z.leb_spec 16 (zlen x)); [done|]. destruct (Z.leb_spec 16 (u32 (zlen data + zlen x))) as [|Hu]; [done|]. by rewrite u32_small in Hu by lia.
  - intros Hd. split; [lia|]. rewrite u32_small by lia. rewrite !(proj2 (Z.leb_gt 16 _)) by lia. done.
Qed.
Lemma reset32_hashed seed : hashed32 seed [] (XXH32_reset seed).
Proof. split; [done|]. split; [done|]. split; [done|]. split; [done|]. split; [done|]. split; [done|]. apply ztake_0. Qed.
Lemma digest32_hashed r seed data s : hashed32 seed data s -> XXH32_digest r s = XXH32 r data seed.
Proof.
  intros (Ht & _ & Hl & Hlen & Hv & Hm & Hr). unfold XXH32_digest, XXH32, XXH32_endian_align. rewrite Ht. fold (run 4 XXH32_round XXH_readLE32 (XXH32_lanes seed) data).
  pose proof (run_rest 4 XXH32_round XXH_readLE32 ltac:(lia) (length data) (XXH32_lanes seed) data ltac:(done)) as Hrest. change (4 * 4) with 16 in *.
  rewrite <- (ztake_zdrop (memsize (stream32 s)) (mem (stream32 s))), Hr. rewrite (finalize32_app r _ _ _ (memsize (stream32 s))) by (rewrite Hm, Hrest; by rewrite Z.mod_mod by lia).
  assert (Hgoal : forall h h' p, h = h' -> p = (run 4 XXH32_round XXH_readLE32 (XXH32_lanes seed) data).2 ->
    XXH32_finalize r h (run 4 XXH32_round XXH_readLE32 (XXH32_lanes seed) data).2 (zlen (run 4 XXH32_round XXH_readLE32 (XXH32_lanes seed) data).2) = XXH32_finalize r h' p (Z.land (zlen data) 15)).
  { intros h h' p -> ->. rewrite <- (app_nil_r (run _ _ _ _ _).2) at 3. symmetry. apply finalize32_app. change 15 with (Z.ones 4). rewrite Z.land_ones by lia. change (2 ^ 4) with 16. by rewrite Z.mod_mod by lia. }
  destruct (Z.leb_spec 16 (zlen data)).
  - rewrite (proj2 (Z.eqb_neq (large_len s) 0)) by (rewrite Hl; lia). cbn [negb]. rewrite Hv. destruct (run _ _ _ _ data) as [v p]. cbn [fst snd] in *. by apply Hgoal.
  - rewrite (proj2 (Z.eqb_eq (large_len s) 0)) by (by apply Hl). cbn [negb]. pose proof (run_done 4 XXH32_round XXH_readLE32 (XXH32_lanes seed) data ltac:(lia)) as Ed. apply Hgoal; [|by rewrite Ed].
    rewrite Hv, Ed. cbn [fst XXH32_lanes v3]. f_equal. f_equal. unfold u32. by rewrite Z.add_0_r, Zplus_mod_idemp_l.
Qed.

Definition hashed64 (seed : Z) (data : list Z) (s : XXH64_state_t) : Prop :=
  total_len s = u64 (zlen data) /\ streamed 8 XXH64_round XXH_readLE64 (XXH64_lanes seed) data (stream64 s).
Lemma update64_hashed seed data s x : hashed64 seed data s -> hashed64 seed (data ++ x) (XXH64_update s x).
Proof.
  intros (Ht & Hs). split; cbn [total_len stream64 XXH64_update]; [rewrite Ht, zlen_app; unfold u64; by rewrite Zplus_mod_idemp_l|]. by apply feed_spec; [lia|apply readLE64_prefix|].
Qed.
Lemma reset64_hashed seed : hashed64 seed [] (XXH64_reset seed).
Proof. split; [done|]. split; [done|]. split; [done|]. split; [done|]. apply ztake_0. Qed.
Lemma digest64_hashed seed data s : zlen data < 2 ^ 64 -> hashed64 seed data s -> XXH64_digest s = XXH64 data seed.
Proof.
  intros Hd (Ht & Hlen & Hv & Hm & Hr). pose proof (zlen_nonneg data). rewrite u64_small in Ht by lia. unfold XXH64_digest, XXH64, XXH64_endian_align. rewrite Ht. fold (run 8 XXH64_round XXH_readLE64 (XXH64_lanes seed) data).
  pose proof (run_rest 8 XXH64_round XXH_readLE64 ltac:(lia) (length data) (XXH64_lanes seed) data ltac:(done)) as Hrest. change (4 * 8) with 32 in *.
  rewrite <- (ztake_zdrop (memsize (stream64 s)) (mem (stream64 s))), Hr. rewrite finalize64_app by done.
  destruct (Z.leb_spec 32 (zlen data)).
  - rewrite Hv. by destruct (run _ _ _ _ data) as [v p].
  - pose proof (run_done 8 XXH64_round XXH_readLE64 (XXH64_lanes seed) data ltac:(lia)) as Ed. rewrite Hv, Ed. cbn [fst snd XXH64_lanes v3]. f_equal. f_equal. f_equal. unfold u64. by rewrite Z.add_0_r, Zplus_mod_idemp_l.
Qed.
End xxh.

(** C31: However an input is cut into pieces, a stream that is reset and updated with the pieces has the digest that the whole has in one call, for XXH32 with either form of its last
    step and for XXH64. *)
Theorem xxh_streaming_equiv `{Port} XXH_REROLL seed chunks : zlen (concat chunks) < 2 ^ 64 ->
  XXH32_digest XXH_REROLL (foldl XXH32_update (XXH32_reset seed) chunks) = XXH32 XXH_REROLL (concat chunks) seed /\
  XXH64_digest (foldl XXH64_update (XXH64_reset seed) chunks) = XXH64 (concat chunks) seed.
Proof.
  intros Hlen. split.
  - apply digest32_hashed. clear Hlen. induction chunks as [|c chunks IH] using rev_ind; [apply reset32_hashed|]. rewrite foldl_snoc, concat_app. cbn [concat]. rewrite app_nil_r. by apply update32_hashed.
  - apply digest64_hashed; [done|]. clear Hlen. induction chunks as [|c chunks IH] using rev_ind; [apply reset64_hashed|]. rewrite foldl_snoc, concat_app. cbn [concat]. rewrite app_nil_r. by apply update64_hashed.
Qed.
#[local] Instance a_port : Port := {| kLittleEndian := true |}.
Lemma xxh_streaming_equiv_witness : let chunks := [map Z.of_nat (seq 0 20); [7]; []; map Z.of_nat (seq 50 40)] in
  XXH32_digest false (foldl XXH32_update (XXH32_reset 9) chunks) = XXH32 false (concat chunks) 9 /\ XXH64_digest (foldl XXH64_update (XXH64_reset 9) chunks) = XXH64 (concat chunks) 9.
Proof. apply (xxh_streaming_equiv false 9 [map Z.of_nat (seq 0 20); [7]; []; map Z.of_nat (seq 50 40)]). done. Defined.
