(* ===== verification/TableFormat.v ===== *)
(** * Block handles, index values and footers of table files, and block checksums (table/format.h, table/format.cc)

    Encoders append to a list; decoders give a status, the value and the rest of the input, as the code leaves them also when it fails. A file is a parameter that answers reads.
    [XXH3_64bits] is a parameter; the other checksums are those of [Crc32c] and [Xxhash]. *)

From stdpp Require Import prelude.
From Stdlib Require Import ZArith Lia Bool.
From S2P Require Import Prelude Coding Math Hash Status Crc32c Xxhash.

(** ** Block handles *)

Record BlockHandle := mkHandle { offset_ : Z; size_ : Z }.
(** The constructor without arguments. *)
Definition BlockHandle_uninitialized : BlockHandle := mkHandle (u64 (Z.lnot 0)) (u64 (Z.lnot 0)).
Definition kNullBlockHandle : BlockHandle := mkHandle 0 0.
Definition IsNull (h : BlockHandle) : bool := (offset_ h =? 0) && (size_ h =? 0).
Definition kMaxEncodedLength : Z := 2 * kMaxVarint64Length.
(** A handle after a failed read. *)
Definition bad_block_handle (input : list Z) : Status * BlockHandle * list Z := (St.Corruption, mkHandle 0 0, input).
Module BlockHandleFormat.
Definition EncodeTo (dst : list Z) (h : BlockHandle) : list Z := PutVarint64Varint64 dst (offset_ h) (size_ h).
(** What is written at [dst]. *)
Definition EncodeTo_ptr (h : BlockHandle) : list Z := EncodeVarint64 (offset_ h) ++ EncodeVarint64 (size_ h).
Definition DecodeFrom (input : list Z) : Status * BlockHandle * list Z :=
  match GetVarint64 input with
  | Some (offset, input) =>
      match GetVarint64 input with
      | Some (size, input) => (St.OK, mkHandle offset size, input)
      | None => bad_block_handle input
      end
  | None => bad_block_handle input
  end.
Definition DecodeSizeFrom (offset : Z) (input : list Z) : Status * BlockHandle * list Z :=
  match GetVarint64 input with
  | Some (size, input) => (St.OK, mkHandle offset size, input)
  | None => bad_block_handle input
  end.
End BlockHandleFormat.

(** ** Index values *)

Definition kBlockTrailerSize : Z := 5.
Record IndexValue := mkIndexValue { handle : BlockHandle; first_internal_key : list Z }.
Module IndexValueFormat.
Definition EncodeTo (dst : list Z) (have_first_key : bool) (previous_handle : option BlockHandle) (v : IndexValue) : list Z :=
  let dst :=
    match previous_handle with
    | Some previous => PutVarsignedint64 dst (i64 (u64 (size_ (handle v) - size_ previous)))
    | None => BlockHandleFormat.EncodeTo dst (handle v)
    end in
  if have_first_key then PutLengthPrefixedSlice dst (first_internal_key v) else dst.
Definition DecodeFrom (v : IndexValue) (input : list Z) (have_first_key : bool) (previous_handle : option BlockHandle) : Status * IndexValue * list Z :=
  let '(s, h, input) :=
    match previous_handle with
    | Some previous =>
        match GetVarsignedint64 input with
        | Some (delta, input) =>
            (St.OK, mkHandle (u64 (u64 (offset_ previous + size_ previous) + kBlockTrailerSize)) (u64 (size_ previous + u64 delta)), input)
        | None => (St.Corruption, handle v, input)
        end
    | None => BlockHandleFormat.DecodeFrom input
    end in
  if negb (St.ok s) then (s, mkIndexValue h (first_internal_key v), input)
  else if negb have_first_key then (St.OK, mkIndexValue h [], input)
  else
    match GetLengthPrefixedSlice input with
    | Some (key, input) => (St.OK, mkIndexValue h key, input)
    | None => (St.Corruption, mkIndexValue h (first_internal_key v), input)
    end.
End IndexValueFormat.

(** ** Footers *)

Definition kBlockBasedTableMagicNumber : Z := 0x88e241b785f4cff7.
Definition kLegacyBlockBasedTableMagicNumber : Z := 0xdb4775248b80fb57.
Definition kPlainTableMagicNumber : Z := 0x8242229663bf9564.
Definition kLegacyPlainTableMagicNumber : Z := 0x4f3418eb7a8f13b8.
Definition IsLegacyFooterFormat (magic_number : Z) : bool :=
  (magic_number =? kLegacyBlockBasedTableMagicNumber) || (magic_number =? kLegacyPlainTableMagicNumber).
Definition UpconvertLegacyFooterFormat (magic_number : Z) : Z :=
  if magic_number =? kLegacyBlockBasedTableMagicNumber then kBlockBasedTableMagicNumber
  else if magic_number =? kLegacyPlainTableMagicNumber then kPlainTableMagicNumber
  else magic_number.
Definition DownconvertToLegacyFooterFormat (magic_number : Z) : Z :=
  if magic_number =? kBlockBasedTableMagicNumber then kLegacyBlockBasedTableMagicNumber
  else if magic_number =? kPlainTableMagicNumber then kLegacyPlainTableMagicNumber
  else magic_number.
Definition BlockTrailerSizeForMagicNumber (magic_number : Z) : Z :=
  if (magic_number =? kBlockBasedTableMagicNumber) || (magic_number =? kLegacyBlockBasedTableMagicNumber) then kBlockTrailerSize else 0.
Definition kLatestFormatVersion : Z := 5.
Definition IsSupportedFormatVersion (version : Z) : bool := version <=? kLatestFormatVersion.
Definition kNoChecksum : Z := 0.
Definition kCRC32c : Z := 1.
Definition kxxHash : Z := 2.
Definition kxxHash64 : Z := 3.
Definition kXXH3 : Z := 4.
Definition IsSupportedChecksumType (type : Z) : bool := (kNoChecksum <=? type) && (type <=? kXXH3).

Definition kMagicNumberLengthByte : Z := 8.
Definition kFooterPart2Size : Z := 2 * kMaxEncodedLength.
Definition kVersion0EncodedLength : Z := 2 * kMaxEncodedLength + kMagicNumberLengthByte.
Definition kMinEncodedLength : Z := kVersion0EncodedLength.
Definition kNewVersionsEncodedLength : Z := 1 + 2 * kMaxEncodedLength + 4 + kMagicNumberLengthByte.

Record Footer := mkFooter {
  table_magic_number_ : Z;
  format_version_ : Z;
  metaindex_handle_ : BlockHandle;
  index_handle_ : BlockHandle;
  checksum_type_ : Z;
  block_trailer_size_ : Z;
}.
Definition Footer_empty : Footer := mkFooter 0 0xffffffff BlockHandle_uninitialized BlockHandle_uninitialized (Z.lor (Z.shiftl 1 8) kNoChecksum) 0.

Section footer.
Context `{Port}.

Definition FooterBuilder_Build (magic_number format_version checksum_type : Z) (metaindex_handle index_handle : BlockHandle) : list Z :=
  let handles := BlockHandleFormat.EncodeTo_ptr metaindex_handle ++ BlockHandleFormat.EncodeTo_ptr index_handle in
  let part2 := handles ++ replicate (Z.to_nat (kFooterPart2Size - zlen handles)) 0 in
  if 0 <? format_version then [u8 checksum_type] ++ part2 ++ EncodeFixed32 format_version ++ EncodeFixed64 magic_number
  else part2 ++ EncodeFixed64 (DownconvertToLegacyFooterFormat magic_number).

(** [None] if the input is too short to look at: the source only asserts that it is not. *)
Definition Footer_DecodeFrom (footer : Footer) (input : list Z) : option (Status * Footer) :=
  if zlen input <? kMinEncodedLength then None
  else
    let magic_ptr := zlen input - kMagicNumberLengthByte in
    let magic := DecodeFixed64 (zdrop magic_ptr input) in
    let legacy := IsLegacyFooterFormat magic in
    let magic := if legacy then UpconvertLegacyFooterFormat magic else magic in
    let trailer := BlockTrailerSizeForMagicNumber magic in
    let part2 (version checksum : Z) (input : list Z) :=
      let '(s, metaindex, input) := BlockHandleFormat.DecodeFrom input in
      if negb (St.ok s) then (s, mkFooter magic version metaindex (index_handle_ footer) checksum trailer)
      else
        let '(s, index, _) := BlockHandleFormat.DecodeFrom input in
        (s, mkFooter magic version metaindex index checksum trailer) in
    if legacy then Some (part2 0 kCRC32c (zdrop (zlen input - kVersion0EncodedLength) input))
    else
      let version := DecodeFixed32 (zdrop (magic_ptr - 4) input) in
      let failed checksum := Some (St.Corruption, mkFooter magic version (metaindex_handle_ footer) (index_handle_ footer) checksum trailer) in
      if negb (IsSupportedFormatVersion version) then failed (checksum_type_ footer)
      else if zlen input <? kNewVersionsEncodedLength then failed (checksum_type_ footer)
      else
        let input := zdrop (zlen input - kNewVersionsEncodedLength) input in
        let checksum := i8 (byte_at input 0) in
        if negb (IsSupportedChecksumType checksum) then failed checksum
        else Some (part2 version checksum (zdrop 1 input)).

(** [Read] is the file: an offset and a number of bytes to a status and the bytes. Of the cache of prefetched data only what is read through it is used. *)
Definition ReadFooterFromFile (Read : Z -> Z -> Status * list Z) (file_size enforce_table_magic_number : Z) : option (Status * Footer) :=
  if file_size <? kMinEncodedLength then Some (St.Corruption, Footer_empty)
  else
    let read_offset := if kNewVersionsEncodedLength <? file_size then file_size - kNewVersionsEncodedLength else 0 in
    let '(s, footer_input) := Read read_offset kNewVersionsEncodedLength in
    if negb (St.ok s) then Some (s, Footer_empty)
    else if zlen footer_input <? kMinEncodedLength then Some (St.Corruption, Footer_empty)
    else
      r ← Footer_DecodeFrom Footer_empty footer_input;
      let '(s, footer) := r in
      if negb (St.ok s) then Some (s, footer)
      else if negb (enforce_table_magic_number =? 0) && negb (enforce_table_magic_number =? table_magic_number_ footer) then Some (St.Corruption, footer)
      else Some (St.OK, footer).

(** ** Checksums of blocks *)

(** The implementation of [crc32c::Extend]; the first argument is the address of the buffer. *)
Context (Extend : Z -> Z -> list Z -> Z) (XXH_REROLL : bool) (XXH3_64bits : list Z -> Z).
Definition ModifyChecksumForLastByte (checksum last_byte : Z) : Z :=
  let kRandomPrime := 0x6b9083d9 in Z.lxor checksum (u32 (last_byte * kRandomPrime)).
Definition ComputeBuiltinChecksum (type addr : Z) (data : list Z) : Z :=
  if type =? kCRC32c then Mask (Value Extend addr data)
  else if type =? kxxHash then XXH32 XXH_REROLL data 0
  else if type =? kxxHash64 then Lower32of64 (XXH64 data 0)
  else if type =? kXXH3 then
    if zlen data =? 0 then 0
    else
      let v := Lower32of64 (XXH3_64bits (ztake (zlen data - 1) data)) in
      ModifyChecksumForLastByte v (byte_at data (zlen data - 1))
  else 0.
Definition ComputeBuiltinChecksumWithLastByte (type addr last_addr : Z) (data : list Z) (last_byte : Z) : Z :=
  if type =? kCRC32c then
    let crc := Value Extend addr data in
    let crc := Extend last_addr crc [last_byte] in
    Mask crc
  else if type =? kxxHash then
    let state := XXH32_reset 0 in
    let state := XXH32_update state data in
    let state := XXH32_update state [last_byte] in
    XXH32_digest XXH_REROLL state
  else if type =? kxxHash64 then
    let state := XXH64_reset 0 in
    let state := XXH64_update state data in
    let state := XXH64_update state [last_byte] in
    Lower32of64 (XXH64_digest state)
  else if type =? kXXH3 then
    let v := Lower32of64 (XXH3_64bits data) in
    ModifyChecksumForLastByte v last_byte
  else 0.
End footer.
