(* ===== verification/TableFormatProofs.v ===== *)
(** * What is written to a table file is read back; the checksum of a block and its last byte *)

From stdpp Require Import prelude.
From Stdlib Require Import ZArith Lia Bool.
From S2P Require Import Prelude Coding Math Hash Status Crc32c Crc32cProofs Xxhash XxhashProofs TableFormat.

Definition handle_ok (h : BlockHandle) : Prop := is_u 64 (offset_ h) /\ is_u 64 (size_ h).

(** A format: what its decoder makes of an encoding and of what follows. *)
Lemma handle_roundtrip h rest : handle_ok h -> BlockHandleFormat.DecodeFrom (BlockHandleFormat.EncodeTo_ptr h ++ rest) = (St.OK, h, rest).
Proof.
  intros [Ho Hs]. unfold BlockHandleFormat.DecodeFrom, BlockHandleFormat.EncodeTo_ptr. rewrite <- app_assoc, GetVarint64_app by done. rewrite GetVarint64_app by done. by destruct h.
Qed.
Lemma handle_encoded_length h : handle_ok h -> 0 <= zlen (BlockHandleFormat.EncodeTo_ptr h) <= kMaxEncodedLength.
Proof.
  intros [Ho Hs]. unfold BlockHandleFormat.EncodeTo_ptr, kMaxEncodedLength. rewrite zlen_app. pose proof (EncodeVarint64_loop_len 10 (offset_ h) ltac:(lia)). pose proof (EncodeVarint64_loop_len 10 (size_ h) ltac:(lia)). unfold EncodeVarint64, kMaxVarint64Length. lia.
Qed.

(** ** Index values *)

(** An index value, whole or as the difference to the block before it, with or without its first key, is read back, and the reader stops behind it. A handle that is stored as a difference must be of
    the block that follows the previous one in the file. *)
Theorem index_value_roundtrip v0 v have_first_key previous rest : handle_ok (handle v) -> zlen (first_internal_key v) < 2 ^ 32 ->
  (have_first_key = false -> first_internal_key v = []) ->
  (forall p, previous = Some p -> handle_ok p /\ offset_ (handle v) = u64 (offset_ p + size_ p + kBlockTrailerSize)) ->
  IndexValueFormat.DecodeFrom v0 (IndexValueFormat.EncodeTo [] have_first_key previous v ++ rest) have_first_key previous = (St.OK, v, rest).
Proof.
  intros Hh Hk Hno Hprev. unfold IndexValueFormat.EncodeTo, IndexValueFormat.DecodeFrom. pose proof (zlen_nonneg (first_internal_key v)).
  set (tail := if have_first_key then PutLengthPrefixedSlice [] (first_internal_key v) else []).
  assert (Htail : forall enc, (if have_first_key then PutLengthPrefixedSlice enc (first_internal_key v) else enc) ++ rest = enc ++ tail ++ rest).
  { intros enc. unfold tail, PutLengthPrefixedSlice, PutVarint32. destruct have_first_key; cbn [app]; by rewrite <- ?app_assoc. }
  assert (Hkey : forall h, (if negb have_first_key then (St.OK, mkIndexValue h [], tail ++ rest)
    else match GetLengthPrefixedSlice (tail ++ rest) with Some (key, input) => (St.OK, mkIndexValue h key, input) | None => (St.Corruption, mkIndexValue h (first_internal_key v0), tail ++ rest) end) = (St.OK, mkIndexValue h (first_internal_key v), rest)).
  { intros h. unfold tail. destruct have_first_key; cbn [negb app]; [|by rewrite Hno]. unfold PutLengthPrefixedSlice, PutVarint32. cbn [app]. rewrite u32_small by lia. rewrite <- app_assoc, GetLengthPrefixedSlice_app by (unfold is_u; lia || done). done. }
  rewrite Htail. destruct previous as [p|].
  - destruct (Hprev p eq_refl) as [[Hpo Hps] Hoff]. unfold PutVarsignedint64. cbn [app]. set (d := i64 _). assert (Hd : - 2 ^ 63 <= d < 2 ^ 63) by (apply (signed_range 64); lia). destruct (zigzag_rt d Hd) as [Hz Ez].
    unfold GetVarsignedint64, GetVarsignedint64Ptr. change (GetVarint64Ptr ?q) with (GetVarint64 q). rewrite GetVarint64_app, Ez by done. change (St.ok St.OK) with true. cbn [negb].
    assert (Eh : mkHandle (u64 (u64 (offset_ p + size_ p) + kBlockTrailerSize)) (u64 (size_ p + u64 d)) = handle v).
    { destruct v as [[o s] k]. cbn in *. f_equal; [rewrite Hoff; unfold u64; by rewrite Zplus_mod_idemp_l|]. unfold d, i64. unfold u64 at 2. rewrite (signed_mod 64) by lia. destruct Hh as [_ Hs]. cbn in Hs. unfold u64. rewrite Z.mod_mod, Zplus_mod_idemp_r by lia.
      replace (size_ p + (s - size_ p)) with s by lia. by apply Z.mod_small. }
    rewrite Eh, Hkey. by destruct v.
  - unfold BlockHandleFormat.EncodeTo, PutVarint64Varint64. cbn [app]. change (EncodeVarint64 (offset_ (handle v)) ++ EncodeVarint64 (size_ (handle v))) with (BlockHandleFormat.EncodeTo_ptr (handle v)).
    rewrite handle_roundtrip by done. change (St.ok St.OK) with true. cbn [negb]. rewrite Hkey. by destruct v.
Qed.
Lemma index_value_roundtrip_witness : let v := mkIndexValue (mkHandle 1105 70) [1; 2; 3] in
  IndexValueFormat.DecodeFrom (mkIndexValue kNullBlockHandle []) (IndexValueFormat.EncodeTo [] true (Some (mkHandle 1000 100)) v ++ [9]) true (Some (mkHandle 1000 100)) = (St.OK, v, [9]).
Proof. apply (index_value_roundtrip (mkIndexValue kNullBlockHandle []) (mkIndexValue (mkHandle 1105 70) [1; 2; 3]) true (Some (mkHandle 1000 100)) [9]); [done|done|done|]. by intros p [= <-]. Defined.

(** ** Footers *)

Section footer.
Context `{Port}.
Notation Build := FooterBuilder_Build.
(** The second part of a footer: the handles and zeros. *)
Definition part2 (m i : BlockHandle) : list Z :=
  let handles := BlockHandleFormat.EncodeTo_ptr m ++ BlockHandleFormat.EncodeTo_ptr i in handles ++ replicate (Z.to_nat (kFooterPart2Size - zlen handles)) 0.
Lemma part2_length m i : handle_ok m -> handle_ok i -> zlen (part2 m i) = 40.
Proof.
  intros Hm Hi. unfold part2. pose proof (handle_encoded_length m Hm). pose proof (handle_encoded_length i Hi). rewrite !zlen_app. unfold zlen at 3. rewrite length_replicate. unfold kFooterPart2Size in *. change kMaxEncodedLength with 20 in *. lia.
Qed.
Lemma part2_decode m i rest : handle_ok m -> handle_ok i -> exists rest1 rest2,
  BlockHandleFormat.DecodeFrom (part2 m i ++ rest) = (St.OK, m, rest1) /\ BlockHandleFormat.DecodeFrom rest1 = (St.OK, i, rest2).
Proof. intros Hm Hi. unfold part2. rewrite <- !app_assoc. eexists _, _. by rewrite !handle_roundtrip. Qed.
(** Which footers there are: a supported version and checksum; for version 0 the magic number has a legacy form and the checksum is CRC-32C
    (it is not written: a footer of version 0 that is built with another one, as the plain table builder does, reads back with CRC-32C), later ones are not mistaken for one. *)
Definition footer_ok (f : Footer) : Prop :=
  is_u 64 (table_magic_number_ f) /\ 0 <= format_version_ f <= 5 /\ 0 <= checksum_type_ f <= 4 /\ handle_ok (metaindex_handle_ f) /\ handle_ok (index_handle_ f) /\
  block_trailer_size_ f = BlockTrailerSizeForMagicNumber (table_magic_number_ f) /\
  (if decide (format_version_ f = 0) then (table_magic_number_ f = kBlockBasedTableMagicNumber \/ table_magic_number_ f = kPlainTableMagicNumber) /\ checksum_type_ f = kCRC32c
   else IsLegacyFooterFormat (table_magic_number_ f) = false).
Definition written (f : Footer) : list Z := Build (table_magic_number_ f) (format_version_ f) (checksum_type_ f) (metaindex_handle_ f) (index_handle_ f).
Lemma written_length f : footer_ok f -> zlen (written f) = if decide (format_version_ f = 0) then kVersion0EncodedLength else kNewVersionsEncodedLength.
Proof.
  intros (_ & Hv & _ & Hm & Hi & _). unfold written, FooterBuilder_Build. fold (part2 (metaindex_handle_ f) (index_handle_ f)). rewrite EncodeFixed32_eq, !EncodeFixed64_eq. destruct (decide (format_version_ f = 0)) as [->|Hne].
  - cbn [Z.ltb Z.compare]. rewrite zlen_app, part2_length, zlen_le_bytes by done. done.
  - rewrite (proj2 (Z.ltb_lt 0 _)) by lia. rewrite !zlen_app, part2_length, !zlen_le_bytes by done. done.
Qed.
Lemma decode_written f f0 pre : footer_ok f -> Footer_DecodeFrom f0 (pre ++ written f) = Some (St.OK, f).
Proof.
  intros Hf. pose proof (written_length f Hf) as Hlen. destruct Hf as (Hmagic & Hv & Hc & Hm & Hi & Ht & Hver). unfold Footer_DecodeFrom. rewrite zlen_app. pose proof (zlen_nonneg pre).
  unfold written, FooterBuilder_Build in Hlen |- *. fold (part2 (metaindex_handle_ f) (index_handle_ f)) in Hlen |- *. rewrite EncodeFixed32_eq, !EncodeFixed64_eq in Hlen |- *. pose proof (part2_length _ _ Hm Hi) as Hp2.
  destruct (decide (format_version_ f = 0)) as [E0|Hne].
  - rewrite E0 in *. cbn [Z.ltb Z.compare] in *. destruct Hver as [Hmag Hcrc]. rewrite Hlen. change kVersion0EncodedLength with 48. change kMinEncodedLength with 48. rewrite (proj2 (Z.ltb_ge _ _)) by lia.
    set (lm := DownconvertToLegacyFooterFormat (table_magic_number_ f)).
    assert (Hlm : is_u 64 lm /\ IsLegacyFooterFormat lm = true /\ UpconvertLegacyFooterFormat lm = table_magic_number_ f) by (subst lm; destruct Hmag as [-> | ->]; by vm_compute).
    destruct Hlm as (Hlu & Hleg & Hup). change kMagicNumberLengthByte with 8. rewrite (app_assoc pre), zdrop_app' by (rewrite zlen_app; lia). rewrite <- (app_nil_r (le_bytes 8 lm)), DecodeFixed64_app by done. rewrite Hleg, Hup.
    rewrite app_nil_r, <- app_assoc, zdrop_app' by lia. destruct (part2_decode _ _ (le_bytes 8 lm) Hm Hi) as (r1 & r2 & -> & ->). change (St.ok St.OK) with true. cbn [negb]. rewrite <- Ht, <- Hcrc, <- E0. by destruct f.
  - rewrite (proj2 (Z.ltb_lt 0 _)) in Hlen |- * by lia. set (p2 := part2 _ _) in *. set (v := format_version_ f) in *. set (mg := table_magic_number_ f) in *. rewrite Hlen. change kNewVersionsEncodedLength with 53. change kMinEncodedLength with 48. change kMagicNumberLengthByte with 8. rewrite (proj2 (Z.ltb_ge _ 48)) by lia.
    replace (pre ++ [u8 (checksum_type_ f)] ++ p2 ++ le_bytes 4 v ++ le_bytes 8 mg) with ((pre ++ [u8 (checksum_type_ f)] ++ p2 ++ le_bytes 4 v) ++ le_bytes 8 mg) by (by rewrite <- !app_assoc).
    rewrite zdrop_app' by (rewrite !zlen_app, zlen_le_bytes; change (zlen [_]) with 1; lia). rewrite <- (app_nil_r (le_bytes 8 mg)), DecodeFixed64_app, Hver by done. rewrite app_nil_r.
    replace ((pre ++ [u8 (checksum_type_ f)] ++ p2 ++ le_bytes 4 v) ++ le_bytes 8 mg) with ((pre ++ [u8 (checksum_type_ f)] ++ p2) ++ le_bytes 4 v ++ le_bytes 8 mg) by (by rewrite <- !app_assoc).
    rewrite zdrop_app' by (rewrite !zlen_app; change (zlen [_]) with 1; lia). rewrite DecodeFixed32_app by (unfold is_u; lia). unfold IsSupportedFormatVersion. rewrite (proj2 (Z.leb_le v _)) by (change kLatestFormatVersion with 5; lia). cbn [negb].
    rewrite (proj2 (Z.ltb_ge _ 53)) by lia. rewrite <- app_assoc, zdrop_app' by lia. cbn [app]. change (byte_at (?b :: _) 0) with b. rewrite u8_small by lia.
    unfold i8. rewrite (signed_small 8) by (change (2 ^ (8 - 1)) with 128; lia). unfold IsSupportedChecksumType. rewrite (proj2 (Z.leb_le kNoChecksum _)), (proj2 (Z.leb_le _ kXXH3)) by (unfold kNoChecksum, kXXH3; lia). cbn [andb negb].
    change (zdrop 1 (?b :: ?l)) with l. destruct (part2_decode _ _ (le_bytes 4 v ++ le_bytes 8 mg) Hm Hi) as (r1 & r2 & E1 & E2). fold p2 in E1. rewrite E1, E2. change (St.ok St.OK) with true. cbn [negb]. subst mg v. rewrite <- Ht. by destruct f.
Qed.

(** C16: A footer of any supported version that was written at the end of a file is found and read back from the file, whatever precedes it, and only a caller that expects another magic number is told of a
    corruption. *)
Theorem footer_file_roundtrip f pre Read enforce : footer_ok f ->
  let file := pre ++ written f in
  (forall off n, 0 <= off -> 0 <= n -> Read off n = (St.OK, ztake n (zdrop off file))) ->
  ReadFooterFromFile Read (zlen file) enforce = Some (if (enforce =? 0) || (enforce =? table_magic_number_ f) then St.OK else St.Corruption, f).
Proof.
  intros Hf file Hread. pose proof (written_length f Hf) as Hw. pose proof (zlen_nonneg pre). unfold ReadFooterFromFile.
  assert (Hl : 48 <= zlen (written f) <= 53) by (rewrite Hw; destruct (decide _); by vm_compute). assert (Hfile : zlen file = zlen pre + zlen (written f)) by (unfold file; apply zlen_app).
  change kMinEncodedLength with 48. change kNewVersionsEncodedLength with 53. rewrite (proj2 (Z.ltb_ge _ 48)) by lia. set (off := if 53 <? zlen file then zlen file - 53 else 0).
  assert (Hoff : 0 <= off <= zlen pre /\ zlen file - off <= 53) by (unfold off; destruct (Z.ltb_spec 53 (zlen file)); lia). rewrite Hread by lia.
  assert (Hin : ztake 53 (zdrop off file) = zdrop off pre ++ written f).
  { unfold file. rewrite zdrop_app_l by lia. unfold ztake. apply take_ge. pose proof (zlen_zdrop off pre ltac:(lia)). unfold zlen in *. rewrite length_app. lia. }
  rewrite Hin. change (St.ok St.OK) with true. cbn [negb]. rewrite (proj2 (Z.ltb_ge _ 48)) by (rewrite zlen_app; pose proof (zlen_nonneg (zdrop off pre)); lia). rewrite decode_written by done. cbn [mbind option_bind]. change (St.ok St.OK) with true. cbn [negb].
  destruct (enforce =? 0); cbn [negb andb orb]; [done|]. by destruct (enforce =? table_magic_number_ f).
Qed.
End footer.
#[local] Instance a_little_port : Port := {| kLittleEndian := true |}.
Definition a_footer : Footer := mkFooter kBlockBasedTableMagicNumber 5 (mkHandle 1000 20) (mkHandle 1025 300) kXXH3 5.
Lemma footer_file_roundtrip_witness : let file := replicate 100 7 ++ written a_footer in
  ReadFooterFromFile (fun off n => (St.OK, ztake n (zdrop off file))) (zlen file) 12 = Some (if (12 =? 0) || (12 =? table_magic_number_ a_footer) then St.OK else St.Corruption, a_footer).
Proof. apply (footer_file_roundtrip a_footer (replicate 100 7) (fun off n => (St.OK, ztake n (zdrop off (replicate 100 7 ++ written a_footer)))) 12); [|done]. repeat (split; [by vm_compute|]). by vm_compute. Defined.

(** ** Checksums *)

(** The checksum of a block with its last byte apart, as it is when the compression type follows the block, is the checksum of the whole, for every checksum type and with either implementation of CRC-32C,
    wherever the bytes are. *)
Theorem checksum_last_byte `{Port} CRC32 `{!Crc8 CRC32} XXH_REROLL XXH3_64bits type addr addr1 last_addr data last_byte :
  bytes_ok data -> is_byte last_byte -> zlen data + 1 < 2 ^ 64 -> Forall (fun p => 0 <= p <= 2 ^ 64 - 16) [addr; addr1; last_addr] ->
  ComputeBuiltinChecksum (ExtendImpl CRC32) XXH_REROLL XXH3_64bits type addr (data ++ [last_byte]) =
  ComputeBuiltinChecksumWithLastByte (ExtendImpl CRC32) XXH_REROLL XXH3_64bits type addr1 last_addr data last_byte.
Proof.
  intros Hd Hb Hlen Ha. repeat (apply Forall_cons in Ha as [? Ha]). pose proof (zlen_nonneg data). unfold ComputeBuiltinChecksum, ComputeBuiltinChecksumWithLastByte.
  assert (Hall : bytes_ok (data ++ [last_byte])) by (apply Forall_app; split; [done|by apply Forall_singleton]). assert (Hzero : is_u 32 0) by (by vm_compute). assert (Hones : is_u 32 0xffffffff) by (by vm_compute).
  assert (Hchunks : concat [data; [last_byte]] = data ++ [last_byte]) by (cbn; by rewrite ?app_nil_r). assert (Hlen2 : zlen (concat [data; [last_byte]]) < 2 ^ 64) by (rewrite Hchunks, zlen_app; done).
  destruct (type =? kCRC32c).
  { f_equal. unfold Value. rewrite (ExtendImpl_spec CRC32 addr), (ExtendImpl_spec CRC32 addr1) by (done || lia).
    assert (Hc : is_u 32 (crc_bytes (Z.lxor 0 4294967295) data)) by (apply crc_bytes_range; [done|by apply (lxor_range 32)]).
    rewrite (ExtendImpl_spec CRC32 last_addr), lxor_ones_twice, crc_bytes_app; [done|by apply (lxor_range 32)|by apply Forall_singleton|lia|lia]. }
  destruct (type =? kxxHash); [rewrite <- Hchunks; symmetry; apply (digest32_hashed XXH_REROLL 0 (concat [data; [last_byte]])); rewrite Hchunks; apply update32_hashed, (update32_hashed 0 []), reset32_hashed|].
  destruct (type =? kxxHash64); [f_equal; symmetry; apply digest64_hashed; [by rewrite <- Hchunks|]; apply update64_hashed, (update64_hashed 0 []), reset64_hashed|].
  destruct (type =? kXXH3); [|done]. rewrite zlen_app. change (zlen [last_byte]) with 1. rewrite (proj2 (Z.eqb_neq _ 0)) by lia. rewrite Z.add_simpl_r, ztake_app. f_equal.
  pose proof (byte_at_app_r data [last_byte] 0 ltac:(lia)) as Eb. by rewrite Z.add_0_r in Eb.
Qed.
Lemma checksum_last_byte_witness : ComputeBuiltinChecksum (ExtendImpl Slow_CRC32) false (fun _ => 5) kCRC32c 16 ([1; 2; 3] ++ [4]) =
  ComputeBuiltinChecksumWithLastByte (ExtendImpl Slow_CRC32) false (fun _ => 5) kCRC32c 21 1000 [1; 2; 3] 4.
Proof. apply (checksum_last_byte Slow_CRC32 false (fun _ => 5) kCRC32c 16 21 1000 [1; 2; 3] 4); [by repeat constructor|done|done|by repeat constructor]. Defined.
