(* ===== verification/LruTable.v ===== *)
(** * Entries of the LRU cache and their hash table (cache/lru_cache.h, lru_cache.cc)

    [LRUHandle], with one boolean per flag bit, and [LRUHandleTable]. A pointer to
    an entry is a number; the chain of a bucket ([next_hash]) is a list of them.
    The operations are proved to act as a map from hashed keys to entries. *)

From stdpp Require Import prelude gmap.
From Stdlib Require Import ZArith Lia Bool.
From S2P Require Import Prelude.

(** The result a secondary cache hands out: [Value()] and [Size()]. *)
Record SecResult := mkSecResult { Value : option Z; Size : Z }.

Inductive Priority := HIGH | LOW | BOTTOM.

#[global] Instance Priority_eq_dec : EqDecision Priority.
Proof. solve_decision. Defined.

(** [value] is null or a pointer; [has_deleter] is whether [info_.deleter] is not null. *)
Record LRUHandle := mkHandle {
  value : option Z;
  has_deleter : bool;
  sec_handle : option SecResult;
  total_charge : Z;
  key : list Z;
  hash : Z;
  refs : Z;
  IN_CACHE : bool;
  IS_HIGH_PRI : bool;
  IN_HIGH_PRI_POOL : bool;
  HAS_HIT : bool;
  IS_SECONDARY_CACHE_COMPATIBLE : bool;
  IS_PENDING : bool;
  IS_IN_SECONDARY_CACHE : bool;
  IS_LOW_PRI : bool;
  IN_LOW_PRI_POOL : bool;
  IS_STANDALONE : bool;
}.

Module Handle.
Definition with_refs (r : Z) (e : LRUHandle) : LRUHandle :=
  mkHandle (value e) (has_deleter e) (sec_handle e) (total_charge e) (key e) (hash e) r (IN_CACHE e) (IS_HIGH_PRI e)
    (IN_HIGH_PRI_POOL e) (HAS_HIT e) (IS_SECONDARY_CACHE_COMPATIBLE e) (IS_PENDING e) (IS_IN_SECONDARY_CACHE e)
    (IS_LOW_PRI e) (IN_LOW_PRI_POOL e) (IS_STANDALONE e).
Definition Ref (e : LRUHandle) : LRUHandle := with_refs (u32 (refs e + 1)) e.
Definition Unref (e : LRUHandle) : bool * LRUHandle :=
  let e := with_refs (u32 (refs e - 1)) e in (refs e =? 0, e).
Definition HasRefs (e : LRUHandle) : bool := 0 <? refs e.

Definition SetInCache (b : bool) (e : LRUHandle) : LRUHandle :=
  mkHandle (value e) (has_deleter e) (sec_handle e) (total_charge e) (key e) (hash e) (refs e) b (IS_HIGH_PRI e)
    (IN_HIGH_PRI_POOL e) (HAS_HIT e) (IS_SECONDARY_CACHE_COMPATIBLE e) (IS_PENDING e) (IS_IN_SECONDARY_CACHE e)
    (IS_LOW_PRI e) (IN_LOW_PRI_POOL e) (IS_STANDALONE e).
(** [SetInHighPriPool(high); SetInLowPriPool(low)], always called together. *)
Definition SetInPools (high low : bool) (e : LRUHandle) : LRUHandle :=
  mkHandle (value e) (has_deleter e) (sec_handle e) (total_charge e) (key e) (hash e) (refs e) (IN_CACHE e) (IS_HIGH_PRI e)
    high (HAS_HIT e) (IS_SECONDARY_CACHE_COMPATIBLE e) (IS_PENDING e) (IS_IN_SECONDARY_CACHE e)
    (IS_LOW_PRI e) low (IS_STANDALONE e).
Definition SetHit (e : LRUHandle) : LRUHandle :=
  mkHandle (value e) (has_deleter e) (sec_handle e) (total_charge e) (key e) (hash e) (refs e) (IN_CACHE e) (IS_HIGH_PRI e)
    (IN_HIGH_PRI_POOL e) true (IS_SECONDARY_CACHE_COMPATIBLE e) (IS_PENDING e) (IS_IN_SECONDARY_CACHE e)
    (IS_LOW_PRI e) (IN_LOW_PRI_POOL e) (IS_STANDALONE e).
Definition SetIncomplete (b : bool) (e : LRUHandle) : LRUHandle :=
  mkHandle (value e) (has_deleter e) (sec_handle e) (total_charge e) (key e) (hash e) (refs e) (IN_CACHE e) (IS_HIGH_PRI e)
    (IN_HIGH_PRI_POOL e) (HAS_HIT e) (IS_SECONDARY_CACHE_COMPATIBLE e) b (IS_IN_SECONDARY_CACHE e)
    (IS_LOW_PRI e) (IN_LOW_PRI_POOL e) (IS_STANDALONE e).
Definition SetIsStandalone (b : bool) (e : LRUHandle) : LRUHandle :=
  mkHandle (value e) (has_deleter e) (sec_handle e) (total_charge e) (key e) (hash e) (refs e) (IN_CACHE e) (IS_HIGH_PRI e)
    (IN_HIGH_PRI_POOL e) (HAS_HIT e) (IS_SECONDARY_CACHE_COMPATIBLE e) (IS_PENDING e) (IS_IN_SECONDARY_CACHE e)
    (IS_LOW_PRI e) (IN_LOW_PRI_POOL e) b.
Definition SetIsInSecondaryCache (b : bool) (e : LRUHandle) : LRUHandle :=
  mkHandle (value e) (has_deleter e) (sec_handle e) (total_charge e) (key e) (hash e) (refs e) (IN_CACHE e) (IS_HIGH_PRI e)
    (IN_HIGH_PRI_POOL e) (HAS_HIT e) (IS_SECONDARY_CACHE_COMPATIBLE e) (IS_PENDING e) b
    (IS_LOW_PRI e) (IN_LOW_PRI_POOL e) (IS_STANDALONE e).
(** [value = v; total_charge = c]. *)
Definition with_value (v : option Z) (c : Z) (e : LRUHandle) : LRUHandle :=
  mkHandle v (has_deleter e) (sec_handle e) c (key e) (hash e) (refs e) (IN_CACHE e) (IS_HIGH_PRI e)
    (IN_HIGH_PRI_POOL e) (HAS_HIT e) (IS_SECONDARY_CACHE_COMPATIBLE e) (IS_PENDING e) (IS_IN_SECONDARY_CACHE e)
    (IS_LOW_PRI e) (IN_LOW_PRI_POOL e) (IS_STANDALONE e).
End Handle.

Module LRUHandleTable.
Section table.
(** The [hash] and the key of an entry. *)
Variable hk : nat -> Z * list Z.

Record t := mk {
  length_bits_ : Z;
  list_ : list (list nat);
  elems_ : Z;
  max_length_bits_ : Z;
}.

Definition new (max_upper_hash_bits : Z) : t := mk 4 (replicate (2 ^ 4) []) 0 max_upper_hash_bits.

(** [hash >> (32 - length_bits)]. *)
Definition index (length_bits hash : Z) : nat := Z.to_nat (Z.shiftr hash (32 - length_bits)).

(** [FindPointer] in one chain: the entries before the slot, and those from it on. *)
Fixpoint FindPointer (k : Z * list Z) (chain : list nat) : list nat * list nat :=
  match chain with
  | [] => ([], [])
  | e :: chain' =>
      if decide (hk e = k) then ([], chain)
      else let '(before, from) := FindPointer k chain' in (e :: before, from)
  end.

Definition chain (k : Z * list Z) (tb : t) : list nat := list_ tb !!! index (length_bits_ tb) k.1.

Definition Lookup (k : Z * list Z) (tb : t) : option nat := head (FindPointer k (chain k tb)).2.

(** The inner loop of [Resize]: every entry goes to the front of its new chain. *)
Definition rehash (new_length_bits : Z) (new_list : list (list nat)) (e : nat) : list (list nat) :=
  let i := index new_length_bits (hk e).1 in <[i := e :: (new_list !!! i)]> new_list.

Definition Resize (tb : t) : t :=
  if max_length_bits_ tb <=? length_bits_ tb then tb
  else if 31 <=? length_bits_ tb then tb
  else
    let new_length_bits := length_bits_ tb + 1 in
    let new_list := foldl (rehash new_length_bits) (replicate (Z.to_nat (2 ^ new_length_bits)) []) (concat (list_ tb)) in
    mk new_length_bits new_list (elems_ tb) (max_length_bits_ tb).

(** The entry with the same key that was replaced, if any. *)
Definition Insert (h : nat) (tb : t) : option nat * t :=
  let k := hk h in
  let '(before, from) := FindPointer k (chain k tb) in
  let i := index (length_bits_ tb) k.1 in
  match from with
  | old :: after => (Some old, mk (length_bits_ tb) (<[i := before ++ h :: after]> (list_ tb)) (elems_ tb) (max_length_bits_ tb))
  | [] =>
      let elems := u32 (elems_ tb + 1) in
      let tb := mk (length_bits_ tb) (<[i := before ++ [h]]> (list_ tb)) elems (max_length_bits_ tb) in
      (None, if 0 <? Z.shiftr elems (length_bits_ tb) then Resize tb else tb)
  end.

Definition Remove (k : Z * list Z) (tb : t) : option nat * t :=
  let '(before, from) := FindPointer k (chain k tb) in
  match from with
  | result :: after =>
      (Some result, mk (length_bits_ tb) (<[index (length_bits_ tb) k.1 := before ++ after]> (list_ tb))
                      (u32 (elems_ tb - 1)) (max_length_bits_ tb))
  | [] => (None, tb)
  end.

(** The entries [ApplyToEntriesRange] visits. *)
Definition EntriesRange (index_begin index_end : Z) (tb : t) : list nat :=
  concat (take (Z.to_nat index_end - Z.to_nat index_begin) (drop (Z.to_nat index_begin) (list_ tb))).
End table.
End LRUHandleTable.
Import LRUHandleTable.

(** ** The table as a map *)

Definition ids (tb : LRUHandleTable.t) : list nat := concat (list_ tb).

Record table_ok (hk : nat -> Z * list Z) (tb : LRUHandleTable.t) : Prop := {
  tk_bits : 4 <= length_bits_ tb <= 31;
  tk_length : length (list_ tb) = Z.to_nat (2 ^ length_bits_ tb);
  tk_chain i c e : list_ tb !! i = Some c -> e ∈ c -> index (length_bits_ tb) (hk e).1 = i /\ is_u 32 (hk e).1;
  tk_distinct : NoDup (map hk (ids tb));
  tk_elems : elems_ tb = Z.of_nat (length (ids tb)) /\ elems_ tb < 2 ^ 32;
}.

Lemma bucket_range bits h : 4 <= bits <= 31 -> is_u 32 h -> (index bits h < Z.to_nat (2 ^ bits))%nat.
Proof.
  intros Hb Hh. unfold index, is_u in *. rewrite Z.shiftr_div_pow2 by lia.
  assert (0 < 2 ^ (32 - bits)) by (apply Z.pow_pos_nonneg; lia).
  assert (0 <= h / 2 ^ (32 - bits)) by (apply Z.div_pos; lia).
  assert (h / 2 ^ (32 - bits) < 2 ^ bits); [|lia]. apply Z.div_lt_upper_bound; [lia|].
  rewrite <- Z.pow_add_r by lia. replace (32 - bits + bits) with 32 by lia. lia.
Qed.

Lemma concat_split {A} (l : list (list A)) i c : l !! i = Some c -> concat l ≡ₚ c ++ concat (take i l ++ drop (S i) l).
Proof.
  intros Hi. rewrite <- (take_drop_middle l i c Hi) at 1. rewrite !concat_app. simpl.
  rewrite app_assoc, (Permutation_app_comm (concat (take i l)) c), <- app_assoc. done.
Qed.
Lemma concat_insert {A} (l : list (list A)) i c : (i < length l)%nat ->
  concat (<[i := c]> l) ≡ₚ c ++ concat (take i l ++ drop (S i) l).
Proof.
  intros Hi. rewrite (concat_split (<[i := c]> l) i c) by (by apply list_lookup_insert_eq).
  by rewrite take_insert_ge, drop_insert_lt by lia.
Qed.

Section table_proofs.
Context (hk : nat -> Z * list Z).
Implicit Types (tb : LRUHandleTable.t) (k : Z * list Z).

Lemma FindPointer_app k c : let '(before, from) := FindPointer hk k c in
  c = before ++ from /\ Forall (fun e => hk e <> k) before /\ match from with e :: _ => hk e = k | [] => True end.
Proof.
  induction c as [|e c IH]; simpl; [done|]. case_decide as E; [done|]. destruct (FindPointer hk k c) as [b f].
  destruct IH as (-> & IH & ?). split_and!; [done|by constructor|done].
Qed.

Lemma table_ok_new max : table_ok hk (LRUHandleTable.new max).
Proof.
  split; simpl; try done.
  - intros i c e Hc He. assert (c = []) as ->; [|by apply elem_of_nil in He].
    change (replicate 16 ([] : list nat) !! i = Some c) in Hc. by apply lookup_replicate in Hc as [-> _].
  - constructor.
Qed.

Lemma chain_lookup_ok k tb : table_ok hk tb -> is_u 32 k.1 ->
  (index (length_bits_ tb) k.1 < length (list_ tb))%nat /\ list_ tb !! index (length_bits_ tb) k.1 = Some (chain k tb).
Proof.
  intros HT Hk. rewrite (tk_length _ _ HT). pose proof (bucket_range _ _ (tk_bits _ _ HT) Hk) as Hi. split; [done|].
  apply list_lookup_lookup_total_lt. by rewrite (tk_length _ _ HT).
Qed.

Lemma in_chain k tb e : table_ok hk tb -> is_u 32 k.1 -> e ∈ ids tb -> hk e = k -> e ∈ chain k tb.
Proof.
  intros HT Hk He Ek. apply list_elem_of_In, in_concat in He as (c & Hc & Hec).
  apply list_elem_of_In in Hc, Hec. apply list_elem_of_lookup in Hc as [i Hi].
  destruct (tk_chain _ _ HT i c e Hi Hec) as [Ei _]. rewrite Ek in Ei.
  destruct (chain_lookup_ok k tb HT Hk) as [_ Hc]. rewrite Ei in Hc. congruence.
Qed.

Lemma chain_ids k tb : table_ok hk tb -> is_u 32 k.1 ->
  let i := index (length_bits_ tb) k.1 in
  exists rest : list nat, ids tb ≡ₚ chain k tb ++ rest /\
    (forall c', concat (<[i := c']> (list_ tb)) ≡ₚ c' ++ rest).
Proof.
  intros HT Hk i. destruct (chain_lookup_ok k tb HT Hk) as [Hi Hc]. eexists. split; [by apply concat_split|].
  intros c'. by apply concat_insert.
Qed.

(** The slot [FindPointer] finds: the chain around it, and what [Lookup] answers. *)
Lemma find_slot k tb : table_ok hk tb -> is_u 32 k.1 ->
  let '(before, from) := FindPointer hk k (chain k tb) in
  chain k tb = before ++ from /\ Lookup hk k tb = head from /\
  match from with
  | e :: _ => e ∈ ids tb /\ hk e = k
  | [] => forall e, e ∈ ids tb -> hk e <> k
  end.
Proof.
  intros HT Hk. unfold Lookup. pose proof (FindPointer_app k (chain k tb)) as HF.
  destruct (FindPointer hk k (chain k tb)) as [before from]. destruct HF as (Ec & Hb & Hf). split_and!; [done|done|].
  destruct (chain_ids k tb HT Hk) as (rest & Hids & _). destruct from as [|e from].
  - intros e He Ek. pose proof (in_chain k tb e HT Hk He Ek) as Hin. rewrite Ec, app_nil_r in Hin.
    rewrite Forall_forall in Hb. by apply (Hb e).
  - split; [|done]. rewrite Hids, Ec. set_solver.
Qed.

Lemma hk_inj tb e e' : table_ok hk tb -> e ∈ ids tb -> e' ∈ ids tb -> hk e = hk e' -> e = e'.
Proof.
  intros HT He He' E. pose proof (tk_distinct _ _ HT) as HN.
  apply list_elem_of_lookup in He as [i Hi], He' as [j Hj].
  assert (i = j) as ->; [|congruence]. eapply NoDup_lookup; [exact HN|by rewrite list_lookup_fmap, Hi|].
  by rewrite list_lookup_fmap, Hj, E.
Qed.

Lemma Lookup_spec k tb e : table_ok hk tb -> is_u 32 k.1 -> Lookup hk k tb = Some e <-> e ∈ ids tb /\ hk e = k.
Proof.
  intros HT Hk. pose proof (find_slot k tb HT Hk) as HF. destruct (FindPointer hk k (chain k tb)) as [before from].
  destruct HF as (_ & -> & Hf). destruct from as [|e0 from]; simpl.
  - split; [done|]. intros [He Ek]. by destruct (Hf e He).
  - destruct Hf as [H1 H2]. split; [by intros [= <-]|]. intros [He Ek]. f_equal. apply (hk_inj tb); [done|done|done|congruence].
Qed.

(** Chains hold entries of their index. *)
Definition chains_ok (bits : Z) (l : list (list nat)) : Prop :=
  forall i c e, l !! i = Some c -> e ∈ c -> index bits (hk e).1 = i /\ is_u 32 (hk e).1.

Lemma chains_ok_insert bits l i c : chains_ok bits l ->
  (forall e, e ∈ c -> index bits (hk e).1 = i /\ is_u 32 (hk e).1) -> chains_ok bits (<[i := c]> l).
Proof.
  intros HC Hc j c' e Hj He. apply list_lookup_insert_Some in Hj as [(-> & <- & _)|[_ Hj]]; [by apply Hc|by apply (HC j c')].
Qed.

Lemma rehash_all bits es l : 4 <= bits <= 31 -> length l = Z.to_nat (2 ^ bits) -> chains_ok bits l ->
  (forall e, e ∈ es -> is_u 32 (hk e).1) ->
  let l' := foldl (rehash hk bits) l es in
  length l' = Z.to_nat (2 ^ bits) /\ chains_ok bits l' /\ concat l' ≡ₚ es ++ concat l.
Proof.
  intros Hb. revert l. induction es as [|e es IH]; intros l Hl HC Hes; simpl; [done|].
  assert (He : is_u 32 (hk e).1) by (apply Hes; by left). set (i := index bits (hk e).1).
  assert (Hi : (i < length l)%nat) by (rewrite Hl; by apply bucket_range).
  pose proof (list_lookup_lookup_total_lt l i Hi) as Hc.
  destruct (IH (rehash hk bits l e)) as (I1 & I2 & I3).
  - unfold rehash. by rewrite length_insert.
  - apply chains_ok_insert; [done|]. intros x [->|Hx]%elem_of_cons; [done|]. by apply (HC i (l !!! i)).
  - intros x Hx. apply Hes. by right.
  - split_and!; [done|done|]. rewrite I3. unfold rehash. fold i. rewrite concat_insert by done.
    rewrite (concat_split l i _ Hc). simpl. by rewrite <- Permutation_middle.
Qed.

Lemma Resize_ok tb : table_ok hk tb -> table_ok hk (Resize hk tb) /\ ids (Resize hk tb) ≡ₚ ids tb.
Proof.
  intros HT. unfold Resize. destruct (_ <=? _); [done|]. destruct (Z.leb_spec 31 (length_bits_ tb)); [done|].
  pose proof (tk_bits _ _ HT). set (bits := length_bits_ tb + 1).
  destruct (rehash_all bits (ids tb) (replicate (Z.to_nat (2 ^ bits)) [])) as (R1 & R2 & R3).
  - unfold bits. lia.
  - apply length_replicate.
  - intros i c e Hc He. apply lookup_replicate in Hc as [-> _]. by apply elem_of_nil in He.
  - intros e He. apply list_elem_of_In, in_concat in He as (c & Hc & Hec). apply list_elem_of_In in Hc, Hec.
    apply list_elem_of_lookup in Hc as [i Hi]. by apply (tk_chain _ _ HT i c e).
  - assert (E0 : concat (replicate (Z.to_nat (2 ^ bits)) ([] : list nat)) = []).
    { generalize (Z.to_nat (2 ^ bits)). intros n. by induction n. }
    rewrite E0, app_nil_r in R3. split; [|done]. split; simpl; [unfold bits; lia|done|done| |].
    + unfold ids at 1. simpl. fold (ids tb). rewrite R3. apply HT.
    + unfold ids at 1. simpl. fold (ids tb). rewrite R3. apply HT.
Qed.

(** Replacing the chain of [k]. *)
Lemma set_chain_ok tb k c' elems rest : table_ok hk tb -> is_u 32 k.1 -> ids tb ≡ₚ chain k tb ++ rest ->
  (forall e, e ∈ c' -> e ∈ chain k tb \/ hk e = k) -> NoDup (map hk (c' ++ rest)) ->
  elems = Z.of_nat (length (c' ++ rest)) -> elems < 2 ^ 32 ->
  (forall c', concat (<[index (length_bits_ tb) k.1 := c']> (list_ tb)) ≡ₚ c' ++ rest) ->
  let tb' := mk (length_bits_ tb) (<[index (length_bits_ tb) k.1 := c']> (list_ tb)) elems (max_length_bits_ tb) in
  table_ok hk tb' /\ ids tb' ≡ₚ c' ++ rest.
Proof.
  intros HT Hk Hids Hc HN He Hlt Hcat. destruct (chain_lookup_ok k tb HT Hk) as [Hi Hch]. split; [|apply Hcat].
  split; simpl.
  - apply HT.
  - rewrite length_insert. apply HT.
  - apply chains_ok_insert; [exact (tk_chain _ _ HT)|]. intros e Hec. destruct (Hc e Hec) as [Hin| ->]; [|done].
    by apply (tk_chain _ _ HT _ _ _ Hch).
  - unfold ids. simpl. by rewrite Hcat.
  - unfold ids. simpl. rewrite Hcat. by split.
Qed.

Lemma Insert_spec h tb : table_ok hk tb -> is_u 32 (hk h).1 -> elems_ tb + 1 < 2 ^ 32 ->
  let '(old, tb') := Insert hk h tb in
  table_ok hk tb' /\ old = Lookup hk (hk h) tb /\
  match old with Some o => o :: ids tb' ≡ₚ h :: ids tb | None => ids tb' ≡ₚ h :: ids tb end.
Proof.
  intros HT Hk Hn. unfold Insert. pose proof (find_slot (hk h) tb HT Hk) as HF.
  destruct (chain_ids (hk h) tb HT Hk) as (rest & Hids & Hcat). pose proof (tk_distinct _ _ HT) as HN.
  destruct (tk_elems _ _ HT) as [He He32]. rewrite Hids in HN, He.
  destruct (FindPointer hk (hk h) (chain (hk h) tb)) as [before [|o after]]; destruct HF as (Ec & -> & Hf);
    rewrite Ec in HN, He, Hids; rewrite ?app_nil_r in *.
  - assert (Hp : (before ++ [h]) ++ rest ≡ₚ h :: before ++ rest) by (rewrite <- app_assoc; simpl; by rewrite Permutation_middle).
    destruct (set_chain_ok tb (hk h) (before ++ [h]) (u32 (elems_ tb + 1)) rest) as [HT' Hids']; try done.
    + by rewrite Ec.
    + intros e [Hin|Hin]%elem_of_app; [left; by rewrite Ec|right]. apply list_elem_of_singleton in Hin. by subst.
    + rewrite Hp. simpl. constructor; [|done]. intros (e & E & Hin)%list_elem_of_fmap. apply (Hf e); [by rewrite Hids|done].
    + rewrite Hp. simpl. rewrite u32_small by lia. lia.
    + rewrite u32_small by lia. lia.
    + destruct (0 <? _); [destruct (Resize_ok _ HT') as [HT2 HR]|]; split_and!; try done; rewrite ?HR, Hids', Hp, Hids; done.
  - destruct Hf as [Ho Ek]. assert (Hp : o :: (before ++ h :: after) ++ rest ≡ₚ h :: (before ++ o :: after) ++ rest).
    { rewrite <- !app_assoc. simpl. rewrite <- !Permutation_middle. apply perm_swap. }
    destruct (set_chain_ok tb (hk h) (before ++ h :: after) (elems_ tb) rest) as [HT' Hids']; try done.
    + by rewrite Ec.
    + intros e. rewrite Ec, !elem_of_app, !elem_of_cons. intros [?|[->|?]]; [left; by left|by right|left; right; by right].
    + by rewrite !map_app, map_cons, <- Ek, <- map_cons, <- !map_app.
    + apply Permutation_length in Hp. simpl in Hp. lia.
    + split_and!; [done|done|]. rewrite Hids', Hp, Hids. done.
Qed.

Lemma Remove_spec k tb : table_ok hk tb -> is_u 32 k.1 ->
  let '(res, tb') := Remove hk k tb in
  table_ok hk tb' /\ res = Lookup hk k tb /\
  match res with Some e => ids tb ≡ₚ e :: ids tb' | None => tb' = tb end.
Proof.
  intros HT Hk. unfold Remove. pose proof (find_slot k tb HT Hk) as HF.
  destruct (chain_ids k tb HT Hk) as (rest & Hids & Hcat). pose proof (tk_distinct _ _ HT) as HN.
  destruct (tk_elems _ _ HT) as [He He32].
  destruct (FindPointer hk k (chain k tb)) as [before [|o after]]; destruct HF as (Ec & -> & Hf); [done|].
  rewrite Hids, Ec in HN, He. assert (Hp : (before ++ o :: after) ++ rest ≡ₚ o :: (before ++ after) ++ rest).
  { rewrite <- !app_assoc. simpl. by rewrite <- Permutation_middle. }
  rewrite Hp in HN, He. simpl in HN, He. apply NoDup_cons in HN as [_ HN].
  destruct (set_chain_ok tb k (before ++ after) (u32 (elems_ tb - 1)) rest) as [HT' Hids']; try done.
  - intros e. rewrite Ec, !elem_of_app, elem_of_cons. tauto.
  - rewrite u32_small by lia. lia.
  - rewrite u32_small by lia. lia.
  - split_and!; [done|done|]. by rewrite Hids', Hids, Ec, Hp.
Qed.

Lemma table_ok_hk hk' tb : table_ok hk tb -> (forall e, e ∈ ids tb -> hk' e = hk e) -> table_ok hk' tb.
Proof.
  intros [T1 T2 T3 T4 T5] E. split; try done.
  - intros i c e Hc He. rewrite E; [by apply (T3 i c e)|]. apply list_elem_of_In, in_concat. exists c.
    rewrite <- !list_elem_of_In. split; [|done]. by apply list_elem_of_lookup_2 with i.
  - by rewrite (map_ext_in hk' hk) by (intros e He; apply E; by apply list_elem_of_In).
Qed.
End table_proofs.
