(* ===== verification/LruCache.v ===== *)
(** * The LRU cache shard (cache/lru_cache.cc)

    [LRUCacheShard] and the [LRUCache] constructor, as stateful code that may be
    undefined ([M]). An entry is a number that the heap maps to its [LRUHandle]; a freed
    entry is no longer in the heap, so that following a pointer to it is undefined.
    The circular list [lru_] is the list of its entries from the oldest
    ([lru_.next]) to the newest ([lru_.prev]), and a pointer to the dummy head
    [&lru_] is [None]. The dummy head has no charge (the field is never written), so
    that code that reads it is undefined as well. Assertions are left out, and the
    mutex, under which all of this runs, makes the operations atomic.

    The secondary cache is an interface ([SecondaryCache]); the size the allocator
    reports for an entry is a parameter ([Config]). *)

From stdpp Require Import prelude gmap.
From Stdlib Require Import ZArith Lia Bool SpecFloat.
From S2P Require Import Prelude Float64 Status StateMonad LruTable.

(** [rocksdb::SecondaryCache] with state [S]. [Lookup] answers null or a handle and
    [is_in_sec_cache]. *)
Class SecondaryCache (S : Type) := {
  sec_SupportForceErase : S -> bool;
  sec_Insert : list Z -> option Z -> S -> S;
  sec_Lookup : list Z -> bool -> bool -> S -> option (SecResult * bool) * S;
  sec_IsReady : SecResult -> S -> bool;
}.

(** [metadata_charge_policy_ == kFullChargeCacheMetadata], and the size of the
    allocation at an address for a key of some length. *)
Class Config := {
  kFullChargeCacheMetadata : bool;
  usable_size : nat -> Z -> Z;
}.

Module LRUCacheShard.
Section shard.
Context {S : Type} `{SecondaryCache S} `{Config}.

Record t := mk {
  heap : gmap nat LRUHandle;
  next_id : nat;
  deleted : list (list Z * option Z);
  capacity_ : Z;
  strict_capacity_limit_ : bool;
  high_pri_pool_ratio_ : spec_float;
  high_pri_pool_capacity_ : spec_float;
  low_pri_pool_ratio_ : spec_float;
  low_pri_pool_capacity_ : spec_float;
  high_pri_pool_usage_ : Z;
  low_pri_pool_usage_ : Z;
  lru_ : list nat;
  lru_low_pri_ : option nat;
  lru_bottom_pri_ : option nat;
  table_ : LRUHandleTable.t;
  usage_ : Z;
  lru_usage_ : Z;
  secondary_cache_ : option S;
}.

(** ** Assignments *)

Definition set_heap (h : gmap nat LRUHandle) (n : nat) (d : list (list Z * option Z)) (s : t) : t :=
  mk h n d (capacity_ s) (strict_capacity_limit_ s) (high_pri_pool_ratio_ s) (high_pri_pool_capacity_ s)
    (low_pri_pool_ratio_ s) (low_pri_pool_capacity_ s) (high_pri_pool_usage_ s) (low_pri_pool_usage_ s) (lru_ s)
    (lru_low_pri_ s) (lru_bottom_pri_ s) (table_ s) (usage_ s) (lru_usage_ s) (secondary_cache_ s).
Definition set_limits (cap : Z) (strict : bool) (hr hc lr lc : spec_float) (s : t) : t :=
  mk (heap s) (next_id s) (deleted s) cap strict hr hc lr lc (high_pri_pool_usage_ s) (low_pri_pool_usage_ s) (lru_ s)
    (lru_low_pri_ s) (lru_bottom_pri_ s) (table_ s) (usage_ s) (lru_usage_ s) (secondary_cache_ s).
Definition set_pool_usage (hi lo : Z) (s : t) : t :=
  mk (heap s) (next_id s) (deleted s) (capacity_ s) (strict_capacity_limit_ s) (high_pri_pool_ratio_ s)
    (high_pri_pool_capacity_ s) (low_pri_pool_ratio_ s) (low_pri_pool_capacity_ s) hi lo (lru_ s) (lru_low_pri_ s)
    (lru_bottom_pri_ s) (table_ s) (usage_ s) (lru_usage_ s) (secondary_cache_ s).
Definition set_lru (l : list nat) (low bottom : option nat) (s : t) : t :=
  mk (heap s) (next_id s) (deleted s) (capacity_ s) (strict_capacity_limit_ s) (high_pri_pool_ratio_ s)
    (high_pri_pool_capacity_ s) (low_pri_pool_ratio_ s) (low_pri_pool_capacity_ s) (high_pri_pool_usage_ s)
    (low_pri_pool_usage_ s) l low bottom (table_ s) (usage_ s) (lru_usage_ s) (secondary_cache_ s).
Definition set_table (tb : LRUHandleTable.t) (s : t) : t :=
  mk (heap s) (next_id s) (deleted s) (capacity_ s) (strict_capacity_limit_ s) (high_pri_pool_ratio_ s)
    (high_pri_pool_capacity_ s) (low_pri_pool_ratio_ s) (low_pri_pool_capacity_ s) (high_pri_pool_usage_ s)
    (low_pri_pool_usage_ s) (lru_ s) (lru_low_pri_ s) (lru_bottom_pri_ s) tb (usage_ s) (lru_usage_ s) (secondary_cache_ s).
Definition set_usage (u lu : Z) (s : t) : t :=
  mk (heap s) (next_id s) (deleted s) (capacity_ s) (strict_capacity_limit_ s) (high_pri_pool_ratio_ s)
    (high_pri_pool_capacity_ s) (low_pri_pool_ratio_ s) (low_pri_pool_capacity_ s) (high_pri_pool_usage_ s)
    (low_pri_pool_usage_ s) (lru_ s) (lru_low_pri_ s) (lru_bottom_pri_ s) (table_ s) u lu (secondary_cache_ s).
Definition set_secondary (c : option S) (s : t) : t :=
  mk (heap s) (next_id s) (deleted s) (capacity_ s) (strict_capacity_limit_ s) (high_pri_pool_ratio_ s)
    (high_pri_pool_capacity_ s) (low_pri_pool_ratio_ s) (low_pri_pool_capacity_ s) (high_pri_pool_usage_ s)
    (low_pri_pool_usage_ s) (lru_ s) (lru_low_pri_ s) (lru_bottom_pri_ s) (table_ s) (usage_ s) (lru_usage_ s) c.

(** ** Entries *)

Definition deref (p : nat) : M t LRUHandle := h ← gets heap; of_option (h !! p).
Definition store (p : nat) (e : LRUHandle) : M t unit :=
  modify (fun s => set_heap (<[p := e]> (heap s)) (next_id s) (deleted s) s).
Definition update (p : nat) (f : LRUHandle -> LRUHandle) : M t unit := e ← deref p; store p (f e).
(** [new char[...]], and [delete[]]. *)
Definition alloc (e : LRUHandle) : M t nat :=
  p ← gets next_id; modify (fun s => set_heap (<[p := e]> (heap s)) (Datatypes.S p) (deleted s) s) ;; mret p.
Definition dealloc (p : nat) : M t unit :=
  _ ← deref p; modify (fun s => set_heap (base.delete p (heap s)) (next_id s) (deleted s) s).
(** A call of the deleter. *)
Definition call_deleter (k : list Z) (v : option Z) : M t unit :=
  modify (fun s => set_heap (heap s) (next_id s) (deleted s ++ [(k, v)]) s).

Definition Free (p : nat) : M t unit :=
  e ← deref p;
  (if negb (IS_SECONDARY_CACHE_COMPATIBLE e) && has_deleter e then call_deleter (key e) (value e)
   else when (IS_SECONDARY_CACHE_COMPATIBLE e) (
     v ← (if IS_PENDING e then r ← of_option (sec_handle e); mret (Value r) else mret (value e));
     match v with Some _ => call_deleter (key e) v | None => mret tt end)) ;;
  dealloc p.

Definition CalcuMetaCharge (p : nat) (e : LRUHandle) : Z :=
  if kFullChargeCacheMetadata then usable_size p (Z.of_nat (length (key e))) else 0.
Definition CalcTotalCharge (charge : Z) (p : nat) (e : LRUHandle) : Z := u64 (charge + CalcuMetaCharge p e).
Definition GetCharge (p : nat) (e : LRUHandle) : Z := u64 (total_charge e - CalcuMetaCharge p e).

(** ** The hash table

    The table follows the pointers of its entries: all of them must be live. *)

Definition hk (h : gmap nat LRUHandle) (p : nat) : Z * list Z :=
  match h !! p with Some e => (hash e, key e) | None => (0, []) end.
Definition table {A} (f : (nat -> Z * list Z) -> LRUHandleTable.t -> A * LRUHandleTable.t) : M t A :=
  h ← gets heap; tb ← gets table_;
  if forallb (fun p => bool_decide (is_Some (h !! p))) (ids tb) then
    let '(r, tb) := f (hk h) tb in modify (set_table tb) ;; mret r
  else undefined.
Definition table_Lookup (k : Z * list Z) : M t (option nat) := table (fun hk tb => (LRUHandleTable.Lookup hk k tb, tb)).
Definition table_Remove (k : Z * list Z) : M t (option nat) := table (fun hk => LRUHandleTable.Remove hk k).
Definition table_Insert (p : nat) : M t (option nat) := table (fun hk => LRUHandleTable.Insert hk p).

(** ** The LRU list *)

(** The entries before and after [p]. *)
Fixpoint split_at (p : nat) (l : list nat) : option (list nat * list nat) :=
  match l with
  | [] => None
  | q :: l =>
      if decide (q = p) then Some ([], l)
      else match split_at p l with Some (b, a) => Some (q :: b, a) | None => None end
  end.

(** [p->next]; the inner option is the dummy head. *)
Definition next (p : option nat) (l : list nat) : option (option nat) :=
  match p with
  | None => Some (head l)
  | Some p => match split_at p l with Some (_, a) => Some (head a) | None => None end
  end.
(** Linking [e] between [p] and [p->next]. *)
Definition link (p : option nat) (e : nat) (l : list nat) : option (list nat) :=
  match p with
  | None => Some (e :: l)
  | Some p => match split_at p l with Some (b, a) => Some (b ++ p :: e :: a) | None => None end
  end.

Definition LRU_Remove (p : nat) : M t unit :=
  e ← deref p;
  l ← gets lru_;
  ba ← of_option (split_at p l);
  let '(before, after) := ba in
  let prev := last before in
  modify (fun s => set_lru (before ++ after)
                     (if decide (lru_low_pri_ s = Some p) then prev else lru_low_pri_ s)
                     (if decide (lru_bottom_pri_ s = Some p) then prev else lru_bottom_pri_ s) s) ;;
  modify (fun s => set_usage (usage_ s) (u64 (lru_usage_ s - total_charge e)) s) ;;
  if IN_HIGH_PRI_POOL e then
    modify (fun s => set_pool_usage (u64 (high_pri_pool_usage_ s - total_charge e)) (low_pri_pool_usage_ s) s)
  else if IN_LOW_PRI_POOL e then
    modify (fun s => set_pool_usage (high_pri_pool_usage_ s) (u64 (low_pri_pool_usage_ s - total_charge e)) s)
  else mret tt.

(** The two loops of [MaintainPoolSize]. *)
Fixpoint overflow_high (fuel : nat) : M t unit :=
  match fuel with
  | O => undefined
  | Datatypes.S fuel =>
      over ← gets (fun s => f64_gtb (f64_of_Z (high_pri_pool_usage_ s)) (high_pri_pool_capacity_ s));
      when over (
        n ← gets (fun s => next (lru_low_pri_ s) (lru_ s));
        n ← of_option n;
        modify (fun s => set_lru (lru_ s) n (lru_bottom_pri_ s) s) ;;
        p ← of_option n;
        update p (Handle.SetInPools false true) ;;
        e ← deref p;
        modify (fun s => set_pool_usage (u64 (high_pri_pool_usage_ s - total_charge e))
                                        (u64 (low_pri_pool_usage_ s + total_charge e)) s) ;;
        overflow_high fuel)
  end.
Fixpoint overflow_low (fuel : nat) : M t unit :=
  match fuel with
  | O => undefined
  | Datatypes.S fuel =>
      over ← gets (fun s => f64_gtb (f64_of_Z (low_pri_pool_usage_ s)) (low_pri_pool_capacity_ s));
      when over (
        n ← gets (fun s => next (lru_bottom_pri_ s) (lru_ s));
        n ← of_option n;
        modify (fun s => set_lru (lru_ s) (lru_low_pri_ s) n s) ;;
        p ← of_option n;
        update p (Handle.SetInPools false false) ;;
        e ← deref p;
        modify (fun s => set_pool_usage (high_pri_pool_usage_ s)
                                        (u64 (low_pri_pool_usage_ s - total_charge e)) s) ;;
        overflow_low fuel)
  end.

Definition MaintainPoolSize : M t unit :=
  n ← gets (fun s => Datatypes.S (length (lru_ s)));
  overflow_high n ;; overflow_low n.

(** The three branches of [LRU_Insert], to the head of each pool. *)
Definition link_high (p : nat) (e : LRUHandle) : M t unit :=
  modify (fun s => set_lru (lru_ s ++ [p]) (lru_low_pri_ s) (lru_bottom_pri_ s) s) ;;
  update p (Handle.SetInPools true false) ;;
  modify (fun s => set_pool_usage (u64 (high_pri_pool_usage_ s + total_charge e)) (low_pri_pool_usage_ s) s) ;;
  MaintainPoolSize.
Definition link_low (p : nat) (e : LRUHandle) : M t unit :=
  l ← gets (fun s => link (lru_low_pri_ s) p (lru_ s));
  l ← of_option l;
  modify (fun s => set_lru l (lru_low_pri_ s) (lru_bottom_pri_ s) s) ;;
  update p (Handle.SetInPools false true) ;;
  modify (fun s => set_pool_usage (high_pri_pool_usage_ s) (u64 (low_pri_pool_usage_ s + total_charge e)) s) ;;
  MaintainPoolSize ;;
  modify (fun s => set_lru (lru_ s) (Some p) (lru_bottom_pri_ s) s).
Definition link_bottom (p : nat) : M t unit :=
  l ← gets (fun s => link (lru_bottom_pri_ s) p (lru_ s));
  l ← of_option l;
  update p (Handle.SetInPools false false) ;;
  modify (fun s => set_lru l (if decide (lru_bottom_pri_ s = lru_low_pri_ s) then Some p else lru_low_pri_ s) (Some p) s).

Definition LRU_Insert (p : nat) : M t unit :=
  e ← deref p;
  hr ← gets high_pri_pool_ratio_;
  lr ← gets low_pri_pool_ratio_;
  (if f64_gtb hr f64_0 && (IS_HIGH_PRI e || HAS_HIT e) then link_high p e
   else if f64_gtb lr f64_0 && (IS_HIGH_PRI e || IS_LOW_PRI e || HAS_HIT e) then link_low p e
   else link_bottom p) ;;
  modify (fun s => set_usage (usage_ s) (u64 (lru_usage_ s + total_charge e)) s).

(** The oldest entry leaves the list, the table and the usage: the body of the
    loops of [EvictFromLRU] and [EraseUnRefEntries]. *)
Definition evict (old : nat) : M t unit :=
  LRU_Remove old ;;
  e ← deref old;
  _ ← table_Remove (hash e, key e);
  update old (Handle.SetInCache false) ;;
  modify (fun s => set_usage (u64 (usage_ s - total_charge e)) (lru_usage_ s) s).

Fixpoint EvictFromLRU_loop (fuel : nat) (charge : Z) (acc : list nat) : M t (list nat) :=
  match fuel with
  | O => undefined
  | Datatypes.S fuel =>
      over ← gets (fun s => capacity_ s <? u64 (usage_ s + charge));
      l ← gets lru_;
      match over, l with
      | true, old :: _ => evict old ;; EvictFromLRU_loop fuel charge (acc ++ [old])
      | _, _ => mret acc
      end
  end.
Definition EvictFromLRU (charge : Z) : M t (list nat) :=
  n ← gets (fun s => Datatypes.S (length (lru_ s))); EvictFromLRU_loop n charge [].

Fixpoint EraseUnRefEntries_loop (fuel : nat) (acc : list nat) : M t (list nat) :=
  match fuel with
  | O => undefined
  | Datatypes.S fuel =>
      l ← gets lru_;
      match l with
      | old :: _ => evict old ;; EraseUnRefEntries_loop fuel (acc ++ [old])
      | [] => mret acc
      end
  end.
Definition EraseUnRefEntries : M t unit :=
  n ← gets (fun s => Datatypes.S (length (lru_ s)));
  last_reference_list ← EraseUnRefEntries_loop n [];
  for_each Free last_reference_list.

Definition TryInsertIntoSecondaryCache (evicted_handles : list nat) : M t unit :=
  for_each (fun p =>
    e ← deref p;
    c ← gets secondary_cache_;
    match c with
    | Some c => when (IS_SECONDARY_CACHE_COMPATIBLE e && negb (IS_IN_SECONDARY_CACHE e))
                  (modify (set_secondary (Some (sec_Insert (key e) (value e) c))))
    | None => mret tt
    end ;;
    Free p) evicted_handles.

Definition SetCapacity (capacity : Z) : M t unit :=
  modify (fun s => set_limits capacity (strict_capacity_limit_ s)
    (high_pri_pool_ratio_ s) (f64_mul (f64_of_Z capacity) (high_pri_pool_ratio_ s))
    (low_pri_pool_ratio_ s) (f64_mul (f64_of_Z capacity) (low_pri_pool_ratio_ s)) s) ;;
  last_reference_list ← EvictFromLRU 0;
  TryInsertIntoSecondaryCache last_reference_list.

Definition SetStrictCapacityLimit (strict : bool) : M t unit :=
  modify (fun s => set_limits (capacity_ s) strict (high_pri_pool_ratio_ s) (high_pri_pool_capacity_ s)
                              (low_pri_pool_ratio_ s) (low_pri_pool_capacity_ s) s).

Definition SetHighPriorityPoolRatio (ratio : spec_float) : M t unit :=
  modify (fun s => set_limits (capacity_ s) (strict_capacity_limit_ s) ratio (f64_mul (f64_of_Z (capacity_ s)) ratio)
                              (low_pri_pool_ratio_ s) (low_pri_pool_capacity_ s) s) ;;
  MaintainPoolSize.
Definition SetLowPriorityPoolRatio (ratio : spec_float) : M t unit :=
  modify (fun s => set_limits (capacity_ s) (strict_capacity_limit_ s) (high_pri_pool_ratio_ s) (high_pri_pool_capacity_ s)
                              ratio (f64_mul (f64_of_Z (capacity_ s)) ratio) s) ;;
  MaintainPoolSize.

(** ** Insertion *)

(** The two branches of [InsertItem], under the lock: the status, [*handle] and the entries to be
    freed. [handle] is whether the caller passed one. *)
Definition reject_item (p : nat) (handle free_handle_on_fail : bool) (last_reference_list : list nat)
    : M t (Status * option nat * list nat) :=
  update p (Handle.SetInCache false) ;;
  if negb handle then mret (St.OK, None, last_reference_list ++ [p])
  else if free_handle_on_fail then dealloc p ;; mret (mkStatus kAborted kMemoryLimit, None, last_reference_list)
  else mret (mkStatus kAborted kMemoryLimit, Some p, last_reference_list).

(** The entry joins the table and the usage; the entry with the same key leaves them. *)
Definition enter_table (p : nat) (e : LRUHandle) (last_reference_list : list nat) : M t (Status * list nat) :=
  old ← table_Insert p;
  modify (fun s => set_usage (u64 (usage_ s + total_charge e)) (lru_usage_ s) s) ;;
  match old with
  | Some old =>
      update old (Handle.SetInCache false) ;;
      o ← deref old;
      if negb (Handle.HasRefs o) then
        LRU_Remove old ;;
        modify (fun s => set_usage (u64 (usage_ s - total_charge o)) (lru_usage_ s) s) ;;
        mret (mkStatus kOk kOverwritten, last_reference_list ++ [old])
      else mret (mkStatus kOk kOverwritten, last_reference_list)
  | None => mret (St.OK, last_reference_list)
  end.

Definition accept_item (p : nat) (e : LRUHandle) (handle : bool) (last_reference_list : list nat)
    : M t (Status * option nat * list nat) :=
  sl ← enter_table p e last_reference_list;
  if negb handle then LRU_Insert p ;; mret (sl.1, None, sl.2)
  else
    e ← deref p;
    when (negb (Handle.HasRefs e)) (update p Handle.Ref) ;;
    mret (sl.1, Some p, sl.2).

Definition InsertItem (p : nat) (handle free_handle_on_fail : bool) : M t (Status * option nat) :=
  e ← deref p;
  last_reference_list ← EvictFromLRU (total_charge e);
  full ← gets (fun s => (capacity_ s <? u64 (usage_ s + total_charge e)) && (strict_capacity_limit_ s || negb handle));
  res ← (if (full : bool) then reject_item p handle free_handle_on_fail last_reference_list
         else accept_item p e handle last_reference_list);
  let '(st, h, last_reference_list) := res in
  TryInsertIntoSecondaryCache last_reference_list ;;
  mret (st, h).

Definition new_handle (v : option Z) (compat has_deleter : bool) (sec : option SecResult) (k : list Z) (hash : Z)
    (in_cache : bool) (priority : Priority) : LRUHandle :=
  mkHandle v has_deleter sec 0 k hash 0 in_cache (bool_decide (priority = HIGH)) false false compat false false
    (bool_decide (priority = LOW)) false false.

Definition Insert (k : list Z) (hash : Z) (v : option Z) (charge : Z) (deleter helper handle : bool)
    (priority : Priority) : M t (Status * option nat) :=
  let e := new_handle v helper deleter None k hash true priority in
  p ← alloc e;
  store p (Handle.with_value v (CalcTotalCharge charge p e) e) ;;
  InsertItem p handle true.

(** ** References *)

Definition Ref (p : nat) : M t bool := update p Handle.Ref ;; mret true.

(** The last reference to an entry that is still in the cache goes: whether the entry goes too. *)
Definition release_cached (p : nat) (e : LRUHandle) (erase_if_last_ref : bool) : M t bool :=
  over ← gets (fun s => capacity_ s <? usage_ s);
  if over || erase_if_last_ref then
    _ ← table_Remove (hash e, key e); update p (Handle.SetInCache false) ;; mret true
  else LRU_Insert p ;; mret false.

(** The end of [Release]: an entry that failed to be looked up was not charged. *)
Definition release_end (p : nat) (e : LRUHandle) (last_reference : bool) : M t bool :=
  when (last_reference && (negb (IS_SECONDARY_CACHE_COMPATIBLE e) || bool_decide (is_Some (value e))))
    (modify (fun s => set_usage (u64 (usage_ s - total_charge e)) (lru_usage_ s) s)) ;;
  when last_reference (Free p) ;;
  mret last_reference.

Definition Release (handle : option nat) (erase_if_last_ref : bool) : M t bool :=
  match handle with
  | None => mret false
  | Some p =>
      e ← deref p;
      let '(last_reference, e) := Handle.Unref e in
      store p e ;;
      last_reference ← (
        if last_reference && IN_CACHE e then release_cached p e erase_if_last_ref else mret last_reference);
      release_end p e last_reference
  end.

Definition Erase (k : list Z) (hash : Z) : M t unit :=
  r ← table_Remove (hash, k);
  match r with
  | Some p =>
      update p (Handle.SetInCache false) ;;
      e ← deref p;
      when (negb (Handle.HasRefs e)) (
        LRU_Remove p ;;
        modify (fun s => set_usage (u64 (usage_ s - total_charge e)) (lru_usage_ s) s) ;;
        Free p)
  | None => mret tt
  end.

(** ** Lookup and the secondary cache *)

Definition force_erase (c : option S) : bool := match c with Some c => sec_SupportForceErase c | None => false end.

(** A failed standalone charge frees [e], sets it to null and then reads
    [e->IsHighPri()]. *)
Definition Promote (p : nat) : M t unit :=
  e ← deref p;
  r ← of_option (sec_handle e);
  let e := Handle.SetInCache false (Handle.SetIncomplete false e) in
  let e := Handle.with_value (Value r) (CalcTotalCharge (Size r) p e) e in
  store p e ;;
  match Value r with
  | Some _ =>
      c ← gets secondary_cache_;
      if force_erase c && IS_STANDALONE e then
        last_reference_list ← EvictFromLRU (total_charge e);
        free_standalone_handle ← gets (fun s =>
          (capacity_ s <? u64 (usage_ s + total_charge e)) && strict_capacity_limit_ s);
        when (negb free_standalone_handle)
          (modify (fun s => set_usage (u64 (usage_ s + total_charge e)) (lru_usage_ s) s)) ;;
        TryInsertIntoSecondaryCache last_reference_list ;;
        if (free_standalone_handle : bool) then update p (fun e => (Handle.Unref e).2) ;; Free p ;; undefined
        else
          e ← deref p;
          _ ← Insert (key e) (hash e) None 0 false false false (if IS_HIGH_PRI e then HIGH else LOW);
          mret tt
      else
        store p (Handle.SetIsStandalone false (Handle.SetInCache true e)) ;;
        _ ← InsertItem p true false;
        mret tt
  | None =>
      let e := Handle.with_value None (CalcTotalCharge 0 p e) e in
      store p (Handle.SetIsStandalone false (Handle.SetInCache false e))
  end.

(** [helper]: null, or whether [saveto_cb] is set. *)
Definition Lookup (k : list Z) (hash : Z) (helper : option bool) (priority : Priority) (wait : bool) : M t (option nat) :=
  r ← table_Lookup (hash, k);
  found_dummy_entry ← match r with
    | Some p =>
        e ← deref p;
        when (negb (Handle.HasRefs e)) (LRU_Remove p) ;;
        update p (fun e => Handle.SetHit (Handle.Ref e)) ;;
        c ← gets secondary_cache_;
        mret (negb (bool_decide (is_Some (value e))) && force_erase c)
    | None => mret false
    end;
  c ← gets secondary_cache_;
  match c with
  | Some _ =>
      if (negb (bool_decide (is_Some r)) || found_dummy_entry) && bool_decide (helper = Some true) then
        (if bool_decide (is_Some r) then _ ← Release r true; mret tt else mret tt) ;;
        c ← gets secondary_cache_;
        c ← of_option c;
        let '(h, c) := sec_Lookup k wait found_dummy_entry c in
        modify (set_secondary (Some c)) ;;
        match h with
        | Some (res, is_in_sec_cache) =>
            let e := Handle.Ref (new_handle None true false (Some res) k hash false priority) in
            let e := Handle.SetIsInSecondaryCache is_in_sec_cache e in
            p ← alloc (if sec_SupportForceErase c && negb found_dummy_entry then Handle.SetIsStandalone true e else e);
            if wait then
              Promote p ;;
              e ← deref p;
              match value e with
              | None => update p (fun e => (Handle.Unref e).2) ;; Free p ;; mret None
              | Some _ => mret (Some p)
              end
            else update p (Handle.SetIncomplete true) ;; mret (Some p)
        | None => mret None
        end
      else mret r
  | None => mret r
  end.

Definition IsReady (p : nat) : M t bool :=
  e ← deref p;
  if IS_PENDING e then
    c ← gets secondary_cache_; c ← of_option c; r ← of_option (sec_handle e); mret (sec_IsReady r c)
  else mret true.

(** ** Observers *)

Definition GetUsage (s : t) : Z := usage_ s.
Definition GetPinnedUsage (s : t) : Z := u64 (usage_ s - lru_usage_ s).
Definition GetOccupancyCount (s : t) : Z := LRUHandleTable.elems_ (table_ s).
Definition GetTableAddressCount (s : t) : Z := 2 ^ LRUHandleTable.length_bits_ (table_ s).
Definition TEST_GetLRUSize (s : t) : nat := length (lru_ s).

(** What the callback is called with, and the new [*state]. *)
Definition ApplyToSomeEntries (average_entries_per_lock state : Z) : M t (list (list Z * option Z * Z) * Z) :=
  length_bits ← gets (fun s => LRUHandleTable.length_bits_ (table_ s));
  let length := u32 (Z.shiftl 1 length_bits) in
  let index_begin := Z.shiftr state (32 - length_bits) in
  let index_end := u32 (index_begin + average_entries_per_lock) in
  let '(index_end, state) :=
    if length <=? index_end then (length, 2 ^ 32 - 1) else (index_end, u32 (Z.shiftl index_end (32 - length_bits))) in
  tb ← gets table_;
  h ← gets heap;
  es ← of_option (mapM (fun p => e ← h !! p; Some (key e, value e, GetCharge p e))
                       (LRUHandleTable.EntriesRange index_begin index_end tb));
  mret (es, state).

Definition new (capacity : Z) (strict : bool) (high_ratio low_ratio : spec_float) (max_upper_hash_bits : Z)
    (c : option S) : option t :=
  match SetCapacity capacity
          (mk ∅ 0 [] 0 strict high_ratio f64_0 low_ratio f64_0 0 0 [] None None
              (LRUHandleTable.new max_upper_hash_bits) 0 0 c) with
  | Some (_, s) => Some s
  | None => None
  end.
End shard.
Arguments t : clear implicits.
End LRUCacheShard.
