(* ===== verification/LruPools.v ===== *)
(** * The LRU list and its priority pools

    The list is the bottom-priority pool, then the low-priority pool, then the
    high-priority pool. [LRU_Remove], [MaintainPoolSize] and [LRU_Insert] keep that
    decomposition, the pool usages and the flags of the entries; they change
    nothing else ([core]). *)

From stdpp Require Import prelude gmap.
From Stdlib Require Import ZArith Lia Bool SpecFloat.
From S2P Require Import Prelude Float64 Status StateMonad LruTable LruCache.
Import LRUCacheShard.

Definition noflags (e : LRUHandle) : LRUHandle := Handle.SetInPools false false e.

(** Total charge. *)
Definition charge_of (h : gmap nat LRUHandle) (p : nat) : Z :=
  match h !! p with Some e => total_charge e | None => 0 end.
Definition sumc (h : gmap nat LRUHandle) (l : list nat) : Z := foldr (fun p n => charge_of h p + n) 0 l.

Lemma sumc_app h l1 l2 : sumc h (l1 ++ l2) = sumc h l1 + sumc h l2.
Proof. induction l1 as [|p l1 IH]; simpl; lia. Qed.
Lemma sum_ext (f g : nat -> Z) l : (forall p, p ∈ l -> f p = g p) ->
  foldr (fun p n => f p + n) 0 l = foldr (fun p n => g p + n) 0 l.
Proof.
  induction l as [|p l IH]; intros E; [done|]. simpl. rewrite (E p) by (by left). rewrite IH; [done|].
  intros q Hq. apply E. by right.
Qed.
Lemma sumc_ext h h' l : (forall p, p ∈ l -> charge_of h p = charge_of h' p) -> sumc h l = sumc h' l.
Proof. apply sum_ext. Qed.
#[global] Instance sumc_proper h : Proper (Permutation ==> eq) (sumc h).
Proof. intros l l' HP. induction HP; simpl; lia. Qed.

Definition nonneg (h : gmap nat LRUHandle) : Prop := forall p e, h !! p = Some e -> 0 <= total_charge e.
Lemma charge_of_nonneg h p : nonneg h -> 0 <= charge_of h p.
Proof. intros HN. unfold charge_of. destruct (h !! p) as [e|] eqn:E; [by apply HN in E|lia]. Qed.
Lemma sumc_nonneg h l : nonneg h -> 0 <= sumc h l.
Proof. intros HN. induction l as [|p l IH]; [done|]. simpl. pose proof (charge_of_nonneg h p HN). lia. Qed.

(** ** Lists as linked lists *)

Lemma split_at_app p b a : p ∉ b -> split_at p (b ++ p :: a) = Some (b, a).
Proof.
  induction b as [|q b IH]; intros Hp; simpl.
  - by rewrite decide_True.
  - rewrite not_elem_of_cons in Hp. rewrite decide_False by (intros ->; by destruct Hp). by rewrite IH by apply Hp.
Qed.
Lemma next_last l1 l2 : NoDup (l1 ++ l2) -> next (last l1) (l1 ++ l2) = Some (head l2).
Proof.
  destruct l1 as [|x l1 _] using rev_ind; [done|]. intros HN. rewrite last_snoc, <- app_assoc in *. simpl.
  rewrite split_at_app; [done|]. apply NoDup_app in HN as (_ & HN & _). intros Hx. apply (HN x); set_solver.
Qed.
Lemma link_last l1 l2 e : NoDup (l1 ++ l2) -> link (last l1) e (l1 ++ l2) = Some (l1 ++ e :: l2).
Proof.
  destruct l1 as [|x l1 _] using rev_ind; [done|]. intros HN. rewrite last_snoc, <- app_assoc in *. simpl.
  rewrite split_at_app; [by rewrite <- app_assoc|]. apply NoDup_app in HN as (_ & HN & _). intros Hx. apply (HN x); set_solver.
Qed.

Section pools.
Context {S : Type} `{SecondaryCache S} `{Config}.
Implicit Types s : t S.

(** What the list operations leave alone. *)
Definition core s :=
  (noflags <$> heap s, next_id s, deleted s, capacity_ s, strict_capacity_limit_ s,
   (high_pri_pool_ratio_ s, high_pri_pool_capacity_ s, low_pri_pool_ratio_ s, low_pri_pool_capacity_ s),
   table_ s, usage_ s, secondary_cache_ s).

Lemma core_heap s s' p e : core s' = core s -> heap s !! p = Some e ->
  exists e', heap s' !! p = Some e' /\ noflags e' = noflags e.
Proof.
  intros HC He. assert (Hh : noflags <$> heap s' = noflags <$> heap s) by exact (f_equal (fun x => x.1.1.1.1.1.1.1.1) HC).
  assert (Hp : (noflags <$> heap s') !! p = Some (noflags e)) by (by rewrite Hh, lookup_fmap, He).
  rewrite lookup_fmap in Hp. destruct (heap s' !! p) as [e'|]; [|done]. exists e'. split; [done|]. exact (inj Some _ _ Hp).
Qed.
Lemma noflags_charge e e' : noflags e = noflags e' -> total_charge e = total_charge e'.
Proof. by intros E%(f_equal total_charge). Qed.
Lemma core_charge s s' p : core s' = core s -> charge_of (heap s') p = charge_of (heap s) p.
Proof.
  intros HC. unfold charge_of. destruct (heap s !! p) as [e|] eqn:E.
  - destruct (core_heap s s' p e HC E) as (e' & -> & He). by apply noflags_charge.
  - destruct (heap s' !! p) as [e'|] eqn:E'; [|done]. symmetry in HC.
    destruct (core_heap s' s p e' HC E') as (? & ? & _). congruence.
Qed.
Lemma core_sumc s s' l : core s' = core s -> sumc (heap s') l = sumc (heap s) l.
Proof. intros HC. apply sumc_ext. intros p _. by apply core_charge. Qed.
Lemma core_nonneg s s' : core s' = core s -> nonneg (heap s) -> nonneg (heap s').
Proof.
  intros HC HN p e' He'. symmetry in HC. destruct (core_heap s' s p e' HC He') as (e & He & E).
  rewrite <- (noflags_charge _ _ E). by apply (HN p).
Qed.

(** The entries of [l] carry these pool flags. *)
Definition flags (h : gmap nat LRUHandle) (hi lo : bool) (l : list nat) : Prop :=
  Forall (fun p => exists e, h !! p = Some e /\ IN_HIGH_PRI_POOL e = hi /\ IN_LOW_PRI_POOL e = lo) l.

Lemma flags_insert h hi lo p e l : p ∉ l -> flags h hi lo l -> flags (<[p := e]> h) hi lo l.
Proof.
  intros Hp HF. apply Forall_forall. intros q Hq. rewrite lookup_insert_ne by (intros ->; done).
  by apply (proj1 (Forall_forall _ _) HF).
Qed.
Lemma flags_one h hi lo p e : flags (<[p := Handle.SetInPools hi lo e]> h) hi lo [p].
Proof. constructor; [|constructor]. rewrite lookup_insert_eq. by exists (Handle.SetInPools hi lo e). Qed.

(** The pools, without the pointer to the head of the low-priority one. *)
Record pools0 (bot low hi : list nat) s : Prop := {
  po_list : lru_ s = bot ++ low ++ hi;
  po_nodup : NoDup (lru_ s);
  po_bottom : lru_bottom_pri_ s = last bot;
  po_fbot : flags (heap s) false false bot;
  po_flow : flags (heap s) false true low;
  po_fhi : flags (heap s) true false hi;
  po_hi : high_pri_pool_usage_ s = sumc (heap s) hi;
  po_low : low_pri_pool_usage_ s = sumc (heap s) low;
  po_nonneg : nonneg (heap s);
  po_sum : sumc (heap s) (lru_ s) < 2 ^ 53;
  po_caps : f64_nonneg (high_pri_pool_capacity_ s) /\ f64_nonneg (low_pri_pool_capacity_ s) /\
            f64_nonneg (high_pri_pool_ratio_ s) /\ f64_nonneg (low_pri_pool_ratio_ s);
}.
Definition pools (bot low hi : list nat) s : Prop := pools0 bot low hi s /\ lru_low_pri_ s = last (bot ++ low).

Lemma pools0_sums bot low hi s : pools0 bot low hi s ->
  0 <= sumc (heap s) bot /\ 0 <= sumc (heap s) low /\ 0 <= sumc (heap s) hi /\
  sumc (heap s) bot + sumc (heap s) low + sumc (heap s) hi < 2 ^ 53.
Proof.
  intros HP. pose proof (po_sum _ _ _ _ HP) as Hs. rewrite (po_list _ _ _ _ HP), !sumc_app in Hs.
  split_and!; try (apply sumc_nonneg, HP). lia.
Qed.

(** Only pool flags changed in the heap. *)
Lemma fmap_noflags_insert (h : gmap nat LRUHandle) p e hi lo : h !! p = Some e ->
  noflags <$> (<[p := Handle.SetInPools hi lo e]> h) = noflags <$> h.
Proof.
  intros He. rewrite fmap_insert. change (noflags (Handle.SetInPools hi lo e)) with (noflags e).
  apply insert_id. by rewrite lookup_fmap, He.
Qed.

Lemma wp_deref p e Q s : heap s !! p = Some e -> Q e s -> wp (deref p) Q s.
Proof. intros He HQ. unfold deref. wp_steps. by apply wp_of_option with e. Qed.
Lemma wp_update p e f Q s : heap s !! p = Some e ->
  Q tt (set_heap (<[p := f e]> (heap s)) (next_id s) (deleted s) s) -> wp (update p f) Q s.
Proof. intros He HQ. unfold update, store. apply wp_bind. by eapply wp_deref. Qed.

(** [s'] differs from [s] in pool data only. *)
Definition lru_frame s s' : Prop := core s' = core s /\ lru_ s' = lru_ s /\ lru_usage_ s' = lru_usage_ s.

Lemma lru_frame_refl s : lru_frame s s.
Proof. done. Qed.
Lemma lru_frame_trans s1 s2 s3 : lru_frame s1 s2 -> lru_frame s2 s3 -> lru_frame s1 s3.
Proof. unfold lru_frame. intuition congruence. Qed.

Lemma charge_of_flags h p e hi lo q : h !! p = Some e -> charge_of (<[p := Handle.SetInPools hi lo e]> h) q = charge_of h q.
Proof.
  intros He. unfold charge_of. destruct (decide (q = p)) as [->|Hq]; [by rewrite lookup_insert_eq, He|].
  by rewrite lookup_insert_ne.
Qed.
Lemma sumc_flags h p e hi lo l : h !! p = Some e -> sumc (<[p := Handle.SetInPools hi lo e]> h) l = sumc h l.
Proof. intros He. apply sumc_ext. intros q _. by apply charge_of_flags. Qed.
Lemma nonneg_flags h p e hi lo : h !! p = Some e -> nonneg h -> nonneg (<[p := Handle.SetInPools hi lo e]> h).
Proof.
  intros He HN q e'. rewrite lookup_insert_Some. intros [[<- <-]|[_ Hq]]; [|by apply (HN q)]. exact (HN p e He).
Qed.
Lemma flags_head h hi lo p l : flags h hi lo (p :: l) ->
  exists e, h !! p = Some e /\ IN_HIGH_PRI_POOL e = hi /\ IN_LOW_PRI_POOL e = lo.
Proof. intros HF. by inversion HF. Qed.
Lemma flags_app h hi lo l1 l2 : flags h hi lo (l1 ++ l2) <-> flags h hi lo l1 /\ flags h hi lo l2.
Proof. apply Forall_app. Qed.

(** The loops move the oldest entry of a pool to the pool below. *)
Lemma pools_high_step bot low p hi e s : pools bot low (p :: hi) s -> heap s !! p = Some e ->
  pools bot (low ++ [p]) hi
    (set_pool_usage (u64 (high_pri_pool_usage_ s - total_charge e)) (u64 (low_pri_pool_usage_ s + total_charge e))
      (set_heap (<[p := Handle.SetInPools false true e]> (heap s)) (next_id s) (deleted s)
        (set_lru (lru_ s) (Some p) (lru_bottom_pri_ s) s))).
Proof.
  intros [HP HL] He. pose proof (pools0_sums _ _ _ _ HP) as Hs. destruct HP as [H1 H2 H3 H4 H5 H6 H7 H8 H9 H10 H11].
  assert (Hc : charge_of (heap s) p = total_charge e) by (unfold charge_of; by rewrite He).
  pose proof (sumc_nonneg _ hi H9). pose proof (H9 p e He). simpl in H7, Hs. rewrite Hc in H7, Hs.
  assert (HN : NoDup (bot ++ low ++ p :: hi)) by congruence.
  apply NoDup_app in HN as (HN1 & HN2 & (HN3 & HN4 & [HN5 HN6]%NoDup_cons)%NoDup_app).
  split; [|cbn; by rewrite app_assoc, last_snoc].
  split; cbn [lru_ heap lru_bottom_pri_ high_pri_pool_usage_ low_pri_pool_usage_ high_pri_pool_capacity_ low_pri_pool_capacity_
    high_pri_pool_ratio_ low_pri_pool_ratio_ set_pool_usage set_heap set_lru]; try done.
  - by rewrite H1, <- !app_assoc.
  - apply flags_insert; [|done]. intros Hp. apply (HN2 p Hp). set_solver.
  - apply flags_app. split; [|apply flags_one]. apply flags_insert; [|done]. intros Hp. apply (HN4 p Hp). set_solver.
  - inversion H6. by apply flags_insert.
  - rewrite sumc_flags, H7, u64_small by (done || lia). lia.
  - rewrite sumc_flags, sumc_app, H8, u64_small by (done || lia). simpl. lia.
  - by apply nonneg_flags.
  - by rewrite sumc_flags.
Qed.

Lemma pools_low_step bot p low hi e s : pools0 bot (p :: low) hi s -> heap s !! p = Some e ->
  pools0 (bot ++ [p]) low hi
    (set_pool_usage (high_pri_pool_usage_ s) (u64 (low_pri_pool_usage_ s - total_charge e))
      (set_heap (<[p := Handle.SetInPools false false e]> (heap s)) (next_id s) (deleted s)
        (set_lru (lru_ s) (lru_low_pri_ s) (Some p) s))).
Proof.
  intros HP He. pose proof (pools0_sums _ _ _ _ HP) as Hs. destruct HP as [H1 H2 H3 H4 H5 H6 H7 H8 H9 H10 H11].
  assert (Hc : charge_of (heap s) p = total_charge e) by (unfold charge_of; by rewrite He).
  pose proof (sumc_nonneg _ low H9). pose proof (H9 p e He). simpl in H8, Hs. rewrite Hc in H8, Hs.
  assert (HN : NoDup (bot ++ (p :: low) ++ hi)) by congruence.
  apply NoDup_app in HN as (HN1 & HN2 & ([HN3 HN4]%NoDup_cons & HN5 & HN6)%NoDup_app).
  split; cbn [lru_ heap lru_bottom_pri_ high_pri_pool_usage_ low_pri_pool_usage_ high_pri_pool_capacity_ low_pri_pool_capacity_
    high_pri_pool_ratio_ low_pri_pool_ratio_ set_pool_usage set_heap set_lru]; try done.
  - by rewrite H1, <- !app_assoc.
  - by rewrite last_snoc.
  - apply flags_app. split; [|apply flags_one]. apply flags_insert; [|done]. intros Hp. apply (HN2 p Hp). set_solver.
  - inversion H5. by apply flags_insert.
  - apply flags_insert; [|done]. intros Hp. apply (HN5 p); [set_solver|done].
  - by rewrite sumc_flags.
  - rewrite sumc_flags, H8, u64_small by (done || lia). lia.
  - by apply nonneg_flags.
  - by rewrite sumc_flags.
Qed.

Definition high_fits s : Prop := f64_gtb (f64_of_Z (high_pri_pool_usage_ s)) (high_pri_pool_capacity_ s) = false.
Definition low_fits s : Prop := f64_gtb (f64_of_Z (low_pri_pool_usage_ s)) (low_pri_pool_capacity_ s) = false.

Lemma overflow_high_ok fuel bot low hi s : pools bot low hi s -> (length hi < fuel)%nat ->
  wp (overflow_high fuel) (fun _ s' => lru_frame s s' /\ high_fits s' /\ exists low' hi', pools bot low' hi' s') s.
Proof.
  revert low hi s. induction fuel as [|fuel IH]; intros low hi s HP Hf; [lia|]. simpl. wp_steps. apply wp_when; intros Hover.
  2: { split; [apply lru_frame_refl|]. split; [done|]. by exists low, hi. }
  destruct HP as [HP HL]. destruct hi as [|p hi].
  { rewrite (po_hi _ _ _ _ HP) in Hover. change (f64_of_Z (sumc (heap s) [])) with f64_0 in Hover.
    rewrite f64_gtb_zero in Hover by apply (po_caps _ _ _ _ HP). done. }
  destruct (flags_head _ _ _ _ _ (po_fhi _ _ _ _ HP)) as (e & He & _).
  wp_steps. apply wp_of_option with (Some p).
  { rewrite HL, (po_list _ _ _ _ HP), app_assoc. rewrite next_last; [done|]. rewrite <- app_assoc, <- (po_list _ _ _ _ HP). apply HP. }
  wp_steps. apply wp_of_option with p; [done|]. wp_steps. apply (wp_update p e); [exact He|].
  wp_steps. apply (wp_deref p (Handle.SetInPools false true e)); [cbn [heap set_heap]; apply lookup_insert_eq|]. wp_steps.
  eapply wp_mono; [apply (IH (low ++ [p]) hi); [exact (pools_high_step _ _ _ _ e s (conj HP HL) He)|simpl in Hf; lia]|].
  cbv beta. intros _ s' (HF & Hfit & HE). split; [|done]. eapply lru_frame_trans; [|exact HF].
  split; [|done]. unfold core. cbn. by rewrite fmap_noflags_insert.
Qed.

Lemma overflow_low_ok fuel bot low hi s : pools0 bot low hi s -> (length low < fuel)%nat ->
  wp (overflow_low fuel) (fun _ s' => lru_frame s s' /\ low_fits s' /\ lru_low_pri_ s' = lru_low_pri_ s /\
    high_pri_pool_usage_ s' = high_pri_pool_usage_ s /\
    exists bot' low', bot ++ low = bot' ++ low' /\ pools0 bot' low' hi s') s.
Proof.
  revert bot low s. induction fuel as [|fuel IH]; intros bot low s HP Hf; [lia|]. simpl. wp_steps. apply wp_when; intros Hover.
  2: { split_and!; [done..|]. by exists bot, low. }
  destruct low as [|p low].
  { rewrite (po_low _ _ _ _ HP) in Hover. change (f64_of_Z (sumc (heap s) [])) with f64_0 in Hover.
    rewrite f64_gtb_zero in Hover by apply (po_caps _ _ _ _ HP). done. }
  destruct (flags_head _ _ _ _ _ (po_flow _ _ _ _ HP)) as (e & He & _).
  wp_steps. apply wp_of_option with (Some p).
  { rewrite (po_bottom _ _ _ _ HP), (po_list _ _ _ _ HP). rewrite next_last; [done|]. rewrite <- (po_list _ _ _ _ HP). apply HP. }
  wp_steps. apply wp_of_option with p; [done|]. wp_steps. apply (wp_update p e); [exact He|].
  wp_steps. apply (wp_deref p (Handle.SetInPools false false e)); [cbn [heap set_heap]; apply lookup_insert_eq|]. wp_steps.
  eapply wp_mono; [apply (IH (bot ++ [p]) low); [exact (pools_low_step _ _ _ _ e s HP He)|simpl in Hf; lia]|].
  cbv beta. intros _ s' (HF & Hfit & E1 & E2 & bot' & low' & E3 & HP'). split_and!; try done.
  - eapply lru_frame_trans; [|exact HF]. split; [|done]. unfold core. cbn. by rewrite fmap_noflags_insert.
  - exists bot', low'. split; [|done]. by rewrite <- E3, <- app_assoc.
Qed.

(** The pools, the usage of the list, and, when entries can be linked into the low-priority
    pool, a high-priority pool that fits. *)
Definition lru_ok s : Prop :=
  (exists bot low hi, pools bot low hi s) /\ lru_usage_ s = sumc (heap s) (lru_ s) /\
  (f64_gtb (low_pri_pool_ratio_ s) f64_0 = true -> high_fits s).

Lemma core_limits s s' : core s' = core s ->
  high_pri_pool_ratio_ s' = high_pri_pool_ratio_ s /\ high_pri_pool_capacity_ s' = high_pri_pool_capacity_ s /\
  low_pri_pool_ratio_ s' = low_pri_pool_ratio_ s /\ low_pri_pool_capacity_ s' = low_pri_pool_capacity_ s.
Proof. intros HC. apply (f_equal (fun x => x.1.1.1.2)) in HC. cbn in HC. by simplify_eq. Qed.

Lemma MaintainPoolSize_ok bot low hi s : pools bot low hi s ->
  wp MaintainPoolSize (fun _ s' => lru_frame s s' /\ high_fits s' /\ low_fits s' /\ exists bot low hi, pools bot low hi s') s.
Proof.
  intros HP. unfold MaintainPoolSize. wp_steps.
  assert (Hlen : forall bot low hi s', pools bot low hi s' -> lru_ s' = lru_ s ->
    (length hi < Datatypes.S (length (lru_ s)))%nat /\ (length low < Datatypes.S (length (lru_ s)))%nat).
  { intros b1 l1 h1 s' [H1 _] E. rewrite <- E, (po_list _ _ _ _ H1), !length_app. lia. }
  eapply wp_mono; [apply (overflow_high_ok _ _ _ _ _ HP), (Hlen _ _ _ _ HP eq_refl)|].
  intros [] s1 (F1 & Hfit & low1 & hi1 & HP1). wp_steps.
  eapply wp_mono; [apply (overflow_low_ok _ _ _ _ _ (proj1 HP1)), (Hlen _ _ _ _ HP1 (proj1 (proj2 F1)))|].
  intros [] s2 (F2 & Hlow & E1 & E2 & bot2 & low2 & E3 & HP2). split_and!.
  - by eapply lru_frame_trans.
  - unfold high_fits. destruct (core_limits _ _ (proj1 F2)) as (_ & -> & _). by rewrite E2.
  - done.
  - exists bot2, low2, hi1. split; [done|]. rewrite E1, (proj2 HP1). by rewrite E3.
Qed.

(** Without the pointer to the head of the low-priority pool, when the high-priority one fits. *)
Lemma MaintainPoolSize_fits bot low hi s : pools0 bot low hi s -> high_fits s ->
  wp MaintainPoolSize (fun _ s' => lru_frame s s' /\ high_fits s' /\
    exists bot' low', bot ++ low = bot' ++ low' /\ pools0 bot' low' hi s') s.
Proof.
  intros HP Hfit. unfold MaintainPoolSize. wp_steps. unfold overflow_high. wp_steps. apply wp_when; [unfold high_fits in Hfit; congruence|].
  intros _. eapply wp_mono; [apply (overflow_low_ok _ _ _ _ _ HP)|].
  { rewrite (po_list _ _ _ _ HP), !length_app. lia. }
  intros [] s' (HF & _ & _ & E & HE). split_and!; [done| |done].
  unfold high_fits. destruct (core_limits _ _ (proj1 HF)) as (_ & -> & _). by rewrite E.
Qed.

Lemma last_not_in (p : nat) l : p ∉ l -> last l <> Some p.
Proof. intros Hp E. apply Hp, last_Some_elem_of. done. Qed.
Lemma last_remove (p : nat) l1 l2 : p ∉ l2 ->
  (if decide (last (l1 ++ p :: l2) = Some p) then last l1 else last (l1 ++ p :: l2)) = last (l1 ++ l2).
Proof.
  intros Hp. destruct l2 as [|x l2 _] using rev_ind.
  - rewrite last_snoc, decide_True, app_nil_r by done. done.
  - rewrite app_comm_cons, !app_assoc, !last_snoc, decide_False; [done|]. intros [= ->]. set_solver.
Qed.

(** The state after [LRU_Remove]: one pool is shorter. *)
Lemma pools0_remove bot low hi bot' low' hi' p s l lp bp lu uh ul : pools0 bot low hi s ->
  bot ++ low ++ hi ≡ₚ p :: bot' ++ low' ++ hi' -> l = bot' ++ low' ++ hi' ->
  bot' ⊆ bot -> low' ⊆ low -> hi' ⊆ hi -> bp = last bot' ->
  uh = sumc (heap s) hi' -> ul = sumc (heap s) low' ->
  pools0 bot' low' hi' (set_pool_usage uh ul (set_usage (usage_ s) lu (set_lru l lp bp s))).
Proof.
  intros [H1 H2 H3 H4 H5 H6 H7 H8 H9 H10 H11] HPerm -> Hb Hl Hh -> -> ->.
  assert (HF : forall hi lo l l', l' ⊆ l -> flags (heap s) hi lo l -> flags (heap s) hi lo l').
  { intros ? ? l l' Hs Hfl. apply Forall_forall. intros q Hq. by apply (proj1 (Forall_forall _ _) Hfl), Hs. }
  split; cbn; try done; try (by eapply HF).
  - rewrite H1, HPerm in H2. by apply NoDup_cons in H2 as [_ H2].
  - rewrite H1, HPerm in H10. simpl in H10. pose proof (charge_of_nonneg _ p H9).
    fold (sumc (heap s) (bot' ++ low' ++ hi')) in *. lia.
Qed.

Lemma lru_ok_remove bot low hi bot' low' hi' l1 l2 p e uh ul s : pools bot low hi s -> lru_ok s ->
  heap s !! p = Some e -> lru_ s = l1 ++ p :: l2 -> l1 ++ l2 = bot' ++ low' ++ hi' ->
  bot' ⊆ bot -> low' ⊆ low -> hi' ⊆ hi ->
  (if decide (lru_bottom_pri_ s = Some p) then last l1 else lru_bottom_pri_ s) = last bot' ->
  (if decide (lru_low_pri_ s = Some p) then last l1 else lru_low_pri_ s) = last (bot' ++ low') ->
  uh = sumc (heap s) hi' -> ul = sumc (heap s) low' -> sumc (heap s) hi' <= sumc (heap s) hi ->
  lru_ok (set_pool_usage uh ul (set_usage (usage_ s) (u64 (lru_usage_ s - total_charge e))
    (set_lru (l1 ++ l2) (if decide (lru_low_pri_ s = Some p) then last l1 else lru_low_pri_ s)
      (if decide (lru_bottom_pri_ s = Some p) then last l1 else lru_bottom_pri_ s) s))).
Proof.
  intros [HP _] (_ & HU & HH) He E1 E2 Hb Hl Hh Ebp Elp Eh El Hle. pose proof (pools0_sums _ _ _ _ HP) as Hs.
  assert (Hc : charge_of (heap s) p = total_charge e) by (unfold charge_of; by rewrite He).
  pose proof (po_nonneg _ _ _ _ HP) as H9. pose proof (H9 p e He). pose proof (po_sum _ _ _ _ HP) as H10.
  rewrite E1 in HU, H10. split_and!.
  - exists bot', low', hi'. split; [|exact Elp]. apply (pools0_remove bot low hi _ _ _ p); try done.
    rewrite <- (po_list _ _ _ _ HP), E1, <- E2. by rewrite Permutation_middle.
  - cbn [lru_usage_ set_pool_usage set_usage heap set_lru lru_]. rewrite HU, u64_small; rewrite !sumc_app; simpl; [lia|].
    pose proof (sumc_nonneg _ l1 H9). pose proof (sumc_nonneg _ l2 H9). rewrite sumc_app in H10. simpl in H10. lia.
  - intros Hr. specialize (HH Hr). unfold high_fits in *.
    cbn [high_pri_pool_usage_ high_pri_pool_capacity_ set_pool_usage set_usage set_lru].
    rewrite Eh. rewrite (po_hi _ _ _ _ HP) in HH. eapply f64_gtb_mono; [|..|exact HH]; [split; [by apply sumc_nonneg|done]|lia].
Qed.

(** The pool of an entry of the list. *)
Lemma lru_pool bot low hi p s : pools0 bot low hi s -> p ∈ lru_ s ->
  exists e, heap s !! p = Some e /\
    (p ∈ bot /\ IN_HIGH_PRI_POOL e = false /\ IN_LOW_PRI_POOL e = false \/
     p ∈ low /\ IN_HIGH_PRI_POOL e = false /\ IN_LOW_PRI_POOL e = true \/
     p ∈ hi /\ IN_HIGH_PRI_POOL e = true /\ IN_LOW_PRI_POOL e = false).
Proof.
  intros [H1 _ _ H4 H5 H6 _ _ _ _ _] Hp. rewrite H1, !elem_of_app in Hp. destruct Hp as [Hp|[Hp|Hp]];
    [destruct (proj1 (Forall_forall _ _) H4 p Hp) as (e & He & ? & ?)
    |destruct (proj1 (Forall_forall _ _) H5 p Hp) as (e & He & ? & ?)
    |destruct (proj1 (Forall_forall _ _) H6 p Hp) as (e & He & ? & ?)]; exists e; tauto.
Qed.

Lemma LRU_Remove_ok p s : lru_ok s -> p ∈ lru_ s ->
  wp (LRU_Remove p) (fun _ s' => lru_ok s' /\ core s' = core s /\ heap s' = heap s /\
    exists l1 l2, lru_ s = l1 ++ p :: l2 /\ lru_ s' = l1 ++ l2) s.
Proof.
  intros HOK Hp. pose proof HOK as ((bot & low & hi & HP) & _ & _). pose proof (proj1 HP) as HP0. pose proof (proj2 HP) as HL.
  pose proof (pools0_sums _ _ _ _ HP0) as Hs. destruct (lru_pool _ _ _ _ _ HP0 Hp) as (e & He & Hwhere).
  pose proof (po_list _ _ _ _ HP0) as H1. pose proof (po_nodup _ _ _ _ HP0) as H2.
  assert (Hc : charge_of (heap s) p = total_charge e) by (unfold charge_of; by rewrite He).
  pose proof (po_nonneg _ _ _ _ HP0 p e He) as Hc0. pose proof (fun l => sumc_nonneg _ l (po_nonneg _ _ _ _ HP0)) as Hsn.
  pose proof (po_hi _ _ _ _ HP0) as Hhi. pose proof (po_low _ _ _ _ HP0) as Hlo. pose proof (po_bottom _ _ _ _ HP0) as Hbo.
  unfold LRU_Remove. wp_steps. eapply wp_deref; [exact He|]. wp_steps.
  destruct Hwhere as [(Hin & Eh & El)|[(Hin & Eh & El)|(Hin & Eh & El)]];
    apply list_elem_of_split in Hin as (l1 & l2 & ->).
  - assert (E : lru_ s = l1 ++ p :: l2 ++ low ++ hi) by (rewrite H1, <- app_assoc; done). rewrite E in H2.
    apply NoDup_app in H2 as (_ & HN1 & [HN2 _]%NoDup_cons).
    apply wp_of_option with (l1, l2 ++ low ++ hi); [rewrite E; apply split_at_app; set_solver|]. wp_steps. rewrite Eh, El.
    split; [|split_and!; [done|done|by exists l1, (l2 ++ low ++ hi)]].
    refine (lru_ok_remove _ _ _ (l1 ++ l2) low hi l1 _ p e (high_pri_pool_usage_ s) (low_pri_pool_usage_ s) s
      HP HOK He E _ _ _ _ _ _ _ _ _); try done; try set_solver.
    + by rewrite <- app_assoc.
    + rewrite Hbo. apply last_remove. set_solver.
    + rewrite HL, <- !app_assoc. simpl. apply last_remove. set_solver.
  - assert (E : lru_ s = (bot ++ l1) ++ p :: l2 ++ hi) by (rewrite H1, <- !app_assoc; done). rewrite E in H2.
    apply NoDup_app in H2 as (_ & HN1 & [HN2 _]%NoDup_cons). rewrite sumc_app in Hs, Hlo. simpl in Hs, Hlo.
    pose proof (Hsn l1). pose proof (Hsn l2).
    apply wp_of_option with (bot ++ l1, l2 ++ hi); [rewrite E; apply split_at_app; set_solver|]. wp_steps. rewrite Eh, El.
    wp_steps. split; [|split_and!; [done|done|by exists (bot ++ l1), (l2 ++ hi)]].
    refine (lru_ok_remove _ _ _ bot (l1 ++ l2) hi (bot ++ l1) _ p e (high_pri_pool_usage_ s)
      (u64 (low_pri_pool_usage_ s - total_charge e)) s HP HOK He E _ _ _ _ _ _ _ _ _); try done; try set_solver.
    + by rewrite <- !app_assoc.
    + rewrite Hbo, decide_False; [done|]. apply last_not_in. set_solver.
    + rewrite HL, !app_assoc. apply last_remove. set_solver.
    + rewrite sumc_app, u64_small; lia.
  - assert (E : lru_ s = (bot ++ low ++ l1) ++ p :: l2) by (rewrite H1, <- !app_assoc; done). rewrite E in H2.
    apply NoDup_app in H2 as (_ & HN1 & [HN2 _]%NoDup_cons). rewrite sumc_app in Hs, Hhi. simpl in Hs, Hhi.
    pose proof (Hsn l1). pose proof (Hsn l2).
    apply wp_of_option with (bot ++ low ++ l1, l2); [rewrite E; apply split_at_app; set_solver|]. wp_steps. rewrite Eh.
    wp_steps. split; [|split_and!; [done|done|by exists (bot ++ low ++ l1), l2]].
    refine (lru_ok_remove _ _ _ bot low (l1 ++ l2) (bot ++ low ++ l1) _ p e (u64 (high_pri_pool_usage_ s - total_charge e))
      (low_pri_pool_usage_ s) s HP HOK He E _ _ _ _ _ _ _ _ _); try done; try set_solver.
    + by rewrite <- !app_assoc.
    + rewrite Hbo, decide_False; [done|]. apply last_not_in. set_solver.
    + rewrite HL, decide_False; [done|]. apply last_not_in. set_solver.
    + rewrite sumc_app, u64_small; lia.
    + rewrite !sumc_app. simpl. lia.
Qed.

Lemma flags_grow h hi lo p e a b l l' : h !! p = Some e -> p ∉ l -> flags h hi lo l ->
  l' = l \/ l' = l ++ [p] /\ a = hi /\ b = lo -> flags (<[p := Handle.SetInPools a b e]> h) hi lo l'.
Proof.
  intros He Hp HF [->|(-> & -> & ->)]; [by apply flags_insert|]. apply flags_app.
  split; [by apply flags_insert|apply flags_one].
Qed.

(** A new entry at the newest end of one pool. *)
Lemma pools0_insert bot low hi bot' low' hi' a b p e s s' : pools0 bot low hi s -> heap s !! p = Some e -> p ∉ lru_ s ->
  sumc (heap s) (lru_ s) + total_charge e < 2 ^ 53 ->
  heap s' = <[p := Handle.SetInPools a b e]> (heap s) -> lru_ s' = bot' ++ low' ++ hi' -> lru_ s' ≡ₚ p :: lru_ s ->
  lru_bottom_pri_ s' = last bot' ->
  bot' = bot \/ bot' = bot ++ [p] /\ a = false /\ b = false ->
  low' = low \/ low' = low ++ [p] /\ a = false /\ b = true ->
  hi' = hi \/ hi' = hi ++ [p] /\ a = true /\ b = false ->
  high_pri_pool_usage_ s' = sumc (heap s) hi' -> low_pri_pool_usage_ s' = sumc (heap s) low' ->
  high_pri_pool_capacity_ s' = high_pri_pool_capacity_ s -> low_pri_pool_capacity_ s' = low_pri_pool_capacity_ s ->
  high_pri_pool_ratio_ s' = high_pri_pool_ratio_ s -> low_pri_pool_ratio_ s' = low_pri_pool_ratio_ s -> pools0 bot' low' hi' s'.
Proof.
  intros [H1 H2 H3 H4 H5 H6 H7 H8 H9 H10 H11] He Hp Hs Eh El HPerm Eb Hb Hl Hh Euh Eul Ec1 Ec2 Ec3 Ec4.
  assert (Hc : charge_of (heap s) p = total_charge e) by (unfold charge_of; by rewrite He).
  rewrite H1 in Hp. split; rewrite ?Eh, ?sumc_flags, ?Ec1, ?Ec2, ?Ec3, ?Ec4 by done; try done.
  - rewrite HPerm. constructor; [by rewrite H1|done].
  - eapply flags_grow; [done| |exact H4|done]. set_solver.
  - eapply flags_grow; [done| |exact H5|done]. set_solver.
  - eapply flags_grow; [done| |exact H6|done]. set_solver.
  - by apply nonneg_flags.
  - rewrite HPerm. simpl. lia.
Qed.

Lemma pools_set_usage bot low hi u lu s : pools bot low hi s -> pools bot low hi (set_usage u lu s).
Proof. intros [[H1 H2 H3 H4 H5 H6 H7 H8 H9 H10 H11] HL]. split; [split; assumption|exact HL]. Qed.

Lemma core_set_flags p e a b l lp bp uh ul s : heap s !! p = Some e ->
  core (set_pool_usage uh ul (set_heap (<[p := Handle.SetInPools a b e]> (heap s)) (next_id s) (deleted s) (set_lru l lp bp s)))
  = core s.
Proof. intros He. unfold core. cbn. by rewrite fmap_noflags_insert. Qed.

(** The end of [LRU_Insert]. *)
Lemma lru_ok_linked bot low hi p e s s' : lru_ok s -> heap s !! p = Some e -> core s' = core s -> lru_usage_ s' = lru_usage_ s ->
  lru_ s' ≡ₚ p :: lru_ s -> sumc (heap s) (lru_ s) + total_charge e < 2 ^ 53 -> pools bot low hi s' ->
  (f64_gtb (low_pri_pool_ratio_ s') f64_0 = true -> high_fits s') ->
  lru_ok (set_usage (usage_ s') (u64 (lru_usage_ s' + total_charge e)) s').
Proof.
  intros ((b1 & l1 & h1 & HP) & HU & _) He HC EU HPerm Hs HP' HH.
  assert (Hc : charge_of (heap s) p = total_charge e) by (unfold charge_of; by rewrite He).
  pose proof (po_nonneg _ _ _ _ (proj1 HP)) as HN. pose proof (HN p e He). pose proof (sumc_nonneg _ (lru_ s) HN).
  split_and!; [|cbn [lru_usage_ set_usage heap lru_]|done].
  - exists bot, low, hi. by apply pools_set_usage.
  - rewrite EU, HU, (core_sumc s s' _ HC), HPerm. simpl. rewrite u64_small; lia.
Qed.

Lemma last_insert (p : nat) bot low : NoDup (bot ++ low) ->
  (if decide (last bot = last (bot ++ low)) then Some p else last (bot ++ low)) = last ((bot ++ [p]) ++ low).
Proof.
  intros HN. destruct low as [|x low _] using rev_ind; [by rewrite !app_nil_r, decide_True, last_snoc|].
  rewrite !app_assoc, !last_snoc. rewrite decide_False; [done|]. apply last_not_in. apply NoDup_app in HN as (_ & HN & _).
  intros Hx. apply (HN x Hx). set_solver.
Qed.

Section link.
Context (p : nat) (e : LRUHandle) (s : t S) (bot low hi : list nat).
Context (HOK : lru_ok s) (HP : pools bot low hi s) (He : heap s !! p = Some e) (Hp : p ∉ lru_ s).
Context (Hsum : sumc (heap s) (lru_ s) + total_charge e < 2 ^ 53).

(** What a branch of [LRU_Insert] has done, but for [lru_usage_]. *)
Definition linked (l1 l2 : list nat) (s' : t S) : Prop :=
  lru_ s = l1 ++ l2 /\ lru_ s' = l1 ++ p :: l2 /\ core s' = core s /\
  lru_ok (set_usage (usage_ s') (u64 (lru_usage_ s' + total_charge e)) s').

Lemma link_sums : 0 <= total_charge e /\ 0 <= sumc (heap s) bot /\ 0 <= sumc (heap s) low /\ 0 <= sumc (heap s) hi /\
  charge_of (heap s) p = total_charge e /\
  sumc (heap s) bot + sumc (heap s) low + sumc (heap s) hi + total_charge e < 2 ^ 53.
Proof.
  pose proof (pools0_sums _ _ _ _ (proj1 HP)) as Hs0. unfold charge_of. rewrite He. split_and!; try lia.
  - exact (po_nonneg _ _ _ _ (proj1 HP) p e He).
  - rewrite (po_list _ _ _ _ (proj1 HP)), !sumc_app in Hsum. lia.
Qed.

Lemma link_high_ok : wp (link_high p e) (fun _ s' => linked (lru_ s) [] s') s.
Proof.
  pose proof link_sums as Hs. pose proof (proj1 HP) as HP0. pose proof (po_hi _ _ _ _ HP0) as Hhi.
  unfold link_high. wp_steps. apply (wp_update p e); [exact He|]. wp_steps.
  assert (Hperm : lru_ s ++ [p] ≡ₚ p :: lru_ s) by (by rewrite <- Permutation_cons_append).
  eapply wp_mono.
  { apply (MaintainPoolSize_ok bot low (hi ++ [p])). split; [|exact (proj2 HP)].
    apply (pools0_insert bot low hi _ _ _ true false p e s); cbn; try done; try auto.
    - by rewrite (po_list _ _ _ _ HP0), <- !app_assoc.
    - apply HP0.
    - rewrite sumc_app, u64_small, Hhi; simpl; lia.
    - apply HP0. }
  cbv beta. intros [] s' ((HC & El & Eu) & Hfit & _ & b' & l' & h' & HP').
  assert (HC' : core s' = core s) by exact (eq_trans HC (core_set_flags p e true false _ _ _ _ _ s He)).
  split_and!; [by rewrite app_nil_r|exact El|exact HC'|].
  apply (lru_ok_linked b' l' h' p e s); try done. by rewrite El.
Qed.

Lemma link_low_ok : f64_gtb (low_pri_pool_ratio_ s) f64_0 = true ->
  wp (link_low p e) (fun _ s' => linked (bot ++ low) hi s') s.
Proof.
  intros Hr. pose proof link_sums as Hs. pose proof (proj1 HP) as HP0. pose proof (po_low _ _ _ _ HP0) as Hlo.
  pose proof (po_list _ _ _ _ HP0) as H1. unfold link_low. wp_steps. apply wp_of_option with ((bot ++ low) ++ p :: hi).
  { rewrite (proj2 HP), H1, app_assoc. apply link_last. rewrite <- app_assoc, <- H1. apply HP0. }
  wp_steps. apply (wp_update p e); [exact He|]. wp_steps.
  assert (Hperm : (bot ++ low) ++ p :: hi ≡ₚ p :: lru_ s) by (by rewrite <- Permutation_middle, H1, <- app_assoc).
  eapply wp_mono.
  { apply (MaintainPoolSize_fits bot (low ++ [p]) hi); [|exact (proj2 (proj2 HOK) Hr)].
    apply (pools0_insert bot low hi _ _ _ false true p e s); cbn; try done; try auto.
    - by rewrite <- !app_assoc.
    - apply HP0.
    - apply HP0.
    - rewrite sumc_app, u64_small, Hlo; simpl; lia. }
  cbv beta. intros [] s' ((HC & El & Eu) & Hfit & b' & l' & Ebl & HP'). wp_steps.
  assert (HC' : core s' = core s) by exact (eq_trans HC (core_set_flags p e false true _ _ _ _ _ s He)).
  split_and!; [by rewrite H1, app_assoc|exact El|exact HC'|].
  refine (lru_ok_linked b' l' hi p e s (set_lru (lru_ s') (Some p) (lru_bottom_pri_ s') s') HOK He HC' Eu _ Hsum _ _).
  - cbn. by rewrite El.
  - split; [destruct HP'; split; assumption|]. cbn. by rewrite <- Ebl, app_assoc, last_snoc.
  - by intros _.
Qed.

Lemma link_bottom_ok : wp (link_bottom p) (fun _ s' => linked bot (low ++ hi) s') s.
Proof.
  pose proof (proj1 HP) as HP0. pose proof (po_list _ _ _ _ HP0) as H1. pose proof (po_nodup _ _ _ _ HP0) as H2.
  unfold link_bottom. wp_steps. apply wp_of_option with (bot ++ p :: low ++ hi).
  { rewrite (po_bottom _ _ _ _ HP0), H1. apply link_last. by rewrite <- H1. }
  wp_steps. apply (wp_update p e); [exact He|]. wp_steps.
  assert (Hperm : bot ++ p :: low ++ hi ≡ₚ p :: lru_ s) by (by rewrite <- Permutation_middle, H1).
  pose proof (core_set_flags p e false false (bot ++ p :: low ++ hi)
    (if decide (lru_bottom_pri_ s = lru_low_pri_ s) then Some p else lru_low_pri_ s) (Some p)
    (high_pri_pool_usage_ s) (low_pri_pool_usage_ s) s He) as HC.
  split_and!; [done|done|exact HC|].
  refine (lru_ok_linked (bot ++ [p]) low hi p e s _ HOK He HC eq_refl Hperm Hsum _ (proj2 (proj2 HOK))).
  split.
  - apply (pools0_insert bot low hi _ _ _ false false p e s); cbn; try done; try auto; try apply HP0.
    + by rewrite <- app_assoc.
    + by rewrite last_snoc.
  - cbn. rewrite (proj2 HP), (po_bottom _ _ _ _ HP0). apply last_insert. rewrite H1, app_assoc in H2.
    by apply NoDup_app in H2 as (H2 & _).
Qed.
End link.

Lemma LRU_Insert_ok p e s : lru_ok s -> heap s !! p = Some e -> p ∉ lru_ s ->
  sumc (heap s) (lru_ s) + total_charge e < 2 ^ 53 ->
  wp (LRU_Insert p) (fun _ s' => lru_ok s' /\ core s' = core s /\
    exists l1 l2, lru_ s = l1 ++ l2 /\ lru_ s' = l1 ++ p :: l2 /\
      (f64_gtb (high_pri_pool_ratio_ s) f64_0 && (IS_HIGH_PRI e || HAS_HIT e) = true -> l2 = [])) s.
Proof.
  intros HOK He Hp Hs. pose proof HOK as ((bot & low & hi & HP) & _ & _).
  unfold LRU_Insert. wp_steps. eapply wp_deref; [exact He|]. wp_steps.
  destruct (f64_gtb (high_pri_pool_ratio_ s) f64_0 && _) eqn:Ehi;
    [|destruct (f64_gtb (low_pri_pool_ratio_ s) f64_0 && _) eqn:Elo];
    (eapply wp_mono; [first [by apply (link_high_ok p e s bot low hi)
      |apply (link_low_ok p e s bot low hi); try done; by apply andb_true_iff in Elo as [Elo _]
      |by apply (link_bottom_ok p e s bot low hi)]|]);
    intros [] s' (E1 & E2 & E3 & E4); wp_steps; (split_and!; [exact E4|exact E3|]); by do 2 eexists.
Qed.
End pools.
