(* ===== verification/LruSpec.v ===== *)
(** * What the LRU cache promises

    The cache is a set of live objects with their reference counts, of which some are
    visible under their key; the visible ones nobody references form a list in the
    order in which they may be evicted. [spec_step] says what an operation
    answers and how that state changes: which objects go away, that exactly those are
    handed to their deleter, and that objects go away only when the cache is over its
    capacity, in the order of the list and no more than needed. Only the place at
    which an object enters the list is left open, except that a hot object (of high
    priority or looked up before) goes to the newest end when the
    high-priority pool is in use. *)

From stdpp Require Import prelude gmap.
From Stdlib Require Import ZArith Lia Bool SpecFloat.
From S2P Require Import Prelude Float64 Status StateMonad LruTable LruCache.
Import LRUCacheShard.

Record obj := mkObj {
  o_key : Z * list Z;
  o_value : option Z;
  o_charge : Z;
  o_refs : Z;
  o_hot : bool;
  o_deletes : bool;
}.

Record spec := mkSpec {
  objs : gmap nat obj;
  cached : gset nat;
  order : list nat;
  log : list (list Z * option Z);
  capacity : Z;
  strict : bool;
  high_pool : bool;
}.

Definition with_objs (o : gmap nat obj) (c : gset nat) (l : list nat) (a : spec) : spec :=
  mkSpec o c l (log a) (capacity a) (strict a) (high_pool a).

Definition total (o : gmap nat obj) : Z := map_fold (fun _ x n => o_charge x + n) 0 o.

(** The call of the deleter for an object. *)
Definition deletion (o : obj) : list (list Z * option Z) := if o_deletes o then [((o_key o).2, o_value o)] else [].

Definition unlink (p : nat) (l : list nat) : list nat := filter (fun q => q <> p) l.

(** Object [p] goes away. *)
Definition free1 (a : spec) (p : nat) : spec :=
  mkSpec (base.delete p (objs a)) (cached a ∖ {[p]}) (unlink p (order a))
    (log a ++ match objs a !! p with Some o => deletion o | None => [] end) (capacity a) (strict a) (high_pool a).
Definition free (D : list nat) (a : spec) : spec := foldl free1 a D.

(** Making room for [charge] more: [D] is what is evicted. *)
Definition evicts (charge : Z) (a : spec) (D : list nat) : Prop :=
  D `prefix_of` order a /\
  (forall D' d, D = D' ++ [d] -> capacity a < total (objs (free D' a)) + charge) /\
  (capacity a < total (objs (free D a)) + charge -> D = order a).

(** The visible object with a key. *)
Definition bound (a : spec) (k : Z * list Z) (r : option nat) : Prop :=
  match r with
  | Some p => p ∈ cached a /\ exists o, objs a !! p = Some o /\ o_key o = k
  | None => forall p o, p ∈ cached a -> objs a !! p = Some o -> o_key o <> k
  end.

(** [p] is no longer visible; it goes away unless it is referenced. *)
Definition unbind (p : nat) (a : spec) : spec :=
  match objs a !! p with
  | Some o => if o_refs o =? 0 then free1 a p else with_objs (objs a) (cached a ∖ {[p]}) (order a) a
  | None => a
  end.

(** [p] enters the list. *)
Definition linked_at (a : spec) (p : nat) (o : obj) (l : list nat) : Prop :=
  exists l1 l2, order a = l1 ++ l2 /\ l = l1 ++ p :: l2 /\ (high_pool a && o_hot o = true -> l2 = []).

Definition add_ref (n : Z) (hot : bool) (o : obj) : obj :=
  mkObj (o_key o) (o_value o) (o_charge o) (o_refs o + n) (o_hot o || hot) (o_deletes o).

Inductive op :=
  | OInsert (k : list Z) (hash : Z) (v : option Z) (charge : Z) (deleter helper handle : bool) (priority : Priority)
  | OLookup (k : list Z) (hash : Z) (helper : option bool) (priority : Priority) (wait : bool)
  | ORef (p : nat)
  | ORelease (p : nat) (erase_if_last_ref : bool)
  | OErase (k : list Z) (hash : Z)
  | OSetCapacity (c : Z)
  | OSetStrict (b : bool)
  | OSetHighRatio (r : spec_float)
  | OSetLowRatio (r : spec_float)
  | OEraseUnRef.

Inductive result := RNone | RBool (b : bool) | RHandle (h : option nat) | RInsert (s : Status) (h : option nat).

Definition spec_insert (a : spec) (p : nat) (o : obj) (handle : bool) (r : result) (a' : spec) : Prop :=
  objs a !! p = None /\ exists D, evicts (o_charge o) a D /\
  let a1 := free D a in
  if (capacity a <? total (objs a1) + o_charge o) && (strict a || negb handle) then
    if handle then r = RInsert (mkStatus kAborted kMemoryLimit) None /\ a' = a1
    else r = RInsert St.OK None /\
         a' = mkSpec (objs a1) (cached a1) (order a1) (log a1 ++ deletion o) (capacity a1) (strict a1) (high_pool a1)
  else
    exists old, bound a1 (o_key o) old /\
    let a2 := match old with Some q => unbind q a1 | None => a1 end in
    r = RInsert (match old with Some _ => mkStatus kOk kOverwritten | None => St.OK end) (if handle then Some p else None) /\
    if handle then a' = with_objs (<[p := add_ref 1 false o]> (objs a2)) ({[p]} ∪ cached a2) (order a2) a2
    else exists l, linked_at a2 p o l /\ a' = with_objs (<[p := o]> (objs a2)) ({[p]} ∪ cached a2) l a2.

Definition spec_release (a : spec) (p : nat) (o : obj) (erase_if_last_ref : bool) (r : result) (a' : spec) : Prop :=
  let o' := add_ref (-1) false o in
  if negb (o_refs o =? 1) then r = RBool false /\ a' = with_objs (<[p := o']> (objs a)) (cached a) (order a) a
  else if bool_decide (p ∈ cached a) && negb ((capacity a <? total (objs a)) || erase_if_last_ref) then
    r = RBool false /\ exists l, linked_at a p o l /\ a' = with_objs (<[p := o']> (objs a)) (cached a) l a
  else r = RBool true /\ a' = free1 a p.

(** The total charge of the object an insertion makes depends on the allocator. *)
Definition spec_step `{Config} (a : spec) (o : op) (r : result) (a' : spec) : Prop :=
  match o with
  | OInsert k h v charge deleter helper handle priority =>
      let e := new_handle v helper deleter None k h true priority in
      exists p, spec_insert a p (mkObj (h, k) v (CalcTotalCharge charge p e) 0 (bool_decide (priority = HIGH)) (deleter || helper))
                            handle r a'
  | OLookup k h _ _ _ =>
      exists b, bound a (h, k) b /\ r = RHandle b /\
      match b with
      | Some p => exists o, objs a !! p = Some o /\
          a' = with_objs (<[p := add_ref 1 true o]> (objs a)) (cached a) (unlink p (order a)) a
      | None => a' = a
      end
  | ORef p => exists o, objs a !! p = Some o /\ r = RBool true /\
      a' = with_objs (<[p := add_ref 1 false o]> (objs a)) (cached a) (order a) a
  | ORelease p erase => exists o, objs a !! p = Some o /\ spec_release a p o erase r a'
  | OErase k h => r = RNone /\ exists b, bound a (h, k) b /\ a' = match b with Some p => unbind p a | None => a end
  | OSetCapacity c =>
      r = RNone /\ let a1 := mkSpec (objs a) (cached a) (order a) (log a) c (strict a) (high_pool a) in
      exists D, evicts 0 a1 D /\ a' = free D a1
  | OSetStrict b => r = RNone /\ a' = mkSpec (objs a) (cached a) (order a) (log a) (capacity a) b (high_pool a)
  | OSetHighRatio hr =>
      r = RNone /\ a' = mkSpec (objs a) (cached a) (order a) (log a) (capacity a) (strict a) (f64_gtb hr f64_0)
  | OSetLowRatio _ => r = RNone /\ a' = a
  | OEraseUnRef => r = RNone /\ a' = free (order a) a
  end.

(** ** The shard's operations, its abstraction, and what its callers owe *)

Section abs.
Context {S : Type} `{SecondaryCache S} `{Config}.
Implicit Types s : t S.

Definition run (o : op) : M (t S) result :=
  match o with
  | OInsert k h v charge deleter helper handle priority =>
      r ← Insert k h v charge deleter helper handle priority; mret (RInsert r.1 r.2)
  | OLookup k h helper priority wait => r ← Lookup k h helper priority wait; mret (RHandle r)
  | ORef p => r ← Ref p; mret (RBool r)
  | ORelease p erase => r ← Release (Some p) erase; mret (RBool r)
  | OErase k h => Erase k h ;; mret RNone
  | OSetCapacity c => SetCapacity c ;; mret RNone
  | OSetStrict b => SetStrictCapacityLimit b ;; mret RNone
  | OSetHighRatio r => SetHighPriorityPoolRatio r ;; mret RNone
  | OSetLowRatio r => SetLowPriorityPoolRatio r ;; mret RNone
  | OEraseUnRef => EraseUnRefEntries ;; mret RNone
  end.

Definition to_obj (e : LRUHandle) : obj :=
  mkObj (hash e, key e) (value e) (total_charge e) (refs e) (IS_HIGH_PRI e || HAS_HIT e)
    (if IS_SECONDARY_CACHE_COMPATIBLE e then bool_decide (is_Some (value e)) else has_deleter e).

Definition abs s : spec :=
  mkSpec (to_obj <$> heap s) (list_to_set (ids (table_ s))) (lru_ s) (deleted s) (capacity_ s)
    (strict_capacity_limit_ s) (f64_gtb (high_pri_pool_ratio_ s) f64_0).

(** The callers' side: hashes are 32 bits wide, the charges together stay below 2^53, counters below
    2^32, a value to be created by a helper is not null, only handles that are held are
    referenced or released, and pool ratios are not negative. A capacity is not lowered so
    far that the high-priority pool no longer fits, when entries can
    go to the low-priority pool. *)
Definition pre s (o : op) : Prop :=
  match o with
  | OInsert k h v charge deleter helper handle priority =>
      is_u 32 h /\ 0 <= charge /\ (helper = true -> is_Some v /\ deleter = false) /\
      (forall p, 0 <= CalcuMetaCharge p (new_handle v helper deleter None k h true priority) /\
        usage_ s + (charge + CalcuMetaCharge p (new_handle v helper deleter None k h true priority)) < 2 ^ 53) /\
      LRUHandleTable.elems_ (table_ s) + 1 < 2 ^ 32
  | OLookup k h _ _ _ => is_u 32 h /\ forall p e, heap s !! p = Some e -> refs e + 1 < 2 ^ 32
  | ORef p => exists e, heap s !! p = Some e /\ 0 < refs e /\ refs e + 1 < 2 ^ 32
  | ORelease p _ => exists e, heap s !! p = Some e /\ 0 < refs e
  | OErase k h => is_u 32 h
  | OSetCapacity c => is_u 64 c /\ (f64_gtb (low_pri_pool_ratio_ s) f64_0 = true ->
      f64_gtb (f64_of_Z (high_pri_pool_usage_ s)) (f64_mul (f64_of_Z c) (high_pri_pool_ratio_ s)) = false)
  | OSetStrict _ => True
  | OSetHighRatio r | OSetLowRatio r => f64_nonneg r
  | OEraseUnRef => True
  end.
End abs.
