(* ===== verification/LruProofs.v ===== *)
(** * The LRU cache shard keeps its promises

    Without a secondary cache, every operation of the shard is defined, keeps the
    shard's invariant and acts as [spec_step] says. *)

From stdpp Require Import prelude gmap.
From Stdlib Require Import ZArith Lia Bool SpecFloat.
From S2P Require Import Prelude Float64 Status StateMonad LruTable LruCache LruPools LruSpec.
Import LRUCacheShard.

(** ** Invariants *)

Definition entry_ok (e : LRUHandle) : Prop :=
  0 <= total_charge e /\ is_u 32 (hash e) /\ is_u 32 (refs e) /\ IS_PENDING e = false /\
  (IS_SECONDARY_CACHE_COMPATIBLE e = true -> is_Some (value e)).

Section proofs.
Context {S : Type} `{SecondaryCache S} `{Config}.
Implicit Types (s : t S) (a : spec).

(** The heap but for the pool flags. *)
Definition view s : gmap nat LRUHandle := noflags <$> heap s.

(** The entries are those of the table, the erased ones that are still [held], those
    that left the cache and will be freed ([X]), and new ones ([Y]); the first two are
    charged. *)
Record core_inv (held X Y : list nat) s : Prop := {
  ci_sec : secondary_cache_ s = None;
  ci_table : table_ok (hk (view s)) (table_ s);
  ci_nodup : NoDup (ids (table_ s) ++ held ++ X ++ Y);
  ci_dom p : is_Some (view s !! p) <-> p ∈ ids (table_ s) ++ held ++ X ++ Y;
  ci_fresh p : is_Some (view s !! p) -> (p < next_id s)%nat;
  ci_entry p e : view s !! p = Some e -> entry_ok e;
  ci_cached p e : view s !! p = Some e -> p ∈ ids (table_ s) -> IN_CACHE e = true;
  ci_held p e : view s !! p = Some e -> p ∈ held -> IN_CACHE e = false /\ 0 < refs e;
  ci_usage : usage_ s = sumc (view s) (ids (table_ s) ++ held);
  ci_bound : usage_ s < 2 ^ 53;
  ci_cap : is_u 64 (capacity_ s);
}.

(** The list holds the visible entries without references. *)
Definition members s : Prop :=
  forall p, p ∈ lru_ s <-> p ∈ ids (table_ s) /\ exists e, view s !! p = Some e /\ refs e = 0.

Definition INV (held X Y : list nat) s : Prop := core_inv held X Y s /\ lru_ok s /\ members s.

(** [s] stands for [a], where the entries of [X] have already gone. *)
Record R (X Y : list nat) a s : Prop := {
  r_objs p : objs a !! p = if decide (p ∈ X ++ Y) then None else to_obj <$> view s !! p;
  r_cached p : p ∈ cached a <-> p ∈ ids (table_ s);
  r_order : order a = lru_ s;
  r_log : log a = deleted s ++ concat (map (fun p => from_option (fun e => deletion (to_obj e)) [] (view s !! p)) X);
  r_limits : capacity a = capacity_ s /\ strict a = strict_capacity_limit_ s /\
             high_pool a = f64_gtb (high_pri_pool_ratio_ s) f64_0;
}.

(** ** Changes of the list only *)

Lemma core_eqs s s' : core s' = core s ->
  view s' = view s /\ next_id s' = next_id s /\ deleted s' = deleted s /\ capacity_ s' = capacity_ s /\
  strict_capacity_limit_ s' = strict_capacity_limit_ s /\ table_ s' = table_ s /\ usage_ s' = usage_ s /\
  secondary_cache_ s' = secondary_cache_ s.
Proof.
  intros HC. split_and!;
    [exact (f_equal (fun x => x.1.1.1.1.1.1.1.1) HC)|exact (f_equal (fun x => x.1.1.1.1.1.1.1.2) HC)
    |exact (f_equal (fun x => x.1.1.1.1.1.1.2) HC)|exact (f_equal (fun x => x.1.1.1.1.1.2) HC)
    |exact (f_equal (fun x => x.1.1.1.1.2) HC)|exact (f_equal (fun x => x.1.1.2) HC)
    |exact (f_equal (fun x => x.1.2) HC)|exact (f_equal (fun x => x.2) HC)].
Qed.

Lemma core_inv_core held X Y s s' : core s' = core s -> core_inv held X Y s -> core_inv held X Y s'.
Proof.
  intros HC [H1 H2 H3 H4 H5 H6 H7 H8 H9 H10 H11]. destruct (core_eqs _ _ HC) as (E1 & E2 & E3 & E4 & E5 & E6 & E7 & E8).
  split; rewrite ?E1, ?E2, ?E4, ?E6, ?E7, ?E8; done.
Qed.
Lemma R_core X Y a s s' : core s' = core s -> R X Y a s -> R X Y (with_objs (objs a) (cached a) (lru_ s') a) s'.
Proof.
  intros HC [H1 H2 H3 H4 H5]. destruct (core_eqs _ _ HC) as (E1 & E2 & E3 & E4 & E5 & E6 & E7 & E8).
  destruct (core_limits _ _ HC) as (E9 & _). split; cbn; rewrite ?E1, ?E3, ?E4, ?E5, ?E6, ?E9; done.
Qed.

Lemma view_lookup s p e : heap s !! p = Some e -> view s !! p = Some (noflags e).
Proof. intros He. unfold view. by rewrite lookup_fmap, He. Qed.
Lemma view_inv s p e : view s !! p = Some e -> exists e', heap s !! p = Some e' /\ noflags e' = e.
Proof.
  unfold view. rewrite lookup_fmap. destruct (heap s !! p) as [e'|]; [|done]. intros E. exists e'. split; [done|].
  exact (inj Some _ _ E).
Qed.
Lemma hk_view s p : hk (view s) p = hk (heap s) p.
Proof. unfold hk, view. rewrite lookup_fmap. by destruct (heap s !! p). Qed.
Lemma sumc_view s l : sumc (view s) l = sumc (heap s) l.
Proof. apply sumc_ext. intros p _. unfold charge_of, view. rewrite lookup_fmap. by destruct (heap s !! p). Qed.
Lemma table_ok_heap held X Y s : core_inv held X Y s -> table_ok (hk (heap s)) (table_ s).
Proof. intros HI. eapply table_ok_hk; [apply HI|]. intros p _. by rewrite hk_view. Qed.
Lemma nonneg_heap held X Y s : core_inv held X Y s -> nonneg (heap s).
Proof. intros HI p e He. apply view_lookup, (ci_entry _ _ _ _ HI) in He. apply He. Qed.

(** What the list sees of an entry. *)
Definition pool_bits (e : LRUHandle) := (total_charge e, IN_HIGH_PRI_POOL e, IN_LOW_PRI_POOL e).

Lemma lru_ok_frame s s' : lru_ok s -> (forall p, p ∈ lru_ s -> pool_bits <$> heap s' !! p = pool_bits <$> heap s !! p) ->
  nonneg (heap s') ->
  (lru_ s', lru_low_pri_ s', lru_bottom_pri_ s', high_pri_pool_usage_ s', low_pri_pool_usage_ s', lru_usage_ s') =
  (lru_ s, lru_low_pri_ s, lru_bottom_pri_ s, high_pri_pool_usage_ s, low_pri_pool_usage_ s, lru_usage_ s) ->
  (high_pri_pool_ratio_ s', high_pri_pool_capacity_ s', low_pri_pool_ratio_ s', low_pri_pool_capacity_ s') =
  (high_pri_pool_ratio_ s, high_pri_pool_capacity_ s, low_pri_pool_ratio_ s, low_pri_pool_capacity_ s) -> lru_ok s'.
Proof.
  intros ((bot & low & hi & [H1 H2 H3 H4 H5 H6 H7 H8 H9 H10 H11] & HL) & HU & HF) Hh HN [= E1 E2 E3 E4 E5 E6] [= E0 E7 E8 E9].
  assert (HS : forall l, l ⊆ lru_ s -> sumc (heap s') l = sumc (heap s) l).
  { intros l Hl. apply sumc_ext. intros p Hp. specialize (Hh p (Hl p Hp)). unfold charge_of.
    destruct (heap s !! p), (heap s' !! p); cbn in Hh; try done. by injection Hh. }
  assert (HG : forall hi lo l, l ⊆ lru_ s -> flags (heap s) hi lo l -> flags (heap s') hi lo l).
  { intros ? ? l Hl Hfl. apply Forall_forall. intros p Hp. specialize (Hh p (Hl p Hp)).
    destruct (proj1 (Forall_forall _ _) Hfl p Hp) as (e & He & <- & <-). rewrite He in Hh.
    destruct (heap s' !! p) as [e'|]; [|done]. exists e'. by injection Hh. }
  split_and!.
  - exists bot, low, hi. split; [|by rewrite E2, HL]. split; rewrite ?E1, ?E3, ?E4, ?E5, ?E0, ?E7, ?E8, ?E9, ?HS; try done;
      try (apply HG; [|done]); rewrite H1; set_solver.
  - by rewrite E6, E1, HS.
  - unfold high_fits. by rewrite E4, E7, E8.
Qed.

(** ** Sums of charges *)

Lemma total_list (o : gmap nat obj) L : NoDup L -> (forall p, is_Some (o !! p) <-> p ∈ L) ->
  total o = foldr (fun p n => from_option o_charge 0 (o !! p) + n) 0 L.
Proof.
  revert o. induction L as [|p L IH]; intros o HN HD.
  - assert (o = ∅) as ->; [|done]. apply map_empty. intros p. apply eq_None_not_Some. rewrite HD. apply not_elem_of_nil.
  - apply NoDup_cons in HN as [Hp HN]. destruct (proj2 (HD p)) as [x Hx]; [by left|]. unfold total.
    rewrite (map_fold_delete_L _ _ p x o) by (done || (intros; lia)). simpl. rewrite Hx. f_equal. fold (total (base.delete p o)).
    rewrite IH; [|done|].
    + apply (sum_ext (fun q => from_option o_charge 0 (base.delete p o !! q)) (fun q => from_option o_charge 0 (o !! q))).
      intros q Hq. rewrite lookup_delete_ne; [done|]. by intros ->.
    + intros q. rewrite lookup_delete_is_Some, HD, elem_of_cons. set_solver.
Qed.

Lemma R_objs_some X Y a s p : R X Y a s -> is_Some (objs a !! p) <-> p ∉ X ++ Y /\ is_Some (view s !! p).
Proof.
  intros HR. rewrite (r_objs _ _ _ _ HR p). case_decide as Hp; [by split; [intros []|intros []]|].
  rewrite fmap_is_Some. tauto.
Qed.

Lemma R_total held X Y a s : core_inv held X Y s -> R X Y a s -> total (objs a) = usage_ s.
Proof.
  intros HI HR. pose proof (ci_nodup _ _ _ _ HI) as HN. rewrite app_assoc in HN. apply NoDup_app in HN as (HN1 & HN2 & _).
  rewrite (total_list _ (ids (table_ s) ++ held) HN1).
  - rewrite (ci_usage _ _ _ _ HI). unfold sumc. apply (sum_ext (fun p => from_option o_charge 0 (objs a !! p)) (charge_of (view s))).
    intros p Hp. rewrite (r_objs _ _ _ _ HR), decide_False by (by apply HN2). unfold charge_of. by destruct (view s !! p).
  - intros p. rewrite (R_objs_some _ _ _ _ _ HR), (ci_dom _ _ _ _ HI), (app_assoc _ held), (elem_of_app _ (X ++ Y)).
    split; [tauto|]. intros Hp. split; [by apply HN2|by left].
Qed.

Lemma wp_table {A} (f : (nat -> Z * list Z) -> LRUHandleTable.t -> A * LRUHandleTable.t) Q held X Y s : core_inv held X Y s ->
  (let '(r, tb) := f (hk (heap s)) (table_ s) in Q r (set_table tb s)) -> wp (table f) Q s.
Proof.
  intros HI HQ. unfold table. wp_steps. rewrite (proj2 (forallb_forall _ _)).
  - destruct (f (hk (heap s)) (table_ s)) as [r tb]. by wp_steps.
  - intros p Hp. apply bool_decide_eq_true. apply list_elem_of_In in Hp.
    assert (is_Some (view s !! p)) as [e He] by (apply (ci_dom _ _ _ _ HI); by apply elem_of_app; left).
    apply view_inv in He as (e' & -> & _). done.
Qed.

(** ** Entries that leave and enter the cache *)

Definition statics s := (next_id s, capacity_ s, secondary_cache_ s, strict_capacity_limit_ s, high_pri_pool_ratio_ s).

Lemma table_ok_same tb (h h' : gmap nat LRUHandle) : table_ok (hk h) tb -> (forall p, hk h' p = hk h p) -> table_ok (hk h') tb.
Proof. intros HT E. by apply (table_ok_hk (hk h)). Qed.

Lemma hk_insert (h : gmap nat LRUHandle) p e e' q : h !! p = Some e -> hash e' = hash e -> key e' = key e ->
  hk (<[p := e']> h) q = hk h q.
Proof.
  intros He E1 E2. unfold hk. destruct (decide (q = p)) as [->|Hq]; [|by rewrite lookup_insert_ne].
  by rewrite lookup_insert_eq, He, E1, E2.
Qed.
Lemma sumc_insert (h : gmap nat LRUHandle) p e e' l : h !! p = Some e -> total_charge e' = total_charge e ->
  sumc (<[p := e']> h) l = sumc h l.
Proof.
  intros He E. apply sumc_ext. intros q _. unfold charge_of. destruct (decide (q = p)) as [->|Hq]; [|by rewrite lookup_insert_ne].
  by rewrite lookup_insert_eq, He, E.
Qed.

(** An entry, visible or held, goes and will be freed. *)
Lemma leave_free held held' X Y a s s' old e e' : core_inv held X Y s -> R X Y a s -> view s !! old = Some e ->
  table_ok (hk (view s)) (table_ s') -> ids (table_ s) ++ held ≡ₚ old :: ids (table_ s') ++ held' ->
  (forall q, q ∈ ids (table_ s') <-> q ∈ ids (table_ s) /\ q <> old) -> held' ⊆ held ->
  view s' = <[old := e']> (view s) -> hash e' = hash e -> key e' = key e -> total_charge e' = total_charge e ->
  entry_ok e' -> deletion (to_obj e') = deletion (to_obj e) ->
  statics s' = statics s -> deleted s' = deleted s -> usage_ s' = u64 (usage_ s - total_charge e) -> lru_ s' = unlink old (lru_ s) ->
  core_inv held' (X ++ [old]) Y s' /\ R (X ++ [old]) Y (free1 a old) s' /\ usage_ s' = usage_ s - total_charge e.
Proof.
  intros HI HR He HT Hchg Hids Hheld Ev Eh Ek Ec Hok Edel [= E1 E2 E3 E4 E5] Ed Eu El.
  assert (HP : ids (table_ s') ++ held' ++ (X ++ [old]) ++ Y ≡ₚ ids (table_ s) ++ held ++ X ++ Y).
  { rewrite (app_assoc _ held), Hchg, <- (app_assoc X), app_assoc. cbn [app]. by rewrite (app_assoc _ X), <- Permutation_middle, <- app_assoc. }
  pose proof (ci_nodup _ _ _ _ HI) as HN. rewrite (app_assoc _ held), Hchg in HN. cbn [app] in HN. apply NoDup_cons in HN as [HN _].
  assert (F : old ∉ ids (table_ s') /\ old ∉ held' /\ old ∉ X ++ Y) by set_solver. clear HN. destruct F as (F1 & F2 & F3).
  assert (Hne : forall q, q <> old -> view s' !! q = view s !! q) by (intros q Hq; by rewrite Ev, lookup_insert_ne).
  assert (Hd : forall q, is_Some (view s' !! q) <-> is_Some (view s !! q)).
  { intros q. rewrite Ev, lookup_insert_is_Some'. split; [|tauto]. intros [->|?]; [by eexists|done]. }
  assert (Hc : charge_of (view s) old = total_charge e) by (unfold charge_of; by rewrite He).
  assert (Hnn : nonneg (view s)) by (intros q e1 Hq; by apply (ci_entry _ _ _ _ HI _ _ Hq)). pose proof (Hnn _ _ He).
  pose proof (sumc_nonneg _ (ids (table_ s') ++ held') Hnn). pose proof (ci_bound _ _ _ _ HI).
  pose proof (ci_usage _ _ _ _ HI) as HU. rewrite Hchg in HU. cbn in HU. fold (sumc (view s) (ids (table_ s') ++ held')) in HU.
  assert (Hu : usage_ s' = usage_ s - total_charge e) by (rewrite Eu, u64_small; lia).
  split_and!; [| |done].
  - destruct HI as [I1 I2 I3 I4 I5 I6 I7 I8 I9 I10 I11]. split; rewrite ?E1, ?E2, ?E3; try done; try lia.
    + eapply table_ok_same; [exact HT|]. intros q. rewrite Ev. by apply (hk_insert _ _ e).
    + by rewrite HP.
    + intros q. rewrite HP, Hd. apply I4.
    + intros q. rewrite Hd. apply I5.
    + intros q e1. rewrite Ev, lookup_insert_Some. intros [[<- <-]|[_ Hq]]; [done|by apply (I6 q)].
    + intros q e1 Hq Hin. rewrite Hne in Hq by (intros ->; done). apply (I7 q); [done|by apply Hids].
    + intros q e1 Hq Hin. rewrite Hne in Hq by (intros ->; done). apply (I8 q); [done|by apply Hheld].
    + rewrite Ev, (sumc_insert _ _ e) by done. lia.
  - destruct HR as [R1 R2 R3 R4 R5]. split; cbn.
    + intros q. destruct (decide (q = old)) as [->|Hq]; [rewrite lookup_delete_eq, decide_True by set_solver; done|].
      rewrite lookup_delete_ne, Hne, R1 by done. repeat case_decide; set_solver.
    + intros q. by rewrite elem_of_difference, R2, elem_of_singleton, Hids.
    + by rewrite R3, El.
    + rewrite R4, Ed, map_app, concat_app, app_assoc. f_equal; [f_equal|].
      * f_equal. apply map_ext_in. intros q Hq%list_elem_of_In. rewrite Hne; [done|]. intros ->. set_solver.
      * rewrite R1, decide_False, He by done. cbn. by rewrite Ev, lookup_insert_eq, app_nil_r.
    + by rewrite E2, E4, E5.
Qed.

Section uncache.
Context (held X Y : list nat) (a : spec) (s s' : t S) (old : nat) (e : LRUHandle).
Context (HI : core_inv held X Y s) (HR : R X Y a s) (He : view s !! old = Some e).
Context (HT : table_ok (hk (view s)) (table_ s')) (Hids : ids (table_ s) ≡ₚ old :: ids (table_ s')).
Context (Ev : view s' = <[old := Handle.SetInCache false e]> (view s)) (Est : statics s' = statics s)
  (Ed : deleted s' = deleted s).

Lemma uncache_fresh : old ∉ ids (table_ s') /\ old ∉ held /\ old ∉ X ++ Y.
Proof.
  pose proof (ci_nodup _ _ _ _ HI) as HN. rewrite Hids in HN. simpl in HN. apply NoDup_cons in HN as [HN _]. set_solver.
Qed.

Lemma uncache_common : is_Some (view s !! old) /\
  secondary_cache_ s' = None /\ table_ok (hk (view s')) (table_ s') /\ is_u 64 (capacity_ s') /\
  (forall p e', view s' !! p = Some e' -> entry_ok e') /\
  (forall p, is_Some (view s' !! p) <-> is_Some (view s !! p)) /\
  (forall p, is_Some (view s' !! p) -> (p < next_id s')%nat) /\
  (forall p e', view s' !! p = Some e' -> p ∈ ids (table_ s') -> IN_CACHE e' = true) /\
  (forall p, p <> old -> view s' !! p = view s !! p).
Proof.
  destruct uncache_fresh as (F1 & F2 & F3). injection Est as E1 E2 E3 E4 E5. rewrite Ev, E1, E2, E3.
  assert (Hd : forall p, is_Some (<[old := Handle.SetInCache false e]> (view s) !! p) <-> is_Some (view s !! p)).
  { intros p. rewrite lookup_insert_is_Some'. split; [|tauto]. intros [->|?]; [by eexists|done]. }
  split_and!; [by eexists|apply HI| |apply HI| |exact Hd|..].
  - eapply table_ok_same; [exact HT|]. intros p. by apply (hk_insert _ _ e).
  - intros p e'. rewrite lookup_insert_Some. intros [[<- <-]|[_ Hp]]; [|by apply (ci_entry _ _ _ _ HI p)].
    exact (ci_entry _ _ _ _ HI _ _ He).
  - intros p Hp. apply (ci_fresh _ _ _ _ HI). by apply Hd.
  - intros p e' Hp Hin. rewrite lookup_insert_ne in Hp by (intros <-; done). apply (ci_cached _ _ _ _ HI p e' Hp).
    rewrite Hids. by right.
  - intros p Hp. by rewrite lookup_insert_ne.
Qed.

(** It will be freed. *)
Lemma uncache_free : usage_ s' = u64 (usage_ s - total_charge e) -> lru_ s' = unlink old (lru_ s) ->
  core_inv held (X ++ [old]) Y s' /\ R (X ++ [old]) Y (free1 a old) s' /\ usage_ s' = usage_ s - total_charge e.
Proof.
  intros Eu El. destruct uncache_fresh as (F1 & F2 & F3).
  apply (leave_free held held X Y a s s' old e (Handle.SetInCache false e)); try done.
  - by rewrite Hids.
  - intros q. rewrite Hids, elem_of_cons. split; [|tauto]. intros Hq. split; [by right|]. by intros ->.
  - exact (ci_entry _ _ _ _ HI _ _ He).
Qed.

(** It is still referenced. *)
Lemma uncache_hold : usage_ s' = usage_ s -> lru_ s' = lru_ s -> 0 < refs e ->
  core_inv (old :: held) X Y s' /\ R X Y (with_objs (objs a) (cached a ∖ {[old]}) (order a) a) s'.
Proof.
  intros Eu El Href. destruct uncache_fresh as (F1 & F2 & F3). destruct uncache_common as (C0 & C1 & C2 & C3 & C4 & C5 & C6 & C7 & C8).
  assert (HP : ids (table_ s') ++ (old :: held) ++ X ++ Y ≡ₚ ids (table_ s) ++ held ++ X ++ Y).
  { rewrite Hids. simpl. by rewrite <- !Permutation_middle. }
  split.
  - split; try done.
    + rewrite HP. apply HI.
    + intros p. rewrite HP, C5. apply HI.
    + intros p e' Hp [->|Hin]%elem_of_cons.
      * rewrite Ev, lookup_insert_eq in Hp. injection Hp as <-. done.
      * rewrite C8 in Hp by (intros ->; done). by apply (ci_held _ _ _ _ HI p).
    + rewrite Eu, (ci_usage _ _ _ _ HI), Ev, (sumc_insert _ _ e), Hids by done. simpl. by rewrite <- Permutation_middle.
    + rewrite Eu. apply HI.
  - injection Est as E1 E2 E3 E4 E5. destruct HR as [R1 R2 R3 R4 R5]. split; cbn.
    + intros p. rewrite R1. destruct (decide (p = old)) as [->|Hp]; [|by rewrite C8]. by rewrite Ev, lookup_insert_eq, He.
    + intros p. rewrite elem_of_difference, R2, elem_of_singleton, Hids, elem_of_cons. split; [tauto|]. intros Hp. split; [tauto|].
      by intros ->.
    + by rewrite R3, El.
    + rewrite R4, Ed. do 2 f_equal. apply map_ext_in. intros p Hp%list_elem_of_In. rewrite C8; [done|]. intros ->. set_solver.
    + by rewrite E2, E4, E5.
Qed.
End uncache.

(** The new entry [p] enters the table. *)
Lemma cache_new held X a s s' p e : core_inv held X [p] s -> R X [p] a s -> view s !! p = Some e -> IN_CACHE e = true ->
  table_ok (hk (view s)) (table_ s') -> ids (table_ s') ≡ₚ p :: ids (table_ s) ->
  view s' = view s -> statics s' = statics s -> deleted s' = deleted s ->
  usage_ s' = u64 (usage_ s + total_charge e) -> usage_ s + total_charge e < 2 ^ 53 -> lru_ s' = lru_ s ->
  core_inv held X [] s' /\ R X [] (with_objs (<[p := to_obj e]> (objs a)) ({[p]} ∪ cached a) (order a) a) s'.
Proof.
  intros HI HR He Hin HT Hids Ev Est Ed Eu Hb El. injection Est as E1 E2 E3 E4 E5.
  assert (HP : ids (table_ s') ++ held ++ X ++ [] ≡ₚ ids (table_ s) ++ held ++ X ++ [p]).
  { rewrite Hids, app_nil_r. simpl. by rewrite !app_assoc, <- Permutation_cons_append. }
  assert (Hc : charge_of (view s) p = total_charge e) by (unfold charge_of; by rewrite He).
  pose proof (proj1 (ci_entry _ _ _ _ HI _ _ He)) as Hc0. pose proof (ci_usage _ _ _ _ HI) as HU.
  assert (0 <= sumc (view s) (ids (table_ s) ++ held)) by (apply sumc_nonneg; intros q e' Hq; by apply (ci_entry _ _ _ _ HI _ _ Hq)).
  assert (Hu : usage_ s' = usage_ s + total_charge e) by (rewrite Eu, u64_small; lia).
  pose proof (ci_nodup _ _ _ _ HI) as HN.
  assert (HpX : p ∉ X /\ p ∉ held).
  { rewrite !app_assoc, <- Permutation_cons_append in HN. apply NoDup_cons in HN as [HN _]. set_solver. }
  split.
  - destruct HI as [I1 I2 I3 I4 I5 I6 I7 I8 I9 I10 I11]. split; rewrite ?Ev, ?E1, ?E2, ?E3; try done.
    + by rewrite HP.
    + intros q. rewrite HP. apply I4.
    + intros q e' Hq. rewrite Hids, elem_of_cons. intros [->|Hin']; [congruence|by apply (I7 q)].
    + rewrite Hids. simpl. lia.
    + lia.
  - destruct HR as [R1 R2 R3 R4 R5]. split; cbn; rewrite ?Ev, ?Ed, ?E2, ?E4, ?E5, ?El; try done.
    + intros q. rewrite app_nil_r. destruct (decide (q = p)) as [->|Hq].
      * rewrite lookup_insert_eq, decide_False, He by apply HpX. done.
      * rewrite lookup_insert_ne, R1 by done. repeat case_decide; set_solver.
    + intros q. rewrite elem_of_union, elem_of_singleton, R2, Hids, elem_of_cons. done.
Qed.

(** The reference count or the hit flag of an entry changes. *)
Lemma touch held X Y a s s' p e e' : core_inv held X Y s -> R X Y a s -> view s !! p = Some e -> p ∉ X ++ Y ->
  view s' = <[p := e']> (view s) -> hash e' = hash e -> key e' = key e -> total_charge e' = total_charge e ->
  IN_CACHE e' = IN_CACHE e -> entry_ok e' -> (p ∈ held -> 0 < refs e') ->
  (statics s', deleted s', usage_ s', table_ s', lru_ s') = (statics s, deleted s, usage_ s, table_ s, lru_ s) ->
  core_inv held X Y s' /\ R X Y (with_objs (<[p := to_obj e']> (objs a)) (cached a) (order a) a) s'.
Proof.
  intros HI HR He HpX Ev Eh Ek Ec Ein Hok Hheld [= E1 E2 E3 E4 E5 Ed Eu Et El].
  assert (Hd : forall q, is_Some (<[p := e']> (view s) !! q) <-> is_Some (view s !! q)).
  { intros q. rewrite lookup_insert_is_Some'. split; [|tauto]. intros [->|?]; [by eexists|done]. }
  split.
  - destruct HI as [I1 I2 I3 I4 I5 I6 I7 I8 I9 I10 I11]. split; rewrite ?Ev, ?E1, ?E2, ?E3, ?Eu, ?Et; try done.
    + eapply table_ok_same; [exact I2|]. intros q. by apply (hk_insert _ _ e).
    + intros q. rewrite Hd. apply I4.
    + intros q. rewrite Hd. apply I5.
    + intros q e1. rewrite lookup_insert_Some. intros [[<- <-]|[_ Hq]]; [done|by apply (I6 q)].
    + intros q e1. rewrite lookup_insert_Some. intros [[<- <-]|[_ Hq]]; [|by apply (I7 q)]. rewrite Ein. by apply (I7 p).
    + intros q e1. rewrite lookup_insert_Some. intros [[<- <-]|[_ Hq]]; [|by apply (I8 q)]. intros Hh. split; [|by apply Hheld].
      rewrite Ein. by apply (I8 p e).
    + by rewrite (sumc_insert _ _ e).
  - destruct HR as [R1 R2 R3 R4 R5]. split; cbn; rewrite ?Ev, ?Ed, ?E2, ?E4, ?E5, ?El, ?Et; try done.
    + intros q. destruct (decide (q = p)) as [->|Hq]; [by rewrite !lookup_insert_eq, decide_False|].
      by rewrite !lookup_insert_ne.
    + rewrite R4. do 2 f_equal. apply map_ext_in. intros q Hq%list_elem_of_In. rewrite lookup_insert_ne; [done|].
      intros <-. set_solver.
Qed.

(** ** Freeing *)

Lemma lru_not_limbo held X Y s p : INV held X Y s -> p ∈ lru_ s -> p ∉ held /\ p ∉ X ++ Y.
Proof.
  intros (HI & _ & HM) Hp. apply HM in Hp as [Hp _]. pose proof (ci_nodup _ _ _ _ HI) as HN.
  apply NoDup_app in HN as (_ & HN & _). specialize (HN p Hp). set_solver.
Qed.

Lemma wp_call_deleter k v Q s : Q tt (set_heap (heap s) (next_id s) (deleted s ++ [(k, v)]) s) -> wp (call_deleter k v) Q s.
Proof. done. Qed.

Lemma wp_dealloc p e Q s : heap s !! p = Some e ->
  Q tt (set_heap (base.delete p (heap s)) (next_id s) (deleted s) s) -> wp (dealloc p) Q s.
Proof. intros He HQ. unfold dealloc. wp_steps. eapply wp_deref; [exact He|]. by wp_steps. Qed.

Lemma Free_raw p e Q s : heap s !! p = Some e -> IS_PENDING e = false ->
  Q tt (set_heap (base.delete p (heap s)) (next_id s) (deleted s ++ deletion (to_obj e)) s) -> wp (Free p) Q s.
Proof.
  intros He Hpend HQ. unfold Free. wp_steps. eapply wp_deref; [exact He|]. wp_steps. unfold deletion, to_obj in HQ. cbn in HQ.
  rewrite Hpend. destruct (IS_SECONDARY_CACHE_COMPATIBLE e); cbn [negb andb]; [|destruct (has_deleter e)].
  - unfold when. wp_steps. destruct (value e) as [v|]; cbn in HQ; [apply wp_call_deleter|wp_steps; rewrite app_nil_r in HQ];
      by apply (wp_dealloc p e).
  - apply wp_call_deleter. by apply (wp_dealloc p e).
  - unfold when. wp_steps. rewrite app_nil_r in HQ. by apply (wp_dealloc p e).
Qed.

Section drop.
Context (held X Y X' Y' : list nat) (p : nat) (d : list (list Z * option Z)) (s : t S).
Context (HV : INV held X Y s) (Hp : X ++ Y ≡ₚ p :: X' ++ Y').
Let s' := set_heap (base.delete p (heap s)) (next_id s) d s.

Lemma drop_view : view s' = base.delete p (view s).
Proof. unfold view. cbn. by rewrite fmap_delete. Qed.
Lemma drop_perm : ids (table_ s) ++ held ++ X ++ Y ≡ₚ p :: ids (table_ s) ++ held ++ X' ++ Y'.
Proof. rewrite Hp. by rewrite <- !Permutation_middle. Qed.
Lemma drop_fresh : p ∉ ids (table_ s) ++ held ++ X' ++ Y'.
Proof. pose proof (ci_nodup _ _ _ _ (proj1 HV)) as HN. rewrite drop_perm in HN. by apply NoDup_cons in HN as [? _]. Qed.
Lemma drop_ne q : q ∈ ids (table_ s) ++ held ++ X' ++ Y' -> view s' !! q = view s !! q.
Proof. intros Hq. rewrite drop_view, lookup_delete_ne; [done|]. intros E. apply drop_fresh. by rewrite E. Qed.

Lemma drop_entry : INV held X' Y' s'.
Proof.
  pose proof HV as (HI & HL & HM). pose proof drop_perm as HP. pose proof drop_fresh as Hpn. pose proof drop_view as Ev. split_and!.
  - destruct HI as [I1 I2 I3 I4 I5 I6 I7 I8 I9 I10 I11]. split; try done.
    + eapply table_ok_hk; [exact I2|]. intros q Hq. unfold hk. rewrite drop_ne; [done|set_solver].
    + rewrite HP in I3. by apply NoDup_cons in I3 as [_ I3].
    + intros q. rewrite Ev, lookup_delete_is_Some, I4, HP, elem_of_cons. split; [intros [? [?|?]]; [congruence|done]|].
      intros Hq. split; [|by right]. intros E. by rewrite <- E in Hq.
    + intros q. rewrite Ev, lookup_delete_is_Some. intros [_ Hq]. by apply I5.
    + intros q e'. rewrite Ev, lookup_delete_Some. intros [_ Hq]. by apply (I6 q).
    + intros q e'. rewrite Ev, lookup_delete_Some. intros [_ Hq]. by apply (I7 q).
    + intros q e'. rewrite Ev, lookup_delete_Some. intros [_ Hq]. by apply (I8 q).
    + change (usage_ s') with (usage_ s). rewrite I9. apply sumc_ext. intros q Hq. unfold charge_of. rewrite drop_ne; [done|set_solver].
  - apply (lru_ok_frame s); [done| |..|done|done].
    + intros q Hq. cbn. rewrite lookup_delete_ne; [done|]. intros E. destruct (lru_not_limbo _ _ _ _ _ HV Hq) as [_ Hn].
      apply Hn. rewrite Hp, <- E. by left.
    + intros q e'. cbn. rewrite lookup_delete_Some. intros [_ Hq]. by apply (nonneg_heap _ _ _ _ HI q).
  - intros q. change (q ∈ lru_ s <-> q ∈ ids (table_ s) /\ exists e, view s' !! q = Some e /\ refs e = 0).
    rewrite (HM q). split; intros [Hq (e & He & Hr)]; (split; [done|exists e]); rewrite drop_ne in * by set_solver; done.
Qed.

Lemma R_drop a : R X Y a s -> log a = d ++ concat (map (fun p => from_option (fun e => deletion (to_obj e)) [] (view s !! p)) X') ->
  R X' Y' a s'.
Proof.
  intros [R1 R2 R3 R4 R5] Hlog. pose proof drop_fresh as Hpn. split; try done.
  - intros q. rewrite R1. destruct (decide (q = p)) as [->|Hq].
    + rewrite drop_view, lookup_delete_eq, decide_True by (rewrite Hp; by left). by case_decide.
    + rewrite drop_view, lookup_delete_ne by done. assert (q ∈ X ++ Y <-> q ∈ X' ++ Y') by (rewrite Hp, elem_of_cons; tauto).
      repeat case_decide; tauto.
  - rewrite Hlog. cbn [deleted s' set_heap]. do 2 f_equal. apply map_ext_in. intros q Hq%list_elem_of_In.
    rewrite drop_ne; [done|set_solver].
Qed.
End drop.

Lemma Free_ok held p X Y a s : INV held (p :: X) Y s -> R (p :: X) Y a s ->
  wp (Free p) (fun _ s' => INV held X Y s' /\ R X Y a s') s.
Proof.
  intros HV HR. pose proof (proj1 HV) as HI.
  assert (is_Some (view s !! p)) as [e He] by (apply (ci_dom _ _ _ _ HI); set_solver).
  pose proof (ci_entry _ _ _ _ HI _ _ He) as Hok. destruct (view_inv _ _ _ He) as (e0 & He0 & <-).
  apply (Free_raw p e0); [done|apply Hok|]. split; [by apply (drop_entry held (p :: X) Y)|].
  apply (R_drop held (p :: X) Y); [done|done|done|]. rewrite (r_log _ _ _ _ HR). simpl. by rewrite He, <- app_assoc.
Qed.

Lemma Free_all held X a s : INV held X [] s -> R X [] a s ->
  wp (for_each Free X) (fun _ s' => INV held [] [] s' /\ R [] [] a s') s.
Proof.
  intros HV HR. apply (wp_for_each Free (fun l s => INV held l [] s /\ R l [] a s)); [done|].
  intros p l s1 [H1 H2]. by apply Free_ok.
Qed.
Lemma TryInsert_ok held X a s : INV held X [] s -> R X [] a s ->
  wp (TryInsertIntoSecondaryCache X) (fun _ s' => INV held [] [] s' /\ R [] [] a s') s.
Proof.
  intros HV HR. unfold TryInsertIntoSecondaryCache. apply (wp_for_each _ (fun l s => INV held l [] s /\ R l [] a s)); [done|].
  intros p l s1 [H1 H2]. pose proof (proj1 H1) as HI.
  assert (is_Some (view s1 !! p)) as [e He] by (apply (ci_dom _ _ _ _ HI); set_solver).
  destruct (view_inv _ _ _ He) as (e0 & He0 & <-). wp_steps. eapply wp_deref; [exact He0|]. wp_steps.
  rewrite (ci_sec _ _ _ _ HI). wp_steps. by apply Free_ok.
Qed.

(** ** The hash table *)

Lemma set_table_id s : set_table (table_ s) s = s.
Proof. by destruct s. Qed.

Lemma table_Lookup_ok held X Y k s : core_inv held X Y s -> is_u 32 k.1 ->
  wp (table_Lookup k) (fun r s1 => s1 = s /\
    match r with Some p => p ∈ ids (table_ s) /\ hk (view s) p = k | None => forall p, p ∈ ids (table_ s) -> hk (view s) p <> k end) s.
Proof.
  intros HI Hk. eapply wp_table; [exact HI|]. rewrite set_table_id. split; [done|].
  pose proof (fun p => Lookup_spec (hk (heap s)) k (table_ s) p (table_ok_heap _ _ _ _ HI) Hk) as HL.
  destruct (LRUHandleTable.Lookup _ k (table_ s)) as [p|].
  - rewrite hk_view. by apply HL.
  - intros p Hp E. rewrite hk_view in E. by discriminate (proj2 (HL p) (conj Hp E)).
Qed.

Lemma table_Remove_ok held X Y k s : core_inv held X Y s -> is_u 32 k.1 ->
  wp (table_Remove k) (fun r s1 =>
    match r with
    | Some p => p ∈ ids (table_ s) /\ hk (view s) p = k /\
        exists tb, s1 = set_table tb s /\ table_ok (hk (view s)) tb /\ ids (table_ s) ≡ₚ p :: ids tb
    | None => s1 = s /\ forall p, p ∈ ids (table_ s) -> hk (view s) p <> k
    end) s.
Proof.
  intros HI Hk. eapply wp_table; [exact HI|]. pose proof (table_ok_heap _ _ _ _ HI) as HT.
  pose proof (Remove_spec (hk (heap s)) k (table_ s) HT Hk) as HR.
  pose proof (fun p => Lookup_spec (hk (heap s)) k (table_ s) p HT Hk) as HL.
  destruct (LRUHandleTable.Remove _ k (table_ s)) as [r tb]. destruct HR as (HT' & -> & HR).
  destruct (LRUHandleTable.Lookup _ k (table_ s)) as [p|].
  - destruct (proj1 (HL p) eq_refl) as [Hp Ek]. split; [done|]. split; [by rewrite hk_view|]. exists tb. split_and!; [done| |done].
    eapply table_ok_hk; [exact HT'|]. intros q _. apply hk_view.
  - subst tb. rewrite set_table_id. split; [done|]. intros p Hp E. rewrite hk_view in E. by discriminate (proj2 (HL p) (conj Hp E)).
Qed.

Lemma hk_lookup (h : gmap nat LRUHandle) p e : h !! p = Some e -> hk h p = (hash e, key e).
Proof. intros He. unfold hk. by rewrite He. Qed.

(** ** Eviction *)

Lemma unlink_not_in p l : p ∉ l -> unlink p l = l.
Proof.
  induction l as [|q l IH]; intros Hp; [done|]. apply not_elem_of_cons in Hp as [Hq Hp]. unfold unlink.
  rewrite filter_cons_True by done. f_equal. by apply IH.
Qed.
Lemma unlink_elem p q l : q ∈ unlink p l <-> q <> p /\ q ∈ l.
Proof. unfold unlink. by rewrite list_elem_of_filter. Qed.
Lemma unlink_idem p l : unlink p (unlink p l) = unlink p l.
Proof. apply unlink_not_in. rewrite unlink_elem. tauto. Qed.
Lemma unlink_middle p l1 l2 : NoDup (l1 ++ p :: l2) -> unlink p (l1 ++ p :: l2) = l1 ++ l2.
Proof.
  intros HN. apply NoDup_app in HN as (_ & HN1 & [HN2 _]%NoDup_cons). unfold unlink. rewrite filter_app, filter_cons_False by (intros E; by apply E).
  f_equal; [|by apply unlink_not_in]. apply unlink_not_in. intros Hp. apply (HN1 p Hp). by left.
Qed.

Lemma lru_nodup s : lru_ok s -> NoDup (lru_ s).
Proof. intros ((bot & low & hi & HP & _) & _). apply HP. Qed.

(** Unlinking an entry of the list. *)
Lemma LRU_Remove_unlink p s : lru_ok s -> p ∈ lru_ s ->
  wp (LRU_Remove p) (fun _ s' => lru_ok s' /\ core s' = core s /\ heap s' = heap s /\ lru_ s' = unlink p (lru_ s)) s.
Proof.
  intros HL Hp. eapply wp_mono; [by apply LRU_Remove_ok|]. intros [] s' (H1 & H2 & H3 & l1 & l2 & E1 & E2).
  split_and!; [done|done|done|]. rewrite E1, E2, unlink_middle; [done|]. rewrite <- E1. by apply lru_nodup.
Qed.

Lemma members_uncache held X Y s s' old : core_inv held X Y s -> members s -> ids (table_ s) ≡ₚ old :: ids (table_ s') ->
  lru_ s' = unlink old (lru_ s) -> (forall p, p <> old -> view s' !! p = view s !! p) -> members s'.
Proof.
  intros HI HM Hids El Ev q. pose proof (ci_nodup _ _ _ _ HI) as HN. apply NoDup_app in HN as (HN & _). rewrite Hids in HN.
  apply NoDup_cons in HN as [HN _]. rewrite El, unlink_elem, (HM q), Hids, elem_of_cons. split.
  - intros (Hq & [?|Hin] & e & He & Hr); [done|]. split; [done|]. exists e. by rewrite Ev.
  - intros (Hin & e & He & Hr). assert (Hq : q <> old) by (intros ->; done). rewrite Ev in He by done. split_and!; eauto.
Qed.

(** Only [p] changes. *)
Lemma members_change p s s' :
  (forall q, q <> p -> (q ∈ lru_ s <-> q ∈ ids (table_ s) /\ exists e, view s !! q = Some e /\ refs e = 0)) ->
  (forall q, q <> p -> (q ∈ ids (table_ s') <-> q ∈ ids (table_ s)) /\ view s' !! q = view s !! q /\ (q ∈ lru_ s' <-> q ∈ lru_ s)) ->
  (p ∈ lru_ s' <-> p ∈ ids (table_ s') /\ exists e, view s' !! p = Some e /\ refs e = 0) -> members s'.
Proof.
  intros HM Hq Hp q. destruct (decide (q = p)) as [->|Hne]; [done|]. destruct (Hq q Hne) as (E1 & E2 & E3).
  by rewrite E1, E2, E3, (HM q Hne).
Qed.

(** Entries in [Y] are as before, and nothing has grown. *)
Definition shrunk (Y : list nat) s s' : Prop :=
  (forall p, p ∈ Y -> heap s' !! p = heap s !! p) /\ usage_ s' <= usage_ s /\
  (length (ids (table_ s')) <= length (ids (table_ s)))%nat.

Lemma shrunk_trans Y s1 s2 s3 : shrunk Y s1 s2 -> shrunk Y s2 s3 -> shrunk Y s1 s3.
Proof. intros (A1 & A2 & A3) (B1 & B2 & B3). split_and!; [|lia|lia]. intros p Hp. by rewrite B1, A1. Qed.

Lemma evict_ok held X Y a s old l : INV held X Y s -> R X Y a s -> lru_ s = old :: l ->
  wp (evict old) (fun _ s' => INV held (X ++ [old]) Y s' /\ R (X ++ [old]) Y (free1 a old) s' /\ lru_ s' = l /\
    shrunk Y s s') s.
Proof.
  intros HV HR El. pose proof HV as (HI & HL & HM). assert (Hold : old ∈ lru_ s) by (rewrite El; by left).
  assert (Eu : unlink old (lru_ s) = l).
  { rewrite El. apply (unlink_middle old [] l). simpl. rewrite <- El. by apply lru_nodup. }
  unfold evict. wp_steps. eapply wp_mono; [by apply LRU_Remove_unlink|]. intros [] s1 (HL1 & HC1 & Eh1 & E1).
  pose proof (core_inv_core _ _ _ _ _ HC1 HI) as HI1. pose proof (R_core _ _ _ _ _ HC1 HR) as HR1.
  destruct (core_eqs _ _ HC1) as (Ev & Eid & Ed & Ecap & Est & Et & Eus & Esec).
  destruct (proj1 (HM old) Hold) as [Hin (e & He & Hr)]. rewrite <- Ev in He. destruct (view_inv _ _ _ He) as (e0 & He0 & <-).
  wp_steps. eapply wp_deref; [exact He0|]. wp_steps.
  eapply wp_mono; [apply (table_Remove_ok held X Y (hash e0, key e0) s1 HI1); apply (ci_entry _ _ _ _ HI1 _ _ He)|].
  intros r s2 Hrm. destruct r as [p|]; [|by destruct (proj2 Hrm old); [rewrite Et|exact (hk_lookup _ _ _ He)]].
  destruct Hrm as (Hp & Ek & tb & -> & HT & Hids).
  assert (p = old) as ->.
  { apply (hk_inj (hk (view s1)) (table_ s1)); [apply HI1|done|by rewrite Et|]. by rewrite Ek, (hk_lookup _ _ _ He). }
  wp_steps. apply (wp_update old e0); [exact He0|]. wp_steps. set (s3 := set_usage _ _ _).
  assert (Ev3 : view s3 = <[old := Handle.SetInCache false (noflags e0)]> (view s1)) by (unfold view; cbn; by rewrite fmap_insert).
  assert (Hn : old ∉ lru_ s1) by (rewrite E1, unlink_elem; tauto).
  destruct (uncache_free held X Y _ s1 s3 old (noflags e0) HI1 HR1) as (HI3 & HR3 & Hus); try done.
  { cbn. by rewrite unlink_not_in. }
  assert (Ea : free1 (with_objs (objs a) (cached a) (lru_ s1) a) old = free1 a old).
  { unfold free1. cbn [order objs cached log capacity strict high_pool with_objs]. by rewrite E1, unlink_idem, (r_order _ _ _ _ HR). }
  assert (HoldY : old ∉ Y) by (destruct (lru_not_limbo _ _ _ _ _ HV Hold); set_solver).
  rewrite Ea in HR3. split_and!; [split_and!; [done| |]|done|cbn; congruence|split_and!].
  - apply (lru_ok_frame s1); [done| |by apply (nonneg_heap _ _ _ _ HI3)|done|done].
    intros q Hq. cbn. rewrite lookup_insert_ne; [done|]. by intros ->.
  - apply (members_uncache held X Y s s3 old); [done|done|by rewrite <- Et|cbn; congruence|].
    intros q Hq. by rewrite Ev3, lookup_insert_ne, Ev.
  - intros q Hq. cbn. rewrite lookup_insert_ne, Eh1; [done|]. by intros ->.
  - pose proof (proj1 (ci_entry _ _ _ _ HI1 _ _ He)). lia.
  - rewrite <- Et, Hids. cbn. lia.
Qed.

Lemma free_limits D a : capacity (free D a) = capacity a /\ strict (free D a) = strict a /\ high_pool (free D a) = high_pool a.
Proof. revert a. induction D as [|d D IH]; intros a; [done|]. exact (IH (free1 a d)). Qed.

Lemma evicts_nil c a : total (objs a) + c <= capacity a \/ order a = [] -> evicts c a [].
Proof.
  intros Hc. split_and!; [apply prefix_nil| |].
  - intros D' d E. by destruct D'.
  - simpl. intros Hlt. destruct Hc as [|E]; [lia|done].
Qed.
Lemma evicts_cons c a old l D : order a = old :: l -> order (free1 a old) = l -> capacity a < total (objs a) + c ->
  evicts c (free1 a old) D -> evicts c a (old :: D).
Proof.
  intros E1 E2 Hc (H1 & H2 & H3). split_and!.
  - rewrite E1. apply prefix_cons. by rewrite E2 in H1.
  - intros [|x D'] d E; [exact Hc|]. injection E as <- E. exact (H2 D' d E).
  - intros Hlt. rewrite E1. f_equal. rewrite <- E2. exact (H3 Hlt).
Qed.

Lemma EvictFromLRU_loop_ok fuel c held acc Y a s : INV held acc Y s -> R acc Y a s -> (length (lru_ s) < fuel)%nat ->
  0 <= c < 2 ^ 53 ->
  wp (EvictFromLRU_loop fuel c acc) (fun acc' s' => exists D, acc' = acc ++ D /\ INV held acc' Y s' /\ R acc' Y (free D a) s' /\
    evicts c a D /\ shrunk Y s s' /\ (usage_ s' + c <= capacity_ s' \/ lru_ s' = [])) s.
Proof.
  revert acc a s. induction fuel as [|fuel IH]; intros acc a s HV HR Hf Hc; [lia|]. simpl. wp_steps.
  pose proof (proj1 HV) as HI. pose proof (R_total _ _ _ _ _ HI HR) as Ht. destruct (r_limits _ _ _ _ HR) as (Ecap & _).
  pose proof (ci_bound _ _ _ _ HI) as Hb. assert (0 <= usage_ s).
  { rewrite (ci_usage _ _ _ _ HI). apply sumc_nonneg. intros q e' Hq. by apply (ci_entry _ _ _ _ HI _ _ Hq). }
  rewrite u64_small by lia.
  assert (Hstop : usage_ s + c <= capacity_ s \/ lru_ s = [] -> wp (mret acc) (fun acc' s' => exists D, acc' = acc ++ D /\
    INV held acc' Y s' /\ R acc' Y (free D a) s' /\ evicts c a D /\ shrunk Y s s' /\ (usage_ s' + c <= capacity_ s' \/ lru_ s' = [])) s).
  { intros Hs. wp_steps. exists []. rewrite app_nil_r. split_and!; try done. apply evicts_nil.
    by rewrite Ht, Ecap, (r_order _ _ _ _ HR). }
  destruct (Z.ltb_spec (capacity_ s) (usage_ s + c)) as [Hlt|Hge]; [|by apply Hstop; left].
  destruct (lru_ s) as [|old l] eqn:El; [by apply Hstop; right|].
  wp_steps. eapply wp_mono; [by eapply evict_ok|]. intros [] s1 (HV1 & HR1 & El1 & Hsh1).
  eapply wp_mono; [apply (IH _ (free1 a old)); [done|done|rewrite El1; simpl in Hf; lia|done]|].
  cbv beta. intros acc' s2 (D & -> & HV2 & HR2 & Hev & Hsh2 & Hend). exists (old :: D). rewrite <- app_assoc in *. split_and!; try done.
  - eapply evicts_cons; [by rewrite (r_order _ _ _ _ HR), El| |lia|done]. by rewrite (r_order _ _ _ _ HR1), El1.
  - by eapply shrunk_trans.
Qed.

Lemma EvictFromLRU_ok c held Y a s : INV held [] Y s -> R [] Y a s -> 0 <= c < 2 ^ 53 ->
  wp (EvictFromLRU c) (fun D s' => INV held D Y s' /\ R D Y (free D a) s' /\ evicts c a D /\ shrunk Y s s' /\
    (usage_ s' + c <= capacity_ s' \/ lru_ s' = [])) s.
Proof.
  intros HV HR Hc. unfold EvictFromLRU. wp_steps. eapply wp_mono; [by apply EvictFromLRU_loop_ok; [exact HV|exact HR|lia|]|].
  cbv beta. by intros acc' s' (D & -> & ?).
Qed.

Lemma EraseUnRefEntries_loop_ok fuel held acc a s : INV held acc [] s -> R acc [] a s -> (length (lru_ s) < fuel)%nat ->
  wp (EraseUnRefEntries_loop fuel acc) (fun acc' s' => INV held acc' [] s' /\ R acc' [] (free (lru_ s) a) s' /\ lru_ s' = []) s.
Proof.
  revert acc a s. induction fuel as [|fuel IH]; intros acc a s HV HR Hf; [lia|]. simpl. wp_steps.
  destruct (lru_ s) as [|old l] eqn:El; [by wp_steps|].
  wp_steps. eapply wp_mono; [by eapply evict_ok|]. intros [] s1 (HV1 & HR1 & El1 & _).
  eapply wp_mono; [apply (IH _ (free1 a old)); [done|done|rewrite El1; simpl in Hf; lia]|]. by rewrite El1.
Qed.
End proofs.
