(* ===== verification/LruRefine.v ===== *)
(** * The LRU cache shard refines its specification

    Every operation of the shard, without a secondary cache, and their sequences. *)

From stdpp Require Import prelude gmap.
From Stdlib Require Import ZArith Lia Bool SpecFloat.
From S2P Require Import Prelude Float64 Status StateMonad LruTable LruCache LruPools LruSpec LruProofs.
Import LRUCacheShard.

Section refine.
Context {S : Type} `{SecondaryCache S} `{Config}.
Implicit Types (s : t S) (a : spec).

(** The shard's invariant: whatever exceeds the capacity is referenced. *)
Definition inv s : Prop := (exists held, INV held [] [] s) /\ (usage_ s <= capacity_ s \/ lru_ s = []).

Lemma R_abs s : R [] [] (abs s) s.
Proof.
  split; cbn; [|..|done].
  - intros p. rewrite decide_False by apply not_elem_of_nil. unfold view. rewrite !lookup_fmap. by destruct (heap s !! p).
  - intros p. apply elem_of_list_to_set.
  - done.
  - by rewrite app_nil_r.
Qed.
Lemma R_eq a s : R [] [] a s -> a = abs s.
Proof.
  intros HR. pose proof (R_abs s) as HA. destruct a as [o c l g cp st hp].
  destruct HR as [R1 R2 R3 R4 [R5 [R6 R7]]]. destruct HA as [A1 A2 A3 A4 _]. cbn in *. unfold abs. f_equal; try done.
  - apply map_eq. intros p. by rewrite R1, A1.
  - apply set_eq. intros p. by rewrite R2, A2.
  - by rewrite R4, app_nil_r.
Qed.

(** ** A new entry *)

Lemma nodup_fresh held X Y s p : core_inv held X Y s -> heap s !! p = None -> p ∉ ids (table_ s) ++ held ++ X ++ Y.
Proof.
  intros HI Hp Hin. apply (ci_dom _ _ _ _ HI) in Hin as [e He]. apply view_inv in He as (e' & He & _). congruence.
Qed.

Lemma fresh_id held X Y s : core_inv held X Y s -> heap s !! next_id s = None.
Proof.
  intros HI. destruct (heap s !! next_id s) as [e|] eqn:E; [|done].
  pose proof (ci_fresh _ _ _ _ HI (next_id s) (mk_is_Some _ _ (view_lookup _ _ _ E))). lia.
Qed.

Lemma view_insert p e n d s : view (set_heap (<[p := e]> (heap s)) n d s) = <[p := noflags e]> (view s).
Proof. unfold view. cbn. by rewrite fmap_insert. Qed.

Lemma new_entry held s e p : INV held [] [] s -> entry_ok e -> p = next_id s ->
  let s' := set_heap (<[p := e]> (heap s)) (Datatypes.S p) (deleted s) s in
  INV held [] [p] s' /\ R [] [p] (abs s) s'.
Proof.
  intros HV Hok Ep s'. pose proof HV as (HI & HL & HM). pose proof (fresh_id _ _ _ _ HI) as Hp. rewrite <- Ep in Hp.
  pose proof (nodup_fresh _ _ _ _ _ HI Hp) as Hnin. pose proof (view_insert p e (Datatypes.S p) (deleted s) s) as Ev. fold s' in Ev.
  assert (Hvp : view s !! p = None) by (unfold view; by rewrite lookup_fmap, Hp).
  rewrite app_nil_r in Hnin. assert (Hne : forall q, q <> p -> view s' !! q = view s !! q) by (intros q Hq; by rewrite Ev, lookup_insert_ne).
  assert (Hnp : forall q, q ∈ ids (table_ s) ++ held -> q <> p) by (intros q Hq ->; done).
  split; [split_and!|].
  - destruct HI as [I1 I2 I3 I4 I5 I6 I7 I8 I9 I10 I11]. rewrite app_nil_r in I3. split; try done.
    + eapply table_ok_hk; [exact I2|]. intros q Hq. unfold hk. rewrite Hne; [done|]. apply Hnp. set_solver.
    + simpl. rewrite app_assoc. apply NoDup_app. split_and!; [done| |apply NoDup_singleton]. intros q Hq. set_solver.
    + intros q. rewrite Ev, lookup_insert_is_Some', I4, app_nil_r. cbn. rewrite app_assoc, (elem_of_app _ [p]), list_elem_of_singleton.
      split; intros [?|?]; auto.
    + intros q. rewrite Ev, lookup_insert_is_Some'. cbn. intros [<-|Hq%I5]; lia.
    + intros q e'. rewrite Ev, lookup_insert_Some. intros [[<- <-]|[_ Hq]]; [done|by apply (I6 q)].
    + intros q e' Hq Hin. rewrite Hne in Hq by (apply Hnp; set_solver). by apply (I7 q).
    + intros q e' Hq Hin. rewrite Hne in Hq by (apply Hnp; set_solver). by apply (I8 q).
    + change (usage_ s') with (usage_ s). rewrite I9. apply sumc_ext. intros q Hq. unfold charge_of. by rewrite Hne by (by apply Hnp).
  - apply (lru_ok_frame s); [done| |..|done|done].
    + intros q Hq. cbn. rewrite lookup_insert_ne; [done|]. intros <-. apply HM in Hq as [Hq _]. set_solver.
    + intros q e'. cbn. rewrite lookup_insert_Some. intros [[<- <-]|[_ Hq]]; [apply Hok|by apply (nonneg_heap _ _ _ _ HI q)].
  - apply (members_change p s); [by intros q _; apply HM| |].
    + intros q Hq. by rewrite Hne.
    + change (lru_ s') with (lru_ s). change (table_ s') with (table_ s). split; [|intros [Hq _]; set_solver].
      intros Hq. apply HM in Hq as [Hq _]. set_solver.
  - destruct (R_abs s) as [R1 R2 R3 R4 R5]. split; try done. intros q. rewrite R1. cbn [app].
    rewrite decide_False by apply not_elem_of_nil. case_decide as Hq.
    + apply list_elem_of_singleton in Hq as ->. by rewrite Hvp.
    + rewrite Hne; [done|]. intros ->. apply Hq. by left.
Qed.

(** ** A new entry in place of another *)

Section replace.
Context (held X : list nat) (a : spec) (s s' : t S) (p old : nat) (e eo : LRUHandle).
Context (HI : core_inv held X [p] s) (HR : R X [p] a s) (He : view s !! p = Some e) (Hin : IN_CACHE e = true)
  (Heo : view s !! old = Some eo) (Hold : old ∈ ids (table_ s)).
Context (HT : table_ok (hk (view s)) (table_ s')) (Hids : old :: ids (table_ s') ≡ₚ p :: ids (table_ s)).
Context (Ev : view s' = <[old := Handle.SetInCache false eo]> (view s)) (Est : statics s' = statics s)
  (Ed : deleted s' = deleted s) (Hbound : usage_ s + total_charge e < 2 ^ 53).

(** The state with [old] removed and [p] not yet inserted. *)
Definition between (tb : LRUHandleTable.t) (l : list nat) (u : Z) : t S :=
  set_lru l None None (set_usage u 0
    (set_heap (<[old := Handle.SetInCache false (default eo (heap s !! old))]> (heap s)) (next_id s) (deleted s) (set_table tb s))).

Lemma between_view tb l u : view (between tb l u) = view s'.
Proof.
  rewrite Ev. destruct (view_inv _ _ _ Heo) as (eo' & Heo' & <-). unfold between, view. cbn. rewrite Heo', fmap_insert. done.
Qed.

Lemma replace_tables : exists tb, table_ok (hk (view s)) tb /\ ids (table_ s) ≡ₚ old :: ids tb /\ ids (table_ s') ≡ₚ p :: ids tb.
Proof.
  pose proof (ci_table _ _ _ _ HI) as HT0. pose proof (ci_entry _ _ _ _ HI _ _ Heo) as Hok.
  pose proof (Remove_spec (hk (view s)) (hash eo, key eo) (table_ s) HT0 (proj1 (proj2 Hok))) as HRm.
  destruct (LRUHandleTable.Remove _ _ _) as [r tb]. destruct HRm as (HTb & -> & HRm).
  rewrite (proj2 (Lookup_spec (hk (view s)) (hash eo, key eo) _ old HT0 (proj1 (proj2 Hok)))) in HRm.
  - exists tb. split_and!; [done|done|]. apply (Permutation_cons_inv (a := old)). rewrite Hids, HRm. apply perm_swap.
  - split; [done|]. by apply hk_lookup.
Qed.

Lemma replace_charges : 0 <= total_charge e /\ 0 <= total_charge eo /\ total_charge eo <= usage_ s.
Proof.
  split_and!; [apply (ci_entry _ _ _ _ HI _ _ He)|apply (ci_entry _ _ _ _ HI _ _ Heo)|].
  rewrite (ci_usage _ _ _ _ HI). apply list_elem_of_split in Hold as (l1 & l2 & ->). rewrite <- app_assoc. cbn [app].
  rewrite <- Permutation_middle. cbn. fold (sumc (view s) (l1 ++ l2 ++ held)).
  assert (0 <= sumc (view s) (l1 ++ l2 ++ held)) by (apply sumc_nonneg; intros q e' Hq; by apply (ci_entry _ _ _ _ HI _ _ Hq)).
  assert (charge_of (view s) old = total_charge eo) by (unfold charge_of; by rewrite Heo). lia.
Qed.

Definition add_obj (a2 : spec) : spec := with_objs (<[p := to_obj e]> (objs a2)) ({[p]} ∪ cached a2) (order a2) a2.

Lemma replace_free : usage_ s' = usage_ s + total_charge e - total_charge eo -> lru_ s' = unlink old (lru_ s) ->
  core_inv held (X ++ [old]) [] s' /\ R (X ++ [old]) [] (add_obj (free1 a old)) s'.
Proof.
  intros Eu El. destruct replace_tables as (tb & HTb & Hids1 & Hids2). pose proof replace_charges as Hc.
  assert (p <> old) by (intros <-; pose proof (ci_nodup _ _ _ _ HI) as HN; apply NoDup_app in HN as (_ & HN & _); by apply (HN p Hold); set_solver).
  set (s1 := between tb (unlink old (lru_ s)) (u64 (usage_ s - total_charge eo))).
  assert (Ev1 : view s1 = view s') by apply between_view.
  destruct (uncache_free held X [p] a s s1 old eo) as (HI1 & HR1 & Eu1); try done; [by rewrite Ev1|].
  apply (cache_new held (X ++ [old]) _ s1 s' p e); try done.
  - by rewrite Ev1, Ev, lookup_insert_ne.
  - eapply table_ok_same; [exact HT|]. intros q. rewrite Ev1, Ev. by apply (hk_insert _ _ eo).
  - rewrite Eu1, u64_small; lia.
  - lia.
Qed.

Lemma replace_hold : usage_ s' = usage_ s + total_charge e -> lru_ s' = lru_ s -> 0 < refs eo ->
  core_inv (old :: held) X [] s' /\ R X [] (add_obj (with_objs (objs a) (cached a ∖ {[old]}) (order a) a)) s'.
Proof.
  intros Eu El Hr. destruct replace_tables as (tb & HTb & Hids1 & Hids2). pose proof replace_charges as Hc.
  assert (p <> old) by (intros <-; pose proof (ci_nodup _ _ _ _ HI) as HN; apply NoDup_app in HN as (_ & HN & _); by apply (HN p Hold); set_solver).
  set (s1 := between tb (lru_ s) (usage_ s)).
  assert (Ev1 : view s1 = view s') by apply between_view.
  destruct (uncache_hold held X [p] a s s1 old eo) as (HI1 & HR1); try done; [by rewrite Ev1|].
  apply (cache_new (old :: held) X _ s1 s' p e); try done.
  - by rewrite Ev1, Ev, lookup_insert_ne.
  - eapply table_ok_same; [exact HT|]. intros q. rewrite Ev1, Ev. by apply (hk_insert _ _ eo).
  - rewrite u64_small; cbn; lia.
Qed.
End replace.

Lemma table_Insert_ok held X Y p e s : core_inv held X Y s -> view s !! p = Some e ->
  LRUHandleTable.elems_ (table_ s) + 1 < 2 ^ 32 ->
  wp (table_Insert p) (fun r s1 => exists tb, s1 = set_table tb s /\ table_ok (hk (view s)) tb /\
    match r with
    | Some o => o ∈ ids (table_ s) /\ hk (view s) o = (hash e, key e) /\ o :: ids tb ≡ₚ p :: ids (table_ s)
    | None => (forall q, q ∈ ids (table_ s) -> hk (view s) q <> (hash e, key e)) /\ ids tb ≡ₚ p :: ids (table_ s)
    end) s.
Proof.
  intros HI He Hn. eapply wp_table; [exact HI|]. pose proof (table_ok_heap _ _ _ _ HI) as HT.
  assert (Ek : hk (heap s) p = (hash e, key e)) by (rewrite <- hk_view; by apply hk_lookup).
  pose proof (proj1 (proj2 (ci_entry _ _ _ _ HI _ _ He))) as Hh.
  assert (Hu : is_u 32 (hk (heap s) p).1) by (by rewrite Ek).
  pose proof (Insert_spec (hk (heap s)) p (table_ s) HT Hu Hn) as HS.
  pose proof (fun q => Lookup_spec (hk (heap s)) (hk (heap s) p) (table_ s) q HT Hu) as HL.
  destruct (LRUHandleTable.Insert _ p (table_ s)) as [r tb]. destruct HS as (HT' & Er & HS). exists tb. split; [done|].
  split; [eapply table_ok_hk; [exact HT'|]; intros q _; apply hk_view|]. destruct r as [o|].
  - destruct (proj1 (HL o) (eq_sym Er)) as [Ho Eo]. split_and!; [done|by rewrite hk_view, Eo|done].
  - split; [|done]. intros q Hq E. rewrite hk_view, <- Ek in E. pose proof (proj2 (HL q) (conj Hq E)). congruence.
Qed.

(** ** Insertion *)

(** Moving a new entry to those to be freed. *)
Lemma INV_free_new held D p s : INV held D [p] s -> INV held (D ++ [p]) [] s.
Proof.
  intros (HI & HL & HM). split_and!; [|done|done]. destruct HI as [I1 I2 I3 I4 I5 I6 I7 I8 I9 I10 I11].
  split; try done; by rewrite app_nil_r.
Qed.

(** The flag [IN_CACHE] of an entry outside the table. *)
Lemma uncached_new held D p e a s : INV held D [p] s -> R D [p] a s -> heap s !! p = Some e ->
  let s' := set_heap (<[p := Handle.SetInCache false e]> (heap s)) (next_id s) (deleted s) s in
  INV held D [p] s' /\ R D [p] a s'.
Proof.
  intros HV HR He s'. pose proof HV as (HI & HL & HM).
  pose proof (view_insert p (Handle.SetInCache false e) (next_id s) (deleted s) s) as Ev. fold s' in Ev.
  pose proof (view_lookup _ _ _ He) as Hv. pose proof (ci_nodup _ _ _ _ HI) as HN.
  assert (Hp : p ∉ ids (table_ s) ++ held ++ D) by (rewrite !app_assoc, <- Permutation_cons_append in HN; apply NoDup_cons in HN as [HN _]; set_solver).
  assert (Hne : forall q, q <> p -> view s' !! q = view s !! q) by (intros q Hq; by rewrite Ev, lookup_insert_ne).
  assert (Hd : forall q, is_Some (view s' !! q) <-> is_Some (view s !! q)).
  { intros q. rewrite Ev, lookup_insert_is_Some'. split; [|tauto]. intros [->|?]; [by eexists|done]. }
  split; [split_and!|].
  - destruct HI as [I1 I2 I3 I4 I5 I6 I7 I8 I9 I10 I11]. split; try done.
    + eapply table_ok_same; [exact I2|]. intros q. rewrite Ev. by apply (hk_insert _ _ (noflags e)).
    + intros q. rewrite Hd. apply I4.
    + intros q. rewrite Hd. apply I5.
    + intros q e'. rewrite Ev, lookup_insert_Some. intros [[<- <-]|[_ Hq]]; [exact (I6 _ _ Hv)|by apply (I6 q)].
    + intros q e' Hq Hin. rewrite Hne in Hq by (intros ->; set_solver). by apply (I7 q).
    + intros q e' Hq Hin. rewrite Hne in Hq by (intros ->; set_solver). by apply (I8 q).
    + change (usage_ s') with (usage_ s). by rewrite Ev, (sumc_insert _ _ (noflags e)).
  - apply (lru_ok_frame s); [done| |..|done|done].
    + intros q Hq. cbn. destruct (lru_not_limbo _ _ _ _ _ HV Hq). rewrite lookup_insert_ne; [done|]. intros <-. set_solver.
    + intros q e'. cbn. rewrite lookup_insert_Some. intros [[<- <-]|[_ Hq]]; [|by apply (nonneg_heap _ _ _ _ HI q)].
      exact (nonneg_heap _ _ _ _ HI p e He).
  - apply (members_change p s); [by intros q _; apply HM| |].
    + intros q Hq. by rewrite Hne.
    + change (lru_ s') with (lru_ s). change (table_ s') with (table_ s). rewrite (HM p). split; intros [Hq _]; set_solver.
  - destruct HR as [R1 R2 R3 R4 R5]. split; try done.
    + intros q. rewrite R1. case_decide as Hq; [done|]. rewrite Hne; [done|]. intros ->. set_solver.
    + rewrite R4. cbn [deleted s' set_heap]. do 2 f_equal. apply map_ext_in. intros q Hq%list_elem_of_In.
      rewrite Hne; [done|]. intros ->. set_solver.
Qed.

Lemma reject_ok held D p e a s handle : INV held D [p] s -> R D [p] a s -> heap s !! p = Some e ->
  wp (reject_item p handle true D) (fun res s' => exists X, res.2 = X /\ INV held X [] s' /\ lru_ s' = lru_ s /\
    usage_ s' = usage_ s /\ capacity_ s' = capacity_ s /\
    if handle then res.1 = (mkStatus kAborted kMemoryLimit, None) /\ R X [] a s'
    else res.1 = (St.OK, None) /\
         R X [] (mkSpec (objs a) (cached a) (order a) (log a ++ deletion (to_obj e)) (capacity a) (strict a) (high_pool a)) s') s.
Proof.
  intros HV HR He. unfold reject_item. wp_steps. apply (wp_update p e); [done|].
  destruct (uncached_new held D p e a s HV HR He) as [HV1 HR1]. set (s1 := set_heap _ _ _ s) in *.
  assert (Hp1 : heap s1 !! p = Some (Handle.SetInCache false e)) by (cbn; apply lookup_insert_eq).
  destruct handle; cbn [negb]; wp_steps.
  - eapply wp_dealloc; [exact Hp1|]. wp_steps. exists D. cbn [fst snd]. split_and!; try done.
    + apply (drop_entry held D [p] D []); [done|]. by rewrite app_nil_r, <- Permutation_cons_append.
    + apply (R_drop held D [p] D []); [done|by rewrite app_nil_r, <- Permutation_cons_append|done|]. by rewrite (r_log _ _ _ _ HR1).
  - exists (D ++ [p]). split_and!; try done; [by apply INV_free_new|].
    destruct HR1 as [R1 R2 R3 R4 R5]. split; try done.
    + intros q. cbn. rewrite R1, app_nil_r. done.
    + cbn [log]. rewrite R4, map_app, concat_app, app_assoc. f_equal. cbn [map concat].
      rewrite (view_lookup _ _ _ Hp1), app_nil_r. done.
Qed.

Lemma R_obj X Y a s q e : R X Y a s -> q ∉ X ++ Y -> view s !! q = Some e -> objs a !! q = Some (to_obj e).
Proof. intros HR Hq He. by rewrite (r_objs _ _ _ _ HR), decide_False, He. Qed.

Lemma ids_live held X Y s q : core_inv held X Y s -> q ∈ ids (table_ s) -> q ∉ X ++ Y /\ exists e, view s !! q = Some e.
Proof.
  intros HI Hq. pose proof (ci_nodup _ _ _ _ HI) as HN. apply NoDup_app in HN as (_ & HN & _). specialize (HN q Hq).
  split; [set_solver|]. apply (ci_dom _ _ _ _ HI). set_solver.
Qed.

Lemma bound_R held X Y a s k r : core_inv held X Y s -> R X Y a s ->
  match r with Some q => q ∈ ids (table_ s) /\ hk (view s) q = k | None => forall q, q ∈ ids (table_ s) -> hk (view s) q <> k end ->
  bound a k r.
Proof.
  intros HI HR Hr. destruct r as [q|]; cbn.
  - destruct Hr as [Hq Ek]. split; [by apply (r_cached _ _ _ _ HR)|]. destruct (ids_live _ _ _ _ _ HI Hq) as (Hn & e & He).
    exists (to_obj e). split; [by apply (R_obj X Y a s)|]. by rewrite (hk_lookup _ _ _ He) in Ek.
  - intros q o Hq Ho E. apply (r_cached _ _ _ _ HR) in Hq. destruct (ids_live _ _ _ _ _ HI Hq) as (Hn & e & He).
    rewrite (R_obj X Y a s q e HR Hn He) in Ho. injection Ho as <-. apply (Hr q Hq). by rewrite (hk_lookup _ _ _ He).
Qed.

Definition members_but (p : nat) s : Prop :=
  p ∉ lru_ s /\ forall q, q <> p -> (q ∈ lru_ s <-> q ∈ ids (table_ s) /\ exists e, view s !! q = Some e /\ refs e = 0).

(** The state once the new entry [p] is in the table. *)
Definition entered (held : list nat) (D : list nat) (p : nat) (e : LRUHandle) a s (st : Status) (X : list nat) s' : Prop :=
  exists held' old, core_inv held' X [] s' /\ lru_ok s' /\ members_but p s' /\ bound a (hash e, key e) old /\
    st = match old with Some _ => mkStatus kOk kOverwritten | None => St.OK end /\
    R X [] (add_obj p (noflags e) (match old with Some q => unbind q a | None => a end)) s' /\
    view s' !! p = Some (noflags e) /\ p ∈ ids (table_ s') /\ usage_ s' <= usage_ s + total_charge e /\
    (lru_ s = [] -> lru_ s' = []) /\ capacity_ s' = capacity_ s.

Section enter.
Context (held D : list nat) (p : nat) (e : LRUHandle) (a : spec) (s : t S).
Context (HV : INV held D [p] s) (HR : R D [p] a s) (He : heap s !! p = Some e) (Hin : IN_CACHE e = true).
Context (Hb : usage_ s + total_charge e < 2 ^ 53).

Lemma enter_fresh : p ∉ ids (table_ s) /\ p ∉ held /\ p ∉ D /\ p ∉ lru_ s.
Proof.
  pose proof (ci_nodup _ _ _ _ (proj1 HV)) as HN. rewrite !app_assoc, <- Permutation_cons_append in HN.
  apply NoDup_cons in HN as [HN _]. split_and!; try set_solver. intros Hp. apply (proj2 (proj2 HV)) in Hp as [Hp _]. set_solver.
Qed.

Lemma enter_sums : 0 <= usage_ s /\ 0 <= total_charge e.
Proof.
  pose proof (proj1 HV) as HI. split; [|apply (nonneg_heap _ _ _ _ HI p e He)]. rewrite (ci_usage _ _ _ _ HI). apply sumc_nonneg.
  intros q e' Hq. by apply (ci_entry _ _ _ _ HI _ _ Hq).
Qed.

Lemma enter_new tb : table_ok (hk (view s)) tb -> ids tb ≡ₚ p :: ids (table_ s) ->
  (forall q, q ∈ ids (table_ s) -> hk (view s) q <> (hash e, key e)) ->
  entered held D p e a s St.OK D (set_usage (u64 (usage_ s + total_charge e)) (lru_usage_ s) (set_table tb s)).
Proof.
  intros HT Hids Hnone. pose proof HV as (HI & HL & HM). destruct enter_fresh as (F1 & F2 & F3 & F4). pose proof enter_sums.
  set (s' := set_usage _ _ _). pose proof (view_lookup _ _ _ He) as Hv.
  destruct (cache_new held D a s s' p (noflags e)) as [HI' HR']; try done.
  exists held, None. split_and!; try done.
  - apply (lru_ok_frame s); [done|done|by apply (nonneg_heap _ _ _ _ HI')|done|done].
  - split; [exact F4|]. intros q Hq. change (q ∈ lru_ s <-> q ∈ ids tb /\ exists e, view s !! q = Some e /\ refs e = 0). rewrite (HM q), Hids, elem_of_cons.
    split; [tauto|]. intros [[?|?] ?]; [done|tauto].
  - by apply (bound_R held D [p] a s).
  - change (p ∈ ids tb). rewrite Hids. by left.
  - cbn. rewrite u64_small by lia. lia.
Qed.

(** The entry [old] with the same key. *)
Context (old : nat) (eo : LRUHandle) (tb : LRUHandleTable.t).
Context (Hold : old ∈ ids (table_ s)) (Heo : heap s !! old = Some eo) (Hk : hk (view s) old = (hash e, key e)).
Context (HT : table_ok (hk (view s)) tb) (Hids : old :: ids tb ≡ₚ p :: ids (table_ s)).

Let s1 := set_heap (<[old := Handle.SetInCache false eo]> (heap s)) (next_id s) (deleted s)
  (set_usage (u64 (usage_ s + total_charge e)) (lru_usage_ s) (set_table tb s)).

Lemma enter_neq : p <> old.
Proof. destruct enter_fresh as (F1 & _). by intros ->. Qed.

Lemma enter_view : view s1 = <[old := Handle.SetInCache false (noflags eo)]> (view s).
Proof. unfold view. cbn. by rewrite fmap_insert. Qed.

Lemma enter_ids q : q <> p -> q <> old -> q ∈ ids tb <-> q ∈ ids (table_ s).
Proof.
  intros Hp Ho. assert (E : q ∈ old :: ids tb <-> q ∈ p :: ids (table_ s)) by (by rewrite Hids). rewrite !elem_of_cons in E. tauto.
Qed.
Lemma enter_old_gone : old ∉ ids tb /\ p ∈ ids tb.
Proof.
  pose proof enter_neq as Hne. split.
  - assert (HN : NoDup (old :: ids tb)); [|by apply NoDup_cons in HN as [? _]].
    rewrite Hids. constructor; [apply enter_fresh|]. pose proof (ci_nodup _ _ _ _ (proj1 HV)) as HN. by apply NoDup_app in HN as (HN & _).
  - assert (E : p ∈ old :: ids tb) by (rewrite Hids; by left). apply elem_of_cons in E as [?|?]; [done|done].
Qed.

Lemma enter_lru : lru_ok s1.
Proof.
  pose proof HV as (HI & HL & HM). apply (lru_ok_frame s); [done| |..|done|done].
  - intros q Hq. cbn. destruct (decide (q = old)) as [->|Hne]; [by rewrite lookup_insert_eq, Heo|by rewrite lookup_insert_ne].
  - intros q e'. cbn. rewrite lookup_insert_Some. intros [[<- <-]|[_ Hq]]; [|by apply (nonneg_heap _ _ _ _ HI q)].
    exact (nonneg_heap _ _ _ _ HI old eo Heo).
Qed.

Lemma enter_unbind : unbind old a = if refs eo =? 0 then free1 a old else with_objs (objs a) (cached a ∖ {[old]}) (order a) a.
Proof.
  pose proof (proj1 HV) as HI. destruct (ids_live _ _ _ _ _ HI Hold) as (Hn & _). unfold unbind.
  by rewrite (R_obj D [p] a s old (noflags eo) HR Hn (view_lookup _ _ _ Heo)).
Qed.

Lemma enter_hold : 0 < refs eo -> entered held D p e a s (mkStatus kOk kOverwritten) D s1.
Proof.
  intros Hr. pose proof HV as (HI & HL & HM). pose proof enter_neq as Hne. destruct enter_old_gone as [Ho1 Ho2]. pose proof enter_sums as [Hs1 Hs2].
  pose proof (view_lookup _ _ _ He) as Hv. pose proof (view_lookup _ _ _ Heo) as Hvo.
  assert (Hus : usage_ s1 = usage_ s + total_charge e) by (cbn; rewrite u64_small; lia).
  destruct (replace_hold held D a s s1 p old (noflags e) (noflags eo)) as [HI' HR']; try done; [apply enter_view|].
  exists (old :: held), (Some old). split_and!; try done.
  - apply enter_lru.
  - split; [apply enter_fresh|]. intros q Hq. change (lru_ s1) with (lru_ s). change (table_ s1) with tb. rewrite (HM q), enter_view.
    destruct (decide (q = old)) as [->|Hqo].
    + split; [|tauto]. intros (_ & e' & He' & Hr'). rewrite Hvo in He'. injection He' as <-. cbn in Hr'. lia.
    + by rewrite enter_ids, lookup_insert_ne.
  - by apply (bound_R held D [p] a s).
  - by rewrite enter_unbind, (proj2 (Z.eqb_neq _ _)) by lia.
  - by rewrite enter_view, lookup_insert_ne.
  - lia.
Qed.

Lemma enter_free s2 : refs eo = 0 -> lru_ok s2 -> core s2 = core s1 -> lru_ s2 = unlink old (lru_ s) ->
  entered held D p e a s (mkStatus kOk kOverwritten) (D ++ [old]) (set_usage (u64 (usage_ s2 - total_charge eo)) (lru_usage_ s2) s2).
Proof.
  intros Hr HL2 HC El. pose proof HV as (HI & HL & HM). pose proof enter_neq as Hne. destruct enter_old_gone as [Ho1 Ho2].
  pose proof enter_sums as [Hs1 Hs2]. pose proof (view_lookup _ _ _ He) as Hv. pose proof (view_lookup _ _ _ Heo) as Hvo.
  destruct (core_eqs _ _ HC) as (Ev & Eid & Ed & Ecap & Est & Et & Eus & Esec). destruct (core_limits _ _ HC) as (Ehr & _).
  set (s3 := set_usage _ _ s2). assert (Ev3 : view s3 = <[old := Handle.SetInCache false (noflags eo)]> (view s)) by exact (eq_trans Ev enter_view).
  assert (Hc : 0 <= total_charge eo <= usage_ s) by (apply (replace_charges held D s p old (noflags e) (noflags eo)); done).
  assert (Hus : usage_ s3 = usage_ s + total_charge e - total_charge eo).
  { cbn. rewrite Eus. cbn. rewrite (u64_small (usage_ s + _)) by lia. apply u64_small. lia. }
  assert (Est3 : statics s3 = statics s) by (unfold statics; cbn; rewrite Eid, Ecap, Esec, Est, Ehr; done).
  assert (Et3 : table_ s3 = tb) by (cbn; by rewrite Et).
  destruct (replace_free held D a s s3 p old (noflags e) (noflags eo)) as [HI' HR']; try done; try (by rewrite Et3).
  exists held, (Some old). split_and!; try done.
  - apply (lru_ok_frame s2); [done|done|by apply (nonneg_heap _ _ _ _ HI')|done|done].
  - split; [cbn; rewrite El, unlink_elem; intros [_ Hp]; by apply enter_fresh in Hp|]. intros q Hq. rewrite Et3, Ev3.
    change (lru_ s3) with (lru_ s2). rewrite El, unlink_elem, (HM q). destruct (decide (q = old)) as [->|Hqo]; [tauto|].
    rewrite enter_ids, lookup_insert_ne by done. tauto.
  - by apply (bound_R held D [p] a s).
  - by rewrite enter_unbind, Hr.
  - by rewrite Ev3, lookup_insert_ne.
  - by rewrite Et3.
  - lia.
  - intros E. cbn. by rewrite El, E.
Qed.
End enter.

Lemma enter_table_ok held D p e a s : INV held D [p] s -> R D [p] a s -> heap s !! p = Some e -> IN_CACHE e = true ->
  usage_ s + total_charge e < 2 ^ 53 -> LRUHandleTable.elems_ (table_ s) + 1 < 2 ^ 32 ->
  wp (enter_table p e D) (fun sl s' => entered held D p e a s sl.1 sl.2 s') s.
Proof.
  intros HV HR He Hin Hb Hn. pose proof HV as (HI & HL & HM). pose proof (view_lookup _ _ _ He) as Hv. unfold enter_table. wp_steps.
  eapply wp_mono; [by apply (table_Insert_ok held D [p] p (noflags e))|]. intros [old|] s0 (tb & -> & HT & Hr); wp_steps.
  - destruct Hr as (Hold & Hk & Hids). destruct (ids_live _ _ _ _ _ HI Hold) as (_ & eo' & Hvo).
    destruct (view_inv _ _ _ Hvo) as (eo & Heo & <-). apply (wp_update old eo); [exact Heo|]. wp_steps.
    apply (wp_deref old (Handle.SetInCache false eo)); [cbn [heap set_heap]; apply lookup_insert_eq|].
    pose proof (ci_entry _ _ _ _ HI _ _ Hvo) as (_ & _ & Hrefs & _). unfold is_u in Hrefs. cbn in Hrefs.
    unfold Handle.HasRefs. cbn [refs Handle.SetInCache]. destruct (Z.ltb_spec 0 (refs eo)) as [Hpos|Hzero]; cbn [negb].
    + wp_steps. exact (enter_hold held D p e a s HV HR He Hin Hb old eo tb Hold Heo Hk HT Hids Hpos).
    + wp_steps. eapply wp_mono.
      { apply LRU_Remove_unlink; [by apply (enter_lru held D p e s HV old eo tb)|]. change (old ∈ lru_ s). apply HM.
        split; [done|]. exists (noflags eo). split; [done|]. cbn. lia. }
      intros [] s2 (HL2 & HC2 & _ & El2). wp_steps. apply (enter_free held D p e a s HV HR He Hin Hb old eo tb); try done. lia.
  - destruct Hr as [Hnone Hids]. exact (enter_new held D p e a s HV HR He Hin Hb tb HT Hids Hnone).
Qed.

Lemma sumc_submseteq h l1 l2 : nonneg h -> l1 ⊆+ l2 -> sumc h l1 <= sumc h l2.
Proof.
  intros HN HS. apply submseteq_Permutation in HS as [k ->]. rewrite sumc_app. pose proof (sumc_nonneg h k HN). lia.
Qed.

(** The entries of the list and one that is cached but not in it fit the bound. *)
Lemma lru_room held X Y p e s : core_inv held X Y s -> lru_ok s -> members_but p s -> heap s !! p = Some e ->
  p ∈ ids (table_ s) -> sumc (heap s) (lru_ s) + total_charge e < 2 ^ 53.
Proof.
  intros HI HL [Hp HM] He Hin. pose proof (ci_bound _ _ _ _ HI) as HB. rewrite (ci_usage _ _ _ _ HI), sumc_view in HB.
  assert (Hs : p :: lru_ s ⊆+ ids (table_ s) ++ held).
  { apply NoDup_submseteq; [constructor; [done|by apply lru_nodup]|]. intros q [->|Hq]%elem_of_cons; [set_solver|].
    apply HM in Hq as [Hq _]; [set_solver|]. by intros ->. }
  apply (sumc_submseteq (heap s)) in Hs; [|by apply (nonneg_heap _ _ _ _ HI)].
  cbn in Hs. fold (sumc (heap s) (lru_ s)) in Hs. unfold charge_of in Hs. rewrite He in Hs. lia.
Qed.

(** Linking a cached entry completes the members of the list. *)
Lemma members_link held X Y p e s s' l1 l2 : core_inv held X Y s -> members_but p s -> core s' = core s ->
  view s !! p = Some e -> refs e = 0 -> p ∈ ids (table_ s) -> lru_ s = l1 ++ l2 -> lru_ s' = l1 ++ p :: l2 -> members s'.
Proof.
  intros HI [Hp HM] HC He Hr Hin E1 E2 q. destruct (core_eqs _ _ HC) as (Ev & _ & _ & _ & _ & Et & _). rewrite Ev, Et, E2.
  destruct (decide (q = p)) as [->|Hq].
  - split; [|set_solver]. intros _. split; [done|]. by exists e.
  - rewrite <- (HM q Hq), E1, !elem_of_app, elem_of_cons. tauto.
Qed.

Lemma LRU_Insert_link held X p e a s : core_inv held X [] s -> lru_ok s -> members_but p s -> R X [] a s ->
  view s !! p = Some e -> refs e = 0 -> p ∈ ids (table_ s) ->
  wp (LRU_Insert p) (fun _ s' => INV held X [] s' /\ usage_ s' = usage_ s /\ capacity_ s' = capacity_ s /\
    exists l, linked_at a p (to_obj e) l /\ R X [] (with_objs (objs a) (cached a) l a) s') s.
Proof.
  intros HI HL HM HR He Hr Hin. destruct (view_inv _ _ _ He) as (e0 & He0 & <-).
  eapply wp_mono; [apply (LRU_Insert_ok p e0 s); [done|done|apply HM|by eapply lru_room]|].
  intros [] s' (HL' & HC & l1 & l2 & E1 & E2 & Hhot). destruct (core_eqs _ _ HC) as (Ev & _ & _ & Ecap & _ & Et & Eus & _).
  split_and!; [split_and!; [by apply (core_inv_core _ _ _ s)|done|by eapply members_link]|done|done|].
  exists (lru_ s'). split; [|by apply R_core with s]. exists l1, l2. split_and!; [by rewrite (r_order _ _ _ _ HR)|done|].
  destruct (r_limits _ _ _ _ HR) as (_ & _ & ->). exact Hhot.
Qed.

(** One more reference, perhaps with a hit. *)
Definition bump (hot : bool) (e : LRUHandle) : LRUHandle := if hot then Handle.SetHit (Handle.Ref e) else Handle.Ref e.

Lemma bump_obj hot e : is_u 32 (refs e) -> refs e + 1 < 2 ^ 32 -> to_obj (bump hot e) = add_ref 1 hot (to_obj e) /\
  refs (bump hot e) = refs e + 1.
Proof.
  unfold is_u. intros Hu Hr. assert (E : u32 (refs e + 1) = refs e + 1) by (apply u32_small; lia).
  destruct hot; unfold to_obj, add_ref; cbn; rewrite E; split; try done; f_equal; by rewrite ?orb_false_r, ?orb_true_r.
Qed.

Lemma bump_ok held X Y a s p e hot : core_inv held X Y s -> lru_ok s -> R X Y a s -> heap s !! p = Some e -> p ∉ X ++ Y ->
  refs e + 1 < 2 ^ 32 -> let s' := set_heap (<[p := bump hot e]> (heap s)) (next_id s) (deleted s) s in
  core_inv held X Y s' /\ lru_ok s' /\ R X Y (with_objs (<[p := add_ref 1 hot (to_obj e)]> (objs a)) (cached a) (order a) a) s' /\
  view s' = <[p := bump hot (noflags e)]> (view s).
Proof.
  intros HI HL HR He Hp Hr s'. pose proof (view_lookup _ _ _ He) as Hv. pose proof (ci_entry _ _ _ _ HI _ _ Hv) as Hok.
  assert (Ev : view s' = <[p := bump hot (noflags e)]> (view s)) by (unfold s'; rewrite view_insert; by destruct hot).
  destruct (bump_obj hot (noflags e)) as [Eo Er]; [apply Hok|done|].
  destruct (touch held X Y a s s' p (noflags e) (bump hot (noflags e))) as [HI' HR']; try done; try (by destruct hot).
  - destruct Hok as (O1 & O2 & O3 & O4 & O5). unfold entry_ok, is_u in *. rewrite Er. destruct hot; cbn in *; (split_and!; [done|lia..|done|done]).
  - intros _. rewrite Er. destruct Hok as (_ & _ & O3 & _). unfold is_u in O3. cbn in *. lia.
  - rewrite Eo in HR'. split_and!; try done. apply (lru_ok_frame s); [done| |by apply (nonneg_heap _ _ _ _ HI')|done|done].
    intros q Hq. cbn. destruct (decide (q = p)) as [->|Hne]; [rewrite lookup_insert_eq, He; by destruct hot|by rewrite lookup_insert_ne].
Qed.

Definition handle_of (handle : bool) (p : nat) : option nat := if handle then Some p else None.

Lemma accept_ok held D p e a s handle : INV held D [p] s -> R D [p] a s -> heap s !! p = Some e -> IN_CACHE e = true -> refs e = 0 ->
  usage_ s + total_charge e < 2 ^ 53 -> LRUHandleTable.elems_ (table_ s) + 1 < 2 ^ 32 ->
  (usage_ s + total_charge e <= capacity_ s \/ lru_ s = [] /\ handle = true) ->
  wp (accept_item p e handle D) (fun res s' => exists held' old, INV held' res.2 [] s' /\ bound a (hash e, key e) old /\
    let a2 := match old with Some q => unbind q a | None => a end in
    res.1 = (match old with Some _ => mkStatus kOk kOverwritten | None => St.OK end, handle_of handle p) /\
    (usage_ s' <= capacity_ s' \/ lru_ s' = []) /\
    if handle then R res.2 [] (with_objs (<[p := add_ref 1 false (to_obj e)]> (objs a2)) ({[p]} ∪ cached a2) (order a2) a2) s'
    else exists l, linked_at a2 p (to_obj e) l /\ R res.2 [] (with_objs (<[p := to_obj e]> (objs a2)) ({[p]} ∪ cached a2) l a2) s') s.
Proof.
  intros HV HR He Hin Hr Hb Hn Hcap. unfold accept_item. wp_steps. eapply wp_mono; [by apply (enter_table_ok held D p e a)|].
  intros [st X] s1 (held' & old & HI1 & HL1 & HM1 & Hbo & Hst & HR1 & Hv1 & Hin1 & Hus1 & Hlru1 & Hcap1). cbn [fst snd] in *.
  destruct handle; cbn [negb].
  - wp_steps. destruct (view_inv _ _ _ Hv1) as (e1 & He1 & Ee1). apply (wp_deref p e1); [exact He1|].
    assert (refs e1 = 0) as Hr1 by (apply (f_equal refs) in Ee1; cbn in Ee1; congruence).
    assert (Eo : to_obj e1 = to_obj e) by exact (f_equal to_obj Ee1).
    unfold Handle.HasRefs. rewrite Hr1. wp_steps. unfold when. cbn [Z.ltb Z.compare negb].
    apply (wp_update p e1); [exact He1|]. wp_steps.
    destruct (bump_ok held' X [] _ s1 p e1 false HI1 HL1 HR1 He1) as (HI2 & HL2 & HR2 & Ev2); [apply (ids_live _ _ _ _ _ HI1 Hin1)|lia|].
    cbn [bump] in *. exists held', old. split_and!; try done.
    + split_and!; [done|done|]. apply (members_change p s1); [apply HM1| |].
      * intros q Hq. rewrite Ev2, lookup_insert_ne by done. done.
      * split; [intros Hp; by apply (proj1 HM1) in Hp|]. intros (_ & e' & He' & Hr'). rewrite Ev2, lookup_insert_eq in He'.
        injection He' as <-. cbn in Hr'. rewrite Hr1 in Hr'. done.
    + by rewrite Hst.
    + destruct Hcap as [Hc|[Hl _]]; [left; cbn; lia|right; by apply Hlru1].
    + cbn in HR2. rewrite insert_insert_eq, Eo in HR2. exact HR2.
  - wp_steps. eapply wp_mono; [by apply (LRU_Insert_link held' X p (noflags e) _ s1 HI1 HL1 HM1 HR1 Hv1)|].
    intros [] s2 (HV2 & Eus & Ecap & l & Hl & HR2). wp_steps. exists held', old. split_and!; try done.
    + by rewrite Hst.
    + destruct Hcap as [Hc|[_ ?]]; [left; lia|done].
    + by exists l.
Qed.

Lemma inv_usage held X Y s : core_inv held X Y s -> 0 <= usage_ s < 2 ^ 53.
Proof.
  intros HI. split; [|apply HI]. rewrite (ci_usage _ _ _ _ HI). apply sumc_nonneg. intros q e' Hq. by apply (ci_entry _ _ _ _ HI _ _ Hq).
Qed.

(** The end of an operation, once the entries of [X] are freed. *)
Lemma finish held X a s s' : INV held X [] s -> R X [] a s -> (usage_ s <= capacity_ s \/ lru_ s = []) ->
  INV held [] [] s' -> R [] [] a s' -> inv s' /\ abs s' = a.
Proof.
  intros HV HR Hc HV' HR'. split; [|symmetry; by apply R_eq]. split; [by exists held|].
  rewrite <- (R_total _ _ _ _ _ (proj1 HV') HR'), (R_total _ _ _ _ _ (proj1 HV) HR), <- (r_order _ _ _ _ HR'), (r_order _ _ _ _ HR).
  destruct (r_limits _ _ _ _ HR') as (<- & _). by destruct (r_limits _ _ _ _ HR) as (-> & _).
Qed.
Lemma finish_TryInsert held X a s : INV held X [] s -> R X [] a s -> (usage_ s <= capacity_ s \/ lru_ s = []) ->
  wp (TryInsertIntoSecondaryCache X) (fun _ s' => inv s' /\ abs s' = a) s.
Proof. intros HV HR Hc. eapply wp_mono; [by apply (TryInsert_ok held X a)|]. intros [] s' [HV' HR']. by apply (finish held X a s). Qed.

Lemma InsertItem_ok held p e s0 s handle : INV held [] [p] s -> R [] [p] (abs s0) s -> heap s !! p = Some e -> IN_CACHE e = true ->
  refs e = 0 -> usage_ s + total_charge e < 2 ^ 53 -> LRUHandleTable.elems_ (table_ s) + 1 < 2 ^ 32 ->
  wp (InsertItem p handle true) (fun r s' => inv s' /\ spec_insert (abs s0) p (to_obj e) handle (RInsert r.1 r.2) (abs s')) s.
Proof.
  intros HV HR He Hin Hr Hb Hn. pose proof (inv_usage _ _ _ _ (proj1 HV)) as Hu.
  pose proof (nonneg_heap _ _ _ _ (proj1 HV) p e He) as Hc0. unfold InsertItem. wp_steps. eapply wp_deref; [exact He|]. wp_steps.
  eapply wp_mono; [apply (EvictFromLRU_ok _ held [p] (abs s0)); [done|done|lia]|].
  intros D s1 (HV1 & HR1 & Hev & (Sh1 & Sh2 & Sh3) & Hend). wp_steps.
  assert (He1 : heap s1 !! p = Some e) by (rewrite Sh1; [done|by left]).
  assert (Hn1 : LRUHandleTable.elems_ (table_ s1) + 1 < 2 ^ 32).
  { pose proof (proj1 (tk_elems _ _ (ci_table _ _ _ _ (proj1 HV1)))). pose proof (proj1 (tk_elems _ _ (ci_table _ _ _ _ (proj1 HV)))). lia. }
  pose proof (inv_usage _ _ _ _ (proj1 HV1)) as Hu1. pose proof (R_total _ _ _ _ _ (proj1 HV1) HR1) as Ht.
  destruct (r_limits _ _ _ _ HR1) as (L1 & L2 & _). destruct (free_limits D (abs s0)) as (F1 & F2 & _). rewrite F1 in L1. rewrite F2 in L2.
  rewrite u64_small by lia.
  assert (Hfresh : objs (abs s0) !! p = None) by (rewrite (r_objs _ _ _ _ HR), decide_True; [done|by left]).
  assert (Hspec : forall r a', (let a1 := free D (abs s0) in
    if (capacity_ s1 <? usage_ s1 + total_charge e) && (strict_capacity_limit_ s1 || negb handle) then
      if handle then r = RInsert (mkStatus kAborted kMemoryLimit) None /\ a' = a1
      else r = RInsert St.OK None /\
         a' = mkSpec (objs a1) (cached a1) (order a1) (log a1 ++ deletion (to_obj e)) (capacity a1) (strict a1) (high_pool a1)
    else exists old, bound a1 (hash e, key e) old /\
      let a2 := match old with Some q => unbind q a1 | None => a1 end in
      r = RInsert (match old with Some _ => mkStatus kOk kOverwritten | None => St.OK end) (handle_of handle p) /\
      if handle then a' = with_objs (<[p := add_ref 1 false (to_obj e)]> (objs a2)) ({[p]} ∪ cached a2) (order a2) a2
      else exists l, linked_at a2 p (to_obj e) l /\ a' = with_objs (<[p := to_obj e]> (objs a2)) ({[p]} ∪ cached a2) l a2) ->
    spec_insert (abs s0) p (to_obj e) handle r a').
  { intros r a' Hs. split; [done|]. exists D. split; [done|]. cbv zeta. rewrite Ht, L1, L2. exact Hs. }
  destruct (_ && _) eqn:Efull.
  - apply andb_true_iff in Efull as [Hlt%Z.ltb_lt _]. assert (Hl1 : lru_ s1 = []) by (destruct Hend; [lia|done]).
    eapply wp_mono; [by apply (reject_ok held D p e)|]. intros [[st h] X] s2 (X' & EX & HV2 & El2 & Eu2 & Ec2 & Hres). cbn in EX. subst X'.
    wp_steps. destruct handle; destruct Hres as [[= -> ->] HR2];
      (eapply wp_mono; [apply (finish_TryInsert _ _ _ _ HV2 HR2); right; by rewrite El2|]); cbv beta; intros [] s3 [HI3 Ea]; wp_steps;
      (split; [done|]); by apply Hspec.
  - assert (Hcap : usage_ s1 + total_charge e <= capacity_ s1 \/ lru_ s1 = [] /\ handle = true).
    { destruct Hend as [?|Hl]; [by left|]. apply andb_false_iff in Efull as [Hge%Z.ltb_ge|Hs]; [by left|]. right. split; [done|].
      apply orb_false_iff in Hs as [_ Hs]. by destruct handle. }
    eapply wp_mono; [apply (accept_ok held D p e (free D (abs s0)) s1 handle); (done || lia)|].
    intros [[st h] X] s2 (held' & old & HV2 & Hbo & Est & Hc2 & Hres). cbn [fst snd] in *. injection Est as -> ->. wp_steps. destruct handle.
    + eapply wp_mono; [by apply (finish_TryInsert _ _ _ _ HV2 Hres)|]. cbv beta. intros [] s3 [HI3 Ea]. wp_steps. split; [done|].
      apply Hspec. by exists old.
    + destruct Hres as (l & Hl & HR2). eapply wp_mono; [by apply (finish_TryInsert _ _ _ _ HV2 HR2)|]. cbv beta. intros [] s3 [HI3 Ea].
      wp_steps. split; [done|]. apply Hspec. exists old. split_and!; [done|done|]. by exists l.
Qed.
End refine.
