(* ===== verification/LruTheorems.v ===== *)
(** * Theorems about the LRU cache shard

    Refinement of [spec_step] by every operation, and what follows for sequences of
    operations from a new shard. *)

From stdpp Require Import prelude gmap.
From Stdlib Require Import ZArith Lia Bool SpecFloat.
From S2P Require Import Prelude Float64 Status StateMonad LruTable LruCache LruPools LruSpec LruProofs LruRefine.
Import LRUCacheShard.

Section ops.
Context {S : Type} `{SecondaryCache S} `{Config}.
Implicit Types s : t S.

Definition refines (o : op) : Prop :=
  forall s, inv s -> pre s o -> wp (run o) (fun r s' => inv s' /\ spec_step (abs s) o r (abs s')) s.

Lemma Insert_refines k h v charge deleter helper handle priority :
  refines (OInsert k h v charge deleter helper handle priority).
Proof.
  intros s [[held HV] _] (Hh & Hc & Hhelp & Hfit & Hn). set (e0 := new_handle v helper deleter None k h true priority) in *.
  pose proof (inv_usage _ _ _ _ (proj1 HV)) as Hu. destruct (Hfit (next_id s)) as [Hm Hb].
  assert (Ec : CalcTotalCharge charge (next_id s) e0 = charge + CalcuMetaCharge (next_id s) e0) by (apply u64_small; lia).
  set (e := Handle.with_value v (CalcTotalCharge charge (next_id s) e0) e0).
  assert (Hok : entry_ok e).
  { split_and!; [cbn [total_charge e Handle.with_value]; lia|done|done|done|]. cbn. intros E. by apply Hhelp. }
  destruct (new_entry held s e (next_id s) HV Hok eq_refl) as [HV1 HR1].
  cbn [run]. unfold Insert, alloc, store. fold e0. wp_steps. cbn [heap next_id deleted set_heap].
  rewrite insert_insert_eq. fold e. eapply wp_mono.
  { apply (InsertItem_ok held (next_id s) e s); [exact HV1|exact HR1| |done|done|cbn [total_charge e Handle.with_value usage_ set_heap]; lia|done].
    cbn [heap set_heap]. apply lookup_insert_eq. }
  intros r s' [HI Hs]. wp_steps. split; [done|]. exists (next_id s). unfold to_obj in Hs. cbn in Hs.
  replace (deleter || helper) with (if helper then bool_decide (is_Some v) else deleter); [by rewrite orb_false_r in Hs|].
  destruct helper; [|by rewrite orb_false_r]. destruct (Hhelp eq_refl) as [Hv ->]. by apply bool_decide_eq_true.
Qed.

Lemma finish_now held a s : INV held [] [] s -> R [] [] a s -> (usage_ s <= capacity_ s \/ lru_ s = []) -> inv s /\ abs s = a.
Proof. intros HV HR Hc. by apply (finish held [] a s). Qed.

(** An entry with references is not in the list; without, it is linked out. *)
Lemma unlink_entry held p e s : INV held [] [] s -> p ∈ ids (table_ s) -> heap s !! p = Some e ->
  wp (when (negb (Handle.HasRefs e)) (LRU_Remove p)) (fun _ s' =>
    core_inv held [] [] s' /\ lru_ok s' /\ members_but p s' /\ heap s' = heap s /\ core s' = core s /\ lru_ s' = unlink p (lru_ s)) s.
Proof.
  intros HV Hin He. pose proof HV as (HI & HL & HM). pose proof (view_lookup _ _ _ He) as Hv.
  destruct (ci_entry _ _ _ _ HI _ _ Hv) as (_ & _ & Hr & _). unfold is_u in Hr. cbn in Hr.
  unfold Handle.HasRefs. apply wp_when; intros Href.
  - apply negb_true_iff, Z.ltb_ge in Href. eapply wp_mono.
    { apply LRU_Remove_unlink; [done|]. apply HM. split; [done|]. exists (noflags e). split; [done|]. cbn. lia. }
    intros [] s' (HL' & HC & Eh & El). destruct (core_eqs _ _ HC) as (Ev & _ & _ & _ & _ & Et & _).
    split_and!; [by apply (core_inv_core _ _ _ s)|done| |done|done|done]. split; [rewrite El, unlink_elem; tauto|].
    intros q Hq. rewrite El, unlink_elem, Ev, Et, (HM q). tauto.
  - apply negb_false_iff, Z.ltb_lt in Href. assert (Hn : p ∉ lru_ s).
    { intros (_ & e' & He' & Hr')%HM. rewrite Hv in He'. injection He' as <-. cbn in Hr'. lia. }
    split_and!; [done|done| |done|done|by rewrite unlink_not_in]. split; [done|]. intros q _. apply HM.
Qed.

Lemma Lookup_refines k h helper priority wait : refines (OLookup k h helper priority wait).
Proof.
  intros s [[held HV] Hcap] [Hh Href]. pose proof HV as (HI & HL & HM). cbn [run]. unfold Lookup. wp_steps.
  eapply wp_mono; [by apply (table_Lookup_ok held [] [] (h, k) s HI)|]. intros r s0 [-> Hr].
  pose proof (bound_R held [] [] (abs s) s (h, k) r HI (R_abs s) Hr) as Hb. wp_steps. destruct r as [p|].
  - destruct Hr as [Hin Ek]. destruct (ids_live _ _ _ _ _ HI Hin) as (_ & e' & Hv). destruct (view_inv _ _ _ Hv) as (e & He & <-).
    wp_steps. eapply wp_deref; [exact He|]. wp_steps. eapply wp_mono; [by apply (unlink_entry held p e s)|].
    intros [] s1 (HI1 & HL1 & HM1 & Eh1 & HC1 & El1). wp_steps. rewrite <- Eh1 in He. apply (wp_update p e); [exact He|]. wp_steps.
    pose proof (R_core _ _ _ _ _ HC1 (R_abs s)) as HR1. destruct (core_eqs _ _ HC1) as (_ & _ & _ & Ecap & _ & _ & Eus & Esec).
    destruct (bump_ok held [] [] _ s1 p e true HI1 HL1 HR1 He) as (HI2 & HL2 & HR2 & Ev2);
      [apply not_elem_of_nil|rewrite Eh1 in He; by apply (Href p)|].
    cbn [bump] in *. set (s2 := set_heap _ _ _ s1) in *. change (secondary_cache_ s2) with (secondary_cache_ s1).
    rewrite Esec, (ci_sec _ _ _ _ HI). wp_steps.
    assert (HV2 : INV held [] [] s2).
    { split_and!; [done|done|]. apply (members_change p s1); [apply HM1| |].
      - intros q Hq. by rewrite Ev2, lookup_insert_ne.
      - split; [intros Hp; by apply (proj1 HM1) in Hp|]. intros (_ & e' & He' & Hr'). rewrite Ev2, lookup_insert_eq in He'.
        injection He' as <-. destruct (bump_obj true e) as [_ Er]; [apply (ci_entry _ _ _ _ HI _ _ Hv)|rewrite Eh1 in He; by apply (Href p)|].
        cbn in Er, Hr'. rewrite Er in Hr'. destruct (ci_entry _ _ _ _ HI _ _ Hv) as (_ & _ & Hu & _). unfold is_u in Hu. cbn in Hu. lia. }
    destruct (finish_now held _ s2 HV2 HR2) as [Hinv Ea].
    { change (usage_ s1 <= capacity_ s1 \/ lru_ s1 = []). rewrite Eus, Ecap, El1. destruct Hcap as [|E]; [by left|right]. by rewrite E. }
    split; [done|]. exists (Some p). split_and!; [done|done|]. exists (to_obj e). rewrite Ea. cbn [with_objs objs cached order log].
    rewrite El1. split; [|done]. cbn. rewrite lookup_fmap, <- Eh1, He. done.
  - wp_steps. rewrite (ci_sec _ _ _ _ HI). wp_steps. split; [split; [by exists held|done]|]. by exists None.
Qed.

(** An entry that keeps some reference is not in the list. *)
Lemma members_refs held s s' p e e' : INV held [] [] s -> view s !! p = Some e -> 0 < refs e -> 0 < refs e' ->
  view s' = <[p := e']> (view s) -> table_ s' = table_ s -> lru_ s' = lru_ s -> members s'.
Proof.
  intros (HI & HL & HM) Hv Hr Hr' Ev Et El. apply (members_change p s); [by intros q _; apply HM| |].
  - intros q Hq. by rewrite Ev, lookup_insert_ne, Et, El.
  - rewrite El. split.
    + intros (_ & e1 & He1 & Hre)%HM. rewrite Hv in He1. injection He1 as <-. lia.
    + intros (_ & e1 & He1 & Hre). rewrite Ev, lookup_insert_eq in He1. injection He1 as <-. lia.
Qed.

Lemma Ref_refines p : refines (ORef p).
Proof.
  intros s [[held HV] Hcap] (e & He & Hr & Hr'). pose proof HV as (HI & HL & HM). cbn [run]. unfold Ref. wp_steps.
  apply (wp_update p e); [exact He|]. wp_steps.
  destruct (bump_ok held [] [] _ s p e false HI HL (R_abs s) He) as (HI2 & HL2 & HR2 & Ev2); [apply not_elem_of_nil|done|].
  cbn [bump] in *. set (s2 := set_heap _ _ _ s) in *. pose proof (view_lookup _ _ _ He) as Hv.
  destruct (bump_obj false e) as [_ Er]; [apply (ci_entry _ _ _ _ HI _ _ Hv)|done|].
  assert (HV2 : INV held [] [] s2).
  { split_and!; [done|done|]. apply (members_refs held s s2 p (noflags e) (Handle.Ref (noflags e))); try done. cbn in *. lia. }
  destruct (finish_now held _ s2 HV2 HR2 Hcap) as [Hinv Ea]. split; [done|]. exists (to_obj e). rewrite Ea. split; [|done]. cbn. by rewrite lookup_fmap, He.
Qed.

(** ** Release *)

Lemma SetInCache_id e : IN_CACHE e = false -> Handle.SetInCache false e = e.
Proof. destruct e. cbn. by intros ->. Qed.

(** The end of [Release] for a last reference. *)
Lemma release_finish held s s2 p : INV held [p] [] s2 -> R [p] [] (free1 (abs s) p) s2 ->
  (usage_ s2 <= capacity_ s2 \/ lru_ s2 = []) ->
  wp (Free p) (fun _ s' => inv s' /\ abs s' = free1 (abs s) p) s2.
Proof.
  intros HV HR Hc. eapply wp_mono; [by apply (Free_ok held p [] [] (free1 (abs s) p))|]. intros [] s3 [HV3 HR3].
  by apply (finish held [p] (free1 (abs s) p) s2).
Qed.

Lemma release_cached_ok held s1 p e erase a : core_inv held [] [] s1 -> lru_ok s1 -> members_but p s1 -> R [] [] a s1 ->
  heap s1 !! p = Some e -> refs e = 0 -> p ∈ ids (table_ s1) ->
  wp (release_cached p e erase) (fun b s' => b = (capacity_ s1 <? usage_ s1) || erase /\
    if b then exists tb, s' = set_heap (<[p := Handle.SetInCache false e]> (heap s1)) (next_id s1) (deleted s1) (set_table tb s1) /\
                table_ok (hk (view s1)) tb /\ ids (table_ s1) ≡ₚ p :: ids tb
    else INV held [] [] s' /\ usage_ s' = usage_ s1 /\ capacity_ s' = capacity_ s1 /\
      exists l, linked_at a p (to_obj e) l /\ R [] [] (with_objs (objs a) (cached a) l a) s') s1.
Proof.
  intros HI HL HM HR He Hr Hin. pose proof (view_lookup _ _ _ He) as Hv. unfold release_cached. wp_steps.
  destruct (_ || erase) eqn:Eb; wp_steps.
  - eapply wp_mono; [apply (table_Remove_ok held [] [] (hash e, key e) s1 HI), (ci_entry _ _ _ _ HI _ _ Hv)|].
    intros r s2 Hrm. destruct r as [q|]; [|by destruct (proj2 Hrm p Hin); exact (hk_lookup _ _ _ Hv)].
    destruct Hrm as (Hq & Ek & tb & -> & HT & Hids).
    assert (q = p) as ->.
    { apply (hk_inj (hk (view s1)) (table_ s1)); [apply HI|done|done|]. by rewrite Ek, (hk_lookup _ _ _ Hv). }
    wp_steps. apply (wp_update p e); [exact He|]. wp_steps. split; [done|]. by exists tb.
  - eapply wp_mono; [by apply (LRU_Insert_link held [] p (noflags e) a s1)|]. intros [] s2 Hs. wp_steps. by split.
Qed.


Section release.
Context (held : list nat) (s : t S) (p : nat) (e : LRUHandle).
Context (HV : INV held [] [] s) (He : heap s !! p = Some e) (Hr : 0 < refs e).

Let e1 := Handle.with_refs (u32 (refs e - 1)) e.
Let s1 := set_heap (<[p := e1]> (heap s)) (next_id s) (deleted s) s.

Lemma release_entry : entry_ok e1 /\ refs e1 = refs e - 1 /\ to_obj e1 = add_ref (-1) false (to_obj e) /\ p ∉ lru_ s /\
  view s1 = <[p := noflags e1]> (view s) /\ view s !! p = Some (noflags e).
Proof.
  pose proof HV as (HI & HL & HM). pose proof (view_lookup _ _ _ He) as Hv. destruct (ci_entry _ _ _ _ HI _ _ Hv) as (O1 & O2 & O3 & O4 & O5).
  unfold is_u in O3. cbn in O3. assert (Er : refs e1 = refs e - 1) by (cbn; apply u32_small; lia).
  split_and!; try done.
  - split_and!; try done. unfold is_u. lia.
  - unfold to_obj, add_ref. cbn in Er |- *. rewrite Er, orb_false_r. done.
  - intros (_ & e' & He' & Hr')%HM. rewrite Hv in He'. injection He' as <-. cbn in Hr'. lia.
  - apply view_insert.
Qed.

Lemma release_lru : lru_ok s1.
Proof.
  destruct release_entry as (Hok & _ & _ & Hn & _). pose proof HV as (HI & HL & HM). apply (lru_ok_frame s); [done| |..|done|done].
  - intros q Hq. cbn. rewrite lookup_insert_ne; [done|]. by intros <-.
  - intros q e'. cbn. rewrite lookup_insert_Some. intros [[<- <-]|[_ Hq]]; [apply Hok|by apply (nonneg_heap _ _ _ _ HI q)].
Qed.

Lemma release_touch : (p ∈ held -> 1 < refs e) ->
  core_inv held [] [] s1 /\
  R [] [] (with_objs (<[p := add_ref (-1) false (to_obj e)]> (objs (abs s))) (cached (abs s)) (order (abs s)) (abs s)) s1.
Proof.
  intros Hh. destruct release_entry as (Hok & Er & Eo & Hn & Ev & Hv). rewrite <- Eo.
  apply (touch held [] [] (abs s) s s1 p (noflags e) (noflags e1)); try done; [apply HV|apply R_abs|apply not_elem_of_nil|].
  intros Hin. cbn in *. specialize (Hh Hin). lia.
Qed.

Lemma release_members_but : members_but p s1.
Proof.
  destruct release_entry as (Hok & Er & Eo & Hn & Ev & Hv). split; [done|]. intros q Hq. rewrite Ev, lookup_insert_ne by done.
  apply (proj2 (proj2 HV)).
Qed.

(** The last reference goes, and the entry with it. *)
Lemma release_free held' s2 : refs e = 1 -> table_ok (hk (view s)) (table_ s2) ->
  ids (table_ s) ++ held ≡ₚ p :: ids (table_ s2) ++ held' ->
  (forall q, q ∈ ids (table_ s2) <-> q ∈ ids (table_ s) /\ q <> p) -> held' ⊆ held -> lru_ok s2 ->
  view s2 = <[p := Handle.SetInCache false (noflags e1)]> (view s) -> lru_ s2 = lru_ s -> statics s2 = statics s ->
  deleted s2 = deleted s -> usage_ s2 = u64 (usage_ s - total_charge e) ->
  INV held' [p] [] s2 /\ R [p] [] (free1 (abs s) p) s2 /\ usage_ s2 <= usage_ s.
Proof.
  intros Hr1 HT Hchg Hids Hheld HL2 Ev2 El Est Ed Eu. destruct release_entry as (Hok & Er & Eo & Hn & Ev & Hv). pose proof HV as (HI & HL & HM).
  destruct (leave_free held held' [] [] (abs s) s s2 p (noflags e) (Handle.SetInCache false (noflags e1))) as (HI2 & HR2 & Hu); try done.
  - apply R_abs.
  - by rewrite unlink_not_in.
  - split_and!; [split_and!; [done|done|]|done|pose proof (nonneg_heap _ _ _ _ HI p e He); cbn in Hu; lia].
    apply (members_change p s); [by intros q _; apply HM| |].
    + intros q Hq. rewrite Hids, Ev2, lookup_insert_ne, El by done. tauto.
    + rewrite El. split; [done|]. rewrite Hids. tauto.
Qed.

(** What [Release] owes. *)
Definition released (erase b : bool) (s' : t S) : Prop := inv s' /\ spec_release (abs s) p (to_obj e) erase (RBool b) (abs s').

Context (Hcap : usage_ s <= capacity_ s \/ lru_ s = []).

Lemma release_more erase : refs e <> 1 -> wp (release_end p e1 false) (released erase) s1.
Proof.
  intros Hlast. destruct release_entry as (Hok & Er & Eo & Hn & Ev & Hv). destruct release_touch as [HI1 HR1]; [intros; lia|].
  unfold release_end, when. wp_steps. assert (HV1 : INV held [] [] s1).
  { split_and!; [done|exact release_lru|]. apply (members_refs held s s1 p (noflags e) (noflags e1)); try done. cbn in *. lia. }
  destruct (finish_now held _ s1 HV1 HR1 Hcap) as [Hinv Ea]. split; [done|]. unfold spec_release. cbn [o_refs to_obj].
  rewrite (proj2 (Z.eqb_neq _ _)) by done. cbn [negb]. by rewrite Ea.
Qed.

Lemma release_spec_last erase b a' : refs e = 1 ->
  (if bool_decide (p ∈ cached (abs s)) && negb ((capacity_ s <? usage_ s) || erase) then
     b = false /\ exists l, linked_at (abs s) p (to_obj e) l /\
       a' = with_objs (<[p := add_ref (-1) false (to_obj e)]> (objs (abs s))) (cached (abs s)) l (abs s)
   else b = true /\ a' = free1 (abs s) p) ->
  spec_release (abs s) p (to_obj e) erase (RBool b) a'.
Proof.
  intros Hlast Hs. unfold spec_release. cbn [o_refs to_obj]. rewrite Hlast, (R_total _ _ _ _ _ (proj1 HV) (R_abs s)). cbn [Z.eqb Pos.eqb negb].
  change (capacity (abs s)) with (capacity_ s). destruct (_ && _); destruct Hs as [-> Hs]; (split; [done|exact Hs]).
Qed.

(** The entry goes. *)
Lemma release_gone erase held' s2 : refs e = 1 -> let s3 := set_usage (u64 (usage_ s2 - total_charge e1)) (lru_usage_ s2) s2 in
  bool_decide (p ∈ cached (abs s)) && negb ((capacity_ s <? usage_ s) || erase) = false ->
  INV held' [p] [] s3 /\ R [p] [] (free1 (abs s) p) s3 /\ usage_ s3 <= usage_ s -> lru_ s2 = lru_ s -> capacity_ s2 = capacity_ s ->
  wp (release_end p e1 true) (released erase) s2.
Proof.
  intros Hlast s3 Hb (HV3 & HR3 & Hu3) El Ec. destruct release_entry as ((_ & _ & _ & _ & Hval) & _).
  assert (Eval : negb (IS_SECONDARY_CACHE_COMPATIBLE e1) || bool_decide (is_Some (value e1)) = true).
  { destruct (IS_SECONDARY_CACHE_COMPATIBLE e1); [|done]. by apply bool_decide_eq_true, Hval. }
  unfold release_end. rewrite Eval. cbn [andb when]. wp_steps. fold s3. eapply wp_mono; [apply (release_finish held' s s3 p HV3 HR3)|].
  - change (usage_ s3 <= capacity_ s2 \/ lru_ s2 = []). rewrite El, Ec. destruct Hcap; [left; lia|by right].
  - cbv beta. intros [] s4 [Hi Ea]. wp_steps. split; [done|]. apply release_spec_last; [done|]. by rewrite Hb.
Qed.

Lemma release_cached_last erase : refs e = 1 -> p ∈ ids (table_ s) ->
  wp (b ← release_cached p e1 erase; release_end p e1 b) (released erase) s1.
Proof.
  intros Hlast Hin. pose proof HV as (HI & HL & HM). destruct release_entry as (Hok & Er & Eo & Hn & Ev & Hv).
  pose proof (ci_nodup _ _ _ _ HI) as HN. rewrite !app_nil_r in HN. apply NoDup_app in HN as (HN1 & HN2 & _).
  destruct release_touch as [HI1 HR1]; [intros Hh; by apply (HN2 p) in Hin|].
  assert (Hc : bool_decide (p ∈ cached (abs s)) = true) by (apply bool_decide_eq_true; cbn; by apply elem_of_list_to_set).
  wp_steps. eapply wp_mono.
  { apply (release_cached_ok held s1 p e1 erase _ HI1 release_lru release_members_but HR1); [|lia|done].
    cbn [heap s1 set_heap]. apply lookup_insert_eq. }
  intros b s2 [Eb Hb]. change ((capacity_ s1 <? usage_ s1) || erase) with ((capacity_ s <? usage_ s) || erase) in Eb. destruct b.
  - destruct Hb as (tb & -> & HT & Hids). apply (release_gone erase held); [done|by rewrite Hc, <- Eb| |done|done].
    change (table_ s1) with (table_ s) in Hids. rewrite Hids in HN1. apply NoDup_cons in HN1 as [HN1 _].
    apply release_free; try done.
    + eapply table_ok_same; [exact HT|]. intros q. rewrite Ev. symmetry. by apply (hk_insert _ _ (noflags e)).
    + by rewrite Hids.
    + intros q. cbn. fold (ids tb) (ids (table_ s)). rewrite Hids, elem_of_cons. split; [|tauto]. intros Hq. split; [by right|]. by intros ->.
    + apply (lru_ok_frame s1); [exact release_lru| |..|done|done].
      * intros q Hq. cbn. rewrite lookup_insert_ne; [done|]. intros <-. by apply Hn.
      * intros q e'. cbn. rewrite lookup_insert_Some. intros [[<- <-]|[_ Hq]]; [apply Hok|by apply (nonneg_heap _ _ _ _ HI1 q)].
    + unfold view. cbn. by rewrite insert_insert_eq, fmap_insert.
  - destruct Hb as (HV2 & Eu2 & Ec2 & l & Hl & HR2). destruct (finish_now held _ s2 HV2 HR2) as [Hi2 Ea2].
    { rewrite Eu2, Ec2. left. apply Z.ltb_ge. by apply eq_sym, orb_false_iff in Eb as [? _]. }
    unfold release_end. cbn [andb when]. wp_steps. split; [done|]. apply release_spec_last; [done|]. rewrite Hc, <- Eb. cbn [andb negb].
    split; [done|]. exists l. by rewrite Ea2.
Qed.

Lemma release_held_last erase : refs e = 1 -> p ∈ held -> wp (release_end p e1 true) (released erase) s1.
Proof.
  intros Hlast Hin. pose proof HV as (HI & HL & HM). destruct release_entry as (Hok & Er & Eo & Hn & Ev & Hv).
  pose proof (ci_nodup _ _ _ _ HI) as HN. rewrite !app_nil_r in HN. apply NoDup_app in HN as (HN1 & HN2 & HN3).
  assert (Hids : p ∉ ids (table_ s)) by (intros Hp; by apply (HN2 p)).
  assert (Hc : bool_decide (p ∈ cached (abs s)) = false) by (apply bool_decide_eq_false; cbn; by rewrite elem_of_list_to_set).
  destruct (ci_held _ _ _ _ HI _ _ Hv Hin) as [Einc _].
  apply list_elem_of_split in Hin as (h1 & h2 & Eh). apply (release_gone erase (h1 ++ h2)); [done|by rewrite Hc| |done|done].
  apply release_free; try done.
  - apply HI.
  - rewrite Eh. by rewrite <- (Permutation_middle h1), <- Permutation_middle.
  - intros q. split; [|by intros [? _]]. intros Hq. split; [done|]. by intros ->.
  - rewrite Eh. set_solver.
  - apply (lru_ok_frame s1); [exact release_lru|done| |done|done]. intros q e'. cbn. rewrite lookup_insert_Some.
    intros [[<- <-]|[_ Hq]]; [apply Hok|by apply (nonneg_heap _ _ _ _ HI q)].
  - rewrite SetInCache_id by exact Einc. exact Ev.
Qed.
End release.

Lemma Release_refines p erase : refines (ORelease p erase).
Proof.
  intros s [[held HV] Hcap] (e & He & Hr). pose proof HV as (HI & HL & HM). cbn [run]. unfold Release. wp_steps.
  eapply wp_deref; [exact He|]. unfold Handle.Unref, store. cbv beta iota zeta. wp_steps.
  destruct (release_entry held s p e HV He Hr) as (Hok & Er & Eo & Hn & Ev & Hv). rewrite Er.
  assert (Hpost : forall b s', released s p e erase b s' ->
    wp (mret (RBool b)) (fun r s' => inv s' /\ spec_step (abs s) (ORelease p erase) r (abs s')) s').
  { intros b s' [Hi Hs]. wp_steps. split; [done|]. exists (to_obj e). split; [|done]. cbn. by rewrite lookup_fmap, He. }
  assert (Hwhere : p ∈ ids (table_ s) \/ p ∈ held).
  { assert (Hp : p ∈ ids (table_ s) ++ held ++ [] ++ []) by (apply (ci_dom _ _ _ _ HI); by eexists). rewrite !app_nil_r in Hp. by apply elem_of_app. }
  destruct (Z.eqb_spec (refs e - 1) 0) as [Hlast|Hlast]; cbn [andb].
  - destruct Hwhere as [Hin|Hin].
    + pose proof (ci_cached _ _ _ _ HI _ _ Hv Hin) as Ein. cbn in Ein |- *. rewrite Ein.
      pose proof (wp_unbind _ _ _ _ (release_cached_last held s p e HV He Hr Hcap erase ltac:(lia) Hin)) as Hw.
      eapply wp_mono; [exact Hw|]. cbv beta. intros b s' Hb. eapply wp_mono; [exact Hb|exact Hpost].
    + pose proof (proj1 (ci_held _ _ _ _ HI _ _ Hv Hin)) as Ein. cbn in Ein |- *. rewrite Ein. wp_steps.
      eapply wp_mono; [apply (release_held_last held s p e HV He Hr Hcap erase); [lia|done]|exact Hpost].
  - wp_steps. eapply wp_mono; [apply (release_more held s p e HV He Hr Hcap erase); lia|exact Hpost].
Qed.

(** ** Erase *)

Lemma Erase_refines k h : refines (OErase k h).
Proof.
  intros s [[held HV] Hcap] Hh. pose proof HV as (HI & HL & HM). cbn [run]. unfold Erase. wp_steps.
  eapply wp_mono; [by apply (table_Remove_ok held [] [] (h, k) s HI)|]. intros [p|] s0 Hr; wp_steps.
  2: { destruct Hr as [-> Hnone]. split; [split; [by exists held|done]|]. split; [done|]. exists None. split; [|done].
       exact (bound_R held [] [] (abs s) s (h, k) None HI (R_abs s) Hnone). }
  destruct Hr as (Hin & Ek & tb & -> & HT & Hids). destruct (ids_live _ _ _ _ _ HI Hin) as (_ & e' & Hv).
  destruct (view_inv _ _ _ Hv) as (e & He & <-). apply (wp_update p e); [exact He|]. wp_steps.
  apply (wp_deref p (Handle.SetInCache false e)); [cbn [heap set_heap]; apply lookup_insert_eq|].
  set (s1 := set_heap (<[p := Handle.SetInCache false e]> (heap s)) (next_id s) (deleted s) (set_table tb s)).
  assert (Ev1 : view s1 = <[p := Handle.SetInCache false (noflags e)]> (view s)) by exact (view_insert p (Handle.SetInCache false e) (next_id s) (deleted s) (set_table tb s)).
  assert (Hb : bound (abs s) (h, k) (Some p)) by exact (bound_R held [] [] (abs s) s (h, k) (Some p) HI (R_abs s) (conj Hin Ek)).
  assert (Hobj : objs (abs s) !! p = Some (to_obj e)) by (cbn; by rewrite lookup_fmap, He).
  assert (HL1 : lru_ok s1).
  { apply (lru_ok_frame s); [done| |..|done|done].
    - intros q Hq. cbn. destruct (decide (q = p)) as [->|Hne]; [by rewrite lookup_insert_eq, He|by rewrite lookup_insert_ne].
    - intros q e'. cbn. rewrite lookup_insert_Some. intros [[<- <-]|[_ Hq]]; [|by apply (nonneg_heap _ _ _ _ HI q)].
      exact (nonneg_heap _ _ _ _ HI p e He). }
  destruct (ci_entry _ _ _ _ HI _ _ Hv) as (_ & _ & Hu & _). unfold is_u in Hu. cbn in Hu.
  unfold Handle.HasRefs. cbn [refs Handle.SetInCache]. unfold when. destruct (Z.ltb_spec 0 (refs e)) as [Hpos|Hzero]; cbn [negb].
  - wp_steps. destruct (uncache_hold held [] [] (abs s) s s1 p (noflags e)) as [HI1 HR1]; try done; [apply R_abs|].
    assert (HV1 : INV (p :: held) [] [] s1).
    { split_and!; [done|done|]. pose proof (ci_nodup _ _ _ _ HI) as HN. apply NoDup_app in HN as (HN & _). rewrite Hids in HN.
      apply NoDup_cons in HN as [HN _]. apply (members_change p s); [by intros q _; apply HM| |].
      - intros q Hq. rewrite Ev1, lookup_insert_ne by done. change (table_ s1) with tb. rewrite Hids, elem_of_cons. tauto.
      - split; [|by intros [? _]]. intros (_ & e' & He' & Hr')%HM. rewrite Hv in He'. injection He' as <-. cbn in Hr'. lia. }
    destruct (finish_now _ _ s1 HV1 HR1 Hcap) as [Hi Ea]. split; [exact Hi|]. split; [done|]. exists (Some p). split; [done|].
    refine (eq_trans Ea _). unfold unbind. rewrite Hobj. cbn [o_refs to_obj]. by rewrite (proj2 (Z.eqb_neq _ _)) by lia.
  - wp_steps. eapply wp_mono.
    { apply LRU_Remove_unlink; [exact HL1|]. change (p ∈ lru_ s). apply HM. split; [done|]. exists (noflags e). split; [done|]. cbn. lia. }
    intros [] s2 (HL2 & HC2 & Eh2 & El2). wp_steps. set (s3 := set_usage _ _ s2).
    destruct (core_eqs _ _ HC2) as (Ev & Eid & Ed & Ecap & Est & Et & Eus & Esec). destruct (core_limits _ _ HC2) as (Ehr & _).
    assert (Ev3 : view s3 = <[p := Handle.SetInCache false (noflags e)]> (view s)) by exact (eq_trans Ev Ev1).
    assert (Et3 : table_ s3 = tb) by exact Et.
    destruct (uncache_free held [] [] (abs s) s s3 p (noflags e)) as (HI3 & HR3 & Hu3); try done; try (by rewrite Et3); [apply R_abs|..].
    { unfold statics. cbn. by rewrite Eid, Ecap, Est, Esec, Ehr. }
    { cbn. by rewrite Eus. }
    assert (HV3 : INV held [p] [] s3).
    { split_and!; [done| |].
      - apply (lru_ok_frame s2); [done|done|by apply (nonneg_heap _ _ _ _ HI3)|done|done].
      - apply (members_uncache held [] [] s s3 p); [done|done|by rewrite Et3|exact El2|]. intros q Hq. by rewrite Ev3, lookup_insert_ne. }
    eapply wp_mono; [apply (release_finish held s s3 p HV3 HR3)|].
    { pose proof (nonneg_heap _ _ _ _ HI p e He). change (usage_ s3 <= capacity_ s2 \/ lru_ s2 = []). rewrite Ecap, El2. cbn in Hu3.
      destruct Hcap as [?|E]; [left; cbn; lia|right]. change (unlink p (lru_ s) = []). by rewrite E. }
    cbv beta. intros [] s4 [Hi Ea]. wp_steps. split; [done|]. split; [done|]. exists (Some p). split; [done|].
    rewrite Ea. unfold unbind. rewrite Hobj. cbn [o_refs to_obj]. by rewrite (proj2 (Z.eqb_eq _ _)) by lia.
Qed.

(** ** Limits *)

Lemma core_inv_limits held c st hr hc lr lc s : core_inv held [] [] s -> is_u 64 c -> core_inv held [] [] (set_limits c st hr hc lr lc s).
Proof. intros [I1 I2 I3 I4 I5 I6 I7 I8 I9 I10 I11] Hc. split; assumption. Qed.

Lemma pools_limits bot low hi c st hr hc lr lc s : pools bot low hi s -> f64_nonneg hr -> f64_nonneg hc -> f64_nonneg lr ->
  f64_nonneg lc -> pools bot low hi (set_limits c st hr hc lr lc s).
Proof.
  intros [[H1 H2 H3 H4 H5 H6 H7 H8 H9 H10 _] HL] Hr Hc Hl Hlc. split; [|exact HL]. split; try assumption. by split_and!.
Qed.

Lemma lru_caps s : lru_ok s -> exists bot low hi, pools bot low hi s /\
  f64_nonneg (high_pri_pool_capacity_ s) /\ f64_nonneg (low_pri_pool_capacity_ s) /\
  f64_nonneg (high_pri_pool_ratio_ s) /\ f64_nonneg (low_pri_pool_ratio_ s).
Proof. intros ((bot & low & hi & HP) & _). exists bot, low, hi. split; [done|]. apply HP. Qed.

Lemma pool_capacity_nonneg c r : is_u 64 c -> f64_nonneg r -> f64_nonneg (f64_mul (f64_of_Z c) r).
Proof. intros [Hc _] Hr. apply f64_mul_nonneg; [|done]. by apply f64_of_Z_nonneg. Qed.

Lemma SetCapacity_refines c : refines (OSetCapacity c).
Proof.
  intros s [[held HV] Hcap] [Hc Hfit]. pose proof HV as (HI & HL & HM). cbn [run]. unfold SetCapacity. wp_steps. set (s1 := set_limits _ _ _ _ _ _ s).
  assert (HV1 : INV held [] [] s1).
  { split_and!; [by apply core_inv_limits| |exact HM]. destruct (lru_caps s HL) as (bot & low & hi & HP & C1 & C2 & C3 & C4).
    split_and!; [exists bot, low, hi; by apply pools_limits; [..|apply pool_capacity_nonneg| |apply pool_capacity_nonneg]|apply HL|exact Hfit]. }
  eapply wp_mono; [apply (EvictFromLRU_ok 0 held [] (abs s1) s1 HV1 (R_abs s1)); lia|]. intros D s2 (HV2 & HR2 & Hev & _ & Hend). wp_steps.
  eapply wp_mono; [apply (finish_TryInsert held D _ s2 HV2 HR2)|].
  { destruct Hend; [left; lia|by right]. }
  cbv beta. intros [] s3 [Hi Ea]. wp_steps. split; [done|]. split; [done|]. exists D. by split.
Qed.

Lemma SetStrict_refines b : refines (OSetStrict b).
Proof.
  intros s [[held HV] Hcap] _. pose proof HV as (HI & HL & HM). cbn [run]. unfold SetStrictCapacityLimit. wp_steps.
  split; [|done]. split; [|exact Hcap]. exists held. split_and!; [apply core_inv_limits; [done|apply HI]| |exact HM].
  apply (lru_ok_frame s); [done|done|exact (nonneg_heap _ _ _ _ HI)|done|done].
Qed.

(** [MaintainPoolSize] after a change of the pool ratios. *)
Lemma maintain_ok held s c st hr hc lr lc : INV held [] [] s -> (usage_ s <= capacity_ s \/ lru_ s = []) -> c = capacity_ s ->
  f64_nonneg hr -> f64_nonneg hc -> f64_nonneg lr -> f64_nonneg lc ->
  wp MaintainPoolSize (fun _ s' => inv s' /\ abs s' = abs (set_limits c st hr hc lr lc s)) (set_limits c st hr hc lr lc s).
Proof.
  intros (HI & HL & HM) Hcap -> F1 F2 F3 F4. destruct (lru_caps s HL) as (bot & low & hi & HP & _). set (s1 := set_limits _ _ _ _ _ _ s).
  pose proof (core_inv_limits held (capacity_ s) st hr hc lr lc s HI (ci_cap _ _ _ _ HI)) as HI1. fold s1 in HI1.
  eapply wp_mono; [by apply (MaintainPoolSize_ok bot low hi); apply pools_limits|].
  intros [] s2 ((HC & El & Eu) & Hfit & _ & HP2). destruct (core_eqs _ _ HC) as (Ev & _ & _ & Ecap & _ & Et & Eus & _).
  pose proof (R_core _ _ _ _ _ HC (R_abs s1)) as HR2. rewrite El in HR2.
  assert (HV2 : INV held [] [] s2).
  { split_and!; [by apply (core_inv_core _ _ _ s1)| |].
    - split_and!; [done| |by intros _]. rewrite Eu, El, (core_sumc s1 s2 _ HC). apply HL.
    - intros q. rewrite El, Ev, Et. apply HM. }
  apply (finish_now held _ s2 HV2 HR2). rewrite Eus, Ecap, El. exact Hcap.
Qed.

Lemma SetHighRatio_refines r : refines (OSetHighRatio r).
Proof.
  intros s [[held HV] Hcap] Hr. pose proof HV as (HI & HL & HM). destruct (lru_caps s HL) as (_ & _ & _ & _ & C1 & C2 & C3 & C4).
  cbn [run]. unfold SetHighPriorityPoolRatio. wp_steps.
  eapply wp_mono; [apply (maintain_ok held s); try done; apply pool_capacity_nonneg; [apply HI|done]|].
  cbv beta. intros [] s' [Hi Ea]. wp_steps. split; [done|]. split; [done|]. by rewrite Ea.
Qed.
Lemma SetLowRatio_refines r : refines (OSetLowRatio r).
Proof.
  intros s [[held HV] Hcap] Hr. pose proof HV as (HI & HL & HM). destruct (lru_caps s HL) as (_ & _ & _ & _ & C1 & C2 & C3 & C4).
  cbn [run]. unfold SetLowPriorityPoolRatio. wp_steps.
  eapply wp_mono; [apply (maintain_ok held s); try done; apply pool_capacity_nonneg; [apply HI|done]|].
  cbv beta. intros [] s' [Hi Ea]. wp_steps. split; [done|]. split; [done|]. by rewrite Ea.
Qed.

Lemma EraseUnRef_refines : refines OEraseUnRef.
Proof.
  intros s [[held HV] Hcap] _. cbn [run]. unfold EraseUnRefEntries. wp_steps.
  eapply wp_mono; [apply (EraseUnRefEntries_loop_ok _ held [] (abs s) s HV (R_abs s)); lia|]. intros X s1 (HV1 & HR1 & El1).
  wp_steps. eapply wp_mono; [by apply (Free_all held X)|]. intros [] s2 [HV2 HR2]. wp_steps.
  destruct (finish held X _ s1 s2 HV1 HR1) as [Hi Ea]; [by right|done|done|]. split; [done|]. split; [done|exact Ea].
Qed.

Lemma run_refines o : refines o.
Proof.
  destruct o; [apply Insert_refines|apply Lookup_refines|apply Ref_refines|apply Release_refines|apply Erase_refines
    |apply SetCapacity_refines|apply SetStrict_refines|apply SetHighRatio_refines|apply SetLowRatio_refines|apply EraseUnRef_refines].
Qed.

(** ** New shards and sequences of operations *)

Lemma init_inv strict hr lr bits : f64_nonneg hr -> f64_nonneg lr ->
  inv (mk ∅ 0 [] 0 strict hr f64_0 lr f64_0 0 0 [] None None (LRUHandleTable.new bits) 0 0 (None : option S)).
Proof.
  intros Hh Hl. set (s := mk _ _ _ _ _ _ _ _ _ _ _ _ _ _ _ _ _ _). assert (Hids : ids (table_ s) = []) by done.
  split; [exists []|by right]. split_and!.
  - split; rewrite ?Hids; try done.
    + apply table_ok_new.
    + constructor.
    + intros p. change (is_Some (None (A := LRUHandle)) <-> p ∈ []). split; [by intros []|]. by intros ?%elem_of_nil.
    + by intros p [].
  - split_and!; [exists [], [], []|reflexivity|intros _; reflexivity]. split; [|reflexivity]. split; try done; constructor.
  - intros p. rewrite Hids. change (p ∈ [] <-> p ∈ [] /\ exists e, None (A := LRUHandle) = Some e /\ refs e = 0). set_solver.
Qed.

Lemma inv_new capacity strict hr lr bits : is_u 64 capacity -> f64_nonneg hr -> f64_nonneg lr ->
  exists s, new capacity strict hr lr bits (None : option S) = Some s /\ inv s.
Proof.
  intros Hc Hh Hl. pose proof (run_refines (OSetCapacity capacity) _ (init_inv strict hr lr bits Hh Hl)) as Hw.
  apply wp_run in Hw as (r & s & E & Hi & _).
  2: { split; [done|]. intros _. by apply f64_gtb_zero, pool_capacity_nonneg. }
  exists s. split; [|done]. unfold new. cbn [run] in E.
  unfold mbind, M_bind in E. destruct (SetCapacity _ _) as [[u s']|]; [|done]. injection E as _ <-. done.
Qed.

(** The states of a shard without a secondary cache whose callers keep their side. *)
Inductive reachable : t S -> Prop :=
  | reach_new capacity strict hr lr bits s :
      is_u 64 capacity -> f64_nonneg hr -> f64_nonneg lr -> new capacity strict hr lr bits None = Some s -> reachable s
  | reach_step s o r s' : reachable s -> pre s o -> run o s = Some (r, s') -> reachable s'.

Lemma reachable_inv s : reachable s -> inv s.
Proof.
  induction 1 as [capacity strict hr lr bits s Hc Hh Hl E|s o r s' _ IH Hp E].
  - destruct (inv_new capacity strict hr lr bits Hc Hh Hl) as (s' & E' & Hi). congruence.
  - pose proof (run_refines o s IH Hp) as Hw. unfold wp in Hw. rewrite E in Hw. apply Hw.
Qed.

(** C9: a shard without a secondary cache, which its callers have used as [pre] says from its creation on (charges
    that are not negative and add up to less than 2^53, fewer than 2^32 entries and references, handles referenced
    and released only while held, ratios that are not negative, and no capacity below what the high-priority pool
    needs while there is a low-priority pool), is defined on every next operation that keeps to [pre] (no null or dangling
    pointer is followed, no uninitialised field read, every loop ends). The operation refines its specification:
    what it answers, which objects stay visible, which go away, that exactly those are handed to their deleter,
    once, and that objects go away only over capacity, in the order of the LRU list and no more than needed.
    Without the last condition of [pre] it can be undefined: [shrink_then_low_insert_undefined]. *)
Theorem lru_operation_refines s o : reachable s -> pre s o ->
  exists r s', run o s = Some (r, s') /\ reachable s' /\ spec_step (abs s) o r (abs s').
Proof.
  intros Hs Hp. pose proof (run_refines o s (reachable_inv s Hs) Hp) as Hw. apply wp_run in Hw as (r & s' & E & Hi & Hspec).
  exists r, s'. split_and!; [done|by apply (reach_step s o r)|done].
Qed.

(** ** What holds of every reachable state *)

Definition referenced (o : obj) : bool := negb (o_refs o =? 0).
Definition pinned (o : gmap nat obj) : gmap nat obj := filter (fun x => referenced x.2 = true) o.

Lemma total_insert (o : gmap nat obj) p x : o !! p = None -> total (<[p := x]> o) = o_charge x + total o.
Proof. intros Hp. unfold total. by rewrite map_fold_insert_L by (done || (intros; lia)). Qed.

Lemma total_split (o : gmap nat obj) (P : obj -> bool) :
  total o = total (filter (fun x => P x.2 = true) o) + total (filter (fun x => P x.2 = false) o).
Proof.
  induction o as [|p x o Hp IH] using map_ind; [done|]. rewrite total_insert, IH by done.
  assert (Hn : forall b, filter (fun y : nat * obj => P y.2 = b) o !! p = None) by (intros b; apply map_lookup_filter_None; by left).
  destruct (P x) eqn:E.
  - rewrite (map_filter_insert_True (fun y => P y.2 = true)), (map_filter_insert_False (fun y => P y.2 = false)) by (cbn; congruence).
    rewrite total_insert, delete_id by done. lia.
  - rewrite (map_filter_insert_True (fun y => P y.2 = false)), (map_filter_insert_False (fun y => P y.2 = true)) by (cbn; congruence).
    rewrite (total_insert _ p), delete_id by done. lia.
Qed.

Lemma abs_obj s p o : objs (abs s) !! p = Some o -> exists e, heap s !! p = Some e /\ to_obj e = o.
Proof. intros Ho. cbn in Ho. rewrite lookup_fmap in Ho. destruct (heap s !! p) as [e|]; [|done]. injection Ho as <-. by exists e. Qed.

Lemma obj_lru held s p o : INV held [] [] s -> objs (abs s) !! p = Some o ->
  (o_refs o = 0 <-> p ∈ lru_ s) /\ (o_refs o = 0 -> p ∈ ids (table_ s)).
Proof.
  intros (HI & HL & HM) (e & He%view_lookup & <-)%abs_obj. rewrite (HM p). cbn [o_refs to_obj].
  assert (Hd : p ∈ ids (table_ s) ++ held ++ [] ++ []) by (apply (ci_dom _ _ _ _ HI); by eexists). rewrite !app_nil_r in Hd.
  assert (Hin : refs e = 0 -> p ∈ ids (table_ s)).
  { intros Hr. apply elem_of_app in Hd as [?|Hh]; [done|]. destruct (ci_held _ _ _ _ HI _ _ He Hh) as [_ Hpos]. cbn in Hpos. lia. }
  split; [|done]. split; [by eauto|]. intros (_ & e' & He' & Hr). rewrite He in He'. by injection He' as <-.
Qed.

Lemma unreferenced_total held s : INV held [] [] s ->
  total (filter (fun x => referenced x.2 = false) (objs (abs s))) = lru_usage_ s.
Proof.
  intros HV. pose proof HV as (HI & HL & HM). rewrite (proj1 (proj2 HL)).
  assert (Hlru : forall p, p ∈ lru_ s -> exists e, heap s !! p = Some e /\
    filter (fun x => referenced x.2 = false) (objs (abs s)) !! p = Some (to_obj e)).
  { intros p (_ & e & (e' & He' & <-)%view_inv & Hr)%HM. exists e'. split; [done|]. apply map_lookup_filter_Some_2.
    - cbn. by rewrite lookup_fmap, He'.
    - unfold referenced. cbn in *. by rewrite Hr. }
  rewrite (total_list _ (lru_ s)); [|by apply lru_nodup|].
  - unfold sumc. apply (sum_ext (fun p => from_option o_charge 0 (filter (fun x => referenced x.2 = false) (objs (abs s)) !! p)) (charge_of (heap s))).
    intros p Hp. destruct (Hlru p Hp) as (e & He & ->). unfold charge_of. by rewrite He.
  - intros p. split; [|intros (e & _ & ->)%Hlru; done]. intros [o [Ho Hr]%map_lookup_filter_Some]. unfold referenced in Hr. cbn in Hr.
    apply (obj_lru held s p o HV Ho). by apply negb_false_iff, Z.eqb_eq in Hr.
Qed.

Lemma total_nonneg (o : gmap nat obj) : (forall p x, o !! p = Some x -> 0 <= o_charge x) -> 0 <= total o.
Proof.
  induction o as [|p x o Hp IH] using map_ind; intros Ho; [done|]. rewrite total_insert by done.
  pose proof (Ho p x (lookup_insert_eq _ _ _)). assert (0 <= total o); [|lia]. apply IH. intros q y Hq. apply (Ho q y).
  rewrite lookup_insert_ne; [done|]. intros <-. congruence.
Qed.

Lemma pinned_nonneg held s : INV held [] [] s -> 0 <= total (pinned (objs (abs s))).
Proof.
  intros (HI & _). apply total_nonneg. intros p x [Hx _]%map_lookup_filter_Some. destruct (abs_obj _ _ _ Hx) as (e & He & <-).
  exact (nonneg_heap _ _ _ _ HI p e He).
Qed.

(** C27: a shard without a secondary cache is well formed in every state that callers who keep to [pre] can bring it
    to: [GetUsage] is the total charge of the live objects and [GetPinnedUsage] that of the referenced
    ones, [GetOccupancyCount] is the number of visible objects, visible objects have distinct keys, an object without
    references is visible and in the LRU list exactly once, and only referenced objects can keep the usage above
    the capacity. With a secondary cache the usage can be wrong: [promote_full_defects]. *)
Theorem lru_well_formed s : reachable s ->
  GetUsage s = total (objs (abs s)) /\ GetPinnedUsage s = total (pinned (objs (abs s))) /\
  GetOccupancyCount s = Z.of_nat (size (cached (abs s))) /\
  (forall p q o o', p ∈ cached (abs s) -> q ∈ cached (abs s) -> objs (abs s) !! p = Some o -> objs (abs s) !! q = Some o' ->
    o_key o = o_key o' -> p = q) /\
  NoDup (order (abs s)) /\
  (forall p o, objs (abs s) !! p = Some o -> (o_refs o = 0 <-> p ∈ order (abs s)) /\ (o_refs o = 0 -> p ∈ cached (abs s))) /\
  (GetUsage s <= capacity (abs s) \/ order (abs s) = []).
Proof.
  intros Hs. destruct (reachable_inv s Hs) as [[held HV] Hcap]. pose proof HV as (HI & HL & HM).
  pose proof (R_total _ _ _ _ _ HI (R_abs s)) as Ht.
  split_and!.
  - done.
  - unfold GetPinnedUsage. rewrite <- Ht, (total_split (objs (abs s)) referenced).
    assert (Hlru : total (filter (fun x => referenced x.2 = false) (objs (abs s))) = lru_usage_ s) by (by apply (unreferenced_total held)).
    pose proof (inv_usage _ _ _ _ HI) as Hu. rewrite <- Ht, (total_split (objs (abs s)) referenced) in Hu. fold (pinned (objs (abs s))) in *.
    assert (0 <= lru_usage_ s) by (rewrite (proj1 (proj2 HL)); apply sumc_nonneg, (nonneg_heap _ _ _ _ HI)).
    assert (0 <= total (pinned (objs (abs s)))) by (by apply (pinned_nonneg held)). rewrite u64_small; lia.
  - unfold GetOccupancyCount. rewrite (proj1 (tk_elems _ _ (ci_table _ _ _ _ HI))). f_equal. cbn [cached abs].
    pose proof (ci_nodup _ _ _ _ HI) as HN. apply NoDup_app in HN as (HN & _). by rewrite size_list_to_set.
  - intros p q o o' Hp Hq Ho Ho' Ek. cbn in Hp, Hq. rewrite elem_of_list_to_set in Hp, Hq.
    destruct (abs_obj _ _ _ Ho) as (e & He%view_lookup & <-), (abs_obj _ _ _ Ho') as (e' & He'%view_lookup & <-).
    apply (hk_inj (hk (view s)) (table_ s)); [apply HI|done|done|]. by rewrite (hk_lookup _ _ _ He), (hk_lookup _ _ _ He').
  - by apply lru_nodup.
  - intros p o Ho. destruct (obj_lru held s p o HV Ho) as [H1 H2]. split; [done|]. intros Hr. cbn. apply elem_of_list_to_set. by apply H2.
  - exact Hcap.
Qed.
End ops.

(** ** Witnesses and defects *)

(** Sequences of operations. *)
Fixpoint run_all {S} `{SecondaryCache S} `{Config} (l : list op) : M (t S) (list result) :=
  match l with
  | [] => mret []
  | o :: l => r ← run o; rs ← run_all l; mret (r :: rs)
  end.

(** Metadata is not charged. *)
#[local] Instance no_metadata_charge : Config := {| kFullChargeCacheMetadata := false; usable_size _ _ := 0 |}.

(** A secondary cache that finds every key, with the same value and size; its state is whether it
    supports forced erasure. *)
#[local] Instance constant_secondary : SecondaryCache bool := {|
  sec_SupportForceErase c := c;
  sec_Insert _ _ c := c;
  sec_Lookup _ _ _ c := (Some (mkSecResult (Some 9) 80, true), c);
  sec_IsReady _ _ := true;
|}.

Definition f64_half : spec_float := f64_div (f64_of_Z 1) (f64_of_Z 2).

Lemma reachable_example : exists s : t bool, new 100 true f64_half f64_half 28 None = Some s /\ reachable s /\ usage_ s = 0 /\
  LRUHandleTable.elems_ (table_ s) = 0.
Proof.
  destruct (new 100 true f64_half f64_half 28 (None : option bool)) as [s|] eqn:E; [|by vm_compute in E]. exists s.
  split; [done|]. split; [by apply (reach_new 100 true f64_half f64_half 28)|]. vm_compute in E. by injection E as <-.
Qed.

Lemma lru_operation_refines_witness : exists s : t bool, reachable s /\
  exists r s', run (OInsert [1] 1 (Some 7) 50 true false true HIGH) s = Some (r, s') /\ reachable s' /\
    spec_step (abs s) (OInsert [1] 1 (Some 7) 50 true false true HIGH) r (abs s').
Proof.
  destruct reachable_example as (s & _ & Hs & Hu & He). exists s. split; [exact Hs|]. apply (lru_operation_refines s _ Hs).
  split; [done|]. split; [done|]. split; [done|]. split; [|by rewrite He]. intros p. split; [done|]. by rewrite Hu.
Defined.

(** A shard with an entry that is held and one that is not. *)
Lemma reachable_filled : exists s : t bool, reachable s /\ GetUsage s = 80 /\ GetPinnedUsage s = 50 /\ GetOccupancyCount s = 2.
Proof.
  destruct (new 100 true f64_half f64_half 28 (None : option bool)) as [s0|] eqn:E0; [|by vm_compute in E0].
  assert (R0 : reachable s0) by (by apply (reach_new 100 true f64_half f64_half 28)).
  vm_compute in E0. injection E0 as <-. match type of R0 with reachable ?x => set (s0 := x) in * end.
  set (o1 := OInsert [1] 1 (Some 7) 50 true false true HIGH). set (o2 := OInsert [2] 2 (Some 8) 30 true false false LOW).
  destruct (run o1 s0) as [[r1 s1]|] eqn:E1; [|by vm_compute in E1].
  assert (R1 : reachable s1) by (apply (reach_step s0 o1 r1 s1 R0); [repeat split; try done; by intros|exact E1]).
  vm_compute in E1. injection E1 as _ <-. match type of R1 with reachable ?x => set (s1 := x) in * end.
  destruct (run o2 s1) as [[r2 s2]|] eqn:E2; [|by vm_compute in E2].
  exists s2. split; [apply (reach_step s1 o2 r2 s2 R1); [repeat split; try done; by intros|exact E2]|].
  vm_compute in E2. injection E2 as _ <-. by vm_compute.
Qed.

Lemma lru_well_formed_witness : exists s : t bool, reachable s /\ total (objs (abs s)) = 80 /\ total (pinned (objs (abs s))) = 50 /\
  size (cached (abs s)) = 2%nat.
Proof.
  destruct reachable_filled as (s & Hs & Hu & Hp & Ho). exists s. split; [exact Hs|].
  destruct (lru_well_formed s Hs) as (Eu & Ep & Eo & _). rewrite Hu in Eu. rewrite Hp in Ep. rewrite Ho in Eo.
  split; [by symmetry|]. split; [by symmetry|]. by apply Nat2Z.inj.
Defined.

(** [SetCapacity] does not restore the bound of the high-priority pool, and [LRU_Insert] into the
    low-priority pool calls [MaintainPoolSize] before it moves [lru_low_pri_] past the new entry. So after a
    shrink that leaves the high-priority pool too large, such an insertion moves the new entry itself out of the
    high-priority pool, walks the whole list and reads the dummy head: undefined behaviour from calls that are all
    within the interface. *)
Theorem shrink_then_low_insert_undefined :
  exists s : t bool, new 100 false f64_half f64_half 28 None = Some s /\
  (exists r s', run_all [OInsert [1] 1 (Some 7) 50 true false false HIGH; OSetCapacity 60] s = Some (r, s') /\
    usage_ s' = 50 /\ high_pri_pool_usage_ s' = 50 /\ f64_gtb (f64_of_Z 50) (high_pri_pool_capacity_ s') = true) /\
  run_all [OInsert [1] 1 (Some 7) 50 true false false HIGH; OSetCapacity 60;
           OInsert [2] 2 (Some 8) 10 true false false LOW] s = None.
Proof.
  destruct (new 100 false f64_half f64_half 28 (None : option bool)) as [s|] eqn:E; [|by vm_compute in E].
  exists s. split; [done|]. vm_compute in E. injection E as <-. split; [|vm_compute; reflexivity].
  do 2 eexists. split; [vm_compute; reflexivity|]. vm_compute. done.
Qed.

(** Two defects of looking a key up in a secondary cache while the cache is full and the capacity
    strict. With forced erasure, [Promote] frees the entry, sets its pointer to null and then reads through
    it. Without, the entry is handed out uncharged, but [Release] subtracts its charge and the usage
    wraps around below zero. *)
Theorem promote_full_defects :
  (exists s : t bool, new 100 true f64_0 f64_0 28 (Some true) = Some s /\
   run_all [OInsert [1] 1 (Some 7) 50 true false true HIGH; OLookup [2] 2 (Some true) HIGH true] s = None) /\
  (exists s : t bool, new 100 true f64_0 f64_0 28 (Some false) = Some s /\
   exists s', run_all [OInsert [1] 1 (Some 7) 50 true false true HIGH; OLookup [2] 2 (Some true) HIGH true;
                       ORelease 1 false] s =
                Some ([RInsert St.OK (Some 0%nat); RHandle (Some 1%nat); RBool true], s') /\
              GetUsage s' = 2 ^ 64 - 30).
Proof.
  split.
  - eexists. split; [vm_compute; reflexivity|]. vm_compute. reflexivity.
  - eexists. split; [vm_compute; reflexivity|]. eexists. split; [vm_compute; reflexivity|]. vm_compute. reflexivity.
Qed.
